(* ===== verification/_CoqProject ===== *)
-Q . S2P
Prelude.v
Utf8.v
Wire.v
Segment.v
PvdTypes.v
PvdEncode.v
PvdDecode.v
PvdSafety.v
PvdRoundtrip.v
PvdDelta.v
Monitor.v
PvRequest.v
Packet.v
Message.v
NtTypes.v
NtEncode.v
NtView.v
NtTree.v
NtDelta.v
NtWire.v
DataFrames.v
Bridge.v
BridgeMerge.v
BridgeOwned.v
DeltaWire.v
MonitorHub.v
Gateway.v
Pipeline.v
ConnWriter.v
Channels.v
F64.v
Text.v
Ioc.v
IocSafe.v
UnionFind.v
LockSet.v
ScanList.v
Scanner.v
DecodedText.v
IocSource.v
Chars.v
Acf.v
Access.v
NegCache.v
GatewaySource.v
MonitorCache.v
Calc.v
CalcParse.v
CalcEval.v
CalcGrammar.v
Registry.v
Cycles.v
Graph.v
GraphProc.v
PutEncode.v
PutDecode.v
Convert.v
JsonNumber.v
PutRoundtrip.v
Records.v
Apply.v
WritePaths.v
SimpleStore.v
ClientPut.v
Fields.v
IocBuild.v
IocEngine.v
