(* ===== verification/Prelude.v ===== *)
(** * spvirit: a PVAccess codec, client, server, IOC and gateway

    [spvirit] is an implementation of EPICS PVAccess in Rust.  This development
    models the crates that carry its own logic as Rocq functions and step
    relations, translated from the source, and proves what makes them correct.

    ** The program and its model

    The codec ([spvirit-codec]) turns typed values into frames and back; every
    other part is a client of it.
    - [Prelude]: machine integers as [Z] with their wrap-around, byte lists,
      the outcome type (a value, an error, a Rust panic) with its monad, the
      decoder monad, tactics, hint databases and shared lemmas.  [Utf8]: the
      validation and lossy replacement of the standard library.
    - [Wire]: [error.rs], [encode_common.rs] (sizes, strings, decode errors).
    - [Segment]: [segment.rs], the reassembler of segmented messages.
    - [PvdTypes], [PvdEncode], [PvdDecode]: types, values, encoder and decoder
      of pvData ([spvd_decode.rs], [spvd_encode.rs]).  The decoder keeps the
      source's state: nesting depth, node budget, type registry.
      [PvdSafety]: no call panics or leaves the depth or the budget behind, and
      what is built is bounded.  [PvdRoundtrip], [PvdDelta]: encoding and
      decoding agree, for whole values and for updates selected by a bit set.
    - [Monitor]: [monitor.rs], decoding of MONITOR updates, strict and lenient.
    - [PvRequest]: the field selections and options of a request and the
      descriptor they select ([spvd_encode.rs]).
    - [Packet]: [epics_decode.rs], the header and the payload of every command.
      [Message], [DataFrames]: [spvirit_encode.rs], every frame builder.
    - [NtTypes] ([spvirit-types/src/lib.rs]), [NtEncode], [NtView], [NtDelta]
      ([spvd_encode.rs]): the normative types, their encoding, the in-place walk
      over a payload, filtered and delta encodings.  [NtTree] relates that walk
      to the tree of values it avoids building, [NtWire] to the wire.

    Around the codec, the delivery of MONITOR updates from a post in a server to
    the payload a gateway hands on:
    - [MonitorHub]: the subscriptions of a PV and the fan-out of a post
      ([spvirit-server/src/monitor.rs]).
    - [Pipeline]: credit-based flow control between the handler of the server
      ([handler.rs]) and the loop of the client ([pva_client.rs]), with the
      frames in flight as part of the state.
    - [ConnWriter]: [conn_writer.rs], the two lanes of a connection, the
      election of the flusher and its drain loop, as a step relation over
      producers, flusher and socket.
    - [Bridge], [BridgeMerge], [BridgeOwned]: [spvirit-gateway/src/bridge.rs],
      the merges of an update into the last value and the patch of the cached
      payload; the class [Tree] states what both trees promise to the merge.
      [DeltaWire], [Gateway]: what a server encodes arrives in the gateway.

    The server's channels and its search path:
    - [Channels]: the channel tables, the rows per request and the monitor
      bindings of a connection ([handler.rs], [state.rs]).
    - [Registry]: [pvstore.rs], [search_resolve.rs], the ordered sources, the memo
      of resolved names and the background resolutions, as an interleaving.

    PUT, from the client to the record and its monitors:
    - [PutEncode] ([spvirit-client/src/put_encode.rs]): JSON input against a type.
      [PutDecode] ([spvirit-server/src/decode.rs]): the strategies of the server.
      [JsonNumber]: the number a JSON value stands for, as an integer or rounded,
      apart from the code that converts it.  [PutRoundtrip] relates the two ends.
    - [Convert], [Records], [Apply]: [convert.rs], [types.rs], [apply.rs], the
      checked conversions, the record model with its host writes, the application
      of a PUT.  [WritePaths] compares the two ways to write a value.
    - [SimpleStore]: [simple_store.rs], the in-memory store with its subscribers,
      deadbands, validators and link propagation.
    - [ClientPut]: a client's PUT through all of the above.
    - [Fields]: [record_fields.rs], [field_provider.rs], channels for the fields
      of records; the class [RecordFieldProvider] is the interface both stores
      implement and [FieldLaws] the promise it documents.

    The IOC ([spvirit-ioc]):
    - [F64], [Text]: IEEE 754 on bit patterns, parsing and trimming as the
      standard library does them.
    - [Ioc]: [process.rs], [model.rs], [alarm.rs], [ctx.rs], records, links and
      both halves of a pass.  Device support is a parameter that gets the whole
      context of a pass and may panic.  [IocSafe]: what a pass keeps, for any device
      support that pairs [push_depth] with [pop_depth] (the class [Balanced]); the
      class [Posts] names the events and the deferred records that are its own.
    - [UnionFind], [LockSet]: [lockset.rs], the partition of the records and the
      database built from it.
    - [ScanList], [Scanner]: [scan/], the ordered scan list, the SCAN menu, the
      registration of records and the periods; a write to SCAN, PHAS or EVNT is a
      task that takes its critical sections one by one, between those of others.
    - [IocSource]: [source.rs], the passes of puts, sweeps, scans and completions
      and their egress.  [IocBuild]: [build.rs], [fields.rs], records from the
      fields of a database and fields from records.  [DecodedText]: the text of a
      decoded value and the readings of one that is put to a scan field.
      [IocEngine]: the engine [from_raw] starts, its claims, searches, reads, puts
      and subscriptions for records and fields, the start and the end of scanning,
      and its sessions.
    - [Cycles], [Graph], [GraphProc]: [graph.rs], the link graph, the iterative
      search for cycles, and what it says of processing.
    - [Calc], [CalcParse], [CalcEval], [CalcGrammar]: [spvirit-calc], the compiler
      of calc expressions to stack code, its evaluator, and the grammar with its
      meaning that they are compared with.

    The gateway's decisions and caches ([spvirit-gateway]):
    - [Chars], [Acf], [Access]: characters, the parser of access security files,
      pvlists, templates and the decision.
    - [NegCache], [GatewaySource], [MonitorCache]: the negative cache, claims,
      gets and puts with their concurrent lookups and bans, and the upstream
      subscriptions shared by downstream ones with their supervisor.

    ** What the theorems show

    - Safety: a decoder session, a packet decode and a MONITOR update never
      panic whatever the bytes, and the depth and size of what they build stay
      within the limits.
    - Round trips: descriptors, values, deltas, payloads, requests, frames and
      messages come back as they were sent, also behind other bytes.
    - Equivalence: each optimised routine (subtree counts, in-place walks, delta
      without a tree, single-buffer frames, owned merge, in-place patch,
      deferred fan-out) agrees with the plain definition it replaces.
    - Refinement: the merge implements the overlay of flagged fields, for updates
      whose bit set names fields and not whole structures; a gateway that follows a
      server holds the last payload posted, from the full frames this server sends
      and from the deltas of the codec where these are exact; the writer delivers
      control frames in order and the last frame of each monitor.
    - Invariants, liveness and termination: the reassembler's cap, the credit
      window, the writer's election and backlog; the pipeline never stalls
      within the ceiling and does above it; the drain loop ends.
    - PUT: what a client encodes is what the server decodes, with the numbers a
      64-bit integer or a float cannot hold saturated; a PUT stores the
      value it was sent or refuses and changes nothing; the host's writes and the
      wire's agree where both accept; a value a client puts reaches the record;
      a write leaves every link computed from the values it propagated to.
    - IOC: a pass panics only when device support does, a session never, whatever
      is put to records and fields and however the sections of scan writes are
      interleaved, and both keep names, kinds, links and types;
      lock sets are the connected components of the links;
      cycles are found exactly and records the graph calls unreachable are left
      alone; scan lists stay ordered, and a record whose writes do not overlap is on
      the one list its fields name once they are done; an engine
      loaded from a database serves what it announced, in its advertised structure.
    - Calc: compiled code evaluates to the meaning of the expression in the
      grammar, and accepted code never underflows its stack.
    - Search and gateway: an answer given from memory is vouched for by a source
      or a recent resolution of the same identity, with bounded memory and tasks;
      an upstream is reached only after its vetting; access decisions implement
      the rules; no subscriber is left silent and no upstream is leaked.
    - Errors and boundaries: where the code does something other than it means
      to, a theorem states it (the manifest's findings).

    ** Conventions

    A panic is an outcome, so totality is a theorem.  Recursion that is not
    structural carries fuel that is shown to be enough: the decoder's is its
    depth limit plus one (deeper nesting is refused by the depth guard first),
    the walk over a payload uses the rank of the node, [patch_fields] the length
    of the path, [process] the depth cap of the code, a find in the union-find the
    length of its array, a bisection the length of the list, tokenizers and the
    splitting of words the length of the text, the access parser the number of
    tokens, checker and evaluator of calc code its length plus one, the search for
    cycles nodes times edges plus one, link propagation the square of the number of
    links; the fuel of [process_ids] bounds the nesting of deferred batches, which
    the code does not bound: it runs out only if device support defers records.
    Code outside the repository is a parameter with its documented behaviour as a
    named hypothesis: transcendental functions, regular expressions, the order of
    hash maps, device support, the text of floats ([FloatText]), hexadecimal text
    ([HexText]), the functions of links and the validators of PUTs.  The clock is
    an argument. Floats are their bit patterns with the comparisons of IEEE
    754 written on them. [HashMap] is [gmap]; where its iteration order is
    observable the order is left open. Locks and [await] points become the
    steps of a relation; one step is one critical section.

    ** Not modelled

    Sockets, timers and task spawning; [Display] output other than of a decoded
    value; byte counters and
    diagnostics; command-line tools, the terminal UI and the Python bindings,
    which are front ends of the crates above.  The search engine, the
    channel cache and the transport of the client are asynchronous socket code
    around the codec; the parser of [.db] text works with regular expressions of
    a third-party library; the builder of the server only registers what the
    modelled parts do; the loop guard of the gateway is constructed from DNS and
    network interfaces.  The data phases and the replies of the connection
    handler, the pump tasks of the monitor registry and the loops of the scan
    threads are described by the operations they call, which are modelled. *)

From stdpp Require Export base list numbers strings.
From Stdlib Require Export ZArith Lia.

Local Open Scope Z_scope.

(** ** Machine integers

    A [u8], [u16], [u32], [u64] or [usize] of the source is a [Z] in its range,
    a signed integer a [Z] in the two's complement range.  [usize] is 64 bits
    wide. *)

Definition u32_max : Z := 2 ^ 32 - 1.
Definition usize_max : Z := 2 ^ 64 - 1.

(** [v as u32], [v as u16]: truncation to the low bits. *)
Definition as_u32 (v : Z) : Z := v mod 2 ^ 32.

(** [a.saturating_add(b)], [a.saturating_mul(b)], [a.saturating_sub(b)] on
    [usize]. *)
Definition saturating_add (a b : Z) : Z := Z.min (a + b) usize_max.
Definition saturating_mul (a b : Z) : Z := Z.min (a * b) usize_max.
Definition saturating_sub (a b : Z) : Z := Z.max (a - b) 0.

(** Reinterpretation of a [w]-bit pattern as a signed integer. *)
Definition to_signed (w : Z) (u : Z) : Z :=
  if u <? 2 ^ (w - 1) then u else u - 2 ^ w.

Definition byte_ok (b : Z) : Prop := 0 <= b < 256.

Abbreviation bytes := (list Z).
Abbreviation bytes_ok := (Forall byte_ok).

(** [slice.len()] as a [usize]. *)
Definition zlen {A} (l : list A) : Z := Z.of_nat (length l).

(** [to_le_bytes], [to_be_bytes], [from_le_bytes], [from_be_bytes] on an
    [n]-byte integer.  Division and remainder round towards minus infinity, so
    a negative [v] is written in two's complement. *)
Fixpoint to_le_bytes (n : nat) (v : Z) : bytes :=
  match n with
  | O => []
  | S n => v mod 256 :: to_le_bytes n (v / 256)
  end.

Definition to_be_bytes (n : nat) (v : Z) : bytes := rev (to_le_bytes n v).

Fixpoint from_le_bytes (l : bytes) : Z :=
  match l with
  | [] => 0
  | b :: l => b + 256 * from_le_bytes l
  end.

Definition from_be_bytes (l : bytes) : Z := from_le_bytes (rev l).

(** The [if is_be { ..to_be_bytes() } else { ..to_le_bytes() }] idiom of the
    codec and its inverse. *)
Definition put_int (is_be : bool) (n : nat) (v : Z) : bytes :=
  if is_be then to_be_bytes n v else to_le_bytes n v.

Definition get_int (is_be : bool) (l : bytes) : Z :=
  if is_be then from_be_bytes l else from_le_bytes l.

(** A source string literal as its UTF-8 bytes (the literals of the source are
    ASCII). *)
Definition str (s : string) : bytes :=
  map (fun a => Z.of_N (Ascii.N_of_ascii a)) (String.list_ascii_of_string s).
Arguments str _%_string_scope.

(** ** Outcomes

    What a call of the source can do: return [Ok] or [Err], panic (an index or
    slice out of range, an arithmetic underflow), or, in the model only, run
    out of the fuel that bounds a recursion.  The safety theorems show that the
    last two never happen. *)
Inductive outcome (E A : Type) : Type :=
| Ok (a : A)
| Err (e : E)
| Panic
| OutOfFuel.
Arguments Ok {E A} a.
Arguments Err {E A} e.
Arguments Panic {E A}.
Arguments OutOfFuel {E A}.

Definition bind_outcome {E A B} (m : outcome E A) (k : A -> outcome E B) : outcome E B :=
  match m with
  | Ok a => k a
  | Err e => Err e
  | Panic => Panic
  | OutOfFuel => OutOfFuel
  end.

Definition map_err {E F A} (f : E -> F) (m : outcome E A) : outcome F A :=
  match m with
  | Ok a => Ok a
  | Err e => Err (f e)
  | Panic => Panic
  | OutOfFuel => OutOfFuel
  end.

Declare Scope codec_scope.
Delimit Scope codec_scope with codec.

Notation "'let?' p := m 'in' k" :=
  (bind_outcome m (fun x => match x with p => k end))
  (at level 10, p pattern, m at level 100, k at level 200) : codec_scope.

(** [r.ok()]: the error is dropped.  A panic is not a value and stays visible. *)
Definition outcome_ok {E A} (m : outcome E A) : option A :=
  match m with Ok a => Some a | _ => None end.

(** Indexing and slicing, which panic out of range. *)
Definition index {E} (data : bytes) (i : Z) : outcome E Z :=
  if (0 <=? i) && (i <? zlen data) then Ok (nth (Z.to_nat i) data 0) else Panic.

Definition slice_from {E A} (data : list A) (off : Z) : outcome E (list A) :=
  if (0 <=? off) && (off <=? zlen data) then Ok (drop (Z.to_nat off) data) else Panic.

Definition slice {E A} (data : list A) (lo hi : Z) : outcome E (list A) :=
  if (0 <=? lo) && (lo <=? hi) && (hi <=? zlen data)
  then Ok (take (Z.to_nat (hi - lo)) (drop (Z.to_nat lo) data)) else Panic.

(** ** Hint databases and tactics *)

Create HintDb codec.
Create Rewrite HintDb codec_len.

(** Case analysis on the innermost scrutinee of a [match] or [if]. *)
Ltac case_inner t k :=
  match t with
  | context [match ?x with _ => _ end] => case_inner x k
  | context [if ?x then _ else _] => case_inner x k
  | _ => k t
  end.

Ltac split_match :=
  match goal with
  | |- context [match ?x with _ => _ end] => case_inner x ltac:(fun y => destruct y eqn:?)
  | H : context [match ?x with _ => _ end] |- _ =>
      case_inner x ltac:(fun y => destruct y eqn:?)
  end.

(** Turn every boolean comparison in the context into the proposition. *)
Ltac bool_to_prop :=
  repeat match goal with
  | H : (_ && _) = true |- _ => apply andb_true_iff in H as [? ?]
  | H : (_ || _) = false |- _ => apply orb_false_iff in H as [? ?]
  | H : (_ || _) = true |- _ => apply orb_true_iff in H
  | H : negb _ = true |- _ => apply negb_true_iff in H
  | H : negb _ = false |- _ => apply negb_false_iff in H
  | H : (_ =? _)%Z = true |- _ => apply Z.eqb_eq in H
  | H : (_ =? _)%Z = false |- _ => apply Z.eqb_neq in H
  | H : (_ <? _)%Z = true |- _ => apply Z.ltb_lt in H
  | H : (_ <? _)%Z = false |- _ => apply Z.ltb_ge in H
  | H : (_ <=? _)%Z = true |- _ => apply Z.leb_le in H
  | H : (_ <=? _)%Z = false |- _ => apply Z.leb_gt in H
  | H : (_ >? _)%Z = true |- _ => apply Z.gtb_lt in H
  | H : (_ >? _)%Z = false |- _ => rewrite Z.gtb_ltb in H; apply Z.ltb_ge in H
  end.

(** ** Lists and lengths *)

Lemma zlen_nonneg {A} (l : list A) : 0 <= zlen l.
Proof. unfold zlen. lia. Qed.
#[export] Hint Resolve zlen_nonneg : codec.

Lemma zlen_nil {A} : zlen (@nil A) = 0.
Proof. reflexivity. Qed.

Lemma zlen_cons {A} (x : A) l : zlen (x :: l) = 1 + zlen l.
Proof. unfold zlen. cbn [length]. lia. Qed.

Lemma zlen_app {A} (l k : list A) : zlen (l ++ k) = zlen l + zlen k.
Proof. unfold zlen. rewrite length_app. lia. Qed.

Lemma zlen_rev {A} (l : list A) : zlen (rev l) = zlen l.
Proof. unfold zlen. now rewrite length_rev. Qed.

Lemma zlen_map {A B} (f : A -> B) l : zlen (map f l) = zlen l.
Proof. unfold zlen. now rewrite length_map. Qed.

Lemma zlen_drop {A} (l : list A) n :
  0 <= n <= zlen l -> zlen (drop (Z.to_nat n) l) = zlen l - n.
Proof. unfold zlen. rewrite length_drop. lia. Qed.

Lemma zlen_replicate {A} n (x : A) : zlen (replicate n x) = Z.of_nat n.
Proof. unfold zlen. now rewrite length_replicate. Qed.

#[export] Hint Rewrite @zlen_nil @zlen_cons @zlen_app @zlen_rev @zlen_map @zlen_replicate
  : codec_len.

Lemma zlen_zero_inv {A} (l : list A) : zlen l = 0 -> l = [].
Proof. destruct l; [done|]. rewrite zlen_cons. pose proof (zlen_nonneg l). lia. Qed.

Lemma drop_app_zlen {A} (l k : list A) : drop (Z.to_nat (zlen l)) (l ++ k) = k.
Proof. unfold zlen. rewrite Nat2Z.id. apply drop_app_length. Qed.

Lemma take_app_zlen {A} (l k : list A) : take (Z.to_nat (zlen l)) (l ++ k) = l.
Proof. unfold zlen. rewrite Nat2Z.id. apply take_app_length. Qed.

Lemma take_app_n {A} (l k : list A) n : zlen l = Z.of_nat n -> take n (l ++ k) = l.
Proof. unfold zlen. intros. apply take_app_length'. lia. Qed.

Lemma drop_app_n {A} (l k : list A) n : zlen l = Z.of_nat n -> drop n (l ++ k) = k.
Proof. unfold zlen. intros. apply drop_app_length'. lia. Qed.

Lemma drop_drop_z {A} (l : list A) a b :
  0 <= a -> 0 <= b -> drop (Z.to_nat b) (drop (Z.to_nat a) l) = drop (Z.to_nat (a + b)) l.
Proof. intros. rewrite drop_drop. f_equal. lia. Qed.

Lemma bytes_ok_drop n (l : bytes) : bytes_ok l -> bytes_ok (drop n l).
Proof. apply Forall_drop. Qed.
#[export] Hint Resolve bytes_ok_drop : codec.

(** *** Indexing and slicing in range *)

Lemma index_ok {E} (data : bytes) i :
  0 <= i < zlen data -> @index E data i = Ok (nth (Z.to_nat i) data 0).
Proof.
  intros H. unfold index.
  destruct (0 <=? i) eqn:?, (i <? zlen data) eqn:?; bool_to_prop; done || lia.
Qed.

Lemma index_head {E} b (data : bytes) : @index E (b :: data) 0 = Ok b.
Proof.
  apply index_ok. rewrite zlen_cons. pose proof (zlen_nonneg data). lia.
Qed.

Lemma slice_from_ok {E A} (data : list A) off :
  0 <= off <= zlen data -> @slice_from E A data off = Ok (drop (Z.to_nat off) data).
Proof.
  intros H. unfold slice_from.
  destruct (0 <=? off) eqn:?, (off <=? zlen data) eqn:?; bool_to_prop; done || lia.
Qed.

Lemma slice_ok {E A} (data : list A) lo hi :
  0 <= lo <= hi -> hi <= zlen data ->
  @slice E A data lo hi = Ok (take (Z.to_nat (hi - lo)) (drop (Z.to_nat lo) data)).
Proof.
  intros ? ?. unfold slice.
  destruct (0 <=? lo) eqn:?, (lo <=? hi) eqn:?, (hi <=? zlen data) eqn:?;
    bool_to_prop; done || lia.
Qed.

(** ** Fixed-width integers on the wire *)

Lemma zlen_to_le_bytes n v : zlen (to_le_bytes n v) = Z.of_nat n.
Proof.
  revert v. induction n as [|n IH]; intros v; [done|].
  cbn [to_le_bytes]. rewrite zlen_cons, IH. lia.
Qed.

Lemma to_le_bytes_ok n v : bytes_ok (to_le_bytes n v).
Proof.
  revert v. induction n as [|n IH]; intros v; constructor; [|done].
  red. apply Z.mod_pos_bound. lia.
Qed.

Lemma from_to_le_bytes n v : from_le_bytes (to_le_bytes n v) = v mod 256 ^ Z.of_nat n.
Proof.
  revert v. induction n as [|n IH]; intros v.
  - cbn. now rewrite Z.mod_1_r.
  - cbn [to_le_bytes from_le_bytes]. rewrite IH, Nat2Z.inj_succ, Z.pow_succ_r by lia.
    pose proof (Z.pow_pos_nonneg 256 (Z.of_nat n)).
    rewrite Z.rem_mul_r by lia. lia.
Qed.

Lemma from_le_bytes_bound l : bytes_ok l -> 0 <= from_le_bytes l < 256 ^ zlen l.
Proof.
  induction 1 as [|b l Hb Hl IH]; [cbv; split; congruence|].
  cbn [from_le_bytes]. rewrite zlen_cons, Z.pow_add_r by (pose proof (zlen_nonneg l); lia).
  red in Hb. lia.
Qed.

Lemma to_from_le_bytes l : bytes_ok l -> to_le_bytes (length l) (from_le_bytes l) = l.
Proof.
  induction 1 as [|b l Hb Hl IH]; [done|]. red in Hb.
  cbn [length to_le_bytes from_le_bytes].
  replace (b + 256 * from_le_bytes l) with (from_le_bytes l * 256 + b) by lia.
  rewrite Z.div_add_l, Z.div_small, Z.add_0_r, IH by lia. f_equal.
  rewrite Z.add_comm, Z.mod_add, Z.mod_small; lia.
Qed.

Lemma zlen_put_int is_be n v : zlen (put_int is_be n v) = Z.of_nat n.
Proof.
  destruct is_be; cbn; unfold to_be_bytes; rewrite ?zlen_rev; apply zlen_to_le_bytes.
Qed.
#[export] Hint Rewrite zlen_put_int : codec_len.

Lemma put_int_ok is_be n v : bytes_ok (put_int is_be n v).
Proof.
  destruct is_be; cbn; unfold to_be_bytes; [|apply to_le_bytes_ok].
  apply Forall_rev, to_le_bytes_ok.
Qed.
#[export] Hint Resolve put_int_ok : codec.

Lemma get_put_int is_be n v : get_int is_be (put_int is_be n v) = v mod 256 ^ Z.of_nat n.
Proof.
  destruct is_be; cbn; unfold from_be_bytes, to_be_bytes; rewrite ?rev_involutive;
    apply from_to_le_bytes.
Qed.

Lemma get_put_int_small is_be n v :
  0 <= v < 256 ^ Z.of_nat n -> get_int is_be (put_int is_be n v) = v.
Proof. intros. rewrite get_put_int. now apply Z.mod_small. Qed.

Lemma put_get_int is_be l :
  bytes_ok l -> put_int is_be (length l) (get_int is_be l) = l.
Proof.
  intros Hl. destruct is_be; cbn; unfold from_be_bytes, to_be_bytes.
  - rewrite <- (length_rev l), to_from_le_bytes by now apply Forall_rev.
    apply rev_involutive.
  - now apply to_from_le_bytes.
Qed.

Lemma get_int_bound is_be l : bytes_ok l -> 0 <= get_int is_be l < 256 ^ zlen l.
Proof.
  intros Hl. destruct is_be; cbn; unfold from_be_bytes.
  - rewrite <- zlen_rev. now apply from_le_bytes_bound, Forall_rev.
  - now apply from_le_bytes_bound.
Qed.

(** Two's complement: a signed value survives the trip through its bit
    pattern. *)
Lemma to_signed_mod w v :
  0 < w -> - 2 ^ (w - 1) <= v < 2 ^ (w - 1) -> to_signed w (v mod 2 ^ w) = v.
Proof.
  intros Hw Hv.
  assert (Hp : 2 ^ w = 2 * 2 ^ (w - 1)) by (rewrite <- Z.pow_succ_r by lia; f_equal; lia).
  unfold to_signed. destruct (Z_lt_ge_dec v 0).
  - replace (v mod 2 ^ w) with (v + 2 ^ w).
    + destruct (Z.ltb_spec (v + 2 ^ w) (2 ^ (w - 1))); lia.
    + symmetry. rewrite <- (Z_mod_plus_full v 1 (2 ^ w)), Z.mul_1_l.
      apply Z.mod_small. lia.
  - rewrite Z.mod_small by lia. destruct (Z.ltb_spec v (2 ^ (w - 1))); lia.
Qed.
