(* ===== verification/Utf8.v ===== *)
(** * UTF-8 as the Rust standard library checks it

    A source [String] is its sequence of UTF-8 bytes.  [from_utf8] is
    [std::str::from_utf8] (accept or reject) and [from_utf8_lossy] is
    [String::from_utf8_lossy], which replaces every maximal invalid prefix by
    U+FFFD.  The codec uses the first for pvData values and the second at the
    framing boundary; the lemmas relate the two. *)

From S2P Require Import Prelude.

Local Open Scope Z_scope.

Module Utf8.

Definition in_range (lo hi b : Z) : bool := (lo <=? b) && (b <=? hi).

(** A continuation byte [10xxxxxx]. *)
Definition is_cont (b : Z) : bool := in_range 0x80 0xBF b.

(** The second byte allowed after the first byte of a three-byte sequence
    (no overlong forms, no surrogates). *)
Definition second_of_3 (b0 b1 : Z) : bool :=
  if b0 =? 0xE0 then in_range 0xA0 0xBF b1
  else if b0 =? 0xED then in_range 0x80 0x9F b1
  else is_cont b1.

(** The second byte allowed after the first byte of a four-byte sequence
    (no overlong forms, nothing above U+10FFFF). *)
Definition second_of_4 (b0 b1 : Z) : bool :=
  if b0 =? 0xF0 then in_range 0x90 0xBF b1
  else if b0 =? 0xF4 then in_range 0x80 0x8F b1
  else is_cont b1.

Fixpoint from_utf8 (l : bytes) : bool :=
  match l with
  | [] => true
  | b0 :: l1 =>
    if b0 <? 0x80 then from_utf8 l1
    else if in_range 0xC2 0xDF b0 then
      match l1 with
      | b1 :: l2 => is_cont b1 && from_utf8 l2
      | [] => false
      end
    else if in_range 0xE0 0xEF b0 then
      match l1 with
      | b1 :: b2 :: l3 => second_of_3 b0 b1 && is_cont b2 && from_utf8 l3
      | _ => false
      end
    else if in_range 0xF0 0xF4 b0 then
      match l1 with
      | b1 :: b2 :: b3 :: l4 =>
        second_of_4 b0 b1 && is_cont b2 && is_cont b3 && from_utf8 l4
      | _ => false
      end
    else false
  end.

(** U+FFFD REPLACEMENT CHARACTER. *)
Definition replacement : bytes := [0xEF; 0xBF; 0xBD].

Fixpoint from_utf8_lossy (l : bytes) : bytes :=
  match l with
  | [] => []
  | b0 :: l1 =>
    if b0 <? 0x80 then b0 :: from_utf8_lossy l1
    else if in_range 0xC2 0xDF b0 then
      match l1 with
      | b1 :: l2 =>
        if is_cont b1 then b0 :: b1 :: from_utf8_lossy l2
        else replacement ++ from_utf8_lossy l1
      | [] => replacement
      end
    else if in_range 0xE0 0xEF b0 then
      match l1 with
      | b1 :: l2 =>
        if second_of_3 b0 b1 then
          match l2 with
          | b2 :: l3 =>
            if is_cont b2 then b0 :: b1 :: b2 :: from_utf8_lossy l3
            else replacement ++ from_utf8_lossy l2
          | [] => replacement
          end
        else replacement ++ from_utf8_lossy l1
      | [] => replacement
      end
    else if in_range 0xF0 0xF4 b0 then
      match l1 with
      | b1 :: l2 =>
        if second_of_4 b0 b1 then
          match l2 with
          | b2 :: l3 =>
            if is_cont b2 then
              match l3 with
              | b3 :: l4 =>
                if is_cont b3 then b0 :: b1 :: b2 :: b3 :: from_utf8_lossy l4
                else replacement ++ from_utf8_lossy l3
              | [] => replacement
              end
            else replacement ++ from_utf8_lossy l2
          | [] => replacement
          end
        else replacement ++ from_utf8_lossy l1
      | [] => replacement
      end
    else replacement ++ from_utf8_lossy l1
  end.

(** Both functions look at most four bytes ahead, so their facts are proved by
    induction on a bound of the length. *)
Lemma bytes_len_ind (P : bytes -> Prop) :
  (forall l, (forall k, (length k < length l)%nat -> P k) -> P l) -> forall l, P l.
Proof.
  intros IH l. remember (length l) as n eqn:E. revert l E.
  induction (lt_wf n) as [n _ H]. intros l ->. apply IH. intros k Hk. eapply H; eauto.
Qed.

(** A valid string passes through the lossy conversion unchanged. *)
Lemma lossy_valid_id l : from_utf8 l = true -> from_utf8_lossy l = l.
Proof.
  induction l as [l IH] using bytes_len_ind.
  destruct l as [|b0 l]; [done|]. cbn [from_utf8 from_utf8_lossy]. intros H.
  repeat (split_match; try discriminate); subst; bool_to_prop; try congruence;
    repeat f_equal; apply IH; cbn [length]; (lia || assumption).
Qed.

(** What the lossy conversion returns is always valid UTF-8. *)
Lemma lossy_always_valid l : from_utf8 (from_utf8_lossy l) = true.
Proof.
  induction l as [l IH] using bytes_len_ind.
  destruct l as [|b0 l]; [done|]. cbn [from_utf8_lossy].
  repeat split_match; subst;
    repeat match goal with
    | |- context [from_utf8 (replacement ++ ?k)] =>
        change (from_utf8 (replacement ++ k)) with (from_utf8 k)
    end;
    try reflexivity; try (apply IH; cbn [length]; lia);
    cbn [from_utf8];
    repeat match goal with
    | H : ?x = _ |- context [?x] => rewrite H
    end; cbn [andb];
    repeat rewrite (IH _) by (cbn [length]; lia); reflexivity.
Qed.

End Utf8.
