(* ===== verification/Wire.v ===== *)
(** * The size and string prefixes of the PVA wire format

    Models [spvirit-codec/src/encode_common.rs] (the encoder side) and
    [spvirit-codec/src/error.rs] (the decode errors, the UTF-8 policy and the
    shared size and string prefix decoders). *)

From S2P Require Import Prelude Utf8.

Local Open Scope Z_scope.
Local Open Scope codec_scope.

Module Wire.

(** ** Decode errors *)

(** [DecodeError]; the [&'static str] payloads are kept as their text. *)
Inductive DecodeError : Type :=
| Truncated (needed available : Z)
| ArrayTooLarge (kind : bytes) (count limit : Z)
| CountExceedsBuffer (count min_bytes available : Z)
| MessageTooLarge (total limit : Z)
| UnexpectedSegment (flags : Z)
| SegmentInterrupted (expected got : Z)
| SegmentCommandMismatch (expected got : Z)
| UnknownTypeTag (tag : Z)
| UnresolvedTypeId (id : Z)
| UnknownUnionSelector (selector len : Z)
| DepthExceeded (depth limit : Z)
| Malformed (what : bytes).

#[export] Instance DecodeError_eq_dec : EqDecision DecodeError.
Proof. solve_decision. Defined.

Abbreviation DecodeResult := (outcome DecodeError).

Inductive Utf8Policy : Type := Strict | Lossy.

(** ** Encoding *)

Definition push_size (out : bytes) (size : Z) (is_be : bool) : bytes :=
  if size <? 254 then out ++ [size mod 256]
  else out ++ [0xFE] ++ put_int is_be 4 (as_u32 size).

Definition encode_size (size : Z) (is_be : bool) : bytes := push_size [] size is_be.

Definition push_string (out value : bytes) (is_be : bool) : bytes :=
  push_size out (zlen value) is_be ++ value.

Definition encode_string (value : bytes) (is_be : bool) : bytes := push_string [] value is_be.

(** ** Decoding *)

Definition decode_size_prefixed (data : bytes) (is_be : bool) : DecodeResult (Z * Z) :=
  match data with
  | [] => Err (Truncated 1 0)
  | first :: _ =>
    if first =? 0xFF then Ok (0, 1)
    else if first <? 254 then Ok (first, 1)
    else if zlen data <? 5 then Err (Truncated 5 (zlen data))
    else
      let? d := slice data 1 5 in
      Ok (get_int is_be d, 5)
  end.

Definition decode_string_prefixed (data : bytes) (is_be : bool) (policy : Utf8Policy)
  : DecodeResult (bytes * Z) :=
  let? (size, size_bytes) := decode_size_prefixed data is_be in
  if size =? 0 then Ok ([], size_bytes)
  else
    let end_ := size_bytes + size in
    if zlen data <? end_ then Err (Truncated end_ (zlen data))
    else
      let? bs := slice data size_bytes end_ in
      match policy with
      | Strict =>
        if Utf8.from_utf8 bs then Ok (bs, end_)
        else Err (Malformed (str "string is not valid UTF-8"))
      | Lossy => Ok (Utf8.from_utf8_lossy bs, end_)
      end.

(** ** Lemmas *)

Lemma push_size_app out size is_be : push_size out size is_be = out ++ encode_size size is_be.
Proof. unfold encode_size, push_size. now destruct (size <? 254). Qed.

Lemma push_string_app out v is_be : push_string out v is_be = out ++ encode_string v is_be.
Proof. unfold encode_string, push_string. now rewrite push_size_app, app_assoc. Qed.

Lemma encode_string_unfold v is_be : encode_string v is_be = encode_size (zlen v) is_be ++ v.
Proof. reflexivity. Qed.

Lemma zlen_encode_size size is_be :
  zlen (encode_size size is_be) = if size <? 254 then 1 else 5.
Proof.
  unfold encode_size, push_size. destruct (size <? 254); cbn [app];
    autorewrite with codec_len; lia.
Qed.

Lemma encode_size_pos size is_be : 1 <= zlen (encode_size size is_be).
Proof. rewrite zlen_encode_size. destruct (size <? 254); lia. Qed.

Lemma encode_string_pos v is_be : 1 <= zlen (encode_string v is_be).
Proof.
  rewrite encode_string_unfold, zlen_app.
  pose proof (encode_size_pos (zlen v) is_be). pose proof (zlen_nonneg v). lia.
Qed.
#[export] Hint Resolve encode_size_pos encode_string_pos : codec.

(** Decoding an encoded size gives it back and consumes exactly its bytes,
    whatever follows. *)
Lemma decode_encode_size n is_be rest :
  0 <= n <= u32_max ->
  decode_size_prefixed (encode_size n is_be ++ rest) is_be
  = Ok (n, zlen (encode_size n is_be)).
Proof.
  intros Hn. rewrite zlen_encode_size. unfold encode_size, push_size.
  destruct (n <? 254) eqn:E; bool_to_prop; cbn [app].
  - rewrite Z.mod_small by lia. cbn [decode_size_prefixed].
    destruct (n =? 0xFF) eqn:?; bool_to_prop; [lia|].
    destruct (n <? 254) eqn:?; bool_to_prop; [done|lia].
  - unfold decode_size_prefixed. cbn [Z.eqb Z.ltb Z.compare Pos.eqb Pos.compare Pos.compare_cont].
    rewrite zlen_cons, zlen_app, zlen_put_int.
    pose proof (zlen_nonneg rest).
    destruct (1 + (Z.of_nat 4 + zlen rest) <? 5) eqn:?; bool_to_prop; [lia|].
    rewrite slice_ok by (autorewrite with codec_len; lia). cbn [bind_outcome].
    change (Z.to_nat (5 - 1)) with 4%nat. change (Z.to_nat 1) with 1%nat. cbn [drop]. rewrite drop_0.
    rewrite take_app_n, get_put_int_small; [| |apply zlen_put_int];
    unfold as_u32, u32_max in *.
    + now rewrite Z.mod_small by lia.
    + change (256 ^ Z.of_nat 4) with (2 ^ 32). apply Z.mod_pos_bound. lia.
Qed.

(** A size that was decoded lies in the [u32] range and consumed one or five
    bytes that were there. *)
Lemma decode_size_ok_bound data is_be n c :
  bytes_ok data -> decode_size_prefixed data is_be = Ok (n, c) ->
  0 <= n <= u32_max /\ 1 <= c <= zlen data.
Proof.
  intros Hd. unfold decode_size_prefixed. destruct data as [|b l]; [discriminate|].
  apply Forall_cons in Hd as [Hb Hl]. red in Hb. pose proof (zlen_nonneg l).
  unfold u32_max. rewrite zlen_cons.
  destruct (b =? 0xFF) eqn:?; [intros [= <- <-]; lia|].
  destruct (b <? 254) eqn:?; bool_to_prop; [intros [= <- <-]; lia|].
  destruct (1 + zlen l <? 5) eqn:?; bool_to_prop; [discriminate|].
  rewrite slice_ok by (rewrite ?zlen_cons; lia). cbn [bind_outcome]. intros [= <- <-].
  change (Z.to_nat 1) with 1%nat. change (Z.to_nat (5 - 1)) with 4%nat. cbn [drop]. rewrite drop_0.
  pose proof (get_int_bound is_be (take 4 l)) as G.
  assert (zlen (take 4 l) = 4) as E by (unfold zlen in *; rewrite length_take; lia).
  rewrite E in G. change (256 ^ 4) with (2 ^ 32) in G.
  split; [|lia]. specialize (G ltac:(now apply Forall_take)). lia.
Qed.

(** The size decoder returns or reports truncation; it never panics. *)
Lemma decode_size_total data is_be :
  (exists n c, decode_size_prefixed data is_be = Ok (n, c)) \/
  (exists k, decode_size_prefixed data is_be = Err (Truncated k (zlen data)) /\ zlen data < k).
Proof.
  unfold decode_size_prefixed. destruct data as [|b l]; [right; exists 1; split; done|].
  destruct (b =? 0xFF); [eauto|]. destruct (b <? 254); [eauto|].
  destruct (zlen (b :: l) <? 5) eqn:?; bool_to_prop; [eauto|].
  rewrite slice_ok by lia. cbn [bind_outcome]. eauto.
Qed.

(** The consumed count needs no assumption on the byte values. *)
Lemma decode_size_consumed data is_be n c :
  decode_size_prefixed data is_be = Ok (n, c) -> 1 <= c <= zlen data.
Proof.
  unfold decode_size_prefixed. destruct data as [|b l]; [discriminate|].
  pose proof (zlen_nonneg l).
  destruct (b =? 0xFF); [intros [= <- <-]; rewrite zlen_cons; lia|].
  destruct (b <? 254); [intros [= <- <-]; rewrite zlen_cons; lia|].
  destruct (zlen (b :: l) <? 5) eqn:?; bool_to_prop; [discriminate|].
  rewrite slice_ok by lia. cbn [bind_outcome]. intros [= <- <-]. lia.
Qed.

Lemma decode_encode_string v is_be policy rest :
  Utf8.from_utf8 v = true -> zlen v <= u32_max ->
  decode_string_prefixed (encode_string v is_be ++ rest) is_be policy
  = Ok (v, zlen (encode_string v is_be)).
Proof.
  intros Hv Hlen. pose proof (zlen_nonneg v). pose proof (zlen_nonneg rest).
  unfold decode_string_prefixed. rewrite encode_string_unfold, <- app_assoc.
  rewrite decode_encode_size by lia. cbn [bind_outcome].
  destruct (zlen v =? 0) eqn:E; bool_to_prop.
  - apply zlen_zero_inv in E as ->. now rewrite app_nil_r.
  - rewrite !zlen_app.
    destruct (_ <? _) eqn:?; bool_to_prop; [lia|].
    pose proof (encode_size_pos (zlen v) is_be).
    rewrite slice_ok by (rewrite ?zlen_app; lia). cbn [bind_outcome].
    rewrite drop_app_zlen.
    replace (_ - _) with (zlen v) by lia. rewrite take_app_zlen.
    destruct policy; [now rewrite Hv|now rewrite Utf8.lossy_valid_id].
Qed.

(** What a decoded string is, on every branch: in range, at least one byte,
    valid UTF-8 under either policy; and the only failures are truncation and,
    under the strict policy, invalid UTF-8. *)
Lemma decode_string_cases data is_be policy :
  bytes_ok data ->
  match decode_string_prefixed data is_be policy with
  | Ok (s, c) => 1 <= c <= zlen data /\ Utf8.from_utf8 s = true
  | Err (Truncated needed available) => available = zlen data /\ available < needed
  | Err (Malformed _) => policy = Strict
  | _ => False
  end.
Proof.
  intros Hd. unfold decode_string_prefixed.
  destruct (decode_size_total data is_be) as [(n & c & E)|(k & E & ?)]; rewrite E; [|done].
  pose proof (decode_size_ok_bound _ _ _ _ Hd E) as [? ?]. cbn [bind_outcome].
  destruct (n =? 0) eqn:?; [done|]. bool_to_prop.
  destruct (zlen data <? c + n) eqn:?; bool_to_prop; [done|].
  rewrite slice_ok by lia. cbn [bind_outcome].
  destruct policy.
  - destruct (Utf8.from_utf8 _) eqn:?; [split; [lia|done]|done].
  - split; [lia|apply Utf8.lossy_always_valid].
Qed.

(** ** Claims *)

(** A valid string of at most [u32::MAX] bytes survives the trip through the
    length-prefixed wire form in both byte orders and under both UTF-8 policies,
    whatever follows it, and exactly its encoding is consumed. *)
Theorem string_roundtrip v is_be policy rest :
  Utf8.from_utf8 v = true -> zlen v <= u32_max ->
  decode_string_prefixed (encode_string v is_be ++ rest) is_be policy
  = Ok (v, zlen (encode_string v is_be)).
Proof. apply decode_encode_string. Qed.

Lemma string_roundtrip_witness :
  decode_string_prefixed [5; 195; 169; 97; 98; 99; 7] true Strict = Ok ([195; 169; 97; 98; 99], 6).
Proof.
  apply (string_roundtrip [195; 169; 97; 98; 99] true Strict [7]).
  - vm_compute. reflexivity.
  - vm_compute. discriminate.
Defined.

(** Decoding a string from any bytes never panics: it yields valid UTF-8 (under
    the lossy policy too) and a consumed count inside the input, or reports
    truncation with what was needed, or, only under the strict policy, reports
    malformed text. *)
Theorem decode_string_total data is_be policy :
  bytes_ok data ->
  match decode_string_prefixed data is_be policy with
  | Ok (s, c) => 1 <= c <= zlen data /\ Utf8.from_utf8 s = true
  | Err (Truncated needed available) => available = zlen data /\ available < needed
  | Err (Malformed _) => policy = Strict
  | _ => False
  end.
Proof. apply decode_string_cases. Qed.

(** An overlong sequence is replaced under the lossy policy. *)
Lemma decode_string_total_witness :
  exists s, decode_string_prefixed [2; 0xC0; 0x80] false Lossy = Ok (s, 3) /\ Utf8.from_utf8 s = true.
Proof.
  pose proof (decode_string_total [2; 0xC0; 0x80] false Lossy
    ltac:(repeat constructor; unfold byte_ok; lia)) as H.
  destruct (decode_string_prefixed [2; 0xC0; 0x80] false Lossy) as [[s c]|e| |] eqn:E;
    try (vm_compute in E; discriminate).
  exists s. assert (c = 3) as -> by (vm_compute in E; congruence). split; [done|apply H].
Defined.

End Wire.
