(* ===== verification/Segment.v ===== *)
(** * Reassembly of segmented PVA messages

    Models [spvirit-codec/src/segment.rs]: the reassembler's state, [push] on
    every branch, [reset] and [finish].  The abstract view of a reassembler is
    the message received so far; the theorems show that whatever the chunking
    and the control frames in between, the message that comes out is the one
    that was cut up, and that the memory held is bounded. *)

From S2P Require Import Prelude Wire.

Local Open Scope Z_scope.
Local Open Scope codec_scope.

Module Segment.
Import Wire.

Definition DEFAULT_MAX_MESSAGE_BYTES : Z := 268435456.

Inductive SegmentOutcome : Type :=
| Complete (message : bytes)
| Pending
| Control (message : bytes).

(** The struct [Pending]; [header] is a [[u8; 8]]. *)
Record PendingMsg := mkPending {
  header : bytes;
  payloads : list bytes;
  total : Z;
}.

Record SegmentReassembler := mkReassembler {
  max_bytes : Z;
  pending : option PendingMsg;
}.

Definition with_max_bytes (max_bytes : Z) : SegmentReassembler :=
  mkReassembler (Z.min max_bytes u32_max) None.

Definition new : SegmentReassembler := with_max_bytes DEFAULT_MAX_MESSAGE_BYTES.

Definition max_message_bytes (r : SegmentReassembler) : Z := max_bytes r.

Definition pending_bytes (r : SegmentReassembler) : Z :=
  match pending r with None => 0 | Some p => total p end.

Definition reset (r : SegmentReassembler) : SegmentReassembler :=
  mkReassembler (max_bytes r) None.

(** A constant index into a [[u8; 8]] is always in range. *)
Definition hbyte (h : bytes) (i : nat) : Z := nth i h 0.

Definition finish (p : PendingMsg) : bytes :=
  let h := header p in
  let is_be := negb (Z.land (hbyte h 2) 0x80 =? 0) in
  let h := <[2%nat := Z.land (hbyte h 2) 0xCF]> h in
  let h := take 4 h ++ put_int is_be 4 (as_u32 (total p)) in
  h ++ concat (payloads p).

Definition push (r : SegmentReassembler) (hdr payload : bytes)
  : DecodeResult SegmentOutcome * SegmentReassembler :=
  let flags := hbyte hdr 2 in
  if negb (Z.land flags 0x01 =? 0) then (Ok (Control (hdr ++ payload)), r)
  else
    let command := hbyte hdr 3 in
    let code := Z.shiftr (Z.land flags 0x30) 4 in
    if code =? 0 then
      match pending r with
      | Some p => (Err (SegmentInterrupted (hbyte (header p) 3) command), reset r)
      | None => (Ok (Complete (hdr ++ payload)), r)
      end
    else if code =? 1 then
      match pending r with
      | Some _ => (Err (UnexpectedSegment flags), reset r)
      | None =>
        if zlen payload >? max_bytes r then
          (Err (MessageTooLarge (zlen payload) (max_bytes r)), r)
        else
          (Ok Pending,
           mkReassembler (max_bytes r) (Some (mkPending hdr [payload] (zlen payload))))
      end
    else
      match pending r with
      | None => (Err (UnexpectedSegment flags), r)
      | Some p =>
        if negb (hbyte (header p) 3 =? command)
           || negb (Z.land (hbyte (header p) 2) 0x40 =? Z.land flags 0x40) then
          (Err (SegmentCommandMismatch (hbyte (header p) 3) command), reset r)
        else
          let tot := total p + zlen payload in
          if tot >? max_bytes r then (Err (MessageTooLarge tot (max_bytes r)), reset r)
          else
            let p := mkPending (header p) (payloads p ++ [payload]) tot in
            if code =? 2 then (Ok (Complete (finish p)), reset r)
            else (Ok Pending, mkReassembler (max_bytes r) (Some p))
      end.

(** ** Well-formedness *)

Record wf (r : SegmentReassembler) : Prop := {
  wf_cap : 0 <= max_bytes r <= u32_max;
  wf_pending : forall p, pending r = Some p ->
    length (header p) = 8%nat /\ total p = zlen (concat (payloads p)) /\ total p <= max_bytes r;
}.

(** What a caller can do with a reassembler. *)
Inductive step : SegmentReassembler -> SegmentReassembler -> Prop :=
| step_push r h payload : length h = 8%nat -> step r (snd (push r h payload))
| step_reset r : step r (reset r).

Inductive reachable (cap : Z) : SegmentReassembler -> Prop :=
| reach_new : reachable cap (with_max_bytes cap)
| reach_step r r' : reachable cap r -> step r r' -> reachable cap r'.

Lemma wf_reset r : wf r -> wf (reset r).
Proof. intros []. now split. Qed.
#[export] Hint Resolve wf_reset : codec.

(** Case analysis of [push] along its branches. *)
Ltac push_cases :=
  unfold push;
  repeat (split_match; cbn [fst snd max_bytes pending header payloads total reset] in *).

Lemma push_wf r h payload : length h = 8%nat -> wf r -> wf (snd (push r h payload)).
Proof.
  intros Hh Hr. destruct (Hr) as [Hcap Hpend].
  push_cases; auto with codec; split; cbn; auto;
    intros q [= <-]; cbn; bool_to_prop; rewrite ?app_nil_r; auto with lia.
  - destruct (Hpend _ eq_refl) as (? & E & ?).
    rewrite concat_app, zlen_app. cbn. rewrite app_nil_r, E.
    split_and!; auto. lia.
Qed.

Lemma reachable_wf cap r : 0 <= cap -> reachable cap r -> wf r /\ max_bytes r = Z.min cap u32_max.
Proof.
  intros Hcap. induction 1 as [|r r' _ [Hr E] Hs].
  - split; [split|]; cbn; try done. unfold u32_max. lia.
  - inversion Hs; subst; [|now auto with codec].
    split; [now apply push_wf|]. rewrite <- E. push_cases; done.
Qed.

(** ** Reassembly *)

Abbreviation frame := (bytes * bytes)%type.

(** Feed frames one after the other. *)
Fixpoint run (r : SegmentReassembler) (fs : list frame)
  : list (DecodeResult SegmentOutcome) * SegmentReassembler :=
  match fs with
  | [] => ([], r)
  | (h, payload) :: fs =>
    let '(o, r) := push r h payload in
    let '(os, r) := run r fs in (o :: os, r)
  end.

Definition is_control (h : bytes) : bool := negb (Z.land (hbyte h 2) 0x01 =? 0).
Definition seg_code (h : bytes) : Z := Z.shiftr (Z.land (hbyte h 2) 0x30) 4.

(** The message a sender cut up: the first segment's header with the segment
    bits cleared and the length of the whole body, then the body. *)
Definition rebuilt (h body : bytes) : bytes :=
  take 2 h ++ [Z.land (hbyte h 2) 0xCF; hbyte h 3]
  ++ put_int (negb (Z.land (hbyte h 2) 0x80 =? 0)) 4 (zlen body) ++ body.

(** A later data segment of the message whose first header is [h0]. *)
Definition continues (h0 h : bytes) (code : Z) : Prop :=
  is_control h = false /\ seg_code h = code /\
  hbyte h0 3 = hbyte h 3 /\ Z.land (hbyte h0 2) 0x40 = Z.land (hbyte h 2) 0x40.

(** The frames after the first segment, with control frames anywhere in
    between, the chunks they carry, and what the caller should see. *)
Inductive tail_of (h0 msg : bytes) : list bytes -> list frame -> list SegmentOutcome -> Prop :=
| tail_last h c : continues h0 h 2 -> tail_of h0 msg [c] [(h, c)] [Complete msg]
| tail_middle h c cs fs outs :
    continues h0 h 3 -> tail_of h0 msg cs fs outs ->
    tail_of h0 msg (c :: cs) ((h, c) :: fs) (Pending :: outs)
| tail_control h payload cs fs outs :
    is_control h = true -> tail_of h0 msg cs fs outs ->
    tail_of h0 msg cs ((h, payload) :: fs) (Control (h ++ payload) :: outs).

Lemma finish_rebuilt p :
  length (header p) = 8%nat -> total p = zlen (concat (payloads p)) -> total p <= u32_max ->
  finish p = rebuilt (header p) (concat (payloads p)).
Proof.
  intros Hh Ht Hb. unfold finish, rebuilt.
  destruct (header p) as [|a [|b [|f [|c [|? ?]]]]] eqn:E; try discriminate.
  cbn. unfold as_u32. rewrite Z.mod_small, Ht; [done|].
  pose proof (zlen_nonneg (concat (payloads p))). unfold u32_max in *. lia.
Qed.

Lemma push_control r h payload :
  is_control h = true -> push r h payload = (Ok (Control (h ++ payload)), r).
Proof. unfold is_control, push. now intros ->. Qed.

(** A data segment that continues the message in progress and fits the cap. *)
Lemma push_continues r p h c code :
  pending r = Some p -> continues (header p) h code -> code = 2 \/ code = 3 ->
  total p + zlen c <= max_bytes r ->
  let p' := mkPending (header p) (payloads p ++ [c]) (total p + zlen c) in
  push r h c =
    if code =? 2 then (Ok (Complete (finish p')), reset r)
    else (Ok Pending, mkReassembler (max_bytes r) (Some p')).
Proof.
  intros Hp (Hc & Hs & Hcmd & Hdir) Hcode Hfit p'. unfold is_control, seg_code in Hc, Hs.
  unfold push. rewrite Hc, Hs, Hp, Hcmd, Hdir, !Z.eqb_refl. cbn [negb orb].
  destruct (_ >? _) eqn:?; bool_to_prop; [lia|].
  now destruct Hcode as [-> | ->].
Qed.

Lemma run_tail r p h0 msg cs fs outs :
  tail_of h0 msg cs fs outs -> wf r -> pending r = Some p -> header p = h0 ->
  total p + zlen (concat cs) <= max_bytes r ->
  msg = rebuilt h0 (concat (payloads p ++ cs)) ->
  run r fs = (map Ok outs, reset r).
Proof.
  intros Htail. revert r p.
  induction Htail as [h c Hc|h c cs fs outs Hc _ IH|h payload cs fs outs Hc _ IH];
    intros r p Hr Hp Hh Hfit Hmsg; cbn [run map].
  - destruct (wf_pending _ Hr _ Hp) as (H8 & Htot & ?). destruct (wf_cap _ Hr).
    cbn [concat] in Hfit. rewrite app_nil_r in Hfit. subst h0.
    rewrite (push_continues r p h c 2); [|auto..]. cbn.
    rewrite finish_rebuilt; cbn; [now subst msg|done| |lia].
    rewrite concat_app, zlen_app, Htot. cbn. now rewrite app_nil_r.
  - destruct (wf_pending _ Hr _ Hp) as (H8 & Htot & ?). destruct (wf_cap _ Hr).
    cbn [concat] in Hfit. rewrite zlen_app in Hfit. pose proof (zlen_nonneg (concat cs)).
    subst h0. rewrite (push_continues r p h c 3); [|auto with lia..]. cbn [Z.eqb Pos.eqb].
    erewrite IH; [reflexivity| |reflexivity..| |].
    + split; cbn; [done|]. intros ? [= <-]. cbn. rewrite concat_app, zlen_app. cbn.
      rewrite app_nil_r. split_and!; auto; lia.
    + cbn. lia.
    + cbn. rewrite <- app_assoc. exact Hmsg.
  - rewrite push_control by done. now rewrite (IH r p).
Qed.

(** C2: whatever the cut, with control frames anywhere between the segments,
    pushing the segments of a message that fits the cap reports [Pending] for
    each segment but the last, returns every control frame verbatim, and
    completes with exactly the message that was cut up; the reassembler is then
    as it was before. *)
Theorem reassembly_correct r h0 c0 cs fs outs :
  wf r -> pending r = None -> length h0 = 8%nat ->
  is_control h0 = false -> seg_code h0 = 1 ->
  zlen (c0 ++ concat cs) <= max_bytes r ->
  tail_of h0 (rebuilt h0 (c0 ++ concat cs)) cs fs outs ->
  run r ((h0, c0) :: fs) = (map Ok (Pending :: outs), r).
Proof.
  intros Hr Hp H8 Hctl Hcode Hfit Htail. pose proof (zlen_nonneg (concat cs)).
  rewrite zlen_app in Hfit. cbn [run map].
  unfold push. unfold is_control, seg_code in Hctl, Hcode. rewrite Hctl, Hcode, Hp. cbn [Z.eqb Pos.eqb].
  destruct (_ >? _) eqn:?; bool_to_prop; [lia|].
  erewrite run_tail; [|exact Htail| |reflexivity|reflexivity| |reflexivity].
  - destruct r; cbn in Hp |- *. now subst.
  - split; cbn; [apply Hr|]. intros ? [= <-]. cbn. rewrite app_nil_r. split_and!; auto; lia.
  - cbn. lia.
Qed.

(** Whatever frames arrive in whatever order, and whenever the caller
    resets, the payload bytes held are exactly the concatenation of the chunks
    kept, and never more than the cap, itself at most [u32::MAX], so that the
    length [finish] writes never truncates. *)
Theorem pending_bounded cap r :
  0 <= cap -> reachable cap r ->
  0 <= pending_bytes r <= max_message_bytes r /\
  max_message_bytes r = Z.min cap u32_max /\
  (forall p, pending r = Some p ->
     total p = zlen (concat (payloads p)) /\ as_u32 (total p) = total p).
Proof.
  intros Hcap [Hr E]%reachable_wf; [|done]. unfold pending_bytes, max_message_bytes.
  destruct Hr as [Hc Hp]. destruct (pending r) as [p|]; (split_and!; [..|done|]); try lia; try done.
  - destruct (Hp p eq_refl) as (_ & -> & _). apply zlen_nonneg.
  - now destruct (Hp p eq_refl).
  - intros q [= <-]. destruct (Hp p eq_refl) as (_ & Ht & ?). split; [done|].
    unfold as_u32, u32_max in *. apply Z.mod_small. pose proof (zlen_nonneg (concat (payloads p))). lia.
Qed.

(** What [push] reports decides what it keeps: an error or a complete
    message leaves nothing in progress, a control frame changes nothing, a
    pending segment grows the message by exactly its payload; [push] never
    panics. *)
Theorem push_outcomes r h payload :
  match fst (push r h payload) with
  | Err _ | Ok (Complete _) => pending (snd (push r h payload)) = None
  | Ok (Control m) => m = h ++ payload /\ snd (push r h payload) = r
  | Ok Pending => pending_bytes (snd (push r h payload)) = pending_bytes r + zlen payload
  | Panic | OutOfFuel => False
  end.
Proof. unfold pending_bytes. push_cases; auto with lia. Qed.

(** Witnesses: a three-segment big-endian message with a control frame in the
    middle. *)
Definition ex_first : bytes := [0xCA; 2; 0x90; 10; 0; 0; 0; 2].
Definition ex_middle : bytes := [0xCA; 2; 0xB0; 10; 0; 0; 0; 1].
Definition ex_last : bytes := [0xCA; 2; 0xA0; 10; 0; 0; 0; 1].
Definition ex_echo : bytes := [0xCA; 2; 0x81; 3; 0; 0; 0; 0].

Lemma reassembly_correct_witness :
  run new [(ex_first, [1; 2]); (ex_echo, []); (ex_middle, [3]); (ex_last, [4])]
  = ([Ok Pending; Ok (Control ex_echo); Ok Pending;
      Ok (Complete ([0xCA; 2; 0x80; 10; 0; 0; 0; 4] ++ [1; 2; 3; 4]))], new).
Proof.
  apply (reassembly_correct new ex_first [1; 2] [[3]; [4]]
    [(ex_echo, []); (ex_middle, [3]); (ex_last, [4])]
    [Control ex_echo; Pending; Complete ([0xCA; 2; 0x80; 10; 0; 0; 0; 4] ++ [1; 2; 3; 4])]);
    try reflexivity.
  - split; cbn; [now vm_compute|discriminate].
  - vm_compute. discriminate.
  - apply (tail_control _ _ ex_echo []); [reflexivity|].
    apply tail_middle; [now vm_compute|]. apply tail_last. now vm_compute.
Defined.

Lemma pending_bounded_witness :
  0 <= pending_bytes (snd (push (with_max_bytes 16) ex_first [1; 2])) <= 16.
Proof.
  apply (pending_bounded 16 (snd (push (with_max_bytes 16) ex_first [1; 2]))); [lia|].
  eapply reach_step; [apply reach_new|]. now apply step_push.
Defined.

End Segment.
