(* ===== verification/PvdTypes.v ===== *)
(** * pvData types and values

    Models the data of [spvirit-codec/src/spvd_decode.rs]: type codes, type
    descriptors, decoded values, the measures of a type tree ([type_height],
    [type_nodes]) and the numbering of the field bits of a structure
    ([count_structure_fields], [subtree_field_counts]). *)

From S2P Require Import Prelude.

Local Open Scope Z_scope.

(** ** Type codes *)

Module TypeCode.

Inductive t : Type :=
| Null | Boolean | Int8 | Int16 | Int32 | Int64 | UInt8 | UInt16 | UInt32 | UInt64
| Float32 | Float64 | String | Variant.

#[export] Instance eq_dec : EqDecision t.
Proof. solve_decision. Defined.

(** [*tc as u8]: the discriminants of the [repr(u8)] enum. *)
Definition to_byte (tc : t) : Z :=
  match tc with
  | Null => 0xFF | Boolean => 0x00
  | Int8 => 0x20 | Int16 => 0x21 | Int32 => 0x22 | Int64 => 0x23
  | UInt8 => 0x24 | UInt16 => 0x25 | UInt32 => 0x26 | UInt64 => 0x27
  | Float32 => 0x42 | Float64 => 0x43 | String => 0x60 | Variant => 0xFE
  end.

Definition from_byte (b : Z) : option t :=
  let base := Z.land b 0xE7 in
  if base =? 0x00 then Some Boolean
  else if base =? 0x20 then Some Int8
  else if base =? 0x21 then Some Int16
  else if base =? 0x22 then Some Int32
  else if base =? 0x23 then Some Int64
  else if base =? 0x24 then Some UInt8
  else if base =? 0x25 then Some UInt16
  else if base =? 0x26 then Some UInt32
  else if base =? 0x27 then Some UInt64
  else if base =? 0x42 then Some Float32
  else if base =? 0x43 then Some Float64
  else if base =? 0x60 then Some String
  else None.

Definition size (tc : t) : option Z :=
  match tc with
  | Boolean | Int8 | UInt8 => Some 1
  | Int16 | UInt16 => Some 2
  | Int32 | UInt32 | Float32 => Some 4
  | Int64 | UInt64 | Float64 => Some 8
  | String | Null | Variant => None
  end.

Lemma size_pos tc n : size tc = Some n -> 1 <= n <= 8.
Proof. destruct tc; cbn; intros [= <-]; lia. Qed.

End TypeCode.

(** ** Type descriptors *)

Module Ty.

Inductive FieldType : Type :=
| Scalar (tc : TypeCode.t)
| ScalarArray (tc : TypeCode.t)
| String
| StringArray
| Structure (desc : StructureDesc)
| StructureArray (desc : StructureDesc)
| Union (fields : list FieldDesc)
| UnionArray (fields : list FieldDesc)
| Variant
| VariantArray
| BoundedString (bound : Z)
with FieldDesc : Type :=
| mkField (name : bytes) (field_type : FieldType)
with StructureDesc : Type :=
| mkStruct (struct_id : option bytes) (fields : list FieldDesc).

Definition name (f : FieldDesc) : bytes := match f with mkField n _ => n end.
Definition field_type (f : FieldDesc) : FieldType := match f with mkField _ t => t end.
Definition struct_id (d : StructureDesc) : option bytes := match d with mkStruct i _ => i end.
Definition fields (d : StructureDesc) : list FieldDesc := match d with mkStruct _ fs => fs end.

(** [StructureDesc::new] and [StructureDesc::field]. *)
Definition new : StructureDesc := mkStruct None [].

Definition field (d : StructureDesc) (n : bytes) : option FieldDesc :=
  List.find (fun f => bool_decide (name f = n)) (fields d).

(** The fields of a composite type; a leaf has none. *)
Definition fields_of (ft : FieldType) : option (list FieldDesc) :=
  match ft with
  | Structure d | StructureArray d => Some (fields d)
  | Union fs | UnionArray fs => Some fs
  | _ => None
  end.

(** Induction on a type tree: leaves, and composites whose fields satisfy the
    property. *)
Section Induction.
Context (P : FieldType -> Prop).
Hypothesis leaf : forall ft, fields_of ft = None -> P ft.
Hypothesis node : forall ft fs, fields_of ft = Some fs -> Forall (fun f => P (field_type f)) fs -> P ft.

Fixpoint FieldType_tree_ind (ft : FieldType) : P ft :=
  let go := fix go (fs : list FieldDesc) : Forall (fun f => P (field_type f)) fs :=
    match fs with
    | [] => Forall_nil_2 _
    | mkField n t :: fs => Forall_cons_2 _ (mkField n t) fs (FieldType_tree_ind t) (go fs)
    end in
  match ft with
  | Structure (mkStruct i fs) => node (Structure (mkStruct i fs)) fs eq_refl (go fs)
  | StructureArray (mkStruct i fs) => node (StructureArray (mkStruct i fs)) fs eq_refl (go fs)
  | Union fs => node (Union fs) fs eq_refl (go fs)
  | UnionArray fs => node (UnionArray fs) fs eq_refl (go fs)
  | Scalar tc => leaf (Scalar tc) eq_refl
  | ScalarArray tc => leaf (ScalarArray tc) eq_refl
  | String => leaf String eq_refl
  | StringArray => leaf StringArray eq_refl
  | Variant => leaf Variant eq_refl
  | VariantArray => leaf VariantArray eq_refl
  | BoundedString b => leaf (BoundedString b) eq_refl
  end.

Lemma StructureDesc_fields_ind (d : StructureDesc) :
  Forall (fun f => P (field_type f)) (fields d).
Proof using leaf node.
  induction (fields d); constructor; [apply FieldType_tree_ind|done].
Qed.
End Induction.

(** ** Height and node count *)

(** [.max().unwrap_or(0)] over non-negative measures. *)
Fixpoint list_max (l : list Z) : Z :=
  match l with [] => 0 | x :: l => Z.max x (list_max l) end.

Fixpoint list_sum (l : list Z) : Z :=
  match l with [] => 0 | x :: l => x + list_sum l end.

Fixpoint type_height (ft : FieldType) : Z :=
  match ft with
  | Structure d | StructureArray d =>
    1 + list_max (map (fun f => type_height (field_type f)) (fields d))
  | Union fs | UnionArray fs => 1 + list_max (map (fun f => type_height (field_type f)) fs)
  | _ => 1
  end.

Fixpoint type_nodes (ft : FieldType) : Z :=
  match ft with
  | Structure d | StructureArray d =>
    1 + list_sum (map (fun f => type_nodes (field_type f)) (fields d))
  | Union fs | UnionArray fs => 1 + list_sum (map (fun f => type_nodes (field_type f)) fs)
  | _ => 1
  end.

(** ** Field bits *)

Fixpoint count_structure_fields (d : StructureDesc) : Z :=
  list_sum (map (fun f =>
    1 + match field_type f with
        | Structure nested => count_structure_fields nested
        | _ => 0
        end) (fields d)).

Fixpoint push_subtree_counts (d : StructureDesc) (out : list Z) : list Z :=
  (fix go (fs : list FieldDesc) (out : list Z) : list Z :=
    match fs with
    | [] => out
    | f :: fs =>
      let slot := length out in
      let out := out ++ [0] in
      let out := match field_type f with
                 | Structure nested => push_subtree_counts nested out
                 | _ => out
                 end in
      go fs (<[slot := zlen out - Z.of_nat slot - 1]> out)
    end) (fields d) out.

Definition subtree_field_counts (d : StructureDesc) : list Z := push_subtree_counts d [].

(** ** Lemmas on the measures *)

Lemma list_max_nonneg l : 0 <= list_max l.
Proof. induction l; cbn; lia. Qed.

Lemma list_max_le l b : 0 <= b -> Forall (fun x => x <= b) l -> list_max l <= b.
Proof. induction 2; cbn in *; lia. Qed.

Lemma list_max_ge l b : list_max l <= b -> Forall (fun x => x <= b) l.
Proof. induction l as [|x l IH]; cbn; constructor; [lia|apply IH; lia]. Qed.

Lemma list_max_app l k : list_max (l ++ k) = Z.max (list_max l) (list_max k).
Proof. induction l as [|x l IH]; cbn; [pose proof (list_max_nonneg k)|rewrite IH]; lia. Qed.

Lemma list_sum_app l k : list_sum (l ++ k) = list_sum l + list_sum k.
Proof. induction l as [|x l IH]; cbn; [|rewrite IH]; lia. Qed.

Lemma list_sum_nonneg l : Forall (fun x => 0 <= x) l -> 0 <= list_sum l.
Proof. induction 1; cbn in *; lia. Qed.

Definition fields_height (fs : list FieldDesc) : Z :=
  list_max (map (fun f => type_height (field_type f)) fs).
Definition fields_nodes (fs : list FieldDesc) : Z :=
  list_sum (map (fun f => type_nodes (field_type f)) fs).

Lemma type_height_fields ft fs :
  fields_of ft = Some fs -> type_height ft = 1 + fields_height fs.
Proof. destruct ft as [| | | |[]|[]| | | | |]; cbn; now intros [= <-]. Qed.

Lemma type_nodes_fields ft fs :
  fields_of ft = Some fs -> type_nodes ft = 1 + fields_nodes fs.
Proof. destruct ft as [| | | |[]|[]| | | | |]; cbn; now intros [= <-]. Qed.

Lemma type_leaf ft : fields_of ft = None -> type_height ft = 1 /\ type_nodes ft = 1.
Proof. destruct ft; cbn; intros; (done || discriminate). Qed.

Lemma type_height_pos ft : 1 <= type_height ft.
Proof.
  destruct (fields_of ft) as [fs|] eqn:E.
  - rewrite (type_height_fields _ _ E).
    pose proof (list_max_nonneg (map (fun f => type_height (field_type f)) fs)).
    unfold fields_height. lia.
  - destruct (type_leaf _ E). lia.
Qed.

Lemma type_nodes_pos ft : 1 <= type_nodes ft.
Proof.
  induction ft as [ft E|ft fs E IH] using FieldType_tree_ind.
  - destruct (type_leaf _ E). lia.
  - rewrite (type_nodes_fields _ _ E). unfold fields_nodes.
    enough (0 <= list_sum (map (fun f => type_nodes (field_type f)) fs)) by lia.
    apply list_sum_nonneg, Forall_map. eapply Forall_impl; [exact IH|]. cbn. lia.
Qed.

Lemma fields_nodes_nonneg fs : 0 <= fields_nodes fs.
Proof.
  apply list_sum_nonneg, Forall_map, Forall_forall. intros f _. cbn.
  pose proof (type_nodes_pos (field_type f)). lia.
Qed.

Lemma fields_height_nonneg fs : 0 <= fields_height fs.
Proof. apply list_max_nonneg. Qed.

Lemma fields_height_snoc fs f :
  fields_height (fs ++ [f]) = Z.max (fields_height fs) (type_height (field_type f)).
Proof.
  unfold fields_height. rewrite map_app, list_max_app. cbn.
  pose proof (type_height_pos (field_type f)). lia.
Qed.

Lemma fields_nodes_snoc fs f :
  fields_nodes (fs ++ [f]) = fields_nodes fs + type_nodes (field_type f).
Proof. unfold fields_nodes. rewrite map_app, list_sum_app. cbn. lia. Qed.

(** ** The bit numbering *)

(** The specification of [push_subtree_counts]: for each field in bit order,
    the number of bits its own subtree owns, then the counts of that subtree. *)
Fixpoint counts_spec (d : StructureDesc) : list Z :=
  concat (map (fun f =>
    match field_type f with
    | Structure nested => count_structure_fields nested :: counts_spec nested
    | _ => [0]
    end) (fields d)).

(** Induction along nested structures only, the way the bits are numbered. *)
Lemma StructureDesc_nested_ind (P : StructureDesc -> Prop) :
  (forall d, Forall (fun f => match field_type f with Structure n => P n | _ => True end)
               (fields d) -> P d) ->
  forall d, P d.
Proof.
  intros H d. apply H.
  apply (StructureDesc_fields_ind
    (fun ft => match ft with Structure n => P n | _ => True end)).
  - intros [] E; try done; discriminate.
  - intros [] fs; cbn; try done. intros [= <-] IH. now apply H.
Qed.

Lemma counts_spec_length d : zlen (counts_spec d) = count_structure_fields d.
Proof.
  induction d as [[i fs] IH] using StructureDesc_nested_ind. cbn in *.
  induction IH as [|f fs Hf _ IHfs]; [done|].
  cbn. rewrite zlen_app, IHfs.
  destruct (field_type f); rewrite ?zlen_cons, ?Hf, ?zlen_nil; lia.
Qed.

Lemma count_structure_fields_nonneg d : 0 <= count_structure_fields d.
Proof. rewrite <- counts_spec_length. apply zlen_nonneg. Qed.

Lemma push_subtree_counts_spec d out : push_subtree_counts d out = out ++ counts_spec d.
Proof.
  revert out. induction d as [[i fs] IH] using StructureDesc_nested_ind. cbn in *.
  induction IH as [|f fs Hf _ IHfs]; intros out; [by rewrite app_nil_r|].
  cbn. rewrite IHfs. clear IHfs.
  assert (forall tail,
    <[length out := zlen ((out ++ [0]) ++ tail) - Z.of_nat (length out) - 1]>
      ((out ++ [0]) ++ tail) = out ++ zlen tail :: tail) as Hset.
  { intros tail. rewrite <- app_assoc. cbn.
    rewrite insert_app_r_alt, Nat.sub_diag by lia. cbn. do 2 f_equal.
    autorewrite with codec_len. unfold zlen. lia. }
  destruct (field_type f).
  5: { rewrite Hf, Hset, counts_spec_length, <- app_assoc. done. }
  all: specialize (Hset []); rewrite app_nil_r in Hset; rewrite Hset, <- app_assoc; done.
Qed.

Lemma subtree_field_counts_spec d : subtree_field_counts d = counts_spec d.
Proof. apply push_subtree_counts_spec. Qed.

(** The per-frame table of subtree sizes is what counting each subtree
    afresh would give: in the order the bits are numbered, every field's entry is
    [count_structure_fields] of its structure (zero for a leaf), followed by the
    entries of that structure; the table has one entry per field bit. *)
Theorem subtree_counts_equiv d :
  subtree_field_counts d = counts_spec d /\
  zlen (subtree_field_counts d) = count_structure_fields d.
Proof. rewrite subtree_field_counts_spec. split; [done|apply counts_spec_length]. Qed.

End Ty.

(** ** Values *)

Module Val.

(** [DecodedValue]; a float is its IEEE bit pattern. *)
Inductive DecodedValue : Type :=
| Null
| Boolean (v : bool)
| Int8 (v : Z) | Int16 (v : Z) | Int32 (v : Z) | Int64 (v : Z)
| UInt8 (v : Z) | UInt16 (v : Z) | UInt32 (v : Z) | UInt64 (v : Z)
| Float32 (bits : Z) | Float64 (bits : Z)
| String (v : bytes)
| Array (items : list DecodedValue)
| Structure (fields : list (bytes * DecodedValue))
| Raw (data : bytes).

Section Induction.
Context (P : DecodedValue -> Prop).
Hypothesis leaf : forall v,
  (forall l, v <> Array l) -> (forall fs, v <> Structure fs) -> P v.
Hypothesis array : forall l, Forall P l -> P (Array l).
Hypothesis structure : forall fs, Forall (fun nv => P nv.2) fs -> P (Structure fs).

Fixpoint DecodedValue_tree_ind (v : DecodedValue) : P v.
Proof using leaf array structure.
  destruct v; try (apply leaf; discriminate).
  - apply array. induction items; constructor; auto.
  - apply structure. induction fields; constructor; auto.
Defined.
End Induction.

(** Nesting of a value: a leaf is 1, an array or structure one more than its
    tallest part. *)
Fixpoint value_height (v : DecodedValue) : Z :=
  match v with
  | Array l => 1 + Ty.list_max (map value_height l)
  | Structure fs => 1 + Ty.list_max (map (fun nv => value_height nv.2) fs)
  | _ => 1
  end.

End Val.
