(* ===== verification/PvdEncode.v ===== *)
(** * pvData encoding

    Models the type-descriptor encoder, the generic value encoder and the
    changed-bitset encoders of [spvirit-codec/src/spvd_encode.rs]. *)

From S2P Require Import Prelude Wire PvdTypes.

Local Open Scope Z_scope.

Module PvdEncode.
Import Wire.

(** ** Type descriptors *)

Definition encode_field_desc (encode_type : Ty.FieldType -> bool -> bytes)
    (f : Ty.FieldDesc) (is_be : bool) : bytes :=
  encode_string (Ty.name f) is_be ++ encode_type (Ty.field_type f) is_be.

Definition encode_structure_with (encode_type : Ty.FieldType -> bool -> bytes)
    (d : Ty.StructureDesc) (is_be : bool) : bytes :=
  encode_string (default [] (Ty.struct_id d)) is_be
  ++ encode_size (zlen (Ty.fields d)) is_be
  ++ concat (map (fun f => encode_field_desc encode_type f is_be) (Ty.fields d)).

Fixpoint encode_type_desc (ft : Ty.FieldType) (is_be : bool) : bytes :=
  match ft with
  | Ty.Structure d => 0x80 :: encode_structure_with encode_type_desc d is_be
  | Ty.StructureArray d => 0x88 :: 0x80 :: encode_structure_with encode_type_desc d is_be
  | Ty.Union fs =>
    0x81 :: encode_structure_with encode_type_desc (Ty.mkStruct None fs) is_be
  | Ty.UnionArray fs =>
    0x89 :: 0x81 :: encode_structure_with encode_type_desc (Ty.mkStruct None fs) is_be
  | Ty.Variant => [0x82]
  | Ty.VariantArray => [0x8A]
  | Ty.BoundedString bound => 0x83 :: encode_size bound is_be
  | Ty.String => [0x60]
  | Ty.StringArray => [0x68]
  | Ty.Scalar tc => [TypeCode.to_byte tc]
  | Ty.ScalarArray tc => [Z.lor (TypeCode.to_byte tc) 0x08]
  end.

Definition encode_structure_desc (d : Ty.StructureDesc) (is_be : bool) : bytes :=
  encode_structure_with encode_type_desc d is_be.

(** ** Values *)

Definition bool_byte (b : bool) : Z := if b then 1 else 0.

Fixpoint push_decoded_value (out : bytes) (val : Val.DecodedValue) (is_be : bool) : bytes :=
  match val with
  | Val.Null => out
  | Val.Boolean v => out ++ [bool_byte v]
  | Val.Int8 v => out ++ [v mod 256]
  | Val.Int16 v => out ++ put_int is_be 2 v
  | Val.Int32 v => out ++ put_int is_be 4 v
  | Val.Int64 v => out ++ put_int is_be 8 v
  | Val.UInt8 v => out ++ [v]
  | Val.UInt16 v => out ++ put_int is_be 2 v
  | Val.UInt32 v => out ++ put_int is_be 4 v
  | Val.UInt64 v => out ++ put_int is_be 8 v
  | Val.Float32 v => out ++ put_int is_be 4 v
  | Val.Float64 v => out ++ put_int is_be 8 v
  | Val.String v => push_string out v is_be
  | Val.Array arr =>
    List.fold_left (fun out item => push_decoded_value out item is_be) arr
      (push_size out (zlen arr) is_be)
  | Val.Structure fs =>
    List.fold_left (fun out nv => push_decoded_value out (snd nv) is_be) fs out
  | Val.Raw data => out ++ data
  end.

Definition encode_decoded_value (val : Val.DecodedValue) (is_be : bool) : bytes :=
  push_decoded_value [] val is_be.

(** ** Bitsets *)

(** [a.div_ceil(b)]. *)
Definition div_ceil (a b : Z) : Z := (a + b - 1) / b.

Definition push_all_ones_bitset (out : bytes) (total_bits : Z) (is_be : bool) : bytes :=
  let bitset_size := div_ceil total_bits 8 in
  let out := out ++ encode_size bitset_size is_be in
  let out := out ++ replicate (Z.to_nat bitset_size) 0xFF in
  let spare := bitset_size * 8 - total_bits in
  if spare =? 0 then out
  else <[(length out - 1)%nat := Z.shiftr 0xFF spare]> out.

Definition encode_all_ones_bitset (total_bits : Z) (is_be : bool) : bytes :=
  push_all_ones_bitset [] total_bits is_be.

Definition encode_structure_bitset (d : Ty.StructureDesc) (is_be : bool) : bytes :=
  encode_all_ones_bitset (1 + Ty.count_structure_fields d) is_be.

(** [bitset[i / 8] |= 1 << (i % 8)] for every set flag. *)
Fixpoint fill_bitset (bitset : bytes) (i : Z) (bits : list bool) : bytes :=
  match bits with
  | [] => bitset
  | b :: bits =>
    let bitset :=
      if b then
        let k := Z.to_nat (i / 8) in
        <[k := Z.lor (nth k bitset 0) (Z.shiftl 1 (i mod 8))]> bitset
      else bitset in
    fill_bitset bitset (i + 1) bits
  end.

Definition encode_bitset_from_flags (bits : list bool) (is_be : bool) : bytes :=
  let bitset_size := div_ceil (zlen bits) 8 in
  let bitset := fill_bitset (replicate (Z.to_nat bitset_size) 0) 0 bits in
  encode_size bitset_size is_be ++ bitset.

(** Whether bit [n] of a bitset is set, as every reader of a bitset tests it:
    [byte < bits.len() && bits[byte] & (1 << (n % 8)) != 0]. *)
Definition bit_set (bitset : bytes) (n : Z) : bool :=
  (n / 8 <? zlen bitset)
  && negb (Z.land (nth (Z.to_nat (n / 8)) bitset 0) (Z.shiftl 1 (n mod 8)) =? 0).

(** ** Lemmas: value encoding *)

Lemma fold_push {A} (f : bytes -> A -> bytes) (g : A -> bytes) l out :
  Forall (fun a => forall out, f out a = out ++ g a) l ->
  List.fold_left f l out = out ++ concat (map g l).
Proof.
  intros H. revert out. induction H as [|a l Ha _ IH]; intros out; cbn.
  - now rewrite app_nil_r.
  - rewrite Ha, IH. now rewrite <- app_assoc.
Qed.

(** The sink form appends the encoding to the sink. *)
Lemma push_decoded_value_app out v is_be :
  push_decoded_value out v is_be = out ++ encode_decoded_value v is_be.
Proof.
  unfold encode_decoded_value.
  revert out. induction v as [v Ha Hs|l IH|fs IH] using Val.DecodedValue_tree_ind; intros out.
  - destruct v; cbn; rewrite ?app_nil_r, ?push_string_app; try done;
      [now edestruct Ha|now edestruct Hs].
  - cbn. rewrite !(fold_push _ (fun v => push_decoded_value [] v is_be) l) by done.
    rewrite (push_size_app out), (push_size_app []). symmetry. apply app_assoc.
  - cbn. now rewrite !(fold_push _ (fun nv => push_decoded_value [] nv.2 is_be) fs).
Qed.

Lemma encode_array l is_be :
  encode_decoded_value (Val.Array l) is_be
  = encode_size (zlen l) is_be ++ concat (map (fun v => encode_decoded_value v is_be) l).
Proof.
  unfold encode_decoded_value at 1. cbn.
  apply fold_push, Forall_forall. intros v _ out. apply push_decoded_value_app.
Qed.

Lemma encode_structure fs is_be :
  encode_decoded_value (Val.Structure fs) is_be
  = concat (map (fun nv => encode_decoded_value nv.2 is_be) fs).
Proof.
  unfold encode_decoded_value at 1. cbn.
  rewrite (fold_push _ (fun nv => encode_decoded_value nv.2 is_be)); [done|].
  apply Forall_forall. intros v _ out. apply push_decoded_value_app.
Qed.

(** ** Lemmas: bitsets *)

Lemma land_single_bit x k :
  0 <= k -> negb (Z.land x (Z.shiftl 1 k) =? 0) = Z.testbit x k.
Proof.
  intros Hk. destruct (Z.testbit x k) eqn:E.
  - apply negb_true_iff, Z.eqb_neq. intros H.
    assert (Z.testbit (Z.land x (Z.shiftl 1 k)) k = false) as F by (rewrite H; apply Z.bits_0).
    rewrite Z.land_spec, E, Z.shiftl_spec, Z.sub_diag in F by lia. discriminate.
  - apply negb_false_iff, Z.eqb_eq, Z.bits_inj'. intros n Hn.
    rewrite Z.land_spec, Z.shiftl_spec, Z.bits_0 by lia.
    destruct (decide (n = k)) as [->|Hne]; [now rewrite E|].
    destruct (decide (n < k)).
    + now rewrite (Z.testbit_neg_r 1), andb_false_r by lia.
    + rewrite (Z.bits_above_log2 1 (n - k)), andb_false_r; cbn; lia || done.
Qed.

(** Reading bit [n] is reading a bit of the addressed byte; a byte past the end
    reads as zero. *)
Lemma bit_set_testbit bs n :
  0 <= n -> bit_set bs n = Z.testbit (nth (Z.to_nat (n / 8)) bs 0) (n mod 8).
Proof.
  intros Hn. unfold bit_set. rewrite land_single_bit by (apply Z.mod_pos_bound; lia).
  destruct (n / 8 <? zlen bs) eqn:E; [done|]. bool_to_prop.
  rewrite nth_overflow, Z.bits_0 by (unfold zlen in *; lia). done.
Qed.

Lemma byte_bits n : 0 <= n -> n = 8 * (n / 8) + n mod 8 /\ 0 <= n mod 8 < 8 /\ 0 <= n / 8.
Proof.
  intros. pose proof (Z.div_mod n 8). pose proof (Z.mod_pos_bound n 8).
  pose proof (Z.div_pos n 8). lia.
Qed.

Lemma nth_insert_list {A} (l : list A) i j x d :
  (i < length l)%nat -> nth j (<[i := x]> l) d = if decide (j = i) then x else nth j l d.
Proof.
  intros Hi. rewrite !nth_lookup. case_decide; subst.
  - now rewrite list_lookup_insert_eq.
  - now rewrite list_lookup_insert_ne by done.
Qed.

Lemma nth_replicate_0 n k : nth n (replicate k 0) 0 = 0.
Proof. revert n. induction k as [|k IH]; intros [|n]; cbn; auto. Qed.

(** Setting bit [i] of a bitset changes that bit and no other. *)
Lemma bit_set_set bs i n :
  0 <= i < 8 * zlen bs -> 0 <= n ->
  let k := Z.to_nat (i / 8) in
  bit_set (<[k := Z.lor (nth k bs 0) (Z.shiftl 1 (i mod 8))]> bs) n
  = bit_set bs n || (n =? i).
Proof.
  intros Hi Hn k. rewrite !bit_set_testbit by done.
  destruct (byte_bits i) as (? & ? & ?); [lia|]. destruct (byte_bits n) as (? & ? & ?); [done|].
  rewrite nth_insert_list by (subst k; unfold zlen in *; lia).
  case_decide as E.
  - subst k. assert (n / 8 = i / 8) as E8 by lia. rewrite E8 in *.
    rewrite Z.lor_spec, Z.shiftl_spec by lia. f_equal.
    destruct (Z.eqb_spec n i) as [->|Hne].
    + now rewrite Z.sub_diag.
    + destruct (decide (n mod 8 < i mod 8)).
      * apply Z.testbit_neg_r. lia.
      * apply Z.bits_above_log2; cbn; lia.
  - destruct (Z.eqb_spec n i) as [->|_]; [done|]. now rewrite orb_false_r.
Qed.

Lemma length_fill_bitset bs i bits : length (fill_bitset bs i bits) = length bs.
Proof.
  revert bs i. induction bits as [|[] bits IH]; intros bs i; cbn; rewrite ?IH; try done.
  apply length_insert.
Qed.

Lemma fill_bitset_spec bits bs i n :
  0 <= i -> i + zlen bits <= 8 * zlen bs -> 0 <= n ->
  bit_set (fill_bitset bs i bits) n
  = bit_set bs n || ((i <=? n) && nth (Z.to_nat (n - i)) bits false).
Proof.
  revert bs i. induction bits as [|b bits IH]; intros bs i Hi Hlen Hn; cbn [fill_bitset].
  - replace (nth _ [] false) with false by (now destruct (Z.to_nat (n - i))).
    now rewrite andb_false_r, orb_false_r.
  - rewrite zlen_cons in Hlen. pose proof (zlen_nonneg bits).
    rewrite IH; [|lia| |done].
    2: { destruct b; [|lia]. unfold zlen in *. rewrite length_insert. lia. }
    destruct (Z.leb_spec (i + 1) n), (Z.leb_spec i n); try lia; cbn [andb].
    + replace (Z.to_nat (n - i)) with (S (Z.to_nat (n - (i + 1)))) by lia. cbn [nth].
      f_equal. destruct b; [|done]. rewrite bit_set_set by lia.
      destruct (Z.eqb_spec n i); [lia|]. apply orb_false_r.
    + assert (n = i) as -> by lia. rewrite Z.sub_diag. cbn [Z.to_nat nth].
      rewrite orb_false_r. destruct b; [|now rewrite orb_false_r].
      rewrite bit_set_set, Z.eqb_refl by lia. done.
    + destruct b; [|done]. rewrite bit_set_set by lia.
      destruct (Z.eqb_spec n i); [lia|]. now rewrite orb_false_r.
Qed.

Lemma div_ceil_8 n : 0 <= n -> 0 <= div_ceil n 8 /\ n <= 8 * div_ceil n 8 < n + 8.
Proof.
  intros. unfold div_ceil. pose proof (Z.div_mod (n + 8 - 1) 8). pose proof (Z.mod_pos_bound (n + 8 - 1) 8).
  lia.
Qed.

Definition flags_bitset (bits : list bool) : bytes :=
  fill_bitset (replicate (Z.to_nat (div_ceil (zlen bits) 8)) 0) 0 bits.

Lemma encode_bitset_from_flags_unfold bits is_be :
  encode_bitset_from_flags bits is_be
  = encode_size (zlen (flags_bitset bits)) is_be ++ flags_bitset bits.
Proof.
  unfold encode_bitset_from_flags, flags_bitset. do 2 f_equal.
  unfold zlen at 2. rewrite length_fill_bitset, length_replicate.
  pose proof (div_ceil_8 (zlen bits)). pose proof (zlen_nonneg bits). lia.
Qed.

(** The written bitset has exactly the flagged bits set. *)
Lemma flags_bitset_spec bits n :
  0 <= n -> bit_set (flags_bitset bits) n = nth (Z.to_nat n) bits false.
Proof.
  intros Hn. pose proof (zlen_nonneg bits). pose proof (div_ceil_8 (zlen bits)).
  unfold flags_bitset. rewrite fill_bitset_spec; rewrite ?zlen_replicate; try lia.
  rewrite Z.sub_0_r. destruct (Z.leb_spec 0 n); [|lia]. cbn [andb].
  rewrite bit_set_testbit, nth_replicate_0, Z.bits_0 by done. done.
Qed.

(** The body of [encode_all_ones_bitset]: whole bytes of ones, the last one
    masked. *)
Definition ones_bitset (total_bits : Z) : bytes :=
  let size := div_ceil total_bits 8 in
  let spare := size * 8 - total_bits in
  let body := replicate (Z.to_nat size) 0xFF in
  if spare =? 0 then body else <[(Z.to_nat size - 1)%nat := Z.shiftr 0xFF spare]> body.

Lemma zlen_ones_bitset n : 0 <= n -> zlen (ones_bitset n) = div_ceil n 8.
Proof.
  intros Hn. destruct (div_ceil_8 n Hn) as [? ?]. unfold ones_bitset.
  destruct (_ =? 0); unfold zlen; rewrite ?length_insert, length_replicate; lia.
Qed.

Lemma push_all_ones_bitset_app out n is_be :
  0 < n ->
  push_all_ones_bitset out n is_be
  = out ++ encode_size (zlen (ones_bitset n)) is_be ++ ones_bitset n.
Proof.
  intros Hn. rewrite zlen_ones_bitset by lia.
  destruct (div_ceil_8 n) as [? ?]; [lia|].
  unfold push_all_ones_bitset, ones_bitset.
  destruct (_ =? 0); [now rewrite <- app_assoc|].
  rewrite length_app, length_replicate.
  rewrite insert_app_r_alt by lia. rewrite <- app_assoc. do 3 f_equal. lia.
Qed.

Lemma testbit_ff k : 0 <= k -> Z.testbit 0xFF k = (k <? 8).
Proof.
  intros. change 0xFF with (Z.ones 8). destruct (Z.ltb_spec k 8).
  - apply Z.ones_spec_low. lia.
  - apply Z.ones_spec_high. lia.
Qed.

Lemma nth_replicate_ff i k : (i < k)%nat -> nth i (replicate k 0xFF) 0 = 0xFF.
Proof. intros. rewrite nth_lookup, lookup_replicate_2; done. Qed.

(** Exactly the first [n] bits are set. *)
Lemma ones_bitset_spec n i : 0 < n -> 0 <= i -> bit_set (ones_bitset n) i = (i <? n).
Proof.
  intros Hn Hi. destruct (div_ceil_8 n) as [? ?]; [lia|].
  destruct (byte_bits i Hi) as (? & ? & ?).
  rewrite bit_set_testbit by done. unfold ones_bitset.
  destruct (decide (div_ceil n 8 <= i / 8)).
  - rewrite nth_overflow, Z.bits_0.
    + symmetry. apply Z.ltb_ge. lia.
    + destruct (_ =? 0); rewrite ?length_insert, length_replicate; lia.
  - destruct (_ =? 0) eqn:?; bool_to_prop.
    + rewrite nth_replicate_ff, testbit_ff by lia.
      destruct (Z.ltb_spec (i mod 8) 8), (Z.ltb_spec i n); lia || done.
    + rewrite nth_insert_list by (rewrite length_replicate; lia). case_decide.
      * rewrite Z.shiftr_spec, testbit_ff by lia.
        destruct (Z.ltb_spec (i mod 8 + (div_ceil n 8 * 8 - n)) 8), (Z.ltb_spec i n); lia || done.
      * rewrite nth_replicate_ff, testbit_ff by lia.
        destruct (Z.ltb_spec (i mod 8) 8), (Z.ltb_spec i n); lia || done.
Qed.

(** ** Claims *)

(** The changed bitset written from flags is its length prefix followed by
    bytes in which bit [n] is set exactly when flag [n] is; there are no stray
    bits, and the byte count is the least that holds every flag. *)
Theorem bitset_from_flags_exact bits is_be :
  exists bs, encode_bitset_from_flags bits is_be = encode_size (zlen bs) is_be ++ bs
    /\ zlen bs = div_ceil (zlen bits) 8
    /\ forall n, 0 <= n -> bit_set bs n = nth (Z.to_nat n) bits false.
Proof.
  exists (flags_bitset bits). split_and!.
  - apply encode_bitset_from_flags_unfold.
  - unfold flags_bitset, zlen at 1. rewrite length_fill_bitset, length_replicate.
    pose proof (div_ceil_8 (zlen bits)). pose proof (zlen_nonneg bits). lia.
  - apply flags_bitset_spec.
Qed.

End PvdEncode.
