(* ===== verification/PvdDecode.v ===== *)
(** * pvData introspection and value decoding

    Models [PvdDecoder] of [spvirit-codec/src/spvd_decode.rs].  The decoder's
    cells (type registry, recursion depth, node budget) are a state record
    threaded by a small monad; a [DepthGuard] is [with_depth] or
    [node_budget_scope], which restore their counter on every exit path.  Every
    index, slice and subtraction that could panic does so in the model.

    Recursion through [enter] is bounded by [max_depth], so the recursive
    functions take fuel and the public ones supply [max_depth + 1]; the safety
    theorems show that it never runs out. *)

From stdpp Require Import gmap.
From S2P Require Import Prelude Wire PvdTypes PvdEncode.

Local Open Scope Z_scope.

Module PvdDecode.
Import Wire.

Record DecodeLimits := mkLimits {
  max_scalar_array : Z;
  max_string_array : Z;
  max_struct_array : Z;
  max_union_array : Z;
  max_variant_array : Z;
  max_struct_fields : Z;
  max_depth : Z;
}.

Definition default_limits : DecodeLimits :=
  mkLimits 4000000 65536 65536 65536 65536 65536 32.

Definition NODE_BUDGET_EXCEEDED : bytes := str "introspection expands past the node budget".
Definition NODES_PER_BYTE : Z := 16.
Definition MAX_DECODE_NODES : Z := 1048576.

Definition node_ceiling (max_struct_fields input_len : Z) : Z :=
  Z.max (Z.min (saturating_add max_struct_fields (saturating_mul NODES_PER_BYTE input_len))
           MAX_DECODE_NODES)
    max_struct_fields.

Definition is_hostile (e : DecodeError) : bool :=
  match e with
  | DepthExceeded _ _ => true
  | Malformed what => bool_decide (what = NODE_BUDGET_EXCEEDED)
  | _ => false
  end.

(** ** Decoder state and monad *)

Record PvdDecoder := mkDecoder {
  registry : gmap Z (Ty.FieldType * Z * Z);
  depth : Z;
  nodes : Z;
  node_limit : Z;
  budget_scope : Z;
}.

Definition set_depth (d : Z) (s : PvdDecoder) : PvdDecoder :=
  mkDecoder (registry s) d (nodes s) (node_limit s) (budget_scope s).
Definition set_nodes (n : Z) (s : PvdDecoder) : PvdDecoder :=
  mkDecoder (registry s) (depth s) n (node_limit s) (budget_scope s).
Definition set_scope (k : Z) (s : PvdDecoder) : PvdDecoder :=
  mkDecoder (registry s) (depth s) (nodes s) (node_limit s) k.
Definition set_budget (n l : Z) (s : PvdDecoder) : PvdDecoder :=
  mkDecoder (registry s) (depth s) n l (budget_scope s).
Definition set_registry (g : gmap Z (Ty.FieldType * Z * Z)) (s : PvdDecoder) : PvdDecoder :=
  mkDecoder g (depth s) (nodes s) (node_limit s) (budget_scope s).

Definition M (A : Type) : Type := PvdDecoder -> DecodeResult A * PvdDecoder.

Definition ret {A} (a : A) : M A := fun s => (Ok a, s).
Definition fail {A} (e : DecodeError) : M A := fun s => (Err e, s).
Definition out_of_fuel {A} : M A := fun s => (OutOfFuel, s).
Definition lift {A} (r : DecodeResult A) : M A := fun s => (r, s).

Definition bind {A B} (m : M A) (k : A -> M B) : M B :=
  fun s =>
    match m s with
    | (Ok a, s) => k a s
    | (Err e, s) => (Err e, s)
    | (Panic, s) => (Panic, s)
    | (OutOfFuel, s) => (OutOfFuel, s)
    end.

(** [match m { Ok(..) => .., Err(e) => .. }]: a panic is not caught. *)
Definition try {A} (m : M A) : M (A + DecodeError) :=
  fun s =>
    match m s with
    | (Ok a, s) => (Ok (inl a), s)
    | (Err e, s) => (Ok (inr e), s)
    | (Panic, s) => (Panic, s)
    | (OutOfFuel, s) => (OutOfFuel, s)
    end.

Notation "'let!' p := m 'in' k" :=
  (bind m (fun x => match x with p => k end))
  (at level 10, p pattern, m at level 100, k at level 200) : codec_scope.
Local Open Scope codec_scope.

(** What [decode_with_bitset_recursive] leaves behind: whether the walk ran to
    the end, the data offset, the bit offset and the fields decoded. *)
Abbreviation walk := (bool * Z * Z * list (bytes * Val.DecodedValue))%type.

Section Decoder.
Context (is_be : bool) (limits : DecodeLimits).

Definition with_limits : PvdDecoder :=
  mkDecoder ∅ 0 0 (max_struct_fields limits) 0.

(** [enter] and the guard it returns, held around [m]. *)
Definition with_depth {A} (m : M A) : M A :=
  fun s =>
    let next := depth s + 1 in
    if next >? max_depth limits then (Err (DepthExceeded next (max_depth limits)), s)
    else
      let '(r, s) := m (set_depth next s) in
      (r, set_depth (saturating_sub (depth s) 1) s).

(** [node_budget_scope] and the guard it returns, held around [m]. *)
Definition node_budget_scope {A} (input_len : Z) (m : M A) : M A :=
  fun s =>
    let scope := budget_scope s in
    let s :=
      if scope =? 0
      then set_budget 0 (node_ceiling (max_struct_fields limits) input_len) s else s in
    let '(r, s) := m (set_scope (scope + 1) s) in
    (r, set_scope (saturating_sub (budget_scope s) 1) s).

Definition charge_nodes (n : Z) : M unit :=
  fun s =>
    let used := saturating_add (nodes s) n in
    let s := set_nodes used s in
    if used >? node_limit s then (Err (Malformed NODE_BUDGET_EXCEEDED), s) else (Ok tt, s).

Definition check_resolved_height (height : Z) : M unit :=
  fun s =>
    let d := saturating_sub (depth s + height) 1 in
    if d >? max_depth limits then (Err (DepthExceeded d (max_depth limits)), s)
    else (Ok tt, s).

Definition check_array_count (count min_elem available : Z) (kind : bytes) (limit : Z) : M unit :=
  if count >? limit then fail (ArrayTooLarge kind count limit)
  else
    let min_bytes := saturating_mul count min_elem in
    if min_bytes >? available then fail (CountExceedsBuffer count min_bytes available)
    else ret tt.

Definition registry_get (key : Z) : M (option (Ty.FieldType * Z * Z)) :=
  fun s => (Ok (registry s !! key), s).

(** [registry.insert(key, (ft, type_height(ft), type_nodes(ft)))]. *)
Definition registry_insert (key : Z) (ft : Ty.FieldType) : M unit :=
  fun s =>
    (Ok tt, set_registry (<[key := (ft, Ty.type_height ft, Ty.type_nodes ft)]> (registry s)) s).

(** ** Introspection *)

Definition decode_size (data : bytes) : M (Z * Z) := lift (decode_size_prefixed data is_be).
Definition decode_string (data : bytes) : M (bytes * Z) :=
  lift (decode_string_prefixed data is_be Strict).

Definition parse_field_desc (parse_type : bytes -> M (Ty.FieldType * Z)) (data : bytes)
  : M (Ty.FieldDesc * Z) :=
  node_budget_scope (zlen data) (
    if zlen data =? 0 then fail (Truncated 1 0) else
    let! (name, consumed) := decode_string data in
    let offset := consumed in
    if zlen data <=? offset then fail (Truncated (offset + 1) (zlen data)) else
    let! rest := lift (slice_from data offset) in
    let! (ft, type_consumed) := parse_type rest in
    ret (Ty.mkField name ft, offset + type_consumed)).

(** The [for _ in 0..field_count] loop of [parse_structure_desc]. *)
Fixpoint parse_fields_loop (parse_type : bytes -> M (Ty.FieldType * Z)) (n : nat)
    (data : bytes) (offset : Z) (fields : list Ty.FieldDesc) : M (list Ty.FieldDesc * Z) :=
  match n with
  | O => ret (fields, offset)
  | S n =>
    if zlen data <=? offset then ret (fields, offset) else
    let! d := lift (slice_from data offset) in
    let! r := try (parse_field_desc parse_type d) in
    match r with
    | inl (field, consumed) =>
      parse_fields_loop parse_type n data (offset + consumed) (fields ++ [field])
    | inr e => if is_hostile e then fail e else ret (fields, offset)
    end
  end.

Definition parse_structure_desc (parse_type : bytes -> M (Ty.FieldType * Z)) (data : bytes)
  : M (Ty.StructureDesc * Z) :=
  let! (id, consumed) := decode_string data in
  let offset := consumed in
  let struct_id := match id with [] => None | _ => Some id end in
  let! d := lift (slice_from data offset) in
  let! (field_count, consumed) := decode_size d in
  let offset := offset + consumed in
  if field_count >? max_struct_fields limits then
    fail (ArrayTooLarge (str "structure fields") field_count (max_struct_fields limits))
  else
  let! (fields, offset) := parse_fields_loop parse_type (Z.to_nat field_count) data offset [] in
  ret (Ty.mkStruct struct_id fields, offset).

(** [u16::from_be_bytes([data[1], data[2]])] or its little-endian form. *)
Definition read_key (data : bytes) : M Z :=
  let! b1 := lift (index data 1) in
  let! b2 := lift (index data 2) in
  ret (get_int is_be [b1; b2]).

(** The scalar and scalar-array tail of [parse_type_desc]. *)
Definition parse_scalar_type (type_byte : Z) (data : bytes) : M (Ty.FieldType * Z) :=
  let scalar_or_array := Z.land type_byte 0x18 in
  let is_array := negb (scalar_or_array =? 0) in
  let! offset :=
    (if is_array && negb (scalar_or_array =? 0x08) then
       let! d := lift (slice_from data 1) in
       let! (_, consumed) := decode_size d in
       ret (1 + consumed)
     else ret 1) in
  let base_type := Z.land type_byte 0xE7 in
  if base_type =? 0x60 then
    ret (if is_array then Ty.StringArray else Ty.String, offset)
  else
    match TypeCode.from_byte base_type with
    | Some tc => ret (if is_array then Ty.ScalarArray tc else Ty.Scalar tc, offset)
    | None => fail (UnknownTypeTag type_byte)
    end.

(** The structure (0x80 / 0x88) and union (0x81 / 0x89) branches: skip and check
    the element tag of an array, then parse the fields. *)
Definition parse_composite (parse_type : bytes -> M (Ty.FieldType * Z)) (inner_tag : Z)
    (is_array : bool) (data : bytes) : M (Ty.StructureDesc * Z) :=
  let! offset :=
    (if is_array then
       if zlen data <=? 1 then fail (Truncated 2 (zlen data)) else
       let! b := lift (index data 1) in
       if negb (b =? inner_tag) then fail (UnknownTypeTag b) else ret 2
     else ret 1) in
  let! d := lift (slice_from data offset) in
  let! (desc, consumed) := parse_structure_desc parse_type d in
  ret (desc, offset + consumed).

Fixpoint parse_type_desc (fuel : nat) (data : bytes) : M (Ty.FieldType * Z) :=
  match fuel with
  | O => out_of_fuel
  | S fuel =>
    with_depth (
      if zlen data =? 0 then fail (Truncated 1 0) else
      let! type_byte := lift (index data 0) in
      let! _ := (if negb (type_byte =? 0xFD) && negb (type_byte =? 0xFE)
                 then charge_nodes 1 else ret tt) in
      if type_byte =? 0xFF then ret (Ty.Variant, 1)
      else if type_byte =? 0xFD then
        if zlen data <? 3 then fail (Truncated 3 (zlen data)) else
        let! key := read_key data in
        let! d := lift (slice_from data 3) in
        let! (ft, consumed) := parse_type_desc fuel d in
        let! _ := registry_insert key ft in
        ret (ft, 3 + consumed)
      else if type_byte =? 0xFE then
        if zlen data <? 3 then fail (Truncated 3 (zlen data)) else
        let! key := read_key data in
        let! entry := registry_get key in
        match entry with
        | Some (ft, height, n) =>
          let! _ := check_resolved_height height in
          let! _ := charge_nodes n in
          ret (ft, 3)
        | None => fail (UnresolvedTypeId key)
        end
      else if (type_byte =? 0x80) || (type_byte =? 0x88) then
        let is_array := negb (Z.land type_byte 0x08 =? 0) in
        let! (desc, offset) := parse_composite (parse_type_desc fuel) 0x80 is_array data in
        ret (if is_array then Ty.StructureArray desc else Ty.Structure desc, offset)
      else if (type_byte =? 0x81) || (type_byte =? 0x89) then
        let is_array := negb (Z.land type_byte 0x08 =? 0) in
        let! (desc, offset) := parse_composite (parse_type_desc fuel) 0x81 is_array data in
        ret (if is_array then Ty.UnionArray (Ty.fields desc) else Ty.Union (Ty.fields desc), offset)
      else if type_byte =? 0x82 then ret (Ty.Variant, 1)
      else if type_byte =? 0x8A then ret (Ty.VariantArray, 1)
      else if (type_byte =? 0x83) || (type_byte =? 0x86) then
        let! d := lift (slice_from data 1) in
        let! (bound, consumed) := decode_size d in
        ret (Ty.BoundedString (as_u32 bound), 1 + consumed)
      else parse_scalar_type type_byte data)
  end.

(** Each level of recursion holds a [DepthGuard], so [max_depth + 1] levels are
    enough. *)
Definition depth_fuel : nat := S (Z.to_nat (max_depth limits)).

Definition parse_type : bytes -> M (Ty.FieldType * Z) := parse_type_desc depth_fuel.

(** [parse_introspection_with_len] below its budget scope; [rec] is the call on
    the type behind a [0xFD]. *)
Definition parse_introspection_body (rec : bytes -> M (Ty.StructureDesc * Z)) (data : bytes)
  : M (Ty.StructureDesc * Z) :=
  with_depth (
    if zlen data =? 0 then fail (Truncated 1 0) else
    let! type_byte := lift (index data 0) in
    if type_byte =? 0x80 then
      let! _ := charge_nodes 1 in
      let! d := lift (slice_from data 1) in
      let! (desc, consumed) := parse_structure_desc parse_type d in
      ret (desc, 1 + consumed)
    else if type_byte =? 0xFD then
      if zlen data <? 3 then fail (Truncated 3 (zlen data)) else
      let! key := read_key data in
      let! d := lift (slice_from data 3) in
      let! (desc, consumed) := rec d in
      let! _ := registry_insert key (Ty.Structure desc) in
      ret (desc, 3 + consumed)
    else if type_byte =? 0xFE then
      if zlen data <? 3 then fail (Truncated 3 (zlen data)) else
      let! key := read_key data in
      let! entry := registry_get key in
      match entry with
      | Some (Ty.Structure desc, height, n) =>
        let! _ := check_resolved_height height in
        let! _ := charge_nodes n in
        ret (desc, 3)
      | _ => fail (UnresolvedTypeId key)
      end
    else fail (UnknownTypeTag type_byte)).

Fixpoint parse_introspection_fuel (fuel : nat) (data : bytes) : M (Ty.StructureDesc * Z) :=
  match fuel with
  | O => out_of_fuel
  | S fuel =>
    node_budget_scope (zlen data) (parse_introspection_body (parse_introspection_fuel fuel) data)
  end.

Definition parse_introspection_with_len (data : bytes) : M (Ty.StructureDesc * Z) :=
  parse_introspection_fuel depth_fuel data.

Definition parse_introspection (data : bytes) : M Ty.StructureDesc :=
  let! (desc, _) := parse_introspection_with_len data in ret desc.

(** ** Values *)

Definition scalar_of_bytes (tc : TypeCode.t) (d : bytes) : option Val.DecodedValue :=
  let u := get_int is_be d in
  match tc with
  | TypeCode.Boolean => Some (Val.Boolean (negb (u =? 0)))
  | TypeCode.Int8 => Some (Val.Int8 (to_signed 8 u))
  | TypeCode.UInt8 => Some (Val.UInt8 u)
  | TypeCode.Int16 => Some (Val.Int16 (to_signed 16 u))
  | TypeCode.UInt16 => Some (Val.UInt16 u)
  | TypeCode.Int32 => Some (Val.Int32 (to_signed 32 u))
  | TypeCode.UInt32 => Some (Val.UInt32 u)
  | TypeCode.Int64 => Some (Val.Int64 (to_signed 64 u))
  | TypeCode.UInt64 => Some (Val.UInt64 u)
  | TypeCode.Float32 => Some (Val.Float32 u)
  | TypeCode.Float64 => Some (Val.Float64 u)
  | TypeCode.String | TypeCode.Null | TypeCode.Variant => None
  end.

Definition decode_scalar (data : bytes) (tc : TypeCode.t) : M (Val.DecodedValue * Z) :=
  match TypeCode.size tc with
  | None => fail (Malformed (str "type code has no fixed scalar size"))
  | Some size =>
    if zlen data <? size then fail (Truncated size (zlen data)) else
    let! d := lift (slice data 0 size) in
    match scalar_of_bytes tc d with
    | Some v => ret (v, size)
    | None => fail (Malformed (str "type code is not a decodable scalar"))
    end
  end.

(** The [for _ in 0..count] loops of the array branches: [elem] decodes the
    element at an offset and returns the offset past it. *)
Fixpoint decode_elements (elem : Z -> M (Val.DecodedValue * Z)) (n : nat) (offset : Z)
    (values : list Val.DecodedValue) : M (list Val.DecodedValue * Z) :=
  match n with
  | O => ret (values, offset)
  | S n =>
    let! (v, offset) := elem offset in
    decode_elements elem n offset (values ++ [v])
  end.

(** [data.len() - offset] on [usize], which panics on underflow. *)
Definition remaining (data : bytes) (offset : Z) : M Z :=
  if offset <=? zlen data then ret (zlen data - offset) else lift Panic.

(** The common head of the array branches: count, limit check, elements. *)
Definition decode_array (data : bytes) (min_elem : Z) (kind : bytes) (limit : Z)
    (elem : Z -> M (Val.DecodedValue * Z)) : M (Val.DecodedValue * Z) :=
  let! (count, offset) := decode_size data in
  let! available := remaining data offset in
  let! _ := check_array_count count min_elem available kind limit in
  let! (values, offset) := decode_elements elem (Z.to_nat count) offset [] in
  ret (Val.Array values, offset).

(** The field loop of [decode_structure]. *)
Fixpoint decode_fields_loop (decode : bytes -> Ty.FieldType -> M (Val.DecodedValue * Z))
    (data : bytes) (descs : list Ty.FieldDesc) (offset : Z)
    (fields : list (bytes * Val.DecodedValue)) : M (list (bytes * Val.DecodedValue) * Z) :=
  match descs with
  | [] => ret (fields, offset)
  | f :: descs =>
    if zlen data <=? offset then ret (fields, offset) else
    let! d := lift (slice_from data offset) in
    let! r := try (decode d (Ty.field_type f)) in
    match r with
    | inl (value, consumed) =>
      decode_fields_loop decode data descs (offset + consumed) (fields ++ [(Ty.name f, value)])
    | inr e => if is_hostile e then fail e else ret (fields, offset)
    end
  end.

Definition decode_structure_with (decode : bytes -> Ty.FieldType -> M (Val.DecodedValue * Z))
    (data : bytes) (desc : Ty.StructureDesc) : M (Val.DecodedValue * Z) :=
  node_budget_scope (zlen data) (
    let! (fields, offset) := decode_fields_loop decode data (Ty.fields desc) 0 [] in
    ret (Val.Structure fields, offset)).

(** A union member: selector, then the value of the selected field. *)
Definition select_member (fields : list Ty.FieldDesc) (selector : Z) : M Ty.FieldDesc :=
  match fields !! Z.to_nat selector with
  | Some f => ret f
  | None => fail (UnknownUnionSelector selector (zlen fields))
  end.

(** [decode_value] below its budget scope; [rec] is the recursive call. *)
Definition decode_value_body (rec : bytes -> Ty.FieldType -> M (Val.DecodedValue * Z))
    (data : bytes) (ft : Ty.FieldType) : M (Val.DecodedValue * Z) :=
  with_depth (
    match ft with
    | Ty.Scalar tc => decode_scalar data tc
    | Ty.String | Ty.BoundedString _ =>
      let! (s, consumed) := decode_string data in
      ret (Val.String s, consumed)
    | Ty.ScalarArray tc =>
      decode_array data (default 1 (TypeCode.size tc)) (str "scalar array")
        (max_scalar_array limits) (fun offset =>
          let! d := lift (slice_from data offset) in
          let! (v, consumed) := decode_scalar d tc in
          ret (v, offset + consumed))
    | Ty.StringArray =>
      decode_array data 1 (str "string array") (max_string_array limits) (fun offset =>
          let! d := lift (slice_from data offset) in
          let! (s, consumed) := decode_string d in
          ret (Val.String s, offset + consumed))
    | Ty.Structure desc => decode_structure_with rec data desc
    | Ty.StructureArray desc =>
      decode_array data 1 (str "structure array") (max_struct_array limits) (fun offset =>
          if zlen data <=? offset then fail (Truncated (offset + 1) (zlen data)) else
          let! null_indicator := lift (index data offset) in
          let offset := offset + 1 in
          if null_indicator =? 0 then ret (Val.Structure [], offset) else
          let! d := lift (slice_from data offset) in
          let! (item, consumed) := decode_structure_with rec d desc in
          ret (item, offset + consumed))
    | Ty.Union fields =>
      let! (selector, consumed) := decode_size data in
      let! field := select_member fields selector in
      let! d := lift (slice_from data consumed) in
      let! (value, val_consumed) := rec d (Ty.field_type field) in
      ret (Val.Structure [(Ty.name field, value)], consumed + val_consumed)
    | Ty.UnionArray fields =>
      decode_array data 1 (str "union array") (max_union_array limits) (fun offset =>
          let! d := lift (slice_from data offset) in
          let! (selector, consumed) := decode_size d in
          let offset := offset + consumed in
          let! field := select_member fields selector in
          let! d := lift (slice_from data offset) in
          let! (value, val_consumed) := rec d (Ty.field_type field) in
          ret (Val.Structure [(Ty.name field, value)], offset + val_consumed))
    | Ty.Variant =>
      if zlen data =? 0 then fail (Truncated 1 0) else
      let! b := lift (index data 0) in
      if b =? 0xFF then ret (Val.Null, 1) else
      let! (variant_type, type_consumed) := parse_type data in
      let! d := lift (slice_from data type_consumed) in
      let! (v, value_consumed) := rec d variant_type in
      ret (v, type_consumed + value_consumed)
    | Ty.VariantArray =>
      decode_array data 1 (str "variant array") (max_variant_array limits) (fun offset =>
          let! d := lift (slice_from data offset) in
          let! (v, consumed) := rec d Ty.Variant in
          ret (v, offset + consumed))
    end).

Fixpoint decode_value_fuel (fuel : nat) (data : bytes) (ft : Ty.FieldType)
  : M (Val.DecodedValue * Z) :=
  match fuel with
  | O => out_of_fuel
  | S fuel => node_budget_scope (zlen data) (decode_value_body (decode_value_fuel fuel) data ft)
  end.

Definition decode_value (data : bytes) (ft : Ty.FieldType) : M (Val.DecodedValue * Z) :=
  decode_value_fuel depth_fuel data ft.

Definition decode_structure (data : bytes) (desc : Ty.StructureDesc) : M (Val.DecodedValue * Z) :=
  decode_structure_with decode_value data desc.

(** ** Delta values *)

(** [bitset[0] & !0x01], or a whole byte after the first, is non-zero. *)
Definition has_field_bits (bitset : bytes) : bool :=
  match bitset with
  | [] => false
  | b :: bs => negb (Z.land b 0xFE =? 0) || existsb (fun b => negb (b =? 0)) bs
  end.

(** Some bit among [start .. start + n) is set. *)
Fixpoint any_bit_set (bitset : bytes) (start : Z) (n : nat) : bool :=
  match n with
  | O => false
  | S n => PvdEncode.bit_set bitset start || any_bit_set bitset (start + 1) n
  end.

(** The field loop of [decode_with_bitset_recursive]; [nested_walk] is the
    recursive call on a nested structure. *)
Section Walk.
Context (data bitset : bytes) (counts : list Z).
Context (nested_walk : Ty.StructureDesc -> Z -> Z -> M walk).

Fixpoint bitset_fields_loop (fs : list Ty.FieldDesc) (offset bit_offset : Z)
    (fields : list (bytes * Val.DecodedValue)) : M walk :=
  match fs with
  | [] => ret (true, offset, bit_offset, fields)
  | f :: fs =>
    let current_bit := bit_offset in
    let bit_offset := bit_offset + 1 in
    let field_present := PvdEncode.bit_set bitset current_bit in
    match Ty.field_type f with
    | Ty.Structure nested =>
      let! child_field_count := lift (index counts (current_bit - 1)) in
      let any_child := any_bit_set bitset bit_offset (Z.to_nat child_field_count) in
      if field_present && negb any_child then
        let bit_offset := bit_offset + child_field_count in
        if offset <? zlen data then
          let! d := lift (slice_from data offset) in
          let! r := try (decode_structure d nested) in
          match r with
          | inl (value, consumed) =>
            bitset_fields_loop fs (offset + consumed) bit_offset (fields ++ [(Ty.name f, value)])
          | inr e => if is_hostile e then fail e else ret (false, offset, bit_offset, fields)
          end
        else bitset_fields_loop fs offset bit_offset fields
      else if any_child then
        let! (ok, offset, bit_offset, nested_fields) := nested_walk nested offset bit_offset in
        if negb ok then ret (false, offset, bit_offset, fields)
        else bitset_fields_loop fs offset bit_offset
               (match nested_fields with
                | [] => fields
                | _ => fields ++ [(Ty.name f, Val.Structure nested_fields)]
                end)
      else bitset_fields_loop fs offset (bit_offset + child_field_count) fields
    | ft =>
      if field_present then
        if zlen data <=? offset then ret (false, offset, bit_offset, fields) else
        let! d := lift (slice_from data offset) in
        let! r := try (decode_value d ft) in
        match r with
        | inl (value, consumed) =>
          bitset_fields_loop fs (offset + consumed) bit_offset (fields ++ [(Ty.name f, value)])
        | inr e => if is_hostile e then fail e else ret (false, offset, bit_offset, fields)
        end
      else bitset_fields_loop fs offset bit_offset fields
    end
  end.
End Walk.

Fixpoint decode_with_bitset_recursive (data bitset : bytes) (counts : list Z)
    (desc : Ty.StructureDesc) (offset bit_offset : Z) : M walk :=
  bitset_fields_loop data bitset counts (decode_with_bitset_recursive data bitset counts)
    (Ty.fields desc) offset bit_offset [].

Definition decode_structure_with_bitset_body (data : bytes) (desc : Ty.StructureDesc)
    (bitset : bytes) : M (Val.DecodedValue * Z) :=
  node_budget_scope (zlen data) (
    let walk :=
      let! (_, offset, _, fields) :=
        decode_with_bitset_recursive data bitset (Ty.subtree_field_counts desc) desc 0 1 in
      ret (Val.Structure fields, offset) in
    if negb (has_field_bits bitset) && PvdEncode.bit_set bitset 0 then
      let! r := try (decode_structure data desc) in
      match r with
      | inl res => ret res
      | inr e => if is_hostile e then fail e else walk
      end
    else walk).

Definition decode_structure_with_bitset (data : bytes) (desc : Ty.StructureDesc)
  : M (Val.DecodedValue * Z) :=
  if zlen data =? 0 then fail (Truncated 1 0) else
  let! (bitset_size, offset) := decode_size data in
  if (bitset_size =? 0) || (zlen data <? offset + bitset_size) then
    ret (Val.Structure [], offset)
  else
    let! bitset := lift (slice data offset (offset + bitset_size)) in
    let offset := offset + bitset_size in
    let! d := lift (slice_from data offset) in
    let! (value, consumed) := decode_structure_with_bitset_body d desc bitset in
    ret (value, offset + consumed).

End Decoder.

End PvdDecode.
