(* ===== verification/PvdSafety.v ===== *)
(** * Safety of the pvData decoder

    A weakest-precondition calculus for the decoder monad and, with it, the
    specifications of the introspection parser and the value decoder: no panic,
    no fuel exhaustion, guards restored, offsets in range, the resolved type
    tree within [max_depth] and within the node budget. *)

From stdpp Require Import gmap.
From S2P Require Import Prelude Wire PvdTypes PvdEncode PvdDecode.

Local Open Scope Z_scope.

Module PvdSafety.
Import Wire PvdDecode.

(** ** Weakest preconditions *)

(** [wp m s Q E]: from [s], [m] returns a value satisfying [Q] or an error
    satisfying [E]; it does neither panic nor run out of fuel. *)
Definition wp {A} (m : M A) (s : PvdDecoder) (Q : A -> PvdDecoder -> Prop)
    (E : DecodeError -> PvdDecoder -> Prop) : Prop :=
  match m s with
  | (Ok a, s) => Q a s
  | (Err e, s) => E e s
  | _ => False
  end.

Section Rules.
Context {A B : Type}.
Implicit Types (s : PvdDecoder) (E : DecodeError -> PvdDecoder -> Prop).

Lemma wp_ret (a : A) s (Q : A -> PvdDecoder -> Prop) E : Q a s -> wp (ret a) s Q E.
Proof. done. Qed.

Lemma wp_fail e s (Q : A -> PvdDecoder -> Prop) E : E e s -> wp (fail e) s Q E.
Proof. done. Qed.

Lemma wp_lift_ok (a : A) s (Q : A -> PvdDecoder -> Prop) E : Q a s -> wp (lift (Ok a)) s Q E.
Proof. done. Qed.

Lemma wp_bind (m : M A) (k : A -> M B) s (Q : B -> PvdDecoder -> Prop) E :
  wp m s (fun a s => wp (k a) s Q E) E -> wp (bind m k) s Q E.
Proof. unfold wp, bind. now destruct (m s) as [[] ?]. Qed.

Lemma wp_try (m : M A) s (Q : A + DecodeError -> PvdDecoder -> Prop) E :
  wp m s (fun a => Q (inl a)) (fun e => Q (inr e)) -> wp (try m) s Q E.
Proof. unfold wp, try. now destruct (m s) as [[] ?]. Qed.

Lemma wp_conseq (m : M A) s (Q Q' : A -> PvdDecoder -> Prop) E E' :
  wp m s Q E -> (forall a s, Q a s -> Q' a s) -> (forall e s, E e s -> E' e s) -> wp m s Q' E'.
Proof. unfold wp. destruct (m s) as [[] ?]; auto. Qed.

Lemma wp_if (b : bool) (m n : M A) s (Q : A -> PvdDecoder -> Prop) E :
  (b = true -> wp m s Q E) -> (b = false -> wp n s Q E) -> wp (if b then m else n) s Q E.
Proof. destruct b; auto. Qed.

End Rules.

(** ** Invariants of the decoder state *)

Section Safety.
Context (is_be : bool) (limits : DecodeLimits).

(** The limits are [usize] values; the field ceiling leaves room below
    [usize::MAX] so that a saturated node count is over it. *)
Record limits_ok : Prop := {
  lim_fields : 0 <= max_struct_fields limits < usize_max;
  lim_depth : 0 <= max_depth limits;
}.
Hypothesis Hlim : limits_ok.

(** Every registered type carries its true height and node count, and is
    itself within the depth limit. *)
Definition registry_ok (g : gmap Z (Ty.FieldType * Z * Z)) : Prop :=
  forall key ft h n, g !! key = Some (ft, h, n) ->
    h = Ty.type_height ft /\ n = Ty.type_nodes ft /\ h <= max_depth limits.

(** During a public call. *)
Record good (s : PvdDecoder) : Prop := {
  good_registry : registry_ok (registry s);
  good_nodes : 0 <= nodes s <= node_limit s;
  good_limit : node_limit s < usize_max;
  good_depth : 0 <= depth s <= max_depth limits;
  good_scope : 1 <= budget_scope s;
}.

(** What an inner call leaves as it found it; the charges only grow. *)
Record framed (s s' : PvdDecoder) : Prop := {
  fr_depth : depth s' = depth s;
  fr_limit : node_limit s' = node_limit s;
  fr_scope : budget_scope s' = budget_scope s;
  fr_nodes : nodes s <= nodes s';
}.

(** The state after an error: guards restored, registry intact; unless the
    error is hostile the budget still holds, so a lenient loop may go on. *)
Record err_post (s : PvdDecoder) (e : DecodeError) (s' : PvdDecoder) : Prop := {
  ep_framed : framed s s';
  ep_registry : registry_ok (registry s');
  ep_good : is_hostile e = false -> good s';
}.

Lemma framed_refl s : framed s s.
Proof. split; done || lia. Qed.

Lemma framed_trans s1 s2 s3 : framed s1 s2 -> framed s2 s3 -> framed s1 s3.
Proof. intros [] []. split; congruence || lia. Qed.

Lemma err_post_trans s0 s e s' : framed s0 s -> err_post s e s' -> err_post s0 e s'.
Proof. intros ? []. split; eauto using framed_trans. Qed.

(** A local failure that changed nothing. *)
Lemma err_local s0 s e : framed s0 s -> good s -> err_post s0 e s.
Proof. intros ? []. now split. Qed.

Hint Resolve framed_refl err_local : codec.

(** ** Primitive operations *)

Lemma wp_lift_conv {A} (r : DecodeResult A) s (Q : A -> PvdDecoder -> Prop) E :
  match r with Ok a => Q a s | Err e => E e s | _ => False end -> wp (lift r) s Q E.
Proof. unfold wp, lift. now destruct r. Qed.

Lemma wp_slice_from data off s (Q : bytes -> PvdDecoder -> Prop) E :
  0 <= off <= zlen data -> Q (drop (Z.to_nat off) data) s ->
  wp (lift (slice_from data off)) s Q E.
Proof. intros. now rewrite slice_from_ok by done. Qed.

Lemma wp_index data i s (Q : Z -> PvdDecoder -> Prop) E :
  0 <= i < zlen data -> Q (nth (Z.to_nat i) data 0) s -> wp (lift (index data i)) s Q E.
Proof. intros. now rewrite index_ok by done. Qed.

Lemma wp_decode_size data s (Q : Z * Z -> PvdDecoder -> Prop) E :
  bytes_ok data ->
  (forall n c, 0 <= n <= u32_max -> 1 <= c <= zlen data -> Q (n, c) s) ->
  (forall k a, E (Truncated k a) s) ->
  wp (decode_size is_be data) s Q E.
Proof.
  intros Hd HQ HE. apply wp_lift_conv.
  destruct (decode_size_total data is_be) as [(n & c & E')|(k & -> & _)]; [|apply HE].
  rewrite E'. eapply decode_size_ok_bound in E' as [? ?]; auto.
Qed.

Lemma not_hostile_utf8 : is_hostile (Malformed (str "string is not valid UTF-8")) = false.
Proof. reflexivity. Qed.

Lemma wp_decode_string data s (Q : bytes * Z -> PvdDecoder -> Prop) E :
  bytes_ok data ->
  (forall v c, 1 <= c <= zlen data -> Q (v, c) s) ->
  (forall e, E e s) ->
  wp (decode_string is_be data) s Q E.
Proof.
  intros Hd HQ HE. apply wp_lift_conv.
  pose proof (decode_string_cases data is_be Strict Hd) as H.
  destruct (decode_string_prefixed data is_be Strict) as [[v c]|[]| |]; try done; try apply HE.
  now apply HQ.
Qed.

Lemma wp_charge n s0 s (Q : unit -> PvdDecoder -> Prop) :
  good s -> framed s0 s -> 0 <= n ->
  (forall s', good s' -> framed s0 s' -> nodes s' = nodes s + n -> registry s' = registry s ->
     depth s' = depth s -> Q tt s') ->
  wp (charge_nodes n) s Q (err_post s0).
Proof.
  intros Hg Hf Hn HQ. destruct Hg as [? ? ? ? ?]. destruct Hf as [? ? ? ?].
  unfold wp, charge_nodes. set (used := saturating_add (nodes s) n). cbn.
  assert (nodes s <= used <= usize_max) by (unfold used, saturating_add, usize_max in *; lia).
  destruct (used >? node_limit s) eqn:E; bool_to_prop.
  - split; cbn; [split; cbn; lia|done|]. intros H'. vm_compute in H'. discriminate.
  - assert (used = nodes s + n) by (unfold used, saturating_add, usize_max in *; lia).
    apply HQ; cbn; auto; split; cbn; auto; lia.
Qed.

Lemma wp_check_height h s0 s (Q : unit -> PvdDecoder -> Prop) :
  good s -> framed s0 s -> 1 <= h ->
  (depth s + h - 1 <= max_depth limits -> Q tt s) ->
  wp (check_resolved_height limits h) s Q (err_post s0).
Proof.
  intros Hg Hf Hh HQ. unfold wp, check_resolved_height, saturating_sub. cbn.
  destruct (_ >? _) eqn:E; bool_to_prop; [auto with codec|].
  apply HQ. destruct Hg. lia.
Qed.

(** Holding a depth guard: the body runs one level deeper, if that is allowed,
    and the guard is dropped on every exit. *)
Lemma wp_with_depth {A} (m : M A) s (Q : A -> PvdDecoder -> Prop) :
  good s ->
  (let s1 := set_depth (depth s + 1) s in
   good s1 -> depth s1 <= max_depth limits ->
   wp m s1 (fun a s' => framed s1 s' /\ Q a (set_depth (depth s) s')) (err_post s1)) ->
  wp (with_depth limits m) s Q (err_post s).
Proof.
  intros Hg Hm. destruct (Hg) as [? ? ? ? ?]. unfold wp, with_depth.
  destruct (depth s + 1 >? max_depth limits) eqn:E; bool_to_prop; [auto with codec|].
  specialize (Hm ltac:(split; cbn; auto; lia) ltac:(cbn; lia)). unfold wp in Hm.
  destruct (m _) as [[a|e| |] s']; try done; cbn in Hm.
  - destruct Hm as [[Hd _ _ _] HQ]. cbn in Hd. rewrite Hd. unfold saturating_sub.
    now replace (Z.max (depth s + 1 - 1) 0) with (depth s) by lia.
  - destruct Hm as [[Hd ? ? ?] ? Hgood]. cbn in *. rewrite Hd. unfold saturating_sub.
    replace (Z.max (depth s + 1 - 1) 0) with (depth s) by lia.
    split; cbn; [split; cbn; auto|done|].
    intros H'. destruct (Hgood H'). split; cbn in *; auto.
Qed.

(** A nested budget scope is transparent. *)
Lemma wp_scope {A} len (m : M A) s (Q : A -> PvdDecoder -> Prop) :
  good s ->
  (let s1 := set_scope (budget_scope s + 1) s in
   good s1 -> wp m s1 (fun a s' => framed s1 s' /\ Q a (set_scope (budget_scope s) s')) (err_post s1)) ->
  wp (node_budget_scope limits len m) s Q (err_post s).
Proof.
  intros Hg Hm. destruct (Hg) as [? ? ? ? Hs]. unfold wp, node_budget_scope.
  destruct (budget_scope s =? 0) eqn:E; bool_to_prop; [lia|].
  specialize (Hm ltac:(split; cbn; auto; lia)). unfold wp in Hm.
  destruct (m _) as [[a|e| |] s']; try done; cbn in Hm.
  - destruct Hm as [[_ _ Hk _] HQ]. cbn in Hk. rewrite Hk. unfold saturating_sub.
    now replace (Z.max (budget_scope s + 1 - 1) 0) with (budget_scope s) by lia.
  - destruct Hm as [[? ? Hk ?] ? Hgood]. cbn in *. rewrite Hk. unfold saturating_sub.
    replace (Z.max (budget_scope s + 1 - 1) 0) with (budget_scope s) by lia.
    split; cbn; [split; cbn; auto|done|].
    intros H'. destruct (Hgood H'). split; cbn in *; auto.
Qed.

(** ** Introspection *)

(** One step of a decoder program; errors that changed nothing are discharged. *)
Ltac wp_step :=
  lazymatch goal with
  | |- wp (bind _ _) _ _ _ => apply wp_bind
  | |- wp (ret _) _ _ _ => apply wp_ret
  | |- wp (fail _) _ _ _ => apply wp_fail; try solve [eauto with codec]
  | |- wp (if _ then _ else _) _ _ _ => apply wp_if; intros ?; bool_to_prop
  | |- wp (lift (slice_from _ _)) _ _ _ => apply wp_slice_from; [lia|]
  | |- wp (lift (index _ _)) _ _ _ => apply wp_index; [lia|]
  | |- wp (try _) _ _ _ => apply wp_try
  | |- wp (decode_size _ _) _ _ _ =>
      apply wp_decode_size; [auto with codec| |intros; solve [eauto with codec]];
      intros ? ? ? ?
  | |- wp (decode_string _ _) _ _ _ =>
      apply wp_decode_string; [auto with codec| |intros; solve [eauto with codec]];
      intros ? ? ?
  end; cbn beta iota zeta.

(** What a type parser called at depth [d] guarantees. *)
Definition type_post (data : bytes) (s : PvdDecoder) (r : Ty.FieldType * Z) (s' : PvdDecoder) : Prop :=
  let '(ft, c) := r in
  good s' /\ framed s s' /\ 1 <= c <= zlen data /\
  depth s + Ty.type_height ft <= max_depth limits /\
  nodes s + Ty.type_nodes ft <= nodes s'.

Definition parses_at (d : Z) (parse : bytes -> M (Ty.FieldType * Z)) : Prop :=
  forall data s, bytes_ok data -> good s -> depth s = d ->
    wp (parse data) s (type_post data s) (err_post s).

Definition fields_post (d : Z) (s : PvdDecoder) (fs : list Ty.FieldDesc) (s' : PvdDecoder) : Prop :=
  good s' /\ framed s s' /\
  d + Ty.fields_height fs <= max_depth limits /\
  nodes s + Ty.fields_nodes fs <= nodes s'.

Section Parser.
Context (parse : bytes -> M (Ty.FieldType * Z)) (d : Z).
Hypothesis Hparse : parses_at d parse.

Lemma wp_parse_field_desc data s :
  bytes_ok data -> good s -> depth s = d ->
  wp (parse_field_desc is_be limits parse data) s
    (fun '(f, c) s' => type_post data s (Ty.field_type f, c) s') (err_post s).
Proof.
  intros Hd Hg Hdep. apply wp_scope; [done|]. intros s1 Hg1.
  repeat wp_step.
  pose proof (zlen_nonneg data).
  eapply wp_conseq; [apply Hparse; auto with codec| |auto].
  intros [ft tc] s' (Hg' & Hf & Hc & Hh & Hn). wp_step. rewrite zlen_drop in Hc by lia.
  destruct (Hg') as [? ? ? ? ?], (Hf) as [? ? ? ?], (Hg) as [? ? ? ? ?]. cbn in *.
  split; [done|]. cbn. split_and!; try split; cbn; auto; lia.
Qed.

Lemma wp_parse_fields n data offset fs s0 s :
  bytes_ok data -> 0 <= offset <= zlen data -> depth s0 = d -> fields_post d s0 fs s ->
  wp (parse_fields_loop is_be limits parse n data offset fs) s
    (fun '(fs', o) s' => offset <= o <= zlen data /\ fields_post d s0 fs' s') (err_post s0).
Proof.
  intros Hd. revert offset fs s.
  induction n as [|n IH]; intros offset fs s Ho Hdep (Hg & Hf & Hh & Hn); cbn [parse_fields_loop].
  { wp_step. split; [lia|done]. }
  wp_step; [wp_step; split; [lia|done]|]. repeat wp_step.
  destruct (Hf) as [Hfd ? ? ?].
  eapply wp_conseq; [apply wp_parse_field_desc; auto with codec; congruence| |].
  - intros [f c] s' (Hg' & Hf' & Hc & Hh' & Hn'). cbn beta iota.
    rewrite zlen_drop in Hc by lia.
    eapply wp_conseq; [apply IH| |auto].
    + lia.
    + done.
    + split_and!; eauto using framed_trans.
      * rewrite Ty.fields_height_snoc. rewrite Hfd in Hh'. lia.
      * rewrite Ty.fields_nodes_snoc. lia.
    + intros [fs' o] s'' [? ?]. split; [lia|done].
  - intros e s' He. cbn beta iota. destruct (is_hostile e) eqn:Eh; wp_step.
    + eauto using err_post_trans.
    + destruct He as [Hfr ? Hok]. split; [lia|]. specialize (Hok Eh).
      split_and!; eauto using framed_trans. destruct Hfr. lia.
Qed.

Lemma wp_parse_structure_desc data s :
  bytes_ok data -> good s -> depth s = d ->
  wp (parse_structure_desc is_be limits parse data) s
    (fun '(desc, c) s' => 2 <= c <= zlen data /\ fields_post d s (Ty.fields desc) s')
    (err_post s).
Proof.
  intros Hd Hg Hdep. unfold parse_structure_desc. do 6 wp_step.
  rewrite zlen_drop in * by lia. wp_step; [wp_step|]. wp_step.
  eapply wp_conseq; [apply (wp_parse_fields _ _ _ _ s s)| |auto]; auto; [lia| |].
  - destruct (Hg) as [? ? ? ? ?]. split_and!; auto with codec; cbn; lia.
  - intros [fs o] s' [Ho Hf]. wp_step. cbn. split; [lia|done].
Qed.

Lemma wp_parse_composite tag is_array data s :
  bytes_ok data -> 1 <= zlen data -> good s -> depth s = d ->
  wp (parse_composite is_be limits parse tag is_array data) s
    (fun '(desc, c) s' => 1 <= c <= zlen data /\ fields_post d s (Ty.fields desc) s')
    (err_post s).
Proof.
  intros Hd Hlen Hg Hdep. unfold parse_composite. wp_step.
  assert (forall off, 1 <= off <= zlen data ->
    wp (bind (lift (slice_from data off)) (fun x =>
          bind (parse_structure_desc is_be limits parse x) (fun x =>
            match x with (desc, consumed) => ret (desc, off + consumed) end))) s
      (fun '(desc, c) s' => 1 <= c <= zlen data /\ fields_post d s (Ty.fields desc) s')
      (err_post s)) as Hrest.
  { intros off Hoff. repeat wp_step.
    eapply wp_conseq; [apply wp_parse_structure_desc; auto with codec| |auto].
    intros [desc c] s' [Hc Hf]. wp_step. rewrite zlen_drop in Hc by lia. split; [lia|done]. }
  wp_step; [|wp_step; apply Hrest; lia].
  wp_step; [wp_step|]. do 2 wp_step. wp_step; wp_step. apply Hrest. lia.
Qed.

End Parser.

Lemma wp_read_key data s (Q : Z -> PvdDecoder -> Prop) E :
  3 <= zlen data -> (forall k, Q k s) -> wp (read_key is_be data) s Q E.
Proof. intros. unfold read_key. repeat wp_step. auto. Qed.

Lemma wp_parse_scalar_type b data s (Q : Ty.FieldType * Z -> PvdDecoder -> Prop) E :
  bytes_ok data -> 1 <= zlen data ->
  (forall ft c, Ty.fields_of ft = None -> 1 <= c <= zlen data -> Q (ft, c) s) ->
  (forall e, E e s) ->
  wp (parse_scalar_type is_be b data) s Q E.
Proof.
  intros Hd Hlen HQ HE. unfold parse_scalar_type. wp_step.
  assert (forall off, 1 <= off <= zlen data ->
    wp (if Z.land b 0xE7 =? 0x60
        then ret (if negb (Z.land b 0x18 =? 0) then Ty.StringArray else Ty.String, off)
        else match TypeCode.from_byte (Z.land b 0xE7) with
             | Some tc => ret (if negb (Z.land b 0x18 =? 0) then Ty.ScalarArray tc else Ty.Scalar tc, off)
             | None => fail (UnknownTypeTag b)
             end) s Q E) as Hrest.
  { intros off Hoff. wp_step.
    - wp_step. apply HQ; [now destruct (negb _)|lia].
    - destruct (TypeCode.from_byte _); wp_step.
      apply HQ; [now destruct (negb _)|lia]. }
  wp_step; [|wp_step; apply Hrest; lia].
  do 3 wp_step. apply wp_decode_size; [auto with codec| |auto].
  intros n c Hn Hc. wp_step. rewrite zlen_drop in Hc by lia. apply Hrest. lia.
Qed.

(** A leaf or composite whose own node was charged before its fields were
    parsed one level down. *)
Lemma type_post_node data s s1 s' ft c fs :
  s1 = set_depth (depth s + 1) s -> Ty.fields_of ft = Some fs ->
  1 <= c <= zlen data ->
  good s -> good s' -> framed s1 s' -> depth s + 1 + Ty.fields_height fs <= max_depth limits ->
  nodes s + 1 + Ty.fields_nodes fs <= nodes s' ->
  framed s1 s' /\ type_post data s (ft, c) (set_depth (depth s) s').
Proof.
  intros -> Hft Hc Hg0 Hg Hf Hh Hn. split; [done|].
  destruct (Hg) as [? ? ? ? ?], (Hf) as [? ? ? ?], (Hg0) as [? ? ? ? ?].
  cbn in *. pose proof (Ty.fields_nodes_nonneg fs). pose proof (Ty.fields_height_nonneg fs).
  rewrite (Ty.type_height_fields _ _ Hft), (Ty.type_nodes_fields _ _ Hft).
  split_and!; try split; cbn; auto; lia.
Qed.

Lemma type_post_leaf data s s1 s' ft c :
  s1 = set_depth (depth s + 1) s -> Ty.fields_of ft = None -> 1 <= c <= zlen data ->
  good s -> good s' -> framed s1 s' -> nodes s + 1 <= nodes s' ->
  framed s1 s' /\ type_post data s (ft, c) (set_depth (depth s) s').
Proof.
  intros -> Hft Hc Hg0 Hg Hf Hn. split; [done|].
  destruct (Hg) as [? ? ? ? ?], (Hf) as [? ? ? ?], (Hg0) as [? ? ? ? ?].
  cbn in *. destruct (Ty.type_leaf _ Hft) as [-> ->].
  split_and!; try split; cbn; auto; lia.
Qed.

(** A type parsed one level down (behind a [0xFD]) or resolved from the
    registry (a [0xFE]). *)
Lemma type_post_deeper data s s1 s' ft c :
  s1 = set_depth (depth s + 1) s -> 1 <= c <= zlen data ->
  good s -> good s' -> framed s1 s' -> depth s + Ty.type_height ft <= max_depth limits ->
  nodes s + Ty.type_nodes ft <= nodes s' ->
  framed s1 s' /\ type_post data s (ft, c) (set_depth (depth s) s').
Proof.
  intros -> Hc Hg0 Hg Hf Hh Hn. split; [done|].
  destruct (Hg) as [? ? ? ? ?], (Hf) as [? ? ? ?], (Hg0) as [? ? ? ? ?].
  cbn in *. split_and!; try split; cbn; auto; lia.
Qed.

(** Registering a type keeps the registry in order. *)
Lemma good_register key ft s :
  good s -> Ty.type_height ft <= max_depth limits ->
  good (set_registry (<[key := (ft, Ty.type_height ft, Ty.type_nodes ft)]> (registry s)) s).
Proof.
  intros [Hr ? ? ? ?] Hh. split; cbn; auto.
  intros k ft' h n. rewrite lookup_insert. case_decide; [|apply Hr].
  intros [= <- <- <-]. auto.
Qed.

Lemma wp_registered key s (Q : option (Ty.FieldType * Z * Z) -> PvdDecoder -> Prop) E :
  good s ->
  (forall ft, Ty.type_height ft <= max_depth limits ->
     Q (Some (ft, Ty.type_height ft, Ty.type_nodes ft)) s) ->
  Q None s -> wp (registry_get key) s Q E.
Proof.
  intros [Hr _ _ _ _] HS HN. unfold wp, registry_get.
  destruct (registry s !! key) as [[[ft h] n]|] eqn:E'; [|done].
  destruct (Hr _ _ _ _ E') as (-> & -> & ?). auto.
Qed.

Lemma wp_parse_type_desc fuel d :
  max_depth limits - d < Z.of_nat fuel -> parses_at d (parse_type_desc is_be limits fuel).
Proof.
  revert d. induction fuel as [|fuel IH]; intros d Hfuel data s Hd Hg Hdep.
  { destruct (Hg) as [? ? ? ? ?]. lia. }
  cbn [parse_type_desc]. apply wp_with_depth; [done|]. intros s1 Hg1 Hd1.
  assert (Hrec : parses_at (depth s1) (parse_type_desc is_be limits fuel)) by (apply IH; cbn; lia).
  pose proof (zlen_nonneg data) as Hlen.
  wp_step; [wp_step|]. do 2 wp_step. set (b := nth _ data 0). wp_step. apply wp_if; intros Hb.
  - apply wp_charge; auto with codec lia. intros s2 Hg2 Hf2 Hn2 _ Hdep2. cbn in Hn2.
    bool_to_prop. cbn beta iota.
    wp_step; [wp_step; eapply type_post_leaf; eauto; lia|].
    wp_step; [lia|]. wp_step; [lia|].
    assert (Hcomp : forall tag is_array (mk : Ty.StructureDesc -> Ty.FieldType),
      (forall desc, Ty.fields_of (mk desc) = Some (Ty.fields desc)) ->
      wp (bind (parse_composite is_be limits (parse_type_desc is_be limits fuel) tag is_array data)
            (fun x => match x with (desc, offset) => ret (mk desc, offset) end)) s2
        (fun a s' => framed s1 s' /\ type_post data s a (set_depth (depth s) s')) (err_post s1)).
    { intros tag is_array mk Hmk. wp_step.
      eapply wp_conseq; [apply (wp_parse_composite _ (depth s1) Hrec); auto; lia| |].
      - intros [desc c] s' [Hc (Hg' & Hf' & Hh & Hn)]. wp_step.
        eapply (type_post_node _ _ _ _ _ _ (Ty.fields desc)); eauto using framed_trans; cbn in *; lia.
      - eauto using err_post_trans. }
    wp_step; [apply (Hcomp _ _ (fun desc => if negb (Z.land b 0x08 =? 0) then Ty.StructureArray desc
                                            else Ty.Structure desc)); intros; now destruct (negb _)|].
    wp_step; [apply (Hcomp _ _ (fun desc => if negb (Z.land b 0x08 =? 0) then Ty.UnionArray (Ty.fields desc)
                                            else Ty.Union (Ty.fields desc))); intros; now destruct (negb _)|].
    wp_step; [wp_step; eapply type_post_leaf; eauto; lia|].
    wp_step; [wp_step; eapply type_post_leaf; eauto; lia|].
    wp_step; [do 5 wp_step; rewrite zlen_drop in * by lia; eapply type_post_leaf; eauto; lia|].
    apply wp_parse_scalar_type; auto with codec lia.
    intros ft c Hft Hc. eapply type_post_leaf; eauto; lia.
  - wp_step. assert (b = 0xFD \/ b = 0xFE) as Hbb
      by (destruct (Z.eqb_spec b 0xFD), (Z.eqb_spec b 0xFE); cbn in Hb; auto; discriminate).
    wp_step; [lia|]. wp_step.
    + wp_step; [wp_step|]. wp_step. apply wp_read_key; [lia|]. intros key. do 3 wp_step.
      eapply wp_conseq; [apply Hrec; auto with codec| |auto].
      intros [ft c] s2 (Hg2 & Hf2 & Hc & Hh & Hn). rewrite zlen_drop in Hc by lia.
      wp_step. cbn in Hh, Hn. destruct (Hg) as [? ? ? ? ?]. destruct (Hf2).
      apply (wp_lift_ok tt). apply (wp_ret _ (set_registry _ s2)).
      eapply type_post_deeper;
        [reflexivity|lia|done|apply good_register; auto; lia|now split|lia|cbn; lia].
    + wp_step; [|lia]. wp_step; [wp_step|]. wp_step. apply wp_read_key; [lia|]. intros key. wp_step.
      apply wp_registered; [done| |wp_step]. intros ft Hft.
      pose proof (Ty.type_height_pos ft). pose proof (Ty.type_nodes_pos ft).
      wp_step. apply wp_check_height; auto with codec. intros Hh. wp_step.
      apply wp_charge; auto with codec lia. intros s2 Hg2 Hf2 Hn2 _ _. wp_step. cbn in Hh, Hn2.
      eapply type_post_deeper; eauto; lia.
Qed.

Lemma parse_type_spec d : 0 <= d -> parses_at d (parse_type is_be limits).
Proof.
  intros. apply wp_parse_type_desc. unfold depth_fuel. destruct Hlim. lia.
Qed.

(** The same guarantees for a structure descriptor, seen as a type. *)
Definition desc_post (data : bytes) (s : PvdDecoder) (r : Ty.StructureDesc * Z)
    (s' : PvdDecoder) : Prop :=
  let '(desc, c) := r in type_post data s (Ty.Structure desc, c) s'.

Lemma wp_introspection_body rec data s :
  bytes_ok data -> good s ->
  (forall data' s', bytes_ok data' -> good s' -> depth s' = depth s + 1 ->
     wp (rec data') s' (desc_post data' s') (err_post s')) ->
  wp (parse_introspection_body is_be limits rec data) s (desc_post data s) (err_post s).
Proof.
  intros Hd Hg Hrec. unfold parse_introspection_body.
  apply wp_with_depth; [done|]. intros s1 Hg1 Hd1. cbn in Hd1.
  pose proof (zlen_nonneg data) as Hlen. destruct (Hg) as [? ? ? Hdep ?].
  wp_step; [wp_step|]. do 2 wp_step. wp_step; [|wp_step; [|wp_step; [|wp_step]]].
  - wp_step. apply wp_charge; auto with codec lia. intros s2 Hg2 Hf2 Hn2 _ Hdep2. cbn in Hn2.
    do 3 wp_step.
    eapply wp_conseq; [apply (wp_parse_structure_desc _ (depth s1)); auto with codec| |].
    + apply parse_type_spec. cbn. lia.
    + intros [desc c] s' [Hc (Hg' & Hf' & Hh & Hn)]. wp_step. rewrite zlen_drop in Hc by lia.
      eapply (type_post_node _ _ _ _ _ _ (Ty.fields desc)); eauto using framed_trans; cbn in *; lia.
    + eauto using err_post_trans.
  - wp_step; [wp_step|]. wp_step. apply wp_read_key; [lia|]. intros key. do 3 wp_step.
    eapply wp_conseq; [apply Hrec; auto with codec| |auto].
    intros [desc c] s2 (Hg2 & Hf2 & Hc & Hh & Hn). rewrite zlen_drop in Hc by lia.
    wp_step. cbn [depth set_depth s1] in Hh. destruct (Hf2).
    apply (wp_lift_ok tt). apply (wp_ret _ (set_registry _ s2)).
    eapply type_post_deeper;
      [reflexivity|lia|done|apply good_register; auto; lia|now split|lia|cbn in *; lia].
  - wp_step; [wp_step|]. wp_step. apply wp_read_key; [lia|]. intros key. wp_step.
    apply wp_registered; [done| |wp_step]. intros ft Hft.
    pose proof (Ty.type_height_pos ft). pose proof (Ty.type_nodes_pos ft).
    destruct ft as [| | | |desc| | | | | |]; try solve [wp_step].
    wp_step. apply wp_check_height; auto with codec. intros Hh. wp_step.
    apply wp_charge; auto with codec lia. intros s2 Hg2 Hf2 Hn2 _ _. wp_step.
    cbn [depth nodes set_depth s1] in Hh, Hn2.
    eapply type_post_deeper; eauto; lia.
Qed.

Lemma wp_introspection fuel data s :
  max_depth limits - depth s < Z.of_nat fuel -> bytes_ok data -> good s ->
  wp (parse_introspection_fuel is_be limits fuel data) s (desc_post data s) (err_post s).
Proof.
  revert data s. induction fuel as [|fuel IH]; intros data s Hfuel Hd Hg.
  { destruct Hg. lia. }
  cbn [parse_introspection_fuel]. apply wp_scope; [done|]. intros s1 Hg1.
  eapply wp_conseq; [apply wp_introspection_body; auto| |auto].
  - intros data' s' ? ? Hd'. apply IH; auto. cbn in Hd'. lia.
  - intros [desc c] s' (Hg' & Hf & Hc & Hh & Hn). split; [done|].
    destruct (Hg') as [? ? ? ? ?], (Hf) as [? ? ? ?], (Hg) as [? ? ? ? ?]. cbn -[Ty.type_height Ty.type_nodes] in *.
    split_and!; try split; cbn -[Ty.type_height Ty.type_nodes]; auto; lia.
Qed.

(** ** Values *)

(** What a value decoder returning values of height at most [h] guarantees. *)
Definition value_post (h : Z) (data : bytes) (s : PvdDecoder) (r : Val.DecodedValue * Z)
    (s' : PvdDecoder) : Prop :=
  let '(v, c) := r in
  good s' /\ framed s s' /\ 0 <= c <= zlen data /\ Val.value_height v <= h.

(** A value decoder called at depth [d]; a structure array nests two value
    levels per level of recursion. *)
Definition decodes_at (d : Z) (decode : bytes -> Ty.FieldType -> M (Val.DecodedValue * Z)) : Prop :=
  forall data ft s, bytes_ok data -> good s -> depth s = d ->
    wp (decode data ft) s (value_post (2 * (max_depth limits - d)) data s) (err_post s).

Lemma scalar_height b tc d v : scalar_of_bytes b tc d = Some v -> Val.value_height v = 1.
Proof. destruct tc; cbn; intros [= <-]; done. Qed.

Lemma wp_decode_scalar data tc s0 s h :
  good s -> framed s0 s -> 1 <= h ->
  wp (decode_scalar is_be data tc) s
    (fun '(v, c) s' => s' = s /\ 0 <= c <= zlen data /\ Val.value_height v <= h) (err_post s0).
Proof.
  intros Hg Hf Hh. unfold decode_scalar. destruct (TypeCode.size tc) as [n|] eqn:E; [|wp_step].
  pose proof (TypeCode.size_pos _ _ E). wp_step; [wp_step|]. wp_step.
  rewrite slice_ok by lia. apply wp_lift_ok.
  destruct (scalar_of_bytes _ _ _) eqn:Es; wp_step.
  apply scalar_height in Es. split_and!; auto; lia.
Qed.

Section Values.
Context (d : Z) (decode : bytes -> Ty.FieldType -> M (Val.DecodedValue * Z)).
Hypothesis Hdecode : decodes_at d decode.

Definition entries_height (fs : list (bytes * Val.DecodedValue)) : Z :=
  Ty.list_max (map (fun nv => Val.value_height nv.2) fs).

Lemma wp_decode_fields data descs offset fs h s0 s :
  bytes_ok data -> 0 <= offset <= zlen data -> depth s0 = d -> good s -> framed s0 s ->
  2 * (max_depth limits - d) <= h -> entries_height fs <= h ->
  wp (decode_fields_loop decode data descs offset fs) s
    (fun '(fs', o) s' => good s' /\ framed s0 s' /\ offset <= o <= zlen data /\
                         entries_height fs' <= h) (err_post s0).
Proof.
  intros Hd. revert offset fs s.
  induction descs as [|f descs IH]; intros offset fs s Ho Hdep Hg Hf Hh Hfs; cbn [decode_fields_loop].
  { wp_step. split_and!; auto; lia. }
  wp_step; [wp_step; split_and!; auto; lia|]. repeat wp_step. destruct (Hf).
  eapply wp_conseq; [apply Hdecode; auto with codec; congruence| |].
  - intros [v c] s' (Hg' & Hf' & Hc & Hv). cbn beta iota. rewrite zlen_drop in Hc by lia.
    eapply wp_conseq; [apply IH| |auto]; eauto using framed_trans; [lia| |].
    + unfold entries_height. rewrite map_app, Ty.list_max_app. cbn.
      unfold entries_height in Hfs. pose proof (Ty.list_max_nonneg (map (fun nv => Val.value_height nv.2) fs)).
      lia.
    + intros [fs' o] s'' (? & ? & ? & ?). split_and!; auto; lia.
  - intros e s' He. cbn beta iota. destruct (is_hostile e) eqn:Eh; wp_step.
    + eauto using err_post_trans.
    + destruct He as [Hfr ? Hok]. specialize (Hok Eh). split_and!; eauto using framed_trans; lia.
Qed.

Lemma wp_decode_structure_with data desc s :
  bytes_ok data -> good s -> depth s = d ->
  wp (decode_structure_with limits decode data desc) s
    (value_post (1 + 2 * (max_depth limits - d)) data s) (err_post s).
Proof.
  intros Hd Hg Hdep. apply wp_scope; [done|]. intros s1 Hg1. wp_step.
  pose proof (zlen_nonneg data). destruct (Hg) as [? ? ? ? ?].
  eapply wp_conseq; [apply (wp_decode_fields _ _ _ _ (2 * (max_depth limits - d)) s1)| |auto];
    auto with codec; try lia; [cbn; lia|].
  intros [fs o] s' (Hg' & Hf & Ho & Hh). wp_step. split; [done|].
  destruct (Hg') as [? ? ? ? ?], (Hf) as [? ? ? ?]. unfold entries_height in Hh. cbn in *.
  split_and!; try split; cbn; auto; lia.
Qed.

End Values.

(** The element loop and the head of the array branches. *)
Lemma wp_decode_elements (data : bytes) elem n offset vs h s0 s :
  (forall off s, 0 <= off <= zlen data -> good s -> framed s0 s ->
     wp (elem off) s
       (fun '(v, o) s' => good s' /\ framed s0 s' /\ off <= o <= zlen data /\ Val.value_height v <= h)
       (err_post s0)) ->
  0 <= offset <= zlen data -> good s -> framed s0 s -> Ty.list_max (map Val.value_height vs) <= h ->
  wp (decode_elements elem n offset vs) s
    (fun '(vs', o) s' => good s' /\ framed s0 s' /\ offset <= o <= zlen data /\
                         Ty.list_max (map Val.value_height vs') <= h) (err_post s0).
Proof.
  intros Helem. revert offset vs s.
  induction n as [|n IH]; intros offset vs s Ho Hg Hf Hvs; cbn [decode_elements].
  { wp_step. split_and!; auto; lia. }
  wp_step. eapply wp_conseq; [apply Helem; auto| |auto].
  intros [v o] s' (Hg' & Hf' & Ho' & Hv). cbn beta iota.
  eapply wp_conseq; [apply IH| |auto]; auto; [lia| |].
  - rewrite map_app, Ty.list_max_app. cbn.
    pose proof (Ty.list_max_nonneg (map Val.value_height vs)). lia.
  - intros [vs' o'] s'' (? & ? & ? & ?). split_and!; auto; lia.
Qed.

Lemma wp_decode_array (data : bytes) min_elem kind limit elem h s0 s :
  bytes_ok data -> good s -> framed s0 s -> 0 <= h ->
  (forall off s, 0 <= off <= zlen data -> good s -> framed s0 s ->
     wp (elem off) s
       (fun '(v, o) s' => good s' /\ framed s0 s' /\ off <= o <= zlen data /\ Val.value_height v <= h)
       (err_post s0)) ->
  wp (decode_array is_be data min_elem kind limit elem) s
    (fun '(v, c) s' => good s' /\ framed s0 s' /\ 0 <= c <= zlen data /\
                       Val.value_height v <= 1 + h) (err_post s0).
Proof.
  intros Hd Hg Hf Hh Helem. unfold decode_array. do 3 wp_step.
  unfold remaining. wp_step; [|lia]. do 2 wp_step. unfold check_array_count.
  wp_step; [wp_step|]. wp_step; [wp_step|]. do 2 wp_step.
  eapply wp_conseq; [apply (wp_decode_elements data _ _ _ _ h s0)| |auto]; auto; [lia|].
  intros [vs o] s' (? & ? & ? & ?). wp_step. cbn. split_and!; auto; lia.
Qed.

Lemma wp_select_member fs sel s (Q : Ty.FieldDesc -> PvdDecoder -> Prop) E :
  (forall f, Q f s) -> (forall e, E e s) -> wp (select_member fs sel) s Q E.
Proof. intros. unfold select_member. destruct (fs !! _); now wp_step. Qed.

Lemma value_post_up h data s s1 s' v c :
  s1 = set_depth (depth s + 1) s -> good s -> good s' -> framed s1 s' ->
  0 <= c <= zlen data -> Val.value_height v <= h ->
  framed s1 s' /\ value_post h data s (v, c) (set_depth (depth s) s').
Proof.
  intros -> Hg Hg' Hf Hc Hv. split; [done|].
  destruct (Hg) as [? ? ? ? ?], (Hg') as [? ? ? ? ?], (Hf) as [? ? ? ?]. cbn in *.
  split_and!; try split; cbn; auto; lia.
Qed.

(** A recursive call on the rest of the data, from anywhere inside the body. *)
Lemma wp_rec_at d rec data off ft s0 s h :
  decodes_at d rec -> bytes_ok data -> 0 <= off <= zlen data -> good s -> framed s0 s ->
  depth s0 = d -> h = 2 * (max_depth limits - d) ->
  wp (rec (drop (Z.to_nat off) data) ft) s
    (fun '(v, c) s' => good s' /\ framed s0 s' /\ 0 <= c <= zlen data - off /\
                       Val.value_height v <= h) (err_post s0).
Proof.
  intros Hrec Hd Ho Hg Hf Hdep ->. destruct (Hf).
  eapply wp_conseq; [apply Hrec; auto with codec; congruence| |eauto using err_post_trans].
  intros [v c] s' (? & ? & Hc & ?). rewrite zlen_drop in Hc by lia.
  split_and!; eauto using framed_trans; lia.
Qed.

(** The branches of [decode_value], one level below the depth of the call. *)
Section ValueBody.
Context (rec : bytes -> Ty.FieldType -> M (Val.DecodedValue * Z)) (data : bytes) (s : PvdDecoder).
Hypothesis Hd : bytes_ok data.
Hypothesis Hg : good s.
Hypothesis Hrec : decodes_at (depth s + 1) rec.

Let s1 : PvdDecoder := set_depth (depth s + 1) s.
Hypothesis Hg1 : good s1.

(** Height of a value decoded by a recursive call, and of the result. *)
Let h : Z := 2 * (max_depth limits - (depth s + 1)).
Let H : Z := 2 * (max_depth limits - depth s).

Definition body_post (a : Val.DecodedValue * Z) (s' : PvdDecoder) : Prop :=
  framed s1 s' /\ value_post H data s a (set_depth (depth s) s').

Lemma body_done s' v c :
  good s' -> framed s1 s' -> 0 <= c <= zlen data -> Val.value_height v <= H -> body_post (v, c) s'.
Proof. intros. now apply value_post_up. Qed.

Lemma h_bounds : 0 <= h /\ H = 2 + h.
Proof. destruct Hg1 as [_ _ _ Hdep _]. cbn in Hdep. unfold h, H. lia. Qed.

(** What one array element must satisfy. *)
Definition elem_spec (hv : Z) (elem : Z -> M (Val.DecodedValue * Z)) : Prop :=
  forall off s', 0 <= off <= zlen data -> good s' -> framed s1 s' ->
    wp (elem off) s'
      (fun '(v, o) s'' => good s'' /\ framed s1 s'' /\ off <= o <= zlen data /\
                          Val.value_height v <= hv) (err_post s1).

Lemma body_array min_elem kind limit elem hv :
  0 <= hv <= 1 + h -> elem_spec hv elem ->
  wp (decode_array is_be data min_elem kind limit elem) s1 body_post (err_post s1).
Proof.
  intros Hhv Helem. destruct h_bounds.
  eapply wp_conseq; [apply (wp_decode_array _ _ _ _ _ hv s1)| |auto]; auto with codec lia.
  intros [v c] s' (? & ? & ? & ?). apply body_done; auto; lia.
Qed.

Lemma body_structure_at off desc s' :
  0 <= off <= zlen data -> good s' -> framed s1 s' ->
  wp (decode_structure_with limits rec (drop (Z.to_nat off) data) desc) s'
    (fun '(v, c) s'' => good s'' /\ framed s1 s'' /\ 0 <= c <= zlen data - off /\
                        Val.value_height v <= 1 + h) (err_post s1).
Proof.
  intros Ho Hg' Hf'. destruct (Hf') as [Hfd ? ? ?]. cbn in Hfd.
  eapply wp_conseq;
    [apply (wp_decode_structure_with _ _ Hrec); auto with codec| |eauto using err_post_trans].
  intros [v c] s'' (? & ? & Hc & ?). rewrite zlen_drop in Hc by lia.
  split_and!; eauto using framed_trans; lia.
Qed.

Lemma body_rec_at off ft s' :
  0 <= off <= zlen data -> good s' -> framed s1 s' ->
  wp (rec (drop (Z.to_nat off) data) ft) s'
    (fun '(v, c) s'' => good s'' /\ framed s1 s'' /\ 0 <= c <= zlen data - off /\
                        Val.value_height v <= h) (err_post s1).
Proof. intros. now apply (wp_rec_at (depth s + 1)). Qed.

Lemma elem_scalar tc :
  elem_spec 1 (fun off =>
    bind (lift (slice_from data off)) (fun d =>
      bind (decode_scalar is_be d tc) (fun x => let '(v, c) := x in ret (v, off + c)))).
Proof.
  intros off s' Ho Hg' Hf'. do 3 wp_step.
  eapply wp_conseq; [apply (wp_decode_scalar _ _ s1 s' 1)| |auto]; auto; [lia|].
  intros [v c] s'' (-> & Hc & ?). wp_step. rewrite zlen_drop in Hc by lia. split_and!; auto; lia.
Qed.

Lemma elem_string :
  elem_spec 1 (fun off =>
    bind (lift (slice_from data off)) (fun d =>
      bind (decode_string is_be d) (fun x => let '(v, c) := x in ret (Val.String v, off + c)))).
Proof.
  intros off s' Ho Hg' Hf'. repeat wp_step. rewrite zlen_drop in * by lia.
  split_and!; auto; cbn; lia.
Qed.

Lemma elem_structure desc :
  elem_spec (1 + h) (fun offset =>
    if zlen data <=? offset then fail (Truncated (offset + 1) (zlen data)) else
    bind (lift (index data offset)) (fun null_indicator =>
      if null_indicator =? 0 then ret (Val.Structure [], offset + 1) else
      bind (lift (slice_from data (offset + 1))) (fun d =>
        bind (decode_structure_with limits rec d desc) (fun x =>
          let '(item, consumed) := x in ret (item, offset + 1 + consumed))))).
Proof.
  intros off s' Ho Hg' Hf'. destruct h_bounds.
  wp_step; [wp_step|]. do 2 wp_step. wp_step; [wp_step; cbn; split_and!; auto; lia|]. do 3 wp_step.
  eapply wp_conseq; [apply body_structure_at; auto; lia| |auto].
  intros [v c] s'' (? & ? & ? & ?). wp_step. split_and!; auto; lia.
Qed.

Lemma elem_union fs :
  elem_spec (1 + h) (fun offset =>
    bind (lift (slice_from data offset)) (fun d =>
      bind (decode_size is_be d) (fun x => let '(selector, consumed) := x in
        bind (select_member fs selector) (fun field =>
          bind (lift (slice_from data (offset + consumed))) (fun d =>
            bind (rec d (Ty.field_type field)) (fun x => let '(value, val_consumed) := x in
              ret (Val.Structure [(Ty.name field, value)], offset + consumed + val_consumed))))))).
Proof.
  intros off s' Ho Hg' Hf'. destruct h_bounds. do 4 wp_step.
  rewrite zlen_drop in * by lia. wp_step. apply wp_select_member; [|eauto with codec].
  intros f. do 3 wp_step. eapply wp_conseq; [apply body_rec_at; auto; lia| |auto].
  intros [v vc] s'' (? & ? & ? & ?). wp_step. cbn. split_and!; auto; lia.
Qed.

Lemma elem_variant :
  elem_spec h (fun offset =>
    bind (lift (slice_from data offset)) (fun d =>
      bind (rec d Ty.Variant) (fun x => let '(v, consumed) := x in ret (v, offset + consumed)))).
Proof.
  intros off s' Ho Hg' Hf'. do 3 wp_step. eapply wp_conseq; [apply body_rec_at; auto; lia| |auto].
  intros [v c] s'' (? & ? & ? & ?). wp_step. split_and!; auto; lia.
Qed.

Lemma body_string :
  wp (bind (decode_string is_be data) (fun x => let '(v, c) := x in ret (Val.String v, c))) s1
    body_post (err_post s1).
Proof. destruct h_bounds. repeat wp_step. apply body_done; auto with codec; cbn; lia. Qed.

Lemma body_union fs :
  wp (bind (decode_size is_be data) (fun x => let '(selector, consumed) := x in
        bind (select_member fs selector) (fun field =>
          bind (lift (slice_from data consumed)) (fun d =>
            bind (rec d (Ty.field_type field)) (fun x => let '(value, val_consumed) := x in
              ret (Val.Structure [(Ty.name field, value)], consumed + val_consumed)))))) s1
    body_post (err_post s1).
Proof.
  destruct h_bounds. do 3 wp_step. apply wp_select_member; [|eauto with codec]. intros f. do 3 wp_step.
  eapply wp_conseq; [apply body_rec_at; auto with codec lia| |auto].
  intros [v vc] s' (? & ? & ? & ?). wp_step. apply body_done; auto; cbn; lia.
Qed.

Lemma body_variant :
  wp (if zlen data =? 0 then fail (Truncated 1 0) else
      bind (lift (index data 0)) (fun b =>
        if b =? 0xFF then ret (Val.Null, 1) else
        bind (parse_type is_be limits data) (fun x => let '(vt, type_consumed) := x in
          bind (lift (slice_from data type_consumed)) (fun d =>
            bind (rec d vt) (fun x => let '(v, value_consumed) := x in
              ret (v, type_consumed + value_consumed)))))) s1
    body_post (err_post s1).
Proof.
  destruct h_bounds. pose proof (zlen_nonneg data). destruct (Hg) as [? ? ? ? ?].
  wp_step; [wp_step|]. do 2 wp_step.
  wp_step; [wp_step; apply body_done; auto with codec; cbn; lia|].
  wp_step. eapply wp_conseq; [apply (parse_type_spec (depth s + 1)); auto with codec lia| |auto].
  intros [vt tc] s2 (Hg2 & Hf2 & Htc & _). do 3 wp_step.
  eapply wp_conseq; [apply body_rec_at; auto with codec lia| |auto].
  intros [v c] s' (? & ? & ? & ?). wp_step. apply body_done; auto; lia.
Qed.

End ValueBody.

Lemma wp_decode_value_body rec data ft s :
  bytes_ok data -> good s -> decodes_at (depth s + 1) rec ->
  wp (decode_value_body is_be limits rec data ft) s
    (value_post (2 * (max_depth limits - depth s)) data s) (err_post s).
Proof.
  intros Hd Hg Hrec. apply wp_with_depth; [done|]. intros s1 Hg1 Hd1.
  destruct (h_bounds s Hg1) as [Hh HH]. pose proof (zlen_nonneg data).
  destruct ft as [tc|tc| | |desc|desc|fs|fs| | |bound];
    eauto using body_string, body_union, body_variant.
  - eapply wp_conseq; [apply (wp_decode_scalar _ _ s1 s1 1)| |auto]; auto with codec; [lia|].
    intros [v c] s' (-> & ? & ?). apply body_done; auto with codec. lia.
  - eapply body_array; eauto using elem_scalar; lia.
  - eapply body_array; eauto using elem_string; lia.
  - rewrite <- (drop_0 data) at 1. change 0%nat with (Z.to_nat 0).
    eapply wp_conseq; [apply (body_structure_at rec data s); auto with codec; lia| |auto].
    intros [v c] s' (? & ? & ? & ?). apply body_done; auto; lia.
  - eapply body_array; eauto using elem_structure; lia.
  - eapply body_array; eauto using elem_union; lia.
  - eapply body_array; eauto using elem_variant; lia.
Qed.

Lemma wp_decode_value_fuel fuel d :
  0 <= d -> max_depth limits - d < Z.of_nat fuel -> decodes_at d (decode_value_fuel is_be limits fuel).
Proof.
  revert d. induction fuel as [|fuel IH]; intros d Hd0 Hfuel data ft s Hd Hg Hdep.
  { destruct (Hg) as [? ? ? ? ?]. lia. }
  cbn [decode_value_fuel]. apply wp_scope; [done|]. intros s1 Hg1.
  eapply wp_conseq; [apply wp_decode_value_body; auto| |auto].
  - cbn. rewrite Hdep. apply IH; lia.
  - intros [v c] s' (Hg' & Hf & ? & ?). split; [done|].
    destruct (Hg') as [? ? ? ? ?], (Hf) as [? ? ? ?], (Hg) as [? ? ? ? ?]. cbn in *.
    split_and!; try split; cbn; auto; congruence || lia.
Qed.

Lemma decode_value_spec d : 0 <= d -> decodes_at d (decode_value is_be limits).
Proof. intros. apply wp_decode_value_fuel; [done|]. unfold depth_fuel. destruct Hlim. lia. Qed.

(** ** Delta values *)

(** What a walk over bits [bit .. bit + n) guarantees. *)
Definition walk_post (data : bytes) (s : PvdDecoder) (offset bit_end : Z) (r : walk)
    (s' : PvdDecoder) : Prop :=
  let '(ok, o, b, fs) := r in
  good s' /\ framed s s' /\ offset <= o <= zlen data /\ (ok = true -> b = bit_end).

(** Bits and counts of a list of fields, in the order they are numbered. *)
Definition counts_of (fs : list Ty.FieldDesc) : list Z := Ty.counts_spec (Ty.mkStruct None fs).

Lemma counts_of_cons f fs :
  counts_of (f :: fs) =
    match Ty.field_type f with
    | Ty.Structure n => Ty.count_structure_fields n :: Ty.counts_spec n
    | _ => [0]
    end ++ counts_of fs.
Proof. reflexivity. Qed.

Lemma counts_of_desc d : Ty.counts_spec d = counts_of (Ty.fields d).
Proof. now destruct d. Qed.

Lemma wp_counts_index pre x l (Q : Z -> PvdDecoder -> Prop) E s i :
  zlen pre = i -> Q x s -> wp (lift (index (pre ++ x :: l) i)) s Q E.
Proof.
  intros <- HQ. apply wp_index.
  - rewrite zlen_app, zlen_cons. pose proof (zlen_nonneg pre). pose proof (zlen_nonneg l). lia.
  - unfold zlen. now rewrite Nat2Z.id, app_nth2, Nat.sub_diag by lia.
Qed.

Definition walk_spec (data : bytes) (counts : list Z)
    (walk_fields : list Ty.FieldDesc -> Z -> Z -> M walk) (fs : list Ty.FieldDesc) : Prop :=
  forall pre post offset bit s,
    counts = pre ++ counts_of fs ++ post -> zlen pre = bit - 1 -> good s ->
    0 <= offset <= zlen data ->
    wp (walk_fields fs offset bit) s (walk_post data s offset (bit + zlen (counts_of fs)))
      (err_post s).

(** A decode that a lenient walk may stop at. *)
Lemma wp_lenient {A} (m : M (A * Z)) (k : A -> Z -> M walk) data offset bit bit_end fields s0 s h :
  good s -> framed s0 s -> 0 <= offset <= zlen data ->
  wp m s (fun '(a, c) s' => good s' /\ framed s s' /\ 0 <= c <= zlen data - offset /\ h a)
    (err_post s) ->
  (forall a c s', good s' -> framed s0 s' -> 0 <= c <= zlen data - offset ->
     wp (k a (offset + c)) s' (walk_post data s0 offset bit_end) (err_post s0)) ->
  wp (bind (try m) (fun r =>
        match r with
        | inl (a, c) => k a (offset + c)
        | inr e => if is_hostile e then fail e else ret (false, offset, bit, fields)
        end)) s (walk_post data s0 offset bit_end) (err_post s0).
Proof.
  intros Hg Hf Ho Hm Hk. do 2 wp_step. eapply wp_conseq; [exact Hm| |].
  - intros [a c] s' (? & ? & ? & _). apply Hk; eauto using framed_trans.
  - intros e s' He. cbn beta iota. destruct (is_hostile e) eqn:Eh; wp_step.
    + eauto using err_post_trans.
    + destruct He as [Hfr ? Hok]. specialize (Hok Eh). cbn.
      split_and!; eauto using framed_trans; lia.
Qed.

(** One field of the walk: [own] is the stretch of the counts its subtree
    takes, [rest] the loop over the fields after it. *)
Section BitsetLoop.
Context (data bitset : bytes) (counts : list Z) (s0 : PvdDecoder).
Hypothesis Hd : bytes_ok data.

Definition rest_spec (offset bit bit_end : Z)
    (rest : Z -> Z -> list (bytes * Val.DecodedValue) -> M walk) : Prop :=
  forall off acc s, offset <= off <= zlen data -> good s -> framed s0 s ->
    wp (rest off bit acc) s (walk_post data s0 offset bit_end) (err_post s0).

Lemma wp_leaf_field rest nm ft offset bit bit_end acc s :
  good s -> framed s0 s -> 0 <= offset <= zlen data ->
  rest_spec offset (bit + 1) bit_end rest ->
  wp (if PvdEncode.bit_set bitset bit then
        if zlen data <=? offset then ret (false, offset, bit + 1, acc) else
        bind (lift (slice_from data offset)) (fun d =>
        bind (try (decode_value is_be limits d ft)) (fun r =>
        match r with
        | inl (value, consumed) => rest (offset + consumed) (bit + 1) (acc ++ [(nm, value)])
        | inr e => if is_hostile e then fail e else ret (false, offset, bit + 1, acc)
        end))
      else rest offset (bit + 1) acc) s (walk_post data s0 offset bit_end) (err_post s0).
Proof.
  intros Hg Hf Ho Hrest. pose proof (good_depth s Hg).
  wp_step; [|apply Hrest; auto; lia].
  wp_step; [wp_step; split_and!; auto; try lia; discriminate|]. do 2 wp_step.
  apply (wp_lenient _ (fun v off => rest off (bit + 1) (acc ++ [(nm, v)])) _ _ _ _ _ _ _
           (fun _ => True)); auto.
  - eapply wp_conseq; [apply (decode_value_spec (depth s)); auto with codec; lia| |auto].
    intros [v c] s' (? & ? & Hc' & _). rewrite zlen_drop in Hc' by lia. split_and!; auto; lia.
  - intros v c s' ? ? ?. apply Hrest; auto; lia.
Qed.

Lemma wp_whole_structure rest nm n offset bit bit_end acc s :
  good s -> framed s0 s -> 0 <= offset <= zlen data ->
  rest_spec offset bit bit_end rest ->
  wp (if offset <? zlen data then
        bind (lift (slice_from data offset)) (fun d =>
        bind (try (decode_structure is_be limits d n)) (fun r =>
        match r with
        | inl (value, consumed) => rest (offset + consumed) bit (acc ++ [(nm, value)])
        | inr e => if is_hostile e then fail e else ret (false, offset, bit, acc)
        end))
      else rest offset bit acc) s (walk_post data s0 offset bit_end) (err_post s0).
Proof.
  intros Hg Hf Ho Hrest. pose proof (good_depth s Hg).
  wp_step; [do 2 wp_step|apply Hrest; auto; lia].
  apply (wp_lenient _ (fun v off => rest off bit (acc ++ [(nm, v)])) _ _ _ _ _ _ _
           (fun _ => True)); auto.
  - eapply wp_conseq; [apply (wp_decode_structure_with (depth s)); auto with codec;
      apply decode_value_spec; lia| |auto].
    intros [v c] s' (? & ? & Hc' & _). rewrite zlen_drop in Hc' by lia. split_and!; auto; lia.
  - intros v c s' ? ? ?. apply Hrest; auto; lia.
Qed.

Lemma wp_nested_walk nested rest add n pre post offset bit bit_end acc s :
  walk_spec data counts (fun _ => nested n) (Ty.fields n) ->
  counts = pre ++ Ty.counts_spec n ++ post -> zlen pre = bit - 1 ->
  good s -> framed s0 s -> 0 <= offset <= zlen data ->
  rest_spec offset (bit + Ty.count_structure_fields n) bit_end rest ->
  wp (bind (nested n offset bit) (fun x =>
        match x with (ok, o, b, fs) =>
          if negb ok then ret (false, o, b, acc) else rest o b (add fs acc) end)) s
    (walk_post data s0 offset bit_end) (err_post s0).
Proof.
  intros Hwalk Hc Hpre Hg Hf Ho Hrest. wp_step. eapply wp_conseq.
  - apply (Hwalk pre post); auto. now rewrite <- counts_of_desc.
  - intros [[[ok o] b] fs] s' (? & ? & ? & Hb). cbn beta iota.
    rewrite <- counts_of_desc, Ty.counts_spec_length in Hb.
    destruct ok; cbn [negb].
    + rewrite (Hb eq_refl). apply Hrest; eauto using framed_trans; lia.
    + wp_step. split_and!; eauto using framed_trans; lia || discriminate.
  - eauto using err_post_trans.
Qed.

(** The walk reads its entry of [counts] in range because the counts are laid
    out in the order the bits are numbered. *)
Lemma wp_bitset_loop nested_walk fs : forall pre post offset bit acc s,
  Forall (fun f => match Ty.field_type f with
    | Ty.Structure n => walk_spec data counts (fun _ => nested_walk n) (Ty.fields n)
    | _ => True end) fs ->
  counts = pre ++ counts_of fs ++ post -> zlen pre = bit - 1 -> good s -> framed s0 s ->
  0 <= offset <= zlen data ->
  wp (bitset_fields_loop is_be limits data bitset counts nested_walk fs offset bit acc) s
    (walk_post data s0 offset (bit + zlen (counts_of fs))) (err_post s0).
Proof.
  induction fs as [|f fs IH]; intros pre post offset bit acc s Hn Hc Hpre Hg Hf Ho.
  { cbn [bitset_fields_loop]. assert (zlen (counts_of []) = 0) as -> by reflexivity. wp_step.
    cbn. split_and!; auto; lia. }
  apply Forall_cons in Hn as [Hf0 Hn]. cbn [bitset_fields_loop].
  rewrite counts_of_cons in Hc |- *. rewrite <- app_assoc in Hc.
  assert (Hrest : forall own b, counts = pre ++ own ++ counts_of fs ++ post -> b = bit + zlen own ->
    rest_spec offset b (bit + zlen (own ++ counts_of fs))
      (bitset_fields_loop is_be limits data bitset counts nested_walk fs)).
  { intros own b Hown -> off acc' s' Hoff Hg' Hf'.
    eapply wp_conseq; [apply (IH (pre ++ own) post)| |auto]; auto.
    - now rewrite <- app_assoc.
    - rewrite zlen_app. lia.
    - lia.
    - intros [[[ok o] b] r] s'' (? & ? & ? & Hb). split_and!; auto; try lia.
      intros Hok. rewrite (Hb Hok), zlen_app. lia. }
  destruct (Ty.field_type f) as [| | | |n| | | | | |];
    try (apply (wp_leaf_field (bitset_fields_loop is_be limits data bitset counts nested_walk fs));
         [done|done|done|now apply (Hrest [0])]).
  cbn beta iota zeta. apply wp_bind. rewrite Hc at 1. apply wp_counts_index; [done|].
  specialize (Hrest _ (bit + 1 + Ty.count_structure_fields n) Hc
    ltac:(rewrite zlen_cons, Ty.counts_spec_length; lia)).
  wp_step; [now apply wp_whole_structure|].
  wp_step; [|apply Hrest; auto; lia].
  eapply (wp_nested_walk nested_walk _ (fun nested_fields acc => match nested_fields with
    | [] => acc | _ => acc ++ [(Ty.name f, Val.Structure nested_fields)] end) n
    (pre ++ [Ty.count_structure_fields n])); eauto.
  - rewrite <- app_assoc. exact Hc.
  - rewrite zlen_app, zlen_cons, zlen_nil. lia.
Qed.

End BitsetLoop.

Lemma wp_decode_with_bitset data bitset counts desc :
  bytes_ok data ->
  walk_spec data counts (fun _ => decode_with_bitset_recursive is_be limits data bitset counts desc)
    (Ty.fields desc).
Proof.
  intros Hd. induction desc as [desc IH] using Ty.StructureDesc_nested_ind.
  intros pre post offset bit s Hc Hpre Hg Ho.
  assert (decode_with_bitset_recursive is_be limits data bitset counts desc offset bit =
          bitset_fields_loop is_be limits data bitset counts
            (decode_with_bitset_recursive is_be limits data bitset counts)
            (Ty.fields desc) offset bit []) as -> by now destruct desc.
  eapply wp_bitset_loop; eauto with codec.
Qed.

(** The delta decoder below its budget scope: the whole-structure shortcut,
    which falls back on the walk unless its error is hostile. *)
Lemma wp_bitset_scope_body data desc bitset s :
  bytes_ok data -> good s ->
  wp (let walk :=
        bind (decode_with_bitset_recursive is_be limits data bitset (Ty.subtree_field_counts desc)
                desc 0 1) (fun x => let '(_, offset, _, fields) := x in
          ret (Val.Structure fields, offset)) in
      if negb (has_field_bits bitset) && PvdEncode.bit_set bitset 0 then
        bind (try (decode_structure is_be limits data desc)) (fun r =>
        match r with
        | inl res => ret res
        | inr e => if is_hostile e then fail e else walk
        end)
      else walk) s
    (fun '(v, c) s' => good s' /\ framed s s' /\ 0 <= c <= zlen data) (err_post s).
Proof.
  intros Hd Hg. pose proof (zlen_nonneg data). pose proof (good_depth s Hg). cbn zeta.
  assert (Hwalk : forall s', good s' -> framed s s' ->
    wp (bind (decode_with_bitset_recursive is_be limits data bitset (Ty.subtree_field_counts desc)
                desc 0 1) (fun x => let '(_, offset, _, fields) := x in
          ret (Val.Structure fields, offset))) s'
      (fun '(v, c) s' => good s' /\ framed s s' /\ 0 <= c <= zlen data) (err_post s)).
  { intros s' Hg' Hf'. wp_step. rewrite Ty.subtree_field_counts_spec.
    eapply wp_conseq; [apply (wp_decode_with_bitset _ _ _ _ Hd [] []); auto; [|lia]
                      | |eauto using err_post_trans].
    { now rewrite counts_of_desc, app_nil_l, app_nil_r. }
    intros [[[ok o] b] fs] s'' (? & ? & ? & _). wp_step. split_and!; eauto using framed_trans; lia. }
  wp_step; [|auto with codec]. do 2 wp_step.
  eapply wp_conseq; [apply (wp_decode_structure_with (depth s)); auto;
    apply decode_value_spec; lia| |].
  - intros [v c] s' (? & ? & ? & _). cbn beta iota. wp_step. auto.
  - intros e s' [? ? Hok]. cbn beta iota. destruct (is_hostile e) eqn:Eh.
    + wp_step. split; auto. congruence.
    + apply Hwalk; auto.
Qed.

(** ** The public entry points *)

(** Between public calls: no guard is held and the registry is sound. *)
Record idle (s : PvdDecoder) : Prop := {
  idle_registry : registry_ok (registry s);
  idle_depth : depth s = 0;
  idle_scope : budget_scope s = 0;
}.

(** A public call from an idle decoder: it returns, the decoder is idle again,
    and a value satisfies [Q]. *)
Definition safe_call {A} (m : M A) (s : PvdDecoder) (Q : A -> Prop) : Prop :=
  wp m s (fun a s' => idle s' /\ Q a) (fun _ s' => idle s').

Lemma node_ceiling_range n len :
  0 <= n < usize_max -> 0 <= len -> n <= node_ceiling n len < usize_max.
Proof.
  intros. unfold node_ceiling, saturating_add, saturating_mul, NODES_PER_BYTE, MAX_DECODE_NODES, usize_max in *.
  lia.
Qed.

Lemma idle_with_limits : idle (with_limits limits).
Proof. split; auto. intros ? ? ? ?. cbn. now rewrite lookup_empty. Qed.

(** The outermost scope resets the budget to the ceiling of its input. *)
Lemma safe_scope {A} len (m : M A) s (Q : A -> Prop) :
  idle s -> 0 <= len ->
  (forall s1, good s1 -> depth s1 = 0 -> nodes s1 = 0 ->
     node_limit s1 = node_ceiling (max_struct_fields limits) len ->
     wp m s1 (fun a s' => good s' /\ framed s1 s' /\ Q a) (err_post s1)) ->
  safe_call (node_budget_scope limits len m) s Q.
Proof.
  intros [Hr Hd Hs] Hlen Hm. destruct (node_ceiling_range _ len (lim_fields Hlim) Hlen).
  destruct Hlim as [? ?].
  unfold safe_call, wp, node_budget_scope. rewrite Hs. cbn [Z.eqb].
  match goal with |- context [m ?st] =>
    assert (good st) as Hg by (split; cbn; auto; lia); specialize (Hm st Hg Hd eq_refl eq_refl);
    set (s1 := st) in * end.
  unfold wp in Hm. destruct (m s1) as [[a|e| |] s']; try done.
  - destruct Hm as ([Hr' _ _ _ _] & [Hfd _ Hfs _] & HQ). cbn in Hfd, Hfs. split; [|done].
    split; cbn; auto; [congruence|]. now rewrite Hfs.
  - destruct Hm as [[Hfd _ Hfs _] Hr' _]. cbn in Hfd, Hfs.
    split; cbn; auto; [congruence|]. now rewrite Hfs.
Qed.

Lemma safe_introspection data s :
  bytes_ok data -> idle s ->
  safe_call (parse_introspection_with_len is_be limits data) s (fun '(desc, c) =>
    1 <= c <= zlen data /\
    Ty.type_height (Ty.Structure desc) <= max_depth limits /\
    Ty.type_nodes (Ty.Structure desc) <= node_ceiling (max_struct_fields limits) (zlen data)).
Proof.
  intros Hd Hi. destruct Hlim as [? Hmd]. pose proof (zlen_nonneg data).
  unfold parse_introspection_with_len, depth_fuel. cbn [parse_introspection_fuel].
  apply safe_scope; auto. intros s1 Hg1 Hd1 Hn1 Hl1.
  eapply wp_conseq; [apply wp_introspection_body; auto| |auto].
  - intros data' s' ? ? Hd'. apply wp_introspection; auto. lia.
  - intros [desc c] s' (Hg' & Hf & Hc & Hh & Hn). destruct (Hg'), (Hf).
    rewrite <- Hl1. rewrite Hd1 in Hh. split_and!; auto; lia.
Qed.

Lemma safe_value data ft s :
  bytes_ok data -> idle s ->
  safe_call (decode_value is_be limits data ft) s (fun '(v, c) =>
    0 <= c <= zlen data /\ Val.value_height v <= 2 * max_depth limits).
Proof.
  intros Hd Hi. destruct Hlim as [? Hmd]. pose proof (zlen_nonneg data).
  unfold decode_value, depth_fuel. cbn [decode_value_fuel].
  apply safe_scope; auto. intros s1 Hg1 Hd1 _ _.
  eapply wp_conseq; [apply wp_decode_value_body; auto| |auto].
  - apply wp_decode_value_fuel; lia.
  - intros [v c] s' (? & ? & ? & ?). split_and!; auto; lia.
Qed.

Lemma safe_structure data desc s :
  bytes_ok data -> idle s ->
  safe_call (decode_structure is_be limits data desc) s (fun '(v, c) =>
    0 <= c <= zlen data /\ Val.value_height v <= 1 + 2 * max_depth limits).
Proof.
  intros Hd Hi. pose proof (zlen_nonneg data). apply safe_scope; auto. intros s1 Hg1 Hd1 _ _.
  wp_step. destruct (Hg1) as [? ? ? ? ?].
  eapply wp_conseq; [apply (wp_decode_fields _ _ (decode_value_spec (depth s1) ltac:(lia)) _ _ _ _
    (2 * (max_depth limits - depth s1)) s1)| |auto]; auto with codec; try lia; [cbn; lia|].
  intros [fs o] s' (? & ? & ? & Hh). wp_step. unfold entries_height in Hh. rewrite Hd1 in Hh.
  split_and!; auto; cbn; lia.
Qed.

(** The delta entry point reads its bitset before it opens the scope. *)
Lemma safe_bitset_body data desc bitset s :
  bytes_ok data -> idle s ->
  safe_call (decode_structure_with_bitset_body is_be limits data desc bitset) s
    (fun '(v, c) => 0 <= c <= zlen data).
Proof.
  intros Hd Hi. pose proof (zlen_nonneg data). apply safe_scope; auto. intros s1 Hg1 Hd1 _ _.
  eapply wp_conseq; [apply wp_bitset_scope_body; auto| |auto].
  intros [v c] s' (? & ? & ?). auto.
Qed.

Lemma safe_structure_with_bitset data desc s :
  bytes_ok data -> idle s ->
  safe_call (decode_structure_with_bitset is_be limits data desc) s
    (fun '(v, c) => 0 <= c <= zlen data).
Proof.
  intros Hd Hi. unfold safe_call, decode_structure_with_bitset. pose proof (zlen_nonneg data).
  wp_step; [wp_step|]. wp_step.
  apply wp_decode_size; auto. intros n c Hn Hc. cbn beta iota.
  wp_step; [wp_step; split; auto; lia|]. wp_step.
  rewrite slice_ok by lia. apply wp_lift_ok. do 3 wp_step.
  eapply wp_conseq; [apply safe_bitset_body; auto with codec| |auto].
  intros [v k] s' [? Hk]. wp_step. rewrite zlen_drop in Hk by lia. split; auto. lia.
Qed.

End Safety.

(** ** Claims *)

Lemma default_limits_ok : limits_ok default_limits.
Proof. split; cbn; unfold usize_max; lia. Qed.

(** A public call on a decoder. *)
Inductive call :=
| CallIntrospection (data : bytes)
| CallValue (data : bytes) (ft : Ty.FieldType)
| CallStructure (data : bytes) (desc : Ty.StructureDesc)
| CallDelta (data : bytes) (desc : Ty.StructureDesc).

Definition call_data (c : call) : bytes :=
  match c with
  | CallIntrospection d | CallValue d _ | CallStructure d _ | CallDelta d _ => d
  end.

(** Its effect: the state it leaves and the number of bytes it consumed, or
    [None] for an error; a panic or missing fuel is visible. *)
Definition perform (is_be : bool) (limits : DecodeLimits) (c : call) (s : PvdDecoder)
  : DecodeResult Z * PvdDecoder :=
  match c with
  | CallIntrospection d => bind (parse_introspection_with_len is_be limits d) (fun r => ret r.2) s
  | CallValue d ft => bind (decode_value is_be limits d ft) (fun r => ret r.2) s
  | CallStructure d desc => bind (decode_structure is_be limits d desc) (fun r => ret r.2) s
  | CallDelta d desc => bind (decode_structure_with_bitset is_be limits d desc) (fun r => ret r.2) s
  end.

(** The states a decoder can be in after some calls have returned. *)
Inductive reachable (is_be : bool) (limits : DecodeLimits) : PvdDecoder -> Prop :=
| reach_new : reachable is_be limits (with_limits limits)
| reach_call c r s s' :
    reachable is_be limits s -> bytes_ok (call_data c) ->
    perform is_be limits c s = (r, s') -> reachable is_be limits s'.

Lemma perform_safe is_be limits c s :
  limits_ok limits -> bytes_ok (call_data c) -> idle limits s ->
  wp (perform is_be limits c) s (fun n s' => idle limits s' /\ 0 <= n <= zlen (call_data c))
    (fun _ s' => idle limits s').
Proof.
  intros Hl Hd Hi. destruct c; cbn [call_data] in *; apply wp_bind;
    (eapply wp_conseq;
     [first [now apply safe_introspection | now apply safe_value | now apply safe_structure
            | now apply safe_structure_with_bitset] | |auto]);
    intros [x n] s' [? H']; apply wp_ret; cbn; split; auto; intuition lia.
Qed.

Lemma reachable_idle is_be limits s :
  limits_ok limits -> reachable is_be limits s -> idle limits s.
Proof.
  intros Hl. induction 1 as [|c r s s' _ IH Hd E]; [apply idle_with_limits|].
  pose proof (perform_safe is_be limits c s Hl Hd IH) as H. unfold wp in H. rewrite E in H.
  destruct r; intuition.
Qed.

(** C1: whatever sequence of introspection, value, structure and delta calls a
    decoder has served, on whatever bytes, the next call on any bytes neither
    panics nor recurses without bound; it returns an error or a number of
    consumed bytes inside its input, and leaves the decoder with no depth guard
    and no budget scope held and with a sound type registry. *)
Theorem decoder_session_safe is_be limits s c :
  limits_ok limits -> reachable is_be limits s -> bytes_ok (call_data c) ->
  match perform is_be limits c s with
  | (Ok n, s') => idle limits s' /\ 0 <= n <= zlen (call_data c)
  | (Err _, s') => idle limits s'
  | (Panic, _) | (OutOfFuel, _) => False
  end.
Proof.
  intros Hl Hr Hd. pose proof (perform_safe is_be limits c s Hl Hd (reachable_idle _ _ _ Hl Hr)) as H.
  unfold wp in H. now destruct (perform is_be limits c s) as [[] ?].
Qed.

(** A variant whose type is a back-reference to a key nobody registered. *)
Lemma decoder_session_safe_witness :
  exists s' e, perform false default_limits (CallValue [0xFE; 1; 0] Ty.Variant)
    (with_limits default_limits) = (Err e, s') /\ idle default_limits s'.
Proof.
  pose proof (decoder_session_safe false default_limits (with_limits default_limits)
    (CallValue [0xFE; 1; 0] Ty.Variant) default_limits_ok (reach_new _ _)
    ltac:(repeat constructor; unfold byte_ok; lia)) as H.
  destruct (perform _ _ _ _) as [[n|e| |] s'] eqn:E; [|eauto|done|done].
  vm_compute in E. discriminate.
Defined.

(** An introspection that is accepted is bounded: the type tree with every
    back-reference expanded is no taller than [max_depth] and has no more nodes
    than the ceiling for the input length, and the count of consumed bytes is
    inside the input; the decoder is idle again. *)
Theorem introspection_bounded is_be limits data s desc c s' :
  limits_ok limits -> bytes_ok data -> idle limits s ->
  parse_introspection_with_len is_be limits data s = (Ok (desc, c), s') ->
  1 <= c <= zlen data /\
  Ty.type_height (Ty.Structure desc) <= max_depth limits /\
  Ty.type_nodes (Ty.Structure desc) <= node_ceiling (max_struct_fields limits) (zlen data) /\
  idle limits s'.
Proof.
  intros Hl Hd Hi E. pose proof (safe_introspection is_be limits Hl data s Hd Hi) as H.
  unfold safe_call, wp in H. rewrite E in H. intuition.
Qed.

(** A structure [{ int a; variant b }] in little-endian introspection. *)
Definition sample_introspection : bytes := [0x80; 0; 2; 1; 97; 0x22; 1; 98; 0x82].

Lemma introspection_bounded_witness :
  exists desc s', parse_introspection_with_len false default_limits sample_introspection
      (with_limits default_limits) = (Ok (desc, 9), s') /\
    Ty.type_nodes (Ty.Structure desc) <= node_ceiling 65536 9.
Proof.
  destruct (parse_introspection_with_len false default_limits sample_introspection
    (with_limits default_limits)) as [[[desc c]|e| |] s'] eqn:E; try (vm_compute in E; discriminate).
  assert (c = 9) as -> by (vm_compute in E; congruence).
  exists desc, s'. split; [done|].
  refine (proj1 (proj2 (proj2 (introspection_bounded false default_limits sample_introspection
    (with_limits default_limits) desc 9 s' default_limits_ok _ (idle_with_limits _) E)))).
  repeat constructor; unfold byte_ok; lia.
Defined.

(** A decoded value nests at most two levels per permitted level of
    recursion, so a hostile message cannot make the value tree (and what
    recurses over it) deeper than [2 * max_depth]. *)
Theorem decoded_value_height is_be limits data ft s v c s' :
  limits_ok limits -> bytes_ok data -> idle limits s ->
  decode_value is_be limits data ft s = (Ok (v, c), s') ->
  Val.value_height v <= 2 * max_depth limits.
Proof.
  intros Hl Hd Hi E. pose proof (safe_value is_be limits Hl data ft s Hd Hi) as H.
  unfold safe_call, wp in H. rewrite E in H. intuition.
Qed.

(** An array of one variant holding a byte. *)
Lemma decoded_value_height_witness :
  exists v s', decode_value false default_limits [1; 0x20; 7] Ty.VariantArray
      (with_limits default_limits) = (Ok (v, 3), s') /\ Val.value_height v <= 64.
Proof.
  destruct (decode_value false default_limits [1; 0x20; 7] Ty.VariantArray
    (with_limits default_limits)) as [[[v c]|e| |] s'] eqn:E; try (vm_compute in E; discriminate).
  assert (c = 3) as -> by (vm_compute in E; congruence).
  exists v, s'. split; [done|].
  refine (decoded_value_height false default_limits _ _ _ v 3 s' default_limits_ok _
    (idle_with_limits _) E).
  repeat constructor; unfold byte_ok; lia.
Defined.

End PvdSafety.
