(* ===== verification/PvdRoundtrip.v ===== *)
(** * Round trips of the pvData codec

    What [spvd_encode.rs] writes, [spvd_decode.rs] reads back: type
    descriptors, and the values whose encoding carries no selector, null
    indicator or type tag of its own. *)

From stdpp Require Import gmap.
From S2P Require Import Prelude Utf8 Wire PvdTypes PvdEncode PvdDecode PvdSafety.

Local Open Scope Z_scope.

Module PvdRoundtrip.
Import Wire PvdDecode PvdEncode.

(** ** Successful runs *)

Definition runs {A} (m : M A) (s : PvdDecoder) (a : A) (s' : PvdDecoder) : Prop :=
  m s = (Ok a, s').

Lemma runs_ret {A} (a : A) s : runs (ret a) s a s.
Proof. done. Qed.

Lemma runs_bind {A B} (m : M A) (k : A -> M B) s a s1 b s2 :
  runs m s a s1 -> runs (k a) s1 b s2 -> runs (bind m k) s b s2.
Proof. unfold runs, bind. now intros ->. Qed.

Lemma runs_try {A} (m : M A) s a s' : runs m s a s' -> runs (try m) s (inl a) s'.
Proof. unfold runs, try. now intros ->. Qed.

Lemma runs_lift {A} (r : DecodeResult A) a s : r = Ok a -> runs (lift r) s a s.
Proof. now intros ->. Qed.

(** The state after [n] more nodes were charged. *)
Definition charged (n : Z) (s : PvdDecoder) : PvdDecoder := set_nodes (nodes s + n) s.

Lemma charged_charged a b s : charged a (charged b s) = charged (b + a) s.
Proof. unfold charged, set_nodes. cbn. f_equal. lia. Qed.

Lemma charged_0 s : charged 0 s = s.
Proof. destruct s. unfold charged, set_nodes. cbn. f_equal. lia. Qed.

Section Rules.
Context (limits : DecodeLimits) {A : Type}.

Lemma runs_with_depth (m : M A) s a n :
  0 <= depth s -> depth s + 1 <= max_depth limits ->
  runs m (set_depth (depth s + 1) s) a (charged n (set_depth (depth s + 1) s)) ->
  runs (with_depth limits m) s a (charged n s).
Proof.
  unfold runs, with_depth. intros Hd Hm Hr.
  destruct (depth s + 1 >? max_depth limits) eqn:E; bool_to_prop; [lia|].
  rewrite Hr. unfold charged, set_depth, set_nodes, saturating_sub. cbn.
  now replace (Z.max (depth s + 1 - 1) 0) with (depth s) by lia.
Qed.

Lemma runs_scope len (m : M A) s a n :
  1 <= budget_scope s ->
  runs m (set_scope (budget_scope s + 1) s) a (charged n (set_scope (budget_scope s + 1) s)) ->
  runs (node_budget_scope limits len m) s a (charged n s).
Proof.
  unfold runs, node_budget_scope. intros Hs Hr.
  destruct (budget_scope s =? 0) eqn:E; bool_to_prop; [lia|].
  rewrite Hr. unfold charged, set_scope, set_nodes, saturating_sub. cbn.
  now replace (Z.max (budget_scope s + 1 - 1) 0) with (budget_scope s) by lia.
Qed.

Lemma runs_charge n s :
  0 <= nodes s -> 0 <= n -> nodes s + n <= node_limit s < usize_max ->
  runs (charge_nodes n) s tt (charged n s).
Proof.
  intros ? ? ?. unfold runs, charge_nodes, charged, saturating_add.
  rewrite Z.min_l by lia. cbn. destruct (_ >? _) eqn:E; bool_to_prop; [lia|done].
Qed.

End Rules.

(** ** Type descriptors *)

Section Descriptors.
Context (is_be : bool) (limits : DecodeLimits).

(** A string the length prefix can carry and the strict decoder accepts. *)
Definition name_ok (n : bytes) : bool := Utf8.from_utf8 n && (zlen n <=? u32_max).

Definition fields_ok (type_ok : Ty.FieldType -> bool) (fs : list Ty.FieldDesc) : bool :=
  (zlen fs <=? max_struct_fields limits) && (zlen fs <=? u32_max)
  && forallb (fun f => name_ok (Ty.name f) && type_ok (Ty.field_type f)) fs.

Definition id_ok (i : option bytes) : bool :=
  match i with Some [] => false | Some n => name_ok n | None => true end.

(** Descriptors the encoder writes without loss: scalar codes with a size (the
    string, null and variant codes have their own field types), [u32] bounds,
    names and field counts in range, a present structure id non-empty. *)
Fixpoint type_ok (ft : Ty.FieldType) : bool :=
  match ft with
  | Ty.Scalar tc | Ty.ScalarArray tc => bool_decide (TypeCode.size tc <> None)
  | Ty.BoundedString b => (0 <=? b) && (b <=? u32_max)
  | Ty.Structure d | Ty.StructureArray d =>
    match d with Ty.mkStruct i fs => id_ok i && fields_ok type_ok fs end
  | Ty.Union fs | Ty.UnionArray fs => fields_ok type_ok fs
  | Ty.String | Ty.StringArray | Ty.Variant | Ty.VariantArray => true
  end.

(** Room in a decoder state for a tree of height [h] and [n] nodes. *)
Record room (h n : Z) (s : PvdDecoder) : Prop := {
  room_depth : 0 <= depth s /\ depth s + h <= max_depth limits;
  room_nodes : 0 <= nodes s /\ nodes s + n <= node_limit s;
  room_limit : node_limit s < usize_max;
  room_scope : 1 <= budget_scope s;
}.

Definition parses (parse : bytes -> M (Ty.FieldType * Z)) (ft : Ty.FieldType) (s : PvdDecoder) : Prop :=
  forall rest, runs (parse (encode_type_desc ft is_be ++ rest)) s
    (ft, zlen (encode_type_desc ft is_be)) (charged (Ty.type_nodes ft) s).

Lemma encode_type_desc_pos ft : 1 <= zlen (encode_type_desc ft is_be).
Proof.
  destruct ft; cbn [encode_type_desc]; rewrite zlen_cons;
    match goal with |- context [1 + zlen ?l] => pose proof (zlen_nonneg l) end; lia.
Qed.

Lemma runs_decode_string v rest s :
  name_ok v = true ->
  runs (decode_string is_be (encode_string v is_be ++ rest)) s (v, zlen (encode_string v is_be)) s.
Proof.
  intros H. unfold name_ok in H. bool_to_prop. apply runs_lift. now apply decode_encode_string.
Qed.

Lemma runs_decode_size n rest s :
  0 <= n <= u32_max ->
  runs (decode_size is_be (encode_size n is_be ++ rest)) s (n, zlen (encode_size n is_be)) s.
Proof. intros. apply runs_lift. now apply decode_encode_size. Qed.

Lemma runs_slice_from {A} (pre rest : list A) n s :
  n = zlen pre -> runs (lift (slice_from (pre ++ rest) n)) s rest s.
Proof.
  intros ->. apply runs_lift. pose proof (zlen_nonneg pre). pose proof (zlen_nonneg rest).
  rewrite slice_from_ok by (rewrite zlen_app; lia). now rewrite drop_app_zlen.
Qed.

Lemma runs_field_desc parse f rest s :
  1 <= budget_scope s -> name_ok (Ty.name f) = true ->
  parses parse (Ty.field_type f) (set_scope (budget_scope s + 1) s) ->
  runs (parse_field_desc is_be limits parse (encode_field_desc encode_type_desc f is_be ++ rest)) s
    (f, zlen (encode_field_desc encode_type_desc f is_be))
    (charged (Ty.type_nodes (Ty.field_type f)) s).
Proof.
  intros Hs Hn Hp. unfold parse_field_desc, encode_field_desc. rewrite <- !app_assoc.
  pose proof (encode_string_pos (Ty.name f) is_be). pose proof (encode_type_desc_pos (Ty.field_type f)).
  pose proof (zlen_nonneg rest).
  apply runs_scope; [done|]. rewrite !zlen_app.
  destruct (_ =? 0) eqn:E; bool_to_prop; [lia|]. clear E.
  eapply runs_bind; [now apply runs_decode_string|]. cbn beta iota zeta.
  destruct (_ <=? _) eqn:E; bool_to_prop; [lia|]. clear E.
  eapply runs_bind; [now apply runs_slice_from|]. cbn beta iota.
  eapply runs_bind; [apply Hp|]. cbn beta iota. now destruct f.
Qed.

Lemma room_field h n s fs f fs' :
  room h n s -> h = Ty.fields_height (fs ++ f :: fs') -> n = Ty.fields_nodes (fs ++ f :: fs') ->
  room (Ty.type_height (Ty.field_type f)) (Ty.type_nodes (Ty.field_type f))
    (set_scope (budget_scope s + 1) (charged (Ty.fields_nodes fs) s)).
Proof.
  intros [? ? ? ?] -> ->. unfold Ty.fields_height, Ty.fields_nodes in *.
  rewrite ?map_app, ?Ty.list_max_app, ?Ty.list_sum_app in *. cbn in *.
  pose proof (Ty.list_max_nonneg (map (fun f => Ty.type_height (Ty.field_type f)) fs')).
  pose proof (Ty.fields_nodes_nonneg fs). pose proof (Ty.fields_nodes_nonneg fs').
  pose proof (Ty.list_max_nonneg (map (fun f => Ty.type_height (Ty.field_type f)) fs)).
  unfold Ty.fields_nodes in *. split; cbn; lia.
Qed.

(** The field loop reads the remaining fields [todo] after [done]. *)
Lemma runs_fields_loop parse todo : forall done pre rest s,
  room (Ty.fields_height (done ++ todo)) (Ty.fields_nodes (done ++ todo)) s ->
  forallb (fun f => name_ok (Ty.name f) && type_ok (Ty.field_type f)) todo = true ->
  Forall (fun f => type_ok (Ty.field_type f) = true ->
    forall s', depth s' = depth s ->
      room (Ty.type_height (Ty.field_type f)) (Ty.type_nodes (Ty.field_type f)) s' ->
      parses parse (Ty.field_type f) s') todo ->
  runs (parse_fields_loop is_be limits parse (length todo)
          (pre ++ concat (map (fun f => encode_field_desc encode_type_desc f is_be) todo) ++ rest)
          (zlen pre) done) (charged (Ty.fields_nodes done) s)
    (done ++ todo,
     zlen pre + zlen (concat (map (fun f => encode_field_desc encode_type_desc f is_be) todo)))
    (charged (Ty.fields_nodes (done ++ todo)) s).
Proof.
  induction todo as [|f todo IH]; intros done_ pre rest s Hroom Hok Hp.
  { cbn [length parse_fields_loop map concat]. rewrite zlen_nil, !app_nil_r, Z.add_0_r.
    apply runs_ret. }
  cbn [forallb] in Hok. bool_to_prop. apply Forall_cons in Hp as [Hf Hp].
  cbn [length parse_fields_loop map concat]. pose proof (zlen_nonneg rest).
  set (enc := encode_field_desc encode_type_desc f is_be) in *.
  set (more := concat _) in *.
  assert (1 <= zlen enc).
  { unfold enc, encode_field_desc. rewrite zlen_app.
    pose proof (encode_string_pos (Ty.name f) is_be).
    pose proof (encode_type_desc_pos (Ty.field_type f)). lia. }
  rewrite !zlen_app. pose proof (zlen_nonneg more). pose proof (zlen_nonneg pre).
  destruct (_ <=? _) eqn:E; bool_to_prop; [lia|]. clear E.
  eapply runs_bind; [now apply runs_slice_from|]. cbn beta iota. rewrite <- app_assoc.
  eapply runs_bind.
  { apply runs_try, runs_field_desc; [exact (room_scope _ _ _ Hroom)|done|].
    apply Hf; [done|done|]. exact (room_field _ _ s _ f todo Hroom eq_refl eq_refl). }
  cbn beta iota. rewrite charged_charged, <- Ty.fields_nodes_snoc.
  replace (zlen pre + (zlen enc + zlen more)) with (zlen (pre ++ enc) + zlen more)
    by (rewrite zlen_app; lia).
  fold enc. rewrite <- (zlen_app pre enc). specialize (IH (done_ ++ [f]) (pre ++ enc) rest s).
  rewrite <- !app_assoc in IH. cbn [app] in IH. now apply IH.
Qed.

(** What the callers of a type parser need of it for a list of fields. *)
Definition parses_fields (parse : bytes -> M (Ty.FieldType * Z)) (fs : list Ty.FieldDesc) (d : Z) : Prop :=
  Forall (fun f => type_ok (Ty.field_type f) = true ->
    forall s', depth s' = d ->
      room (Ty.type_height (Ty.field_type f)) (Ty.type_nodes (Ty.field_type f)) s' ->
      parses parse (Ty.field_type f) s') fs.

Lemma runs_structure_desc parse d rest s :
  id_ok (Ty.struct_id d) = true -> fields_ok type_ok (Ty.fields d) = true ->
  room (Ty.fields_height (Ty.fields d)) (Ty.fields_nodes (Ty.fields d)) s ->
  parses_fields parse (Ty.fields d) (depth s) ->
  runs (parse_structure_desc is_be limits parse (encode_structure_with encode_type_desc d is_be ++ rest))
    s (d, zlen (encode_structure_with encode_type_desc d is_be))
    (charged (Ty.fields_nodes (Ty.fields d)) s).
Proof.
  intros Hid Hok Hroom Hp. unfold fields_ok in Hok. bool_to_prop.
  destruct d as [i fs]. cbn [Ty.struct_id Ty.fields] in *.
  unfold parse_structure_desc, encode_structure_with. cbn [Ty.struct_id Ty.fields].
  pose proof (zlen_nonneg fs). rewrite <- !app_assoc.
  assert (name_ok (default [] i) = true) by (destruct i as [[]|]; done).
  assert (match default [] i with [] => None | _ => Some (default [] i) end = i) as Hi
    by (destruct i as [[]|]; done).
  eapply runs_bind; [now apply runs_decode_string|]. cbn beta iota zeta. rewrite Hi.
  eapply runs_bind; [now apply runs_slice_from|]. cbn beta iota.
  eapply runs_bind; [apply runs_decode_size; lia|]. cbn beta iota.
  destruct (_ >? _) eqn:E; bool_to_prop; [lia|]. clear E.
  rewrite app_assoc, <- (zlen_app (encode_string _ _)).
  replace (Z.to_nat (zlen fs)) with (length fs) by (unfold zlen; lia).
  pose proof (runs_fields_loop parse fs [] (encode_string (default [] i) is_be ++
    encode_size (zlen fs) is_be) rest s Hroom ltac:(done) Hp) as Hloop.
  change (Ty.fields_nodes []) with 0 in Hloop. rewrite charged_0 in Hloop.
  eapply runs_bind; [exact Hloop|].
  cbn beta iota. rewrite app_nil_l, app_assoc, (zlen_app (encode_string _ _ ++ _)). apply runs_ret.
Qed.

Lemma runs_composite parse (tag : Z) (is_array : bool) d rest s :
  id_ok (Ty.struct_id d) = true -> fields_ok type_ok (Ty.fields d) = true ->
  room (Ty.fields_height (Ty.fields d)) (Ty.fields_nodes (Ty.fields d)) s ->
  parses_fields parse (Ty.fields d) (depth s) ->
  let head := if is_array then [tag + 8; tag] else [tag] in
  let enc := encode_structure_with encode_type_desc d is_be in
  runs (parse_composite is_be limits parse tag is_array (head ++ enc ++ rest)) s
    (d, zlen (head ++ enc)) (charged (Ty.fields_nodes (Ty.fields d)) s).
Proof.
  intros Hid Hok Hroom Hp head enc. unfold parse_composite.
  pose proof (zlen_nonneg rest). pose proof (zlen_nonneg enc).
  eapply (runs_bind _ _ _ (zlen head)).
  - destruct is_array; [|done]. subst head. cbn [app].
    assert (1 < zlen (tag + 8 :: tag :: enc ++ rest)) by (rewrite !zlen_cons, zlen_app; lia).
    destruct (_ <=? _) eqn:E; bool_to_prop; [lia|]. clear E.
    eapply runs_bind; [apply runs_lift, index_ok; lia|]. cbn. now rewrite Z.eqb_refl.
  - cbn beta. eapply runs_bind; [now apply runs_slice_from|]. cbn beta iota.
    eapply runs_bind; [now apply runs_structure_desc|]. cbn beta iota. rewrite zlen_app. apply runs_ret.
Qed.

(** The head of [parse_type_desc] on a byte that is not a registry tag. *)
Lemma runs_head {A} (k : Z -> M A) b tl s a n :
  b <> 0xFD -> b <> 0xFE -> room 0 1 s ->
  runs (k b) (charged 1 s) a (charged n s) ->
  runs (if zlen (b :: tl) =? 0 then fail (Truncated 1 0) else
        bind (lift (index (b :: tl) 0)) (fun type_byte =>
        bind (if negb (type_byte =? 0xFD) && negb (type_byte =? 0xFE)
              then charge_nodes 1 else ret tt) (fun _ => k type_byte))) s a (charged n s).
Proof.
  intros Hb1 Hb2 [? ? ? ?] Hk. rewrite zlen_cons. pose proof (zlen_nonneg tl).
  destruct (_ =? 0) eqn:E; bool_to_prop; [lia|]. clear E.
  eapply runs_bind; [apply runs_lift, index_head|]. cbn beta.
  destruct (Z.eqb_spec b 0xFD), (Z.eqb_spec b 0xFE); try done. cbn [negb andb].
  eapply runs_bind; [apply runs_charge; lia|done].
Qed.

Lemma room_below h n s : room h n s -> 1 <= h -> 1 <= n ->
  room 0 1 (set_depth (depth s + 1) s).
Proof. intros [? ? ? ?] ? ?. split; cbn; lia. Qed.

Lemma runs_leaf_type ft fuel s :
  Ty.fields_of ft = None -> type_ok ft = true -> room 1 1 s ->
  parses (parse_type_desc is_be limits (S fuel)) ft s.
Proof.
  intros Hft Hok Hroom rest. destruct (Hroom) as [? ? ? ?]. destruct (Ty.type_leaf _ Hft) as [_ ->].
  pose proof (room_below 1 1 s Hroom ltac:(lia) ltac:(lia)) as Hr1.
  cbn [parse_type_desc]. apply runs_with_depth; [lia|lia|].
  destruct ft as [tc|tc| | | | | | | | |b]; try discriminate Hft; cbn [type_ok] in Hok; bool_to_prop;
    try (destruct tc; try discriminate Hok);
    try (cbn [encode_type_desc TypeCode.to_byte app]; apply runs_head; [done|done|done|reflexivity]).
  cbn [encode_type_desc app]. apply runs_head; [done|done|done|]. cbn -[zlen slice_from].
  eapply runs_bind; [now apply (runs_slice_from [131])|]. cbn beta iota.
  eapply runs_bind; [apply runs_decode_size; lia|]. cbn beta iota.
  rewrite zlen_cons. unfold as_u32. rewrite Z.mod_small by (unfold u32_max in *; lia). apply runs_ret.
Qed.

Lemma room_composite ft fs s :
  Ty.fields_of ft = Some fs -> room (Ty.type_height ft) (Ty.type_nodes ft) s ->
  room (Ty.fields_height fs) (Ty.fields_nodes fs) (charged 1 (set_depth (depth s + 1) s)).
Proof.
  intros Hft [? ? ? ?]. rewrite (Ty.type_height_fields _ _ Hft), (Ty.type_nodes_fields _ _ Hft) in *.
  split; cbn; lia.
Qed.

Lemma runs_composite_type ft fs fuel s :
  Ty.fields_of ft = Some fs -> type_ok ft = true ->
  room (Ty.type_height ft) (Ty.type_nodes ft) s ->
  parses_fields (parse_type_desc is_be limits fuel) fs (depth s + 1) ->
  parses (parse_type_desc is_be limits (S fuel)) ft s.
Proof.
  intros Hft Hok Hroom Hp rest. pose proof (room_composite ft fs s Hft Hroom) as Hr2.
  pose proof (room_below _ _ s Hroom (Ty.type_height_pos _) (Ty.type_nodes_pos _)) as Hr1.
  pose proof (Ty.type_height_pos ft). destruct (Hroom) as [? ? ? ?].
  rewrite (Ty.type_nodes_fields _ _ Hft). cbn [parse_type_desc]. apply runs_with_depth; [lia|lia|].
  assert (Hc : forall (tag : Z) (is_array : bool) i (mk : Ty.StructureDesc -> Ty.FieldType),
    id_ok i = true -> fields_ok type_ok fs = true ->
    let d := Ty.mkStruct i fs in
    let head := if is_array then [tag + 8; tag] else [tag] in
    let enc := encode_structure_with encode_type_desc d is_be in
    runs (bind (parse_composite is_be limits (parse_type_desc is_be limits fuel) tag is_array
                  (head ++ enc ++ rest)) (fun x => let '(desc, offset) := x in ret (mk desc, offset)))
      (charged 1 (set_depth (depth s + 1) s)) (mk d, zlen (head ++ enc))
      (charged (1 + Ty.fields_nodes fs) (set_depth (depth s + 1) s))).
  { intros tag is_array i mk Hi Hf d head enc. rewrite <- charged_charged.
    eapply runs_bind; [now apply (runs_composite _ tag is_array d)|apply runs_ret]. }
  destruct ft as [| | | |[i fs']|[i fs']|fs'|fs'| | |]; try discriminate Hft;
    injection Hft as ->; cbn [type_ok] in Hok; bool_to_prop; cbn [encode_type_desc app];
    apply runs_head; try done.
  - now apply (Hc 0x80 false i Ty.Structure).
  - now apply (Hc 0x80 true i Ty.StructureArray).
  - now apply (Hc 0x81 false None (fun d => Ty.Union (Ty.fields d))).
  - now apply (Hc 0x81 true None (fun d => Ty.UnionArray (Ty.fields d))).
Qed.

Lemma parse_type_desc_encode ft : forall fuel s,
  type_ok ft = true -> room (Ty.type_height ft) (Ty.type_nodes ft) s ->
  max_depth limits - depth s < Z.of_nat fuel ->
  parses (parse_type_desc is_be limits fuel) ft s.
Proof.
  induction ft as [ft Hft|ft fs Hft IH] using Ty.FieldType_tree_ind; intros [|fuel] s Hok Hroom Hfuel.
  1, 3: destruct Hroom; pose proof (Ty.type_height_pos ft); lia.
  - destruct (Ty.type_leaf _ Hft) as [Eh En]. rewrite Eh, En in Hroom. now apply runs_leaf_type.
  - eapply runs_composite_type; eauto. eapply Forall_impl; [exact IH|]. cbn.
    intros f Hf Hokf s' Hs' Hr. apply Hf; auto. lia.
Qed.

(** Every node of a descriptor takes at least a byte of its encoding. *)
Lemma fields_nodes_le_bytes fs :
  Forall (fun f => Ty.type_nodes (Ty.field_type f) <= zlen (encode_type_desc (Ty.field_type f) is_be)) fs ->
  Ty.fields_nodes fs <= zlen (concat (map (fun f => encode_field_desc encode_type_desc f is_be) fs)).
Proof.
  unfold Ty.fields_nodes. induction 1 as [|f fs Hf _ IH]; [done|]. cbn [map concat Ty.list_sum].
  unfold encode_field_desc at 1. rewrite !zlen_app. pose proof (zlen_nonneg (encode_string (Ty.name f) is_be)).
  lia.
Qed.

Lemma nodes_le_bytes ft : Ty.type_nodes ft <= zlen (encode_type_desc ft is_be).
Proof.
  induction ft as [ft Hft|ft fs Hft IH] using Ty.FieldType_tree_ind.
  { destruct (Ty.type_leaf _ Hft) as [_ ->]. apply encode_type_desc_pos. }
  rewrite (Ty.type_nodes_fields _ _ Hft). apply fields_nodes_le_bytes in IH.
  destruct ft as [| | | |[i fs']|[i fs']|fs'|fs'| | |]; try discriminate Hft; injection Hft as ->;
    cbn [encode_type_desc]; rewrite !zlen_cons; unfold encode_structure_with; cbn [Ty.fields];
    rewrite !zlen_app;
    match goal with |- context [encode_string ?v is_be] => pose proof (zlen_nonneg (encode_string v is_be)) end;
    pose proof (zlen_nonneg (encode_size (zlen fs) is_be)); lia.
Qed.

(** The budget of the outermost scope is enough for what was encoded. *)
Lemma ceiling_enough n len :
  0 <= max_struct_fields limits -> 0 <= n <= len ->
  n <= Z.max MAX_DECODE_NODES (max_struct_fields limits) ->
  n <= node_ceiling (max_struct_fields limits) len.
Proof.
  intros. unfold node_ceiling, saturating_add, saturating_mul, NODES_PER_BYTE, MAX_DECODE_NODES, usize_max in *.
  lia.
Qed.

(** The state in which the outermost scope runs its body. *)
Definition outer (len : Z) (s : PvdDecoder) : PvdDecoder :=
  set_scope 1 (set_budget 0 (node_ceiling (max_struct_fields limits) len) s).

Lemma runs_outer_scope_idle {A} len (m : M A) s a :
  PvdSafety.idle limits s -> runs m (outer len s) a (outer len s) ->
  exists s', runs (node_budget_scope limits len m) s a s' /\ PvdSafety.idle limits s'.
Proof.
  unfold runs, node_budget_scope. intros [Hr Hd Hs] H. rewrite Hs.
  change (0 =? 0) with true. cbn iota. change (set_scope (0 + 1) _) with (outer len s). rewrite H.
  eexists. split; [reflexivity|]. now split.
Qed.

Lemma runs_outer_scope {A} len (m : M A) s a s' :
  budget_scope s = 0 -> runs m (outer len s) a s' ->
  fst (node_budget_scope limits len m s) = Ok a.
Proof.
  unfold runs, node_budget_scope. intros Hs H. rewrite Hs.
  change (0 =? 0) with true. cbn iota. change (set_scope (0 + 1) _) with (outer len s). now rewrite H.
Qed.

Lemma room_outer h n len s :
  PvdSafety.limits_ok limits -> depth s = 0 -> 0 <= len -> h <= max_depth limits ->
  0 <= n <= node_ceiling (max_struct_fields limits) len -> room h n (outer len s).
Proof.
  intros Hl Hd Hlen Hh Hn.
  destruct (PvdSafety.node_ceiling_range _ len (PvdSafety.lim_fields _ Hl) Hlen).
  split; cbn; lia.
Qed.

Lemma introspection_encode d rest s :
  PvdSafety.limits_ok limits -> PvdSafety.idle limits s ->
  type_ok (Ty.Structure d) = true ->
  Ty.type_height (Ty.Structure d) <= max_depth limits ->
  Ty.type_nodes (Ty.Structure d) <= Z.max MAX_DECODE_NODES (max_struct_fields limits) ->
  let enc := encode_type_desc (Ty.Structure d) is_be in
  fst (parse_introspection_with_len is_be limits (enc ++ rest) s) = Ok (d, zlen enc).
Proof.
  intros Hl [_ Hd0 Hs0] Hok Hh Hn enc. destruct (Hl) as [Hf _].
  pose proof (Ty.type_height_pos (Ty.Structure d)). pose proof (Ty.type_nodes_pos (Ty.Structure d)).
  pose proof (nodes_le_bytes (Ty.Structure d)) as Hb. fold enc in Hb. pose proof (zlen_nonneg rest).
  unfold parse_introspection_with_len, depth_fuel. cbn [parse_introspection_fuel].
  rewrite zlen_app. set (len := zlen enc + zlen rest).
  eapply runs_outer_scope; [done|].
  assert (Hroom : room (Ty.type_height (Ty.Structure d)) (Ty.type_nodes (Ty.Structure d)) (outer len s)).
  { apply room_outer; auto; [subst len; lia|]. split; [lia|].
    apply ceiling_enough; subst len; lia. }
  pose proof (room_composite (Ty.Structure d) (Ty.fields d) _ eq_refl Hroom) as Hr2.
  unfold parse_introspection_body.
  apply (runs_with_depth _ _ _ _ (1 + Ty.fields_nodes (Ty.fields d))); [cbn; lia|cbn; lia|].
  subst enc. cbn [encode_type_desc app]. rewrite zlen_cons.
  match goal with |- context [1 + zlen ?l =? 0] => pose proof (zlen_nonneg l) end.
  destruct (_ =? 0) eqn:E; bool_to_prop; [lia|]. clear E.
  eapply runs_bind; [apply runs_lift, index_head|]. cbn beta. change (0x80 =? 0x80) with true. cbn iota.
  eapply runs_bind.
  { destruct Hroom. apply runs_charge; cbn -[Ty.type_nodes] in *; lia. }
  eapply runs_bind; [now apply (runs_slice_from [0x80])|]. cbn beta iota.
  cbn [type_ok] in Hok. destruct d as [i fs]. bool_to_prop.
  eapply runs_bind.
  - apply runs_structure_desc; auto. apply Forall_forall. intros f _ Hokf s' Hs' Hr.
    apply parse_type_desc_encode; auto. rewrite Hs'. unfold depth_fuel. cbn. lia.
  - cbn beta iota. rewrite charged_charged, zlen_cons. apply runs_ret.
Qed.

End Descriptors.
(** ** Values *)

Section Values.
Context (is_be : bool) (limits : DecodeLimits).

Definition in_u (w n : Z) : bool := (0 <=? n) && (n <? 2 ^ w).
Definition in_s (w n : Z) : bool := (- 2 ^ (w - 1) <=? n) && (n <? 2 ^ (w - 1)).

Definition scalar_ok (tc : TypeCode.t) (v : Val.DecodedValue) : bool :=
  match tc, v with
  | TypeCode.Boolean, Val.Boolean _ => true
  | TypeCode.Int8, Val.Int8 n => in_s 8 n
  | TypeCode.Int16, Val.Int16 n => in_s 16 n
  | TypeCode.Int32, Val.Int32 n => in_s 32 n
  | TypeCode.Int64, Val.Int64 n => in_s 64 n
  | TypeCode.UInt8, Val.UInt8 n => in_u 8 n
  | TypeCode.UInt16, Val.UInt16 n => in_u 16 n
  | TypeCode.UInt32, Val.UInt32 n | TypeCode.Float32, Val.Float32 n => in_u 32 n
  | TypeCode.UInt64, Val.UInt64 n | TypeCode.Float64, Val.Float64 n => in_u 64 n
  | _, _ => false
  end.

Definition string_ok (v : Val.DecodedValue) : bool :=
  match v with Val.String x => name_ok x | _ => false end.

Definition array_ok (limit : Z) (elem_ok : Val.DecodedValue -> bool) (v : Val.DecodedValue) : bool :=
  match v with
  | Val.Array l => (zlen l <=? limit) && (zlen l <=? u32_max) && forallb elem_ok l
  | _ => false
  end.

(** Values of a field type that the encoder writes without loss: every
    structure below has a field, so that no field is zero bytes wide. *)
Fixpoint value_ok (ft : Ty.FieldType) (v : Val.DecodedValue) : bool :=
  match ft with
  | Ty.Scalar tc => scalar_ok tc v
  | Ty.String | Ty.BoundedString _ => string_ok v
  | Ty.ScalarArray tc => array_ok (max_scalar_array limits) (scalar_ok tc) v
  | Ty.StringArray => array_ok (max_string_array limits) string_ok v
  | Ty.Structure (Ty.mkStruct _ fs) =>
    match v with
    | Val.Structure vs =>
      negb (zlen fs =? 0) &&
      (fix go (fs : list Ty.FieldDesc) (vs : list (bytes * Val.DecodedValue)) : bool :=
         match fs, vs with
         | [], [] => true
         | Ty.mkField n t :: fs, (n', v) :: vs => bool_decide (n = n') && value_ok t v && go fs vs
         | _, _ => false
         end) fs vs
    | _ => false
    end
  | _ => false
  end.

(** The field list of a structure against its descriptor. *)
Fixpoint fields_match (fs : list Ty.FieldDesc) (vs : list (bytes * Val.DecodedValue)) : bool :=
  match fs, vs with
  | [], [] => true
  | f :: fs, nv :: vs =>
    bool_decide (Ty.name f = nv.1) && value_ok (Ty.field_type f) nv.2 && fields_match fs vs
  | _, _ => false
  end.

Lemma value_ok_structure i fs vs :
  value_ok (Ty.Structure (Ty.mkStruct i fs)) (Val.Structure vs)
  = negb (zlen fs =? 0) && fields_match fs vs.
Proof.
  cbn. f_equal. revert vs. induction fs as [|[n t] fs IH]; intros [|[n' v] vs]; cbn; try done.
  now rewrite IH.
Qed.

Lemma get_int_byte b : get_int is_be [b] = b.
Proof. destruct is_be; cbn; lia. Qed.

Lemma get_put_unsigned n w v :
  256 ^ Z.of_nat n = 2 ^ w -> in_u w v = true -> get_int is_be (put_int is_be n v) = v.
Proof.
  unfold in_u. intros Hw H. bool_to_prop. apply get_put_int_small. lia.
Qed.

Lemma get_put_signed n w v :
  0 < w -> 256 ^ Z.of_nat n = 2 ^ w -> in_s w v = true ->
  to_signed w (get_int is_be (put_int is_be n v)) = v.
Proof.
  unfold in_s. intros Hw Hn H. bool_to_prop. rewrite get_put_int, Hn. now apply to_signed_mod.
Qed.

Lemma scalar_of_put tc v :
  scalar_ok tc v = true -> exists n,
    TypeCode.size tc = Some n /\ zlen (encode_decoded_value v is_be) = n /\
    scalar_of_bytes is_be tc (encode_decoded_value v is_be) = Some v.
Proof.
  intros H. destruct tc, v; try discriminate H; cbn [scalar_ok] in H; eexists;
    (split; [reflexivity|]); unfold encode_decoded_value; cbn [push_decoded_value app];
    rewrite ?zlen_put_int; (split; [reflexivity|]); cbn [scalar_of_bytes]; rewrite ?get_int_byte;
    try done; try (f_equal; f_equal; first
      [ now apply get_put_signed | eapply get_put_unsigned; [|exact H]; done ]).
  - now destruct v.
  - unfold in_s in H. bool_to_prop. f_equal. f_equal. change 256 with (2 ^ 8). now apply to_signed_mod.
Qed.

Lemma runs_scalar tc v rest s :
  scalar_ok tc v = true ->
  runs (decode_scalar is_be (encode_decoded_value v is_be ++ rest) tc) s
    (v, zlen (encode_decoded_value v is_be)) s.
Proof.
  intros H. destruct (scalar_of_put tc v H) as (n & Hn & Hlen & Hv).
  unfold decode_scalar. rewrite Hn. pose proof (zlen_nonneg rest).
  pose proof (TypeCode.size_pos _ _ Hn). rewrite zlen_app, Hlen.
  destruct (_ <? _) eqn:E; bool_to_prop; [lia|]. clear E.
  eapply (runs_bind _ _ _ (encode_decoded_value v is_be)).
  - apply runs_lift. rewrite slice_ok by (rewrite ?zlen_app; lia).
    change (Z.to_nat 0) with O. rewrite drop_0, Z.sub_0_r, <- Hlen. now rewrite take_app_zlen.
  - cbn beta. rewrite Hv. apply runs_ret.
Qed.

Lemma runs_string v rest s :
  string_ok v = true ->
  runs (bind (decode_string is_be (encode_decoded_value v is_be ++ rest))
          (fun x => let '(t, c) := x in ret (Val.String t, c))) s
    (v, zlen (encode_decoded_value v is_be)) s.
Proof.
  intros H. destruct v; try discriminate H.
  eapply runs_bind; [now apply runs_decode_string|apply runs_ret].
Qed.

(** An element loop over the encodings of [l]. *)
Lemma runs_elements elem l : forall acc pre rest s,
  (forall v pre rest, In v l ->
     runs (elem (pre ++ encode_decoded_value v is_be ++ rest) (zlen pre)) s
       (v, zlen pre + zlen (encode_decoded_value v is_be)) s) ->
  let enc := concat (map (fun v => encode_decoded_value v is_be) l) in
  runs (decode_elements (elem (pre ++ enc ++ rest)) (length l) (zlen pre) acc) s
    (acc ++ l, zlen pre + zlen enc) s.
Proof.
  induction l as [|v l IH]; intros acc pre rest s Helem; cbn [map concat length decode_elements].
  { rewrite zlen_nil, app_nil_r, Z.add_0_r. apply runs_ret. }
  rewrite <- !app_assoc. eapply runs_bind; [apply Helem; now left|]. cbn beta iota.
  set (e := encode_decoded_value v is_be).
  specialize (IH (acc ++ [v]) (pre ++ e) rest s ltac:(intros; apply Helem; now right)).
  cbn zeta in IH. rewrite zlen_app, <- !app_assoc in IH. cbn [app] in IH.
  now rewrite zlen_app, Z.add_assoc.
Qed.

(** The common part of the array branches. *)
Lemma runs_array kind limit min_elem elem_ok l elem rest s :
  array_ok limit elem_ok (Val.Array l) = true -> 0 <= min_elem ->
  (forall v, elem_ok v = true -> min_elem <= zlen (encode_decoded_value v is_be)) ->
  (forall v pre rest, elem_ok v = true ->
     runs (elem (pre ++ encode_decoded_value v is_be ++ rest) (zlen pre)) s
       (v, zlen pre + zlen (encode_decoded_value v is_be)) s) ->
  let data := encode_decoded_value (Val.Array l) is_be ++ rest in
  runs (decode_array is_be data min_elem kind limit (elem data)) s
    (Val.Array l, zlen (encode_decoded_value (Val.Array l) is_be)) s.
Proof.
  intros Hok Hmin Hlens Helem data. cbn in Hok. bool_to_prop. subst data. rewrite encode_array.
  set (enc := concat _). rewrite <- app_assoc. pose proof (zlen_nonneg l). pose proof (zlen_nonneg rest).
  unfold decode_array. eapply runs_bind; [apply runs_decode_size; lia|]. cbn beta iota.
  unfold remaining. rewrite !zlen_app. pose proof (zlen_nonneg enc).
  destruct (_ <=? _) eqn:E; bool_to_prop; [|lia]. clear E.
  eapply runs_bind; [apply runs_ret|]. cbn beta.
  assert (zlen l * min_elem <= zlen enc) as Hbytes.
  { subst enc. rename H0 into Hall. clear -Hlens Hall.
    induction l as [|v l IH]; cbn [map concat forallb] in *; [done|].
    apply andb_true_iff in Hall as [Hv Hall]. rewrite zlen_cons, zlen_app.
    specialize (IH Hall). specialize (Hlens v Hv). lia. }
  eapply (runs_bind _ _ _ tt s).
  { unfold check_array_count. destruct (_ >? _) eqn:E; bool_to_prop; [lia|]. clear E.
    destruct (_ >? _) eqn:E; bool_to_prop; [unfold saturating_mul in E; lia|done]. }
  cbn beta. replace (Z.to_nat (zlen l)) with (length l) by (unfold zlen; lia).
  eapply runs_bind; [apply (runs_elements elem l [])|apply runs_ret].
  intros v pre rest' Hin. apply Helem. rewrite forallb_forall in *. auto.
Qed.

Lemma scalar_len tc v :
  scalar_ok tc v = true -> default 1 (TypeCode.size tc) = zlen (encode_decoded_value v is_be).
Proof. intros H. now destruct (scalar_of_put tc v H) as (n & -> & -> & _). Qed.

Lemma string_len v : string_ok v = true -> 1 <= zlen (encode_decoded_value v is_be).
Proof. destruct v; try discriminate. intros _. apply encode_string_pos. Qed.

Lemma value_len ft v : value_ok ft v = true -> 1 <= zlen (encode_decoded_value v is_be).
Proof.
  revert v. induction ft as [ft Hft|ft fs Hft IH] using Ty.FieldType_tree_ind; intros v H.
  - destruct ft as [tc|tc| | | | | | | | |]; try discriminate Hft; try discriminate H;
      try now apply string_len.
    + destruct (scalar_of_put tc v H) as (n & Hn & -> & _). now apply TypeCode.size_pos in Hn.
    + destruct v; try discriminate H. rewrite encode_array, zlen_app.
      pose proof (encode_size_pos (zlen items) is_be). pose proof (zlen_nonneg
        (concat (map (fun v => encode_decoded_value v is_be) items))). lia.
    + destruct v; try discriminate H. rewrite encode_array, zlen_app.
      pose proof (encode_size_pos (zlen items) is_be). pose proof (zlen_nonneg
        (concat (map (fun v => encode_decoded_value v is_be) items))). lia.
  - destruct ft as [| | | |[i fs']| | | | | |]; try discriminate H; try discriminate Hft.
    injection Hft as ->. destruct v; try discriminate H. rewrite value_ok_structure in H. bool_to_prop.
    destruct IH as [|f fs Hf _]; [done|]. destruct fields as [|nv vs]; [done|].
    cbn [fields_match] in *. bool_to_prop. rewrite encode_structure. cbn [map concat].
    rewrite zlen_app. specialize (Hf nv.2 ltac:(done)).
    pose proof (zlen_nonneg (concat (map (fun nv => encode_decoded_value nv.2 is_be) vs))). lia.
Qed.

Lemma runs_fields_values decode fs s : forall vs acc pre rest,
  fields_match fs vs = true ->
  Forall (fun f => forall v rest, value_ok (Ty.field_type f) v = true ->
    runs (decode (encode_decoded_value v is_be ++ rest) (Ty.field_type f)) s
      (v, zlen (encode_decoded_value v is_be)) s) fs ->
  let enc := concat (map (fun nv => encode_decoded_value nv.2 is_be) vs) in
  runs (decode_fields_loop decode (pre ++ enc ++ rest) fs (zlen pre) acc) s
    (acc ++ vs, zlen pre + zlen enc) s.
Proof.
  induction fs as [|f fs IH]; intros [|[n v] vs] acc pre rest Hm Hdec; try discriminate Hm;
    cbn [map concat decode_fields_loop].
  { rewrite zlen_nil, app_nil_r, Z.add_0_r. apply runs_ret. }
  cbn [fields_match fst snd] in *. bool_to_prop. apply bool_decide_eq_true in H as <-.
  apply Forall_cons in Hdec as [Hf Hdec]. pose proof (value_len _ _ H1).
  set (e := encode_decoded_value v is_be) in *.
  set (more := concat (map (fun nv => encode_decoded_value nv.2 is_be) vs)).
  pose proof (zlen_nonneg more). pose proof (zlen_nonneg rest).
  destruct (_ <=? _) eqn:E; bool_to_prop; [rewrite !zlen_app in E; lia|]. clear E.
  eapply runs_bind; [now apply runs_slice_from|]. cbn beta iota. rewrite <- app_assoc.
  eapply runs_bind; [apply runs_try, (Hf v); done|]. cbn beta iota.
  specialize (IH vs (acc ++ [(Ty.name f, v)]) (pre ++ e) rest H0 Hdec). fold more in IH.
  cbn zeta in IH. rewrite zlen_app, <- !app_assoc in IH. cbn [app] in IH.
  now rewrite zlen_app, Z.add_assoc.
Qed.

Lemma runs_structure decode i fs vs rest s :
  1 <= budget_scope s -> fields_match fs vs = true ->
  Forall (fun f => forall v rest, value_ok (Ty.field_type f) v = true ->
    runs (decode (encode_decoded_value v is_be ++ rest) (Ty.field_type f))
      (set_scope (budget_scope s + 1) s) (v, zlen (encode_decoded_value v is_be))
      (set_scope (budget_scope s + 1) s)) fs ->
  let enc := encode_decoded_value (Val.Structure vs) is_be in
  runs (decode_structure_with limits decode (enc ++ rest) (Ty.mkStruct i fs)) s
    (Val.Structure vs, zlen enc) s.
Proof.
  intros Hs Hm Hdec enc. unfold decode_structure_with. rewrite <- (charged_0 s) at 2.
  apply runs_scope; [done|]. rewrite charged_0. subst enc. rewrite encode_structure.
  eapply runs_bind; [apply (runs_fields_values decode fs _ vs [] []); auto|apply runs_ret].
Qed.

Lemma runs_scalar_array kind limit tc v rest s :
  array_ok limit (scalar_ok tc) v = true ->
  let data := encode_decoded_value v is_be ++ rest in
  runs (decode_array is_be data (default 1 (TypeCode.size tc)) kind limit (fun offset =>
          bind (lift (slice_from data offset)) (fun d =>
          bind (decode_scalar is_be d tc) (fun x =>
          let '(v, consumed) := x in ret (v, offset + consumed))))) s
    (v, zlen (encode_decoded_value v is_be)) s.
Proof.
  intros Hok. destruct v; try discriminate Hok.
  eapply (runs_array _ _ _ (scalar_ok tc) items (fun data offset =>
    bind (lift (slice_from data offset)) (fun d => bind (decode_scalar is_be d tc) (fun x =>
      let '(v, consumed) := x in ret (v, offset + consumed))))); [done| | |].
  - destruct (TypeCode.size tc) eqn:E; cbn; [apply TypeCode.size_pos in E; lia|lia].
  - intros x Hx. now rewrite (scalar_len tc x).
  - intros x pre rest' Hx. eapply runs_bind; [now apply runs_slice_from|]. cbn beta iota.
    eapply runs_bind; [now apply runs_scalar|apply runs_ret].
Qed.

Lemma runs_string_array kind limit v rest s :
  array_ok limit string_ok v = true ->
  let data := encode_decoded_value v is_be ++ rest in
  runs (decode_array is_be data 1 kind limit (fun offset =>
          bind (lift (slice_from data offset)) (fun d =>
          bind (decode_string is_be d) (fun x =>
          let '(v, consumed) := x in ret (Val.String v, offset + consumed))))) s
    (v, zlen (encode_decoded_value v is_be)) s.
Proof.
  intros Hok. destruct v; try discriminate Hok.
  eapply (runs_array _ _ _ string_ok items (fun data offset =>
    bind (lift (slice_from data offset)) (fun d => bind (decode_string is_be d) (fun x =>
      let '(v, consumed) := x in ret (Val.String v, offset + consumed)))));
    [done|lia|apply string_len|].
  intros x pre rest' Hx. eapply runs_bind; [now apply runs_slice_from|]. cbn beta iota.
  destruct x; try discriminate Hx.
  eapply runs_bind; [now apply runs_decode_string|apply runs_ret].
Qed.

Lemma field_height_le fs f :
  f ∈ fs -> Ty.type_height (Ty.field_type f) <= Ty.fields_height fs.
Proof.
  intros Hf. pose proof (Ty.list_max_ge _ _ (Z.le_refl (Ty.fields_height fs))) as Hall.
  rewrite Forall_map in Hall. rewrite Forall_forall in Hall. now apply Hall.
Qed.

(** [decode_value] inside a scope, with enough depth left. *)
Lemma decode_value_encode ft : forall fuel v rest s,
  value_ok ft v = true -> room limits (Ty.type_height ft) 0 s ->
  max_depth limits - depth s < Z.of_nat fuel ->
  runs (decode_value_fuel is_be limits fuel (encode_decoded_value v is_be ++ rest) ft) s
    (v, zlen (encode_decoded_value v is_be)) s.
Proof.
  induction ft as [ft Hft|ft fs Hft IH] using Ty.FieldType_tree_ind; intros [|fuel] v rest s Hok Hroom Hfuel;
    pose proof (Ty.type_height_pos ft); destruct (Hroom) as [? ? ? ?]; try lia;
    cbn [decode_value_fuel]; rewrite <- (charged_0 s) at 2; (apply runs_scope; [done|]);
    (apply runs_with_depth; [cbn; lia|cbn; lia|]); rewrite charged_0.
  - destruct ft as [tc|tc| | | | | | | | |]; try discriminate Hft; try discriminate Hok.
    + now apply runs_scalar.
    + now apply runs_scalar_array.
    + now apply runs_string.
    + now apply runs_string_array.
    + now apply runs_string.
  - destruct ft as [| | | |[i fs']| | | | | |]; try discriminate Hok; try discriminate Hft.
    injection Hft as ->. destruct v; try discriminate Hok. rewrite value_ok_structure in Hok. bool_to_prop.
    apply runs_structure; [cbn; lia|done|].
    apply Forall_forall. intros f Hf v rest' Hv.
    rewrite Forall_forall in IH. apply IH; auto.
    + pose proof (Ty.type_height_fields (Ty.Structure (Ty.mkStruct i fs)) fs eq_refl).
      pose proof (field_height_le fs f Hf). split; cbn; lia.
    + cbn. lia.
Qed.

Lemma decode_structure_encode i fs vs rest s :
  PvdSafety.limits_ok limits -> PvdSafety.idle limits s ->
  fields_match fs vs = true -> Ty.fields_height fs <= max_depth limits ->
  let enc := encode_decoded_value (Val.Structure vs) is_be in
  fst (decode_structure is_be limits (enc ++ rest) (Ty.mkStruct i fs) s) = Ok (Val.Structure vs, zlen enc).
Proof.
  intros Hl [_ Hd0 Hs0] Hm Hh enc. pose proof (zlen_nonneg (enc ++ rest)).
  eapply runs_outer_scope; [done|]. subst enc. rewrite encode_structure in *.
  eapply runs_bind; [apply (runs_fields_values _ fs _ vs [] []); auto|apply runs_ret].
  apply Forall_forall. intros f Hf v rest' Hv. pose proof (field_height_le fs f Hf).
  destruct (PvdSafety.node_ceiling_range _ _ (PvdSafety.lim_fields _ Hl) H).
  pose proof (Ty.type_height_pos (Ty.field_type f)). destruct Hl.
  apply decode_value_encode; [done|apply room_outer; auto; try lia; now split|].
  unfold depth_fuel. cbn. lia.
Qed.

End Values.

(** ** Claims *)

(** [{ int a; structure(id) b { string c; double[] d } }] and a value of it. *)
Definition sample_desc : Ty.StructureDesc :=
  Ty.mkStruct None
    [Ty.mkField (str "a") (Ty.Scalar TypeCode.Int32);
     Ty.mkField (str "b") (Ty.Structure (Ty.mkStruct (Some (str "id"))
       [Ty.mkField (str "c") Ty.String;
        Ty.mkField (str "d") (Ty.ScalarArray TypeCode.Float64)]))].

Definition sample_fields : list (bytes * Val.DecodedValue) :=
  [(str "a", Val.Int32 (-5));
   (str "b", Val.Structure
      [(str "c", Val.String (str "xyz"));
       (str "d", Val.Array [Val.Float64 4607182418800017408])])].



(** A structure value survives the trip through [encode_decoded_value] and
    [decode_structure]: every scalar, string, scalar or string array and nested
    structure in range is read back, in both byte orders, and exactly the
    encoded bytes are consumed. *)
Theorem structure_value_roundtrip is_be limits i fs vs rest s :
  PvdSafety.limits_ok limits -> PvdSafety.idle limits s ->
  fields_match limits fs vs = true -> Ty.fields_height fs <= max_depth limits ->
  let enc := encode_decoded_value (Val.Structure vs) is_be in
  fst (decode_structure is_be limits (enc ++ rest) (Ty.mkStruct i fs) s)
  = Ok (Val.Structure vs, zlen enc).
Proof. apply decode_structure_encode. Qed.

Lemma structure_value_roundtrip_witness :
  fst (decode_structure true default_limits
         (encode_decoded_value (Val.Structure sample_fields) true ++ [9])
         sample_desc (with_limits default_limits))
  = Ok (Val.Structure sample_fields, 17).
Proof.
  apply (structure_value_roundtrip true default_limits None (Ty.fields sample_desc) sample_fields [9]).
  - exact PvdSafety.default_limits_ok.
  - apply PvdSafety.idle_with_limits.
  - vm_compute. reflexivity.
  - vm_compute. discriminate.
Defined.

End PvdRoundtrip.
