(* ===== verification/PvdDelta.v ===== *)
(** * Delta values

    The monitor path sends a changed bitset and the values of the changed
    fields.  [select_structure] says which fields of a value a bitset selects;
    the decoder of [spvd_decode.rs] ([decode_structure_with_bitset]) reads back
    exactly those. *)

From stdpp Require Import gmap.
From S2P Require Import Prelude Utf8 Wire PvdTypes PvdEncode PvdDecode PvdSafety PvdRoundtrip.

Local Open Scope Z_scope.

Module PvdDelta.
Import Wire PvdDecode PvdEncode PvdRoundtrip.

Abbreviation entries := (list (bytes * Val.DecodedValue)).

(** ** What a bitset selects *)

(** A nested structure is reported only when it holds something. *)
Definition wrap (nm : bytes) (sub : entries) : entries :=
  match sub with [] => [] | _ => [(nm, Val.Structure sub)] end.

Section Select.
Context (bitset : bytes) (select_nested : Ty.StructureDesc -> entries -> Z -> entries).

(** A structure is sent whole when its own bit is set and none below it, and
    field by field when some bit below it is set. *)
Definition select_structure_field (nm : bytes) (nested : Ty.StructureDesc) (v : Val.DecodedValue)
    (bit : Z) : entries :=
  if any_bit_set bitset (bit + 1) (Z.to_nat (Ty.count_structure_fields nested)) then
    match v with
    | Val.Structure nvs => wrap nm (select_nested nested nvs (bit + 1))
    | _ => []
    end
  else if bit_set bitset bit then [(nm, v)] else [].

Fixpoint select_fields (fs : list Ty.FieldDesc) (vs : entries) (bit : Z) : entries :=
  match fs, vs with
  | f :: fs, nv :: vs =>
    match Ty.field_type f with
    | Ty.Structure nested =>
      select_structure_field (Ty.name f) nested nv.2 bit
      ++ select_fields fs vs (bit + 1 + Ty.count_structure_fields nested)
    | _ =>
      (if bit_set bitset bit then [(Ty.name f, nv.2)] else []) ++ select_fields fs vs (bit + 1)
    end
  | _, _ => []
  end.
End Select.

Fixpoint select_structure (bitset : bytes) (desc : Ty.StructureDesc) (vs : entries) (bit : Z) : entries :=
  match desc with
  | Ty.mkStruct _ fs => select_fields bitset (select_structure bitset) fs vs bit
  end.

(** Bit 0 alone stands for the whole structure. *)
Definition select_delta (bitset : bytes) (desc : Ty.StructureDesc) (vs : entries) : entries :=
  if negb (has_field_bits bitset) && bit_set bitset 0 then vs
  else select_structure bitset desc vs 1.

Definition encode_entries (vs : entries) (is_be : bool) : bytes :=
  encode_decoded_value (Val.Structure vs) is_be.

Lemma encode_entries_app a b is_be :
  encode_entries (a ++ b) is_be = encode_entries a is_be ++ encode_entries b is_be.
Proof. unfold encode_entries. rewrite !encode_structure. now rewrite map_app, concat_app. Qed.

Lemma encode_entries_one n v is_be :
  encode_entries [(n, v)] is_be = encode_decoded_value v is_be.
Proof. unfold encode_entries. rewrite encode_structure. cbn. apply app_nil_r. Qed.

Lemma encode_entries_wrap nm sub is_be :
  encode_entries (wrap nm sub) is_be = encode_entries sub is_be.
Proof. destruct sub; [done|]. apply encode_entries_one. Qed.

Lemma push_wrap nm (acc sub : entries) :
  match sub with [] => acc | _ => acc ++ [(nm, Val.Structure sub)] end = acc ++ wrap nm sub.
Proof. destruct sub; [symmetry; apply app_nil_r|done]. Qed.

(** ** The walk *)

Section Walk.
Context (is_be : bool) (limits : DecodeLimits) (data bitset : bytes) (counts : list Z).
Hypothesis Hlim : PvdSafety.limits_ok limits.

Abbreviation loop := (bitset_fields_loop is_be limits data bitset counts).

(** What the walk over the fields [fs] does, entered at [bit] with the encoded
    selection ahead. *)
Definition walks (walk_fields : Z -> Z -> M walk) (fs : list Ty.FieldDesc) (s : PvdDecoder) : Prop :=
  forall vs dpre drest pre post bit,
    let sel := select_fields bitset (select_structure bitset) fs vs bit in
    data = dpre ++ encode_entries sel is_be ++ drest ->
    counts = pre ++ PvdSafety.counts_of fs ++ post -> zlen pre = bit - 1 ->
    fields_match limits fs vs = true ->
    runs (walk_fields (zlen dpre) bit) s
      (true, zlen dpre + zlen (encode_entries sel is_be),
       bit + zlen (PvdSafety.counts_of fs), sel) s.

(** The loop after a field, entered with [acc] already decoded. *)
Definition resumes (rest : Z -> Z -> entries -> M walk) (fs : list Ty.FieldDesc) (vs : entries)
    (bit bit_end : Z) (s : PvdDecoder) : Prop :=
  forall dpre drest acc,
    let sel := select_fields bitset (select_structure bitset) fs vs bit in
    data = dpre ++ encode_entries sel is_be ++ drest ->
    runs (rest (zlen dpre) bit acc) s
      (true, zlen dpre + zlen (encode_entries sel is_be), bit_end, acc ++ sel) s.

(** A field decoded from [d] by [m], then the rest. *)
Lemma runs_present {A} (k : Val.DecodedValue -> Z -> M A) (m : bytes -> M (Val.DecodedValue * Z))
    (err : DecodeError -> M A) v dpre drest s a :
  data = dpre ++ encode_decoded_value v is_be ++ drest ->
  runs (m (encode_decoded_value v is_be ++ drest)) s (v, zlen (encode_decoded_value v is_be)) s ->
  runs (k v (zlen (dpre ++ encode_decoded_value v is_be))) s a s ->
  runs (bind (lift (slice_from data (zlen dpre))) (fun d =>
        bind (try (m d)) (fun r =>
        match r with
        | inl (value, consumed) => k value (zlen dpre + consumed)
        | inr e => err e
        end))) s a s.
Proof.
  intros Hdata Hm Hk. rewrite Hdata. eapply runs_bind; [now apply runs_slice_from|]. cbn beta iota.
  eapply runs_bind; [apply runs_try, Hm|]. cbn beta iota. now rewrite <- zlen_app.
Qed.

Lemma walk_leaf rest nm ft v fs vs bit bit_end acc dpre drest s :
  value_ok limits ft v = true -> room limits (Ty.type_height ft) 0 s ->
  resumes rest fs vs (bit + 1) bit_end s ->
  let sel := (if bit_set bitset bit then [(nm, v)] else [])
             ++ select_fields bitset (select_structure bitset) fs vs (bit + 1) in
  data = dpre ++ encode_entries sel is_be ++ drest ->
  runs (if bit_set bitset bit then
          if zlen data <=? zlen dpre then ret (false, zlen dpre, bit + 1, acc) else
          bind (lift (slice_from data (zlen dpre))) (fun d =>
          bind (try (decode_value is_be limits d ft)) (fun r =>
          match r with
          | inl (value, consumed) => rest (zlen dpre + consumed) (bit + 1) (acc ++ [(nm, value)])
          | inr e => if is_hostile e then fail e else ret (false, zlen dpre, bit + 1, acc)
          end))
        else rest (zlen dpre) (bit + 1) acc) s
    (true, zlen dpre + zlen (encode_entries sel is_be), bit_end, acc ++ sel) s.
Proof.
  intros Hv Hroom Hrest sel Hdata. subst sel. destruct (bit_set bitset bit); [|now apply (Hrest _ drest)].
  rewrite encode_entries_app, encode_entries_one in *. rewrite <- app_assoc in Hdata.
  pose proof (value_len is_be _ _ _ Hv). set (e := encode_decoded_value v is_be) in *.
  match type of Hdata with _ = _ ++ _ ++ ?t => set (tl := t) in * end.
  pose proof (zlen_nonneg tl).
  destruct (_ <=? _) eqn:E; bool_to_prop; [rewrite Hdata, !zlen_app in E; lia|]. clear E.
  eapply (runs_present (fun value off => rest off (bit + 1) (acc ++ [(nm, value)]))); [exact Hdata| |].
  - apply decode_value_encode; auto. destruct Hroom, Hlim. unfold depth_fuel. lia.
  - fold e. specialize (Hrest (dpre ++ e) drest (acc ++ [(nm, v)])). cbn zeta in Hrest.
    rewrite zlen_app, <- !app_assoc in Hrest. cbn [app] in Hrest.
    rewrite !zlen_app, Z.add_assoc. now apply Hrest.
Qed.

Lemma runs_whole i fs vs rest s :
  fields_match limits fs vs = true -> room limits (Ty.fields_height fs) 0 s ->
  runs (decode_structure is_be limits (encode_decoded_value (Val.Structure vs) is_be ++ rest)
          (Ty.mkStruct i fs)) s
    (Val.Structure vs, zlen (encode_decoded_value (Val.Structure vs) is_be)) s.
Proof.
  intros Hm [? ? ? ?]. apply runs_structure; [done|done|].
  apply Forall_forall. intros f Hf v rest' Hv. pose proof (field_height_le fs f Hf).
  apply decode_value_encode; [done|split; cbn; lia|]. unfold depth_fuel. cbn. destruct Hlim. lia.
Qed.

(** A structure field entered field by field. *)
Lemma walk_nested nested_walk rest nm i nfs nvs fs vs pre post bit bit_end acc dpre drest s :
  let n := Ty.mkStruct i nfs in
  let c := Ty.count_structure_fields n in
  fields_match limits nfs nvs = true -> walks (nested_walk n) nfs s ->
  counts = pre ++ c :: Ty.counts_spec n ++ post -> zlen pre = bit - 1 ->
  resumes rest fs vs (bit + 1 + c) bit_end s ->
  let sel := wrap nm (select_structure bitset n nvs (bit + 1))
             ++ select_fields bitset (select_structure bitset) fs vs (bit + 1 + c) in
  data = dpre ++ encode_entries sel is_be ++ drest ->
  runs (bind (nested_walk n (zlen dpre) (bit + 1)) (fun x =>
          match x with (ok, offset, bit_offset, nested_fields) =>
            if negb ok then ret (false, offset, bit_offset, acc)
            else rest offset bit_offset
                   (match nested_fields with
                    | [] => acc
                    | _ => acc ++ [(nm, Val.Structure nested_fields)]
                    end)
          end)) s
    (true, zlen dpre + zlen (encode_entries sel is_be), bit_end, acc ++ sel) s.
Proof.
  intros n c Hv Hwalk Hcounts Hpre Hrest sel Hdata. subst sel.
  rewrite encode_entries_app, encode_entries_wrap in *. rewrite <- app_assoc in Hdata.
  eapply runs_bind.
  - eapply (Hwalk nvs dpre _ (pre ++ [c]) post); [exact Hdata| | |exact Hv].
    + rewrite <- app_assoc. exact Hcounts.
    + rewrite zlen_app, zlen_cons, zlen_nil. lia.
  - cbn beta iota. cbn [negb]. rewrite push_wrap. change (PvdSafety.counts_of nfs) with (Ty.counts_spec n).
    rewrite Ty.counts_spec_length. fold c.
    change (select_fields bitset (select_structure bitset) nfs nvs (bit + 1))
      with (select_structure bitset n nvs (bit + 1)).
    set (sub := select_structure bitset n nvs (bit + 1)) in *.
    specialize (Hrest (dpre ++ encode_entries sub is_be) drest (acc ++ wrap nm sub)).
    cbn zeta in Hrest. rewrite <- !app_assoc, zlen_app in Hrest.
    rewrite zlen_app, Z.add_assoc. now apply Hrest.
Qed.

(** A structure field: whole, field by field, or not at all. *)
Lemma walk_structure nested_walk rest nm i nfs v fs vs pre post bit bit_end acc dpre drest s :
  let n := Ty.mkStruct i nfs in
  let c := Ty.count_structure_fields n in
  value_ok limits (Ty.Structure n) v = true -> room limits (Ty.type_height (Ty.Structure n)) 0 s ->
  walks (nested_walk n) nfs s ->
  counts = pre ++ c :: Ty.counts_spec n ++ post -> zlen pre = bit - 1 ->
  resumes rest fs vs (bit + 1 + c) bit_end s ->
  let sel := select_structure_field bitset (select_structure bitset) nm n v bit
             ++ select_fields bitset (select_structure bitset) fs vs (bit + 1 + c) in
  data = dpre ++ encode_entries sel is_be ++ drest ->
  runs (if bit_set bitset bit && negb (any_bit_set bitset (bit + 1) (Z.to_nat c)) then
          if zlen dpre <? zlen data then
            bind (lift (slice_from data (zlen dpre))) (fun d =>
            bind (try (decode_structure is_be limits d n)) (fun r =>
            match r with
            | inl (value, consumed) => rest (zlen dpre + consumed) (bit + 1 + c) (acc ++ [(nm, value)])
            | inr e => if is_hostile e then fail e else ret (false, zlen dpre, bit + 1 + c, acc)
            end))
          else rest (zlen dpre) (bit + 1 + c) acc
        else if any_bit_set bitset (bit + 1) (Z.to_nat c) then
          bind (nested_walk n (zlen dpre) (bit + 1)) (fun x =>
          match x with (ok, offset, bit_offset, nested_fields) =>
            if negb ok then ret (false, offset, bit_offset, acc)
            else rest offset bit_offset
                   (match nested_fields with
                    | [] => acc
                    | _ => acc ++ [(nm, Val.Structure nested_fields)]
                    end)
          end)
        else rest (zlen dpre) (bit + 1 + c) acc) s
    (true, zlen dpre + zlen (encode_entries sel is_be), bit_end, acc ++ sel) s.
Proof.
  intros n c Hv Hroom Hwalk Hcounts Hpre Hrest sel Hdata. subst sel.
  assert (exists nvs, v = Val.Structure nvs) as [nvs ->]
    by (destruct v; try discriminate Hv; eauto).
  pose proof (value_len is_be _ _ _ Hv) as Hlen.
  unfold n in Hv. rewrite value_ok_structure in Hv. apply andb_true_iff in Hv as [_ Hv].
  unfold select_structure_field in *. fold c in Hdata |- *.
  destruct (any_bit_set bitset (bit + 1) (Z.to_nat c)) eqn:Eany; [|destruct (bit_set bitset bit)];
    rewrite ?andb_false_r; cbn [negb andb].
  - now apply (walk_nested nested_walk rest nm i nfs nvs fs vs pre post bit bit_end acc dpre drest).
  - rewrite encode_entries_app, encode_entries_one in *. rewrite <- app_assoc in Hdata.
    set (e := encode_decoded_value _ _) in *.
    destruct (_ <? _) eqn:E; bool_to_prop; [|rewrite Hdata, !zlen_app in E;
      match type of E with context [zlen ?a + zlen drest] => pose proof (zlen_nonneg a) end;
      pose proof (zlen_nonneg drest); lia]. clear E.
    eapply (runs_present (fun value off => rest off (bit + 1 + c) (acc ++ [(nm, value)]))); [exact Hdata| |].
    + apply runs_whole; [done|]. destruct Hroom.
      rewrite (Ty.type_height_fields (Ty.Structure n) nfs eq_refl) in *. split; lia.
    + fold e. specialize (Hrest (dpre ++ e) drest (acc ++ [(nm, Val.Structure nvs)])). cbn zeta in Hrest.
      rewrite zlen_app, <- !app_assoc in Hrest. cbn [app] in *.
      rewrite !zlen_app, Z.add_assoc. now apply Hrest.
  - now apply (Hrest _ drest).
Qed.

Lemma walk_loop nested_walk fs s : forall vs dpre drest pre post bit acc,
  room limits (Ty.fields_height fs) 0 s ->
  Forall (fun f => match Ty.field_type f with
    | Ty.Structure n => room limits (Ty.fields_height (Ty.fields n)) 0 s ->
                        walks (nested_walk n) (Ty.fields n) s
    | _ => True end) fs ->
  let sel := select_fields bitset (select_structure bitset) fs vs bit in
  data = dpre ++ encode_entries sel is_be ++ drest ->
  counts = pre ++ PvdSafety.counts_of fs ++ post -> zlen pre = bit - 1 ->
  fields_match limits fs vs = true ->
  runs (loop nested_walk fs (zlen dpre) bit acc) s
    (true, zlen dpre + zlen (encode_entries sel is_be),
     bit + zlen (PvdSafety.counts_of fs), acc ++ sel) s.
Proof.
  induction fs as [|f fs IH]; intros [|[n v] vs] dpre drest pre post bit acc Hroom Hn sel Hdata Hc Hpre Hm;
    try discriminate Hm; subst sel.
  { cbn. rewrite !Z.add_0_r, app_nil_r. apply runs_ret. }
  cbn [fields_match fst snd] in Hm. apply andb_true_iff in Hm as [Hm Hmatch].
  apply andb_true_iff in Hm as [_ Hv]. apply Forall_cons in Hn as [Hf Hn].
  assert (Hrf : room limits (Ty.type_height (Ty.field_type f)) 0 s /\ room limits (Ty.fields_height fs) 0 s).
  { pose proof (field_height_le (f :: fs) f ltac:(left)). destruct Hroom.
    unfold Ty.fields_height in *. cbn [map Ty.list_max] in *. split; split; lia. }
  destruct Hrf as [Hrf Hrfs].
  assert (Hrest : forall own b, counts = pre ++ own ++ PvdSafety.counts_of fs ++ post ->
    b = bit + zlen own -> resumes (loop nested_walk fs) fs vs b
      (bit + zlen (own ++ PvdSafety.counts_of fs)) s).
  { intros own b Hown -> dpre' drest' acc' sel' Hd'. rewrite zlen_app, Z.add_assoc.
    apply (IH vs dpre' drest' (pre ++ own) post); auto; [now rewrite <- app_assoc|rewrite zlen_app; lia]. }
  rewrite PvdSafety.counts_of_cons in Hc |- *. rewrite <- app_assoc in Hc.
  cbn [bitset_fields_loop select_fields] in Hdata |- *.
  destruct (Ty.field_type f) as [| | | |[i nfs]| | | | | |];
    try (apply walk_leaf with (drest := drest); [done|done|now apply (Hrest [0])|exact Hdata]).
  cbn beta iota zeta. eapply runs_bind.
  { apply runs_lift. rewrite Hc. cbn [app].
    rewrite index_ok by (rewrite zlen_app, zlen_cons; pose proof (zlen_nonneg pre);
      match goal with |- context [1 + zlen ?l] => pose proof (zlen_nonneg l) end; lia).
    rewrite <- Hpre. unfold zlen at 1. now rewrite Nat2Z.id, app_nth2, Nat.sub_diag by lia. }
  cbn beta iota. eapply (walk_structure nested_walk); eauto.
  - apply Hf. pose proof (Ty.type_height_fields (Ty.Structure (Ty.mkStruct i nfs)) nfs eq_refl).
    destruct Hrf. split; cbn [Ty.fields]; lia.
  - apply Hrest; [exact Hc|]. rewrite zlen_cons, Ty.counts_spec_length. lia.
Qed.

Lemma walk_structure_desc desc s :
  room limits (Ty.fields_height (Ty.fields desc)) 0 s ->
  walks (decode_with_bitset_recursive is_be limits data bitset counts desc) (Ty.fields desc) s.
Proof.
  induction desc as [desc IH] using Ty.StructureDesc_nested_ind. intros Hroom.
  intros vs dpre drest pre post bit sel Hdata Hc Hpre Hm.
  assert (decode_with_bitset_recursive is_be limits data bitset counts desc (zlen dpre) bit =
          loop (decode_with_bitset_recursive is_be limits data bitset counts)
            (Ty.fields desc) (zlen dpre) bit []) as -> by now destruct desc.
  eapply walk_loop; eauto.
Qed.

End Walk.
(** ** Whole messages *)

Section Messages.
Context (is_be : bool) (limits : DecodeLimits).
Hypothesis Hlim : PvdSafety.limits_ok limits.

Lemma delta_body_runs d vs bitset rest s :
  PvdSafety.idle limits s -> fields_match limits (Ty.fields d) vs = true ->
  Ty.fields_height (Ty.fields d) <= max_depth limits ->
  let sel := select_delta bitset d vs in
  exists s', runs (decode_structure_with_bitset_body is_be limits (encode_entries sel is_be ++ rest) d bitset) s
               (Val.Structure sel, zlen (encode_entries sel is_be)) s' /\ PvdSafety.idle limits s'.
Proof.
  intros Hi Hm Hh sel. pose proof (zlen_nonneg (encode_entries sel is_be ++ rest)).
  unfold decode_structure_with_bitset_body. set (s1 := outer limits (zlen (encode_entries sel is_be ++ rest)) s).
  apply runs_outer_scope_idle; [done|]. fold s1.
  assert (Hroom : room limits (Ty.fields_height (Ty.fields d)) 0 s1).
  { destruct Hi. apply room_outer; auto. split; [lia|].
    pose proof (PvdSafety.node_ceiling_range _ _ (PvdSafety.lim_fields _ Hlim) H).
    destruct Hlim. lia. }
  subst sel. unfold select_delta. cbn zeta.
  destruct (negb (has_field_bits bitset) && bit_set bitset 0).
  - destruct d as [i fs]. eapply runs_bind; [apply runs_try; now apply runs_whole|apply runs_ret].
  - rewrite Ty.subtree_field_counts_spec. destruct d as [i fs].
    eapply runs_bind.
    + eapply (walk_structure_desc is_be limits _ bitset _ Hlim (Ty.mkStruct i fs) s1 Hroom vs [] rest [] []);
        try done. now rewrite app_nil_r.
    + apply runs_ret.
Qed.

Lemma runs_delta_body d vs bitset rest s :
  PvdSafety.idle limits s -> fields_match limits (Ty.fields d) vs = true ->
  Ty.fields_height (Ty.fields d) <= max_depth limits ->
  let sel := select_delta bitset d vs in
  fst (decode_structure_with_bitset_body is_be limits (encode_entries sel is_be ++ rest) d bitset s)
  = Ok (Val.Structure sel, zlen (encode_entries sel is_be)).
Proof.
  intros Hi Hm Hh sel. destruct (delta_body_runs d vs bitset rest s Hi Hm Hh) as (s' & H & _).
  unfold runs in H. fold sel in H. now rewrite H.
Qed.

Lemma delta_encode d vs bitset rest s :
  PvdSafety.idle limits s -> 1 <= zlen bitset <= u32_max ->
  fields_match limits (Ty.fields d) vs = true ->
  Ty.fields_height (Ty.fields d) <= max_depth limits ->
  let sel := select_delta bitset d vs in
  let msg := encode_size (zlen bitset) is_be ++ bitset ++ encode_entries sel is_be in
  fst (decode_structure_with_bitset is_be limits (msg ++ rest) d s) = Ok (Val.Structure sel, zlen msg).
Proof.
  intros Hi Hb Hm Hh sel msg. subst msg. rewrite <- !app_assoc.
  set (body := encode_entries sel is_be ++ rest).
  set (esz := encode_size (zlen bitset) is_be). pose proof (encode_size_pos (zlen bitset) is_be) as He.
  fold esz in He. pose proof (zlen_nonneg body).
  unfold decode_structure_with_bitset. rewrite !zlen_app.
  destruct (_ =? 0) eqn:E; bool_to_prop; [lia|]. clear E.
  unfold bind at 1, decode_size, lift at 1. unfold esz at 1. rewrite decode_encode_size by lia.
  fold esz. cbn beta iota.
  destruct (_ || _) eqn:E; [apply orb_true_iff in E as [E|E]; bool_to_prop; lia|]. clear E.
  unfold bind at 1, lift at 1. rewrite slice_ok by (rewrite ?zlen_app; lia). cbn beta iota.
  rewrite drop_app_zlen. replace (zlen esz + zlen bitset - zlen esz) with (zlen bitset) by lia.
  rewrite take_app_zlen. unfold bind at 1, lift at 1.
  rewrite slice_from_ok by (rewrite ?zlen_app; lia). cbn beta iota.
  rewrite app_assoc, <- zlen_app, drop_app_zlen. unfold bind at 1.
  pose proof (runs_delta_body d vs bitset rest s Hi Hm Hh) as Hr. fold sel body in Hr. cbn zeta in Hr.
  destruct (decode_structure_with_bitset_body _ _ _ _ _ _) as [r s']. cbn [fst] in Hr. rewrite Hr.
  cbn. do 2 f_equal. rewrite !zlen_app. lia.
Qed.

End Messages.

(** ** The full update *)

Lemma any_bit_set_first bitset b n : bit_set bitset b = true -> (0 < n)%nat -> any_bit_set bitset b n = true.
Proof. intros H. destruct n; [lia|]. cbn. now rewrite H. Qed.

Lemma count_pos d : zlen (Ty.fields d) <> 0 -> 0 < Ty.count_structure_fields d.
Proof.
  rewrite <- Ty.counts_spec_length, PvdSafety.counts_of_desc. destruct (Ty.fields d) as [|g gs]; [done|].
  intros _. rewrite PvdSafety.counts_of_cons, zlen_app.
  pose proof (zlen_nonneg (PvdSafety.counts_of gs)).
  destruct (Ty.field_type g); rewrite zlen_cons;
    match goal with |- context [1 + zlen ?l] => pose proof (zlen_nonneg l) end; lia.
Qed.

(** A bitset with every bit of a structure set selects all of it. *)
Lemma select_all limits bitset d : forall vs bit,
  fields_match limits (Ty.fields d) vs = true ->
  (forall b, bit <= b < bit + Ty.count_structure_fields d -> bit_set bitset b = true) ->
  select_structure bitset d vs bit = vs.
Proof.
  induction d as [[i fs] IH] using Ty.StructureDesc_nested_ind. cbn [Ty.fields] in *.
  intros vs bit Hm Hbits. cbn [select_structure].
  rewrite <- Ty.counts_spec_length, PvdSafety.counts_of_desc in Hbits. cbn [Ty.fields] in Hbits.
  revert vs bit Hm Hbits. induction IH as [|f fs Hf _ IHfs]; intros [|[n v] vs] bit Hm Hbits; try done.
  cbn [fields_match fst snd] in Hm. apply andb_true_iff in Hm as [Hm Hmatch].
  apply andb_true_iff in Hm as [Hn Hv]. apply bool_decide_eq_true in Hn.
  rewrite PvdSafety.counts_of_cons, zlen_app in Hbits. pose proof (zlen_nonneg (PvdSafety.counts_of fs)).
  cbn [select_fields snd]. rewrite Hn.
  destruct (Ty.field_type f) as [| | | |[ni nfs]| | | | | |];
    try (change (zlen [0]) with 1 in Hbits; rewrite Hbits by lia; cbn [app]; f_equal;
         apply IHfs; auto; intros; apply Hbits; lia).
  destruct v as [| | | | | | | | | | | | | |nvs|]; try discriminate Hv.
  rewrite value_ok_structure in Hv. bool_to_prop. rewrite zlen_cons, Ty.counts_spec_length in Hbits.
  set (nd := Ty.mkStruct ni nfs) in *.
  assert (0 < Ty.count_structure_fields nd) as Hc by now apply count_pos.
  unfold select_structure_field.
  rewrite any_bit_set_first; [|apply Hbits; lia|lia].
  rewrite Hf; [|done|intros; apply Hbits; lia].
  destruct nvs as [|nv nvs]; [destruct nfs; done|]. cbn [wrap app]. f_equal.
  apply IHfs; auto. intros; apply Hbits; lia.
Qed.

Lemma select_delta_all limits d vs :
  fields_match limits (Ty.fields d) vs = true ->
  select_delta (ones_bitset (1 + Ty.count_structure_fields d)) d vs = vs.
Proof.
  intros Hm. unfold select_delta. destruct (_ && _); [done|].
  pose proof (Ty.count_structure_fields_nonneg d).
  apply (select_all limits); auto. intros b Hb. rewrite ones_bitset_spec by lia.
  apply Z.ltb_lt. lia.
Qed.

(** ** Claims *)

(** A full update of a structure: the all-ones bitset, then the whole value. *)
Definition full_update (d : Ty.StructureDesc) (vs : list (bytes * Val.DecodedValue)) (is_be : bool) : bytes :=
  encode_structure_bitset d is_be ++ encode_decoded_value (Val.Structure vs) is_be.

Lemma full_update_encode is_be limits d vs rest s :
  PvdSafety.limits_ok limits -> PvdSafety.idle limits s ->
  1 + Ty.count_structure_fields d <= u32_max ->
  fields_match limits (Ty.fields d) vs = true ->
  Ty.fields_height (Ty.fields d) <= max_depth limits ->
  fst (decode_structure_with_bitset is_be limits (full_update d vs is_be ++ rest) d s)
  = Ok (Val.Structure vs, zlen (full_update d vs is_be)).
Proof.
  intros Hl Hi Hc Hm Hh. pose proof (Ty.count_structure_fields_nonneg d).
  unfold full_update, encode_structure_bitset, encode_all_ones_bitset.
  rewrite push_all_ones_bitset_app by lia. rewrite app_nil_l.
  pose proof (delta_encode is_be limits Hl d vs (ones_bitset (1 + Ty.count_structure_fields d)) rest s Hi) as H'.
  rewrite (select_delta_all limits) in H' by done. cbn zeta in H'. rewrite !app_assoc in H'.
  apply H'; auto.
  rewrite zlen_ones_bitset by lia. destruct (div_ceil_8 (1 + Ty.count_structure_fields d)); lia.
Qed.

(** C38: a delta message that carries a bitset and the encodings of the fields it
    selects is decoded to exactly those fields, nested structures included,
    for every bitset, and the decoder consumes exactly the message.  The fields are
    scalars, strings, arrays of them within the limits of the decoder, and
    structures with at least one field; unions, variants and arrays of structures
    are left out, since the encoder of decoded values writes no selector for them.
    The descriptor nests no deeper than the decoder allows, and the decoder is at
    rest. *)
Theorem delta_roundtrip is_be limits d vs bitset rest s :
  PvdSafety.limits_ok limits -> PvdSafety.idle limits s -> 1 <= zlen bitset <= u32_max ->
  fields_match limits (Ty.fields d) vs = true ->
  Ty.fields_height (Ty.fields d) <= max_depth limits ->
  let sel := select_delta bitset d vs in
  let msg := encode_size (zlen bitset) is_be ++ bitset ++ encode_entries sel is_be in
  fst (decode_structure_with_bitset is_be limits (msg ++ rest) d s)
  = Ok (Val.Structure sel, zlen msg).
Proof. intros. now apply delta_encode. Qed.

(** Bit 3 of the sample structure is [b.c]. *)
Lemma delta_roundtrip_witness :
  fst (decode_structure_with_bitset false default_limits [1; 8; 3; 120; 121; 122; 255]
         sample_desc (with_limits default_limits))
  = Ok (Val.Structure [(str "b", Val.Structure [(str "c", Val.String (str "xyz"))])], 6).
Proof.
  apply (delta_roundtrip false default_limits sample_desc sample_fields [8] [255]).
  - exact PvdSafety.default_limits_ok.
  - apply PvdSafety.idle_with_limits.
  - vm_compute. split; discriminate.
  - vm_compute. reflexivity.
  - vm_compute. discriminate.
Defined.

(** A full update, the all-ones bitset of a structure followed by the whole
    value, is decoded to the whole value by the delta decoder. *)
Theorem full_update_roundtrip is_be limits d vs rest s :
  PvdSafety.limits_ok limits -> PvdSafety.idle limits s ->
  1 + Ty.count_structure_fields d <= u32_max ->
  fields_match limits (Ty.fields d) vs = true ->
  Ty.fields_height (Ty.fields d) <= max_depth limits ->
  fst (decode_structure_with_bitset is_be limits (full_update d vs is_be ++ rest) d s)
  = Ok (Val.Structure vs, zlen (full_update d vs is_be)).
Proof. apply full_update_encode. Qed.

Lemma full_update_roundtrip_witness :
  fst (decode_structure_with_bitset true default_limits
         (full_update sample_desc sample_fields true) sample_desc (with_limits default_limits))
  = Ok (Val.Structure sample_fields, 19).
Proof.
  rewrite <- (app_nil_r (full_update _ _ _)).
  apply (full_update_roundtrip true default_limits sample_desc sample_fields []).
  - exact PvdSafety.default_limits_ok.
  - apply PvdSafety.idle_with_limits.
  - vm_compute. discriminate.
  - vm_compute. reflexivity.
  - vm_compute. discriminate.
Defined.

End PvdDelta.
