(* ===== verification/Monitor.v ===== *)
(** * Monitor updates

    Models [spvirit-codec/src/monitor.rs]: the bit-indexed path table, the
    specification-order decoder of the live path and the lenient decoder that
    tries every known layout and keeps the most plausible one. *)

From stdpp Require Import gmap.
From S2P Require Import Prelude Utf8 Wire PvdTypes PvdEncode PvdDecode PvdSafety PvdRoundtrip PvdDelta.

Local Open Scope Z_scope.

Module Monitor.
Import Wire PvdDecode PvdEncode.
Local Open Scope codec_scope.

(** ** Path tables *)

(** [if prefix.is_empty() { name } else { format!("{prefix}.{name}") }]. *)
Definition join_path (prefix name : bytes) : bytes :=
  match prefix with [] => name | _ => prefix ++ str "." ++ name end.

Fixpoint flatten_field_paths (desc : Ty.StructureDesc) (prefix : bytes) (out : list bytes) : list bytes :=
  (fix go (fs : list Ty.FieldDesc) (out : list bytes) : list bytes :=
    match fs with
    | [] => out
    | f :: fs =>
      let path := join_path prefix (Ty.name f) in
      let out := out ++ [path] in
      go fs (match Ty.field_type f with
             | Ty.Structure nested => flatten_field_paths nested path out
             | _ => out
             end)
    end) (Ty.fields desc) out.

Definition WHOLE : bytes := str "<whole structure>".

Definition bit_paths (desc : Ty.StructureDesc) : list bytes := flatten_field_paths desc [] [WHOLE].

(** [paths.iter().enumerate().filter(..).map(..)], from bit [i]. *)
Fixpoint select_paths_from (i : Z) (paths : list bytes) (bits : bytes) : list bytes :=
  match paths with
  | [] => []
  | p :: paths =>
    (if bit_set bits i then [p] else []) ++ select_paths_from (i + 1) paths bits
  end.

Definition select_paths (paths : list bytes) (bits : bytes) : list bytes :=
  select_paths_from 0 paths bits.

(** ** Updates *)

Record MonitorUpdate := mkUpdate {
  value : Val.DecodedValue;
  changed : bytes;
  overrun : bytes;
  consumed : Z;
  paths : list bytes;
}.

Inductive MonitorLayout := SpecOrder | OverrunBeforeData | ChangedOnly.

Definition has_overrun (u : MonitorUpdate) : bool := existsb (fun b => negb (b =? 0)) (overrun u).
Definition overrun_fields (u : MonitorUpdate) (desc : Ty.StructureDesc) : list bytes :=
  select_paths (bit_paths desc) (overrun u).
Definition changed_paths (u : MonitorUpdate) : list bytes := select_paths (paths u) (changed u).
Definition overrun_paths (u : MonitorUpdate) : list bytes := select_paths (paths u) (overrun u).

Section Decode.
Context (is_be : bool) (limits : DecodeLimits).

Definition read_bitset (data : bytes) (offset : Z) : M (bytes * Z) :=
  if offset >? zlen data then fail (Truncated offset (zlen data)) else
  let! d := lift (slice_from data offset) in
  let! (size, consumed) := decode_size is_be d in
  let start := offset + consumed in
  let end_ := start + size in
  if end_ >? zlen data then fail (Truncated end_ (zlen data)) else
  let! b := lift (slice data start end_) in
  ret (b, end_).

Definition decode_monitor_update_with_paths (data : bytes) (desc : Ty.StructureDesc)
    (paths : list bytes) : M MonitorUpdate :=
  let! (changed, offset) := read_bitset data 0 in
  let! d := lift (slice_from data offset) in
  let! (value, consumed) := decode_structure_with_bitset_body is_be limits d desc changed in
  let offset := offset + consumed in
  let! (overrun, next) := read_bitset data offset in
  ret (mkUpdate value changed overrun next paths).

Definition decode_monitor_update (data : bytes) (desc : Ty.StructureDesc) : M MonitorUpdate :=
  decode_monitor_update_with_paths data desc (bit_paths desc).

Definition decode_overrun_before_data (data : bytes) (desc : Ty.StructureDesc)
    (paths : list bytes) : M MonitorUpdate :=
  let! (changed, offset) := read_bitset data 0 in
  let! (overrun, offset) := read_bitset data offset in
  let! d := lift (slice_from data offset) in
  let! (value, consumed) := decode_structure_with_bitset_body is_be limits d desc changed in
  ret (mkUpdate value changed overrun (offset + consumed) paths).

Definition decode_changed_only (data : bytes) (desc : Ty.StructureDesc)
    (paths : list bytes) : M MonitorUpdate :=
  let! (changed, offset) := read_bitset data 0 in
  let! d := lift (slice_from data offset) in
  let! (value, consumed) := decode_structure_with_bitset_body is_be limits d desc changed in
  ret (mkUpdate value changed [] (offset + consumed) paths).

(** *** Plausibility *)

(** [secs.abs() > 10_000_000_000], where [abs] overflows on [i64::MIN]. *)
Definition far_timestamp (secs : Z) : DecodeResult bool :=
  if secs =? - 2 ^ 63 then Panic else Ok (Z.abs secs >? 10000000000).

Fixpoint find_seconds (fields : list (bytes * Val.DecodedValue)) : option Z :=
  match fields with
  | [] => None
  | (n, v) :: fields =>
    match v with
    | Val.Int64 s => if bool_decide (n = str "secondsPastEpoch") then Some s else find_seconds fields
    | _ => find_seconds fields
    end
  end.

Definition score_value (v : Val.DecodedValue) : Z :=
  match v with
  | Val.Array [] => -2
  | Val.Array items => 6 + Z.min (zlen items) 8
  | Val.Structure _ => 1
  | _ => 2
  end.

Definition score_timestamp (v : Val.DecodedValue) : DecodeResult Z :=
  match v with
  | Val.Structure ts =>
    match find_seconds ts with
    | Some secs =>
      if (0 <=? secs) && (secs <=? 4000000000) then Ok 2
      else let? far := far_timestamp secs in Ok (if far then -2 else 0)
    | None => Ok 0
    end
  | _ => Ok 0
  end.

(** The [for (name, val) in fields] loop: the score and the three flags. *)
Fixpoint score_loop (fields : list (bytes * Val.DecodedValue)) (score : Z)
    (has_value has_alarm has_ts : bool) : DecodeResult (Z * bool * bool * bool) :=
  match fields with
  | [] => Ok (score, has_value, has_alarm, has_ts)
  | (name, val) :: fields =>
    if bool_decide (name = str "value") then
      score_loop fields (score + 4 + score_value val) true has_alarm has_ts
    else if bool_decide (name = str "alarm") then
      score_loop fields (score + 2) has_value true has_ts
    else if bool_decide (name = str "timeStamp") then
      let? t := score_timestamp val in
      score_loop fields (score + 2 + t) has_value has_alarm true
    else if bool_decide (name = str "display") || bool_decide (name = str "control") then
      score_loop fields (score + 1) has_value has_alarm has_ts
    else score_loop fields score has_value has_alarm has_ts
  end.

Definition score_decoded (v : Val.DecodedValue) : DecodeResult Z :=
  match v with
  | Val.Structure fields =>
    let? (score, has_value, has_alarm, has_ts) := score_loop fields (zlen fields) false false false in
    let score := if has_value then score else score - 2 in
    let score := if has_alarm then score else score - 1 in
    Ok (if has_ts then score else score - 1)
  | _ => Ok (-1)
  end.

(** *** The lenient decoder *)

Definition best_of := (option (MonitorUpdate * MonitorLayout * Z))%type.

Definition better (u : MonitorUpdate) (score : Z) (best : best_of) : bool :=
  match best with
  | None => true
  | Some (prev, _, prev_score) =>
    (score >? prev_score) || ((score =? prev_score) && (consumed u >? consumed prev))
  end.

Fixpoint pick_best (candidates : list (MonitorLayout * (MonitorUpdate + DecodeError)))
    (best : best_of) (last_err : DecodeError) : DecodeResult (MonitorUpdate * MonitorLayout) :=
  match candidates with
  | [] =>
    match best with
    | Some (u, l, _) => Ok (u, l)
    | None => Err last_err
    end
  | (layout, inl u) :: candidates =>
    let? score := score_decoded (value u) in
    pick_best candidates (if better u score best then Some (u, layout, score) else best) last_err
  | (_, inr e) :: candidates => pick_best candidates best e
  end.

Definition decode_monitor_update_lenient (data : bytes) (desc : Ty.StructureDesc)
  : M (MonitorUpdate * MonitorLayout) :=
  let paths := bit_paths desc in
  let! a := try (decode_monitor_update_with_paths data desc paths) in
  let! b := try (decode_overrun_before_data data desc paths) in
  let! c := try (decode_changed_only data desc paths) in
  lift (pick_best [(SpecOrder, a); (OverrunBeforeData, b); (ChangedOnly, c)] None
          (Malformed (str "no monitor layout matched"))).

End Decode.
(** ** The path table is in step with the bit numbering *)

(** For each field in bit order its path, then the paths below it. *)
Fixpoint paths_spec (desc : Ty.StructureDesc) (prefix : bytes) : list bytes :=
  concat (map (fun f =>
    let path := join_path prefix (Ty.name f) in
    path :: match Ty.field_type f with
            | Ty.Structure nested => paths_spec nested path
            | _ => []
            end) (Ty.fields desc)).

Lemma flatten_field_paths_spec desc : forall prefix out,
  flatten_field_paths desc prefix out = out ++ paths_spec desc prefix.
Proof.
  induction desc as [[i fs] IH] using Ty.StructureDesc_nested_ind. cbn in *.
  induction IH as [|f fs Hf _ IHfs]; intros prefix out; cbn; [by rewrite app_nil_r|].
  rewrite IHfs. destruct (Ty.field_type f); rewrite ?Hf; cbn; by rewrite <- ?app_assoc.
Qed.

Lemma paths_spec_length desc : forall prefix,
  zlen (paths_spec desc prefix) = Ty.count_structure_fields desc.
Proof.
  induction desc as [[i fs] IH] using Ty.StructureDesc_nested_ind. cbn in *. intros prefix.
  induction IH as [|f fs Hf _ IHfs]; cbn; [done|].
  rewrite zlen_cons, zlen_app, IHfs. destruct (Ty.field_type f); rewrite ?Hf, ?zlen_nil; lia.
Qed.

Lemma elem_select_paths p paths bits : forall i,
  p ∈ select_paths_from i paths bits <->
  exists k, paths !! k = Some p /\ bit_set bits (i + Z.of_nat k) = true.
Proof.
  induction paths as [|q paths IH]; intros i; cbn [select_paths_from].
  { split; [intros []%not_elem_of_nil|intros (k & Hk & _); discriminate Hk]. }
  rewrite elem_of_app, IH. split.
  - intros [H|(k & Hk & Hb)].
    + destruct (bit_set bits i) eqn:E; [|by apply not_elem_of_nil in H].
      apply list_elem_of_singleton in H as ->. exists O. now rewrite Z.add_0_r.
    + exists (S k). split; [done|]. rewrite <- Hb. f_equal. lia.
  - intros ([|k] & Hk & Hb).
    + left. injection Hk as ->. rewrite Z.add_0_r in Hb. rewrite Hb. now apply list_elem_of_singleton.
    + right. exists k. split; [done|]. rewrite <- Hb. f_equal. lia.
Qed.

(** The path table numbers fields as the decoder does: entry 0 is the whole
    structure, then every field depth first, itself before its nested fields;
    it has one entry per bit, and a path is reported as changed (or overrun)
    exactly when it is the entry of a bit that is set. *)
Theorem bit_paths_in_step desc bits p :
  bit_paths desc = WHOLE :: paths_spec desc [] /\
  zlen (bit_paths desc) = 1 + Ty.count_structure_fields desc /\
  (p ∈ select_paths (bit_paths desc) bits <->
   exists k, bit_paths desc !! k = Some p /\ bit_set bits (Z.of_nat k) = true).
Proof.
  unfold bit_paths. rewrite flatten_field_paths_spec. cbn [app].
  split; [done|]. rewrite zlen_cons, paths_spec_length. split; [done|].
  apply (elem_select_paths p _ bits 0).
Qed.

(** ** Decoding a specification-order update *)

Definition encode_bitset (bitset : bytes) (is_be : bool) : bytes :=
  encode_size (zlen bitset) is_be ++ bitset.

Section Messages.
Context (is_be : bool) (limits : DecodeLimits).

Lemma runs_read_bitset pre bitset rest s :
  zlen bitset <= u32_max ->
  PvdRoundtrip.runs (read_bitset is_be (pre ++ encode_bitset bitset is_be ++ rest) (zlen pre)) s
    (bitset, zlen (pre ++ encode_bitset bitset is_be)) s.
Proof.
  intros Hb. unfold read_bitset, encode_bitset. rewrite <- app_assoc.
  pose proof (zlen_nonneg bitset). pose proof (zlen_nonneg rest). pose proof (zlen_nonneg pre).
  pose proof (encode_size_pos (zlen bitset) is_be).
  set (e := encode_size (zlen bitset) is_be) in *. rewrite !zlen_app.
  destruct (_ >? _) eqn:E; bool_to_prop; [lia|]. clear E.
  eapply PvdRoundtrip.runs_bind; [now apply PvdRoundtrip.runs_slice_from|]. cbn beta iota.
  eapply PvdRoundtrip.runs_bind; [apply PvdRoundtrip.runs_decode_size; lia|]. cbn beta iota. fold e.
  destruct (_ >? _) eqn:E; bool_to_prop; [lia|]. clear E.
  eapply (PvdRoundtrip.runs_bind _ _ _ bitset).
  - apply PvdRoundtrip.runs_lift. rewrite slice_ok by (rewrite ?zlen_app; lia).
    rewrite app_assoc, <- zlen_app, drop_app_zlen.
    replace (_ - _) with (zlen bitset) by lia. now rewrite take_app_zlen.
  - rewrite Z.add_assoc. apply PvdRoundtrip.runs_ret.
Qed.

Lemma monitor_runs d vs bitset overrun rest s :
  PvdSafety.limits_ok limits -> PvdSafety.idle limits s ->
  zlen bitset <= u32_max -> zlen overrun <= u32_max ->
  PvdRoundtrip.fields_match limits (Ty.fields d) vs = true ->
  Ty.fields_height (Ty.fields d) <= max_depth limits ->
  let sel := PvdDelta.select_delta bitset d vs in
  let msg := encode_bitset bitset is_be ++ PvdDelta.encode_entries sel is_be
             ++ encode_bitset overrun is_be in
  exists s', PvdRoundtrip.runs (decode_monitor_update is_be limits (msg ++ rest) d) s
               (mkUpdate (Val.Structure sel) bitset overrun (zlen msg) (bit_paths d)) s' /\ PvdSafety.idle limits s'.
Proof.
  intros Hl Hi Hb Ho Hm Hh sel msg. subst msg. rewrite <- !app_assoc.
  set (eb := encode_bitset bitset is_be). set (ee := PvdDelta.encode_entries sel is_be).
  set (eo := encode_bitset overrun is_be).
  destruct (PvdDelta.delta_body_runs is_be limits Hl d vs bitset (eo ++ rest) s Hi Hm Hh) as (s' & Hbody & Hi').
  exists s'. split; [|done]. unfold decode_monitor_update, decode_monitor_update_with_paths.
  eapply PvdRoundtrip.runs_bind; [exact (runs_read_bitset [] bitset (ee ++ eo ++ rest) s Hb)|]. cbn beta iota.
  rewrite app_nil_l. fold eb.
  eapply PvdRoundtrip.runs_bind; [now apply PvdRoundtrip.runs_slice_from|].
  eapply PvdRoundtrip.runs_bind; [exact Hbody|]. cbn beta iota zeta. fold sel ee.
  pose proof (runs_read_bitset (eb ++ ee) overrun rest s' Ho) as H1. fold eo in H1.
  rewrite zlen_app, <- !app_assoc in H1.
  eapply PvdRoundtrip.runs_bind; [exact H1|]. apply PvdRoundtrip.runs_ret.
Qed.

Lemma monitor_encode d vs bitset overrun rest s :
  PvdSafety.limits_ok limits -> PvdSafety.idle limits s ->
  zlen bitset <= u32_max -> zlen overrun <= u32_max ->
  PvdRoundtrip.fields_match limits (Ty.fields d) vs = true ->
  Ty.fields_height (Ty.fields d) <= max_depth limits ->
  let sel := PvdDelta.select_delta bitset d vs in
  let msg := encode_bitset bitset is_be ++ PvdDelta.encode_entries sel is_be
             ++ encode_bitset overrun is_be in
  fst (decode_monitor_update is_be limits (msg ++ rest) d s)
  = Ok (mkUpdate (Val.Structure sel) bitset overrun (zlen msg) (bit_paths d)).
Proof.
  intros Hl Hi Hb Ho Hm Hh sel msg.
  destruct (monitor_runs d vs bitset overrun rest s Hl Hi Hb Ho Hm Hh) as (s' & H & _).
  unfold PvdRoundtrip.runs in H. fold sel in H. fold msg in H. now rewrite H.
Qed.

End Messages.

(** A MONITOR update in specification order (changed bitset, the selected
    fields, overrun bitset) is decoded to exactly the selected fields and both
    bitsets, with the path table of the descriptor, and all of it is
    consumed. *)
Theorem monitor_roundtrip is_be limits d vs bitset overrun rest s :
  PvdSafety.limits_ok limits -> PvdSafety.idle limits s ->
  zlen bitset <= u32_max -> zlen overrun <= u32_max ->
  PvdRoundtrip.fields_match limits (Ty.fields d) vs = true ->
  Ty.fields_height (Ty.fields d) <= max_depth limits ->
  let sel := PvdDelta.select_delta bitset d vs in
  let msg := encode_bitset bitset is_be ++ PvdDelta.encode_entries sel is_be
             ++ encode_bitset overrun is_be in
  fst (decode_monitor_update is_be limits (msg ++ rest) d s)
  = Ok (mkUpdate (Val.Structure sel) bitset overrun (zlen msg) (bit_paths d)).
Proof. apply monitor_encode. Qed.

(** Bit 1 of the sample structure is [a]; the overrun bitset is empty. *)
Lemma monitor_roundtrip_witness :
  fst (decode_monitor_update false default_limits [1; 2; 251; 255; 255; 255; 0]
         PvdRoundtrip.sample_desc (with_limits default_limits))
  = Ok (mkUpdate (Val.Structure [(str "a", Val.Int32 (-5))]) [2] [] 7
          [WHOLE; str "a"; str "b"; str "b.c"; str "b.d"]).
Proof.
  apply (monitor_roundtrip false default_limits PvdRoundtrip.sample_desc PvdRoundtrip.sample_fields [2] [] []).
  - exact PvdSafety.default_limits_ok.
  - apply PvdSafety.idle_with_limits.
  - vm_compute. discriminate.
  - vm_compute. discriminate.
  - vm_compute. reflexivity.
  - vm_compute. discriminate.
Defined.

(** ** Safety of the monitor decoders *)

Section Safety.
Context (is_be : bool) (limits : DecodeLimits).
Hypothesis Hlim : PvdSafety.limits_ok limits.
Import PvdSafety.

Lemma safe_read_bitset data offset s (Q : bytes * Z -> PvdDecoder -> Prop) :
  bytes_ok data -> 0 <= offset -> idle limits s ->
  (forall b o, offset < o <= zlen data -> Q (b, o) s) ->
  wp (read_bitset is_be data offset) s Q (fun _ s' => idle limits s').
Proof.
  intros Hd Ho Hi HQ. unfold read_bitset. apply wp_if; intros E; bool_to_prop; [done|].
  apply wp_bind, wp_slice_from; [lia|]. cbn beta iota. apply wp_bind.
  apply wp_decode_size; [auto with codec| |done]. intros n c Hn Hc. cbn beta iota.
  rewrite zlen_drop in Hc by lia. apply wp_if; intros E'; bool_to_prop; [done|].
  apply wp_bind. rewrite slice_ok by lia. apply wp_lift_ok, wp_ret, HQ. lia.
Qed.

(** The delta decoder at an offset, then [k]. *)
Lemma safe_body_at {A} data offset desc bitset (k : Val.DecodedValue * Z -> M A) s (Q : A -> PvdDecoder -> Prop) :
  bytes_ok data -> 0 <= offset <= zlen data -> idle limits s ->
  (forall v c s', idle limits s' -> 0 <= c -> offset + c <= zlen data ->
     wp (k (v, c)) s' Q (fun _ s' => idle limits s')) ->
  wp (bind (lift (slice_from data offset)) (fun d =>
      bind (decode_structure_with_bitset_body is_be limits d desc bitset) k)) s Q
    (fun _ s' => idle limits s').
Proof.
  intros Hd Ho Hi Hk. apply wp_bind, wp_slice_from; [lia|]. apply wp_bind.
  eapply wp_conseq; [apply safe_bitset_body; auto with codec| |auto].
  intros [v c] s' [? Hc]. rewrite zlen_drop in Hc by lia. apply Hk; auto; lia.
Qed.

Definition update_post (data : bytes) (u : MonitorUpdate) (s' : PvdDecoder) : Prop :=
  idle limits s' /\ 0 <= consumed u <= zlen data.

Lemma safe_update data desc ps s :
  bytes_ok data -> idle limits s ->
  wp (decode_monitor_update_with_paths is_be limits data desc ps) s (update_post data)
    (fun _ s' => idle limits s').
Proof.
  intros Hd Hi. apply wp_bind, safe_read_bitset; auto; [lia|]. intros b o Ho. cbn beta iota.
  apply (safe_body_at data o desc b); auto; [lia|]. intros v c s' Hi' ? ?. cbn beta iota zeta.
  apply wp_bind, safe_read_bitset; auto; [lia|]. intros b' o' ?. apply wp_ret. split; cbn; auto; lia.
Qed.

Lemma safe_overrun_before data desc ps s :
  bytes_ok data -> idle limits s ->
  wp (decode_overrun_before_data is_be limits data desc ps) s (update_post data)
    (fun _ s' => idle limits s').
Proof.
  intros Hd Hi. apply wp_bind, safe_read_bitset; auto; [lia|]. intros b o Ho. cbn beta iota.
  apply wp_bind, safe_read_bitset; auto; [lia|]. intros b' o' ?. cbn beta iota.
  apply (safe_body_at data o' desc b); auto; [lia|]. intros v c s' Hi' ? ?. cbn beta iota.
  apply wp_ret. split; cbn; auto; lia.
Qed.

Lemma safe_changed_only data desc ps s :
  bytes_ok data -> idle limits s ->
  wp (decode_changed_only is_be limits data desc ps) s (update_post data)
    (fun _ s' => idle limits s').
Proof.
  intros Hd Hi. apply wp_bind, safe_read_bitset; auto; [lia|]. intros b o Ho. cbn beta iota.
  apply (safe_body_at data o desc b); auto; [lia|]. intros v c s' Hi' ? ?. cbn beta iota.
  apply wp_ret. split; cbn; auto; lia.
Qed.

End Safety.

(** ** The lenient choice *)

(** [(u, score)] is at least as plausible as [(u', score')]. *)
Definition no_worse (u : MonitorUpdate) (score : Z) (u' : MonitorUpdate) (score' : Z) : Prop :=
  score' < score \/ (score' = score /\ consumed u' <= consumed u).

Definition scored (v : MonitorUpdate + DecodeError) (u : MonitorUpdate) (score : Z) : Prop :=
  v = inl u /\ score_decoded (value u) = Ok score.

Definition best_ok (seen : list (MonitorLayout * (MonitorUpdate + DecodeError))) (best : best_of) : Prop :=
  match best with
  | Some (u, l, score) =>
    (l, inl u) ∈ seen /\ score_decoded (value u) = Ok score /\
    forall l' r u' score', (l', r) ∈ seen -> scored r u' score' -> no_worse u score u' score'
  | None => forall l r, (l, r) ∈ seen -> exists e, r = inr e
  end.

Lemma best_ok_push seen best layout u score :
  best_ok seen best -> score_decoded (value u) = Ok score ->
  best_ok (seen ++ [(layout, inl u)]) (if better u score best then Some (u, layout, score) else best).
Proof.
  intros Hbest Hs. assert (Hkeep : forall l r, (l, r) ∈ seen ++ [(layout, inl u)] ->
    (l, r) ∈ seen \/ (l = layout /\ r = inl u)).
  { intros l r [H|H]%elem_of_app; [auto|]. apply list_elem_of_singleton in H as [= -> ->]. auto. }
  assert (Hmono : forall x, x ∈ seen -> x ∈ seen ++ [(layout, inl u)]) by (intros; apply elem_of_app; auto).
  destruct best as [[[prev l0] ps]|]; cbn in Hbest |- *.
  - destruct Hbest as (Hin & Hps & Hall).
    destruct (_ || _) eqn:E; cbn.
    + assert (no_worse u score prev ps) as Hnw.
      { apply orb_true_iff in E as [E|E]; bool_to_prop; unfold no_worse; lia. }
      split_and!; [apply elem_of_app; right; now apply list_elem_of_singleton|done|].
      intros l' r u' score' [H|[-> ->]]%Hkeep [Hr Hs'].
      * specialize (Hall _ _ _ _ H (conj Hr Hs')). unfold no_worse in *. lia.
      * injection Hr as <-. rewrite Hs in Hs'. injection Hs' as <-. unfold no_worse. lia.
    + split_and!; [auto|done|]. intros l' r u' score' [H|[-> ->]]%Hkeep [Hr Hs']; [by eapply Hall|].
      injection Hr as <-. rewrite Hs in Hs'. injection Hs' as <-. unfold no_worse.
      apply orb_false_iff in E as [E1 E2]. bool_to_prop.
      destruct (Z.eqb_spec score ps); cbn in E2; bool_to_prop; lia.
  - split_and!; [apply elem_of_app; right; now apply list_elem_of_singleton|done|].
    intros l' r u' score' [H|[-> ->]]%Hkeep [Hr Hs'].
    + destruct (Hbest _ _ H) as [e ->]. discriminate Hr.
    + injection Hr as <-. rewrite Hs in Hs'. injection Hs' as <-. unfold no_worse. lia.
Qed.

Lemma best_ok_error seen best layout e :
  best_ok seen best -> best_ok (seen ++ [(layout, inr e)]) best.
Proof.
  destruct best as [[[prev l0] ps]|]; cbn.
  - intros (Hin & Hps & Hall). split_and!; [apply elem_of_app; auto|done|].
    intros l' r u' score' [H|H]%elem_of_app Hsc; [by eapply Hall|].
    apply list_elem_of_singleton in H as [= -> ->]. destruct Hsc as [Hr _]. discriminate Hr.
  - intros Hall l r [H|H]%elem_of_app; [eauto|]. apply list_elem_of_singleton in H as [= -> ->]. eauto.
Qed.

(** Scoring fails only by overflow, on a timestamp of [i64::MIN] seconds. *)
Definition min_timestamp (v : Val.DecodedValue) : Prop :=
  exists fs ts, v = Val.Structure fs /\ (str "timeStamp", Val.Structure ts) ∈ fs /\
    find_seconds ts = Some (- 2 ^ 63).

Lemma score_timestamp_cases v :
  match score_timestamp v with
  | Ok _ => True
  | Panic => exists ts, v = Val.Structure ts /\ find_seconds ts = Some (- 2 ^ 63)
  | _ => False
  end.
Proof.
  unfold score_timestamp, far_timestamp. repeat (case_match; cbn [bind_outcome] in *; simplify_eq; try done).
  bool_to_prop. subst. eauto.
Qed.

Lemma score_loop_cases fs : forall z b1 b2 b3,
  match score_loop fs z b1 b2 b3 with
  | Ok _ => True
  | Panic => exists ts, (str "timeStamp", Val.Structure ts) ∈ fs /\ find_seconds ts = Some (- 2 ^ 63)
  | _ => False
  end.
Proof.
  induction fs as [|[n v] fs IH]; intros z b1 b2 b3; cbn [score_loop]; [done|].
  assert (forall z b1 b2 b3, match score_loop fs z b1 b2 b3 with
    | Ok _ => True
    | Panic => exists ts, (str "timeStamp", Val.Structure ts) ∈ (n, v) :: fs /\
                          find_seconds ts = Some (- 2 ^ 63)
    | _ => False end) as IH'.
  { intros z' x y w. specialize (IH z' x y w). destruct (score_loop fs z' x y w); auto.
    destruct IH as (ts & ? & ?). exists ts. split; [now right|done]. }
  do 2 (case_bool_decide; [apply IH'|]). case_bool_decide as Hn;
    [|destruct (bool_decide (n = str "display") || _); apply IH'].
  pose proof (score_timestamp_cases v) as Ht. destruct (score_timestamp v); cbn [bind_outcome];
    [apply IH'|done| |done].
  destruct Ht as (ts & -> & ?). exists ts. split; [subst; left|done].
Qed.

Lemma score_decoded_cases v :
  match score_decoded v with
  | Ok _ => True
  | Panic => min_timestamp v
  | _ => False
  end.
Proof.
  unfold score_decoded. destruct v as [| | | | | | | | | | | | | |fs|]; try done.
  pose proof (score_loop_cases fs (zlen fs) false false false) as H.
  destruct (score_loop _ _ _ _ _) as [[[[? ?] ?] ?]|?| |]; cbn; auto.
  destruct H as (ts & ? & ?). exists fs, ts. auto.
Qed.

Lemma pick_best_spec todo : forall seen best err,
  best_ok seen best ->
  match pick_best todo best err with
  | Ok (u, l) => exists score, best_ok (seen ++ todo) (Some (u, l, score))
  | Err _ => best_ok (seen ++ todo) None
  | Panic => exists l u, (l, inl u) ∈ todo /\ min_timestamp (value u)
  | OutOfFuel => False
  end.
Proof.
  induction todo as [|[layout [u|e]] todo IH]; intros seen best err Hbest; cbn [pick_best].
  - rewrite app_nil_r. destruct best as [[[u l] sc]|]; eauto.
  - pose proof (score_decoded_cases (value u)) as Hcase.
    destruct (score_decoded (value u)) as [sc|e| |] eqn:Es; cbn [bind_outcome]; try done.
    + specialize (IH _ _ err (best_ok_push seen best layout u sc Hbest Es)).
      rewrite <- app_assoc in IH. cbn [app] in IH. destruct (pick_best _ _ _) as [[? ?]|?| |]; auto;
        destruct IH as (l & u' & ? & ?); exists l, u'; split; auto; now right.
    + exists layout, u. split; [now left|done].
  - specialize (IH _ _ e (best_ok_error seen best layout e Hbest)).
    rewrite <- app_assoc in IH. cbn [app] in IH. destruct (pick_best _ _ _) as [[? ?]|?| |]; auto;
      destruct IH as (l & u' & ? & ?); exists l, u'; split; auto; now right.
Qed.

(** What each of the three attempts reports. *)
Definition attempt (is_be : bool) (limits : DecodeLimits) (data : bytes) (desc : Ty.StructureDesc)
    (l : MonitorLayout) (s : PvdDecoder) : DecodeResult (MonitorUpdate + DecodeError) * PvdDecoder :=
  match l with
  | SpecOrder => try (decode_monitor_update_with_paths is_be limits data desc (bit_paths desc)) s
  | OverrunBeforeData => try (decode_overrun_before_data is_be limits data desc (bit_paths desc)) s
  | ChangedOnly => try (decode_changed_only is_be limits data desc (bit_paths desc)) s
  end.

Lemma attempt_ok is_be limits data desc l s :
  PvdSafety.limits_ok limits -> bytes_ok data -> PvdSafety.idle limits s ->
  exists r s', attempt is_be limits data desc l s = (Ok r, s') /\ PvdSafety.idle limits s' /\
    (forall u, r = inl u -> 0 <= consumed u <= zlen data).
Proof.
  intros Hl Hd Hi.
  assert (forall m : M MonitorUpdate,
    PvdSafety.wp m s (update_post limits data) (fun _ s' => PvdSafety.idle limits s') ->
    exists r s', try m s = (Ok r, s') /\ PvdSafety.idle limits s' /\
      (forall u, r = inl u -> 0 <= consumed u <= zlen data)) as H.
  { intros m. unfold PvdSafety.wp, try. destruct (m s) as [[u|e| |] s']; try done.
    - intros [? ?]. exists (inl u), s'. split_and!; auto. now intros ? [= <-].
    - intros ?. exists (inr e), s'. split_and!; auto. done. }
  destruct l; apply H.
  - now apply safe_update.
  - now apply safe_overrun_before.
  - now apply safe_changed_only.
Qed.

(** Decoding a MONITOR update from any bytes on an idle decoder does not
    panic; the decoder is idle afterwards and the consumed count is inside the
    input. *)
Theorem monitor_update_safe is_be limits data desc s :
  PvdSafety.limits_ok limits -> bytes_ok data -> PvdSafety.idle limits s ->
  match decode_monitor_update is_be limits data desc s with
  | (Ok u, s') => PvdSafety.idle limits s' /\ 0 <= consumed u <= zlen data
  | (Err _, s') => PvdSafety.idle limits s'
  | (Panic, _) | (OutOfFuel, _) => False
  end.
Proof.
  intros Hl Hd Hi. pose proof (safe_update is_be limits Hl data desc (bit_paths desc) s Hd Hi) as H.
  unfold PvdSafety.wp in H. unfold decode_monitor_update.
  now destruct (decode_monitor_update_with_paths _ _ _ _ _ _) as [[] ?].
Qed.

Lemma monitor_update_safe_witness :
  exists e s', decode_monitor_update true default_limits [1; 2] PvdRoundtrip.sample_desc
      (with_limits default_limits) = (Err e, s') /\ PvdSafety.idle default_limits s'.
Proof.
  pose proof (monitor_update_safe true default_limits [1; 2] PvdRoundtrip.sample_desc
    (with_limits default_limits) PvdSafety.default_limits_ok
    ltac:(repeat constructor; unfold byte_ok; lia) (PvdSafety.idle_with_limits _)) as H.
  destruct (decode_monitor_update _ _ _ _ _) as [[u|e| |] s'] eqn:E;
    [exfalso; vm_compute in E; discriminate E|eauto|done|done].
Defined.

(** The lenient decoder runs the three layouts on the same bytes and returns
    the attempt that scores highest, the one that consumed more on a tie; it
    fails only if all three do, and panics only when an attempt decoded a
    timestamp of [i64::MIN] seconds, whose absolute value overflows. *)
Theorem lenient_picks_best is_be limits data desc s :
  PvdSafety.limits_ok limits -> bytes_ok data -> PvdSafety.idle limits s ->
  exists a b c s1 s2 s3,
    attempt is_be limits data desc SpecOrder s = (Ok a, s1) /\
    attempt is_be limits data desc OverrunBeforeData s1 = (Ok b, s2) /\
    attempt is_be limits data desc ChangedOnly s2 = (Ok c, s3) /\
    PvdSafety.idle limits s3 /\
    let cands := [(SpecOrder, a); (OverrunBeforeData, b); (ChangedOnly, c)] in
    match decode_monitor_update_lenient is_be limits data desc s with
    | (Ok (u, l), s') => s' = s3 /\ exists score, best_ok cands (Some (u, l, score))
    | (Err _, s') => s' = s3 /\ best_ok cands None
    | (Panic, _) => exists l u, (l, inl u) ∈ cands /\ min_timestamp (value u)
    | (OutOfFuel, _) => False
    end.
Proof.
  intros Hl Hd Hi.
  destruct (attempt_ok is_be limits data desc SpecOrder s Hl Hd Hi) as (a & s1 & E1 & Hi1 & _).
  destruct (attempt_ok is_be limits data desc OverrunBeforeData s1 Hl Hd Hi1) as (b & s2 & E2 & Hi2 & _).
  destruct (attempt_ok is_be limits data desc ChangedOnly s2 Hl Hd Hi2) as (c & s3 & E3 & Hi3 & _).
  exists a, b, c, s1, s2, s3. split_and!; auto. cbn zeta. cbn [attempt] in E1, E2, E3.
  unfold decode_monitor_update_lenient, bind. rewrite E1, E2, E3. unfold lift.
  pose proof (pick_best_spec [(SpecOrder, a); (OverrunBeforeData, b); (ChangedOnly, c)] [] None
    (Malformed (str "no monitor layout matched"))) as H.
  cbn [app] in H. destruct (pick_best _ _ _) as [[u l]|e| |]; try (split; [done|]); apply H;
    cbn; intros ? ? []%not_elem_of_nil.
Qed.

(** The sample update, on which an attempt succeeds. *)
Lemma lenient_picks_best_witness :
  exists u l score a b c,
    fst (decode_monitor_update_lenient false default_limits [1; 2; 251; 255; 255; 255; 0]
           PvdRoundtrip.sample_desc (with_limits default_limits)) = Ok (u, l) /\
    best_ok [(SpecOrder, a); (OverrunBeforeData, b); (ChangedOnly, c)] (Some (u, l, score)).
Proof.
  destruct (lenient_picks_best false default_limits [1; 2; 251; 255; 255; 255; 0]
    PvdRoundtrip.sample_desc (with_limits default_limits) PvdSafety.default_limits_ok
    ltac:(repeat constructor; unfold byte_ok; lia) (PvdSafety.idle_with_limits _))
    as (a & b & c & s1 & s2 & s3 & _ & _ & _ & _ & H).
  destruct (decode_monitor_update_lenient _ _ _ _ _) as [[[u l]|e| |] s'] eqn:E;
    try (vm_compute in E; discriminate E).
  destruct H as [_ [score H]]. exists u, l, score, a, b, c. split; [done|exact H].
Defined.

(** A peer can make the lenient decoder overflow: the bytes below are a
    well-formed update whose time stamp is [i64::MIN] seconds. *)
Theorem lenient_min_timestamp_overflows :
  let desc := Ty.mkStruct None [Ty.mkField (str "timeStamp") (Ty.Structure (Ty.mkStruct None
    [Ty.mkField (str "secondsPastEpoch") (Ty.Scalar TypeCode.Int64)]))] in
  fst (decode_monitor_update_lenient true default_limits
         [1; 4; 128; 0; 0; 0; 0; 0; 0; 0; 0] desc (with_limits default_limits)) = Panic.
Proof. vm_compute. reflexivity. Qed.

End Monitor.
