(* ===== verification/PvRequest.v ===== *)
(** * pvRequest: field selection and transport options

    Models the pvRequest part of [spvirit-codec/src/spvd_encode.rs]: the path
    tree a request is turned into, pruning a descriptor by it, and the encoding
    and decoding of requests with [record._options]. *)

From stdpp Require Import gmap.
From S2P Require Import Prelude Utf8 Wire PvdTypes PvdEncode PvdDecode PvdSafety PvdRoundtrip.
From S2P Require Import Monitor.

Local Open Scope Z_scope.

Module PvRequest.
Import Wire PvdDecode PvdEncode.

(** ** Paths *)

(** [p.split('.')]. *)
Fixpoint split_dots (p : bytes) : list bytes :=
  match p with
  | [] => [[]]
  | b :: p =>
    if b =? 46 then [] :: split_dots p
    else match split_dots p with
         | part :: parts => (b :: part) :: parts
         | [] => [[b]]
         end
  end.

(** [p.split('.').filter(|s| !s.is_empty()).collect()]. *)
Definition path_parts (p : bytes) : list bytes :=
  filter (fun s => s <> []) (split_dots p).

(** ** The path tree *)

Inductive PathNode := mkNode (select_all : bool) (children : list (bytes * PathNode)).

Definition select_all (n : PathNode) : bool := match n with mkNode a _ => a end.
Definition children (n : PathNode) : list (bytes * PathNode) := match n with mkNode _ c => c end.
Definition default_node : PathNode := mkNode false [].

Fixpoint find_child (name : bytes) (cs : list (bytes * PathNode)) : option PathNode :=
  match cs with
  | [] => None
  | (n, c) :: cs => if bool_decide (n = name) then Some c else find_child name cs
  end.

Definition child (n : PathNode) (name : bytes) : option PathNode := find_child name (children n).

(** [child_mut(name)] with what the caller does to the node it returns: the
    first child of that name, or a new one at the end. *)
Fixpoint child_mut (name : bytes) (f : PathNode -> PathNode) (cs : list (bytes * PathNode))
  : list (bytes * PathNode) :=
  match cs with
  | [] => [(name, f default_node)]
  | (n, c) :: cs => if bool_decide (n = name) then (n, f c) :: cs else (n, c) :: child_mut name f cs
  end.

(** The inner loop of [build_path_tree]: descend along [parts]; the last one is
    selected whole and loses its children. *)
Fixpoint insert_parts (parts : list bytes) (node : PathNode) : PathNode :=
  match parts with
  | [] => node
  | part :: rest =>
    mkNode (select_all node)
      (child_mut part (fun c =>
         match rest with
         | [] => mkNode true []
         | _ => insert_parts rest c
         end) (children node))
  end.

Definition build_path_tree (paths : list bytes) : PathNode :=
  fold_left (fun root p => insert_parts (path_parts p) root) paths default_node.

(** ** Pruning a descriptor *)

Fixpoint prune_structure (desc : Ty.StructureDesc) (node : PathNode) : Ty.StructureDesc :=
  match desc with
  | Ty.mkStruct id fs =>
    if select_all node then desc
    else
      let keep f :=
        match f with
        | Ty.mkField nm ft =>
          match child node nm with
          | None => []
          | Some c =>
            if select_all c then [f]
            else
              match ft with
              | Ty.Structure inner =>
                let pruned := prune_structure inner c in
                match Ty.fields pruned with
                | [] => []
                | _ => [Ty.mkField nm (Ty.Structure pruned)]
                end
              | Ty.StructureArray inner =>
                let pruned := prune_structure inner c in
                match Ty.fields pruned with
                | [] => []
                | _ => [Ty.mkField nm (Ty.StructureArray pruned)]
                end
              | _ => []
              end
          end
        end in
      Ty.mkStruct id (concat (map keep fs))
  end.

Definition filter_structure_desc (desc : Ty.StructureDesc) (requested : list bytes) : Ty.StructureDesc :=
  match requested with
  | [] => desc
  | _ => prune_structure desc (build_path_tree requested)
  end.

(** ** Encoding a request *)

Fixpoint path_tree_to_field_descs (node : PathNode) : list Ty.FieldDesc :=
  match node with
  | mkNode _ cs =>
    map (fun nc =>
      Ty.mkField nc.1 (Ty.Structure (Ty.mkStruct None
        (if select_all nc.2 then [] else path_tree_to_field_descs nc.2)))) cs
  end.

(** The descriptor [encode_pv_request_with_options] writes. *)
Definition pv_request_desc (fields : list bytes) (options : list (bytes * bytes)) : Ty.StructureDesc :=
  let field_desc := Ty.mkStruct None (path_tree_to_field_descs (build_path_tree fields)) in
  let top_fields := [Ty.mkField (str "field") (Ty.Structure field_desc)] in
  Ty.mkStruct None
    (match options with
     | [] => top_fields
     | _ =>
       let options_desc := Ty.mkStruct None (map (fun kv => Ty.mkField kv.1 Ty.String) options) in
       let record_desc := Ty.mkStruct None
         [Ty.mkField (str "_options") (Ty.Structure options_desc)] in
       top_fields ++ [Ty.mkField (str "record") (Ty.Structure record_desc)]
     end).

Definition encode_pv_request_with_options (fields : list bytes) (options : list (bytes * bytes))
    (is_be : bool) : bytes :=
  0x80 :: encode_structure_desc (pv_request_desc fields options) is_be
  ++ concat (map (fun kv => encode_string kv.2 is_be) options).

Definition encode_pv_request (fields : list bytes) (is_be : bool) : bytes :=
  encode_pv_request_with_options fields [] is_be.

(** ** Decoding a request *)

(** [decoder.parse_introspection(body).ok()] on a new decoder. *)
Definition parse_request (body : bytes) (is_be : bool) : option Ty.StructureDesc :=
  outcome_ok (fst (parse_introspection is_be default_limits body (with_limits default_limits))).

Fixpoint collect_pv_request_paths (desc : Ty.StructureDesc) (prefix : bytes) (out : list bytes)
  : list bytes :=
  (fix go (fs : list Ty.FieldDesc) (out : list bytes) : list bytes :=
    match fs with
    | [] => out
    | f :: fs =>
      let joined := Monitor.join_path prefix (Ty.name f) in
      go fs (match Ty.field_type f with
             | Ty.Structure nested =>
               match Ty.fields nested with
               | [] => out ++ [joined]
               | _ => collect_pv_request_paths nested joined out
               end
             | _ => out ++ [joined]
             end)
    end) (Ty.fields desc) out.

(** The [for field in &desc.fields] loop: the first [field] structure decides. *)
Fixpoint requested_paths (fs : list Ty.FieldDesc) : option (list bytes) :=
  match fs with
  | [] => None
  | Ty.mkField nm ft :: fs =>
    match ft with
    | Ty.Structure inner =>
      if bool_decide (nm = str "field") then
        match Ty.fields inner with
        | [] => None
        | _ =>
          match collect_pv_request_paths inner [] [] with
          | [] => None
          | paths => Some paths
          end
        end
      else requested_paths fs
    | _ => requested_paths fs
    end
  end.

Definition decode_pv_request_fields (body : bytes) (is_be : bool) : option (list bytes) :=
  match body with
  | [] => None
  | _ =>
    match parse_request body is_be with
    | Some desc => requested_paths (Ty.fields desc)
    | None => None
    end
  end.

(** [fields.iter().find_map(..)]: the first structure field of that name. *)
Fixpoint find_structure {A} (name : bytes) (k : Ty.StructureDesc -> option A) (fs : list Ty.FieldDesc)
  : option A :=
  match fs with
  | [] => None
  | f :: fs =>
    let rest := find_structure name k fs in
    if bool_decide (Ty.name f = name) then
      match Ty.field_type f with
      | Ty.Structure inner => match k inner with Some a => Some a | None => rest end
      | _ => rest
      end
    else rest
  end.

Definition options_desc (desc : Ty.StructureDesc) : option Ty.StructureDesc :=
  find_structure (str "record") (fun inner =>
    find_structure (str "_options") Some (Ty.fields inner)) (Ty.fields desc).

(** [epics_decode::decode_string]: the lossy policy, the error dropped. *)
Definition decode_string_lossy (raw : bytes) (is_be : bool) : option (bytes * Z) :=
  outcome_ok (decode_string_prefixed raw is_be Lossy).

Fixpoint read_options (fs : list Ty.FieldDesc) (cursor : bytes) (is_be : bool)
  : option (list (bytes * bytes)) :=
  match fs with
  | [] => Some []
  | f :: fs =>
    match Ty.field_type f with
    | Ty.String =>
      match decode_string_lossy cursor is_be with
      | Some (s, consumed) =>
        match read_options fs (drop (Z.to_nat consumed) cursor) is_be with
        | Some out => Some ((Ty.name f, s) :: out)
        | None => None
        end
      | None => None
      end
    | _ => None
    end
  end.

Definition decode_pv_request_options (body : bytes) (is_be : bool) : option (list (bytes * bytes)) :=
  match body with
  | [] => None
  | _ =>
    match parse_request body is_be with
    | Some desc =>
      match options_desc desc with
      | Some opts =>
        let values_start := 1 + zlen (encode_structure_desc desc is_be) in
        if values_start >? zlen body then None
        else read_options (Ty.fields opts) (drop (Z.to_nat values_start) body) is_be
      | None => None
      end
    | None => None
    end
  end.

(** ** What a tree selects *)

(** Induction on a path tree. *)
Section Induction.
Context (P : PathNode -> Prop).
Hypothesis node : forall a cs, Forall (fun nc => P nc.2) cs -> P (mkNode a cs).

Fixpoint PathNode_tree_ind (n : PathNode) : P n.
Proof using node.
  destruct n as [a cs]. apply node. induction cs as [|nc cs IH]; constructor; [apply PathNode_tree_ind|exact IH].
Defined.
End Induction.

(** The field path [p] lies in a sub-tree the tree selects whole. *)
Fixpoint selects (node : PathNode) (p : list bytes) : bool :=
  select_all node ||
  match p with
  | [] => false
  | n :: p => match child node n with Some c => selects c p | None => false end
  end.

Lemma selects_unfold node p :
  selects node p = select_all node ||
    match p with
    | [] => false
    | n :: p => match child node n with Some c => selects c p | None => false end
    end.
Proof. now destruct p. Qed.

Fixpoint is_prefix (r p : list bytes) : bool :=
  match r, p with
  | [], _ => true
  | x :: r, y :: p => bool_decide (x = y) && is_prefix r p
  | _ :: _, [] => false
  end.

Lemma is_prefix_spec r p : is_prefix r p = true <-> r `prefix_of` p.
Proof.
  revert p. induction r as [|x r IH]; intros [|y p]; cbn.
  - split; [intros _; apply prefix_nil|done].
  - split; [intros _; apply prefix_nil|done].
  - split; [discriminate|intros H%prefix_nil_not; done].
  - rewrite andb_true_iff, bool_decide_eq_true, IH. split.
    + intros [-> ?]. now apply prefix_cons.
    + intros H. split; [by eapply prefix_cons_inv_1|by eapply prefix_cons_inv_2].
Qed.

Lemma find_child_mut name f cs n :
  find_child n (child_mut name f cs) =
  if bool_decide (n = name) then Some (f (default default_node (find_child name cs)))
  else find_child n cs.
Proof.
  induction cs as [|[m c] cs IH]; cbn [child_mut find_child].
  - cbn. destruct (decide (name = n)) as [->|]; rewrite ?bool_decide_true, ?bool_decide_false by congruence;
      done.
  - destruct (decide (m = name)) as [->|Hm].
    + rewrite !(bool_decide_true (name = name)) by done. cbn [find_child default].
      destruct (decide (name = n)) as [->|]; rewrite ?bool_decide_true, ?bool_decide_false by congruence;
        done.
    + rewrite (bool_decide_false (m = name)) by done. cbn [find_child]. rewrite IH.
      destruct (decide (m = n)) as [->|]; rewrite ?bool_decide_true, ?bool_decide_false by congruence;
        done.
Qed.

(** Adding a path adds exactly the sub-tree below it. *)
Lemma selects_insert parts : forall node p,
  parts <> [] -> selects (insert_parts parts node) p = selects node p || is_prefix parts p.
Proof.
  induction parts as [|part rest IH]; intros node p Hne; [done|].
  rewrite !selects_unfold. cbn [insert_parts select_all].
  destruct (select_all node); cbn [orb]; [done|].
  destruct p as [|n p]; [done|]. unfold child. cbn [children]. rewrite find_child_mut. cbn [is_prefix].
  rewrite (bool_decide_ext (part = n) (n = part)) by (split; congruence).
  case_bool_decide as Hn; cbn [andb]; [|now rewrite orb_false_r].
  subst n. destruct rest as [|r rest].
  - cbn [is_prefix]. rewrite orb_true_r. now rewrite selects_unfold.
  - rewrite IH by done. f_equal. destruct (find_child part (children node)); [done|]. now destruct p.
Qed.

(** What a list of requested paths selects. *)
Definition requested (paths : list bytes) (p : list bytes) : bool :=
  existsb (fun r => match path_parts r with [] => false | parts => is_prefix parts p end) paths.

Lemma selects_fold paths : forall root p,
  selects (fold_left (fun root r => insert_parts (path_parts r) root) paths root) p
  = selects root p || requested paths p.
Proof.
  induction paths as [|r paths IH]; intros root p; cbn [fold_left requested existsb].
  - now rewrite orb_false_r.
  - rewrite IH. fold (requested paths p). destruct (path_parts r) as [|x l] eqn:E; [done|].
    rewrite selects_insert by done. now rewrite orb_assoc.
Qed.

Lemma selects_build paths p : selects (build_path_tree paths) p = requested paths p.
Proof. unfold build_path_tree. rewrite selects_fold. now destruct p. Qed.

(** ** Leaves of a descriptor *)

(** The name paths of the leaf fields, through structures and structure
    arrays. *)
Fixpoint leaf_paths (desc : Ty.StructureDesc) : list (list bytes) :=
  match desc with
  | Ty.mkStruct _ fs =>
    concat (map (fun f =>
      match f with
      | Ty.mkField nm ft =>
        match ft with
        | Ty.Structure inner | Ty.StructureArray inner => map (cons nm) (leaf_paths inner)
        | _ => [[nm]]
        end
      end) fs)
  end.

Definition field_leaves (f : Ty.FieldDesc) : list (list bytes) :=
  match Ty.field_type f with
  | Ty.Structure inner | Ty.StructureArray inner => map (cons (Ty.name f)) (leaf_paths inner)
  | _ => [[Ty.name f]]
  end.

Lemma leaf_paths_fields id fs : leaf_paths (Ty.mkStruct id fs) = concat (map field_leaves fs).
Proof. cbn. f_equal. apply map_ext. now intros [nm []]. Qed.

Lemma elem_concat_map {A B} (f : A -> list B) l b :
  b ∈ concat (map f l) <-> exists a, a ∈ l /\ b ∈ f a.
Proof.
  induction l as [|x l IH]; cbn.
  - split; [intros []%not_elem_of_nil|intros (a & []%not_elem_of_nil & _)].
  - rewrite elem_of_app, IH. split.
    + intros [H|(a & ? & ?)]; [exists x; split; [left|done]|exists a; split; [now right|done]].
    + intros (a & [->|H]%elem_of_cons & ?); [auto|right; eauto].
Qed.

(** Induction along structures and structure arrays. *)
Lemma StructureDesc_deep_ind (P : Ty.StructureDesc -> Prop) :
  (forall d, Forall (fun f => match Ty.field_type f with
                              | Ty.Structure n | Ty.StructureArray n => P n | _ => True end)
               (Ty.fields d) -> P d) ->
  forall d, P d.
Proof.
  intros H d. apply H.
  apply (Ty.StructureDesc_fields_ind
    (fun ft => match ft with Ty.Structure n | Ty.StructureArray n => P n | _ => True end)).
  - intros [] E; try done; discriminate.
  - intros [] fs; cbn; try done; intros [= <-] IH; now apply H.
Qed.

(** What is left of one field. *)
Definition keep (node : PathNode) (f : Ty.FieldDesc) : list Ty.FieldDesc :=
  match child node (Ty.name f) with
  | None => []
  | Some c =>
    if select_all c then [f]
    else
      match Ty.field_type f with
      | Ty.Structure inner =>
        match Ty.fields (prune_structure inner c) with
        | [] => []
        | _ => [Ty.mkField (Ty.name f) (Ty.Structure (prune_structure inner c))]
        end
      | Ty.StructureArray inner =>
        match Ty.fields (prune_structure inner c) with
        | [] => []
        | _ => [Ty.mkField (Ty.name f) (Ty.StructureArray (prune_structure inner c))]
        end
      | _ => []
      end
  end.

Lemma prune_unfold id fs node :
  prune_structure (Ty.mkStruct id fs) node =
  if select_all node then Ty.mkStruct id fs else Ty.mkStruct id (concat (map (keep node) fs)).
Proof.
  cbn. destruct (select_all node); [done|]. do 2 f_equal. apply map_ext. now intros [nm ft].
Qed.

Lemma no_fields_no_leaves d : Ty.fields d = [] -> leaf_paths d = [].
Proof. destruct d as [i fs]. cbn. now intros ->. Qed.

Lemma field_leaves_head f p : p ∈ field_leaves f -> exists q, p = Ty.name f :: q.
Proof.
  unfold field_leaves. destruct (Ty.field_type f);
    rewrite ?list_elem_of_singleton, ?list_elem_of_fmap; intros H; subst; eauto;
    destruct H as (q & -> & _); eauto.
Qed.

Lemma singleton_leaves g p : (exists x, x ∈ [g] /\ p ∈ field_leaves x) <-> p ∈ field_leaves g.
Proof.
  split; [intros (x & ->%list_elem_of_singleton & ?); done|].
  intros. exists g. split; [now apply list_elem_of_singleton|done].
Qed.

(** Pruning a nested structure keeps the leaves its sub-tree selects. *)
Lemma keep_nested nm inner c (mk : Ty.StructureDesc -> Ty.FieldType) p :
  (forall d, field_leaves (Ty.mkField nm (mk d)) = map (cons nm) (leaf_paths d)) ->
  (forall q, q ∈ leaf_paths (prune_structure inner c) <->
             q ∈ leaf_paths inner /\ selects c q = true) ->
  (exists g, g ∈ match Ty.fields (prune_structure inner c) with
                 | [] => []
                 | _ => [Ty.mkField nm (mk (prune_structure inner c))]
                 end /\ p ∈ field_leaves g) <->
  (exists q, p = nm :: q /\ q ∈ leaf_paths inner /\ selects c q = true).
Proof.
  intros Hmk IH. destruct (Ty.fields (prune_structure inner c)) as [|x l] eqn:E.
  - split; [intros (g & []%not_elem_of_nil & _)|]. intros (q & _ & Hq). apply IH in Hq.
    rewrite no_fields_no_leaves in Hq by done. by apply not_elem_of_nil in Hq.
  - rewrite singleton_leaves, Hmk, list_elem_of_fmap. split.
    + intros (q & -> & Hq). exists q. split; [done|]. now apply IH.
    + intros (q & -> & Hq). exists q. split; [done|]. now apply IH.
Qed.

Lemma keep_leaves node f p :
  select_all node = false ->
  match Ty.field_type f with
  | Ty.Structure n | Ty.StructureArray n => forall node q,
      q ∈ leaf_paths (prune_structure n node) <-> q ∈ leaf_paths n /\ selects node q = true
  | _ => True
  end ->
  (exists g, g ∈ keep node f /\ p ∈ field_leaves g) <-> p ∈ field_leaves f /\ selects node p = true.
Proof.
  intros Ha IH. unfold keep.
  assert (Hsel : forall q, selects node (Ty.name f :: q) =
    match child node (Ty.name f) with Some c => selects c q | None => false end).
  { intros q. rewrite selects_unfold, Ha. done. }
  destruct (child node (Ty.name f)) as [c|] eqn:Ec.
  - destruct (select_all c) eqn:Eall.
    + rewrite singleton_leaves. split; [|tauto]. intros H. split; [done|].
      destruct (field_leaves_head f p H) as [q ->]. rewrite Hsel, selects_unfold, Eall. done.
    + destruct f as [nm ft]. cbn [Ty.name Ty.field_type] in *. unfold field_leaves at 2. cbn [Ty.name Ty.field_type].
      destruct ft as [| | | |inner|inner| | | | |];
        try (split; [intros (g & []%not_elem_of_nil & _)|];
             intros [->%list_elem_of_singleton H]; rewrite Hsel, selects_unfold, Eall in H; discriminate H).
      * rewrite (keep_nested nm inner c Ty.Structure) by auto. rewrite list_elem_of_fmap.
        split; [intros (q & -> & ? & ?); rewrite Hsel; eauto|].
        intros [(q & -> & ?) Hs]. rewrite Hsel in Hs. eauto.
      * rewrite (keep_nested nm inner c Ty.StructureArray) by auto. rewrite list_elem_of_fmap.
        split; [intros (q & -> & ? & ?); rewrite Hsel; eauto|].
        intros [(q & -> & ?) Hs]. rewrite Hsel in Hs. eauto.
  - split; [intros (g & []%not_elem_of_nil & _)|]. intros [H Hs].
    destruct (field_leaves_head f p H) as [q ->]. rewrite Hsel in Hs. discriminate Hs.
Qed.

Lemma prune_leaves d : forall node p,
  p ∈ leaf_paths (prune_structure d node) <-> p ∈ leaf_paths d /\ selects node p = true.
Proof.
  induction d as [[id fs] IH] using StructureDesc_deep_ind. cbn [Ty.fields] in IH. intros node p.
  rewrite prune_unfold. destruct (select_all node) eqn:Ha.
  { rewrite selects_unfold, Ha. cbn [orb]. tauto. }
  rewrite !leaf_paths_fields, !elem_concat_map. rewrite Forall_forall in IH. split.
  - intros (g & Hg & Hp). apply elem_concat_map in Hg as (f & Hf & Hg).
    destruct (proj1 (keep_leaves node f p Ha (IH f Hf)) ltac:(eauto)) as [? ?]. eauto.
  - intros [(f & Hf & Hp) Hs].
    destruct (proj2 (keep_leaves node f p Ha (IH f Hf)) ltac:(auto)) as (g & Hg & ?).
    exists g. split; [|done]. apply elem_concat_map. eauto.
Qed.

(** ** Splitting and joining paths *)

(** A path component: not empty, no dot. *)
Definition part_ok (n : bytes) : Prop := n <> [] /\ 46 ∉ n.

Lemma split_dots_cons p : exists part parts, split_dots p = part :: parts.
Proof.
  induction p as [|b p (part & parts & E)]; cbn; [eauto|].
  destruct (b =? 46); [eauto|]. rewrite E. eauto.
Qed.

Lemma split_dots_app a b : split_dots (a ++ 46 :: b) = split_dots a ++ split_dots b.
Proof.
  induction a as [|x a IH]; cbn; [done|]. rewrite IH. destruct (x =? 46); [done|].
  destruct (split_dots_cons a) as (part & parts & ->). done.
Qed.

Lemma split_dots_part n : 46 ∉ n -> split_dots n = [n].
Proof.
  induction n as [|x n IH]; cbn; [done|]. intros [H1 H2]%not_elem_of_cons.
  destruct (Z.eqb_spec x 46); [congruence|]. now rewrite IH.
Qed.

Lemma split_parts_ok p : Forall part_ok (path_parts p).
Proof.
  unfold path_parts. assert (Forall (fun n => 46 ∉ n) (split_dots p)) as H.
  { induction p as [|b p IH]; cbn; [constructor; [apply not_elem_of_nil|constructor]|].
    destruct (Z.eqb_spec b 46); [constructor; [apply not_elem_of_nil|done]|].
    destruct (split_dots_cons p) as (part & parts & E). rewrite E in *.
    apply Forall_cons in IH as [? ?]. constructor; [|done]. now apply not_elem_of_cons. }
  apply Forall_forall. intros n [Hn Hin]%list_elem_of_filter. rewrite Forall_forall in H. split; auto.
Qed.

(** The dotted form of a component list. *)
Definition join_parts (r : list bytes) (prefix : bytes) : bytes := fold_left Monitor.join_path r prefix.

Lemma path_parts_join_from r : forall prefix,
  prefix <> [] -> Forall part_ok r ->
  path_parts (join_parts r prefix) = path_parts prefix ++ r.
Proof.
  induction r as [|n r IH]; intros prefix Hp Hr; cbn [join_parts fold_left]; [now rewrite app_nil_r|].
  apply Forall_cons in Hr as [[Hn Hd] Hr]. fold (join_parts r (Monitor.join_path prefix n)).
  destruct prefix as [|x prefix]; [done|]. unfold Monitor.join_path.
  rewrite IH; [|done|done]. change (str "." ++ n) with (46 :: n). unfold path_parts.
  rewrite split_dots_app, filter_app, (split_dots_part n) by done.
  rewrite (filter_cons_True _ n) by done. rewrite filter_nil, <- app_assoc. done.
Qed.

Lemma path_parts_join r : Forall part_ok r -> path_parts (join_parts r []) = r.
Proof.
  destruct r as [|n r]; [done|]. intros [[Hn Hd] Hr]%Forall_cons.
  cbn [join_parts fold_left Monitor.join_path]. fold (join_parts r n). rewrite path_parts_join_from by done.
  unfold path_parts. rewrite split_dots_part, filter_cons_True, filter_nil by done. done.
Qed.

(** ** Well-formed trees *)

Definition productive (c : PathNode) : Prop := select_all c = false -> children c <> [].

Inductive wf : PathNode -> Prop :=
| wf_node a cs :
    NoDup (map fst cs) -> Forall (fun nc => part_ok nc.1) cs ->
    Forall (fun nc => productive nc.2) cs -> Forall (fun nc => wf nc.2) cs -> wf (mkNode a cs).

Lemma child_mut_names name f cs :
  map fst (child_mut name f cs) = if decide (name ∈ map fst cs) then map fst cs else map fst cs ++ [name].
Proof.
  induction cs as [|[m c] cs IH]; cbn; [by rewrite decide_False by apply not_elem_of_nil|].
  destruct (decide (m = name)) as [->|Hm].
  - rewrite bool_decide_true by done. rewrite decide_True by left. done.
  - rewrite bool_decide_false by done. cbn. rewrite IH.
    repeat case_decide; rewrite ?elem_of_cons in *; try done; exfalso; naive_solver.
Qed.

Lemma child_mut_forall (P : bytes * PathNode -> Prop) name f cs :
  Forall P cs -> P (name, f default_node) -> (forall c, P (name, c) -> P (name, f c)) ->
  Forall P (child_mut name f cs).
Proof.
  intros Hcs Hnew Hf. induction Hcs as [|[m c] cs Hc Hcs IH]; cbn; [now constructor|].
  case_bool_decide; [subst; constructor; auto|now constructor].
Qed.

Lemma child_mut_nonempty name f cs : child_mut name f cs <> [].
Proof. destruct cs as [|[m c] cs]; cbn; [done|]. now case_bool_decide. Qed.

Lemma insert_productive parts node : parts <> [] -> children (insert_parts parts node) <> [].
Proof. destruct parts; [done|]. intros _. apply child_mut_nonempty. Qed.

Lemma wf_default : wf default_node.
Proof. constructor; [apply NoDup_nil_2|constructor..]. Qed.

Lemma wf_insert parts : forall node, Forall part_ok parts -> wf node -> wf (insert_parts parts node).
Proof.
  induction parts as [|part rest IH]; intros node Hp Hw; [done|].
  apply Forall_cons in Hp as [Hpart Hrest]. destruct Hw as [a cs Hnd Hok Hprod Hwf].
  cbn [insert_parts select_all children]. constructor.
  - rewrite child_mut_names. case_decide; [done|]. apply NoDup_app. split_and!; [done| |].
    + intros x Hx ->%list_elem_of_singleton. done.
    + apply NoDup_singleton.
  - apply child_mut_forall; auto.
  - apply child_mut_forall; auto; cbn; (destruct rest as [|r rest']; [done|]); intros; red; intros _;
      now apply insert_productive.
  - apply child_mut_forall; auto; cbn; destruct rest as [|r rest']; intros;
      try (constructor; [apply NoDup_nil_2|constructor..]); apply IH; auto using wf_default.
Qed.

Lemma build_tree_wf paths : wf (build_path_tree paths) /\ select_all (build_path_tree paths) = false.
Proof.
  unfold build_path_tree. assert (wf default_node /\ select_all default_node = false) as H
    by (split; [apply wf_default|done]).
  revert H. generalize default_node. induction paths as [|p paths IH]; intros root [Hw Ha]; [done|].
  cbn [fold_left]. apply IH. split; [apply wf_insert; [apply split_parts_ok|done]|].
  now destruct (path_parts p).
Qed.

(** ** The selected paths of a tree *)

Fixpoint tree_leaves (node : PathNode) : list (list bytes) :=
  match node with
  | mkNode _ cs =>
    concat (map (fun nc => if select_all nc.2 then [[nc.1]] else map (cons nc.1) (tree_leaves nc.2)) cs)
  end.

Lemma find_child_elem cs n c : NoDup (map fst cs) -> (find_child n cs = Some c <-> (n, c) ∈ cs).
Proof.
  induction cs as [|[m d] cs IH]; cbn.
  - intros _. split; [discriminate|intros []%not_elem_of_nil].
  - intros [Hm Hnd]%NoDup_cons. rewrite elem_of_cons. case_bool_decide as E.
    + subst m. split; [intros [= ->]; auto|]. intros [[= ->]|H]; [done|].
      destruct Hm. apply list_elem_of_fmap. now exists (n, c).
    + rewrite IH by done. split; [auto|]. intros [[= -> ->]|H]; [done|auto].
Qed.

Lemma selects_leaves node : forall p,
  wf node -> select_all node = false ->
  (selects node p = true <-> exists r, r ∈ tree_leaves node /\ is_prefix r p = true).
Proof.
  induction node as [a cs IH] using PathNode_tree_ind. intros p Hw Ha. cbn in Ha. subst a.
  inversion Hw as [a' cs' Hnd Hok Hprod Hwf]; subst. rewrite selects_unfold. cbn [select_all orb tree_leaves].
  setoid_rewrite elem_concat_map. rewrite Forall_forall in IH, Hwf. unfold child. cbn [children]. split.
  - destruct p as [|n p]; [discriminate|]. destruct (find_child n cs) as [c|] eqn:E; [|discriminate].
    apply find_child_elem in E; [|done]. intros Hs.
    destruct (select_all c) eqn:Ec.
    + exists [n]. split; [|cbn; now rewrite bool_decide_true]. exists (n, c). split; [done|]. cbn. rewrite Ec.
      now apply list_elem_of_singleton.
    + apply (IH (n, c) E p (Hwf _ E) Ec) in Hs as (r & Hr & Hp). exists (n :: r).
      split; [|cbn; now rewrite bool_decide_true]. exists (n, c). split; [done|]. cbn. rewrite Ec.
      apply list_elem_of_fmap. eauto.
  - intros (r & ([n c] & Hin & Hr) & Hp). cbn in Hr. destruct (select_all c) eqn:Ec.
    + apply list_elem_of_singleton in Hr as ->. destruct p as [|m p]; [discriminate|]. cbn in Hp.
      rewrite andb_true_r in Hp. apply bool_decide_eq_true in Hp as <-.
      rewrite (proj2 (find_child_elem cs n c Hnd) Hin). rewrite selects_unfold, Ec. done.
    + apply list_elem_of_fmap in Hr as (q & -> & Hq). destruct p as [|m p]; [discriminate|]. cbn in Hp.
      apply andb_true_iff in Hp as [Hp Hpre]. apply bool_decide_eq_true in Hp as <-.
      rewrite (proj2 (find_child_elem cs n c Hnd) Hin). apply (IH _ Hin p (Hwf _ Hin) Ec). eauto.
Qed.

Lemma tree_leaves_ok node : wf node -> Forall (Forall part_ok) (tree_leaves node).
Proof.
  induction node as [a cs IH] using PathNode_tree_ind. intros Hw.
  inversion Hw as [a' cs' Hnd Hok Hprod Hwf]; subst. cbn [tree_leaves].
  apply Forall_forall. intros r ([n c] & Hin & Hr)%elem_concat_map. cbn in Hr.
  rewrite Forall_forall in IH, Hok, Hwf. pose proof (Hok _ Hin) as Hn. cbn in Hn.
  destruct (select_all c).
  - apply list_elem_of_singleton in Hr as ->. now constructor.
  - apply list_elem_of_fmap in Hr as (q & -> & Hq). constructor; [done|].
    pose proof (IH _ Hin (Hwf _ Hin)) as H. rewrite Forall_forall in H. now apply H.
Qed.

Lemma tree_leaves_nonempty node : wf node -> children node <> [] -> tree_leaves node <> [].
Proof.
  induction node as [a cs IH] using PathNode_tree_ind. intros Hw Hne.
  inversion Hw as [a' cs' _ _ Hprod Hwf]; subst. cbn in Hne. destruct cs as [|[n c] cs]; [done|].
  apply Forall_cons in IH as [IH _]. apply Forall_cons in Hprod as [Hp _]. apply Forall_cons in Hwf as [Hwc _].
  cbn. intros [H _]%app_eq_nil. cbn in *. destruct (select_all c) eqn:Ec; [discriminate H|].
  apply map_eq_nil in H. now apply (IH Hwc (Hp Ec)).
Qed.

Lemma collect_cons i f fs prefix out :
  collect_pv_request_paths (Ty.mkStruct i (f :: fs)) prefix out =
  collect_pv_request_paths (Ty.mkStruct i fs) prefix
    (let joined := Monitor.join_path prefix (Ty.name f) in
     match Ty.field_type f with
     | Ty.Structure nested =>
       match Ty.fields nested with
       | [] => out ++ [joined]
       | _ => collect_pv_request_paths nested joined out
       end
     | _ => out ++ [joined]
     end).
Proof. reflexivity. Qed.

(** The request descriptor of a tree lists the tree's paths. *)
Lemma collect_tree node : forall prefix out,
  wf node ->
  collect_pv_request_paths (Ty.mkStruct None (path_tree_to_field_descs node)) prefix out
  = out ++ map (fun r => join_parts r prefix) (tree_leaves node).
Proof.
  induction node as [a cs IH] using PathNode_tree_ind. intros prefix out Hw.
  inversion Hw as [a' cs' Hnd Hok Hprod Hwf]; subst.
  cbn [path_tree_to_field_descs tree_leaves].
  clear Hw Hnd Hok. revert out. induction cs as [|[n c] cs IHcs]; intros out; cbn [map concat]; [by rewrite app_nil_r|].
  apply Forall_cons in IH as [Hc IH]. apply Forall_cons in Hprod as [Hp Hprod]. apply Forall_cons in Hwf as [Hw Hwf].
  rewrite collect_cons, (IHcs IH Hprod Hwf), map_app, app_assoc. f_equal.
  cbn [fst snd Ty.name Ty.field_type Ty.fields] in *. cbn zeta.
  destruct (select_all c) eqn:Ec; [done|].
  specialize (Hp Ec). specialize (Hc (Monitor.join_path prefix n) out Hw).
  rewrite map_map. destruct c as [ca [|cc ccs]]; [done|]. exact Hc.
Qed.

Lemma requested_tree paths p :
  requested (map (fun r => join_parts r []) (tree_leaves (build_path_tree paths))) p = requested paths p.
Proof.
  destruct (build_tree_wf paths) as [Hw Ha]. rewrite <- (selects_build paths p).
  apply eq_true_iff_eq. rewrite (selects_leaves _ p Hw Ha). pose proof (tree_leaves_ok _ Hw) as Hok.
  rewrite Forall_forall in Hok. unfold requested. rewrite existsb_exists. split.
  - intros (x & Hx & H). apply in_map_iff in Hx as (r & <- & Hr). apply list_elem_of_In in Hr.
    rewrite path_parts_join in H by auto. exists r. destruct r; [discriminate H|done].
  - intros (r & Hr & Hp). exists (join_parts r []). split;
      [apply in_map_iff; exists r; split; [done|now apply list_elem_of_In]|].
    rewrite path_parts_join by auto. destruct r as [|x r]; [|done].
    exfalso. clear -Hr. destruct (build_path_tree paths) as [a cs]. cbn in Hr.
    apply elem_concat_map in Hr as ([n c] & _ & Hr). cbn in Hr. destruct (select_all c).
    + by apply list_elem_of_singleton in Hr.
    + apply list_elem_of_fmap in Hr as (q & [=] & _).
Qed.

(** ** Requests on the wire *)

(** A request whose descriptor a default decoder accepts. *)
Definition request_ok (fields : list bytes) (options : list (bytes * bytes)) : bool :=
  let ft := Ty.Structure (pv_request_desc fields options) in
  PvdRoundtrip.type_ok default_limits ft
  && (Ty.type_height ft <=? max_depth default_limits)
  && (Ty.type_nodes ft <=? MAX_DECODE_NODES)
  && forallb (fun kv => PvdRoundtrip.name_ok kv.2) options.

Lemma parse_request_encode fields options is_be :
  request_ok fields options = true ->
  parse_request (encode_pv_request_with_options fields options is_be) is_be
  = Some (pv_request_desc fields options).
Proof.
  unfold request_ok. intros H.
  apply andb_true_iff in H as [H _]. apply andb_true_iff in H as [H Hn%Z.leb_le].
  apply andb_true_iff in H as [H Hh%Z.leb_le].
  unfold parse_request, parse_introspection, bind.
  pose proof (PvdRoundtrip.introspection_encode is_be default_limits (pv_request_desc fields options)
    (concat (map (fun kv => encode_string kv.2 is_be) options)) (with_limits default_limits)
    PvdSafety.default_limits_ok (PvdSafety.idle_with_limits _) H Hh) as E.
  cbn zeta in E. specialize (E (Z.le_trans _ _ _ Hn (Z.le_max_l _ _))).
  change (encode_type_desc (Ty.Structure (pv_request_desc fields options)) is_be)
    with (0x80 :: encode_structure_desc (pv_request_desc fields options) is_be) in E.
  cbn [app] in E. unfold encode_pv_request_with_options.
  destruct (parse_introspection_with_len _ _ _ _) as [r s']. cbn [fst] in E. rewrite E. reflexivity.
Qed.

Lemma read_options_encode options is_be :
  forallb (fun kv => PvdRoundtrip.name_ok kv.2) options = true ->
  read_options (map (fun kv => Ty.mkField kv.1 Ty.String) options)
    (concat (map (fun kv => encode_string kv.2 is_be) options)) is_be = Some options.
Proof.
  induction options as [|[k v] options IH]; [done|]. cbn [forallb map concat read_options Ty.field_type Ty.name fst snd].
  intros [Hv H]%andb_true_iff. unfold PvdRoundtrip.name_ok in Hv. bool_to_prop.
  unfold decode_string_lossy. rewrite decode_encode_string by done. cbn [outcome_ok].
  rewrite drop_app_zlen, IH by done. done.
Qed.

(** ** Claims *)

(** Filtering a descriptor by requested paths keeps exactly the leaf fields
    that lie at or below a requested path: a bare name keeps the sub-tree rooted
    at it, a dotted path descends, unknown paths select nothing, and no request
    at all keeps everything. *)
Theorem filter_keeps_requested desc paths p :
  p ∈ leaf_paths (filter_structure_desc desc paths) <->
  p ∈ leaf_paths desc /\
  (paths = [] \/ exists r, r ∈ paths /\ path_parts r <> [] /\ path_parts r `prefix_of` p).
Proof.
  unfold filter_structure_desc. destruct paths as [|r paths]; [tauto|].
  rewrite prune_leaves, selects_build. unfold requested. rewrite existsb_exists.
  apply and_iff_compat_l. split.
  - intros (x & Hx & H). right. exists x. rewrite list_elem_of_In. split; [done|].
    destruct (path_parts x); [discriminate H|]. split; [done|]. now apply is_prefix_spec.
  - intros [H|(x & Hx & Hne & H)]; [discriminate H|]. exists x. split; [now apply list_elem_of_In|].
    destruct (path_parts x); [done|]. now apply is_prefix_spec.
Qed.

(** The field selection of a request survives the wire: the server decodes
    a list of paths that selects the same fields as the list the client asked
    for, for every path into any descriptor. *)
Theorem request_fields_roundtrip fields options is_be :
  request_ok fields options = true -> children (build_path_tree fields) <> [] ->
  exists paths, decode_pv_request_fields (encode_pv_request_with_options fields options is_be) is_be = Some paths
    /\ forall p, requested paths p = requested fields p.
Proof.
  intros Hok Hne. unfold decode_pv_request_fields. unfold encode_pv_request_with_options at 1.
  fold (encode_pv_request_with_options fields options is_be).
  rewrite parse_request_encode by done.
  set (paths := map (fun r => join_parts r []) (tree_leaves (build_path_tree fields))).
  exists paths. split; [|apply requested_tree].
  assert (requested_paths (Ty.fields (pv_request_desc fields options)) =
    match path_tree_to_field_descs (build_path_tree fields) with
    | [] => None
    | _ => match collect_pv_request_paths
                   (Ty.mkStruct None (path_tree_to_field_descs (build_path_tree fields))) [] [] with
           | [] => None | paths => Some paths end
    end) as -> by now destruct options.
  destruct (build_tree_wf fields) as [Hw _]. rewrite collect_tree by done. cbn [app]. fold paths.
  assert (paths <> []) as Hp.
  { intros H%map_eq_nil. now apply (tree_leaves_nonempty _ Hw Hne). }
  destruct (build_path_tree fields) as [a [|nc cs]]; [done|]. now destruct paths.
Qed.

Lemma request_fields_roundtrip_witness :
  exists paths, decode_pv_request_fields
      (encode_pv_request_with_options [str "alarm.severity"; str "value"; str "alarm"] [] true) true = Some paths
    /\ forall p, requested paths p = requested [str "alarm.severity"; str "value"; str "alarm"] p.
Proof.
  apply (request_fields_roundtrip [str "alarm.severity"; str "value"; str "alarm"] [] true).
  - vm_compute. reflexivity.
  - vm_compute. discriminate.
Defined.

(** The options of a request written by [encode_pv_request_with_options]
    are read back, names and values in order. *)
Theorem request_options_roundtrip fields options is_be :
  request_ok fields options = true -> options <> [] ->
  decode_pv_request_options (encode_pv_request_with_options fields options is_be) is_be = Some options.
Proof.
  intros Hok Hne. unfold decode_pv_request_options. unfold encode_pv_request_with_options at 1.
  fold (encode_pv_request_with_options fields options is_be). rewrite parse_request_encode by done.
  assert (options_desc (pv_request_desc fields options) =
    Some (Ty.mkStruct None (map (fun kv => Ty.mkField kv.1 Ty.String) options))) as -> by now destruct options.
  unfold encode_pv_request_with_options. set (enc := encode_structure_desc _ _).
  set (vals := concat _). rewrite zlen_cons, zlen_app. pose proof (zlen_nonneg vals).
  destruct (_ >? _) eqn:E; bool_to_prop; [lia|]. clear E.
  change (0x80 :: enc ++ vals) with ((0x80 :: enc) ++ vals). rewrite <- zlen_cons with (x := 0x80).
  rewrite drop_app_zlen. apply read_options_encode.
  unfold request_ok in Hok. now apply andb_true_iff in Hok as [_ Hok].
Qed.

Lemma request_options_roundtrip_witness :
  decode_pv_request_options (encode_pv_request_with_options [] [(str "pipeline", str "true")] false) false
  = Some [(str "pipeline", str "true")].
Proof.
  apply (request_options_roundtrip [] [(str "pipeline", str "true")] false).
  - vm_compute. reflexivity.
  - discriminate.
Defined.

(** Options are lost when the request's descriptor is sent with a type id
    ([0xFD], as a peer with a serialization registry does): the values are
    looked up behind the re-encoded descriptor, three bytes too early. *)
Theorem options_behind_type_id_lost :
  let body := [0xFD; 1; 0] ++ encode_pv_request_with_options [] [(str "pipeline", str "true")] false in
  parse_request body false = Some (pv_request_desc [] [(str "pipeline", str "true")]) /\
  decode_pv_request_options body false <> Some [(str "pipeline", str "true")].
Proof. split; [vm_compute; reflexivity|vm_compute; discriminate]. Qed.

End PvRequest.
