(* ===== verification/Packet.v ===== *)
(** * PVAccess packets: header and payload decoding

    Models [spvirit-codec/src/epics_decode.rs]: the control flags and header,
    [PvaPacket] and the payload decoder of every command.  A source [Option] is
    [outcome unit]: [None] is [Err tt], and an index or slice out of range is a
    visible [Panic]. *)

From stdpp Require Import gmap.
From S2P Require Import Prelude Utf8 Wire PvdTypes PvdEncode PvdDecode PvdSafety Monitor.

Local Open Scope Z_scope.

Module Packet.
Import Wire PvdDecode.
Local Open Scope codec_scope.

Abbreviation Opt := (outcome unit).

(** [r.ok()] of a decoder that reports a [DecodeError]. *)
Definition ok {A} (m : DecodeResult A) : Opt A := map_err (fun _ => tt) m.

(** [if let Some(x) = m { .. } else { .. }]. *)
Definition catch {A} (m : Opt A) : Opt (option A) :=
  match m with
  | Ok a => Ok (Some a)
  | Err _ => Ok None
  | Panic => Panic
  | OutOfFuel => OutOfFuel
  end.

(** [uN::from_be_bytes(raw[off..off + n].try_into().unwrap())] or its
    little-endian form. *)
Definition read_uint (raw : bytes) (off n : Z) (is_be : bool) : Opt Z :=
  let? d := slice raw off (off + n) in
  Ok (get_int is_be d).

Definition decode_size (raw : bytes) (is_be : bool) : Opt (Z * Z) :=
  ok (decode_size_prefixed raw is_be).

Definition decode_string (raw : bytes) (is_be : bool) : Opt (bytes * Z) :=
  ok (decode_string_prefixed raw is_be Lossy).

(** [decode_string(&raw[off..], is_be)]. *)
Definition decode_string_at (raw : bytes) (off : Z) (is_be : bool) : Opt (bytes * Z) :=
  let? d := slice_from raw off in
  decode_string d is_be.

(** ** Header *)

Record PvaControlFlags := mkFlags {
  flags_raw : Z;
  is_application : bool;
  is_control : bool;
  is_segmented : Z;
  is_first_segment : bool;
  is_last_segment : bool;
  is_middle_segment : bool;
  is_client : bool;
  is_server : bool;
  is_lsb : bool;
  is_msb : bool;
  flags_valid : bool;
}.

Definition flags_new (raw : Z) : PvaControlFlags :=
  let seg := Z.shiftr (Z.land raw 0x30) 4 in
  mkFlags raw (Z.land raw 0x01 =? 0) (negb (Z.land raw 0x01 =? 0)) seg
    (seg =? 0x01) (seg =? 0x02) (seg =? 0x03)
    (Z.land raw 0x40 =? 0) (negb (Z.land raw 0x40 =? 0))
    (Z.land raw 0x80 =? 0) (negb (Z.land raw 0x80 =? 0))
    (Z.land raw 0x0E =? 0).

Record PvaHeader := mkHeader {
  magic : Z;
  version : Z;
  flags : PvaControlFlags;
  command : Z;
  payload_length : Z;
}.

Definition header_try_new (raw : bytes) : Opt PvaHeader :=
  if zlen raw <? 8 then Err tt else
  let? magic := index raw 0 in
  let? version := index raw 1 in
  let? f := index raw 2 in
  let flags := flags_new f in
  let? command := index raw 3 in
  let? payload_length := read_uint raw 4 4 (is_msb flags) in
  Ok (mkHeader magic version flags command payload_length).

Definition header_is_valid (h : PvaHeader) : bool := (magic h =? 0xCA) && flags_valid (flags h).

Record PvaPacket := mkPacket { header : PvaHeader; payload : bytes }.

Definition packet_try_new (raw : bytes) : Opt PvaPacket :=
  let? h := header_try_new raw in
  Ok (mkPacket h raw).

Definition packet_from_vec (raw : bytes) : Opt PvaPacket :=
  let? h := header_try_new raw in
  Ok (mkPacket h raw).

Definition packet_is_valid (p : PvaPacket) : bool := header_is_valid (header p).

(** ** Status *)

Record PvaStatus := mkStatus { code : Z; message : option bytes; stack : option bytes }.

Definition is_error (s : PvaStatus) : bool := negb (code s =? 0).

Definition decode_status (raw : bytes) (is_be : bool) : Opt (option PvaStatus * Z) :=
  match raw with
  | [] => Ok (None, 0)
  | code :: _ =>
    if code =? 0xFF then Ok (None, 1) else
    let? m := catch (decode_string_at raw 1 is_be) in
    match m with
    | None => Ok (Some (mkStatus code None None), 1)
    | Some (msg, consumed) =>
      let idx := 1 + consumed in
      let? st := catch (decode_string_at raw idx is_be) in
      match st with
      | None => Ok (Some (mkStatus code (Some msg) None), idx)
      | Some (st, consumed2) => Ok (Some (mkStatus code (Some msg) (Some st)), idx + consumed2)
      end
    end
  end.

Definition decode_op_response_status (raw : bytes) (is_be : bool) : DecodeResult (option PvaStatus) :=
  match header_try_new raw with
  | Ok h =>
    let payload_len := payload_length h in
    if zlen raw <? 8 + payload_len then Err (Truncated (8 + payload_len) (zlen raw)) else
    let? payload := slice raw 8 (8 + payload_len) in
    if zlen payload <? 5 then Err (Truncated 5 (zlen payload)) else
    let? d := slice_from payload 5 in
    match decode_status d is_be with
    | Ok (s, _) => Ok s
    | _ => Panic
    end
  | Err _ => Err (Truncated 8 (zlen raw))
  | _ => Panic
  end.

(** ** Payloads of fixed shape *)

Record PvaDestroyChannelPayload := mkDestroyChannel { dc_sid : Z; dc_cid : Z }.

Definition destroy_channel_new (raw : bytes) (is_be : bool) : Opt PvaDestroyChannelPayload :=
  if zlen raw <? 8 then Err tt else
  let? sid := read_uint raw 0 4 is_be in
  let? cid := read_uint raw 4 4 is_be in
  Ok (mkDestroyChannel sid cid).

Record PvaDestroyRequestPayload := mkDestroyRequest { dr_sid : Z; dr_request_id : Z }.

Definition destroy_request_new (raw : bytes) (is_be : bool) : Opt PvaDestroyRequestPayload :=
  if 8 <=? zlen raw then
    let? sid := read_uint raw 0 4 is_be in
    let? id := read_uint raw 4 4 is_be in
    Ok (mkDestroyRequest sid id)
  else if 4 <=? zlen raw then
    let? id := read_uint raw 0 4 is_be in
    Ok (mkDestroyRequest 0 id)
  else Err tt.

Record PvaCancelRequestPayload := mkCancelRequest { cr_request_id : Z; cr_status : option PvaStatus }.

Definition cancel_request_new (raw : bytes) (is_be : bool) : Opt PvaCancelRequestPayload :=
  if zlen raw <? 4 then Err tt else
  let? id := read_uint raw 0 4 is_be in
  if zlen raw >? 4 then
    let? d := slice_from raw 4 in
    let? (st, _) := decode_status d is_be in
    Ok (mkCancelRequest id st)
  else Ok (mkCancelRequest id None).

Definition origin_tag_new (raw : bytes) : Opt bytes :=
  if zlen raw <? 16 then Err tt else slice raw 0 16.

Definition connection_validated_new (raw : bytes) (is_be : bool) : Opt (option PvaStatus) :=
  let? (st, _) := decode_status raw is_be in
  Ok st.

Record PvaAclChangePayload := mkAclChange { acl_status : option PvaStatus; acl_raw : bytes }.

(** [if raw.len() > consumed { raw[consumed..].to_vec() } else { vec![] }]. *)
Definition rest_after (raw : bytes) (consumed : Z) : Opt bytes :=
  if zlen raw >? consumed then slice_from raw consumed else Ok [].

Definition acl_change_new (raw : bytes) (is_be : bool) : Opt PvaAclChangePayload :=
  let? (st, consumed) := decode_status raw is_be in
  let? rest := rest_after raw consumed in
  Ok (mkAclChange st rest).

Record PvaMessagePayload := mkMessage {
  msg_ioid : Z; message_type : Z; msg_message : option bytes;
  msg_status : option PvaStatus; msg_raw : bytes }.

Definition message_new (raw : bytes) (is_be : bool) : Opt PvaMessagePayload :=
  if 5 <=? zlen raw then
    let? ioid := read_uint raw 0 4 is_be in
    let? mtype := index raw 4 in
    let? msg :=
      (if zlen raw >? 5 then
         let? r := catch (decode_string_at raw 5 is_be) in
         Ok (option_map fst r)
       else Ok None) in
    let code := if mtype =? 0 then 0xFF else if mtype =? 1 then 0x01
                else if mtype =? 2 then 0x02 else 0x03 in
    Ok (mkMessage ioid mtype msg (Some (mkStatus code msg None)) raw)
  else Ok (mkMessage 0 0 None None raw).

(** ** Payloads with counted lists *)

(** [for _ in 0..count { match decode_string { Some => push, None => break } }]. *)
Fixpoint strings_until (n : nat) (raw : bytes) (offset : Z) (is_be : bool) (out : list bytes)
  : Opt (list bytes * Z) :=
  match n with
  | O => Ok (out, offset)
  | S n =>
    let? r := catch (decode_string_at raw offset is_be) in
    match r with
    | Some (s, len) => strings_until n raw (offset + len) is_be (out ++ [s])
    | None => Ok (out, offset)
    end
  end.

Record PvaAuthNzPayload := mkAuthNz { auth_raw : bytes; auth_strings : list bytes }.

Definition authnz_new (raw : bytes) (is_be : bool) : Opt PvaAuthNzPayload :=
  let? r := catch (decode_size raw is_be) in
  match r with
  | Some (count, consumed) =>
    let? (strings, _) := strings_until (Z.to_nat count) raw consumed is_be [] in
    Ok (mkAuthNz raw strings)
  | None => Ok (mkAuthNz raw [])
  end.

Record PvaMultipleDataPayload := mkMultipleData { entries : list (Z * Z); md_raw : bytes }.

Fixpoint data_entries (n : nat) (raw : bytes) (offset : Z) (is_be : bool) (out : list (Z * Z))
  : Opt (list (Z * Z)) :=
  match n with
  | O => Ok out
  | S n =>
    if zlen raw <? offset + 5 then Ok out else
    let? ioid := read_uint raw offset 4 is_be in
    let? subcmd := index raw (offset + 4) in
    data_entries n raw (offset + 5) is_be (out ++ [(ioid, subcmd)])
  end.

Definition multiple_data_new (raw : bytes) (is_be : bool) : Opt PvaMultipleDataPayload :=
  let? r := catch (decode_size raw is_be) in
  match r with
  | Some (count, consumed) =>
    let? es := data_entries (Z.to_nat count) raw consumed is_be [] in
    Ok (mkMultipleData es raw)
  | None => Ok (mkMultipleData [] raw)
  end.

Record PvaSearchResponsePayload := mkSearchResponse {
  sr_guid : bytes; sr_seq : Z; sr_addr : bytes; sr_port : Z;
  sr_protocol : bytes; sr_found : bool; sr_cids : list Z }.

Fixpoint read_cids (n : nat) (raw : bytes) (offset : Z) (is_be : bool) (out : list Z) : Opt (list Z) :=
  match n with
  | O => Ok out
  | S n =>
    if zlen raw <? offset + 4 then Ok out else
    let? cid := read_uint raw offset 4 is_be in
    read_cids n raw (offset + 4) is_be (out ++ [cid])
  end.

Definition search_response_new (raw : bytes) (is_be : bool) : Opt PvaSearchResponsePayload :=
  if zlen raw <? 34 then Err tt else
  let? guid := slice raw 0 12 in
  let? seq := read_uint raw 12 4 is_be in
  let? addr := slice raw 16 32 in
  let? port := read_uint raw 32 2 is_be in
  let? (protocol, consumed) := decode_string_at raw 34 is_be in
  let offset := 34 + consumed in
  if zlen raw <=? offset then Ok (mkSearchResponse guid seq addr port protocol false []) else
  let? b := index raw offset in
  let found := negb (b =? 0) in
  let offset := offset + 1 in
  if offset + 2 <=? zlen raw then
    let? count := read_uint raw offset 2 is_be in
    let? cids := read_cids (Z.to_nat count) raw (offset + 2) is_be [] in
    Ok (mkSearchResponse guid seq addr port protocol found cids)
  else Ok (mkSearchResponse guid seq addr port protocol found []).

Record PvaSearchPayload := mkSearch {
  s_seq : Z; s_mask : Z; s_addr : bytes; s_port : Z;
  s_protocols : list bytes; s_pv_requests : list (Z * bytes); s_pv_names : list bytes }.

(** [let (s, len) = decode_string(..)?] in a loop. *)
Fixpoint all_strings (n : nat) (raw : bytes) (offset : Z) (is_be : bool) (out : list bytes)
  : Opt (list bytes * Z) :=
  match n with
  | O => Ok (out, offset)
  | S n =>
    let? (s, len) := decode_string_at raw offset is_be in
    all_strings n raw (offset + len) is_be (out ++ [s])
  end.

Fixpoint search_pvs (n : nat) (raw : bytes) (offset : Z) (is_be : bool)
    (names : list bytes) (reqs : list (Z * bytes)) : Opt (list bytes * list (Z * bytes)) :=
  match n with
  | O => Ok (names, reqs)
  | S n =>
    if zlen raw <? offset + 4 then Err tt else
    let? cid := read_uint raw offset 4 is_be in
    let offset := offset + 4 in
    let? (nm, len) := decode_string_at raw offset is_be in
    search_pvs n raw (offset + len) is_be (names ++ [nm]) (reqs ++ [(cid, nm)])
  end.

Definition search_new (raw : bytes) (is_be : bool) : Opt PvaSearchPayload :=
  if zlen raw =? 0 then Err tt else
  if zlen raw <? 26 then Err tt else
  let? seq := read_uint raw 0 4 is_be in
  let? mask := index raw 4 in
  let? addr := slice raw 8 24 in
  let? port := read_uint raw 24 2 is_be in
  let? d := slice_from raw 26 in
  let? (protocol_count, consumed) := decode_size d is_be in
  let offset := 26 + consumed in
  let? (protocols, offset) := all_strings (Z.to_nat protocol_count) raw offset is_be [] in
  if zlen raw <? offset + 2 then Err tt else
  let? pv_count := read_uint raw offset 2 is_be in
  let? (names, reqs) := search_pvs (Z.to_nat pv_count) raw (offset + 2) is_be [] [] in
  Ok (mkSearch seq mask addr port protocols reqs names).

Record PvaBeaconPayload := mkBeacon {
  b_guid : bytes; b_flags : Z; b_sequence_id : Z; b_change_count : Z;
  b_address : bytes; b_port : Z; b_protocol : bytes; b_status_if : bytes }.

Definition beacon_new (raw : bytes) (is_be : bool) : Opt PvaBeaconPayload :=
  if zlen raw <? 34 then Err tt else
  let? guid := slice raw 0 12 in
  let? flags := index raw 12 in
  let? seq := index raw 13 in
  let? change_count := read_uint raw 14 2 is_be in
  let? addr := slice raw 16 32 in
  let? port := read_uint raw 32 2 is_be in
  let? (protocol, len) := decode_string_at raw 34 is_be in
  let? status_if :=
    (if len >? 0 then
       let? (s, _) := decode_string_at raw (34 + len) is_be in
       Ok s
     else Ok []) in
  Ok (mkBeacon guid flags seq change_count addr port protocol status_if).

(** ** Channel creation *)

Record PvaCreateChannelPayload := mkCreateChannel {
  cc_is_server : bool; cc_channels : list (Z * bytes); cc_cid : Z; cc_sid : Z;
  cc_status : option PvaStatus }.

(** [if idx < raw.len() { decode_string(&raw[idx..], is_be) } else { None }]. *)
Definition string_if_present (raw : bytes) (idx : Z) (is_be : bool) : Opt (option (bytes * Z)) :=
  if idx <? zlen raw then catch (decode_string_at raw idx is_be) else Ok None.

Definition create_channel_status (raw : bytes) (is_be : bool) : Opt (option PvaStatus) :=
  if zlen raw >? 8 then
    let? code := index raw 8 in
    if code =? 0xFF then Ok None else
    let? m := string_if_present raw 9 is_be in
    let idx := match m with Some (_, consumed) => 9 + consumed | None => 9 end in
    let? st := string_if_present raw idx is_be in
    Ok (Some (mkStatus code (option_map fst m) (option_map fst st)))
  else Ok None.

Fixpoint channel_requests (n : nat) (raw : bytes) (offset : Z) (is_be : bool) (out : list (Z * bytes))
  : Opt (list (Z * bytes)) :=
  match n with
  | O => Ok out
  | S n =>
    if zlen raw <? offset + 4 then Ok out else
    let? cid := read_uint raw offset 4 is_be in
    let offset := offset + 4 in
    let? r := catch (decode_string_at raw offset is_be) in
    match r with
    | Some (nm, consumed) => channel_requests n raw (offset + consumed) is_be (out ++ [(cid, nm)])
    | None => Ok out
    end
  end.

Definition create_channel_new (raw : bytes) (is_be is_server : bool) : Opt PvaCreateChannelPayload :=
  if zlen raw =? 0 then Err tt else
  if is_server then
    if zlen raw <? 8 then Err tt else
    let? cid := read_uint raw 0 4 is_be in
    let? sid := read_uint raw 4 4 is_be in
    let? st := create_channel_status raw is_be in
    Ok (mkCreateChannel true [] cid sid st)
  else
    if zlen raw <? 2 then Err tt else
    let? count := read_uint raw 0 2 is_be in
    let? channels := channel_requests (Z.to_nat count) raw 2 is_be [] in
    Ok (mkCreateChannel false channels 0 0 None).

(** ** Connection validation *)

Record PvaConnectionValidationPayload := mkConnectionValidation {
  cv_is_server : bool; cv_buffer_size : Z; cv_registry_size : Z; cv_qos : Z;
  cv_authz : option bytes; cv_user : option bytes; cv_host : option bytes }.

Definition decoded_string_field (decoded : Val.DecodedValue) (name : bytes) : option bytes :=
  match decoded with
  | Val.Structure fields =>
    (fix go (fs : list (bytes * Val.DecodedValue)) : option bytes :=
      match fs with
      | [] => None
      | (n, v) :: fs =>
        match v with
        | Val.String s => if bool_decide (n = name) then Some s else go fs
        | _ => go fs
        end
      end) fields
  | _ => None
  end.

(** Descriptor and value of the credentials, read by one decoder. *)
Definition credentials_value (is_be : bool) (data : bytes) : M (Val.DecodedValue * Z) :=
  let! (desc, consumed) := parse_introspection_with_len is_be default_limits data in
  let! value_bytes := lift (slice_from data consumed) in
  decode_structure is_be default_limits value_bytes desc.

Definition decode_ca_credentials (data : bytes) (is_be : bool) : Opt (option bytes * option bytes) :=
  match fst (credentials_value is_be data (with_limits default_limits)) with
  | Ok (decoded, _) =>
    Ok (decoded_string_field decoded (str "user"), decoded_string_field decoded (str "host"))
  | Err _ => Ok (None, None)
  | Panic => Panic
  | OutOfFuel => OutOfFuel
  end.

(** The first non-empty method name of those that could be read. *)
Definition first_method (methods : list bytes) : option bytes :=
  head (filter (fun m => m <> []) methods).

Definition server_authz (raw : bytes) (is_be : bool) : Opt (option bytes) :=
  if 6 <? zlen raw then
    let? d := slice_from raw 6 in
    let? r := catch (decode_size d is_be) in
    match r with
    | Some (count, consumed) =>
      let? (methods, _) := strings_until (Z.to_nat count) raw (6 + consumed) is_be [] in
      Ok (first_method methods)
    | None =>
      let? r := catch (decode_string_at raw 6 is_be) in
      Ok (option_map fst r)
    end
  else Ok None.

Definition client_authz (raw : bytes) (is_be : bool)
  : Opt (option bytes * option bytes * option bytes) :=
  if zlen raw >? 8 then
    let? r := catch (decode_string_at raw 8 is_be) in
    match r with
    | Some (s, consumed) =>
      let off := 8 + consumed in
      if off <? zlen raw then
        let? d := slice_from raw off in
        let? (user, host) := decode_ca_credentials d is_be in
        Ok (Some s, user, host)
      else Ok (Some s, None, None)
    | None => Ok (None, None, None)
    end
  else Ok (None, None, None).

Definition connection_validation_new (raw : bytes) (is_be is_server : bool)
  : Opt PvaConnectionValidationPayload :=
  if zlen raw <? 6 then Err tt else
  let? buffer_size := read_uint raw 0 4 is_be in
  let? registry_size := read_uint raw 4 2 is_be in
  if is_server then
    let? authz := server_authz raw is_be in
    Ok (mkConnectionValidation is_server buffer_size registry_size 0 authz None None)
  else
    if zlen raw <? 8 then Err tt else
    let? qos := read_uint raw 6 2 is_be in
    let? (authz, user, host) := client_authz raw is_be in
    Ok (mkConnectionValidation is_server buffer_size registry_size qos authz user host).

(** ** Introspection requests *)

(** [PvdDecoder::new(is_be).parse_introspection(data).ok()]. *)
Definition introspection_of (is_be : bool) (data : bytes) : Opt (option Ty.StructureDesc) :=
  match data with
  | [] => Ok None
  | _ => catch (ok (fst (parse_introspection is_be default_limits data (with_limits default_limits))))
  end.

Record PvaGetFieldPayload := mkGetField {
  gf_is_server : bool; gf_cid : Z; gf_sid : option Z; gf_ioid : option Z;
  gf_field_name : option bytes; gf_status : option PvaStatus;
  gf_introspection : option Ty.StructureDesc; gf_raw : bytes }.

Definition parse_status_then_intro (data : bytes) (is_be : bool)
  : Opt (option PvaStatus * bytes * option Ty.StructureDesc) :=
  let? (st, consumed) := decode_status data is_be in
  let? pvd_raw := rest_after data consumed in
  let? intro := introspection_of is_be pvd_raw in
  Ok (st, pvd_raw, intro).

(** A string at [off] that ends where the payload ends. *)
Definition final_string (raw : bytes) (off : Z) (is_be : bool) : Opt (option bytes) :=
  let? r := catch (decode_string_at raw off is_be) in
  Ok (match r with
      | Some (s, consumed) => if off + consumed =? zlen raw then Some s else None
      | None => None
      end).

Definition get_field_client (raw : bytes) (is_be : bool) : Opt PvaGetFieldPayload :=
  if zlen raw <? 4 then Err tt else
  let? cid := read_uint raw 0 4 is_be in
  let? legacy := (if zlen raw >? 4 then final_string raw 4 is_be else Ok None) in
  let? epics :=
    (if 9 <=? zlen raw then
       let? ioid := read_uint raw 4 4 is_be in
       let? s := final_string raw 8 is_be in
       Ok (option_map (fun s => (ioid, s)) s)
     else Ok None) in
  let '(sid, ioid, name) :=
    match epics with
    | Some (ioid, s) => (Some cid, Some ioid, Some s)
    | None => (None, None, legacy)
    end in
  Ok (mkGetField false cid sid ioid name None None []).

Definition get_field_new (raw : bytes) (is_be is_server : bool) : Opt PvaGetFieldPayload :=
  if negb is_server then get_field_client raw is_be
  else
    let? (cid, (st, pvd_raw, intro)) :=
      (if 4 <=? zlen raw then
         let? cid := read_uint raw 0 4 is_be in
         let? d := slice_from raw 4 in
         let? r := parse_status_then_intro d is_be in
         Ok (cid, r)
       else
         let? r := parse_status_then_intro raw is_be in
         Ok (0, r)) in
    Ok (mkGetField true cid None None None st intro pvd_raw).

(** ** Operations *)

Record PvaOpPayload := mkOp {
  sid_or_cid : Z; ioid : Z; subcmd : Z; body : bytes; op_command : Z; op_is_server : bool;
  status : option PvaStatus; introspection : option Ty.StructureDesc;
  decoded_value : option Val.DecodedValue }.

Definition op_new (raw : bytes) (is_be is_server : bool) (command : Z) : Opt PvaOpPayload :=
  if zlen raw <? 5 then Err tt else
  let? (sid, ioid, subcmd, offset) :=
    (if is_server then
       let? ioid := read_uint raw 0 4 is_be in
       let? subcmd := index raw 4 in
       Ok (0, ioid, subcmd, 5)
     else if zlen raw <? 9 then Err tt
     else
       let? sid := read_uint raw 0 4 is_be in
       let? ioid := read_uint raw 4 4 is_be in
       let? subcmd := index raw 8 in
       Ok (sid, ioid, subcmd, 9)) in
  let? body := rest_after raw offset in
  let is_init := negb (Z.land subcmd 0x08 =? 0) in
  let has_status := is_server && (is_init || (negb (command =? 13) && negb (command =? 14))) in
  let? (st, pvd_raw) :=
    (if zlen body =? 0 then Ok (None, [])
     else if has_status then
       let? (parsed, consumed) := decode_status body is_be in
       let? rest := rest_after body consumed in
       Ok (parsed, rest)
     else Ok (None, body)) in
  let? intro := (if is_server && is_init then introspection_of is_be pvd_raw else Ok None) in
  Ok (mkOp sid ioid subcmd pvd_raw command is_server st intro None).

Inductive DecodeMode := Strict | Lenient.

Definition set_decoded (v : Val.DecodedValue) (p : PvaOpPayload) : PvaOpPayload :=
  mkOp (sid_or_cid p) (ioid p) (subcmd p) (body p) (op_command p) (op_is_server p) (status p)
    (introspection p) (Some v).

Definition decode_with_field_desc (p : PvaOpPayload) (desc : Ty.StructureDesc) (is_be : bool)
    (mode : DecodeMode) : DecodeResult PvaOpPayload :=
  if zlen (body p) =? 0 then Ok p else
  let value : M Val.DecodedValue :=
    if (subcmd p =? 0) || negb (Z.land (subcmd p) 0x40 =? 0) then
      if op_command p =? 13 then
        let! u := (match mode with
                   | Strict => Monitor.decode_monitor_update is_be default_limits (body p) desc
                   | Lenient =>
                     let! (u, _) := Monitor.decode_monitor_update_lenient is_be default_limits (body p) desc in
                     ret u
                   end) in
        ret (Monitor.value u)
      else
        let! (v, _) := decode_structure_with_bitset is_be default_limits (body p) desc in
        ret v
    else
      let! (v, _) := decode_structure is_be default_limits (body p) desc in
      ret v in
  let? v := fst (value (with_limits default_limits)) in
  Ok (set_decoded v p).

(** ** Packets *)

Inductive PvaPacketCommand :=
| Control (command data : Z)
| Search (p : PvaSearchPayload)
| SearchResponse (p : PvaSearchResponsePayload)
| Beacon (p : PvaBeaconPayload)
| ConnectionValidation (p : PvaConnectionValidationPayload)
| ConnectionValidated (status : option PvaStatus)
| AuthNZ (p : PvaAuthNzPayload)
| AclChange (p : PvaAclChangePayload)
| Op (p : PvaOpPayload)
| CreateChannel (p : PvaCreateChannelPayload)
| DestroyChannel (p : PvaDestroyChannelPayload)
| GetField (p : PvaGetFieldPayload)
| Message (p : PvaMessagePayload)
| MultipleData (p : PvaMultipleDataPayload)
| CancelRequest (p : PvaCancelRequestPayload)
| DestroyRequest (p : PvaDestroyRequestPayload)
| OriginTag (address : bytes)
| Echo (data : bytes)
| Unknown (command : Z) (is_control : bool) (raw_len : Z).

(** [m.map(f)]. *)
Definition wrap {A B} (f : A -> B) (m : Opt A) : Opt B := let? a := m in Ok (f a).

(** The [match self.header.command] of [decode_payload]. *)
Definition decode_command (command : Z) (raw : bytes) (is_be is_server : bool) : Opt PvaPacketCommand :=
  if command =? 0 then wrap Beacon (beacon_new raw is_be)
  else if command =? 2 then Ok (Echo raw)
  else if command =? 1 then wrap ConnectionValidation (connection_validation_new raw is_be is_server)
  else if command =? 3 then wrap Search (search_new raw is_be)
  else if command =? 4 then wrap SearchResponse (search_response_new raw is_be)
  else if command =? 5 then wrap AuthNZ (authnz_new raw is_be)
  else if command =? 6 then wrap AclChange (acl_change_new raw is_be)
  else if command =? 7 then wrap CreateChannel (create_channel_new raw is_be is_server)
  else if command =? 8 then wrap DestroyChannel (destroy_channel_new raw is_be)
  else if command =? 9 then wrap ConnectionValidated (connection_validated_new raw is_be)
  else if existsb (Z.eqb command) [10; 11; 12; 13; 14; 16; 20]
    then wrap Op (op_new raw is_be is_server command)
  else if command =? 15 then wrap DestroyRequest (destroy_request_new raw is_be)
  else if command =? 17 then wrap GetField (get_field_new raw is_be is_server)
  else if command =? 18 then wrap Message (message_new raw is_be)
  else if command =? 19 then wrap MultipleData (multiple_data_new raw is_be)
  else if command =? 21 then wrap CancelRequest (cancel_request_new raw is_be)
  else if command =? 22 then wrap OriginTag (origin_tag_new raw)
  else Err tt.

Definition decode_payload (p : PvaPacket) : Opt PvaPacketCommand :=
  let h := header p in
  if zlen (payload p) <? 8 then Err tt else
  let expected := if is_control (flags h) then 8 else 8 + payload_length h in
  if zlen (payload p) <? expected then Err tt else
  let? raw := slice (payload p) 8 expected in
  if is_control (flags h) then Ok (Control (command h) (payload_length h)) else
  let? decoded := catch (decode_command (command h) raw (is_msb (flags h)) (is_server (flags h))) in
  match decoded with
  | Some cmd => Ok cmd
  | None => Ok (Unknown (command h) false (zlen raw))
  end.

(** ** No payload makes a decoder panic *)

(** [m] returns a value satisfying [Q] or [None]. *)
Definition safe {E A} (m : outcome E A) (Q : A -> Prop) : Prop :=
  match m with Ok a => Q a | Err _ => True | _ => False end.

Section Rules.
Context {E A B : Type}.

Lemma safe_ok (a : A) (Q : A -> Prop) : Q a -> safe (E := E) (Ok a) Q.
Proof. done. Qed.

Lemma safe_err (e : E) (Q : A -> Prop) : safe (Err e) Q.
Proof. done. Qed.

Lemma safe_bind (m : outcome E A) (k : A -> outcome E B) (Q : B -> Prop) :
  safe m (fun a => safe (k a) Q) -> safe (bind_outcome m k) Q.
Proof. now destruct m. Qed.

Lemma safe_conseq (m : outcome E A) (Q Q' : A -> Prop) :
  safe m Q -> (forall a, Q a -> Q' a) -> safe m Q'.
Proof. destruct m; cbn; auto. Qed.

Lemma safe_if (b : bool) (m n : outcome E A) (Q : A -> Prop) :
  (b = true -> safe m Q) -> (b = false -> safe n Q) -> safe (if b then m else n) Q.
Proof. destruct b; auto. Qed.

End Rules.

Section Safety.
Context (is_be : bool).

Lemma safe_catch {A} (m : Opt A) (Q : option A -> Prop) :
  safe m (fun a => Q (Some a)) -> Q None -> safe (catch m) Q.
Proof. destruct m; cbn; auto. Qed.

Lemma safe_index {E} raw i (Q : Z -> Prop) :
  0 <= i < zlen raw -> (forall b, Q b) -> safe (@index E raw i) Q.
Proof. intros. rewrite index_ok by done. cbn. auto. Qed.

Lemma safe_slice_from {E} (raw : bytes) off (Q : bytes -> Prop) :
  0 <= off <= zlen raw -> Q (drop (Z.to_nat off) raw) -> safe (@slice_from E Z raw off) Q.
Proof. intros. now rewrite slice_from_ok by done. Qed.

Lemma safe_slice {E} (raw : bytes) lo hi (Q : bytes -> Prop) :
  0 <= lo <= hi -> hi <= zlen raw -> (forall d, zlen d = hi - lo -> (bytes_ok raw -> bytes_ok d) -> Q d) ->
  safe (@slice E Z raw lo hi) Q.
Proof.
  intros Hlo Hhi HQ. rewrite slice_ok by done. apply HQ.
  - unfold zlen in *. rewrite length_take, length_drop. lia.
  - intros. now apply Forall_take, Forall_drop.
Qed.

Lemma safe_read_uint raw off n (Q : Z -> Prop) :
  bytes_ok raw -> 0 <= off -> 0 <= n -> off + n <= zlen raw -> (forall v, 0 <= v < 256 ^ n -> Q v) ->
  safe (read_uint raw off n is_be) Q.
Proof.
  intros Hr Ho Hn Hlen HQ. apply safe_bind, safe_slice; [lia|lia|]. intros d Hd Hok. apply HQ.
  pose proof (get_int_bound is_be d (Hok Hr)) as H. rewrite Hd in H.
  now replace (off + n - off) with n in H by lia.
Qed.

Lemma safe_decode_size raw (Q : Z * Z -> Prop) :
  bytes_ok raw -> (forall n c, 0 <= n <= u32_max -> 1 <= c <= zlen raw -> Q (n, c)) ->
  safe (decode_size raw is_be) Q.
Proof.
  intros Hr HQ. unfold decode_size, ok.
  destruct (decode_size_total raw is_be) as [(n & c & E)|(k & -> & _)]; [|done].
  rewrite E. cbn. eapply decode_size_ok_bound in E as [? ?]; auto.
Qed.

Lemma safe_decode_string_at raw off (Q : bytes * Z -> Prop) :
  bytes_ok raw -> 0 <= off <= zlen raw ->
  (forall s c, 1 <= c -> off + c <= zlen raw -> Q (s, c)) -> safe (decode_string_at raw off is_be) Q.
Proof.
  intros Hr Ho HQ. apply safe_bind, safe_slice_from; [done|]. unfold decode_string, ok.
  pose proof (decode_string_cases (drop (Z.to_nat off) raw) is_be Lossy ltac:(auto with codec)) as H.
  destruct (decode_string_prefixed _ _ _) as [[s c]|[]| |]; try done; cbn.
  destruct H as [Hc _]. rewrite zlen_drop in Hc by done. apply HQ; lia.
Qed.

End Safety.

(** One step of a payload decoder. *)
Ltac safe_step :=
  cbv beta iota zeta;
  lazymatch goal with
  | |- safe (bind_outcome _ _) _ => apply safe_bind
  | |- safe (Ok _) _ => apply safe_ok
  | |- safe (Err _) _ => apply safe_err
  | |- safe (if _ then _ else _) _ => apply safe_if; intros ?; bool_to_prop
  | |- safe (index _ _) _ => apply safe_index; [lia|intros ?]
  | |- safe (slice_from _ _) _ => apply safe_slice_from; [lia|]
  | |- safe (slice _ _ _) _ => apply safe_slice; [lia|lia|intros ? ? ?]
  | |- safe (read_uint _ _ _ _) _ => apply safe_read_uint; [done|lia|lia|lia|intros ? ?]
  | |- safe (decode_string_at _ _ _) _ => apply safe_decode_string_at; [done|lia|intros ? ? ? ?]
  | |- safe (decode_size _ _) _ => apply safe_decode_size; [auto with codec|intros ? ? ? ?]
  | |- safe (catch _) _ => apply safe_catch
  end; cbv beta iota zeta.

Section Payloads.
Context (is_be : bool) (raw : bytes).
Hypothesis Hraw : bytes_ok raw.

Let Hlen : 0 <= zlen raw := zlen_nonneg raw.

Lemma safe_status :
  safe (decode_status raw is_be) (fun '(_, c) => 0 <= c <= zlen raw).
Proof using Hraw.
  unfold decode_status. destruct raw as [|code l] eqn:E; [done|]. rewrite <- E in *.
  assert (1 <= zlen raw) by (rewrite E, zlen_cons; pose proof (zlen_nonneg l); lia).
  safe_step; [safe_step; lia|]. do 2 safe_step; [safe_step|safe_step; lia].
  do 2 safe_step; [do 2 safe_step; lia|safe_step; lia].
Qed.

Lemma safe_rest_after c :
  0 <= c -> safe (rest_after raw c) (fun d => bytes_ok d).
Proof using Hraw. intros. unfold rest_after. safe_step; safe_step; auto with codec. Qed.

Lemma safe_strings_until n : forall offset out,
  0 <= offset <= zlen raw -> safe (strings_until n raw offset is_be out) (fun _ => True).
Proof using Hraw.
  induction n as [|n IH]; intros offset out Ho; cbn [strings_until]; [done|].
  do 2 safe_step; [safe_step; apply IH; lia|done].
Qed.

Lemma safe_all_strings n : forall offset out,
  0 <= offset <= zlen raw ->
  safe (all_strings n raw offset is_be out) (fun '(_, o) => offset <= o <= zlen raw).
Proof using Hraw.
  induction n as [|n IH]; intros offset out Ho; cbn [all_strings]; [cbn; lia|].
  do 2 safe_step. eapply safe_conseq; [apply IH; lia|]. intros [? ?]. lia.
Qed.

Lemma safe_data_entries n : forall offset out,
  0 <= offset -> safe (data_entries n raw offset is_be out) (fun _ => True).
Proof using Hraw.
  induction n as [|n IH]; intros offset out Ho; cbn [data_entries]; [done|].
  safe_step; [done|]. do 4 safe_step. apply IH. lia.
Qed.

Lemma safe_read_cids n : forall offset out,
  0 <= offset -> safe (read_cids n raw offset is_be out) (fun _ => True).
Proof using Hraw.
  induction n as [|n IH]; intros offset out Ho; cbn [read_cids]; [done|].
  safe_step; [done|]. do 2 safe_step. apply IH. lia.
Qed.

Lemma safe_search_pvs n : forall offset names reqs,
  0 <= offset -> safe (search_pvs n raw offset is_be names reqs) (fun _ => True).
Proof using Hraw.
  induction n as [|n IH]; intros offset names reqs Ho; cbn [search_pvs]; [done|].
  safe_step; [done|]. do 4 safe_step. apply IH. lia.
Qed.

Lemma safe_channel_requests n : forall offset out,
  0 <= offset -> safe (channel_requests n raw offset is_be out) (fun _ => True).
Proof using Hraw.
  induction n as [|n IH]; intros offset out Ho; cbn [channel_requests]; [done|].
  safe_step; [done|]. do 4 safe_step; [safe_step; apply IH; lia|done].
Qed.

Lemma safe_string_if_present idx :
  0 <= idx -> safe (string_if_present raw idx is_be)
    (fun r => match r with Some (_, c) => 1 <= c /\ idx + c <= zlen raw | None => True end).
Proof using Hraw. intros. unfold string_if_present. safe_step; [|done].
  safe_step; [safe_step|]; done. Qed.

Lemma safe_introspection_of : safe (introspection_of is_be raw) (fun _ => True).
Proof using Hraw.
  unfold introspection_of. destruct raw as [|b l] eqn:E; [done|]. rewrite <- E in *.
  unfold parse_introspection, bind.
  pose proof (PvdSafety.safe_introspection is_be default_limits PvdSafety.default_limits_ok raw _ Hraw
    (PvdSafety.idle_with_limits _)) as H. unfold PvdSafety.safe_call, PvdSafety.wp in H.
  now destruct (parse_introspection_with_len _ _ _ _) as [[[? ?]|?| |] ?].
Qed.

Lemma safe_credentials : safe (decode_ca_credentials raw is_be) (fun _ => True).
Proof using Hraw.
  unfold decode_ca_credentials.
  assert (PvdSafety.wp (credentials_value is_be raw) (with_limits default_limits)
            (fun _ _ => True) (fun _ _ => True)) as H.
  { apply PvdSafety.wp_bind. eapply PvdSafety.wp_conseq;
      [apply PvdSafety.safe_introspection; auto using PvdSafety.default_limits_ok, PvdSafety.idle_with_limits| |done].
    intros [desc c] s [Hi (? & _ & _)]. apply PvdSafety.wp_bind, PvdSafety.wp_slice_from; [lia|].
    eapply PvdSafety.wp_conseq; [apply PvdSafety.safe_structure;
      auto using PvdSafety.default_limits_ok with codec|done|done]. }
  unfold PvdSafety.wp in H.
  now destruct (credentials_value _ _ _) as [[[? ?]|?| |] ?].
Qed.

End Payloads.

Section Composite.
Context (is_be : bool) (raw : bytes).
Hypothesis Hraw : bytes_ok raw.

Let Hlen : 0 <= zlen raw := zlen_nonneg raw.

Lemma safe_server_authz : safe (server_authz raw is_be) (fun _ => True).
Proof using Hraw.
  unfold server_authz. safe_step; [|done]. do 4 safe_step.
  - safe_step. rewrite zlen_drop in * by lia. safe_step.
    eapply safe_conseq; [apply safe_strings_until; [done|lia]|]. now intros [? ?] _.
  - safe_step. do 2 safe_step; done.
Qed.

Lemma safe_client_authz : safe (client_authz raw is_be) (fun _ => True).
Proof using Hraw.
  unfold client_authz. safe_step; [|done]. do 2 safe_step; [|done]. safe_step.
  safe_step; [|done]. do 3 safe_step.
  eapply safe_conseq; [apply safe_credentials; auto with codec|]. now intros [? ?] _.
Qed.

Lemma safe_connection_validation is_server :
  safe (connection_validation_new raw is_be is_server) (fun _ => True).
Proof using Hraw.
  unfold connection_validation_new. safe_step; [done|]. do 4 safe_step. destruct is_server.
  - safe_step. eapply safe_conseq; [apply safe_server_authz|done].
  - safe_step; [done|]. do 3 safe_step.
    eapply safe_conseq; [apply safe_client_authz|]. now intros [[? ?] ?] _.
Qed.

Lemma safe_create_channel_status : 8 <= zlen raw -> safe (create_channel_status raw is_be) (fun _ => True).
Proof using Hraw.
  intros. unfold create_channel_status. safe_step; [|done]. do 2 safe_step. safe_step; [done|]. safe_step.
  eapply safe_conseq; [apply safe_string_if_present; [done|lia]|]. intros m Hm. cbv beta iota zeta. safe_step.
  eapply safe_conseq; [apply safe_string_if_present; [done|destruct m as [[? ?]|]; lia]|done].
Qed.

Lemma safe_create_channel is_server : safe (create_channel_new raw is_be is_server) (fun _ => True).
Proof using Hraw.
  unfold create_channel_new. safe_step; [done|]. destruct is_server.
  - safe_step; [done|]. do 5 safe_step. eapply safe_conseq; [apply safe_create_channel_status; lia|done].
  - safe_step; [done|]. do 3 safe_step. eapply safe_conseq; [apply safe_channel_requests; [done|lia]|done].
Qed.

Lemma safe_final_string off : 0 <= off <= zlen raw -> safe (final_string raw off is_be) (fun _ => True).
Proof using Hraw. intros. unfold final_string. do 2 safe_step; [safe_step|]; done. Qed.

Lemma safe_get_field_client : safe (get_field_client raw is_be) (fun _ => True).
Proof using Hraw.
  unfold get_field_client. safe_step; [done|]. do 3 safe_step.
  eapply (safe_conseq _ (fun _ => True)).
  { safe_step; [apply safe_final_string; lia|done]. }
  intros legacy _. cbv beta iota. safe_step. eapply (safe_conseq _ (fun _ => True)).
  { safe_step; [|done]. do 3 safe_step. eapply safe_conseq; [apply safe_final_string; lia|done]. }
  intros epics _. now destruct epics as [[? ?]|].
Qed.

End Composite.

(** Status, then introspection. *)
Lemma safe_status_then_intro is_be raw :
  bytes_ok raw -> safe (parse_status_then_intro raw is_be) (fun _ => True).
Proof.
  intros Hr. unfold parse_status_then_intro. safe_step. eapply safe_conseq; [now apply safe_status|].
  intros [st c] Hc. cbv beta iota. safe_step. eapply safe_conseq; [apply safe_rest_after; [done|lia]|].
  intros d Hd. cbv beta. safe_step. eapply safe_conseq; [now apply safe_introspection_of|done].
Qed.

Lemma safe_get_field is_be raw is_server :
  bytes_ok raw -> safe (get_field_new raw is_be is_server) (fun _ => True).
Proof.
  intros Hr. unfold get_field_new. destruct is_server; cbn [negb]; [|now apply safe_get_field_client].
  pose proof (zlen_nonneg raw). safe_step. eapply (safe_conseq _ (fun _ => True)); [|now intros [? [[? ?] ?]] _].
  safe_step; [do 5 safe_step|safe_step].
  - eapply safe_conseq; [apply safe_status_then_intro; auto with codec|done].
  - eapply safe_conseq; [now apply safe_status_then_intro|done].
Qed.

Lemma safe_op is_be raw is_server command :
  bytes_ok raw -> safe (op_new raw is_be is_server command) (fun _ => True).
Proof.
  intros Hr. unfold op_new. safe_step; [done|]. safe_step.
  eapply (safe_conseq _ (fun '(_, _, _, offset) => 0 <= offset)).
  { destruct is_server; [do 5 safe_step; lia|]. safe_step; [done|]. do 7 safe_step. lia. }
  intros [[[sid io] sub] offset] Ho. cbv beta iota zeta. safe_step.
  eapply safe_conseq; [apply safe_rest_after; done|]. intros body Hb. cbv beta. safe_step.
  eapply (safe_conseq _ (fun '(_, d) => bytes_ok d)).
  { safe_step; [apply safe_ok; constructor|]. safe_step; [|done]. safe_step. eapply safe_conseq; [now apply safe_status|].
    intros [st c] Hc. cbv beta iota. safe_step. eapply safe_conseq; [apply safe_rest_after; [done|lia]|done]. }
  intros [st d] Hd. cbv beta iota. safe_step. eapply (safe_conseq _ (fun _ => True)); [|done].
  safe_step; [now apply safe_introspection_of|done].
Qed.

Lemma safe_wrap {A B} (f : A -> B) (m : Opt A) : safe m (fun _ => True) -> safe (wrap f m) (fun _ => True).
Proof. now destruct m. Qed.

Lemma safe_simple_payloads is_be raw :
  bytes_ok raw ->
  safe (beacon_new raw is_be) (fun _ => True) /\ safe (search_new raw is_be) (fun _ => True) /\
  safe (search_response_new raw is_be) (fun _ => True) /\ safe (authnz_new raw is_be) (fun _ => True) /\
  safe (acl_change_new raw is_be) (fun _ => True) /\ safe (destroy_channel_new raw is_be) (fun _ => True) /\
  safe (connection_validated_new raw is_be) (fun _ => True) /\
  safe (destroy_request_new raw is_be) (fun _ => True) /\ safe (message_new raw is_be) (fun _ => True) /\
  safe (multiple_data_new raw is_be) (fun _ => True) /\
  safe (cancel_request_new raw is_be) (fun _ => True) /\ safe (origin_tag_new raw) (fun _ => True).
Proof.
  intros Hr. pose proof (zlen_nonneg raw). split_and!.
  - unfold beacon_new. safe_step; [done|]. do 15 safe_step. safe_step; [|done]. do 3 safe_step. done.
  - unfold search_new. safe_step; [done|]. safe_step; [done|]. do 12 safe_step.
    rewrite zlen_drop in * by lia. safe_step. eapply safe_conseq; [apply safe_all_strings; [done|lia]|].
    intros [ps o] Ho. cbv beta iota. safe_step; [done|]. do 3 safe_step.
    eapply safe_conseq; [apply safe_search_pvs; [done|lia]|]. now intros [? ?] _.
  - unfold search_response_new. safe_step; [done|]. do 10 safe_step. safe_step; [done|]. do 2 safe_step.
    safe_step; [|done]. do 3 safe_step. eapply safe_conseq; [apply safe_read_cids; [done|lia]|done].
  - unfold authnz_new. do 2 safe_step; [|done]. do 2 safe_step.
    eapply safe_conseq; [apply safe_strings_until; [done|lia]|]. now intros [? ?] _.
  - unfold acl_change_new. safe_step. eapply safe_conseq; [now apply safe_status|].
    intros [st c] Hc. cbv beta iota. safe_step. eapply safe_conseq; [apply safe_rest_after; [done|lia]|done].
  - unfold destroy_channel_new. safe_step; [done|]. do 4 safe_step. done.
  - unfold connection_validated_new. safe_step. eapply safe_conseq; [now apply safe_status|]. now intros [? ?] _.
  - unfold destroy_request_new. safe_step; [do 4 safe_step; done|]. safe_step; [do 2 safe_step; done|done].
  - unfold message_new. safe_step; [|done]. do 5 safe_step. eapply (safe_conseq _ (fun _ => True)); [|done].
    safe_step; [|done]. do 2 safe_step; [safe_step|]; done.
  - unfold multiple_data_new. do 2 safe_step; [|done]. do 2 safe_step.
    eapply safe_conseq; [apply safe_data_entries; [done|lia]|done].
  - unfold cancel_request_new. safe_step; [done|]. do 2 safe_step. safe_step; [|done]. do 3 safe_step.
    eapply safe_conseq; [apply safe_status; auto with codec|]. now intros [? ?] _.
  - unfold origin_tag_new. safe_step; [done|]. safe_step. done.
Qed.

Lemma safe_command command raw is_be is_server :
  bytes_ok raw -> safe (decode_command command raw is_be is_server) (fun _ => True).
Proof.
  intros Hr. destruct (safe_simple_payloads is_be raw Hr) as (? & ? & ? & ? & ? & ? & ? & ? & ? & ? & ? & ?).
  unfold decode_command.
  repeat (apply safe_if; intros _;
    [first [ done | apply safe_wrap; auto using safe_connection_validation, safe_create_channel,
                      safe_op, safe_get_field ]|]).
  done.
Qed.

(** C39: the packet decoder is total and takes exactly the declared bytes.  A frame
    shorter than a header is refused.  Otherwise the header holds the bytes of the
    frame, and no bytes make the decoding of the payload panic: a control frame
    yields its command and its data word, whatever follows; an application frame
    shorter than its declared payload is refused; every other frame yields what the
    decoder of its command makes of exactly the declared bytes behind the header,
    or, when that fails, an unknown command with their number. *)
Theorem packet_decode_total raw :
  bytes_ok raw ->
  match packet_try_new raw with
  | Ok p =>
    let h := header p in
    let body := take (Z.to_nat (payload_length h)) (drop 8 raw) in
    8 <= zlen raw /\ payload p = raw /\ command h = nth 3 raw 0 /\ flags h = flags_new (nth 2 raw 0) /\
    payload_length h = get_int (is_msb (flags h)) (take 4 (drop 4 raw)) /\
    if is_control (flags h) then decode_payload p = Ok (Control (command h) (payload_length h))
    else if zlen raw <? 8 + payload_length h then decode_payload p = Err tt
    else match decode_command (command h) body (is_msb (flags h)) (is_server (flags h)) with
         | Ok c => decode_payload p = Ok c
         | Err _ => decode_payload p = Ok (Unknown (command h) false (zlen body))
         | _ => False
         end
  | Err _ => zlen raw < 8
  | _ => False
  end.
Proof.
  intros Hr. unfold packet_try_new, header_try_new.
  destruct (zlen raw <? 8) eqn:E; bool_to_prop; [done|].
  rewrite !index_ok by lia. cbn [bind_outcome]. change (Z.to_nat 2) with 2%nat. change (Z.to_nat 3) with 3%nat.
  assert (read_uint raw 4 4 (is_msb (flags_new (nth 2 raw 0))) = Ok (get_int (is_msb (flags_new (nth 2 raw 0))) (take 4 (drop 4 raw)))) as Ev
    by (unfold read_uint; rewrite slice_ok by lia; done).
  set (v := get_int _ _) in *. assert (0 <= v) as Hv by (unfold v; apply get_int_bound; now apply Forall_take, Forall_drop).
  rewrite Ev. cbn [bind_outcome header payload flags command payload_length]. split_and!; try done; try lia.
  unfold decode_payload. cbn [header payload flags payload_length command].
  set (f := flags_new _) in *. rewrite (proj2 (Z.ltb_ge _ _)) by lia.
  destruct (is_control f) eqn:Ec.
  - rewrite (proj2 (Z.ltb_ge _ _)) by lia. rewrite slice_ok by lia. done.
  - destruct (zlen raw <? 8 + v) eqn:Ex; bool_to_prop; [done|].
    rewrite slice_ok by lia. cbn [bind_outcome]. replace (8 + v - 8) with v by lia. change (Z.to_nat 8) with 8%nat.
    pose proof (safe_command (nth 3 raw 0) (take (Z.to_nat v) (drop 8 raw)) (is_msb f) (is_server f) ltac:(now apply Forall_take, Forall_drop)) as H.
    destruct (decode_command _ _ _ _); done.
Qed.

Lemma packet_decode_total_witness :
  exists p, packet_try_new [0xCA; 2; 0; 3; 0; 0; 0; 0] = Ok p /\
    exists c, decode_payload p = Ok c.
Proof.
  pose proof (packet_decode_total [0xCA; 2; 0; 3; 0; 0; 0; 0]
    ltac:(repeat constructor; unfold byte_ok; lia)) as H.
  destruct (packet_try_new _) as [p|?| |] eqn:E; try (vm_compute in E; discriminate E).
  exists p. split; [done|]. destruct H as (_ & _ & _ & _ & _ & H). vm_compute in E. injection E as <-.
  vm_compute in H. eexists. exact H.
Defined.

(** The fallback of a server's connection validation for peers that send a
    single string is never reached with success: whenever the size of the method
    list cannot be decoded, the string cannot be decoded either, so the method
    is reported absent. *)
Theorem validation_fallback_dead raw is_be :
  (6 <? zlen raw) = true -> decode_size (drop 6 raw) is_be = Err tt ->
  decode_string (drop 6 raw) is_be = Err tt /\ server_authz raw is_be = Ok None.
Proof.
  intros Hl Hs. assert (decode_string (drop 6 raw) is_be = Err tt) as Hstr.
  { unfold decode_string, decode_size, ok, decode_string_prefixed in *.
    destruct (decode_size_prefixed (drop 6 raw) is_be); try discriminate Hs. done. }
  split; [done|]. unfold server_authz. rewrite Hl. bool_to_prop.
  rewrite slice_from_ok by lia. cbn [bind_outcome]. change (Z.to_nat 6) with 6%nat. rewrite Hs.
  cbn [catch bind_outcome]. unfold decode_string_at. rewrite slice_from_ok by lia. cbn [bind_outcome].
  change (Z.to_nat 6) with 6%nat. now rewrite Hstr.
Qed.

Lemma validation_fallback_dead_witness :
  server_authz [0; 0; 1; 0; 0; 2; 0xFE; 1] true = Ok None.
Proof. apply (validation_fallback_dead [0; 0; 1; 0; 0; 2; 0xFE; 1] true); reflexivity. Defined.

End Packet.
