(* ===== verification/Message.v ===== *)
(** * PVAccess messages: encoding and round trips

    Models [spvirit-codec/src/spvirit_encode.rs]: headers, frames, statuses and
    the builder of each message, with the theorems that the packet decoder of
    [epics_decode.rs] reads back what they write. *)

From stdpp Require Import gmap.
From S2P Require Import Prelude Utf8 Wire PvdTypes PvdEncode PvdDecode PvdSafety PvdRoundtrip.
From S2P Require Import Packet.

Local Open Scope Z_scope.

Module Message.
Import Wire PvdEncode Packet.

(** ** Headers and statuses *)

Definition push_header (out : bytes) (is_server is_be is_control : bool) (version command len : Z) : bytes :=
  let flags := 0 in
  let flags := if is_control then Z.lor flags 0x01 else flags in
  let flags := if is_server then Z.lor flags 0x40 else flags in
  let flags := if is_be then Z.lor flags 0x80 else flags in
  out ++ [0xCA; version; flags; command] ++ put_int is_be 4 len.

Definition encode_header (is_server is_be is_control : bool) (version command len : Z) : bytes :=
  push_header [] is_server is_be is_control version command len.

(** [encode_header(.., payload.len() as u32)] followed by the payload. *)
Definition frame (is_server is_be : bool) (version command : Z) (payload : bytes) : bytes :=
  encode_header is_server is_be false version command (as_u32 (zlen payload)) ++ payload.

Definition begin_frame (out : bytes) (is_be : bool) (version command : Z) : bytes * Z :=
  (push_header out true is_be false version command 0, zlen out).

(** [out[at + 4..at + 8].copy_from_slice(..)] on a sink that holds the header. *)
Definition finish_frame (out : bytes) (header_at : Z) (is_be : bool) : bytes :=
  let len := as_u32 (zlen out - header_at - 8) in
  take (Z.to_nat (header_at + 4)) out ++ put_int is_be 4 len ++ drop (Z.to_nat (header_at + 8)) out.

Definition encode_status_ok : bytes := [0xFF].

Definition encode_status_error (message : bytes) (is_be : bool) : bytes :=
  0x02 :: encode_string message is_be ++ encode_string [] is_be.

Definition encode_status_warning (message : bytes) (is_be : bool) : bytes :=
  0x01 :: encode_string message is_be ++ encode_string [] is_be.

Definition encode_status_fatal (message : bytes) (is_be : bool) : bytes :=
  0x03 :: encode_string message is_be ++ encode_string [] is_be.

(** ** Messages *)

Definition encode_message_error (message : bytes) (version : Z) (is_be : bool) : bytes :=
  frame true is_be version 18 (put_int is_be 4 0 ++ [2] ++ encode_string message is_be).

Definition encode_search_response (guid : bytes) (seq : Z) (addr : bytes) (port : Z) (protocol : bytes)
    (found : bool) (cids : list Z) (version : Z) (is_be : bool) : bytes :=
  frame true is_be version 4
    (guid ++ put_int is_be 4 seq ++ addr ++ put_int is_be 2 port ++ encode_string protocol is_be
     ++ [bool_byte found] ++ put_int is_be 2 (zlen cids mod 2 ^ 16)
     ++ concat (map (put_int is_be 4) cids)).

Definition encode_connection_validated (is_server : bool) (version : Z) (is_be : bool) : bytes :=
  frame is_server is_be version 9 encode_status_ok.

Definition encode_control_message (is_server is_be : bool) (version command data : Z) : bytes :=
  encode_header is_server is_be true version command data.

Definition encode_connection_validation (buffer_size registry_size : Z) (auth_methods : list bytes)
    (version : Z) (is_be : bool) : bytes :=
  frame true is_be version 1
    (put_int is_be 4 buffer_size ++ put_int is_be 2 registry_size
     ++ encode_size (zlen auth_methods) is_be
     ++ concat (map (fun m => encode_string m is_be) auth_methods)).

Definition encode_authnz_user_host (user host : bytes) (is_be : bool) : bytes :=
  [0xFD] ++ put_int is_be 2 1 ++ [0x80; 0x00] ++ [0x02] ++ [0x04] ++ str "user" ++ [0x60]
  ++ [0x04] ++ str "host" ++ [0x60] ++ encode_string user is_be ++ encode_string host is_be.

Definition encode_connection_validation_client_ca (buffer_size registry_size qos : Z)
    (method user host : bytes) (is_be : bool) : bytes :=
  put_int is_be 4 buffer_size ++ put_int is_be 2 registry_size ++ put_int is_be 2 qos
  ++ encode_string method is_be ++ encode_authnz_user_host user host is_be.

Definition encode_client_connection_validation (buffer_size registry_size qos : Z)
    (authz user host : bytes) (version : Z) (is_be : bool) : bytes :=
  frame false is_be version 1
    (put_int is_be 4 buffer_size ++ put_int is_be 2 registry_size ++ put_int is_be 2 qos
     ++ encode_string authz is_be ++ encode_authnz_user_host user host is_be).

Definition encode_connection_validation_client_anon (buffer_size registry_size qos : Z)
    (method : bytes) (is_be : bool) : bytes :=
  put_int is_be 4 buffer_size ++ put_int is_be 2 registry_size ++ put_int is_be 2 qos
  ++ encode_string method is_be.

Definition encode_create_channel_request (cid : Z) (pv_name : bytes) (version : Z) (is_be : bool) : bytes :=
  frame false is_be version 7 (put_int is_be 2 1 ++ put_int is_be 4 cid ++ encode_string pv_name is_be).

Definition encode_get_field_request (sid ioid : Z) (sub_field : option bytes) (version : Z) (is_be : bool)
  : bytes :=
  frame false is_be version 17
    (put_int is_be 4 sid ++ put_int is_be 4 ioid ++ encode_string (default [] sub_field) is_be).

Definition encode_op_request (command sid ioid subcmd : Z) (extra : bytes) (version : Z) (is_be : bool)
  : bytes :=
  frame false is_be version command (put_int is_be 4 sid ++ put_int is_be 4 ioid ++ [subcmd] ++ extra).

Definition encode_get_request := encode_op_request 10.
Definition encode_put_request := encode_op_request 11.
Definition encode_monitor_request := encode_op_request 13.
Definition encode_rpc_request := encode_op_request 20.

Definition encode_search_request (seq flags port : Z) (reply_addr : bytes)
    (pv_requests : list (Z * bytes)) (version : Z) (is_be : bool) : bytes :=
  frame false is_be version 3
    (put_int is_be 4 seq ++ [flags] ++ [0; 0; 0] ++ reply_addr ++ put_int is_be 2 port
     ++ encode_size 1 is_be ++ encode_string (str "tcp") is_be
     ++ put_int is_be 2 (zlen pv_requests mod 2 ^ 16)
     ++ concat (map (fun '(cid, nm) => put_int is_be 4 cid ++ encode_string nm is_be) pv_requests)).

Definition encode_create_channel_response (cid sid version : Z) (is_be : bool) : bytes :=
  frame true is_be version 7 (put_int is_be 4 cid ++ put_int is_be 4 sid ++ encode_status_ok).

Definition encode_create_channel_error (cid : Z) (message : bytes) (version : Z) (is_be : bool) : bytes :=
  frame true is_be version 7
    (put_int is_be 4 cid ++ put_int is_be 4 0 ++ [0x01] ++ encode_string message is_be
     ++ encode_string [] is_be).

Definition encode_get_field_response (request_id : Z) (desc : Ty.StructureDesc) (version : Z)
    (is_be : bool) : bytes :=
  frame true is_be version 17
    (put_int is_be 4 request_id ++ encode_status_ok ++ [0x80] ++ encode_structure_desc desc is_be).

Definition encode_get_field_error (request_id : Z) (message : bytes) (version : Z) (is_be : bool) : bytes :=
  frame true is_be version 17 (put_int is_be 4 request_id ++ encode_status_error message is_be).

Definition encode_op_init_response_desc (command ioid subcmd : Z) (desc : Ty.StructureDesc)
    (version : Z) (is_be : bool) : bytes :=
  frame true is_be version command
    (put_int is_be 4 ioid ++ [subcmd] ++ encode_status_ok ++ [0x80] ++ encode_structure_desc desc is_be).

Definition encode_op_status_response (command ioid subcmd version : Z) (is_be : bool) : bytes :=
  frame true is_be version command (put_int is_be 4 ioid ++ [subcmd] ++ encode_status_ok).

Definition encode_op_status_error_response (command ioid subcmd : Z) (message : bytes) (version : Z)
    (is_be : bool) : bytes :=
  frame true is_be version command (put_int is_be 4 ioid ++ [subcmd] ++ encode_status_error message is_be).

Definition encode_op_put_get_init_response (ioid : Z) (put_desc get_desc : Ty.StructureDesc)
    (version : Z) (is_be : bool) : bytes :=
  frame true is_be version 12
    (put_int is_be 4 ioid ++ [0x08] ++ encode_status_ok
     ++ [0x80] ++ encode_structure_desc put_desc is_be
     ++ [0x80] ++ encode_structure_desc get_desc is_be).

Definition encode_op_put_response (ioid subcmd version : Z) (is_be : bool) : bytes :=
  frame true is_be version 11 (put_int is_be 4 ioid ++ [subcmd] ++ encode_status_ok).

Definition encode_op_put_status_response (ioid subcmd : Z) (message : bytes) (version : Z)
    (is_be : bool) : bytes :=
  frame true is_be version 11 (put_int is_be 4 ioid ++ [subcmd] ++ encode_status_error message is_be).

Definition encode_op_put_get_init_error_response (ioid : Z) (message : bytes) (version : Z)
    (is_be : bool) : bytes :=
  frame true is_be version 12 (put_int is_be 4 ioid ++ [0x08] ++ encode_status_error message is_be).

Definition encode_op_put_get_data_error_response (ioid : Z) (message : bytes) (version : Z)
    (is_be : bool) : bytes :=
  frame true is_be version 12 (put_int is_be 4 ioid ++ [0x00] ++ encode_status_error message is_be).

Definition encode_destroy_channel_response (sid cid version : Z) (is_be : bool) : bytes :=
  frame true is_be version 8 (put_int is_be 4 sid ++ put_int is_be 4 cid).

Definition encode_destroy_request (sid ioid version : Z) (is_be : bool) : bytes :=
  frame false is_be version 15 (put_int is_be 4 sid ++ put_int is_be 4 ioid).

Definition encode_op_error (command subcmd ioid : Z) (message : bytes) (version : Z) (is_be : bool)
  : bytes :=
  frame true is_be version command
    (put_int is_be 4 ioid ++ [subcmd] ++ [0x02] ++ encode_string message is_be ++ encode_string [] is_be).

Definition encode_beacon (guid : bytes) (seq change_count : Z) (addr : bytes) (port : Z)
    (protocol : bytes) (version : Z) (is_be : bool) : bytes :=
  frame true is_be version 0
    (guid ++ [0x00] ++ [seq] ++ put_int is_be 2 change_count ++ addr ++ put_int is_be 2 port
     ++ encode_string protocol is_be ++ [0xFF]).

(** ** Addresses *)

(** An [IpAddr] by its octets. *)
Inductive IpAddr := V4 (octets : bytes) | V6 (octets : bytes).

Definition ip_to_bytes (ip : IpAddr) : bytes :=
  match ip with
  | V4 o => replicate 10 0 ++ [0xFF; 0xFF] ++ o
  | V6 o => o
  end.

Definition ip_from_bytes (addr : bytes) : option IpAddr :=
  if forallb (Z.eqb 0) addr then None
  else if forallb (Z.eqb 0) (take 10 addr) && (nth 10 addr 0 =? 0xFF) && (nth 11 addr 0 =? 0xFF)
  then Some (V4 (drop 12 addr))
  else Some (V6 addr).

(** ** Reading what was written *)

Lemma slice_at {E} (raw pre d rest : bytes) lo hi :
  raw = pre ++ d ++ rest -> lo = zlen pre -> hi = lo + zlen d -> @slice E Z raw lo hi = Ok d.
Proof.
  intros -> -> ->. pose proof (zlen_nonneg pre). pose proof (zlen_nonneg d). pose proof (zlen_nonneg rest).
  rewrite slice_ok by (rewrite ?zlen_app; lia). rewrite drop_app_zlen.
  replace (zlen pre + zlen d - zlen pre) with (zlen d) by lia. now rewrite take_app_zlen.
Qed.

Lemma slice_from_at {E} (raw pre rest : bytes) lo :
  raw = pre ++ rest -> lo = zlen pre -> @slice_from E Z raw lo = Ok rest.
Proof.
  intros -> ->. pose proof (zlen_nonneg pre). pose proof (zlen_nonneg rest).
  rewrite slice_from_ok by (rewrite ?zlen_app; lia). now rewrite drop_app_zlen.
Qed.

Lemma index_at {E} (raw pre rest : bytes) b i :
  raw = pre ++ b :: rest -> i = zlen pre -> @index E raw i = Ok b.
Proof.
  intros -> ->. pose proof (zlen_nonneg pre). pose proof (zlen_nonneg rest).
  rewrite index_ok by (rewrite zlen_app, zlen_cons; lia).
  unfold zlen at 1. now rewrite Nat2Z.id, app_nth2, Nat.sub_diag by lia.
Qed.

Lemma read_uint_at raw pre rest n is_be v off w :
  raw = pre ++ put_int is_be n v ++ rest -> off = zlen pre -> w = Z.of_nat n ->
  0 <= v < 256 ^ Z.of_nat n -> read_uint raw off w is_be = Ok v.
Proof.
  intros Hr Ho -> Hv. unfold read_uint.
  rewrite (slice_at raw pre (put_int is_be n v) rest) by (rewrite ?zlen_put_int; lia || done).
  cbn [bind_outcome]. now rewrite get_put_int_small.
Qed.

Lemma string_at raw pre rest s is_be off :
  raw = pre ++ encode_string s is_be ++ rest -> off = zlen pre -> PvdRoundtrip.name_ok s = true ->
  decode_string_at raw off is_be = Ok (s, zlen (encode_string s is_be)).
Proof.
  intros Hr Ho Hs. unfold PvdRoundtrip.name_ok in Hs. bool_to_prop.
  unfold decode_string_at. rewrite (slice_from_at raw pre (encode_string s is_be ++ rest)) by done.
  cbn [bind_outcome]. unfold decode_string. now rewrite decode_encode_string.
Qed.

Lemma size_at n is_be rest :
  0 <= n <= u32_max -> decode_size (encode_size n is_be ++ rest) is_be = Ok (n, zlen (encode_size n is_be)).
Proof. intros. unfold decode_size. now rewrite decode_encode_size. Qed.

Ltac pre := do 4 (cbn [app]; rewrite <- ?app_assoc); cbn [app]; reflexivity.
Ltac lens := autorewrite with codec_len; cbn [Z.of_nat]; lia.

(** ** Frames *)

Definition dir_flags (is_server is_be is_control : bool) : Z :=
  (if is_control then 0x01 else 0) + (if is_server then 0x40 else 0) + (if is_be then 0x80 else 0).

(** Backfilling the length gives the frame built payload first. *)
Lemma finish_frame_frame out is_be version command body :
  finish_frame ((begin_frame out is_be version command).1 ++ body) (begin_frame out is_be version command).2 is_be
  = out ++ frame true is_be version command body.
Proof.
  unfold begin_frame, finish_frame, frame, encode_header, push_header. cbn [fst snd]. rewrite !app_nil_l.
  set (hd := [0xCA; version; _; command]). pose proof (zlen_nonneg out).
  assert (zlen (put_int is_be 4 0) = 4) as Hz by apply zlen_put_int.
  assert (zlen (((out ++ hd ++ put_int is_be 4 0) ++ body)) = zlen out + 8 + zlen body) as ->
    by (rewrite !zlen_app, Hz; change (zlen hd) with 4; lia).
  replace (zlen out + 8 + zlen body - zlen out - 8) with (zlen body) by lia.
  replace ((out ++ hd ++ put_int is_be 4 0) ++ body) with ((out ++ hd) ++ put_int is_be 4 0 ++ body)
    by (rewrite <- !app_assoc; done).
  assert (zlen out + 4 = zlen (out ++ hd)) as -> by (rewrite zlen_app; reflexivity).
  rewrite take_app_zlen.
  replace (zlen out + 8) with (zlen ((out ++ hd) ++ put_int is_be 4 0)) by (rewrite !zlen_app, Hz; change (zlen hd) with 4; lia).
  rewrite (app_assoc (out ++ hd) (put_int is_be 4 0)), drop_app_zlen. rewrite <- !app_assoc. done.
Qed.

Lemma header_fields is_server is_be is_control version command len rest :
  0 <= len < 2 ^ 32 ->
  header_try_new (encode_header is_server is_be is_control version command len ++ rest)
  = Ok (mkHeader 0xCA version (flags_new (dir_flags is_server is_be is_control)) command len).
Proof.
  intros Hl. unfold header_try_new, encode_header, push_header. rewrite app_nil_l.
  set (f := if is_be then _ else _).
  assert (f = dir_flags is_server is_be is_control) as Hf by (destruct is_server, is_be, is_control; reflexivity).
  rewrite <- app_assoc. cbn [app].
  set (raw := 0xCA :: version :: f :: command :: put_int is_be 4 len ++ rest).
  assert (8 <= zlen raw) by (subst raw; rewrite !zlen_cons, zlen_app, zlen_put_int; pose proof (zlen_nonneg rest); lia).
  destruct (_ <? _) eqn:E; bool_to_prop; [lia|]. clear E.
  rewrite (index_at raw [] (version :: f :: command :: put_int is_be 4 len ++ rest) 0xCA) by done.
  rewrite (index_at raw [0xCA] (f :: command :: put_int is_be 4 len ++ rest) version) by done.
  rewrite (index_at raw [0xCA; version] (command :: put_int is_be 4 len ++ rest) f) by done.
  rewrite (index_at raw [0xCA; version; f] (put_int is_be 4 len ++ rest) command) by done.
  cbn [bind_outcome]. rewrite Hf.
  assert (is_msb (flags_new (dir_flags is_server is_be is_control)) = is_be) as ->
    by (destruct is_server, is_be, is_control; reflexivity).
  rewrite (read_uint_at raw [0xCA; version; f; command] rest 4 is_be len) by (done || (cbn; lia)). done.
Qed.

(** What decoding a frame comes down to: the payload decoder of its command. *)
Lemma decode_frame is_server is_be version command payload rest :
  zlen payload <= u32_max ->
  exists p, packet_try_new (frame is_server is_be version command payload ++ rest) = Ok p /\
    packet_is_valid p = true /\
    decode_payload p =
      match catch (decode_command command payload is_be is_server) with
      | Ok (Some c) => Ok c
      | Ok None => Ok (Unknown command false (zlen payload))
      | Err e => Err e | Panic => Panic | OutOfFuel => OutOfFuel
      end.
Proof.
  intros Hlen. pose proof (zlen_nonneg payload). pose proof (zlen_nonneg rest).
  unfold packet_try_new, frame. rewrite <- app_assoc.
  assert (as_u32 (zlen payload) = zlen payload) as -> by (unfold as_u32, u32_max in *; rewrite Z.mod_small; lia).
  rewrite header_fields by (unfold u32_max in *; lia). cbn [bind_outcome].
  eexists. split; [reflexivity|]. split; [destruct is_server, is_be; reflexivity|].
  unfold decode_payload. cbn [Packet.payload header flags payload_length Packet.command].
  assert (zlen (encode_header is_server is_be false version command (zlen payload)) = 8) as Hh
    by (unfold encode_header, push_header; rewrite app_nil_l, zlen_app, zlen_put_int; reflexivity).
  rewrite !zlen_app, Hh. destruct (_ <? 8) eqn:E; bool_to_prop; [lia|]. clear E.
  assert (is_control (flags_new (dir_flags is_server is_be false)) = false) as ->
    by (destruct is_server, is_be; reflexivity).
  assert (is_msb (flags_new (dir_flags is_server is_be false)) = is_be) as ->
    by (destruct is_server, is_be; reflexivity).
  assert (Packet.is_server (flags_new (dir_flags is_server is_be false)) = is_server) as ->
    by (destruct is_server, is_be; reflexivity).
  destruct (_ <? _) eqn:E; bool_to_prop; [lia|]. clear E.
  rewrite (slice_at _ (encode_header is_server is_be false version command (zlen payload)) payload rest) by (done || lia).
  cbn [bind_outcome]. now destruct (decode_command _ _ _ _) as [?|[]| |].
Qed.

(** Decoding one frame from the start of a buffer. *)
Definition decode_bytes (raw : bytes) : Opt PvaPacketCommand :=
  bind_outcome (packet_try_new raw) decode_payload.

Lemma decode_bytes_frame is_server is_be version command payload rest c :
  zlen payload <= u32_max -> decode_command command payload is_be is_server = Ok c ->
  decode_bytes (frame is_server is_be version command payload ++ rest) = Ok c.
Proof.
  intros Hlen Hc. destruct (decode_frame is_server is_be version command payload rest Hlen) as (p & E & _ & Hd).
  unfold decode_bytes. rewrite E. cbn [bind_outcome]. rewrite Hd, Hc. done.
Qed.

(** Selects the payload decoder of a known command code. *)
Ltac dispatch := unfold decode_command; cbn [Z.eqb Pos.eqb].

(** ** Counted lists *)

Definition u32_ok (v : Z) : bool := (0 <=? v) && (v <? 2 ^ 32).
Definition u16_ok (v : Z) : bool := (0 <=? v) && (v <? 2 ^ 16).
Definition request_ok (r : Z * bytes) : bool := u32_ok r.1 && PvdRoundtrip.name_ok r.2.

Definition encode_requests (reqs : list (Z * bytes)) (is_be : bool) : bytes :=
  concat (map (fun '(cid, nm) => put_int is_be 4 cid ++ encode_string nm is_be) reqs).

Lemma search_pvs_at is_be reqs : forall pre rest names acc,
  forallb request_ok reqs = true ->
  search_pvs (length reqs) (pre ++ encode_requests reqs is_be ++ rest) (zlen pre) is_be names acc
  = Ok (names ++ map snd reqs, acc ++ reqs).
Proof.
  induction reqs as [|[cid nm] reqs IH]; intros pre rest names acc Hok; cbn [length search_pvs map].
  { now rewrite !app_nil_r. }
  cbn [forallb] in Hok. apply andb_true_iff in Hok as [H Hok]. unfold request_ok, u32_ok in H. cbn in H. bool_to_prop.
  unfold encode_requests. cbn [map concat]. fold (encode_requests reqs is_be).
  set (raw := pre ++ ((put_int is_be 4 cid ++ encode_string nm is_be) ++ encode_requests reqs is_be) ++ rest).
  pose proof (encode_string_pos nm is_be). pose proof (zlen_nonneg (encode_requests reqs is_be)). pose proof (zlen_nonneg rest).
  destruct (_ <? _) eqn:E; bool_to_prop; [subst raw; rewrite !zlen_app, zlen_put_int in E; lia|]. clear E.
  rewrite (read_uint_at raw pre (encode_string nm is_be ++ encode_requests reqs is_be ++ rest) 4 is_be cid)
    by (subst raw; pre || lia || done).
  cbn [bind_outcome].
  rewrite (string_at raw (pre ++ put_int is_be 4 cid) (encode_requests reqs is_be ++ rest) nm)
    by (subst raw; pre || lens || done).
  cbn [bind_outcome].
  specialize (IH (pre ++ put_int is_be 4 cid ++ encode_string nm is_be) rest (names ++ [nm]) (acc ++ [(cid, nm)]) Hok).
  replace (zlen pre + 4 + zlen (encode_string nm is_be))
    with (zlen (pre ++ put_int is_be 4 cid ++ encode_string nm is_be)) by lens.
  subst raw. rewrite <- !app_assoc in *. cbn [app] in *. exact IH.
Qed.

Lemma read_cids_at is_be cids : forall pre rest acc,
  forallb u32_ok cids = true ->
  read_cids (length cids) (pre ++ concat (map (put_int is_be 4) cids) ++ rest) (zlen pre) is_be acc
  = Ok (acc ++ cids).
Proof.
  induction cids as [|cid cids IH]; intros pre rest acc Hok; cbn [length read_cids map concat].
  { now rewrite app_nil_r. }
  cbn [forallb] in Hok. apply andb_true_iff in Hok as [H Hok]. unfold u32_ok in H. bool_to_prop.
  set (more := concat (map (put_int is_be 4) cids)).
  set (raw := pre ++ (put_int is_be 4 cid ++ more) ++ rest).
  pose proof (zlen_nonneg more). pose proof (zlen_nonneg rest).
  destruct (_ <? _) eqn:E; bool_to_prop; [subst raw; rewrite !zlen_app, zlen_put_int in E; lia|]. clear E.
  rewrite (read_uint_at raw pre (more ++ rest) 4 is_be cid) by (subst raw; pre || lia || done).
  cbn [bind_outcome]. specialize (IH (pre ++ put_int is_be 4 cid) rest (acc ++ [cid]) Hok). fold more in IH.
  replace (zlen pre + 4) with (zlen (pre ++ put_int is_be 4 cid)) by lens.
  subst raw. rewrite <- !app_assoc in *. cbn [app] in *. exact IH.
Qed.

Lemma strings_until_at is_be strings : forall pre rest acc,
  forallb PvdRoundtrip.name_ok strings = true ->
  exists o, strings_until (length strings)
    (pre ++ concat (map (fun m => encode_string m is_be) strings) ++ rest) (zlen pre) is_be acc
  = Ok (acc ++ strings, o).
Proof.
  induction strings as [|s strings IH]; intros pre rest acc Hok; cbn [length strings_until map concat].
  { exists (zlen pre). now rewrite app_nil_r. }
  cbn [forallb] in Hok. apply andb_true_iff in Hok as [Hs Hok].
  set (more := concat (map (fun m => encode_string m is_be) strings)).
  set (raw := pre ++ (encode_string s is_be ++ more) ++ rest).
  rewrite (string_at raw pre (more ++ rest) s) by (subst raw; pre || done). cbn [catch bind_outcome].
  specialize (IH (pre ++ encode_string s is_be) rest (acc ++ [s]) Hok). fold more in IH.
  replace (zlen pre + zlen (encode_string s is_be)) with (zlen (pre ++ encode_string s is_be)) by lens.
  subst raw. rewrite <- !app_assoc in *. cbn [app] in *. exact IH.
Qed.

(** ** Discovery *)

Lemma search_new_encode is_be seq flags port addr reqs :
  u32_ok seq = true -> u16_ok port = true -> zlen addr = 16 -> forallb request_ok reqs = true ->
  zlen reqs < 2 ^ 16 ->
  search_new (put_int is_be 4 seq ++ [flags] ++ [0; 0; 0] ++ addr ++ put_int is_be 2 port
     ++ encode_size 1 is_be ++ encode_string (str "tcp") is_be
     ++ put_int is_be 2 (zlen reqs mod 2 ^ 16) ++ encode_requests reqs is_be) is_be
  = Ok (mkSearch seq flags addr port [str "tcp"] reqs (map snd reqs)).
Proof.
  intros Hs Hp Ha Hr Hn. unfold u32_ok, u16_ok in *. bool_to_prop. pose proof (zlen_nonneg reqs).
  rewrite Z.mod_small by lia. set (er := encode_requests reqs is_be). pose proof (zlen_nonneg er).
  change (encode_size 1 is_be) with [1]. change (encode_string (str "tcp") is_be) with [3; 116; 99; 112].
  set (tail := [1] ++ [3; 116; 99; 112] ++ put_int is_be 2 (zlen reqs) ++ er).
  set (raw := put_int is_be 4 seq ++ [flags] ++ [0; 0; 0] ++ addr ++ put_int is_be 2 port ++ tail).
  assert (zlen raw = 33 + zlen er) as Hlen by (subst raw tail; autorewrite with codec_len; rewrite Ha; cbn; lia).
  unfold search_new.
  destruct (_ =? 0) eqn:E; bool_to_prop; [lia|]. clear E. destruct (_ <? 26) eqn:E; bool_to_prop; [lia|]. clear E.
  rewrite (read_uint_at raw [] ([flags] ++ [0; 0; 0] ++ addr ++ put_int is_be 2 port ++ tail) 4 is_be seq)
    by (done || (cbn; lia)). cbn [bind_outcome].
  rewrite (index_at raw (put_int is_be 4 seq) ([0; 0; 0] ++ addr ++ put_int is_be 2 port ++ tail) flags)
    by (done || lens). cbn [bind_outcome].
  rewrite (slice_at raw (put_int is_be 4 seq ++ [flags; 0; 0; 0]) addr (put_int is_be 2 port ++ tail))
    by (subst raw; pre || (rewrite ?Ha; lens)). cbn [bind_outcome].
  rewrite (read_uint_at raw (put_int is_be 4 seq ++ [flags; 0; 0; 0] ++ addr) tail 2 is_be port)
    by (subst raw; pre || (autorewrite with codec_len; rewrite ?Ha; cbn; lia) || (cbn; lia)). cbn [bind_outcome].
  rewrite (slice_from_at raw (put_int is_be 4 seq ++ [flags; 0; 0; 0] ++ addr ++ put_int is_be 2 port) tail)
    by (subst raw; pre || (autorewrite with codec_len; rewrite ?Ha; cbn; lia)). cbn [bind_outcome].
  assert (decode_size tail is_be = Ok (1, 1)) as -> by (subst tail; reflexivity). cbn [bind_outcome].
  change (Z.to_nat 1) with 1%nat. cbn [all_strings].
  rewrite (string_at raw (put_int is_be 4 seq ++ [flags; 0; 0; 0] ++ addr ++ put_int is_be 2 port ++ [1])
    (put_int is_be 2 (zlen reqs) ++ er) (str "tcp"))
    by (subst raw tail; pre || (autorewrite with codec_len; rewrite ?Ha; cbn; lia) || reflexivity).
  cbn [bind_outcome app]. change (zlen (encode_string (str "tcp") is_be)) with 4.
  destruct (_ <? _) eqn:E; bool_to_prop; [lia|]. clear E.
  set (hd := put_int is_be 4 seq ++ [flags; 0; 0; 0] ++ addr ++ put_int is_be 2 port ++ [1; 3; 116; 99; 112]).
  assert (zlen hd = 31) as Hhd by (subst hd; autorewrite with codec_len; rewrite ?Ha; cbn; lia).
  rewrite (read_uint_at raw hd er 2 is_be (zlen reqs)) by (subst raw tail hd; pre || lia || (cbn; lia)).
  cbn [bind_outcome]. replace (Z.to_nat (zlen reqs)) with (length reqs) by (unfold zlen; lia).
  pose proof (search_pvs_at is_be reqs (hd ++ put_int is_be 2 (zlen reqs)) [] [] [] Hr) as Hs'.
  rewrite app_nil_r, zlen_app, zlen_put_int, Hhd in Hs'. fold er in Hs'. cbn [app Z.of_nat] in Hs'.
  replace ((hd ++ put_int is_be 2 (zlen reqs)) ++ er) with raw in Hs' by (subst raw tail hd; pre).
  change (26 + 1 + 4 + 2) with 33. change (31 + Z.of_nat 2) with 33 in Hs'. rewrite Hs'. done.
Qed.

Ltac lens16 Ha := autorewrite with codec_len; rewrite ?Ha; cbn; lia.

Lemma search_response_encode is_be guid seq addr port protocol found cids :
  zlen guid = 12 -> u32_ok seq = true -> zlen addr = 16 -> u16_ok port = true ->
  PvdRoundtrip.name_ok protocol = true -> forallb u32_ok cids = true -> zlen cids < 2 ^ 16 ->
  search_response_new (guid ++ put_int is_be 4 seq ++ addr ++ put_int is_be 2 port
     ++ encode_string protocol is_be ++ [bool_byte found] ++ put_int is_be 2 (zlen cids mod 2 ^ 16)
     ++ concat (map (put_int is_be 4) cids)) is_be
  = Ok (mkSearchResponse guid seq addr port protocol found cids).
Proof.
  intros Hg Hs Ha Hp Hpr Hc Hn. unfold u32_ok in Hs. unfold u16_ok in Hp. bool_to_prop.
  pose proof (zlen_nonneg cids). rewrite Z.mod_small by lia.
  set (ec := concat _). set (ep := encode_string protocol is_be). pose proof (zlen_nonneg ec).
  pose proof (encode_string_pos protocol is_be) as Hep. fold ep in Hep.
  set (tail := [bool_byte found] ++ put_int is_be 2 (zlen cids) ++ ec).
  set (raw := guid ++ put_int is_be 4 seq ++ addr ++ put_int is_be 2 port ++ ep ++ tail).
  set (hd := guid ++ put_int is_be 4 seq ++ addr ++ put_int is_be 2 port).
  assert (zlen hd = 34) as Hhd by (subst hd; autorewrite with codec_len; rewrite Hg, Ha; cbn; lia).
  assert (raw = hd ++ ep ++ tail) as Hraw by (subst raw hd; pre).
  assert (zlen raw = 34 + zlen ep + 3 + zlen ec) as Hlen
    by (rewrite Hraw; subst tail; autorewrite with codec_len; rewrite Hhd; cbn; lia).
  unfold search_response_new. destruct (_ <? 34) eqn:E; bool_to_prop; [lia|]. clear E.
  rewrite (slice_at raw [] guid (put_int is_be 4 seq ++ addr ++ put_int is_be 2 port ++ ep ++ tail)) by (done || lia).
  cbn [bind_outcome].
  rewrite (read_uint_at raw guid (addr ++ put_int is_be 2 port ++ ep ++ tail) 4 is_be seq) by (done || lia || (cbn; lia)).
  cbn [bind_outcome].
  rewrite (slice_at raw (guid ++ put_int is_be 4 seq) addr (put_int is_be 2 port ++ ep ++ tail))
    by (subst raw; pre || (autorewrite with codec_len; rewrite ?Hg, ?Ha; cbn; lia)). cbn [bind_outcome].
  rewrite (read_uint_at raw (guid ++ put_int is_be 4 seq ++ addr) (ep ++ tail) 2 is_be port)
    by (subst raw; pre || (autorewrite with codec_len; rewrite ?Hg, ?Ha; cbn; lia) || (cbn; lia)). cbn [bind_outcome].
  rewrite (string_at raw hd tail protocol) by (done || lia). cbn [bind_outcome]. fold ep.
  destruct (_ <=? _) eqn:E; bool_to_prop; [lia|]. clear E.
  rewrite (index_at raw (hd ++ ep) (put_int is_be 2 (zlen cids) ++ ec) (bool_byte found))
    by (rewrite ?Hraw; subst tail; pre || lens). cbn [bind_outcome].
  assert (negb (bool_byte found =? 0) = found) as -> by now destruct found.
  destruct (_ <=? _) eqn:E; bool_to_prop; [|lia]. clear E.
  rewrite (read_uint_at raw (hd ++ ep ++ [bool_byte found]) ec 2 is_be (zlen cids))
    by (rewrite ?Hraw; subst tail; pre || lens || (cbn; lia)). cbn [bind_outcome].
  replace (Z.to_nat (zlen cids)) with (length cids) by (unfold zlen; lia).
  pose proof (read_cids_at is_be cids (hd ++ ep ++ [bool_byte found] ++ put_int is_be 2 (zlen cids)) [] [] Hc) as Hr.
  fold ec in Hr. rewrite app_nil_r in Hr.
  replace ((hd ++ ep ++ [bool_byte found] ++ put_int is_be 2 (zlen cids)) ++ ec) with raw in Hr
    by (rewrite Hraw; subst tail; pre).
  replace (zlen (hd ++ ep ++ [bool_byte found] ++ put_int is_be 2 (zlen cids))) with (34 + zlen ep + 1 + 2) in Hr by lens.
  rewrite Hr. done.
Qed.

Lemma beacon_encode is_be guid seq cc addr port protocol :
  zlen guid = 12 -> zlen addr = 16 -> u16_ok cc = true -> u16_ok port = true ->
  PvdRoundtrip.name_ok protocol = true ->
  beacon_new (guid ++ [0x00] ++ [seq] ++ put_int is_be 2 cc ++ addr ++ put_int is_be 2 port
     ++ encode_string protocol is_be ++ [0xFF]) is_be
  = Ok (mkBeacon guid 0 seq cc addr port protocol []).
Proof.
  intros Hg Ha Hcc Hp Hpr. unfold u16_ok in *. bool_to_prop.
  set (ep := encode_string protocol is_be). pose proof (encode_string_pos protocol is_be) as Hep. fold ep in Hep.
  set (raw := guid ++ [0x00] ++ [seq] ++ put_int is_be 2 cc ++ addr ++ put_int is_be 2 port ++ ep ++ [0xFF]).
  set (hd := guid ++ [0x00; seq] ++ put_int is_be 2 cc ++ addr ++ put_int is_be 2 port).
  assert (zlen hd = 34) as Hhd by (subst hd; autorewrite with codec_len; rewrite Hg, Ha; cbn; lia).
  assert (raw = hd ++ ep ++ [0xFF]) as Hraw by (subst raw hd; pre).
  assert (zlen raw = 35 + zlen ep) as Hlen by (rewrite Hraw; autorewrite with codec_len; rewrite Hhd; lia).
  unfold beacon_new. destruct (_ <? 34) eqn:E; bool_to_prop; [lia|]. clear E.
  rewrite (slice_at raw [] guid ([0x00; seq] ++ put_int is_be 2 cc ++ addr ++ put_int is_be 2 port ++ ep ++ [0xFF])) by (done || lia).
  cbn [bind_outcome].
  rewrite (index_at raw guid ([seq] ++ put_int is_be 2 cc ++ addr ++ put_int is_be 2 port ++ ep ++ [0xFF]) 0x00) by (done || lia).
  cbn [bind_outcome].
  rewrite (index_at raw (guid ++ [0x00]) (put_int is_be 2 cc ++ addr ++ put_int is_be 2 port ++ ep ++ [0xFF]) seq)
    by (subst raw; pre || (autorewrite with codec_len; lia)). cbn [bind_outcome].
  rewrite (read_uint_at raw (guid ++ [0x00; seq]) (addr ++ put_int is_be 2 port ++ ep ++ [0xFF]) 2 is_be cc)
    by (subst raw; pre || (autorewrite with codec_len; lia) || (cbn; lia)). cbn [bind_outcome].
  rewrite (slice_at raw (guid ++ [0x00; seq] ++ put_int is_be 2 cc) addr (put_int is_be 2 port ++ ep ++ [0xFF]))
    by (subst raw; pre || (autorewrite with codec_len; rewrite ?Hg, ?Ha; cbn; lia)). cbn [bind_outcome].
  rewrite (read_uint_at raw (guid ++ [0x00; seq] ++ put_int is_be 2 cc ++ addr) (ep ++ [0xFF]) 2 is_be port)
    by (subst raw; pre || (autorewrite with codec_len; rewrite ?Hg, ?Ha; cbn; lia) || (cbn; lia)). cbn [bind_outcome].
  rewrite (string_at raw hd [0xFF] protocol) by (done || lia). cbn [bind_outcome]. fold ep.
  destruct (_ >? _) eqn:E; bool_to_prop; [|lia]. clear E.
  unfold decode_string_at. rewrite (slice_from_at raw (hd ++ ep) [0xFF]) by (rewrite ?Hraw; pre || lens). done.
Qed.

(** ** Channels *)

Lemma create_request_encode is_be cid nm :
  u32_ok cid = true -> PvdRoundtrip.name_ok nm = true ->
  create_channel_new (put_int is_be 2 1 ++ put_int is_be 4 cid ++ encode_string nm is_be) is_be false
  = Ok (mkCreateChannel false [(cid, nm)] 0 0 None).
Proof.
  intros Hc Hn. unfold u32_ok in Hc. bool_to_prop. set (en := encode_string nm is_be).
  pose proof (encode_string_pos nm is_be) as Hen. fold en in Hen.
  set (raw := put_int is_be 2 1 ++ put_int is_be 4 cid ++ en).
  assert (zlen raw = 6 + zlen en) as Hlen by (subst raw; autorewrite with codec_len; cbn; lia).
  unfold create_channel_new. destruct (_ =? 0) eqn:E; bool_to_prop; [lia|]. clear E.
  destruct (_ <? 2) eqn:E; bool_to_prop; [lia|]. clear E.
  rewrite (read_uint_at raw [] (put_int is_be 4 cid ++ en) 2 is_be 1) by (done || (cbn; lia)). cbn [bind_outcome].
  change (Z.to_nat 1) with 1%nat. cbn [channel_requests].
  destruct (_ <? _) eqn:E; bool_to_prop; [lia|]. clear E.
  rewrite (read_uint_at raw (put_int is_be 2 1) en 4 is_be cid) by (done || lens || (cbn; lia)). cbn [bind_outcome].
  rewrite (string_at raw (put_int is_be 2 1 ++ put_int is_be 4 cid) [] nm)
    by (subst raw; rewrite ?app_nil_r; pre || lens || done). done.
Qed.

Lemma create_response_encode is_be cid sid tail :
  u32_ok cid = true -> u32_ok sid = true ->
  create_channel_new (put_int is_be 4 cid ++ put_int is_be 4 sid ++ tail) is_be true
  = bind_outcome (create_channel_status (put_int is_be 4 cid ++ put_int is_be 4 sid ++ tail) is_be)
      (fun st => Ok (mkCreateChannel true [] cid sid st)).
Proof.
  intros Hc Hs. unfold u32_ok in *. bool_to_prop. pose proof (zlen_nonneg tail).
  set (raw := put_int is_be 4 cid ++ put_int is_be 4 sid ++ tail).
  assert (zlen raw = 8 + zlen tail) as Hlen by (subst raw; autorewrite with codec_len; cbn; lia).
  unfold create_channel_new. destruct (_ =? 0) eqn:E; bool_to_prop; [lia|]. clear E.
  destruct (_ <? 8) eqn:E; bool_to_prop; [lia|]. clear E.
  rewrite (read_uint_at raw [] (put_int is_be 4 sid ++ tail) 4 is_be cid) by (done || (cbn; lia)). cbn [bind_outcome].
  rewrite (read_uint_at raw (put_int is_be 4 cid) tail 4 is_be sid) by (done || lens || (cbn; lia)). done.
Qed.

Lemma create_ok_encode is_be cid sid :
  u32_ok cid = true -> u32_ok sid = true ->
  create_channel_new (put_int is_be 4 cid ++ put_int is_be 4 sid ++ encode_status_ok) is_be true
  = Ok (mkCreateChannel true [] cid sid None).
Proof.
  intros Hc Hs. rewrite create_response_encode by done. unfold create_channel_status.
  set (raw := put_int is_be 4 cid ++ put_int is_be 4 sid ++ encode_status_ok).
  assert (zlen raw = 9) as -> by (subst raw; autorewrite with codec_len; reflexivity). cbn [Z.gtb Z.compare Pos.compare Pos.compare_cont].
  rewrite (index_at raw (put_int is_be 4 cid ++ put_int is_be 4 sid) [] 0xFF) by (subst raw; pre || lens). done.
Qed.

Lemma create_error_encode is_be cid message :
  u32_ok cid = true -> PvdRoundtrip.name_ok message = true ->
  create_channel_new (put_int is_be 4 cid ++ put_int is_be 4 0 ++ [0x01] ++ encode_string message is_be
     ++ encode_string [] is_be) is_be true
  = Ok (mkCreateChannel true [] cid 0 (Some (mkStatus 1 (Some message) (Some [])))).
Proof.
  intros Hc Hm. rewrite create_response_encode by done. unfold create_channel_status.
  set (em := encode_string message is_be). pose proof (encode_string_pos message is_be) as Hem. fold em in Hem.
  change (encode_string [] is_be) with [0].
  set (raw := put_int is_be 4 cid ++ put_int is_be 4 0 ++ [0x01] ++ em ++ [0]).
  assert (zlen raw = 10 + zlen em) as Hlen by (subst raw; autorewrite with codec_len; cbn; lia).
  destruct (_ >? _) eqn:E; bool_to_prop; [|lia]. clear E.
  rewrite (index_at raw (put_int is_be 4 cid ++ put_int is_be 4 0) (em ++ [0]) 0x01) by (subst raw; pre || lens).
  cbn [bind_outcome Z.eqb Pos.eqb]. unfold string_if_present at 1.
  destruct (_ <? _) eqn:E; bool_to_prop; [|lia]. clear E.
  rewrite (string_at raw (put_int is_be 4 cid ++ put_int is_be 4 0 ++ [0x01]) [0] message) by (subst raw; pre || lens || done).
  cbn [catch bind_outcome]. fold em. unfold string_if_present.
  destruct (_ <? _) eqn:E; bool_to_prop; [|lia]. clear E.
  rewrite (string_at raw (put_int is_be 4 cid ++ put_int is_be 4 0 ++ [0x01] ++ em) [] []) by (subst raw; pre || lens || done).
  done.
Qed.

(** ** Operations *)

Lemma rest_after_at (raw pre rest : bytes) n :
  raw = pre ++ rest -> n = zlen pre -> rest_after raw n = Ok rest.
Proof.
  intros -> ->. unfold rest_after. pose proof (zlen_nonneg rest). rewrite zlen_app.
  destruct (_ >? _) eqn:E; bool_to_prop; [now apply (slice_from_at _ pre)|].
  f_equal. symmetry. apply zlen_zero_inv. lia.
Qed.

Lemma status_decode is_be code message rest :
  code <> 0xFF -> PvdRoundtrip.name_ok message = true ->
  decode_status (code :: encode_string message is_be ++ encode_string [] is_be ++ rest) is_be
  = Ok (Some (mkStatus code (Some message) (Some [])), 2 + zlen (encode_string message is_be)).
Proof.
  intros Hc Hm. unfold decode_status. destruct (Z.eqb_spec code 0xFF); [done|].
  set (em := encode_string message is_be).
  set (raw := code :: em ++ encode_string [] is_be ++ rest).
  rewrite (string_at raw [code] (encode_string [] is_be ++ rest) message) by done.
  cbn [catch bind_outcome]. fold em.
  rewrite (string_at raw (code :: em) rest []) by (subst raw; pre || (unfold em; rewrite zlen_cons; lia) || done).
  cbn [catch bind_outcome]. change (zlen (encode_string [] is_be)) with 1. do 2 f_equal. lia.
Qed.

Lemma op_request_encode is_be command sid ioid subcmd extra :
  u32_ok sid = true -> u32_ok ioid = true ->
  op_new (put_int is_be 4 sid ++ put_int is_be 4 ioid ++ [subcmd] ++ extra) is_be false command
  = Ok (mkOp sid ioid subcmd extra command false None None None).
Proof.
  intros Hs Hi. unfold u32_ok in *. bool_to_prop. pose proof (zlen_nonneg extra).
  set (raw := put_int is_be 4 sid ++ put_int is_be 4 ioid ++ [subcmd] ++ extra).
  assert (zlen raw = 9 + zlen extra) as Hlen by (subst raw; autorewrite with codec_len; cbn; lia).
  unfold op_new. destruct (_ <? 5) eqn:E; bool_to_prop; [lia|]. clear E.
  destruct (_ <? 9) eqn:E; bool_to_prop; [lia|]. clear E.
  rewrite (read_uint_at raw [] (put_int is_be 4 ioid ++ [subcmd] ++ extra) 4 is_be sid) by (done || (cbn; lia)).
  cbn [bind_outcome].
  rewrite (read_uint_at raw (put_int is_be 4 sid) ([subcmd] ++ extra) 4 is_be ioid) by (done || lens || (cbn; lia)).
  cbn [bind_outcome].
  rewrite (index_at raw (put_int is_be 4 sid ++ put_int is_be 4 ioid) extra subcmd) by (subst raw; pre || lens).
  cbn [bind_outcome].
  rewrite (rest_after_at raw (put_int is_be 4 sid ++ put_int is_be 4 ioid ++ [subcmd]) extra) by (subst raw; pre || lens).
  cbn [bind_outcome andb]. destruct (zlen extra =? 0) eqn:E; bool_to_prop; [|done].
  apply zlen_zero_inv in E as ->. done.
Qed.

(** The fixed part of a server response. *)
Lemma op_response_encode is_be command ioid subcmd body :
  u32_ok ioid = true ->
  let is_init := negb (Z.land subcmd 0x08 =? 0) in
  let has_status := is_init || (negb (command =? 13) && negb (command =? 14)) in
  op_new (put_int is_be 4 ioid ++ [subcmd] ++ body) is_be true command
  = bind_outcome
      (if zlen body =? 0 then Ok (None, [])
       else if has_status then
         bind_outcome (decode_status body is_be) (fun x => let '(parsed, consumed) := x in
         bind_outcome (rest_after body consumed) (fun rest => Ok (parsed, rest)))
       else Ok (None, body))
      (fun x => let '(st, pvd_raw) := x in
       bind_outcome (if is_init then introspection_of is_be pvd_raw else Ok None)
         (fun intro => Ok (mkOp 0 ioid subcmd pvd_raw command true st intro None))).
Proof.
  intros Hi is_init has_status. unfold u32_ok in *. bool_to_prop. pose proof (zlen_nonneg body).
  set (raw := put_int is_be 4 ioid ++ [subcmd] ++ body).
  assert (zlen raw = 5 + zlen body) as Hlen by (subst raw; autorewrite with codec_len; cbn; lia).
  unfold op_new. destruct (_ <? 5) eqn:E; bool_to_prop; [lia|]. clear E.
  rewrite (read_uint_at raw [] ([subcmd] ++ body) 4 is_be ioid) by (done || (cbn; lia)). cbn [bind_outcome].
  rewrite (index_at raw (put_int is_be 4 ioid) body subcmd) by (done || lens). cbn [bind_outcome].
  rewrite (rest_after_at raw (put_int is_be 4 ioid ++ [subcmd]) body) by (subst raw; pre || lens).
  cbn [bind_outcome andb]. done.
Qed.

(** Descriptors a default decoder reads back. *)
Definition desc_ok (d : Ty.StructureDesc) : bool :=
  PvdRoundtrip.type_ok PvdDecode.default_limits (Ty.Structure d)
  && (Ty.type_height (Ty.Structure d) <=? 32) && (Ty.type_nodes (Ty.Structure d) <=? 1048576).

Lemma introspection_of_encode is_be d rest :
  desc_ok d = true ->
  introspection_of is_be (0x80 :: encode_structure_desc d is_be ++ rest) = Ok (Some d).
Proof.
  unfold desc_ok. intros H. apply andb_true_iff in H as [H Hn%Z.leb_le]. apply andb_true_iff in H as [H Hh%Z.leb_le].
  unfold introspection_of, PvdDecode.parse_introspection, PvdDecode.bind.
  pose proof (PvdRoundtrip.introspection_encode is_be PvdDecode.default_limits d rest
    (PvdDecode.with_limits PvdDecode.default_limits) PvdSafety.default_limits_ok
    (PvdSafety.idle_with_limits _) H Hh (Z.le_trans _ _ _ Hn (Z.le_max_l _ _))) as E.
  cbn zeta in E. change (encode_type_desc (Ty.Structure d) is_be) with (0x80 :: encode_structure_desc d is_be) in E.
  cbn [app] in E. destruct (PvdDecode.parse_introspection_with_len _ _ _ _) as [r s']. cbn [fst] in E.
  rewrite E. done.
Qed.

Lemma op_init_encode is_be command ioid subcmd d :
  u32_ok ioid = true -> Z.land subcmd 0x08 <> 0 -> desc_ok d = true ->
  op_new (put_int is_be 4 ioid ++ [subcmd] ++ encode_status_ok ++ [0x80] ++ encode_structure_desc d is_be)
    is_be true command
  = Ok (mkOp 0 ioid subcmd (0x80 :: encode_structure_desc d is_be) command true None (Some d) None).
Proof.
  intros Hi Hs Hd. rewrite op_response_encode by done.
  assert (negb (Z.land subcmd 0x08 =? 0) = true) as -> by now apply negb_true_iff, Z.eqb_neq.
  cbn [orb app encode_status_ok]. rewrite !zlen_cons.
  pose proof (zlen_nonneg (encode_structure_desc d is_be)).
  destruct (_ =? 0) eqn:E; bool_to_prop; [lia|]. clear E.
  cbn [decode_status Z.eqb Pos.eqb bind_outcome].
  rewrite (rest_after_at _ [0xFF] (0x80 :: encode_structure_desc d is_be)) by done. cbn [bind_outcome].
  pose proof (introspection_of_encode is_be d [] Hd) as Hin. rewrite app_nil_r in Hin. rewrite Hin. done.
Qed.

Lemma op_error_encode is_be command ioid subcmd message :
  u32_ok ioid = true -> PvdRoundtrip.name_ok message = true ->
  Z.land subcmd 0x08 <> 0 \/ (command <> 13 /\ command <> 14) ->
  op_new (put_int is_be 4 ioid ++ [subcmd] ++ encode_status_error message is_be) is_be true command
  = Ok (mkOp 0 ioid subcmd [] command true (Some (mkStatus 2 (Some message) (Some []))) None None).
Proof.
  intros Hi Hm Hs. rewrite op_response_encode by done. unfold encode_status_error.
  assert (negb (Z.land subcmd 0x08 =? 0) || (negb (command =? 13) && negb (command =? 14)) = true) as ->.
  { destruct Hs as [Hs|[H13 H14]]; [now rewrite (proj2 (Z.eqb_neq _ _) Hs)|].
    rewrite (proj2 (Z.eqb_neq _ _) H13), (proj2 (Z.eqb_neq _ _) H14). apply orb_true_r. }
  rewrite zlen_cons, zlen_app. pose proof (encode_string_pos message is_be).
  pose proof (encode_string_pos [] is_be).
  destruct (_ =? 0) eqn:E; bool_to_prop; [lia|]. clear E.
  rewrite <- (app_nil_r (encode_string [] is_be)), status_decode by done. cbn [bind_outcome].
  rewrite (rest_after_at _ (2 :: encode_string message is_be ++ encode_string [] is_be) [])
    by (rewrite ?app_nil_r; done || (rewrite zlen_cons, zlen_app; change (zlen (encode_string [] is_be)) with 1; lia)).
  cbn [bind_outcome]. now destruct (negb _).
Qed.

(** ** Connection set-up *)

Lemma validation_encode is_be bs rs methods :
  u32_ok bs = true -> u16_ok rs = true -> forallb PvdRoundtrip.name_ok methods = true ->
  zlen methods <= u32_max ->
  connection_validation_new (put_int is_be 4 bs ++ put_int is_be 2 rs ++ encode_size (zlen methods) is_be
     ++ concat (map (fun m => encode_string m is_be) methods)) is_be true
  = Ok (mkConnectionValidation true bs rs 0 (first_method methods) None None).
Proof.
  intros Hb Hr Hm Hn. unfold u32_ok, u16_ok in *. bool_to_prop.
  set (es := encode_size (zlen methods) is_be). set (em := concat _).
  pose proof (encode_size_pos (zlen methods) is_be) as Hes. fold es in Hes. pose proof (zlen_nonneg em).
  set (raw := put_int is_be 4 bs ++ put_int is_be 2 rs ++ es ++ em).
  assert (zlen raw = 6 + zlen es + zlen em) as Hlen by (subst raw; autorewrite with codec_len; cbn; lia).
  unfold connection_validation_new. destruct (_ <? 6) eqn:E; bool_to_prop; [lia|]. clear E.
  rewrite (read_uint_at raw [] (put_int is_be 2 rs ++ es ++ em) 4 is_be bs) by (done || (cbn; lia)). cbn [bind_outcome].
  rewrite (read_uint_at raw (put_int is_be 4 bs) (es ++ em) 2 is_be rs) by (done || lens || (cbn; lia)). cbn [bind_outcome].
  unfold server_authz. destruct (_ <? _) eqn:E; bool_to_prop; [|lia]. clear E.
  rewrite (slice_from_at raw (put_int is_be 4 bs ++ put_int is_be 2 rs) (es ++ em)) by (subst raw; pre || lens).
  cbn [bind_outcome]. unfold es at 1. rewrite size_at by (pose proof (zlen_nonneg methods); lia). fold es.
  cbn [catch bind_outcome]. replace (Z.to_nat (zlen methods)) with (length methods) by (unfold zlen; lia).
  destruct (strings_until_at is_be methods (put_int is_be 4 bs ++ put_int is_be 2 rs ++ es) [] [] Hm) as [o Ho].
  fold em in Ho. rewrite app_nil_r in Ho.
  replace ((put_int is_be 4 bs ++ put_int is_be 2 rs ++ es) ++ em) with raw in Ho by (subst raw; pre).
  replace (zlen (put_int is_be 4 bs ++ put_int is_be 2 rs ++ es)) with (6 + zlen es) in Ho by lens.
  rewrite Ho. done.
Qed.

Lemma encode_string_bytes_ok s is_be : bytes_ok s -> bytes_ok (encode_string s is_be).
Proof.
  intros Hs. rewrite encode_string_unfold. apply Forall_app_2; [|done].
  unfold encode_size, push_size. destruct (_ <? _); cbn [app].
  - constructor; [|constructor]. red. apply Z.mod_pos_bound. lia.
  - constructor; [red; lia|]. auto with codec.
Qed.

Lemma get_field_encode is_be sid ioid nm :
  u32_ok sid = true -> u32_ok ioid = true -> PvdRoundtrip.name_ok nm = true -> bytes_ok nm ->
  get_field_new (put_int is_be 4 sid ++ put_int is_be 4 ioid ++ encode_string nm is_be) is_be false
  = Ok (mkGetField false sid (Some sid) (Some ioid) (Some nm) None None []).
Proof.
  intros Hs Hi Hn Hnb. unfold u32_ok in *. bool_to_prop. set (en := encode_string nm is_be).
  pose proof (encode_string_pos nm is_be) as Hen. fold en in Hen.
  set (raw := put_int is_be 4 sid ++ put_int is_be 4 ioid ++ en).
  assert (zlen raw = 8 + zlen en) as Hlen by (subst raw; autorewrite with codec_len; cbn; lia).
  unfold get_field_new, get_field_client. cbn [negb]. destruct (_ <? 4) eqn:E; bool_to_prop; [lia|]. clear E.
  rewrite (read_uint_at raw [] (put_int is_be 4 ioid ++ en) 4 is_be sid) by (done || (cbn; lia)). cbn [bind_outcome].
  destruct (_ >? 4) eqn:E; bool_to_prop; [|lia]. clear E.
  assert (exists legacy, final_string raw 4 is_be = Ok legacy) as [legacy ->].
  { assert (bytes_ok raw) as Hraw
      by (subst raw en; apply Forall_app_2; [auto with codec|];
          apply Forall_app_2; [auto with codec|now apply encode_string_bytes_ok]).
    pose proof (safe_final_string is_be raw Hraw 4 ltac:(lia)) as H'. unfold final_string in *.
    destruct (decode_string_at raw 4 is_be) as [[? ?]|?| |]; cbn in *; eauto; done. }
  cbn [bind_outcome]. destruct (_ <=? _) eqn:E; bool_to_prop; [|lia]. clear E.
  rewrite (read_uint_at raw (put_int is_be 4 sid) en 4 is_be ioid) by (done || lens || (cbn; lia)). cbn [bind_outcome].
  unfold final_string. rewrite (string_at raw (put_int is_be 4 sid ++ put_int is_be 4 ioid) [] nm)
    by (subst raw; rewrite ?app_nil_r; pre || lens || done).
  cbn [catch bind_outcome]. fold en. rewrite Hlen, Z.eqb_refl. done.
Qed.

(** ** Claims *)

(** The header a frame is built with is the header that is parsed back, in
    both byte orders and directions: magic, version, command, payload length,
    direction and byte-order flags; the frame is valid and unsegmented, and
    exactly the payload is handed to the decoder of its command. *)
Theorem frame_header_roundtrip is_server is_be version command payload rest :
  zlen payload <= u32_max ->
  exists p, packet_try_new (frame is_server is_be version command payload ++ rest) = Ok p /\
    packet_is_valid p = true /\
    Packet.version (header p) = version /\ Packet.command (header p) = command /\
    payload_length (header p) = zlen payload /\
    Packet.is_server (flags (header p)) = is_server /\ is_msb (flags (header p)) = is_be /\
    is_control (flags (header p)) = false /\ is_segmented (flags (header p)) = 0 /\
    decode_payload p =
      match catch (decode_command command payload is_be is_server) with
      | Ok (Some c) => Ok c
      | Ok None => Ok (Unknown command false (zlen payload))
      | Err e => Err e | Panic => Panic | OutOfFuel => OutOfFuel
      end.
Proof.
  intros Hlen. destruct (decode_frame is_server is_be version command payload rest Hlen) as (p & E & Hv & Hd).
  exists p. split; [done|]. unfold packet_try_new, frame in E. rewrite <- app_assoc in E.
  pose proof (zlen_nonneg payload). unfold as_u32 in E. rewrite Z.mod_small in E by (unfold u32_max in *; lia).
  rewrite header_fields in E by (unfold u32_max in *; lia). cbn [bind_outcome] in E. injection E as <-.
  cbn [header flags Packet.version Packet.command payload_length].
  split_and!; try done; destruct is_server, is_be; reflexivity.
Qed.

Lemma frame_header_roundtrip_witness :
  exists p, packet_try_new (frame true false 2 8 [1; 0; 0; 0; 2; 0; 0; 0] ++ [9]) = Ok p /\
    payload_length (header p) = 8.
Proof.
  destruct (frame_header_roundtrip true false 2 8 [1; 0; 0; 0; 2; 0; 0; 0] [9]) as (p & E & _ & _ & _ & Hl & _);
    [vm_compute; discriminate|]. exists p. split; [exact E|exact Hl].
Defined.

(** A frame built in place, by reserving a header, appending the body and
    backfilling the length, is byte for byte the frame built from the finished
    payload, wherever in the sink it starts. *)
Theorem finish_frame_equiv out is_be version command body :
  let '(sink, at_) := begin_frame out is_be version command in
  finish_frame (sink ++ body) at_ is_be = out ++ frame true is_be version command body.
Proof. apply finish_frame_frame. Qed.

(** A SEARCH request is decoded to what was asked: sequence number, flags,
    reply address and port, and every (cid, name) pair in order. *)
Theorem search_request_roundtrip seq flags port addr reqs version is_be rest :
  u32_ok seq = true -> u16_ok port = true -> zlen addr = 16 -> forallb request_ok reqs = true ->
  zlen reqs < 2 ^ 16 ->
  zlen (encode_search_request seq flags port addr reqs version is_be) <= u32_max ->
  decode_bytes (encode_search_request seq flags port addr reqs version is_be ++ rest)
  = Ok (Search (mkSearch seq flags addr port [str "tcp"] reqs (map snd reqs))).
Proof.
  intros Hs Hp Ha Hr Hn Hlen. unfold encode_search_request in *. apply decode_bytes_frame.
  - unfold frame in Hlen. rewrite zlen_app in Hlen.
    match type of Hlen with zlen ?h + _ <= _ => pose proof (zlen_nonneg h) end. lia.
  - dispatch.
    fold (encode_requests reqs is_be). rewrite search_new_encode by done. done.
Qed.

Lemma search_request_roundtrip_witness :
  decode_bytes (encode_search_request 7 1 5076 (replicate 16 0) [(1, str "pv:a"); (2, str "pv:b")] 2 false ++ [])
  = Ok (Search (mkSearch 7 1 (replicate 16 0) 5076 [str "tcp"] [(1, str "pv:a"); (2, str "pv:b")]
                  [str "pv:a"; str "pv:b"])).
Proof.
  apply (search_request_roundtrip 7 1 5076 (replicate 16 0) [(1, str "pv:a"); (2, str "pv:b")] 2 false []);
    try reflexivity; vm_compute; discriminate.
Defined.

(** A SEARCH_RESPONSE is decoded to what the server answered, the list of
    found channel ids included. *)
Theorem search_response_roundtrip guid seq addr port protocol found cids version is_be rest :
  zlen guid = 12 -> u32_ok seq = true -> zlen addr = 16 -> u16_ok port = true ->
  PvdRoundtrip.name_ok protocol = true -> forallb u32_ok cids = true -> zlen cids < 2 ^ 16 ->
  zlen (encode_search_response guid seq addr port protocol found cids version is_be) <= u32_max ->
  decode_bytes (encode_search_response guid seq addr port protocol found cids version is_be ++ rest)
  = Ok (SearchResponse (mkSearchResponse guid seq addr port protocol found cids)).
Proof.
  intros Hg Hs Ha Hp Hpr Hc Hn Hlen. unfold encode_search_response in *. apply decode_bytes_frame.
  - unfold frame in Hlen. rewrite zlen_app in Hlen.
    match type of Hlen with zlen ?h + _ <= _ => pose proof (zlen_nonneg h) end. lia.
  - dispatch.
    rewrite search_response_encode by done. done.
Qed.

Lemma search_response_roundtrip_witness :
  decode_bytes (encode_search_response (replicate 12 1) 7 (replicate 16 0) 5075 (str "tcp") true [1; 2] 2 true ++ [0])
  = Ok (SearchResponse (mkSearchResponse (replicate 12 1) 7 (replicate 16 0) 5075 (str "tcp") true [1; 2])).
Proof.
  apply (search_response_roundtrip (replicate 12 1) 7 (replicate 16 0) 5075 (str "tcp") true [1; 2] 2 true [0]);
    try reflexivity; vm_compute; discriminate.
Defined.

(** Channel creation: the request's channel id and name, the response's
    ids, and the message of an error response are read back; the error response
    carries status type 1, which [encode_status_warning] calls a warning. *)
Theorem create_channel_roundtrip cid sid nm message version is_be rest :
  u32_ok cid = true -> u32_ok sid = true ->
  PvdRoundtrip.name_ok nm = true -> zlen nm < 2 ^ 31 ->
  PvdRoundtrip.name_ok message = true -> zlen message < 2 ^ 31 ->
  decode_bytes (encode_create_channel_request cid nm version is_be ++ rest)
    = Ok (CreateChannel (mkCreateChannel false [(cid, nm)] 0 0 None)) /\
  decode_bytes (encode_create_channel_response cid sid version is_be ++ rest)
    = Ok (CreateChannel (mkCreateChannel true [] cid sid None)) /\
  decode_bytes (encode_create_channel_error cid message version is_be ++ rest)
    = Ok (CreateChannel (mkCreateChannel true [] cid 0 (Some (mkStatus 1 (Some message) (Some []))))).
Proof.
  intros Hc Hs Hn Hln Hm Hlm.
  assert (Hstr : forall x, zlen (encode_string x is_be) <= 5 + zlen x).
  { intros x. rewrite encode_string_unfold, zlen_app, zlen_encode_size. destruct (_ <? _); lia. }
  pose proof (Hstr nm). pose proof (Hstr message).
  split_and!; apply decode_bytes_frame;
    try (unfold encode_status_ok; autorewrite with codec_len; change (zlen (encode_string [] is_be)) with 1; unfold u32_max; cbn; lia).
  - dispatch.
    now rewrite create_request_encode.
  - dispatch.
    now rewrite create_ok_encode.
  - dispatch.
    now rewrite create_error_encode.
Qed.

Lemma create_channel_roundtrip_witness :
  decode_bytes (encode_create_channel_error 5 (str "no such pv") 2 false ++ [])
  = Ok (CreateChannel (mkCreateChannel true [] 5 0 (Some (mkStatus 1 (Some (str "no such pv")) (Some []))))).
Proof.
  apply (create_channel_roundtrip 5 6 (str "pv") (str "no such pv") 2 false []); reflexivity.
Defined.

(** Operations: a GET, PUT, MONITOR, ... request is decoded to its ids,
    sub-command and body; an INIT response to the descriptor it carries; an
    error response to status type 2 and its message. *)
Theorem operation_roundtrip command sid ioid subcmd extra d message version is_be rest :
  existsb (Z.eqb command) [10; 11; 12; 13; 14; 16; 20] = true ->
  u32_ok sid = true -> u32_ok ioid = true -> Z.land subcmd 0x08 <> 0 -> desc_ok d = true ->
  PvdRoundtrip.name_ok message = true ->
  zlen extra < 2 ^ 31 -> zlen message < 2 ^ 31 -> zlen (encode_structure_desc d is_be) < 2 ^ 31 ->
  decode_bytes (encode_op_request command sid ioid subcmd extra version is_be ++ rest)
    = Ok (Op (mkOp sid ioid subcmd extra command false None None None)) /\
  decode_bytes (encode_op_init_response_desc command ioid subcmd d version is_be ++ rest)
    = Ok (Op (mkOp 0 ioid subcmd (0x80 :: encode_structure_desc d is_be) command true None (Some d) None)) /\
  decode_bytes (encode_op_status_error_response command ioid subcmd message version is_be ++ rest)
    = Ok (Op (mkOp 0 ioid subcmd [] command true (Some (mkStatus 2 (Some message) (Some []))) None None)).
Proof.
  intros Hcmd Hs Hi Hsub Hd Hm Hle Hlm Hld.
  assert (zlen (encode_string message is_be) <= 5 + zlen message).
  { rewrite encode_string_unfold, zlen_app, zlen_encode_size. destruct (_ <? _); lia. }
  assert (Hdec : forall p sv, decode_command command p is_be sv = wrap Op (op_new p is_be sv command)).
  { intros p sv. cbn in Hcmd. unfold decode_command.
    repeat (apply orb_true_iff in Hcmd as [Hcmd%Z.eqb_eq|Hcmd]; [subst; reflexivity|]). discriminate Hcmd. }
  split_and!; apply decode_bytes_frame; rewrite ?Hdec;
    try (unfold encode_status_ok, encode_status_error; autorewrite with codec_len; change (zlen (encode_string [] is_be)) with 1;
         unfold u32_max; cbn; lia).
  - now rewrite op_request_encode.
  - now rewrite op_init_encode.
  - now rewrite op_error_encode by auto.
Qed.

Lemma operation_roundtrip_witness :
  decode_bytes (encode_op_init_response_desc 13 9 0x08 PvdRoundtrip.sample_desc 2 true ++ [])
  = Ok (Op (mkOp 0 9 0x08 (0x80 :: encode_structure_desc PvdRoundtrip.sample_desc true) 13 true None
              (Some PvdRoundtrip.sample_desc) None)).
Proof.
  apply (operation_roundtrip 13 3 9 0x08 [1] PvdRoundtrip.sample_desc (str "bad") 2 true []);
    try reflexivity; vm_compute; discriminate.
Defined.

(** Connection set-up: the buffer sizes a server announces and the first
    usable authentication method are read back; so are the ids and field name of
    an introspection request. *)
Theorem setup_roundtrip buffer_size registry_size methods sid ioid nm version is_be rest :
  u32_ok buffer_size = true -> u16_ok registry_size = true ->
  forallb PvdRoundtrip.name_ok methods = true -> zlen methods <= u32_max ->
  zlen (encode_connection_validation buffer_size registry_size methods version is_be) <= u32_max ->
  u32_ok sid = true -> u32_ok ioid = true ->
  PvdRoundtrip.name_ok nm = true -> bytes_ok nm -> zlen nm < 2 ^ 31 ->
  decode_bytes (encode_connection_validation buffer_size registry_size methods version is_be ++ rest)
    = Ok (ConnectionValidation
            (mkConnectionValidation true buffer_size registry_size 0 (first_method methods) None None)) /\
  decode_bytes (encode_get_field_request sid ioid (Some nm) version is_be ++ rest)
    = Ok (GetField (mkGetField false sid (Some sid) (Some ioid) (Some nm) None None [])).
Proof.
  intros Hb Hr Hm Hnm Hlen Hs Hi Hn Hnb Hln. split; apply decode_bytes_frame.
  - unfold encode_connection_validation, frame in Hlen. rewrite zlen_app in Hlen.
    match type of Hlen with zlen ?h + _ <= _ => pose proof (zlen_nonneg h) end. lia.
  - dispatch.
    now rewrite validation_encode.
  - cbn [default]. autorewrite with codec_len. rewrite encode_string_unfold, zlen_app, zlen_encode_size.
    unfold u32_max. destruct (_ <? _); cbn; lia.
  - dispatch.
    cbn [default]. now rewrite get_field_encode.
Qed.

Lemma setup_roundtrip_witness :
  decode_bytes (encode_connection_validation 16384 512 [str "anonymous"; str "ca"] 2 true ++ [])
    = Ok (ConnectionValidation (mkConnectionValidation true 16384 512 0 (Some (str "anonymous")) None None)).
Proof.
  apply (setup_roundtrip 16384 512 [str "anonymous"; str "ca"] 1 2 (str "value") 2 true []);
    try reflexivity; try (vm_compute; discriminate).
  repeat constructor; unfold byte_ok; lia.
Defined.

(** An address survives the 16-byte wire form: IPv4 always, IPv6 unless it
    is unspecified or IPv4-mapped. *)
Theorem ip_roundtrip ip :
  match ip with
  | V4 o => zlen o = 4
  | V6 o => zlen o = 16 /\ forallb (Z.eqb 0) o = false /\
            forallb (Z.eqb 0) (take 10 o) && (nth 10 o 0 =? 0xFF) && (nth 11 o 0 =? 0xFF) = false
  end -> ip_from_bytes (ip_to_bytes ip) = Some ip.
Proof.
  destruct ip as [o|o]; cbn [ip_to_bytes]; [intros _; reflexivity|].
  intros (_ & Hz & Hm). unfold ip_from_bytes. now rewrite Hz, Hm.
Qed.

Lemma ip_roundtrip_witness :
  ip_from_bytes (ip_to_bytes (V6 [0x20; 1; 0; 0; 0; 0; 0; 0; 0; 0; 0; 0; 0; 0; 0; 1]))
  = Some (V6 [0x20; 1; 0; 0; 0; 0; 0; 0; 0; 0; 0; 0; 0; 0; 0; 1]).
Proof.
  apply (ip_roundtrip (V6 [0x20; 1; 0; 0; 0; 0; 0; 0; 0; 0; 0; 0; 0; 0; 0; 1])).
  split_and!; reflexivity.
Defined.

End Message.
