(* ===== verification/NtTypes.v ===== *)
(** * Normative types

    Models [spvirit-types/src/lib.rs]: scalar and array values, the normative
    type records, [NtPayload], and the functions on them
    ([update_alarm_from_value], [NtTable::validate], [NtNdArray::validate],
    [NtEnum::selected]).  A float is its IEEE bit pattern, as in
    [DecodedValue]; the comparisons and conversions the source uses are defined
    on the patterns. *)

From stdpp Require Import gmap.
From S2P Require Import Prelude.

Local Open Scope Z_scope.

(** ** Floats as bit patterns *)

Module Float.

Definition is_nan32 (x : Z) : bool := Z.land x 0x7FFFFFFF >? 0x7F800000.
Definition is_nan64 (x : Z) : bool := Z.land x 0x7FFFFFFFFFFFFFFF >? 0x7FF0000000000000.

(** Sign and magnitude as one integer: the order of two patterns that are not
    NaN, both zeros being 0. *)
Definition key (w x : Z) : Z := if x <? 2 ^ (w - 1) then x else - (x - 2 ^ (w - 1)).

(** [a == b] on [f32] and [f64]. *)
Definition eq32 (a b : Z) : bool := negb (is_nan32 a) && negb (is_nan32 b) && (key 32 a =? key 32 b).
Definition eq64 (a b : Z) : bool := negb (is_nan64 a) && negb (is_nan64 b) && (key 64 a =? key 64 b).

(** [a <= b] on [f64]. *)
Definition le64 (a b : Z) : bool := negb (is_nan64 a) && negb (is_nan64 b) && (key 64 a <=? key 64 b).

(** [v as f64] of an integer: round to nearest, ties to even. *)
Definition of_Z (v : Z) : Z :=
  if v =? 0 then 0 else
  let m := Z.abs v in
  let e := Z.log2 m in
  let q :=
    if e <=? 52 then Z.shiftl m (52 - e)
    else
      let s := e - 52 in
      let q := Z.shiftr m s in
      let r := m - Z.shiftl q s in
      let half := Z.shiftl 1 (s - 1) in
      if (r >? half) || ((r =? half) && Z.odd q) then q + 1 else q in
  (if v <? 0 then 2 ^ 63 else 0) + (e + 1023) * 2 ^ 52 + (q - 2 ^ 52).

(** [v as f64] of an [f32], which is exact. *)
Definition widen (x : Z) : Z :=
  let sign := if x <? 2 ^ 31 then 0 else 2 ^ 63 in
  let exp := Z.shiftr x 23 mod 256 in
  let mant := x mod 2 ^ 23 in
  if exp =? 255 then sign + 0x7FF * 2 ^ 52 + mant * 2 ^ 29
  else if exp =? 0 then
    if mant =? 0 then sign
    else
      let e := Z.log2 mant in
      sign + (e - 149 + 1023) * 2 ^ 52 + Z.shiftl (mant - 2 ^ e) (52 - e)
  else sign + (exp - 127 + 1023) * 2 ^ 52 + mant * 2 ^ 29.

Lemma eq64_refl x : is_nan64 x = false -> eq64 x x = true.
Proof. intros H. unfold eq64. now rewrite H, Z.eqb_refl. Qed.

(** Small integers convert exactly: [1.0], [-2.0], [2^53 + 1] rounded to even. *)
Example of_Z_samples :
  (of_Z 1, of_Z (-2), of_Z 90, of_Z (2 ^ 53 + 1), of_Z (2 ^ 53 + 3))
  = (0x3FF0000000000000, 0xC000000000000000, 0x4056800000000000, of_Z (2 ^ 53), of_Z (2 ^ 53 + 4)).
Proof. reflexivity. Qed.

Example widen_samples :
  (widen 0x3F800000, widen 0xFF800000, widen 0x00000001, widen 0x80000000)
  = (of_Z 1, 0xFFF0000000000000, 0x36A0000000000000, 2 ^ 63).
Proof. reflexivity. Qed.

End Float.

(** ** Values *)

Module NtTypes.
Import Float.

Inductive ScalarValue : Type :=
| Bool (v : bool)
| I8 (v : Z) | I16 (v : Z) | I32 (v : Z) | I64 (v : Z)
| U8 (v : Z) | U16 (v : Z) | U32 (v : Z) | U64 (v : Z)
| F32 (v : Z) | F64 (v : Z)
| Str (v : bytes).

Inductive ScalarArrayValue : Type :=
| ABool (v : list bool)
| AI8 (v : list Z) | AI16 (v : list Z) | AI32 (v : list Z) | AI64 (v : list Z)
| AU8 (v : list Z) | AU16 (v : list Z) | AU32 (v : list Z) | AU64 (v : list Z)
| AF32 (v : list Z) | AF64 (v : list Z)
| AStr (v : list bytes).

(** [ScalarArrayValue::len], also [scalar_array_len] of the codec. *)
Definition len (a : ScalarArrayValue) : Z :=
  match a with
  | ABool v => zlen v
  | AI8 v | AI16 v | AI32 v | AI64 v | AU8 v | AU16 v | AU32 v | AU64 v | AF32 v | AF64 v => zlen v
  | AStr v => zlen v
  end.

Definition is_empty (a : ScalarArrayValue) : bool := len a =? 0.

Definition element_size_bytes (a : ScalarArrayValue) : Z :=
  match a with
  | ABool _ | AI8 _ | AU8 _ => 1
  | AI16 _ | AU16 _ => 2
  | AI32 _ | AU32 _ | AF32 _ => 4
  | AI64 _ | AU64 _ | AF64 _ => 8
  | AStr _ => 0
  end.

(** ** Records *)

Record NtAlarm := mkAlarm { severity : Z; al_status : Z; al_message : bytes }.
Definition default_alarm : NtAlarm := mkAlarm 0 0 [].

Record NtTimeStamp := mkTimeStamp { seconds_past_epoch : Z; nanoseconds : Z; user_tag : Z }.
Definition default_time_stamp : NtTimeStamp := mkTimeStamp 0 0 0.

Record NtDisplay := mkDisplay {
  limit_low : Z; limit_high : Z; description : bytes; units : bytes; precision : Z }.
Definition default_display : NtDisplay := mkDisplay 0 0 [] [] 0.

Record NtControl := mkControl { ct_limit_low : Z; ct_limit_high : Z; min_step : Z }.
Definition default_control : NtControl := mkControl 0 0 0.

Record NtScalar := mkScalar {
  value : ScalarValue;
  alarm_severity : Z; alarm_status : Z; alarm_message : bytes;
  alarm_low : option Z; alarm_high : option Z; alarm_lolo : option Z; alarm_hihi : option Z;
  display_low : Z; display_high : Z; display_description : bytes; display_precision : Z;
  display_form_index : Z; display_form_choices : list bytes;
  control_low : Z; control_high : Z; control_min_step : Z;
  sc_units : bytes;
  value_alarm_active : bool;
  value_alarm_low_alarm_limit : Z; value_alarm_low_warning_limit : Z;
  value_alarm_high_warning_limit : Z; value_alarm_high_alarm_limit : Z;
  value_alarm_low_alarm_severity : Z; value_alarm_low_warning_severity : Z;
  value_alarm_high_warning_severity : Z; value_alarm_high_alarm_severity : Z;
  value_alarm_hysteresis : Z;
  time_stamp : option NtTimeStamp }.

Definition from_value (v : ScalarValue) : NtScalar :=
  mkScalar v 0 0 [] None None None None 0 0 [] 0 0 [] 0 0 0 [] false 0 0 0 0 0 0 0 0 0 None.

(** The three alarm fields are assigned together. *)
Definition set_alarm (nt : NtScalar) (sev st : Z) (msg : bytes) : NtScalar :=
  mkScalar (value nt) sev st msg (alarm_low nt) (alarm_high nt) (alarm_lolo nt) (alarm_hihi nt)
    (display_low nt) (display_high nt) (display_description nt) (display_precision nt)
    (display_form_index nt) (display_form_choices nt)
    (control_low nt) (control_high nt) (control_min_step nt) (sc_units nt) (value_alarm_active nt)
    (value_alarm_low_alarm_limit nt) (value_alarm_low_warning_limit nt)
    (value_alarm_high_warning_limit nt) (value_alarm_high_alarm_limit nt)
    (value_alarm_low_alarm_severity nt) (value_alarm_low_warning_severity nt)
    (value_alarm_high_warning_severity nt) (value_alarm_high_alarm_severity nt)
    (value_alarm_hysteresis nt) (time_stamp nt).

(** The numeric value of a scalar, [None] for booleans and strings. *)
Definition as_f64 (v : ScalarValue) : option Z :=
  match v with
  | F64 v => Some v
  | F32 v => Some (widen v)
  | I8 v | I16 v | I32 v | I64 v | U8 v | U16 v | U32 v | U64 v => Some (of_Z v)
  | _ => None
  end.

(** One [if severity == 0 && let Some(limit) = .. && tripped] step. *)
Definition try_limit (acc : Z * bytes) (limit : option Z) (tripped : Z -> bool) (sev : Z) (msg : bytes)
  : Z * bytes :=
  if fst acc =? 0 then
    match limit with
    | Some l => if tripped l then (sev, msg) else acc
    | None => acc
    end
  else acc.

Definition update_alarm_from_value (nt : NtScalar) : NtScalar :=
  match as_f64 (value nt) with
  | None => set_alarm nt 0 0 []
  | Some val =>
    let acc := try_limit (0, []) (alarm_hihi nt) (fun l => le64 l val) 2 (str "HIHI") in
    let acc := try_limit acc (alarm_high nt) (fun l => le64 l val) 1 (str "HIGH") in
    let acc := try_limit acc (alarm_lolo nt) (fun l => le64 val l) 2 (str "LOLO") in
    let '(sev, msg) := try_limit acc (alarm_low nt) (fun l => le64 val l) 1 (str "LOW") in
    if sev =? 0 then set_alarm nt 0 0 [] else set_alarm nt sev 1 msg
  end.

Record NtScalarArray := mkScalarArray {
  sa_value : ScalarArrayValue; sa_alarm : NtAlarm; sa_time_stamp : NtTimeStamp;
  sa_display : NtDisplay; sa_control : NtControl }.

Record NtTableColumn := mkColumn { col_name : bytes; col_values : ScalarArrayValue }.

Record NtTable := mkTable {
  labels : list bytes; columns : list NtTableColumn; tb_descriptor : option bytes;
  tb_alarm : option NtAlarm; tb_time_stamp : option NtTimeStamp }.

(** [HashMap<String, String>]: a finite map; the source sorts the keys where
    their order shows. *)
Record NdCodec := mkCodec { codec_name : bytes; parameters : gmap bytes bytes }.

Record NdDimension := mkDimension {
  dim_size : Z; dim_offset : Z; full_size : Z; binning : Z; reverse : bool }.

Record NtAttribute := mkAttribute {
  attr_name : bytes; attr_value : ScalarValue; attr_descriptor : bytes; source_type : Z; source : bytes }.

Record NtNdArray := mkNdArray {
  nd_value : ScalarArrayValue; codec : NdCodec; compressed_size : Z; uncompressed_size : Z;
  dimension : list NdDimension; unique_id : Z; data_time_stamp : NtTimeStamp;
  attribute : list NtAttribute; nd_descriptor : option bytes; nd_alarm : option NtAlarm;
  nd_time_stamp : option NtTimeStamp; nd_display : option NtDisplay }.

Record NtEnum := mkEnum {
  enum_index : Z; choices : list bytes; en_alarm : NtAlarm; en_time_stamp : NtTimeStamp }.

Definition selected (e : NtEnum) : option bytes :=
  if 0 <=? enum_index e then choices e !! Z.to_nat (enum_index e) else None.

Inductive PvValue : Type :=
| PvScalar (v : ScalarValue)
| PvScalarArray (v : ScalarArrayValue)
| PvStructure (struct_id : bytes) (fields : list (bytes * PvValue)).

Inductive NtPayload : Type :=
| Scalar (nt : NtScalar)
| ScalarArray (nt : NtScalarArray)
| Table (nt : NtTable)
| NdArray (nt : NtNdArray)
| Enum (nt : NtEnum)
| Generic (struct_id : bytes) (fields : list (bytes * PvValue)).

Definition STANDARD_FORM_CHOICES : list bytes :=
  [str "Default"; str "String"; str "Binary"; str "Decimal"; str "Hex"; str "Exponential";
   str "Engineering"].

(** ** Validation *)

(** The reason a [validate] gives; the source formats it as text. *)
Inductive ValidateError : Type :=
| ColumnLength (name : bytes) (len expected : Z)
| DescriptorUnset
| SizeMismatch (uncompressed expected : Z)
| CompressedExceeds (compressed uncompressed : Z).

Fixpoint check_columns (cols : list NtTableColumn) (expected_len : option Z) : outcome ValidateError unit :=
  match cols with
  | [] => Ok tt
  | col :: cols =>
    let l := len (col_values col) in
    match expected_len with
    | Some expected =>
      if negb (expected =? l) then Err (ColumnLength (col_name col) l expected)
      else check_columns cols expected_len
    | None => check_columns cols (Some l)
    end
  end.

Definition table_validate (nt : NtTable) : outcome ValidateError unit :=
  check_columns (columns nt) None.

(** [s.trim().is_empty()]: every character is Unicode white space. *)
Fixpoint blank (s : bytes) : bool :=
  match s with
  | [] => true
  | b :: s =>
    if ((9 <=? b) && (b <=? 13)) || (b =? 32) then blank s
    else
      match s with
      | c :: s2 =>
        if (b =? 0xC2) && ((c =? 0x85) || (c =? 0xA0)) then blank s2
        else
          match s2 with
          | d :: s3 =>
            if (b =? 0xE1) && (c =? 0x9A) && (d =? 0x80)
               || (b =? 0xE2) && (c =? 0x80)
                  && (((0x80 <=? d) && (d <=? 0x8A)) || (d =? 0xA8) || (d =? 0xA9) || (d =? 0xAF))
               || (b =? 0xE2) && (c =? 0x81) && (d =? 0x9F)
               || (b =? 0xE3) && (c =? 0x80) && (d =? 0x80)
            then blank s3 else false
          | [] => false
          end
      | [] => false
      end
  end.

Definition i64_max : Z := 2 ^ 63 - 1.

(** [.product::<i64>()] of sizes that are not negative, with the overflow check
    of a debug build. *)
Fixpoint product_i64 (acc : Z) (l : list Z) : outcome ValidateError Z :=
  match l with
  | [] => Ok acc
  | x :: l => if acc * x >? i64_max then Panic else product_i64 (acc * x) l
  end.

Definition is_string_array (a : ScalarArrayValue) : bool :=
  match a with AStr _ => true | _ => false end.

Local Open Scope codec_scope.

Definition ndarray_validate (nt : NtNdArray) : outcome ValidateError unit :=
  if existsb (fun a => blank (attr_descriptor a)) (attribute nt) then Err DescriptorUnset else
  let element_size := Z.max (element_size_bytes (nd_value nt)) 1 in
  let? product := product_i64 1 (map (fun d => Z.max (dim_size d) 0) (dimension nt)) in
  let expected := Z.min (Z.max product 0 * element_size) i64_max in
  if negb (is_string_array (nd_value nt)) && (uncompressed_size nt >? 0)
     && negb (uncompressed_size nt =? expected)
  then Err (SizeMismatch (uncompressed_size nt) expected)
  else if (compressed_size nt >? 0) && (uncompressed_size nt >? 0)
          && (compressed_size nt >? uncompressed_size nt)
  then Err (CompressedExceeds (compressed_size nt) (uncompressed_size nt))
  else Ok tt.

Local Close Scope codec_scope.

(** ** Induction and depth of [PvValue] *)

Section Induction.
Context (P : PvValue -> Prop).
Hypothesis scalar : forall v, P (PvScalar v).
Hypothesis array : forall v, P (PvScalarArray v).
Hypothesis structure : forall i fs, Forall (fun nv => P nv.2) fs -> P (PvStructure i fs).

Fixpoint PvValue_tree_ind (v : PvValue) : P v.
Proof using scalar array structure.
  destruct v as [v|v|i fs]; [apply scalar|apply array|].
  apply structure. induction fs; constructor; auto.
Defined.
End Induction.

(** ** Claims *)

(** The first limit that a value trips, in the order the source gives them, with
    the severity and the message reported for it. *)
Definition tripped (nt : NtScalar) (val : Z) : option (Z * bytes) :=
  let at_least l := match l with Some l => le64 l val | None => false end in
  let at_most l := match l with Some l => le64 val l | None => false end in
  if at_least (alarm_hihi nt) then Some (2, str "HIHI")
  else if at_least (alarm_high nt) then Some (1, str "HIGH")
  else if at_most (alarm_lolo nt) then Some (2, str "LOLO")
  else if at_most (alarm_low nt) then Some (1, str "LOW")
  else None.

(** The alarm of a scalar is that of the first limit its value trips, in the
    order HIHI, HIGH, LOLO, LOW, with status 1; a value that trips none, and a
    value that is not a number of any kind, clears the alarm; recomputing it
    changes nothing. *)
Theorem alarm_from_value nt :
  update_alarm_from_value nt =
    match as_f64 (value nt) with
    | Some val =>
      match tripped nt val with
      | Some (sev, msg) => set_alarm nt sev 1 msg
      | None => set_alarm nt 0 0 []
      end
    | None => set_alarm nt 0 0 []
    end /\
  update_alarm_from_value (update_alarm_from_value nt) = update_alarm_from_value nt.
Proof.
  assert (Hupd : forall nt, update_alarm_from_value nt =
    match as_f64 (value nt) with
    | Some val =>
      match tripped nt val with
      | Some (sev, msg) => set_alarm nt sev 1 msg
      | None => set_alarm nt 0 0 []
      end
    | None => set_alarm nt 0 0 []
    end).
  { clear nt. intros nt. unfold update_alarm_from_value, tripped, try_limit.
    destruct (as_f64 (value nt)) as [val|]; [|done].
    destruct (alarm_hihi nt) as [a|], (alarm_high nt) as [b|], (alarm_lolo nt) as [c|], (alarm_low nt) as [d|];
      cbn; repeat (destruct (le64 _ _); cbn); done. }
  split; [apply Hupd|]. rewrite (Hupd nt).
  destruct (as_f64 (value nt)) as [val|] eqn:E; [destruct (tripped nt val) as [[sev msg]|] eqn:T|];
    rewrite Hupd; cbn [value set_alarm]; rewrite E; try reflexivity.
  - change (tripped (set_alarm nt sev 1 msg) val) with (tripped nt val). now rewrite T.
  - change (tripped (set_alarm nt 0 0 []) val) with (tripped nt val). now rewrite T.
Qed.

(** [NtTable::validate] accepts exactly the tables whose columns all have
    the length of the first. *)
Theorem table_validate_rectangular nt :
  table_validate nt = Ok tt <->
  forall a b, a ∈ columns nt -> b ∈ columns nt -> len (col_values a) = len (col_values b).
Proof.
  unfold table_validate.
  assert (Hsome : forall cols l, check_columns cols (Some l) = Ok tt <->
            forall a, a ∈ cols -> len (col_values a) = l).
  { induction cols as [|c cols IH]; intros l; cbn.
    - split; [|done]. intros _ a Ha. now apply elem_of_nil in Ha.
    - destruct (Z.eqb_spec l (len (col_values c))) as [->|Hne]; cbn.
      + rewrite IH. setoid_rewrite elem_of_cons. naive_solver.
      + split; [discriminate|]. intros H. exfalso. apply Hne. symmetry. apply H, elem_of_cons. now left. }
  destruct (columns nt) as [|c cols]; cbn.
  - split; [|done]. intros _ a b Ha. now apply elem_of_nil in Ha.
  - rewrite Hsome. setoid_rewrite elem_of_cons. split; [|naive_solver].
    intros H a b [->|Ha] [->|Hb]; rewrite ?(H a), ?(H b); auto.
Qed.

(** Three dimensions of the largest size overflow the product of
    [NtNdArray::validate], although the multiplication by the element size after
    it saturates. *)
Theorem ndarray_validate_overflows :
  let d := mkDimension (2 ^ 31 - 1) 0 (2 ^ 31 - 1) 1 false in
  ndarray_validate (mkNdArray (AU8 []) (mkCodec [] ∅) 0 0 [d; d; d] 0 default_time_stamp [] None None None None)
  = Panic.
Proof. reflexivity. Qed.

End NtTypes.
