(* ===== verification/NtEncode.v ===== *)
(** * Encoding normative types

    Models the normative-type part of [spvirit-codec/src/spvd_encode.rs]: the
    descriptor of every payload and its full encoding.  A sink-style function
    of the source takes and returns the sink.  [SystemTime::now()], read when an
    [NtScalar] has no time stamp, is the argument [now] (seconds and
    nanoseconds since the epoch). *)

From stdpp Require Import gmap sorting.
From S2P Require Import Prelude Wire PvdTypes PvdEncode NtTypes.

Local Open Scope Z_scope.

Module NtEncode.
Import Wire NtTypes.

(** ** Leaves *)

Definition encode_i32 (v : Z) (is_be : bool) : bytes := put_int is_be 4 v.
Definition encode_i64 (v : Z) (is_be : bool) : bytes := put_int is_be 8 v.
Definition encode_f64 (v : Z) (is_be : bool) : bytes := put_int is_be 8 v.
Definition encode_bool (v : bool) : bytes := [if v then 1 else 0].

Definition encode_scalar_value (v : ScalarValue) (is_be : bool) : bytes :=
  match v with
  | Bool v => [if v then 1 else 0]
  | I8 v => [v mod 256]
  | I16 v => put_int is_be 2 v
  | I32 v => put_int is_be 4 v
  | I64 v => put_int is_be 8 v
  | U8 v => [v]
  | U16 v => put_int is_be 2 v
  | U32 v => put_int is_be 4 v
  | U64 v => put_int is_be 8 v
  | F32 v => put_int is_be 4 v
  | F64 v => put_int is_be 8 v
  | Str v => encode_string v is_be
  end.

Definition push_string_array (out : bytes) (values : list bytes) (is_be : bool) : bytes :=
  List.fold_left (fun out v => push_string out v is_be) values (push_size out (zlen values) is_be).

Definition encode_string_array (values : list bytes) (is_be : bool) : bytes :=
  push_string_array [] values is_be.

Definition encode_enum (index : Z) (choices : list bytes) (is_be : bool) : bytes :=
  encode_i32 index is_be ++ encode_string_array choices is_be.

Definition push_fixed_width (n : nat) (out : bytes) (values : list Z) (is_be : bool) : bytes :=
  List.fold_left (fun out v => out ++ put_int is_be n v) values (push_size out (zlen values) is_be).

Definition push_scalar_array_value_pvd (out : bytes) (v : ScalarArrayValue) (is_be : bool) : bytes :=
  match v with
  | ABool v => push_size out (zlen v) is_be ++ map (fun b : bool => if b then 1 else 0) v
  | AI8 v => push_size out (zlen v) is_be ++ map (fun b => b mod 256) v
  | AI16 v => push_fixed_width 2 out v is_be
  | AI32 v => push_fixed_width 4 out v is_be
  | AI64 v => push_fixed_width 8 out v is_be
  | AU8 v => push_size out (zlen v) is_be ++ v
  | AU16 v => push_fixed_width 2 out v is_be
  | AU32 v => push_fixed_width 4 out v is_be
  | AU64 v => push_fixed_width 8 out v is_be
  | AF32 v => push_fixed_width 4 out v is_be
  | AF64 v => push_fixed_width 8 out v is_be
  | AStr v => push_string_array out v is_be
  end.

(** ** Descriptors *)

Abbreviation field n ft := (Ty.mkField (str n) ft).
Abbreviation i32_t := (Ty.Scalar TypeCode.Int32).
Abbreviation i64_t := (Ty.Scalar TypeCode.Int64).
Abbreviation f64_t := (Ty.Scalar TypeCode.Float64).
Abbreviation bool_t := (Ty.Scalar TypeCode.Boolean).

Definition alarm_desc : Ty.StructureDesc :=
  Ty.mkStruct (Some (str "alarm_t"))
    [field "severity" i32_t; field "status" i32_t; field "message" Ty.String].

Definition timestamp_desc : Ty.StructureDesc :=
  Ty.mkStruct (Some (str "time_t"))
    [field "secondsPastEpoch" i64_t; field "nanoseconds" i32_t; field "userTag" i32_t].

Definition enum_desc : Ty.StructureDesc :=
  Ty.mkStruct (Some (str "enum_t")) [field "index" i32_t; field "choices" Ty.StringArray].

Definition display_desc : Ty.StructureDesc :=
  Ty.mkStruct (Some (str "display_t"))
    [field "limitLow" f64_t; field "limitHigh" f64_t; field "description" Ty.String;
     field "units" Ty.String; field "precision" i32_t; field "form" (Ty.Structure enum_desc)].

Definition control_desc : Ty.StructureDesc :=
  Ty.mkStruct (Some (str "control_t"))
    [field "limitLow" f64_t; field "limitHigh" f64_t; field "minStep" f64_t].

Definition value_alarm_desc : Ty.StructureDesc :=
  Ty.mkStruct (Some (str "valueAlarm_t"))
    [field "active" bool_t;
     field "lowAlarmLimit" f64_t; field "lowWarningLimit" f64_t;
     field "highWarningLimit" f64_t; field "highAlarmLimit" f64_t;
     field "lowAlarmSeverity" i32_t; field "lowWarningSeverity" i32_t;
     field "highWarningSeverity" i32_t; field "highAlarmSeverity" i32_t;
     field "hysteresis" (Ty.Scalar TypeCode.UInt8)].

Definition scalar_value_type_code (v : ScalarValue) : TypeCode.t :=
  match v with
  | Bool _ => TypeCode.Boolean
  | I8 _ => TypeCode.Int8 | I16 _ => TypeCode.Int16 | I32 _ => TypeCode.Int32 | I64 _ => TypeCode.Int64
  | U8 _ => TypeCode.UInt8 | U16 _ => TypeCode.UInt16 | U32 _ => TypeCode.UInt32 | U64 _ => TypeCode.UInt64
  | F32 _ => TypeCode.Float32 | F64 _ => TypeCode.Float64
  | Str _ => TypeCode.String
  end.

(** The type of a scalar: [FieldType::String] for a string. *)
Definition scalar_type (v : ScalarValue) : Ty.FieldType :=
  match v with Str _ => Ty.String | _ => Ty.Scalar (scalar_value_type_code v) end.

Definition scalar_array_field_type (v : ScalarArrayValue) : Ty.FieldType :=
  match v with
  | ABool _ => Ty.ScalarArray TypeCode.Boolean
  | AI8 _ => Ty.ScalarArray TypeCode.Int8
  | AI16 _ => Ty.ScalarArray TypeCode.Int16
  | AI32 _ => Ty.ScalarArray TypeCode.Int32
  | AI64 _ => Ty.ScalarArray TypeCode.Int64
  | AU8 _ => Ty.ScalarArray TypeCode.UInt8
  | AU16 _ => Ty.ScalarArray TypeCode.UInt16
  | AU32 _ => Ty.ScalarArray TypeCode.UInt32
  | AU64 _ => Ty.ScalarArray TypeCode.UInt64
  | AF32 _ => Ty.ScalarArray TypeCode.Float32
  | AF64 _ => Ty.ScalarArray TypeCode.Float64
  | AStr _ => Ty.StringArray
  end.

Definition nt_scalar_desc (v : ScalarValue) : Ty.StructureDesc :=
  Ty.mkStruct (Some (str "epics:nt/NTScalar:1.0"))
    [field "value" (scalar_type v); field "alarm" (Ty.Structure alarm_desc);
     field "timeStamp" (Ty.Structure timestamp_desc); field "display" (Ty.Structure display_desc);
     field "control" (Ty.Structure control_desc); field "valueAlarm" (Ty.Structure value_alarm_desc)].

Definition nt_scalar_array_desc (v : ScalarArrayValue) : Ty.StructureDesc :=
  Ty.mkStruct (Some (str "epics:nt/NTScalarArray:1.0"))
    [field "value" (scalar_array_field_type v); field "alarm" (Ty.Structure alarm_desc);
     field "timeStamp" (Ty.Structure timestamp_desc); field "display" (Ty.Structure display_desc);
     field "control" (Ty.Structure (Ty.mkStruct (Some (str "control_t"))
       [field "limitLow" f64_t; field "limitHigh" f64_t; field "minStep" f64_t]))].

Definition nt_table_desc (nt : NtTable) : Ty.StructureDesc :=
  let value_fields :=
    map (fun col => Ty.mkField (col_name col) (scalar_array_field_type (col_values col))) (columns nt) in
  Ty.mkStruct (Some (str "epics:nt/NTTable:1.0"))
    [field "labels" Ty.StringArray; field "value" (Ty.Structure (Ty.mkStruct None value_fields));
     field "descriptor" Ty.String; field "alarm" (Ty.Structure alarm_desc);
     field "timeStamp" (Ty.Structure timestamp_desc)].

Definition nt_ndarray_value_union_fields : list Ty.FieldDesc :=
  [field "booleanValue" (Ty.ScalarArray TypeCode.Boolean);
   field "byteValue" (Ty.ScalarArray TypeCode.Int8);
   field "shortValue" (Ty.ScalarArray TypeCode.Int16);
   field "intValue" (Ty.ScalarArray TypeCode.Int32);
   field "longValue" (Ty.ScalarArray TypeCode.Int64);
   field "ubyteValue" (Ty.ScalarArray TypeCode.UInt8);
   field "ushortValue" (Ty.ScalarArray TypeCode.UInt16);
   field "uintValue" (Ty.ScalarArray TypeCode.UInt32);
   field "ulongValue" (Ty.ScalarArray TypeCode.UInt64);
   field "floatValue" (Ty.ScalarArray TypeCode.Float32);
   field "doubleValue" (Ty.ScalarArray TypeCode.Float64);
   field "stringValue" Ty.StringArray].

Definition nt_ndarray_desc : Ty.StructureDesc :=
  Ty.mkStruct (Some (str "epics:nt/NTNDArray:1.0"))
    [field "value" (Ty.Union nt_ndarray_value_union_fields);
     field "codec" (Ty.Structure (Ty.mkStruct (Some (str "codec_t"))
       [field "name" Ty.String; field "parameters" Ty.Variant]));
     field "compressedSize" i64_t; field "uncompressedSize" i64_t;
     field "dimension" (Ty.StructureArray (Ty.mkStruct (Some (str "dimension_t"))
       [field "size" i32_t; field "offset" i32_t; field "fullSize" i32_t; field "binning" i32_t;
        field "reverse" bool_t]));
     field "uniqueId" i32_t;
     field "dataTimeStamp" (Ty.Structure timestamp_desc);
     field "attribute" (Ty.StructureArray (Ty.mkStruct (Some (str "NTAttribute"))
       [field "name" Ty.String; field "value" Ty.Variant; field "descriptor" Ty.String;
        field "sourceType" i32_t; field "source" Ty.String]));
     field "descriptor" Ty.String;
     field "alarm" (Ty.Structure alarm_desc);
     field "timeStamp" (Ty.Structure timestamp_desc);
     field "display" (Ty.Structure display_desc)].

Definition nt_enum_desc : Ty.StructureDesc :=
  Ty.mkStruct (Some (str "epics:nt/NTEnum:1.0"))
    [field "value" (Ty.Structure enum_desc); field "alarm" (Ty.Structure alarm_desc);
     field "timeStamp" (Ty.Structure timestamp_desc)].

Definition struct_id_of (id : bytes) : option bytes := match id with [] => None | _ => Some id end.

Fixpoint pv_value_field_type (v : PvValue) : Ty.FieldType :=
  match v with
  | PvScalar sv => match sv with Str _ => Ty.String | _ => Ty.Scalar (scalar_value_type_code sv) end
  | PvScalarArray sa => scalar_array_field_type sa
  | PvStructure id fs =>
    Ty.Structure (Ty.mkStruct (struct_id_of id)
      (map (fun nv => Ty.mkField nv.1 (pv_value_field_type nv.2)) fs))
  end.

Definition pv_value_desc (id : bytes) (fs : list (bytes * PvValue)) : Ty.StructureDesc :=
  Ty.mkStruct (struct_id_of id) (map (fun nv => Ty.mkField nv.1 (pv_value_field_type nv.2)) fs).

Definition nt_payload_desc (p : NtPayload) : Ty.StructureDesc :=
  match p with
  | Scalar nt => nt_scalar_desc (value nt)
  | ScalarArray nt => nt_scalar_array_desc (sa_value nt)
  | Table nt => nt_table_desc nt
  | NdArray _ => nt_ndarray_desc
  | Enum _ => nt_enum_desc
  | Generic id fs => pv_value_desc id fs
  end.

(** ** Field counts without a descriptor *)

Definition nt_scalar_field_count : Z := Ty.count_structure_fields (nt_scalar_desc (I32 0)).

Fixpoint pv_field_count (v : PvValue) : Z :=
  match v with
  | PvStructure _ fs => List.fold_left (fun n nv => n + 1 + pv_field_count nv.2) fs 0
  | _ => 0
  end.

Definition pv_value_field_count (fs : list (bytes * PvValue)) : Z :=
  List.fold_left (fun n nv => n + 1 + pv_field_count nv.2) fs 0.

Definition nt_payload_field_count (p : NtPayload) : Z :=
  match p with
  | Scalar _ => nt_scalar_field_count
  | ScalarArray _ => Ty.count_structure_fields (nt_scalar_array_desc (AI32 []))
  | NdArray _ => Ty.count_structure_fields nt_ndarray_desc
  | Enum _ => Ty.count_structure_fields nt_enum_desc
  | Table nt =>
    Ty.count_structure_fields (nt_table_desc (mkTable [] [] None None None)) + zlen (columns nt)
  | Generic _ fs => pv_value_field_count fs
  end.

(** ** Full encodings *)

Definition scalar_stamp (now : Z * Z) (nt : NtScalar) : Z * Z * Z :=
  match time_stamp nt with
  | Some ts => (seconds_past_epoch ts, nanoseconds ts, user_tag ts)
  | None => (now.1, now.2, 0)
  end.

Definition encode_alarm (nt : NtScalar) (is_be : bool) : bytes :=
  encode_i32 (alarm_severity nt) is_be ++ encode_i32 (alarm_status nt) is_be
  ++ encode_string (alarm_message nt) is_be.

Definition encode_timestamp (now : Z * Z) (nt : NtScalar) (is_be : bool) : bytes :=
  let '(secs, nanos, tag) := scalar_stamp now nt in
  encode_i64 secs is_be ++ encode_i32 nanos is_be ++ encode_i32 tag is_be.

Definition encode_display (nt : NtScalar) (is_be : bool) : bytes :=
  encode_f64 (display_low nt) is_be ++ encode_f64 (display_high nt) is_be
  ++ encode_string (display_description nt) is_be ++ encode_string (sc_units nt) is_be
  ++ encode_i32 (display_precision nt) is_be
  ++ match display_form_choices nt with
     | [] => encode_enum (display_form_index nt) STANDARD_FORM_CHOICES is_be
     | _ => encode_enum (display_form_index nt) (display_form_choices nt) is_be
     end.

Definition encode_control (nt : NtScalar) (is_be : bool) : bytes :=
  encode_f64 (control_low nt) is_be ++ encode_f64 (control_high nt) is_be
  ++ encode_f64 (control_min_step nt) is_be.

Definition encode_value_alarm (nt : NtScalar) (is_be : bool) : bytes :=
  encode_bool (value_alarm_active nt)
  ++ encode_f64 (value_alarm_low_alarm_limit nt) is_be
  ++ encode_f64 (value_alarm_low_warning_limit nt) is_be
  ++ encode_f64 (value_alarm_high_warning_limit nt) is_be
  ++ encode_f64 (value_alarm_high_alarm_limit nt) is_be
  ++ encode_i32 (value_alarm_low_alarm_severity nt) is_be
  ++ encode_i32 (value_alarm_low_warning_severity nt) is_be
  ++ encode_i32 (value_alarm_high_warning_severity nt) is_be
  ++ encode_i32 (value_alarm_high_alarm_severity nt) is_be
  ++ [value_alarm_hysteresis nt].

Definition push_nt_scalar_full (now : Z * Z) (out : bytes) (nt : NtScalar) (is_be : bool) : bytes :=
  out ++ encode_scalar_value (value nt) is_be ++ encode_alarm nt is_be ++ encode_timestamp now nt is_be
  ++ encode_display nt is_be ++ encode_control nt is_be ++ encode_value_alarm nt is_be.

Definition encode_nt_alarm (a : NtAlarm) (is_be : bool) : bytes :=
  encode_i32 (severity a) is_be ++ encode_i32 (al_status a) is_be ++ encode_string (al_message a) is_be.

Definition encode_nt_timestamp (ts : NtTimeStamp) (is_be : bool) : bytes :=
  encode_i64 (seconds_past_epoch ts) is_be ++ encode_i32 (nanoseconds ts) is_be
  ++ encode_i32 (user_tag ts) is_be.

Definition encode_nt_display (d : NtDisplay) (is_be : bool) : bytes :=
  encode_f64 (limit_low d) is_be ++ encode_f64 (limit_high d) is_be
  ++ encode_string (description d) is_be ++ encode_string (units d) is_be
  ++ encode_i32 (precision d) is_be ++ encode_enum 0 STANDARD_FORM_CHOICES is_be.

Definition push_nt_scalar_array_full (out : bytes) (nt : NtScalarArray) (is_be : bool) : bytes :=
  push_scalar_array_value_pvd out (sa_value nt) is_be
  ++ encode_nt_alarm (sa_alarm nt) is_be ++ encode_nt_timestamp (sa_time_stamp nt) is_be
  ++ encode_nt_display (sa_display nt) is_be
  ++ encode_f64 (ct_limit_low (sa_control nt)) is_be ++ encode_f64 (ct_limit_high (sa_control nt)) is_be
  ++ encode_f64 (min_step (sa_control nt)) is_be.

Definition push_nt_table_full (out : bytes) (nt : NtTable) (is_be : bool) : bytes :=
  let out := out ++ encode_string_array (labels nt) is_be in
  let out := List.fold_left (fun out col => push_scalar_array_value_pvd out (col_values col) is_be)
               (columns nt) out in
  out ++ encode_string (default [] (tb_descriptor nt)) is_be
  ++ encode_nt_alarm (default default_alarm (tb_alarm nt)) is_be
  ++ encode_nt_timestamp (default default_time_stamp (tb_time_stamp nt)) is_be.

Definition ndarray_union_index (v : ScalarArrayValue) : Z :=
  match v with
  | ABool _ => 0 | AI8 _ => 1 | AI16 _ => 2 | AI32 _ => 3 | AI64 _ => 4
  | AU8 _ => 5 | AU16 _ => 6 | AU32 _ => 7 | AU64 _ => 8 | AF32 _ => 9 | AF64 _ => 10 | AStr _ => 11
  end.

(** The order of [String]: bytes, lexicographically. *)
Fixpoint string_leb (a b : bytes) : bool :=
  match a, b with
  | [], _ => true
  | _, [] => false
  | x :: a, y :: b => if x =? y then string_leb a b else x <? y
  end.

Definition string_le (a b : bytes) : Prop := string_leb a b = true.

#[export] Instance string_le_dec : RelDecision string_le.
Proof. intros a b. unfold string_le. apply _. Defined.

(** [keys.sort()] of the map's keys. *)
Definition sorted_keys (m : gmap bytes bytes) : list bytes :=
  merge_sort string_le (map fst (map_to_list m)).

Definition encode_codec_parameters (m : gmap bytes bytes) (is_be : bool) : bytes :=
  if bool_decide (m = ∅) then [0xFF] else
  let keys := sorted_keys m in
  0x80 :: PvdEncode.encode_structure_desc
            (Ty.mkStruct None (map (fun k => Ty.mkField k Ty.String) keys)) is_be
  ++ concat (map (fun k => encode_string (default [] (m !! k)) is_be) keys).

Definition encode_attribute_variant (attr : NtAttribute) (is_be : bool) : bytes :=
  TypeCode.to_byte (scalar_value_type_code (attr_value attr)) :: encode_scalar_value (attr_value attr) is_be.

Definition push_nt_ndarray_full (out : bytes) (nt : NtNdArray) (is_be : bool) : bytes :=
  let out := push_size out (ndarray_union_index (nd_value nt)) is_be in
  let out := push_scalar_array_value_pvd out (nd_value nt) is_be in
  out ++ encode_string (codec_name (codec nt)) is_be
  ++ encode_codec_parameters (parameters (codec nt)) is_be
  ++ encode_i64 (compressed_size nt) is_be ++ encode_i64 (uncompressed_size nt) is_be
  ++ encode_size (zlen (dimension nt)) is_be
  ++ concat (map (fun d =>
       1 :: encode_i32 (dim_size d) is_be ++ encode_i32 (dim_offset d) is_be
       ++ encode_i32 (full_size d) is_be ++ encode_i32 (binning d) is_be
       ++ encode_bool (reverse d)) (dimension nt))
  ++ encode_i32 (unique_id nt) is_be ++ encode_nt_timestamp (data_time_stamp nt) is_be
  ++ encode_size (zlen (attribute nt)) is_be
  ++ concat (map (fun a =>
       1 :: encode_string (attr_name a) is_be ++ encode_attribute_variant a is_be
       ++ encode_string (attr_descriptor a) is_be ++ encode_i32 (source_type a) is_be
       ++ encode_string (source a) is_be) (attribute nt))
  ++ encode_string (default [] (nd_descriptor nt)) is_be
  ++ encode_nt_alarm (default default_alarm (nd_alarm nt)) is_be
  ++ encode_nt_timestamp (default default_time_stamp (nd_time_stamp nt)) is_be
  ++ encode_nt_display (default default_display (nd_display nt)) is_be.

Definition push_nt_enum_full (out : bytes) (nt : NtEnum) (is_be : bool) : bytes :=
  out ++ encode_enum (enum_index nt) (choices nt) is_be ++ encode_nt_alarm (en_alarm nt) is_be
  ++ encode_nt_timestamp (en_time_stamp nt) is_be.

Fixpoint push_pv_value (out : bytes) (v : PvValue) (is_be : bool) : bytes :=
  match v with
  | PvScalar sv => out ++ encode_scalar_value sv is_be
  | PvScalarArray sa => push_scalar_array_value_pvd out sa is_be
  | PvStructure _ fs => List.fold_left (fun out nv => push_pv_value out nv.2 is_be) fs out
  end.

Definition push_pv_value_fields (out : bytes) (fs : list (bytes * PvValue)) (is_be : bool) : bytes :=
  List.fold_left (fun out nv => push_pv_value out nv.2 is_be) fs out.

Definition push_nt_payload_full (now : Z * Z) (out : bytes) (p : NtPayload) (is_be : bool) : bytes :=
  match p with
  | Scalar nt => push_nt_scalar_full now out nt is_be
  | ScalarArray nt => push_nt_scalar_array_full out nt is_be
  | Table nt => push_nt_table_full out nt is_be
  | NdArray nt => push_nt_ndarray_full out nt is_be
  | Enum nt => push_nt_enum_full out nt is_be
  | Generic _ fs => push_pv_value_fields out fs is_be
  end.

Definition encode_nt_payload_full (now : Z * Z) (p : NtPayload) (is_be : bool) : bytes :=
  push_nt_payload_full now [] p is_be.

Definition push_nt_payload_bitset (now : Z * Z) (out : bytes) (p : NtPayload) (is_be : bool) : bytes :=
  let out := PvdEncode.push_all_ones_bitset out (1 + nt_payload_field_count p) is_be in
  push_nt_payload_full now out p is_be.

Definition encode_nt_payload_bitset (now : Z * Z) (p : NtPayload) (is_be : bool) : bytes :=
  push_nt_payload_bitset now [] p is_be.

Definition encode_nt_payload_bitset_parts (now : Z * Z) (p : NtPayload) (is_be : bool) : bytes * bytes :=
  (PvdEncode.encode_all_ones_bitset (1 + nt_payload_field_count p) is_be, encode_nt_payload_full now p is_be).

Definition encode_nt_scalar_bitset_parts (now : Z * Z) (nt : NtScalar) (is_be : bool) : bytes * bytes :=
  (PvdEncode.encode_all_ones_bitset (1 + nt_scalar_field_count) is_be,
   push_nt_scalar_full now [] nt is_be).

(** ** The counts agree with the descriptors *)

Lemma fold_count (fs : list (bytes * PvValue)) (n : Z) :
  List.fold_left (fun n nv => n + 1 + pv_field_count nv.2) fs n
  = n + Ty.list_sum (map (fun nv => 1 + pv_field_count nv.2) fs).
Proof. revert n. induction fs as [|nv fs IH]; intros n; cbn; [lia|]. rewrite IH. cbn. lia. Qed.

(** The bits below a field of a given type. *)
Definition below (ft : Ty.FieldType) : Z :=
  match ft with Ty.Structure d => Ty.count_structure_fields d | _ => 0 end.

Lemma below_scalar v : below (scalar_type v) = 0.
Proof. now destruct v. Qed.

Lemma below_array v : below (scalar_array_field_type v) = 0.
Proof. now destruct v. Qed.

Lemma count_fields id fs :
  Ty.count_structure_fields (Ty.mkStruct id fs) = Ty.list_sum (map (fun f => 1 + below (Ty.field_type f)) fs).
Proof. reflexivity. Qed.

Lemma pv_count_below v : pv_field_count v = below (pv_value_field_type v).
Proof.
  induction v as [v|v|i fs IH] using PvValue_tree_ind; [now destruct v|now destruct v|].
  cbn [pv_field_count pv_value_field_type below]. rewrite fold_count, count_fields, map_map.
  rewrite Z.add_0_l. f_equal. induction IH as [|nv fs Hnv _ IHfs]; cbn; [done|]. now rewrite Hnv, IHfs.
Qed.

Lemma columns_count cols :
  Ty.list_sum (map (fun f => 1 + below (Ty.field_type f))
    (map (fun col => Ty.mkField (col_name col) (scalar_array_field_type (col_values col))) cols))
  = zlen cols.
Proof.
  induction cols as [|c cols IH]; [done|].
  cbn [map Ty.list_sum Ty.field_type]. rewrite IH, below_array, zlen_cons. lia.
Qed.

Lemma nt_field_count p : nt_payload_field_count p = Ty.count_structure_fields (nt_payload_desc p).
Proof.
  destruct p as [nt|nt|nt|nt|nt|id fs]; cbn [nt_payload_field_count nt_payload_desc]; try done.
  - unfold nt_scalar_field_count, nt_scalar_desc. rewrite !count_fields. cbn [map Ty.list_sum Ty.field_type].
    now rewrite !below_scalar.
  - unfold nt_scalar_array_desc. rewrite !count_fields. cbn [map Ty.list_sum Ty.field_type].
    now rewrite !below_array.
  - unfold nt_table_desc. rewrite !count_fields. cbn [map Ty.list_sum Ty.field_type below].
    rewrite !count_fields, (columns_count (columns nt)). cbn [columns map Ty.list_sum]. lia.
  - unfold pv_value_field_count, pv_value_desc. rewrite fold_count, count_fields, map_map, Z.add_0_l.
    f_equal. apply map_ext. intros nv. cbn. now rewrite pv_count_below.
Qed.

(** The number of field bits a payload is sent with, counted without its
    descriptor, is the number of fields of the descriptor a client is given, for
    every payload; so the full-update bitset is that of the descriptor. *)
Theorem nt_field_count_equiv now p is_be :
  nt_payload_field_count p = Ty.count_structure_fields (nt_payload_desc p) /\
  (encode_nt_payload_bitset_parts now p is_be).1 = PvdEncode.encode_structure_bitset (nt_payload_desc p) is_be.
Proof. rewrite nt_field_count. split; [done|]. cbn. now rewrite nt_field_count. Qed.

End NtEncode.
