(* ===== verification/NtView.v ===== *)
(** * Payload views

    Models the direct walk of [spvirit-codec/src/spvd_encode.rs] over an
    [NtPayload] ([View], [Node], [views_equal], [push_view],
    [push_view_projected]) and the [DecodedValue] tree it stands for.  A view
    that borrows from the payload is the borrowed value.  The recursion over a
    node's fields is bounded by [rank], which the lemmas show to be enough. *)

From stdpp Require Import gmap sorting.
From S2P Require Import Prelude Wire PvdTypes PvdEncode NtTypes NtEncode.

Local Open Scope Z_scope.

Module NtView.
Import Wire NtTypes NtEncode PvdEncode.

#[local] Existing Instance TypeCode.eq_dec.

(** ** Decoded leaves *)

Definition dv_scalar (v : ScalarValue) : Val.DecodedValue :=
  match v with
  | Bool x => Val.Boolean x
  | I8 x => Val.Int8 x | I16 x => Val.Int16 x | I32 x => Val.Int32 x | I64 x => Val.Int64 x
  | U8 x => Val.UInt8 x | U16 x => Val.UInt16 x | U32 x => Val.UInt32 x | U64 x => Val.UInt64 x
  | F32 x => Val.Float32 x | F64 x => Val.Float64 x
  | Str x => Val.String x
  end.

Definition dv_scalar_array (v : ScalarArrayValue) : Val.DecodedValue :=
  Val.Array match v with
  | ABool a => map Val.Boolean a
  | AI8 a => map Val.Int8 a | AI16 a => map Val.Int16 a | AI32 a => map Val.Int32 a | AI64 a => map Val.Int64 a
  | AU8 a => map Val.UInt8 a | AU16 a => map Val.UInt16 a | AU32 a => map Val.UInt32 a | AU64 a => map Val.UInt64 a
  | AF32 a => map Val.Float32 a | AF64 a => map Val.Float64 a
  | AStr a => map Val.String a
  end.

Definition dv_string_array (v : list bytes) : Val.DecodedValue := Val.Array (map Val.String v).

Definition dv_form_choices (v : list bytes) : Val.DecodedValue :=
  match v with
  | [] => Val.Array (map Val.String STANDARD_FORM_CHOICES)
  | _ => dv_string_array v
  end.

Definition ndarray_union_field_name (v : ScalarArrayValue) : bytes :=
  match v with
  | ABool _ => str "booleanValue" | AI8 _ => str "byteValue" | AI16 _ => str "shortValue"
  | AI32 _ => str "intValue" | AI64 _ => str "longValue" | AU8 _ => str "ubyteValue"
  | AU16 _ => str "ushortValue" | AU32 _ => str "uintValue" | AU64 _ => str "ulongValue"
  | AF32 _ => str "floatValue" | AF64 _ => str "doubleValue" | AStr _ => str "stringValue"
  end.

Definition dv_codec_parameters (m : gmap bytes bytes) : Val.DecodedValue :=
  if bool_decide (m = ∅) then Val.Null
  else Val.Structure (map (fun k => (k, Val.String (default [] (m !! k)))) (sorted_keys m)).

Definition dv_dimensions (l : list NdDimension) : Val.DecodedValue :=
  Val.Array (map (fun d => Val.Structure
    [(str "size", Val.Int32 (dim_size d)); (str "offset", Val.Int32 (dim_offset d));
     (str "fullSize", Val.Int32 (full_size d)); (str "binning", Val.Int32 (binning d));
     (str "reverse", Val.Boolean (reverse d))]) l).

Definition dv_attributes (l : list NtAttribute) : Val.DecodedValue :=
  Val.Array (map (fun a => Val.Structure
    [(str "name", Val.String (attr_name a)); (str "value", dv_scalar (attr_value a));
     (str "descriptor", Val.String (attr_descriptor a)); (str "sourceType", Val.Int32 (source_type a));
     (str "source", Val.String (source a))]) l).

(** ** Views *)

Inductive Kind : Type :=
| KNull | KBoolean | KInt8 | KInt16 | KInt32 | KInt64 | KUInt8 | KUInt16 | KUInt32 | KUInt64
| KFloat32 | KFloat64 | KString | KArray | KStructure.

#[export] Instance Kind_eq_dec : EqDecision Kind.
Proof. solve_decision. Defined.

Inductive View : Type :=
| VBool (v : bool)
| VI8 (v : Z) | VI16 (v : Z) | VI32 (v : Z) | VI64 (v : Z)
| VU8 (v : Z) | VU16 (v : Z) | VU32 (v : Z) | VU64 (v : Z)
| VF32 (v : Z) | VF64 (v : Z)
| VStr (v : bytes)
| VArray (v : ScalarArrayValue)
| VStrings (v : list bytes)
| VStandardChoices
| VDimensions (v : list NdDimension)
| VAttributes (v : list NtAttribute)
| VCodecParameters (v : gmap bytes bytes)
| VStruct (node : Node)
with Node : Type :=
| NScalar (nt : NtScalar) (stamp : Z * Z * Z)
| NScalarArray (nt : NtScalarArray)
| NTable (nt : NtTable)
| NNdArray (nt : NtNdArray)
| NEnum (nt : NtEnum)
| NFields (fs : list (bytes * PvValue))
| NAlarm (sev st : Z) (message : bytes)
| NTimeStamp (secs nanos tag : Z)
| NScalarDisplay (nt : NtScalar)
| NDisplay (d : option NtDisplay)
| NForm (index : Z) (choices : list bytes)
| NControl (low high step : Z)
| NValueAlarm (nt : NtScalar)
| NTableColumns (c : list NtTableColumn)
| NEnumValue (index : Z) (choices : list bytes)
| NNdValue (v : ScalarArrayValue)
| NCodec (c : NdCodec).

Definition alarm_view (sev st : Z) (message : bytes) : View := VStruct (NAlarm sev st message).

Definition optional_alarm_view (a : option NtAlarm) : View :=
  match a with
  | Some a => alarm_view (severity a) (al_status a) (al_message a)
  | None => alarm_view 0 0 []
  end.

Definition timestamp_view (ts : NtTimeStamp) : View :=
  VStruct (NTimeStamp (seconds_past_epoch ts) (nanoseconds ts) (user_tag ts)).

Definition optional_timestamp_view (ts : option NtTimeStamp) : View :=
  match ts with Some ts => timestamp_view ts | None => VStruct (NTimeStamp 0 0 0) end.

Definition fixed_names (n : Node) : list bytes :=
  match n with
  | NScalar _ _ =>
    [str "value"; str "alarm"; str "timeStamp"; str "display"; str "control"; str "valueAlarm"]
  | NScalarArray _ => [str "value"; str "alarm"; str "timeStamp"; str "display"; str "control"]
  | NTable _ => [str "labels"; str "value"; str "descriptor"; str "alarm"; str "timeStamp"]
  | NNdArray _ =>
    [str "value"; str "codec"; str "compressedSize"; str "uncompressedSize"; str "dimension";
     str "uniqueId"; str "dataTimeStamp"; str "attribute"; str "descriptor"; str "alarm";
     str "timeStamp"; str "display"]
  | NEnum _ => [str "value"; str "alarm"; str "timeStamp"]
  | NAlarm _ _ _ => [str "severity"; str "status"; str "message"]
  | NTimeStamp _ _ _ => [str "secondsPastEpoch"; str "nanoseconds"; str "userTag"]
  | NScalarDisplay _ | NDisplay _ =>
    [str "limitLow"; str "limitHigh"; str "description"; str "units"; str "precision"; str "form"]
  | NForm _ _ | NEnumValue _ _ => [str "index"; str "choices"]
  | NControl _ _ _ => [str "limitLow"; str "limitHigh"; str "minStep"]
  | NValueAlarm _ =>
    [str "active"; str "lowAlarmLimit"; str "lowWarningLimit"; str "highWarningLimit";
     str "highAlarmLimit"; str "lowAlarmSeverity"; str "lowWarningSeverity";
     str "highWarningSeverity"; str "highAlarmSeverity"; str "hysteresis"]
  | NCodec _ => [str "name"; str "parameters"]
  | NFields _ | NTableColumns _ | NNdValue _ => []
  end.

Definition node_len (n : Node) : nat :=
  match n with
  | NFields fs => length fs
  | NTableColumns c => length c
  | NNdValue _ => 1
  | _ => length (fixed_names n)
  end.

(** [name(i)], for [i < len]. *)
Definition node_name (n : Node) (i : nat) : bytes :=
  match n with
  | NFields fs => nth i (map fst fs) []
  | NTableColumns c => nth i (map col_name c) []
  | NNdValue v => ndarray_union_field_name v
  | _ => nth i (fixed_names n) []
  end.

Definition view_scalar (v : ScalarValue) : View :=
  match v with
  | Bool x => VBool x
  | I8 x => VI8 x | I16 x => VI16 x | I32 x => VI32 x | I64 x => VI64 x
  | U8 x => VU8 x | U16 x => VU16 x | U32 x => VU32 x | U64 x => VU64 x
  | F32 x => VF32 x | F64 x => VF64 x
  | Str x => VStr x
  end.

Definition view_pv (v : PvValue) : View :=
  match v with
  | PvScalar sv => view_scalar sv
  | PvScalarArray sa => VArray sa
  | PvStructure _ fs => VStruct (NFields fs)
  end.

(** [field(i)], for [i < len]. *)
Definition node_field (n : Node) (i : nat) : View :=
  match n with
  | NScalar nt (secs, nanos, tag) =>
    match i with
    | 0 => view_scalar (value nt)
    | 1 => alarm_view (alarm_severity nt) (alarm_status nt) (alarm_message nt)
    | 2 => VStruct (NTimeStamp secs nanos tag)
    | 3 => VStruct (NScalarDisplay nt)
    | 4 => VStruct (NControl (control_low nt) (control_high nt) (control_min_step nt))
    | _ => VStruct (NValueAlarm nt)
    end%nat
  | NScalarArray nt =>
    match i with
    | 0 => VArray (sa_value nt)
    | 1 => alarm_view (severity (sa_alarm nt)) (al_status (sa_alarm nt)) (al_message (sa_alarm nt))
    | 2 => timestamp_view (sa_time_stamp nt)
    | 3 => VStruct (NDisplay (Some (sa_display nt)))
    | _ => VStruct (NControl (ct_limit_low (sa_control nt)) (ct_limit_high (sa_control nt))
                      (min_step (sa_control nt)))
    end%nat
  | NTable nt =>
    match i with
    | 0 => VStrings (labels nt)
    | 1 => VStruct (NTableColumns (columns nt))
    | 2 => VStr (default [] (tb_descriptor nt))
    | 3 => optional_alarm_view (tb_alarm nt)
    | _ => optional_timestamp_view (tb_time_stamp nt)
    end%nat
  | NNdArray nt =>
    match i with
    | 0 => VStruct (NNdValue (nd_value nt))
    | 1 => VStruct (NCodec (codec nt))
    | 2 => VI64 (compressed_size nt)
    | 3 => VI64 (uncompressed_size nt)
    | 4 => VDimensions (dimension nt)
    | 5 => VI32 (unique_id nt)
    | 6 => timestamp_view (data_time_stamp nt)
    | 7 => VAttributes (attribute nt)
    | 8 => VStr (default [] (nd_descriptor nt))
    | 9 => optional_alarm_view (nd_alarm nt)
    | 10 => optional_timestamp_view (nd_time_stamp nt)
    | _ => VStruct (NDisplay (nd_display nt))
    end%nat
  | NEnum nt =>
    match i with
    | 0 => VStruct (NEnumValue (enum_index nt) (choices nt))
    | 1 => alarm_view (severity (en_alarm nt)) (al_status (en_alarm nt)) (al_message (en_alarm nt))
    | _ => timestamp_view (en_time_stamp nt)
    end%nat
  | NFields fs => nth i (map (fun nv => view_pv nv.2) fs) (VStr [])
  | NAlarm sev st message =>
    match i with 0 => VI32 sev | 1 => VI32 st | _ => VStr message end%nat
  | NTimeStamp secs nanos tag =>
    match i with 0 => VI64 secs | 1 => VI32 nanos | _ => VI32 tag end%nat
  | NScalarDisplay nt =>
    match i with
    | 0 => VF64 (display_low nt)
    | 1 => VF64 (display_high nt)
    | 2 => VStr (display_description nt)
    | 3 => VStr (sc_units nt)
    | 4 => VI32 (display_precision nt)
    | _ => VStruct (NForm (display_form_index nt) (display_form_choices nt))
    end%nat
  | NDisplay d =>
    match i, d with
    | 0, Some d => VF64 (limit_low d)
    | 1, Some d => VF64 (limit_high d)
    | 2, Some d => VStr (description d)
    | 3, Some d => VStr (units d)
    | 4, Some d => VI32 (precision d)
    | (0 | 1), None => VF64 0
    | (2 | 3), None => VStr []
    | 4, None => VI32 0
    | _, _ => VStruct (NForm 0 [])
    end%nat
  | NForm index choices =>
    match i with
    | 0 => VI32 index
    | _ => match choices with [] => VStandardChoices | _ => VStrings choices end
    end%nat
  | NControl low high step => VF64 (nth i [low; high; step] 0)
  | NValueAlarm nt =>
    match i with
    | 0 => VBool (value_alarm_active nt)
    | 1 => VF64 (value_alarm_low_alarm_limit nt)
    | 2 => VF64 (value_alarm_low_warning_limit nt)
    | 3 => VF64 (value_alarm_high_warning_limit nt)
    | 4 => VF64 (value_alarm_high_alarm_limit nt)
    | 5 => VI32 (value_alarm_low_alarm_severity nt)
    | 6 => VI32 (value_alarm_low_warning_severity nt)
    | 7 => VI32 (value_alarm_high_warning_severity nt)
    | 8 => VI32 (value_alarm_high_alarm_severity nt)
    | _ => VU8 (value_alarm_hysteresis nt)
    end%nat
  | NTableColumns c => nth i (map (fun col => VArray (col_values col)) c) (VStr [])
  | NEnumValue index choices => match i with 0 => VI32 index | _ => VStrings choices end%nat
  | NNdValue v => VArray v
  | NCodec c => match i with 0 => VStr (codec_name c) | _ => VCodecParameters (parameters c) end%nat
  end.

Definition of_payload (now : Z * Z) (p : NtPayload) : View :=
  VStruct match p with
  | Scalar nt => NScalar nt (scalar_stamp now nt)
  | ScalarArray nt => NScalarArray nt
  | Table nt => NTable nt
  | NdArray nt => NNdArray nt
  | Enum nt => NEnum nt
  | Generic _ fs => NFields fs
  end.

Definition kind (v : View) : Kind :=
  match v with
  | VBool _ => KBoolean
  | VI8 _ => KInt8 | VI16 _ => KInt16 | VI32 _ => KInt32 | VI64 _ => KInt64
  | VU8 _ => KUInt8 | VU16 _ => KUInt16 | VU32 _ => KUInt32 | VU64 _ => KUInt64
  | VF32 _ => KFloat32 | VF64 _ => KFloat64
  | VStr _ => KString
  | VArray _ | VStrings _ | VStandardChoices | VDimensions _ | VAttributes _ => KArray
  | VCodecParameters m => if bool_decide (m = ∅) then KNull else KStructure
  | VStruct _ => KStructure
  end.

Definition array_len (v : View) : Z :=
  match v with
  | VArray a => len a
  | VStrings s => zlen s
  | VStandardChoices => zlen STANDARD_FORM_CHOICES
  | VDimensions d => zlen d
  | VAttributes a => zlen a
  | _ => 0
  end.

Definition element_kind (v : View) : Kind :=
  match v with
  | VArray a =>
    match a with
    | ABool _ => KBoolean
    | AI8 _ => KInt8 | AI16 _ => KInt16 | AI32 _ => KInt32 | AI64 _ => KInt64
    | AU8 _ => KUInt8 | AU16 _ => KUInt16 | AU32 _ => KUInt32 | AU64 _ => KUInt64
    | AF32 _ => KFloat32 | AF64 _ => KFloat64
    | AStr _ => KString
    end
  | VStrings _ | VStandardChoices => KString
  | _ => KStructure
  end.

(** ** Field lookup *)

(** [locate]: the position of [name] among the names of a level, tried at the
    hint first, and the hint after it. *)
Definition locate (names : list bytes) (name : bytes) (hint : nat) : option nat * nat :=
  let found :=
    match names !! hint with
    | Some n => if bool_decide (n = name) then Some hint else fst <$> list_find (eq name) names
    | None => fst <$> list_find (eq name) names
    end in
  match found with
  | Some i => (Some i, S i)
  | None => (None, hint)
  end.

Definition node_names (n : Node) : list bytes := map (node_name n) (seq 0 (node_len n)).

Definition view_field (v : View) (name : bytes) (hint : nat) : option View * nat :=
  match v with
  | VStruct node =>
    let '(i, hint) := locate (node_names node) name hint in (node_field node <$> i, hint)
  | VCodecParameters m => (VStr <$> m !! name, hint)
  | _ => (None, hint)
  end.

(** ** Recursion over a view *)

(** Nesting of a value, which bounds the recursion. *)
Fixpoint pv_rank (v : PvValue) : nat :=
  match v with
  | PvStructure _ fs => S (list_max (map (fun nv => pv_rank nv.2) fs))
  | _ => 1
  end.

Definition rank (v : View) : nat :=
  match v with
  | VStruct node =>
    match node with
    | NFields fs => S (list_max (map (fun nv => pv_rank nv.2) fs))
    | NScalar _ _ | NScalarArray _ | NNdArray _ => 4
    | NTable _ | NEnum _ | NScalarDisplay _ | NDisplay _ => 3
    | _ => 2
    end
  | _ => 1
  end.

Section Fuel.
Context (rec : View -> Val.DecodedValue).

Definition to_decoded_step (v : View) : Val.DecodedValue :=
  match v with
  | VBool x => Val.Boolean x
  | VI8 x => Val.Int8 x | VI16 x => Val.Int16 x | VI32 x => Val.Int32 x | VI64 x => Val.Int64 x
  | VU8 x => Val.UInt8 x | VU16 x => Val.UInt16 x | VU32 x => Val.UInt32 x | VU64 x => Val.UInt64 x
  | VF32 x => Val.Float32 x | VF64 x => Val.Float64 x
  | VStr s => Val.String s
  | VArray a => dv_scalar_array a
  | VStrings s => dv_string_array s
  | VStandardChoices => dv_form_choices []
  | VDimensions d => dv_dimensions d
  | VAttributes a => dv_attributes a
  | VCodecParameters m => dv_codec_parameters m
  | VStruct node =>
    Val.Structure (map (fun i => (node_name node i, rec (node_field node i))) (seq 0 (node_len node)))
  end.
End Fuel.

Fixpoint to_decoded_fuel (n : nat) (v : View) : Val.DecodedValue :=
  to_decoded_step (match n with O => fun _ => Val.Null | S n => to_decoded_fuel n end) v.

Definition to_decoded (v : View) : Val.DecodedValue := to_decoded_fuel (rank v) v.

Fixpoint push_view_fuel (n : nat) (out : bytes) (v : View) (is_be : bool) : bytes :=
  match v with
  | VBool x => out ++ [if x then 1 else 0]
  | VI8 x => out ++ [x mod 256]
  | VI16 x => out ++ put_int is_be 2 x
  | VI32 x => out ++ put_int is_be 4 x
  | VI64 x => out ++ put_int is_be 8 x
  | VU8 x => out ++ [x]
  | VU16 x => out ++ put_int is_be 2 x
  | VU32 x => out ++ put_int is_be 4 x
  | VU64 x => out ++ put_int is_be 8 x
  | VF32 x => out ++ put_int is_be 4 x
  | VF64 x => out ++ put_int is_be 8 x
  | VStr s => push_string out s is_be
  | VArray a => push_scalar_array_value_pvd out a is_be
  | VStrings s => push_string_array out s is_be
  | VStandardChoices => push_string_array out STANDARD_FORM_CHOICES is_be
  | VStruct node =>
    match n with
    | O => out
    | S n => List.fold_left (fun out i => push_view_fuel n out (node_field node i) is_be)
               (seq 0 (node_len node)) out
    end
  | VDimensions _ | VAttributes _ | VCodecParameters _ =>
    push_decoded_value out (to_decoded v) is_be
  end.

Definition push_view (out : bytes) (v : View) (is_be : bool) : bytes := push_view_fuel (rank v) out v is_be.

(** ** Equality *)

(** [x.iter().zip(y).all(|(a, b)| f(a, b))]. *)
Definition zip_all {A B} (f : A -> B -> bool) : list A -> list B -> bool :=
  fix go xs ys :=
    match xs, ys with
    | x :: xs, y :: ys => f x y && go xs ys
    | _, _ => true
    end.

(** [x == y || (x.is_nan() && y.is_nan())]. *)
Definition same32 (x y : Z) : bool := Float.eq32 x y || (Float.is_nan32 x && Float.is_nan32 y).
Definition same64 (x y : Z) : bool := Float.eq64 x y || (Float.is_nan64 x && Float.is_nan64 y).

Fixpoint decoded_values_equal (a b : Val.DecodedValue) : bool :=
  match a, b with
  | Val.Null, Val.Null => true
  | Val.Boolean x, Val.Boolean y => Bool.eqb x y
  | Val.Int8 x, Val.Int8 y => x =? y
  | Val.Int16 x, Val.Int16 y => x =? y
  | Val.Int32 x, Val.Int32 y => x =? y
  | Val.Int64 x, Val.Int64 y => x =? y
  | Val.UInt8 x, Val.UInt8 y => x =? y
  | Val.UInt16 x, Val.UInt16 y => x =? y
  | Val.UInt32 x, Val.UInt32 y => x =? y
  | Val.UInt64 x, Val.UInt64 y => x =? y
  | Val.Float32 x, Val.Float32 y => same32 x y
  | Val.Float64 x, Val.Float64 y => same64 x y
  | Val.String x, Val.String y => bool_decide (x = y)
  | Val.Raw x, Val.Raw y => bool_decide (x = y)
  | Val.Array x, Val.Array y => (zlen x =? zlen y) && zip_all decoded_values_equal x y
  | Val.Structure x, Val.Structure y =>
    (zlen x =? zlen y)
    && zip_all (fun l r => bool_decide (l.1 = r.1) && decoded_values_equal l.2 r.2) x y
  | _, _ => false
  end.

(** Slices of floats: same length, element by element. *)
Definition floats_equal (same : Z -> Z -> bool) (x y : list Z) : bool :=
  (zlen x =? zlen y) && zip_all same x y.

Definition scalar_arrays_equal (a b : ScalarArrayValue) : bool :=
  match a, b with
  | ABool x, ABool y => bool_decide (x = y)
  | AI8 x, AI8 y | AI16 x, AI16 y | AI32 x, AI32 y | AI64 x, AI64 y
  | AU8 x, AU8 y | AU16 x, AU16 y | AU32 x, AU32 y | AU64 x, AU64 y => bool_decide (x = y)
  | AF32 x, AF32 y => floats_equal same32 x y
  | AF64 x, AF64 y => floats_equal same64 x y
  | AStr x, AStr y => bool_decide (x = y)
  | _, _ => (len a =? 0) && (len b =? 0)
  end.

#[export] Instance NdDimension_eq_dec : EqDecision NdDimension.
Proof. solve_decision. Defined.

(** The last arm of [views_equal]: pairs of different views. *)
Definition mixed_equal (a b : View) : bool :=
  if negb (bool_decide (kind a = kind b)) then false
  else if bool_decide (kind a = KArray) then
    if negb (array_len a =? array_len b) then false
    else if array_len a =? 0 then true
    else if negb (bool_decide (element_kind a = element_kind b)) then false
    else decoded_values_equal (to_decoded a) (to_decoded b)
  else decoded_values_equal (to_decoded a) (to_decoded b).

Fixpoint views_equal_fuel (n : nat) (a b : View) : bool :=
  match a, b with
  | VBool x, VBool y => Bool.eqb x y
  | VI8 x, VI8 y | VI16 x, VI16 y | VI32 x, VI32 y | VI64 x, VI64 y
  | VU8 x, VU8 y | VU16 x, VU16 y | VU32 x, VU32 y | VU64 x, VU64 y => x =? y
  | VF32 x, VF32 y => same32 x y
  | VF64 x, VF64 y => same64 x y
  | VStr x, VStr y => bool_decide (x = y)
  | VArray x, VArray y => scalar_arrays_equal x y
  | VStrings x, VStrings y => bool_decide (x = y)
  | VArray (AStr x), VStrings y | VStrings y, VArray (AStr x) => bool_decide (x = y)
  | VStandardChoices, VStandardChoices => true
  | VDimensions x, VDimensions y => bool_decide (x = y)
  | VCodecParameters x, VCodecParameters y => bool_decide (x = y)
  | VStruct x, VStruct y =>
    match n with
    | O => true
    | S n =>
      (node_len x =? node_len y)%nat
      && forallb (fun i => bool_decide (node_name x i = node_name y i)
                           && views_equal_fuel n (node_field x i) (node_field y i)) (seq 0 (node_len x))
    end
  | _, _ => mixed_equal a b
  end.

Definition views_equal (a b : View) : bool := views_equal_fuel (max (rank a) (rank b)) a b.

(** ** Projection onto a descriptor *)

(** [find_field] and [field_of]: [locate] in a decoded structure. *)
Definition field_of (v : Val.DecodedValue) (name : bytes) (hint : nat) : option Val.DecodedValue * nat :=
  match v with
  | Val.Structure fs =>
    let '(i, hint) := locate (map fst fs) name hint in
    (match i with Some i => snd <$> fs !! i | None => None end, hint)
  | _ => (None, hint)
  end.

(** The loop of the two projections over the fields of a descriptor: [look] finds
    a field by name and hint, [nested] writes a structure field and [leaf] any
    other. *)
Definition project_loop {V} (look : bytes -> nat -> option V * nat)
    (nested : bytes -> V -> Ty.StructureDesc -> bytes) (leaf : bytes -> V -> bytes)
  : list Ty.FieldDesc -> nat -> bytes -> bytes :=
  fix go fs hint out :=
    match fs with
    | [] => out
    | f :: fs =>
      let '(sub, hint) := look (Ty.name f) hint in
      go fs hint
        match sub with
        | None => out
        | Some sub =>
          match Ty.field_type f with
          | Ty.Structure inner => nested out sub inner
          | _ => leaf out sub
          end
        end
    end.

Fixpoint push_decoded_projected (out : bytes) (v : Val.DecodedValue) (desc : Ty.StructureDesc)
    (is_be : bool) : bytes :=
  match v with
  | Val.Structure _ =>
    project_loop (field_of v) (fun out sub inner => push_decoded_projected out sub inner is_be)
      (fun out sub => push_decoded_value out sub is_be) (Ty.fields desc) 0 out
  | _ => push_decoded_value out v is_be
  end.

Definition encode_decoded_projected (v : Val.DecodedValue) (desc : Ty.StructureDesc) (is_be : bool) : bytes :=
  push_decoded_projected [] v desc is_be.

Fixpoint push_view_projected (out : bytes) (v : View) (desc : Ty.StructureDesc) (is_be : bool) : bytes :=
  if negb (bool_decide (kind v = KStructure)) then push_view out v is_be
  else
    project_loop (view_field v) (fun out sub inner => push_view_projected out sub inner is_be)
      (fun out sub => push_view out sub is_be) (Ty.fields desc) 0 out.

(** ** Filtered encoding *)

Definition nt_payload_shape_matches (p : NtPayload) (desc : Ty.StructureDesc) : bool :=
  let '(id, n) :=
    match p with
    | Scalar _ => (Some (str "epics:nt/NTScalar:1.0"), 6)
    | ScalarArray _ => (Some (str "epics:nt/NTScalarArray:1.0"), 5)
    | Table _ => (Some (str "epics:nt/NTTable:1.0"), 5)
    | NdArray _ => (Some (str "epics:nt/NTNDArray:1.0"), 12)
    | Enum _ => (Some (str "epics:nt/NTEnum:1.0"), 3)
    | Generic id fs => (struct_id_of id, zlen fs)
    end in
  bool_decide (Ty.struct_id desc = id) && (zlen (Ty.fields desc) =? n).

Fixpoint structure_desc_equal (a b : Ty.StructureDesc) : bool :=
  bool_decide (Ty.struct_id a = Ty.struct_id b)
  && (zlen (Ty.fields a) =? zlen (Ty.fields b))
  && zip_all (fun x y =>
       match x, y with
       | Ty.mkField n t, Ty.mkField n' t' => bool_decide (n = n') && field_type_equal t t'
       end) (Ty.fields a) (Ty.fields b)
with field_type_equal (a b : Ty.FieldType) : bool :=
  match a, b with
  | Ty.Scalar x, Ty.Scalar y | Ty.ScalarArray x, Ty.ScalarArray y => bool_decide (x = y)
  | Ty.String, Ty.String | Ty.StringArray, Ty.StringArray => true
  | Ty.Structure x, Ty.Structure y => structure_desc_equal x y
  | Ty.StructureArray x, Ty.StructureArray y => structure_desc_equal x y
  | Ty.Variant, Ty.Variant | Ty.VariantArray, Ty.VariantArray => true
  | Ty.BoundedString x, Ty.BoundedString y => x =? y
  | Ty.Union x, Ty.Union y | Ty.UnionArray x, Ty.UnionArray y => zlen x =? zlen y
  | _, _ => false
  end.

Definition encode_nt_payload_values_for_desc (now : Z * Z) (p : NtPayload) (desc : Ty.StructureDesc)
    (is_be : bool) : bytes :=
  if nt_payload_shape_matches p desc && structure_desc_equal (nt_payload_desc p) desc
  then encode_nt_payload_full now p is_be
  else push_view_projected [] (of_payload now p) desc is_be.

Definition encode_nt_payload_filtered (now : Z * Z) (p : NtPayload) (desc : Ty.StructureDesc)
    (is_be : bool) : bytes * bytes :=
  (encode_structure_bitset desc is_be, encode_nt_payload_values_for_desc now p desc is_be).

End NtView.
