(* ===== verification/NtTree.v ===== *)
(** * The direct walk and the decoded tree

    [NtView] reads a payload in place; here is what it computes on the
    [DecodedValue] tree the view stands for: [push_view] writes the encoding of
    the tree, [views_equal] compares the trees, the projections agree, and the
    full encoding of a payload is the encoding of its tree. *)

From stdpp Require Import gmap sorting.
From S2P Require Import Prelude Wire PvdTypes PvdEncode NtTypes NtEncode NtView.

Local Open Scope Z_scope.

Module NtTree.
Import Wire NtTypes NtEncode PvdEncode NtView.

(** ** Recursion over a view is bounded by its rank *)

Lemma rank_pv v : rank (view_pv v) = pv_rank v.
Proof. destruct v as [[]|?|? fs]; reflexivity. Qed.

Lemma rank_scalar v : rank (view_scalar v) = 1%nat.
Proof. now destruct v. Qed.

Lemma rank_optional_alarm a : rank (optional_alarm_view a) = 2%nat.
Proof. now destruct a. Qed.

Lemma rank_optional_timestamp ts : rank (optional_timestamp_view ts) = 2%nat.
Proof. now destruct ts. Qed.

Lemma rank_pos v : (1 <= rank v)%nat.
Proof. destruct v as [| | | | | | | | | | | | | | | | | |[]]; cbn; lia. Qed.

Lemma rank_child node i : (i < node_len node)%nat -> (rank (node_field node i) < rank (VStruct node))%nat.
Proof.
  intros Hi. destruct node.
  6: { cbn [node_len node_field rank] in *. rewrite nth_lookup.
       destruct (map (fun nv => view_pv nv.2) fs !! i) as [v|] eqn:E.
       - apply list_lookup_fmap_Some in E as ([nm pv] & -> & E). cbn. rewrite rank_pv.
         apply Nat.lt_succ_r. pose proof (proj1 (List.list_max_le (map (fun nv => pv_rank nv.2) fs) _) (le_n _)) as H.
         rewrite List.Forall_forall in H. apply H. apply list_elem_of_In, list_elem_of_fmap.
         exists (nm, pv). split; [done|]. eapply list_elem_of_lookup_2, E.
       - apply lookup_ge_None in E. rewrite length_map in E. lia. }
  13: { cbn [node_len node_field rank] in *. rewrite nth_lookup.
        destruct (map _ c !! i) as [v|] eqn:E; [|cbn; lia].
        apply list_lookup_fmap_Some in E as (col & -> & E). cbn. lia. }
  all: try destruct stamp as [[secs nanos] tag]; try destruct nt; try destruct d as [[]|];
    cbn [node_len fixed_names length] in Hi;
    do 12 (destruct i as [|i]; [cbn; rewrite ?rank_scalar, ?rank_optional_alarm, ?rank_optional_timestamp;
                                repeat case_match; cbn; lia|]); lia.
Qed.

Lemma View_node_ind (P : View -> Prop) :
  (forall v, (forall node, v <> VStruct node) -> P v) ->
  (forall node, (forall i, (i < node_len node)%nat -> P (node_field node i)) -> P (VStruct node)) ->
  forall v, P v.
Proof.
  intros Hleaf Hnode.
  assert (H : forall n v, (rank v <= n)%nat -> P v).
  { induction n as [|n IH]; intros v Hv; [pose proof (rank_pos v); lia|].
    destruct v as [| | | | | | | | | | | | | | | | | |node]; try (apply Hleaf; discriminate).
    apply Hnode. intros i Hi. apply IH. pose proof (rank_child node i Hi). lia. }
  intros v. now apply (H (rank v)).
Qed.

Lemma to_decoded_enough n m v : (rank v <= n)%nat -> (rank v <= m)%nat -> to_decoded_fuel n v = to_decoded_fuel m v.
Proof.
  revert m v. induction n as [|n IH]; intros [|m] v Hn Hm;
    try (pose proof (rank_pos v); lia).
  destruct v; try reflexivity. cbn [to_decoded_fuel to_decoded_step]. f_equal. apply map_ext_in.
  intros i [_ Hi]%in_seq. f_equal. pose proof (rank_child node i ltac:(lia)). apply IH; lia.
Qed.

Lemma to_decoded_struct node :
  to_decoded (VStruct node)
  = Val.Structure (map (fun i => (node_name node i, to_decoded (node_field node i))) (seq 0 (node_len node))).
Proof.
  unfold to_decoded at 1. destruct (rank (VStruct node)) as [|n] eqn:E;
    [pose proof (rank_pos (VStruct node)); lia|].
  cbn [to_decoded_fuel to_decoded_step]. f_equal. apply map_ext_in. intros i [_ Hi]%in_seq. f_equal.
  pose proof (rank_child node i ltac:(lia)). apply to_decoded_enough; lia.
Qed.

(** A leaf needs no fuel. *)
Lemma to_decoded_leaf v : (forall node, v <> VStruct node) -> to_decoded v = to_decoded_step (fun _ => Val.Null) v.
Proof. intros H. destruct v; try reflexivity. now edestruct H. Qed.

Lemma push_view_enough n m out v is_be :
  (rank v <= n)%nat -> (rank v <= m)%nat -> push_view_fuel n out v is_be = push_view_fuel m out v is_be.
Proof.
  revert m out v. induction n as [|n IH]; intros [|m] out v Hn Hm;
    try (pose proof (rank_pos v); lia).
  destruct v; try reflexivity. cbn [push_view_fuel].
  assert (Hc : Forall (fun i => (i < node_len node)%nat) (seq 0 (node_len node))).
  { apply List.Forall_forall. intros i [_ Hi]%in_seq. lia. }
  revert out. induction Hc as [|i l Hi _ IHl]; intros out; cbn; [done|].
  pose proof (rank_child node i Hi). rewrite (IH m) by lia. apply IHl.
Qed.

Lemma push_view_struct out node is_be :
  push_view out (VStruct node) is_be
  = List.fold_left (fun out i => push_view out (node_field node i) is_be) (seq 0 (node_len node)) out.
Proof.
  unfold push_view at 1. destruct (rank (VStruct node)) as [|n] eqn:E;
    [pose proof (rank_pos (VStruct node)); lia|]. cbn [push_view_fuel].
  assert (Hc : Forall (fun i => (i < node_len node)%nat) (seq 0 (node_len node))).
  { apply List.Forall_forall. intros i [_ Hi]%in_seq. lia. }
  revert out. induction Hc as [|i l Hi _ IHl]; intros out; cbn; [done|].
  pose proof (rank_child node i Hi).
  rewrite (push_view_enough n (rank (node_field node i))) by lia. apply IHl.
Qed.

Lemma forallb_ext_in {A} (f g : A -> bool) l : (forall x, In x l -> f x = g x) -> forallb f l = forallb g l.
Proof. intros H. induction l as [|x l IH]; cbn; [done|]. rewrite H, IH; auto with datatypes. Qed.

Lemma views_equal_enough n m a b :
  (rank a <= n)%nat -> (rank b <= n)%nat -> (rank a <= m)%nat -> (rank b <= m)%nat ->
  views_equal_fuel n a b = views_equal_fuel m a b.
Proof.
  revert m a b. induction n as [|n IH]; intros [|m] a b Han Hbn Ham Hbm;
    try (pose proof (rank_pos a); lia).
  destruct a, b; try reflexivity. cbn [views_equal_fuel].
  destruct (Nat.eqb_spec (node_len node) (node_len node0)) as [El|]; [|done]. cbn [andb].
  apply forallb_ext_in. intros i [_ Hi]%in_seq. f_equal.
  pose proof (rank_child node i ltac:(lia)). pose proof (rank_child node0 i ltac:(lia)). apply IH; lia.
Qed.

Lemma views_equal_struct x y :
  views_equal (VStruct x) (VStruct y)
  = (node_len x =? node_len y)%nat
    && forallb (fun i => bool_decide (node_name x i = node_name y i)
                         && views_equal (node_field x i) (node_field y i)) (seq 0 (node_len x)).
Proof.
  unfold views_equal at 1. destruct (max _ _) as [|n] eqn:E; [pose proof (rank_pos (VStruct x)); lia|].
  cbn [views_equal_fuel]. destruct (Nat.eqb_spec (node_len x) (node_len y)) as [El|]; [|done]. cbn [andb].
  apply forallb_ext_in. intros i [_ Hi]%in_seq. f_equal.
  pose proof (rank_child x i ltac:(lia)). pose proof (rank_child y i ltac:(lia)).
  apply views_equal_enough; lia.
Qed.

(** ** Writing a view writes its tree *)

Lemma fold_left_map {A B C} (f : A -> B -> A) (g : C -> B) l a :
  List.fold_left f (map g l) a = List.fold_left (fun a x => f a (g x)) l a.
Proof. revert a. induction l as [|x l IH]; intros a; cbn; auto. Qed.

Lemma fold_left_snoc {A B} (h : A -> B) l out :
  List.fold_left (fun out x => out ++ [h x]) l out = out ++ map h l.
Proof.
  revert out. induction l as [|x l IH]; intros out; cbn; [now rewrite app_nil_r|].
  rewrite IH, <- app_assoc. done.
Qed.

Lemma push_array_tree out a is_be :
  push_scalar_array_value_pvd out a is_be = push_decoded_value out (dv_scalar_array a) is_be.
Proof.
  destruct a; cbn [push_scalar_array_value_pvd dv_scalar_array push_decoded_value];
    rewrite fold_left_map, zlen_map; cbn [push_decoded_value]; rewrite ?fold_left_snoc; try reflexivity.
  now rewrite map_id.
Qed.

Lemma push_strings_tree out l is_be :
  push_string_array out l is_be = push_decoded_value out (dv_string_array l) is_be.
Proof. cbn [dv_string_array push_decoded_value]. now rewrite fold_left_map, zlen_map. Qed.

Lemma push_view_tree out v is_be : push_view out v is_be = push_decoded_value out (to_decoded v) is_be.
Proof.
  revert out. induction v as [v Hv|node IH] using View_node_ind; intros out.
  - destruct v; try reflexivity; first [apply push_array_tree | apply push_strings_tree | now edestruct Hv].
  - rewrite push_view_struct, to_decoded_struct. cbn [push_decoded_value]. rewrite fold_left_map.
    assert (Hc : Forall (fun i => (i < node_len node)%nat) (seq 0 (node_len node))).
    { apply List.Forall_forall. intros i [_ Hi]%in_seq. lia. }
    revert out. induction Hc as [|i l Hi _ IHl]; intros out; cbn [List.fold_left]; [done|].
    rewrite IH by done. cbn [snd]. apply IHl.
Qed.

(** ** Comparing views compares their trees *)

Abbreviation deq := decoded_values_equal.

Lemma zip_all_map {A B C D} (f : C -> D -> bool) (g : A -> C) (h : B -> D) x y :
  zip_all f (map g x) (map h y) = zip_all (fun a b => f (g a) (h b)) x y.
Proof. revert y. induction x as [|a x IH]; intros [|b y]; cbn; f_equal; auto. Qed.

Lemma zlen_eqb_cons {A B} (a : A) (b : B) x y : (zlen (a :: x) =? zlen (b :: y)) = (zlen x =? zlen y).
Proof. rewrite !zlen_cons. destruct (Z.eqb_spec (zlen x) (zlen y)), (Z.eqb_spec (1 + zlen x) (1 + zlen y)); lia. Qed.

Lemma zlen_eqb_nil {A B} (b : B) y : (zlen (@nil A) =? zlen (b :: y)) = false.
Proof. rewrite zlen_nil, zlen_cons. pose proof (zlen_nonneg y). apply Z.eqb_neq. lia. Qed.

(** Slice equality is equality of length and of the elements in order. *)
Lemma list_eq_zip {A} `{EqDecision A} (eqb : A -> A -> bool) x y :
  (forall a b, eqb a b = bool_decide (a = b)) ->
  (zlen x =? zlen y) && zip_all eqb x y = bool_decide (x = y).
Proof.
  intros Heq. revert y. induction x as [|a x IH]; intros [|b y].
  - done.
  - rewrite zlen_eqb_nil. symmetry. now apply bool_decide_eq_false.
  - rewrite Z.eqb_sym, zlen_eqb_nil. symmetry. now apply bool_decide_eq_false.
  - rewrite zlen_eqb_cons. cbn [zip_all]. rewrite Heq, andb_assoc, (andb_comm _ (bool_decide _)), <- andb_assoc, IH.
    apply eq_true_iff_eq. rewrite andb_true_iff, !bool_decide_eq_true. split; [intros [-> ->]|intros [= -> ->]]; done.
Qed.

(** Lists whose elements never agree are equal only when both are empty. *)
Lemma zip_never {A B} (f : A -> B -> bool) x y :
  (forall a b, f a b = false) -> (zlen x =? zlen y) && zip_all f x y = (zlen x =? 0) && (zlen y =? 0).
Proof.
  intros Hf. pose proof (zlen_nonneg x). pose proof (zlen_nonneg y).
  destruct x as [|a x], y as [|b y]; cbn [zip_all]; rewrite ?Hf, ?andb_false_r, ?andb_true_r; try done.
Qed.

Lemma Zeqb_decide a b : (a =? b) = bool_decide (a = b).
Proof. destruct (Z.eqb_spec a b); symmetry; [now apply bool_decide_eq_true|now apply bool_decide_eq_false]. Qed.

Lemma Beqb_decide a b : Bool.eqb a b = bool_decide (a = b).
Proof. now destruct a, b. Qed.

Lemma scalar_arrays_tree a b : scalar_arrays_equal a b = deq (dv_scalar_array a) (dv_scalar_array b).
Proof.
  destruct a, b; cbn [scalar_arrays_equal dv_scalar_array deq len]; rewrite !zlen_map, zip_all_map; cbn [deq];
    first [ symmetry; apply list_eq_zip; first [apply Zeqb_decide | apply Beqb_decide | done]
          | symmetry; now apply zip_never
          | reflexivity ].
Qed.

(** The variant of a value. *)
Definition vkind (v : Val.DecodedValue) : option Kind :=
  match v with
  | Val.Null => Some KNull | Val.Boolean _ => Some KBoolean
  | Val.Int8 _ => Some KInt8 | Val.Int16 _ => Some KInt16 | Val.Int32 _ => Some KInt32 | Val.Int64 _ => Some KInt64
  | Val.UInt8 _ => Some KUInt8 | Val.UInt16 _ => Some KUInt16 | Val.UInt32 _ => Some KUInt32
  | Val.UInt64 _ => Some KUInt64
  | Val.Float32 _ => Some KFloat32 | Val.Float64 _ => Some KFloat64
  | Val.String _ => Some KString | Val.Array _ => Some KArray | Val.Structure _ => Some KStructure
  | Val.Raw _ => None
  end.

Lemma deq_kind a b : vkind a <> vkind b -> deq a b = false.
Proof. now destruct a, b. Qed.

Lemma vkind_view v : vkind (to_decoded v) = Some (kind v).
Proof.
  destruct v; try reflexivity; [|now rewrite to_decoded_struct].
  cbn [kind]. change (to_decoded (VCodecParameters v)) with (dv_codec_parameters v).
  unfold dv_codec_parameters. now destruct (bool_decide _).
Qed.

(** An array view stands for an array of that length and element kind. *)
Lemma array_view v :
  kind v = KArray -> exists l, to_decoded v = Val.Array l /\ zlen l = array_len v
    /\ Forall (fun x => vkind x = Some (element_kind v)) l.
Proof.
  intros H. destruct v; try discriminate H; cbn [kind] in H; try (destruct (bool_decide _); discriminate H);
    try (destruct v); eexists; (split; [reflexivity|]);
    (split; [cbn [array_len len]; rewrite ?zlen_map; reflexivity|]);
    try (apply Forall_map, Forall_true; reflexivity).
  all: repeat constructor.
Qed.

Lemma mixed_tree a b : mixed_equal a b = deq (to_decoded a) (to_decoded b).
Proof.
  unfold mixed_equal. pose proof (vkind_view a) as Ka. pose proof (vkind_view b) as Kb.
  case_bool_decide as K; cbn [negb]; [|symmetry; apply deq_kind; congruence].
  case_bool_decide as KA; [|done].
  destruct (array_view a KA) as (la & Ea & La & Fa). destruct (array_view b) as (lb & Eb & Lb & Fb); [congruence|].
  rewrite Ea, Eb. cbn [deq]. rewrite <- La, <- Lb.
  destruct (Z.eqb_spec (zlen la) (zlen lb)) as [El|]; [|done]. cbn [negb andb].
  destruct (Z.eqb_spec (zlen la) 0) as [E0|Hne].
  - apply zlen_zero_inv in E0 as ->. done.
  - case_bool_decide as KE; cbn [negb]; [done|].
    destruct Fa as [|x la Hx _]; [done|]. destruct Fb as [|y lb Hy _]; [rewrite zlen_nil in El; lia|].
    cbn [zip_all]. rewrite deq_kind; [done|congruence].
Qed.

Lemma zip_Forall2 {A B} (f : A -> B -> bool) x y :
  (zlen x =? zlen y) && zip_all f x y = true <-> Forall2 (fun a b => f a b = true) x y.
Proof.
  revert y. induction x as [|a x IH]; intros [|b y].
  - split; [constructor|done].
  - rewrite zlen_eqb_nil. split; [done|intros H; inversion H].
  - rewrite Z.eqb_sym, zlen_eqb_nil. split; [done|intros H; inversion H].
  - rewrite zlen_eqb_cons. cbn [zip_all]. rewrite Forall2_cons, <- IH, !andb_true_iff. tauto.
Qed.

Lemma elem_of_sorted_keys m k : k ∈ sorted_keys m <-> is_Some (m !! k).
Proof.
  unfold sorted_keys. rewrite merge_sort_Permutation, list_elem_of_fmap. split.
  - intros ([k' v] & -> & H%elem_of_map_to_list). eauto.
  - intros [v H]. exists (k, v). split; [done|]. now apply elem_of_map_to_list.
Qed.

Lemma parameters_tree x y : bool_decide (x = y) = deq (dv_codec_parameters x) (dv_codec_parameters y).
Proof.
  apply eq_true_iff_eq. rewrite bool_decide_eq_true. unfold dv_codec_parameters.
  destruct (bool_decide (x = ∅)) eqn:Ex, (bool_decide (y = ∅)) eqn:Ey;
    rewrite ?bool_decide_eq_true, ?bool_decide_eq_false in *; cbn [deq];
    try (split; [congruence|done]); [split; congruence|].
  rewrite !zlen_map, zip_all_map, zip_Forall2. cbn [fst snd deq]. split.
  - intros ->. apply Forall2_same_length_lookup_2; [done|]. intros i k k' Hk Hk'.
    simplify_eq. now rewrite !bool_decide_eq_true_2.
  - intros H.
    assert (Hk : sorted_keys x = sorted_keys y /\
                 Forall (fun k => default [] (x !! k) = default [] (y !! k)) (sorted_keys x)).
    { induction H as [|k k' kx ky H _ [IH IHf]]; [done|]. apply andb_true_iff in H as [->%bool_decide_eq_true H].
      apply bool_decide_eq_true in H. split; [congruence|now constructor]. }
    destruct Hk as [Hk Hv]. apply map_eq. intros k. rewrite Forall_forall in Hv.
    destruct (x !! k) as [v|] eqn:E1, (y !! k) as [w|] eqn:E2; try done.
    + specialize (Hv k ltac:(apply elem_of_sorted_keys; eauto)). rewrite E1, E2 in Hv. now f_equal.
    + assert (Hin : k ∈ sorted_keys y) by (rewrite <- Hk; apply elem_of_sorted_keys; eauto).
      apply elem_of_sorted_keys in Hin as [? ?]. congruence.
    + assert (Hin : k ∈ sorted_keys x) by (rewrite Hk; apply elem_of_sorted_keys; eauto).
      apply elem_of_sorted_keys in Hin as [? ?]. congruence.
Qed.

Lemma same_name n : bool_decide (str n = str n) = true.
Proof. now apply bool_decide_eq_true. Qed.

Lemma dimensions_tree x y : bool_decide (x = y) = deq (dv_dimensions x) (dv_dimensions y).
Proof.
  unfold dv_dimensions. cbn [deq]. rewrite !zlen_map, zip_all_map. symmetry. apply list_eq_zip.
  intros [a1 a2 a3 a4 a5] [b1 b2 b3 b4 b5]. cbn [deq zip_all fst snd dim_size dim_offset full_size binning reverse].
  rewrite !same_name, andb_true_r. replace (zlen _ =? zlen _) with true by reflexivity. cbn [andb].
  apply eq_true_iff_eq. rewrite !andb_true_iff, !Z.eqb_eq, Bool.eqb_true_iff, bool_decide_eq_true.
  split; [intros (-> & -> & -> & -> & ->)|intros [= -> -> -> -> ->]]; done.
Qed.

Lemma strings_tree x y : bool_decide (x = y) = deq (dv_string_array x) (dv_string_array y).
Proof. exact (scalar_arrays_tree (AStr x) (AStr y)). Qed.

(** Two views that are not both structures. *)
Lemma views_equal_leaf n a b :
  (forall x y, a = VStruct x -> b = VStruct y -> False) ->
  views_equal_fuel n a b = deq (to_decoded a) (to_decoded b).
Proof.
  assert (Hsym : forall x y : list bytes, bool_decide (x = y) = deq (dv_string_array y) (dv_string_array x)).
  { intros x y. rewrite <- strings_tree. now apply bool_decide_ext. }
  intros H. destruct n, a, b; cbn [views_equal_fuel]; try apply mixed_tree; try reflexivity;
    try (now edestruct H); repeat case_match; try apply mixed_tree; try discriminate;
    first [ refine (scalar_arrays_tree _ _) | refine (parameters_tree _ _) | refine (dimensions_tree _ _)
          | refine (strings_tree _ _) | refine (Hsym _ _) ].
Qed.

Lemma views_equal_tree a b : views_equal a b = deq (to_decoded a) (to_decoded b).
Proof.
  revert b. induction a as [a Ha|x IH] using View_node_ind; intros b.
  - apply views_equal_leaf. intros x y ->. now edestruct Ha.
  - destruct b as [| | | | | | | | | | | | | | | | | |y];
      try (apply views_equal_leaf; intros x' y'; discriminate).
    rewrite views_equal_struct, !to_decoded_struct. cbn [deq]. rewrite !zlen_map, zip_all_map. cbn [fst snd].
    unfold zlen. rewrite !length_seq.
    destruct (Nat.eqb_spec (node_len x) (node_len y)) as [El|Hne].
    + rewrite El, Z.eqb_refl. cbn [andb]. rewrite <- El. clear El.
      assert (Hc : Forall (fun i => (i < node_len x)%nat) (seq 0 (node_len x))).
      { apply List.Forall_forall. intros i [_ Hi]%in_seq. lia. }
      induction Hc as [|i l Hi _ IHl]; cbn; [done|]. now rewrite IH, IHl.
    + destruct (Z.eqb_spec (Z.of_nat (node_len x)) (Z.of_nat (node_len y))); [lia|done].
Qed.

(** ** Looking a field up *)

Lemma locate_lt names name h i : (locate names name h).1 = Some i -> names !! i = Some name.
Proof.
  unfold locate. intros H.
  assert (Hf : forall j, fst <$> list_find (eq name) names = Some j -> names !! j = Some name).
  { intros j Hj. apply fmap_Some in Hj as ([j' x] & (Hl & <- & _)%list_find_Some & ->). exact Hl. }
  destruct (names !! h) as [n|] eqn:E; [case_bool_decide; subst|].
  - cbn in H. congruence.
  - destruct (list_find _ _) as [[j x]|] eqn:Ef; cbn in H; [|done]. apply Hf. rewrite <- H. cbn. congruence.
  - destruct (list_find _ _) as [[j x]|] eqn:Ef; cbn in H; [|done]. apply Hf. rewrite <- H. cbn. congruence.
Qed.

Lemma locate_none names name h : (locate names name h).1 = None -> name ∉ names.
Proof.
  unfold locate. intros H Hin.
  destruct (list_find_elem_of (eq name) names name Hin eq_refl) as [[j x] Hf]. rewrite Hf in H.
  destruct (names !! h); [case_bool_decide|]; cbn in H; discriminate.
Qed.

(** Names that do not repeat: the hint makes no difference to what is found. *)
Lemma locate_nodup names name h h' : NoDup names -> (locate names name h).1 = (locate names name h').1.
Proof.
  intros Hnd. destruct (locate names name h).1 as [i|] eqn:E1, (locate names name h').1 as [j|] eqn:E2; try done.
  - f_equal. eapply NoDup_lookup; [exact Hnd| |]; eapply locate_lt; eauto.
  - apply locate_lt, list_elem_of_lookup_2 in E1. now apply locate_none in E2.
  - apply locate_lt, list_elem_of_lookup_2 in E2. now apply locate_none in E1.
Qed.

Lemma sorted_keys_nodup m : NoDup (sorted_keys m).
Proof. unfold sorted_keys. rewrite merge_sort_Permutation. apply NoDup_fst_map_to_list. Qed.

(** The hints of a walk over a view and over its tree: those of a parameter map,
    whose keys do not repeat, need not agree. *)
Definition hint_ok (v : View) (h h' : nat) : Prop :=
  match v with VCodecParameters _ => True | _ => h = h' end.

Lemma view_field_tree v name h h' :
  hint_ok v h h' ->
  (field_of (to_decoded v) name h').1 = to_decoded <$> (view_field v name h).1 /\
  hint_ok v (view_field v name h).2 (field_of (to_decoded v) name h').2.
Proof.
  destruct v; cbn [hint_ok]; try (intros ->; split; reflexivity).
  - intros _. split; [|done]. cbn [view_field fst].
    change (to_decoded (VCodecParameters v)) with (dv_codec_parameters v). unfold dv_codec_parameters.
    case_bool_decide as E; [subst; cbn; now rewrite lookup_empty|]. cbn [field_of]. rewrite map_map. cbn [fst].
    rewrite map_id. destruct (locate _ _ _) as [[i|] hh] eqn:El; cbn [fst].
    + pose proof (locate_lt (sorted_keys v) name h' i ltac:(now rewrite El)) as Hi.
      rewrite list_lookup_fmap, Hi. cbn. apply list_elem_of_lookup_2, elem_of_sorted_keys in Hi as [w Hw].
      now rewrite Hw.
    + pose proof (locate_none (sorted_keys v) name h' ltac:(now rewrite El)) as Hi.
      destruct (v !! name) as [w|] eqn:Ew; [|done]. exfalso. apply Hi, elem_of_sorted_keys. eauto.
  - intros <-. rewrite to_decoded_struct. cbn [field_of view_field].
    rewrite map_map. cbn [fst]. change (map (fun x => node_name node x) (seq 0 (node_len node))) with (node_names node).
    destruct (locate (node_names node) name h) as [[i|] hh] eqn:El; cbn [fst snd]; [|done]. split; [|done].
    pose proof (locate_lt (node_names node) name h i ltac:(now rewrite El)) as Hi.
    unfold node_names in Hi. rewrite list_lookup_fmap.
    destruct (seq 0 (node_len node) !! i) as [j|] eqn:Ej; [|now rewrite list_lookup_fmap, Ej in Hi].
    apply lookup_seq in Ej as [-> _]. done.
Qed.

(** ** Projections *)

Lemma project_loop_tree v (nested : bytes -> View -> Ty.StructureDesc -> bytes) nested' leaf leaf' fs h h' out :
  hint_ok v h h' ->
  (forall out sub, leaf out sub = leaf' out (to_decoded sub)) ->
  Forall (fun f => match Ty.field_type f with
                   | Ty.Structure inner => forall out sub, nested out sub inner = nested' out (to_decoded sub) inner
                   | _ => True end) fs ->
  project_loop (view_field v) nested leaf fs h out
  = project_loop (field_of (to_decoded v)) nested' leaf' fs h' out.
Proof.
  intros Hh Hleaf Hn. revert h h' out Hh. induction Hn as [|f fs Hf _ IH]; intros h h' out Hh; [done|].
  cbn [project_loop]. destruct (view_field_tree v (Ty.name f) h h' Hh) as [Hsub Hh'].
  destruct (view_field v (Ty.name f) h) as [sub h1], (field_of (to_decoded v) (Ty.name f) h') as [sub' h1'].
  cbn [fst snd] in *. subst sub'. rewrite (IH _ _ _ Hh'). f_equal.
  destruct sub as [sub|]; [|done]. cbn. destruct (Ty.field_type f); auto.
Qed.

Lemma kind_structure v : kind v = KStructure <-> exists fs, to_decoded v = Val.Structure fs.
Proof.
  pose proof (vkind_view v) as H. split.
  - intros K. rewrite K in H. destruct (to_decoded v); try discriminate H. eauto.
  - intros [fs E]. rewrite E in H. cbn in H. congruence.
Qed.

Lemma push_view_projected_tree out v desc is_be :
  push_view_projected out v desc is_be = push_decoded_projected out (to_decoded v) desc is_be.
Proof.
  revert out v. induction desc as [[i fs] IH] using Ty.StructureDesc_nested_ind. intros out v. cbn [Ty.fields] in IH.
  cbn [push_view_projected push_decoded_projected]. case_bool_decide as K; cbn [negb].
  - apply kind_structure in K as [vs E]. rewrite E, <- E. apply project_loop_tree.
    + now destruct v.
    + intros. apply push_view_tree.
    + eapply Forall_impl; [exact IH|]. cbn. intros f Hf. destruct (Ty.field_type f); auto.
  - rewrite push_view_tree. destruct (to_decoded v) eqn:E; try done.
    exfalso. apply K, kind_structure. eauto.
Qed.

(** ** The full encoding of a payload is the encoding of its tree *)

Definition enc (v : View) (is_be : bool) : bytes := push_view [] v is_be.

Lemma push_view_app out v is_be : push_view out v is_be = out ++ enc v is_be.
Proof. unfold enc. now rewrite !push_view_tree, push_decoded_value_app. Qed.

Lemma push_array_app out a is_be : push_scalar_array_value_pvd out a is_be = out ++ enc (VArray a) is_be.
Proof. exact (push_view_app out (VArray a) is_be). Qed.

Lemma push_strings_app out l is_be : push_string_array out l is_be = out ++ encode_string_array l is_be.
Proof. exact (push_view_app out (VStrings l) is_be). Qed.

Lemma fold_push_view (l : list View) out is_be :
  List.fold_left (fun out v => push_view out v is_be) l out = out ++ concat (map (fun v => enc v is_be) l).
Proof. apply fold_push, Forall_true. intros v out'. apply push_view_app. Qed.

Lemma enc_struct node is_be :
  enc (VStruct node) is_be
  = concat (map (fun v => enc v is_be) (map (node_field node) (seq 0 (node_len node)))).
Proof.
  unfold enc at 1. rewrite push_view_struct, <- (app_nil_l (concat _)), <- fold_push_view. symmetry.
  apply fold_left_map.
Qed.

(** Unfolds the encoding of a node with fixed fields. *)
Ltac enc_fixed := rewrite enc_struct; cbn [seq node_len fixed_names length map node_field concat]; rewrite ?app_nil_r.

Lemma enc_alarm sev st m is_be :
  enc (alarm_view sev st m) is_be = encode_i32 sev is_be ++ encode_i32 st is_be ++ encode_string m is_be.
Proof. unfold alarm_view. enc_fixed. now rewrite encode_string_unfold. Qed.

Lemma enc_time secs nanos tag is_be :
  enc (VStruct (NTimeStamp secs nanos tag)) is_be
  = encode_i64 secs is_be ++ encode_i32 nanos is_be ++ encode_i32 tag is_be.
Proof. now enc_fixed. Qed.

Lemma enc_form index choices is_be :
  enc (VStruct (NForm index choices)) is_be
  = match choices with [] => encode_enum index STANDARD_FORM_CHOICES is_be | _ => encode_enum index choices is_be end.
Proof. enc_fixed. now destruct choices. Qed.

Lemma enc_display d is_be :
  enc (VStruct (NDisplay d)) is_be = encode_nt_display (default default_display d) is_be.
Proof.
  destruct d; enc_fixed; rewrite enc_form; reflexivity.
Qed.

Lemma enc_scalar_display nt is_be : enc (VStruct (NScalarDisplay nt)) is_be = encode_display nt is_be.
Proof. enc_fixed. now rewrite enc_form. Qed.

Lemma enc_optional_alarm a is_be :
  enc (optional_alarm_view a) is_be = encode_nt_alarm (default default_alarm a) is_be.
Proof. destruct a; cbn [optional_alarm_view default]; now rewrite enc_alarm. Qed.

Lemma enc_optional_time ts is_be :
  enc (optional_timestamp_view ts) is_be = encode_nt_timestamp (default default_time_stamp ts) is_be.
Proof. destruct ts; unfold optional_timestamp_view, timestamp_view; now rewrite enc_time. Qed.

Lemma enc_scalar v is_be : enc (view_scalar v) is_be = encode_scalar_value v is_be.
Proof. destruct v; try reflexivity. Qed.

Lemma map_seq_nth {A} (l : list A) d n : length l = n -> map (fun i => nth i l d) (seq 0 n) = l.
Proof.
  intros <-. induction l as [|x l IH]; [done|]. cbn [length seq map nth]. f_equal.
  rewrite <- seq_shift, map_map. exact IH.
Qed.

Lemma enc_fields fs is_be :
  enc (VStruct (NFields fs)) is_be = concat (map (fun nv => enc (view_pv nv.2) is_be) fs).
Proof.
  rewrite enc_struct, <- (map_map (fun nv => view_pv nv.2) (fun v => enc v is_be)). do 2 f_equal.
  exact (map_seq_nth (map (fun nv => view_pv nv.2) fs) (VStr []) (length fs) (length_map _ _)).
Qed.

Lemma push_pv_app out v is_be : push_pv_value out v is_be = out ++ enc (view_pv v) is_be.
Proof.
  revert out. induction v as [v|v|i fs IH] using PvValue_tree_ind; intros out; cbn [push_pv_value view_pv].
  - now rewrite enc_scalar.
  - apply push_array_app.
  - rewrite enc_fields. now apply (fold_push _ (fun nv => enc (view_pv nv.2) is_be)).
Qed.

Lemma enc_columns cols is_be :
  enc (VStruct (NTableColumns cols)) is_be = concat (map (fun col => enc (VArray (col_values col)) is_be) cols).
Proof.
  rewrite enc_struct, <- (map_map (fun col => VArray (col_values col)) (fun v => enc v is_be)). do 2 f_equal.
  exact (map_seq_nth (map (fun col => VArray (col_values col)) cols) (VStr []) (length cols) (length_map _ _)).
Qed.

Lemma full_tree now p out is_be :
  match p with NdArray _ => False | _ => True end ->
  push_nt_payload_full now out p is_be = push_decoded_value out (to_decoded (of_payload now p)) is_be.
Proof.
  intros Hp. rewrite <- push_view_tree, push_view_app.
  destruct p as [nt|nt|nt|nt|nt|id fs]; cbn [push_nt_payload_full]; unfold of_payload; [| | |done| |].
  - unfold push_nt_scalar_full, encode_timestamp. destruct (scalar_stamp now nt) as [[secs nanos] tag]. enc_fixed.
    rewrite enc_scalar, enc_alarm, enc_time, enc_scalar_display, <- !app_assoc. do 2 f_equal.
    repeat enc_fixed. unfold encode_alarm, encode_control, encode_value_alarm. now rewrite <- !app_assoc.
  - unfold push_nt_scalar_array_full. rewrite push_array_app, <- app_assoc. f_equal. enc_fixed.
    unfold timestamp_view. rewrite enc_alarm, enc_time, enc_display. f_equal. do 3 f_equal. now enc_fixed.
  - unfold push_nt_table_full. rewrite (fold_push _ (fun col => enc (VArray (col_values col)) is_be)).
    2: { apply Forall_true. intros col out'. apply push_array_app. }
    enc_fixed. rewrite enc_columns, enc_optional_alarm, enc_optional_time, <- !app_assoc.
    do 3 f_equal.
  - unfold push_nt_enum_full. enc_fixed. unfold timestamp_view. rewrite enc_alarm, enc_time. f_equal. f_equal. now enc_fixed.
  - unfold push_pv_value_fields. rewrite enc_fields. apply fold_push, Forall_true. intros nv out'. apply push_pv_app.
Qed.

(** ** Claims *)

(** The direct walk over a payload computes what the walk over the decoded
    tree computes: comparing two views compares their trees (NaN equal to NaN,
    arrays of different element types equal only when empty), writing a view
    writes the encoding of its tree, and so does writing it projected onto any
    descriptor. *)
Theorem direct_walk_equiv a b out desc is_be :
  views_equal a b = decoded_values_equal (to_decoded a) (to_decoded b) /\
  push_view out a is_be = push_decoded_value out (to_decoded a) is_be /\
  push_view_projected out a desc is_be = push_decoded_projected out (to_decoded a) desc is_be.
Proof. split_and!; [apply views_equal_tree|apply push_view_tree|apply push_view_projected_tree]. Qed.

End NtTree.
