(* ===== verification/NtDelta.v ===== *)
(** * Monitor deltas of payloads

    Models the change detection of [spvirit-codec/src/spvd_encode.rs]:
    [DeltaWalk], [encode_nt_payload_delta], [nt_payload_changed_on_desc], and
    [compute_changed_bits] on decoded trees, which the walk is the direct form
    of. *)

From stdpp Require Import gmap.
From S2P Require Import Prelude Wire PvdTypes PvdEncode NtTypes NtEncode NtView NtTree.

Local Open Scope Z_scope.

Module NtDelta.
Import Wire NtTypes NtEncode PvdEncode NtView NtTree.

(** ** The direct walk *)

(** Changed-bit flags and the value block; [None] only detects a change. *)
Abbreviation Sink := (option (list bool * bytes)).

(** [prev.and_then(|v| v.field(name, hint))]. *)
Definition opt_field (v : option View) (name : bytes) (hint : nat) : option View * nat :=
  match v with Some v => view_field v name hint | None => (None, hint) end.

Definition view_changed (p n : option View) : bool :=
  match p, n with
  | Some a, Some b => negb (views_equal a b)
  | None, None => false
  | _, _ => true
  end.

(** A field that is not a structure: flag it and write it when it changed. *)
Definition leaf_delta (p n : option View) (bit : nat) (is_be : bool) (sink : Sink) : bool * Sink :=
  let changed := view_changed p n in
  (changed,
   if changed then
     match sink with
     | Some (bits, values) =>
       Some (<[bit := true]> bits,
             match n with Some n => push_view values n is_be | None => values end)
     | None => None
     end
   else sink).

Section Level.
Context (is_be : bool) (prev next : option View).
Context (nested : Ty.StructureDesc -> option View -> option View -> nat -> Sink -> bool * nat * Sink).

(** The loop of [DeltaWalk::level]: what changed, the bit of the next field and
    the sink; a walk without a sink stops at the first change. *)
Fixpoint level_loop (fs : list Ty.FieldDesc) (ph nh : nat) (any : bool) (bit : nat) (sink : Sink)
  : bool * nat * Sink :=
  match fs with
  | [] => (any, bit, sink)
  | f :: fs =>
    let '(p, ph) := opt_field prev (Ty.name f) ph in
    let '(n, nh) := opt_field next (Ty.name f) nh in
    let '(changed, bit, sink) :=
      match Ty.field_type f with
      | Ty.Structure inner => nested inner p n (S bit) sink
      | _ => let '(changed, sink) := leaf_delta p n bit is_be sink in (changed, S bit, sink)
      end in
    if changed then
      match sink with
      | None => (true, bit, sink)
      | Some _ => level_loop fs ph nh true bit sink
      end
    else level_loop fs ph nh any bit sink
  end.
End Level.

Fixpoint level (is_be : bool) (desc : Ty.StructureDesc) (prev next : option View) (bit : nat) (sink : Sink)
  : bool * nat * Sink :=
  level_loop is_be prev next (level is_be) (Ty.fields desc) 0 0 false bit sink.

(** The clock is read once for each payload that has no time stamp. *)
Definition encode_nt_payload_delta (now_prev now_next : Z * Z) (prev next : NtPayload)
    (desc : Ty.StructureDesc) (is_be : bool) : option (bytes * bytes) :=
  let bits := replicate (Z.to_nat (1 + Ty.count_structure_fields desc)) false in
  match level is_be desc (Some (of_payload now_prev prev)) (Some (of_payload now_next next)) 1
          (Some (bits, [])) with
  | (true, _, Some (bits, values)) => Some (encode_bitset_from_flags bits is_be, values)
  | _ => None
  end.

Definition nt_payload_changed_on_desc (now_prev now_next : Z * Z) (prev next : NtPayload)
    (desc : Ty.StructureDesc) (is_be : bool) : bool :=
  fst (fst (level is_be desc (Some (of_payload now_prev prev)) (Some (of_payload now_next next)) 1 None)).

(** ** The walk over trees *)

Definition leaf_changed (p n : option Val.DecodedValue) : bool :=
  match p, n with
  | Some a, Some b => negb (decoded_values_equal a b)
  | Some _, None | None, Some _ => true
  | None, None => false
  end.

Abbreviation empty_structure := (Val.Structure []).

Section Fill.
Context (prev next : Val.DecodedValue).
Context (nested : Val.DecodedValue -> Val.DecodedValue -> Ty.StructureDesc -> list bool -> nat -> bool * list bool * nat).

Fixpoint fill_loop (fs : list Ty.FieldDesc) (ph nh : nat) (any : bool) (bits : list bool) (idx : nat)
  : bool * list bool * nat :=
  match fs with
  | [] => (any, bits, idx)
  | f :: fs =>
    let '(p, ph) := field_of prev (Ty.name f) ph in
    let '(n, nh) := field_of next (Ty.name f) nh in
    match Ty.field_type f with
    | Ty.Structure inner =>
      let '(changed, bits, idx) :=
        nested (default empty_structure p) (default empty_structure n) inner bits (S idx) in
      fill_loop fs ph nh (changed || any) bits idx
    | _ =>
      if leaf_changed p n then fill_loop fs ph nh true (<[idx := true]> bits) (S idx)
      else fill_loop fs ph nh any bits (S idx)
    end
  end.
End Fill.

Fixpoint fill_changed_bits (prev next : Val.DecodedValue) (desc : Ty.StructureDesc) (bits : list bool) (idx : nat)
  : bool * list bool * nat :=
  fill_loop prev next fill_changed_bits (Ty.fields desc) 0 0 false bits idx.

Definition compute_changed_bits (prev next : Val.DecodedValue) (desc : Ty.StructureDesc) : option (list bool) :=
  let bits := replicate (Z.to_nat (1 + Ty.count_structure_fields desc)) false in
  let '(any, bits, _) := fill_changed_bits prev next desc bits 1 in
  if any then Some bits else None.

(** The value block for a set of flags: every flagged leaf, in bit order. *)
Section Values.
Context (value : Val.DecodedValue) (bits : list bool) (is_be : bool).
Context (nested : Val.DecodedValue -> Ty.StructureDesc -> nat -> bytes -> nat * bytes).

Fixpoint values_loop (fs : list Ty.FieldDesc) (hint idx : nat) (out : bytes) : nat * bytes :=
  match fs with
  | [] => (idx, out)
  | f :: fs =>
    let '(sub, hint) := field_of value (Ty.name f) hint in
    match Ty.field_type f with
    | Ty.Structure inner =>
      let '(idx, out) := nested (default empty_structure sub) inner (S idx) out in
      values_loop fs hint idx out
    | _ =>
      values_loop fs hint (S idx)
        (if nth idx bits false then
           match sub with Some v => push_decoded_value out v is_be | None => out end
         else out)
    end
  end.
End Values.

Fixpoint encode_values_for_bits (bits : list bool) (is_be : bool) (value : Val.DecodedValue)
    (desc : Ty.StructureDesc) (idx : nat) (out : bytes) : nat * bytes :=
  values_loop value bits is_be (encode_values_for_bits bits is_be) (Ty.fields desc) 0 idx out.

(** ** The walk over views simulates the walk over trees *)

(** The tree of an absent structure is empty. *)
Definition opt_tree (v : option View) : Val.DecodedValue :=
  match v with Some v => to_decoded v | None => empty_structure end.

Definition opt_hint_ok (v : option View) (h h' : nat) : Prop :=
  match v with Some v => hint_ok v h h' | None => True end.

Lemma opt_hint_zero v : opt_hint_ok v 0 0.
Proof. now destruct v as [[]|]. Qed.

Lemma opt_field_tree v name h h' :
  opt_hint_ok v h h' ->
  (field_of (opt_tree v) name h').1 = to_decoded <$> (opt_field v name h).1 /\
  opt_hint_ok v (opt_field v name h).2 (field_of (opt_tree v) name h').2.
Proof.
  destruct v as [v|]; cbn [opt_hint_ok opt_tree opt_field]; [apply view_field_tree|].
  intros _. split; [|done]. now destruct h'.
Qed.

Lemma default_tree v : default empty_structure (to_decoded <$> v) = opt_tree v.
Proof. now destruct v. Qed.

Lemma leaf_changed_tree p n : leaf_changed (to_decoded <$> p) (to_decoded <$> n) = view_changed p n.
Proof. destruct p, n; cbn; try done. now rewrite views_equal_tree. Qed.

(** The number of bits of a field list. *)
Definition bits_of (fs : list Ty.FieldDesc) : nat :=
  Z.to_nat (Ty.count_structure_fields (Ty.mkStruct None fs)).

Lemma bits_of_cons f fs : bits_of (f :: fs) = S (Z.to_nat (below (Ty.field_type f)) + bits_of fs).
Proof.
  unfold bits_of. rewrite !count_fields. cbn [map Ty.list_sum].
  pose proof (Ty.count_structure_fields_nonneg (Ty.mkStruct None fs)) as H. rewrite count_fields in H.
  assert (0 <= below (Ty.field_type f)).
  { destruct (Ty.field_type f); try done. apply Ty.count_structure_fields_nonneg. }
  lia.
Qed.

Lemma bits_of_desc d : Z.to_nat (Ty.count_structure_fields d) = bits_of (Ty.fields d).
Proof. now destruct d. Qed.

(** [bits'] differs from [bits] at most in the flags from [lo] to [hi]. *)
Definition same_outside (lo hi : nat) (bits bits' : list bool) : Prop :=
  length bits' = length bits /\ forall k, (k < lo \/ hi <= k)%nat -> nth k bits' false = nth k bits false.

(** Flags from [lo] on are clear, and there is room for [n] more. *)
Definition fresh (lo n : nat) (bits : list bool) : Prop :=
  (lo + n <= length bits)%nat /\ forall k, (lo <= k)%nat -> nth k bits false = false.

Lemma same_outside_refl lo bits : same_outside lo lo bits bits.
Proof. now split. Qed.

Lemma same_outside_trans lo mid hi a b c :
  (lo <= mid <= hi)%nat -> same_outside lo mid a b -> same_outside mid hi b c -> same_outside lo hi a c.
Proof. intros Hm [La Ha] [Lb Hb]. split; [congruence|]. intros k Hk. rewrite Hb, Ha by lia. done. Qed.

Lemma same_outside_set k bits : (k < length bits)%nat -> same_outside k (S k) bits (<[k := true]> bits).
Proof.
  intros Hk. split; [apply length_insert|]. intros j Hj. rewrite nth_insert_list by done.
  case_decide; [lia|done].
Qed.

Lemma fresh_after lo mid m bits bits' :
  (lo <= mid)%nat -> fresh lo (mid - lo + m) bits -> same_outside lo mid bits bits' -> fresh mid m bits'.
Proof. intros Hm [Hl Hf] [Ls Hs]. split; [lia|]. intros k Hk. rewrite Hs by lia. apply Hf. lia. Qed.

Section Simulation.
Context (is_be : bool).

(** What one walk of each kind over the same fields does: [walk_views] with a
    sink, [walk_trees] on the flags, and [write] the value block for the final
    flags. *)
Definition simulates (bit n : nat) (bits : list bool) (values : bytes)
    (walk_views : bool * nat * Sink) (walk_trees : bool * list bool * nat)
    (write : list bool -> bytes -> nat * bytes) : Prop :=
  exists any bits' vals,
    walk_trees = (any, bits', (bit + n)%nat) /\
    walk_views = (any, (bit + n)%nat, Some (bits', values ++ vals)) /\
    same_outside bit (bit + n) bits bits' /\
    forall final out,
      (forall k, (bit <= k < bit + n)%nat -> nth k final false = nth k bits' false) ->
      write final out = ((bit + n)%nat, out ++ vals).

Definition desc_simulates (d : Ty.StructureDesc) : Prop :=
  forall p n bit bits values, fresh bit (bits_of (Ty.fields d)) bits ->
    simulates bit (bits_of (Ty.fields d)) bits values
      (level is_be d p n bit (Some (bits, values)))
      (fill_changed_bits (opt_tree p) (opt_tree n) d bits bit)
      (fun final out => encode_values_for_bits final is_be (opt_tree n) d bit out).

(** A field that takes the bits from [bit] to [mid], then the fields after it. *)
Lemma sim_step bit mid m bits bits1 values vals1 wv wt write1 rest :
  (bit <= mid)%nat -> same_outside bit mid bits bits1 ->
  (forall final out, (forall k, (bit <= k < mid)%nat -> nth k final false = nth k bits1 false) ->
     write1 final out = (mid, out ++ vals1)) ->
  simulates mid m bits1 (values ++ vals1) wv wt (fun final out => rest final mid out) ->
  simulates bit (mid - bit + m) bits values wv wt
    (fun final out => let '(idx, out) := write1 final out in rest final idx out).
Proof.
  intros Hm Hs1 Hw1 (any & bits' & vals2 & -> & -> & Hs2 & Hw2).
  assert (E : (bit + (mid - bit + m) = mid + m)%nat) by lia. exists any, bits', (vals1 ++ vals2). rewrite E.
  split_and!; [done|now rewrite app_assoc|eapply same_outside_trans; [|exact Hs1|exact Hs2]; lia|].
  intros final out Hf. rewrite Hw1.
  - rewrite Hw2 by (intros; apply Hf; lia). now rewrite app_assoc.
  - intros k Hk. rewrite Hf by lia. apply Hs2. lia.
Qed.

Lemma leaf_simulates p n bit bits values :
  (bit < length bits)%nat -> nth bit bits false = false ->
  exists changed bits1 vals,
    leaf_changed (to_decoded <$> p) (to_decoded <$> n) = changed /\
    leaf_delta p n bit is_be (Some (bits, values)) = (changed, Some (bits1, values ++ vals)) /\
    bits1 = (if changed then <[bit := true]> bits else bits) /\
    same_outside bit (S bit) bits bits1 /\
    forall final out, (forall k, (bit <= k < S bit)%nat -> nth k final false = nth k bits1 false) ->
      (S bit, if nth bit final false then
                match to_decoded <$> n with Some v => push_decoded_value out v is_be | None => out end
              else out) = (S bit, out ++ vals).
Proof.
  intros Hlen Hclear. rewrite leaf_changed_tree. unfold leaf_delta.
  generalize (view_changed p n). intros changed.
  exists changed, (if changed then <[bit := true]> bits else bits),
    (if changed then match n with Some n => enc n is_be | None => [] end else []).
  split; [done|]. split; [|split; [done|split]]; destruct changed.
  - destruct n as [n|]; [now rewrite push_view_app|now rewrite app_nil_r].
  - now rewrite app_nil_r.
  - now apply same_outside_set.
  - split; [done|]. intros; done.
  - intros final out Hf. rewrite Hf, nth_insert_list by lia. case_decide; [|done].
    destruct n as [n|]; cbn; [|now rewrite app_nil_r]. now rewrite <- push_view_tree, push_view_app.
  - intros final out Hf. rewrite Hf, Hclear by lia. now rewrite app_nil_r.
Qed.

Lemma loop_simulates p n fs :
  Forall (fun f => match Ty.field_type f with Ty.Structure d => desc_simulates d | _ => True end) fs ->
  forall ph nh ph' nh' any bit bits values,
    opt_hint_ok p ph ph' -> opt_hint_ok n nh nh' -> fresh bit (bits_of fs) bits ->
    simulates bit (bits_of fs) bits values
      (level_loop is_be p n (level is_be) fs ph nh any bit (Some (bits, values)))
      (fill_loop (opt_tree p) (opt_tree n) fill_changed_bits fs ph' nh' any bits bit)
      (fun final out => values_loop (opt_tree n) final is_be (encode_values_for_bits final is_be) fs nh' bit out).
Proof.
  induction 1 as [|f fs Hf _ IH]; intros ph nh ph' nh' any bit bits values Hp Hn Hfr.
  { exists any, bits, []. cbn. rewrite Nat.add_0_r, app_nil_r. do 2 (split; [done|]).
    split; [apply same_outside_refl|]. intros. now rewrite app_nil_r. }
  cbn [level_loop fill_loop values_loop].
  destruct (opt_field_tree p (Ty.name f) ph ph' Hp) as [Hpf Hp'], (opt_field_tree n (Ty.name f) nh nh' Hn) as [Hnf Hn'].
  destruct (opt_field p (Ty.name f) ph) as [p1 ph1], (field_of (opt_tree p) (Ty.name f) ph') as [p1' ph1'].
  destruct (opt_field n (Ty.name f) nh) as [n1 nh1], (field_of (opt_tree n) (Ty.name f) nh') as [n1' nh1'].
  cbn [fst snd] in *. subst p1' n1'. rewrite bits_of_cons in *. destruct Hfr as [Hlen Hclear].
  destruct (Ty.field_type f) as [tc|tc| | |d|d|us|us| | |b]; cbn [below] in *.
  5: { rewrite !default_tree. rewrite bits_of_desc in *. set (w := bits_of (Ty.fields d)) in *.
       destruct (Hf p1 n1 (S bit) bits values) as (c & bits1 & vals1 & Et & Ev & Hs1 & Hw1).
       { split; [fold w; lia|]. intros; apply Hclear; lia. }
       fold w in Et, Ev, Hs1, Hw1. clearbody w. rewrite Et, Ev.
       assert (Hs : same_outside bit (S bit + w) bits bits1).
       { destruct Hs1 as [L H]. split; [done|]. intros; apply H; lia. }
       replace (S (w + bits_of fs)) with (S bit + w - bit + bits_of fs)%nat by lia.
       eapply (sim_step _ _ _ _ bits1 _ vals1 _ _
                 (fun final out => encode_values_for_bits final is_be (opt_tree n1) d (S bit) out)
                 (fun final idx out => values_loop (opt_tree n) final is_be (encode_values_for_bits final is_be) fs nh1' idx out)).
       - lia.
       - exact Hs.
       - intros final out Hfin. apply Hw1. intros; apply Hfin; lia.
       - destruct c; cbn [orb]; apply IH; auto;
           (eapply (fresh_after bit _ _ bits); [lia|split; [lia|exact Hclear]|exact Hs]). }
  all: destruct (leaf_simulates p1 n1 bit bits values ltac:(lia) (Hclear bit ltac:(lia)))
         as (c & bits1 & vals1 & Et & Ev & Eb & Hs1 & Hw1); rewrite Et, Ev;
       replace (S (0 + bits_of fs)) with (S bit - bit + bits_of fs)%nat by lia;
       change (Z.to_nat 0 + bits_of fs)%nat with (bits_of fs) in *;
       replace (S (bits_of fs)) with (S bit - bit + bits_of fs)%nat by lia;
       refine (sim_step _ _ _ _ bits1 _ vals1 _ _
                 (fun final out => (S bit, if nth bit final false then
                    match to_decoded <$> n1 with Some v => push_decoded_value out v is_be | None => out end
                    else out))
                 (fun final idx out => values_loop (opt_tree n) final is_be (encode_values_for_bits final is_be) fs nh1' idx out)
                 _ Hs1 Hw1 _); [lia|];
       subst bits1; destruct c; apply IH; auto;
         (eapply (fresh_after bit _ _ bits); [lia|split; [lia|exact Hclear]|exact Hs1]).
Qed.

Lemma all_simulate d : desc_simulates d.
Proof.
  induction d as [[i fs] IH] using Ty.StructureDesc_nested_ind. intros p n bit bits values Hfr.
  cbn [level fill_changed_bits encode_values_for_bits Ty.fields] in *.
  apply loop_simulates; auto using opt_hint_zero.
Qed.

End Simulation.

(** ** Detecting a change without a sink *)

Section Detect.
Context (is_be : bool).

Definition any_of (r : bool * list bool * nat) : bool := fst (fst r).

(** Once a change is seen it stays seen. *)
Lemma fill_loop_seen prev next nested fs ph nh bits idx :
  any_of (fill_loop prev next nested fs ph nh true bits idx) = true.
Proof.
  revert ph nh bits idx. induction fs as [|f fs IH]; intros ph nh bits idx; cbn; [done|].
  destruct (field_of prev _ _) as [p ph1], (field_of next _ _) as [n nh1].
  destruct (Ty.field_type f); try (destruct (leaf_changed p n); apply IH).
  destruct (nested _ _ _ _ _) as [[c bits1] idx1]. rewrite orb_true_r. apply IH.
Qed.

Definition desc_detects (d : Ty.StructureDesc) : Prop :=
  forall p n bit bit' bits, fst (fst (level is_be d p n bit None))
    = any_of (fill_changed_bits (opt_tree p) (opt_tree n) d bits bit') /\
    snd (level is_be d p n bit None) = None.

Lemma loop_detects p n fs :
  Forall (fun f => match Ty.field_type f with Ty.Structure d => desc_detects d | _ => True end) fs ->
  forall ph nh ph' nh' any bit bit' bits,
    opt_hint_ok p ph ph' -> opt_hint_ok n nh nh' ->
    fst (fst (level_loop is_be p n (level is_be) fs ph nh any bit None))
    = any_of (fill_loop (opt_tree p) (opt_tree n) fill_changed_bits fs ph' nh' any bits bit') /\
    snd (level_loop is_be p n (level is_be) fs ph nh any bit None) = None.
Proof.
  induction 1 as [|f fs Hf _ IH]; intros ph nh ph' nh' any bit bit' bits Hp Hn; [done|].
  cbn [level_loop fill_loop].
  destruct (opt_field_tree p (Ty.name f) ph ph' Hp) as [Hpf Hp'], (opt_field_tree n (Ty.name f) nh nh' Hn) as [Hnf Hn'].
  destruct (opt_field p (Ty.name f) ph) as [p1 ph1], (field_of (opt_tree p) (Ty.name f) ph') as [p1' ph1'].
  destruct (opt_field n (Ty.name f) nh) as [n1 nh1], (field_of (opt_tree n) (Ty.name f) nh') as [n1' nh1'].
  cbn [fst snd] in *. subst p1' n1'. rewrite leaf_changed_tree. unfold leaf_delta.
  destruct (Ty.field_type f) as [tc|tc| | |d|d|us|us| | |b].
  5: { rewrite !default_tree. destruct (Hf p1 n1 (S bit) (S bit') bits) as [Ha Hsnk].
       destruct (level is_be d p1 n1 (S bit) None) as [[c b1] snk]. cbn [fst snd] in *. subst snk.
       destruct (fill_changed_bits _ _ d bits (S bit')) as [[c' bits1] idx1]. cbn in Ha. subst c'.
       destruct c; [split; [symmetry; apply fill_loop_seen|done]|]. now apply IH. }
  all: destruct (view_changed p1 n1); [split; [symmetry; apply fill_loop_seen|done]|]; now apply IH.
Qed.

Lemma all_detect d : desc_detects d.
Proof.
  induction d as [[i fs] IH] using Ty.StructureDesc_nested_ind. intros p n bit bit' bits.
  cbn [level fill_changed_bits Ty.fields] in *. apply loop_detects; auto using opt_hint_zero.
Qed.

End Detect.

(** The flags before any field is walked. *)
Lemma fresh_flags d : fresh 1 (bits_of (Ty.fields d)) (replicate (Z.to_nat (1 + Ty.count_structure_fields d)) false).
Proof.
  pose proof (Ty.count_structure_fields_nonneg d). rewrite <- bits_of_desc.
  split; [rewrite length_replicate; lia|]. intros k _.
  generalize (Z.to_nat (1 + Ty.count_structure_fields d)). intros m.
  revert m. induction k as [|k IH]; intros [|m]; cbn; auto.
Qed.

Lemma delta_tree np nn prev next desc is_be :
  encode_nt_payload_delta np nn prev next desc is_be
  = match compute_changed_bits (to_decoded (of_payload np prev)) (to_decoded (of_payload nn next)) desc with
    | Some bits => Some (encode_bitset_from_flags bits is_be,
                         snd (encode_values_for_bits bits is_be (to_decoded (of_payload nn next)) desc 1%nat []))
    | None => None
    end.
Proof.
  unfold encode_nt_payload_delta, compute_changed_bits.
  destruct (all_simulate is_be desc (Some (of_payload np prev)) (Some (of_payload nn next)) 1%nat _ [] (fresh_flags desc))
    as (any & bits' & vals & Et & Ev & _ & Hw).
  cbn [opt_tree] in *. rewrite Et, Ev. destruct any; [|done]. cbn [app]. now rewrite (Hw bits' []).
Qed.

(** ** Claims *)

(** The one-pass delta encoder computes the reference: the flags of
    [compute_changed_bits] on the two decoded trees as a bitset, followed by the
    encodings of the flagged leaves in bit order; and nothing when nothing
    changed. *)
Theorem delta_equiv np nn prev next desc is_be :
  encode_nt_payload_delta np nn prev next desc is_be
  = match compute_changed_bits (to_decoded (of_payload np prev)) (to_decoded (of_payload nn next)) desc with
    | Some bits => Some (encode_bitset_from_flags bits is_be,
                         snd (encode_values_for_bits bits is_be (to_decoded (of_payload nn next)) desc 1%nat []))
    | None => None
    end.
Proof. apply delta_tree. Qed.

(** The change detector that stops at the first changed leaf answers exactly
    whether the delta encoder would produce an update. *)
Theorem changed_iff_delta np nn prev next desc is_be :
  nt_payload_changed_on_desc np nn prev next desc is_be = true <->
  is_Some (encode_nt_payload_delta np nn prev next desc is_be).
Proof.
  rewrite delta_tree. unfold compute_changed_bits, nt_payload_changed_on_desc.
  set (bits := replicate _ false).
  destruct (all_detect is_be desc (Some (of_payload np prev)) (Some (of_payload nn next)) 1%nat 1%nat bits) as [-> _].
  cbn [opt_tree]. destruct (fill_changed_bits _ _ desc bits 1%nat) as [[any bits'] idx]. cbn.
  destruct any; split; try done; intros [? ?]; done.
Qed.

End NtDelta.
