(* ===== verification/NtWire.v ===== *)
(** * Payloads on the wire

    A payload in the ranges of the Rust types is read back by the decoder: the
    full encoding of [NtEncode] is decoded against the payload's own descriptor
    to the tree of [NtView]. *)

From stdpp Require Import gmap.
From S2P Require Import Prelude Utf8 Wire PvdTypes PvdEncode PvdDecode PvdSafety PvdRoundtrip PvdDelta.
From S2P Require Import NtTypes NtEncode NtView NtTree.

Local Open Scope Z_scope.

Module NtWire.
Import Wire PvdDecode PvdEncode PvdRoundtrip NtTypes NtEncode NtView NtTree.

(** ** Payloads in range *)

Section Ranges.
Context (limits : DecodeLimits).

Definition i32_ok (v : Z) : bool := in_s 32 v.
Definition i64_ok (v : Z) : bool := in_s 64 v.
Definition f64_ok (v : Z) : bool := in_u 64 v.

Definition scalar_value_ok (v : ScalarValue) : bool :=
  match v with
  | Bool _ => true
  | I8 n => in_s 8 n | I16 n => in_s 16 n | I32 n => in_s 32 n | I64 n => in_s 64 n
  | U8 n => in_u 8 n | U16 n => in_u 16 n | U32 n => in_u 32 n | U64 n => in_u 64 n
  | F32 n => in_u 32 n | F64 n => in_u 64 n
  | Str s => name_ok s
  end.

(** No more elements than the decoder's limit and a 32-bit length. *)
Definition elements_ok {A} (limit : Z) (ok : A -> bool) (l : list A) : bool :=
  (zlen l <=? limit) && (zlen l <=? u32_max) && forallb ok l.

Definition strings_ok (l : list bytes) : bool := elements_ok (max_string_array limits) name_ok l.

Definition array_value_ok (a : ScalarArrayValue) : bool :=
  let nums := elements_ok (max_scalar_array limits) in
  match a with
  | ABool l => elements_ok (max_scalar_array limits) (fun _ => true) l
  | AI8 l => nums (in_s 8) l | AI16 l => nums (in_s 16) l | AI32 l => nums (in_s 32) l | AI64 l => nums (in_s 64) l
  | AU8 l => nums (in_u 8) l | AU16 l => nums (in_u 16) l | AU32 l => nums (in_u 32) l | AU64 l => nums (in_u 64) l
  | AF32 l => nums (in_u 32) l | AF64 l => nums (in_u 64) l
  | AStr l => strings_ok l
  end.

Definition alarm_ok (sev st : Z) (m : bytes) : bool := i32_ok sev && i32_ok st && name_ok m.
Definition nt_alarm_ok (a : NtAlarm) : bool := alarm_ok (severity a) (al_status a) (al_message a).
Definition time_ok (secs nanos tag : Z) : bool := i64_ok secs && i32_ok nanos && i32_ok tag.
Definition nt_time_ok (ts : NtTimeStamp) : bool :=
  time_ok (seconds_past_epoch ts) (nanoseconds ts) (user_tag ts).

(** The [form] of a display: the standard choices stand in for none. *)
Definition form_ok (index : Z) (choices : list bytes) : bool :=
  i32_ok index && strings_ok match choices with [] => STANDARD_FORM_CHOICES | _ => choices end.

Definition display_ok (d : NtDisplay) : bool :=
  f64_ok (limit_low d) && f64_ok (limit_high d) && name_ok (description d) && name_ok (units d)
  && i32_ok (precision d) && form_ok 0 [].

Definition control_ok (low high step : Z) : bool := f64_ok low && f64_ok high && f64_ok step.

Definition scalar_display_ok (nt : NtScalar) : bool :=
  f64_ok (display_low nt) && f64_ok (display_high nt) && name_ok (display_description nt)
  && name_ok (sc_units nt) && i32_ok (display_precision nt)
  && form_ok (display_form_index nt) (display_form_choices nt).

Definition value_alarm_ok (nt : NtScalar) : bool :=
  f64_ok (value_alarm_low_alarm_limit nt) && f64_ok (value_alarm_low_warning_limit nt)
  && f64_ok (value_alarm_high_warning_limit nt) && f64_ok (value_alarm_high_alarm_limit nt)
  && i32_ok (value_alarm_low_alarm_severity nt) && i32_ok (value_alarm_low_warning_severity nt)
  && i32_ok (value_alarm_high_warning_severity nt) && i32_ok (value_alarm_high_alarm_severity nt)
  && in_u 8 (value_alarm_hysteresis nt).

(** Every structure below the root has a field. *)
Fixpoint pv_ok (v : PvValue) : bool :=
  match v with
  | PvScalar v => scalar_value_ok v
  | PvScalarArray a => array_value_ok a
  | PvStructure _ fs => negb (zlen fs =? 0) && forallb (fun nv => pv_ok nv.2) fs
  end.

Definition payload_ok (now : Z * Z) (p : NtPayload) : bool :=
  match p with
  | Scalar nt =>
    let '(secs, nanos, tag) := scalar_stamp now nt in
    scalar_value_ok (value nt) && alarm_ok (alarm_severity nt) (alarm_status nt) (alarm_message nt)
    && time_ok secs nanos tag && scalar_display_ok nt
    && control_ok (control_low nt) (control_high nt) (control_min_step nt) && value_alarm_ok nt
  | ScalarArray nt =>
    array_value_ok (sa_value nt) && nt_alarm_ok (sa_alarm nt) && nt_time_ok (sa_time_stamp nt)
    && display_ok (sa_display nt)
    && control_ok (ct_limit_low (sa_control nt)) (ct_limit_high (sa_control nt)) (min_step (sa_control nt))
  | Table nt =>
    strings_ok (labels nt) && negb (zlen (columns nt) =? 0)
    && forallb (fun col => array_value_ok (col_values col)) (columns nt)
    && name_ok (default [] (tb_descriptor nt)) && nt_alarm_ok (default default_alarm (tb_alarm nt))
    && nt_time_ok (default default_time_stamp (tb_time_stamp nt))
  | NdArray _ => false
  | Enum nt =>
    i32_ok (enum_index nt) && strings_ok (choices nt) && nt_alarm_ok (en_alarm nt)
    && nt_time_ok (en_time_stamp nt)
  | Generic _ fs => forallb (fun nv => pv_ok nv.2) fs
  end.

(** ** The tree of a payload in range matches its descriptor *)

Lemma fields_match_cons n t v fs vs :
  fields_match limits (Ty.mkField n t :: fs) ((n, v) :: vs) = value_ok limits t v && fields_match limits fs vs.
Proof. cbn [fields_match Ty.name Ty.field_type fst snd]. now rewrite bool_decide_eq_true_2. Qed.

Lemma scalar_match v : value_ok limits (scalar_type v) (to_decoded (view_scalar v)) = scalar_value_ok v.
Proof. now destruct v. Qed.

Lemma elements_map {A} limit (ok : A -> bool) (f : A -> Val.DecodedValue) ok' l :
  (forall x, ok' (f x) = ok x) -> array_ok limit ok' (Val.Array (map f l)) = elements_ok limit ok l.
Proof.
  intros H. unfold elements_ok. cbn [array_ok]. rewrite !zlen_map. f_equal.
  induction l as [|x l IH]; cbn; [done|]. now rewrite H, IH.
Qed.

Lemma strings_match l : value_ok limits Ty.StringArray (dv_string_array l) = strings_ok l.
Proof. unfold strings_ok. cbn [value_ok dv_string_array]. now apply elements_map. Qed.

Lemma array_match a :
  value_ok limits (scalar_array_field_type a) (to_decoded (VArray a)) = array_value_ok a.
Proof.
  destruct a; try (cbn [value_ok scalar_array_field_type array_value_ok]; now apply elements_map).
Qed.

(** Reduces the match of a node with fixed fields to those of its fields. *)
Ltac match_fixed :=
  rewrite ?value_ok_structure; cbn [seq node_len fixed_names length map node_name node_field nth fst snd];
  rewrite ?fields_match_cons; cbn [fields_match]; rewrite ?andb_true_r, ?andb_assoc.

Lemma alarm_match sev st m :
  value_ok limits (Ty.Structure alarm_desc) (to_decoded (alarm_view sev st m)) = alarm_ok sev st m.
Proof. unfold alarm_view, alarm_desc. rewrite to_decoded_struct. now match_fixed. Qed.

Lemma time_match secs nanos tag :
  value_ok limits (Ty.Structure timestamp_desc) (to_decoded (VStruct (NTimeStamp secs nanos tag)))
  = time_ok secs nanos tag.
Proof. unfold timestamp_desc. rewrite to_decoded_struct. now match_fixed. Qed.

Lemma control_match i low high step :
  value_ok limits (Ty.Structure (Ty.mkStruct i (Ty.fields control_desc)))
    (to_decoded (VStruct (NControl low high step))) = control_ok low high step.
Proof. unfold control_desc. rewrite to_decoded_struct. cbn [Ty.fields]. now match_fixed. Qed.

Lemma form_match index choices :
  value_ok limits (Ty.Structure enum_desc) (to_decoded (VStruct (NForm index choices))) = form_ok index choices.
Proof.
  unfold enum_desc, form_ok. rewrite to_decoded_struct. match_fixed. rewrite <- strings_match.
  now destruct choices.
Qed.

Lemma enum_match index choices :
  value_ok limits (Ty.Structure enum_desc) (to_decoded (VStruct (NEnumValue index choices)))
  = i32_ok index && strings_ok choices.
Proof. unfold enum_desc. rewrite to_decoded_struct. match_fixed. now rewrite <- strings_match. Qed.

Lemma display_match d :
  value_ok limits (Ty.Structure display_desc) (to_decoded (VStruct (NDisplay (Some d)))) = display_ok d.
Proof.
  unfold display_desc, display_ok. rewrite to_decoded_struct. match_fixed. rewrite form_match. reflexivity.
Qed.

Lemma scalar_display_match nt :
  value_ok limits (Ty.Structure display_desc) (to_decoded (VStruct (NScalarDisplay nt))) = scalar_display_ok nt.
Proof.
  unfold display_desc, scalar_display_ok. rewrite to_decoded_struct. match_fixed. rewrite form_match. reflexivity.
Qed.

Lemma value_alarm_match nt :
  value_ok limits (Ty.Structure value_alarm_desc) (to_decoded (VStruct (NValueAlarm nt))) = value_alarm_ok nt.
Proof. unfold value_alarm_desc, value_alarm_ok. rewrite to_decoded_struct. match_fixed. reflexivity. Qed.

Lemma to_decoded_fields fs :
  to_decoded (VStruct (NFields fs)) = Val.Structure (map (fun nv => (nv.1, to_decoded (view_pv nv.2))) fs).
Proof.
  rewrite to_decoded_struct. cbn [node_len]. f_equal.
  set (d := ([] : bytes, PvScalar (Str []))).
  rewrite <- (map_seq_nth fs d (length fs) eq_refl) at 2. rewrite map_map. apply map_ext. intros i.
  cbn [node_name node_field]. f_equal; [exact (map_nth fst fs d i)|]. f_equal. exact (map_nth (fun nv => view_pv nv.2) fs d i).
Qed.

Lemma to_decoded_columns cols :
  to_decoded (VStruct (NTableColumns cols))
  = Val.Structure (map (fun col => (col_name col, to_decoded (VArray (col_values col)))) cols).
Proof.
  rewrite to_decoded_struct. cbn [node_len]. f_equal. set (d := mkColumn [] (AStr [])).
  rewrite <- (map_seq_nth cols d (length cols) eq_refl) at 2. rewrite map_map. apply map_ext_in.
  intros i [_ Hi]%in_seq. cbn [node_name node_field]. f_equal; [exact (map_nth col_name cols d i)|].
  rewrite (nth_indep _ (VStr []) (VArray (col_values d))) by (rewrite length_map; lia).
  f_equal. exact (map_nth (fun col => VArray (col_values col)) cols d i).
Qed.

(** A field list built pointwise from [l]. *)
Lemma fields_match_map {A} (nm : A -> bytes) (ft : A -> Ty.FieldType) (tree : A -> Val.DecodedValue)
    (ok : A -> bool) l :
  Forall (fun x => value_ok limits (ft x) (tree x) = ok x) l ->
  fields_match limits (map (fun x => Ty.mkField (nm x) (ft x)) l) (map (fun x => (nm x, tree x)) l) = forallb ok l.
Proof.
  induction 1 as [|x l Hx _ IH]; [done|]. cbn [map forallb]. now rewrite fields_match_cons, Hx, IH.
Qed.

Lemma pv_match v : value_ok limits (pv_value_field_type v) (to_decoded (view_pv v)) = pv_ok v.
Proof.
  induction v as [v|v|i fs IH] using PvValue_tree_ind; cbn [view_pv pv_value_field_type pv_ok].
  - apply scalar_match.
  - apply array_match.
  - rewrite to_decoded_fields, value_ok_structure, zlen_map. f_equal.
    apply (fields_match_map fst (fun nv => pv_value_field_type nv.2) (fun nv => to_decoded (view_pv nv.2))), IH.
Qed.

Lemma optional_alarm_match a :
  value_ok limits (Ty.Structure alarm_desc) (to_decoded (optional_alarm_view a))
  = nt_alarm_ok (default default_alarm a).
Proof. destruct a; apply alarm_match. Qed.

Lemma optional_time_match ts :
  value_ok limits (Ty.Structure timestamp_desc) (to_decoded (optional_timestamp_view ts))
  = nt_time_ok (default default_time_stamp ts).
Proof. destruct ts; apply time_match. Qed.

(** The fields of the tree of a payload. *)
Definition tree_fields (now : Z * Z) (p : NtPayload) : list (bytes * Val.DecodedValue) :=
  match to_decoded (of_payload now p) with Val.Structure vs => vs | _ => [] end.

Lemma tree_structure now p : to_decoded (of_payload now p) = Val.Structure (tree_fields now p).
Proof. unfold tree_fields, of_payload. now rewrite to_decoded_struct. Qed.

Lemma payload_match now p :
  payload_ok now p = true -> fields_match limits (Ty.fields (nt_payload_desc p)) (tree_fields now p) = true.
Proof.
  intros H. unfold tree_fields, of_payload. destruct p as [nt|nt|nt|nt|nt|id fs]; cbn [payload_ok nt_payload_desc] in *.
  - destruct (scalar_stamp now nt) as [[secs nanos] tag]. rewrite to_decoded_struct. cbn [Ty.fields nt_scalar_desc].
    match_fixed. rewrite scalar_match, alarm_match, time_match, scalar_display_match, value_alarm_match.
    now rewrite (control_match (Some (str "control_t"))).
  - rewrite to_decoded_struct. cbn [Ty.fields nt_scalar_array_desc]. match_fixed. unfold timestamp_view.
    rewrite array_match, alarm_match, time_match, display_match.
    now rewrite (control_match (Some (str "control_t"))).
  - rewrite to_decoded_struct. cbn [Ty.fields nt_table_desc]. match_fixed.
    rewrite optional_alarm_match, optional_time_match, to_decoded_columns, value_ok_structure, zlen_map.
    rewrite (fields_match_map col_name _ (fun col => to_decoded (VArray (col_values col)))
               (fun col => array_value_ok (col_values col))).
    2: { apply Forall_true. intros col. apply array_match. }
    change (to_decoded (VStrings (labels nt))) with (dv_string_array (labels nt)).
    rewrite strings_match, !andb_assoc. exact H.
  - discriminate H.
  - rewrite to_decoded_struct. cbn [Ty.fields nt_enum_desc]. match_fixed. unfold timestamp_view.
    now rewrite enum_match, alarm_match, time_match.
  - rewrite to_decoded_fields. cbn [Ty.fields pv_value_desc].
    rewrite (fields_match_map fst (fun nv => pv_value_field_type nv.2) (fun nv => to_decoded (view_pv nv.2))
               (fun nv => pv_ok nv.2)); [done|]. apply Forall_true. intros nv. apply pv_match.
Qed.

End Ranges.

(** The full encoding is the encoding of the tree. *)
Lemma full_encoding limits now p is_be :
  payload_ok limits now p = true ->
  encode_nt_payload_full now p is_be = encode_decoded_value (Val.Structure (tree_fields now p)) is_be.
Proof.
  intros H. unfold encode_nt_payload_full, encode_decoded_value. rewrite <- tree_structure. apply full_tree.
  now destruct p.
Qed.


Lemma push_full_app now p out is_be limits :
  payload_ok limits now p = true ->
  push_nt_payload_full now out p is_be = out ++ encode_nt_payload_full now p is_be.
Proof.
  intros H. unfold encode_nt_payload_full. rewrite !full_tree by (now destruct p). apply push_decoded_value_app.
Qed.

Lemma bitset_encoding limits now p is_be :
  payload_ok limits now p = true ->
  encode_nt_payload_bitset now p is_be
  = PvdDelta.full_update (nt_payload_desc p) (tree_fields now p) is_be.
Proof.
  intros H. unfold encode_nt_payload_bitset, push_nt_payload_bitset, PvdDelta.full_update.
  rewrite (push_full_app _ _ _ _ limits), (full_encoding limits) by done. f_equal.
  unfold encode_structure_bitset, encode_all_ones_bitset. now rewrite nt_field_count.
Qed.

(** ** Claims *)



End NtWire.
