(* ===== verification/DataFrames.v ===== *)
(** * Frames that carry values

    Models the value-carrying builders of [spvirit-codec/src/spvirit_encode.rs]
    (lines 593-1040): GET, PUT, PUT_GET, RPC and MONITOR data responses, built in
    one buffer whose header is filled in last, and what a client reads from
    them.  [now] is the clock a payload without a time stamp is stamped with. *)

From stdpp Require Import gmap.
From S2P Require Import Prelude Utf8 Wire PvdTypes PvdEncode PvdDecode PvdSafety PvdRoundtrip PvdDelta Monitor.
From S2P Require Import Packet Message NtTypes NtEncode NtView NtTree NtDelta NtWire.

Local Open Scope Z_scope.

Module DataFrames.
Import Wire PvdEncode PvdDecode NtTypes NtEncode NtView NtDelta NtWire Packet Message.

Definition has_status_block (subcmd : Z) : bool := negb (Z.land subcmd 0x10 =? 0).

Definition monitor_frame_capacity (subcmd parts : Z) : Z :=
  let status := if has_status_block subcmd then zlen encode_status_ok else 0 in
  8 + 4 + 1 + status + parts + zlen (encode_size 0 false).

Section Builders.
Context (now : Z * Z).

Definition encode_nt_scalar_full (nt : NtScalar) (is_be : bool) : bytes := push_nt_scalar_full now [] nt is_be.

Definition encode_nt_scalar_bitset (nt : NtScalar) (is_be : bool) : bytes :=
  let '(bitset, values) := encode_nt_scalar_bitset_parts now nt is_be in bitset ++ values.

(** ** Operation responses *)

Definition encode_op_init_response (command ioid subcmd : Z) (desc : Ty.StructureDesc) (nt : NtScalar)
    (version : Z) (is_be : bool) : bytes :=
  frame true is_be version command
    (put_int is_be 4 ioid ++ [subcmd] ++ encode_status_ok ++ [0x80]
     ++ encode_structure_desc desc is_be ++ encode_nt_scalar_full nt is_be).

Definition encode_op_data_response (command ioid : Z) (nt : NtScalar) (version : Z) (is_be : bool) : bytes :=
  frame true is_be version command (put_int is_be 4 ioid ++ [0x00] ++ encode_nt_scalar_bitset nt is_be).

Definition encode_op_data_response_payload (command ioid : Z) (p : NtPayload) (version : Z) (is_be : bool) : bytes :=
  let '(out, header_at) := begin_frame [] is_be version command in
  let out := out ++ put_int is_be 4 ioid in
  let out := out ++ [0x00] in
  let out := out ++ encode_status_ok in
  let out := push_nt_payload_bitset now out p is_be in
  finish_frame out header_at is_be.

Definition encode_op_get_data_response_payload (ioid : Z) (p : NtPayload) (version : Z) (is_be : bool) : bytes :=
  encode_op_data_response_payload 10 ioid p version is_be.

Definition encode_op_data_response_filtered (command ioid : Z) (p : NtPayload) (filtered_desc : Ty.StructureDesc)
    (version : Z) (is_be : bool) : bytes :=
  let '(bitset, values) := encode_nt_payload_filtered now p filtered_desc is_be in
  let '(out, header_at) := begin_frame [] is_be version command in
  let out := out ++ put_int is_be 4 ioid in
  let out := out ++ [0x00] in
  let out := out ++ encode_status_ok in
  let out := out ++ bitset in
  let out := out ++ values in
  finish_frame out header_at is_be.

Definition encode_op_rpc_data_response_payload (ioid subcmd : Z) (p : NtPayload) (version : Z) (is_be : bool) : bytes :=
  frame true is_be version 20
    (put_int is_be 4 ioid ++ [subcmd] ++ encode_status_ok ++ [0x80]
     ++ encode_structure_desc (nt_payload_desc p) is_be ++ encode_nt_payload_full now p is_be).

Definition encode_op_put_get_data_response_payload (ioid : Z) (p : NtPayload) (version : Z) (is_be : bool) : bytes :=
  frame true is_be version 12
    (put_int is_be 4 ioid ++ [0x00] ++ encode_status_ok ++ encode_nt_payload_bitset now p is_be).

Definition encode_op_put_get_data_response (ioid : Z) (nt : NtScalar) (version : Z) (is_be : bool) : bytes :=
  encode_op_put_get_data_response_payload ioid (Scalar nt) version is_be.

Definition encode_op_put_getput_response_payload (ioid : Z) (p : NtPayload) (version : Z) (is_be : bool) : bytes :=
  frame true is_be version 11
    (put_int is_be 4 ioid ++ [0x40] ++ encode_status_ok ++ encode_nt_payload_bitset now p is_be).

Definition encode_op_put_getput_response (ioid : Z) (nt : NtScalar) (version : Z) (is_be : bool) : bytes :=
  encode_op_put_getput_response_payload ioid (Scalar nt) version is_be.

(** ** MONITOR data *)

(** The start of a monitor data frame: header, operation id, subcommand and the
    status block when the subcommand asks for one. *)
Definition begin_monitor_data (ioid subcmd version : Z) (is_be : bool) : bytes * Z :=
  let '(out, header_at) := begin_frame [] is_be version 13 in
  let out := out ++ put_int is_be 4 ioid in
  let out := out ++ [subcmd] in
  let out := if has_status_block subcmd then out ++ encode_status_ok else out in
  (out, header_at).

Definition encode_monitor_data_response_payload (ioid subcmd : Z) (p : NtPayload) (version : Z) (is_be : bool) : bytes :=
  let '(out, header_at) := begin_monitor_data ioid subcmd version is_be in
  let out := push_nt_payload_bitset now out p is_be in
  let out := out ++ encode_size 0 is_be in
  finish_frame out header_at is_be.

Definition encode_monitor_data_response (ioid subcmd : Z) (nt : NtScalar) (version : Z) (is_be : bool) : bytes :=
  encode_monitor_data_response_payload ioid subcmd (Scalar nt) version is_be.

Definition finish_monitor_data (ioid subcmd version : Z) (bitset values : bytes) (is_be : bool) : bytes :=
  let '(out, header_at) := begin_monitor_data ioid subcmd version is_be in
  let out := out ++ bitset in
  let out := out ++ values in
  let out := out ++ encode_size 0 is_be in
  finish_frame out header_at is_be.

Definition encode_monitor_data_response_filtered (ioid subcmd : Z) (p : NtPayload) (filtered_desc : Ty.StructureDesc)
    (version : Z) (is_be : bool) : bytes :=
  let '(bitset, values) := encode_nt_payload_filtered now p filtered_desc is_be in
  finish_monitor_data ioid subcmd version bitset values is_be.

(** The clock is read once for each payload. *)
Definition encode_monitor_data_response_delta (now_prev : Z * Z) (ioid subcmd : Z) (prev next : NtPayload)
    (filtered_desc : Ty.StructureDesc) (version : Z) (is_be : bool) : option bytes :=
  match encode_nt_payload_delta now_prev now prev next filtered_desc is_be with
  | Some (bitset, values) => Some (finish_monitor_data ioid subcmd version bitset values is_be)
  | None => None
  end.

End Builders.

(** ** The same frames, payload first *)

Definition monitor_payload (ioid subcmd : Z) (bitset values : bytes) (is_be : bool) : bytes :=
  put_int is_be 4 ioid ++ [subcmd] ++ (if has_status_block subcmd then encode_status_ok else [])
  ++ bitset ++ values ++ encode_size 0 is_be.

Definition data_payload (ioid : Z) (update : bytes) (is_be : bool) : bytes :=
  put_int is_be 4 ioid ++ [0x00] ++ encode_status_ok ++ update.

Lemma push_columns_app cols is_be : forall out,
  List.fold_left (fun out col => push_scalar_array_value_pvd out (col_values col) is_be) cols out
  = out ++ List.fold_left (fun out col => push_scalar_array_value_pvd out (col_values col) is_be) cols [].
Proof.
  intros out. rewrite !(fold_push _ (fun col => NtTree.enc (VArray (col_values col)) is_be)); [done|..];
    apply Forall_true; intros col o; apply NtTree.push_array_app.
Qed.

Lemma push_full_any now out p is_be :
  push_nt_payload_full now out p is_be = out ++ encode_nt_payload_full now p is_be.
Proof.
  unfold encode_nt_payload_full. destruct p as [nt|nt|nt|nt|nt|id fs]; cbn [push_nt_payload_full].
  - unfold push_nt_scalar_full. now rewrite <- ?app_assoc.
  - unfold push_nt_scalar_array_full. rewrite !NtTree.push_array_app. now rewrite <- ?app_assoc.
  - unfold push_nt_table_full. cbn zeta. rewrite push_columns_app, (push_columns_app _ _ ([] ++ _)).
    now rewrite <- ?app_assoc.
  - unfold push_nt_ndarray_full. cbn zeta. rewrite !NtTree.push_array_app, !(push_size_app _ (ndarray_union_index _)).
    now rewrite <- ?app_assoc.
  - unfold push_nt_enum_full. now rewrite <- ?app_assoc.
  - unfold push_pv_value_fields.
    rewrite !(fold_push _ (fun nv => NtTree.enc (view_pv nv.2) is_be)); [done|..];
      apply Forall_true; intros nv o; apply NtTree.push_pv_app.
Qed.

Lemma push_bitset_any now out p is_be :
  push_nt_payload_bitset now out p is_be = out ++ encode_nt_payload_bitset now p is_be.
Proof.
  unfold encode_nt_payload_bitset, push_nt_payload_bitset.
  assert (0 < 1 + nt_payload_field_count p).
  { rewrite nt_field_count. pose proof (Ty.count_structure_fields_nonneg (nt_payload_desc p)). lia. }
  rewrite !push_full_any, !push_all_ones_bitset_app by done. now rewrite <- ?app_assoc.
Qed.

Lemma bitset_parts now p is_be :
  encode_nt_payload_bitset now p is_be
  = (encode_nt_payload_bitset_parts now p is_be).1 ++ (encode_nt_payload_bitset_parts now p is_be).2.
Proof.
  unfold encode_nt_payload_bitset, push_nt_payload_bitset. now rewrite push_full_any.
Qed.

Lemma monitor_frame ioid subcmd version body is_be :
  let '(out, header_at) := begin_monitor_data ioid subcmd version is_be in
  finish_frame (out ++ body) header_at is_be
  = frame true is_be version 13
      (put_int is_be 4 ioid ++ [subcmd] ++ (if has_status_block subcmd then encode_status_ok else []) ++ body).
Proof.
  unfold begin_monitor_data. rewrite (surjective_pairing (begin_frame [] is_be version 13)).
  rewrite <- (app_nil_l (frame true is_be version 13 _)), <- finish_frame_frame. f_equal.
  destruct (has_status_block subcmd); cbn [app]; now rewrite <- ?app_assoc.
Qed.

Lemma finish_monitor_frame ioid subcmd version bitset values is_be :
  finish_monitor_data ioid subcmd version bitset values is_be
  = frame true is_be version 13 (monitor_payload ioid subcmd bitset values is_be).
Proof.
  unfold finish_monitor_data, monitor_payload.
  pose proof (monitor_frame ioid subcmd version (bitset ++ values ++ encode_size 0 is_be) is_be) as H.
  destruct (begin_monitor_data ioid subcmd version is_be) as [out at_]. rewrite <- H. now rewrite <- !app_assoc.
Qed.

Lemma zlen_frame is_be version command body : zlen (frame true is_be version command body) = 8 + zlen body.
Proof.
  unfold frame, encode_header, push_header. rewrite app_nil_l, !zlen_app, zlen_put_int.
  cbn [length zlen]. unfold zlen at 1. cbn. lia.
Qed.

(** ** What is in a data frame *)

Section Decode.
Context (is_be : bool).

Lemma data_payload_decode command ioid update rest version :
  existsb (Z.eqb command) [10; 11; 12; 16; 20] = true -> u32_ok ioid = true ->
  zlen update < 2 ^ 31 ->
  decode_bytes (frame true is_be version command (data_payload ioid update is_be) ++ rest)
  = Ok (Op (mkOp 0 ioid 0 update command true None None None)).
Proof.
  intros Hcmd Hi Hu. pose proof (zlen_nonneg update). apply decode_bytes_frame.
  { unfold data_payload, encode_status_ok, u32_max. autorewrite with codec_len. cbn. lia. }
  assert (decode_command command (data_payload ioid update is_be) is_be true
          = wrap Op (op_new (data_payload ioid update is_be) is_be true command)
          /\ negb (command =? 13) && negb (command =? 14) = true) as [-> Hst].
  { cbn in Hcmd. unfold decode_command.
    repeat (apply orb_true_iff in Hcmd as [Hcmd%Z.eqb_eq|Hcmd]; [subst; split; reflexivity|]). discriminate Hcmd. }
  unfold data_payload. rewrite op_response_encode by done. rewrite Hst. unfold encode_status_ok.
  cbn [Z.land Z.eqb negb orb app]. rewrite zlen_cons. destruct (_ =? 0) eqn:E; bool_to_prop; [lia|]. clear E.
  cbn [decode_status Z.eqb Pos.eqb bind_outcome]. now rewrite (rest_after_at _ [0xFF] update) by done.
Qed.

(** The subcommand of MONITOR data sets neither the INIT bit nor asks for a
    status. *)
Lemma monitor_payload_decode ioid subcmd bitset values rest version :
  u32_ok ioid = true -> Z.land subcmd 0x18 = 0 -> zlen bitset + zlen values < 2 ^ 31 ->
  decode_bytes (finish_monitor_data ioid subcmd version bitset values is_be ++ rest)
  = Ok (Op (mkOp 0 ioid subcmd (bitset ++ values ++ encode_size 0 is_be) 13 true None None None)).
Proof.
  intros Hi Hsub Hl. pose proof (zlen_nonneg bitset). pose proof (zlen_nonneg values).
  assert (Z.land subcmd 0x08 = 0) as H8 by
    (change 0x08 with (Z.land 0x18 0x08); rewrite Z.land_assoc, Hsub; reflexivity).
  assert (Z.land subcmd 0x10 = 0) as H10 by
    (change 0x10 with (Z.land 0x18 0x10); rewrite Z.land_assoc, Hsub; reflexivity).
  rewrite finish_monitor_frame. unfold monitor_payload, has_status_block. rewrite H10. cbn [Z.eqb negb app].
  assert (zlen (encode_size 0 is_be) = 1) as Hsz by reflexivity.
  apply decode_bytes_frame; [unfold u32_max; rewrite zlen_app, zlen_cons, !zlen_app, zlen_put_int, Hsz; cbn; lia|].
  dispatch. change (subcmd :: bitset ++ values ++ encode_size 0 is_be)
    with ([subcmd] ++ (bitset ++ values ++ encode_size 0 is_be)).
  rewrite op_response_encode by done. rewrite H8. cbn [Z.eqb Pos.eqb negb orb andb].
  rewrite !zlen_app, Hsz. destruct (_ =? 0) eqn:E; bool_to_prop; [lia|]. done.
Qed.
End Decode.

Lemma op_data_frame now command ioid p version is_be :
  encode_op_data_response_payload now command ioid p version is_be
  = frame true is_be version command (data_payload ioid (encode_nt_payload_bitset now p is_be) is_be).
Proof.
  unfold encode_op_data_response_payload. rewrite (surjective_pairing (begin_frame [] is_be version command)).
  rewrite push_bitset_any, <- (app_nil_l (frame _ _ _ _ _)), <- finish_frame_frame. f_equal.
  unfold data_payload. now rewrite <- !app_assoc.
Qed.

Lemma monitor_full_frame now ioid subcmd p version is_be :
  encode_monitor_data_response_payload now ioid subcmd p version is_be
  = finish_monitor_data ioid subcmd version (encode_nt_payload_bitset_parts now p is_be).1
      (encode_nt_payload_bitset_parts now p is_be).2 is_be.
Proof.
  unfold encode_monitor_data_response_payload, finish_monitor_data.
  destruct (begin_monitor_data ioid subcmd version is_be) as [out at_].
  rewrite push_bitset_any, bitset_parts. now rewrite <- !app_assoc.
Qed.

(** ** Claims *)

(** The single-buffer builders, which fill in the header last, produce the
    frame of the reference (payload first, then the header), for every payload,
    and a monitor frame is exactly as long as the capacity reserved for it. *)
Theorem single_buffer_equiv now now_prev command ioid subcmd p prev desc version is_be :
  encode_op_data_response_payload now command ioid p version is_be
    = frame true is_be version command (data_payload ioid (encode_nt_payload_bitset now p is_be) is_be) /\
  (let '(bitset, values) := encode_nt_payload_filtered now p desc is_be in
   encode_op_data_response_filtered now command ioid p desc version is_be
     = frame true is_be version command (data_payload ioid (bitset ++ values) is_be) /\
   encode_monitor_data_response_filtered now ioid subcmd p desc version is_be
     = frame true is_be version 13 (monitor_payload ioid subcmd bitset values is_be) /\
   zlen (encode_monitor_data_response_filtered now ioid subcmd p desc version is_be)
     = monitor_frame_capacity subcmd (zlen bitset + zlen values)) /\
  (let '(bitset, values) := encode_nt_payload_bitset_parts now p is_be in
   encode_monitor_data_response_payload now ioid subcmd p version is_be
     = frame true is_be version 13 (monitor_payload ioid subcmd bitset values is_be)) /\
  encode_monitor_data_response_delta now now_prev ioid subcmd prev p desc version is_be
    = (fun '(bitset, values) => frame true is_be version 13 (monitor_payload ioid subcmd bitset values is_be))
      <$> encode_nt_payload_delta now_prev now prev p desc is_be.
Proof.
  split_and!.
  - apply op_data_frame.
  - destruct (encode_nt_payload_filtered now p desc is_be) as [bitset values] eqn:E. split_and!.
    + unfold encode_op_data_response_filtered. rewrite E, (surjective_pairing (begin_frame [] is_be version command)).
      rewrite <- (app_nil_l (frame _ _ _ _ _)), <- finish_frame_frame. f_equal.
      unfold data_payload. now rewrite <- !app_assoc.
    + unfold encode_monitor_data_response_filtered. rewrite E. apply finish_monitor_frame.
    + unfold encode_monitor_data_response_filtered. rewrite E, finish_monitor_frame, zlen_frame.
      unfold monitor_payload, monitor_frame_capacity. rewrite !zlen_app, zlen_put_int.
      change (zlen (encode_size 0 is_be)) with 1. change (zlen (encode_size 0 false)) with 1.
      change (zlen [subcmd]) with 1. destruct (has_status_block subcmd); rewrite ?zlen_nil; lia.
  - rewrite (surjective_pairing (encode_nt_payload_bitset_parts now p is_be)), monitor_full_frame.
    apply finish_monitor_frame.
  - unfold encode_monitor_data_response_delta. destruct (encode_nt_payload_delta _ _ _ _ _ _) as [[bitset values]|]; [|done].
    cbn. f_equal. apply finish_monitor_frame.
Qed.

(** A GET, PUT_GET or PUT_GET-style data response carries the payload: the frame
    is decoded to an operation whose body, decoded against the payload's own
    descriptor, is the payload's tree. *)
Theorem data_response_roundtrip now command ioid p version is_be rest :
  existsb (Z.eqb command) [10; 11; 12; 16; 20] = true -> u32_ok ioid = true ->
  payload_ok default_limits now p = true ->
  Ty.fields_height (Ty.fields (nt_payload_desc p)) <= max_depth default_limits ->
  zlen (encode_nt_payload_bitset now p is_be) < 2 ^ 31 -> 1 + nt_payload_field_count p <= u32_max ->
  exists op, decode_bytes (encode_op_data_response_payload now command ioid p version is_be ++ rest) = Ok (Op op) /\
    decode_with_field_desc op (nt_payload_desc p) is_be Strict = Ok (set_decoded (to_decoded (of_payload now p)) op).
Proof.
  intros Hcmd Hi Hp Hh Hl Hc.
  exists (mkOp 0 ioid 0 (encode_nt_payload_bitset now p is_be) command true None None None). split.
  - rewrite op_data_frame. now apply data_payload_decode.
  - unfold decode_with_field_desc. cbn [body subcmd op_command Z.eqb orb].
    assert (command =? 13 = false) as ->.
    { cbn in Hcmd. repeat (apply orb_true_iff in Hcmd as [Hcmd%Z.eqb_eq|Hcmd]; [subst; reflexivity|]). discriminate Hcmd. }
    rewrite (bitset_encoding default_limits) by done.
    pose proof (payload_match default_limits now p Hp) as Hm. rewrite nt_field_count in Hc.
    pose proof (PvdDelta.full_update_encode is_be default_limits (nt_payload_desc p) (tree_fields now p) [] _
                  PvdSafety.default_limits_ok (PvdSafety.idle_with_limits default_limits) Hc Hm Hh) as Hd.
    rewrite app_nil_r in Hd. destruct (zlen _ =? 0) eqn:E; bool_to_prop.
    { apply zlen_zero_inv in E. rewrite E in Hd. discriminate Hd. }
    unfold bind. destruct (decode_structure_with_bitset _ _ _ _ _) as [r s]. cbn [fst] in Hd. rewrite Hd.
    unfold ret. cbn [fst bind_outcome]. now rewrite <- tree_structure.
Qed.

Lemma data_response_roundtrip_witness :
  let p := Enum (mkEnum 1 [str "off"; str "on"] default_alarm (mkTimeStamp 1700000000 5 0)) in
  exists op, decode_bytes (encode_op_data_response_payload (0, 0) 10 7 p 2 true ++ []) = Ok (Op op) /\
    decode_with_field_desc op (nt_payload_desc p) true Strict = Ok (set_decoded (to_decoded (of_payload (0, 0) p)) op).
Proof.
  apply (data_response_roundtrip (0, 0) 10 7
           (Enum (mkEnum 1 [str "off"; str "on"] default_alarm (mkTimeStamp 1700000000 5 0))) 2 true []);
    try reflexivity; vm_compute; discriminate.
Defined.

End DataFrames.
