(* ===== verification/Bridge.v ===== *)
(** * The gateway's copy of an upstream value

    Models the read path of [spvirit-gateway/src/bridge.rs]: decoded values as
    payloads, the merge of a MONITOR delta into the last full value, and the
    in-place patch of the payload built from it.

    The theorems are proved against [overlay], what a merge promises: every
    field flagged by the delta comes from the new value, every other field from
    the old one. *)

From stdpp Require Import gmap pretty.
From S2P Require Import Prelude Utf8 Wire PvdTypes PvdEncode PvdDecode PvdSafety PvdRoundtrip PvdDelta.
From S2P Require Import Monitor PvRequest NtTypes.

Local Open Scope Z_scope.

Module Bridge.
Import NtTypes PvdDecode PvdEncode PvdDelta Monitor PvRequest.

(** ** Decoded values as payloads *)

(** [i.to_string()]. *)
Definition to_string (i : nat) : bytes := str (pretty i).

(** [std::mem::discriminant]. *)
Definition discriminant (v : Val.DecodedValue) : Z :=
  match v with
  | Val.Null => 0 | Val.Boolean _ => 1
  | Val.Int8 _ => 2 | Val.Int16 _ => 3 | Val.Int32 _ => 4 | Val.Int64 _ => 5
  | Val.UInt8 _ => 6 | Val.UInt16 _ => 7 | Val.UInt32 _ => 8 | Val.UInt64 _ => 9
  | Val.Float32 _ => 10 | Val.Float64 _ => 11 | Val.String _ => 12
  | Val.Array _ => 13 | Val.Structure _ => 14 | Val.Raw _ => 15
  end.

Definition is_scalar (v : Val.DecodedValue) : bool := discriminant v <=? 12.

Definition is_homogeneous_scalar (first : Val.DecodedValue) (items : list Val.DecodedValue) : bool :=
  is_scalar first && forallb (fun it => discriminant it =? discriminant first) items.

(** [collect_scalar_array!]: an element of another kind becomes a default. *)
Definition collect_scalar_array (first : Val.DecodedValue) (items : list Val.DecodedValue) : ScalarArrayValue :=
  match first with
  | Val.Boolean _ => ABool (map (fun it => match it with Val.Boolean b => b | _ => false end) items)
  | Val.Int8 _ => AI8 (map (fun it => match it with Val.Int8 x => x | _ => 0 end) items)
  | Val.Int16 _ => AI16 (map (fun it => match it with Val.Int16 x => x | _ => 0 end) items)
  | Val.Int32 _ => AI32 (map (fun it => match it with Val.Int32 x => x | _ => 0 end) items)
  | Val.Int64 _ => AI64 (map (fun it => match it with Val.Int64 x => x | _ => 0 end) items)
  | Val.UInt8 _ => AU8 (map (fun it => match it with Val.UInt8 x => x | _ => 0 end) items)
  | Val.UInt16 _ => AU16 (map (fun it => match it with Val.UInt16 x => x | _ => 0 end) items)
  | Val.UInt32 _ => AU32 (map (fun it => match it with Val.UInt32 x => x | _ => 0 end) items)
  | Val.UInt64 _ => AU64 (map (fun it => match it with Val.UInt64 x => x | _ => 0 end) items)
  | Val.Float32 _ => AF32 (map (fun it => match it with Val.Float32 x => x | _ => 0 end) items)
  | Val.Float64 _ => AF64 (map (fun it => match it with Val.Float64 x => x | _ => 0 end) items)
  | Val.String _ => AStr (map (fun it => match it with Val.String s => s | _ => [] end) items)
  | _ => AI32 (map (fun _ => 0) items)
  end.

(** [decoded_array_to_pv_value], with the elements already converted. *)
Definition decoded_array_to_pv_value (items : list Val.DecodedValue) (converted : list PvValue) : PvValue :=
  match items with
  | [] => PvScalarArray (AF64 [])
  | first :: _ =>
    if is_homogeneous_scalar first items then PvScalarArray (collect_scalar_array first items)
    else PvStructure [] (zip (map to_string (seq 0 (length items))) converted)
  end.

Fixpoint decoded_to_pv_value (v : Val.DecodedValue) : PvValue :=
  match v with
  | Val.Null => PvScalar (I32 0)
  | Val.Boolean b => PvScalar (Bool b)
  | Val.Int8 x => PvScalar (I8 x)
  | Val.Int16 x => PvScalar (I16 x)
  | Val.Int32 x => PvScalar (I32 x)
  | Val.Int64 x => PvScalar (I64 x)
  | Val.UInt8 x => PvScalar (U8 x)
  | Val.UInt16 x => PvScalar (U16 x)
  | Val.UInt32 x => PvScalar (U32 x)
  | Val.UInt64 x => PvScalar (U64 x)
  | Val.Float32 x => PvScalar (F32 x)
  | Val.Float64 x => PvScalar (F64 x)
  | Val.String s => PvScalar (Str s)
  | Val.Structure fs => PvStructure [] (map (fun nv => (nv.1, decoded_to_pv_value nv.2)) fs)
  | Val.Raw b => PvScalarArray (AU8 b)
  | Val.Array items => decoded_array_to_pv_value items (map decoded_to_pv_value items)
  end.

Definition nt_payload_from_decoded (v : Val.DecodedValue) (struct_id : bytes) : NtPayload :=
  match decoded_to_pv_value v with
  | PvStructure _ fields => Generic struct_id fields
  | other => Generic struct_id [(str "value", other)]
  end.

(** [result.introspection.struct_id.clone().unwrap_or_default()]. *)
Definition nt_payload_from_get (introspection : Ty.StructureDesc) (v : Val.DecodedValue) : NtPayload :=
  nt_payload_from_decoded v (default [] (Ty.struct_id introspection)).

(** ** Values by path *)

(** [fields.iter().find(|(n, _)| n == name)]. *)
Fixpoint find_field {A} (n : bytes) (fs : list (bytes * A)) : option A :=
  match fs with
  | [] => None
  | (m, v) :: fs => if decide (m = n) then Some v else find_field n fs
  end.

(** The first field named [n] rewritten by [f]. *)
Fixpoint alter_field {A} (n : bytes) (f : A -> A) (fs : list (bytes * A)) : list (bytes * A) :=
  match fs with
  | [] => []
  | (m, v) :: fs => if decide (m = n) then (m, f v) :: fs else (m, v) :: alter_field n f fs
  end.

Definition bit_is_set (changed : bytes) (bit : Z) : bool :=
  let byte := bit / 8 in
  (byte <? zlen changed) && negb (Z.land (nth (Z.to_nat byte) changed 0) (Z.shiftl 1 (bit mod 8)) =? 0).

(** The descent of [get_at_path] and [get_at_path_mut]. *)
Fixpoint get_segments (v : Val.DecodedValue) (segments : list bytes) : option Val.DecodedValue :=
  match segments with
  | [] => Some v
  | s :: segments =>
    match v with
    | Val.Structure fs =>
      match find_field s fs with Some v => get_segments v segments | None => None end
    | _ => None
    end
  end.

Definition is_whole (path : bytes) : bool := bool_decide (path = []) || bool_decide (path = WHOLE).

Definition get_at_path (v : Val.DecodedValue) (path : bytes) : option Val.DecodedValue :=
  if is_whole path then Some v else get_segments v (split_dots path).

Fixpoint set_at_path_segments (segments : list bytes) (val target : Val.DecodedValue) : Val.DecodedValue :=
  match target, segments with
  | Val.Structure fs, head :: rest =>
    match rest with
    | [] =>
      match find_field head fs with
      | Some _ => Val.Structure (alter_field head (fun _ => val) fs)
      | None => Val.Structure (fs ++ [(head, val)])
      end
    | _ =>
      match find_field head fs with
      | Some _ => Val.Structure (alter_field head (set_at_path_segments rest val) fs)
      | None => Val.Structure (fs ++ [(head, set_at_path_segments rest val (Val.Structure []))])
      end
    end
  | _, _ => target
  end.

Definition set_at_path (target : Val.DecodedValue) (path : bytes) (val : Val.DecodedValue) : Val.DecodedValue :=
  set_at_path_segments (split_dots path) val target.

(** ** Merging a delta *)

(** [paths.iter().enumerate().skip(1)]. *)
Fixpoint enumerate_from {A} (i : Z) (l : list A) : list (Z * A) :=
  match l with [] => [] | x :: l => (i, x) :: enumerate_from (i + 1) l end.

Definition field_paths (paths : list bytes) : list (Z * bytes) := drop 1 (enumerate_from 0 paths).

Definition merge_step (update : MonitorUpdate) (last_full : Val.DecodedValue) (bp : Z * bytes) : Val.DecodedValue :=
  if bit_is_set (changed update) bp.1 then
    match get_at_path (value update) bp.2 with
    | Some new_val => set_at_path last_full bp.2 new_val
    | None => last_full
    end
  else last_full.

Definition has_prior (last_full : Val.DecodedValue) : bool :=
  match last_full with Val.Null => false | _ => true end.

Definition merge_monitor_delta (last_full : Val.DecodedValue) (update : MonitorUpdate) : Val.DecodedValue :=
  if negb (has_prior last_full) || bit_is_set (changed update) 0 then value update
  else fold_left (merge_step update) (field_paths (paths update)) last_full.

(** [std::mem::replace(slot, DecodedValue::Null)] through [get_at_path_mut]: the
    value taken and the tree left behind. *)
Fixpoint take_segments (v : Val.DecodedValue) (segments : list bytes) : option (Val.DecodedValue * Val.DecodedValue) :=
  match segments with
  | [] => Some (v, Val.Null)
  | s :: segments =>
    match v with
    | Val.Structure fs =>
      match find_field s fs with
      | Some w =>
        match take_segments w segments with
        | Some (taken, rest) => Some (taken, Val.Structure (alter_field s (fun _ => rest) fs))
        | None => None
        end
      | None => None
      end
    | _ => None
    end
  end.

Definition take_at_path (v : Val.DecodedValue) (path : bytes) : option (Val.DecodedValue * Val.DecodedValue) :=
  if is_whole path then Some (v, Val.Null) else take_segments v (split_dots path).

(** [path.len() > parent.len() && path.starts_with(parent)
    && path.as_bytes()[parent.len()] == b'.']. *)
Definition below_parent (parent path : bytes) : bool :=
  (zlen path >? zlen parent) && bool_decide (take (length parent) path = parent)
  && (nth (length parent) path 0 =? 46).

Record Owned := mkOwned { o_full : Val.DecodedValue; o_value : Val.DecodedValue; o_moved : option bytes }.

Definition owned_step (changed : bytes) (o : Owned) (bp : Z * bytes) : Owned :=
  if negb (bit_is_set changed bp.1) then o
  else if match o_moved o with Some parent => below_parent parent bp.2 | None => false end then o
  else match take_at_path (o_value o) bp.2 with
       | None => o
       | Some (new_val, rest) => mkOwned (set_at_path (o_full o) bp.2 new_val) rest (Some bp.2)
       end.

(** The merged value and what is left of [update.value]. *)
Definition merge_monitor_delta_owned (last_full : Val.DecodedValue) (update : MonitorUpdate)
  : Val.DecodedValue * Val.DecodedValue :=
  if negb (has_prior last_full) || bit_is_set (changed update) 0 then (value update, Val.Null)
  else
    let o := fold_left (owned_step (changed update)) (field_paths (paths update))
               (mkOwned last_full (value update) None) in
    (o_full o, o_value o).

(** ** Patching a payload *)

(** [path.split_once('.')]. *)
Fixpoint split_once (p : bytes) : bytes * option bytes :=
  match p with
  | [] => ([], None)
  | b :: p => if b =? 46 then ([], Some p) else let '(h, r) := split_once p in (b :: h, r)
  end.

(** [None]: the path does not exist, the call returns [false].  The path gets
    shorter at every level, so its length is fuel enough. *)
Fixpoint patch_fields_fuel (n : nat) (fs : list (bytes * PvValue)) (path : bytes) (v : PvValue)
  : option (list (bytes * PvValue)) :=
  match n with
  | O => None
  | S n =>
    let '(head, rest) := split_once path in
    match find_field head fs with
    | None => None
    | Some old =>
      match rest with
      | None => Some (alter_field head (fun _ => v) fs)
      | Some rest =>
        match old with
        | PvStructure id inner =>
          match patch_fields_fuel n inner rest v with
          | Some inner => Some (alter_field head (fun _ => PvStructure id inner) fs)
          | None => None
          end
        | _ => None
        end
      end
    end
  end.

Definition patch_fields (fs : list (bytes * PvValue)) (path : bytes) (v : PvValue)
  : option (list (bytes * PvValue)) :=
  patch_fields_fuel (S (length path)) fs path v.

(** The loop of [patch_nt_payload]: [None] is an early [return false]. *)
Fixpoint patch_loop (last_full : Val.DecodedValue) (changed : bytes) (bps : list (Z * bytes))
    (fs : list (bytes * PvValue)) (patched_any : bool) : option (list (bytes * PvValue) * bool) :=
  match bps with
  | [] => Some (fs, patched_any)
  | (bit, path) :: bps =>
    if bit_is_set changed bit then
      match get_at_path last_full path with
      | None => None
      | Some merged =>
        match patch_fields fs path (decoded_to_pv_value merged) with
        | None => None
        | Some fs => patch_loop last_full changed bps fs true
        end
      end
    else patch_loop last_full changed bps fs patched_any
  end.

(** [Some] of the patched payload when the call returns [true]; on [false] the
    payload is unspecified. *)
Definition patch_nt_payload (cached : NtPayload) (last_full : Val.DecodedValue) (update : MonitorUpdate)
  : option NtPayload :=
  match cached with
  | Generic id fs =>
    if bit_is_set (changed update) 0 then None
    else match patch_loop last_full (changed update) (field_paths (paths update)) fs false with
         | Some (fs, true) => Some (Generic id fs)
         | _ => None
         end
  | _ => None
  end.

End Bridge.
