(* ===== verification/BridgeMerge.v ===== *)
(** * What a merge promises

    The abstract counterpart of [Bridge]: [overlay] takes the fields flagged by
    a delta from the new value and every other field from the old one.  A tree
    type that can write at a path ([Tree]) carries the proof once, for decoded
    values (the merge) and for payload values (the patch). *)

From stdpp Require Import gmap.
From S2P Require Import Prelude Utf8 Wire PvdTypes PvdEncode PvdDecode PvdSafety PvdRoundtrip PvdDelta.
From S2P Require Import Monitor PvRequest NtTypes Bridge.

Local Open Scope Z_scope.

Module BridgeMerge.
Import NtTypes PvdDecode PvdEncode PvdDelta Monitor PvRequest Bridge.

(** ** Descriptors and values *)

Definition part_okb (n : bytes) : bool :=
  bool_decide (n <> []) && bool_decide (46 ∉ n) && bool_decide (n <> WHOLE).

(** Field names are distinct in every structure, not empty and without dots. *)
Fixpoint names_ok (d : Ty.StructureDesc) : bool :=
  match d with
  | Ty.mkStruct _ fs =>
    bool_decide (NoDup (map Ty.name fs))
    && forallb (fun f => part_okb (Ty.name f)
         && match Ty.field_type f with Ty.Structure n => names_ok n | _ => true end) fs
  end.

Section Shape.
Context (nested : Ty.StructureDesc -> entries -> bool).

Fixpoint shaped_fields (fs : list Ty.FieldDesc) (vs : entries) : bool :=
  match fs, vs with
  | [], [] => true
  | f :: fs, nv :: vs =>
    bool_decide (Ty.name f = nv.1)
    && match Ty.field_type f with
       | Ty.Structure n => match nv.2 with Val.Structure sub => nested n sub | _ => false end
       | _ => true
       end
    && shaped_fields fs vs
  | _, _ => false
  end.
End Shape.

(** [vs] has the fields of the descriptor, in order, at every level. *)
Fixpoint shaped (d : Ty.StructureDesc) (vs : entries) : bool :=
  match d with Ty.mkStruct _ fs => shaped_fields shaped fs vs end.

(** Bits of the fields with their paths, in bit order. *)
Section Entries.
Context (nested : Ty.StructureDesc -> Z -> list (Z * list bytes)).

Definition prefixed (n : bytes) (e : Z * list bytes) : Z * list bytes := (e.1, n :: e.2).

Fixpoint field_entries (fs : list Ty.FieldDesc) (bit : Z) : list (Z * list bytes) :=
  match fs with
  | [] => []
  | f :: fs =>
    (bit, [Ty.name f])
    :: match Ty.field_type f with
       | Ty.Structure n =>
         map (prefixed (Ty.name f)) (nested n (bit + 1))
         ++ field_entries fs (bit + 1 + Ty.count_structure_fields n)
       | _ => field_entries fs (bit + 1)
       end
  end.
End Entries.

Fixpoint path_entries (d : Ty.StructureDesc) (bit : Z) : list (Z * list bytes) :=
  match d with Ty.mkStruct _ fs => field_entries path_entries fs bit end.

Section Changed.
Context (changed : bytes).

(** A structure bit is set only when no bit below it is. *)
Section Normal.
Context (nested : Ty.StructureDesc -> Z -> bool).

Fixpoint normal_fields (fs : list Ty.FieldDesc) (bit : Z) : bool :=
  match fs with
  | [] => true
  | f :: fs =>
    match Ty.field_type f with
    | Ty.Structure n =>
      negb (bit_set changed bit && any_bit_set changed (bit + 1) (Z.to_nat (Ty.count_structure_fields n)))
      && nested n (bit + 1) && normal_fields fs (bit + 1 + Ty.count_structure_fields n)
    | _ => normal_fields fs (bit + 1)
    end
  end.
End Normal.

Fixpoint normal (d : Ty.StructureDesc) (bit : Z) : bool :=
  match d with Ty.mkStruct _ fs => normal_fields normal fs bit end.

Section Overlay.
Context (nested : Ty.StructureDesc -> entries -> entries -> Z -> entries).

Definition overlay_structure (n : Ty.StructureDesc) (prev next : Val.DecodedValue) (bit : Z) : Val.DecodedValue :=
  if any_bit_set changed (bit + 1) (Z.to_nat (Ty.count_structure_fields n)) then
    match prev, next with
    | Val.Structure p, Val.Structure q => Val.Structure (nested n p q (bit + 1))
    | _, _ => prev
    end
  else if bit_set changed bit then next else prev.

Fixpoint overlay_fields (fs : list Ty.FieldDesc) (prev next : entries) (bit : Z) : entries :=
  match fs, prev, next with
  | f :: fs, p :: prev, q :: next =>
    match Ty.field_type f with
    | Ty.Structure n =>
      (Ty.name f, overlay_structure n p.2 q.2 bit)
      :: overlay_fields fs prev next (bit + 1 + Ty.count_structure_fields n)
    | _ =>
      (Ty.name f, if bit_set changed bit then q.2 else p.2) :: overlay_fields fs prev next (bit + 1)
    end
  | _, _, _ => []
  end.
End Overlay.

Fixpoint overlay (d : Ty.StructureDesc) (prev next : entries) (bit : Z) : entries :=
  match d with Ty.mkStruct _ fs => overlay_fields overlay fs prev next bit end.

(** Writing the flagged entries, in bit order, with the values of [read]. *)
Fixpoint run {T} (upd : list bytes -> T -> T -> option T) (l : list (Z * list bytes))
    (read : list bytes -> option T) (t : T) : option T :=
  match l with
  | [] => Some t
  | (bit, p) :: l =>
    if bit_set changed bit then
      match read p with
      | Some v => match upd p v t with Some t => run upd l read t | None => None end
      | None => None
      end
    else run upd l read t
  end.

End Changed.

(** ** Lists of fields *)

Lemma find_field_app {A} n (a b : list (bytes * A)) :
  n ∉ map fst a -> find_field n (a ++ b) = find_field n b.
Proof.
  induction a as [|[m v] a IH]; [done|]. cbn. intros [H1 H2]%not_elem_of_cons.
  rewrite decide_False by congruence. auto.
Qed.

Lemma find_field_here {A} n (v : A) a b :
  n ∉ map fst a -> find_field n (a ++ (n, v) :: b) = Some v.
Proof. intros H. rewrite find_field_app by done. cbn. now rewrite decide_True. Qed.

Lemma find_field_none {A} n (a : list (bytes * A)) : n ∉ map fst a -> find_field n a = None.
Proof. intros H. rewrite <- (app_nil_r a), find_field_app by done. done. Qed.

Lemma alter_field_here {A} n f (v : A) a b :
  n ∉ map fst a -> alter_field n f (a ++ (n, v) :: b) = a ++ (n, f v) :: b.
Proof.
  induction a as [|[m w] a IH]; cbn; [now rewrite decide_True|].
  intros [H1 H2]%not_elem_of_cons. rewrite decide_False by congruence. now rewrite IH.
Qed.

Lemma map_fst_conv {A B} (f : A -> B) (l : list (bytes * A)) :
  map fst (map (fun nv => (nv.1, f nv.2)) l) = map fst l.
Proof. induction l; cbn; congruence. Qed.

(** ** Bits below a structure *)

Lemma any_bit_set_false changed : forall n start k,
  any_bit_set changed start n = false -> start <= k < start + Z.of_nat n -> bit_set changed k = false.
Proof.
  induction n as [|n IH]; intros start k H Hk; cbn in *; [lia|].
  apply orb_false_iff in H as [H1 H2]. destruct (Z.eq_dec k start) as [->|]; [done|].
  eapply IH; [exact H2|lia].
Qed.

Lemma entries_range d : forall bit,
  Forall (fun e => bit <= e.1 < bit + Ty.count_structure_fields d /\ e.2 <> []) (path_entries d bit).
Proof.
  induction d as [[i fs] IH] using Ty.StructureDesc_nested_ind. cbn in *.
  induction IH as [|f fs Hf _ IHfs]; intros bit; cbn; [constructor|].
  pose proof (Ty.count_structure_fields_nonneg (Ty.mkStruct i fs)) as Hfs. cbn in Hfs.
  assert (0 <= match Ty.field_type f with Ty.Structure n => Ty.count_structure_fields n | _ => 0 end)
    by (destruct (Ty.field_type f); try done; apply Ty.count_structure_fields_nonneg).
  assert (forall k, bit + 1 <= k -> k + (Ty.count_structure_fields (Ty.mkStruct i fs)) <= 
     bit + Ty.count_structure_fields (Ty.mkStruct i (f :: fs)) ->
     Forall (fun e => bit <= e.1 < bit + Ty.count_structure_fields (Ty.mkStruct i (f :: fs)) /\ e.2 <> [])
      (field_entries path_entries fs k)) as Hrest.
  { intros k H1 H2. eapply Forall_impl; [apply IHfs|]. cbn in *. intros e [? ?]. split; [lia|done]. }
  cbn in *. constructor; [split; [cbn; lia|done]|].
  destruct (Ty.field_type f) as [| | | |n| | | | | |]; try (apply Hrest; lia).
  apply Forall_app. split; [|apply Hrest; lia]. apply Forall_map.
  eapply Forall_impl; [apply Hf|]. cbn. intros e [? ?]. split; [lia|done].
Qed.

Lemma entries_unset changed n bit :
  any_bit_set changed bit (Z.to_nat (Ty.count_structure_fields n)) = false ->
  Forall (fun e => bit_set changed e.1 = false) (path_entries n bit).
Proof.
  intros H. pose proof (Ty.count_structure_fields_nonneg n).
  eapply Forall_impl; [apply entries_range|]. cbn. intros e [? _].
  eapply any_bit_set_false; [exact H|lia].
Qed.

(** ** Trees that are written at a path *)

Class Tree (T : Type) := {
  node : list (bytes * T) -> T;
  upd : list bytes -> T -> T -> option T;
  upd_here : forall n v old pre post, n ∉ map fst pre ->
    upd [n] v (node (pre ++ (n, old) :: post)) = Some (node (pre ++ (n, v) :: post));
  upd_below : forall n p v old new pre post, n ∉ map fst pre -> p <> [] -> upd p v old = Some new ->
    upd (n :: p) v (node (pre ++ (n, old) :: post)) = Some (node (pre ++ (n, new) :: post));
}.

Section Run.
Context {T : Type} `{!Tree T} (conv : Val.DecodedValue -> T) (changed : bytes).
Hypothesis conv_node : forall fs, conv (Val.Structure fs) = node (map (fun nv => (nv.1, conv nv.2)) fs).

Abbreviation cmap := (map (fun nv : bytes * Val.DecodedValue => (nv.1, conv nv.2))).
Abbreviation run' := (run changed upd).

Lemma run_app l k read t :
  run' (l ++ k) read t = match run' l read t with Some t => run' k read t | None => None end.
Proof.
  revert t. induction l as [|[bit p] l IH]; intros t; cbn; [done|].
  destruct (bit_set changed bit); [|apply IH]. destruct (read p); [|done]. destruct (upd p _ _); [|done]. apply IH.
Qed.

(** Writes below one field stay in that field. *)
Lemma run_prefixed n l read pre post : forall old new,
  n ∉ map fst pre -> Forall (fun e => e.2 <> []) l ->
  run' l (fun p => read (n :: p)) old = Some new ->
  run' (map (prefixed n) l) read (node (pre ++ (n, old) :: post)) = Some (node (pre ++ (n, new) :: post)).
Proof.
  induction l as [|[bit p] l IH]; intros old new Hn Hl Hr; cbn in *; [congruence|].
  apply Forall_cons in Hl as [Hp Hl]. cbn in Hp. destruct (bit_set changed bit); [|auto].
  destruct (read (n :: p)) as [v|]; [|done]. destruct (upd p v old) as [mid|] eqn:E; [|done].
  erewrite upd_below by eauto. auto.
Qed.

Lemma run_unset l read t : Forall (fun e => bit_set changed e.1 = false) l -> run' l read t = Some t.
Proof. induction 1 as [|[bit p] l H _ IH]; cbn in *; [done|]. now rewrite H. Qed.

(** [read] delivers the flagged values of [vs]. *)
Definition delivers (l : list (Z * list bytes)) (read : list bytes -> option T) (vs : entries) : Prop :=
  forall bit p, (bit, p) ∈ l -> bit_set changed bit = true ->
    exists v, get_segments (Val.Structure vs) p = Some v /\ read p = Some (conv v).

Definition overlays (d : Ty.StructureDesc) : Prop :=
  forall prev next bit read,
    names_ok d = true -> shaped d prev = true -> shaped d next = true -> normal changed d bit = true ->
    delivers (path_entries d bit) read next ->
    run' (path_entries d bit) read (conv (Val.Structure prev))
    = Some (conv (Val.Structure (overlay changed d prev next bit))).

Lemma get_here n (v : Val.DecodedValue) pre post p :
  n ∉ map fst pre -> get_segments (Val.Structure (pre ++ (n, v) :: post)) (n :: p) = get_segments v p.
Proof. intros H. cbn. now rewrite find_field_here. Qed.

(** One field: its own bit, then the bits below it. *)
Lemma run_leaf n bit p q read pre post npre npost :
  n ∉ map fst pre -> n ∉ map fst npre -> delivers [(bit, [n])] read (npre ++ (n, q) :: npost) ->
  run' [(bit, [n])] read (node (pre ++ (n, conv p) :: post))
  = Some (node (pre ++ (n, conv (if bit_set changed bit then q else p)) :: post)).
Proof.
  intros Hn Hq Hd. cbn. destruct (bit_set changed bit) eqn:E; [|done].
  destruct (Hd bit [n]) as (v & Hv & ->); [by constructor|done|].
  rewrite get_here in Hv by done. injection Hv as <-. now rewrite upd_here.
Qed.

Lemma run_nested nm n bit ps qs read pre post npre npost :
  overlays n -> names_ok n = true -> shaped n ps = true -> shaped n qs = true ->
  negb (bit_set changed bit && any_bit_set changed (bit + 1) (Z.to_nat (Ty.count_structure_fields n))) = true ->
  normal changed n (bit + 1) = true ->
  nm ∉ map fst pre -> nm ∉ map fst npre ->
  delivers ((bit, [nm]) :: map (prefixed nm) (path_entries n (bit + 1))) read
    (npre ++ (nm, Val.Structure qs) :: npost) ->
  run' ((bit, [nm]) :: map (prefixed nm) (path_entries n (bit + 1))) read
    (node (pre ++ (nm, conv (Val.Structure ps)) :: post))
  = Some (node (pre ++ (nm, conv (overlay_structure changed (overlay changed) n (Val.Structure ps)
                                    (Val.Structure qs) bit)) :: post)).
Proof.
  intros IH Hnm Hp Hq Hb Hnorm Hpre Hnpre Hd. unfold overlay_structure.
  change ((bit, [nm]) :: map (prefixed nm) (path_entries n (bit + 1)))
    with ([(bit, [nm])] ++ map (prefixed nm) (path_entries n (bit + 1))).
  rewrite run_app, (run_leaf nm bit _ (Val.Structure qs) read pre post npre npost) by
    (done || (intros b p Hin; apply Hd; apply list_elem_of_singleton in Hin; rewrite Hin; constructor)).
  destruct (any_bit_set changed (bit + 1) _) eqn:Eany.
  - rewrite andb_true_r in Hb. apply negb_true_iff in Hb. rewrite Hb.
    apply run_prefixed; [done| |].
    { eapply Forall_impl; [apply entries_range|]. cbn. tauto. }
    apply IH; try done. intros b p Hin Hset.
    destruct (Hd b (nm :: p)) as (v & Hv & Hr); [|done|].
    { right. apply list_elem_of_fmap. now exists (b, p). }
    rewrite get_here in Hv by done. eauto.
  - destruct (bit_set changed bit); (apply run_unset; apply Forall_map, entries_unset, Eany).
Qed.

Lemma delivers_app l k read vs : delivers (l ++ k) read vs <-> delivers l read vs /\ delivers k read vs.
Proof.
  unfold delivers. setoid_rewrite elem_of_app. split; [|intros [H1 H2] bit p [H|H]; eauto].
  intros H. split; eauto.
Qed.

(** What the fields after the first still have to do. *)
Lemma run_cons f fs l k read pv qv prev next bit pre npre v :
  run' l read (node (pre ++ (Ty.name f, conv pv) :: cmap prev))
    = Some (node (pre ++ (Ty.name f, conv v) :: cmap prev)) ->
  (forall pre npre, Forall (fun g => Ty.name g ∉ map fst pre /\ Ty.name g ∉ map fst npre) fs ->
     delivers k read (npre ++ next) ->
     run' k read (node (pre ++ cmap prev))
     = Some (node (pre ++ cmap (overlay_fields changed (overlay changed) fs prev next bit)))) ->
  delivers k read (npre ++ (Ty.name f, qv) :: next) ->
  NoDup (map Ty.name (f :: fs)) ->
  Forall (fun g => Ty.name g ∉ map fst pre /\ Ty.name g ∉ map fst npre) (f :: fs) ->
  run' (l ++ k) read (node (pre ++ (Ty.name f, conv pv) :: cmap prev))
  = Some (node (pre ++ (Ty.name f, conv v)
                  :: cmap (overlay_fields changed (overlay changed) fs prev next bit))).
Proof.
  intros Hl Hk Hd Hnd Hout. rewrite run_app, Hl.
  change ((Ty.name f, conv v) :: cmap prev) with ([(Ty.name f, conv v)] ++ cmap prev).
  rewrite app_assoc, (Hk _ (npre ++ [(Ty.name f, qv)])); rewrite <- ?app_assoc; [done| |done].
  apply NoDup_cons in Hnd as [Hf _]. apply Forall_cons in Hout as [_ Hout].
  rewrite Forall_forall in *. intros g Hg. rewrite !map_app, !not_elem_of_app. cbn.
  assert (Ty.name g <> Ty.name f) by (intros E; apply Hf; rewrite <- E; now apply list_elem_of_fmap_2).
  destruct (Hout g Hg). rewrite !list_elem_of_singleton. done.
Qed.

Lemma run_fields fs :
  Forall (fun f => match Ty.field_type f with Ty.Structure n => overlays n | _ => True end) fs ->
  forall prev next bit read pre npre,
    NoDup (map Ty.name fs) ->
    forallb (fun f => part_okb (Ty.name f)
       && match Ty.field_type f with Ty.Structure n => names_ok n | _ => true end) fs = true ->
    shaped_fields shaped fs prev = true -> shaped_fields shaped fs next = true ->
    normal_fields changed (normal changed) fs bit = true ->
    Forall (fun g => Ty.name g ∉ map fst pre /\ Ty.name g ∉ map fst npre) fs ->
    delivers (field_entries path_entries fs bit) read (npre ++ next) ->
    run' (field_entries path_entries fs bit) read (node (pre ++ cmap prev))
    = Some (node (pre ++ cmap (overlay_fields changed (overlay changed) fs prev next bit))).
Proof.
  induction 1 as [|f fs Hf _ IH]; intros prev next bit read pre npre Hnd Hnm Hp Hq Hb Hout Hd.
  { destruct prev; [done|discriminate]. }
  destruct prev as [|[pn pv] prev], next as [|[qn qv] next]; try discriminate.
  cbn [shaped_fields forallb normal_fields fst snd] in *.
  apply andb_true_iff in Hp as [[<-%bool_decide_eq_true Hpv]%andb_true_iff Hp].
  apply andb_true_iff in Hq as [[<-%bool_decide_eq_true Hqv]%andb_true_iff Hq].
  apply andb_true_iff in Hnm as [[_ Hsub]%andb_true_iff Hnm].
  pose proof Hnd as [_ Hnd']%NoDup_cons. pose proof Hout as [[Hpre Hnpre] _]%Forall_cons.
  assert (forall l k v b,
    run' l read (node (pre ++ (Ty.name f, conv pv) :: cmap prev))
      = Some (node (pre ++ (Ty.name f, conv v) :: cmap prev)) ->
    k = field_entries path_entries fs b ->
    normal_fields changed (normal changed) fs b = true ->
    delivers k read (npre ++ (Ty.name f, qv) :: next) ->
    run' (l ++ k) read (node (pre ++ (Ty.name f, conv pv) :: cmap prev))
    = Some (node (pre ++ (Ty.name f, conv v)
                    :: cmap (overlay_fields changed (overlay changed) fs prev next b)))) as step.
  { intros l k v b Hl -> Hb' Hk. apply (run_cons f fs l _ read pv qv prev next b pre npre v); auto.
    intros pre' npre' Ho Hdel. now apply (IH prev next b read pre' npre'). }
  cbn [field_entries overlay_fields map fst snd] in *.
  destruct (Ty.field_type f) as [| | | |n| | | | | |];
    try (change ((bit, [Ty.name f]) :: field_entries path_entries fs (bit + 1))
           with ([(bit, [Ty.name f])] ++ field_entries path_entries fs (bit + 1)) in *;
         apply delivers_app in Hd as [Hd1 Hd2]; apply (step _ _ _ (bit + 1)); [|done..];
         now apply (run_leaf _ _ _ qv read pre (cmap prev) npre next)).
  destruct pv as [| | | | | | | | | | | | | |ps|], qv as [| | | | | | | | | | | | | |qs|]; try discriminate.
  apply andb_true_iff in Hb as [[Hb1 Hb2]%andb_true_iff Hb3].
  rewrite app_comm_cons in *. apply delivers_app in Hd as [Hd1 Hd2].
  apply (step _ _ _ (bit + 1 + Ty.count_structure_fields n)); [|done..].
  now apply (run_nested _ _ _ _ qs read pre (cmap prev) npre next).
Qed.

Lemma run_overlay d : overlays d.
Proof.
  induction d as [[i fs] IH] using Ty.StructureDesc_nested_ind.
  intros prev next bit read Hnm Hp Hq Hb Hd. cbn in Hnm. apply andb_true_iff in Hnm as [Hnd%bool_decide_eq_true Hnm].
  rewrite !conv_node. apply (run_fields fs IH prev next bit read [] []); try done.
  apply Forall_true. intros g. split; apply not_elem_of_nil.
Qed.

End Run.

(** ** Where the flagged values can be read *)

Section Sources.
Context (changed : bytes).

(** The values of [next] that are flagged are found in [X]. *)
Abbreviation found l X next := (delivers id changed l (get_segments (Val.Structure X)) next).

Lemma entries_heads fs : forall bit,
  Forall (fun e => exists n p, e.2 = n :: p /\ n ∈ map Ty.name fs) (field_entries path_entries fs bit).
Proof.
  induction fs as [|f fs IH]; intros bit; cbn [field_entries]; [constructor|].
  assert (forall k, Forall (fun e : Z * list bytes => exists n p, e.2 = n :: p /\ n ∈ map Ty.name (f :: fs))
                      (field_entries path_entries fs k)) as Hrest.
  { intros k. eapply Forall_impl; [apply IH|]. cbn. intros e (n & p & -> & H). exists n, p. split; [done|]. now right. }
  constructor; [exists (Ty.name f), []; split; [done|]; constructor|].
  destruct (Ty.field_type f); auto. apply Forall_app. split; [|auto]. apply Forall_map, Forall_true.
  intros e. cbn. exists (Ty.name f), e.2. split; [done|]. constructor.
Qed.

(** A field ahead of the others does not hide them. *)
Lemma found_tail f fs bit x X qv next :
  NoDup (map Ty.name (f :: fs)) -> (forall n, n ∈ map fst x -> n = Ty.name f) ->
  found (field_entries path_entries fs bit) X next ->
  found (field_entries path_entries fs bit) (x ++ X) ((Ty.name f, qv) :: next).
Proof.
  intros [Hf _]%NoDup_cons Hx H b p Hin Hset. destruct (H b p Hin Hset) as (v & H1 & H2).
  pose proof (entries_heads fs bit) as Hh. rewrite Forall_forall in Hh.
  destruct (Hh (b, p) Hin) as (n & q & E & Hn). cbn in E. subst p.
  assert (n <> Ty.name f) by (intros ->; contradiction).
  exists v. cbn [get_segments find_field] in *. rewrite decide_False by congruence. split; [done|].
  rewrite find_field_app; [done|]. intros Hc. now apply Hx in Hc.
Qed.

Lemma found_leaf n bit x X q next :
  (bit_set changed bit = true -> find_field n (x ++ X) = Some q) ->
  found [(bit, [n])] (x ++ X) ((n, q) :: next).
Proof.
  intros H b p [= -> ->]%list_elem_of_singleton Hset. exists q. cbn. rewrite decide_True by done.
  now rewrite H.
Qed.

(** The bits below a structure field that is present in [X]. *)
Lemma found_nested n nested bit X sub qs next :
  (any_bit_set changed bit (Z.to_nat (Ty.count_structure_fields nested)) = true ->
   found (path_entries nested bit) sub qs /\
   (sub <> [] -> find_field n X = Some (Val.Structure sub))) ->
  found (map (prefixed n) (path_entries nested bit)) X ((n, Val.Structure qs) :: next).
Proof.
  intros H b p Hin Hset. apply list_elem_of_fmap in Hin as ([b' p'] & [= -> ->] & Hin).
  destruct (any_bit_set changed bit _) eqn:Eany.
  2: { pose proof (entries_unset changed nested bit Eany) as Hu. rewrite Forall_forall in Hu.
       specialize (Hu _ Hin). cbn in Hu. congruence. }
  destruct (H eq_refl) as [Hsub Hfind]. destruct (Hsub b' p' Hin Hset) as (v & H1 & H2).
  pose proof (entries_range nested bit) as Hr. rewrite Forall_forall in Hr. destruct (Hr _ Hin) as [_ Hne].
  exists v. cbn [get_segments find_field fst snd] in *. rewrite decide_True by done. split; [done|].
  rewrite Hfind; [done|]. intros ->. destruct p'; [done|]. discriminate.
Qed.
Lemma when_names (c : bool) (nm : bytes) (v : Val.DecodedValue) (n : bytes) :
  n ∈ map fst (if c then [(nm, v)] else []) -> n = nm.
Proof. destruct c; cbn; [now intros ->%list_elem_of_singleton|now intros ?%not_elem_of_nil]. Qed.

Lemma when_find (c : bool) (nm : bytes) (v : Val.DecodedValue) X :
  c = true -> find_field nm ((if c then [(nm, v)] else []) ++ X) = Some v.
Proof. intros ->. cbn. now rewrite decide_True. Qed.

(** A list whose first entries [x] belong to the field [f]. *)
Lemma found_cons f fs bit x X q next (H : NoDup (map Ty.name (f :: fs))) :
  q.1 = Ty.name f -> (forall n, n ∈ map fst x -> n = Ty.name f) ->
  (bit_set changed bit = true -> find_field (Ty.name f) (x ++ X) = Some q.2) ->
  match Ty.field_type f with
  | Ty.Structure n =>
    found (map (prefixed (Ty.name f)) (path_entries n (bit + 1))) (x ++ X) (q :: next) /\
    found (field_entries path_entries fs (bit + 1 + Ty.count_structure_fields n)) X next
  | _ => found (field_entries path_entries fs (bit + 1)) X next
  end ->
  found (field_entries path_entries (f :: fs) bit) (x ++ X) (q :: next).
Proof.
  destruct q as [qn qv]. cbn [fst snd]. intros -> Hx Hbit Hrest. cbn [field_entries].
  assert (forall l, found l (x ++ X) ((Ty.name f, qv) :: next) ->
                    found ((bit, [Ty.name f]) :: l) (x ++ X) ((Ty.name f, qv) :: next)) as Hcons.
  { intros l Hl. apply (delivers_app id changed [_]). split; [now apply found_leaf|done]. }
  apply Hcons. destruct (Ty.field_type f); try (now apply found_tail).
  destruct Hrest as [H1 H2]. apply delivers_app. split; [done|]. now apply found_tail.
Qed.

Lemma overlay_found d : forall prev next bit,
  names_ok d = true -> shaped d prev = true -> shaped d next = true -> normal changed d bit = true ->
  found (path_entries d bit) (overlay changed d prev next bit) next.
Proof.
  induction d as [[i fs] IH] using Ty.StructureDesc_nested_ind. cbn in *.
  induction IH as [|f fs Hf _ IHfs]; intros prev next bit Hnm Hp Hq Hb.
  { intros b p Hin. cbn in Hin. now apply not_elem_of_nil in Hin. }
  destruct prev as [|[pn pv] prev], next as [|[qn qv] next]; try discriminate.
  cbn [shaped_fields forallb normal_fields fst snd] in *.
  apply andb_true_iff in Hp as [[<-%bool_decide_eq_true Hpv]%andb_true_iff Hp].
  apply andb_true_iff in Hq as [[<-%bool_decide_eq_true Hqv]%andb_true_iff Hq].
  apply andb_true_iff in Hnm as [Hnd%bool_decide_eq_true [[_ Hsub]%andb_true_iff Hnm]%andb_true_iff].
  pose proof Hnd as [_ Hnd']%NoDup_cons.
  assert (forall b, normal_fields changed (normal changed) fs b = true ->
            found (field_entries path_entries fs b) (overlay_fields changed (overlay changed) fs prev next b) next) as Htail.
  { intros b Hb'. apply IHfs; try done. apply andb_true_iff. split; [|done]. now apply bool_decide_eq_true. }
  assert (forall v w b, (bit_set changed bit = true -> v = w) ->
    bit_set changed bit = true ->
    find_field (Ty.name f) ((Ty.name f, v) :: overlay_fields changed (overlay changed) fs prev next b) = Some w) as Hhead.
  { intros v w b Hv Hset. cbn. now rewrite decide_True, Hv. }
  assert (forall v n, n ∈ map fst [(Ty.name f, v : Val.DecodedValue)] -> n = Ty.name f) as Hx.
  { intros v n Hn. now apply list_elem_of_singleton in Hn. }
  cbn [overlay_fields].
  destruct (Ty.field_type f) as [| | | |n| | | | | |] eqn:Et;
    try (apply (found_cons f fs bit [_]); rewrite ?Et; [done|done|exact (Hx _)|intros Hs; rewrite Hs; now apply Hhead|auto]).
  destruct pv as [| | | | | | | | | | | | | |ps|], qv as [| | | | | | | | | | | | | |qs|]; try discriminate.
  apply andb_true_iff in Hb as [[Hb1 Hb2]%andb_true_iff Hb3].
  apply (found_cons f fs bit [_]); rewrite ?Et; [done|done|exact (Hx _)| |].
  - apply Hhead. intros Hset. unfold overlay_structure. rewrite Hset in *. cbn [andb] in Hb1.
    apply negb_true_iff in Hb1. now rewrite Hb1.
  - split; [|auto]. eapply found_nested. intros Hany. split; [now apply (Hf ps qs (bit + 1))|].
    intros _. cbn. rewrite decide_True by done. unfold overlay_structure. now rewrite Hany.
Qed.

Lemma select_found d : forall next bit,
  names_ok d = true -> shaped d next = true -> normal changed d bit = true ->
  found (path_entries d bit) (select_structure changed d next bit) next.
Proof.
  induction d as [[i fs] IH] using Ty.StructureDesc_nested_ind. cbn in *.
  induction IH as [|f fs Hf _ IHfs]; intros next bit Hnm Hq Hb.
  { intros b p Hin. cbn in Hin. now apply not_elem_of_nil in Hin. }
  destruct next as [|[qn qv] next]; try discriminate.
  cbn [shaped_fields forallb normal_fields fst snd] in *.
  apply andb_true_iff in Hq as [[<-%bool_decide_eq_true Hqv]%andb_true_iff Hq].
  apply andb_true_iff in Hnm as [Hnd%bool_decide_eq_true [[_ Hsub]%andb_true_iff Hnm]%andb_true_iff].
  pose proof Hnd as [_ Hnd']%NoDup_cons.
  assert (forall b, normal_fields changed (normal changed) fs b = true ->
            found (field_entries path_entries fs b) (select_fields changed (select_structure changed) fs next b) next) as Htail.
  { intros b Hb'. apply IHfs; try done. apply andb_true_iff. split; [|done]. now apply bool_decide_eq_true. }
  cbn [select_fields fst snd].
  destruct (Ty.field_type f) as [| | | |n| | | | | |] eqn:Et;
    try (apply found_cons; rewrite ?Et; [done|done|exact (when_names _ _ _)|now apply when_find|auto]).
  destruct qv as [| | | | | | | | | | | | | |qs|]; try discriminate.
  apply andb_true_iff in Hb as [[Hb1 Hb2]%andb_true_iff Hb3].
  apply found_cons; rewrite ?Et; [done|done|..]; unfold select_structure_field.
  - destruct (any_bit_set _ _ _); [|exact (when_names _ _ _)]. intros m Hm.
    destruct (select_structure _ _ _ _); cbn in Hm; [now apply not_elem_of_nil in Hm|].
    now apply list_elem_of_singleton in Hm.
  - intros Hset. rewrite Hset in *. cbn [andb] in Hb1. apply negb_true_iff in Hb1. rewrite Hb1. cbn.
    now rewrite decide_True.
  - split; [|auto]. apply (found_nested _ _ _ _ (select_structure changed n qs (bit + 1))). intros Hany.
    rewrite Hany. split; [now apply Hf|]. intros Hne. destruct (select_structure _ _ _ _); [done|]. cbn.
    now rewrite decide_True.
Qed.
End Sources.

(** ** The two trees *)

#[export, program] Instance decoded_tree : Tree Val.DecodedValue := {|
  node := Val.Structure;
  upd p v t := Some (set_at_path_segments p v t);
|}.
Next Obligation. intros n v old pre post H. cbn. now rewrite find_field_here, alter_field_here. Qed.
Next Obligation.
  intros n p v old new pre post H Hp [= <-]. cbn [set_at_path_segments].
  destruct p; [done|]. now rewrite find_field_here, alter_field_here.
Qed.

(** [patch_fields] by components. *)
Fixpoint patch_segments (fs : list (bytes * PvValue)) (p : list bytes) (v : PvValue)
  : option (list (bytes * PvValue)) :=
  match p with
  | [] => None
  | n :: p =>
    match find_field n fs with
    | None => None
    | Some old =>
      match p with
      | [] => Some (alter_field n (fun _ => v) fs)
      | _ =>
        match old with
        | PvStructure id inner =>
          match patch_segments inner p v with
          | Some inner => Some (alter_field n (fun _ => PvStructure id inner) fs)
          | None => None
          end
        | _ => None
        end
      end
    end
  end.

Definition patch_value (p : list bytes) (v t : PvValue) : option PvValue :=
  match t with PvStructure id fs => PvStructure id <$> patch_segments fs p v | _ => None end.

#[export, program] Instance payload_tree : Tree PvValue := {| node := PvStructure []; upd := patch_value |}.
Next Obligation. intros n v old pre post H. cbn. now rewrite find_field_here, alter_field_here. Qed.
Next Obligation.
  intros n p v old new pre post H Hp E. unfold patch_value in *. cbn [patch_segments].
  rewrite find_field_here by done. destruct p as [|m p]; [done|].
  destruct old as [| |id inner]; try done. cbn [fmap option_fmap option_map] in *.
  destruct (patch_segments inner (m :: p) v) as [inner'|]; [|done]. cbn in *. injection E as <-.
  now rewrite alter_field_here.
Qed.

(** ** Paths as text *)

Lemma part_okb_spec n : part_okb n = true -> part_ok n /\ n <> WHOLE.
Proof.
  unfold part_okb. intros [[H1 H2]%andb_true_iff H3]%andb_true_iff.
  rewrite bool_decide_eq_true in *. done.
Qed.

Definition parts_ok (p : list bytes) : Prop := p <> [] /\ Forall (fun n => part_okb n = true) p.

Lemma split_dots_join_from r : forall prefix,
  prefix <> [] -> Forall (fun n => part_okb n = true) r ->
  split_dots (join_parts r prefix) = split_dots prefix ++ r.
Proof.
  induction r as [|n r IH]; intros prefix Hp Hr; cbn [join_parts fold_left]; [now rewrite app_nil_r|].
  apply Forall_cons in Hr as [[[Hn Hd] _]%part_okb_spec Hr]. fold (join_parts r (join_path prefix n)).
  destruct prefix as [|x prefix]; [done|]. unfold join_path. rewrite IH by done.
  change (str "." ++ n) with (46 :: n). rewrite split_dots_app, (split_dots_part n), <- app_assoc by done. done.
Qed.

Lemma split_dots_join p : parts_ok p -> split_dots (join_parts p []) = p.
Proof.
  intros [Hp H]. destruct p as [|n p]; [done|]. apply Forall_cons in H as [[[Hn Hd] _]%part_okb_spec H].
  cbn [join_parts fold_left join_path]. fold (join_parts p n).
  rewrite split_dots_join_from, split_dots_part by done. done.
Qed.

Lemma split_whole : split_dots WHOLE = [WHOLE].
Proof. vm_compute. reflexivity. Qed.

Lemma join_not_whole p : parts_ok p -> is_whole (join_parts p []) = false.
Proof.
  intros H. pose proof (split_dots_join p H) as E. destruct H as [_ H].
  unfold is_whole. apply orb_false_iff.
  split; apply bool_decide_eq_false; intros Ej; rewrite Ej in E; [change (split_dots []) with [[] : bytes] in E|
    rewrite split_whole in E]; rewrite <- E in H; apply Forall_cons in H as [[[Hn _] Hw]%part_okb_spec _];
    [now apply Hn|now apply Hw].
Qed.

Lemma get_at_join p v : parts_ok p -> get_at_path v (join_parts p []) = get_segments v p.
Proof. intros H. unfold get_at_path. now rewrite join_not_whole, split_dots_join. Qed.

Lemma set_at_join p v t : parts_ok p -> set_at_path t (join_parts p []) v = set_at_path_segments p v t.
Proof. intros H. unfold set_at_path. now rewrite split_dots_join. Qed.

Lemma enumerate_from_app {A} (a b : list A) : forall i,
  enumerate_from i (a ++ b) = enumerate_from i a ++ enumerate_from (i + zlen a) b.
Proof.
  induction a as [|x a IH]; intros i; cbn; [now rewrite Z.add_0_r|].
  rewrite IH, zlen_cons. now rewrite Z.add_assoc.
Qed.

Lemma enumerate_paths d : forall prefix bit,
  enumerate_from bit (paths_spec d prefix)
  = map (fun e => (e.1, join_parts e.2 prefix)) (path_entries d bit).
Proof.
  induction d as [[i fs] IH] using Ty.StructureDesc_nested_ind. cbn in *.
  induction IH as [|f fs Hf _ IHfs]; intros prefix bit; cbn; [done|].
  f_equal. destruct (Ty.field_type f) as [| | | |n| | | | | |]; try apply IHfs.
  rewrite enumerate_from_app, paths_spec_length, Hf, IHfs, map_app, map_map. done.
Qed.

Lemma field_paths_entries d :
  field_paths (bit_paths d) = map (fun e => (e.1, join_parts e.2 [])) (path_entries d 1).
Proof. unfold field_paths, bit_paths. rewrite flatten_field_paths_spec. apply enumerate_paths. Qed.

Lemma entries_ok d : forall bit, names_ok d = true -> Forall (fun e => parts_ok e.2) (path_entries d bit).
Proof.
  induction d as [[i fs] IH] using Ty.StructureDesc_nested_ind. intros bit [_ H]%andb_true_iff. cbn in *.
  revert bit H. induction IH as [|f fs Hf _ IHfs]; intros bit H; cbn; [constructor|].
  cbn in H. apply andb_true_iff in H as [[Hn Hs]%andb_true_iff H].
  constructor; [split; [done|by constructor]|].
  destruct (Ty.field_type f) as [| | | |n| | | | | |]; auto. apply Forall_app. split; [|auto].
  apply Forall_map. eapply Forall_impl; [now apply Hf|]. cbn. intros e [He1 He2]. split; [done|]. by constructor.
Qed.

(** ** The loops of the source *)

Abbreviation textual := (map (fun e : Z * list bytes => (e.1, join_parts e.2 []))).

Lemma merge_run u l : forall t t',
  Forall (fun e => parts_ok e.2) l ->
  run (changed u) upd l (get_segments (value u)) t = Some t' ->
  fold_left (merge_step u) (textual l) t = t'.
Proof.
  induction l as [|[bit p] l IH]; intros t t' Hl Hr; cbn in *; [congruence|].
  apply Forall_cons in Hl as [Hp Hl]. cbn in Hp.
  unfold merge_step at 2. cbn [fst snd]. change (bit_is_set (changed u) bit) with (bit_set (changed u) bit).
  destruct (bit_set (changed u) bit); [|auto]. rewrite get_at_join by done.
  destruct (get_segments (value u) p); [|done]. rewrite set_at_join by done. auto.
Qed.

Lemma join_parts_app r : forall a b, b <> [] -> join_parts r (a ++ b) = a ++ join_parts r b.
Proof.
  induction r as [|n r IH]; intros a b Hb; cbn [join_parts fold_left]; [done|].
  fold (join_parts r (join_path (a ++ b) n)) (join_parts r (join_path b n)).
  unfold join_path. destruct b as [|x b]; [done|]. destruct (a ++ x :: b) eqn:E; [now destruct a|].
  rewrite <- E, <- app_assoc. now apply IH.
Qed.

Lemma split_once_part n : 46 ∉ n -> split_once n = (n, None) /\ forall q, split_once (n ++ 46 :: q) = (n, Some q).
Proof.
  induction n as [|x n IH]; cbn; [done|]. intros [H1 H2]%not_elem_of_cons.
  destruct (Z.eqb_spec x 46); [congruence|]. destruct (IH H2) as [-> Hq]. split; [done|]. intros q. now rewrite Hq.
Qed.

Lemma join_cons n m p :
  n <> [] -> m <> [] -> join_parts (n :: m :: p) [] = n ++ 46 :: join_parts (m :: p) [].
Proof.
  intros Hn Hm. cbn [join_parts fold_left join_path]. destruct n as [|x n]; [done|].
  fold (join_parts p (join_path (x :: n) m)) (join_parts p m). unfold join_path.
  change (str "." ++ m) with ([46] ++ m). now rewrite app_assoc, join_parts_app, <- app_assoc by done.
Qed.

Lemma patch_fields_join v p : forall fs k,
  parts_ok p -> (length (join_parts p []) < k)%nat ->
  patch_fields_fuel k fs (join_parts p []) v = patch_segments fs p v.
Proof.
  induction p as [|n p IH]; intros fs k [Hne Hp] Hk; [done|].
  destruct k as [|k]; [lia|]. apply Forall_cons in Hp as [[[Hn Hd] _]%part_okb_spec Hp].
  cbn [patch_fields_fuel patch_segments]. destruct (split_once_part n Hd) as [H0 Hq]. destruct p as [|m p].
  - cbn [join_parts fold_left join_path]. now rewrite H0.
  - pose proof Hp as [[[Hm _] _]%part_okb_spec _]%Forall_cons. rewrite join_cons in * by done. rewrite Hq.
    destruct (find_field n fs) as [[| |id inner]|]; try done. rewrite IH; [done|split; done|].
    rewrite length_app in Hk. cbn [length] in Hk. lia.
Qed.

Definition any_set (changed : bytes) (l : list (Z * list bytes)) : bool :=
  existsb (fun e => bit_set changed e.1) l.

Lemma patch_run changed merged l : forall id fs t' any,
  Forall (fun e => parts_ok e.2) l ->
  run changed upd l (fun p => decoded_to_pv_value <$> get_segments merged p) (PvStructure id fs) = Some t' ->
  exists fs', t' = PvStructure id fs' /\
    patch_loop merged changed (textual l) fs any = Some (fs', any || any_set changed l).
Proof.
  induction l as [|[bit p] l IH]; intros id fs t' any Hl Hr;
    cbn [run map patch_loop any_set existsb fst snd] in *.
  { injection Hr as <-. exists fs. now rewrite orb_false_r. }
  apply Forall_cons in Hl as [Hp Hl]. cbn in Hp. change (bit_is_set changed bit) with (bit_set changed bit).
  destruct (bit_set changed bit); [|auto]. rewrite get_at_join by done.
  destruct (get_segments merged p) as [v|]; [|done]. cbn [fmap option_fmap option_map upd payload_tree patch_value] in Hr.
  unfold patch_fields.
  rewrite patch_fields_join by (done || lia).
  destruct (patch_segments fs p _) as [fs1|]; [|done]. cbn [fmap option_fmap option_map] in Hr.
  destruct (IH id fs1 t' true Hl Hr) as (fs' & -> & ->). exists fs'. split; [done|]. now rewrite orb_true_r.
Qed.

(** ** A delta against its descriptor *)

(** What the gateway holds and receives: the last full value has the fields of
    the descriptor, and the update carries the flagged fields of [next]. *)
Record delta_of (d : Ty.StructureDesc) (prev next : entries) (u : MonitorUpdate) : Prop := {
  d_names : names_ok d = true;
  d_prev : shaped d prev = true;
  d_next : shaped d next = true;
  d_normal : normal (changed u) d 1 = true;
  d_root : bit_set (changed u) 0 = false;
  d_value : value u = Val.Structure (select_delta (changed u) d next);
  d_paths : paths u = bit_paths d;
}.

Lemma merge_overlay d prev next u :
  delta_of d prev next u ->
  merge_monitor_delta (Val.Structure prev) u = Val.Structure (overlay (changed u) d prev next 1).
Proof.
  intros [Hnm Hp Hq Hn Hr Hv Hps]. unfold merge_monitor_delta. cbn [has_prior negb orb].
  change (bit_is_set (changed u) 0) with (bit_set (changed u) 0). rewrite Hr, Hps, field_paths_entries.
  apply merge_run; [now apply entries_ok|].
  apply (run_overlay id (changed u)); try done; [intros fs; cbn; f_equal; induction fs as [|[] ? IH]; cbn; congruence|].
  rewrite Hv. unfold select_delta. rewrite Hr, andb_false_r. now apply select_found.
Qed.

Lemma shaped_overlay changed d : forall prev next bit,
  shaped d prev = true -> shaped d next = true -> shaped d (overlay changed d prev next bit) = true.
Proof.
  induction d as [[i fs] IH] using Ty.StructureDesc_nested_ind. cbn in *.
  induction IH as [|f fs Hf _ IHfs]; intros prev next bit Hp Hq.
  { destruct prev; done. }
  destruct prev as [|[pn pv] prev], next as [|[qn qv] next]; try discriminate. cbn [shaped_fields fst snd] in *.
  apply andb_true_iff in Hp as [[Hpn Hpv]%andb_true_iff Hp]. apply andb_true_iff in Hq as [[Hqn Hqv]%andb_true_iff Hq].
  cbn [overlay_fields].
  destruct (Ty.field_type f) as [| | | |n| | | | | |] eqn:Et;
    try (cbn [shaped_fields fst snd]; rewrite ?Et, IHfs, bool_decide_true by done; reflexivity).
  cbn [shaped_fields fst snd]. rewrite ?Et, IHfs, bool_decide_true by done. rewrite andb_true_r. cbn [andb].
  destruct pv as [| | | | | | | | | | | | | |ps|], qv as [| | | | | | | | | | | | | |qs|]; try discriminate.
  unfold overlay_structure. destruct (any_bit_set _ _ _); [auto|]. now destruct (bit_set changed bit).
Qed.

Lemma patch_rebuild d prev next u id :
  delta_of d prev next u ->
  let merged := merge_monitor_delta (Val.Structure prev) u in
  patch_nt_payload (nt_payload_from_decoded (Val.Structure prev) id) merged u
  = if any_set (changed u) (path_entries d 1) then Some (nt_payload_from_decoded merged id) else None.
Proof.
  intros H merged. subst merged. rewrite (merge_overlay d prev next u H). destruct H as [Hnm Hp Hq Hn Hr Hv Hps].
  unfold patch_nt_payload, nt_payload_from_decoded. cbn [decoded_to_pv_value].
  change (bit_is_set (changed u) 0) with (bit_set (changed u) 0). rewrite Hr, Hps, field_paths_entries.
  set (ov := overlay _ _ _ _ _).
  destruct (patch_run (changed u) (Val.Structure ov) (path_entries d 1) []
              (map (fun nv => (nv.1, decoded_to_pv_value nv.2)) prev)
              (decoded_to_pv_value (Val.Structure ov)) false) as (fs' & E & ->).
  - now apply entries_ok.
  - apply (run_overlay decoded_to_pv_value (changed u)); try done. intros bit p Hin Hset.
    destruct (overlay_found (changed u) d prev next 1 Hnm Hp Hq Hn bit p Hin Hset) as (v & Hv1 & Hv2).
    exists v. fold ov in Hv2. now rewrite Hv2.
  - injection E as <-. cbn [orb]. now destruct (any_set _ _).
Qed.

(** ** Claims *)

(** C34: merging a delta into the last full value gives the overlay: each flagged
    field, or flagged structure as a whole, has the new value, every other field
    keeps the old one, and the shape of the descriptor is kept.  The update is one
    that does not flag the root, and flags no structure together with a field below
    it: [merge_drops_unflagged_fields] shows that in the latter case fields are
    lost, against what the code documents.  Names of fields are distinct and hold
    no dot. *)
Theorem merge_refines_overlay d prev next u :
  delta_of d prev next u ->
  merge_monitor_delta (Val.Structure prev) u = Val.Structure (overlay (changed u) d prev next 1) /\
  shaped d (overlay (changed u) d prev next 1) = true.
Proof. intros H. split; [now apply merge_overlay|]. destruct H. now apply shaped_overlay. Qed.

(** Patching the payload built from the old value gives the payload built
    from the merged value; the patch is refused exactly when no field of the
    descriptor is flagged. *)
Theorem patch_equals_rebuild d prev next u id :
  delta_of d prev next u ->
  let merged := merge_monitor_delta (Val.Structure prev) u in
  patch_nt_payload (nt_payload_from_decoded (Val.Structure prev) id) merged u
  = if any_set (changed u) (path_entries d 1) then Some (nt_payload_from_decoded merged id) else None.
Proof. apply patch_rebuild. Qed.

(** A sample: an alarm of two fields. *)
Definition sample_desc : Ty.StructureDesc :=
  Ty.mkStruct None
    [Ty.mkField (str "value") (Ty.Scalar TypeCode.Int32);
     Ty.mkField (str "alarm") (Ty.Structure (Ty.mkStruct None
       [Ty.mkField (str "severity") (Ty.Scalar TypeCode.Int32);
        Ty.mkField (str "status") (Ty.Scalar TypeCode.Int32)]))].

Definition sample_value (v sev st : Z) : entries :=
  [(str "value", Val.Int32 v);
   (str "alarm", Val.Structure [(str "severity", Val.Int32 sev); (str "status", Val.Int32 st)])].

Definition sample_update (bits : bytes) (next : entries) : MonitorUpdate :=
  mkUpdate (Val.Structure (select_delta bits sample_desc next)) bits [] 0 (bit_paths sample_desc).

(** Bit 3 is [alarm.severity]. *)
Lemma sample_delta : delta_of sample_desc (sample_value 1 0 5) (sample_value 2 3 7) (sample_update [8] (sample_value 2 3 7)).
Proof. split; vm_compute; reflexivity. Qed.

Lemma merge_refines_overlay_witness :
  merge_monitor_delta (Val.Structure (sample_value 1 0 5)) (sample_update [8] (sample_value 2 3 7))
    = Val.Structure (sample_value 1 3 5) /\
  shaped sample_desc (sample_value 1 3 5) = true.
Proof.
  exact (merge_refines_overlay sample_desc (sample_value 1 0 5) (sample_value 2 3 7)
           (sample_update [8] (sample_value 2 3 7)) sample_delta).
Defined.

Lemma patch_equals_rebuild_witness :
  patch_nt_payload (nt_payload_from_decoded (Val.Structure (sample_value 1 0 5)) (str "t"))
    (Val.Structure (sample_value 1 3 5)) (sample_update [8] (sample_value 2 3 7))
  = Some (nt_payload_from_decoded (Val.Structure (sample_value 1 3 5)) (str "t")).
Proof.
  exact (patch_equals_rebuild sample_desc (sample_value 1 0 5) (sample_value 2 3 7)
           (sample_update [8] (sample_value 2 3 7)) (str "t") sample_delta).
Defined.

(** When the bit of a structure and a bit below it are both set, the decoder
    delivers only the fields flagged below, and the merge replaces the whole
    structure by them: the field [alarm.status] is gone from the full value. *)
Theorem merge_drops_unflagged_fields :
  merge_monitor_delta (Val.Structure (sample_value 1 0 5)) (sample_update [12] (sample_value 2 3 7))
  = Val.Structure [(str "value", Val.Int32 1); (str "alarm", Val.Structure [(str "severity", Val.Int32 3)])].
Proof. vm_compute. reflexivity. Qed.

End BridgeMerge.
