(* ===== verification/BridgeOwned.v ===== *)
(** * The owned merge

    [merge_monitor_delta_owned] moves the flagged values out of the update and
    skips the bits below a structure it has moved.  It computes what
    [merge_monitor_delta] computes, because the paths of a descriptor come in
    depth-first order. *)

From stdpp Require Import gmap.
From S2P Require Import Prelude Utf8 Wire PvdTypes PvdEncode PvdDecode PvdSafety PvdRoundtrip PvdDelta.
From S2P Require Import Monitor PvRequest NtTypes Bridge BridgeMerge.

Local Open Scope Z_scope.

Module BridgeOwned.
Import NtTypes PvdDecode PvdEncode PvdDelta Monitor PvRequest Bridge BridgeMerge.

(** ** Disjoint paths and depth-first order *)

Definition disjoint_paths (p q : list bytes) : Prop := ~ p `prefix_of` q /\ ~ q `prefix_of` p.
Definition strictly_below (p q : list bytes) : Prop := exists n r, q = p ++ n :: r.

(** The paths after [p]: first those below it, then only disjoint ones. *)
Definition splits (p : list bytes) (l : list (list bytes)) : Prop :=
  exists l1 l2, l = l1 ++ l2 /\ Forall (strictly_below p) l1 /\ Forall (disjoint_paths p) l2.

Fixpoint preorder (l : list (list bytes)) : Prop :=
  match l with [] => True | p :: l => splits p l /\ preorder l end.

Lemma disjoint_cons n p q : disjoint_paths (n :: p) (n :: q) <-> disjoint_paths p q.
Proof.
  unfold disjoint_paths. split; intros [H1 H2]; split; intros H;
    first [apply H1; now apply prefix_cons | apply H2; now apply prefix_cons
          |apply H1; now apply prefix_cons_inv_2 in H | apply H2; now apply prefix_cons_inv_2 in H].
Qed.

Lemma disjoint_heads n m p q : n <> m -> disjoint_paths (n :: p) (m :: q).
Proof. intros Hn. split; intros H; apply prefix_cons_inv_1 in H; congruence. Qed.

Lemma splits_cons n p l : splits p l -> splits (n :: p) (map (cons n) l).
Proof.
  intros (l1 & l2 & -> & H1 & H2). exists (map (cons n) l1), (map (cons n) l2).
  split; [apply map_app|]. rewrite !Forall_map. split; (eapply Forall_impl; [eassumption|]); cbn.
  - intros q (m & r & ->). now exists m, r.
  - intros q Hq. now apply disjoint_cons.
Qed.

Lemma splits_app p l k : splits p l -> Forall (disjoint_paths p) k -> splits p (l ++ k).
Proof.
  intros (l1 & l2 & -> & H1 & H2) Hk. exists l1, (l2 ++ k). rewrite app_assoc, Forall_app. done.
Qed.

Lemma preorder_app l k :
  preorder l -> preorder k -> Forall (fun p => Forall (disjoint_paths p) k) l -> preorder (l ++ k).
Proof.
  intros Hl Hk H. induction H as [|p l Hp _ IH]; cbn in *; [done|].
  destruct Hl as [Hs Hl]. split; [now apply splits_app|auto].
Qed.

Lemma preorder_map n l : preorder l -> preorder (map (cons n) l).
Proof. induction l as [|p l IH]; cbn; [done|]. intros [Hs Hl]. split; [now apply splits_cons|auto]. Qed.

Lemma map_snd_prefixed n l : map snd (map (prefixed n) l) = map (cons n) (map snd l).
Proof. now rewrite !map_map. Qed.

(** The group of one field, then the others. *)
Lemma preorder_group n l k :
  preorder l -> Forall (fun q => q <> []) l -> preorder k ->
  Forall (fun q => exists m r, q = m :: r /\ m <> n) k ->
  preorder (([n] :: map (cons n) l) ++ k).
Proof.
  intros Hl Hne Hk Hh.
  assert (forall p, Forall (disjoint_paths (n :: p)) k) as Hd.
  { intros p. eapply Forall_impl; [exact Hh|]. cbn. intros q (m & r & -> & Hm). apply disjoint_heads. congruence. }
  apply preorder_app; [|done|].
  - cbn. split; [|now apply preorder_map]. exists (map (cons n) l), []. split; [now rewrite app_nil_r|].
    split; [|constructor]. apply Forall_map. eapply Forall_impl; [exact Hne|]. cbn.
    intros [|m r] Hq; [done|]. now exists m, r.
  - constructor; [apply Hd|]. apply Forall_map, Forall_true. intros q. apply Hd.
Qed.

Lemma entries_preorder d : forall bit, names_ok d = true -> preorder (map snd (path_entries d bit)).
Proof.
  induction d as [[i fs] IH] using Ty.StructureDesc_nested_ind.
  intros bit [Hnd%bool_decide_eq_true H]%andb_true_iff. cbn in *. revert bit.
  induction IH as [|f fs Hf _ IHfs]; intros bit; cbn; [done|].
  cbn in H. apply andb_true_iff in H as [[Hn Hs]%andb_true_iff H]. apply NoDup_cons in Hnd as [Hfn Hnd].
  assert (forall k, Forall (fun q => exists m r, q = m :: r /\ m <> Ty.name f)
                      (map snd (field_entries path_entries fs k))) as Hh.
  { intros k. apply Forall_map. eapply Forall_impl; [apply entries_heads|]. cbn.
    intros e (m & r & -> & Hm). exists m, r. split; [done|]. intros ->. contradiction. }
  destruct (Ty.field_type f) as [| | | |n| | | | | |];
    try (apply (preorder_group (Ty.name f) [] _); [done|constructor|auto|apply Hh]).
  rewrite map_app, map_snd_prefixed. apply preorder_group; auto.
  apply Forall_map. eapply Forall_impl; [apply entries_range|]. cbn. tauto.
Qed.

(** ** Reading and writing trees *)

Lemma find_alter {A} n m f (fs : list (bytes * A)) :
  find_field m (alter_field n f fs) = if decide (n = m) then f <$> find_field n fs else find_field m fs.
Proof.
  induction fs as [|[k v] fs IH]; cbn; [now case_decide|].
  repeat (case_decide; cbn; subst; try done); rewrite ?IH; repeat case_decide; try done; congruence.
Qed.

Lemma find_none_inv {A} n (fs : list (bytes * A)) : find_field n fs = None -> n ∉ map fst fs.
Proof.
  induction fs as [|[m v] fs IH]; cbn; [intros _; apply not_elem_of_nil|]. case_decide; [done|].
  intros E. apply not_elem_of_cons. split; [congruence|auto].
Qed.

Lemma take_get p : forall v,
  match take_segments v p with
  | Some (w, rest) => get_segments v p = Some w /\ forall q, disjoint_paths p q -> get_segments rest q = get_segments v q
  | None => get_segments v p = None
  end.
Proof.
  induction p as [|n p IH]; intros v; cbn.
  { split; [done|]. intros q [Hq _]. destruct Hq. apply prefix_nil. }
  destruct v as [| | | | | | | | | | | | | |fs|]; try done. destruct (find_field n fs) as [w|] eqn:E; [|done].
  specialize (IH w). destruct (take_segments w p) as [[x rest]|]; [|done]. destruct IH as [H1 H2]. split; [done|].
  intros [|m q] Hq; [destruct Hq as [_ Hq]; destruct Hq; apply prefix_nil|]. cbn. rewrite find_alter.
  case_decide as Hm; [|done]. subst m. rewrite E. cbn. apply H2. now apply disjoint_cons in Hq.
Qed.

Lemma alter_same {A} n (f : A -> A) v fs :
  find_field n fs = Some v -> f v = v -> alter_field n f fs = fs.
Proof.
  induction fs as [|[m w] fs IH]; cbn; [done|]. case_decide; [now intros [= ->] ->|]. intros H1 H2. now rewrite IH.
Qed.

(** Writing what is already there changes nothing. *)
Lemma set_same r : forall x w, get_segments x r = Some w -> set_at_path_segments r w x = x.
Proof.
  induction r as [|n r IH]; intros x w; cbn; [now destruct x|].
  destruct x as [| | | | | | | | | | | | | |fs|]; try done. destruct (find_field n fs) as [v|] eqn:E; [|done].
  intros H. destruct r as [|m r].
  - cbn in H. injection H as ->. f_equal. now apply (alter_same n (fun _ => w) w).
  - f_equal. apply (alter_same n _ v); [done|]. now apply IH.
Qed.

Lemma alter_alter {A} n (f g : A -> A) v fs :
  find_field n fs = Some v -> alter_field n g (alter_field n f fs) = alter_field n (fun v => g (f v)) fs.
Proof.
  induction fs as [|[m w] fs IH]; cbn; [done|]. case_decide; cbn; [now rewrite decide_True|].
  rewrite decide_False by done. intros H'. now rewrite IH.
Qed.

Lemma alter_ext {A} n (f g : A -> A) fs : (forall v, f v = g v) -> alter_field n f fs = alter_field n g fs.
Proof. intros H. induction fs as [|[m w] fs IH]; cbn; [done|]. now rewrite IH, H. Qed.

(** Writing a part of a value that has just been written changes nothing. *)
Lemma set_below m : forall t x r w, m <> [] -> get_segments x r = Some w ->
  set_at_path_segments (m ++ r) w (set_at_path_segments m x t) = set_at_path_segments m x t.
Proof.
  induction m as [|n m IH]; intros t x r w Hm Hr; [done|].
  destruct t as [| | | | | | | | | | | | | |fs|]; try done. cbn [app set_at_path_segments].
  destruct m as [|k m].
  - apply (set_same (n :: r)). destruct (find_field n fs) as [v|] eqn:E; cbn [get_segments].
    + now rewrite find_alter, decide_True, E by done.
    + now rewrite find_field_here by now apply find_none_inv.
  - cbn [app]. destruct (find_field n fs) as [v|] eqn:E; cbn [set_at_path_segments].
    + rewrite find_alter, decide_True, E by done. cbn [fmap option_fmap option_map].
      rewrite (alter_alter _ _ _ v) by done. f_equal. apply alter_ext. intros y. now apply IH.
    + rewrite find_field_here, alter_field_here by now apply find_none_inv.
      do 4 f_equal. exact (IH (Val.Structure []) x r w ltac:(done) Hr).
Qed.

(** ** Text of paths below a parent *)

Lemma join_app m n r :
  parts_ok m -> Forall (fun x => part_okb x = true) (n :: r) ->
  join_parts (m ++ n :: r) [] = join_parts m [] ++ 46 :: join_parts (n :: r) [].
Proof.
  induction m as [|a m IH]; intros [Hm Hp] Hr; [done|]. apply Forall_cons in Hp as [[[Ha _] _]%part_okb_spec Hp].
  pose proof Hr as [[[Hn _] _]%part_okb_spec _]%Forall_cons. destruct m as [|b m]; [now apply join_cons|].
  pose proof Hp as [[[Hb _] _]%part_okb_spec _]%Forall_cons. cbn [app]. rewrite !join_cons by done.
  cbn [app] in IH. rewrite IH by done. now rewrite <- app_assoc.
Qed.

Lemma below_parent_spec m q :
  parts_ok m -> parts_ok q -> below_parent (join_parts m []) (join_parts q []) = true <-> strictly_below m q.
Proof.
  intros Hm Hq. unfold below_parent. split.
  - intros [[Hl Ht%bool_decide_eq_true]%andb_true_iff Hn]%andb_true_iff. bool_to_prop.
    set (jm := join_parts m []) in *. set (jq := join_parts q []) in *.
    assert (jq = jm ++ 46 :: drop (S (length jm)) jq) as E.
    { rewrite <- Ht at 1. rewrite <- (take_drop (length jm) jq) at 1. f_equal.
      rewrite <- Hn. apply drop_S. destruct (nth_lookup_or_length jq (length jm) 0); [done|]. unfold zlen in Hl. lia. }
    pose proof (split_dots_join q Hq) as Eq. fold jq in Eq. rewrite E, split_dots_app in Eq.
    unfold jm in Eq. rewrite split_dots_join in Eq by done.
    destruct (split_dots_cons (drop (S (length jm)) jq)) as (n & r & Er). fold jm in Eq. rewrite Er in Eq.
    now exists n, r.
  - intros (n & r & ->). destruct Hq as [_ Hq]. apply Forall_app in Hq as [_ Hr].
    rewrite join_app by done. rewrite take_app_length, bool_decide_true by done.
    rewrite app_nth2, Nat.sub_diag by lia. rewrite zlen_app, zlen_cons.
    pose proof (zlen_nonneg (join_parts (n :: r) [])).
    apply andb_true_iff. split; [|done]. apply andb_true_iff. split; [|done]. apply Z.gtb_lt. lia.
Qed.

(** ** The two loops in step *)

Section Loops.
Context (u : MonitorUpdate).

(** The state of the owned loop before the paths [l], with [taken] moved before
    [moved]: what has been moved is disjoint from what is still to be read, and
    the bits below the last move have nothing to add. *)
Record in_step (taken : list (list bytes)) (moved : option (list bytes)) (l : list (list bytes))
    (t left_over : Val.DecodedValue) : Prop := {
  s_read : forall q, Forall (fun p => disjoint_paths p q) taken ->
           (forall m, moved = Some m -> disjoint_paths m q) ->
           get_segments left_over q = get_segments (value u) q;
  s_taken : Forall (fun p => Forall (disjoint_paths p) l) taken;
  s_moved : forall m, moved = Some m -> splits m l /\ parts_ok m /\
            forall r w, get_segments (value u) (m ++ r) = Some w -> set_at_path_segments (m ++ r) w t = t;
}.

Lemma splits_tail m p l : splits m (p :: l) -> splits m l.
Proof.
  intros ([|x l1] & l2 & E & H1 & H2); cbn in E.
  - subst l2. apply Forall_cons in H2 as [_ H2]. now exists [], l.
  - injection E as -> ->. apply Forall_cons in H1 as [_ H1]. now exists l1, l2.
Qed.

Lemma splits_head m p l : splits m (p :: l) -> strictly_below m p \/ Forall (disjoint_paths m) (p :: l).
Proof.
  intros ([|x l1] & l2 & E & H1 & H2); cbn in E; [subst; auto|]. injection E as -> ->.
  apply Forall_cons in H1 as [H1 _]. auto.
Qed.

Lemma in_step_tail taken moved p l t v : in_step taken moved (p :: l) t v -> in_step taken moved l t v.
Proof.
  intros [H1 H2 H3]. split; [done| |].
  - eapply Forall_impl; [exact H2|]. cbn. now intros q [_ ?]%Forall_cons.
  - intros m Hm. destruct (H3 m Hm) as (Hs & Hp & Hw). split; [now apply splits_tail in Hs|done].
Qed.

Lemma get_app m : forall v r, get_segments v (m ++ r)
  = match get_segments v m with Some x => get_segments x r | None => None end.
Proof.
  induction m as [|n m IH]; intros v r; cbn; [done|]. destruct v; try done. destruct (find_field n fields); [apply IH|done].
Qed.

(** A move: the value read is that of the update. *)
Lemma in_step_move taken moved p l t v w rest :
  in_step taken moved (p :: l) t v -> parts_ok p -> splits p l ->
  (forall m, moved = Some m -> Forall (disjoint_paths m) (p :: l)) ->
  take_segments v p = Some (w, rest) ->
  get_segments (value u) p = Some w /\
  in_step (option_list moved ++ taken) (Some p) l (set_at_path_segments p w t) rest.
Proof.
  intros [H1 H2 H3] Hp Hs Hd Et. pose proof (take_get p v) as Hg. rewrite Et in Hg. destruct Hg as [Hg Hrest].
  assert (Forall (fun q => disjoint_paths q p) taken) as Htp.
  { eapply Forall_impl; [exact H2|]. cbn. now intros q [? _]%Forall_cons. }
  assert (get_segments (value u) p = Some w) as Hw.
  { rewrite <- Hg. symmetry. apply H1; [done|]. intros m Hm. now apply Hd, Forall_cons in Hm as [? _]. }
  split; [done|]. split.
  - intros q Hq Hm. rewrite Hrest by now apply Hm. apply Forall_app in Hq as [Hq1 Hq2]. apply H1; [done|].
    intros m ->. now apply Forall_cons in Hq1 as [? _].
  - apply Forall_app. split.
    + destruct moved as [m|]; [|constructor]. constructor; [|constructor]. now destruct (proj1 (Forall_cons _ _ _) (Hd m eq_refl)).
    + eapply Forall_impl; [exact H2|]. cbn. now intros q [_ ?]%Forall_cons.
  - intros m [= <-]. split; [done|]. split; [done|]. intros r x Hr. rewrite get_app, Hw in Hr.
    destruct Hp. now apply set_below.
Qed.

Abbreviation text_of moved := ((fun m : list bytes => join_parts m []) <$> moved).

Lemma owned_loop l : forall taken moved t v,
  Forall (fun e => parts_ok e.2) l -> preorder (map snd l) -> in_step taken moved (map snd l) t v ->
  o_full (fold_left (owned_step (changed u)) (textual l) (mkOwned t v (text_of moved)))
  = fold_left (merge_step u) (textual l) t.
Proof.
  induction l as [|[bit p] l IH]; intros taken moved t v Hl Hpre Hs; [done|].
  apply Forall_cons in Hl as [Hp Hl]. destruct Hpre as [Hsp Hpre]. cbn [snd fst map fold_left] in *.
  unfold owned_step at 2, merge_step at 2. cbn [fst snd o_moved o_full o_value].
  destruct (bit_is_set (changed u) bit) eqn:Eb; cbn [negb]; [|eapply IH; eauto using in_step_tail].
  rewrite get_at_join by done. unfold take_at_path. rewrite join_not_whole, split_dots_join by done.
  destruct (match text_of moved with Some parent => _ | None => false end) eqn:Ebelow.
  - destruct moved as [m|]; [|done]. destruct (s_moved _ _ _ _ _ Hs m eq_refl) as (_ & Hm & Hw).
    apply below_parent_spec in Ebelow as (n & r & ->); [|done|done].
    destruct (get_segments (value u) (m ++ n :: r)) as [w|] eqn:Ew; [|eapply IH; eauto using in_step_tail].
    rewrite set_at_join, (Hw _ _ Ew) by done. eapply IH; eauto using in_step_tail.
  - assert (forall m, moved = Some m -> Forall (disjoint_paths m) (p :: map snd l)) as Hd.
    { intros m ->. destruct (s_moved _ _ _ _ _ Hs m eq_refl) as (Hsm & Hm & _).
      destruct (splits_head _ _ _ Hsm) as [Hb|]; [|done]. apply below_parent_spec in Hb; [|done|done].
      cbn in Ebelow. congruence. }
    destruct (take_segments v p) as [[w rest]|] eqn:Et.
    + destruct (in_step_move taken moved p (map snd l) t v w rest) as [-> Hs']; try done.
      rewrite !set_at_join by done. now apply (IH (option_list moved ++ taken) (Some p)).
    + pose proof (take_get p v) as Hg. rewrite Et in Hg. rewrite (s_read _ _ _ _ _ Hs) in Hg.
      * rewrite Hg. eapply IH; eauto using in_step_tail.
      * eapply Forall_impl; [apply (s_taken _ _ _ _ _ Hs)|]. cbn. now intros q [? _]%Forall_cons.
      * intros m Hm. now apply Hd, Forall_cons in Hm as [? _].
Qed.
End Loops.

Lemma owned_merge d last_full u :
  names_ok d = true -> paths u = bit_paths d ->
  fst (merge_monitor_delta_owned last_full u) = merge_monitor_delta last_full u.
Proof.
  intros Hn Hp. unfold merge_monitor_delta_owned, merge_monitor_delta. destruct (_ || _); [done|].
  cbn [fst]. rewrite Hp, field_paths_entries.
  apply (owned_loop u (path_entries d 1) [] None);
    [now apply entries_ok|now apply entries_preorder|]. split; [done|constructor|done].
Qed.

(** ** Claim *)

(** The merge that moves values out of the update computes the merge that
    copies them, for every last value, every changed bitset (structure bits with
    bits below them included) and every update value. *)
Theorem owned_merge_equiv d last_full u :
  names_ok d = true -> paths u = bit_paths d ->
  fst (merge_monitor_delta_owned last_full u) = merge_monitor_delta last_full u.
Proof. apply owned_merge. Qed.

(** Bits 2 and 3 are [alarm] and [alarm.severity]: the second is skipped. *)
Lemma owned_merge_equiv_witness :
  fst (merge_monitor_delta_owned (Val.Structure (sample_value 1 0 5)) (sample_update [12] (sample_value 2 3 7)))
  = merge_monitor_delta (Val.Structure (sample_value 1 0 5)) (sample_update [12] (sample_value 2 3 7)).
Proof. apply (owned_merge_equiv sample_desc); vm_compute; reflexivity. Defined.

End BridgeOwned.
