(* ===== verification/DeltaWire.v ===== *)
(** * Deltas on the wire

    What the delta encoder of [NtDelta] sends, seen from the decoder: the flags
    of [compute_changed_bits] mark exactly the leaves that differ, the value
    block is the selection [PvdDelta] decodes, and an [overlay] with these flags
    brings an older copy up to date. *)

From stdpp Require Import gmap.
From S2P Require Import Prelude Utf8 Wire PvdTypes PvdEncode PvdDecode PvdSafety PvdRoundtrip PvdDelta.
From S2P Require Import Monitor PvRequest NtTypes NtEncode NtView NtTree NtDelta Bridge BridgeMerge.

Local Open Scope Z_scope.

Module DeltaWire.
Import NtTypes PvdDecode PvdEncode PvdRoundtrip PvdDelta NtView NtTree NtDelta BridgeMerge.

(** ** Equality of decoded values is an equivalence *)

Lemma same32_refl x : same32 x x = true.
Proof. unfold same32, Float.eq32. destruct (Float.is_nan32 x); [done|]. cbn. now rewrite Z.eqb_refl. Qed.

Lemma same64_refl x : same64 x x = true.
Proof. unfold same64, Float.eq64. destruct (Float.is_nan64 x); [done|]. cbn. now rewrite Z.eqb_refl. Qed.

Lemma same32_trans x y z : same32 x y = true -> same32 y z = true -> same32 x z = true.
Proof.
  unfold same32, Float.eq32. destruct (Float.is_nan32 x), (Float.is_nan32 y), (Float.is_nan32 z); cbn; try done.
  rewrite !orb_false_r, !Z.eqb_eq. congruence.
Qed.

Lemma same64_trans x y z : same64 x y = true -> same64 y z = true -> same64 x z = true.
Proof.
  unfold same64, Float.eq64. destruct (Float.is_nan64 x), (Float.is_nan64 y), (Float.is_nan64 z); cbn; try done.
  rewrite !orb_false_r, !Z.eqb_eq. congruence.
Qed.

Lemma zip_all_refl {A} (f : A -> A -> bool) l : Forall (fun x => f x x = true) l -> zip_all f l l = true.
Proof. induction 1 as [|x l Hx _ IH]; cbn; [done|]. now rewrite Hx. Qed.

Lemma zip_all_trans {A} (f : A -> A -> bool) a :
  Forall (fun x => forall y z, f x y = true -> f y z = true -> f x z = true) a ->
  forall b c, zlen a =? zlen b = true -> zlen b =? zlen c = true ->
  zip_all f a b = true -> zip_all f b c = true -> (zlen a =? zlen c) && zip_all f a c = true.
Proof.
  induction 1 as [|x a Hx _ IH]; intros [|y b] [|z c]; rewrite ?zlen_eqb_cons; try done; try discriminate.
  intros H1 H2 [H3 H4]%andb_true_iff [H5 H6]%andb_true_iff. cbn [zip_all].
  destruct (proj1 (andb_true_iff _ _) (IH b c H1 H2 H4 H6)) as [-> ->]. now rewrite (Hx y z).
Qed.

(** The same value, NaN equal to NaN. *)
Definition same_value (a b : Val.DecodedValue) : Prop := decoded_values_equal a b = true.

#[export] Instance decoded_refl : Reflexive same_value.
Proof.
  intros v. unfold same_value. induction v as [v H1 H2|l IH|fs IH] using Val.DecodedValue_tree_ind.
  - destruct v; cbn; rewrite ?Z.eqb_refl, ?bool_decide_true by done; auto using eqb_reflx, same32_refl, same64_refl;
      [now destruct (H1 items)|now destruct (H2 fields)].
  - cbn. now rewrite Z.eqb_refl, zip_all_refl.
  - cbn. rewrite Z.eqb_refl, zip_all_refl; [done|]. eapply Forall_impl; [exact IH|]. cbn. intros nv ->.
    now rewrite bool_decide_true.
Qed.

#[export] Instance decoded_trans : Transitive same_value.
Proof.
  intros v. unfold same_value. induction v as [v H1 H2|l IH|fs IH] using Val.DecodedValue_tree_ind; intros b c.
  - destruct v; try (now destruct (H1 items)); try (now destruct (H2 fields));
      destruct b; try discriminate; destruct c; try discriminate; cbn;
      rewrite ?Z.eqb_eq, ?bool_decide_eq_true, ?eqb_true_iff; eauto using same32_trans, same64_trans; congruence.
  - destruct b; try discriminate; destruct c; try discriminate. cbn.
    intros [Ha Hb]%andb_true_iff [Hc Hd]%andb_true_iff. now apply (zip_all_trans _ l IH items items0).
  - destruct b; try discriminate; destruct c; try discriminate. cbn.
    intros [Ha Hb]%andb_true_iff [Hc Hd]%andb_true_iff.
    apply (zip_all_trans _ fs) with (b := fields); try done. eapply Forall_impl; [exact IH|]. cbn.
    intros nv Hnv y z [E1%bool_decide_eq_true E2]%andb_true_iff [E3%bool_decide_eq_true E4]%andb_true_iff.
    rewrite bool_decide_true by congruence. now apply (Hnv y.2 z.2).
Qed.

(** ** Values that match a descriptor have its shape *)

Lemma match_shaped limits d : forall vs, fields_match limits (Ty.fields d) vs = true -> shaped d vs = true.
Proof.
  induction d as [[i fs] IH] using Ty.StructureDesc_nested_ind. cbn in *.
  induction IH as [|f fs Hf _ IHfs]; intros [|nv vs] H; try done. cbn in *.
  apply andb_true_iff in H as [[Hn Hv]%andb_true_iff H]. rewrite Hn, (IHfs vs H). cbn.
  destruct (Ty.field_type f) as [| | | |[j gs]| | | | | |]; try done. rewrite andb_true_r.
  destruct nv.2 as [| | | | | | | | | | | | | |sub|]; try discriminate Hv.
  apply Hf. rewrite value_ok_structure in Hv. now apply andb_true_iff in Hv as [_ ?].
Qed.

Lemma shaped_names fs : forall vs, shaped_fields shaped fs vs = true -> map fst vs = map Ty.name fs.
Proof.
  induction fs as [|f fs IH]; intros [|nv vs] H; try done. cbn in *.
  apply andb_true_iff in H as [[Hn%bool_decide_eq_true _]%andb_true_iff H]. now rewrite Hn, (IH vs).
Qed.

(** A field is found by its name whatever the hint. *)
Lemma field_of_here pre n v post h :
  NoDup (map fst (pre ++ (n, v) :: post)) -> (field_of (Val.Structure (pre ++ (n, v) :: post)) n h).1 = Some v.
Proof.
  intros Hnd. cbn. rewrite map_app in *. cbn [map fst] in *.
  assert ((map fst pre ++ n :: map fst post) !! length pre = Some n) as Hat.
  { rewrite <- (length_map fst pre), list_lookup_middle; done. }
  destruct (locate _ n h) as [[i|] h'] eqn:E; cbn.
  - pose proof (locate_lt _ n h i ltac:(now rewrite E)) as Hi.
    rewrite (NoDup_lookup _ _ _ _ Hnd Hi Hat). now rewrite list_lookup_middle.
  - pose proof (locate_none _ n h ltac:(now rewrite E)) as Hi. destruct Hi. now apply list_elem_of_lookup_2 in Hat.
Qed.

(** ** The flags of a change *)

Section Flags.
Context (bits : list bool).

(** Flag [idx] and those after it, along the descriptor: a leaf is flagged when
    it changed, a structure never. *)
Section Nested.
Context (nested : Ty.StructureDesc -> entries -> entries -> nat -> Prop).

Fixpoint flagged_fields (fs : list Ty.FieldDesc) (prev next : entries) (idx : nat) : Prop :=
  match fs, prev, next with
  | f :: fs, p :: prev, q :: next =>
    match Ty.field_type f with
    | Ty.Structure n =>
      nth idx bits false = false
      /\ match p.2, q.2 with Val.Structure ps, Val.Structure qs => nested n ps qs (S idx) | _, _ => False end
      /\ flagged_fields fs prev next (S idx + bits_of (Ty.fields n))
    | _ => nth idx bits false = negb (decoded_values_equal p.2 q.2) /\ flagged_fields fs prev next (S idx)
    end
  | _, _, _ => True
  end.
End Nested.

Fixpoint flagged (d : Ty.StructureDesc) (prev next : entries) (idx : nat) : Prop :=
  match d with Ty.mkStruct _ fs => flagged_fields flagged fs prev next idx end.

End Flags.

Lemma bits_of_field f fs :
  bits_of (f :: fs) = match Ty.field_type f with
                      | Ty.Structure n => S (bits_of (Ty.fields n) + bits_of fs)
                      | _ => S (bits_of fs)
                      end%nat.
Proof. rewrite bits_of_cons. destruct (Ty.field_type f); cbn; try done. now rewrite <- bits_of_desc. Qed.

(** Only the flags of the fields matter. *)
Lemma flagged_outside d : forall bits bits' prev next idx lo hi,
  same_outside lo hi bits bits' -> (idx + bits_of (Ty.fields d) <= lo \/ hi <= idx)%nat ->
  flagged bits d prev next idx -> flagged bits' d prev next idx.
Proof.
  induction d as [[i fs] IH] using Ty.StructureDesc_nested_ind. intros bits bits' prev next idx lo hi Ho.
  cbn in *. revert prev next idx.
  induction IH as [|f fs Hf _ IHfs]; intros [|p prev] [|q next] idx Hr H; try done.
  rewrite bits_of_field in Hr. cbn in *. destruct Ho as [Hl Ho].
  destruct (Ty.field_type f) as [| | | |n| | | | | |];
    try (destruct H as [H1 H2]; split; [rewrite Ho by lia; done|apply IHfs; [lia|done]]).
  destruct H as (H1 & H2 & H3). split_and!; [rewrite Ho by lia; done| |apply IHfs; [lia|done]].
  destruct p.2, q.2; try done. eapply Hf; [split; [exact Hl|exact Ho]|lia|done].
Qed.

(** What [fill_changed_bits] does from [idx] on. *)
Definition fills (fs : list Ty.FieldDesc) (flags : list bool -> Prop) (prev next : entries) (seen : bool)
    (bits : list bool) (idx : nat) (r : bool * list bool * nat) : Prop :=
  exists any bits', r = (seen || any, bits', (idx + bits_of fs)%nat) /\
    same_outside idx (idx + bits_of fs) bits bits' /\ flags bits' /\
    (any = false -> same_value (Val.Structure prev) (Val.Structure next)).

Lemma same_value_cons n p q prev next :
  same_value p q -> same_value (Val.Structure prev) (Val.Structure next) ->
  same_value (Val.Structure ((n, p) :: prev)) (Val.Structure ((n, q) :: next)).
Proof.
  unfold same_value. cbn. intros Hv [H1 H2]%andb_true_iff. rewrite zlen_eqb_cons, H1, H2, Hv. now rewrite bool_decide_true.
Qed.

Lemma leaf_fills f fs p q prev next seen bits idx (rest : bool -> list bool -> bool * list bool * nat) :
  match Ty.field_type f with Ty.Structure _ => False | _ => True end ->
  fresh idx (S (bits_of fs)) bits ->
  (forall seen bits, fresh (S idx) (bits_of fs) bits ->
     fills fs (fun b => flagged_fields b (flagged b) fs prev next (S idx)) prev next seen bits (S idx) (rest seen bits)) ->
  fills (f :: fs) (fun b => flagged_fields b (flagged b) (f :: fs) ((Ty.name f, p) :: prev) ((Ty.name f, q) :: next) idx)
    ((Ty.name f, p) :: prev) ((Ty.name f, q) :: next) seen bits idx
    (if negb (decoded_values_equal p q) then rest true (<[idx := true]> bits) else rest seen bits).
Proof.
  intros Hleaf Hfr Hrest. pose proof Hfr as [Hlen Hclear].
  assert (bits_of (f :: fs) = S (bits_of fs)) as Hb by (rewrite bits_of_field; now destruct (Ty.field_type f)).
  assert (forall b, flagged_fields b (flagged b) (f :: fs) ((Ty.name f, p) :: prev) ((Ty.name f, q) :: next) idx
    <-> nth idx b false = negb (decoded_values_equal p q) /\ flagged_fields b (flagged b) fs prev next (S idx)) as Hf
    by (intros b; cbn; now destruct (Ty.field_type f)).
  unfold fills. rewrite Hb. setoid_rewrite Hf.
  destruct (decoded_values_equal p q) eqn:Eq; cbn [negb].
  - destruct (Hrest seen bits) as (any & bits' & -> & Ho & Hfl & Hs); [split; [lia|intros; apply Hclear; lia]|].
    exists any, bits'. split; [f_equal; lia|]. split_and!; [| |done|].
    + destruct Ho as [Ho1 Ho2]. split; [done|]. intros k Hk. apply Ho2. lia.
    + destruct Ho as [_ Ho]. rewrite Ho by lia. apply Hclear. lia.
    + intros Ha. apply same_value_cons; auto.
  - pose proof (same_outside_set idx bits ltac:(lia)) as Hset.
    destruct (Hrest true (<[idx := true]> bits)) as (any & bits' & -> & Ho & Hfl & Hs).
    { apply (fresh_after idx (S idx) (bits_of fs) bits); [lia| |done]. now replace (S idx - idx + bits_of fs)%nat with (S (bits_of fs)) by lia. }
    exists true, bits'. split; [rewrite orb_true_r; f_equal; lia|]. split_and!; [| |done|done].
    + eapply same_outside_trans; [|exact Hset|]; [lia|]. now replace (idx + S (bits_of fs))%nat with (S idx + bits_of fs)%nat by lia.
    + destruct Ho as [_ Ho]. rewrite Ho by lia. rewrite nth_insert_list by lia. now rewrite decide_True.
Qed.

Definition desc_fills (d : Ty.StructureDesc) : Prop :=
  forall prev next bits idx,
    names_ok d = true -> shaped d prev = true -> shaped d next = true -> fresh idx (bits_of (Ty.fields d)) bits ->
    fills (Ty.fields d) (fun b => flagged b d prev next idx) prev next false bits idx
      (fill_changed_bits (Val.Structure prev) (Val.Structure next) d bits idx).

Lemma nested_fills f n fs ps qs prev next seen bits idx (rest : bool -> list bool -> nat -> bool * list bool * nat) :
  Ty.field_type f = Ty.Structure n -> desc_fills n ->
  names_ok n = true -> shaped n ps = true -> shaped n qs = true ->
  fresh idx (bits_of (f :: fs)) bits ->
  (forall seen bits, let mid := (S idx + bits_of (Ty.fields n))%nat in fresh mid (bits_of fs) bits ->
     fills fs (fun b => flagged_fields b (flagged b) fs prev next mid) prev next seen bits mid (rest seen bits mid)) ->
  fills (f :: fs) (fun b => flagged_fields b (flagged b) (f :: fs) ((Ty.name f, Val.Structure ps) :: prev)
                              ((Ty.name f, Val.Structure qs) :: next) idx)
    ((Ty.name f, Val.Structure ps) :: prev) ((Ty.name f, Val.Structure qs) :: next) seen bits idx
    (let '(changed, bits, idx) := fill_changed_bits (Val.Structure ps) (Val.Structure qs) n bits (S idx) in
     rest (changed || seen) bits idx).
Proof.
  intros Ef Hn Hnm Hps Hqs Hfr Hrest. rewrite bits_of_field, Ef in Hfr. pose proof Hfr as [Hlen Hclear].
  destruct (Hn ps qs bits (S idx) Hnm Hps Hqs) as (a1 & b1 & -> & Ho1 & Hf1 & Hs1);
    [split; [lia|intros; apply Hclear; lia]|].
  cbn [orb]. set (mid := (S idx + bits_of (Ty.fields n))%nat) in *.
  destruct (Hrest (a1 || seen) b1) as (a2 & b2 & -> & Ho2 & Hf2 & Hs2).
  { apply (fresh_after (S idx) mid (bits_of fs) bits); [lia| |done].
    split; [lia|]. intros k Hk. apply Hclear. lia. }
  exists (a1 || a2), b2. rewrite bits_of_field, Ef. cbn [flagged_fields]. rewrite Ef. split_and!.
  - replace (seen || (a1 || a2)) with (a1 || seen || a2) by now destruct a1, seen, a2. f_equal. lia.
  - assert (same_outside (S idx) (mid + bits_of fs) bits b2) as [Hl Ho] by (eapply same_outside_trans; [|exact Ho1|exact Ho2]; lia).
    split; [done|]. intros k Hk. apply Ho. lia.
  - destruct Ho2 as [_ Ho2]. rewrite Ho2 by lia. destruct Ho1 as [_ Ho1]. rewrite Ho1 by lia. apply Hclear. lia.
  - cbn [snd]. eapply flagged_outside; [exact Ho2|lia|done].
  - done.
  - intros [-> ->]%orb_false_iff. apply same_value_cons; auto.
Qed.

Lemma loop_fills fs :
  Forall (fun f => match Ty.field_type f with Ty.Structure n => desc_fills n | _ => True end) fs ->
  forall ppre qpre prev next ph nh seen bits idx,
    NoDup (map fst (ppre ++ prev)) -> NoDup (map fst (qpre ++ next)) ->
    forallb (fun f => part_okb (Ty.name f)
       && match Ty.field_type f with Ty.Structure n => names_ok n | _ => true end) fs = true ->
    shaped_fields shaped fs prev = true -> shaped_fields shaped fs next = true ->
    fresh idx (bits_of fs) bits ->
    fills fs (fun b => flagged_fields b (flagged b) fs prev next idx) prev next seen bits idx
      (fill_loop (Val.Structure (ppre ++ prev)) (Val.Structure (qpre ++ next)) fill_changed_bits fs ph nh seen bits idx).
Proof.
  induction 1 as [|f fs Hf _ IH]; intros ppre qpre prev next ph nh seen bits idx Hnp Hnq Hnm Hp Hq Hfr.
  { destruct prev, next; try discriminate. exists false, bits. rewrite orb_false_r. cbn.
    replace (idx + bits_of [])%nat with idx by (unfold bits_of; cbn; lia). split_and!; done. }
  destruct prev as [|[pn p] prev], next as [|[qn q] next]; try discriminate.
  cbn [shaped_fields forallb fst snd] in Hnm, Hp, Hq.
  apply andb_true_iff in Hp as [[<-%bool_decide_eq_true Hpv]%andb_true_iff Hp].
  apply andb_true_iff in Hq as [[<-%bool_decide_eq_true Hqv]%andb_true_iff Hq].
  apply andb_true_iff in Hnm as [[_ Hsub]%andb_true_iff Hnm]. cbn [fill_loop].
  rewrite (surjective_pairing (field_of _ _ ph)), (surjective_pairing (field_of _ _ nh)), !field_of_here by done.
  cbn [leaf_changed default from_option id].
  assert (forall ph nh seen bits idx, fresh idx (bits_of fs) bits ->
    fills fs (fun b => flagged_fields b (flagged b) fs prev next idx) prev next seen bits idx
      (fill_loop (Val.Structure (ppre ++ (Ty.name f, p) :: prev)) (Val.Structure (qpre ++ (Ty.name f, q) :: next))
         fill_changed_bits fs ph nh seen bits idx)) as Hrest.
  { intros. rewrite (cons_middle _ ppre), (cons_middle _ qpre), !(app_assoc _ [_]). apply IH;
      rewrite <- ?app_assoc; done. }
  destruct (Ty.field_type f) as [| | | |n| | | | | |] eqn:Ef;
    try (apply leaf_fills with (rest := fun s b => fill_loop _ _ _ fs _ _ s b (S idx));
         [now rewrite Ef|now rewrite bits_of_field, Ef in Hfr|intros s b Hb; now apply Hrest]).
  destruct p as [| | | | | | | | | | | | | |ps|], q as [| | | | | | | | | | | | | |qs|]; try discriminate.
  apply nested_fills with (rest := fun s b i => fill_loop _ _ _ fs _ _ s b i); try done.
  intros s b mid Hb. now apply Hrest.
Qed.

Lemma all_fill d : desc_fills d.
Proof.
  induction d as [[i fs] IH] using Ty.StructureDesc_nested_ind.
  intros prev next bits idx [Hnd%bool_decide_eq_true Hnm]%andb_true_iff Hp Hq Hfr. cbn in Hp, Hq.
  apply (loop_fills fs IH [] []); cbn [app]; try done; now rewrite (shaped_names fs).
Qed.

(** ** The flags as a bitset *)

Section Bitset.
Context (bits : list bool).
Abbreviation c := (flags_bitset bits).

Lemma flag_bit k : bit_set c (Z.of_nat k) = nth k bits false.
Proof. rewrite flags_bitset_spec by lia. now rewrite Nat2Z.id. Qed.

Lemma next_bit k : Z.of_nat k + 1 = Z.of_nat (S k).
Proof. lia. Qed.

Lemma skip_bits k n : Z.of_nat (S k) + Ty.count_structure_fields n = Z.of_nat (S k + bits_of (Ty.fields n)).
Proof. rewrite <- bits_of_desc. pose proof (Ty.count_structure_fields_nonneg n). lia. Qed.

Lemma any_bit_split changed n : forall m start,
  any_bit_set changed start (n + m) = any_bit_set changed start n || any_bit_set changed (start + Z.of_nat n) m.
Proof.
  induction n as [|n IH]; intros m start; cbn [Nat.add any_bit_set]; [now rewrite Z.add_0_r|].
  rewrite IH, orb_assoc. do 2 f_equal. lia.
Qed.

(** Without a bit below, nothing is selected and nothing is overlaid. *)
Lemma quiet d : forall vs ws bit,
  any_bit_set c bit (bits_of (Ty.fields d)) = false -> shaped d vs = true -> shaped d ws = true ->
  select_structure c d vs bit = [] /\ overlay c d vs ws bit = vs.
Proof.
  induction d as [[i fs] IH] using Ty.StructureDesc_nested_ind. cbn in *.
  induction IH as [|f fs Hf _ IHfs]; intros [|[vn v] vs] [|[wn w] ws] bit Hq Hv Hw; try done; cbn in Hv, Hw; try discriminate.
  apply andb_true_iff in Hv as [[<-%bool_decide_eq_true Hvs]%andb_true_iff Hv].
  apply andb_true_iff in Hw as [[<-%bool_decide_eq_true Hws]%andb_true_iff Hw].
  rewrite bits_of_field in Hq. cbn [fst snd] in *. cbn [select_fields overlay_fields fst snd].
  assert (forall k, any_bit_set c bit (S k) = false -> bit_set c bit = false /\ any_bit_set c (bit + 1) k = false) as Hhd.
  { intros k Hk. cbn in Hk. now apply orb_false_iff in Hk. }
  destruct (Ty.field_type f) as [| | | |n| | | | | |];
    try (destruct (Hhd _ Hq) as [-> Hk]; destruct (IHfs vs ws (bit + 1) Hk Hv Hw) as [-> ->]; done).
  destruct (Hhd _ Hq) as [Hb Hk]. rewrite any_bit_split in Hk. apply orb_false_iff in Hk as [Hn Hk].
  rewrite <- bits_of_desc, Z2Nat.id in Hk by apply Ty.count_structure_fields_nonneg.
  destruct (IHfs vs ws _ Hk Hv Hw) as [-> ->].
  unfold select_structure_field, overlay_structure. rewrite bits_of_desc, Hn, Hb. done.
Qed.

Lemma flagged_normal d : forall prev next idx,
  shaped d prev = true -> shaped d next = true -> flagged bits d prev next idx -> normal c d (Z.of_nat idx) = true.
Proof.
  induction d as [[i fs] IH] using Ty.StructureDesc_nested_ind. cbn in *.
  induction IH as [|f fs Hf _ IHfs]; intros [|[pn p] prev] [|[qn q] next] idx Hp Hq H; try done; cbn in Hp, Hq.
  apply andb_true_iff in Hp as [[_ Hpv]%andb_true_iff Hp]. apply andb_true_iff in Hq as [[_ Hqv]%andb_true_iff Hq].
  cbn [flagged_fields normal_fields fst snd] in *. rewrite next_bit.
  destruct (Ty.field_type f) as [| | | |n| | | | | |];
    try (destruct H as [_ H]; now apply (IHfs prev next)).
  destruct H as (Hb & Hn & H). rewrite skip_bits, flag_bit, Hb. cbn [andb negb].
  destruct p as [| | | | | | | | | | | | | |ps|], q as [| | | | | | | | | | | | | |qs|]; try done.
  rewrite (Hf ps qs), (IHfs prev next) by done. done.
Qed.

Lemma same_value_inv n m p q prev next :
  same_value (Val.Structure ((n, p) :: prev)) (Val.Structure ((m, q) :: next)) ->
  n = m /\ same_value p q /\ same_value (Val.Structure prev) (Val.Structure next).
Proof.
  unfold same_value. cbn. rewrite zlen_eqb_cons. rewrite !andb_true_iff, bool_decide_eq_true. tauto.
Qed.

(** Overlaying an older copy with the flagged leaves of the new value gives the
    new value. *)
Lemma flagged_overlay d : forall g prev next idx,
  shaped d g = true -> shaped d prev = true -> shaped d next = true -> flagged bits d prev next idx ->
  same_value (Val.Structure g) (Val.Structure prev) ->
  same_value (Val.Structure (overlay c d g next (Z.of_nat idx))) (Val.Structure next).
Proof.
  induction d as [[i fs] IH] using Ty.StructureDesc_nested_ind. cbn in *.
  induction IH as [|f fs Hf _ IHfs]; intros [|[gn g] gs] [|[pn p] prev] [|[qn q] next] idx Hg Hp Hq H Hs;
    try done; cbn in Hg, Hp, Hq; try discriminate.
  apply andb_true_iff in Hg as [[<-%bool_decide_eq_true Hgv]%andb_true_iff Hg].
  apply andb_true_iff in Hp as [[<-%bool_decide_eq_true Hpv]%andb_true_iff Hp].
  apply andb_true_iff in Hq as [[<-%bool_decide_eq_true Hqv]%andb_true_iff Hq].
  apply same_value_inv in Hs as (_ & Hgp & Hs).
  cbn [flagged_fields overlay_fields fst snd] in *. rewrite next_bit.
  destruct (Ty.field_type f) as [| | | |n| | | | | |];
    try (destruct H as [Hb H]; apply same_value_cons; [|now apply (IHfs gs prev next (S idx))];
         rewrite flag_bit, Hb; destruct (decoded_values_equal p q) eqn:E; cbn [negb];
         [transitivity p; done|reflexivity]).
  destruct H as (Hb & Hn & H). rewrite skip_bits. apply same_value_cons; [|now apply (IHfs gs prev next)].
  destruct g as [| | | | | | | | | | | | | |ns|]; try discriminate Hgv.
  destruct p as [| | | | | | | | | | | | | |ps|]; try discriminate Hpv.
  destruct q as [| | | | | | | | | | | | | |qs|]; try discriminate Hqv.
  specialize (Hf ns ps qs (S idx) Hgv Hpv Hqv Hn Hgp). unfold overlay_structure. rewrite next_bit, flag_bit, Hb.
  destruct (any_bit_set _ _ _) eqn:Eany; [done|]. rewrite bits_of_desc in Eany.
  destruct (quiet n ns qs (Z.of_nat (S idx)) Eany Hgv Hqv) as [_ E]. now rewrite E in Hf.
Qed.

(** The value block of the flags is the encoding of the selection. *)
Lemma values_select is_be d : forall prev next idx out,
  names_ok d = true -> shaped d prev = true -> shaped d next = true -> flagged bits d prev next idx ->
  encode_values_for_bits bits is_be (Val.Structure next) d idx out
  = ((idx + bits_of (Ty.fields d))%nat, out ++ encode_entries (select_structure c d next (Z.of_nat idx)) is_be).
Proof.
  induction d as [[i fs] IH] using Ty.StructureDesc_nested_ind.
  intros prev next idx out [Hnd%bool_decide_eq_true Hnm]%andb_true_iff Hp Hq H. cbn in *.
  assert (forall pre prev next hint idx out, NoDup (map fst (pre ++ next)) ->
    shaped_fields shaped fs prev = true -> shaped_fields shaped fs next = true ->
    flagged_fields bits (flagged bits) fs prev next idx ->
    values_loop (Val.Structure (pre ++ next)) bits is_be (encode_values_for_bits bits is_be) fs hint idx out
    = ((idx + bits_of fs)%nat,
       out ++ encode_entries (select_fields c (select_structure c) fs next (Z.of_nat idx)) is_be)) as Hloop;
    [|apply (Hloop [] prev); try done; cbn [app]; now rewrite (shaped_names fs)].
  clear prev next idx out Hp Hq H Hnd.
  induction IH as [|f fs Hf _ IHfs]; intros pre prev next hint idx out Hnd Hp Hq H.
  { cbn. rewrite app_nil_r. f_equal. unfold bits_of. cbn. lia. }
  destruct prev as [|[pn p] prev], next as [|[qn q] next]; try discriminate. cbn in Hp, Hq, Hnm.
  apply andb_true_iff in Hp as [[_ Hpv]%andb_true_iff Hp].
  apply andb_true_iff in Hq as [[<-%bool_decide_eq_true Hqv]%andb_true_iff Hq].
  apply andb_true_iff in Hnm as [[_ Hsub]%andb_true_iff Hnm].
  cbn [values_loop flagged_fields select_fields fst snd] in *.
  rewrite (surjective_pairing (field_of _ _ hint)), field_of_here, bits_of_field, next_bit by done.
  assert (forall h k o, flagged_fields bits (flagged bits) fs prev next k ->
    values_loop (Val.Structure (pre ++ (Ty.name f, q) :: next)) bits is_be (encode_values_for_bits bits is_be) fs h k o
    = ((k + bits_of fs)%nat,
       o ++ encode_entries (select_fields c (select_structure c) fs next (Z.of_nat k)) is_be)) as Hrest.
  { intros h k o Hk. rewrite (cons_middle _ pre), (app_assoc _ [_]). apply (IHfs Hnm) with (prev := prev); try done.
    now rewrite <- app_assoc. }
  destruct (Ty.field_type f) as [| | | |n| | | | | |];
    try (destruct H as [Hb H]; rewrite Hrest, encode_entries_app, flag_bit by done; f_equal; [lia|];
         destruct (nth idx bits false); [rewrite encode_entries_one, push_decoded_value_app; now rewrite <- app_assoc|done]).
  destruct H as (Hb & Hn & H).
  destruct p as [| | | | | | | | | | | | | |ps|]; try discriminate Hpv.
  destruct q as [| | | | | | | | | | | | | |qs|]; try discriminate Hqv.
  cbn [default from_option id]. rewrite (Hf ps qs (S idx) out), skip_bits, Hrest, encode_entries_app by done.
  f_equal; [lia|]. rewrite <- app_assoc. do 2 f_equal. unfold select_structure_field. rewrite next_bit, flag_bit, Hb.
  destruct (any_bit_set _ _ _) eqn:Eany; [now rewrite encode_entries_wrap|].
  rewrite bits_of_desc in Eany. now destruct (quiet n qs qs _ Eany Hqv Hqv) as [-> _].
Qed.

End Bitset.

(** ** The delta of two payloads *)

(** What the delta [c] of two values promises: applied to any copy of the first
    it gives the second. *)
Record delta_flags (d : Ty.StructureDesc) (prev next : entries) (changed : bytes) : Prop := {
  f_root : bit_set changed 0 = false;
  f_normal : normal changed d 1 = true;
  f_size : zlen changed <= 1 + Ty.count_structure_fields d;
  f_overlay : forall g, shaped d g = true -> same_value (Val.Structure g) (Val.Structure prev) ->
    same_value (Val.Structure (overlay changed d g next 1)) (Val.Structure next);
}.

Lemma zlen_flags_bitset bits : 0 < zlen bits -> zlen (flags_bitset bits) <= zlen bits.
Proof.
  intros H. unfold flags_bitset, zlen at 1. rewrite length_fill_bitset, length_replicate.
  unfold div_ceil. pose proof (Z.div_mod (zlen bits + 8 - 1) 8). pose proof (Z.mod_pos_bound (zlen bits + 8 - 1) 8). lia.
Qed.

Lemma delta_trees d prev next :
  names_ok d = true -> shaped d prev = true -> shaped d next = true ->
  match compute_changed_bits (Val.Structure prev) (Val.Structure next) d with
  | Some bits =>
    delta_flags d prev next (flags_bitset bits) /\
    forall is_be, snd (encode_values_for_bits bits is_be (Val.Structure next) d 1%nat [])
      = encode_entries (select_delta (flags_bitset bits) d next) is_be
  | None => same_value (Val.Structure prev) (Val.Structure next)
  end.
Proof.
  intros Hn Hp Hq. unfold compute_changed_bits.
  destruct (all_fill d prev next _ 1%nat Hn Hp Hq (fresh_flags d)) as (any & bits & -> & [Hlen Ho] & Hf & Hs).
  cbn [orb]. destruct any; [|auto]. clear Hs.
  assert (bit_set (flags_bitset bits) 0 = false) as H0.
  { change 0 with (Z.of_nat 0). rewrite flag_bit, Ho by lia. destruct (Z.to_nat _); reflexivity. }
  assert (zlen bits = 1 + Ty.count_structure_fields d) as Hl.
  { unfold zlen. rewrite Hlen, length_replicate. pose proof (Ty.count_structure_fields_nonneg d). lia. }
  split; [split|].
  - done.
  - exact (flagged_normal bits d prev next 1 Hp Hq Hf).
  - rewrite <- Hl. apply zlen_flags_bitset. pose proof (Ty.count_structure_fields_nonneg d). lia.
  - intros g Hg Hgp. exact (flagged_overlay bits d g prev next 1 Hg Hp Hq Hf Hgp).
  - intros is_be. rewrite (values_select bits is_be d prev) by done. cbn [snd app].
    unfold select_delta. now rewrite H0, andb_false_r.
Qed.

End DeltaWire.
