(* ===== verification/MonitorHub.v ===== *)
(** * The server's monitor fan-out

    Models the subscription lists of [spvirit-server/src/monitor.rs]
    ([MonitorRegistry], with [MonitorSub] of [state.rs]): the frame builder, the
    fan-out of a post to the subscribers of a PV, and the operations that start,
    stop, acknowledge and remove a subscription.  The registry's locks make each
    of them one step; the writers a frame is handed to are not part of this
    state. *)

From stdpp Require Import gmap.
From S2P Require Import Prelude Utf8 Wire PvdTypes PvdEncode PvdDecode PvdSafety PvdRoundtrip PvdDelta Monitor.
From S2P Require Import Packet Message NtTypes NtEncode NtView NtTree NtDelta NtWire DataFrames.

Local Open Scope Z_scope.

(** ** The derived equality of payloads *)

Module PayloadEq.
Import Float NtTypes.

Definition opt_eq {A} (eq : A -> A -> bool) (a b : option A) : bool :=
  match a, b with Some x, Some y => eq x y | None, None => true | _, _ => false end.

Fixpoint list_eq {A} (eq : A -> A -> bool) (a b : list A) : bool :=
  match a, b with
  | [], [] => true
  | x :: a, y :: b => eq x y && list_eq eq a b
  | _, _ => false
  end.

Definition bytes_eq (a b : bytes) : bool := bool_decide (a = b).

Definition scalar_eq (a b : ScalarValue) : bool :=
  match a, b with
  | Bool x, Bool y => Bool.eqb x y
  | I8 x, I8 y | I16 x, I16 y | I32 x, I32 y | I64 x, I64 y
  | U8 x, U8 y | U16 x, U16 y | U32 x, U32 y | U64 x, U64 y => x =? y
  | F32 x, F32 y => eq32 x y
  | F64 x, F64 y => eq64 x y
  | Str x, Str y => bytes_eq x y
  | _, _ => false
  end.

Definition array_eq (a b : ScalarArrayValue) : bool :=
  match a, b with
  | ABool x, ABool y => list_eq Bool.eqb x y
  | AI8 x, AI8 y | AI16 x, AI16 y | AI32 x, AI32 y | AI64 x, AI64 y
  | AU8 x, AU8 y | AU16 x, AU16 y | AU32 x, AU32 y | AU64 x, AU64 y => list_eq Z.eqb x y
  | AF32 x, AF32 y => list_eq eq32 x y
  | AF64 x, AF64 y => list_eq eq64 x y
  | AStr x, AStr y => list_eq bytes_eq x y
  | _, _ => false
  end.

Definition alarm_eq (a b : NtAlarm) : bool :=
  (severity a =? severity b) && (al_status a =? al_status b) && bytes_eq (al_message a) (al_message b).

Definition time_eq (a b : NtTimeStamp) : bool :=
  (seconds_past_epoch a =? seconds_past_epoch b) && (nanoseconds a =? nanoseconds b)
  && (user_tag a =? user_tag b).

Definition display_eq (a b : NtDisplay) : bool :=
  eq64 (limit_low a) (limit_low b) && eq64 (limit_high a) (limit_high b)
  && bytes_eq (description a) (description b) && bytes_eq (units a) (units b)
  && (precision a =? precision b).

Definition control_eq (a b : NtControl) : bool :=
  eq64 (ct_limit_low a) (ct_limit_low b) && eq64 (ct_limit_high a) (ct_limit_high b)
  && eq64 (min_step a) (min_step b).

Definition nt_scalar_eq (a b : NtScalar) : bool :=
  scalar_eq (value a) (value b)
  && (alarm_severity a =? alarm_severity b) && (alarm_status a =? alarm_status b)
  && bytes_eq (alarm_message a) (alarm_message b)
  && opt_eq eq64 (alarm_low a) (alarm_low b) && opt_eq eq64 (alarm_high a) (alarm_high b)
  && opt_eq eq64 (alarm_lolo a) (alarm_lolo b) && opt_eq eq64 (alarm_hihi a) (alarm_hihi b)
  && eq64 (display_low a) (display_low b) && eq64 (display_high a) (display_high b)
  && bytes_eq (display_description a) (display_description b)
  && (display_precision a =? display_precision b)
  && (display_form_index a =? display_form_index b)
  && list_eq bytes_eq (display_form_choices a) (display_form_choices b)
  && eq64 (control_low a) (control_low b) && eq64 (control_high a) (control_high b)
  && eq64 (control_min_step a) (control_min_step b) && bytes_eq (sc_units a) (sc_units b)
  && Bool.eqb (value_alarm_active a) (value_alarm_active b)
  && eq64 (value_alarm_low_alarm_limit a) (value_alarm_low_alarm_limit b)
  && eq64 (value_alarm_low_warning_limit a) (value_alarm_low_warning_limit b)
  && eq64 (value_alarm_high_warning_limit a) (value_alarm_high_warning_limit b)
  && eq64 (value_alarm_high_alarm_limit a) (value_alarm_high_alarm_limit b)
  && (value_alarm_low_alarm_severity a =? value_alarm_low_alarm_severity b)
  && (value_alarm_low_warning_severity a =? value_alarm_low_warning_severity b)
  && (value_alarm_high_warning_severity a =? value_alarm_high_warning_severity b)
  && (value_alarm_high_alarm_severity a =? value_alarm_high_alarm_severity b)
  && (value_alarm_hysteresis a =? value_alarm_hysteresis b)
  && opt_eq time_eq (time_stamp a) (time_stamp b).

Definition nt_scalar_array_eq (a b : NtScalarArray) : bool :=
  array_eq (sa_value a) (sa_value b) && alarm_eq (sa_alarm a) (sa_alarm b)
  && time_eq (sa_time_stamp a) (sa_time_stamp b) && display_eq (sa_display a) (sa_display b)
  && control_eq (sa_control a) (sa_control b).

Definition column_eq (a b : NtTableColumn) : bool :=
  bytes_eq (col_name a) (col_name b) && array_eq (col_values a) (col_values b).

Definition table_eq (a b : NtTable) : bool :=
  list_eq bytes_eq (labels a) (labels b) && list_eq column_eq (columns a) (columns b)
  && opt_eq bytes_eq (tb_descriptor a) (tb_descriptor b) && opt_eq alarm_eq (tb_alarm a) (tb_alarm b)
  && opt_eq time_eq (tb_time_stamp a) (tb_time_stamp b).

Definition dimension_eq (a b : NdDimension) : bool :=
  (dim_size a =? dim_size b) && (dim_offset a =? dim_offset b) && (full_size a =? full_size b)
  && (binning a =? binning b) && Bool.eqb (reverse a) (reverse b).

Definition attribute_eq (a b : NtAttribute) : bool :=
  bytes_eq (attr_name a) (attr_name b) && scalar_eq (attr_value a) (attr_value b)
  && bytes_eq (attr_descriptor a) (attr_descriptor b) && (source_type a =? source_type b)
  && bytes_eq (source a) (source b).

Definition ndarray_eq (a b : NtNdArray) : bool :=
  array_eq (nd_value a) (nd_value b)
  && bytes_eq (codec_name (codec a)) (codec_name (codec b))
  && bool_decide (parameters (codec a) = parameters (codec b))
  && (compressed_size a =? compressed_size b) && (uncompressed_size a =? uncompressed_size b)
  && list_eq dimension_eq (dimension a) (dimension b) && (unique_id a =? unique_id b)
  && time_eq (data_time_stamp a) (data_time_stamp b) && list_eq attribute_eq (attribute a) (attribute b)
  && opt_eq bytes_eq (nd_descriptor a) (nd_descriptor b) && opt_eq alarm_eq (nd_alarm a) (nd_alarm b)
  && opt_eq time_eq (nd_time_stamp a) (nd_time_stamp b) && opt_eq display_eq (nd_display a) (nd_display b).

Definition enum_eq (a b : NtEnum) : bool :=
  (enum_index a =? enum_index b) && list_eq bytes_eq (choices a) (choices b)
  && alarm_eq (en_alarm a) (en_alarm b) && time_eq (en_time_stamp a) (en_time_stamp b).

Fixpoint pv_eq (a b : PvValue) : bool :=
  match a, b with
  | PvScalar x, PvScalar y => scalar_eq x y
  | PvScalarArray x, PvScalarArray y => array_eq x y
  | PvStructure i fs, PvStructure j gs =>
    bytes_eq i j && list_eq (fun x y => bytes_eq x.1 y.1 && pv_eq x.2 y.2) fs gs
  | _, _ => false
  end.

Definition payload_eq (a b : NtPayload) : bool :=
  match a, b with
  | Scalar x, Scalar y => nt_scalar_eq x y
  | ScalarArray x, ScalarArray y => nt_scalar_array_eq x y
  | Table x, Table y => table_eq x y
  | NdArray x, NdArray y => ndarray_eq x y
  | Enum x, Enum y => enum_eq x y
  | Generic i fs, Generic j gs =>
    bytes_eq i j && list_eq (fun x y => bytes_eq x.1 y.1 && pv_eq x.2 y.2) fs gs
  | _, _ => false
  end.
End PayloadEq.

(** ** Subscriptions *)

Module MonitorHub.
Import NtTypes NtEncode NtView NtDelta NtWire DataFrames PayloadEq.

Record MonitorSub := mkSub {
  conn_id : Z; ioid : Z; version : Z; is_be : bool;
  running : bool; pipeline_enabled : bool; nfree : Z;
  filtered_desc : option Ty.StructureDesc; last_snapshot : option NtPayload }.

Definition MAX_PIPELINE_WINDOW : Z := 4096.

Section Frames.
(** The clock readings of the encoder: for the previous snapshot and for the
    payload. *)
Context (now_prev now : Z * Z).

Definition build_monitor_frame (sub : MonitorSub) (payload : NtPayload) : option bytes :=
  let subcmd := 0x00 in
  match last_snapshot sub with
  | None =>
    Some (match filtered_desc sub with
          | Some desc =>
            encode_monitor_data_response_filtered now (ioid sub) subcmd payload desc (version sub) (is_be sub)
          | None => encode_monitor_data_response_payload now (ioid sub) subcmd payload (version sub) (is_be sub)
          end)
  | Some prev =>
    match filtered_desc sub with
    | Some desc =>
      if negb (nt_payload_changed_on_desc now_prev now prev payload desc (is_be sub)) then None
      else Some (encode_monitor_data_response_filtered now (ioid sub) subcmd payload desc (version sub) (is_be sub))
    | None =>
      if payload_eq prev payload then None
      else Some (encode_monitor_data_response_payload now (ioid sub) subcmd payload (version sub) (is_be sub))
    end
  end.

Record PendingFrame := mkPending {
  p_conn_id : Z; p_ioid : Z; p_version : Z; p_is_be : bool; pipelined : bool; prebuilt : option bytes }.

(** [sub.nfree -= 1] and the new baseline. *)
Definition charge (sub : MonitorSub) (payload : NtPayload) : MonitorSub :=
  mkSub (conn_id sub) (ioid sub) (version sub) (is_be sub) (running sub) (pipeline_enabled sub)
    (if pipeline_enabled sub && (0 <? nfree sub) then nfree sub - 1 else nfree sub)
    (filtered_desc sub) (Some payload).

(** One turn of the loop of [plan_fanout]. *)
Definition plan_sub (payload : NtPayload) (sub : MonitorSub) : MonitorSub * option PendingFrame :=
  let pending prebuilt :=
    mkPending (conn_id sub) (ioid sub) (version sub) (is_be sub) (pipeline_enabled sub) prebuilt in
  if negb (running sub) then (sub, None)
  else if pipeline_enabled sub && (nfree sub =? 0) then (sub, None)
  else
    match filtered_desc sub with
    | Some _ =>
      match build_monitor_frame sub payload with
      | Some b => (charge sub payload, Some (pending (Some b)))
      | None => (sub, None)
      end
    | None =>
      if match last_snapshot sub with Some prev => payload_eq prev payload | None => false end then (sub, None)
      else (charge sub payload, Some (pending None))
    end.

Fixpoint plan_fanout (subs : list MonitorSub) (payload : NtPayload) : list MonitorSub * list PendingFrame :=
  match subs with
  | [] => ([], [])
  | sub :: subs =>
    let '(sub, frame) := plan_sub payload sub in
    let '(subs, plan) := plan_fanout subs payload in
    (sub :: subs, option_list frame ++ plan)
  end.

(** The frame of a pending entry, encoded after the lock is released. *)
Definition pending_bytes (payload : NtPayload) (p : PendingFrame) : bytes :=
  match prebuilt p with
  | Some b => b
  | None => encode_monitor_data_response_payload now (p_ioid p) 0x00 payload (p_version p) (p_is_be p)
  end.

(** What [notify_monitors] hands to the writers: connection, operation, frame and
    lane. *)
Definition notify_monitors (monitors : gmap bytes (list MonitorSub)) (pv_name : bytes) (payload : NtPayload)
  : gmap bytes (list MonitorSub) * list (Z * Z * bytes * bool) :=
  match monitors !! pv_name with
  | None => (monitors, [])
  | Some subs =>
    let '(subs, plan) := plan_fanout subs payload in
    (<[pv_name := subs]> monitors,
     map (fun p => (p_conn_id p, p_ioid p, pending_bytes payload p, pipelined p)) plan)
  end.

(** Apply [f] to the first subscription of the operation. *)
Fixpoint alter_sub {A} (conn ioid_ : Z) (f : MonitorSub -> MonitorSub * A) (subs : list MonitorSub)
  : list MonitorSub * option A :=
  match subs with
  | [] => ([], None)
  | sub :: subs =>
    if (conn_id sub =? conn) && (ioid sub =? ioid_) then let '(sub, a) := f sub in (sub :: subs, Some a)
    else let '(subs, a) := alter_sub conn ioid_ f subs in (sub :: subs, a)
  end.

Definition send_sub (payload : NtPayload) (sub : MonitorSub) : MonitorSub * option (Z * bytes * bool) :=
  if negb (running sub) then (sub, None)
  else if pipeline_enabled sub && (nfree sub =? 0) then (sub, None)
  else match build_monitor_frame sub payload with
       | None => (sub, None)
       | Some msg => (charge sub payload, Some (conn_id sub, msg, pipeline_enabled sub))
       end.

Definition send_monitor_update_for (subs : list MonitorSub) (conn ioid_ : Z) (payload : NtPayload)
  : list MonitorSub * option (Z * bytes * bool) :=
  let '(subs, sent) := alter_sub conn ioid_ (send_sub payload) subs in
  (subs, match sent with Some s => s | None => None end).

End Frames.

Definition update_sub (run : bool) (window : option Z) (enabled : option bool) (sub : MonitorSub)
  : MonitorSub * unit :=
  (mkSub (conn_id sub) (ioid sub) (version sub) (is_be sub) run
     (match enabled with Some true => true | _ => pipeline_enabled sub end)
     (match window with Some v => Z.min v MAX_PIPELINE_WINDOW | None => nfree sub end)
     (filtered_desc sub) (last_snapshot sub), tt).

Definition update_monitor_subscription (subs : list MonitorSub) (conn ioid_ : Z) (run : bool)
    (window : option Z) (enabled : option bool) : list MonitorSub * bool :=
  let '(subs, found) := alter_sub conn ioid_ (update_sub run window enabled) subs in
  (subs, match found with Some _ => true | None => false end).

Definition remove_monitor_subscription (subs : list MonitorSub) (conn ioid_ : Z) : list MonitorSub :=
  filter (fun s => negb (conn_id s =? conn) || negb (ioid s =? ioid_) = true) subs.

Definition cleanup_connection (monitors : gmap bytes (list MonitorSub)) (conn : Z) : gmap bytes (list MonitorSub) :=
  filter (fun s => negb (conn_id s =? conn) = true) <$> monitors.

(** The two senders agree: the deferred encoding of the fan-out is the frame the
    builder gives. *)
Lemma plan_sub_send now_prev now payload sb :
  (plan_sub now_prev now payload sb).1 = (send_sub now_prev now payload sb).1 /\
  (fun p => (p_conn_id p, pending_bytes now payload p, pipelined p)) <$> (plan_sub now_prev now payload sb).2
    = (send_sub now_prev now payload sb).2 /\
  forall p, (plan_sub now_prev now payload sb).2 = Some p -> p_ioid p = ioid sb.
Proof.
  unfold plan_sub, send_sub. destruct (running sb); cbn [negb]; [|done].
  destruct (pipeline_enabled sb && (nfree sb =? 0)); [done|].
  destruct (filtered_desc sb) as [desc|] eqn:Ef.
  - destruct (build_monitor_frame now_prev now sb payload); [|done]. split; [done|]. split; [done|]. now intros p [= <-].
  - unfold build_monitor_frame. rewrite Ef. destruct (last_snapshot sb) as [prev|].
    + destruct (payload_eq prev payload); [done|]. split; [done|]. split; [done|]. now intros p [= <-].
    + split; [done|]. split; [done|]. now intros p [= <-].
Qed.

(** ** Claims *)

(** The fan-out, which decides under the lock and encodes most frames after
    releasing it, delivers to every subscriber exactly what the frame builder
    gives for it, on the same connection, operation and lane, and leaves the
    subscription as the single-subscriber send leaves it: a stopped, starved or
    up-to-date subscriber keeps its credit and its baseline. *)
Theorem fanout_agrees_with_builder now_prev now subs payload :
  let '(subs', plan) := plan_fanout now_prev now subs payload in
  subs' = map (fun s => (send_sub now_prev now payload s).1) subs /\
  map (fun p => (p_conn_id p, p_ioid p, pending_bytes now payload p, pipelined p)) plan
  = concat (map (fun s => match (send_sub now_prev now payload s).2 with
                          | Some (conn, b, lossless) => [(conn, ioid s, b, lossless)]
                          | None => []
                          end) subs).
Proof.
  induction subs as [|s subs IH]; cbn; [done|].
  destruct (plan_sub_send now_prev now payload s) as (E1 & E2 & E3).
  destruct (plan_sub now_prev now payload s) as [s' fr]. cbn [fst snd] in *.
  destruct (plan_fanout now_prev now subs payload) as [subs' plan]. destruct IH as [-> IH]. rewrite E1. split; [done|].
  rewrite map_app, IH, <- E2. f_equal. destruct fr as [p|]; [|done]. cbn. now rewrite (E3 p eq_refl).
Qed.

End MonitorHub.
