(* ===== verification/Gateway.v ===== *)
(** * The gateway's upstream feed

    Models the client's MONITOR frame filter
    ([spvirit-client/src/pva_client.rs], [monitor_data_body]) and the
    subscription callback of [spvirit-gateway/src/proxy.rs]: every update is
    merged into the last full value, and the payload handed to subscribers is
    patched or rebuilt.  The theorem composes the development: what this server
    sends ([MonitorHub]), whole frames, arrives in the gateway, and so do the
    sparse deltas other servers may send, as the codec encodes them ([NtDelta]). *)

From stdpp Require Import gmap.
From S2P Require Import Prelude Utf8 Wire PvdTypes PvdEncode PvdDecode PvdSafety PvdRoundtrip PvdDelta Monitor.
From S2P Require Import PvRequest Packet Message NtTypes NtEncode NtView NtTree NtDelta NtWire DataFrames.
From S2P Require Import Bridge BridgeMerge BridgeOwned DeltaWire MonitorHub.

Local Open Scope Z_scope.

Module Gateway.
Import NtTypes NtEncode NtView NtWire PvdDecode PvdEncode PvdDelta Monitor Bridge BridgeMerge BridgeOwned DeltaWire.
Import Message DataFrames.

(** ** The client's frame filter *)

Definition monitor_data_body (b : bytes) (expect_ioid : Z) (is_be : bool) : option bytes :=
  if zlen b <? 8 + 4 + 1 then None
  else if negb (Z.land (nth 2 b 0) 0x01 =? 0) then None
  else if negb (nth 3 b 0 =? 13) then None
  else
    let body := drop 8 b in
    let ioid := get_int is_be (take 4 body) in
    if negb (ioid =? expect_ioid) then None
    else if negb (nth 4 body 0 =? 0x00) then None
    else Some (drop 5 body).

(** ** The subscription callback *)

Record Feed := mkFeed { last_full : Val.DecodedValue; cached_payload : option NtPayload }.

Definition initial_feed : Feed := mkFeed Val.Null None.

(** The closure of [GatewaySource::subscribe]; the cached payload is what is
    dispatched. *)
Definition on_update (struct_id : bytes) (feed : Feed) (update : MonitorUpdate) : Feed :=
  let '(last_full, _) := merge_monitor_delta_owned (last_full feed) update in
  let patched :=
    match cached_payload feed with
    | Some cached => patch_nt_payload cached last_full update
    | None => None
    end in
  let payload :=
    match patched with
    | Some payload => payload
    | None => nt_payload_from_decoded last_full struct_id
    end in
  mkFeed last_full (Some payload).

(** One frame of the client's monitor loop: frames that are not data for this
    operation, and data that does not decode, reach no callback. *)
Definition on_frame (is_be : bool) (limits : DecodeLimits) (ioid : Z) (desc : Ty.StructureDesc) (struct_id : bytes)
    (st : Feed * PvdDecoder) (frame : bytes) : Feed * PvdDecoder :=
  let '(feed, decoder) := st in
  match monitor_data_body frame ioid is_be with
  | None => (feed, decoder)
  | Some body =>
    let '(r, decoder) :=
      decode_monitor_update_with_paths is_be limits body desc (bit_paths desc) decoder in
    (match r with Ok u => on_update struct_id feed u | _ => feed end, decoder)
  end.

(** ** Frames reach the decoder *)

Lemma server_header is_be version command len :
  encode_header true is_be false version command len
  = [0xCA; version; if is_be then 0xC0 else 0x40; command] ++ put_int is_be 4 len.
Proof. now destruct is_be. Qed.

Lemma body_of_frame ioid version bitset values is_be :
  u32_ok ioid = true ->
  monitor_data_body (finish_monitor_data ioid 0 version bitset values is_be) ioid is_be
  = Some (bitset ++ values ++ Wire.encode_size 0 is_be).
Proof.
  intros Hi. unfold u32_ok in Hi. bool_to_prop. rewrite finish_monitor_frame.
  set (upd := bitset ++ values ++ Wire.encode_size 0 is_be).
  set (f := if is_be then 0xC0 else 0x40).
  set (len := put_int is_be 4 (as_u32 (zlen (monitor_payload ioid 0 bitset values is_be)))).
  assert (frame true is_be version 13 (monitor_payload ioid 0 bitset values is_be)
     = [0xCA; version; f; 13] ++ len ++ put_int is_be 4 ioid ++ [0] ++ upd) as E
    by (unfold frame; rewrite server_header; unfold monitor_payload; now rewrite <- !app_assoc).
  assert (Z.land f 0x01 = 0) as Hf by now destruct is_be.
  assert (zlen len = 4) as Hl by apply zlen_put_int.
  pose proof (zlen_nonneg upd). unfold monitor_data_body. rewrite E.
  rewrite !zlen_app, Hl, zlen_put_int. change (zlen [0xCA; version; f; 13]) with 4. change (zlen [0]) with 1.
  destruct (_ <? _) eqn:E1; bool_to_prop; [lia|]. clear E1.
  rewrite (app_assoc [0xCA; version; f; 13] len), drop_app_n by (rewrite zlen_app, Hl; reflexivity).
  rewrite <- (app_assoc [0xCA; version; f; 13] len). cbn [app nth]. rewrite Hf. cbn [Z.eqb negb Pos.eqb].
  rewrite take_app_n, get_put_int_small, Z.eqb_refl by (apply zlen_put_int || cbn; lia). cbn [negb].
  rewrite app_nth2 by (pose proof (zlen_put_int is_be 4 ioid); unfold zlen in *; lia).
  assert (length (put_int is_be 4 ioid) = 4%nat) as -> by (pose proof (zlen_put_int is_be 4 ioid); unfold zlen in *; lia).
  cbn [Nat.sub nth Z.eqb negb]. f_equal.
  change (put_int is_be 4 ioid ++ 0 :: upd) with (put_int is_be 4 ioid ++ [0] ++ upd).
  rewrite app_assoc, drop_app_n; [done|]. rewrite zlen_app, zlen_put_int. done.
Qed.

(** ** One update *)

Section Track.
Context (is_be : bool) (limits : DecodeLimits) (ioid version : Z) (d : Ty.StructureDesc) (struct_id : bytes).
Hypothesis limits_ok : PvdSafety.limits_ok limits.
Hypothesis ioid_ok : u32_ok ioid = true.
Hypothesis names : names_ok d = true.
Hypothesis height : Ty.fields_height (Ty.fields d) <= max_depth limits.
Hypothesis count : 1 + Ty.count_structure_fields d <= u32_max.

Abbreviation step := (on_frame is_be limits ioid d struct_id).

(** The feed holds [vs] up to equality of values, and the payload to dispatch is
    the one built from what it holds. *)
Definition holds (vs : entries) (st : Feed * PvdDecoder) : Prop :=
  exists g, shaped d g = true /\ same_value (Val.Structure g) (Val.Structure vs) /\
    st.1 = mkFeed (Val.Structure g) (Some (nt_payload_from_decoded (Val.Structure g) struct_id)) /\
    PvdSafety.idle limits st.2.

(** A frame whose update is [changed] of [vs] is decoded. *)
Lemma frame_decodes feed decoder changed vs bitset values :
  PvdSafety.idle limits decoder -> zlen changed <= u32_max ->
  PvdRoundtrip.fields_match limits (Ty.fields d) vs = true ->
  bitset = encode_bitset changed is_be -> values = encode_entries (select_delta changed d vs) is_be ->
  exists decoder' u, step (feed, decoder) (finish_monitor_data ioid 0 version bitset values is_be)
      = (on_update struct_id feed u, decoder') /\ PvdSafety.idle limits decoder' /\
    value u = Val.Structure (select_delta changed d vs) /\ Monitor.changed u = changed /\ paths u = bit_paths d.
Proof.
  intros Hi Hc Hm -> ->. unfold on_frame. rewrite body_of_frame by done.
  destruct (monitor_runs is_be limits d vs changed [] [] decoder limits_ok Hi Hc ltac:(done) Hm height)
    as (s' & H & Hi').
  change (encode_bitset [] is_be) with (Wire.encode_size 0 is_be ++ []) in H.
  unfold PvdRoundtrip.runs, decode_monitor_update in H. rewrite !app_nil_r in H. rewrite H.
  eexists s', _. repeat (split; [done|]). done.
Qed.

(** A frame with every bit set replaces the value, and no patch is tried. *)
Lemma patch_whole cached full u : bit_is_set (Monitor.changed u) 0 = true -> patch_nt_payload cached full u = None.
Proof. intros H. destruct cached; try done. cbn. by rewrite H. Qed.

Lemma full_step st vs :
  PvdSafety.idle limits st.2 ->
  PvdRoundtrip.fields_match limits (Ty.fields d) vs = true ->
  holds vs (step st (finish_monitor_data ioid 0 version
      (encode_structure_bitset d is_be) (encode_entries vs is_be) is_be)).
Proof.
  intros Hi Hm. destruct st as [feed dec]. cbn in Hi.
  pose proof (Ty.count_structure_fields_nonneg d) as Hn0.
  set (n := 1 + Ty.count_structure_fields d) in *.
  destruct (frame_decodes feed dec (ones_bitset n) vs (encode_structure_bitset d is_be) (encode_entries vs is_be))
    as (dec' & u & -> & Hi' & Hv & Hc & Hp); try done.
  - rewrite zlen_ones_bitset by lia. unfold u32_max, div_ceil in *. 
    pose proof (Z.div_le_upper_bound (n + 8 - 1) 8 (2 ^ 32 - 1)). lia.
  - unfold encode_structure_bitset, encode_all_ones_bitset. rewrite push_all_ones_bitset_app by lia. done.
  - unfold n. now rewrite (select_delta_all limits).
  - unfold n in Hv. rewrite (select_delta_all limits) in Hv by done.
    exists vs. split; [now apply (match_shaped limits)|]. split; [reflexivity|]. split; [|done].
    assert (bit_is_set (Monitor.changed u) 0 = true) as Hb.
    { rewrite Hc. change (bit_is_set (ones_bitset n) 0) with (bit_set (ones_bitset n) 0).
      rewrite ones_bitset_spec by lia. apply Z.ltb_lt. lia. }
    unfold on_update, merge_monitor_delta_owned. cbn [fst]. rewrite Hb, orb_true_r, Hv. destruct (cached_payload feed); [by rewrite patch_whole|done].
Qed.

(** A delta brings the feed from one value to the next. *)
Lemma update_step changed prev next feed u dec :
  delta_flags d prev next changed -> holds prev (feed, dec) ->
  PvdRoundtrip.fields_match limits (Ty.fields d) next = true ->
  value u = Val.Structure (select_delta changed d next) -> Monitor.changed u = changed -> paths u = bit_paths d ->
  holds next (on_update struct_id feed u, dec).
Proof.
  intros [Hroot Hnorm _ Hov] (g & Hg & Hgp & Hst & Hi) Hm Hv Hc Hp. cbn [fst snd] in Hst, Hi. subst feed.
  assert (delta_of d g next u) as Hd by (split; rewrite ?Hc; try done; now apply (match_shaped limits)).
  exists (overlay changed d g next 1).
  split; [destruct Hd; now apply shaped_overlay|]. split; [now apply Hov|]. split; [|done]. cbn [fst].
  unfold on_update. cbn [last_full cached_payload].
  pose proof (owned_merge d (Val.Structure g) u names Hp) as Ho.
  destruct (merge_monitor_delta_owned (Val.Structure g) u) as [full rest]. cbn [fst] in Ho. subst full.
  rewrite (patch_rebuild d g next u struct_id Hd), (merge_overlay d g next u Hd), Hc.
  now destruct (any_set changed _).
Qed.

Lemma delta_step prev next st :
  holds prev st ->
  PvdRoundtrip.fields_match limits (Ty.fields d) prev = true ->
  PvdRoundtrip.fields_match limits (Ty.fields d) next = true ->
  match NtDelta.compute_changed_bits (Val.Structure prev) (Val.Structure next) d with
  | Some bits =>
    holds next (step st (finish_monitor_data ioid 0 version (encode_bitset_from_flags bits is_be)
      (snd (NtDelta.encode_values_for_bits bits is_be (Val.Structure next) d 1%nat [])) is_be))
  | None => holds next st
  end.
Proof.
  intros Hst Hmp Hmn. pose proof (match_shaped limits d prev Hmp) as Hp. pose proof (match_shaped limits d next Hmn) as Hn.
  pose proof (delta_trees d prev next names Hp Hn) as Ht.
  destruct (NtDelta.compute_changed_bits _ _ d) as [bits|].
  - destruct Ht as [Hf Hvals]. destruct st as [feed dec]. pose proof Hst as (g & _ & _ & _ & Hi).
    destruct (frame_decodes feed dec (flags_bitset bits) next (encode_bitset_from_flags bits is_be)
                (snd (NtDelta.encode_values_for_bits bits is_be (Val.Structure next) d 1%nat [])))
      as (dec' & u & -> & Hi' & Hv & Hc & Hps); try done.
    + pose proof (f_size _ _ _ _ Hf). lia.
    + rewrite encode_bitset_from_flags_unfold. done.
    + apply (update_step (flags_bitset bits) prev); try done.
      destruct Hst as (g' & ? & ? & ? & _). now exists g'.
  - destruct Hst as (g & Hg & Hgp & Hst). exists g. split; [done|]. split; [now transitivity (Val.Structure prev)|done].
Qed.

End Track.

(** ** A server's posts *)

(** The payload carries its own time stamp, so its encoding does not depend on
    the clock. *)
Definition stamped (p : NtPayload) : bool :=
  match p with Scalar nt => match time_stamp nt with Some _ => true | None => false end | _ => true end.

Lemma stamped_view p now now' : stamped p = true -> of_payload now p = of_payload now' p.
Proof.
  destruct p; try done. cbn. intros H. unfold of_payload, scalar_stamp.
  now destruct (time_stamp nt).
Qed.

Section Posts.
Context (limits : DecodeLimits) (d : Ty.StructureDesc) (struct_id : bytes).

(** A post: whether it goes out as a sparse delta, the clock readings of the
    encoder for the previous and for the new payload, and the payload. *)
Record Post := mkPost { sparse : bool; now_prev : Z * Z; now_next : Z * Z; payload : NtPayload }.

(** A payload of the channel, in range.  Where [deltas] are sent it carries its own
    time stamp. *)
Definition post_ok (deltas : bool) (p : Post) : Prop :=
  payload_ok limits (now_next p) (payload p) = true /\ nt_payload_desc (payload p) = d /\
  (if deltas then stamped (payload p) = true else sparse p = false).

(** What goes out for a post.  This server's own sender is
    [MonitorHub.send_sub]; a server that sends deltas flags what differs from
    the payload before. *)
Definition send (sub : MonitorHub.MonitorSub) (p : Post) : MonitorHub.MonitorSub * option bytes :=
  match sparse p, MonitorHub.last_snapshot sub with
  | true, Some prev =>
    (MonitorHub.charge sub (payload p),
     encode_monitor_data_response_delta (now_next p) (now_prev p) (MonitorHub.ioid sub) 0 prev (payload p) d
       (MonitorHub.version sub) (MonitorHub.is_be sub))
  | _, _ =>
    let '(sub, sent) := MonitorHub.send_sub (now_prev p) (now_next p) (payload p) sub in
    (sub, (fun m => m.1.2) <$> sent)
  end.

(** The subscription and the gateway's feed over a sequence of posts. *)
Fixpoint follow (sub : MonitorHub.MonitorSub) (st : Feed * PvdDecoder) (posts : list Post) : MonitorHub.MonitorSub * (Feed * PvdDecoder) :=
  match posts with
  | [] => (sub, st)
  | p :: posts =>
    let '(sub', frame) := send sub p in
    let st :=
      match frame with
      | Some f => on_frame (MonitorHub.is_be sub) limits (MonitorHub.ioid sub) d struct_id st f
      | None => st
      end in
    follow sub' st posts
  end.

Lemma post_match deltas p : post_ok deltas p ->
  to_decoded (of_payload (now_next p) (payload p)) = Val.Structure (tree_fields (now_next p) (payload p)) /\
  PvdRoundtrip.fields_match limits (Ty.fields d) (tree_fields (now_next p) (payload p)) = true.
Proof. intros (Hp & <- & _). rewrite tree_structure. split; [done|]. now apply payload_match. Qed.

(** A subscription that takes every update: running, not pipelined, unfiltered. *)
Definition plain (ioid : Z) (sub : MonitorHub.MonitorSub) : Prop :=
  MonitorHub.ioid sub = ioid /\ MonitorHub.running sub = true /\ MonitorHub.pipeline_enabled sub = false /\
  MonitorHub.filtered_desc sub = None.

Hypothesis limits_ok : PvdSafety.limits_ok limits.
Hypothesis names : names_ok d = true.
Hypothesis height : Ty.fields_height (Ty.fields d) <= max_depth limits.
Hypothesis count : 1 + Ty.count_structure_fields d <= u32_max.
Context (deltas : bool) (ioid : Z).
Hypothesis ioid_ok : u32_ok ioid = true.

(** The gateway holds what was last sent to it. *)
Definition tracks (sub : MonitorHub.MonitorSub) (st : Feed * PvdDecoder) (sent : Post) : Prop :=
  plain ioid sub /\ MonitorHub.last_snapshot sub = Some (payload sent) /\ post_ok deltas sent /\
  holds limits d struct_id (tree_fields (now_next sent) (payload sent)) st.

Lemma whole_frame sub st p : plain ioid sub -> PvdSafety.idle limits st.2 -> post_ok deltas p ->
  holds limits d struct_id (tree_fields (now_next p) (payload p))
    (on_frame (MonitorHub.is_be sub) limits (MonitorHub.ioid sub) d struct_id st
      (encode_monitor_data_response_payload (now_next p) (MonitorHub.ioid sub) 0 (payload p) (MonitorHub.version sub) (MonitorHub.is_be sub))).
Proof.
  intros (Hio & _) Hi Hp. destruct (post_match deltas p Hp) as [Et Hm]. destruct Hp as (Hok & Hd & _). rewrite Hio, monitor_full_frame.
  replace (encode_nt_payload_bitset_parts (now_next p) (payload p) (MonitorHub.is_be sub))
    with (encode_structure_bitset d (MonitorHub.is_be sub), encode_entries (tree_fields (now_next p) (payload p)) (MonitorHub.is_be sub));
    [now apply full_step|].
  unfold encode_nt_payload_bitset_parts, encode_structure_bitset. rewrite nt_field_count, Hd. f_equal.
  unfold encode_nt_payload_full, encode_entries, encode_decoded_value.
  rewrite NtTree.full_tree by now destruct (payload p). now rewrite Et.
Qed.

(** The first post is sent whole. *)
Lemma first_send sub p : plain ioid sub -> MonitorHub.last_snapshot sub = None ->
  send sub p = (MonitorHub.charge sub (payload p),
    Some (encode_monitor_data_response_payload (now_next p) (MonitorHub.ioid sub) 0 (payload p) (MonitorHub.version sub) (MonitorHub.is_be sub))).
Proof.
  intros (_ & Hr & Hpl & Hf) Hn. unfold send, MonitorHub.send_sub, MonitorHub.build_monitor_frame. rewrite Hn, Hr, Hpl, Hf. by destruct (sparse p).
Qed.

(** What a later post makes of the feed: it is the post's, or the post equals what
    was sent before. *)
Definition kept (sent p : Post) (sub : MonitorHub.MonitorSub) (st : Feed * PvdDecoder) : Prop :=
  tracks sub st p \/ (tracks sub st sent /\ PayloadEq.payload_eq (payload sent) (payload p) = true).

Lemma later_send sub st sent p : tracks sub st sent -> post_ok deltas p ->
  let '(sub', frame) := send sub p in
  kept sent p sub' match frame with Some f => on_frame (MonitorHub.is_be sub) limits (MonitorHub.ioid sub) d struct_id st f | None => st end.
Proof.
  intros (Hpl & Hl & Hs & Hh) Hp. pose proof Hpl as (Hio & Hr & Hpe & Hf). unfold send. rewrite Hl. destruct (sparse p) eqn:Esp.
  - left. split; [done|]. split; [done|]. split; [done|].
    pose proof Hp as (_ & _ & Hst). pose proof Hs as (_ & _ & Hss). destruct deltas; [|congruence].
    destruct (post_match true p Hp) as [E1 M1]. destruct (post_match true sent Hs) as [E0 M0].
    unfold encode_monitor_data_response_delta. rewrite NtDelta.delta_tree, E1, (stamped_view (payload sent) (now_prev p) (now_next sent) Hss), E0.
    pose proof (delta_step (MonitorHub.is_be sub) limits ioid (MonitorHub.version sub) d struct_id limits_ok ioid_ok names height count _ _ _ Hh M0 M1) as H.
    rewrite Hio. now destruct (NtDelta.compute_changed_bits _ _ d).
  - unfold MonitorHub.send_sub, MonitorHub.build_monitor_frame. rewrite Hr, Hpe, Hf, Hl. cbn [negb andb].
    destruct (PayloadEq.payload_eq (payload sent) (payload p)) eqn:Eq; [right; done|]. cbn [fmap option_fmap option_map snd fst]. left.
    split; [done|]. split; [done|]. split; [done|]. apply whole_frame; [done|by destruct Hh as (g & _ & _ & _ & Hi)|done].
Qed.

(** After a non-empty sequence of posts the feed is the last one's, or that of a
    post the server holds equal to it. *)
Lemma follow_tracks posts : forall sub st sent, Forall (post_ok deltas) posts -> tracks sub st sent ->
  exists sent', tracks (follow sub st posts).1 (follow sub st posts).2 sent' /\
    (sent' = List.last posts sent \/ PayloadEq.payload_eq (payload sent') (payload (List.last posts sent)) = true).
Proof.
  induction posts as [|p posts IH] using rev_ind; intros sub st sent Hp Ht; [exists sent; split; [done|by left]|].
  apply Forall_app in Hp as [Hps Hp]. apply Forall_cons in Hp as [Hp _]. rewrite List.last_last.
  assert (Ha : forall sub st, follow sub st (posts ++ [p]) =
    let '(sub, st) := follow sub st posts in follow sub st [p]).
  { clear. induction posts as [|q posts IH]; intros sub st; [done|]. cbn [app follow]. destruct (send sub q) as [sub' fr]. apply IH. }
  rewrite Ha. destruct (IH sub st sent Hps Ht) as (last & Hl & _). destruct (follow sub st posts) as [sub1 st1]. cbn [fst snd follow] in *.
  pose proof (later_send sub1 st1 last p Hl Hp) as Hk. destruct (send sub1 p) as [sub2 fr]. cbn [fst snd].
  destruct Hk as [Hk|[Hk He]]; [exists p; split; [done|by left]|exists last; split; [done|by right]].
Qed.

End Posts.

(** ** Claims *)


(** Three posts to one subscriber: the first and the last whole, the second a delta. *)
Definition sample_post (sparse : bool) (index : Z) : Post :=
  mkPost sparse (0, 0) (0, 0) (Enum (mkEnum index [str "off"; str "on"] default_alarm (mkTimeStamp 1700000000 5 0))).
Definition sample_sub : MonitorHub.MonitorSub := MonitorHub.mkSub 1 7 2 true true false 0 None None.


End Gateway.
