(* ===== verification/Pipeline.v ===== *)
(** * Monitor pipelining

    Credit-based flow control of a MONITOR subscription, end to end: the window
    the server grants at INIT and the ACK arm of
    [spvirit-server/src/handler.rs], the fan-out of [MonitorHub], and the ACKs
    of the client's monitor loop ([spvirit-client/src/pva_client.rs]).  The
    connection is a pair of queues of frames; a step is a post, a frame that
    reaches the client or an ACK that reaches the server. *)

From stdpp Require Import gmap.
From S2P Require Import Prelude Utf8 Wire PvdTypes PvdEncode PvdDecode PvdSafety PvdRoundtrip PvdDelta Monitor.
From S2P Require Import PvRequest Packet Message NtTypes NtEncode NtView NtTree NtDelta NtWire DataFrames.
From S2P Require Import Bridge BridgeMerge BridgeOwned DeltaWire Gateway MonitorHub.

Local Open Scope Z_scope.

Module Pipeline.
Import NtTypes NtEncode DataFrames Message PayloadEq MonitorHub Gateway.

(** ** The client *)

Definition PVA_VERSION : Z := 2.

(** [(q / 2).max(1)]. *)
Definition ack_threshold (queue : Z) : Z := Z.max (queue / 2) 1.

(** The counter and the ACK that is due, if any. *)
Definition pipeline_ack_on_consume (consumed_since_ack threshold sid ioid : Z) (is_be : bool) : Z * option bytes :=
  let n := Z.min (consumed_since_ack + 1) u32_max in
  if threshold <=? n then
    (0, Some (encode_monitor_request sid ioid 0x80 (put_int is_be 4 n) PVA_VERSION is_be))
  else (n, None).

(** A frame in the client's loop: what is not data for this operation consumes no
    credit. *)
Definition client_consume (consumed threshold sid ioid : Z) (is_be : bool) (frame : bytes) : Z * option bytes :=
  match monitor_data_body frame ioid is_be with
  | None => (consumed, None)
  | Some _ => pipeline_ack_on_consume consumed threshold sid ioid is_be
  end.

(** The body of the client's INIT: the request, then the queue size. *)
Definition init_body (pv_request : bytes) (queue : Z) (is_be : bool) : bytes :=
  pv_request ++ put_int is_be 4 queue.

(** ** The server's handler *)

(** The window granted at INIT: the last four bytes of the body, clamped. *)
Definition init_window (subcmd : Z) (body : bytes) (is_be : bool) : Z :=
  let pipeline_enabled := negb (Z.land subcmd 0x80 =? 0) in
  if pipeline_enabled && (4 <=? zlen body) then
    Z.min (get_int is_be (take 4 (drop (length body - 4) body))) MAX_PIPELINE_WINDOW
  else 0.

Record MonitorState := mkMonitorState { m_running : bool; m_pipeline_enabled : bool; m_nfree : Z }.

(** The START, STOP and ACK arm of MONITOR: the subscription in the registry and
    the connection's own record of it. *)
Definition monitor_control (op : Packet.PvaOpPayload) (is_be : bool) (conn ioid : Z) (subs : list MonitorSub)
    (mon : option MonitorState) : list MonitorSub * option MonitorState :=
  let subcmd := Packet.subcmd op in
  let body := Packet.body op in
  let start := Z.land subcmd 0x44 =? 0x44 in
  let stop := Z.land subcmd 0x44 =? 0x04 in
  let pipeline_ack := negb (Z.land subcmd 0x80 =? 0) in
  let nfree := if pipeline_ack && (4 <=? zlen body) then Some (get_int is_be (take 4 body)) else None in
  let running :=
    if start then true else if stop then false
    else match mon with Some m => m_running m | None => true end in
  let subs := fst (update_monitor_subscription subs conn ioid running nfree (Some pipeline_ack)) in
  let mon :=
    match mon with
    | None => None
    | Some m =>
      Some (mkMonitorState running (pipeline_ack || m_pipeline_enabled m)
        (match nfree with
         | Some v =>
           if pipeline_ack then Z.min (Z.min (m_nfree m + v) u32_max) MAX_PIPELINE_WINDOW
           else Z.min v MAX_PIPELINE_WINDOW
         | None => m_nfree m
         end))
    end in
  (subs, mon).

Definition apply_pv_request_filter (full : Ty.StructureDesc) (body : bytes) (is_be : bool) : Ty.StructureDesc * bool :=
  match PvRequest.decode_pv_request_fields body is_be with
  | Some fields => (PvRequest.filter_structure_desc full fields, true)
  | None => (full, false)
  end.

(** The INIT arm, once the descriptor of the PV is known: a stopped subscription
    with the window and the field filter of the request. *)
Definition monitor_init (op : Packet.PvaOpPayload) (version : Z) (is_be : bool) (conn : Z) (full_desc : Ty.StructureDesc)
    (subs : list MonitorSub) : list MonitorSub * option MonitorState :=
  let body := Packet.body op in
  let '(desc, has_filter) := apply_pv_request_filter full_desc body is_be in
  let pipeline_enabled := negb (Z.land (Packet.subcmd op) 0x80 =? 0) in
  let nfree := init_window (Packet.subcmd op) body is_be in
  (subs ++ [mkSub conn (Packet.ioid op) version is_be false pipeline_enabled nfree
              (if has_filter then Some desc else None) None],
   Some (mkMonitorState false pipeline_enabled nfree)).

(** A MONITOR request as the handler dispatches it: INIT, destroy, or start, stop
    and ACK.  [full_desc] is the descriptor of the PV, [None] when it is not
    found. *)
Definition handle_monitor (raw : bytes) (version : Z) (is_be : bool) (conn : Z) (full_desc : option Ty.StructureDesc)
    (subs : list MonitorSub) (mon : option MonitorState) : list MonitorSub * option MonitorState :=
  match decode_bytes raw with
  | Ok (Packet.Op op) =>
    let subcmd := Packet.subcmd op in
    if negb (Z.land subcmd 0x08 =? 0) then
      match full_desc with
      | Some full => monitor_init op version is_be conn full subs
      | None => (subs, mon)
      end
    else if negb (Z.land subcmd 0x10 =? 0) then (remove_monitor_subscription subs conn (Packet.ioid op), None)
    else if negb (Z.land subcmd 0x04 =? 0) || negb (Z.land subcmd 0x80 =? 0) then
      monitor_control op is_be conn (Packet.ioid op) subs mon
    else (subs, mon)
  | _ => (subs, mon)
  end.

(** ** A pipelined subscription *)

Record Pipe := mkPipe {
  sub : MonitorSub;
  mon : MonitorState;
  down : list bytes;
  consumed : Z;
  up : list bytes }.

Section Steps.
Context (sid queue : Z).

(** The network moves: a frame reaches the client, or an ACK the server. *)
Inductive net_step : Pipe -> Pipe -> Prop :=
| step_frame s f rest consumed' ack :
    down s = f :: rest ->
    client_consume (consumed s) (ack_threshold queue) sid (ioid (sub s)) (is_be (sub s)) f = (consumed', ack) ->
    net_step s (mkPipe (sub s) (mon s) rest consumed' (up s ++ option_list ack))
| step_ack s a rest full_desc sub' mon' :
    up s = a :: rest ->
    handle_monitor a (version (sub s)) (is_be (sub s)) (conn_id (sub s)) full_desc [sub s] (Some (mon s))
      = ([sub'], Some mon') ->
    net_step s (mkPipe sub' mon' (down s) (consumed s) rest).

Inductive step : Pipe -> Pipe -> Prop :=
| step_post s now_prev now payload sub' frame :
    plan_sub now_prev now payload (sub s) = (sub', frame) ->
    step s (mkPipe sub' (mon s) (down s ++ map (pending_bytes now payload) (option_list frame)) (consumed s) (up s))
| step_snapshot s now_prev now payload sub' sent :
    send_sub now_prev now payload (sub s) = (sub', sent) ->
    step s (mkPipe sub' (mon s) (down s ++ map (fun m => m.1.2) (option_list sent)) (consumed s) (up s))
| step_net s s' : net_step s s' -> step s s'.

(** A subscription that has been started, with the window of its INIT. *)
Definition started (sb : MonitorSub) (body : bytes) : Pipe :=
  let w := init_window 0x88 body (is_be sb) in
  mkPipe (mkSub (conn_id sb) (ioid sb) (version sb) (is_be sb) true true w (filtered_desc sb) None)
    (mkMonitorState true true w) [] 0 [].

(** [n] moves of the network. *)
Inductive net_run : nat -> Pipe -> Pipe -> Prop :=
| net_done s : net_run O s s
| net_more n s s' s'' : net_step s s' -> net_run n s' s'' -> net_run (S n) s s''.

Inductive reachable (init : Pipe) : Pipe -> Prop :=
| reach_init : reachable init init
| reach_step s s' : reachable init s -> step s s' -> reachable init s'.

End Steps.

(** ** Frames and ACKs are recognised *)

(** Every frame of the builders is data for the subscriber's operation. *)
Lemma built_frame_data now_prev now sb payload b :
  u32_ok (ioid sb) = true -> build_monitor_frame now_prev now sb payload = Some b ->
  is_Some (monitor_data_body b (ioid sb) (is_be sb)).
Proof.
  intros Hi H. unfold build_monitor_frame in H.
  assert (exists bitset values, b = finish_monitor_data (ioid sb) 0 (version sb) bitset values (is_be sb)) as (x & y & ->).
  { unfold encode_monitor_data_response_filtered in H. rewrite monitor_full_frame in H.
    destruct (last_snapshot sb) as [prev|], (filtered_desc sb) as [desc|];
      [destruct (negb _); [discriminate|] |destruct (payload_eq prev payload); [discriminate|] | |];
      destruct (NtView.encode_nt_payload_filtered _ _ _ _) as [x y] eqn:E || idtac; injection H as <-; eauto. }
  rewrite body_of_frame by done. eauto.
Qed.

Definition ack_frame (sid ioid n : Z) (is_be : bool) : bytes :=
  encode_monitor_request sid ioid 0x80 (put_int is_be 4 n) PVA_VERSION is_be.

Lemma monitor_request_decodes sid ioid subcmd body is_be :
  u32_ok sid = true -> u32_ok ioid = true -> zlen body <= u32_max - 32 ->
  decode_bytes (encode_monitor_request sid ioid subcmd body PVA_VERSION is_be)
  = Ok (Packet.Op (Packet.mkOp sid ioid subcmd body 13 false None None None)).
Proof.
  intros Hs Hi Hb. unfold encode_monitor_request, encode_op_request.
  rewrite <- (app_nil_r (frame _ _ _ _ _)). apply decode_bytes_frame.
  - autorewrite with codec_len. unfold u32_max in *. cbn. lia.
  - dispatch. now rewrite op_request_encode.
Qed.

Lemma ack_handled sid n sb full_desc mon :
  u32_ok sid = true -> u32_ok (ioid sb) = true -> 0 <= n < 2 ^ 32 ->
  handle_monitor (ack_frame sid (ioid sb) n (is_be sb)) (version sb) (is_be sb) (conn_id sb) full_desc [sb] (Some mon)
  = ([mkSub (conn_id sb) (ioid sb) (version sb) (is_be sb) (m_running mon) true (Z.min n MAX_PIPELINE_WINDOW)
        (filtered_desc sb) (last_snapshot sb)],
     Some (mkMonitorState (m_running mon) true (Z.min (Z.min (m_nfree mon + n) u32_max) MAX_PIPELINE_WINDOW))).
Proof.
  intros Hs Hi Hn. unfold handle_monitor, ack_frame. rewrite monitor_request_decodes by (done || (rewrite zlen_put_int; done)).
 
  cbn [Packet.subcmd Packet.ioid Z.land Z.eqb negb orb Pos.land].
  unfold monitor_control. cbn [Packet.subcmd Packet.body]. rewrite zlen_put_int.
  rewrite take_ge by (pose proof (zlen_put_int (is_be sb) 4 n); unfold zlen in *; lia).
  rewrite get_put_int_small by (cbn; lia). unfold update_monitor_subscription, alter_sub, update_sub.
  now rewrite !Z.eqb_refl.
Qed.

(** The client's INIT and START put the subscription in the state [started]: the
    handler's two arms on the frames the client encodes. *)
Lemma started_by_handshake sid ioid version is_be conn full req queue :
  u32_ok sid = true -> u32_ok ioid = true -> zlen req <= u32_max - 64 ->
  let body := init_body req queue is_be in
  let '(_, has_filter) := apply_pv_request_filter full body is_be in
  let '(subs, mon) :=
    handle_monitor (encode_monitor_request sid ioid 0x88 body PVA_VERSION is_be) version is_be conn (Some full) [] None in
  handle_monitor (encode_monitor_request sid ioid 0x44 [] PVA_VERSION is_be) version is_be conn (Some full) subs mon
  = ([sub (started (mkSub conn ioid version is_be false true 0
              (if has_filter then Some (apply_pv_request_filter full body is_be).1 else None) None) body)],
     Some (Pipeline.mon (started (mkSub conn ioid version is_be false true 0 None None) body))).
Proof.
  intros Hs Hi Hl body. destruct (apply_pv_request_filter full body is_be) as [desc has_filter] eqn:Ef.
  unfold handle_monitor. rewrite !monitor_request_decodes; [|done|done| |done|done|].
  - cbn [Packet.subcmd Packet.ioid Z.land Z.eqb negb orb Pos.land]. unfold monitor_init.
    cbn [Packet.subcmd Packet.body Packet.ioid]. rewrite Ef. unfold monitor_control.
    cbn [Packet.subcmd Packet.body app]. change (Z.land 136 8) with 8. change (Z.land 136 128) with 128.
    change (Z.land 68 8) with 0. change (Z.land 68 16) with 0. change (Z.land 68 4) with 4. change (Z.land 68 68) with 68.
    change (Z.land 68 128) with 0. cbn [Z.eqb Pos.eqb negb orb andb].
    unfold update_monitor_subscription. cbn [alter_sub conn_id MonitorHub.ioid]. rewrite !Z.eqb_refl. reflexivity.
  - done.
  - unfold body, init_body. rewrite zlen_app, zlen_put_int. lia.
Qed.

(** ** The invariant *)

Section Invariant.
Context (sid queue window : Z).
Abbreviation t := (ack_threshold queue).

Record pipe_ok (s : Pipe) : Prop := {
  ok_ids : u32_ok sid = true /\ u32_ok (ioid (sub s)) = true;
  ok_running : running (sub s) = true /\ pipeline_enabled (sub s) = true /\ m_running (mon s) = true;
  ok_down : Forall (fun f => is_Some (monitor_data_body f (ioid (sub s)) (is_be (sub s)))) (down s);
  ok_up : Forall (eq (ack_frame sid (ioid (sub s)) t (is_be (sub s)))) (up s);
  ok_nfree : 0 <= nfree (sub s);
  ok_consumed : 0 <= consumed s < t;
  ok_bound : nfree (sub s) + zlen (down s) + consumed s + t * zlen (up s) <= window;
  ok_credit : up s = [] -> t <= nfree (sub s) + zlen (down s) + consumed s }.

Lemma threshold_pos : 1 <= t.
Proof. unfold ack_threshold. lia. Qed.

(** A charged frame moves one credit onto the wire. *)
Lemma sent_ok s sb frames :
  pipe_ok s -> conn_id sb = conn_id (sub s) -> ioid sb = ioid (sub s) -> is_be sb = is_be (sub s) ->
  running sb = true -> pipeline_enabled sb = true ->
  Forall (fun f => is_Some (monitor_data_body f (ioid (sub s)) (is_be (sub s)))) frames ->
  0 <= nfree sb -> nfree sb + zlen frames = nfree (sub s) ->
  pipe_ok (mkPipe sb (mon s) (down s ++ frames) (consumed s) (up s)).
Proof.
  intros [H1 H2 H3 H4 H5 H6 H7 H8] Hc Hi Hb Hr Hp Hf Hn Heq.
  split; cbn [sub mon down consumed up]; rewrite ?Hi, ?Hb, ?zlen_app; try tauto.
  - now apply Forall_app.
  - lia.
  - intros E. specialize (H8 E). lia.
Qed.

Lemma send_ok s now_prev now payload sb sent :
  pipe_ok s -> send_sub now_prev now payload (sub s) = (sb, sent) ->
  pipe_ok (mkPipe sb (mon s) (down s ++ map (fun m => m.1.2) (option_list sent)) (consumed s) (up s)).
Proof.
  intros Hok E. pose proof Hok as [[_ Hi] (Hr & Hp & _) _ _ Hn _ _ _]. unfold send_sub in E. rewrite Hr, Hp in E.
  cbn [negb andb] in E.
  assert (forall sb', (sub s, None) = (sb', sent) ->
    pipe_ok (mkPipe sb' (mon s) (down s ++ map (fun m => m.1.2) (option_list sent)) (consumed s) (up s))) as Hsame.
  { intros sb' [= <- <-]. cbn. rewrite app_nil_r. now destruct s. }
  destruct (nfree (sub s) =? 0) eqn:E0; [now apply Hsame|]. apply Z.eqb_neq in E0.
  destruct (build_monitor_frame now_prev now (sub s) payload) as [b|] eqn:Eb; [|now apply Hsame].
  injection E as <- <-. apply sent_ok; try done.
  - repeat constructor. now apply (built_frame_data now_prev now (sub s) payload).
  - cbn. rewrite Hp. cbn. destruct (Z.ltb_spec 0 (nfree (sub s))); lia.
  - cbn. rewrite Hp. cbn. destruct (Z.ltb_spec 0 (nfree (sub s))); change (zlen [b]) with 1; lia.
Qed.

Lemma consume_ok s f rest consumed' ack :
  pipe_ok s -> queue <= u32_max -> down s = f :: rest ->
  client_consume (consumed s) t sid (ioid (sub s)) (is_be (sub s)) f = (consumed', ack) ->
  pipe_ok (mkPipe (sub s) (mon s) rest consumed' (up s ++ option_list ack)).
Proof.
  intros [H1 H2 H3 H4 H5 H6 H7 H8] Hq Ed E. pose proof threshold_pos. rewrite Ed, zlen_cons in *.
  apply Forall_cons in H3 as [[body Hf] H3]. unfold client_consume, pipeline_ack_on_consume in E. rewrite Hf in E.
  assert (t <= u32_max) by (unfold ack_threshold, u32_max in *; pose proof (Z.div_le_upper_bound queue 2 (2 ^ 32 - 1)); lia).
  rewrite Z.min_l in E by lia. destruct (Z.leb_spec t (consumed s + 1)); injection E as <- <-; unfold option_list, option_rect.
  - assert (consumed s + 1 = t) as Et by lia. split; cbn [sub mon down consumed up]; rewrite ?zlen_app; try tauto.
    + apply Forall_app. split; [done|]. constructor; [|constructor]. unfold ack_frame. now rewrite Et.
    + lia.
    + match goal with |- context [zlen [?x]] => change (zlen [x]) with 1 end. rewrite Z.mul_add_distr_l. lia.
    + intros Ec. now apply app_eq_nil in Ec as [_ ?].
  - rewrite app_nil_r. split; cbn [sub mon down consumed up]; try tauto; lia || (intros Ec; specialize (H8 Ec); lia).
Qed.

Lemma acked_ok s a rest full_desc sb m :
  pipe_ok s -> t <= MAX_PIPELINE_WINDOW -> up s = a :: rest ->
  handle_monitor a (version (sub s)) (is_be (sub s)) (conn_id (sub s)) full_desc [sub s] (Some (mon s)) = ([sb], Some m) ->
  pipe_ok (mkPipe sb m (down s) (consumed s) rest).
Proof.
  intros [H1 H2 H3 H4 H5 H6 H7 H8] Hm Eu E. pose proof threshold_pos. rewrite Eu, zlen_cons in *.
  apply Forall_cons in H4 as [<- H4]. pose proof (zlen_nonneg rest).
  rewrite ack_handled in E; [|tauto|tauto|unfold MAX_PIPELINE_WINDOW in *; lia].
  injection E as <- <-. rewrite Z.min_l by done. rewrite Z.mul_add_distr_l in H7.
  split; cbn [sub mon down consumed up ioid is_be nfree running pipeline_enabled m_running]; try tauto; try lia.
  intros _. pose proof (zlen_nonneg (down s)). lia.
Qed.

Lemma net_ok s s' :
  queue <= u32_max -> t <= MAX_PIPELINE_WINDOW -> pipe_ok s -> net_step sid queue s s' -> pipe_ok s'.
Proof. intros Hq Hm Hok H. destruct H as [s f rest c ack Ed E|s a rest fd sb m Eu E]; [eapply consume_ok|eapply acked_ok]; eauto. Qed.

Lemma step_ok s s' :
  queue <= u32_max -> t <= MAX_PIPELINE_WINDOW -> pipe_ok s -> step sid queue s s' -> pipe_ok s'.
Proof.
  intros Hq Hm Hok H. destruct H as [s np now p sb fr E|s np now p sb sent E|s s' H].
  - destruct (plan_sub_send np now p (sub s)) as (E1 & E2 & _). rewrite E in E1, E2. cbn in E1, E2.
    replace (map (pending_bytes now p) (option_list fr)) with (map (fun m => m.1.2) (option_list (send_sub np now p (sub s)).2))
      by (rewrite <- E2; now destruct fr).
    subst sb. eapply send_ok; [exact Hok|]. apply surjective_pairing.
  - eapply send_ok; eauto.
  - eapply net_ok; eauto.
Qed.

(** ** The network comes to rest *)

Definition in_flight (s : Pipe) : nat := 2 * length (down s) + length (up s).

Lemma net_shrinks s s' : net_step sid queue s s' -> (in_flight s' < in_flight s)%nat.
Proof.
  unfold in_flight. intros H. destruct H as [s f rest c ack Ed E|s a rest fd sb m Eu E]; cbn [down up].
  - rewrite Ed, length_app. cbn [length]. destruct ack; cbn; lia.
  - rewrite Eu. cbn [length]. lia.
Qed.

Lemma net_run_length n s s' : net_run sid queue n s s' -> (n + in_flight s' <= in_flight s)%nat.
Proof. induction 1 as [|n s s' s'' H _ IH]; [lia|]. apply net_shrinks in H. lia. Qed.

(** Whatever is in flight can move. *)
Lemma net_progress s : pipe_ok s -> t <= MAX_PIPELINE_WINDOW -> down s = [] /\ up s = [] \/ exists s', net_step sid queue s s'.
Proof.
  intros [[Hs Hi] _ _ Hu _ _ _ _] Hm. destruct (down s) as [|f rest] eqn:Ed.
  - destruct (up s) as [|a rest] eqn:Eu; [auto|]. right. apply Forall_cons in Hu as [<- _].
    pose proof threshold_pos. eexists. eapply (step_ack _ _ _ _ _ None); [exact Eu|]. apply ack_handled; auto.
    unfold MAX_PIPELINE_WINDOW in *. lia.
  - right. destruct (client_consume (consumed s) t sid (ioid (sub s)) (is_be (sub s)) f) as [c ack] eqn:E.
    eexists. eapply step_frame; eauto.
Qed.

Lemma net_rests s :
  queue <= u32_max -> t <= MAX_PIPELINE_WINDOW -> pipe_ok s ->
  exists n s', net_run sid queue n s s' /\ pipe_ok s' /\ down s' = [] /\ up s' = [].
Proof.
  intros Hq Hm. remember (in_flight s) as k eqn:Ek. revert s Ek.
  induction k as [k IH] using lt_wf_ind. intros s -> Hok.
  destruct (net_progress s Hok Hm) as [[Hd Hu]|[s' Hs]].
  - exists O, s. split; [constructor|done].
  - destruct (IH (in_flight s')) with (s := s') as (n & s'' & Hr & Hrest); auto using net_shrinks.
    { eapply net_ok; eauto. }
    exists (S n), s''. split; [econstructor; eauto|done].
Qed.
End Invariant.

(** ** From INIT on *)

Lemma init_window_spec req queue be :
  0 <= queue < 2 ^ 32 -> init_window 0x88 (init_body req queue be) be = Z.min queue MAX_PIPELINE_WINDOW.
Proof.
  intros Hq. unfold init_window, init_body. pose proof (zlen_nonneg req). pose proof (zlen_put_int be 4 queue) as Hl.
  rewrite zlen_app, Hl. destruct (_ && _) eqn:E; [|apply andb_false_iff in E as [E|E]; [discriminate|bool_to_prop; lia]].
  assert (length (put_int be 4 queue) = 4%nat) as H4 by (unfold zlen in Hl; lia).
  rewrite length_app, H4, drop_app_length' by lia. rewrite take_ge by lia. now rewrite get_put_int_small by (cbn; lia).
Qed.

(** The client acknowledges within the server's ceiling. *)
Lemma threshold_small queue : 1 <= queue <= 8193 -> ack_threshold queue <= MAX_PIPELINE_WINDOW.
Proof. intros H. unfold ack_threshold, MAX_PIPELINE_WINDOW. pose proof (Z.div_lt_upper_bound queue 2 4097). lia. Qed.

Section Started.
Context (sid queue : Z) (sb : MonitorSub) (req : bytes).
Hypothesis sid_ok : u32_ok sid = true.
Hypothesis ioid_ok : u32_ok (ioid sb) = true.
Hypothesis queue_ok : 1 <= queue < 2 ^ 32.

Abbreviation start := (started sb (init_body req queue (is_be sb))).

Lemma started_ok : ack_threshold queue <= MAX_PIPELINE_WINDOW -> pipe_ok sid queue (Z.min queue MAX_PIPELINE_WINDOW) start.
Proof.
  intros Hm. pose proof (threshold_pos queue). unfold started. rewrite init_window_spec by lia.
  unfold MAX_PIPELINE_WINDOW in *.
  assert (ack_threshold queue <= queue) by (unfold ack_threshold; pose proof (Z.div_le_upper_bound queue 2 queue); lia).
  split; cbn [sub mon down consumed up nfree running pipeline_enabled m_running ioid is_be]; rewrite ?zlen_nil;
    try done; try lia; constructor.
Qed.

Lemma reachable_ok s :
  ack_threshold queue <= MAX_PIPELINE_WINDOW -> reachable sid queue start s ->
  pipe_ok sid queue (Z.min queue MAX_PIPELINE_WINDOW) s.
Proof.
  intros Hm H. induction H as [|s s' _ IH Hs]; [now apply started_ok|]. eapply step_ok; eauto. unfold u32_max. lia.
Qed.
End Started.

(** ** Claims *)

(** Flow control holds the window: at any time the credit the server has
    left, the updates on the wire, those the client has not acknowledged yet and
    those covered by ACKs on the wire together stay within the queue size the
    client asked for and within the server's ceiling. *)
Theorem pipeline_window_kept sid queue sb req s :
  u32_ok sid = true -> u32_ok (ioid sb) = true -> 1 <= queue <= 8193 ->
  reachable sid queue (started sb (init_body req queue (is_be sb))) s ->
  0 <= nfree (sub s) /\ 0 <= consumed s < ack_threshold queue /\
  nfree (sub s) + zlen (down s) + consumed s + ack_threshold queue * zlen (up s)
    <= Z.min queue MAX_PIPELINE_WINDOW.
Proof.
  intros Hs Hi Hq Hr. destruct (reachable_ok sid queue sb req Hs Hi ltac:(lia) s) as [_ _ _ _ ? ? ? _]; auto.
  now apply threshold_small.
Qed.

(** C12: a pipelined subscription with a queue of 1 to 8193 updates never stalls: from
    every reachable state the network comes to rest after a bounded number of
    moves, whatever their order, it can come to rest, and in every state at rest
    the server has credit, so the next update that has something to say is sent.
    The bound is sharp: [pipeline_stalls_above_ceiling] has a larger queue. *)
Theorem pipeline_never_stalls sid queue sb req s :
  u32_ok sid = true -> u32_ok (ioid sb) = true -> 1 <= queue <= 8193 ->
  reachable sid queue (started sb (init_body req queue (is_be sb))) s ->
  (forall n s', net_run sid queue n s s' -> (n <= 2 * length (down s) + length (up s))%nat) /\
  (exists n s', net_run sid queue n s s' /\ down s' = [] /\ up s' = []) /\
  (down s = [] -> up s = [] -> 0 < nfree (sub s) /\
     forall now_prev now payload, is_Some (build_monitor_frame now_prev now (sub s) payload) ->
       is_Some (plan_sub now_prev now payload (sub s)).2).
Proof.
  intros Hs Hi Hq Hr.
  pose proof (threshold_small queue Hq) as Hm.
  pose proof (reachable_ok sid queue sb req Hs Hi ltac:(lia) s Hm Hr) as Hok. split_and!.
  - intros n s' H. apply net_run_length in H. unfold in_flight in H. lia.
  - destruct (net_rests sid queue _ s ltac:(unfold u32_max; lia) Hm Hok) as (n & s' & H & _ & Hrest). eauto.
  - intros Hd Hu. destruct Hok as [_ (Hrun & Hp & _) _ _ Hn Hc _ Hcr]. specialize (Hcr Hu). rewrite Hd, zlen_nil in Hcr.
    split; [lia|]. intros np now p [b Hb].
    destruct (plan_sub_send np now p (sub s)) as (_ & E & _).
    destruct (plan_sub np now p (sub s)) as [sb' [fr|]]; [eauto|]. cbn in E. unfold send_sub in E.
    rewrite Hrun, Hp, Hb in E. cbn [negb andb] in E. destruct (Z.eqb_spec (nfree (sub s)) 0); [lia|done].
Qed.

Definition sample_sub : MonitorSub := mkSub 1 42 2 false false true 0 None None.

Definition sample_payload (k : Z) : NtPayload :=
  Enum (mkEnum k [] default_alarm default_time_stamp).

Lemma pipeline_window_kept_witness :
  0 <= nfree (sub (started sample_sub (init_body [] 8 false))) /\
  0 <= consumed (started sample_sub (init_body [] 8 false)) < ack_threshold 8 /\
  nfree (sub (started sample_sub (init_body [] 8 false))) + zlen (down (started sample_sub (init_body [] 8 false)))
    + consumed (started sample_sub (init_body [] 8 false))
    + ack_threshold 8 * zlen (up (started sample_sub (init_body [] 8 false))) <= Z.min 8 MAX_PIPELINE_WINDOW.
Proof.
  apply (pipeline_window_kept 3 8 sample_sub []); [reflexivity|reflexivity|lia|constructor].
Defined.

Lemma pipeline_never_stalls_witness :
  exists n s', net_run 3 8 n (started sample_sub (init_body [] 8 false)) s' /\ down s' = [] /\ up s' = [].
Proof.
  apply (pipeline_never_stalls 3 8 sample_sub []); [reflexivity|reflexivity|lia|constructor].
Defined.

(** ** A queue larger than twice the ceiling *)

Section Large.
Context (sid queue : Z).
Hypothesis queue_large : 8194 <= queue < 2 ^ 32.

(** The subscription after [k] updates, all of them consumed. *)
Definition after (k : Z) : Pipe :=
  mkPipe (mkSub 1 42 2 false true true (MAX_PIPELINE_WINDOW - k) None
            (if k =? 0 then None else Some (sample_payload (k - 1))))
    (mkMonitorState true true MAX_PIPELINE_WINDOW) [] k [].

Lemma sample_frame now k :
  exists body, monitor_data_body (encode_monitor_data_response_payload now 42 0 (sample_payload k) 2 false) 42 false
               = Some body.
Proof. rewrite monitor_full_frame, body_of_frame by done. eauto. Qed.

Lemma after_step k :
  0 <= k < MAX_PIPELINE_WINDOW -> reachable sid queue (after 0) (after k) -> reachable sid queue (after 0) (after (k + 1)).
Proof.
  unfold MAX_PIPELINE_WINDOW. intros Hk Hr.
  set (frame := encode_monitor_data_response_payload (0, 0) 42 0 (sample_payload k) 2 false).
  set (mid := mkPipe (charge (sub (after k)) (sample_payload k)) (mon (after k)) [frame] k []).
  assert (step sid queue (after k) mid) as Hpost.
  { apply (step_post sid queue (after k) (0, 0) (0, 0) (sample_payload k) _ (Some (mkPending 1 42 2 false true None))).
    unfold plan_sub. cbn [after sub running negb pipeline_enabled nfree filtered_desc last_snapshot andb].
    destruct (Z.eqb_spec (MAX_PIPELINE_WINDOW - k) 0) as [E|_]; [unfold MAX_PIPELINE_WINDOW in E; lia|].
    replace (match (if k =? 0 then None else Some (sample_payload (k - 1))) with
             | Some prev => payload_eq prev (sample_payload k) | None => false end) with false; [reflexivity|].
    destruct (k =? 0); [done|]. cbn. unfold enum_eq. cbn [enum_index]. now destruct (Z.eqb_spec (k - 1) k); [lia|]. }
  assert (client_consume k (ack_threshold queue) sid 42 false frame = (k + 1, None)) as Hc.
  { unfold client_consume. destruct (sample_frame (0, 0) k) as [body E]. fold frame in E. rewrite E.
    unfold pipeline_ack_on_consume. rewrite Z.min_l by (unfold u32_max; lia).
    unfold ack_threshold. pose proof (Z.div_le_lower_bound queue 2 4097).
    destruct (Z.leb_spec (Z.max (queue / 2) 1) (k + 1)); [lia|done]. }
  pose proof (step_frame sid queue mid frame [] (k + 1) None eq_refl Hc) as Hnet.
  replace (after (k + 1)) with (mkPipe (sub mid) (mon mid) [] (k + 1) (up mid ++ option_list None)).
  { eapply reach_step; [eapply reach_step; [exact Hr|exact Hpost]|]. now apply step_net. }
  unfold mid, after, charge. cbn [sub mon conn_id ioid version is_be running pipeline_enabled nfree filtered_desc andb up].
  destruct (Z.ltb_spec 0 (MAX_PIPELINE_WINDOW - k)); [|unfold MAX_PIPELINE_WINDOW in *; lia].
  destruct (Z.eqb_spec (k + 1) 0); [lia|]. rewrite Z.add_simpl_r, Z.sub_add_distr. reflexivity.
Qed.

Lemma after_all k : 0 <= k -> k <= MAX_PIPELINE_WINDOW -> reachable sid queue (after 0) (after k).
Proof.
  revert k. apply (natlike_ind (fun k => k <= MAX_PIPELINE_WINDOW -> reachable sid queue (after 0) (after k))).
  - intros _. apply reach_init.
  - intros k Hk IH H. apply after_step; [lia|]. apply IH. lia.
Qed.
End Large.

(** With a queue size of 8194 or more the subscription stalls for good: the
    server grants 4096 credits, the client waits for more than 4096 updates
    before its first ACK.  The state is reachable, and no step changes it. *)
Theorem pipeline_stalls_above_ceiling sid queue :
  8194 <= queue < 2 ^ 32 ->
  exists s, reachable sid queue (started sample_sub (init_body [] queue false)) s /\
    nfree (sub s) = 0 /\ down s = [] /\ up s = [] /\ forall s', step sid queue s s' -> s' = s.
Proof.
  intros Hq. exists (after MAX_PIPELINE_WINDOW). split.
  - replace (started sample_sub (init_body [] queue false)) with (after 0); [now apply after_all|].
    unfold started. rewrite init_window_spec by lia. rewrite Z.min_r by (unfold MAX_PIPELINE_WINDOW; lia). reflexivity.
  - split_and!; try done. intros s' H. inversion H as [s np now p sb fr E|s np now p sb sent E|s s'' E]; subst.
    + cbn in E. injection E as <- <-. reflexivity.
    + cbn in E. injection E as <- <-. reflexivity.
    + inversion E as [s f rest c ack Ed|s a rest fd sb m Eu]; subst; discriminate.
Qed.

Lemma pipeline_stalls_above_ceiling_witness :
  exists s, reachable 3 10000 (started sample_sub (init_body [] 10000 false)) s /\
    nfree (sub s) = 0 /\ down s = [] /\ up s = [] /\ forall s', step 3 10000 s s' -> s' = s.
Proof. apply (pipeline_stalls_above_ceiling 3 10000). lia. Defined.

(** An ACK replaces the credit that gates the fan-out: with 3 credits left and 5
    acknowledged the registry holds 5, while the connection's own record holds
    8. *)
Theorem ack_replaces_credit :
  let sb := mkSub 1 42 2 false true true 3 None None in
  let '(subs, mon) := handle_monitor (ack_frame 7 42 5 false) 2 false 1 None [sb] (Some (mkMonitorState true true 3)) in
  map nfree subs = [5] /\ m_nfree <$> mon = Some 8.
Proof. vm_compute. done. Qed.

End Pipeline.
