(* ===== verification/ConnWriter.v ===== *)
(** * The per-connection writer

    Models [spvirit-server/src/conn_writer.rs]: the two lanes of a connection,
    the flusher election and the drain loop.  Producers and the flusher
    interleave: a step is one critical section of the coalescing lock, one
    socket write or the failure of the socket.  The inline flusher and the
    continuation it hands over to run the same loop, so the model has one
    flusher; the order in which a [HashMap] is drained is left open. *)

From stdpp Require Import gmap.
From S2P Require Import Prelude.

Local Open Scope Z_scope.

Module ConnWriter.

(** ** State *)

Record Coalesce := mkCoalesce {
  control : list bytes;
  monitor : gmap Z bytes;
  flushing : bool;
  dead : bool;
  backlog : Z }.

Definition default_coalesce : Coalesce := mkCoalesce [] ∅ false false 0.

Definition BACKLOG_HIGH_WATER : Z := 4 * 1024 * 1024.

(** What is deposited: a frame of the priority lane, or the latest frame of a
    monitor. *)
Inductive Deposit := Ctl (frame : bytes) | Mon (ioid : Z) (frame : bytes).

Definition frame_of (d : Deposit) : bytes := match d with Ctl b => b | Mon _ b => b end.

(** Deposits change the lanes under one lock acquisition; the second result is
    [true] when the caller won the election. *)
Definition send_control (c : Coalesce) (b : bytes) : Coalesce * bool :=
  if dead c then (c, false)
  else
    let c' := mkCoalesce (control c ++ [b]) (monitor c) (flushing c) (dead c) (backlog c + zlen b) in
    if flushing c then (c', false)
    else (mkCoalesce (control c') (monitor c') true (dead c') (backlog c'), true).

Definition send_monitor (c : Coalesce) (ioid : Z) (b : bytes) : Coalesce * bool :=
  if dead c then (c, false)
  else
    let backlog' := backlog c + zlen b in
    let backlog' := match monitor c !! ioid with Some stale => backlog' - zlen stale | None => backlog' end in
    let c' := mkCoalesce (control c) (<[ioid := b]> (monitor c)) (flushing c) (dead c) backlog' in
    if flushing c then (c', false)
    else (mkCoalesce (control c') (monitor c') true (dead c') (backlog c'), true).

Definition deposit (c : Coalesce) (d : Deposit) : Coalesce * bool :=
  match d with Ctl b => send_control c b | Mon ioid b => send_monitor c ioid b end.

(** [take_batch], with the monitor lane drained in the order [drained]. *)
Definition take_batch (c : Coalesce) (drained : list (Z * bytes)) : Coalesce * option bytes :=
  match control c, drained with
  | [], [] => (mkCoalesce [] (monitor c) false (dead c) (backlog c), None)
  | _, _ =>
    (mkCoalesce [] ∅ (flushing c) (dead c) (backlog c),
     Some (concat (control c) ++ concat (map snd drained)))
  end.

Definition wrote (c : Coalesce) (n : Z) : Coalesce :=
  mkCoalesce (control c) (monitor c) (flushing c) (dead c) (saturating_sub (backlog c) n).

Definition mark_dead (c : Coalesce) : Coalesce := mkCoalesce [] ∅ false true 0.

(** The request loop of the connection waits while this is [true]. *)
Definition backpressured (c : Coalesce) : bool := negb (dead c) && (BACKLOG_HIGH_WATER <? backlog c).

(** ** The flusher *)

Inductive Flusher :=
| Idle
| Taking                          (** holds the election, about to drain *)
| Writing (batch : bytes) (off : Z).

(** The connection, what the socket has accepted, and two histories: the deposits
    that were accepted, in order, and the frames that were drained, in order. *)
Record Conn := mkConn {
  lanes : Coalesce;
  flusher : Flusher;
  wire : bytes;
  deposits : list Deposit;
  drained : list Deposit }.

Definition initial : Conn := mkConn default_coalesce Idle [] [] [].

(** The flusher's own moves.  The socket accepts any non-empty part of what is
    offered, or fails. *)
Inductive drain_step : Conn -> Conn -> Prop :=
| step_take s order c' batch :
    flusher s = Taking -> order ≡ₚ map_to_list (monitor (lanes s)) ->
    take_batch (lanes s) order = (c', batch) ->
    drain_step s (mkConn c' (match batch with Some b => Writing b 0 | None => Idle end) (wire s) (deposits s)
              (drained s ++ map Ctl (control (lanes s)) ++ map (fun m => Mon m.1 m.2) order))
| step_write s batch off n :
    flusher s = Writing batch off -> 0 < n <= zlen batch - off ->
    drain_step s (mkConn (lanes s) (Writing batch (off + n)) (wire s ++ take (Z.to_nat n) (drop (Z.to_nat off) batch))
              (deposits s) (drained s))
| step_wrote s batch :
    flusher s = Writing batch (zlen batch) ->
    drain_step s (mkConn (wrote (lanes s) (zlen batch)) Taking (wire s) (deposits s) (drained s))
| step_fail s :
    flusher s <> Idle ->
    drain_step s (mkConn (mark_dead (lanes s)) Idle (wire s) (deposits s) (drained s)).

Inductive step : Conn -> Conn -> Prop :=
| step_deposit s d c' won :
    deposit (lanes s) d = (c', won) ->
    step s (mkConn c' (if won then Taking else flusher s) (wire s)
              (if dead (lanes s) then deposits s else deposits s ++ [d]) (drained s))
| step_drain s s' : drain_step s s' -> step s s'.

Inductive reachable : Conn -> Prop :=
| reach_init : reachable initial
| reach_step s s' : reachable s -> step s s' -> reachable s'.

(** ** What was deposited and drained *)

Definition ctl_of (l : list Deposit) : list bytes := omap (fun d => match d with Ctl b => Some b | Mon _ _ => None end) l.
Definition mon_of (ioid : Z) (l : list Deposit) : list bytes :=
  omap (fun d => match d with Mon i b => if decide (i = ioid) then Some b else None | Ctl _ => None end) l.

Lemma ctl_of_app a b : ctl_of (a ++ b) = ctl_of a ++ ctl_of b.
Proof. apply omap_app. Qed.

Lemma mon_of_app i a b : mon_of i (a ++ b) = mon_of i a ++ mon_of i b.
Proof. apply omap_app. Qed.

Lemma ctl_of_batch ctl (order : list (Z * bytes)) :
  ctl_of (map Ctl ctl ++ map (fun m => Mon m.1 m.2) order) = ctl.
Proof.
  rewrite ctl_of_app. replace (ctl_of (map (fun m => Mon m.1 m.2) order)) with (@nil bytes) by (induction order; done).
  rewrite app_nil_r. induction ctl as [|b ctl IH]; cbn; [done|]. f_equal. exact IH.
Qed.

Lemma mon_of_order i (order : list (Z * bytes)) :
  NoDup order.*1 -> mon_of i (map (fun m => Mon m.1 m.2) order) = option_list ((list_to_map order : gmap Z bytes) !! i).
Proof.
  induction order as [|[k b] order IH]; [done|]. cbn [fmap list_fmap fst]. intros [Hk Hn]%NoDup_cons.
  cbn [map list_to_map foldr uncurry fst snd]. unfold mon_of. cbn. fold (mon_of i (map (fun m => Mon m.1 m.2) order)).
  rewrite IH by done. destruct (decide (k = i)) as [->|Hne].
  - rewrite lookup_insert_eq. rewrite not_elem_of_list_to_map_1 by done. done.
  - now rewrite lookup_insert_ne.
Qed.

Lemma mon_of_batch i ctl (order : list (Z * bytes)) (m : gmap Z bytes) :
  order ≡ₚ map_to_list m ->
  mon_of i (map Ctl ctl ++ map (fun m => Mon m.1 m.2) order) = option_list (m !! i).
Proof.
  intros Hp. rewrite mon_of_app. replace (mon_of i (map Ctl ctl)) with (@nil bytes) by (induction ctl; done).
  assert (NoDup order.*1) as Hn by (rewrite Hp; apply NoDup_fst_map_to_list).
  cbn [app]. rewrite mon_of_order by done. do 2 f_equal.
  rewrite <- (list_to_map_to_list m). now apply list_to_map_proper.
Qed.

(** Bytes waiting in the lanes. *)
Fixpoint sizes (l : list bytes) : Z := match l with [] => 0 | b :: l => zlen b + sizes l end.
Definition lane_bytes (m : gmap Z bytes) : Z := sizes (map_to_list m).*2.

Lemma sizes_app a b : sizes (a ++ b) = sizes a + sizes b.
Proof. induction a as [|x a IH]; cbn; [done|]. rewrite IH. lia. Qed.

#[export] Instance sizes_perm : Proper ((≡ₚ) ==> eq) sizes.
Proof. induction 1; cbn; lia. Qed.

Lemma sizes_concat l : sizes l = zlen (concat l).
Proof. induction l as [|x l IH]; cbn; [done|]. rewrite zlen_app. lia. Qed.

Lemma lane_bytes_empty : lane_bytes ∅ = 0.
Proof. unfold lane_bytes. now rewrite map_to_list_empty. Qed.

Lemma lane_bytes_insert m i b :
  lane_bytes (<[i := b]> m)
  = lane_bytes m + zlen b - match m !! i with Some stale => zlen stale | None => 0 end.
Proof.
  unfold lane_bytes. destruct (m !! i) as [stale|] eqn:E.
  - rewrite <- insert_delete_eq, map_to_list_insert by apply lookup_delete_eq.
    rewrite <- (insert_delete_id m i stale E) at 2. rewrite map_to_list_insert by apply lookup_delete_eq.
    cbn. lia.
  - rewrite map_to_list_insert by done. cbn. lia.
Qed.

(** ** The invariant *)

(** The bytes of the batch in the flusher's hands that the socket has not
    accepted yet, and the length of the batch. *)
Definition unwritten (f : Flusher) : bytes :=
  match f with Writing batch off => drop (Z.to_nat off) batch | _ => [] end.
Definition batch_len (f : Flusher) : Z := match f with Writing batch _ => zlen batch | _ => 0 end.

(** Nothing deposited is lost but stale monitor frames: [ctl] and [mon] are the
    lanes, [deps] the deposits and [outs] what was drained. *)
Record accounted (ctl : list bytes) (mon : gmap Z bytes) (deps outs : list Deposit) : Prop := {
  a_ctl : ctl_of deps = ctl_of outs ++ ctl;
  a_mon : forall i, let kept := mon_of i outs ++ option_list (mon !! i) in
    kept `sublist_of` mon_of i deps /\ last kept = last (mon_of i deps) }.

(** A live connection: one flusher exactly when the flag says so, nothing queued
    without one, and every byte accounted for. *)
Record live (s : Conn) : Prop := {
  l_flush : flushing (lanes s) = match flusher s with Idle => false | _ => true end;
  l_quiet : flusher s = Idle -> control (lanes s) = [] /\ monitor (lanes s) = ∅;
  l_off : forall batch off, flusher s = Writing batch off -> 0 <= off <= zlen batch;
  l_backlog : backlog (lanes s)
    = sizes (control (lanes s)) + lane_bytes (monitor (lanes s)) + batch_len (flusher s);
  l_wire : concat (map frame_of (drained s)) = wire s ++ unwritten (flusher s);
  l_kept : accounted (control (lanes s)) (monitor (lanes s)) (deposits s) (drained s) }.

(** A dead connection keeps what it has written. *)
Record stopped (s : Conn) : Prop := {
  s_idle : flusher s = Idle;
  s_wire : wire s `prefix_of` concat (map frame_of (drained s));
  s_ctl : ctl_of (drained s) `prefix_of` ctl_of (deposits s);
  s_mon : forall i, mon_of i (drained s) `sublist_of` mon_of i (deposits s) }.

Definition conn_ok (s : Conn) : Prop := if dead (lanes s) then stopped s else live s.

Lemma live_stopped s c : live s -> stopped (mkConn (mark_dead c) Idle (wire s) (deposits s) (drained s)).
Proof.
  intros [_ _ _ _ Hw [Hc Hm]]. split; cbn [flusher wire drained deposits]; [done|..].
  - rewrite Hw. now exists (unwritten (flusher s)).
  - rewrite Hc. now exists (control (lanes s)).
  - intros i. destruct (Hm i) as [Hs _]. etransitivity; [|exact Hs]. apply sublist_inserts_r. reflexivity.
Qed.

Lemma mon_of_mon i j b : mon_of i [Mon j b] = if decide (j = i) then [b] else [].
Proof. unfold mon_of. cbn. now destruct (decide (j = i)). Qed.

Lemma accounted_deposit ctl mon deps outs d :
  accounted ctl mon deps outs ->
  accounted (match d with Ctl b => ctl ++ [b] | Mon _ _ => ctl end)
    (match d with Ctl _ => mon | Mon i b => <[i := b]> mon end) (deps ++ [d]) outs.
Proof.
  intros [Hc Hm]. split.
  - rewrite ctl_of_app, Hc. destruct d; cbn; now rewrite <- ?app_assoc, ?app_nil_r.
  - intros i. rewrite mon_of_app. destruct (Hm i) as [Hs Hl]. destruct d as [b|j b].
    + change (mon_of i [Ctl b]) with (@nil bytes). now rewrite app_nil_r.
    + rewrite mon_of_mon. destruct (decide (j = i)) as [->|Hne].
      * rewrite lookup_insert_eq. cbn [option_list option_rect]. rewrite !last_snoc. split; [|done].
        apply sublist_app; [|reflexivity]. etransitivity; [|exact Hs]. apply sublist_inserts_r. reflexivity.
      * rewrite lookup_insert_ne, app_nil_r by done. done.
Qed.

Lemma accounted_take ctl mon deps outs order :
  accounted ctl mon deps outs -> order ≡ₚ map_to_list mon ->
  accounted [] ∅ deps (outs ++ map Ctl ctl ++ map (fun m => Mon m.1 m.2) order).
Proof.
  intros [Hc Hm] Hp. split.
  - now rewrite ctl_of_app, ctl_of_batch, app_nil_r.
  - intros i. rewrite mon_of_app, (mon_of_batch i ctl order mon Hp), lookup_empty, app_nil_r. apply Hm.
Qed.

(** Depositing in a live connection, with the flusher after the election. *)
Lemma deposit_lanes c d c' won :
  dead c = false -> deposit c d = (c', won) ->
  c' = mkCoalesce (match d with Ctl b => control c ++ [b] | Mon _ _ => control c end)
         (match d with Ctl _ => monitor c | Mon i b => <[i := b]> (monitor c) end) true false
         (backlog c + zlen (frame_of d)
          - match d with Mon i _ => match monitor c !! i with Some st => zlen st | None => 0 end | Ctl _ => 0 end)
  /\ won = negb (flushing c).
Proof.
  intros Hd E. destruct d as [b|i b]; cbn in E; unfold send_control, send_monitor in E; rewrite Hd in E;
    destruct (flushing c); injection E as <- <-; cbn; (split; [f_equal|done]); try lia; destruct (_ !! i); lia.
Qed.

Lemma deposit_live s d c won :
  live s -> dead (lanes s) = false -> deposit (lanes s) d = (c, won) ->
  live (mkConn c (if won then Taking else flusher s) (wire s) (deposits s ++ [d]) (drained s)) /\ dead c = false.
Proof.
  intros [Hf Hq Ho Hb Hw Hk] Hd E. apply deposit_lanes in E as [-> ->]; [|done]. split; [|done].
  assert (batch_len (if negb (flushing (lanes s)) then Taking else flusher s) = batch_len (flusher s) /\
          unwritten (if negb (flushing (lanes s)) then Taking else flusher s) = unwritten (flusher s) /\
          (if negb (flushing (lanes s)) then Taking else flusher s) <> Idle /\
          forall batch off, (if negb (flushing (lanes s)) then Taking else flusher s) = Writing batch off ->
            flusher s = Writing batch off) as (Hl & Hu & Hn & Hsame)
    by (rewrite Hf; destruct (flusher s); cbn; split_and!; congruence).
  split; cbn [lanes flusher control monitor flushing backlog wire deposits drained].
  - now destruct (if negb (flushing (lanes s)) then Taking else flusher s).
  - intros Hi. now destruct Hn.
  - intros batch off Hi. now apply Hsame, Ho in Hi.
  - rewrite Hl. destruct d; cbn [frame_of]; rewrite ?sizes_app, ?lane_bytes_insert, Hb; cbn [sizes]; lia.
  - now rewrite Hu.
  - now apply accounted_deposit.
Qed.

Lemma take_batch_cases c order :
  (control c = [] /\ order = [] /\
   take_batch c order = (mkCoalesce [] (monitor c) false (dead c) (backlog c), None)) \/
  take_batch c order = (mkCoalesce [] ∅ (flushing c) (dead c) (backlog c),
                        Some (concat (control c) ++ concat (map snd order))).
Proof. unfold take_batch. destruct (control c), order; auto. Qed.

Lemma take_live s order c batch :
  live s -> flusher s = Taking -> order ≡ₚ map_to_list (monitor (lanes s)) ->
  take_batch (lanes s) order = (c, batch) -> dead (lanes s) = false ->
  live (mkConn c (match batch with Some b => Writing b 0 | None => Idle end) (wire s) (deposits s)
          (drained s ++ map Ctl (control (lanes s)) ++ map (fun m => Mon m.1 m.2) order)) /\ dead c = false.
Proof.
  intros [Hf Hq Ho Hb Hw Hk] Ht Hp E Hd. rewrite Ht in Hf, Hb, Hw. cbn [batch_len unwritten] in Hb, Hw.
  pose proof (accounted_take _ _ _ _ order Hk Hp) as Hk'.
  assert (lane_bytes (monitor (lanes s)) = sizes (map snd order)) as Hl
    by (unfold lane_bytes; now rewrite <- Hp).
  assert (concat (map frame_of (map Ctl (control (lanes s)) ++ map (fun m => Mon m.1 m.2) order))
          = concat (control (lanes s)) ++ concat (map snd order)) as Hcat.
  { rewrite map_app, !map_map, concat_app. cbn. now rewrite map_id. }
  destruct (take_batch_cases (lanes s) order) as [(Ec & -> & Et)|Et]; rewrite Et in E; injection E as <- <-; (split; [|done]).
  - rewrite Ec in *. cbn [map app] in *. rewrite app_nil_r in *.
    assert (monitor (lanes s) = ∅) as Hm by (apply map_to_list_empty_iff; now apply Permutation_nil).
    split; cbn [lanes flusher control monitor flushing backlog wire deposits drained batch_len unwritten]; rewrite ?Hm in *; try done.
    now rewrite app_nil_r.
  - split; cbn [lanes flusher control monitor flushing backlog wire deposits drained batch_len unwritten]; try done.
    + intros batch off [= <- <-]. split; [done|apply zlen_nonneg].
    + rewrite Hb, Hl, zlen_app, lane_bytes_empty, (sizes_concat (control _)), (sizes_concat (map snd order)).
      cbn [sizes]. lia.
    + rewrite map_app, concat_app, Hcat, Hw, app_nil_r. done.
Qed.

Lemma write_live s batch off n :
  live s -> flusher s = Writing batch off -> 0 < n <= zlen batch - off ->
  live (mkConn (lanes s) (Writing batch (off + n)) (wire s ++ take (Z.to_nat n) (drop (Z.to_nat off) batch))
          (deposits s) (drained s)).
Proof.
  intros [Hf Hq Ho Hb Hw Hk] Ht Hn. rewrite Ht in *. pose proof (Ho _ _ eq_refl).
  split; cbn [lanes flusher wire deposits drained batch_len unwritten]; try done.
  - intros b o [= <- <-]. lia.
  - rewrite Hw. cbn [unwritten]. rewrite <- app_assoc. f_equal.
    rewrite <- (take_drop (Z.to_nat n) (drop (Z.to_nat off) batch)) at 1. rewrite drop_drop. do 2 f_equal. lia.
Qed.

Lemma wrote_live s batch :
  live s -> flusher s = Writing batch (zlen batch) ->
  live (mkConn (wrote (lanes s) (zlen batch)) Taking (wire s) (deposits s) (drained s)).
Proof.
  intros [Hf Hq Ho Hb Hw Hk] Ht. rewrite Ht in *.
  split; cbn [wrote lanes flusher control monitor flushing backlog wire deposits drained batch_len unwritten]; try done.
  - cbn [batch_len] in Hb. rewrite Hb. unfold saturating_sub. rewrite sizes_concat.
    pose proof (zlen_nonneg (concat (control (lanes s)))). unfold lane_bytes. rewrite sizes_concat.
    pose proof (zlen_nonneg (concat (map_to_list (monitor (lanes s))).*2)). lia.
  - rewrite Hw. cbn [unwritten]. f_equal. apply drop_ge. unfold zlen. lia.
Qed.

Lemma drain_conn_ok s s' : conn_ok s -> drain_step s s' -> conn_ok s'.
Proof.
  unfold conn_ok. intros Hok H. destruct (dead (lanes s)) eqn:Hd.
  - destruct Hok as [Hi _ _ _]. destruct H; congruence.
  - destruct H as [s o c b Ht Hp E|s b o n Ht Hn|s b Ht|s Hn]; cbn [lanes].
    + destruct (take_live s o c b Hok Ht Hp E Hd) as [H ->]. done.
    + rewrite Hd. now apply write_live.
    + cbn [wrote dead]. rewrite Hd. now apply wrote_live.
    + now apply live_stopped.
Qed.

Lemma step_conn_ok s s' : conn_ok s -> step s s' -> conn_ok s'.
Proof.
  intros Hok H. destruct H as [s0 d c won E|s0 s1 H]; [|exact (drain_conn_ok s0 s1 Hok H)]. revert Hok.
  unfold conn_ok. cbn [lanes]. destruct (dead (lanes s0)) eqn:Hd; intros Hok.
  - assert (c = lanes s0 /\ won = false) as [-> ->].
    { destruct d; cbn in E; unfold send_control, send_monitor in E; rewrite Hd in E; injection E as <- <-; done. }
    rewrite Hd. now destruct Hok.
  - destruct (deposit_live s0 d c won Hok Hd E) as [H ->]. done.
Qed.

Lemma reachable_conn_ok s : reachable s -> conn_ok s.
Proof.
  induction 1 as [|s s' _ IH Hs]; [|eapply step_conn_ok; eauto].
  cbn. split; cbn; done.
Qed.

(** ** Progress of the flusher *)

(** Bytes still to be offered to the socket, entries still to be drained, and the
    phase of the loop. *)
Definition work (s : Conn) : Z :=
  sizes (control (lanes s)) + lane_bytes (monitor (lanes s)) + zlen (unwritten (flusher s))
  + 3 * (zlen (control (lanes s)) + zlen (map_to_list (monitor (lanes s))))
  + match flusher s with Idle => 0 | Taking => 1 | Writing _ _ => 2 end.

Lemma sizes_nonneg l : 0 <= sizes l.
Proof. rewrite sizes_concat. apply zlen_nonneg. Qed.

Lemma work_nonneg s : 0 <= work s.
Proof.
  unfold work, lane_bytes. pose proof (sizes_nonneg (control (lanes s))).
  pose proof (sizes_nonneg (map_to_list (monitor (lanes s))).*2).
  pose proof (zlen_nonneg (unwritten (flusher s))). pose proof (zlen_nonneg (control (lanes s))).
  pose proof (zlen_nonneg (map_to_list (monitor (lanes s)))). destruct (flusher s); lia.
Qed.

Lemma take_work s order c batch w dp dr :
  flusher s = Taking -> order ≡ₚ map_to_list (monitor (lanes s)) -> take_batch (lanes s) order = (c, batch) ->
  work (mkConn c (match batch with Some b => Writing b 0 | None => Idle end) w dp dr) < work s.
Proof.
  intros Ht Hp E. pose proof (Permutation_length Hp) as Hlen.
  assert (lane_bytes (monitor (lanes s)) = sizes (map snd order)) as Hl by (unfold lane_bytes; now rewrite <- Hp).
  assert (zlen (map_to_list (monitor (lanes s))) = zlen order) as Hord by (unfold zlen; lia).
  unfold work. rewrite Ht, Hl. cbn [lanes flusher unwritten].
  destruct (control (lanes s)) as [|x l] eqn:Ec; [destruct order as [|y order]|].
  - assert (monitor (lanes s) = ∅) as Hm by (apply map_to_list_empty_iff; now apply Permutation_nil).
    unfold take_batch in E. rewrite Ec in E. injection E as <- <-.
    cbn [control monitor unwritten sizes]. rewrite Hm, lane_bytes_empty, map_to_list_empty. cbn. lia.
  - unfold take_batch in E. rewrite Ec in E. injection E as <- <-.
    cbn [control monitor unwritten]. rewrite lane_bytes_empty, map_to_list_empty. change (drop (Z.to_nat 0) ?b) with b.
    rewrite zlen_app, <- !sizes_concat. change (zlen []) with 0. change (sizes []) with 0.
    rewrite ?Hord. unfold zlen. cbn [length map sizes]. unfold zlen. lia.
  - unfold take_batch in E. rewrite Ec in E. injection E as <- <-.
    cbn [control monitor unwritten]. rewrite lane_bytes_empty, map_to_list_empty. change (drop (Z.to_nat 0) ?b) with b.
    rewrite zlen_app, <- !sizes_concat. change (zlen []) with 0. change (sizes []) with 0.
    rewrite Hord. cbn [sizes]. rewrite (sizes_concat l). unfold zlen. rewrite length_app. cbn [length]. lia.
Qed.

Lemma drain_work s s' : conn_ok s -> drain_step s s' -> work s' < work s.
Proof.
  intros Hok H. destruct H as [s o c b Ht Hp E|s b o n Ht Hn|s b Ht|s Hn].
  - eapply take_work; eauto.
  - unfold conn_ok in Hok. destruct (dead (lanes s)); [destruct Hok; congruence|].
    pose proof (l_off s Hok _ _ Ht). unfold work. rewrite Ht. cbn [lanes flusher unwritten].
    unfold zlen in *. rewrite !length_drop. lia.
  - unfold work, wrote. rewrite Ht. cbn [lanes flusher control monitor unwritten].
    pose proof (zlen_nonneg (drop (Z.to_nat (zlen b)) b)). change (zlen []) with 0. lia.
  - change (work _) with 0 at 1. unfold work. pose proof (sizes_nonneg (control (lanes s))).
    pose proof (sizes_nonneg (map_to_list (monitor (lanes s))).*2). fold (lane_bytes (monitor (lanes s))) in *.
    pose proof (zlen_nonneg (unwritten (flusher s))). pose proof (zlen_nonneg (control (lanes s))).
    pose proof (zlen_nonneg (map_to_list (monitor (lanes s)))). destruct (flusher s); try congruence; lia.
Qed.

Lemma drain_acc s : conn_ok s -> Acc (flip drain_step) s.
Proof.
  remember (Z.to_nat (work s)) as n eqn:En. revert s En.
  induction (lt_wf n) as [n _ IH]. intros s -> Hok. constructor. intros s' H. cbn in H.
  pose proof (drain_work s s' Hok H). pose proof (work_nonneg s'). pose proof (drain_conn_ok s s' Hok H).
  eapply IH; [|reflexivity|done]. lia.
Qed.

(** A flusher that is not idle has a move that does not kill the connection. *)
Lemma drain_progress s :
  conn_ok s -> dead (lanes s) = false -> flusher s <> Idle ->
  exists s', drain_step s s' /\ dead (lanes s') = false /\ deposits s' = deposits s.
Proof.
  unfold conn_ok. intros Hok Hd Hi. rewrite Hd in Hok. destruct (flusher s) as [| |batch off] eqn:Ef; [done|..].
  - destruct (take_batch (lanes s) (map_to_list (monitor (lanes s)))) as [c b] eqn:E.
    destruct (take_live s _ c b Hok Ef ltac:(reflexivity) E Hd) as [_ Hdc].
    eexists. split; [eapply step_take; eauto|done].
  - pose proof (l_off s Hok _ _ Ef). destruct (decide (off = zlen batch)) as [->|Hne].
    + eexists. split; [eapply step_wrote; eauto|done].
    + eexists. split; [eapply (step_write s batch off 1); [done|lia]|done].
Qed.

Lemma drain_to_rest s :
  conn_ok s -> dead (lanes s) = false ->
  exists s', rtc drain_step s s' /\ conn_ok s' /\ dead (lanes s') = false /\ flusher s' = Idle /\ deposits s' = deposits s.
Proof.
  intros Hok. induction (drain_acc s Hok) as [s _ IH]. intros Hd.
  assert (flusher s = Idle \/ flusher s <> Idle) as [Hi|Hi] by (destruct (flusher s); [now left|now right..]); [exists s; repeat split; try done; constructor|].
  destruct (drain_progress s Hok Hd Hi) as (s1 & H1 & Hd1 & He1). pose proof (drain_conn_ok s s1 Hok H1) as Hok1.
  destruct (IH s1 H1 Hok1 Hd1) as (s2 & H2 & Hok2 & Hd2 & Hi2 & He2).
  exists s2. split; [eapply rtc_l; eauto|]. split_and!; try done. congruence.
Qed.

(** At rest, a live connection has delivered everything but stale monitor frames. *)
Definition delivered (s : Conn) : Prop :=
  wire s = concat (map frame_of (drained s)) /\ ctl_of (drained s) = ctl_of (deposits s) /\
  forall i, last (mon_of i (drained s)) = last (mon_of i (deposits s)).

Lemma rest_delivered s : conn_ok s -> dead (lanes s) = false -> flusher s = Idle -> delivered s.
Proof.
  unfold conn_ok. intros Hok Hd Hi. rewrite Hd in Hok. destruct Hok as [_ Hq _ _ Hwire [Hctl Hmon]].
  destruct (Hq Hi) as [Ec Em]. rewrite Hi in Hwire. cbn [unwritten] in Hwire. rewrite app_nil_r in Hwire.
  split; [done|]. split; [now rewrite Hctl, Ec, app_nil_r|]. intros i. destruct (Hmon i) as [_ Hl].
  now rewrite Em, lookup_empty, app_nil_r in Hl.
Qed.

(** ** Claims *)

(** The election loses no work: in every interleaving of producers, flusher
    and socket, a live connection has exactly one flusher when its flag is set and
    none otherwise, nothing is queued without a flusher, and the backlog that
    drives back-pressure is the number of bytes not yet accounted as written. *)
Theorem no_lost_wakeup s :
  reachable s -> dead (lanes s) = false ->
  flushing (lanes s) = match flusher s with Idle => false | _ => true end /\
  (flusher s = Idle -> control (lanes s) = [] /\ monitor (lanes s) = ∅ /\ backlog (lanes s) = 0) /\
  backlog (lanes s) = sizes (control (lanes s)) + lane_bytes (monitor (lanes s)) + batch_len (flusher s).
Proof.
  intros Hr Hd. apply reachable_conn_ok in Hr. unfold conn_ok in Hr. rewrite Hd in Hr.
  destruct Hr as [Hf Hq _ Hb _ _]. split; [done|]. split; [|done].
  intros Hi. destruct (Hq Hi) as [Hc Hm]. rewrite Hb, Hi, Hc, Hm. done.
Qed.

(** C13: what the peer receives: the bytes on the wire are those of the drained
    frames in order, the control frames among them are the deposited ones in
    order without loss or repetition, and a monitor's frames are a subsequence of
    those deposited for it; once the connection is at rest, everything drained is
    on the wire, every control frame was drained, and the last frame drained for
    a monitor is the last one deposited. *)
Theorem delivery_refines_lanes s :
  reachable s ->
  wire s `prefix_of` concat (map frame_of (drained s)) /\
  ctl_of (drained s) `prefix_of` ctl_of (deposits s) /\
  (forall i, mon_of i (drained s) `sublist_of` mon_of i (deposits s)) /\
  (dead (lanes s) = false -> flusher s = Idle -> delivered s).
Proof.
  intros Hr. apply reachable_conn_ok in Hr. pose proof Hr as Hok. unfold conn_ok in Hr.
  assert (stopped (mkConn (mark_dead (lanes s)) Idle (wire s) (deposits s) (drained s))) as [_ Hw Hc Hm].
  { destruct (dead (lanes s)); [destruct Hr; now split|now apply live_stopped]. }
  split_and!; try done. now apply rest_delivered.
Qed.

(** The drain loop terminates and leaves nothing behind: from every reachable
    state, any run of the flusher alone is finite whatever the socket does, and if
    the connection is alive there is one, of writes that succeed, after which it is
    at rest and everything deposited so far is delivered. *)
Theorem drain_terminates s :
  reachable s ->
  Acc (flip drain_step) s /\
  (dead (lanes s) = false ->
   exists s', rtc drain_step s s' /\ dead (lanes s') = false /\ flusher s' = Idle /\
     deposits s' = deposits s /\ delivered s').
Proof.
  intros Hr. apply reachable_conn_ok in Hr. split; [now apply drain_acc|]. intros Hd.
  destruct (drain_to_rest s Hr Hd) as (s' & H & Hok & Hd' & Hi & He).
  exists s'. split_and!; try done. now apply rest_delivered.
Qed.

Definition after_deposit (s : Conn) (d : Deposit) : Conn :=
  let '(c, won) := deposit (lanes s) d in
  mkConn c (if won then Taking else flusher s) (wire s)
    (if dead (lanes s) then deposits s else deposits s ++ [d]) (drained s).

Lemma after_deposits_reachable ds s : reachable s -> reachable (fold_left after_deposit ds s).
Proof.
  revert s. induction ds as [|d ds IH]; intros s Hr; [done|]. cbn. apply IH. eapply reach_step; [exact Hr|].
  unfold after_deposit. destruct (deposit (lanes s) d) as [c won] eqn:E. now apply step_deposit.
Qed.

(** Two monitor frames of one ioid, the second replacing the first, and a control
    frame behind them. *)
Definition busy : Conn := fold_left after_deposit [Mon 7 [1]; Mon 7 [3; 4]; Ctl [5]] initial.

Lemma busy_reachable : reachable busy.
Proof. apply after_deposits_reachable, reach_init. Qed.

Lemma no_lost_wakeup_witness :
  reachable busy /\ backlog (lanes busy) = sizes (control (lanes busy)) + lane_bytes (monitor (lanes busy)) + batch_len (flusher busy).
Proof.
  split; [apply busy_reachable|]. exact (proj2 (proj2 (no_lost_wakeup busy busy_reachable eq_refl))).
Defined.

Lemma delivery_refines_lanes_witness :
  reachable busy /\ wire busy `prefix_of` concat (map frame_of (drained busy)).
Proof. split; [apply busy_reachable|]. exact (proj1 (delivery_refines_lanes busy busy_reachable)). Defined.

Lemma drain_terminates_witness :
  exists s', rtc drain_step busy s' /\ flusher s' = Idle /\ last (mon_of 7 (drained s')) = Some [3; 4].
Proof.
  destruct (proj2 (drain_terminates busy busy_reachable) eq_refl) as (s' & H & _ & Hi & He & _ & _ & Hl).
  exists s'. split; [done|]. split; [done|]. now rewrite Hl, He.
Defined.

End ConnWriter.
