(* ===== verification/Channels.v ===== *)
(** * Channels and requests of a connection

    Models [ChannelTables] and [ConnState] of [spvirit-server/src/state.rs], the
    arms of [handler.rs] that open and close channels and requests, and the
    teardown of the channels behind a dead upstream
    ([MonitorRegistry::destroy_subs] of [monitor.rs]).  A [HashMap] is a [gmap],
    a [HashSet] a [gset].  The replies are those of [Message]; only the state is
    kept here. *)

From stdpp Require Import gmap.
From S2P Require Import Prelude Utf8 Wire PvdTypes PvdEncode PvdDecode PvdSafety PvdRoundtrip PvdDelta Monitor.
From S2P Require Import PvRequest Packet Message NtTypes NtEncode NtView NtTree NtDelta NtWire DataFrames.
From S2P Require Import Bridge BridgeMerge BridgeOwned DeltaWire Gateway MonitorHub Pipeline.

Local Open Scope Z_scope.

Module Channels.
Import NtTypes Message MonitorHub.

(** ** The tables *)

Record ChannelTables := mkTables {
  cid_to_sid : gmap Z Z;
  sid_to_cid : gmap Z Z;
  sid_to_pv : gmap Z bytes;
  ioid_to_sid : gmap Z Z;
  sid_to_ioids : gmap Z (gset Z) }.

Definition default_tables : ChannelTables := mkTables ∅ ∅ ∅ ∅ ∅.

Definition insert_channel (t : ChannelTables) (cid sid : Z) (pv : bytes) : ChannelTables :=
  mkTables (<[cid := sid]> (cid_to_sid t)) (<[sid := cid]> (sid_to_cid t)) (<[sid := pv]> (sid_to_pv t))
    (ioid_to_sid t) (sid_to_ioids t).

Definition remove_channel (t : ChannelTables) (cid sid : Z) : ChannelTables :=
  mkTables (delete cid (cid_to_sid t)) (delete sid (sid_to_cid t)) (delete sid (sid_to_pv t))
    (match sid_to_ioids t !! sid with
     | Some ioids => set_fold (fun ioid m => delete ioid m) (ioid_to_sid t) ioids
     | None => ioid_to_sid t
     end)
    (delete sid (sid_to_ioids t)).

Definition remove_channel_if_current (t : ChannelTables) (cid sid : Z) : ChannelTables * bool :=
  let current_owner := cid_to_sid t !! cid in
  let t := remove_channel t cid sid in
  if decide (current_owner = Some sid) then (t, true)
  else
    (match current_owner with
     | Some other =>
       mkTables (<[cid := other]> (cid_to_sid t)) (sid_to_cid t) (sid_to_pv t) (ioid_to_sid t) (sid_to_ioids t)
     | None => t
     end, false).

(** [set.remove(&ioid)] on the set of [sid], dropping the set when it is empty. *)
Definition forget_ioid (sid ioid : Z) (m : gmap Z (gset Z)) : gmap Z (gset Z) :=
  match m !! sid with
  | Some set => if decide (set ∖ {[ioid]} = ∅) then delete sid m else <[sid := set ∖ {[ioid]}]> m
  | None => m
  end.

Definition bind_monitor (t : ChannelTables) (ioid sid : Z) : ChannelTables :=
  let by_sid :=
    match ioid_to_sid t !! ioid with
    | Some old => if decide (old <> sid) then forget_ioid old ioid (sid_to_ioids t) else sid_to_ioids t
    | None => sid_to_ioids t
    end in
  mkTables (cid_to_sid t) (sid_to_cid t) (sid_to_pv t) (<[ioid := sid]> (ioid_to_sid t))
    (<[sid := default ∅ (by_sid !! sid) ∪ {[ioid]}]> by_sid).

Definition unbind_monitor (t : ChannelTables) (ioid : Z) : ChannelTables :=
  match ioid_to_sid t !! ioid with
  | Some sid =>
    mkTables (cid_to_sid t) (sid_to_cid t) (sid_to_pv t) (delete ioid (ioid_to_sid t))
      (forget_ioid sid ioid (sid_to_ioids t))
  | None => t
  end.

Definition ioids_for_sid (t : ChannelTables) (sid : Z) : gset Z := default ∅ (sid_to_ioids t !! sid).

Definition cid_for_sid (t : ChannelTables) (sid : Z) : option Z := sid_to_cid t !! sid.

Definition channel_for_monitor (t : ChannelTables) (ioid : Z) : option (Z * Z) :=
  match ioid_to_sid t !! ioid with
  | Some sid => match sid_to_cid t !! sid with Some cid => Some (sid, cid) | None => None end
  | None => None
  end.

(** Which channel a GET_FIELD request is about. *)
Definition resolve_get_field_sid (t : ChannelTables) (sid : option Z) (cid : Z) : option Z :=
  match sid with
  | Some s => Some s
  | None =>
    match cid_to_sid t !! cid with
    | Some s => Some s
    | None =>
      if decide (is_Some (sid_to_pv t !! cid)) then Some cid
      else if (cid =? 0) && (Z.of_nat (size (sid_to_pv t)) =? 1) then fst <$> head (map_to_list (sid_to_pv t))
      else None
    end
  end.

(** ** The connection *)

Record ConnState := mkConnState {
  channels : ChannelTables;
  ioid_to_desc : gmap Z Ty.StructureDesc;
  ioid_to_pv : gmap Z bytes;
  ioid_to_monitor : gmap Z Pipeline.MonitorState }.

Definition default_conn_state : ConnState := mkConnState default_tables ∅ ∅ ∅.

Definition with_channels (c : ConnState) (t : ChannelTables) : ConnState :=
  mkConnState t (ioid_to_desc c) (ioid_to_pv c) (ioid_to_monitor c).

Definition purge_channel_requests (c : ConnState) (cid sid : Z) : ConnState :=
  let ioids := ioids_for_sid (channels c) sid in
  mkConnState (remove_channel_if_current (channels c) cid sid).1
    (set_fold (fun ioid m => delete ioid m) (ioid_to_desc c) ioids)
    (set_fold (fun ioid m => delete ioid m) (ioid_to_pv c) ioids)
    (set_fold (fun ioid m => delete ioid m) (ioid_to_monitor c) ioids).

(** The rows of one request: [ioid_to_desc], [ioid_to_pv] and the binding. *)
Definition open_request (c : ConnState) (ioid sid : Z) (pv : bytes) (desc : Ty.StructureDesc) : ConnState :=
  mkConnState (bind_monitor (channels c) ioid sid) (<[ioid := desc]> (ioid_to_desc c))
    (<[ioid := pv]> (ioid_to_pv c)) (ioid_to_monitor c).

Definition close_request (c : ConnState) (ioid : Z) : ConnState :=
  mkConnState (unbind_monitor (channels c) ioid) (delete ioid (ioid_to_desc c))
    (delete ioid (ioid_to_pv c)) (delete ioid (ioid_to_monitor c)).

Definition set_monitor (c : ConnState) (ioid : Z) (m : option Pipeline.MonitorState) : ConnState :=
  mkConnState (channels c) (ioid_to_desc c) (ioid_to_pv c)
    (match m with Some m => <[ioid := m]> (ioid_to_monitor c) | None => ioid_to_monitor c end).

(** ** The handler's arms *)

(** The connection, the subscriptions of the registry and the counter the server
    takes its channel ids from. *)
Record Srv := mkSrv { conn_state : ConnState; monitors : gmap bytes (list MonitorSub); sid_counter : Z }.

Inductive Request :=
| CreateChannel (cid : Z) (pv : bytes)
| Op (op : Packet.PvaOpPayload)
| DestroyChannel (sid cid : Z)
| DestroyRequest (request_id : Z).

Section Handler.
Context (conn version : Z) (is_be : bool).
(** What the stores know: whether a PV exists, its descriptor, whether it may be
    written, its current value; and the clock readings of the encoder. *)
Context (has_pv : bytes -> bool) (init_full_desc : bytes -> option Ty.StructureDesc) (is_writable : bytes -> bool).
Context (get_nt_snapshot : bytes -> option NtPayload) (now_prev now : Z * Z).

Definition is_init (op : Packet.PvaOpPayload) : bool := negb (Z.land (Packet.subcmd op) 0x08 =? 0).

(** GET, PUT and PUT_GET INIT. *)
Definition init_arm (s : Srv) (op : Packet.PvaOpPayload) (pv : bytes) : Srv :=
  match init_full_desc pv with
  | None => s
  | Some full =>
    let ioid := Packet.ioid op in
    let sid := Packet.sid_or_cid op in
    if Packet.op_command op =? 10 then
      let '(desc, _) := Pipeline.apply_pv_request_filter full (Packet.body op) is_be in
      mkSrv (open_request (conn_state s) ioid sid pv desc) (monitors s) (sid_counter s)
    else if negb (is_writable pv) then s
    else mkSrv (open_request (conn_state s) ioid sid pv full) (monitors s) (sid_counter s)
  end.

(** The MONITOR arms. *)
Definition monitor_arm (s : Srv) (op : Packet.PvaOpPayload) (pv : bytes) : Srv :=
  let ioid := Packet.ioid op in
  let sid := Packet.sid_or_cid op in
  let subcmd := Packet.subcmd op in
  let c := conn_state s in
  let subs := default [] (monitors s !! pv) in
  if is_init op then
    match init_full_desc pv with
    | None => s
    | Some full =>
      let '(desc, _) := Pipeline.apply_pv_request_filter full (Packet.body op) is_be in
      let '(subs, m) := Pipeline.monitor_init op version is_be conn full subs in
      mkSrv (set_monitor (open_request c ioid sid pv desc) ioid m) (<[pv := subs]> (monitors s)) (sid_counter s)
    end
  else if negb (Z.land subcmd 0x10 =? 0) then
    mkSrv (close_request c ioid)
      (alter (fun subs => remove_monitor_subscription subs conn ioid) pv (monitors s)) (sid_counter s)
  else if negb (Z.land subcmd 0x04 =? 0) || negb (Z.land subcmd 0x80 =? 0) then
    let '(_, m) := Pipeline.monitor_control op is_be conn ioid subs (ioid_to_monitor c !! ioid) in
    let updated :=
      alter (fun subs => (Pipeline.monitor_control op is_be conn ioid subs (ioid_to_monitor c !! ioid)).1) pv (monitors s) in
    let sent :=
      match get_nt_snapshot pv with
      | Some nt =>
        if Z.land subcmd 0x44 =? 0x44 then
          alter (fun subs => (send_monitor_update_for now_prev now subs conn ioid nt).1) pv updated
        else updated
      | None => updated
      end in
    mkSrv (set_monitor c ioid m) sent (sid_counter s)
  else s.

(** One request.  An operation on an unknown channel is refused; the data phases
    of GET, PUT, PUT_GET and RPC change none of this state. *)
Definition handle (s : Srv) (r : Request) : Srv :=
  let c := conn_state s in
  match r with
  | CreateChannel cid pv =>
    if has_pv pv then
      let sid := sid_counter s in
      mkSrv (with_channels c (insert_channel (channels c) cid sid pv)) (monitors s) (as_u32 (sid + 1))
    else s
  | Op op =>
    if Packet.op_is_server op then s
    else
      match sid_to_pv (channels c) !! Packet.sid_or_cid op with
      | None => s
      | Some pv =>
        let command := Packet.op_command op in
        if command =? 13 then monitor_arm s op pv
        else if is_init op && (10 <=? command) && (command <=? 12) then init_arm s op pv
        else s
      end
  | DestroyChannel sid cid => mkSrv (purge_channel_requests c cid sid) (monitors s) (sid_counter s)
  | DestroyRequest ioid =>
    match ioid_to_pv c !! ioid with
    | Some pv =>
      mkSrv (close_request c ioid)
        (alter (fun subs => remove_monitor_subscription subs conn ioid) pv (monitors s)) (sid_counter s)
    | None => s
    end
  end.
End Handler.

(** ** Teardown behind a dead upstream *)

(** One subscriber: the tables of all connections after it, and the
    DESTROY_CHANNEL it is sent. *)
Definition destroy_sub (tables : gmap Z ChannelTables) (sub : MonitorSub) : gmap Z ChannelTables * option (Z * bytes) :=
  match tables !! conn_id sub with
  | None => (tables, None)
  | Some t =>
    match channel_for_monitor t (ioid sub) with
    | None => (tables, None)
    | Some (sid, cid) =>
      let '(t, current) := remove_channel_if_current t cid sid in
      (<[conn_id sub := t]> tables,
       if current then Some (conn_id sub, encode_destroy_channel_response sid cid (version sub) (is_be sub)) else None)
    end
  end.

Fixpoint destroy_subs (tables : gmap Z ChannelTables) (subs : list MonitorSub)
  : gmap Z ChannelTables * list (Z * bytes) :=
  match subs with
  | [] => (tables, [])
  | sub :: subs =>
    let '(tables, sent) := destroy_sub tables sub in
    let '(tables, rest) := destroy_subs tables subs in
    (tables, option_list sent ++ rest)
  end.

Definition destroy_channels_for_pv (monitors : gmap bytes (list MonitorSub)) (tables : gmap Z ChannelTables) (pv : bytes)
  : gmap bytes (list MonitorSub) * gmap Z ChannelTables * list (Z * bytes) :=
  let subs := default [] (monitors !! pv) in
  let '(tables, sent) := destroy_subs tables subs in
  (delete pv monitors, tables, sent).

(** ** The tables are consistent *)

(** The two directions of the bindings agree, no empty set is kept, and a channel
    has its client id exactly as long as its name. *)
Record tables_ok (t : ChannelTables) : Prop := {
  ok_bound : forall i s, ioid_to_sid t !! i = Some s <-> i ∈ ioids_for_sid t s;
  ok_nonempty : forall s set, sid_to_ioids t !! s = Some set -> set <> ∅;
  ok_named : forall s, is_Some (sid_to_cid t !! s) <-> is_Some (sid_to_pv t !! s) }.

Lemma lookup_delete_set {A} (m : gmap Z A) (X : gset Z) j :
  set_fold (fun i m => delete i m) m X !! j = if decide (j ∈ X) then None else m !! j.
Proof.
  pose (P := fun (r : gmap Z A) (Y : gset Z) => (j ∈ Y -> r !! j = None) /\ (j ∉ Y -> r !! j = m !! j)).
  assert (P (set_fold (fun i m => delete i m) m X) X) as [H1 H2]; [|case_decide; auto].
  apply set_fold_ind_L; unfold P.
  - set_solver.
  - intros x Y r Hx [IH1 IH2]. destruct (decide (x = j)) as [->|Hne].
    + rewrite lookup_delete_eq. set_solver.
    + rewrite lookup_delete_ne by done. set_solver.
Qed.

Lemma lookup_forget_ioid m sid i s :
  default ∅ (forget_ioid sid i m !! s) = if decide (s = sid) then default ∅ (m !! s) ∖ {[i]} else default ∅ (m !! s).
Proof.
  unfold forget_ioid. destruct (m !! sid) as [set|] eqn:E.
  - destruct (decide (s = sid)) as [->|Hne]; destruct (decide (set ∖ {[i]} = ∅)) as [Hz|Hz].
    + rewrite lookup_delete_eq, E. cbn. now rewrite Hz.
    + rewrite lookup_insert_eq, E. done.
    + now rewrite lookup_delete_ne.
    + now rewrite lookup_insert_ne.
  - destruct (decide (s = sid)) as [->|]; [|done]. rewrite E. cbn. set_solver.
Qed.

Lemma forget_ioid_nonempty m sid i :
  (forall s set, m !! s = Some set -> set <> ∅) -> forall s set, forget_ioid sid i m !! s = Some set -> set <> ∅.
Proof.
  intros Hm s set. unfold forget_ioid. destruct (m !! sid) as [set'|]; [|apply Hm].
  destruct (decide (set' ∖ {[i]} = ∅)) as [Hz|Hz].
  - intros [_ H]%lookup_delete_Some. eauto.
  - intros [[_ <-]|[_ H]]%lookup_insert_Some; eauto.
Qed.

Lemma default_tables_ok : tables_ok default_tables.
Proof.
  split; cbn.
  - intros i s. unfold ioids_for_sid. cbn. rewrite !lookup_empty. set_solver.
  - intros s set. now rewrite lookup_empty.
  - intros s. split; intros [x H]; now rewrite lookup_empty in H.
Qed.

Lemma insert_channel_ok t cid sid pv : tables_ok t -> tables_ok (insert_channel t cid sid pv).
Proof.
  intros [Hb Hn Hd]. split; [exact Hb|exact Hn|]. intros s. cbn.
  destruct (decide (s = sid)) as [->|Hne]; [rewrite !lookup_insert_eq; split; eauto|].
  now rewrite !lookup_insert_ne.
Qed.

Lemma remove_channel_bound t cid sid i :
  tables_ok t ->
  ioid_to_sid (remove_channel t cid sid) !! i
  = if decide (ioid_to_sid t !! i = Some sid) then None else ioid_to_sid t !! i.
Proof.
  intros [Hb _ _]. cbn. destruct (sid_to_ioids t !! sid) as [X|] eqn:E.
  - rewrite lookup_delete_set. apply decide_ext. rewrite Hb. unfold ioids_for_sid. now rewrite E.
  - rewrite decide_False; [done|]. rewrite Hb. unfold ioids_for_sid. rewrite E. set_solver.
Qed.

Lemma remove_channel_ok t cid sid : tables_ok t -> tables_ok (remove_channel t cid sid).
Proof.
  intros Hok. pose proof (fun i => remove_channel_bound t cid sid i Hok) as Hr. destruct Hok as [Hb Hn Hd].
  split.
  - intros i s. rewrite Hr. unfold ioids_for_sid. cbn [remove_channel sid_to_ioids].
    destruct (decide (s = sid)) as [->|Hne].
    + rewrite lookup_delete_eq. cbn. case_decide; [set_solver|]. split; [done|set_solver].
    + rewrite lookup_delete_ne by done. fold (ioids_for_sid t s). rewrite <- Hb. case_decide as E; [|done].
      split; [done|]. intros H. congruence.
  - intros s set H. cbn in H. apply lookup_delete_Some in H as [_ H]. eauto.
  - intros s. cbn. destruct (decide (s = sid)) as [->|Hne]; [split; intros [x H]; now rewrite lookup_delete_eq in H|].
    now rewrite !lookup_delete_ne.
Qed.

(** Removing a channel touches the row of the client id only when it is current. *)
Lemma remove_if_current_tables t cid sid :
  let t' := (remove_channel_if_current t cid sid).1 in
  cid_to_sid t' = (if decide (cid_to_sid t !! cid = Some sid) then delete cid (cid_to_sid t) else cid_to_sid t) /\
  t' = mkTables (cid_to_sid t') (sid_to_cid (remove_channel t cid sid)) (sid_to_pv (remove_channel t cid sid))
         (ioid_to_sid (remove_channel t cid sid)) (sid_to_ioids (remove_channel t cid sid)).
Proof.
  cbn. unfold remove_channel_if_current. case_decide as E; cbn [fst].
  - done.
  - destruct (cid_to_sid t !! cid) as [other|] eqn:Ec; cbn [cid_to_sid remove_channel]; (split; [|done]).
    + now rewrite insert_delete_id.
    + now rewrite delete_id.
Qed.

(** The invariant does not mention [cid_to_sid]. *)
Lemma tables_ok_cid t m : tables_ok t -> tables_ok (mkTables m (sid_to_cid t) (sid_to_pv t) (ioid_to_sid t) (sid_to_ioids t)).
Proof. intros [Hb Hn Hd]. now split. Qed.

Lemma remove_if_current_ok t cid sid : tables_ok t -> tables_ok (remove_channel_if_current t cid sid).1.
Proof.
  intros Hok. destruct (remove_if_current_tables t cid sid) as [_ ->].
  apply (tables_ok_cid (remove_channel t cid sid)), remove_channel_ok, Hok.
Qed.

Lemma bind_monitor_ok t ioid sid : tables_ok t -> tables_ok (bind_monitor t ioid sid).
Proof.
  intros [Hb Hn Hd].
  set (by_sid := match ioid_to_sid t !! ioid with
    | Some old => if decide (old <> sid) then forget_ioid old ioid (sid_to_ioids t) else sid_to_ioids t
    | None => sid_to_ioids t end).
  assert (forall s, s <> sid -> default ∅ (by_sid !! s) = ioids_for_sid t s ∖ {[ioid]}) as Hne.
  { intros s Hs. unfold by_sid. fold (ioids_for_sid t s).
    assert (ioid_to_sid t !! ioid <> Some s -> ioids_for_sid t s = ioids_for_sid t s ∖ {[ioid]}) as Hfree
      by (rewrite Hb; set_solver).
    destruct (ioid_to_sid t !! ioid) as [old|] eqn:E; [|apply Hfree; congruence].
    destruct (decide (old <> sid)) as [Ho|Ho].
    - rewrite lookup_forget_ioid. destruct (decide (s = old)) as [->|]; [done|]. apply Hfree. congruence.
    - apply Hfree. intros [= ->]. now apply Ho. }
  assert (default ∅ (by_sid !! sid) = ioids_for_sid t sid) as Heq.
  { unfold by_sid. destruct (ioid_to_sid t !! ioid) as [old|]; [|done]. case_decide as Ho; [|done].
    rewrite lookup_forget_ioid, decide_False by congruence. done. }
  split.
  - intros i s. cbn [bind_monitor ioid_to_sid]. unfold ioids_for_sid at 1. cbn [bind_monitor sid_to_ioids]. fold by_sid.
    destruct (decide (s = sid)) as [->|Hs].
    + rewrite (lookup_insert_eq by_sid). cbn [default from_option id]. rewrite Heq.
      destruct (decide (i = ioid)) as [->|Hi]; [rewrite lookup_insert_eq; set_solver|].
      rewrite lookup_insert_ne, Hb by done. set_solver.
    + rewrite (lookup_insert_ne by_sid sid s), Hne by done.
      destruct (decide (i = ioid)) as [->|Hi]; [rewrite lookup_insert_eq; set_solver|].
      rewrite lookup_insert_ne, Hb by done. set_solver.
  - intros s set. cbn [bind_monitor sid_to_ioids]. fold by_sid. intros [[_ <-]|[_ H]]%lookup_insert_Some; [set_solver|].
    revert H. unfold by_sid. destruct (ioid_to_sid t !! ioid); [case_decide|]; eauto using forget_ioid_nonempty.
  - exact Hd.
Qed.

Lemma unbind_monitor_ok t ioid : tables_ok t -> tables_ok (unbind_monitor t ioid).
Proof.
  intros Hok. unfold unbind_monitor. destruct (ioid_to_sid t !! ioid) as [sid|] eqn:E; [|done].
  destruct Hok as [Hb Hn Hd]. split.
  - intros i s. unfold ioids_for_sid. cbn. rewrite lookup_forget_ioid. fold (ioids_for_sid t s).
    destruct (decide (i = ioid)) as [->|Hi].
    + rewrite lookup_delete_eq. case_decide as Hs; [set_solver|]. split; [done|].
      intros H%Hb. congruence.
    + rewrite lookup_delete_ne, Hb by done. case_decide; set_solver.
  - cbn. eauto using forget_ioid_nonempty.
  - exact Hd.
Qed.

Create HintDb channels.
#[export] Hint Resolve default_tables_ok insert_channel_ok remove_if_current_ok bind_monitor_ok unbind_monitor_ok : channels.

(** ** Requests follow their channels *)

(** Every request has all its rows or none; it is bound to an open channel of the
    PV it names. *)
Record rows_ok (c : ConnState) : Prop := {
  r_tables : tables_ok (channels c);
  r_desc : forall i, is_Some (ioid_to_desc c !! i) <-> is_Some (ioid_to_sid (channels c) !! i);
  r_pv : forall i, ioid_to_pv c !! i
         = match ioid_to_sid (channels c) !! i with Some s => sid_to_pv (channels c) !! s | None => None end;
  r_open : forall i s, ioid_to_sid (channels c) !! i = Some s -> is_Some (sid_to_pv (channels c) !! s);
  r_monitor : forall i, is_Some (ioid_to_monitor c !! i) -> is_Some (ioid_to_sid (channels c) !! i) }.

(** Channel ids are below the counter. *)
Definition sids_below (n : Z) (c : ConnState) : Prop := forall s, is_Some (sid_to_pv (channels c) !! s) -> 0 <= s < n.

Lemma unbind_lookup t i j : ioid_to_sid (unbind_monitor t i) !! j = if decide (i = j) then None else ioid_to_sid t !! j.
Proof.
  unfold unbind_monitor. destruct (ioid_to_sid t !! i) as [s|] eqn:E; cbn; case_decide as H; subst;
    rewrite ?lookup_delete_eq, ?lookup_delete_ne by done; done.
Qed.

Lemma unbind_pv t i : sid_to_pv (unbind_monitor t i) = sid_to_pv t.
Proof. unfold unbind_monitor. now destruct (ioid_to_sid t !! i). Qed.

Lemma open_request_ok c ioid sid pv desc :
  rows_ok c -> sid_to_pv (channels c) !! sid = Some pv -> rows_ok (open_request c ioid sid pv desc).
Proof.
  intros [Ht Hd Hp Ho Hm] Epv. split; cbn [open_request channels ioid_to_desc ioid_to_pv ioid_to_monitor bind_monitor ioid_to_sid sid_to_pv].
  - now apply bind_monitor_ok.
  - intros i. destruct (decide (i = ioid)) as [->|Hi]; [rewrite !lookup_insert_eq; split; eauto|].
    now rewrite !lookup_insert_ne.
  - intros i. destruct (decide (i = ioid)) as [->|Hi]; [now rewrite !lookup_insert_eq|]. now rewrite !lookup_insert_ne.
  - intros i s. destruct (decide (i = ioid)) as [->|Hi].
    + rewrite lookup_insert_eq. intros [= <-]. eauto.
    + rewrite lookup_insert_ne by done. apply Ho.
  - intros i Hi%Hm. destruct (decide (i = ioid)) as [->|Hne]; [rewrite lookup_insert_eq; eauto|].
    now rewrite lookup_insert_ne.
Qed.

Lemma close_request_ok c ioid : rows_ok c -> rows_ok (close_request c ioid).
Proof.
  intros [Ht Hd Hp Ho Hm]. split; cbn [close_request channels ioid_to_desc ioid_to_pv ioid_to_monitor].
  - now apply unbind_monitor_ok.
  - intros i. rewrite unbind_lookup. case_decide as H; subst.
    + rewrite lookup_delete_eq. now split; intros [? ?].
    + now rewrite lookup_delete_ne.
  - intros i. rewrite unbind_lookup, unbind_pv. case_decide as H; subst; [now rewrite lookup_delete_eq|].
    now rewrite lookup_delete_ne.
  - intros i s. rewrite unbind_lookup, unbind_pv. case_decide; [done|apply Ho].
  - intros i. rewrite unbind_lookup. case_decide as H; subst.
    + rewrite lookup_delete_eq. now intros [? ?].
    + rewrite lookup_delete_ne by done. apply Hm.
Qed.

Lemma set_monitor_ok c ioid m : rows_ok c -> (is_Some m -> is_Some (ioid_to_sid (channels c) !! ioid)) -> rows_ok (set_monitor c ioid m).
Proof.
  intros [Ht Hd Hp Ho Hm] Hb. split; try done. intros i. cbn. destruct m as [m|]; [|apply Hm].
  intros [x [[<- _]|[_ H]]%lookup_insert_Some]; eauto.
Qed.

(** What a channel removal leaves. *)
Lemma remove_if_current_rows t cid sid :
  tables_ok t ->
  (forall i, ioid_to_sid (remove_channel_if_current t cid sid).1 !! i
     = if decide (ioid_to_sid t !! i = Some sid) then None else ioid_to_sid t !! i) /\
  sid_to_pv (remove_channel_if_current t cid sid).1 = delete sid (sid_to_pv t) /\
  sid_to_cid (remove_channel_if_current t cid sid).1 = delete sid (sid_to_cid t) /\
  sid_to_ioids (remove_channel_if_current t cid sid).1 = delete sid (sid_to_ioids t).
Proof.
  intros Hok. destruct (remove_if_current_tables t cid sid) as [_ ->]. split; [|done].
  intros i. now rewrite <- (remove_channel_bound t cid sid i Hok).
Qed.

Lemma purge_ok c cid sid : rows_ok c -> rows_ok (purge_channel_requests c cid sid).
Proof.
  intros [Ht Hd Hp Ho Hm]. destruct (remove_if_current_rows (channels c) cid sid Ht) as (Hi & Epv & _ & _).
  assert (forall i, i ∈ ioids_for_sid (channels c) sid <-> ioid_to_sid (channels c) !! i = Some sid) as Hin
    by (intros i; symmetry; apply (ok_bound _ Ht)).
  split; cbn [purge_channel_requests channels ioid_to_desc ioid_to_pv ioid_to_monitor].
  - now apply remove_if_current_ok.
  - intros i. rewrite Hi, lookup_delete_set, (decide_ext _ _ _ _ (Hin i)). case_decide; [|apply Hd].
    now split; intros [? ?].
  - intros i. rewrite Hi, Epv, lookup_delete_set, (decide_ext _ _ _ _ (Hin i)), Hp. case_decide as H; [done|].
    destruct (ioid_to_sid (channels c) !! i) as [s|]; [|done]. rewrite lookup_delete_ne by congruence. done.
  - intros i s. rewrite Hi, Epv. case_decide as H; [done|]. intros E. rewrite lookup_delete_ne by congruence. eauto.
  - intros i. rewrite Hi, lookup_delete_set, (decide_ext _ _ _ _ (Hin i)). case_decide; [|apply Hm]. now intros [? ?].
Qed.

Lemma insert_channel_rows c cid sid pv :
  rows_ok c -> ~ is_Some (sid_to_pv (channels c) !! sid) -> rows_ok (with_channels c (insert_channel (channels c) cid sid pv)).
Proof.
  intros [Ht Hd Hp Ho Hm] Hf. split; cbn; try done.
  - now apply insert_channel_ok.
  - intros i. rewrite Hp. destruct (ioid_to_sid (channels c) !! i) as [s|] eqn:E; [|done].
    rewrite lookup_insert_ne; [done|]. intros <-. eauto.
  - intros i s E. rewrite lookup_insert_ne; [eauto|]. intros <-. eauto.
Qed.

#[export] Hint Resolve open_request_ok close_request_ok purge_ok insert_channel_rows : channels.

Section Session.
Context (conn version : Z) (is_be : bool).
Context (has_pv : bytes -> bool) (init_full_desc : bytes -> option Ty.StructureDesc) (is_writable : bytes -> bool).
Context (get_nt_snapshot : bytes -> option NtPayload) (now_prev now : Z * Z).

Abbreviation handle := (handle conn version is_be has_pv init_full_desc is_writable get_nt_snapshot now_prev now).

Definition initial : Srv := mkSrv default_conn_state ∅ 1.

Lemma initial_rows : rows_ok default_conn_state.
Proof.
  split; cbn.
  - apply default_tables_ok.
  - intros i. split; intros [x H]; now rewrite lookup_empty in H.
  - intros i. now rewrite !lookup_empty.
  - intros i s. now rewrite lookup_empty.
  - intros i [x H]. now rewrite lookup_empty in H.
Qed.

(** The arms of an operation keep the channel tables' names. *)
Lemma op_rows s op pv :
  rows_ok (conn_state s) -> sid_to_pv (channels (conn_state s)) !! Packet.sid_or_cid op = Some pv ->
  forall s', s' = init_arm is_be init_full_desc is_writable s op pv \/
             s' = monitor_arm conn version is_be init_full_desc get_nt_snapshot now_prev now s op pv ->
  rows_ok (conn_state s') /\ sid_to_pv (channels (conn_state s')) = sid_to_pv (channels (conn_state s)) /\
  sid_counter s' = sid_counter s.
Proof.
  intros Hr Hpv s' [->| ->].
  - unfold init_arm. destruct (init_full_desc pv); [|done].
    destruct (_ =? 10); [destruct (Pipeline.apply_pv_request_filter _ _ _)|destruct (negb _); [done|]];
      split; try done; now apply open_request_ok.
  - unfold monitor_arm. destruct (is_init op).
    + destruct (init_full_desc pv); [|done]. destruct (Pipeline.apply_pv_request_filter _ _ _) as [desc f].
      destruct (Pipeline.monitor_init _ _ _ _ _ _) as [subs m]. split; [|done]. apply set_monitor_ok; [now apply open_request_ok|].
      intros _. cbn. rewrite lookup_insert_eq. eauto.
    + destruct (negb (Z.land _ 0x10 =? 0)); [|destruct (_ || _); [|done]].
      * split; [now apply close_request_ok|]. cbn. now rewrite unbind_pv.
      * destruct (Pipeline.monitor_control _ _ _ _ _ _) as [subs m] eqn:E. split; [|done]. apply set_monitor_ok; [done|].
        intros [x ->]. apply (r_monitor _ Hr). unfold Pipeline.monitor_control in E.
        destruct (ioid_to_monitor (conn_state s) !! Packet.ioid op); [eauto|discriminate].
Qed.

Lemma handle_rows s r :
  rows_ok (conn_state s) -> sids_below (sid_counter s) (conn_state s) -> 0 <= sid_counter s < 2 ^ 32 - 1 ->
  rows_ok (conn_state (handle s r)) /\ sids_below (sid_counter (handle s r)) (conn_state (handle s r)) /\
  sid_counter s <= sid_counter (handle s r) <= sid_counter s + 1.
Proof.
  intros Hr Hb Hn. destruct r as [cid pv|op|sid cid|ioid]; cbn [Channels.handle].
  - destruct (has_pv pv); [|auto with lia]. cbn [conn_state sid_counter]. unfold as_u32. rewrite Z.mod_small by lia.
    split; [apply insert_channel_rows; [done|]; intros H; specialize (Hb _ H); lia|]. split; [|lia].
    intros s' H. cbn in H. destruct (decide (s' = sid_counter s)) as [->|Hne]; [lia|].
    rewrite lookup_insert_ne in H by done. specialize (Hb _ H). lia.
  - destruct (Packet.op_is_server op); [auto with lia|].
    destruct (_ !! Packet.sid_or_cid op) as [pv|] eqn:Epv; [|auto with lia].
    destruct (_ =? 13); [|destruct (_ && _); [|auto with lia]];
      [destruct (op_rows s op pv Hr Epv _ (or_intror eq_refl)) as (H1 & H2 & H3)
      |destruct (op_rows s op pv Hr Epv _ (or_introl eq_refl)) as (H1 & H2 & H3)];
      rewrite H3; unfold sids_below; rewrite H2; auto with lia.
  - cbn [conn_state sid_counter]. split; [now apply purge_ok|]. split; [|lia]. intros s'. cbn.
    destruct (remove_if_current_rows (channels (conn_state s)) cid sid (r_tables _ Hr)) as (_ & -> & _).
    intros [x [_ H]%lookup_delete_Some]. eauto.
  - destruct (ioid_to_pv (conn_state s) !! ioid); [|auto with lia]. cbn [conn_state sid_counter].
    split; [now apply close_request_ok|]. split; [|lia]. intros s'. cbn. rewrite unbind_pv. apply Hb.
Qed.

Lemma session_rows reqs s :
  rows_ok (conn_state s) -> sids_below (sid_counter s) (conn_state s) -> 0 <= sid_counter s ->
  sid_counter s + zlen reqs < 2 ^ 32 -> rows_ok (conn_state (fold_left handle reqs s)).
Proof.
  revert s. induction reqs as [|r reqs IH]; intros s Hr Hb Hn Hl; [done|]. rewrite zlen_cons in Hl.
  pose proof (zlen_nonneg reqs). destruct (handle_rows s r Hr Hb ltac:(lia)) as (H1 & H2 & H3).
  apply IH; [done|done|lia|lia].
Qed.
End Session.

(** ** Teardown *)

(** Nothing but removals happened to a connection's tables. *)
Record shrinks (t t' : ChannelTables) : Prop := {
  sh_bound : forall i s, ioid_to_sid t' !! i = Some s -> ioid_to_sid t !! i = Some s;
  sh_cid : forall s c, sid_to_cid t' !! s = Some c -> sid_to_cid t !! s = Some c }.

#[export] Instance shrinks_preorder : PreOrder shrinks.
Proof. split; [now split|]. intros a b c [H1 H2] [H3 H4]. split; eauto. Qed.

(** The rows of channel [s] are the same in both tables. *)
Record same_channel (s : Z) (t t' : ChannelTables) : Prop := {
  sc_cid : sid_to_cid t' !! s = sid_to_cid t !! s;
  sc_pv : sid_to_pv t' !! s = sid_to_pv t !! s;
  sc_ioids : ioids_for_sid t' s = ioids_for_sid t s;
  sc_owner : forall c, cid_to_sid t !! c = Some s -> cid_to_sid t' !! c = Some s }.

#[export] Instance same_channel_preorder s : PreOrder (same_channel s).
Proof. split; [now split|]. intros a b c [A1 A2 A3 A4] [B1 B2 B3 B4]. split; [congruence..|eauto]. Qed.

Lemma removed_shrinks t cid sid :
  tables_ok t -> shrinks t (remove_channel_if_current t cid sid).1 /\
  forall s, s <> sid -> same_channel s t (remove_channel_if_current t cid sid).1.
Proof.
  intros Hok. destruct (remove_if_current_rows t cid sid Hok) as (Hi & Hp & Hc & Hs).
  destruct (remove_if_current_tables t cid sid) as [Ec _]. split.
  - split; [intros i s; rewrite Hi; destruct (decide (ioid_to_sid t !! i = Some sid)); [discriminate|auto]|].
    intros s c. rewrite Hc. now intros [_ H]%lookup_delete_Some.
  - intros s Hne. split; unfold ioids_for_sid; rewrite ?Hc, ?Hp, ?Hs, ?lookup_delete_ne; try done.
    intros c E. rewrite Ec. case_decide as Hd; [|done]. rewrite lookup_delete_ne; congruence.
Qed.

Definition all_ok (tables : gmap Z ChannelTables) : Prop := forall c t, tables !! c = Some t -> tables_ok t.

(** One subscriber: its binding is gone, its connection's tables shrank, and no
    channel other than its own changed. *)
Lemma destroy_sub_step tables sub :
  all_ok tables ->
  all_ok (destroy_sub tables sub).1 /\
  (forall t', (destroy_sub tables sub).1 !! conn_id sub = Some t' -> channel_for_monitor t' (ioid sub) = None) /\
  (forall c t, tables !! c = Some t -> exists t', (destroy_sub tables sub).1 !! c = Some t' /\ shrinks t t' /\
     forall s, (conn_id sub = c -> ioid_to_sid t !! ioid sub <> Some s) -> same_channel s t t') /\
  (forall c, tables !! c = None -> (destroy_sub tables sub).1 !! c = None).
Proof.
  intros Hok. unfold destroy_sub. destruct (tables !! conn_id sub) as [t|] eqn:Et; [|split_and!; cbn; try done].
  2:{ intros t'. now rewrite Et. }
  2:{ intros c t Hc. exists t. split; [done|]. split; [reflexivity|]. intros s _. reflexivity. }
  destruct (channel_for_monitor t (ioid sub)) as [[sid cid]|] eqn:Ec; cbn.
  2:{ split_and!; try done.
      - intros t' H. congruence.
      - intros c t' Hc. exists t'. split; [done|]. split; [reflexivity|]. intros s _. reflexivity. }
  assert (ioid_to_sid t !! ioid sub = Some sid) as Eb.
  { unfold channel_for_monitor in Ec. destruct (ioid_to_sid t !! ioid sub) as [s|]; [|done].
    destruct (sid_to_cid t !! s); [|done]. congruence. }
  pose proof (remove_if_current_ok t cid sid (Hok _ _ Et)) as Hok'.
  destruct (remove_if_current_rows t cid sid (Hok _ _ Et)) as (Hi & _).
  destruct (removed_shrinks t cid sid (Hok _ _ Et)) as [Hs Hsame].
  destruct (remove_channel_if_current t cid sid) as [t' current]. cbn [fst] in *. split_and!.
  - intros c u [[_ <-]|[_ H]]%lookup_insert_Some; eauto.
  - intros u. rewrite lookup_insert_eq. intros [= <-]. unfold channel_for_monitor. now rewrite Hi, decide_True.
  - intros c u Hu. destruct (decide (c = conn_id sub)) as [->|Hne].
    + rewrite lookup_insert_eq. exists t'. assert (u = t) as -> by congruence. split; [done|]. split; [done|].
      intros s Hns. apply Hsame. intros ->. now apply Hns.
    + rewrite lookup_insert_ne by done. exists u. split; [done|]. split; [reflexivity|]. intros s _. reflexivity.
  - intros c Hc. rewrite lookup_insert_ne; [done|]. intros <-. congruence.
Qed.

Lemma shrinks_unbound t t' i : shrinks t t' -> channel_for_monitor t i = None -> channel_for_monitor t' i = None.
Proof.
  intros [Hb Hc]. unfold channel_for_monitor. destruct (ioid_to_sid t' !! i) as [s|] eqn:E; [|done].
  rewrite (Hb _ _ E). destruct (sid_to_cid t' !! s) as [c|] eqn:E'; [|done]. now rewrite (Hc _ _ E').
Qed.

Lemma destroy_subs_cons tables sub subs :
  (destroy_subs tables (sub :: subs)).1 = (destroy_subs (destroy_sub tables sub).1 subs).1.
Proof. cbn. destruct (destroy_sub tables sub) as [t1 s1]. cbn. now destruct (destroy_subs t1 subs). Qed.

Lemma destroy_subs_step tables subs :
  all_ok tables ->
  all_ok (destroy_subs tables subs).1 /\
  (forall c t, tables !! c = Some t -> exists t', (destroy_subs tables subs).1 !! c = Some t' /\ shrinks t t' /\
     forall s, (forall sub, sub ∈ subs -> conn_id sub = c -> ioid_to_sid t !! ioid sub <> Some s) -> same_channel s t t') /\
  (forall c, tables !! c = None -> (destroy_subs tables subs).1 !! c = None).
Proof.
  revert tables. induction subs as [|sub subs IH]; intros tables Hok.
  { cbn. split; [done|]. split; [|done]. intros c t H. exists t. split; [done|]. split; [reflexivity|]. intros s _. reflexivity. }
  rewrite destroy_subs_cons. destruct (destroy_sub_step tables sub Hok) as (Hok1 & _ & H1 & Hn1).
  destruct (IH _ Hok1) as (Hok2 & H2 & Hn2). split; [done|]. split; [|auto].
  intros c t Et. destruct (H1 c t Et) as (t1 & Et1 & Hs1 & Hc1). destruct (H2 c t1 Et1) as (t2 & Et2 & Hs2 & Hc2).
  exists t2. split; [done|]. split; [etransitivity; eauto|]. intros s Hns.
  transitivity t1; [apply Hc1; intros Hc; apply Hns; [left|done]|].
  apply Hc2. intros sb Hin Hc E. apply (Hns sb ltac:(now right) Hc). now apply (sh_bound _ _ Hs1).
Qed.

(** ** Claims *)


(** Removing a channel the client names is exact: it reports whether the
    client id still belonged to that channel, frees the id only then, forgets the
    channel and every request bound to it, and leaves all other channels, ids and
    requests as they were. *)
Theorem remove_channel_exact t cid sid :
  tables_ok t ->
  let '(t', current) := remove_channel_if_current t cid sid in
  tables_ok t' /\
  (current = true <-> cid_to_sid t !! cid = Some sid) /\
  (forall c, cid_to_sid t' !! c = if current && (c =? cid) then None else cid_to_sid t !! c) /\
  (forall s, sid_to_pv t' !! s = (if s =? sid then None else sid_to_pv t !! s) /\
             sid_to_cid t' !! s = (if s =? sid then None else sid_to_cid t !! s) /\
             ioids_for_sid t' s = (if s =? sid then ∅ else ioids_for_sid t s)) /\
  (forall i, ioid_to_sid t' !! i = if decide (ioid_to_sid t !! i = Some sid) then None else ioid_to_sid t !! i).
Proof.
  intros Hok. pose proof (remove_if_current_ok t cid sid Hok) as Hok'.
  pose proof (remove_if_current_rows t cid sid Hok) as (Hi & Hp & Hc & Hs).
  destruct (remove_if_current_tables t cid sid) as [Ec _].
  assert ((remove_channel_if_current t cid sid).2 = bool_decide (cid_to_sid t !! cid = Some sid)) as Eb.
  { unfold remove_channel_if_current. case_decide; [now rewrite bool_decide_true|now rewrite bool_decide_false]. }
  destruct (remove_channel_if_current t cid sid) as [t' current]. cbn [fst snd] in *.
  split; [done|]. split; [rewrite Eb; apply bool_decide_eq_true|]. split; [|split; [|exact Hi]].
  - intros c. rewrite Ec, Eb. case_decide as E.
    + rewrite bool_decide_true by done. cbn. destruct (Z.eqb_spec c cid) as [->|]; [apply lookup_delete_eq|].
      now rewrite lookup_delete_ne.
    + now rewrite bool_decide_false.
  - intros s. unfold ioids_for_sid. rewrite Hp, Hc, Hs. destruct (Z.eqb_spec s sid) as [->|Hne].
    + now rewrite !lookup_delete_eq.
    + now rewrite !lookup_delete_ne.
Qed.

(** The teardown behind a dead upstream: whatever subscriptions are torn down
    and in whatever order, the tables of every connection stay consistent, no
    subscription torn down keeps a channel, and every channel that carried none
    of them keeps its name, its client id and all its requests. *)
Theorem teardown_exact tables subs :
  all_ok tables ->
  let tables' := (destroy_subs tables subs).1 in
  all_ok tables' /\
  (forall sub t', sub ∈ subs -> tables' !! conn_id sub = Some t' -> channel_for_monitor t' (ioid sub) = None) /\
  (forall c t s, tables !! c = Some t ->
     (forall sub, sub ∈ subs -> conn_id sub = c -> ioid_to_sid t !! ioid sub <> Some s) ->
     exists t', tables' !! c = Some t' /\ same_channel s t t').
Proof.
  intros Hok tables'. destruct (destroy_subs_step tables subs Hok) as (Hok' & Hall & _).
  split; [done|]. split; [|intros c t s Et Hs; destruct (Hall c t Et) as (t' & ? & _ & H); eauto].
  clear Hok' Hall. unfold tables'. clear tables'. revert tables Hok.
  induction subs as [|sub subs IH]; intros tables Hok sb t' Hin Ht'; [now apply not_elem_of_nil in Hin|].
  rewrite destroy_subs_cons in Ht'. destruct (destroy_sub_step tables sub Hok) as (Hok1 & Hgone & _ & _).
  apply elem_of_cons in Hin as [->|Hin]; [|eapply IH; eauto].
  destruct (destroy_subs_step _ subs Hok1) as (_ & H2 & Hn2).
  destruct ((destroy_sub tables sub).1 !! conn_id sub) as [t1|] eqn:E1; [|rewrite Hn2 in Ht' by done; discriminate].
  destruct (H2 _ _ E1) as (t2 & E2 & Hs & _). rewrite E2 in Ht'. injection Ht' as <-.
  apply (shrinks_unbound t1); auto.
Qed.

(** DESTROY_CHANNEL forgets the requests of the channel but leaves their
    subscriptions in the registry, where the client can no longer reach them: the
    operations on the channel are refused and a DESTROY_REQUEST finds no row. *)
Theorem destroy_channel_keeps_subscription conn version is_be has_pv init_full_desc is_writable snapshot now_prev now s sid cid ioid :
  let handle := handle conn version is_be has_pv init_full_desc is_writable snapshot now_prev now in
  rows_ok (conn_state s) -> ioid_to_sid (channels (conn_state s)) !! ioid = Some sid ->
  let s' := handle s (DestroyChannel sid cid) in
  monitors s' = monitors s /\ handle s' (DestroyRequest ioid) = s' /\
  (forall op, Packet.sid_or_cid op = sid -> handle s' (Op op) = s').
Proof.
  intros h Hr Hb s'. destruct (purge_ok _ cid sid Hr) as [_ _ Hp _ _].
  destruct (remove_if_current_rows (channels (conn_state s)) cid sid (r_tables _ Hr)) as (Hi & Hpv & _).
  split; [done|]. split.
  - unfold s', h. cbn [handle conn_state]. rewrite Hp. cbn [purge_channel_requests channels]. rewrite Hi.
    now rewrite decide_True.
  - intros op <-. unfold s', h. cbn [handle conn_state purge_channel_requests channels].
    rewrite Hpv, lookup_delete_eq. now destruct (Packet.op_is_server op).
Qed.

(** ** A session *)

Definition sample_desc : Ty.StructureDesc := Ty.new.
Definition sample_nt : NtPayload := Pipeline.sample_payload 3.
Definition sample_handle : Srv -> Request -> Srv :=
  handle 1 2 false (fun _ => true) (fun _ => Some sample_desc) (fun _ => true) (fun _ => None) (0, 0) (0, 0).
Definition sample_op (subcmd : Z) : Request :=
  Op (Packet.mkOp 1 42 subcmd [] 13 false None None None).

(** The client opens a channel, starts a monitor on it and destroys the channel,
    then the request: the next post is still sent to it. *)
Definition sample_session : list Request :=
  [CreateChannel 9 (str "PV:A"); sample_op 0x08; sample_op 0x44; DestroyChannel 1 9; DestroyRequest 42].

Example post_after_destroy :
  let s := fold_left sample_handle sample_session initial in
  channels (conn_state s) = default_tables /\
  map (fun m => m.1.1) (notify_monitors (0, 0) (0, 0) (monitors s) (str "PV:A") sample_nt).2 = [(1, 42)].
Proof. vm_compute. done. Qed.


(** Client id 9 is bound to channel 7 and then, without a destroy, to channel 8. *)
Definition rebound : ChannelTables := bind_monitor (insert_channel (insert_channel default_tables 9 7 [65]) 9 8 [65]) 42 7.

Lemma rebound_ok : tables_ok rebound.
Proof. unfold rebound. auto 10 with channels. Qed.

Lemma remove_channel_exact_witness :
  (remove_channel_if_current rebound 9 7).2 = false /\ cid_to_sid (remove_channel_if_current rebound 9 7).1 !! 9 = Some 8.
Proof.
  pose proof (remove_channel_exact rebound 9 7 rebound_ok) as H.
  destruct (remove_channel_if_current rebound 9 7) as [t' current] eqn:E. destruct H as (_ & Hcur & Hc & _).
  assert (current = false) as ->.
  { destruct current; [|done]. assert (cid_to_sid rebound !! 9 = Some 7) as H by now apply Hcur. vm_compute in H. discriminate. }
  split; [done|]. cbn [fst]. rewrite Hc. reflexivity.
Defined.

Lemma teardown_exact_witness :
  all_ok {[ 1 := rebound ]} /\
  all_ok (destroy_subs {[ 1 := rebound ]} [Pipeline.sample_sub]).1.
Proof.
  assert (all_ok {[ 1 := rebound ]}) as H by (intros c t [_ <-]%lookup_singleton_Some; apply rebound_ok).
  split; [exact H|]. exact (proj1 (teardown_exact _ [Pipeline.sample_sub] H)).
Defined.

Lemma destroy_channel_keeps_subscription_witness :
  let s := fold_left sample_handle (take 3 sample_session) initial in
  monitors (sample_handle s (DestroyChannel 1 9)) = monitors s.
Proof.
  intros s. apply (destroy_channel_keeps_subscription 1 2 false (fun _ => true) (fun _ => Some sample_desc) (fun _ => true)
    (fun _ => None) (0, 0) (0, 0) s 1 9 42).
  - apply (session_rows 1 2 false); [apply initial_rows| |done|done]. intros x [y H]. cbn in H. now rewrite lookup_empty in H.
  - vm_compute. reflexivity.
Defined.

End Channels.
