(* ===== verification/F64.v ===== *)
(** * Double-precision arithmetic on bit patterns

    The [f64] operations the record engine uses, on the bit patterns of
    [NtTypes].  Arithmetic is that of the Standard Library's [SpecFloat]
    (IEEE 754, round to nearest, ties to even, 53 bits of precision). *)

From Stdlib Require Import ZArith Floats.SpecFloat.
From S2P Require Import Prelude Utf8 Wire PvdTypes NtTypes.

Local Open Scope Z_scope.

Module F64.
Import Float.

(** The value of a pattern, and the pattern of a value.  [of_spec] takes values
    that [SpecFloat] has rounded: a mantissa of 53 bits, or an exponent of -1074. *)
Definition to_spec (x : Z) : spec_float :=
  let s := 2 ^ 63 <=? x in
  let e := Z.shiftr x 52 mod 2 ^ 11 in
  let m := x mod 2 ^ 52 in
  if e =? 0x7FF then if m =? 0 then S754_infinity s else S754_nan
  else if e =? 0 then
    match m with Zpos p => S754_finite s p (-1074) | _ => S754_zero s end
  else S754_finite s (Z.to_pos (2 ^ 52 + m)) (e - 1075).

Definition of_spec (f : spec_float) : Z :=
  match f with
  | S754_zero s => if s then 2 ^ 63 else 0
  | S754_infinity s => (if s then 2 ^ 63 else 0) + 0x7FF * 2 ^ 52
  | S754_nan => 0x7FF8000000000000
  | S754_finite s m e =>
    (if s then 2 ^ 63 else 0)
    + (if Zpos m <? 2 ^ 52 then Zpos m else (e + 1075) * 2 ^ 52 + (Zpos m - 2 ^ 52))
  end.

Definition add (a b : Z) : Z := of_spec (SFadd 53 1024 (to_spec a) (to_spec b)).
Definition sub (a b : Z) : Z := of_spec (SFsub 53 1024 (to_spec a) (to_spec b)).

(** [x.abs()] clears the sign bit. *)
Definition abs (x : Z) : Z := Z.land x 0x7FFFFFFFFFFFFFFF.

Definition lt64 (a b : Z) : bool := negb (is_nan64 a) && negb (is_nan64 b) && (key 64 a <? key 64 b).

Definition i32_min : Z := - 2 ^ 31.
Definition i32_max : Z := 2 ^ 31 - 1.

(** [v.round() as i32]: halves away from zero, out of range saturates, NaN is 0. *)
Definition round_i32 (x : Z) : Z :=
  match to_spec x with
  | S754_zero _ | S754_nan => 0
  | S754_infinity s => if s then i32_min else i32_max
  | S754_finite s m e =>
    let r := if 0 <=? e then Z.shiftl (Zpos m) e else Z.shiftr (Zpos m + Z.shiftl 1 (- e - 1)) (- e) in
    Z.max i32_min (Z.min (if s then - r else r) i32_max)
  end.

Lemma round_i32_range x : i32_min <= round_i32 x <= i32_max.
Proof. unfold round_i32, i32_min, i32_max. destruct (to_spec x) as [|[]| |]; cbv zeta; lia. Qed.

(** [2.5], [-2.5], [0.49999999999999994] rounded; [0.1 + 0.2], [1e300] cast. *)
Example arithmetic_samples :
  (sub (of_Z 3) (of_Z 5), add 0x3FB999999999999A 0x3FC999999999999A, abs (of_Z (-7)))
  = (of_Z (-2), 0x3FD3333333333334, of_Z 7) /\
  (round_i32 0x4004000000000000, round_i32 0xC004000000000000, round_i32 0x3FDFFFFFFFFFFFFF,
   round_i32 0x7E37E43C8800759C, round_i32 (of_Z (-3)))
  = (3, -3, 0, i32_max, -3).
Proof. vm_compute. done. Qed.

End F64.
