(* ===== verification/Text.v ===== *)
(** * Text of the standard library

    What the IOC uses of [str]: trimming of white space, ASCII lower case,
    suffixes, and the parsers of [f64] and [i32], on the UTF-8 bytes of a string.
    A decimal is rounded to the nearest [f64], ties to even. *)

From Stdlib Require Import ZArith Floats.SpecFloat.
From S2P Require Import Prelude Utf8 Wire PvdTypes NtTypes F64.

Local Open Scope Z_scope.

Module Text.

(** The code points with the White_Space property, in UTF-8. *)
Definition whitespace : list bytes :=
  [[9]; [10]; [11]; [12]; [13]; [32]; [0xC2; 0x85]; [0xC2; 0xA0]; [0xE1; 0x9A; 0x80];
   [0xE2; 0x80; 0x80]; [0xE2; 0x80; 0x81]; [0xE2; 0x80; 0x82]; [0xE2; 0x80; 0x83]; [0xE2; 0x80; 0x84]; [0xE2; 0x80; 0x85];
   [0xE2; 0x80; 0x86]; [0xE2; 0x80; 0x87]; [0xE2; 0x80; 0x88]; [0xE2; 0x80; 0x89]; [0xE2; 0x80; 0x8A];
   [0xE2; 0x80; 0xA8]; [0xE2; 0x80; 0xA9]; [0xE2; 0x80; 0xAF]; [0xE2; 0x81; 0x9F]; [0xE3; 0x80; 0x80]].

Fixpoint strip_prefix (p s : bytes) : option bytes :=
  match p, s with
  | [], _ => Some s
  | x :: p, y :: s => if x =? y then strip_prefix p s else None
  | _ :: _, [] => None
  end.

Fixpoint strip_any (ps : list bytes) (s : bytes) : option bytes :=
  match ps with
  | [] => None
  | p :: ps => match strip_prefix p s with Some s => Some s | None => strip_any ps s end
  end.

(** Every round drops a byte. *)
Fixpoint strip_all (fuel : nat) (ps : list bytes) (s : bytes) : bytes :=
  match fuel with
  | O => s
  | S fuel => match strip_any ps s with Some s => strip_all fuel ps s | None => s end
  end.

Definition trim_start (s : bytes) : bytes := strip_all (length s) whitespace s.
Definition trim_end (s : bytes) : bytes := rev (strip_all (length s) (map (@rev Z) whitespace) (rev s)).
Definition trim (s : bytes) : bytes := trim_end (trim_start s).

Definition to_ascii_lowercase (s : bytes) : bytes := map (fun b => if (65 <=? b) && (b <=? 90) then b + 32 else b) s.

Definition strip_suffix (p s : bytes) : option bytes :=
  match strip_prefix (rev p) (rev s) with Some r => Some (rev r) | None => None end.

(** ** Numbers *)

(** The leading digits: their value after [acc], how many, and the rest. *)
Fixpoint digits (acc : Z) (s : bytes) : Z * Z * bytes :=
  match s with
  | b :: s' =>
    if (48 <=? b) && (b <=? 57) then
      let '(v, n, rest) := digits (10 * acc + (b - 48)) s' in (v, n + 1, rest)
    else (acc, 0, s)
  | [] => (acc, 0, [])
  end.

(** An optional sign. *)
Definition sign (s : bytes) : bool * bytes :=
  match s with
  | 43 :: s => (false, s)
  | 45 :: s => (true, s)
  | _ => (false, s)
  end.

(** [(-1)^neg * m * 10^e], rounded. *)
Definition of_decimal (neg : bool) (m e : Z) : spec_float :=
  match m with
  | Zpos p =>
    if 0 <=? e then binary_normalize 53 1024 ((if neg then -1 else 1) * (m * 10 ^ e)) 0 neg
    else SFdiv 53 1024 (S754_finite neg p 0) (S754_finite false (Z.to_pos (10 ^ (- e))) 0)
  | _ => S754_zero neg
  end.

(** The exponent behind the digits; the whole text must be used. *)
Definition exponent (s : bytes) : option Z :=
  match s with
  | [] => Some 0
  | b :: s =>
    if (b =? 101) || (b =? 69) then
      let '(neg, s) := sign s in
      let '(v, n, rest) := digits 0 s in
      if (0 <? n) && bool_decide (rest = []) then Some (if neg then - v else v) else None
    else None
  end.

(** [s.parse::<f64>()], as a bit pattern. *)
Definition parse_f64 (s : bytes) : option Z :=
  let '(neg, s) := sign s in
  let word := to_ascii_lowercase s in
  if bool_decide (word = str "inf") || bool_decide (word = str "infinity") then Some (F64.of_spec (S754_infinity neg))
  else if bool_decide (word = str "nan") then Some (F64.of_spec S754_nan)
  else
    let '(m, n1, rest) := digits 0 s in
    let '(m, n2, rest) := match rest with 46 :: rest => digits m rest | _ => (m, 0, rest) end in
    if n1 + n2 =? 0 then None
    else match exponent rest with
         | Some e => Some (F64.of_spec (of_decimal neg m (e - n2)))
         | None => None
         end.

(** [s.parse::<i32>()]. *)
Definition parse_i32 (s : bytes) : option Z :=
  let '(neg, s) := sign s in
  let '(v, n, rest) := digits 0 s in
  let v := if neg then - v else v in
  if (0 <? n) && bool_decide (rest = []) && (F64.i32_min <=? v) && (v <=? F64.i32_max) then Some v else None.

Example parse_samples :
  (parse_f64 (str "0.1"), parse_f64 (str "1e9"), parse_f64 (str ".5"), parse_f64 (str "5."), parse_f64 (str "1e-6"))
  = (Some 0x3FB999999999999A, Some 0x41CDCD6500000000, Some 0x3FE0000000000000, Some 0x4014000000000000,
     Some 0x3EB0C6F7A0B5ED8D) /\
  (parse_f64 (str "."), parse_f64 (str "e5"), parse_f64 (str "1e"), parse_f64 (str ""), parse_f64 (str "-inf"), parse_f64 (str "1e400"))
  = (None, None, None, None, Some 0xFFF0000000000000, Some 0x7FF0000000000000) /\
  (parse_f64 (str "5e-324"), parse_f64 (str "2e-324"), parse_f64 (str "179769313486231570000000000000000000000"))
  = (Some 1, Some 0, Some 0x47E0E7C9EEBC4449) /\
  (parse_i32 (str "-2147483648"), parse_i32 (str "2147483648"), parse_i32 (str "+7"), parse_i32 (str "-"), parse_i32 (str "1 "))
  = (Some (-2147483648), None, Some 7, None, None).
Proof. vm_compute. done. Qed.

Example trim_samples :
  (trim (str "  PASSIVE  "), trim [0xC2; 0xA0; 65; 0xE3; 0x80; 0x80; 9], strip_suffix (str "second") (str "10 second"))
  = (str "PASSIVE", [65], Some (str "10 ")).
Proof. vm_compute. done. Qed.

End Text.
