(* ===== verification/Ioc.v ===== *)
(** * The record engine of the IOC

    Models [spvirit-ioc/src/alarm.rs], [model.rs], [ctx.rs] and [process.rs]:
    severities and conditions, records and their links, the context of a pass
    and the processing algorithm.  A pass is a state and error computation over
    the records of one lock set; an index out of range, an unresolved link
    target, an unbalanced depth counter and a panic of device support are the
    outcome [Panic].  [process] recurses through links; its fuel is the depth
    cap [MAX_DEPTH]. *)

From stdpp Require Import gmap.
From S2P Require Import Prelude Utf8 Wire PvdTypes NtTypes F64.

Local Open Scope Z_scope.

Module Ioc.
Import Float.

(** ** Alarms *)

Inductive Severity := SevNone | Minor | Major | Invalid.

(** [sev as i32], the order of the derived [Ord]. *)
Definition sev_code (s : Severity) : Z :=
  match s with SevNone => 0 | Minor => 1 | Major => 2 | Invalid => 3 end.

#[export] Instance severity_eq_dec : EqDecision Severity.
Proof. solve_decision. Defined.

(** The severity after [raise] and whether it changed. *)
Definition raise (s other : Severity) : Severity * bool :=
  if sev_code s <? sev_code other then (other, true) else (s, false).

Inductive Condition :=
| CondNone | CRead | CWrite | CHiHi | CHigh | CLoLo | CLow | CState | CCos | CComm | CTimeout
| CHwLimit | CCalc | CScan | CLink | CSoft | CBadSub | CUdf | CDisable | CSimm | CReadAccess | CWriteAccess.

#[export] Instance condition_eq_dec : EqDecision Condition.
Proof. solve_decision. Defined.

Definition cond_code (c : Condition) : Z :=
  match c with
  | CondNone => 0 | CRead => 1 | CWrite => 2 | CHiHi => 3 | CHigh => 4 | CLoLo => 5 | CLow => 6
  | CState => 7 | CCos => 8 | CComm => 9 | CTimeout => 10 | CHwLimit => 11 | CCalc => 12 | CScan => 13
  | CLink => 14 | CSoft => 15 | CBadSub => 16 | CUdf => 17 | CDisable => 18 | CSimm => 19
  | CReadAccess => 20 | CWriteAccess => 21
  end.

Definition epics_string (c : Condition) : bytes :=
  match c with
  | CondNone => str "NO_ALARM" | CRead => str "READ" | CWrite => str "WRITE" | CHiHi => str "HIHI"
  | CHigh => str "HIGH" | CLoLo => str "LOLO" | CLow => str "LOW" | CState => str "STATE" | CCos => str "COS"
  | CComm => str "COMM" | CTimeout => str "TIMEOUT" | CHwLimit => str "HWLIMIT" | CCalc => str "CALC"
  | CScan => str "SCAN" | CLink => str "LINK" | CSoft => str "SOFT" | CBadSub => str "BAD_SUB" | CUdf => str "UDF"
  | CDisable => str "DISABLE" | CSimm => str "SIMM" | CReadAccess => str "READ_ACCESS"
  | CWriteAccess => str "WRITE_ACCESS"
  end.

Definition pva_status (c : Condition) : Z :=
  match c with
  | CondNone => 0
  | CRead | CWrite | CHiHi | CHigh | CLoLo | CLow | CState | CCos | CComm | CTimeout | CHwLimit => 1
  | CCalc | CScan | CLink | CSoft | CBadSub | CDisable | CSimm => 3
  | CUdf => 6
  | CReadAccess | CWriteAccess => 7
  end.

Definition to_nt_alarm (s : Severity) (c : Condition) : Z * Z * bytes :=
  if decide (c = CondNone) then (sev_code s, 0, []) else (sev_code s, pva_status c, epics_string c).

(** ** Records *)

Inductive Kind := Ai | Ao | Bi | Bo | LongIn | LongOut.

Definition is_output (k : Kind) : bool := match k with Ao | Bo | LongOut => true | _ => false end.

Inductive Value := Double (v : Z) | Long (v : Z) | Enum (v : Z).

Definition as_f64 (v : Value) : Z := match v with Double v => v | Long v | Enum v => of_Z v end.
Definition as_i32 (v : Value) : Z := match v with Double v => F64.round_i32 v | Long v | Enum v => v end.

Definition coerce_to (v : Value) (k : Kind) : Value :=
  match k with
  | Ai | Ao => Double (as_f64 v)
  | LongIn | LongOut => Long (as_i32 v)
  | Bi | Bo => Enum (if eq64 (as_f64 v) 0 then 0 else 1)
  end.

Definition default_for (k : Kind) : Value :=
  match k with Ai | Ao => Double 0 | LongIn | LongOut => Long 0 | Bi | Bo => Enum 0 end.

(** The derived [PartialEq]. *)
Definition value_eq (a b : Value) : bool :=
  match a, b with
  | Double x, Double y => eq64 x y
  | Long x, Long y | Enum x, Enum y => x =? y
  | _, _ => false
  end.

Inductive Field := FVal | FSevr | FStat | FDisa | FDisv | FHihi | FHigh | FLow | FLolo | FProc.

Record RecordId := mkId { rset : nat; slot : nat }.

Inductive Target := Name (n : bytes) | Id (id : RecordId).

Inductive Link :=
| Constant (v : Value)
| Db (target : Target) (field : Field) (process_passive maximize_severity : bool)
| Unresolved (name : bytes).

Definition is_constant (l : Link) : bool := match l with Constant _ => true | _ => false end.

Record Common := mkCommon {
  desc : bytes; scan_raw : bytes; evnt : bytes; pini : bool; phas : Z; pact : bool; disa : Z; disv : Z;
  diss : Severity; sdis : Link; flnk : Link; tse : Z; tpro : bool; udf : bool;
  sevr : Severity; stat : Condition; nsev : Severity; nsta : Condition }.

Record Limits := mkLimits {
  hihi : Z; high : Z; low : Z; lolo : Z; hhsv : Severity; hsv : Severity; lsv : Severity; llsv : Severity;
  hyst : Z; mdel : Z; adel : Z; configured : bool }.

Inductive Omsl := Supervisory | ClosedLoop.

Record Rec := mkRec {
  name : bytes; kind : Kind; common : Common; limits : Limits; egu : bytes;
  val : Value; prev_val : Value; prev_archive_val : Value; prev_sevr : Severity; prev_stat : Condition;
  inp : Link; out : Link; dol : Link; omsl : Omsl; time_ns : Z }.

(** Assignments to fields. *)
Definition upd_common (f : Common -> Common) (r : Rec) : Rec :=
  mkRec (name r) (kind r) (f (common r)) (limits r) (egu r) (val r) (prev_val r) (prev_archive_val r)
    (prev_sevr r) (prev_stat r) (inp r) (out r) (dol r) (omsl r) (time_ns r).

Definition upd_limits (f : Limits -> Limits) (r : Rec) : Rec :=
  mkRec (name r) (kind r) (common r) (f (limits r)) (egu r) (val r) (prev_val r) (prev_archive_val r)
    (prev_sevr r) (prev_stat r) (inp r) (out r) (dol r) (omsl r) (time_ns r).

Definition set_val (v : Value) (r : Rec) : Rec :=
  mkRec (name r) (kind r) (common r) (limits r) (egu r) v (prev_val r) (prev_archive_val r)
    (prev_sevr r) (prev_stat r) (inp r) (out r) (dol r) (omsl r) (time_ns r).

Definition set_prev (pv pav : Value) (ps : Severity) (pst : Condition) (r : Rec) : Rec :=
  mkRec (name r) (kind r) (common r) (limits r) (egu r) (val r) pv pav ps pst (inp r) (out r) (dol r) (omsl r) (time_ns r).

Definition set_time (t : Z) (r : Rec) : Rec :=
  mkRec (name r) (kind r) (common r) (limits r) (egu r) (val r) (prev_val r) (prev_archive_val r)
    (prev_sevr r) (prev_stat r) (inp r) (out r) (dol r) (omsl r) t.

Definition set_alarms (s : Severity) (st : Condition) (ns : Severity) (nst : Condition) (c : Common) : Common :=
  mkCommon (desc c) (scan_raw c) (evnt c) (pini c) (phas c) (pact c) (disa c) (disv c) (diss c) (sdis c)
    (flnk c) (tse c) (tpro c) (udf c) s st ns nst.

Definition set_pact (b : bool) (c : Common) : Common :=
  mkCommon (desc c) (scan_raw c) (evnt c) (pini c) (phas c) b (disa c) (disv c) (diss c) (sdis c)
    (flnk c) (tse c) (tpro c) (udf c) (sevr c) (stat c) (nsev c) (nsta c).

Definition set_dis (a v : Z) (c : Common) : Common :=
  mkCommon (desc c) (scan_raw c) (evnt c) (pini c) (phas c) (pact c) a v (diss c) (sdis c)
    (flnk c) (tse c) (tpro c) (udf c) (sevr c) (stat c) (nsev c) (nsta c).

Definition set_udf (b : bool) (c : Common) : Common :=
  mkCommon (desc c) (scan_raw c) (evnt c) (pini c) (phas c) (pact c) (disa c) (disv c) (diss c) (sdis c)
    (flnk c) (tse c) (tpro c) b (sevr c) (stat c) (nsev c) (nsta c).

Definition set_limit (h hi lo ll : Z) (l : Limits) : Limits :=
  mkLimits h hi lo ll (hhsv l) (hsv l) (lsv l) (llsv l) (hyst l) (mdel l) (adel l) (configured l).

(** What a client sees. *)
Definition to_payload (r : Rec) : NtTypes.NtPayload :=
  let value := match val r with Double v => NtTypes.F64 v | Long v => NtTypes.I32 v | Enum v => NtTypes.U16 v end in
  let '(severity, status, message) := to_nt_alarm (sevr (common r)) (stat (common r)) in
  let limit l := if configured (limits r) then Some (l (limits r)) else None in
  NtTypes.Scalar
    (NtTypes.mkScalar value severity status message (limit low) (limit high) (limit lolo) (limit hihi)
       0 0 (desc (common r)) 0 0 [] 0 0 0 (egu r) false 0 0 0 0 0 0 0 0 0
       (if 0 <? time_ns r then
          Some (NtTypes.mkTimeStamp (time_ns r / 1000000000) (time_ns r mod 1000000000) 0)
        else None)).

(** ** The context of a pass *)

Definition MAX_DEPTH : Z := 64.

Inductive ProcError := TooDeep (depth : Z) (record : bytes).

Inductive AsyncOutcome := Complete | Pending.

(** [D] is the state of the device support bound to records. *)
Record ProcCtx (D : Type) := mkCtx {
  events : list (bytes * NtTypes.NtPayload);
  deferred : list RecordId;
  trace : list bytes;
  depth : Z;
  ticks : nat;
  device : D }.
Arguments mkCtx {D}.
Arguments events {D}.
Arguments deferred {D}.
Arguments trace {D}.
Arguments depth {D}.
Arguments ticks {D}.
Arguments device {D}.

(** Device support: [AsyncSupport::start] on a record's name and its PACT before
    the pass.  It is handed the whole context and may do anything to it; its
    outcome is [None] when it panics. *)
Definition Support (D : Type) : Type := bytes -> bool -> ProcCtx D -> option AsyncOutcome * ProcCtx D.

Section Engine.
Context {D : Type}.
(** The clock's readings and the bindings of records to device support. *)
Context (clock : nat -> Z) (registry : RecordId -> option (Support D)).

Record St := mkSt { members : list Rec; ctx : ProcCtx D }.

Definition M (A : Type) : Type := St -> outcome ProcError A * St.

#[global] Instance ret_M : MRet M := fun A a s => (Ok a, s).
#[global] Instance bind_M : MBind M := fun A B k m s =>
  let '(r, s) := m s in
  match r with
  | Ok a => k a s
  | Err e => (Err e, s)
  | Panic => (Panic, s)
  | OutOfFuel => (OutOfFuel, s)
  end.
Definition panic {A} : M A := fun s => (Panic, s).

(** [set.get(id)] and assignments through [set.get_mut(id)]: [members[id.slot]]. *)
Definition get (id : RecordId) : M Rec := fun s =>
  match members s !! slot id with Some r => (Ok r, s) | None => (Panic, s) end.

Definition modify (id : RecordId) (f : Rec -> Rec) : M unit := fun s =>
  match members s !! slot id with
  | Some r => (Ok tt, mkSt (<[slot id := f r]> (members s)) (ctx s))
  | None => (Panic, s)
  end.

Definition on_ctx (f : ProcCtx D -> ProcCtx D) : M unit := fun s => (Ok tt, mkSt (members s) (f (ctx s))).

Definition trace_line (line : bytes) : M unit :=
  on_ctx (fun c => mkCtx (events c) (deferred c) (trace c ++ [line]) (depth c) (ticks c) (device c)).

Definition post (n : bytes) (p : NtTypes.NtPayload) : M unit :=
  on_ctx (fun c => mkCtx (events c ++ [(n, p)]) (deferred c) (trace c) (depth c) (ticks c) (device c)).

Definition with_depth (d : Z) (c : ProcCtx D) : ProcCtx D :=
  mkCtx (events c) (deferred c) (trace c) d (ticks c) (device c).

Definition push_depth (record : bytes) : M unit := fun s =>
  if MAX_DEPTH <=? depth (ctx s) then (Err (TooDeep MAX_DEPTH record), s)
  else (Ok tt, mkSt (members s) (with_depth (depth (ctx s) + 1) (ctx s))).

(** An unmatched pop fails the debug assertion. *)
Definition pop_depth : M unit := fun s =>
  if 0 <? depth (ctx s) then (Ok tt, mkSt (members s) (with_depth (saturating_sub (depth (ctx s)) 1) (ctx s)))
  else (Panic, s).

(** [ctx.clock().unix_nanos()]. *)
Definition unix_nanos : M Z := fun s =>
  let c := ctx s in
  (Ok (clock (ticks c)), mkSt (members s) (mkCtx (events c) (deferred c) (trace c) (depth c) (S (ticks c)) (device c))).

(** Run [m]; its result is returned after [pop_depth]. *)
Definition then_pop {A} (m : M A) : M A := fun s =>
  let '(r, s) := m s in
  match r with
  | Ok _ | Err _ => let '(p, s) := pop_depth s in (match p with Ok _ => r | _ => Panic end, s)
  | _ => (r, s)
  end.

(** ** Alarms and monitors *)

Definition set_sevr (r : Rec) (sev : Severity) (cond : Condition) : Rec * bool :=
  let '(s, raised) := raise (nsev (common r)) sev in
  if raised then (upd_common (fun c => set_alarms (sevr c) (stat c) s cond c) r, true) else (r, false).

Definition limit_crossed (value : Z) (l : Limits) (current : Condition) : option (Severity * Condition) :=
  let held c := bool_decide (current = c) in
  let ge a b := le64 b a in
  if negb (bool_decide (hhsv l = SevNone))
     && (ge value (hihi l) || (held CHiHi && ge value (F64.sub (hihi l) (hyst l)))) then Some (hhsv l, CHiHi)
  else if negb (bool_decide (llsv l = SevNone))
     && (le64 value (lolo l) || (held CLoLo && le64 value (F64.add (lolo l) (hyst l)))) then Some (llsv l, CLoLo)
  else if negb (bool_decide (hsv l = SevNone))
     && (ge value (high l) || (held CHigh && ge value (F64.sub (high l) (hyst l)))) then Some (hsv l, CHigh)
  else if negb (bool_decide (lsv l = SevNone))
     && (le64 value (low l) || (held CLow && le64 value (F64.add (low l) (hyst l)))) then Some (lsv l, CLow)
  else None.

(** The record after the check, and whether it was promoted. *)
Definition udf_rec (r : Rec) : Rec * bool :=
  if udf (common r) then set_sevr r Invalid CUdf else (r, false).

Definition check_udf (id : RecordId) : M unit := modify id (fun r => (udf_rec r).1).

Definition limits_rec (r : Rec) : Rec :=
  let '(r, promoted) := udf_rec r in
  if promoted then r
  else match limit_crossed (as_f64 (val r)) (limits r) (stat (common r)) with
       | Some (sev, cond) => (set_sevr r sev cond).1
       | None => r
       end.

Definition check_limits (id : RecordId) : M unit := modify id limits_rec.

Definition commit_rec (r : Rec) : Rec :=
  upd_common (fun c => set_alarms (nsev c) (nsta c) SevNone CondNone c) r.

Definition reset_alarms (id : RecordId) : M bool :=
  r ← get id;
  let changed := negb (bool_decide (sevr (common r) = nsev (common r)) && bool_decide (stat (common r) = nsta (common r))) in
  modify id commit_rec ;; mret changed.

(** Whether the value left the MDEL and ADEL dead bands. *)
Definition past_mdel (r : Rec) : bool :=
  let moved := F64.abs (F64.sub (as_f64 (val r)) (as_f64 (prev_val r))) in
  F64.lt64 (mdel (limits r)) moved || (negb (value_eq (val r) (prev_val r)) && eq64 (mdel (limits r)) 0).

Definition archived (r : Rec) : bool :=
  F64.lt64 (adel (limits r)) (F64.abs (F64.sub (as_f64 (val r)) (as_f64 (prev_archive_val r)))).

Definition posted_rec (r : Rec) : Rec :=
  set_prev (if past_mdel r then val r else prev_val r) (if archived r then val r else prev_archive_val r)
    (sevr (common r)) (stat (common r)) r.

Definition post_monitors (id : RecordId) (alarm_changed : bool) : M unit :=
  r ← get id;
  if negb alarm_changed && negb (past_mdel r) then mret tt
  else modify id posted_rec ;; post (name r) (to_payload r).

(** ** Links and fields *)

Definition field_value (r : Rec) (f : Field) : Value :=
  match f with
  | FVal => val r
  | FSevr => Long (sev_code (sevr (common r)))
  | FStat => Long (cond_code (stat (common r)))
  | FDisa => Long (disa (common r))
  | FDisv => Long (disv (common r))
  | FHihi => Double (hihi (limits r))
  | FHigh => Double (high (limits r))
  | FLow => Double (low (limits r))
  | FLolo => Double (lolo (limits r))
  | FProc => Long 0
  end.

Definition read_field (id : RecordId) (f : Field) : M Value := r ← get id; mret (field_value r f).

(** The recursive calls go through [proc]. *)
Section Body.
Context (proc : RecordId -> M unit).

Definition fetch_link_value (l : Link) (k : Kind) : M (Value * Severity) :=
  match l with
  | Constant v => mret (coerce_to v k, SevNone)
  | Unresolved _ => mret (default_for k, SevNone)
  | Db (Id target) f pp ms =>
    (if pp then proc target else mret tt) ;;
    v ← read_field target f;
    r ← get target;
    mret (coerce_to v k, if ms then sevr (common r) else SevNone)
  | Db (Name _) _ _ _ => panic
  end.

Definition write_field (id : RecordId) (f : Field) (v : Value) : M unit :=
  match f with
  | FProc => proc id
  | FVal =>
    r ← get id;
    modify id (fun r' => upd_common (set_udf false) (set_val (coerce_to v (kind r)) r')) ;;
    post_monitors id false
  | FDisa => modify id (upd_common (fun c => set_dis (as_i32 v) (disv c) c))
  | FDisv => modify id (upd_common (fun c => set_dis (disa c) (as_i32 v) c))
  | FHihi => modify id (upd_limits (fun l => set_limit (as_f64 v) (high l) (low l) (lolo l) l))
  | FHigh => modify id (upd_limits (fun l => set_limit (hihi l) (as_f64 v) (low l) (lolo l) l))
  | FLow => modify id (upd_limits (fun l => set_limit (hihi l) (high l) (as_f64 v) (lolo l) l))
  | FLolo => modify id (upd_limits (fun l => set_limit (hihi l) (high l) (low l) (as_f64 v) l))
  | FSevr | FStat => mret tt
  end.

Definition forward_link (id : RecordId) : M unit :=
  r ← get id;
  match flnk (common r) with
  | Db (Id target) _ _ _ => proc target
  | Constant _ | Unresolved _ => mret tt
  | Db (Name _) _ _ _ => panic
  end.

(** The severity of a link is raised as a LINK alarm. *)
Definition link_sevr (sev : Severity) (r : Rec) : Rec :=
  if bool_decide (sev = SevNone) then r else (set_sevr r sev CLink).1.

Definition input_body (id : RecordId) : M unit :=
  r ← get id;
  if is_constant (inp r) then modify id (upd_common (set_udf false))
  else
    p ← fetch_link_value (inp r) (kind r);
    modify id (fun r => link_sevr p.2 (upd_common (set_udf false) (set_val p.1 r))).

Definition output_body (id : RecordId) : M unit :=
  r ← get id;
  (match omsl r with
   | ClosedLoop =>
     if is_constant (dol r) then mret tt
     else
       p ← fetch_link_value (dol r) (kind r);
       modify id (fun r => link_sevr p.2 (set_val p.1 r))
   | Supervisory => mret tt
   end) ;;
  modify id (upd_common (set_udf false)) ;;
  r ← get id;
  match out r with
  | Db (Id target) f pp _ => write_field target f (val r) ;; (if pp then proc target else mret tt)
  | Unresolved _ | Constant _ => mret tt
  | Db (Name _) _ _ _ => panic
  end.

Definition is_analogue (k : Kind) : bool := match k with Bi | Bo => false | _ => true end.

(** The device-support hook: whether the pass goes on.  A panic of [start] resets
    PACT on its way out. *)
Definition async_hook (id : RecordId) (pact_before : bool) : M bool := fun s =>
  match registry id with
  | None => (Ok true, s)
  | Some start =>
    match members s !! slot id with
    | None => (Panic, s)
    | Some r =>
      let '(o, c) := start (name r) pact_before (ctx s) in
      match o with
      | None => (Panic, mkSt (<[slot id := upd_common (set_pact false) r]> (members s)) c)
      | Some Pending => (Ok false, mkSt (members s) c)
      | Some Complete => (Ok true, mkSt (members s) c)
      end
    end
  end.

(** The forward link fires while PACT is set; then PACT is cleared whatever it
    returned. *)
Definition clear_after (id : RecordId) (m : M unit) : M unit := fun s =>
  let '(r, s) := m s in
  match r with
  | Ok _ | Err _ =>
    let '(p, s) := modify id (upd_common (set_pact false)) s in
    (match p with Ok _ => r | _ => Panic end, s)
  | _ => (r, s)
  end.

(** What follows the input or output side of a pass. *)
Definition finish_pass (id : RecordId) (k : Kind) : M unit :=
  t ← unix_nanos;
  modify id (set_time t) ;;
  (if is_analogue k then check_limits id else check_udf id) ;;
  alarm_changed ← reset_alarms id;
  post_monitors id alarm_changed ;;
  clear_after id (forward_link id).

(** A pass that failed clears PACT; one that succeeded goes on. *)
Definition or_give_up (id : RecordId) (m k : M unit) : M unit := fun s =>
  let '(r, s) := m s in
  match r with
  | Err e =>
    let '(p, s) := modify id (upd_common (set_pact false)) s in
    (match p with Ok _ => Err e | _ => Panic end, s)
  | Ok _ => k s
  | _ => (r, s)
  end.

Definition record_body (id : RecordId) : M unit :=
  r ← get id;
  let pact_before := pact (common r) in
  modify id (upd_common (set_pact true)) ;;
  go ← async_hook id pact_before;
  if negb go then mret tt
  else
    r ← get id;
    or_give_up id (if is_output (kind r) then output_body id else input_body id) (finish_pass id (kind r)).

(** SDIS supplies DISA. *)
Definition fetch_disa (id : RecordId) : M unit :=
  r ← get id;
  if is_constant (sdis (common r)) then mret tt
  else
    p ← fetch_link_value (sdis (common r)) LongIn;
    modify id (upd_common (fun c => set_dis (as_i32 p.1) (disv c) c)).

Definition disabled_rec (d : Severity) (r : Rec) : Rec :=
  (set_sevr (upd_common (fun c => set_alarms (sevr c) (stat c) SevNone CondNone c) r) d CDisable).1.

(** The closing trace line of a pass, whatever it returned. *)
Definition then_trace (id : RecordId) (tp : bool) (m : M unit) : M unit := fun s =>
  let '(res, s) := m s in
  match res with
  | Ok _ | Err _ =>
    if tp then
      match members s !! slot id with
      | Some r => (res, (trace_line (name r ++ str ": process complete") s).2)
      | None => (Panic, s)
      end
    else (res, s)
  | _ => (res, s)
  end.

Definition process_inner (id : RecordId) (tp : bool) : M unit :=
  r ← get id;
  (if tp then trace_line (name r ++ str ": process entered") else mret tt) ;;
  fetch_disa id ;;
  r ← get id;
  if disa (common r) =? disv (common r) then
    (if tp then trace_line (name r ++ str ": disabled (DISA == DISV)") else mret tt) ;;
    modify id (disabled_rec (diss (common r))) ;;
    alarm_changed ← reset_alarms id;
    post_monitors id alarm_changed
  else
    then_trace id tp (record_body id).
End Body.

(** ** Processing *)

Fixpoint process_fuel (fuel : nat) (id : RecordId) : M unit :=
  r ← get id;
  if pact (common r) then
    if tpro (common r) then trace_line (name r ++ str ": PACT already set, returning") else mret tt
  else
    push_depth (name r) ;;
    then_pop
      (match fuel with
       | O => fun s => (OutOfFuel, s)
       | S fuel => process_inner (process_fuel fuel) id (tpro (common r))
       end).

Definition process : RecordId -> M unit := process_fuel (Z.to_nat MAX_DEPTH).

Definition complete_async (id : RecordId) : M unit :=
  r ← get id;
  if negb (pact (common r)) then mret tt
  else
    push_depth (name r) ;;
    then_pop (record_body process id).

End Engine.
End Ioc.
