(* ===== verification/IocSafe.v ===== *)
(** * Safety of the record engine

    A processing pass over a lock set whose links are resolved, with any device
    support that keeps the documented pairing of [push_depth] and [pop_depth]: it
    panics only where device support panics, and never runs out of its depth
    budget; it leaves names, kinds and links alone and keeps every value in the
    representation of its record's kind, even when it panics; unless it does, it
    restores the depth counter and the PACT flags, and queues only monitors in
    the type of their records besides those that device support posts.  The
    proofs compose specifications of the engine's parts with a rule for
    sequencing. *)

From stdpp Require Import gmap.
From S2P Require Import Prelude Utf8 Wire PvdTypes NtTypes F64 Ioc.

Local Open Scope Z_scope.

Module IocSafe.
Import Ioc.

(** ** Well-formed lock sets *)

(** What processing never changes. *)
Definition skeleton (r : Rec) : bytes * Kind * list Link :=
  (name r, kind r, [inp r; out r; dol r; flnk (common r); sdis (common r)]).

Definition links_of (r : Rec) : list Link := [inp r; out r; dol r; flnk (common r); sdis (common r)].

Definition resolved (n : nat) (l : Link) : Prop :=
  match l with
  | Db (Id t) _ _ _ => (slot t < n)%nat
  | Db (Name _) _ _ _ => False
  | _ => True
  end.

Definition in_i32 (v : Z) : Prop := F64.i32_min <= v <= F64.i32_max.

(** The representation of a value follows the kind of its record. *)
Definition typed (k : Kind) (v : Value) : Prop :=
  match k, v with
  | (Ai | Ao), Double _ => True
  | (LongIn | LongOut), Long v => in_i32 v
  | (Bi | Bo), Enum v => v = 0 \/ v = 1
  | _, _ => False
  end.

Definition rec_ok (r : Rec) : Prop :=
  typed (kind r) (val r) /\ in_i32 (disa (common r)) /\ in_i32 (disv (common r)).

(** A value of any type, within the range of its type. *)
Definition value_ok (v : Value) : Prop :=
  match v with Double _ => True | Long v => in_i32 v | Enum v => 0 <= v < 2 ^ 16 end.

Lemma typed_value_ok k v : typed k v -> value_ok v.
Proof. destruct k, v; cbn; try done; lia. Qed.

Lemma as_i32_range v : value_ok v -> in_i32 (as_i32 v).
Proof.
  destruct v; cbn; [intros _; apply F64.round_i32_range|done|]. unfold in_i32, F64.i32_min, F64.i32_max. lia.
Qed.

Lemma coerce_typed v k : value_ok v -> typed k (coerce_to v k).
Proof. intros H. destruct k; cbn; try done; try (now apply as_i32_range); destruct (Float.eq64 _ _); auto. Qed.

Lemma default_typed k : typed k (default_for k).
Proof. destruct k; cbn; auto; split; cbv; congruence. Qed.

Lemma field_value_ok r f : rec_ok r -> value_ok (field_value r f).
Proof.
  intros (Ht & Ha & Hv). destruct f; cbn; try done.
  - now apply (typed_value_ok (kind r)).
  - destruct (sevr (common r)); cbv; split; congruence.
  - destruct (stat (common r)); cbv; split; congruence.
Qed.

(** Constants of links are in range too. *)
Definition link_ok (n : nat) (l : Link) : Prop :=
  resolved n l /\ match l with Constant v => value_ok v | _ => True end.

(** The payload of a record carries the scalar type of its kind. *)
Definition payload_typed (k : Kind) (p : NtTypes.NtPayload) : Prop :=
  match p with
  | NtTypes.Scalar nt =>
    match k, NtTypes.value nt with
    | (Ai | Ao), NtTypes.F64 _ => True
    | (LongIn | LongOut), NtTypes.I32 v => in_i32 v
    | (Bi | Bo), NtTypes.U16 v => v = 0 \/ v = 1
    | _, _ => False
    end
  | _ => False
  end.

Lemma to_payload_typed r : typed (kind r) (val r) -> payload_typed (kind r) (to_payload r).
Proof.
  intros H. unfold to_payload. destruct (to_nt_alarm _ _) as [[a b] c]. cbn.
  destruct (kind r), (val r); try done.
Qed.

(** A monitor of some record, in its type. *)
Definition event_ok (K : list (bytes * Kind * list Link)) (ev : bytes * NtTypes.NtPayload) : Prop :=
  exists k ls, (ev.1, k, ls) ∈ K /\ payload_typed k ev.2.

(** ** Device support *)

Abbreviation Event := (bytes * NtTypes.NtPayload)%type.
Abbreviation Registry D := (RecordId -> option (Support D)).

(** The contract of [push_depth] and [pop_depth]: a call that returns leaves the
    depth counter where it was. *)
Class Balanced {D} (registry : Registry D) : Prop :=
  dv_balanced : forall id start n b c o c', registry id = Some start -> start n b c = (Some o, c') -> depth c' = depth c.

(** What device support queues: monitors of [E], and records of [F] for later.  It
    may also drop what the pass queued. *)
Class Posts {D} (registry : Registry D) (E : Event -> Prop) (F : RecordId -> Prop) : Prop := {
  dv_posts : forall id start n b c o c', registry id = Some start -> start n b c = (Some o, c') ->
    forall ev, ev ∈ events c' -> ev ∈ events c \/ E ev;
  dv_defers : forall id start n b c o c', registry id = Some start -> start n b c = (Some o, c') ->
    forall x, x ∈ deferred c' -> x ∈ deferred c \/ F x }.

(** Some call of bound device support panics. *)
Definition device_panics {D} (registry : Registry D) : Prop :=
  exists id start n b c, registry id = Some start /\ (start n b c).1 = None.

#[export] Instance posts_any {D} (registry : Registry D) : Posts registry (fun _ => True) (fun _ => True).
Proof. split; auto. Qed.

#[export] Instance no_device_balanced {D} : Balanced (fun _ => None : option (Support D)).
Proof. by intros. Qed.

#[export] Instance no_device_posts {D} : Posts (fun _ => None : option (Support D)) (fun _ => False) (fun _ => False).
Proof. by split. Qed.

(** ** Specifications *)

Section Spec.
Context {D : Type} (clock : nat -> Z) (registry : Registry D) (E : Event -> Prop) (F : RecordId -> Prop).
Context `{!Balanced registry} `{!Posts registry E F}.
(** The names, kinds and links of the lock set, resolved. *)
Context (K : list (bytes * Kind * list Link)).
Hypothesis links_ok : Forall (fun k => Forall (link_ok (length K)) k.2) K.

Abbreviation M := (@M D).
Abbreviation St := (@St D).

Definition unbound (i : nat) : Prop := forall k, registry (mkId k i) = None.

Definition pacts (s : St) : list bool := (fun r => pact (common r)) <$> members s.

(** What holds even after a panic. *)
Record shaped (s : St) : Prop := {
  sh_skel : skeleton <$> members s = K;
  sh_ok : Forall rec_ok (members s) }.

Record inv (d : Z) (s : St) : Prop := {
  i_shape : shaped s;
  i_depth : depth (ctx s) = d }.

(** Device support, if any, finishes its operation inside [start]. *)
Definition synchronous (id : RecordId) : Prop :=
  forall start n b c, registry id = Some start -> (start n b c).1 = Some Complete.

Lemma unbound_synchronous id : unbound (slot id) -> synchronous id.
Proof. intros Hu start n b d Er. specialize (Hu (rset id)). destruct id. cbn in Hu. congruence. Qed.

(** PACT flags agree outside the record [e]; what is queued was queued before, is a
    monitor in its record's type, or comes from device support. *)
Record evolves (e : option nat) (s s' : St) : Prop := {
  e_pact : forall i, unbound i -> e <> Some i -> pacts s' !! i = pacts s !! i;
  e_events : forall ev, ev ∈ events (ctx s') -> ev ∈ events (ctx s) \/ event_ok K ev \/ E ev;
  e_deferred : forall x, x ∈ deferred (ctx s') -> x ∈ deferred (ctx s) \/ F x }.

#[export] Instance evolves_preorder e : PreOrder (evolves e).
Proof.
  split; [intros s; split; auto|]. intros a b c [H1 H2 H3] [H4 H5 H6].
  split; [intros i Hu Hi; rewrite H4 by done; auto| |]; intros x Hx.
  - destruct (H5 x Hx) as [?|?]; auto.
  - destruct (H6 x Hx) as [?|?]; auto.
Qed.

Lemma evolves_weaken e s s' : evolves None s s' -> evolves e s s'.
Proof. intros [H1 H2 H3]. split; [|done|done]. intros i Hu _. now apply H1. Qed.

(** A step that queues nothing and keeps the flags. *)
Lemma evolves_quiet e s s' : (forall i, e <> Some i -> pacts s' !! i = pacts s !! i) ->
  events (ctx s') = events (ctx s) -> deferred (ctx s') = deferred (ctx s) -> evolves e s s'.
Proof. intros Hp He Hd. split; [auto|rewrite He; auto|rewrite Hd; auto]. Qed.

(** The result of a computation from [s]: a panic only where device support
    panics, and then the records have their shape; otherwise [P] and the
    invariant. *)
Definition good {A} (d : Z) (e : option nat) (s : St) (x : outcome ProcError A * St) (P : outcome ProcError A -> list Rec -> Prop) : Prop :=
  match x.1 with
  | Panic => device_panics registry /\ shaped x.2
  | r => P r (members x.2) /\ inv d x.2 /\ evolves e s x.2
  end.

Definition safe {A} (d : Z) (e : option nat) (m : M A) (P : outcome ProcError A -> list Rec -> Prop) : Prop :=
  forall s, inv d s -> good d e s (m s) P.

Lemma good_after {A} d e s s1 (x : outcome ProcError A * St) P : evolves e s s1 -> good d e s1 x P -> good d e s x P.
Proof. intros He. unfold good. destruct x as [[a|y| |] s2]; cbn; try done; intros (H1 & H2 & H3); (split; [done|]; split; [done|]; etransitivity; eauto). Qed.

Lemma good_weaken {A} d e s (x : outcome ProcError A * St) (P P' : outcome ProcError A -> list Rec -> Prop) :
  (forall r ms, P r ms -> P' r ms) -> good d e s x P -> good d e s x P'.
Proof. intros HP. unfold good. destruct x as [[a|y| |] s2]; cbn; try done; intros (H1 & H2 & H3); auto. Qed.

Lemma good_shaped {A} d e s (x : outcome ProcError A * St) P : good d e s x P -> shaped x.2.
Proof. unfold good. destruct x as [[a|y| |] s2]; cbn; intros H; (now destruct H as (_ & [Hs _] & _)) || (now destruct H). Qed.

(** Returns, and returns or fails with an error. *)
Definition returns {A} (Q : A -> Prop) (r : outcome ProcError A) (_ : list Rec) : Prop :=
  match r with Ok a => Q a | _ => False end.
Definition too_deep (x : ProcError) : Prop := match x with TooDeep n _ => n = MAX_DEPTH end.
Definition ends {A} (Q : A -> Prop) (r : outcome ProcError A) (_ : list Rec) : Prop :=
  match r with Ok a => Q a | Err x => too_deep x | _ => False end.
(** Ends, with PACT clear on the record at [i]. *)
Definition clears (i : nat) (r : outcome ProcError unit) (ms : list Rec) : Prop :=
  ends (fun _ => True) r ms /\ forall r, ms !! i = Some r -> pact (common r) = false.

Lemma safe_seq {A B} d e (m : M A) (k : A -> M B) Q P :
  safe d e m (returns Q) -> (forall a, Q a -> safe d e (k a) P) -> safe d e (m ≫= k) P.
Proof.
  intros Hm Hk s Hi. specialize (Hm s Hi). unfold mbind, bind_M, good in Hm |- *.
  destruct (m s) as [[a|x| |] s1]; cbn in Hm |- *; [|by destruct Hm|done|by destruct Hm].
  destruct Hm as (Hq & Hi1 & He1). exact (good_after _ _ s s1 _ _ He1 (Hk a Hq s1 Hi1)).
Qed.

Lemma safe_bind_err {A B} d e (m : M A) (k : A -> M B) Q R :
  safe d e m (ends Q) -> (forall a, Q a -> safe d e (k a) (ends R)) -> safe d e (m ≫= k) (ends R).
Proof.
  intros Hm Hk s Hi. specialize (Hm s Hi). unfold mbind, bind_M, good in Hm |- *.
  destruct (m s) as [[a|x| |] s1]; cbn in Hm |- *; [|done..|by destruct Hm].
  destruct Hm as (Hq & Hi1 & He1). exact (good_after _ _ s s1 _ _ He1 (Hk a Hq s1 Hi1)).
Qed.

Lemma safe_ret {A} d e (a : A) (Q : A -> Prop) : Q a -> safe d e (mret a) (returns Q).
Proof. intros H s Hi. split; [exact H|]. split; [done|]. reflexivity. Qed.

Lemma safe_weaken {A} d e (m : M A) P P' :
  safe d e m P -> (forall r ms, P r ms -> P' r ms) -> safe d e m P'.
Proof. intros H Hp s Hi. apply (good_weaken _ _ _ _ P); auto. Qed.

Lemma returns_ends {A} d e (m : M A) (Q R : A -> Prop) :
  safe d e m (returns Q) -> (forall a, Q a -> R a) -> safe d e m (ends R).
Proof. intros H HR. eapply safe_weaken; [exact H|]. intros [a| | |] ms; cbn; auto; done. Qed.

Lemma safe_none {A} d e (m : M A) P : safe d None m P -> safe d e m P.
Proof.
  intros H s Hi. specialize (H s Hi). unfold good in *. destruct (m s) as [[a|x| |] s1]; cbn in *; try done;
    destruct H as (H1 & H2 & H3); auto using evolves_weaken.
Qed.

(** A record of the lock set. *)
Definition at_slot (id : RecordId) (r : Rec) : Prop := K !! slot id = Some (skeleton r) /\ rec_ok r.

Lemma inv_lookup d s id :
  inv d s -> (slot id < length K)%nat -> exists r, members s !! slot id = Some r /\ at_slot id r.
Proof.
  intros [[Hs Ho] _] Hl. rewrite <- Hs, length_fmap in Hl. destruct (lookup_lt_is_Some_2 _ _ Hl) as [r Hr].
  exists r. split; [done|]. split; [now rewrite <- Hs, list_lookup_fmap, Hr|]. eapply Forall_lookup_1; eauto.
Qed.

Lemma safe_get d e id : (slot id < length K)%nat -> safe d e (get id) (returns (at_slot id)).
Proof.
  intros Hl s Hi. destruct (inv_lookup d s id Hi Hl) as (r & Hr & Hok). unfold get. rewrite Hr. cbn.
  split; [done|]. split; [done|]. reflexivity.
Qed.

(** An update that keeps what never changes. *)
Definition keeps (id : RecordId) (f : Rec -> Rec) : Prop :=
  forall r, at_slot id r -> skeleton (f r) = skeleton r /\ rec_ok (f r).

Lemma safe_modify d e id f :
  (slot id < length K)%nat -> keeps id f ->
  e = Some (slot id) \/ (forall r, pact (common (f r)) = pact (common r)) ->
  safe d e (modify id f) (returns (fun _ => True)).
Proof.
  intros Hl Hk Hp s Hi. destruct (inv_lookup d s id Hi Hl) as (r & Hr & Hok). unfold modify. rewrite Hr. cbn.
  destruct (Hk r Hok) as [Hsk Hrok]. destruct Hi as [[Hs Ho] Hd]. split; [done|]. split.
  - split; [|done]. split; cbn; [|now apply Forall_insert]. rewrite list_fmap_insert, Hsk, Hs. apply list_insert_id. apply Hok.
  - apply evolves_quiet; [|done|done]. intros i Hne. unfold pacts. cbn. rewrite list_fmap_insert.
    destruct (decide (i = slot id)) as [->|Hi].
    + destruct Hp as [->|Hp]; [done|]. pose proof (lookup_lt_Some _ _ _ Hr).
      rewrite list_lookup_insert_eq by (now rewrite length_fmap). now rewrite list_lookup_fmap, Hr, Hp.
    + now rewrite list_lookup_insert_ne by done.
Qed.

Lemma safe_on_ctx d e f :
  (forall c, depth (f c) = depth c /\ deferred (f c) = deferred c /\ forall ev, ev ∈ events (f c) -> ev ∈ events c \/ event_ok K ev) ->
  safe d e (on_ctx f) (returns (fun _ => True)).
Proof.
  intros Hf s [Hs Hd]. split; [done|]. destruct (Hf (ctx s)) as (H1 & H2 & H3).
  split; [split; [by destruct Hs|cbn; congruence]|]. split; cbn; [done| |rewrite H2; auto].
  intros ev Hev. destruct (H3 ev Hev); auto.
Qed.

Lemma safe_trace d e line : safe d e (trace_line line) (returns (fun _ => True)).
Proof. apply safe_on_ctx. intros c. split; [done|]. split; [done|]. cbn. auto. Qed.

Lemma safe_trace_if d e (b : bool) line : safe d e (if b then trace_line line else mret tt) (returns (fun _ => True)).
Proof. destruct b; [apply safe_trace|now apply safe_ret]. Qed.

Lemma safe_post d e n p : event_ok K (n, p) -> safe d e (post n p) (returns (fun _ => True)).
Proof. intros H. apply safe_on_ctx. intros c. split; [done|]. split; [done|]. cbn. intros ev [?|Hev]%elem_of_app; [auto|]. apply list_elem_of_singleton in Hev as ->. auto. Qed.

Lemma safe_nanos d e : safe d e (unix_nanos clock) (returns (fun _ => True)).
Proof. intros s [[Hs Ho] Hd]. split; [done|]. split; [by split|]. by apply evolves_quiet. Qed.

(** ** Alarms and monitors *)

(** An update that touches neither value, disable fields nor PACT. *)
Definition quiet (f : Rec -> Rec) : Prop :=
  forall r, skeleton (f r) = skeleton r /\ val (f r) = val r /\ disa (common (f r)) = disa (common r) /\
    disv (common (f r)) = disv (common r) /\ pact (common (f r)) = pact (common r).

Lemma quiet_keeps f id : quiet f -> keeps id f.
Proof.
  intros H r [_ (H1 & H2 & H3)]. destruct (H r) as (Es & Ev & Ea & Ed & _). split; [done|].
  unfold rec_ok. rewrite Ev, Ea, Ed. injection Es as _ Ek _. now rewrite Ek.
Qed.

Lemma quiet_compose f g : quiet f -> quiet g -> quiet (fun r => g (f r)).
Proof.
  intros Hf Hg r. destruct (Hf r) as (A1 & A2 & A3 & A4 & A5), (Hg (f r)) as (B1 & B2 & B3 & B4 & B5).
  split_and!; congruence.
Qed.

Lemma safe_quiet d e id f :
  (slot id < length K)%nat -> quiet f -> safe d e (modify id f) (returns (fun _ => True)).
Proof. intros Hl Hq. apply safe_modify; [done|now apply quiet_keeps|]. right. intros r. apply Hq. Qed.

Lemma set_sevr_quiet sev c : quiet (fun r => (set_sevr r sev c).1).
Proof. intros r. unfold set_sevr. now destruct (raise _ _) as [s []]. Qed.

Lemma udf_quiet : quiet (fun r => (udf_rec r).1).
Proof. intros r. unfold udf_rec. destruct (udf (common r)); [apply set_sevr_quiet|done]. Qed.

Lemma limits_quiet : quiet limits_rec.
Proof.
  intros r. unfold limits_rec. pose proof (udf_quiet r) as H. cbn beta in H.
  destruct (udf_rec r) as [r1 []]; cbn [fst] in H; [exact H|].
  destruct (limit_crossed _ _ _) as [[sev c]|]; [|exact H].
  pose proof (set_sevr_quiet sev c r1) as H1. cbn beta in H1. destruct H as (A1 & A2 & A3 & A4 & A5), H1 as (B1 & B2 & B3 & B4 & B5).
  split_and!; congruence.
Qed.

Lemma commit_quiet : quiet commit_rec.
Proof. now intros r. Qed.

Lemma posted_quiet : quiet posted_rec.
Proof. now intros r. Qed.

Lemma disabled_quiet sev : quiet (disabled_rec sev).
Proof.
  exact (quiet_compose (upd_common (fun c => set_alarms (sevr c) (stat c) SevNone CondNone c)) _
           (fun r => conj eq_refl (conj eq_refl (conj eq_refl (conj eq_refl eq_refl)))) (set_sevr_quiet sev CDisable)).
Qed.

Lemma link_sevr_quiet sev : quiet (link_sevr sev).
Proof. intros r. unfold link_sevr. destruct (bool_decide _); [done|]. apply set_sevr_quiet. Qed.

Lemma safe_reset d e id : (slot id < length K)%nat -> safe d e (reset_alarms id) (returns (fun _ => True)).
Proof.
  intros Hl. unfold reset_alarms. eapply safe_seq; [now apply safe_get|]. intros r _.
  eapply safe_seq; [now apply safe_quiet, commit_quiet|]. intros _ _. now apply safe_ret.
Qed.

Lemma safe_post_monitors d e id b : (slot id < length K)%nat -> safe d e (post_monitors id b) (returns (fun _ => True)).
Proof.
  intros Hl. unfold post_monitors. eapply safe_seq; [now apply safe_get|]. intros r [Hk Hr].
  destruct (_ && _); [now apply safe_ret|].
  eapply safe_seq; [now apply safe_quiet, posted_quiet|]. intros _ _. apply safe_post.
  eexists (kind r), _. split; [apply list_elem_of_lookup; exists (slot id); exact Hk|]. apply to_payload_typed, Hr.
Qed.

Lemma ends_ret d e : safe d e (mret tt) (ends (fun _ => True)).
Proof. eapply returns_ends; [now apply (safe_ret _ _ _ (fun _ => True))|done]. Qed.

(** ** Links, bodies and the pass, over a safe recursive call *)

Section Body.
Context (d : Z) (proc : RecordId -> M unit).
Hypothesis proc_safe : forall id, (slot id < length K)%nat -> safe d None (proc id) (ends (fun _ => True)).

Lemma proc_safe_if e (b : bool) id :
  (slot id < length K)%nat -> safe d e (if b then proc id else mret tt) (ends (fun _ => True)).
Proof. intros Hl. apply safe_none. destruct b; [auto|]. apply (returns_ends _ _ _ (fun _ => True)); [now apply safe_ret|done]. Qed.

Lemma slot_link id r l : at_slot id r -> l ∈ links_of r -> link_ok (length K) l.
Proof.
  intros [Hk _] Hin. pose proof (Forall_lookup_1 _ _ _ _ links_ok Hk) as H. cbn in H.
  rewrite Forall_forall in H. now apply H.
Qed.

Lemma safe_fetch e l k :
  link_ok (length K) l -> safe d e (fetch_link_value proc l k) (ends (fun p => typed k p.1)).
Proof.
  intros [Hr Hc]. destruct l as [v|[n|t] f pp ms|n]; cbn [fetch_link_value].
  - eapply returns_ends; [apply (safe_ret _ _ _ (fun p => typed k p.1))|done]. now apply coerce_typed.
  - done.
  - eapply safe_bind_err; [now apply proc_safe_if|]. intros _ _.
    eapply safe_seq; [unfold read_field; eapply safe_seq; [now apply safe_get|]|].
    + intros r Hr'. apply (safe_ret _ _ _ value_ok). apply field_value_ok, Hr'.
    + intros v Hv. eapply safe_seq; [now apply safe_get|]. intros r _.
      eapply returns_ends; [apply (safe_ret _ _ _ (fun p => typed k p.1))|done]. now apply coerce_typed.
  - eapply returns_ends; [apply (safe_ret _ _ _ (fun p => typed k p.1))|done]. apply default_typed.
Qed.

(** Storing a value of the record's kind. *)
Lemma store_keeps id r v g :
  at_slot id r -> typed (kind r) v -> quiet g -> keeps id (fun r' => g (upd_common (set_udf false) (set_val v r'))).
Proof.
  intros [Hk _] Hv Hg r' [Hk' (_ & Ha & Hd)]. rewrite Hk in Hk'. injection Hk' as En Ek El.
  destruct (Hg (upd_common (set_udf false) (set_val v r'))) as (E1 & E2 & E3 & E4 & _).
  split; [now rewrite E1|]. unfold rec_ok. rewrite E2, E3, E4. injection E1 as _ Ek' _. rewrite Ek'. cbn.
  split; [now rewrite <- Ek|done].
Qed.

Lemma safe_write_field e id f v :
  (slot id < length K)%nat -> value_ok v -> safe d e (write_field proc id f v) (ends (fun _ => True)).
Proof.
  intros Hl Hv. destruct f; cbn [write_field];
    try (eapply returns_ends; [apply safe_quiet; [exact Hl|now intros r]|done]);
    try (eapply returns_ends; [now apply (safe_ret _ _ _ (fun _ => True))|done]).
  - eapply safe_seq; [now apply safe_get|]. intros r Hr.
    eapply safe_seq; [apply safe_modify; [exact Hl| |now right]|].
    + apply (store_keeps id r _ (fun r => r)); [done|now apply coerce_typed|now intros ?].
    + intros _ _. eapply returns_ends; [now apply safe_post_monitors|done].
  - eapply returns_ends; [apply (safe_modify _ _ _ _ Hl); [|now right]|done].
    intros r [_ (H1 & H2 & H3)]. split; [done|]. split; [done|]. split; [now apply as_i32_range|done].
  - eapply returns_ends; [apply (safe_modify _ _ _ _ Hl); [|now right]|done].
    intros r [_ (H1 & H2 & H3)]. split; [done|]. split; [done|]. split; [done|now apply as_i32_range].
  - apply safe_none. now apply proc_safe.
Qed.

Lemma safe_forward e id : (slot id < length K)%nat -> safe d e (forward_link proc id) (ends (fun _ => True)).
Proof.
  intros Hl. unfold forward_link. eapply safe_seq; [now apply safe_get|]. intros r Hr.
  assert (link_ok (length K) (flnk (common r))) as [Hlink _] by (eapply slot_link; [exact Hr|]; cbn; set_solver).
  destruct (flnk (common r)) as [v|[n|t] f pp ms|n]; [apply ends_ret|done|apply safe_none; now apply proc_safe|apply ends_ret].
Qed.

Lemma safe_input e id : (slot id < length K)%nat -> safe d e (input_body proc id) (ends (fun _ => True)).
Proof.
  intros Hl. unfold input_body. eapply safe_seq; [now apply safe_get|]. intros r Hr.
  destruct (is_constant (inp r)).
  - eapply returns_ends; [apply safe_quiet; [done|now intros ?]|done].
  - eapply safe_bind_err; [apply safe_fetch; eapply slot_link; [exact Hr|]; cbn; set_solver|]. intros p Hp.
    eapply returns_ends; [apply safe_modify; [done| |]|done].
    + apply (store_keeps id r); [done|done|apply link_sevr_quiet].
    + right. intros r'. apply (link_sevr_quiet p.2 (upd_common (set_udf false) (set_val p.1 r'))).
Qed.

Lemma safe_closed_loop e id r :
  (slot id < length K)%nat -> at_slot id r ->
  safe d e (match omsl r with
            | ClosedLoop =>
              if is_constant (dol r) then mret tt
              else p ← fetch_link_value proc (dol r) (kind r); modify id (fun r => link_sevr p.2 (set_val p.1 r))
            | Supervisory => mret tt
            end) (ends (fun _ => True)).
Proof.
  intros Hl Hr. destruct (omsl r); [apply ends_ret|]. destruct (is_constant (dol r)); [apply ends_ret|].
  eapply safe_bind_err; [apply safe_fetch; eapply slot_link; [exact Hr|]; cbn; set_solver|]. intros p Hp.
  eapply returns_ends; [apply safe_modify; [done| |]|done].
  - intros r' [Hk' (_ & Ha & Hd)]. destruct Hr as [Hk _]. rewrite Hk in Hk'. injection Hk' as En Ek El.
    destruct (link_sevr_quiet p.2 (set_val p.1 r')) as (E1 & E2 & E3 & E4 & _).
    split; [now rewrite E1|]. unfold rec_ok. rewrite E2, E3, E4. injection E1 as _ Ek' _. rewrite Ek'. cbn.
    split; [now rewrite <- Ek|done].
  - right. intros r'. apply (link_sevr_quiet p.2 (set_val p.1 r')).
Qed.

Lemma safe_output e id : (slot id < length K)%nat -> safe d e (output_body proc id) (ends (fun _ => True)).
Proof.
  intros Hl. unfold output_body. eapply safe_seq; [now apply safe_get|]. intros r Hr.
  eapply safe_bind_err; [now apply safe_closed_loop|]. intros _ _.
  eapply safe_seq; [apply safe_quiet; [done|now intros ?]|]. intros _ _.
  eapply safe_seq; [now apply safe_get|]. clear r Hr. intros r Hr.
  assert (link_ok (length K) (out r)) as [Hlink _] by (eapply slot_link; [exact Hr|]; cbn; set_solver).
  destruct (out r) as [v|[n|t] f pp ms|n]; [apply ends_ret|done| |apply ends_ret].
  eapply safe_bind_err; [apply safe_write_field; [done|]|intros _ _; now apply proc_safe_if].
  apply (typed_value_ok (kind r)), Hr.
Qed.

(** ** The pass *)

Lemma safe_hook e id b :
  (slot id < length K)%nat ->
  safe d e (async_hook registry id b) (returns (fun go => synchronous id -> go = true)).
Proof.
  intros Hl s Hi. unfold async_hook. destruct (registry id) as [start|] eqn:Er; [|by split; [|split]].
  destruct (inv_lookup d s id Hi Hl) as (r & Hr & Hat). rewrite Hr.
  destruct (start (name r) b (ctx s)) as [[o|] c] eqn:Es.
  - pose proof (dv_balanced id start _ _ _ _ _ Er Es) as Hb. destruct Hi as [[Hs Ho] Hd].
    assert (Hsync : synchronous id -> o = Complete) by (intros Hsy; specialize (Hsy start (name r) b (ctx s) Er); rewrite Es in Hsy; cbn in Hsy; congruence).
    assert (Hev : evolves e s (mkSt (members s) c)).
    { split; [done| |]; cbn; intros x Hx; [|by apply (dv_defers id start _ _ _ _ _ Er Es)].
      destruct (dv_posts id start _ _ _ _ _ Er Es x Hx); auto. }
    destruct o; (split; [|split; [split; [done|cbn; congruence]|done]]); cbn; [done|]. intros Hsy. specialize (Hsync Hsy). done.
  - split; [exists id, start, (name r), b, (ctx s); by rewrite Es|]. destruct Hi as [[Hs Ho] _]. split; cbn.
    + rewrite list_fmap_insert. cbn. rewrite Hs. apply list_insert_id. apply Hat.
    + apply Forall_insert; [done|]. apply Hat.
Qed.

Lemma pact_keeps id b : keeps id (upd_common (set_pact b)).
Proof. now intros r [_ H]. Qed.

(** [m] ends, then PACT is cleared at [id]. *)
Lemma pact_cleared s id :
  inv d s -> (slot id < length K)%nat ->
  exists s', modify id (upd_common (set_pact false)) s = (Ok tt, s') /\ inv d s' /\ evolves (Some (slot id)) s s' /\
    forall r, members s' !! slot id = Some r -> pact (common r) = false.
Proof.
  intros Hi Hl. pose proof (safe_modify d (Some (slot id)) id _ Hl (pact_keeps id false) ltac:(now left) s Hi) as H.
  destruct (inv_lookup d s id Hi Hl) as (r0 & Hr0 & _). unfold modify, good in *. rewrite Hr0 in *. cbn in *. destruct H as (_ & H2 & H3).
  eexists. split; [reflexivity|]. split; [done|]. split; [done|]. cbn. intros r.
  rewrite list_lookup_insert_eq by (eapply lookup_lt_Some; eauto). now intros [= <-].
Qed.

Lemma safe_clear_after id m :
  (slot id < length K)%nat -> safe d (Some (slot id)) m (ends (fun _ => True)) ->
  safe d (Some (slot id)) (clear_after id m) (clears (slot id)).
Proof.
  intros Hl Hm s Hi. specialize (Hm s Hi). unfold clear_after, good in Hm |- *.
  destruct (m s) as [[a|x| |] s1]; cbn in Hm |- *; [| |done|by destruct Hm]; destruct Hm as (H1 & Hi1 & He1);
    destruct (pact_cleared s1 id Hi1 Hl) as (s2 & -> & Hi2 & He2 & Hp); cbn;
    (split; [split; [exact H1|exact Hp]|]; split; [done|]; etransitivity; eauto).
Qed.

Lemma safe_or_give_up id m k :
  (slot id < length K)%nat -> safe d (Some (slot id)) m (ends (fun _ => True)) ->
  safe d (Some (slot id)) k (clears (slot id)) -> safe d (Some (slot id)) (or_give_up id m k) (clears (slot id)).
Proof.
  intros Hl Hm Hk s Hi. specialize (Hm s Hi). unfold or_give_up, good in Hm |- *.
  destruct (m s) as [[a|x| |] s1]; cbn in Hm |- *; [| |done|by destruct Hm]; destruct Hm as (H1 & Hi1 & He1).
  - exact (good_after _ _ s s1 _ _ He1 (Hk s1 Hi1)).
  - destruct (pact_cleared s1 id Hi1 Hl) as (s2 & -> & Hi2 & He2 & Hp). cbn.
    split; [split; [exact H1|exact Hp]|]. split; [done|]. etransitivity; eauto.
Qed.

Lemma safe_finish id k :
  (slot id < length K)%nat -> safe d (Some (slot id)) (finish_pass clock proc id k) (clears (slot id)).
Proof.
  intros Hl. unfold finish_pass. eapply safe_seq; [apply safe_nanos|]. intros t _.
  eapply safe_seq; [apply safe_quiet; [done|now intros r]|]. intros _ _.
  eapply safe_seq; [destruct (is_analogue k); apply safe_quiet; [done|apply limits_quiet|done|apply udf_quiet]|]. intros _ _.
  eapply safe_seq; [now apply safe_reset|]. intros b _.
  eapply safe_seq; [now apply safe_post_monitors|]. intros _ _.
  apply safe_clear_after; [done|]. now apply safe_forward.
Qed.

(** A pass over [id]: it ends, PACT elsewhere is as before, and on a record
    without device support PACT is clear. *)
Lemma safe_record_body id :
  (slot id < length K)%nat ->
  safe d (Some (slot id)) (record_body clock registry proc id)
    (fun r ms => ends (fun _ => True) r ms /\ (synchronous id -> clears (slot id) r ms)).
Proof.
  intros Hl. unfold record_body. eapply safe_seq; [now apply safe_get|]. intros r _.
  eapply safe_seq; [apply safe_modify; [done|apply pact_keeps|now left]|]. intros _ _.
  eapply safe_seq; [now apply safe_hook|]. intros [] Hgo; cbn [negb].
  - eapply safe_seq; [now apply safe_get|]. clear r. intros r _.
    eapply safe_weaken; [apply safe_or_give_up; [done|..]|].
    + destruct (is_output (kind r)); [now apply safe_output|now apply safe_input].
    + now apply safe_finish.
    + intros res ms H. split; [apply H|done].
  - intros s Hi. cbn. split; [split; [done|]|split; [done|reflexivity]].
    intros Hu. now specialize (Hgo Hu).
Qed.

Lemma safe_fetch_disa e id : (slot id < length K)%nat -> safe d e (fetch_disa proc id) (ends (fun _ => True)).
Proof.
  intros Hl. unfold fetch_disa. eapply safe_seq; [now apply safe_get|]. intros r Hr.
  destruct (is_constant (sdis (common r))); [apply ends_ret|].
  eapply safe_bind_err; [apply safe_fetch; eapply slot_link; [exact Hr|]; cbn; set_solver|]. intros p Hp.
  eapply returns_ends; [apply safe_modify; [done| |now right]|done].
  intros r' [_ (H1 & H2 & H3)]. split; [done|]. split; [done|]. split; [|done].
  apply as_i32_range. now apply (typed_value_ok LongIn).
Qed.

Lemma safe_disabled e id tp n sev :
  (slot id < length K)%nat ->
  safe d e ((if tp : bool then trace_line n else mret tt) ;; modify id (disabled_rec sev) ;;
            changed ← reset_alarms id; post_monitors id changed) (ends (fun _ => True)).
Proof.
  intros Hl. eapply safe_seq; [apply safe_trace_if|]. intros _ _.
  eapply safe_seq; [now apply safe_quiet, disabled_quiet|]. intros _ _.
  eapply safe_seq; [now apply safe_reset|]. intros b _. eapply returns_ends; [now apply safe_post_monitors|done].
Qed.

Lemma safe_then_trace e id tp m P :
  (slot id < length K)%nat -> safe d e m P -> (forall r ms, P r ms -> ends (fun _ => True) r ms) ->
  safe d e (then_trace id tp m) P.
Proof.
  intros Hl Hm HP s Hi. specialize (Hm s Hi). unfold then_trace, good in Hm |- *. destruct (m s) as [r s1]. cbn [fst snd] in Hm.
  destruct r as [a|y| |]; [| |done|destruct Hm as (H1 & _); by destruct (HP _ _ H1)]; (destruct tp; [|done]); destruct Hm as (H1 & Hi1 & He1);
    destruct (inv_lookup d s1 id Hi1 Hl) as (x & Hx & _); rewrite Hx;
    destruct (safe_trace d e (name x ++ str ": process complete") s1 Hi1) as (_ & Hi2 & He2); cbn [fst snd] in *;
    (split; [exact H1|]; split; [done|]; etransitivity; eauto).
Qed.

(** PACT is clear on entry, and outside the record nothing changed: on return it
    is clear again. *)
Lemma pact_restored id r s s1 s2 :
  (slot id < length K)%nat -> inv d s2 -> evolves (Some (slot id)) s1 s2 -> evolves None s s1 -> pacts s !! slot id = Some false ->
  (synchronous id -> clears (slot id) r (members s2)) -> evolves None s1 s2.
Proof.
  intros Hl Hi2 [Hpa Hev Hdf] He1 Hp Hc. split; [|done|done]. intros i Hu _.
  destruct (decide (i = slot id)) as [->|Hne]; [|apply Hpa; [done|]; intros [= ?]; now apply Hne].
  rewrite (e_pact _ _ _ He1 _ Hu ltac:(done)), Hp. unfold pacts. destruct (inv_lookup d s2 id Hi2 Hl) as (r2 & Hr2 & _).
  rewrite list_lookup_fmap, Hr2. cbn. f_equal. now apply (Hc (unbound_synchronous id Hu)).
Qed.

Lemma safe_inner id tp s :
  (slot id < length K)%nat -> inv d s -> pacts s !! slot id = Some false ->
  good d None s (process_inner clock registry proc id tp s) (ends (fun _ => True)).
Proof.
  intros Hl Hi Hp.
  assert (safe d None (x ← get id; (if tp then trace_line (name x ++ str ": process entered") else mret tt) ;; fetch_disa proc id)
            (ends (fun _ => True))) as Hpre.
  { eapply safe_seq; [now apply safe_get|]. intros r _. eapply safe_seq; [apply safe_trace_if|]. intros _ _.
    now apply safe_fetch_disa. }
  specialize (Hpre s Hi).
  set (pre := x ← get id; (if tp then trace_line (name x ++ str ": process entered") else mret tt) ;; fetch_disa proc id) in *.
  assert (process_inner clock registry proc id tp s
    = (_ ← pre; r ← get id;
       if disa (common r) =? disv (common r) then
         (if tp then trace_line (name r ++ str ": disabled (DISA == DISV)") else mret tt) ;;
         modify id (disabled_rec (diss (common r))) ;;
         (alarm_changed ← reset_alarms id; post_monitors id alarm_changed)
       else then_trace id tp (record_body clock registry proc id)) s) as ->.
  { unfold process_inner, pre, mbind, bind_M. destruct (get id s) as [[x| | |] s0]; try done. now destruct tp. }
  unfold mbind at 1, bind_M at 1. unfold good in Hpre. destruct (pre s) as [[a|x| |] s1]; cbn [fst snd ends] in Hpre; [|done..|by destruct Hpre].
  destruct Hpre as (_ & Hi1 & He1). apply (good_after _ _ s s1); [done|].
  destruct (inv_lookup d s1 id Hi1 Hl) as (r & Hr & Hat).
  unfold mbind at 1, bind_M at 1, get at 1. rewrite Hr.
  destruct (disa (common r) =? disv (common r)); [by apply safe_disabled|].
  pose proof (safe_then_trace (Some (slot id)) id tp _ _ Hl (safe_record_body id Hl) (fun r ms H => proj1 H) s1 Hi1) as H.
  unfold good in *. destruct (then_trace id tp _ s1) as [[x|x| |] s2]; cbn [fst snd] in *; try done;
    destruct H as ((H2 & H2') & Hi2 & He2); (split; [done|]; split; [done|]); by apply (pact_restored id _ s s1 s2 Hl Hi2 He2 He1 Hp H2').
Qed.

End Body.

(** ** The engine *)

Lemma process_fuel_eq fuel id s r :
  members s !! slot id = Some r ->
  process_fuel clock registry fuel id s
  = if pact (common r) then
      (if tpro (common r) then trace_line (name r ++ str ": PACT already set, returning") else mret tt) s
    else if MAX_DEPTH <=? depth (ctx s) then (Err (TooDeep MAX_DEPTH (name r)), s)
    else then_pop (match fuel with
                   | O => fun s => (OutOfFuel, s)
                   | S fuel => process_inner clock registry (process_fuel clock registry fuel) id (tpro (common r))
                   end) (mkSt (members s) (with_depth (depth (ctx s) + 1) (ctx s))).
Proof.
  intros Hr. destruct fuel; cbn [process_fuel]; unfold mbind, bind_M, get, push_depth; rewrite Hr;
    destruct (pact (common r)); try done; now destruct (MAX_DEPTH <=? depth (ctx s)).
Qed.

(** The depth is restored after an inner pass that ended. *)
Lemma pop_safe d e (m : M unit) s P :
  0 <= d -> (forall r ms, P r ms -> ends (fun _ => True) r ms) ->
  let s1 := mkSt (members s) (with_depth (d + 1) (ctx s)) in
  good (d + 1) e s1 (m s1) P -> good d e s (then_pop m s1) P.
Proof.
  intros Hd HP s1 Hm. unfold then_pop, good in *. destruct (m s1) as [res s2]. cbn [fst snd] in Hm.
  destruct res as [a|x| |]; [| |done|destruct Hm as (H1 & _); by destruct (HP _ _ H1)]; destruct Hm as (H1 & [Hs Hd2] & [Hp He Hdf]);
    unfold pop_depth; rewrite Hd2; (destruct (Z.ltb_spec 0 (d + 1)); [|lia]); cbn;
    (split; [exact H1|]; split; [split; [by destruct Hs|cbn; unfold saturating_sub; lia]|by split]).
Qed.

Lemma process_fuel_safe fuel d id :
  0 <= d -> MAX_DEPTH <= d + Z.of_nat fuel -> (slot id < length K)%nat ->
  safe d None (process_fuel clock registry fuel id) (ends (fun _ => True)).
Proof.
  revert d id. induction fuel as [|fuel IH]; intros d id Hd Hf Hl s Hi;
    destruct (inv_lookup d s id Hi Hl) as (r & Hr & _); rewrite (process_fuel_eq _ _ _ _ Hr), (i_depth _ _ Hi);
    (destruct (pact (common r)) eqn:Ep; [apply (returns_ends d None _ (fun _ => True)); [apply safe_trace_if|done|exact Hi]|]);
    (destruct (Z.leb_spec MAX_DEPTH d); [by split; [|split]|]); [lia|].
  apply (pop_safe d None); [done|done|]. apply safe_inner; [intros i; apply IH; lia|done|destruct Hi as [[] ?]; by split|].
  unfold pacts. cbn. now rewrite list_lookup_fmap, Hr, <- Ep.
Qed.

Lemma process_safe_spec id : (slot id < length K)%nat -> safe 0 None (process clock registry id) (ends (fun _ => True)).
Proof. intros Hl. apply process_fuel_safe; [lia|unfold MAX_DEPTH; lia|done]. Qed.

Lemma complete_async_safe id :
  (slot id < length K)%nat ->
  safe 0 (Some (slot id)) (complete_async clock registry id)
    (fun r ms => ends (fun _ => True) r ms /\ (synchronous id -> clears (slot id) r ms)).
Proof.
  intros Hl s Hi. destruct (inv_lookup 0 s id Hi Hl) as (r & Hr & _).
  unfold complete_async, mbind, bind_M, get, push_depth. rewrite Hr.
  destruct (pact (common r)) eqn:Ep; cbn [negb].
  2:{ split; [split; [done|]|by split]. intros _. split; [done|]. intros r' Hr'. cbn in Hr'. congruence. }
  cbn beta iota. rewrite (i_depth _ _ Hi). change (MAX_DEPTH <=? 0) with false. cbn beta iota.
  apply (pop_safe 0 (Some (slot id))); [lia|by intros r' ms [? _]|].
  apply safe_record_body; [|done|destruct Hi as [[] ?]; by split]. intros i. apply process_fuel_safe; unfold MAX_DEPTH; lia.
Qed.

End Spec.

(** ** Lock sets and their device support *)

(** A lock set as [RecordDb::build] makes it: every link resolved to a slot of
    the set, values in the representation of their kinds. *)
Record set_ok (rs : list Rec) : Prop := {
  so_links : Forall (fun r => Forall (link_ok (length rs)) (links_of r)) rs;
  so_recs : Forall rec_ok rs }.

Lemma set_ok_links rs : set_ok rs -> Forall (fun k => Forall (link_ok (length (skeleton <$> rs))) k.2) (skeleton <$> rs).
Proof. intros [Hl _]. rewrite length_fmap. apply Forall_fmap. exact Hl. Qed.

Lemma skeleton_set_ok rs rs' : set_ok rs -> skeleton <$> rs' = skeleton <$> rs -> Forall rec_ok rs' -> set_ok rs'.
Proof.
  intros Hok E Ho. split; [|done]. pose proof (set_ok_links rs Hok) as H. rewrite <- E, length_fmap in H.
  rewrite Forall_fmap in H. exact H.
Qed.

Lemma shaped_set_ok {D} rs (s : @St D) : set_ok rs -> shaped (skeleton <$> rs) s -> set_ok (members s).
Proof. intros Hok [Hs Ho]. now apply (skeleton_set_ok rs). Qed.

Lemma set_ok_inv {D} (s : @St D) : set_ok (members s) -> inv (skeleton <$> members s) (depth (ctx s)) s.
Proof. intros [_ Ho]. by split. Qed.

(** The entry points of a pass: a scan or a put that processes, a completion of
    device support, a write to a field. *)
Inductive Entry := EProcess (id : RecordId) | EComplete (id : RecordId) | EWrite (id : RecordId) (f : Field) (v : Value).

Definition entry_ok (n : nat) (e : Entry) : Prop :=
  match e with
  | EProcess id | EComplete id => (slot id < n)%nat
  | EWrite id _ v => (slot id < n)%nat /\ value_ok v
  end.

Section Engine.
Context {D : Type} (clock : nat -> Z) (registry : Registry D) (E : Event -> Prop) (F : RecordId -> Prop).
Context `{!Balanced registry} `{!Posts registry E F}.

Definition enter (e : Entry) : @M D unit :=
  match e with
  | EProcess id => process clock registry id
  | EComplete id => complete_async clock registry id
  | EWrite id f v => write_field (process clock registry) id f v
  end.

(** Passes one after the other, each with a context of its own: the records, and
    the monitors that are left in the contexts of the passes that did not
    panic. *)
Fixpoint run (es : list Entry) (rs : list Rec) (now : nat) (dev : D) : list Rec * list Event :=
  match es with
  | [] => (rs, [])
  | e :: es =>
    let '(r, s) := enter e (mkSt rs (mkCtx [] [] [] 0 now dev)) in
    let '(rs, evs) := run es (members s) (ticks (ctx s)) (device (ctx s)) in
    (rs, match r with Panic => evs | _ => events (ctx s) ++ evs end)
  end.

Lemma enter_safe e s :
  set_ok (members s) -> entry_ok (length (members s)) e -> depth (ctx s) = 0 ->
  exists x, good registry E F (skeleton <$> members s) 0 x s (enter e s) (ends (fun _ => True)).
Proof.
  intros Hok He Hd. pose proof (set_ok_links _ Hok) as Hlinks. pose proof (set_ok_inv s Hok) as Hi. rewrite Hd in Hi.
  rewrite <- (length_fmap skeleton) in He.
  destruct e as [id|id|id f v]; cbn [enter entry_ok] in *.
  - exists None. by apply process_safe_spec.
  - exists (Some (slot id)). pose proof (complete_async_safe clock registry E F _ Hlinks id He s Hi) as H.
    eapply good_weaken; [|exact H]. by intros r ms [? _].
  - destruct He as [Hl Hv]. exists None. apply safe_write_field; [|done..]. intros id'. by apply process_safe_spec.
Qed.
End Engine.

(** ** Claims *)

(** C11: a processing pass over a record of a lock set in order is total and leaves
    the set in order.  Whatever the
    links say, cycles included, and whatever device support is bound, as long as
    it pairs [push_depth] with [pop_depth], [process] returns or reports that the
    depth cap is reached, or it panics, and it panics only where a call of device
    support panics; it never recurses beyond the cap.  In every case, the panic
    included, the records keep their names, kinds and links and hold values of
    their kinds.  Unless it panics, the depth counter is where it was and every
    record without device support has the PACT flag it had: no such record is left
    braked, not even by a pass that fails. *)
Theorem process_safe {D} clock (registry : Registry D) id s :
  Balanced registry -> set_ok (members s) -> (slot id < length (members s))%nat -> depth (ctx s) = 0 ->
  let '(r, s') := process clock registry id s in
  set_ok (members s') /\ skeleton <$> members s' = skeleton <$> members s /\
  match r with
  | Panic => device_panics registry
  | OutOfFuel => False
  | r => (r = Ok tt \/ exists rec, r = Err (TooDeep MAX_DEPTH rec)) /\ depth (ctx s') = 0 /\
         forall i, unbound registry i -> pacts s' !! i = pacts s !! i
  end.
Proof.
  intros Hb Hok Hl Hd. pose proof (set_ok_inv s Hok) as Hi. rewrite Hd in Hi.
  pose proof (process_safe_spec clock registry (fun _ => True) (fun _ => True) _ (set_ok_links _ Hok) id ltac:(now rewrite length_fmap) s Hi) as H.
  pose proof (good_shaped _ _ _ _ _ _ _ _ _ H) as Hs. pose proof (shaped_set_ok _ _ Hok Hs) as Hok'. destruct Hs as [Hs _]. unfold good in H.
  destruct (process clock registry id s) as [[[]|[x rec]| |] s']; cbn [fst snd ends too_deep] in *; (split; [done|]; split; [done|]).
  - destruct H as (_ & [_ Hd'] & [Hp _ _]). split; [by left|]. split; [done|]. intros i Hu. by apply Hp.
  - destruct H as (-> & [_ Hd'] & [Hp _ _]). split; [right; by eexists|]. split; [done|]. intros i Hu. by apply Hp.
  - apply H.
  - apply H.
Qed.

(** C35: values keep their types.  After any sequence of passes, completions and
    field writes, whatever they return and even when device support panics in
    them, every record of a lock set holds a value in the representation of its
    kind and the names, kinds and links are as they were; and every monitor queued
    in the passes that did not panic is for a record of the set, with the scalar
    type of that record's kind, unless device support posted it itself ([E] says
    what it posts).  Device support pairs [push_depth] with [pop_depth] and is
    free otherwise. *)
Theorem values_keep_types {D} clock (registry : Registry D) E F es rs now dev :
  Balanced registry -> Posts registry E F -> set_ok rs -> Forall (entry_ok (length rs)) es ->
  let '(rs', evs) := run clock registry es rs now dev in
  set_ok rs' /\ skeleton <$> rs' = skeleton <$> rs /\ Forall (fun ev => event_ok (skeleton <$> rs) ev \/ E ev) evs.
Proof.
  intros Hb Hp Hok Hes. revert rs now dev Hok Hes. induction es as [|e es IH]; intros rs now dev Hok Hes; [by split_and!|].
  apply Forall_cons in Hes as [He Hes]. cbn [run]. set (s := mkSt rs _).
  destruct (enter_safe clock registry E F e s Hok He eq_refl) as (x & Hg).
  pose proof (good_shaped _ _ _ _ _ _ _ _ _ Hg) as Hsh. pose proof (shaped_set_ok rs _ Hok Hsh) as Hok'. destruct Hsh as [Hs _]. cbn [members s] in Hs.
  assert (Hev : (enter clock registry e s).1 <> Panic -> Forall (fun ev => event_ok (skeleton <$> rs) ev \/ E ev) (events (ctx (enter clock registry e s).2))).
  { intros Hnp. unfold good in Hg. apply Forall_forall. intros ev Hin.
    destruct (enter clock registry e s) as [[a|y| |] s1]; [| |done|]; cbn [fst snd] in *; destruct Hg as (_ & _ & [_ He' _]);
      (destruct (He' ev Hin) as [H|H]; [by apply not_elem_of_nil in H|done]). }
  destruct (enter clock registry e s) as [r s1]. cbn [fst snd] in *.
  assert (length (members s1) = length rs) as Hlen by (apply (f_equal length) in Hs; now rewrite !length_fmap in Hs).
  specialize (IH (members s1) (ticks (ctx s1)) (device (ctx s1)) Hok' ltac:(by rewrite Hlen)).
  destruct (run clock registry es (members s1) _ _) as [rs' evs]. destruct IH as (H1 & H2 & H3). rewrite Hs in H2, H3. split_and!; [done|done|].
  destruct r; try apply Forall_app; try split; try done; by apply Hev.
Qed.

(** A completion is taken once.  When device support has finished its
    operation, [complete_async] runs the second half of the pass and clears PACT,
    unless other device support panics in it, and a second completion changes
    nothing. *)
Theorem completion_once {D} clock (registry : Registry D) id s :
  Balanced registry -> synchronous registry id ->
  set_ok (members s) -> (slot id < length (members s))%nat -> depth (ctx s) = 0 -> (complete_async clock registry id s).1 <> Panic ->
  let s' := (complete_async clock registry id s).2 in
  pacts s' !! slot id = Some false /\ complete_async clock registry id s' = (Ok tt, s').
Proof.
  intros Hb Hsync Hok Hl Hd Hnp. cbn. set (K := skeleton <$> members s).
  assert (slot id < length K)%nat as HlK by (unfold K; now rewrite length_fmap). pose proof (set_ok_inv s Hok) as Hi0. rewrite Hd in Hi0. fold K in Hi0.
  pose proof (complete_async_safe clock registry (fun _ => True) (fun _ => True) K (set_ok_links _ Hok) id HlK s Hi0) as H.
  assert (Hc : inv K 0 (complete_async clock registry id s).2 /\ forall r, members (complete_async clock registry id s).2 !! slot id = Some r -> pact (common r) = false).
  { unfold good in H. destruct (complete_async clock registry id s) as [[a|x| |] s']; [| |done|]; cbn [fst snd] in *; destruct H as ((_ & H1) & Hi & _);
      destruct (H1 Hsync) as [_ Hclear]; done. }
  destruct Hc as [Hi Hclear]. destruct (complete_async clock registry id s) as [r s']. cbn [fst snd] in *.
  destruct (inv_lookup K 0 s' id Hi HlK) as (x & Hx & _). pose proof (Hclear x Hx) as Hpx.
  split; [unfold pacts; now rewrite list_lookup_fmap, Hx; cbn; rewrite Hpx|].
  unfold complete_async, mbind, bind_M, get. now rewrite Hx, Hpx.
Qed.

(** SDIS is read before PACT is raised, so a cycle through it is not braked: a
    record whose SDIS processes the record itself never processes, every pass
    fails at the depth cap and changes nothing. *)
Lemma sdis_self_fuel {D} clock (registry : Registry D) fuel id s r f ms target :
  members s !! slot id = Some r -> pact (common r) = false -> tpro (common r) = false ->
  sdis (common r) = Db (Id target) f true ms -> slot target = slot id ->
  0 <= depth (ctx s) -> MAX_DEPTH <= depth (ctx s) + Z.of_nat fuel ->
  process_fuel clock registry fuel id s = (Err (TooDeep MAX_DEPTH (name r)), s).
Proof.
  revert id target s. induction fuel as [|fuel IH]; intros id target s Hr Hp Ht Hs Hi Hd Hf;
    rewrite (process_fuel_eq _ _ _ _ _ _ Hr), Hp; (destruct (Z.leb_spec MAX_DEPTH (depth (ctx s))); [done|]); [lia|].
  set (s1 := mkSt (members s) (with_depth (depth (ctx s) + 1) (ctx s))).
  assert (process_inner clock registry (process_fuel clock registry fuel) id (tpro (common r)) s1
          = (Err (TooDeep MAX_DEPTH (name r)), s1)) as E.
  { assert (get id s1 = (Ok r, s1)) as Hg by (unfold get; cbn; now rewrite Hr).
    unfold process_inner, fetch_disa, mbind, bind_M. rewrite Hg, Ht. cbn [mret ret_M]. unfold mret, ret_M.
    rewrite Hg, Hs. cbn [is_constant fetch_link_value]. unfold mbind, bind_M.
    rewrite (IH target target s1) by (cbn; rewrite ?Hi; done || lia). done. }
  unfold then_pop. rewrite E. unfold pop_depth. cbn [s1 ctx depth with_depth].
  destruct (Z.ltb_spec 0 (depth (ctx s) + 1)); [|lia]. f_equal. unfold s1. cbn. destruct s as [ms0 c]. cbn. f_equal.
  destruct c. unfold with_depth. cbn. f_equal. unfold saturating_sub. cbn in *. lia.
Qed.

(** A cycle through SDIS is an error at run time: a record whose SDIS is a PP
    link back to itself fails every pass at the depth cap, and the pass changes
    nothing. *)
Theorem sdis_cycle_fails {D} clock (registry : Registry D) id s r f ms target :
  members s !! slot id = Some r -> pact (common r) = false -> tpro (common r) = false ->
  sdis (common r) = Db (Id target) f true ms -> slot target = slot id -> depth (ctx s) = 0 ->
  process clock registry id s = (Err (TooDeep MAX_DEPTH (name r)), s).
Proof.
  intros Hr Hp Ht Hs Hi Hd. apply (sdis_self_fuel _ _ _ _ _ _ f ms target); auto; rewrite Hd; [lia|unfold MAX_DEPTH; lia].
Qed.

(** ** A lock set *)

Definition no_link : Link := Constant (Long 0).
Definition sample_common (s f : Link) : Common :=
  mkCommon [] (str "Passive") [] false 0 false 0 1 SevNone s f 0 false true SevNone CondNone SevNone CondNone.
Definition no_limits : Limits := mkLimits 0 0 0 0 SevNone SevNone SevNone SevNone 0 0 0 false.
Definition sample_rec (n : bytes) (k : Kind) (v : Value) (i s f : Link) : Rec :=
  mkRec n k (sample_common s f) no_limits [] v (default_for k) (default_for k) SevNone CondNone i no_link no_link
    Supervisory 0.

Definition to (i : nat) (pp : bool) : Link := Db (Id (mkId 0 i)) FVal pp true.

(** Two records that process each other through INP and FLNK, and a third that
    disables itself. *)
Definition sample_set : list Rec :=
  [sample_rec (str "A") Ai (Double 0) (to 1 true) no_link (to 1 true);
   sample_rec (str "B") LongIn (Long 7) no_link no_link (to 0 true);
   sample_rec (str "C") Bi (Enum 1) no_link (to 2 true) no_link].

Definition sample_state : @St unit := mkSt sample_set (mkCtx [] [] [] 0 0 tt).
Definition no_registry : Registry unit := fun _ => None.
Definition sample_clock (i : nat) : Z := 1000000000 * (1 + Z.of_nat i).

Lemma sample_set_ok : set_ok sample_set.
Proof.
  split; repeat constructor; cbn; try done; try lia; unfold in_i32, F64.i32_min, F64.i32_max; lia.
Qed.

(** The cycle of A and B ends after one round: B is processed twice, A once, and
    A holds B's value as a double. *)
Example cycle_processed :
  let '(r, s) := process sample_clock no_registry (mkId 0 0) sample_state in
  r = Ok tt /\ val <$> members s = [Double (Float.of_Z 7); Long 7; Enum 1] /\ map fst (events (ctx s)) = [str "B"; str "A"].
Proof. vm_compute. done. Qed.

(** Device support: B's posts a monitor of its own and completes, C's panics. *)
Definition own_event : Event := (str "B", to_payload (sample_rec (str "B") LongIn (Long 9) no_link no_link no_link)).
Definition drivers : Registry unit := fun id =>
  match slot id with
  | 1%nat => Some (fun _ _ c => (Some Complete, mkCtx (events c ++ [own_event]) (deferred c) (trace c) (depth c) (S (ticks c)) tt))
  | 2%nat => Some (fun _ _ c => (None, c))
  | _ => None
  end.

#[local] Instance drivers_balanced : Balanced drivers.
Proof. intros [k [|[|[|i]]]] start n b c o c'; try done; cbn; intros [= <-]; by intros [= <- <-]. Qed.

#[local] Instance drivers_post : Posts drivers (fun ev => ev = own_event) (fun _ => False).
Proof.
  split; intros [k [|[|[|i]]]] start n b c o c'; try done; cbn; intros [= <-] [= <- <-]; cbn; [|auto].
  intros ev [?|Hev]%elem_of_app; [auto|]. apply list_elem_of_singleton in Hev. auto.
Qed.

(** With this device support the cycle of A and B queues B's own monitor as well,
    and a pass over C, whose SDIS is taken away, panics. *)
Definition braked_set : list Rec :=
  [sample_rec (str "A") Ai (Double 0) no_link no_link (to 2 true); sample_rec (str "B") LongIn (Long 7) no_link no_link (to 0 true);
   sample_rec (str "C") Bi (Enum 1) no_link no_link no_link].

Example drivers_run :
  map fst (events (ctx (process sample_clock drivers (mkId 0 0) sample_state).2)) = [str "B"; str "B"; str "A"; str "B"] /\
  (process sample_clock drivers (mkId 0 2) (mkSt braked_set (mkCtx [] [] [] 0 0 tt))).1 = Panic.
Proof. vm_compute. done. Qed.

(** The guard around [start] clears PACT on its own record only: when C's device
    support panics in a pass that A's forward link started, A stays braked. *)
Theorem panic_strands_callers :
  let s' := (process sample_clock drivers (mkId 0 0) (mkSt braked_set (mkCtx [] [] [] 0 0 tt))).2 in
  pacts s' = [true; false; false] /\
  process sample_clock drivers (mkId 0 0) (mkSt (members s') (mkCtx [] [] [] 0 0 tt)) = (Ok tt, mkSt (members s') (mkCtx [] [] [] 0 0 tt)).
Proof. vm_compute. done. Qed.

Lemma process_safe_witness :
  let '(r, s') := process sample_clock drivers (mkId 0 0) sample_state in
  set_ok (members s') /\ match r with Panic => device_panics drivers | OutOfFuel => False | _ => depth (ctx s') = 0 end.
Proof.
  pose proof (process_safe sample_clock drivers (mkId 0 0) sample_state drivers_balanced sample_set_ok ltac:(cbn; lia) eq_refl) as H.
  destruct (process sample_clock drivers (mkId 0 0) sample_state) as [r s']. destruct H as (H1 & _ & H2). split; [exact H1|].
  destruct r; try apply H2; exact H2.
Defined.

Lemma values_keep_types_witness :
  let '(rs, evs) := run sample_clock drivers
    [EWrite (mkId 0 1) FVal (Double (Float.of_Z 12)); EProcess (mkId 0 0); EProcess (mkId 0 2); EComplete (mkId 0 1)] sample_set 0 tt in
  set_ok rs /\ Forall (fun ev => event_ok (skeleton <$> sample_set) ev \/ ev = own_event) evs.
Proof.
  pose proof (values_keep_types sample_clock drivers _ _ 
    [EWrite (mkId 0 1) FVal (Double (Float.of_Z 12)); EProcess (mkId 0 0); EProcess (mkId 0 2); EComplete (mkId 0 1)] sample_set 0 tt
    drivers_balanced drivers_post sample_set_ok ltac:(repeat constructor; cbn; lia)) as H.
  destruct (run _ _ _ _ _ _) as [rs evs]. destruct H as (H1 & _ & H2). split; [exact H1|exact H2].
Defined.

(** B is waiting on device support that has finished. *)
Definition waiting_state : @St unit :=
  mkSt (<[1%nat := upd_common (set_pact true) (sample_rec (str "B") LongIn (Long 7) no_link no_link (to 0 true))]> sample_set)
    (mkCtx [] [] [] 0 0 tt).
Definition collecting : Registry unit :=
  fun id => if (slot id =? 1)%nat then Some (fun _ _ c => (Some Complete, c)) else None.

Lemma completion_once_witness :
  let s' := (complete_async sample_clock collecting (mkId 0 1) waiting_state).2 in
  pacts s' !! 1%nat = Some false /\ complete_async sample_clock collecting (mkId 0 1) s' = (Ok tt, s').
Proof.
  apply (completion_once sample_clock collecting (mkId 0 1) waiting_state).
  - unfold collecting. intros id start n b c o c'. destruct (_ =? _)%nat; intros [= <-]; by intros [= <- <-].
  - unfold synchronous, collecting. intros start n b c. destruct (_ =? _)%nat; now intros [= <-].
  - split; repeat constructor; cbn; try done; try lia; unfold in_i32, F64.i32_min, F64.i32_max; lia.
  - cbn. lia.
  - reflexivity.
  - vm_compute. discriminate.
Defined.

Lemma sdis_cycle_fails_witness :
  process sample_clock no_registry (mkId 0 2) sample_state = (Err (TooDeep MAX_DEPTH (str "C")), sample_state).
Proof.
  apply (sdis_cycle_fails sample_clock no_registry (mkId 0 2) sample_state
    (sample_rec (str "C") Bi (Enum 1) no_link (to 2 true) no_link) FVal true (mkId 0 2)); reflexivity.
Defined.

End IocSafe.
