(* ===== verification/UnionFind.v ===== *)
(** * The union-find of the lock-set partitioner

    Models the [parent] array of [partition] in [spvirit-ioc/src/lockset.rs]:
    [find] with path halving, and the union of two roots.  The array is a forest;
    [leads] says which root an index leads to and in how many steps.  The fuel of
    [find] is the length of the array: no index is further than that from its
    root. *)

From stdpp Require Import relations.
From S2P Require Import Prelude.

Module UnionFind.

(** [while parent[x] != x { parent[x] = parent[parent[x]]; x = parent[x]; }]: the
    array after the loop and the root. *)
Fixpoint find (fuel : nat) (parent : list nat) (x : nat) : outcome unit (list nat * nat) :=
  match parent !! x with
  | None => Panic
  | Some y =>
    if (y =? x)%nat then Ok (parent, x)
    else
      match parent !! y with
      | None => Panic
      | Some z =>
        match fuel with
        | O => OutOfFuel
        | S fuel => find fuel (<[x := z]> parent) z
        end
      end
  end.

(** One link of the partitioner: both ends are looked up, and the roots joined
    when they differ. *)
Definition unite (parent : list nat) (i j : nat) : outcome unit (list nat) :=
  bind_outcome (find (length parent) parent i) (fun '(parent, ri) =>
  bind_outcome (find (length parent) parent j) (fun '(parent, rj) =>
  Ok (if (ri =? rj)%nat then parent else <[ri := rj]> parent))).

Fixpoint unite_all (parent : list nat) (edges : list (nat * nat)) : outcome unit (list nat) :=
  match edges with
  | [] => Ok parent
  | (i, j) :: edges => bind_outcome (unite parent i j) (fun parent => unite_all parent edges)
  end.

(** ** Roots *)

Inductive leads (p : list nat) : nat -> nat -> nat -> Prop :=
| leads_root x : p !! x = Some x -> leads p x x 0
| leads_step x y r n : p !! x = Some y -> y <> x -> leads p y r n -> leads p x r (S n).

Definition forest (p : list nat) : Prop := forall x, x < length p -> exists r n, leads p x r n.

Lemma leads_det p x r n : leads p x r n -> forall r' n', leads p x r' n' -> r' = r /\ n' = n.
Proof.
  induction 1 as [x Hx|x y r n Hx Hne _ IH]; intros r' n' H'; inversion H' as [z Hz|z w s m Hz Hzn Hs]; subst; try congruence.
  - done.
  - assert (w = y) as -> by congruence. destruct (IH _ _ Hs) as [-> ->]. done.
Qed.

Lemma leads_lt p x r n : leads p x r n -> x < length p.
Proof. destruct 1; now apply lookup_lt_is_Some_1. Qed.

Lemma leads_is_root p x r n : leads p x r n -> p !! r = Some r.
Proof. now induction 1. Qed.

(** The way to the root visits different indices. *)
Lemma leads_path p x r n :
  leads p x r n -> exists l, length l = S n /\ NoDup l /\ Forall (fun y => exists m, m <= n /\ leads p y r m) l.
Proof.
  induction 1 as [x Hx|x y r n Hx Hne H (l & Hl & Hnd & Hall)].
  - exists [x]. split; [done|]. split; [apply NoDup_singleton|]. repeat constructor. exists 0. split; [done|now constructor].
  - exists (x :: l). split; [cbn; lia|]. split.
    + constructor; [|done]. intros Hin. rewrite Forall_forall in Hall. destruct (Hall x Hin) as (m & Hm & Hx').
      assert (leads p x r (S n)) as Hx2 by (eapply leads_step; eauto). destruct (leads_det _ _ _ _ Hx2 _ _ Hx'). lia.
    + constructor; [exists (S n); split; [done|eapply leads_step; eauto]|].
      eapply Forall_impl; [exact Hall|]. intros z (m & Hm & Hz). exists m. split; [lia|done].
Qed.

Lemma leads_bound p x r n : leads p x r n -> n < length p.
Proof.
  intros H. destruct (leads_path _ _ _ _ H) as (l & Hl & Hnd & Hall).
  assert (l ⊆+ seq 0 (length p)) as Hsub.
  { apply NoDup_submseteq; [done|]. intros y Hy. rewrite Forall_forall in Hall. destruct (Hall y Hy) as (m & _ & Hm).
    apply elem_of_seq. apply leads_lt in Hm. lia. }
  apply submseteq_length in Hsub. rewrite length_seq in Hsub. lia.
Qed.

(** Path halving keeps the roots and shortens the way to them. *)
Lemma halve_leads p x y z :
  p !! x = Some y -> y <> x -> p !! y = Some z ->
  forall n w r, leads p w r n -> exists n', n' <= n /\ leads (<[x := z]> p) w r n'.
Proof.
  intros Hx Hne Hy. pose proof (lookup_lt_Some _ _ _ Hx) as Hlt.
  induction n as [n IH] using lt_wf_ind. intros w r Hw. destruct (decide (w = x)) as [->|Hwx].
  - inversion Hw as [u Hu|u v s m Hu Hvn Hv]; subst; [congruence|]. assert (v = y) as -> by congruence.
    assert (z <> x) as Hzx.
    { intros ->. inversion Hv as [u' Hu'|u' v' s' m' Hu' _ Hv']; subst; [congruence|]. assert (v' = x) as -> by congruence.
      destruct (leads_det _ _ _ _ Hw _ _ Hv'). lia. }
    assert (exists m', m' <= m /\ leads p z r m') as (m' & Hm' & Hz).
    { inversion Hv as [u' Hu'|u' v' s' k Hu' _ Hv']; subst.
      - assert (z = r) as -> by congruence. exists 0. split; [done|]. now constructor.
      - assert (v' = z) as -> by congruence. exists k. split; [lia|done]. }
    destruct (IH m' ltac:(lia) z r Hz) as (k & Hk & Hlz). exists (S k). split; [lia|].
    apply leads_step with z; [now apply list_lookup_insert_eq|done|done].
  - inversion Hw as [u Hu|u v s m Hu Hvn Hv]; subst.
    + exists 0. split; [done|]. constructor. now rewrite list_lookup_insert_ne.
    + destruct (IH m ltac:(lia) v r Hv) as (k & Hk & Hl). exists (S k). split; [lia|].
      apply leads_step with v; [now rewrite list_lookup_insert_ne|done|done].
Qed.

(** The roots of [p] are the roots of [p']. *)
Definition same_roots (p p' : list nat) : Prop :=
  length p' = length p /\ forall w r n, leads p w r n -> exists n', n' <= n /\ leads p' w r n'.

#[export] Instance same_roots_preorder : PreOrder same_roots.
Proof.
  split.
  - intros p. split; [done|]. eauto.
  - intros a b c [L1 H1] [L2 H2]. split; [congruence|]. intros w r n Hw. destruct (H1 _ _ _ Hw) as (m & Hm & Hb).
    destruct (H2 _ _ _ Hb) as (k & Hk & Hc). exists k. split; [lia|done].
Qed.

(** [find] terminates at the root, and changes no root. *)
Lemma find_correct fuel p x r n :
  leads p x r n -> n <= fuel -> exists p', find fuel p x = Ok (p', r) /\ same_roots p p'.
Proof.
  revert p x n. induction fuel as [|fuel IH]; intros p x n Hx Hn; inversion Hx as [u Hu|u y s m Hu Hne Hy]; subst; try lia; cbn.
  - rewrite Hu, Nat.eqb_refl. eexists. split; [done|reflexivity].
  - rewrite Hu, Nat.eqb_refl. eexists. split; [done|reflexivity].
  - rewrite Hu. destruct (Nat.eqb_spec y x); [done|].
    assert (exists z k, p !! y = Some z /\ leads p z r k /\ k <= m) as (z & k & Hz & Hlz & Hk).
    { inversion Hy as [v Hv|v w t j Hv _ Hw]; subst; eauto 6 using leads_root with lia. }
    rewrite Hz. pose proof (halve_leads p x y z Hu Hne Hz) as Hh. destruct (Hh _ _ _ Hlz) as (k' & Hk' & Hlz').
    destruct (IH _ _ _ Hlz') as (p' & -> & Hs); [lia|]. exists p'. split; [done|].
    transitivity (<[x := z]> p); [|done]. split; [now rewrite length_insert|]. intros w s j Hw. now apply Hh.
Qed.

Lemma same_roots_forest p p' : same_roots p p' -> forest p -> forest p'.
Proof. intros [Hl Hs] Hf x Hx. rewrite Hl in Hx. destruct (Hf x Hx) as (r & n & H). destruct (Hs _ _ _ H) as (n' & _ & H'). eauto. Qed.

(** ** Classes *)

(** Two indices with the same root. *)
Definition joined (p : list nat) (x y : nat) : Prop := exists r n m, leads p x r n /\ leads p y r m.

Lemma joined_sym p x y : joined p x y -> joined p y x.
Proof. intros (r & n & m & H). unfold joined. exists r, m, n. tauto. Qed.

Lemma joined_trans p x y z : joined p x y -> joined p y z -> joined p x z.
Proof.
  intros (r & n & m & Hx & Hy) (s & k & j & Hy' & Hz). destruct (leads_det _ _ _ _ Hy _ _ Hy') as [-> _]. unfold joined. eauto.
Qed.

Lemma same_roots_joined p p' x y :
  same_roots p p' -> forest p -> joined p' x y <-> joined p x y.
Proof.
  intros [Hl Hs] Hf. split; intros (r & n & m & Hx & Hy).
  - destruct (Hf x) as (rx & k & Hkx); [apply leads_lt in Hx; lia|]. destruct (Hf y) as (ry & j & Hky); [apply leads_lt in Hy; lia|].
    destruct (Hs _ _ _ Hkx) as (k' & _ & Hx'), (Hs _ _ _ Hky) as (j' & _ & Hy').
    destruct (leads_det _ _ _ _ Hx _ _ Hx') as [-> _], (leads_det _ _ _ _ Hy _ _ Hy') as [-> _]. unfold joined. eauto.
  - destruct (Hs _ _ _ Hx) as (k' & _ & Hx'), (Hs _ _ _ Hy) as (j' & _ & Hy'). unfold joined. eauto.
Qed.

(** Linking a root below another one. *)
Lemma link_leads p ri rj :
  p !! ri = Some ri -> p !! rj = Some rj -> ri <> rj ->
  forall w r n, leads p w r n -> exists n', leads (<[ri := rj]> p) w (if decide (r = ri) then rj else r) n'.
Proof.
  intros Hi Hj Hne w r n H. pose proof (lookup_lt_Some _ _ _ Hi) as Hlt. induction H as [x Hx|x y r n Hx Hxy _ [n' IH]].
  - destruct (decide (x = ri)) as [->|Hd].
    + exists 1. apply leads_step with rj; [now apply list_lookup_insert_eq|done|]. constructor. now rewrite list_lookup_insert_ne.
    + exists 0. constructor. now rewrite list_lookup_insert_ne.
  - exists (S n'). apply leads_step with y; [|done|exact IH]. rewrite list_lookup_insert_ne; [done|]. intros ->. congruence.
Qed.

Lemma link_joined p i j ri rj ki kj :
  forest p -> ri <> rj -> leads p i ri ki -> leads p j rj kj ->
  (forall w r n, leads p w r n -> exists n', leads (<[ri := rj]> p) w (if decide (r = ri) then rj else r) n') ->
  forall x y, joined (<[ri := rj]> p) x y <-> joined p x y \/ joined p x i /\ joined p j y \/ joined p x j /\ joined p i y.
Proof.
  intros Hf Hne Hi Hj Hlink x y. split.
  - intros (r & n & m & Hx & Hy). pose proof (leads_lt _ _ _ _ Hx) as Lx. pose proof (leads_lt _ _ _ _ Hy) as Ly.
    rewrite length_insert in Lx, Ly. destruct (Hf x Lx) as (rx & a & Hrx), (Hf y Ly) as (ry & b & Hry).
    destruct (Hlink _ _ _ Hrx) as (a' & Hx'), (Hlink _ _ _ Hry) as (b' & Hy').
    destruct (leads_det _ _ _ _ Hx _ _ Hx') as [Ex _], (leads_det _ _ _ _ Hy _ _ Hy') as [Ey _]. unfold joined.
    destruct (decide (rx = ri)) as [->|Hrx1], (decide (ry = ri)) as [->|Hry1]; subst; [left|right; left|right; right|left];
      first [split|idtac]; eauto.
  - assert (forall u v, joined p u v -> joined (<[ri := rj]> p) u v) as Hmono.
    { intros u v (r & n & m & Hu & Hv). destruct (Hlink _ _ _ Hu), (Hlink _ _ _ Hv). unfold joined. eauto. }
    assert (joined (<[ri := rj]> p) i j) as Hij.
    { destruct (Hlink _ _ _ Hi) as (a & Ha), (Hlink _ _ _ Hj) as (b & Hb). rewrite decide_True in Ha by done.
      rewrite decide_False in Hb by done. unfold joined. eauto. }
    intros [H|[[H1 H2]|[H1 H2]]]; [auto|..].
    + eapply joined_trans; [apply Hmono, H1|]. eapply joined_trans; [apply Hij|apply Hmono, H2].
    + eapply joined_trans; [apply Hmono, H1|]. eapply joined_trans; [apply joined_sym, Hij|apply Hmono, H2].
Qed.

Lemma unite_correct p i j :
  forest p -> i < length p -> j < length p ->
  exists p', unite p i j = Ok p' /\ length p' = length p /\ forest p' /\
    forall x y, joined p' x y <-> joined p x y \/ joined p x i /\ joined p j y \/ joined p x j /\ joined p i y.
Proof.
  intros Hf Hi Hj. unfold unite. destruct (Hf i Hi) as (ri & ni & Hri).
  destruct (find_correct (length p) p i ri ni Hri) as (p1 & -> & Hs1); [apply leads_bound in Hri; lia|]. cbn [bind_outcome].
  pose proof (same_roots_forest _ _ Hs1 Hf) as Hf1. pose proof (proj1 Hs1) as Hl1.
  destruct (Hf1 j ltac:(lia)) as (rj & nj & Hrj).
  destruct (find_correct (length p1) p1 j rj nj Hrj) as (p2 & -> & Hs2); [apply leads_bound in Hrj; lia|]. cbn [bind_outcome].
  pose proof (same_roots_forest _ _ Hs2 Hf1) as Hf2. assert (same_roots p p2) as Hs by (etransitivity; eauto).
  destruct (proj2 Hs _ _ _ Hri) as (ki & _ & Hri2), (proj2 Hs2 _ _ _ Hrj) as (kj & _ & Hrj2).
  assert (forall x y, joined p2 x y <-> joined p x y) as Hj2 by (intros; now apply same_roots_joined).
  destruct (Nat.eqb_spec ri rj) as [<-|Hne].
  - exists p2. split; [done|]. split; [apply Hs|]. split; [done|]. intros x y. rewrite <- !Hj2. split; [auto|].
    intros [H|[[(r & a & b & Ha & Hb) (r' & c & e & Hc & He)]|[(r & a & b & Ha & Hb) (r' & c & e & Hc & He)]]]; [done|..].
    + destruct (leads_det _ _ _ _ Hri2 _ _ Hb) as [-> _], (leads_det _ _ _ _ Hrj2 _ _ Hc) as [-> _]. unfold joined. eauto.
    + destruct (leads_det _ _ _ _ Hrj2 _ _ Hb) as [-> _], (leads_det _ _ _ _ Hri2 _ _ Hc) as [-> _]. unfold joined. eauto.
  - pose proof (link_leads p2 ri rj (leads_is_root _ _ _ _ Hri2) (leads_is_root _ _ _ _ Hrj2) Hne) as Hlink.
    exists (<[ri := rj]> p2). rewrite length_insert. split; [done|]. split; [apply Hs|]. split.
    { intros x Hx. rewrite length_insert in Hx. destruct (Hf2 x Hx) as (r & n & H). destruct (Hlink _ _ _ H). eauto. }
    intros x y. rewrite <- !Hj2. apply (link_joined p2 i j ri rj ki kj); done.
Qed.

(** A step between classes: inside one, or along an edge in either direction. *)
Definition hop (p : list nat) (es : list (nat * nat)) (x y : nat) : Prop := joined p x y \/ (x, y) ∈ es \/ (y, x) ∈ es.

Lemma rtc_into {A} (R S : relation A) : (forall x y, R x y -> rtc S x y) -> forall x y, rtc R x y -> rtc S x y.
Proof. intros H x y. induction 1 as [|a b c Hab _ IH]; [reflexivity|]. etransitivity; [apply H, Hab|exact IH]. Qed.

Lemma joined_rtc p x y : forest p -> x < length p -> rtc (joined p) x y -> joined p x y.
Proof.
  intros Hf Hx H. induction H as [x|x y z Hxy _ IH].
  - destruct (Hf x Hx) as (r & n & H). exists r, n, n. done.
  - eapply joined_trans; [exact Hxy|]. apply IH. destruct Hxy as (r & n & m & _ & H). now apply leads_lt in H.
Qed.

(** All links joined: the classes are the connected components. *)
Lemma unite_all_correct es p :
  forest p -> Forall (fun e => e.1 < length p /\ e.2 < length p) es ->
  exists p', unite_all p es = Ok p' /\ length p' = length p /\ forest p' /\
    forall x y, x < length p -> joined p' x y <-> rtc (hop p es) x y.
Proof.
  revert p. induction es as [|[i j] es IH]; intros p Hf Hes.
  - exists p. split; [done|]. split; [done|]. split; [done|]. intros x y Hx. split; intros H.
    + apply rtc_once. now left.
    + apply joined_rtc; [done..|]. eapply rtc_into; [|exact H]. intros a b [?|[Hin|Hin]]; [now apply rtc_once|..]; now apply not_elem_of_nil in Hin.
  - apply Forall_cons in Hes as [[Hi Hj] Hes]. cbn in Hi, Hj. cbn [unite_all].
    destruct (unite_correct p i j Hf Hi Hj) as (p1 & -> & Hl1 & Hf1 & Hj1). cbn [bind_outcome].
    destruct (IH p1 Hf1) as (p' & E & Hl & Hf' & Hjn); [now rewrite Hl1|]. exists p'. split; [done|]. split; [congruence|]. split; [done|].
    intros x y Hx. rewrite Hjn by lia. split; apply rtc_into; intros a b Hab.
    + destruct Hab as [Hab|Hab]; [|apply rtc_once; right; set_solver]. apply Hj1 in Hab.
      assert (hop p ((i, j) :: es) i j) as Hij by (right; left; left). assert (hop p ((i, j) :: es) j i) as Hji by (right; right; left).
      destruct Hab as [H|[[H1 H2]|[H1 H2]]]; [apply rtc_once; now left|..].
      all: eapply rtc_l; [left; exact H1|]; eapply rtc_l; [first [exact Hij|exact Hji]|]; apply rtc_once; now left.
    + apply rtc_once. assert (forall z, z < length p -> joined p z z) as Hrefl.
      { intros z Hz. destruct (Hf z Hz) as (r & n & H). exists r, n, n. done. }
      destruct Hab as [H|[H|H]]; [left; apply Hj1; auto|..]; (apply elem_of_cons in H as [[= -> ->]|H]; [left; apply Hj1|right; auto]).
      * right. left. auto.
      * right. right. auto.
Qed.

(** The array of singletons. *)
Lemma singletons_forest n : forest (seq 0 n).
Proof.
  intros x Hx. rewrite length_seq in Hx. exists x, 0. constructor. apply lookup_seq. lia.
Qed.

Lemma singletons_joined n x y : joined (seq 0 n) x y <-> x = y /\ x < n.
Proof.
  assert (forall z r k, leads (seq 0 n) z r k -> r = z) as H.
  { intros z r k. destruct 1 as [|z w r k Hz Hn]; [done|]. apply lookup_seq in Hz. lia. }
  split.
  - intros (r & a & b & Hx & Hy). rewrite <- (H _ _ _ Hx), <- (H _ _ _ Hy). split; [done|]. rewrite (H _ _ _ Hx).
    apply leads_lt in Hx. now rewrite length_seq in Hx.
  - intros [-> Hy]. destruct (singletons_forest n y) as (r & k & Hr); [now rewrite length_seq|]. exists r, k, k. done.
Qed.

(** The root [find] returns. *)
Definition rep (p : list nat) (x : nat) : nat :=
  match find (length p) p x with Ok (_, r) => r | _ => x end.

Lemma rep_leads p x : forest p -> x < length p -> exists n, leads p x (rep p x) n.
Proof.
  intros Hf Hx. destruct (Hf x Hx) as (r & n & H). exists n. unfold rep.
  destruct (find_correct (length p) p x r n H) as (p' & -> & _); [apply leads_bound in H; lia|done].
Qed.

Lemma rep_find p x : forest p -> x < length p -> exists p', find (length p) p x = Ok (p', rep p x) /\ same_roots p p'.
Proof.
  intros Hf Hx. destruct (rep_leads p x Hf Hx) as (n & H).
  destruct (find_correct (length p) p x _ n H) as (p' & E & Hs); [apply leads_bound in H; lia|]. eauto.
Qed.

Lemma rep_same p p' x : same_roots p p' -> forest p -> x < length p -> rep p' x = rep p x.
Proof.
  intros Hs Hf Hx. destruct (rep_leads p x Hf Hx) as (n & H). destruct (proj2 Hs _ _ _ H) as (n' & _ & H').
  destruct (rep_leads p' x) as (m & Hm); [eapply same_roots_forest; eauto|now rewrite (proj1 Hs)|].
  now destruct (leads_det _ _ _ _ H' _ _ Hm).
Qed.

Lemma rep_joined p x y : forest p -> x < length p -> y < length p -> rep p x = rep p y <-> joined p x y.
Proof.
  intros Hf Hx Hy. destruct (rep_leads p x Hf Hx) as (n & Hn), (rep_leads p y Hf Hy) as (m & Hm). split.
  - intros E. exists (rep p x), n, m. rewrite E in *. done.
  - intros (r & a & b & Ha & Hb). destruct (leads_det _ _ _ _ Hn _ _ Ha), (leads_det _ _ _ _ Hm _ _ Hb). congruence.
Qed.

End UnionFind.
