(* ===== verification/LockSet.v ===== *)
(** * Lock sets of the IOC

    Models [spvirit-ioc/src/lockset.rs]: the partition of the records into
    connected components over their db links, the construction of the record
    database (records moved into their sets, links resolved to slots), lookups
    and the order of the initial sweep.  The theorems show that the partition is
    the connected components, that construction succeeds, and that every link
    stays inside its set, which is what [IocSafe] asks for. *)

From stdpp Require Import gmap sorting relations.
From S2P Require Import Prelude Utf8 Wire PvdTypes NtTypes F64 Ioc IocSafe UnionFind.

Module LockSet.
Import Ioc IocSafe UnionFind.

(** ** Links *)

Inductive LinkField := LInp | LOut | LDol | LFlnk | LSdis.

Definition links (r : Rec) : list (LinkField * Link) :=
  [(LInp, inp r); (LOut, out r); (LDol, dol r); (LFlnk, flnk (common r)); (LSdis, sdis (common r))].

(** [iter().enumerate()]. *)
Definition enumerate {A} (l : list A) : list (nat * A) := zip (seq 0 (length l)) l.

(** The index of every name; of records that share a name, the last. *)
Definition name_index (records : list Rec) : gmap bytes nat :=
  fold_left (fun m '(i, r) => <[name r := i]> m) (enumerate records) ∅.

(** The record a link names, if it is a db link by name to a record there is. *)
Definition link_target {A} (index : gmap bytes A) (l : Link) : option A :=
  match l with
  | Db (Name n) _ _ _ => index !! n
  | _ => None
  end.

Definition record_edges (index : gmap bytes nat) (i : nat) (r : Rec) : list (nat * nat) :=
  omap (fun '(_, l) => (fun j => (i, j)) <$> link_target index l) (links r).

Definition edges (records : list Rec) : list (nat * nat) :=
  concat (map (fun '(i, r) => record_edges (name_index records) i r) (enumerate records)).

(** ** The partition *)

Fixpoint group_all (parent : list nat) (xs : list nat) (groups : gmap nat (list nat))
  : outcome unit (gmap nat (list nat)) :=
  match xs with
  | [] => Ok groups
  | x :: xs =>
    bind_outcome (find (length parent) parent x) (fun '(parent, root) =>
    group_all parent xs (<[root := default [] (groups !! root) ++ [x]]> groups))
  end.

(** [sort_unstable_by_key(|g| g[0])]. *)
Definition first_le (a b : list nat) : Prop := (default 0 (head a) <= default 0 (head b))%nat.

#[export] Instance first_le_dec : RelDecision first_le.
Proof. intros a b. unfold first_le. apply _. Defined.

Section Build.
(** The order in which a hash map hands out its values is not specified. *)
Context (into_values : gmap nat (list nat) -> list (list nat)).

Definition partition (records : list Rec) : outcome unit (list (list nat)) :=
  let n := length records in
  bind_outcome (unite_all (seq 0 n) (edges records)) (fun parent =>
  bind_outcome (group_all parent (seq 0 n) ∅) (fun groups =>
  Ok (merge_sort first_le (map (merge_sort le) (into_values groups))))).

(** ** The record database *)

Record RecordDb := mkDb {
  by_name : gmap bytes RecordId;
  lock_sets : list (list Rec);
  order : list RecordId;
  unresolved : list bytes }.

(** The address of every record. *)
Definition assign_group (ids : list RecordId) (sg : nat * list nat) : list RecordId :=
  fold_left (fun ids '(slot, orig) => <[orig := mkId sg.1 slot]> ids) (enumerate sg.2) ids.

Definition assign_ids (n : nat) (groups : list (list nat)) : list RecordId :=
  fold_left assign_group (enumerate groups) (replicate n (mkId 0 0)).

Definition name_ids (ids : list RecordId) (records : list Rec) : gmap bytes RecordId :=
  fold_left (fun m '(id, r) => <[name r := id]> m) (zip ids records) ∅.

(** The link after resolution, and the name it could not resolve. *)
Definition fix_link (names : gmap bytes RecordId) (l : Link) : Link * list bytes :=
  match l with
  | Db (Name n) f pp ms =>
    match names !! n with
    | Some id => (Db (Id id) f pp ms, [])
    | None => (Unresolved n, [n])
    end
  | _ => (l, [])
  end.

Definition set_links (i o d f s : Link) (r : Rec) : Rec :=
  let c := common r in
  mkRec (name r) (kind r)
    (mkCommon (desc c) (scan_raw c) (evnt c) (pini c) (phas c) (pact c) (disa c) (disv c) (diss c) s f (tse c) (tpro c)
       (udf c) (sevr c) (stat c) (nsev c) (nsta c))
    (limits r) (egu r) (val r) (prev_val r) (prev_archive_val r) (prev_sevr r) (prev_stat r) i o d (omsl r) (time_ns r).

Definition resolve_links (names : gmap bytes RecordId) (r : Rec) : Rec * list bytes :=
  let '(i, u1) := fix_link names (inp r) in
  let '(o, u2) := fix_link names (out r) in
  let '(d, u3) := fix_link names (dol r) in
  let '(f, u4) := fix_link names (flnk (common r)) in
  let '(s, u5) := fix_link names (sdis (common r)) in
  (set_links i o d f s r, u1 ++ u2 ++ u3 ++ u4 ++ u5).

(** The members of one set: [slots[orig].take().expect(..)] for each index of the
    group. *)
Fixpoint take_members (names : gmap bytes RecordId) (slots : list (option Rec)) (group : list nat)
  : outcome unit (list (option Rec) * list Rec * list bytes) :=
  match group with
  | [] => Ok (slots, [], [])
  | orig :: group =>
    match slots !! orig with
    | Some (Some r) =>
      let '(r, u) := resolve_links names r in
      bind_outcome (take_members names (<[orig := None]> slots) group) (fun '(slots, ms, us) => Ok (slots, r :: ms, u ++ us))
    | _ => Panic
    end
  end.

Fixpoint take_sets (names : gmap bytes RecordId) (slots : list (option Rec)) (groups : list (list nat))
  : outcome unit (list (list Rec) * list bytes) :=
  match groups with
  | [] => Ok ([], [])
  | group :: groups =>
    bind_outcome (take_members names slots group) (fun '(slots, ms, u) =>
    bind_outcome (take_sets names slots groups) (fun '(sets, us) => Ok (ms :: sets, u ++ us)))
  end.

(** The order of strings: bytewise, a prefix first. *)
Fixpoint bytes_leb (a b : bytes) : bool :=
  match a, b with
  | [], _ => true
  | _ :: _, [] => false
  | x :: a, y :: b => (x <? y)%Z || ((x =? y)%Z && bytes_leb a b)
  end.

Definition bytes_le (a b : bytes) : Prop := bytes_leb a b = true.
#[export] Instance bytes_le_dec : RelDecision bytes_le.
Proof. intros a b. unfold bytes_le. apply _. Defined.

(** [dedup]: of equal neighbours the first is kept. *)
Fixpoint dedup_after (x : bytes) (l : list bytes) : list bytes :=
  match l with
  | [] => []
  | y :: l => if decide (x = y) then dedup_after x l else y :: dedup_after y l
  end.

Definition dedup (l : list bytes) : list bytes := match l with [] => [] | x :: l => x :: dedup_after x l end.

Definition build (records : list Rec) : outcome unit RecordDb :=
  bind_outcome (partition records) (fun groups =>
  let ids := assign_ids (length records) groups in
  let names := name_ids ids records in
  bind_outcome (take_sets names (Some <$> records) groups) (fun '(sets, us) =>
  Ok (mkDb names sets ids (dedup (merge_sort bytes_le us))))).

End Build.

Definition lookup_name (db : RecordDb) (n : bytes) : option RecordId := by_name db !! n.

(** [with_set(id.set, |set| set.get(id))]. *)
Definition at_id (db : RecordDb) (id : RecordId) : option Rec := lock_sets db !! rset id ≫= fun set => set !! slot id.

(** The initial sweep: records with PINI, by phase, then by definition order. *)
Definition sweep_le (a b : Z * nat * RecordId) : Prop :=
  (a.1.1 < b.1.1)%Z \/ a.1.1 = b.1.1 /\ (a.1.2 <= b.1.2)%nat.
#[export] Instance sweep_le_dec : RelDecision sweep_le.
Proof. intros a b. unfold sweep_le. apply _. Defined.

Fixpoint pini_list (db : RecordDb) (l : list (nat * RecordId)) : outcome unit (list (Z * nat * RecordId)) :=
  match l with
  | [] => Ok []
  | (i, id) :: l =>
    match at_id db id with
    | None => Panic
    | Some r => bind_outcome (pini_list db l) (fun rest =>
        Ok (if pini (common r) then (phas (common r), i, id) :: rest else rest))
    end
  end.

Definition pini_order (db : RecordDb) : outcome unit (list RecordId) :=
  bind_outcome (pini_list db (enumerate (order db))) (fun sweep => Ok (merge_sort sweep_le sweep).*2).

(** ** The name index *)

(** [j] is the last record called [n]. *)
Definition named (records : list Rec) (n : bytes) (j : nat) : Prop :=
  exists r, records !! j = Some r /\ name r = n /\ forall k r', j < k -> records !! k = Some r' -> name r' <> n.

(** A db link of [i] names [j]. *)
Definition linked (records : list Rec) (i j : nat) : Prop :=
  exists r n f pp ms, records !! i = Some r /\ Db (Name n) f pp ms ∈ (links r).*2 /\ named records n j.

Lemma enumerate_lookup {A} (l : list A) i k x : enumerate l !! i = Some (k, x) <-> k = i /\ l !! i = Some x.
Proof.
  unfold enumerate. rewrite lookup_zip_Some, lookup_seq. split; [intros [[-> _] ?]; auto|]. intros [-> H].
  apply lookup_lt_Some in H as ?. split; [lia|done].
Qed.

(** A map filled from the left keeps the last value of a name. *)
Lemma fill_last {V} (l : list (V * Rec)) (m : gmap bytes V) n :
  fold_left (fun m '(v, r) => <[name r := v]> m) l m !! n =
  match last (filter (fun vr : V * Rec => name vr.2 = n) l) with Some vr => Some vr.1 | None => m !! n end.
Proof.
  revert m. induction l as [|[v r] l IH]; intros m; [done|]. cbn [fold_left]. rewrite IH, filter_cons. cbn [snd].
  destruct (decide (name r = n)) as [E|E].
  - rewrite last_cons. destruct (last _); [done|]. cbn. rewrite <- E. apply lookup_insert_eq.
  - destruct (last _); [done|]. now apply lookup_insert_ne.
Qed.

Lemma named_snoc records r n j :
  named (records ++ [r]) n j <-> j = length records /\ name r = n \/ name r <> n /\ named records n j.
Proof.
  assert ((records ++ [r]) !! length records = Some r) as Hlast by (rewrite lookup_app_r, Nat.sub_diag by lia; done).
  split.
  - intros (r' & Hr' & E & Hlater). pose proof (lookup_lt_Some _ _ _ Hr') as Hlt. rewrite length_app in Hlt. cbn in Hlt.
    destruct (decide (j = length records)) as [->|Hne]; [left; split; congruence|]. right. split; [apply (Hlater (length records) r); [lia|exact Hlast]|].
    exists r'. rewrite lookup_app_l in Hr' by lia. split; [done|]. split; [done|]. intros k r'' Hk Hk'.
    apply (Hlater k r''); [done|now apply lookup_app_l_Some].
  - intros [[-> E]|[Hne (r' & Hr' & E & Hlater)]].
    + exists r. split; [done|]. split; [done|]. intros k r' Hk Hr'. apply lookup_lt_Some in Hr'. rewrite length_app in Hr'. cbn in Hr'. lia.
    + exists r'. split; [now apply lookup_app_l_Some|]. split; [done|]. intros k r'' Hk [Hk'|[Hle Hk']]%lookup_app_Some; [eauto|].
      destruct (k - length records) as [|q]; [|done]. injection Hk' as <-. done.
Qed.

Lemma fill_zip {V} (vs : list V) (records : list Rec) n v :
  length vs = length records ->
  fold_left (fun m '(v, r) => <[name r := v]> m) (zip vs records) (∅ : gmap bytes V) !! n = Some v <->
  exists j, vs !! j = Some v /\ named records n j.
Proof.
  intros Hl. rewrite fill_last. revert vs Hl. induction records as [|r records IH] using rev_ind; intros vs Hl.
  - destruct vs; [|done]. cbn. split; [done|]. intros (j & Hj & _). done.
  - destruct vs as [|w vs _] using rev_ind; [rewrite length_app in Hl; cbn in Hl; lia|].
    rewrite !length_app in Hl. cbn in Hl. rewrite zip_with_app by lia. cbn [zip_with]. rewrite filter_app, filter_cons, filter_nil. cbn [snd].
    setoid_rewrite named_snoc. destruct (decide (name r = n)) as [E|E].
    + rewrite last_snoc. cbn [fst]. split.
      * intros [= ->]. exists (length records). split; [|tauto]. rewrite lookup_app_r by lia. now replace (_ - _) with 0 by lia.
      * intros (j & Hj & [[-> _]|[? _]]); [|done]. rewrite lookup_app_r in Hj by lia. now replace (_ - _) with 0 in Hj by lia.
    + rewrite app_nil_r, IH by lia. split; intros (j & Hj & Hn).
      * exists j. split; [|tauto]. rewrite lookup_app_l; [done|now apply lookup_lt_Some in Hj].
      * exists j. destruct Hn as [[_ ?]|[_ Hn]]; [done|]. split; [|done]. destruct Hn as (r' & Hr' & _). apply lookup_lt_Some in Hr'.
        now rewrite lookup_app_l in Hj by lia.
Qed.

Lemma name_index_spec records n j : name_index records !! n = Some j <-> named records n j.
Proof.
  unfold name_index, enumerate. rewrite fill_zip by apply length_seq. split.
  - intros (j' & [-> _]%lookup_seq & H). exact H.
  - intros H. exists j. split; [|done]. apply lookup_seq. destruct H as (r & Hr & _). apply lookup_lt_Some in Hr. lia.
Qed.

Lemma edges_spec records i j : (i, j) ∈ edges records <-> linked records i j.
Proof.
  unfold edges, record_edges, linked. rewrite list_elem_of_In, in_concat. setoid_rewrite in_map_iff. split.
  - intros (l & ([k r] & <- & Hin) & Hl). apply list_elem_of_In in Hin, Hl.
    apply list_elem_of_lookup in Hin as (q & [-> Hr]%enumerate_lookup). apply list_elem_of_omap in Hl as ([lf l] & Hlf & E).
    destruct l as [|[n|] f pp ms|]; try done. cbn in E. destruct (name_index records !! n) eqn:En; [|done]. injection E as <- <-.
    apply name_index_spec in En. exists r, n, f, pp, ms. split; [done|]. split; [|done].
    apply list_elem_of_fmap. now exists (lf, Db (Name n) f pp ms).
  - intros (r & n & f & pp & ms & Hr & Hl & Hn). apply name_index_spec in Hn.
    apply list_elem_of_fmap in Hl as ([lf l] & El & Hlf). cbn in El. subst l. eexists. split.
    + exists (i, r). split; [reflexivity|]. apply list_elem_of_In, list_elem_of_lookup. exists i. now apply enumerate_lookup.
    + apply list_elem_of_In, list_elem_of_omap. exists (lf, Db (Name n) f pp ms). split; [done|]. cbn. now rewrite Hn.
Qed.

Lemma linked_lt records i j : linked records i j -> i < length records /\ j < length records.
Proof. intros (r & n & f & pp & ms & Hr & _ & r' & Hr' & _). apply lookup_lt_Some in Hr, Hr'. done. Qed.

(** ** Grouping *)

Lemma group_all_spec (f : nat -> nat) xs parent groups :
  forest parent -> Forall (fun x => x < length parent /\ rep parent x = f x) xs ->
  exists g, group_all parent xs groups = Ok g /\
    (forall root, g !! root =
       match filter (fun x => f x = root) xs with [] => groups !! root | l => Some (default [] (groups !! root) ++ l) end) /\
    mjoin (map_to_list g).*2 ≡ₚ xs ++ mjoin (map_to_list groups).*2.
Proof.
  revert parent groups. induction xs as [|x xs IH]; intros parent groups Hf Hxs; [now exists groups|].
  apply Forall_cons in Hxs as [[Hx Er] Hxs]. cbn [group_all].
  destruct (rep_find parent x Hf Hx) as (p' & -> & Hs). cbn [bind_outcome]. rewrite Er.
  set (groups' := <[f x := default [] (groups !! f x) ++ [x]]> groups).
  destruct (IH p' groups') as (g & -> & Hg & Hp); [eapply same_roots_forest; eauto| |].
  { eapply Forall_impl; [exact Hxs|]. intros y [Hy Ey]. rewrite (proj1 Hs). split; [done|]. rewrite <- Ey. now apply rep_same. }
  exists g. split; [done|]. split.
  - intros root. rewrite Hg, filter_cons. unfold groups'. destruct (decide (f x = root)) as [<-|Hne].
    + rewrite lookup_insert_eq. cbn [default]. destruct (filter _ xs); [done|]. cbn. now rewrite <- app_assoc.
    + now rewrite lookup_insert_ne.
  - rewrite Hp. cbn [app]. rewrite Permutation_middle. f_equiv. unfold groups'.
    destruct (groups !! f x) as [l|] eqn:E; cbn [default].
    + rewrite <- insert_delete_eq, map_to_list_insert by apply lookup_delete_eq. rewrite <- (insert_delete_id groups (f x) l) at 2 by done.
      rewrite map_to_list_insert by apply lookup_delete_eq. cbn. rewrite <- app_assoc. cbn. now rewrite <- Permutation_middle.
    + rewrite map_to_list_insert by done. done.
Qed.

Lemma sorted_filter (P : nat -> Prop) `{!forall x, Decision (P x)} l : StronglySorted lt l -> StronglySorted lt (filter P l).
Proof.
  induction 1 as [|x l Hl IH Hx]; [constructor|]. rewrite filter_cons. destruct (decide (P x)); [|done].
  constructor; [done|]. apply Forall_forall. intros y [_ Hy]%list_elem_of_filter. rewrite Forall_forall in Hx. auto.
Qed.

Lemma sorted_seq a n : StronglySorted lt (seq a n).
Proof.
  revert a. induction n as [|n IH]; intros a; cbn; constructor; [apply IH|]. apply Forall_seq. lia.
Qed.

Lemma sorted_sort l : StronglySorted lt l -> merge_sort le l = l.
Proof.
  intros H. apply (StronglySorted_unique le).
  - apply StronglySorted_merge_sort; [intros a b c; lia|intros a b; lia].
  - induction H as [|x l _ IH Hx]; constructor; [done|]. eapply Forall_impl; [exact Hx|]. cbn. lia.
  - apply merge_sort_Permutation.
Qed.

#[export] Instance first_le_total : Total first_le.
Proof. intros a b. unfold first_le. lia. Qed.
#[export] Instance first_le_trans : Transitive first_le.
Proof. intros a b c. unfold first_le. lia. Qed.

(** The components of the link graph, in order. *)
Record components (records : list Rec) (gs : list (list nat)) : Prop := {
  c_cover : mjoin gs ≡ₚ seq 0 (length records);
  c_groups : Forall (fun g => g <> [] /\ StronglySorted lt g) gs;
  c_order : StronglySorted first_le gs;
  c_conn : forall g i j, g ∈ gs -> i ∈ g -> j ∈ g <-> rtsc (linked records) i j }.

Lemma hop_linked records x y :
  x < length records -> rtc (hop (seq 0 (length records)) (edges records)) x y <-> rtsc (linked records) x y.
Proof.
  intros _. unfold rtsc. split; apply rtc_into; intros a b.
  - intros [[-> _]%singletons_joined|H]; [reflexivity|]. apply rtc_once. unfold sc. rewrite !edges_spec in H. tauto.
  - intros H. apply rtc_once. right. rewrite !edges_spec. exact H.
Qed.

(** The groups of the union-find before they are sorted. *)
Lemma groups_spec records :
  exists parent g, unite_all (seq 0 (length records)) (edges records) = Ok parent /\
    group_all parent (seq 0 (length records)) ∅ = Ok g /\
    (forall l, l ∈ (map_to_list g).*2 ->
       l <> [] /\ StronglySorted lt l /\ forall i j, i ∈ l -> j ∈ l <-> rtsc (linked records) i j) /\
    mjoin (map_to_list g).*2 ≡ₚ seq 0 (length records).
Proof.
  set (n := length records). destruct (unite_all_correct (edges records) (seq 0 n) (singletons_forest n)) as (parent & E & Hl & Hf & Hj).
  { apply Forall_forall. intros [i j] H. apply edges_spec, linked_lt in H. now rewrite length_seq. }
  rewrite length_seq in *. destruct (group_all_spec (rep parent) (seq 0 n) parent ∅ Hf) as (g & Eg & Hg & Hp).
  { apply Forall_seq. intros x Hx. split; [lia|done]. }
  exists parent, g. split; [done|]. split; [done|]. split; [|now rewrite map_to_list_empty, app_nil_r in Hp].
  intros l ([root l'] & -> & Hin)%list_elem_of_fmap. apply elem_of_map_to_list in Hin. rewrite Hg in Hin. cbn [snd].
  assert (l' = filter (fun x => rep parent x = root) (seq 0 n) /\ l' <> []) as [-> Hne].
  { destruct (filter _ _); [done|]. cbn in Hin. now injection Hin as <-. }
  split; [done|]. split; [apply sorted_filter, sorted_seq|]. intros i j. rewrite !list_elem_of_filter, !elem_of_seq.
  intros [Ei Hi]. rewrite <- hop_linked by (fold n; lia). fold n. rewrite <- Hj by lia. split.
  - intros [Ej Hjl]. apply rep_joined; [done|lia|lia|congruence].
  - intros H. assert (j < n) as Hjn by (destruct H as (r & a & b & _ & H); apply leads_lt in H; lia).
    split; [|lia]. apply rep_joined in H; [congruence|done|lia|lia].
Qed.

(** Groups without common members are told apart by any of them. *)
Lemma join_inj {A} (gs : list (list A)) i j a b x :
  NoDup (mjoin gs) -> gs !! i = Some a -> gs !! j = Some b -> x ∈ a -> x ∈ b -> i = j.
Proof.
  revert i j. induction gs as [|g gs IH]; intros i j Hnd Hi Hj Ha Hb; [done|]. cbn in Hnd. apply NoDup_app in Hnd as (_ & Hd & Hnd).
  assert (forall k c, gs !! k = Some c -> x ∈ c -> x ∈ mjoin gs) as Hin
    by (intros k c Hk Hc; apply list_elem_of_join; exists c; split; [done|now apply list_elem_of_lookup_2 in Hk]).
  destruct i as [|i], j as [|j]; cbn in Hi, Hj; simplify_eq; [done|..].
  - destruct (Hd x Ha (Hin _ _ Hj Hb)).
  - destruct (Hd x Hb (Hin _ _ Hi Ha)).
  - f_equal. eauto.
Qed.

Lemma join_nodup {A} (gs : list (list A)) i a : NoDup (mjoin gs) -> gs !! i = Some a -> NoDup a.
Proof.
  revert i. induction gs as [|g gs IH]; intros [|i] Hnd Hi; simplify_eq/=; apply NoDup_app in Hnd as (? & _ & ?); eauto.
Qed.

Section Partition.
Context (into_values : gmap nat (list nat) -> list (list nat)).
(** Every value of the map is handed out once. *)
Hypothesis values_perm : forall m, into_values m ≡ₚ (map_to_list m).*2.

Lemma partition_spec records :
  exists gs, partition into_values records = Ok gs /\ components records gs.
Proof.
  destruct (groups_spec records) as (parent & g & E1 & E2 & Hg & Hp). unfold partition. rewrite E1. cbn [bind_outcome]. rewrite E2. cbn [bind_outcome].
  assert (map (merge_sort le) (into_values g) = into_values g) as ->.
  { rewrite <- (map_id (into_values g)) at 2. apply map_ext_in. intros l Hl%list_elem_of_In. rewrite values_perm in Hl.
    apply sorted_sort, Hg, Hl. }
  assert (merge_sort first_le (into_values g) ≡ₚ (map_to_list g).*2) as Hs by now rewrite merge_sort_Permutation.
  eexists. split; [done|]. split.
  - now rewrite Hs.
  - apply Forall_forall. intros l. rewrite Hs. intros Hl. destruct (Hg l Hl) as (? & ? & _). done.
  - apply StronglySorted_merge_sort; apply _.
  - intros l i j. rewrite Hs. intros Hl. now apply Hg.
Qed.
End Partition.

(** The components are a function of the records. *)
Lemma sorted_nodup l : StronglySorted lt l -> NoDup l.
Proof.
  induction 1 as [|x l _ IH Hx]; constructor; [|done]. intros Hin. rewrite Forall_forall in Hx. specialize (Hx x Hin). lia.
Qed.

Lemma components_nodup records gs : components records gs -> NoDup (mjoin gs).
Proof. intros H. rewrite (c_cover _ _ H). apply NoDup_seq. Qed.

Lemma components_head records gs l : components records gs -> l ∈ gs -> exists x, head l = Some x /\ x ∈ l.
Proof.
  intros H Hl. pose proof (c_groups _ _ H) as F. rewrite Forall_forall in F. destruct (F l Hl) as [Hne _].
  destruct l as [|x l]; [done|]. exists x. split; [done|left].
Qed.

Lemma components_sub records a b l : components records a -> components records b -> l ∈ a -> l ∈ b.
Proof.
  intros Ha Hb Hl. destruct (components_head _ _ _ Ha Hl) as (x & _ & Hxl). assert (x ∈ mjoin b) as Hx.
  { rewrite (c_cover _ _ Hb), <- (c_cover _ _ Ha). apply list_elem_of_join. exists l. done. }
  apply list_elem_of_join in Hx as (m & Hxm & Hm). pose proof (c_groups _ _ Ha) as Fa. pose proof (c_groups _ _ Hb) as Fb.
  rewrite Forall_forall in Fa, Fb. destruct (Fa l Hl) as [_ Hsl], (Fb m Hm) as [_ Hsm]. enough (l = m) as -> by done.
  apply (StronglySorted_unique_strong lt); [intros; lia|done|done|]. apply NoDup_Permutation; [now apply sorted_nodup..|].
  intros y. now rewrite (c_conn _ _ Ha l x y Hl Hxl), (c_conn _ _ Hb m x y Hm Hxm).
Qed.

Lemma components_unique records gs gs' : components records gs -> components records gs' -> gs = gs'.
Proof.
  assert (forall a, components records a -> NoDup a) as Hnd.
  { intros a Ha. apply NoDup_alt. intros i j l Hi Hj.
    destruct (components_head _ _ _ Ha (list_elem_of_lookup_2 _ _ _ Hi)) as (x & _ & Hx).
    exact (join_inj a i j l l x (components_nodup _ _ Ha) Hi Hj Hx Hx). }
  intros H H'. apply (StronglySorted_unique_strong first_le); [|apply (c_order _ _ H)|apply (c_order _ _ H')|].
  - intros l m Hl Hm H1 H2. apply (components_sub _ _ _ _ H' H) in Hm.
    destruct (components_head _ _ _ H Hl) as (x & Ex & Hx), (components_head _ _ _ H Hm) as (y & Ey & Hy).
    unfold first_le in H1, H2. rewrite Ex, Ey in H1, H2. cbn in H1, H2. assert (x = y) as -> by lia.
    apply list_elem_of_lookup in Hl as (i & Hi), Hm as (j & Hj).
    assert (i = j) as -> by exact (join_inj gs i j l m y (components_nodup _ _ H) Hi Hj Hx Hy). congruence.
  - apply NoDup_Permutation; [auto..|]. intros l. split; eapply components_sub; eauto.
Qed.

(** ** Addresses *)

Lemma assign_members_spec s a g ids o :
  NoDup g ->
  let ids' := fold_left (fun ids '(slot, orig) => <[orig := mkId s slot]> ids) (zip (seq a (length g)) g) ids in
  length ids' = length ids /\ (o ∉ g -> ids' !! o = ids !! o) /\
  (forall k, g !! k = Some o -> o < length ids -> ids' !! o = Some (mkId s (a + k))).
Proof.
  cbn. revert a ids. induction g as [|x g IH]; intros a ids Hnd; [done|]. apply NoDup_cons in Hnd as [Hx Hnd].
  cbn [length seq zip_with fold_left]. destruct (IH (S a) (<[x := mkId s a]> ids) Hnd) as (Hl & Hout & Hin).
  rewrite length_insert in Hl, Hin. split; [done|]. split.
  - intros [Hne Ho]%not_elem_of_cons. rewrite Hout, list_lookup_insert_ne; done.
  - intros [|k] Hk Ho; cbn in Hk.
    + injection Hk as ->. rewrite Hout, Nat.add_0_r by done. now apply list_lookup_insert_eq.
    + rewrite (Hin k) by done. do 2 f_equal. lia.
Qed.

Lemma assign_groups_spec a gs ids o :
  NoDup (mjoin gs) ->
  let ids' := fold_left assign_group (zip (seq a (length gs)) gs) ids in
  length ids' = length ids /\ (o ∉ mjoin gs -> ids' !! o = ids !! o) /\
  (forall s g k, gs !! s = Some g -> g !! k = Some o -> o < length ids -> ids' !! o = Some (mkId (a + s) k)).
Proof.
  cbn. revert a ids. induction gs as [|g gs IH]; intros a ids Hnd; [done|]. cbn in Hnd. apply NoDup_app in Hnd as (Hg & Hd & Hnd).
  cbn [length seq zip_with fold_left]. destruct (assign_members_spec a 0 g ids o Hg) as (Hl1 & Hout1 & Hin1).
  destruct (IH (S a) (assign_group ids (a, g)) Hnd) as (Hl & Hout & Hin). unfold assign_group in *. cbn [fst snd] in *. fold (enumerate g) in *.
  split; [congruence|]. split.
  - cbn. intros [Ho1 Ho2]%not_elem_of_app. rewrite Hout, Hout1; done.
  - intros [|s] g' k Hs Hk Ho; cbn in Hs.
    + injection Hs as <-. rewrite Hout, Nat.add_0_r; [now apply Hin1|]. apply Hd. eapply list_elem_of_lookup_2; eauto.
    + rewrite (Hin s g' k) by (try congruence; done). do 2 f_equal. lia.
Qed.

(** Where a record is found. *)
Lemma assign_ids_spec records gs :
  components records gs -> let ids := assign_ids (length records) gs in
  length ids = length records /\
  forall o id, ids !! o = Some id <-> exists g, gs !! rset id = Some g /\ g !! slot id = Some o.
Proof.
  intros Hc ids. pose proof (fun o => assign_groups_spec 0 gs (replicate (length records) (mkId 0 0)) o (components_nodup _ _ Hc)) as H.
  fold (enumerate gs) in H. fold (assign_ids (length records) gs) in H. fold ids in H.
  assert (length ids = length records) as Hl by (rewrite (proj1 (H 0)); apply length_replicate). split; [done|].
  assert (forall o s g k, gs !! s = Some g -> g !! k = Some o -> ids !! o = Some (mkId s k)) as Hin.
  { intros o s g k Hs Hk. destruct (H o) as (_ & _ & Hin). apply (Hin s g k); [done|done|]. rewrite length_replicate.
    assert (o ∈ seq 0 (length records)) as Ho; [|apply elem_of_seq in Ho; lia]. rewrite <- (c_cover _ _ Hc).
    apply list_elem_of_join. exists g. split; eapply list_elem_of_lookup_2; eauto. }
  intros o id. split.
  - intros Ho. assert (o ∈ mjoin gs) as Hj. { rewrite (c_cover _ _ Hc). apply elem_of_seq. apply lookup_lt_Some in Ho. lia. }
    apply list_elem_of_join in Hj as (g & Hog & Hg). apply list_elem_of_lookup in Hg as (s & Hs), Hog as (k & Hk).
    rewrite (Hin o s g k Hs Hk) in Ho. injection Ho as <-. eauto.
  - intros (g & Hg & Hk). destruct id as [s k]. now apply Hin with g.
Qed.

(** ** Moving the records *)

Lemma Forall2_impl_in {A B} (P Q : A -> B -> Prop) l k :
  Forall2 P l k -> (forall x y, x ∈ l -> y ∈ k -> P x y -> Q x y) -> Forall2 Q l k.
Proof. induction 1; intros H'; constructor; [apply H'; [left|left|done]|]. set_solver. Qed.

Definition moved (names : gmap bytes RecordId) (slots : list (option Rec)) (o : nat) (m : Rec) : Prop :=
  exists r, slots !! o = Some (Some r) /\ m = (resolve_links names r).1.

Lemma take_members_spec names g slots :
  NoDup g -> (forall o, o ∈ g -> exists r, slots !! o = Some (Some r)) ->
  exists slots' ms us, take_members names slots g = Ok (slots', ms, us) /\
    Forall2 (moved names slots) g ms /\ forall o, o ∉ g -> slots' !! o = slots !! o.
Proof.
  revert slots. induction g as [|x g IH]; intros slots Hnd Hs; [do 3 eexists; split; [done|]; split; [constructor|done]|].
  apply NoDup_cons in Hnd as [Hx Hnd]. cbn [take_members]. destruct (Hs x) as (r & Er); [left|]. rewrite Er.
  destruct (resolve_links names r) as [m u] eqn:Em. destruct (IH (<[x := None]> slots) Hnd) as (slots' & ms & us & -> & Hms & Hout).
  { intros o Ho. rewrite list_lookup_insert_ne by (intros ->; done). apply Hs. now right. }
  cbn [bind_outcome]. do 3 eexists. split; [done|]. split.
  - constructor; [exists r; now rewrite Em|]. eapply Forall2_impl_in; [exact Hms|].
    intros o m' Ho _ (r' & Hr' & ->). exists r'. split; [|done]. now rewrite list_lookup_insert_ne in Hr' by (intros ->; done).
  - intros o [Hne Ho]%not_elem_of_cons. rewrite Hout by done. now apply list_lookup_insert_ne.
Qed.

Lemma take_sets_spec names gs slots :
  NoDup (mjoin gs) -> (forall o, o ∈ mjoin gs -> exists r, slots !! o = Some (Some r)) ->
  exists sets us, take_sets names slots gs = Ok (sets, us) /\ Forall2 (Forall2 (moved names slots)) gs sets.
Proof.
  revert slots. induction gs as [|g gs IH]; intros slots Hnd Hs; [do 2 eexists; split; [done|constructor]|].
  cbn in Hnd, Hs. apply NoDup_app in Hnd as (Hg & Hd & Hnd). cbn [take_sets].
  destruct (take_members_spec names g slots Hg) as (slots' & ms & us & -> & Hms & Hout); [set_solver|]. cbn [bind_outcome].
  assert (forall o, o ∈ mjoin gs -> slots' !! o = slots !! o) as Hsame by (intros o Ho; apply Hout; intros H; now apply (Hd o)).
  destruct (IH slots' Hnd) as (sets & us' & -> & Hsets); [intros o Ho; rewrite Hsame by done; set_solver|].
  cbn [bind_outcome]. do 2 eexists. split; [done|]. constructor; [done|]. eapply Forall2_impl_in; [exact Hsets|].
  intros g' ms' Hg' _ H. eapply Forall2_impl_in; [exact H|]. intros o m Ho _ (r & Hr & ->). exists r. split; [|done].
  rewrite <- Hsame; [done|]. apply list_elem_of_join. eauto.
Qed.

(** ** The built database *)

(** A link as the parser leaves it: by name, constants in range. *)
Definition plain (l : Link) : Prop :=
  match l with Constant v => value_ok v | Db (Id _) _ _ _ => False | _ => True end.

Definition source_ok (r : Rec) : Prop := rec_ok r /\ Forall plain (links_of r).

(** A link that stays in set [s]. *)
Definition local (s : nat) (l : Link) : Prop := match l with Db (Id t) _ _ _ => rset t = s | _ => True end.

Lemma resolve_links_links names r : links_of (resolve_links names r).1 = (fun l => (fix_link names l).1) <$> links_of r.
Proof.
  unfold resolve_links, links_of. cbn [fmap list_fmap].
  destruct (fix_link names (inp r)), (fix_link names (out r)), (fix_link names (dol r)), (fix_link names (flnk (common r))),
    (fix_link names (sdis (common r))). done.
Qed.

Lemma resolve_links_ok names r : rec_ok r -> rec_ok (resolve_links names r).1.
Proof.
  unfold resolve_links.
  destruct (fix_link names (inp r)), (fix_link names (out r)), (fix_link names (dol r)), (fix_link names (flnk (common r))),
    (fix_link names (sdis (common r))). done.
Qed.

Section Built.
Context (records : list Rec) (gs : list (list nat)).
Hypothesis sources : Forall source_ok records.
Hypothesis comps : components records gs.

Abbreviation ids := (assign_ids (length records) gs).
Abbreviation names := (name_ids ids records).

Lemma name_ids_spec n id : names !! n = Some id <-> exists j, ids !! j = Some id /\ named records n j.
Proof. unfold name_ids. apply fill_zip. apply (assign_ids_spec records gs comps). Qed.

(** A link of record [o] in set [s] resolves into the set. *)
Lemma fixed_local o r l s g :
  records !! o = Some r -> l ∈ links_of r -> gs !! s = Some g -> o ∈ g ->
  link_ok (length g) (fix_link names l).1 /\ local s (fix_link names l).1.
Proof.
  intros Hr Hl Hs Ho. assert (plain l) as Hp.
  { rewrite Forall_forall in sources. destruct (sources r (list_elem_of_lookup_2 _ _ _ Hr)) as [_ Hp]. rewrite Forall_forall in Hp. auto. }
  destruct l as [v|[n|t] f pp ms|n]; cbn in Hp |- *; try done. destruct (names !! n) as [id|] eqn:En; [|done].
  apply name_ids_spec in En as (j & Hj & Hn). destruct (assign_ids_spec records gs comps) as [_ Hids].
  apply Hids in Hj as (g' & Hg' & Hk). assert (j ∈ g) as Hjg.
  { apply (c_conn _ _ comps g o j); [now apply list_elem_of_lookup_2 in Hs|done|]. apply rtc_once. left.
    exists r, n, f, pp, ms. split; [done|]. split; [|done]. exact Hl. }
  assert (rset id = s) as <-
    by exact (join_inj gs (rset id) s g' g j (components_nodup _ _ comps) Hg' Hs (list_elem_of_lookup_2 _ _ _ Hk) Hjg).
  assert (g' = g) as -> by congruence. cbn. split; [|done]. split; [|done]. now apply lookup_lt_Some in Hk.
Qed.

Lemma built_set s g set :
  gs !! s = Some g -> Forall2 (moved names (Some <$> records)) g set ->
  set_ok set /\ Forall (fun r => Forall (local s) (links_of r)) set.
Proof.
  intros Hs Hm. assert (forall m, m ∈ set -> exists o r, o ∈ g /\ records !! o = Some r /\ m = (resolve_links names r).1) as Hset.
  { intros m Hin. apply list_elem_of_lookup in Hin as (k & Hk). destruct (Forall2_lookup_r _ _ _ _ _ Hm Hk) as (o & Ho & r & Hr & ->).
    exists o, r. split; [now apply list_elem_of_lookup_2 in Ho|]. split; [|done]. rewrite list_lookup_fmap in Hr.
    destruct (records !! o); [|done]. cbn in Hr. congruence. }
  apply Forall2_length in Hm as Hlen.
  assert (Forall (fun m => (rec_ok m /\ Forall (link_ok (length set)) (links_of m)) /\ Forall (local s) (links_of m)) set) as H.
  { apply Forall_forall. intros m Hin. destruct (Hset m Hin) as (o & r & Ho & Hr & ->). split; [split|].
    - apply resolve_links_ok. rewrite Forall_forall in sources. apply (sources r). now apply list_elem_of_lookup_2 in Hr.
    - rewrite resolve_links_links. apply Forall_fmap, Forall_forall. intros l Hl. cbn. rewrite <- Hlen. now apply (fixed_local o r l s g).
    - rewrite resolve_links_links. apply Forall_fmap, Forall_forall. intros l Hl. cbn. now apply (fixed_local o r l s g). }
  rewrite !Forall_and in H. destruct H as [[H1 H2] H3]. split; [now split|done].
Qed.

End Built.

(** A database whose links stay in their sets. *)
Definition db_ok (sets : list (list Rec)) : Prop :=
  forall s set, sets !! s = Some set -> set_ok set /\ Forall (fun r => Forall (local s) (links_of r)) set.

Section Sound.
Context (into_values : gmap nat (list nat) -> list (list nat)).
Hypothesis values_perm : forall m, into_values m ≡ₚ (map_to_list m).*2.

Lemma build_spec records :
  Forall source_ok records ->
  exists gs db, components records gs /\ build into_values records = Ok db /\ db_ok (lock_sets db) /\
    order db = assign_ids (length records) gs /\ by_name db = name_ids (order db) records /\
    Forall2 (Forall2 (moved (by_name db) (Some <$> records))) gs (lock_sets db).
Proof.
  intros Hs. destruct (partition_spec into_values values_perm records) as (gs & E & Hc). unfold build. rewrite E. cbn [bind_outcome].
  destruct (take_sets_spec (name_ids (assign_ids (length records) gs) records) gs (Some <$> records)) as (sets & us & -> & Hsets).
  - now apply components_nodup with records.
  - intros o Ho. rewrite (c_cover _ _ Hc) in Ho. apply elem_of_seq in Ho. destruct (lookup_lt_is_Some_2 records o) as [r Hr]; [lia|].
    exists r. now rewrite list_lookup_fmap, Hr.
  - cbn [bind_outcome]. exists gs. eexists. split; [done|]. split; [done|]. cbn. split; [|done]. intros s set Hset.
    destruct (Forall2_lookup_r _ _ _ _ _ Hsets Hset) as (g & Hg & Hm). now apply (built_set records gs Hs Hc s g).
Qed.

Lemma built_at records gs db i r :
  components records gs -> order db = assign_ids (length records) gs ->
  Forall2 (Forall2 (moved (by_name db) (Some <$> records))) gs (lock_sets db) ->
  records !! i = Some r ->
  exists id, order db !! i = Some id /\ at_id db id = Some (resolve_links (by_name db) r).1.
Proof.
  intros Hc Ho Hm Hr. destruct (assign_ids_spec records gs Hc) as [Hl Hids]. rewrite <- Ho in Hl, Hids.
  destruct (lookup_lt_is_Some_2 (order db) i) as [id Hid]; [apply lookup_lt_Some in Hr; lia|].
  exists id. split; [done|]. apply Hids in Hid as (g & Hg & Hk). destruct (Forall2_lookup_l _ _ _ _ _ Hm Hg) as (set & Hset & Hms).
  destruct (Forall2_lookup_l _ _ _ _ _ Hms Hk) as (m & Hmk & r' & Hr' & ->). unfold at_id. rewrite Hset. cbn. rewrite Hmk.
  rewrite list_lookup_fmap, Hr in Hr'. cbn in Hr'. congruence.
Qed.
End Sound.

(** ** Claims *)

(** C22: the partitioner computes connected components.  For every record list the
    union-find terminates without a panic, and its groups are the classes of
    records connected by db links, each ascending, ordered by their first member;
    the result does not depend on the order in which the hash map hands out its
    values. *)
Theorem partition_components records :
  exists gs, components records gs /\
    forall into_values, (forall m, into_values m ≡ₚ (map_to_list m).*2) -> partition into_values records = Ok gs.
Proof.
  destruct (partition_spec (fun m => (map_to_list m).*2) ltac:(done) records) as (gs & _ & Hc). exists gs. split; [done|].
  intros into_values Hp. destruct (partition_spec into_values Hp records) as (gs' & E & Hc'). rewrite E. f_equal.
  eapply components_unique; eauto.
Qed.

(** The record database is sound.  [build] succeeds on records with links by
    name; every record is found at its address in definition order with its links
    resolved, a name leads to the last record called so, two records share a lock
    set exactly when db links connect them, and every set is as the engine needs
    it, its links leading to slots of the set itself. *)
Theorem build_sound into_values records :
  (forall m, into_values m ≡ₚ (map_to_list m).*2) -> Forall source_ok records ->
  exists db, build into_values records = Ok db /\ db_ok (lock_sets db) /\ length (order db) = length records /\
    (forall i r, records !! i = Some r ->
       exists id, order db !! i = Some id /\ at_id db id = Some (resolve_links (by_name db) r).1) /\
    (forall n id, lookup_name db n = Some id <-> exists j, order db !! j = Some id /\ named records n j) /\
    (forall i j a b, order db !! i = Some a -> order db !! j = Some b -> rset a = rset b <-> rtsc (linked records) i j).
Proof.
  intros Hv Hs. destruct (build_spec into_values Hv records Hs) as (gs & db & Hc & E & Hok & Ho & Hn & Hm).
  destruct (assign_ids_spec records gs Hc) as [Hl Hids]. rewrite <- Ho in Hl, Hids.
  exists db. split; [done|]. split; [done|]. split; [done|]. split; [intros i r; now apply built_at with gs|]. split.
  - intros n id. unfold lookup_name. rewrite Hn, Ho. apply (name_ids_spec records gs Hc).
  - intros i j a b Ha Hb. apply Hids in Ha as (g & Hg & Hk), Hb as (g' & Hg' & Hk').
    assert (i ∈ g) as Hi by now apply list_elem_of_lookup_2 in Hk. assert (j ∈ g') as Hj by now apply list_elem_of_lookup_2 in Hk'.
    rewrite <- (c_conn _ _ Hc g i j) by (try now apply list_elem_of_lookup_2 in Hg; done). split.
    + intros Er. rewrite Er in Hg. congruence.
    + intros Hj'. exact (join_inj gs _ _ g g' j (components_nodup _ _ Hc) Hg Hg' Hj' Hj).
Qed.

(** ** Witnesses *)

(** Five records: A and B point at each other, C reads E, D is alone; E is the
    forward link of nothing. *)
Definition by_name_link (n : bytes) : Link := Db (Name n) FVal true false.
Definition sample_records : list Rec :=
  [sample_rec (str "A") Ai (Double 0) (by_name_link (str "B")) no_link no_link;
   sample_rec (str "C") Ai (Double 0) (by_name_link (str "E")) no_link no_link;
   sample_rec (str "B") LongIn (Long 7) no_link no_link (by_name_link (str "A"));
   sample_rec (str "D") Bi (Enum 1) no_link no_link (by_name_link (str "missing"));
   sample_rec (str "E") Ao (Double 0) no_link no_link no_link].
Definition values_of (m : gmap nat (list nat)) : list (list nat) := (map_to_list m).*2.
Definition values_reversed (m : gmap nat (list nat)) : list (list nat) := reverse (map_to_list m).*2.

Example sample_partition :
  partition values_of sample_records = Ok [[0; 2]; [1; 4]; [3]] /\
  partition values_reversed sample_records = Ok [[0; 2]; [1; 4]; [3]].
Proof. vm_compute. done. Qed.

Example sample_build :
  match build values_of sample_records with
  | Ok db => (order db, unresolved db, lookup_name db (str "B"))
  | _ => ([], [], None)
  end = ([mkId 0 0; mkId 1 0; mkId 0 1; mkId 2 0; mkId 1 1], [str "missing"], Some (mkId 0 1)).
Proof. vm_compute. done. Qed.

Lemma partition_components_witness :
  exists gs, components sample_records gs /\ partition values_reversed sample_records = Ok gs.
Proof.
  destruct (partition_components sample_records) as (gs & Hc & Hp). exists gs. split; [exact Hc|].
  apply Hp. intros m. unfold values_reversed. apply reverse_Permutation.
Defined.

Lemma build_sound_witness :
  exists db, build values_of sample_records = Ok db /\ db_ok (lock_sets db).
Proof.
  destruct (build_sound values_of sample_records) as (db & E & Hok & _).
  - intros m. reflexivity.
  - repeat constructor; cbn; try done; try lia; unfold in_i32, F64.i32_min, F64.i32_max; lia.
  - exists db. split; [exact E|exact Hok].
Defined.

End LockSet.
