(* ===== verification/ScanList.v ===== *)
(** * A scan list

    Models [spvirit-ioc/src/scan/list.rs]: the records of one scan list, kept
    sorted by priority and insertion, with the index that spares the searches.
    The searches of the standard library are bisections here too.  The list
    refines the plain specification: members in the order they were first added,
    each with its priority, processed by priority. *)

From stdpp Require Import gmap sorting.
From S2P Require Import Prelude Utf8 Wire PvdTypes NtTypes F64 Ioc IocSafe UnionFind LockSet.

Local Open Scope Z_scope.

#[export] Instance record_id_eq_dec : EqDecision Ioc.RecordId.
Proof. solve_decision. Defined.
#[export] Instance record_id_countable : Countable Ioc.RecordId.
Proof.
  apply (inj_countable' (fun id => (Ioc.rset id, Ioc.slot id)) (fun p => Ioc.mkId p.1 p.2)). now intros [].
Defined.

Module ScanList.
Import Ioc.

Abbreviation Key := (Z * Z)%type.
Abbreviation Entry := (Z * Z * RecordId)%type.

Record ScanList := mkList { members : list Entry; index : gmap RecordId Key; next_seq : Z }.

Definition new : ScanList := mkList [] ∅ 0.

(** [(a.0, a.1) < key]. *)
Definition key_ltb (a b : Key) : bool := (a.1 <? b.1) || ((a.1 =? b.1) && (a.2 <? b.2)).

(** [partition_point]: the first position at which [p] fails, by bisection of
    [lo..hi]. *)
Fixpoint bisect {A} (fuel : nat) (p : A -> bool) (l : list A) (lo hi : nat) : nat :=
  match fuel with
  | O => lo
  | S fuel =>
    if (lo <? hi)%nat then
      let mid := (lo + (hi - lo) / 2)%nat in
      match l !! mid with
      | Some x => if p x then bisect fuel p l (S mid) hi else bisect fuel p l lo mid
      | None => lo
      end
    else lo
  end.

Definition partition_point {A} (p : A -> bool) (l : list A) : nat := bisect (length l) p l 0 (length l).

Definition slot_for (s : ScanList) (key : Key) : nat := partition_point (fun e : Entry => key_ltb e.1 key) (members s).

Definition locate (s : ScanList) (key : Key) : option nat :=
  let at_ := slot_for s key in
  match members s !! at_ with
  | Some e => if bool_decide (e.1 = key) then Some at_ else None
  | None => None
  end.

(** [Vec::insert] and [Vec::remove] within the bounds. *)
Definition vec_insert {A} (at_ : nat) (x : A) (l : list A) : list A := take at_ l ++ x :: drop at_ l.
Definition vec_remove {A} (pos : nat) (l : list A) : list A := take pos l ++ drop (S pos) l.

Definition unlink (s : ScanList) (key : Key) : ScanList :=
  match locate s key with
  | Some pos => mkList (vec_remove pos (members s)) (index s) (next_seq s)
  | None => s
  end.

Definition link (s : ScanList) (id : RecordId) (key : Key) : ScanList :=
  mkList (vec_insert (slot_for s key) (key, id) (members s)) (<[id := key]> (index s)) (next_seq s).

Definition insert (s : ScanList) (id : RecordId) (phas : Z) : ScanList :=
  match index s !! id with
  | Some (old_phas, seq) =>
    if old_phas =? phas then s else link (unlink s (old_phas, seq)) id (phas, seq)
  | None =>
    let seq := next_seq s in
    link (mkList (members s) (index s) ((next_seq s + 1) mod 2 ^ 64)) id (phas, seq)
  end.

Definition remove (s : ScanList) (id : RecordId) : ScanList * bool :=
  match index s !! id with
  | None => (s, false)
  | Some key => (unlink (mkList (members s) (delete id (index s)) (next_seq s)) key, true)
  end.

Definition snapshot (s : ScanList) : list RecordId := (members s).*2.
Definition is_empty (s : ScanList) : bool := match members s with [] => true | _ => false end.

(** ** Searching *)

Lemma bisect_spec {A} (p : A -> bool) l k fuel lo hi :
  (forall i x, l !! i = Some x -> p x = bool_decide (i < k)%nat) ->
  (lo <= k <= hi)%nat -> (hi <= length l)%nat -> (hi - lo <= fuel)%nat -> bisect fuel p l lo hi = k.
Proof.
  intros Hp. revert lo hi. induction fuel as [|fuel IH]; intros lo hi Hk Hhi Hf; cbn [bisect]; [lia|].
  destruct (Nat.ltb_spec lo hi) as [Hlt|Hge]; [|lia].
  pose proof (Nat.div_lt_upper_bound (hi - lo)%nat 2 (hi - lo)%nat ltac:(lia) ltac:(lia)) as Hdiv.
  destruct (lookup_lt_is_Some_2 l (lo + (hi - lo) / 2)%nat) as [x Hx]; [lia|]. rewrite Hx, (Hp _ _ Hx).
  case_bool_decide; apply IH; lia.
Qed.

Lemma partition_point_spec {A} (p : A -> bool) l k :
  (k <= length l)%nat -> (forall i x, l !! i = Some x -> p x = bool_decide (i < k)%nat) -> partition_point p l = k.
Proof. intros Hk Hp. apply bisect_spec; [done|lia|lia|lia]. Qed.

Lemma key_ltb_spec a b : key_ltb a b = true <-> a.1 < b.1 \/ a.1 = b.1 /\ a.2 < b.2.
Proof. unfold key_ltb. rewrite orb_true_iff, andb_true_iff, !Z.ltb_lt, Z.eqb_eq. done. Qed.

(** Keys in strict order. *)
Definition entry_lt (a b : Entry) : Prop := key_ltb a.1 b.1 = true.
Definition ordered : list Entry -> Prop := StronglySorted entry_lt.

(** Where a key goes, or is, in an ordered list. *)
Lemma slot_split l key :
  ordered l ->
  exists l1 l2, l = l1 ++ l2 /\ partition_point (fun e : Entry => key_ltb e.1 key) l = length l1 /\
    Forall (fun e => key_ltb e.1 key = true) l1 /\ Forall (fun e => key_ltb e.1 key = false) l2.
Proof.
  intros Hs.
  assert (exists l1 l2, l = l1 ++ l2 /\ Forall (fun e => key_ltb e.1 key = true) l1 /\ Forall (fun e => key_ltb e.1 key = false) l2)
    as (l1 & l2 & -> & H1 & H2).
  { induction Hs as [|e l Hl (l1 & l2 & -> & H1 & H2) He]; [exists [], []; auto|]. destruct (key_ltb e.1 key) eqn:E.
    - exists (e :: l1), l2. auto.
    - exists [], (e :: l1 ++ l2). split; [done|]. split; [done|]. constructor; [done|]. eapply Forall_impl; [exact He|].
      intros e' Hlt. unfold entry_lt in Hlt. apply not_true_is_false. intros Hk. apply not_true_iff_false in E. apply E.
      apply key_ltb_spec in Hk, Hlt. apply key_ltb_spec. lia. }
  exists l1, l2. split; [done|]. split; [|done]. apply partition_point_spec; [rewrite length_app; lia|].
  intros i e Hi. rewrite Forall_lookup in H1, H2. apply lookup_app_Some in Hi as [Hi|[Hge Hi]].
  - rewrite (H1 _ _ Hi). rewrite bool_decide_true; [done|]. now apply lookup_lt_Some in Hi.
  - rewrite (H2 _ _ Hi). rewrite bool_decide_false; [done|lia].
Qed.

Lemma link_members s id key :
  ordered (members s) -> (forall e, e ∈ members s -> e.1 <> key) ->
  ordered (members (link s id key)) /\ members (link s id key) ≡ₚ (key, id) :: members s.
Proof.
  intros Hs Hne. cbn. unfold slot_for. destruct (slot_split (members s) key Hs) as (l1 & l2 & El & -> & H1 & H2).
  unfold vec_insert. rewrite El in Hs, Hne |- *. rewrite take_app_length, drop_app_length. split; [|now rewrite <- Permutation_middle].
  apply StronglySorted_app in Hs as (H12 & Hs1 & Hs2). apply StronglySorted_app_2; [|done|].
  - intros a b Ha [->|Hb]%elem_of_cons; [|now apply H12]. rewrite Forall_forall in H1. now apply H1.
  - constructor; [done|]. apply Forall_forall. intros e He. rewrite Forall_forall in H2. specialize (H2 e He).
    unfold entry_lt. cbn. rewrite key_ltb_spec. apply not_true_iff_false in H2. rewrite key_ltb_spec in H2.
    assert (e.1 <> key) as Hk by (apply Hne; set_solver). destruct e as [[a b] i], key as [c d]. cbn in *.
    assert (a <> c \/ b <> d) by (destruct (decide (a = c)); [right; congruence|now left]). lia.
Qed.

Lemma ordered_key_inj l a b : ordered l -> a ∈ l -> b ∈ l -> a.1 = b.1 -> a = b.
Proof.
  induction 1 as [|e l Hl IH He]; intros Ha Hb E; [now apply not_elem_of_nil in Ha|]. rewrite Forall_forall in He.
  assert (forall x, x ∈ l -> x.1 <> e.1) as Hx.
  { intros x Hx Ex. specialize (He x Hx). unfold entry_lt in He. rewrite key_ltb_spec, Ex in He. lia. }
  apply elem_of_cons in Ha as [->|Ha], Hb as [->|Hb]; [done|exfalso; eapply Hx; eauto..|auto].
Qed.

Lemma unlink_members s id key :
  ordered (members s) -> (key, id) ∈ members s ->
  ordered (members (unlink s key)) /\ members s ≡ₚ (key, id) :: members (unlink s key) /\
  index (unlink s key) = index s /\ next_seq (unlink s key) = next_seq s.
Proof.
  intros Hs Hin. unfold unlink, locate, slot_for. destruct (slot_split (members s) key Hs) as (l1 & l2 & El & -> & H1 & H2).
  rewrite El in Hs, Hin |- *. assert (exists l3, l2 = (key, id) :: l3) as (l3 & ->).
  { rewrite Forall_forall in H1, H2. apply elem_of_app in Hin as [Hin|Hin].
    - specialize (H1 _ Hin). cbn in H1. rewrite key_ltb_spec in H1. lia.
    - destruct l2 as [|e l3]; [now apply not_elem_of_nil in Hin|]. exists l3. f_equal.
      apply elem_of_cons in Hin as [<-|Hin]; [done|]. exfalso. apply StronglySorted_app in Hs as (_ & _ & Hs2).
      apply StronglySorted_cons in Hs2 as [He _]. rewrite Forall_forall in He. specialize (He _ Hin). unfold entry_lt in He. cbn in He.
      rewrite (H2 e) in He by left. done. }
  rewrite lookup_app_r, Nat.sub_diag by lia. cbn. rewrite bool_decide_true by done. cbn [members index next_seq].
  unfold vec_remove. rewrite take_app_length, drop_app_ge by lia. replace (S (length l1) - length l1)%nat with 1%nat by lia. cbn [drop].
  split; [|split; [now rewrite <- Permutation_middle|done]].
  apply StronglySorted_app in Hs as (H12 & Hs1 & Hs2). apply StronglySorted_cons in Hs2 as [_ Hs3].
  apply StronglySorted_app_2; [|done|done]. intros a b Ha Hb. apply H12; [done|now right].
Qed.

(** ** The specification *)

(** Members with their priorities, in the order they were first added. *)
Abbreviation Spec := (list (RecordId * Z)).

Definition spec_insert (a : Spec) (id : RecordId) (phas : Z) : Spec :=
  if bool_decide (id ∈ a.*1) then (fun m : RecordId * Z => if decide (m.1 = id) then (id, phas) else m) <$> a
  else a ++ [(id, phas)].

Definition spec_remove (a : Spec) (id : RecordId) : Spec := filter (fun m => m.1 <> id) a.

(** Processing order: by priority, then by position, as in the initial sweep. *)
Definition spec_order (a : Spec) : list RecordId :=
  (merge_sort LockSet.sweep_le (imap (fun i m => (m.2, i, m.1)) a)).*2.

(** [seqs] are the insertion numbers of the members. *)
Record refines_by (seqs : list Z) (s : ScanList) (a : Spec) : Prop := {
  rf_ordered : ordered (members s);
  rf_members : members s ≡ₚ zip_with (fun m q => (m.2, q, m.1)) a seqs;
  rf_length : length seqs = length a;
  rf_seqs : StronglySorted Z.lt seqs;
  rf_next : 0 <= next_seq s;
  rf_bound : Forall (fun q => 0 <= q < next_seq s) seqs;
  rf_nodup : NoDup a.*1;
  rf_index : forall id key, index s !! id = Some key <-> (key, id) ∈ members s }.

Definition refines (s : ScanList) (a : Spec) : Prop := exists seqs, refines_by seqs s a.

Lemma new_refines : refines new [].
Proof.
  exists []. split; cbn; try done; try constructor; [set_solver|set_solver].
Qed.

Lemma entry_of seqs s a id ph q :
  refines_by seqs s a -> (ph, q, id) ∈ members s <-> exists i, a !! i = Some (id, ph) /\ seqs !! i = Some q.
Proof.
  intros R. rewrite (rf_members _ _ _ R). rewrite list_elem_of_lookup. split.
  - intros (i & ([id' ph'] & q' & E & Ha & Hq)%lookup_zip_with_Some). cbn in E. injection E as -> -> ->. eauto.
  - intros (i & Ha & Hq). exists i. apply lookup_zip_with_Some. now exists (id, ph), q.
Qed.

Lemma index_none seqs s a id : refines_by seqs s a -> index s !! id = None <-> id ∉ a.*1.
Proof.
  intros R. split.
  - intros E Hid. apply list_elem_of_fmap in Hid as ([i ph] & -> & Hin). apply list_elem_of_lookup in Hin as (k & Hk).
    destruct (lookup_lt_is_Some_2 seqs k) as [q Hq]; [rewrite (rf_length _ _ _ R); now apply lookup_lt_Some in Hk|].
    assert ((ph, q, i) ∈ members s) as Hin by (eapply entry_of; eauto). apply (rf_index _ _ _ R) in Hin. cbn in E. congruence.
  - intros Hni. destruct (index s !! id) as [[ph q]|] eqn:E; [|done]. apply (rf_index _ _ _ R), (entry_of _ _ _ _ _ _ R) in E as (i & Ha & _).
    destruct Hni. apply list_elem_of_fmap. exists (id, ph). split; [done|]. now apply list_elem_of_lookup_2 in Ha.
Qed.

(** The position of an insertion number. *)
Definition rank (seqs : list Z) (q : Z) : nat := length (filter (fun x => x < q) seqs).

Lemma rank_mono seqs q q' : q <= q' -> (rank seqs q <= rank seqs q')%nat.
Proof.
  intros H. unfold rank. induction seqs as [|x l IH]; [done|]. rewrite !filter_cons. repeat destruct (decide _); cbn; lia.
Qed.

Lemma rank_lookup seqs i q : StronglySorted Z.lt seqs -> seqs !! i = Some q -> rank seqs q = i.
Proof.
  unfold rank. revert i. induction seqs as [|x l IH]; intros i Hs Hi; [done|]. apply StronglySorted_cons in Hs as [Hx Hs].
  rewrite Forall_forall in Hx. rewrite filter_cons. destruct i as [|i]; cbn in Hi.
  - injection Hi as ->. rewrite decide_False by lia. assert (filter (fun x => x < q) l = []) as ->; [|done].
    destruct (filter _ l) as [|y l'] eqn:E; [done|]. assert (y ∈ filter (fun x => x < q) l) as Hy by (rewrite E; left).
    apply list_elem_of_filter in Hy as [Hlt Hy]. specialize (Hx y Hy). lia.
  - rewrite decide_True by (apply Hx; now apply list_elem_of_lookup_2 in Hi). cbn. f_equal. now apply IH.
Qed.

Lemma sweep_le_total : Total LockSet.sweep_le.
Proof. intros [[a i] x] [[b j] y]. unfold LockSet.sweep_le. cbn. lia. Qed.
Lemma sweep_le_trans : Transitive LockSet.sweep_le.
Proof. intros [[a i] x] [[b j] y] [[c k] z]. unfold LockSet.sweep_le. cbn. lia. Qed.

Lemma refines_order s a : refines s a -> snapshot s = spec_order a.
Proof.
  intros [seqs R]. unfold snapshot, spec_order. set (g := fun e : Entry => (e.1.1, rank seqs e.1.2, e.2)).
  assert ((g <$> members s) ≡ₚ imap (fun i m => (m.2, i, m.1)) a) as Hp.
  { rewrite (rf_members _ _ _ R). apply reflexive_eq, list_eq. intros i. rewrite list_lookup_fmap, list_lookup_imap.
    destruct (a !! i) as [m|] eqn:Ha.
    - destruct (lookup_lt_is_Some_2 seqs i) as [q Hq]; [rewrite (rf_length _ _ _ R); now apply lookup_lt_Some in Ha|].
      rewrite (proj2 (lookup_zip_with_Some _ _ _ _ _) (ex_intro _ m (ex_intro _ q (conj eq_refl (conj Ha Hq))))). cbn. unfold g. cbn.
      now rewrite (rank_lookup seqs i q (rf_seqs _ _ _ R) Hq).
    - destruct (zip_with _ a seqs !! i) as [x|] eqn:E; [|done]. apply lookup_zip_with_Some in E as (? & ? & _ & Ha' & _). congruence. }
  assert (g <$> members s = merge_sort LockSet.sweep_le (imap (fun i m => (m.2, i, m.1)) a)) as <-.
  - apply (StronglySorted_unique_strong LockSet.sweep_le).
    + intros [[p i] x] [[q j] y] Hx Hy H1 H2. rewrite merge_sort_Permutation in Hy. rewrite Hp in Hx.
      unfold LockSet.sweep_le in H1, H2. cbn in H1, H2. assert (i = j) as -> by lia.
      apply elem_of_lookup_imap in Hx as (n & m & E1 & Hn), Hy as (n' & m' & E2 & Hn'). simplify_eq. done.
    + apply (StronglySorted_fmap g entry_lt); [|apply (rf_ordered _ _ _ R)]. intros [[p q] x] [[p' q'] y] H.
      unfold entry_lt in H. apply key_ltb_spec in H. cbn in H. unfold LockSet.sweep_le, g. cbn. pose proof (rank_mono seqs q q'). lia.
    + apply StronglySorted_merge_sort; [apply sweep_le_trans|apply sweep_le_total].
    + rewrite merge_sort_Permutation. exact Hp.
  - rewrite <- list_fmap_compose. done.
Qed.

(** ** The operations refine the specification *)

Lemma ordered_nodup l : ordered l -> NoDup l.
Proof.
  induction 1 as [|e l Hl IH He]; constructor; [|done]. intros Hin. rewrite Forall_forall in He. specialize (He e Hin).
  unfold entry_lt in He. rewrite key_ltb_spec in He. lia.
Qed.

(** The member [id] in both lists. *)
Lemma member_split seqs s a id ph q :
  refines_by seqs s a -> index s !! id = Some (ph, q) ->
  exists a1 a2 q1 q2, a = a1 ++ (id, ph) :: a2 /\ seqs = q1 ++ q :: q2 /\ length q1 = length a1 /\ length q2 = length a2 /\
    id ∉ a1.*1 /\ id ∉ a2.*1.
Proof.
  intros R E. apply (rf_index _ _ _ R), (entry_of _ _ _ _ _ _ R) in E as (i & Ha & Hq).
  exists (take i a), (drop (S i) a), (take i seqs), (drop (S i) seqs). pose proof (rf_length _ _ _ R) as Hl.
  pose proof (lookup_lt_Some _ _ _ Ha) as Hlt. pose proof (take_drop_middle _ _ _ Ha) as Ea. pose proof (rf_nodup _ _ _ R) as Hnd.
  rewrite <- Ea, fmap_app, fmap_cons in Hnd. apply NoDup_app in Hnd as (_ & H1 & [H2 _]%NoDup_cons). cbn in H1, H2.
  split; [done|]. split; [now rewrite (take_drop_middle _ _ _ Hq)|]. rewrite !length_take, !length_drop. split; [lia|]. split; [lia|].
  split; [|done]. intros Hin. apply (H1 id Hin). left.
Qed.

Lemma unlink_index seqs s a id key u :
  refines_by seqs s a -> members s ≡ₚ (key, id) :: u -> index s !! id = Some key ->
  forall id' key', (key', id') ∈ u <-> id' <> id /\ index s !! id' = Some key'.
Proof.
  intros R Hu E id' key'. pose proof (ordered_nodup _ (rf_ordered _ _ _ R)) as Hnd. rewrite Hu in Hnd. apply NoDup_cons in Hnd as [Hn _].
  rewrite (rf_index _ _ _ R), Hu, elem_of_cons. split; [|intros [Hne [H|H]]; congruence].
  intros Hin. split; [|auto]. intros ->. assert (index s !! id = Some key') as E'.
  { apply (rf_index _ _ _ R). rewrite Hu. now right. }
  congruence.
Qed.

Lemma fmap_update_absent (a : Spec) id phas :
  id ∉ a.*1 -> (fun m : RecordId * Z => if decide (m.1 = id) then (id, phas) else m) <$> a = a.
Proof.
  intros H. rewrite <- (list_fmap_id a) at 2. apply list_fmap_ext. intros i m Hm. cbn. rewrite decide_False; [done|]. intros <-.
  apply H. apply list_elem_of_fmap. exists m. split; [done|]. now apply list_elem_of_lookup_2 in Hm.
Qed.

Abbreviation entries := (zip_with (fun (m : RecordId * Z) q => (m.2, q, m.1))).

(** A member gets another priority. *)
Lemma relink_refines seqs s a1 a2 q1 q2 id old q phas :
  refines_by seqs s (a1 ++ (id, old) :: a2) -> seqs = q1 ++ q :: q2 -> length q1 = length a1 -> length q2 = length a2 ->
  index s !! id = Some (old, q) ->
  refines_by seqs (link (unlink s (old, q)) id (phas, q)) (a1 ++ (id, phas) :: a2).
Proof.
  intros R -> L1 L2 E. pose proof (proj1 (rf_index _ _ _ R _ _) E) as Hin.
  destruct (unlink_members s id (old, q) (rf_ordered _ _ _ R) Hin) as (Ho & Hu & Ei & En).
  pose proof (unlink_index _ _ _ _ _ _ R Hu E) as Hidx.
  assert (members (unlink s (old, q)) ≡ₚ entries a1 q1 ++ entries a2 q2) as Hz.
  { pose proof (rf_members _ _ _ R) as Hm. rewrite Hu, zip_with_app in Hm by done. cbn in Hm. rewrite <- Permutation_middle in Hm.
    now apply Permutation_cons_inv in Hm. }
  destruct (link_members (unlink s (old, q)) id (phas, q) Ho) as (Ho' & Hm').
  { intros [[ph' q'] id'] He [= -> ->]. rewrite Hz in He. apply elem_of_app in He.
    pose proof (rf_seqs _ _ _ R) as Hs. apply StronglySorted_app in Hs as (Hs1 & _ & [Hs2 _]%StronglySorted_cons).
    rewrite Forall_forall in Hs2. destruct He as [He|He]; apply list_elem_of_lookup in He as (i & (m & x & [= _ <- _] & _ & Hx)%lookup_zip_with_Some);
      apply list_elem_of_lookup_2 in Hx; [specialize (Hs1 q q Hx ltac:(left))|specialize (Hs2 q Hx)]; lia. }
  split; [exact Ho'| | |apply R| | | |].
  - rewrite Hm', Hz, zip_with_app by done. cbn. now rewrite <- Permutation_middle.
  - rewrite !length_app. cbn. lia.
  - cbn. rewrite En. apply R.
  - cbn. rewrite En. apply R.
  - pose proof (rf_nodup _ _ _ R) as Hnd. rewrite fmap_app, fmap_cons in *. exact Hnd.
  - intros id' key'. rewrite Hm'. cbn [link index]. rewrite elem_of_cons, Hidx, Ei. rewrite lookup_insert_Some. naive_solver.
Qed.

(** A new member. *)
Lemma append_refines seqs s a id phas :
  refines_by seqs s a -> id ∉ a.*1 -> index s !! id = None -> next_seq s + 1 < 2 ^ 64 ->
  refines_by (seqs ++ [next_seq s])
    (link (mkList (members s) (index s) ((next_seq s + 1) mod 2 ^ 64)) id (phas, next_seq s)) (a ++ [(id, phas)]).
Proof.
  intros R Hni E Hb. pose proof (rf_next _ _ _ R) as Hn. rewrite Z.mod_small by lia. pose proof (rf_bound _ _ _ R) as Hbound.
  rewrite Forall_forall in Hbound.
  destruct (link_members (mkList (members s) (index s) (next_seq s + 1)) id (phas, next_seq s) (rf_ordered _ _ _ R)) as (Ho & Hm).
  { intros [[ph q] id'] He [= -> ->]. apply (entry_of _ _ _ _ _ _ R) in He as (i & _ & Hq). apply list_elem_of_lookup_2 in Hq.
    specialize (Hbound _ Hq). lia. }
  split; [exact Ho| | | | | | |].
  - rewrite Hm, zip_with_app by (symmetry; apply R). cbn [members zip_with]. rewrite (rf_members _ _ _ R). apply Permutation_cons_append.
  - rewrite !length_app, (rf_length _ _ _ R). done.
  - apply StronglySorted_app_2; [|apply R|repeat constructor]. intros x y Hx Hy%list_elem_of_singleton. specialize (Hbound x Hx). lia.
  - cbn. lia.
  - cbn. apply Forall_app. split; [|repeat constructor; lia]. apply Forall_forall. intros x Hx. specialize (Hbound x Hx). lia.
  - rewrite fmap_app. apply NoDup_app. split; [apply R|]. split; [|apply NoDup_singleton]. intros x Hx Hy%list_elem_of_singleton.
    cbn in Hy. congruence.
  - intros id' key'. rewrite Hm. cbn [link index members]. rewrite elem_of_cons, <- (rf_index _ _ _ R), lookup_insert_Some. naive_solver.
Qed.

Lemma insert_refines s a id phas :
  refines s a -> next_seq s + 1 < 2 ^ 64 ->
  refines (insert s id phas) (spec_insert a id phas) /\
  0 <= next_seq s <= next_seq (insert s id phas) /\ next_seq (insert s id phas) <= next_seq s + 1.
Proof.
  intros [seqs R] Hb. pose proof (rf_next _ _ _ R) as Hn. unfold insert, spec_insert. destruct (index s !! id) as [[old q]|] eqn:E.
  - destruct (member_split _ _ _ _ _ _ R E) as (a1 & a2 & q1 & q2 & -> & -> & L1 & L2 & N1 & N2).
    rewrite bool_decide_true by (rewrite fmap_app; set_solver). rewrite fmap_app, fmap_cons, !fmap_update_absent by done. cbn [fst].
    rewrite decide_True by done. destruct (Z.eqb_spec old phas) as [->|Hne]; [split; [now exists (q1 ++ q :: q2)|lia]|].
    split; [exists (q1 ++ q :: q2); now apply relink_refines with q1 q2|].
    pose proof (proj1 (rf_index _ _ _ R _ _) E) as Hin.
    destruct (unlink_members s id (old, q) (rf_ordered _ _ _ R) Hin) as (_ & _ & _ & En). cbn. lia.
  - pose proof (proj1 (index_none _ _ _ _ R) E) as Hni. rewrite bool_decide_false by done.
    split; [exists (seqs ++ [next_seq s]); now apply append_refines|]. cbn. rewrite Z.mod_small by lia. lia.
Qed.

Lemma filter_absent (a : Spec) id : id ∉ a.*1 -> filter (fun m => m.1 <> id) a = a.
Proof.
  induction a as [|m a IH]; intros H; [done|]. rewrite fmap_cons in H. apply not_elem_of_cons in H as [H1 H2].
  rewrite filter_cons, decide_True by congruence. f_equal. auto.
Qed.

Lemma remove_refines s a id :
  refines s a -> refines (remove s id).1 (spec_remove a id) /\ (remove s id).2 = bool_decide (id ∈ a.*1) /\
  next_seq (remove s id).1 = next_seq s.
Proof.
  intros [seqs R]. unfold remove, spec_remove. destruct (index s !! id) as [[old q]|] eqn:E; cbn [fst snd].
  - destruct (member_split _ _ _ _ _ _ R E) as (a1 & a2 & q1 & q2 & -> & -> & L1 & L2 & N1 & N2).
    rewrite bool_decide_true by (rewrite fmap_app; set_solver). rewrite filter_app, filter_cons_False, !filter_absent by (try done; cbn; tauto).
    pose proof (proj1 (rf_index _ _ _ R _ _) E) as Hin. set (s0 := mkList (members s) (delete id (index s)) (next_seq s)).
    destruct (unlink_members s0 id (old, q) (rf_ordered _ _ _ R) Hin) as (Ho & Hu & Ei & En).
    pose proof (unlink_index _ _ _ _ _ _ R Hu E) as Hidx. split; [|split; [done|exact En]]. exists (q1 ++ q2).
    pose proof (rf_seqs _ _ _ R) as Hs. apply StronglySorted_app in Hs as (Hs1 & Hs2 & [_ Hs3]%StronglySorted_cons).
    pose proof (rf_bound _ _ _ R) as Hbd. apply Forall_app in Hbd as [Hb1 [_ Hb2]%Forall_cons].
    pose proof (rf_nodup _ _ _ R) as Hnd. rewrite fmap_app, fmap_cons in Hnd. apply NoDup_app in Hnd as (Hn1 & Hn2 & [_ Hn3]%NoDup_cons).
    split; [exact Ho| | | | | | |].
    + pose proof (rf_members _ _ _ R) as Hm. change (members s) with (members s0) in Hm. rewrite Hu, zip_with_app in Hm by done. cbn in Hm.
      rewrite <- Permutation_middle in Hm. apply Permutation_cons_inv in Hm. now rewrite Hm, zip_with_app.
    + rewrite !length_app. lia.
    + apply StronglySorted_app_2; [|done|done]. intros x y Hx Hy. apply Hs1; [done|now right].
    + rewrite En. apply R.
    + rewrite En. now apply Forall_app.
    + rewrite fmap_app. apply NoDup_app. split; [done|]. split; [|done]. intros x Hx Hx'. apply (Hn2 x Hx). now right.
    + intros id' key'. rewrite Ei, Hidx. cbn. rewrite lookup_delete_Some. naive_solver.
  - pose proof (proj1 (index_none _ _ _ _ R) E) as Hni. rewrite bool_decide_false, filter_absent by done. split; [now exists seqs|done].
Qed.

(** ** Claims *)

Inductive ScanOp := Insert (id : RecordId) (phas : Z) | Remove (id : RecordId).

Definition apply (s : ScanList) (op : ScanOp) : ScanList :=
  match op with Insert id phas => insert s id phas | Remove id => (remove s id).1 end.
Definition spec_apply (a : Spec) (op : ScanOp) : Spec :=
  match op with Insert id phas => spec_insert a id phas | Remove id => spec_remove a id end.

Lemma run_refines ops s a :
  refines s a -> next_seq s + zlen ops < 2 ^ 64 -> refines (fold_left apply ops s) (fold_left spec_apply ops a).
Proof.
  revert s a. induction ops as [|op ops IH]; intros s a R Hb; [done|]. rewrite zlen_cons in Hb. pose proof (zlen_nonneg ops).
  cbn [fold_left]. destruct op as [id phas|id]; cbn [apply spec_apply].
  - destruct (insert_refines s a id phas R ltac:(lia)) as [R' Hn]. apply IH; [done|lia].
  - destruct (remove_refines s a id R) as (R' & _ & Hn). apply IH; [done|lia].
Qed.

(** C26: a scan list refines its specification.  After any sequence of insertions,
    changes of priority and removals the snapshot is the members in order of
    priority, those of equal priority in the order they were first added, and a
    removal reports exactly whether the record was a member. *)
Theorem scan_list_refines ops :
  zlen ops < 2 ^ 64 ->
  let s := fold_left apply ops new in
  let a := fold_left spec_apply ops [] in
  snapshot s = spec_order a /\ (forall id, (remove s id).2 = bool_decide (id ∈ a.*1)) /\
  is_empty s = bool_decide (a = []).
Proof.
  intros Hb s a. assert (refines s a) as R by (apply run_refines; [apply new_refines|exact Hb]). split; [now apply refines_order|].
  split; [intros id; now apply remove_refines|]. destruct R as [seqs R]. pose proof (Permutation_length (rf_members _ _ _ R)) as Hl.
  rewrite length_zip_with, (rf_length _ _ _ R) in Hl. unfold is_empty.
  destruct (members s), a; cbn in Hl; try lia; done.
Qed.

Lemma scan_list_refines_witness :
  snapshot (fold_left apply
    [Insert (mkId 0 1) 5; Insert (mkId 0 2) 0; Insert (mkId 0 3) 10; Insert (mkId 0 4) 0; Insert (mkId 0 3) 0; Remove (mkId 0 2)] new)
  = [mkId 0 3; mkId 0 4; mkId 0 1].
Proof.
  destruct (scan_list_refines
    [Insert (mkId 0 1) 5; Insert (mkId 0 2) 0; Insert (mkId 0 3) 10; Insert (mkId 0 4) 0; Insert (mkId 0 3) 0; Remove (mkId 0 2)])
    as [-> _]; [reflexivity|]. vm_compute. reflexivity.
Defined.

End ScanList.
