(* ===== verification/Scanner.v ===== *)
(** * The scanner

    Models [spvirit-ioc/src/scan/menu.rs], the scan lists of
    [spvirit-ioc/src/scan/scanner.rs] with the threads of its periodic lists, and
    the writes to SCAN, PHAS and EVNT of [spvirit-ioc/src/source.rs].  An operation
    of the scanner is one critical section; a write is a sequence of sections, of
    the record's lock set and of the scanner, between which other writes run
    ([Task], [section]).  Durations are nanoseconds.  The theorems show that a SCAN
    text always gives a period that can be scheduled, that a record is on the one
    list its fields name once no write to it is under way, and that every period
    with members has one thread, at any moment. *)

From stdpp Require Import gmap sorting.
From Stdlib Require Import ZArith Floats.SpecFloat.
From S2P Require Import Prelude Utf8 Wire PvdTypes NtTypes F64 Text Ioc IocSafe UnionFind LockSet ScanList.

Local Open Scope Z_scope.

Module Scanner.
Import Ioc LockSet ScanList.

(** ** The SCAN menu *)

Inductive ScanSpec := Passive | Periodic (period : Z) | OnEvent | IoIntr.

(** [1.0e-6] and [1.0e9]. *)
Definition MIN_SCAN_PERIOD_SECS : Z := 0x3EB0C6F7A0B5ED8D.
Definition MAX_SCAN_PERIOD_SECS : Z := 0x41CDCD6500000000.

(** [n / d] to the nearest integer, ties to even. *)
Definition div_round (n d : Z) : Z :=
  let q := n / d in
  let r := n mod d in
  if 2 * r <? d then q else if d <? 2 * r then q + 1 else q + q mod 2.

(** [Duration::from_secs_f64]: to the nearest nanosecond; negative values, NaN and
    values beyond [u64] seconds panic. *)
Definition from_secs_f64 (x : Z) : outcome unit Z :=
  match F64.to_spec x with
  | S754_zero _ => Ok 0
  | S754_finite false m e =>
    let nanos := if 0 <=? e then Zpos m * 2 ^ e * 10 ^ 9 else div_round (Zpos m * 10 ^ 9) (2 ^ (- e)) in
    if nanos <? 2 ^ 64 * 10 ^ 9 then Ok nanos else Panic
  | _ => Panic
  end.

Definition is_finite (x : Z) : bool := negb (Z.land x 0x7FF0000000000000 =? 0x7FF0000000000000).

Definition parse_scan (raw : bytes) : outcome unit ScanSpec :=
  let lower := Text.to_ascii_lowercase (Text.trim raw) in
  if bool_decide (lower = str "passive") then Ok Passive
  else if bool_decide (lower = str "event") then Ok OnEvent
  else if bool_decide (lower = str "i/o intr") then Ok IoIntr
  else
    match match Text.strip_suffix (str "seconds") lower with
          | Some w => Some w
          | None => Text.strip_suffix (str "second") lower
          end with
    | None => Err tt
    | Some secs_word =>
      match Text.parse_f64 (Text.trim secs_word) with
      | None => Err tt
      | Some n =>
        if negb (is_finite n && (Float.le64 MIN_SCAN_PERIOD_SECS n && Float.le64 n MAX_SCAN_PERIOD_SECS)) then Err tt
        else bind_outcome (from_secs_f64 n) (fun p => Ok (Periodic p))
      end
    end.

(** ** The lists *)

Definition MAX_PERIODIC_THREADS : Z := 64.

Inductive ScanRegisterError := ZeroPeriod | PeriodTooLong | TooManyPeriods.

(** A thread is a number; [thread_keys] maps a period to the thread that scans
    it, whose flag is in [retired] once the period is empty. *)
Record Scanner := mkScanner {
  periodic : gmap Z ScanList;
  events : gmap bytes ScanList;
  io_intr : gmap bytes ScanList;
  started : bool;
  stop : bool;
  thread_keys : gmap Z nat;
  threads : gmap nat Z;
  retired : gset nat }.

Definition new_scanner : Scanner := mkScanner ∅ ∅ ∅ false false ∅ ∅ ∅.

Definition period_key (period : Z) : outcome ScanRegisterError Z :=
  if 2 ^ 64 <=? period then Err PeriodTooLong else if period =? 0 then Err ZeroPeriod else Ok period.

(** The only member of a period. *)
Definition alone (id : RecordId) (l : ScanList) : bool :=
  bool_decide (length (members l) = 1%nat) && bool_decide (snapshot l = [id]).

Definition check_period (s : Scanner) (id : RecordId) (period : Z) : outcome ScanRegisterError unit :=
  bind_outcome (period_key period) (fun key =>
  match periodic s !! key with
  | Some _ => Ok tt
  | None =>
    let freed := existsb (alone id) (map_to_list (periodic s)).*2 in
    if MAX_PERIODIC_THREADS <=? Z.of_nat (size (periodic s)) - (if freed then 1 else 0) then Err TooManyPeriods else Ok tt
  end).

Section Spawn.
(** Whether the operating system can start the next thread. *)
Context (spawn : gmap nat Z -> bool).

Definition with_periodic (s : Scanner) (p : gmap Z ScanList) : Scanner :=
  mkScanner p (events s) (io_intr s) (started s) (stop s) (thread_keys s) (threads s) (retired s).

Definition ensure_periodic_thread_at (s : Scanner) (key : Z) : Scanner :=
  if negb (started s) || stop s then s
  else
    match thread_keys s !! key with
    | Some _ => s
    | None =>
      if spawn (threads s) then
        let t := fresh (dom (threads s)) in
        mkScanner (periodic s) (events s) (io_intr s) (started s) (stop s)
          (<[key := t]> (thread_keys s)) (<[t := key]> (threads s)) (retired s)
      else s
    end.

Definition add_periodic (s : Scanner) (id : RecordId) (phas period : Z) : outcome ScanRegisterError Scanner :=
  bind_outcome (period_key period) (fun key =>
  if bool_decide (periodic s !! key = None) && (MAX_PERIODIC_THREADS <=? Z.of_nat (size (periodic s))) then Err TooManyPeriods
  else Ok (ensure_periodic_thread_at
             (with_periodic s (<[key := insert (default new (periodic s !! key)) id phas]> (periodic s))) key)).

(** A list that loses its last member goes, and its thread is told to exit. *)
Definition emptied (id : RecordId) (l : ScanList) : bool := (remove l id).2 && is_empty (remove l id).1.

Definition remove_periodic (s : Scanner) (id : RecordId) : Scanner :=
  let gone : gset Z := dom (filter (fun kl : Z * ScanList => emptied id kl.2 = true) (periodic s)) in
  mkScanner (filter (fun kl => kl.1 ∉ gone) ((fun l => (remove l id).1) <$> periodic s)) (events s) (io_intr s) (started s) (stop s)
    (filter (fun kt => kt.1 ∉ gone) (thread_keys s)) (threads s)
    (retired s ∪ map_img (filter (fun kt : Z * nat => kt.1 ∈ gone) (thread_keys s))).

Definition with_events (s : Scanner) (e : gmap bytes ScanList) : Scanner :=
  mkScanner (periodic s) e (io_intr s) (started s) (stop s) (thread_keys s) (threads s) (retired s).
Definition with_io (s : Scanner) (i : gmap bytes ScanList) : Scanner :=
  mkScanner (periodic s) (events s) i (started s) (stop s) (thread_keys s) (threads s) (retired s).

Definition add_event (s : Scanner) (id : RecordId) (phas : Z) (event : bytes) : Scanner :=
  match event with
  | [] => s
  | _ => with_events s (<[event := insert (default new (events s !! event)) id phas]> (events s))
  end.

Definition remove_event (s : Scanner) (id : RecordId) : Scanner :=
  with_events s ((fun l => (remove l id).1) <$> events s).

Definition register_io_intr (s : Scanner) (id : RecordId) (phas : Z) (source : bytes) : Scanner :=
  with_io s (<[source := insert (default new (io_intr s !! source)) id phas]> (io_intr s)).

Definition unregister_io_intr (s : Scanner) (id : RecordId) : Scanner :=
  with_io s ((fun l => (remove l id).1) <$> io_intr s).

(** The records an event or an interrupt processes, in order. *)
Definition fire_event (s : Scanner) (event : bytes) : list RecordId := default [] (snapshot <$> events s !! event).
Definition scan_io_request (s : Scanner) (source : bytes) : list RecordId := default [] (snapshot <$> io_intr s !! source).

(** The threads of [start] and the end of all of them. *)
Definition start (s : Scanner) : Scanner :=
  let s := mkScanner (periodic s) (events s) (io_intr s) true (stop s) (thread_keys s) (threads s) (retired s) in
  fold_left ensure_periodic_thread_at (map_to_list (filter (fun kl => is_empty kl.2 = false) (periodic s))).*1 s.

Definition shutdown (s : Scanner) : Scanner :=
  mkScanner (periodic s) (events s) (io_intr s) (started s) true (thread_keys s) (threads s) (retired s).

(** ** Writes to the scan fields *)

Record Src := mkSrc { sets : list (list Rec); scanner : Scanner }.

Definition record_at (sets : list (list Rec)) (id : RecordId) : option Rec := sets !! rset id ≫= fun set => set !! slot id.

Definition upd_record (sets : list (list Rec)) (id : RecordId) (f : Rec -> Rec) : list (list Rec) :=
  alter (alter f (slot id)) (rset id) sets.

Definition set_scan (raw : bytes) (phas' : Z) (evnt' : bytes) (c : Common) : Common :=
  mkCommon (desc c) raw evnt' (pini c) phas' (pact c) (disa c) (disv c) (diss c) (sdis c) (flnk c) (tse c) (tpro c)
    (udf c) (sevr c) (stat c) (nsev c) (nsta c).

Inductive ScanPutError := NotAScan | Refused (e : ScanRegisterError).

(** On the list of its [ScanSpec]. *)
Definition place (s : Scanner) (id : RecordId) (spec : ScanSpec) (phas : Z) (evnt : bytes)
  : outcome ScanRegisterError Scanner :=
  match spec with
  | Periodic period => add_periodic s id phas period
  | OnEvent => Ok (add_event s id phas evnt)
  | IoIntr | Passive => Ok s
  end.

(** A refused registration is only logged here and in [load_from_db]. *)
Definition place_or_log (s : Scanner) (id : RecordId) (scan : outcome unit ScanSpec) (phas : Z) (evnt : bytes) : Scanner :=
  match scan with
  | Ok spec => match place s id spec phas evnt with Ok s => s | _ => s end
  | _ => s
  end.

(** A write between two of its sections, named by the next one.  A SCAN write checks
    its period, stores the text and reads PHAS and EVNT, leaves its lists one after
    the other and joins the list of its [ScanSpec]; a PHAS write stores and joins
    again; an EVNT write stores and, on an event-scanned record, leaves and
    joins. *)
Inductive Task :=
| ScanCheck (id : RecordId) (raw : bytes) (period : Z)
| ScanStore (id : RecordId) (raw : bytes) (spec : ScanSpec)
| LeavePeriodic (id : RecordId) (spec : ScanSpec) (ph : Z) (ev : bytes)
| LeaveEvent (id : RecordId) (spec : ScanSpec) (ph : Z) (ev : bytes)
| LeaveIo (id : RecordId) (spec : ScanSpec) (ph : Z) (ev : bytes)
| Join (id : RecordId) (spec : ScanSpec) (ph : Z) (ev : bytes)
| PhasStore (id : RecordId) (v : Z)
| Rejoin (id : RecordId) (spec : ScanSpec) (ph : Z) (ev : bytes)
| EvntStore (id : RecordId) (ev : bytes)
| EvntLeave (id : RecordId) (ph : Z) (ev : bytes)
| EvntJoin (id : RecordId) (ph : Z) (ev : bytes).

Inductive Progress := Next (t : Task) | Done (r : outcome ScanPutError unit).

(** What happens before the first lock. *)
Definition begin_scan (id : RecordId) (raw : bytes) : Progress :=
  match parse_scan raw with
  | Ok (Periodic p) => Next (ScanCheck id raw p)
  | Ok spec => Next (ScanStore id raw spec)
  | Err _ => Done (Err NotAScan)
  | Panic => Done Panic
  | OutOfFuel => Done OutOfFuel
  end.

(** The lock set of the record: its new fields, and the fields [k] goes on with. *)
Definition store (s : Src) (id : RecordId) (f : Common -> Common) (k : Common -> Progress) : Progress * Src :=
  match record_at (sets s) id with
  | None => (Done Panic, s)
  | Some r => (k (common r), mkSrc (upd_record (sets s) id (upd_common f)) (scanner s))
  end.

Definition put_scan_section (id : RecordId) (raw : bytes) (spec : ScanSpec) (s : Src) : Progress * Src :=
  store s id (fun c => set_scan raw (phas c) (evnt c) c) (fun c => Next (LeavePeriodic id spec (phas c) (evnt c))).

(** A record whose stored SCAN no longer parses is on no list. *)
Definition put_phas_section (id : RecordId) (v : Z) (s : Src) : Progress * Src :=
  store s id (fun c => set_scan (scan_raw c) v (evnt c) c)
    (fun c => match parse_scan (scan_raw c) with Ok spec => Next (Rejoin id spec v (evnt c)) | _ => Done (Ok tt) end).

Definition put_evnt_section (id : RecordId) (ev : bytes) (s : Src) : Progress * Src :=
  store s id (fun c => set_scan (scan_raw c) (phas c) ev c)
    (fun c => match parse_scan (scan_raw c) with Ok OnEvent => Next (EvntLeave id (phas c) ev) | _ => Done (Ok tt) end).

(** The next section of a write.  An error of the last one is reported when the
    record has left its lists. *)
Definition section (t : Task) (s : Src) : Progress * Src :=
  let scan sc := mkSrc (sets s) sc in
  match t with
  | ScanCheck id raw p =>
    (match check_period (scanner s) id p with
     | Ok _ => Next (ScanStore id raw (Periodic p))
     | Err e => Done (Err (Refused e))
     | Panic => Done Panic
     | OutOfFuel => Done OutOfFuel
     end, s)
  | ScanStore id raw spec => put_scan_section id raw spec s
  | LeavePeriodic id spec ph ev => (Next (LeaveEvent id spec ph ev), scan (remove_periodic (scanner s) id))
  | LeaveEvent id spec ph ev => (Next (LeaveIo id spec ph ev), scan (remove_event (scanner s) id))
  | LeaveIo id spec ph ev => (Next (Join id spec ph ev), scan (unregister_io_intr (scanner s) id))
  | Join id spec ph ev =>
    match place (scanner s) id spec ph ev with
    | Ok sc => (Done (Ok tt), scan sc)
    | Err e => (Done (Err (Refused e)), s)
    | Panic => (Done Panic, s)
    | OutOfFuel => (Done OutOfFuel, s)
    end
  | PhasStore id v => put_phas_section id v s
  | Rejoin id spec ph ev => (Done (Ok tt), scan (place_or_log (scanner s) id (Ok spec) ph ev))
  | EvntStore id ev => put_evnt_section id ev s
  | EvntLeave id ph ev => (Next (EvntJoin id ph ev), scan (remove_event (scanner s) id))
  | EvntJoin id ph ev => (Done (Ok tt), scan (add_event (scanner s) id ph ev))
  end.

(** A write that nothing interrupts. *)
Fixpoint finish (n : nat) (p : Progress) (s : Src) : outcome ScanPutError unit * Src :=
  match p with
  | Done r => (r, s)
  | Next t =>
    match n with
    | O => (OutOfFuel, s)
    | S n => let '(p, s) := section t s in finish n p s
    end
  end.

Definition put_scan (s : Src) (id : RecordId) (raw : bytes) : outcome ScanPutError unit * Src := finish 6 (begin_scan id raw) s.
Definition put_phas (s : Src) (id : RecordId) (v : Z) : outcome ScanPutError unit * Src := finish 2 (Next (PhasStore id v)) s.
Definition put_evnt (s : Src) (id : RecordId) (ev : bytes) : outcome ScanPutError unit * Src := finish 3 (Next (EvntStore id ev)) s.

Fixpoint load_from_db (sets : list (list Rec)) (order : list RecordId) (s : Scanner) : outcome unit Scanner :=
  match order with
  | [] => Ok s
  | id :: order =>
    match record_at sets id with
    | None => Panic
    | Some r => load_from_db sets order (place_or_log s id (parse_scan (scan_raw (common r))) (phas (common r)) (evnt (common r)))
    end
  end.
End Spawn.

(** ** Periods *)

Lemma div_round_ge n d k : 0 < d -> (2 * k - 1) * d < 2 * n -> k <= div_round n d.
Proof.
  intros Hd H. unfold div_round. pose proof (Z.div_mod n d ltac:(lia)). pose proof (Z.mod_pos_bound n d Hd).
  pose proof (Z.mod_pos_bound (n / d) 2 ltac:(lia)).
  assert (k - 1 <= n / d) as Hq by (apply Z.div_le_lower_bound; nia).
  destruct (Z.ltb_spec (2 * (n mod d)) d); [|destruct (Z.ltb_spec d (2 * (n mod d))); [lia|]].
  - enough (n / d <> k - 1) by lia. intros E. rewrite E in *. nia.
  - enough (n / d <> k - 1) by lia. intros E. rewrite E in *. nia.
Qed.

Lemma div_round_le n d k : 0 < d -> n <= k * d -> div_round n d <= k.
Proof.
  intros Hd H. unfold div_round. pose proof (Z.div_mod n d ltac:(lia)). pose proof (Z.mod_pos_bound n d Hd).
  pose proof (Z.mod_pos_bound (n / d) 2 ltac:(lia)).
  assert (n / d <= k) as Hq by (apply Z.div_le_upper_bound; nia).
  destruct (decide (n / d = k)) as [E|Hne]; [|destruct (Z.ltb_spec (2 * (n mod d)) d); [lia|destruct (Z.ltb_spec d (2 * (n mod d))); lia]].
  assert (n mod d = 0) as -> by (rewrite E in *; nia). destruct (Z.ltb_spec (2 * 0) d); lia.
Qed.

(** The bits of a double between the bounds. *)
Lemma period_bits x :
  Float.le64 MIN_SCAN_PERIOD_SECS x = true -> Float.le64 x MAX_SCAN_PERIOD_SECS = true ->
  MIN_SCAN_PERIOD_SECS <= x <= MAX_SCAN_PERIOD_SECS.
Proof.
  unfold Float.le64, Float.key, MIN_SCAN_PERIOD_SECS, MAX_SCAN_PERIOD_SECS. intros H1 H2. bool_to_prop.
  change (2 ^ (64 - 1)) with 0x8000000000000000 in *. cbn in *. destruct (Z.ltb_spec x 0x8000000000000000); lia.
Qed.

Lemma from_secs_bounds x :
  MIN_SCAN_PERIOD_SECS <= x <= MAX_SCAN_PERIOD_SECS -> exists p, from_secs_f64 x = Ok p /\ 1000 <= p <= 10 ^ 18.
Proof.
  unfold MIN_SCAN_PERIOD_SECS, MAX_SCAN_PERIOD_SECS. intros Hx. unfold from_secs_f64, F64.to_spec.
  set (e := x / 2 ^ 52). set (m := x mod 2 ^ 52). assert (x = 2 ^ 52 * e + m) as Ex by (apply Z.div_mod; lia).
  assert (0 <= m < 2 ^ 52) as Hm by (apply Z.mod_pos_bound; lia). assert (0x3EB <= e <= 0x41C) as He by lia.
  assert (2 ^ 63 <=? x = false) as -> by (apply Z.leb_gt; lia). rewrite Z.shiftr_div_pow2 by lia. fold e.
  assert (e mod 2 ^ 11 = e) as -> by (apply Z.mod_small; lia).
  assert (e =? 0x7FF = false) as -> by (apply Z.eqb_neq; lia). assert (e =? 0 = false) as -> by (apply Z.eqb_neq; lia).
  rewrite Z2Pos.id by lia. assert (0 <=? e - 1075 = false) as -> by (apply Z.leb_gt; lia).
  set (d := 2 ^ (- (e - 1075))). assert (2 ^ 23 <= d <= 2 ^ 72) as Hd by (unfold d; split; apply Z.pow_le_mono_r; lia).
  assert (1000 <= div_round ((2 ^ 52 + m) * 10 ^ 9) d) as Hlo.
  { apply div_round_ge; [lia|]. destruct (decide (e = 0x3EB)) as [E|E].
    - assert (d = 2 ^ 72) as -> by (unfold d; rewrite E; reflexivity). lia.
    - assert (d <= 2 ^ 71) by (unfold d; apply Z.pow_le_mono_r; lia). lia. }
  assert (div_round ((2 ^ 52 + m) * 10 ^ 9) d <= 10 ^ 18) as Hhi.
  { apply div_round_le; [lia|]. destruct (decide (e = 0x41C)) as [E|E].
    - assert (d = 2 ^ 23) as -> by (unfold d; rewrite E; reflexivity). lia.
    - assert (2 ^ 24 <= d) by (unfold d; apply Z.pow_le_mono_r; lia). lia. }
  eexists. rewrite (proj2 (Z.ltb_lt _ _)); [split; [done|lia]|lia].
Qed.

Lemma parse_scan_bounds raw :
  (parse_scan raw = Err tt \/ exists spec, parse_scan raw = Ok spec) /\
  forall p, parse_scan raw = Ok (Periodic p) -> 1000 <= p <= 10 ^ 18.
Proof.
  unfold parse_scan. repeat (case_bool_decide; [split; [eauto|intros; discriminate]|]).
  destruct (match Text.strip_suffix _ _ with Some w => Some w | None => _ end) as [w|]; [|split; [auto|intros; discriminate]].
  destruct (Text.parse_f64 _) as [n|]; [|split; [auto|intros; discriminate]].
  destruct (is_finite n && _) eqn:E; cbn [negb]; [|split; [auto|intros; discriminate]]. bool_to_prop.
  destruct (from_secs_bounds n) as (p & -> & Hp); [now apply period_bits|]. cbn. split; [eauto|]. intros p' [= <-]. done.
Qed.

Lemma period_key_ok p : 1000 <= p <= 10 ^ 18 -> period_key p = Ok p.
Proof.
  intros H. unfold period_key. rewrite (proj2 (Z.leb_gt _ _)) by lia. now rewrite (proj2 (Z.eqb_neq _ _)) by lia.
Qed.

(** ** Members *)

Definition member (l : ScanList) (id : RecordId) (ph : Z) : Prop := exists q, index l !! id = Some (ph, q).

Lemma unlink_index_eq l key : index (unlink l key) = index l.
Proof. unfold unlink. destruct (locate l key); done. Qed.

Lemma member_insert l id ph id' ph' :
  member (insert l id ph) id' ph' <-> id' = id /\ ph' = ph \/ id' <> id /\ member l id' ph'.
Proof.
  unfold member, insert. destruct (index l !! id) as [[old q]|] eqn:E.
  - destruct (Z.eqb_spec old ph) as [->|Hne].
    + destruct (decide (id' = id)) as [->|]; [rewrite E|]; naive_solver.
    + cbn. rewrite unlink_index_eq. destruct (decide (id' = id)) as [->|].
      * rewrite lookup_insert_eq. naive_solver.
      * rewrite lookup_insert_ne by done. naive_solver.
  - cbn. destruct (decide (id' = id)) as [->|].
    + rewrite lookup_insert_eq. naive_solver.
    + rewrite lookup_insert_ne by done. naive_solver.
Qed.

Lemma member_remove l id id' ph' : member (remove l id).1 id' ph' <-> id' <> id /\ member l id' ph'.
Proof.
  unfold member, remove. destruct (index l !! id) as [key|] eqn:E; cbn.
  - rewrite unlink_index_eq. cbn. setoid_rewrite lookup_delete_Some. naive_solver.
  - split; [|naive_solver]. intros (q & Hq). split; [congruence|eauto].
Qed.

Lemma member_new id ph : ~ member new id ph.
Proof. intros (q & Hq). discriminate Hq. Qed.

(** A list after at most [n] insertions. *)
Definition list_ok (n : Z) (l : ScanList) : Prop := (exists a, refines l a) /\ next_seq l <= n.

Lemma list_ok_new n : 0 <= n -> list_ok n new.
Proof. intros H. split; [exists []; apply new_refines|done]. Qed.

Lemma list_ok_mono n n' l : list_ok n l -> n <= n' -> list_ok n' l.
Proof. intros [H1 H2] H. split; [done|lia]. Qed.

Lemma list_ok_insert n l id ph : list_ok n l -> n + 1 < 2 ^ 64 -> list_ok (n + 1) (insert l id ph).
Proof.
  intros [[a R] Hn] Hb. destruct (insert_refines l a id ph R ltac:(lia)) as [R' H]. split; [eauto|lia].
Qed.

Lemma list_ok_remove n l id : list_ok n l -> list_ok n (remove l id).1.
Proof. intros [[a R] Hn]. destruct (remove_refines l a id R) as (R' & _ & E). split; [eauto|lia]. Qed.

Lemma member_in l id ph n : list_ok n l -> member l id ph <-> exists q, (ph, q, id) ∈ members l.
Proof. intros [(a & seqs & R) _]. unfold member. setoid_rewrite (rf_index _ _ _ R). done. Qed.

Lemma empty_no_member n l : list_ok n l -> is_empty l = true <-> forall id ph, ~ member l id ph.
Proof.
  intros H. setoid_rewrite (member_in _ _ _ n H). unfold is_empty. destruct (members l) as [|[[ph q] id] ms].
  - split; [|done]. intros _ id ph (q & Hq). now apply not_elem_of_nil in Hq.
  - split; [done|]. intros Hn. destruct (Hn id ph). exists q. left.
Qed.

Lemma nonempty_member n l : list_ok n l -> is_empty l = false -> exists id ph, member l id ph.
Proof.
  intros H E. setoid_rewrite (member_in _ _ _ n H). unfold is_empty in E. destruct (members l) as [|[[ph q] id] ms]; [done|].
  exists id, ph, q. left.
Qed.

Lemma removed_member l id n : list_ok n l -> (remove l id).2 = true <-> exists ph, member l id ph.
Proof.
  intros _. unfold remove, member. destruct (index l !! id) as [[ph q]|]; cbn; naive_solver.
Qed.

(** A list is emptied exactly when the record is its only member. *)
Lemma emptied_spec n l id :
  list_ok n l -> is_empty l = false -> emptied id l = true <-> forall id' ph, member l id' ph -> id' = id.
Proof.
  intros H Hne. unfold emptied. rewrite andb_true_iff, (removed_member _ _ n H), (empty_no_member n) by now apply list_ok_remove.
  setoid_rewrite member_remove. split.
  - intros [_ Hno] id' ph Hm. destruct (decide (id' = id)); [done|]. destruct (Hno id' ph). done.
  - intros Hall. destruct (nonempty_member n l H Hne) as (i & ph & Hm). split.
    + exists ph. now rewrite <- (Hall i ph Hm).
    + intros id' ph' [Hd Hm']. apply Hd. eauto.
Qed.

Lemma alone_spec n l id : list_ok n l -> alone id l = true -> is_empty l = false /\ emptied id l = true.
Proof.
  intros H E. unfold alone in E. apply andb_true_iff in E as [_ E%bool_decide_eq_true]. unfold snapshot in E.
  assert (is_empty l = false) as Hne by (unfold is_empty; destruct (members l); done). split; [done|].
  apply (emptied_spec n); [done|done|]. intros id' ph Hm. apply (member_in _ _ _ n H) in Hm as (q & Hq).
  assert (id' ∈ (members l).*2) as Hin by (apply list_elem_of_fmap; now exists (ph, q, id')). rewrite E in Hin.
  now apply list_elem_of_singleton in Hin.
Qed.

(** ** Where records are *)

Definition on_periodic (s : Scanner) (k : Z) (id : RecordId) (ph : Z) : Prop :=
  exists l, periodic s !! k = Some l /\ member l id ph.
Definition on_event (s : Scanner) (e : bytes) (id : RecordId) (ph : Z) : Prop :=
  exists l, events s !! e = Some l /\ member l id ph.
Definition on_io (s : Scanner) (src : bytes) (id : RecordId) (ph : Z) : Prop :=
  exists l, io_intr s !! src = Some l /\ member l id ph.

Record lists_ok (n : Z) (s : Scanner) : Prop := {
  lo_periodic : forall k l, periodic s !! k = Some l -> list_ok n l /\ is_empty l = false /\ 1000 <= k <= 10 ^ 18;
  lo_events : forall e l, events s !! e = Some l -> list_ok n l;
  lo_io : forall e l, io_intr s !! e = Some l -> list_ok n l;
  lo_size : Z.of_nat (size (periodic s)) <= MAX_PERIODIC_THREADS }.

Lemma lists_ok_mono n n' s : lists_ok n s -> n <= n' -> lists_ok n' s.
Proof.
  intros [P E I S] Hn. split; [|intros k l Hl; eapply list_ok_mono; eauto..|done].
  intros k l Hl. destruct (P k l Hl) as (? & ? & ?). split; [eapply list_ok_mono; eauto|done].
Qed.

Lemma remove_periodic_lookup s id k l' :
  periodic (remove_periodic s id) !! k = Some l' <->
  exists l, periodic s !! k = Some l /\ l' = (remove l id).1 /\ emptied id l = false.
Proof.
  cbn. rewrite map_lookup_filter_Some, lookup_fmap, fmap_Some. cbn. split.
  - intros [(l & El & ->) Hg]. exists l. split; [done|]. split; [done|]. apply not_true_is_false. intros E. apply Hg.
    apply elem_of_dom. exists l. now apply map_lookup_filter_Some.
  - intros (l & El & -> & E). split; [eauto|]. intros (x & [Ex Hx]%map_lookup_filter_Some)%elem_of_dom. cbn in Hx. congruence.
Qed.

Lemma remove_periodic_on n s id k id' ph :
  lists_ok n s -> on_periodic (remove_periodic s id) k id' ph <-> id' <> id /\ on_periodic s k id' ph.
Proof.
  intros H. unfold on_periodic. setoid_rewrite remove_periodic_lookup. split.
  - intros (l' & (l & El & -> & _) & Hm). apply member_remove in Hm as [Hne Hm]. eauto.
  - intros (Hne & l & El & Hm). destruct (lo_periodic _ _ H _ _ El) as (Hl & Hemp & _). exists (remove l id).1. split.
    + exists l. split; [done|]. split; [done|]. apply not_true_is_false. rewrite (emptied_spec n) by done. intros Hall. eauto.
    + now apply member_remove.
Qed.

Lemma remove_periodic_sub s id k : is_Some (periodic (remove_periodic s id) !! k) -> is_Some (periodic s !! k).
Proof. intros [l' (l & El & _)%remove_periodic_lookup]. eauto. Qed.

Lemma remove_periodic_size s id :
  (size (periodic (remove_periodic s id)) <= size (periodic s))%nat /\
  forall k l, periodic s !! k = Some l -> emptied id l = true ->
    (size (periodic (remove_periodic s id)) < size (periodic s))%nat.
Proof.
  assert (forall (m : gmap Z ScanList), (forall k, is_Some (periodic (remove_periodic s id) !! k) -> is_Some (m !! k)) ->
    (size (periodic (remove_periodic s id)) <= size m)%nat) as Hsub.
  { intros m Hm. rewrite <- !size_dom. apply subseteq_size. intros k. rewrite !elem_of_dom. apply Hm. }
  split; [apply Hsub; apply remove_periodic_sub|]. intros k l El He. pose proof (Hsub (delete k (periodic s))) as Hd.
  rewrite map_size_delete, El in Hd. pose proof (map_size_ne_0_lookup_2 (periodic s) k ltac:(eauto)) as Hnz. cbn in Hd.
  enough (size (periodic (remove_periodic s id)) <= pred (size (periodic s)))%nat by lia. apply Hd.
  intros k' Hk'. pose proof (remove_periodic_sub _ _ _ Hk') as [l' El']. rewrite lookup_delete_ne; [eauto|]. intros <-.
  destruct Hk' as [x (y & Ey & _ & E)%remove_periodic_lookup]. congruence.
Qed.

Lemma remove_periodic_ok n s id : lists_ok n s -> lists_ok n (remove_periodic s id).
Proof.
  intros H. split; [| |apply H|].
  - intros k l' (l & El & -> & Ee)%remove_periodic_lookup. destruct (lo_periodic _ _ H _ _ El) as (Hl & Hemp & Hk).
    split; [now apply list_ok_remove|]. split; [|done]. apply not_true_is_false. rewrite (empty_no_member n) by now apply list_ok_remove.
    intros Hno. apply not_true_iff_false in Ee. apply Ee. apply (emptied_spec n); [done|done|]. intros id' ph Hm.
    destruct (decide (id' = id)); [done|]. destruct (Hno id' ph). now apply member_remove.
  - apply H.
  - pose proof (proj1 (remove_periodic_size s id)). pose proof (lo_size _ _ H). lia.
Qed.

(** The list of one key gets a member. *)
Lemma keyed_insert {K} `{Countable K} (m : gmap K ScanList) k id ph k' id' ph' :
  (exists l, <[k := insert (default new (m !! k)) id ph]> m !! k' = Some l /\ member l id' ph') <->
  k' = k /\ id' = id /\ ph' = ph \/
  (k' <> k \/ id' <> id) /\ (exists l, m !! k' = Some l /\ member l id' ph').
Proof.
  destruct (decide (k' = k)) as [->|Hk].
  - rewrite lookup_insert_eq. split.
    + intros (l & [= <-] & Hm). apply member_insert in Hm as [[-> ->]|[Hne Hm]]; [auto|]. right. split; [auto|].
      destruct (m !! k) as [l|]; cbn in Hm; [eauto|]. now apply member_new in Hm.
    + intros [(_ & -> & ->)|([?|Hne] & l & El & Hm)]; [|done|]; (eexists; split; [done|]; apply member_insert); [auto|].
      right. rewrite El. done.
  - rewrite lookup_insert_ne by done. naive_solver.
Qed.

Lemma keyed_insert_ok {K} `{Countable K} n (m : gmap K ScanList) k id ph :
  0 <= n -> n + 1 < 2 ^ 64 -> (forall k l, m !! k = Some l -> list_ok n l) ->
  forall k' l, <[k := insert (default new (m !! k)) id ph]> m !! k' = Some l -> list_ok (n + 1) l.
Proof.
  intros H0 Hn Hm k' l. rewrite lookup_insert_Some. intros [[<- <-]|[_ Hl]].
  - apply list_ok_insert; [|done]. destruct (m !! k) as [l'|] eqn:E; cbn; [eauto|now apply list_ok_new].
  - eapply list_ok_mono; [eauto|lia].
Qed.

Lemma keyed_remove {K} `{Countable K} (m : gmap K ScanList) id k id' ph' :
  (exists l, ((fun l => (remove l id).1) <$> m) !! k = Some l /\ member l id' ph') <->
  id' <> id /\ (exists l, m !! k = Some l /\ member l id' ph').
Proof.
  setoid_rewrite lookup_fmap. setoid_rewrite fmap_Some. split.
  - intros (l' & (l & El & ->) & Hm). apply member_remove in Hm as [? ?]. eauto.
  - intros (Hne & l & El & Hm). exists (remove l id).1. split; [eauto|]. now apply member_remove.
Qed.

Lemma keyed_remove_ok {K} `{Countable K} n (m : gmap K ScanList) id :
  (forall k l, m !! k = Some l -> list_ok n l) ->
  forall k l, ((fun l => (remove l id).1) <$> m) !! k = Some l -> list_ok n l.
Proof. intros Hm k l. rewrite lookup_fmap, fmap_Some. intros (l' & El & ->). eapply list_ok_remove; eauto. Qed.

(** ** Threads *)

(** The periods of [thread_keys] are those with a thread that is not retired, one
    each, and none is without members. *)
Record threads_ok (s : Scanner) : Prop := {
  t_live : forall k t, thread_keys s !! k = Some t <-> threads s !! t = Some k /\ t ∉ retired s;
  t_dom : forall k, is_Some (thread_keys s !! k) -> is_Some (periodic s !! k);
  t_retired : retired s ⊆ dom (threads s);
  t_idle : started s = false -> thread_keys s = ∅ }.

(** Every period with members is scanned. *)
Definition covered (s : Scanner) : Prop :=
  started s = true -> stop s = false -> forall k, is_Some (periodic s !! k) -> is_Some (thread_keys s !! k).

Lemma elem_gone s id k :
  k ∈ dom (filter (fun kl : Z * ScanList => emptied id kl.2 = true) (periodic s)) <->
  exists l, periodic s !! k = Some l /\ emptied id l = true.
Proof. rewrite elem_of_dom. split; [intros [l [? ?]%map_lookup_filter_Some]; eauto|]. intros (l & ? & ?). exists l. now apply map_lookup_filter_Some. Qed.

Lemma remove_periodic_threads s id :
  threads_ok s -> threads_ok (remove_periodic s id) /\ (covered s -> covered (remove_periodic s id)).
Proof.
  intros H. split; [split|].
  - intros k t. cbn. rewrite map_lookup_filter_Some, (t_live _ H). cbn. rewrite not_elem_of_union, elem_of_map_img.
    split.
    + intros [[Ht Hr] Hg]. split; [done|]. split; [done|]. intros (k' & [Hk' Hin]%map_lookup_filter_Some). cbn in Hin.
      apply (t_live _ H) in Hk' as [Ht' _]. congruence.
    + intros (Ht & Hr & Hi). split; [done|]. intros Hg. apply Hi. exists k. apply map_lookup_filter_Some. split; [|done].
      now apply (t_live _ H).
  - intros k. cbn [thread_keys remove_periodic]. intros [t [Ht Hg]%map_lookup_filter_Some]. cbn [fst] in Hg.
    destruct (t_dom _ H k) as [l El]; [eauto|]. exists (remove l id).1. apply remove_periodic_lookup. exists l. split; [done|].
    split; [done|]. apply not_true_is_false. intros Ee. apply Hg, elem_gone. eauto.
  - cbn. apply union_subseteq. split; [apply H|]. intros t (k & [Hk _]%map_lookup_filter_Some)%elem_of_map_img.
    apply (t_live _ H) in Hk as [Hk _]. apply elem_of_dom. eauto.
  - intros Hs. cbn. rewrite (t_idle _ H Hs). apply map_filter_empty.
  - intros Hc Hs Hst k Hk. destruct (Hc Hs Hst k) as [t Ht]; [now apply remove_periodic_sub in Hk|]. exists t. cbn.
    apply map_lookup_filter_Some. split; [done|]. cbn. rewrite elem_gone. intros (l & El & Ee).
    destruct Hk as [x (l' & El' & _ & Ee')%remove_periodic_lookup]. congruence.
Qed.

Section Spawning.
Context (spawn : gmap nat Z -> bool).

Lemma ensure_lists s k :
  let s' := ensure_periodic_thread_at spawn s k in
  periodic s' = periodic s /\ events s' = events s /\ io_intr s' = io_intr s /\ started s' = started s /\ stop s' = stop s.
Proof. unfold ensure_periodic_thread_at. destruct (_ || _); [done|]. destruct (_ !! k); [done|]. destruct (spawn _); done. Qed.

Lemma ensure_threads s k :
  threads_ok s -> is_Some (periodic s !! k) -> threads_ok (ensure_periodic_thread_at spawn s k).
Proof.
  intros H Hk. unfold ensure_periodic_thread_at. destruct (negb (started s) || stop s) eqn:Es; [done|].
  destruct (thread_keys s !! k) as [t|] eqn:E; [done|]. destruct (spawn _); [|done].
  set (t := fresh (dom (threads s))). assert (t ∉ dom (threads s)) as Hf by apply is_fresh.
  assert (threads s !! t = None) as Hn by now apply not_elem_of_dom. split; cbn.
  - intros k' t'. destruct (decide (k' = k)) as [->|Hd].
    + rewrite lookup_insert_eq. split; [intros [= <-]; rewrite lookup_insert_eq; split; [done|]; intros Hr; now apply (t_retired _ H) in Hr|].
      intros [Ht Hr]. destruct (decide (t' = t)) as [->|]; [done|]. rewrite lookup_insert_ne in Ht by done.
      assert (thread_keys s !! k = Some t') as E' by now apply (t_live _ H). congruence.
    + rewrite lookup_insert_ne by done. rewrite (t_live _ H). destruct (decide (t' = t)) as [->|].
      * rewrite Hn, lookup_insert_eq. split; [intros [? _]; done|]. intros [[= ->] _]. done.
      * now rewrite lookup_insert_ne by done.
  - intros k'. rewrite lookup_insert_is_Some'. intros [->|Hk']; [done|now apply (t_dom _ H)].
  - rewrite dom_insert. pose proof (t_retired _ H). set_solver.
  - intros Hs. rewrite Hs in Es. done.
Qed.

Lemma ensure_covered s k :
  (forall ts, spawn ts = true) -> (started s = true -> stop s = false -> forall k', k' <> k -> is_Some (periodic s !! k') -> is_Some (thread_keys s !! k')) ->
  covered (ensure_periodic_thread_at spawn s k).
Proof.
  intros Hsp Hc Hs Hst k'. destruct (ensure_lists s k) as (-> & _ & _ & E1 & E2). rewrite E1 in Hs. rewrite E2 in Hst. intros Hk'.
  unfold ensure_periodic_thread_at. rewrite Hs, Hst, Hsp. cbn. destruct (thread_keys s !! k) as [t|] eqn:E.
  - destruct (decide (k' = k)) as [->|]; eauto.
  - cbn. rewrite lookup_insert_is_Some'. destruct (decide (k' = k)) as [->|]; eauto.
Qed.

Lemma add_periodic_spec n s id ph p :
  lists_ok n s -> 1000 <= p <= 10 ^ 18 -> 0 <= n -> n + 1 < 2 ^ 64 ->
  (add_periodic spawn s id ph p = Err TooManyPeriods /\ periodic s !! p = None /\ MAX_PERIODIC_THREADS <= Z.of_nat (size (periodic s))) \/
  exists s', add_periodic spawn s id ph p = Ok s' /\ lists_ok (n + 1) s' /\ (threads_ok s -> threads_ok s') /\
    ((forall ts, spawn ts = true) -> covered s -> covered s') /\ events s' = events s /\ io_intr s' = io_intr s /\
    forall k i q, on_periodic s' k i q <-> k = p /\ i = id /\ q = ph \/ (k <> p \/ i <> id) /\ on_periodic s k i q.
Proof.
  intros H Hp H0 Hn. unfold add_periodic. rewrite period_key_ok by done. cbn [bind_outcome].
  destruct (bool_decide _ && _) eqn:Eg.
  { apply andb_true_iff in Eg as [E1%bool_decide_eq_true E2%Z.leb_le]. left. auto. }
  right. set (m := <[p := insert (default new (periodic s !! p)) id ph]> (periodic s)). eexists. split; [done|].
  destruct (ensure_lists (with_periodic s m) p) as (Ep & Ee & Ei & _ & _). cbn in Ep, Ee, Ei. split_and!.
  - split; rewrite ?Ep, ?Ee, ?Ei.
    + intros k l Hl. split; [|split].
      * revert k l Hl. apply keyed_insert_ok; [done|done|]. intros k l Hl. apply (lo_periodic _ _ H _ _ Hl).
      * unfold m in Hl. apply lookup_insert_Some in Hl as [[<- <-]|[_ Hl]]; [|apply (lo_periodic _ _ H _ _ Hl)].
        apply not_true_is_false. assert (list_ok n (default new (periodic s !! p))) as Hd.
        { destruct (periodic s !! p) as [l|] eqn:E; cbn; [apply (lo_periodic _ _ H _ _ E)|now apply list_ok_new]. }
        rewrite (empty_no_member (n + 1)) by now apply list_ok_insert. intros Hno. apply (Hno id ph). apply member_insert. auto.
      * unfold m in Hl. apply lookup_insert_Some in Hl as [[<- _]|[_ Hl]]; [done|apply (lo_periodic _ _ H _ _ Hl)].
    + intros e l Hl. eapply list_ok_mono; [apply (lo_events _ _ H _ _ Hl)|lia].
    + intros e l Hl. eapply list_ok_mono; [apply (lo_io _ _ H _ _ Hl)|lia].
    + unfold m. rewrite map_size_insert. pose proof (lo_size _ _ H). destruct (periodic s !! p) as [l|] eqn:E; cbn; [done|].
      rewrite bool_decide_true in Eg by done. apply Z.leb_gt in Eg. unfold MAX_PERIODIC_THREADS in *. lia.
  - intros Ht. apply ensure_threads; [|cbn; exists (insert (default new (periodic s !! p)) id ph); apply lookup_insert_eq].
    destruct Ht as [T1 T2 T3 T4]. split; cbn; try done. intros k Hk. unfold m. rewrite lookup_insert_is_Some'. auto.
  - intros Hsp Hc. apply ensure_covered; [done|]. cbn. intros Hs Hst k' Hk' Hin. apply Hc; [done|done|].
    unfold m in Hin. rewrite lookup_insert_ne in Hin by done. done.
  - exact Ee.
  - exact Ei.
  - intros k i q. unfold on_periodic. rewrite Ep. apply keyed_insert.
Qed.

Lemma add_event_ok n s id ph e : lists_ok n s -> 0 <= n -> n + 1 < 2 ^ 64 -> lists_ok (n + 1) (add_event s id ph e).
Proof.
  intros H H0 Hn. pose proof (lists_ok_mono n (n + 1) s H ltac:(lia)) as H1. destruct e; [done|]. destruct H1 as [P E I S]. split; try done. cbn. apply keyed_insert_ok; [done|done|apply H].
Qed.

Lemma add_event_on s id ph e e' i q :
  on_event (add_event s id ph e) e' i q <->
  e <> [] /\ e' = e /\ i = id /\ q = ph \/ (e = [] \/ e' <> e \/ i <> id) /\ on_event s e' i q.
Proof.
  unfold on_event, add_event. destruct e as [|b e]; [naive_solver|]. cbn [events with_events].
  rewrite keyed_insert. naive_solver.
Qed.

(** Everything but the lists of events is left alone. *)
Lemma add_event_same s id ph e :
  let s' := add_event s id ph e in
  periodic s' = periodic s /\ io_intr s' = io_intr s /\ (threads_ok s -> threads_ok s') /\ (covered s -> covered s').
Proof. destruct e; cbn; split_and!; try done. now intros []. Qed.

(** ** The lists follow the fields *)

Definition placed (sets : list (list Rec)) (s : Scanner) : Prop :=
  (forall k id ph, on_periodic s k id ph -> exists r, record_at sets id = Some r /\
     parse_scan (scan_raw (common r)) = Ok (Periodic k) /\ phas (common r) = ph) /\
  (forall e id ph, on_event s e id ph -> exists r, record_at sets id = Some r /\
     parse_scan (scan_raw (common r)) = Ok OnEvent /\ phas (common r) = ph /\ evnt (common r) = e /\ e <> []).

Record sched_ok (n : Z) (s : Src) : Prop := {
  sc_lists : lists_ok n (scanner s);
  sc_threads : threads_ok (scanner s);
  sc_placed : placed (sets s) (scanner s) }.

Lemma record_at_upd sets id f id' :
  record_at (upd_record sets id f) id' = if decide (id' = id) then f <$> record_at sets id else record_at sets id'.
Proof.
  unfold record_at, upd_record. destruct id as [a b], id' as [a' b']. cbn. destruct (decide (mkId a' b' = mkId a b)) as [[= -> ->]|Hne].
  - rewrite list_lookup_alter_eq. destruct (sets !! a) as [set|]; [|done]. cbn. now rewrite list_lookup_alter_eq.
  - destruct (decide (a' = a)) as [->|]; [|now rewrite list_lookup_alter_ne]. rewrite list_lookup_alter_eq.
    destruct (sets !! a) as [set|]; [|done]. cbn. rewrite list_lookup_alter_ne; [done|congruence].
Qed.

(** The scanner after a record left all its lists. *)
Definition off_all (s : Scanner) (id : RecordId) : Scanner := unregister_io_intr (remove_event (remove_periodic s id) id) id.

Lemma off_all_ok n s id :
  lists_ok n s -> threads_ok s ->
  lists_ok n (off_all s id) /\ threads_ok (off_all s id) /\ (covered s -> covered (off_all s id)) /\
  (forall k i q, on_periodic (off_all s id) k i q <-> i <> id /\ on_periodic s k i q) /\
  (forall e i q, on_event (off_all s id) e i q <-> i <> id /\ on_event s e i q) /\
  (forall e i q, on_io (off_all s id) e i q <-> i <> id /\ on_io s e i q).
Proof.
  intros H Ht. destruct (remove_periodic_threads s id Ht) as [Ht' Hc']. pose proof (remove_periodic_ok n s id H) as H'. split_and!.
  - destruct H' as [P E I S]. split; [exact P| | |exact S]; cbn; apply keyed_remove_ok; apply H.
  - destruct Ht'. now split.
  - exact Hc'.
  - intros k i q. apply (remove_periodic_on n s id k i q H).
  - intros e i q. unfold on_event. cbn. apply keyed_remove.
  - intros e i q. unfold on_io. cbn. apply keyed_remove.
Qed.

(** A period that passed the check has room once the record has left its lists. *)
Lemma checked_period_fits n s id p :
  lists_ok n s -> 1000 <= p <= 10 ^ 18 -> check_period s id p = Ok tt -> periodic (off_all s id) !! p = None ->
  Z.of_nat (size (periodic (off_all s id))) < MAX_PERIODIC_THREADS.
Proof.
  intros H Hp Hc Hn. unfold check_period in Hc. rewrite period_key_ok in Hc by done. cbn [bind_outcome] in Hc.
  change (periodic (off_all s id)) with (periodic (remove_periodic s id)) in *.
  destruct (remove_periodic_size s id) as [Hle Hlt]. pose proof (lo_size _ _ H) as Hsz.
  destruct (periodic s !! p) as [l|] eqn:El.
  - assert (emptied id l = true) as He; [|specialize (Hlt _ _ El He); lia]. apply not_false_is_true. intros Ee.
    enough (periodic (remove_periodic s id) !! p = Some (remove l id).1) by congruence. apply remove_periodic_lookup. eauto.
  - destruct (existsb _ _) eqn:Ex.
    + apply existsb_exists in Ex as (l & Hin & Ha). apply list_elem_of_In, list_elem_of_fmap in Hin as ([k l'] & -> & Hkl).
      apply elem_of_map_to_list in Hkl. destruct (lo_periodic _ _ H _ _ Hkl) as (Hl & _ & _).
      specialize (Hlt _ _ Hkl (proj2 (alone_spec n _ _ Hl Ha))). lia.
    + destruct (Z.leb_spec MAX_PERIODIC_THREADS (Z.of_nat (size (periodic s)) - 0)); [done|lia].
Qed.

(** A record that is on no list but the one it belongs to is put there. *)
Lemma place_spec n s id spec ph ev :
  lists_ok n s -> 0 <= n -> n + 1 < 2 ^ 64 -> (forall p, spec = Periodic p -> 1000 <= p <= 10 ^ 18) ->
  (forall k q, on_periodic s k id q -> spec = Periodic k) ->
  (forall e q, on_event s e id q -> spec = OnEvent /\ e = ev /\ e <> []) ->
  (exists p, spec = Periodic p /\ place spawn s id spec ph ev = Err TooManyPeriods /\ periodic s !! p = None /\
     MAX_PERIODIC_THREADS <= Z.of_nat (size (periodic s))) \/
  exists s', place spawn s id spec ph ev = Ok s' /\ lists_ok (n + 1) s' /\ (threads_ok s -> threads_ok s') /\
    ((forall ts, spawn ts = true) -> covered s -> covered s') /\ io_intr s' = io_intr s /\
    (forall k i q, on_periodic s' k i q <-> spec = Periodic k /\ i = id /\ q = ph \/ i <> id /\ on_periodic s k i q) /\
    (forall e i q, on_event s' e i q <-> (spec = OnEvent /\ e = ev /\ e <> []) /\ i = id /\ q = ph \/ i <> id /\ on_event s e i q).
Proof.
  intros H H0 Hn Hp Op Oe. destruct spec as [|p| |]; cbn [place].
  2: destruct (add_periodic_spec n s id ph p H (Hp p eq_refl) H0 Hn) as [(E & E1 & E2)|(s' & E & H1 & H2 & H3 & H4 & H5 & H6)].
  2: left; eauto.
  2: right; exists s'; split; [done|]; split; [done|]; split; [done|]; split; [done|]; split; [done|]; split;
     [intros k i q; rewrite H6|unfold on_event in *; intros e i q; rewrite H4]; split; intros Hm.
  - right. exists s. split; [done|]. split; [now apply (lists_ok_mono n); [|lia]|]. split_and!; try done;
      intros k i q; (split; [intros Hm; right; split; [intros ->|done]|naive_solver]); [apply Op in Hm|apply Oe in Hm as [? _]]; discriminate.
  - destruct Hm as [(-> & -> & ->)|[Hd Hm]]; [auto|]. right. split; [|done]. intros ->. apply Op in Hm as Hk. injection Hk as ->. naive_solver.
  - naive_solver.
  - right. split; [intros ->|done]. apply Oe in Hm as [? _]. discriminate.
  - naive_solver.
  - right. destruct (add_event_same s id ph ev) as (Ep & Ei & Ht & Hc). eexists. split; [done|]. split; [now apply add_event_ok|].
    split; [done|]. split; [done|]. split; [done|]. split.
    + intros k i q. unfold on_periodic. rewrite Ep. split; [|naive_solver]. intros Hm. right. split; [|done]. intros ->. now apply Op in Hm.
    + intros e i q. rewrite add_event_on. split; [|intros [((_ & -> & He) & -> & ->)|[Hi Hm]]; auto 6].
      intros [(He & -> & -> & ->)|[Hd Hm]]; [auto 6|]. right. split; [|done]. intros ->. apply Oe in Hm as (_ & -> & He). naive_solver.
  - right. exists s. split; [done|]. split; [now apply (lists_ok_mono n); [|lia]|]. split_and!; try done;
      intros k i q; (split; [intros Hm; right; split; [intros ->|done]|naive_solver]); [apply Op in Hm|apply Oe in Hm as [? _]]; discriminate.
Qed.

(** The lists follow the fields again when one record changed and was placed. *)
Lemma placed_after sets s s' id f r spec :
  placed sets s -> record_at sets id = Some r -> parse_scan (scan_raw (common (f r))) = Ok spec ->
  (forall k i q, on_periodic s' k i q -> spec = Periodic k /\ i = id /\ q = phas (common (f r)) \/ i <> id /\ on_periodic s k i q) ->
  (forall e i q, on_event s' e i q ->
     (spec = OnEvent /\ e = evnt (common (f r)) /\ e <> []) /\ i = id /\ q = phas (common (f r)) \/ i <> id /\ on_event s e i q) ->
  placed (upd_record sets id f) s'.
Proof.
  intros [Pp Pe] Hr Hs Hp He. split.
  - intros k i q Hm. rewrite record_at_upd. apply Hp in Hm as [(-> & -> & ->)|[Hd Hm]].
    + rewrite decide_True, Hr by done. exists (f r). auto.
    + rewrite decide_False by done. now apply Pp.
  - intros e i q Hm. rewrite record_at_upd. apply He in Hm as [((-> & -> & Hne) & -> & ->)|[Hd Hm]].
    + rewrite decide_True, Hr by done. exists (f r). auto 6.
    + rewrite decide_False by done. now apply Pe.
Qed.

(** The sections of a write to SCAN, one after the other. *)
Lemma put_scan_sections s id raw spec r : parse_scan raw = Ok spec -> record_at (sets s) id = Some r ->
  put_scan spawn s id raw =
  let c := common r in
  let sets := upd_record (sets s) id (upd_common (fun c => set_scan raw (phas c) (evnt c) c)) in
  let sc := off_all (scanner s) id in
  match match spec with Periodic p => check_period (scanner s) id p | _ => Ok tt end with
  | Err e => (Err (Refused e), s)
  | Panic => (Panic, s)
  | OutOfFuel => (OutOfFuel, s)
  | Ok _ =>
    match place spawn sc id spec (phas c) (evnt c) with
    | Ok sc => (Ok tt, mkSrc sets sc)
    | Err e => (Err (Refused e), mkSrc sets sc)
    | Panic => (Panic, mkSrc sets sc)
    | OutOfFuel => (OutOfFuel, mkSrc sets sc)
    end
  end.
Proof.
  intros Ep Hr. unfold put_scan, begin_scan. rewrite Ep.
  assert (Hrun : forall n, finish spawn (S (S (S (S (S n))))) (Next (ScanStore id raw spec)) s =
    match place spawn (off_all (scanner s) id) id spec (phas (common r)) (evnt (common r)) with
    | Ok sc => (Ok tt, mkSrc (upd_record (sets s) id (upd_common (fun c => set_scan raw (phas c) (evnt c) c))) sc)
    | Err e => (Err (Refused e), mkSrc (upd_record (sets s) id (upd_common (fun c => set_scan raw (phas c) (evnt c) c))) (off_all (scanner s) id))
    | Panic => (Panic, mkSrc (upd_record (sets s) id (upd_common (fun c => set_scan raw (phas c) (evnt c) c))) (off_all (scanner s) id))
    | OutOfFuel => (OutOfFuel, mkSrc (upd_record (sets s) id (upd_common (fun c => set_scan raw (phas c) (evnt c) c))) (off_all (scanner s) id))
    end).
  { intros n. cbn [finish section]. unfold put_scan_section, store. rewrite Hr. cbn [finish section sets scanner].
    unfold off_all. destruct (place _ _ _ _ _ _); by destruct n. }
  destruct spec as [|p| |]; cbv zeta; try apply Hrun.
  destruct (check_period (scanner s) id p) as [[]| | |] eqn:Ec; [rewrite <- (Hrun 0%nat)|..]; cbn [finish section]; by rewrite Ec.
Qed.

(** What a write to SCAN that nothing interrupts does. *)
Lemma put_scan_spec n s id raw r :
  sched_ok n s -> 0 <= n -> n + 1 < 2 ^ 64 -> record_at (sets s) id = Some r ->
  (put_scan spawn s id raw = (Err NotAScan, s) /\ parse_scan raw = Err tt) \/
  (exists p, put_scan spawn s id raw = (Err (Refused TooManyPeriods), s) /\ parse_scan raw = Ok (Periodic p) /\
     check_period (scanner s) id p = Err TooManyPeriods) \/
  exists spec s', put_scan spawn s id raw = (Ok tt, s') /\ parse_scan raw = Ok spec /\
    sets s' = upd_record (sets s) id (upd_common (fun c => set_scan raw (phas c) (evnt c) c)) /\
    lists_ok (n + 1) (scanner s') /\ threads_ok (scanner s') /\
    ((forall ts, spawn ts = true) -> covered (scanner s) -> covered (scanner s')) /\
    (forall k i q, on_periodic (scanner s') k i q <->
       spec = Periodic k /\ i = id /\ q = phas (common r) \/ i <> id /\ on_periodic (scanner s) k i q) /\
    (forall e i q, on_event (scanner s') e i q <->
       (spec = OnEvent /\ e = evnt (common r) /\ e <> []) /\ i = id /\ q = phas (common r) \/ i <> id /\ on_event (scanner s) e i q) /\
    (forall e i q, on_io (scanner s') e i q <-> i <> id /\ on_io (scanner s) e i q).
Proof.
  intros H H0 Hn Hr. destruct (parse_scan_bounds raw) as [[Ep|[spec Ep]] Hb]; [left; unfold put_scan, begin_scan; rewrite Ep; done|].
  rewrite (put_scan_sections s id raw spec r Ep Hr). cbv zeta.
  set (chk := match spec with Periodic p => check_period (scanner s) id p | _ => Ok tt end).
  assert (chk = Ok tt \/ exists p, spec = Periodic p /\ chk = Err TooManyPeriods) as [Hc|(p & -> & Hc)].
  { unfold chk. destruct spec as [|p| |]; auto. unfold check_period. rewrite period_key_ok by auto. cbn [bind_outcome].
    destruct (_ !! p); [auto|]. destruct (_ <=? _); eauto. }
  2:{ right. left. exists p. rewrite Hc. auto. }
  right. right. rewrite Hc. destruct (off_all_ok n (scanner s) id (sc_lists _ _ H) (sc_threads _ _ H)) as (Ho & Ht & Hcv & Op & Oe & Oi).
  set (sc := off_all (scanner s) id) in *. exists spec.
  destruct (place_spec n sc id spec (phas (common r)) (evnt (common r)) Ho H0 Hn) as [(p & -> & _ & Hnp & Hsz)|(s' & -> & H1 & H2 & H3 & H4 & H5 & H6)].
  - intros p ->. auto.
  - intros k q Hm. apply Op in Hm as [? _]. done.
  - intros e q Hm. apply Oe in Hm as [? _]. done.
  - pose proof (checked_period_fits n (scanner s) id p (sc_lists _ _ H) (Hb p Ep) Hc Hnp). fold sc in H1. lia.
  - eexists. split; [done|]. split; [done|]. split; [done|]. cbn. split; [done|]. split; [auto|]. split; [auto|]. split; [|split].
    + intros k i q. rewrite H5, Op. tauto.
    + intros e i q. rewrite H6, Oe. tauto.
    + intros e i q. unfold on_io. rewrite H4. apply Oi.
Qed.

(** A record is placed by its own fields. *)
Lemma refield_ok n s id f r :
  sched_ok n s -> 0 <= n -> n + 1 < 2 ^ 64 -> record_at (sets s) id = Some r ->
  scan_raw (common (f r)) = scan_raw (common r) -> evnt (common (f r)) = evnt (common r) ->
  let sc := place_or_log spawn (scanner s) id (parse_scan (scan_raw (common r))) (phas (common (f r))) (evnt (common r)) in
  sched_ok (n + 1) (mkSrc (upd_record (sets s) id f) sc) /\ ((forall ts, spawn ts = true) -> covered (scanner s) -> covered sc).
Proof.
  intros H H0 Hn Hr Es Ee. destruct (sc_placed _ _ H) as [Pp Pe].
  assert (forall k q, on_periodic (scanner s) k id q -> parse_scan (scan_raw (common r)) = Ok (Periodic k)) as Op.
  { intros k q Hm. destruct (Pp _ _ _ Hm) as (r' & Hr' & Hs & _). congruence. }
  assert (forall e q, on_event (scanner s) e id q -> parse_scan (scan_raw (common r)) = Ok OnEvent /\ e = evnt (common r) /\ e <> []) as Oe.
  { intros e q Hm. destruct (Pe _ _ _ Hm) as (r' & Hr' & Hs & _ & He & Hne). assert (r' = r) as -> by congruence. auto. }
  pose proof (lists_ok_mono n (n + 1) _ (sc_lists _ _ H) ltac:(lia)) as L1. unfold place_or_log.
  assert (forall s', (forall k i q, on_periodic s' k i q -> on_periodic (scanner s) k i q) -> (forall e i q, on_event s' e i q -> on_event (scanner s) e i q) ->
    (forall k q, ~ on_periodic s' k id q) -> (forall e q, ~ on_event s' e id q) -> placed (upd_record (sets s) id f) s') as Hsame.
  { intros s' H1 H2 H3 H4. split.
    - intros k i q Hm. rewrite record_at_upd, decide_False by (intros ->; now apply H3 in Hm). auto.
    - intros e i q Hm. rewrite record_at_upd, decide_False by (intros ->; now apply H4 in Hm). auto. }
  destruct (parse_scan_bounds (scan_raw (common r))) as [[Ep|[spec Ep]] Hb]; rewrite Ep in *.
  - split; [|done]. split; [exact L1|apply H|]. cbn. apply Hsame; [auto..| |]; [intros k q Hm; now apply Op in Hm|intros e q Hm; now apply Oe in Hm as [? _]].
  - destruct (place_spec n (scanner s) id spec (phas (common (f r))) (evnt (common r)) (sc_lists _ _ H) H0 Hn)
      as [(p & -> & -> & Hnp & _)|(s' & -> & H1 & H2 & H3 & H4 & H5 & H6)].
    + intros p ->. auto.
    + intros k q Hm. apply Op in Hm. congruence.
    + intros e q Hm. apply Oe in Hm as (Hs & He). split; [congruence|done].
    + split; [|done]. split; [exact L1|apply H|]. cbn. apply Hsame; [auto..| |].
      * intros k q Hm. pose proof (Op _ _ Hm) as [= ->]. destruct Hm as (l & El & _). congruence.
      * intros e q Hm. apply Oe in Hm as [? _]. discriminate.
    + split; [|auto]. split; [done|apply H2, H|]. cbn. apply (placed_after _ (scanner s) _ _ _ r spec); [apply H|done|now rewrite Es| |].
      * intros k i q Hm. now apply H5 in Hm.
      * intros e i q Hm. rewrite Ee. now apply H6 in Hm.
Qed.

(** Threads for a list of periods; [P] holds of the periods that had one before. *)
Lemma ensure_all (P : Z -> Prop) ks s :
  threads_ok s -> started s = true -> Forall (fun k => is_Some (periodic s !! k)) ks ->
  (forall k, P k -> is_Some (thread_keys s !! k)) ->
  let s1 := fold_left (ensure_periodic_thread_at spawn) ks s in
  threads_ok s1 /\ periodic s1 = periodic s /\ events s1 = events s /\ io_intr s1 = io_intr s /\ stop s1 = stop s /\
  ((forall ts, spawn ts = true) -> stop s = false -> forall k, k ∈ ks \/ P k -> is_Some (thread_keys s1 !! k)).
Proof.
  revert P s. induction ks as [|k ks IH]; intros P s H Hst Hks HP; cbn [fold_left].
  { split_and!; try done. intros _ _ k [Hk|Hk]; [now apply not_elem_of_nil in Hk|auto]. }
  apply Forall_cons in Hks as [Hk Hks]. destruct (ensure_lists s k) as (E1 & E2 & E3 & E4 & E5).
  set (s' := ensure_periodic_thread_at spawn s k) in *.
  destruct (IH (fun k' => is_Some (thread_keys s' !! k')) s' (ensure_threads s k H Hk)) as (F1 & F2 & F3 & F4 & F5 & F6);
    [congruence|now rewrite E1|done|].
  split_and!; try congruence. intros Hsp Hstop k' Hk'. apply F6; [done|congruence|].
  rewrite elem_of_cons in Hk'. destruct Hk' as [[->|Hk']|Hk']; [right|now left|right];
    unfold s', ensure_periodic_thread_at; rewrite Hst, Hstop, Hsp; cbn.
  - destruct (thread_keys s !! k) eqn:E; [eauto|]. cbn. rewrite lookup_insert_eq. eauto.
  - apply HP in Hk'. destruct (thread_keys s !! k); [done|]. cbn. rewrite lookup_insert_is_Some'. auto.
Qed.

Lemma start_threads s :
  threads_ok s -> threads_ok (start spawn s) /\ periodic (start spawn s) = periodic s /\ events (start spawn s) = events s /\
  io_intr (start spawn s) = io_intr s /\
  ((forall ts, spawn ts = true) -> (forall k l, periodic s !! k = Some l -> is_empty l = false) -> covered (start spawn s)).
Proof.
  intros H. unfold start. set (s0 := mkScanner _ _ _ true _ _ _ _). set (ks := (map_to_list _).*1).
  assert (threads_ok s0) as H0 by (destruct H; now split).
  destruct (ensure_all (fun _ => False) ks s0 H0 eq_refl) as (F1 & F2 & F3 & F4 & F5 & F6); [|done|].
  { apply Forall_fmap, Forall_forall. intros [k l] Hin. apply elem_of_map_to_list, map_lookup_filter_Some in Hin as [E _]. cbn. eauto. }
  split_and!; try done. intros Hsp Hne _ Hstop k [l El]. rewrite F2 in El. apply F6; [done|congruence|left].
  apply list_elem_of_fmap. exists (k, l). split; [done|]. apply elem_of_map_to_list, map_lookup_filter_Some. split; [done|]. now apply (Hne k).
Qed.

(** ** One section *)

Definition task_record (t : Task) : RecordId :=
  match t with
  | ScanCheck id _ _ | ScanStore id _ _ | LeavePeriodic id _ _ _ | LeaveEvent id _ _ _ | LeaveIo id _ _ _ | Join id _ _ _
  | PhasStore id _ | Rejoin id _ _ _ | EvntStore id _ | EvntLeave id _ _ | EvntJoin id _ _ => id
  end.

Definition schedulable (spec : ScanSpec) : Prop := forall p, spec = Periodic p -> 1000 <= p <= 10 ^ 18.

(** The specification a write carries comes from a text. *)
Definition spec_ok (t : Task) : Prop :=
  match t with
  | ScanCheck _ raw p => parse_scan raw = Ok (Periodic p)
  | ScanStore _ raw spec => parse_scan raw = Ok spec
  | LeavePeriodic _ spec _ _ | LeaveEvent _ spec _ _ | LeaveIo _ spec _ _ | Join _ spec _ _ | Rejoin _ spec _ _ => schedulable spec
  | PhasStore _ _ | EvntStore _ _ | EvntLeave _ _ _ | EvntJoin _ _ _ => True
  end.

(** Nothing is different for the other records. *)
Definition elsewhere (id : RecordId) (s s' : Src) : Prop := forall i, i <> id ->
  record_at (sets s') i = record_at (sets s) i /\
  (forall k q, on_periodic (scanner s') k i q <-> on_periodic (scanner s) k i q) /\
  (forall e q, on_event (scanner s') e i q <-> on_event (scanner s) e i q).

Lemma elsewhere_refl id s : elsewhere id s s.
Proof. by intros i _. Qed.

Lemma place_any n s id spec ph ev : lists_ok n s -> 0 <= n -> n + 1 < 2 ^ 64 -> schedulable spec ->
  match place spawn s id spec ph ev with
  | Ok s' => lists_ok (n + 1) s' /\ (threads_ok s -> threads_ok s') /\ ((forall ts, spawn ts = true) -> covered s -> covered s') /\
      forall i, i <> id -> (forall k q, on_periodic s' k i q <-> on_periodic s k i q) /\ (forall e q, on_event s' e i q <-> on_event s e i q)
  | Err _ => exists p, spec = Periodic p /\ periodic s !! p = None
  | _ => False
  end.
Proof.
  intros H H0 Hn Hp. pose proof (lists_ok_mono n (n + 1) s H ltac:(lia)) as H1. destruct spec as [|p| |]; cbn [place]; try done.
  - destruct (add_periodic_spec n s id ph p H (Hp p eq_refl) H0 Hn) as [(-> & Hnone & _)|(s' & -> & A & B & C & Ee & _ & Ho)]; [by exists p|].
    split; [done|]. split; [done|]. split; [done|]. intros i Hi. unfold on_event. rewrite Ee. split; [|done]. intros k q. rewrite Ho. naive_solver.
  - destruct (add_event_same s id ph ev) as (Ep & _ & B & C). split; [by apply add_event_ok|]. split; [done|]. split; [done|].
    intros i Hi. unfold on_periodic. rewrite Ep. split; [done|]. intros e q. rewrite add_event_on. naive_solver.
Qed.

Lemma store_steady s id f k :
  let '(p, s') := store s id f k in
  scanner s' = scanner s /\ elsewhere id s s' /\
  (p = Done Panic \/ exists r, record_at (sets s) id = Some r /\ p = k (common r) /\ record_at (sets s') id = Some (upd_common f r)).
Proof.
  unfold store. destruct (record_at (sets s) id) as [r|] eqn:Er; [|split; [done|]; split; [apply elsewhere_refl|by left]].
  split; [done|]. split.
  - intros i Hi. cbn. by rewrite record_at_upd, decide_False.
  - right. exists r. split; [done|]. split; [done|]. cbn. by rewrite record_at_upd, decide_True, Er.
Qed.

Lemma remove_event_ok n s id : lists_ok n s -> lists_ok n (remove_event s id) /\ (threads_ok s -> threads_ok (remove_event s id)).
Proof. intros [P E I S]. split; [split; [done|cbn; by apply keyed_remove_ok|done..]|by intros []]. Qed.

Lemma unregister_io_ok n s id : lists_ok n s -> lists_ok n (unregister_io_intr s id) /\ (threads_ok s -> threads_ok (unregister_io_intr s id)).
Proof. intros [P E I S]. split; [split; [done..|cbn; by apply keyed_remove_ok|done]|by intros []]. Qed.

Lemma remove_event_on s id e i q : on_event (remove_event s id) e i q <-> i <> id /\ on_event s e i q.
Proof. unfold on_event. cbn. apply keyed_remove. Qed.

(** What a section of any write keeps: the lists, the threads, and everything of
    other records. *)
Definition kept (n : Z) (t : Task) (s : Src) (x : Progress * Src) : Prop :=
  lists_ok (n + 1) (scanner x.2) /\ threads_ok (scanner x.2) /\
  ((forall ts, spawn ts = true) -> covered (scanner s) -> covered (scanner x.2)) /\ elsewhere (task_record t) s x.2 /\
  match x.1 with Next t' => spec_ok t' /\ task_record t' = task_record t | Done _ => True end.

Lemma kept_store n t s f k : lists_ok n (scanner s) -> threads_ok (scanner s) ->
  (forall r, match k (common r) with Next t' => spec_ok t' /\ task_record t' = task_record t | Done _ => True end) ->
  kept n t s (store s (task_record t) f k).
Proof.
  intros L T Hk. pose proof (store_steady s (task_record t) f k) as H. destruct (store _ _ _ _) as [p s']. destruct H as (E & He & Hp).
  unfold kept. cbn [fst snd]. rewrite E. split; [apply (lists_ok_mono n); [done|lia]|]. split; [done|]. split; [done|]. split; [done|].
  destruct Hp as [->|(r & _ & -> & _)]; [done|]. apply Hk.
Qed.

Lemma section_kept n t s : lists_ok n (scanner s) -> threads_ok (scanner s) -> 0 <= n -> n + 1 < 2 ^ 64 -> spec_ok t ->
  kept n t s (section spawn t s).
Proof.
  intros L T H0 Hn Hs. pose proof (lists_ok_mono n (n + 1) _ L ltac:(lia)) as L1. destruct t as [id raw p|id raw spec|id spec ph ev|id spec ph ev|id spec ph ev|id spec ph ev|id v|id spec ph ev|id ev|id ph ev|id ph ev];
    cbn [section spec_ok] in *.
  - unfold kept. cbn [fst snd]. do 3 (split; [done|]). split; [apply elsewhere_refl|]. by destruct (check_period _ _ _).
  - apply (kept_store n (ScanStore id raw spec)); [done..|]. intros r. split; [|done]. cbn. intros p ->. by apply (parse_scan_bounds raw).
  - unfold kept. cbn [fst snd scanner]. destruct (remove_periodic_threads _ id T) as [T' C']. split; [by apply remove_periodic_ok|].
    split; [done|]. split; [done|]. split; [|done]. intros i Hi. split; [done|]. split; [|done]. intros k q. cbn [scanner].
    rewrite (remove_periodic_on n) by done. naive_solver.
  - destruct (remove_event_ok (n + 1) _ id L1) as [L2 T2]. split; [done|]. split; [by apply T2|]. split; [done|]. split; [|done].
    intros i Hi. split; [done|]. split; [done|]. intros e q. cbn [scanner snd]. rewrite remove_event_on. naive_solver.
  - destruct (unregister_io_ok (n + 1) _ id L1) as [L2 T2]. split; [done|]. split; [by apply T2|]. split; [done|]. split; [|done]. by intros i Hi.
  - pose proof (place_any n (scanner s) id spec ph ev L H0 Hn Hs) as Hp. unfold kept.
    destruct (place _ _ _ _ _ _) as [sc| | |]; [|by do 3 (split; [done|]); split; [apply elsewhere_refl|]|done..]. cbn [fst snd scanner].
    destruct Hp as (A & B & C & O). split; [done|]. split; [by apply B|]. split; [done|]. split; [|done]. intros i Hi. split; [done|]. by apply O.
  - apply (kept_store n (PhasStore id v)); [done..|]. intros r. destruct (parse_scan_bounds (scan_raw (common r))) as [_ Hb].
    destruct (parse_scan (scan_raw (common r))) as [spec| | |]; try done. split; [|done]. cbn. intros p ->. by apply Hb.
  - pose proof (place_any n (scanner s) id spec ph ev L H0 Hn Hs) as Hp. unfold kept, place_or_log. cbn [fst snd scanner].
    destruct (place _ _ _ _ _ _) as [sc| | |]; [|by do 3 (split; [done|]); split; [intros i|]|done..].
    destruct Hp as (A & B & C & O). split; [done|]. split; [by apply B|]. split; [done|]. split; [|done]. intros i Hi. split; [done|]. by apply O.
  - apply (kept_store n (EvntStore id ev)); [done..|]. intros r. by destruct (parse_scan (scan_raw (common r))) as [[]| | |].
  - destruct (remove_event_ok (n + 1) _ id L1) as [L2 T2]. split; [done|]. split; [by apply T2|]. split; [done|]. split; [|done].
    intros i Hi. split; [done|]. split; [done|]. intros e q. cbn [scanner snd]. rewrite remove_event_on. naive_solver.
  - pose proof (place_any n (scanner s) id OnEvent ph ev L H0 Hn ltac:(done)) as (A & B & C & O). split; [done|]. split; [by apply B|].
    split; [done|]. split; [|done]. intros i Hi. split; [done|]. by apply O.
Qed.

(** ** What a write leaves of its record *)

(** The record's place follows its fields. *)
Definition settled (s : Src) (id : RecordId) : Prop :=
  (forall k q, on_periodic (scanner s) k id q -> exists r, record_at (sets s) id = Some r /\
     parse_scan (scan_raw (common r)) = Ok (Periodic k) /\ phas (common r) = q) /\
  (forall e q, on_event (scanner s) e id q -> exists r, record_at (sets s) id = Some r /\
     parse_scan (scan_raw (common r)) = Ok OnEvent /\ phas (common r) = q /\ evnt (common r) = e /\ e <> []).

Definition named (s : Src) (id : RecordId) (spec : ScanSpec) (ph : Z) (ev : bytes) : Prop :=
  exists r, record_at (sets s) id = Some r /\ parse_scan (scan_raw (common r)) = Ok spec /\ phas (common r) = ph /\ evnt (common r) = ev.

Definition off_periodic (s : Src) (id : RecordId) : Prop := forall k q, ~ on_periodic (scanner s) k id q.
Definition off_events (s : Src) (id : RecordId) : Prop := forall e q, ~ on_event (scanner s) e id q.

(** What holds of the record between the sections of the only write to it. *)
Definition task_ok (s : Src) (t : Task) : Prop :=
  match t with
  | ScanCheck id _ _ | ScanStore id _ _ | PhasStore id _ | EvntStore id _ => settled s id
  | LeavePeriodic id spec ph ev => named s id spec ph ev
  | LeaveEvent id spec ph ev => named s id spec ph ev /\ off_periodic s id
  | LeaveIo id spec ph ev | Join id spec ph ev => named s id spec ph ev /\ off_periodic s id /\ off_events s id
  | Rejoin id spec ph ev => named s id spec ph ev /\ (forall k q, on_periodic (scanner s) k id q -> spec = Periodic k) /\
      (forall e q, on_event (scanner s) e id q -> spec = OnEvent /\ e = ev /\ e <> [])
  | EvntLeave id ph ev => named s id OnEvent ph ev /\ off_periodic s id
  | EvntJoin id ph ev => named s id OnEvent ph ev /\ off_periodic s id /\ off_events s id
  end.

Lemma off_settled s id : off_periodic s id -> off_events s id -> settled s id.
Proof. intros Hp He. split; [intros k q Hm; by apply Hp in Hm|intros e q Hm; by apply He in Hm]. Qed.

(** The last section of a write puts the record on the list of its fields. *)
Lemma joined n s id spec ph ev : lists_ok n (scanner s) -> 0 <= n -> n + 1 < 2 ^ 64 -> schedulable spec -> named s id spec ph ev ->
  (forall k q, on_periodic (scanner s) k id q -> spec = Periodic k) ->
  (forall e q, on_event (scanner s) e id q -> spec = OnEvent /\ e = ev /\ e <> []) ->
  settled (mkSrc (sets s) (place_or_log spawn (scanner s) id (Ok spec) ph ev)) id /\
  (place spawn (scanner s) id spec ph ev = Err TooManyPeriods -> settled s id).
Proof.
  intros L H0 Hn Hp (r & Hr & Hs & Hph & Hev) Op Oe. unfold place_or_log.
  destruct (place_spec n (scanner s) id spec ph ev L H0 Hn Hp Op Oe) as [(p & -> & -> & Hnone & _)|(s' & -> & _ & _ & _ & _ & H5 & H6)].
  - assert (settled s id); [|done]. apply off_settled; [|intros e q Hm; apply Oe in Hm as [? _]; done].
    intros k q Hm. pose proof (Op _ _ Hm) as [= ->]. destruct Hm as (l & El & _). congruence.
  - split; [|done]. split; cbn [scanner sets].
    + intros k q Hm. apply H5 in Hm as [(-> & _ & ->)|[? _]]; [|done]. by exists r.
    + intros e q Hm. apply H6 in Hm as [((-> & -> & Hne) & _ & ->)|[? _]]; [|done]. by exists r.
Qed.

(** The stores of PHAS and EVNT, under the lock of the record. *)
Lemma phas_stored s id v : settled s id ->
  let '(p, s') := put_phas_section id v s in
  match p with Next t' => task_ok s' t' | Done _ => settled s' id end.
Proof.
  intros Hset. pose proof Hset as [Pp Pe]. unfold put_phas_section, store. destruct (record_at (sets s) id) as [r|] eqn:Er; [|exact Hset]. set (f := fun c => set_scan _ _ _ c).
  assert (Hp : forall k q, on_periodic (scanner s) k id q -> parse_scan (scan_raw (common r)) = Ok (Periodic k))
    by (intros k q Hm; destruct (Pp _ _ Hm) as (r' & Hr' & Hs & _); congruence).
  assert (He : forall e q, on_event (scanner s) e id q -> parse_scan (scan_raw (common r)) = Ok OnEvent /\ e = evnt (common r) /\ e <> []).
  { intros e q Hm. destruct (Pe _ _ Hm) as (r' & Hr' & Hs & _ & Hev & Hne). assert (r' = r) as -> by congruence. auto. }
  destruct (parse_scan (scan_raw (common r))) as [spec| | |] eqn:Es; cbn [task_ok].
  - split; [|split; cbn [scanner]].
    + exists (upd_common f r). cbn [sets]. rewrite record_at_upd, decide_True, Er by done. done.
    + intros k q Hm. apply Hp in Hm. congruence.
    + intros e q Hm. apply He in Hm as ([= ->] & ? & ?). done.
  - by apply off_settled; intros x q Hm; [apply Hp in Hm|apply He in Hm as [? _]].
  - by apply off_settled; intros x q Hm; [apply Hp in Hm|apply He in Hm as [? _]].
  - by apply off_settled; intros x q Hm; [apply Hp in Hm|apply He in Hm as [? _]].
Qed.

Lemma evnt_stored s id ev : settled s id ->
  let '(p, s') := put_evnt_section id ev s in
  match p with Next t' => task_ok s' t' | Done _ => settled s' id end.
Proof.
  intros Hset. pose proof Hset as [Pp Pe]. unfold put_evnt_section, store. destruct (record_at (sets s) id) as [r|] eqn:Er; [|exact Hset]. set (f := fun c => set_scan _ _ _ c).
  set (s' := mkSrc _ _). assert (Hr' : record_at (sets s') id = Some (upd_common f r)) by (cbn; by rewrite record_at_upd, decide_True, Er).
  assert (parse_scan (scan_raw (common r)) = Ok OnEvent \/ parse_scan (scan_raw (common r)) <> Ok OnEvent) as [Es|Es]
    by (destruct (parse_scan _) as [[]| | |]; auto; now right).
  - rewrite Es. cbn [task_ok]. split; [by exists (upd_common f r)|]. intros k q Hm. destruct (Pp _ _ Hm) as (r' & ? & Hs & _). congruence.
  - replace (match parse_scan (scan_raw (common r)) with Ok OnEvent => _ | _ => _ end) with (Done (Ok tt)) by (by destruct (parse_scan _) as [[]| | |]).
    split.
    + intros k q Hm. destruct (Pp _ _ Hm) as (r' & ? & Hs & Hq). exists (upd_common f r). assert (r' = r) as -> by congruence. done.
    + intros e q Hm. destruct (Pe _ _ Hm) as (r' & ? & Hs & _). assert (r' = r) as -> by congruence. done.
Qed.

Lemma section_own n t s : lists_ok n (scanner s) -> 0 <= n -> n + 1 < 2 ^ 64 -> spec_ok t -> task_ok s t ->
  let '(p, s') := section spawn t s in
  match p with Next t' => task_ok s' t' | Done _ => settled s' (task_record t) end.
Proof.
  intros L H0 Hn Hs Ht. destruct t as [id raw p|id raw spec|id spec ph ev|id spec ph ev|id spec ph ev|id spec ph ev|id v|id spec ph ev|id ev|id ph ev|id ph ev];
    cbn [section spec_ok task_ok task_record] in *.
  - by destruct (check_period _ _ _).
  - unfold put_scan_section. pose proof (store_steady s id (fun c => set_scan raw (phas c) (evnt c) c) (fun c => Next (LeavePeriodic id spec (phas c) (evnt c)))) as H.
    unfold store in *. destruct (record_at (sets s) id) as [r|]; [|done]. destruct H as (_ & _ & [?|(r' & [= <-] & _ & Hr)]); [done|].
    by exists (upd_common (fun c => set_scan raw (phas c) (evnt c) c) r).
  - split; [exact Ht|]. intros k q. cbn [scanner]. rewrite (remove_periodic_on n) by done. naive_solver.
  - destruct Ht as [Hm Hp]. split; [exact Hm|]. split; [exact Hp|]. intros e q. cbn [scanner]. rewrite remove_event_on. naive_solver.
  - exact Ht.
  - destruct Ht as (Hm & Hp & He). destruct (joined n s id spec ph ev L H0 Hn Hs Hm) as [J1 J2]; [intros k q Hk; by apply Hp in Hk|intros e q Hk; by apply He in Hk|].
    unfold place_or_log in J1. destruct (place _ _ _ _ _ _) as [sc|e| |] ; done.
  - by apply phas_stored.
  - destruct Ht as (Hm & Hp & He). by apply (joined n s id spec ph ev L H0 Hn Hs Hm Hp He).
  - by apply evnt_stored.
  - destruct Ht as [Hm Hp]. split; [exact Hm|]. split; [exact Hp|]. intros e q. cbn [scanner]. rewrite remove_event_on. naive_solver.
  - destruct Ht as (Hm & Hp & He). destruct (joined n s id OnEvent ph ev L H0 Hn ltac:(done) Hm) as [J _];
      [intros k q Hk; by apply Hp in Hk|intros e q Hk; by apply He in Hk|exact J].
Qed.

(** ** Writes under way *)

(** The source and the writes between two of their sections. *)
Record World := mkWorld { src : Src; tasks : gmap nat Task }.

(** A client's write begins, as the write [i]; the write [i] takes its next section;
    a driver registers; the server starts and stops. *)
Inductive Move :=
| PutScan (i : nat) (id : RecordId) (raw : bytes) | PutPhas (i : nat) (id : RecordId) (v : Z) | PutEvnt (i : nat) (id : RecordId) (ev : bytes)
| Resume (i : nat)
| RegisterIo (id : RecordId) (ph : Z) (source : bytes) | UnregisterIo (id : RecordId) | Start | Shutdown.

Definition begin (w : World) (i : nat) (p : Progress) : World :=
  match p, tasks w !! i with
  | Next t, None => mkWorld (src w) (<[i := t]> (tasks w))
  | _, _ => w
  end.

Definition resume (w : World) (i : nat) : World :=
  match tasks w !! i with
  | None => w
  | Some t =>
    let '(p, s) := section spawn t (src w) in
    mkWorld s (match p with Next t => <[i := t]> (tasks w) | Done _ => delete i (tasks w) end)
  end.

Definition on_scanner (w : World) (f : Scanner -> Scanner) : World :=
  mkWorld (mkSrc (sets (src w)) (f (scanner (src w)))) (tasks w).

Definition move (w : World) (m : Move) : World :=
  match m with
  | PutScan i id raw => begin w i (begin_scan id raw)
  | PutPhas i id v => begin w i (Next (PhasStore id v))
  | PutEvnt i id ev => begin w i (Next (EvntStore id ev))
  | Resume i => resume w i
  | RegisterIo id ph source => on_scanner w (fun s => register_io_intr s id ph source)
  | UnregisterIo id => on_scanner w (fun s => unregister_io_intr s id)
  | Start => on_scanner w (start spawn)
  | Shutdown => on_scanner w shutdown
  end.

Definition run (w : World) (ms : list Move) : World := fold_left move ms w.

(** A write to the record is under way. *)
Definition busy (w : World) (id : RecordId) : bool := existsb (fun t => bool_decide (task_record t = id)) (map_to_list (tasks w)).*2.

(** The record a move begins to write. *)
Definition begins (m : Move) : option RecordId :=
  match m with PutScan _ id _ | PutPhas _ id _ | PutEvnt _ id _ => Some id | _ => None end.

(** No write to the record begins while another one is under way. *)
Fixpoint apart (id : RecordId) (w : World) (ms : list Move) : bool :=
  match ms with
  | [] => true
  | m :: ms => negb (bool_decide (begins m = Some id) && busy w id) && apart id (move w m) ms
  end.

Lemma busy_spec w id : busy w id = true <-> exists i t, tasks w !! i = Some t /\ task_record t = id.
Proof.
  unfold busy. rewrite existsb_exists. split.
  - intros (t & Hin & He). apply list_elem_of_In, list_elem_of_fmap in Hin as ([i t'] & -> & Hin). apply elem_of_map_to_list in Hin.
    apply bool_decide_eq_true in He. by exists i, t'.
  - intros (i & t & Ht & He). exists t. split; [|by apply bool_decide_eq_true]. apply list_elem_of_In, list_elem_of_fmap. exists (i, t).
    split; [done|]. by apply elem_of_map_to_list.
Qed.

(** What holds at any moment. *)
Record steady (n : Z) (w : World) : Prop := {
  w_lists : lists_ok n (scanner (src w));
  w_threads : threads_ok (scanner (src w));
  w_specs : forall i t, tasks w !! i = Some t -> spec_ok t }.

(** What holds of a record whose writes do not overlap. *)
Record orderly (id : RecordId) (w : World) : Prop := {
  o_one : forall i j t u, tasks w !! i = Some t -> tasks w !! j = Some u -> task_record t = id -> task_record u = id -> i = j;
  o_task : forall i t, tasks w !! i = Some t -> task_record t = id -> task_ok (src w) t;
  o_idle : (forall i t, tasks w !! i = Some t -> task_record t <> id) -> settled (src w) id }.

Lemma settled_ext s s' id :
  record_at (sets s') id = record_at (sets s) id -> (forall k q, on_periodic (scanner s') k id q <-> on_periodic (scanner s) k id q) ->
  (forall e q, on_event (scanner s') e id q <-> on_event (scanner s) e id q) ->
  (settled s id -> settled s' id) /\ forall t, task_record t = id -> task_ok s t -> task_ok s' t.
Proof.
  intros Hr Hp He. assert (Hs : settled s id -> settled s' id).
  { intros [A B]. split; [intros k q Hm; rewrite Hr; by apply A, Hp|intros e q Hm; rewrite Hr; by apply B, He]. }
  split; [done|]. intros t <-. assert (forall spec ph ev, named s (task_record t) spec ph ev -> named s' (task_record t) spec ph ev) as Hn
    by (intros spec ph ev; unfold named; by rewrite Hr).
  assert (off_periodic s (task_record t) -> off_periodic s' (task_record t)) as Ho by (intros H k q Hm; by apply (H k q), Hp).
  assert (off_events s (task_record t) -> off_events s' (task_record t)) as Hv by (intros H k q Hm; by apply (H k q), He).
  destruct t; cbn [task_ok task_record] in *; naive_solver.
Qed.

Lemma orderly_ext id w w' : tasks w' = tasks w -> elsewhere (mkId (S (rset id)) 0) (src w) (src w') -> orderly id w -> orderly id w'.
Proof.
  intros Et He [A B C]. destruct (He id) as (Hr & Hp & Hv); [destruct id; cbn; intros [= ?]; lia|].
  destruct (settled_ext (src w) (src w') id Hr Hp Hv) as [S1 S2]. split; rewrite Et; [done| |auto]. intros i t Ht Hid. apply S2; [done|]. by apply (B i).
Qed.

Lemma begin_ok n w i p : steady n w -> (forall t, p = Next t -> spec_ok t) -> steady n (begin w i p).
Proof.
  intros [L T S] Hp. unfold begin. destruct p as [t|]; [|done]. destruct (tasks w !! i) eqn:E; [done|]. split; [done..|]. cbn.
  intros j u [[<- <-]|[_ ?]]%lookup_insert_Some; [by apply Hp|eauto].
Qed.

Lemma begin_orderly id w i p : orderly id w ->
  (forall t, p = Next t -> task_record t = id -> busy w id = false /\ (settled (src w) id -> task_ok (src w) t)) -> orderly id (begin w i p).
Proof.
  intros [A B C] Hp. unfold begin. destruct p as [t|]; [|done]. destruct (tasks w !! i) eqn:Ei; [done|].
  assert (Hb : task_record t = id -> (forall j u, tasks w !! j = Some u -> task_record u <> id) /\ task_ok (src w) t).
  { intros Ht. destruct (Hp t eq_refl Ht) as [Hb Hs]. assert (forall j u, tasks w !! j = Some u -> task_record u <> id) as Hno.
    { intros j u Hu Hid. apply not_true_iff_false in Hb. apply Hb, busy_spec. eauto. } split; [done|]. by apply Hs, C. }
  split; cbn [tasks src].
  - intros j k u v [[<- <-]|[Hj Hu]]%lookup_insert_Some [[<- <-]|[Hk Hv]]%lookup_insert_Some Hu' Hv'; [done| | |eauto].
    + by destruct (proj1 (Hb Hu') k v).
    + by destruct (proj1 (Hb Hv') j u).
  - intros j u [[<- <-]|[_ Hu]]%lookup_insert_Some Hid; [by apply Hb|eauto].
  - intros Hno. apply C. intros j u Hu. apply (Hno j). rewrite lookup_insert_ne; [done|]. intros ->. congruence.
Qed.

Lemma resume_orderly n id w i : steady n w -> 0 <= n -> n + 1 < 2 ^ 64 -> orderly id w -> orderly id (resume w i).
Proof.
  intros [L T S] H0 Hn [A B C]. unfold resume. destruct (tasks w !! i) as [t|] eqn:Ei; [|done].
  pose proof (section_kept n t (src w) L T H0 Hn (S i t Ei)) as Hk. unfold kept in Hk. pose proof (section_own n t (src w) L H0 Hn (S i t Ei)) as Ho.
  destruct (section spawn t (src w)) as [p s'] eqn:Es. cbn [fst snd] in Hk. destruct Hk as (_ & _ & _ & He & Hnext).
  destruct (decide (task_record t = id)) as [Hid|Hid].
  - specialize (Ho (B i t Ei Hid)). assert (Hothers : forall j u, tasks w !! j = Some u -> j <> i -> task_record u <> id) by (intros j u Hu Hj Hu'; apply Hj; by apply (A j i u t)).
    destruct p as [t'|r]; split; cbn [tasks src].
    + intros j k u v [[<- <-]|[Hj Hu]]%lookup_insert_Some [[<- <-]|[Hk Hv]]%lookup_insert_Some Hu' Hv'; [done|by destruct (Hothers k v)|by destruct (Hothers j u)|by apply (A j k u v)].
    + intros j u [[<- <-]|[Hj Hu]]%lookup_insert_Some Hu'; [done|]. by destruct (Hothers j u).
    + intros Hno. destruct (Hno i t'); [by rewrite lookup_insert_eq|]. destruct Hnext as [_ ->]. done.
    + intros j k u v [Hj Hu]%lookup_delete_Some [Hk Hv]%lookup_delete_Some Hu' Hv'. by destruct (Hothers j u).
    + intros j u [Hj Hu]%lookup_delete_Some Hu'. by destruct (Hothers j u).
    + intros _. by rewrite Hid in Ho.
  - destruct (He id ltac:(done)) as (Hr & Hp & Hv). destruct (settled_ext (src w) s' id Hr Hp Hv) as [S1 S2].
    assert (Hsame : forall j u, task_record u = id -> match p with Next t' => <[i := t']> (tasks w) | Done _ => delete i (tasks w) end !! j = Some u <-> tasks w !! j = Some u).
    { intros j u Hu. destruct p as [t'|r]; [rewrite lookup_insert_Some|rewrite lookup_delete_Some].
      - split; [intros [[<- <-]|[_ ?]]; [destruct Hnext; congruence|done]|]. intros Hj. right. split; [|done]. intros ->. congruence.
      - split; [by intros [_ ?]|]. intros Hj. split; [|done]. intros ->. congruence. }
    split; cbn [tasks src].
    + intros j k u v Hu Hw Hu' Hv'. apply (A j k u v); [by apply Hsame|by apply Hsame|done|done].
    + intros j u Hu Hu'. apply S2; [done|]. apply (B j); [by apply Hsame|done].
    + intros Hno. apply S1, C. intros j u Hu Hu'. apply (Hno j u); [by apply Hsame|done].
Qed.


Lemma resume_ok n w i : steady n w -> 0 <= n -> n + 1 < 2 ^ 64 ->
  steady (n + 1) (resume w i) /\ ((forall ts, spawn ts = true) -> covered (scanner (src w)) -> covered (scanner (src (resume w i)))).
Proof.
  intros [L T S] H0 Hn. unfold resume. destruct (tasks w !! i) as [t|] eqn:Ei; [|split; [split; [apply (lists_ok_mono n); [done|lia]|done..]|done]].
  pose proof (section_kept n t (src w) L T H0 Hn (S i t Ei)) as Hk. unfold kept in Hk. destruct (section spawn t (src w)) as [p s'].
  cbn [fst snd] in Hk. destruct Hk as (A & B & C & _ & Hnext). split; [|done]. split; [done..|]. cbn. intros j u Hu.
  destruct p; [apply lookup_insert_Some in Hu as [[<- <-]|[_ Hu]]; [by apply Hnext|]|apply lookup_delete_Some in Hu as [_ Hu]]; eauto.
Qed.

(** The driver's and the server's moves leave every record where it is. *)
Definition driver_move (m : Move) : bool :=
  match m with RegisterIo _ _ _ | UnregisterIo _ | Start | Shutdown => true | _ => false end.

Lemma driver_ok n w m : driver_move m = true -> steady n w -> 0 <= n -> n + 1 < 2 ^ 64 ->
  steady (n + 1) (move w m) /\ ((forall ts, spawn ts = true) -> covered (scanner (src w)) -> covered (scanner (src (move w m)))) /\
  tasks (move w m) = tasks w /\ forall id, elsewhere id (src w) (src (move w m)).
Proof.
  intros Hm [L T S] H0 Hn. pose proof (lists_ok_mono n (n + 1) _ L ltac:(lia)) as L1.
  destruct m as [i id raw|i id v|i id ev|i|id ph source|id| |]; try done; cbn [move]; unfold on_scanner.
  - split; [|done]. split; [|destruct T; now split|exact S]. destruct L1 as [A B C D]. split; try done. cbn. apply keyed_insert_ok; [done|done|apply L].
  - split; [|done]. split; [|destruct T; now split|exact S]. destruct L1 as [A B C D]. split; try done. cbn. now apply keyed_remove_ok.
  - destruct (start_threads (scanner (src w)) T) as (T' & E1 & E2 & E3 & C). split; [|split; [|split; [done|]]].
    + split; cbn [src scanner tasks]; [destruct L1; now split; rewrite ?E1, ?E2, ?E3|done|exact S].
    + intros Hsp _. apply C; [done|]. intros k l Hl. apply (lo_periodic _ _ L _ _ Hl).
    + intros id i _. unfold on_periodic, on_event. cbn. by rewrite E1, E2.
  - split; [|split; [intros _ _ _ [=]|done]]. split; [destruct L1; now split|destruct T; now split|exact S].
Qed.

Lemma begin_covered w i p : src (begin w i p) = src w.
Proof. unfold begin. destruct p; [|done]. by destruct (tasks w !! i). Qed.

(** The first phase of every write. *)
Definition first_phase (m : Move) : option (nat * Progress) :=
  match m with
  | PutScan i id raw => Some (i, begin_scan id raw)
  | PutPhas i id v => Some (i, Next (PhasStore id v))
  | PutEvnt i id ev => Some (i, Next (EvntStore id ev))
  | _ => None
  end.

Lemma first_phase_spec m i p t : first_phase m = Some (i, p) -> p = Next t ->
  spec_ok t /\ begins m = Some (task_record t) /\ forall s, settled s (task_record t) -> task_ok s t.
Proof.
  destruct m as [j id raw|j id v|j id ev|j|id ph source|id| |]; cbn; intros [= <- <-]; [|by intros [= <-]..].
  unfold begin_scan. destruct (parse_scan raw) as [[]| | |] eqn:E; try done; by intros [= <-].
Qed.

Lemma move_cases m : (exists i p, first_phase m = Some (i, p) /\ forall w, move w m = begin w i p) \/ (exists i, m = Resume i) \/ driver_move m = true.
Proof. destruct m; cbn; eauto; left; eauto. Qed.

Lemma move_ok n w m : steady n w -> 0 <= n -> n + 1 < 2 ^ 64 ->
  steady (n + 1) (move w m) /\ ((forall ts, spawn ts = true) -> covered (scanner (src w)) -> covered (scanner (src (move w m)))) /\
  forall id, bool_decide (begins m = Some id) && busy w id = false -> orderly id w -> orderly id (move w m).
Proof.
  intros H H0 Hn. destruct (move_cases m) as [(i & p & Hf & Hm)|[(i & ->)|Hd]].
  - rewrite Hm, begin_covered. pose proof (fun t => first_phase_spec m i p t Hf) as Hp. split; [|split; [done|]].
    + destruct (begin_ok n w i p H) as [A B C]; [intros t Ht; by apply Hp|]. split; [apply (lists_ok_mono n); [done|lia]|done..].
    + intros id Hb Ho. apply begin_orderly; [done|]. intros t Ht <-. destruct (Hp t Ht) as (_ & Hbg & Hs). rewrite Hbg, bool_decide_eq_true_2 in Hb by done.
      split; [done|]. apply Hs.
  - destruct (resume_ok n w i H H0 Hn). split; [done|]. split; [done|]. intros id _. by apply (resume_orderly n).
  - destruct (driver_ok n w m Hd H H0 Hn) as (A & B & C & D). split; [done|]. split; [done|]. intros id _. by apply orderly_ext.
Qed.

Lemma run_ok ms : forall n w, steady n w -> 0 <= n -> n + zlen ms < 2 ^ 64 ->
  steady (n + zlen ms) (run w ms) /\ ((forall ts, spawn ts = true) -> covered (scanner (src w)) -> covered (scanner (src (run w ms)))) /\
  forall id, apart id w ms = true -> orderly id w -> orderly id (run w ms).
Proof.
  induction ms as [|m ms IH]; intros n w H H0 Hn; [cbn; rewrite Z.add_0_r; done|]. rewrite zlen_cons in Hn |- *. pose proof (zlen_nonneg ms).
  destruct (move_ok n w m H H0 ltac:(lia)) as (A & B & C). destruct (IH (n + 1) (move w m) A ltac:(lia) ltac:(lia)) as (A' & B' & C').
  replace (n + (1 + zlen ms)) with (n + 1 + zlen ms) by lia. split; [done|]. split; [auto|]. intros id Hap Ho. cbn [apart] in Hap.
  apply andb_true_iff in Hap as [Hap Hap']. apply negb_true_iff in Hap. auto.
Qed.

Lemma load_ok sets order n s :
  sched_ok n (mkSrc sets s) -> 0 <= n -> n + zlen order < 2 ^ 64 -> Forall (fun id => is_Some (record_at sets id)) order ->
  exists s', load_from_db spawn sets order s = Ok s' /\ sched_ok (n + zlen order) (mkSrc sets s') /\
    ((forall ts, spawn ts = true) -> covered s -> covered s').
Proof.
  revert n s. induction order as [|id order IH]; intros n s H H0 Hn Ho; [exists s; cbn; rewrite Z.add_0_r; done|].
  rewrite zlen_cons in Hn |- *. pose proof (zlen_nonneg order). apply Forall_cons in Ho as [[r Hr] Ho]. cbn [load_from_db]. rewrite Hr.
  destruct (refield_ok n (mkSrc sets s) id (fun r => r) r H H0 ltac:(lia) Hr eq_refl eq_refl) as [[L T [Pp Pe]] C].
  set (s1 := place_or_log _ _ _ _ _ _) in *. cbn [scanner Scanner.sets] in *.
  assert (forall i, record_at (upd_record sets id (fun r => r)) i = record_at sets i) as Eu.
  { intros i. rewrite record_at_upd. destruct (decide (i = id)) as [->|]; [rewrite Hr|]; done. }
  destruct (IH (n + 1) s1) as (s' & E & H2 & C2); [|lia|lia|done|].
  - split; [done|done|]. split; cbn [scanner Scanner.sets]; intros k i q Hm; rewrite <- Eu; eauto.
  - exists s'. split; [exact E|]. split; [|auto]. now replace (n + (1 + zlen order)) with (n + 1 + zlen order) by lia.
Qed.

Lemma new_sched_ok sets : sched_ok 0 (mkSrc sets new_scanner).
Proof.
  split; cbn.
  - split; cbn; done.
  - split; cbn; try done; intros k t; [split; [done|]; intros [? _]; done|]. destruct t; done.
  - split; intros ? ? ? (l & E & _); done.
Qed.
End Spawning.

(** ** Claims *)

(** C27: the scan lists follow the records.  After loading, and after any interleaving
    of the sections of any number of writes to SCAN, PHAS and EVNT, accepted or
    refused, with interrupt registrations, start and shutdown, there are at most 64
    periods, none without members and each of them schedulable; the threads that
    are not retired belong to those periods, one each, and, when the system can
    start threads, every period of a running scanner has its thread.  A record to
    which no write is under way, and none ever began while another one to it was
    under way, is at most on the periodic or event list its fields name, at its
    priority, whatever the writes to other records do.  The records loaded and the
    moves are fewer than 2^64 in all, so that the sequence numbers of the lists do
    not wrap. *)
Theorem scan_membership spawn sets order ms :
  Forall (fun id => is_Some (record_at sets id)) order -> zlen order + zlen ms < 2 ^ 64 ->
  exists s0, load_from_db spawn sets order new_scanner = Ok s0 /\
    let w0 := mkWorld (mkSrc sets s0) ∅ in
    let w := run spawn w0 ms in
    lists_ok (zlen order + zlen ms) (scanner (src w)) /\ threads_ok (scanner (src w)) /\
    ((forall ts, spawn ts = true) -> covered (scanner (src w))) /\
    forall id, apart spawn id w0 ms = true -> busy w id = false -> settled (src w) id.
Proof.
  intros Ho Hn. pose proof (zlen_nonneg order). pose proof (zlen_nonneg ms).
  destruct (load_ok spawn sets order 0 new_scanner (new_sched_ok sets) ltac:(lia) ltac:(lia) Ho) as (s0 & E & [L1 T1 P1] & C1).
  exists s0. split; [done|]. rewrite Z.add_0_l in L1. cbv zeta. set (w0 := mkWorld _ _).
  destruct (run_ok spawn ms (zlen order) w0 ltac:(by split) ltac:(lia) ltac:(lia)) as ([L2 T2 _] & C2 & O2).
  split; [done|]. split; [done|]. split; [intros Hsp; apply C2; [done|]; apply C1; [done|]; intros [=]|].
  intros id Hap Hb. apply (O2 id Hap).
  - split; [done..|]. intros _. destruct P1 as [Pp Pe]. split; [intros k q Hm; by apply Pp|intros e q Hm; by apply Pe].
  - intros i t Ht Hid. apply not_true_iff_false in Hb. apply Hb, busy_spec. eauto.
Qed.

(** A write to SCAN is exact.  It is refused, and then nothing has changed, when
    the text is no scan specification or its period would be a 65th one; otherwise
    the record is on the list of its new specification and on no other, and every
    other record is where it was: the check of the period before the record
    leaves its lists is enough for the registration after it. *)
Theorem put_scan_exact spawn n s id raw r :
  sched_ok n s -> 0 <= n -> n + 1 < 2 ^ 64 -> record_at (sets s) id = Some r ->
  let '(res, s') := put_scan spawn s id raw in
  match res with
  | Ok _ => exists spec, parse_scan raw = Ok spec /\
      record_at (sets s') id = Some (upd_common (fun c => set_scan raw (phas c) (evnt c) c) r) /\
      (forall k q, on_periodic (scanner s') k id q <-> spec = Periodic k /\ q = phas (common r)) /\
      (forall e q, on_event (scanner s') e id q <-> spec = OnEvent /\ e = evnt (common r) /\ e <> [] /\ q = phas (common r)) /\
      (forall e q, ~ on_io (scanner s') e id q) /\
      (forall i, i <> id -> record_at (sets s') i = record_at (sets s) i /\
         (forall k q, on_periodic (scanner s') k i q <-> on_periodic (scanner s) k i q) /\
         (forall e q, on_event (scanner s') e i q <-> on_event (scanner s) e i q) /\
         (forall e q, on_io (scanner s') e i q <-> on_io (scanner s) e i q))
  | Err e => s' = s /\ (e = NotAScan /\ parse_scan raw = Err tt \/
      e = Refused TooManyPeriods /\ exists p, parse_scan raw = Ok (Periodic p) /\ periodic (scanner s) !! p = None)
  | _ => False
  end.
Proof.
  intros H H0 Hn Hr. destruct (put_scan_spec spawn n s id raw r H H0 Hn Hr)
    as [[-> E]|[(p & -> & E & Ec)|(spec & s' & -> & E & Es & _ & _ & _ & Op & Oe & Oi)]]; [auto| |].
  - split; [done|]. right. split; [done|]. exists p. split; [done|]. unfold check_period in Ec.
    rewrite period_key_ok in Ec by now apply (parse_scan_bounds raw). cbn in Ec. now destruct (periodic (scanner s) !! p).
  - exists spec. split; [done|]. rewrite Es. setoid_rewrite Op. setoid_rewrite Oe. setoid_rewrite Oi. setoid_rewrite record_at_upd.
    rewrite decide_True, Hr by done. split; [done|]. split; [naive_solver|]. split; [naive_solver|]. split; [naive_solver|].
    intros i Hi. rewrite decide_False by done. naive_solver.
Qed.

(** Every SCAN text is handled.  [parse_scan] never panics on what a client
    writes, and a period it accepts lies between one microsecond and 10^9 seconds,
    so the scanner can schedule it. *)
Theorem parse_scan_schedulable raw :
  (parse_scan raw = Err tt \/ exists spec, parse_scan raw = Ok spec) /\
  forall p, parse_scan raw = Ok (Periodic p) -> 1000 <= p <= 10 ^ 18 /\ period_key p = Ok p.
Proof.
  destruct (parse_scan_bounds raw) as [H Hb]. split; [done|]. intros p Hp. pose proof (Hb p Hp). split; [done|now apply period_key_ok].
Qed.

(** ** Witnesses *)

Definition scanned (n scan : bytes) (ph : Z) (ev : bytes) : Rec :=
  upd_common (set_scan scan ph ev) (IocSafe.sample_rec n Ai (Double 0) IocSafe.no_link IocSafe.no_link IocSafe.no_link).

Definition sample_sets : list (list Rec) :=
  [[scanned (str "A") (str "1 second") 0 []; scanned (str "B") (str " .5 Seconds ") 3 []]; [scanned (str "C") (str "Event") 1 (str "beam")]].
Definition sample_order : list RecordId := [mkId 0 0; mkId 1 0; mkId 0 1].
Definition always (_ : gmap nat Z) : bool := true.

(** Two writes, to B and to C, section by section in turn; B is written a second time
    when the first write is over, refused, and given a priority. *)
Definition sample_moves : list Move :=
  [Start; PutScan 0 (mkId 0 1) (str "1 second"); PutEvnt 1 (mkId 1 0) (str "shot"); Resume 0; Resume 1; Resume 0; Resume 1; Resume 0; Resume 1;
   Resume 0; Resume 0; Resume 0; PutScan 2 (mkId 0 1) (str "1e30 seconds"); PutPhas 3 (mkId 0 1) (-5); Resume 3; Resume 3;
   RegisterIo (mkId 0 0) 2 (str "card")].

Definition sample_run : World :=
  match load_from_db always sample_sets sample_order new_scanner with
  | Ok s0 => run always (mkWorld (mkSrc sample_sets s0) ∅) sample_moves
  | _ => mkWorld (mkSrc [] new_scanner) ∅
  end.

Example sample_scan :
  let s := scanner (src sample_run) in
  (map_to_list (snapshot <$> periodic s), fire_event s (str "shot"), fire_event s (str "beam"), scan_io_request s (str "card"),
   map_to_list (thread_keys s), elements (retired s))
  = ([(1000000000, [mkId 0 1; mkId 0 0])], [mkId 1 0], [], [mkId 0 0], [(1000000000, 1%nat)], [0%nat]).
Proof. vm_compute. done. Qed.

Lemma scan_membership_witness :
  exists s0, load_from_db always sample_sets sample_order new_scanner = Ok s0 /\
    let w := run always (mkWorld (mkSrc sample_sets s0) ∅) sample_moves in
    covered (scanner (src w)) /\ settled (src w) (mkId 0 1).
Proof.
  destruct (scan_membership always sample_sets sample_order sample_moves) as (s0 & E & _ & _ & C & S).
  - repeat constructor; eexists; reflexivity.
  - reflexivity.
  - exists s0. split; [exact E|]. vm_compute in E. injection E as <-. split; [apply C; intros ts; reflexivity|].
    apply S; vm_compute; reflexivity.
Defined.

(** Two writes to SCAN of one record whose sections interleave: both leave the old
    lists before either joins its new one, and the record ends on two lists, one of
    which its fields do not name. *)
Definition overlapping_moves : list Move :=
  [PutScan 0 (mkId 0 0) (str "2 seconds"); PutScan 1 (mkId 0 0) (str "5 seconds")] ++
  concat (replicate 6 [Resume 0; Resume 1]).

Theorem overlapping_writes_two_lists :
  let w := match load_from_db always sample_sets sample_order new_scanner with
           | Ok s0 => run always (mkWorld (mkSrc sample_sets s0) ∅) overlapping_moves
           | _ => mkWorld (mkSrc [] new_scanner) ∅
           end in
  map_to_list (tasks w) = [] /\ scan_raw ∘ common <$> record_at (sets (src w)) (mkId 0 0) = Some (str "5 seconds") /\
  snapshot <$> periodic (scanner (src w)) !! 2000000000 = Some [mkId 0 0] /\
  snapshot <$> periodic (scanner (src w)) !! 5000000000 = Some [mkId 0 0].
Proof. vm_compute. done. Qed.

Lemma put_scan_exact_witness :
  let '(res, s') := put_scan always (mkSrc sample_sets new_scanner) (mkId 0 1) (str "0.25 seconds") in
  res = Ok tt /\ on_periodic (scanner s') 250000000 (mkId 0 1) 3.
Proof.
  pose proof (put_scan_exact always 0 (mkSrc sample_sets new_scanner) (mkId 0 1) (str "0.25 seconds")
    (scanned (str "B") (str " .5 Seconds ") 3 []) (new_sched_ok sample_sets) ltac:(lia) ltac:(lia) eq_refl) as H.
  destruct (put_scan always _ _ _) as [res s'] eqn:E. assert (res = Ok tt) as -> by (vm_compute in E; congruence).
  split; [reflexivity|]. destruct H as (spec & Hs & _ & Hp & _). apply Hp. split; [|reflexivity].
  vm_compute in Hs. congruence.
Defined.

Lemma parse_scan_schedulable_witness : period_key 100000000 = Ok 100000000.
Proof. apply (proj2 (parse_scan_schedulable (str " .1 Second "))). vm_compute. reflexivity. Defined.

End Scanner.
