(* ===== verification/DecodedText.v ===== *)
(** * The text of a decoded value

    [Display] of a decoded value ([spvirit-codec/src/spvd_decode.rs]) and the two
    readings of a value that is written to a scan field
    ([spvirit-ioc/src/source.rs]): as the text that SCAN and EVNT store and as the
    integer of PHAS. *)

From stdpp Require Import base pretty.
From Stdlib Require Import ZArith Floats.SpecFloat.
From S2P Require Import Prelude Utf8 Wire PvdTypes NtTypes F64 Text Ioc IocSafe UnionFind LockSet ScanList Scanner.

Local Open Scope Z_scope.

(** [hex::encode], of a crate outside the repository. *)
Class HexText : Type := hex_encode : bytes -> bytes.

Module DecodedText.

(** ** Numbers *)

(** The last [n] decimal digits of [v]. *)
Fixpoint digits (n : nat) (v : Z) : bytes :=
  match n with O => [] | S n => digits n (v / 10) ++ [48 + v mod 10] end.

(** A finite number with six decimals, the last one rounded to even; the sign is
    that of the number, also when nothing of it is left. *)
Definition fixed (neg : bool) (m e : Z) : bytes :=
  let n := if 0 <=? e then m * 2 ^ e * 10 ^ 6 else Scanner.div_round (m * 10 ^ 6) (2 ^ (- e)) in
  (if neg then str "-" else []) ++ str (pretty (n / 10 ^ 6)) ++ str "." ++ digits 6 (n mod 10 ^ 6).

(** [{:.6}]. *)
Definition fixed_f64 (x : Z) : bytes :=
  match F64.to_spec x with
  | S754_zero neg => fixed neg 0 0
  | S754_finite neg m e => fixed neg (Zpos m) e
  | S754_infinity neg => if neg then str "-inf" else str "inf"
  | S754_nan => str "NaN"
  end.

Definition fixed_f32 (x : Z) : bytes := fixed_f64 (Float.widen x).

(** ** Values *)

Section Display.
Context `{HexText}.

(** The parts, with [", "] between them. *)
Definition commas (parts : list bytes) : bytes :=
  match parts with [] => [] | p :: parts => p ++ concat (map (fun q => str ", " ++ q) parts) end.

Definition quote : bytes := [34].

Fixpoint display (v : Val.DecodedValue) : bytes :=
  match v with
  | Val.Null => str "null"
  | Val.Boolean b => if b then str "true" else str "false"
  | Val.Int8 v | Val.Int16 v | Val.Int32 v | Val.Int64 v | Val.UInt8 v | Val.UInt16 v | Val.UInt32 v | Val.UInt64 v => str (pretty v)
  | Val.Float32 v => fixed_f32 v
  | Val.Float64 v => fixed_f64 v
  | Val.String s => quote ++ s ++ quote
  | Val.Array items => str "[" ++ commas (map display items) ++ str "]"
  | Val.Structure fields => str "{" ++ commas (map (fun nv => nv.1 ++ str "=" ++ display nv.2) fields) ++ str "}"
  | Val.Raw data =>
    str "<" ++ str (pretty (zlen data)) ++ str " bytes" ++
    (if zlen data <=? 8 then str ": " ++ hex_encode data else []) ++ str ">"
  end.

Definition decoded_as_string (v : Val.DecodedValue) : bytes :=
  match v with Val.String s => s | other => display other end.

End Display.

(** [as i32] of a wider integer keeps the low bits. *)
Definition decoded_as_i32 (v : Val.DecodedValue) : option Z :=
  match v with
  | Val.Int32 v | Val.Int16 v | Val.UInt16 v => Some v
  | Val.Int64 v => Some (to_signed 32 (v mod 2 ^ 32))
  | Val.String s => Text.parse_i32 (Text.trim s)
  | _ => None
  end.

#[local] Instance sample_hex : HexText := fun _ => str "..".

Example display_samples :
  display (Val.Structure [(str "a", Val.Array [Val.Int8 (-3); Val.Boolean true]); (str "b", Val.Raw [1; 2])]) = str "{a=[-3, true], b=<2 bytes: ..>}" /\
  map display [Val.Float64 0x3FF8000000000000; Val.Float64 0x8000000000000000; Val.Float32 0x3DCCCCCD; Val.Float64 0x3EA0C6F7A0B5ED8D] =
    map str ["1.500000"; "-0.000000"; "0.100000"; "0.000000"]%string /\
  map decoded_as_i32 [Val.Int64 (2 ^ 32 + 7); Val.String (str " -5 "); Val.Float64 0] = [Some 7; Some (-5); None].
Proof. vm_compute. done. Qed.

End DecodedText.
