(* ===== verification/IocSource.v ===== *)
(** * The record source

    Models the parts of [spvirit-ioc/src/source.rs] and
    [spvirit-ioc/src/scan/scanner.rs] that run passes over the record database: the
    write of a record, the initial sweep, the processing of a scan batch and the
    completion of device support, with the channels their monitors go to.  The
    lemmas say what each of them keeps, for any device support that pairs
    [push_depth] with [pop_depth]; the handlers of clients and whole sessions are
    in [IocEngine]. *)

From stdpp Require Import gmap sorting.
From S2P Require Import Prelude Utf8 Wire PvdTypes NtTypes F64 Ioc IocSafe UnionFind LockSet ScanList.

Local Open Scope Z_scope.

Module IocSource.
Import Ioc IocSafe LockSet.

(** ** Channels *)

Definition SUBSCRIBER_QUEUE : Z := 64.
Definition NOTIFY_QUEUE : Z := 1024.

(** A bounded channel as its sender sees it. *)
Record Chan (A : Type) := mkChan { queue : list A; closed : bool }.
Arguments mkChan {A}.
Arguments queue {A}.
Arguments closed {A}.

Definition try_send {A} (cap : Z) (c : Chan A) (x : A) : option (Chan A) :=
  if closed c || (cap <=? zlen (queue c)) then None else Some (mkChan (queue c ++ [x]) false).

(** [senders.retain(|tx| tx.try_send(payload.clone()).is_ok())] for every event. *)
Definition feed_subscribers (subs : gmap bytes (list (Chan NtTypes.NtPayload))) (events : list Event)
  : gmap bytes (list (Chan NtTypes.NtPayload)) :=
  fold_left (fun subs '(name, payload) => alter (omap (fun tx => try_send SUBSCRIBER_QUEUE tx payload)) name subs) events subs.

(** ** The values of a PUT *)

Definition put_value (v : Val.DecodedValue) : option Val.DecodedValue :=
  match v with
  | Val.Structure fields => snd <$> List.find (fun nv => bool_decide (nv.1 = str "value")) fields
  | _ => Some v
  end.

Definition value_of (v : Val.DecodedValue) : option Value :=
  match v with
  | Val.Float64 v => Some (Double v)
  | Val.Float32 v => Some (Double (Float.widen v))
  | Val.Int32 v => Some (Long v)
  | Val.Int64 v => Some (Long (to_signed 32 (v mod 2 ^ 32)))
  | Val.UInt16 v => Some (Long v)
  | Val.Boolean b => Some (Long (if b then 1 else 0))
  | _ => None
  end.

Section Source.
Context {D : Type} (clock : nat -> Z) (registry : Registry D).

(** The database, the subscribers, the queue to the monitor registry ([None] until
    scanning starts), the clock readings so far and the device support. *)
Record Source := mkSource {
  db : RecordDb;
  subscribers : gmap bytes (list (Chan NtTypes.NtPayload));
  notify_tx : option (Chan Event);
  notify_dropped : Z;
  readings : nat;
  devices : D }.

Definition with_lock_sets (d : RecordDb) (sets : list (list Rec)) : RecordDb :=
  mkDb (by_name d) sets (order d) (unresolved d).

(** [with_set(id.set, ..)] with a context made for the pass: its result, the source
    afterwards and the context. *)
Definition in_set {A} (id : RecordId) (m : @M D A) (s : Source) : outcome ProcError A * Source * list Event * list RecordId :=
  match lock_sets (db s) !! rset id with
  | None => (Panic, s, [], [])
  | Some set =>
    let '(r, st) := m (mkSt set (mkCtx [] [] [] 0 (readings s) (devices s))) in
    (r, mkSource (with_lock_sets (db s) (<[rset id := members st]> (lock_sets (db s)))) (subscribers s) (notify_tx s)
          (notify_dropped s) (ticks (ctx st)) (device (ctx st)),
     events (ctx st), deferred (ctx st))
  end.

(** The put path feeds the subscribers; its caller notifies the registry. *)
Definition flush (s : Source) (events : list Event) : Source :=
  mkSource (db s) (feed_subscribers (subscribers s) events) (notify_tx s) (notify_dropped s) (readings s) (devices s).

Definition send_notify (s : Source) (ev : Event) : Source :=
  match notify_tx s with
  | None => s
  | Some tx =>
    match try_send NOTIFY_QUEUE tx ev with
    | Some tx => mkSource (db s) (subscribers s) (Some tx) (notify_dropped s) (readings s) (devices s)
    | None => mkSource (db s) (subscribers s) (notify_tx s) (notify_dropped s + 1) (readings s) (devices s)
    end
  end.

(** The scan path does both. *)
Definition egress_flush (s : Source) (events : list Event) : Source := fold_left send_notify events (flush s events).

(** A pass outside the scanner knows no device support. *)
Definition no_devices : Registry D := fun _ => None.
Abbreviation plain_process := (process clock no_devices).

(** The value is written and the record processed under one lock; the monitors
    are published only when the pass succeeds. *)
Definition put_record (id : RecordId) (parsed : Value) (s : Source) : outcome ProcError (list Event) * Source :=
  let '(r, s', evs, _) := in_set id (write_field plain_process id FVal parsed ;; plain_process id) s in
  match r with
  | Ok _ => (Ok evs, flush s' evs)
  | Err e => (Err e, s')
  | Panic => (Panic, s')
  | OutOfFuel => (OutOfFuel, s')
  end.

(** One record of the sweep: PINI is checked again under the lock. *)
Definition pini_record (id : RecordId) (s : Source) : outcome unit (list Event) * Source :=
  let '(r, s', evs, _) :=
    in_set id (r ← get id; if pini (common r) then plain_process id ;; mret true else mret false) s in
  match r with
  | Ok false => (Ok [], s')
  | Ok true | Err _ => (Ok evs, flush s' evs)
  | Panic => (Panic, s')
  | OutOfFuel => (OutOfFuel, s')
  end.

Fixpoint pini_pass (ids : list RecordId) (s : Source) : outcome unit (list Event) * Source :=
  match ids with
  | [] => (Ok [], s)
  | id :: ids =>
    let '(r, s) := pini_record id s in
    match r with
    | Ok evs =>
      let '(r, s) := pini_pass ids s in
      (bind_outcome r (fun rest => Ok (evs ++ rest)), s)
    | _ => (r, s)
    end
  end.

Definition process_pini (s : Source) : outcome unit (list Event) * Source :=
  match pini_order (db s) with
  | Ok ids => pini_pass ids s
  | Err _ => (Err tt, s)
  | Panic => (Panic, s)
  | OutOfFuel => (OutOfFuel, s)
  end.

(** A scan batch.  A pass that panics is contained; the records it deferred are
    processed after it.  The fuel bounds the nesting of deferred batches. *)
Fixpoint process_ids (fuel : nat) : list RecordId -> Source -> outcome unit Source :=
  fix batch (ids : list RecordId) (s : Source) : outcome unit Source :=
    match ids with
    | [] => Ok s
    | id :: rest =>
      let '(r, s', evs, deferred) := in_set id (process clock registry id) s in
      match r with
      | Ok _ | Err _ =>
        let s' := egress_flush s' evs in
        match deferred with
        | [] => batch rest s'
        | _ =>
          match fuel with
          | O => OutOfFuel
          | S fuel => bind_outcome (process_ids fuel deferred s') (batch rest)
          end
        end
      | Panic => batch rest s'
      | OutOfFuel => OutOfFuel
      end
    end.

Inductive AsyncCompleteError := CompletionFailed (e : ProcError) | Panicked.

(** The monitors are flushed before an error is reported. *)
Definition complete (fuel : nat) (id : RecordId) (s : Source) : outcome AsyncCompleteError unit * Source :=
  let '(r, s', evs, deferred) := in_set id (complete_async clock registry id) s in
  match r with
  | Ok _ | Err _ =>
    match (match deferred with [] => Ok (egress_flush s' evs) | _ => process_ids fuel deferred (egress_flush s' evs) end) with
    | Ok s' => (match r with Err e => Err (CompletionFailed e) | _ => Ok tt end, s')
    | _ => (OutOfFuel, s')
    end
  | Panic => (Err Panicked, s')
  | OutOfFuel => (OutOfFuel, s')
  end.

(** [Source::subscribe] on the name of a record. *)
Definition subscribe_record (name : bytes) (s : Source) : Source :=
  mkSource (db s) (<[name := default [] (subscribers s !! name) ++ [mkChan [] false]]> (subscribers s)) (notify_tx s) (notify_dropped s)
    (readings s) (devices s).
End Source.

(** ** What stays true *)

(** The names, kinds and links of every set. *)
Abbreviation Skel := (list (list (bytes * Kind * list Link))).

Definition skeletons (sets : list (list Rec)) : Skel := (fun set : list Rec => skeleton <$> set) <$> sets.
Definition valid (K : Skel) (id : RecordId) : Prop := exists k, K !! rset id = Some k /\ (slot id < length k)%nat.
(** An event is of a record of some set, in its type, or one that device support
    posts. *)
Definition typed_event (K : Skel) (ev : Event) : Prop := exists k, k ∈ K /\ event_ok k ev.
Definition event_good (K : Skel) (E : Event -> Prop) (ev : Event) : Prop := typed_event K ev \/ E ev.

Definition chan_ok (K : Skel) (E : Event -> Prop) (n : bytes) (c : Chan NtTypes.NtPayload) : Prop :=
  Forall (fun p => event_good K E (n, p)) (queue c).

Record src_ok {D} (K : Skel) (E : Event -> Prop) (s : @Source D) : Prop := {
  s_db : db_ok (lock_sets (db s));
  s_skel : skeletons (lock_sets (db s)) = K;
  s_order : Forall (valid K) (order (db s));
  s_names : forall n id, by_name (db s) !! n = Some id -> valid K id;
  s_subs : forall n cs, subscribers s !! n = Some cs -> Forall (chan_ok K E n) cs;
  s_notify : forall tx, notify_tx s = Some tx -> Forall (event_good K E) (queue tx) }.

Lemma try_send_ok {A} cap (P : A -> Prop) c x c' :
  try_send cap c x = Some c' -> Forall P (queue c) -> P x -> Forall P (queue c').
Proof. unfold try_send. destruct (_ || _); [done|]. intros [= <-] Hc Hx. cbn. apply Forall_app. auto. Qed.

Lemma feed_ok K E evs subs :
  Forall (event_good K E) evs -> (forall n cs, subs !! n = Some cs -> Forall (chan_ok K E n) cs) ->
  forall n cs, feed_subscribers subs evs !! n = Some cs -> Forall (chan_ok K E n) cs.
Proof.
  revert subs. induction evs as [|[m p] evs IH]; intros subs Hev Hs; [done|]. apply Forall_cons in Hev as [Hp Hev].
  cbn [feed_subscribers fold_left]. apply IH; [done|]. intros n cs Hcs. apply lookup_alter_Some in Hcs as [(<- & cs' & Hcs' & ->)|[_ Hcs]]; [|eauto].
  apply Forall_forall. intros c Hc. apply list_elem_of_omap in Hc as (c' & Hc' & Et). specialize (Hs _ _ Hcs'). rewrite Forall_forall in Hs.
  eapply try_send_ok; [exact Et|now apply Hs|exact Hp].
Qed.

Lemma flush_ok {D} K E (s : @Source D) evs : src_ok K E s -> Forall (event_good K E) evs -> src_ok K E (flush s evs).
Proof. intros [A B C F G I] Hev. split; try done. cbn. now apply feed_ok. Qed.

Lemma egress_ok {D} K E (s : @Source D) evs : src_ok K E s -> Forall (event_good K E) evs -> src_ok K E (egress_flush s evs).
Proof.
  intros H Hev. unfold egress_flush. pose proof (flush_ok K E s evs H Hev) as H'. revert H'. generalize (flush s evs). clear H s.
  induction evs as [|ev evs IH]; intros s H; [done|]. apply Forall_cons in Hev as [Hp Hev]. cbn [fold_left]. apply IH; [done|].
  unfold send_notify. destruct (notify_tx s) as [tx|] eqn:En; [|done]. destruct H as [A B C F G I].
  destruct (try_send NOTIFY_QUEUE tx ev) as [tx'|] eqn:Et; split; try done; cbn; intros ? [= <-]; [|now apply I].
  eapply try_send_ok; eauto.
Qed.

(** ** A pass on one set *)

(** The database with one set replaced by another of the same shape. *)
Lemma src_ok_sets {D} K E (s s' : @Source D) i set set' :
  src_ok K E s -> lock_sets (db s) !! i = Some set -> set_ok set' -> skeleton <$> set' = skeleton <$> set ->
  db s' = with_lock_sets (db s) (<[i := set']> (lock_sets (db s))) -> subscribers s' = subscribers s -> notify_tx s' = notify_tx s -> src_ok K E s'.
Proof.
  intros [A1 A2 A3 A4 A5 A6] Es Hset Hsk Hdb Hsub Hno. split; rewrite ?Hdb, ?Hsub, ?Hno; try done; cbn.
  - intros j set'' Hj. destruct (decide (j = i)) as [->|Hne]; [|rewrite list_lookup_insert_ne in Hj by done; eauto].
    rewrite list_lookup_insert_eq in Hj by now apply lookup_lt_Some in Es. injection Hj as <-. split; [done|].
    destruct (A1 _ _ Es) as [_ B]. assert (Forall (fun q => Forall (local i) q.2) (skeleton <$> set')) as Hloc.
    { rewrite Hsk. apply Forall_fmap. exact B. }
    rewrite Forall_fmap in Hloc. exact Hloc.
  - unfold skeletons in *. rewrite list_fmap_insert, Hsk, <- A2. apply list_insert_id. by rewrite list_lookup_fmap, Es.
Qed.

Section Safety.
Context {D : Type} (clock : nat -> Z) (registry : Registry D) (E : Event -> Prop) (F : RecordId -> Prop).
Context `{!Balanced registry} `{!Posts registry E F}.

Lemma set_skeleton K (s : @Source D) set i :
  src_ok K E s -> lock_sets (db s) !! i = Some set -> K !! i = Some (skeleton <$> set) /\ set_ok set.
Proof.
  intros H Es. rewrite <- (s_skel _ _ _ H). unfold skeletons. rewrite list_lookup_fmap, Es. split; [done|]. now apply (s_db _ _ _ H i).
Qed.

(** A pass under the lock of a set: whatever it returns, the source is in order;
    unless it panicked, its monitors are good and the records it defers are those
    that device support asks for. *)
Lemma in_set_ok {A} K (s : @Source D) id (m : @M D A) P :
  src_ok K E s ->
  (forall set c, lock_sets (db s) !! rset id = Some set -> depth c = 0 -> exists x, good registry E F (skeleton <$> set) 0 x (mkSt set c) (m (mkSt set c)) P) ->
  let '(r, s', evs, df) := in_set id m s in
  src_ok K E s' /\
  match r with
  | Panic => lock_sets (db s) !! rset id = None \/ device_panics registry
  | r => (exists ms, P r ms) /\ Forall (event_good K E) evs /\ Forall F df
  end.
Proof.
  intros H Hm. unfold in_set. destruct (lock_sets (db s) !! rset id) as [set|] eqn:Es; [|split; [done|by left]].
  destruct (set_skeleton K s set _ H Es) as [Hks Hset]. destruct (Hm set (mkCtx [] [] [] 0 (readings s) (devices s)) eq_refl eq_refl) as (x & Hg). set (s0 := mkSt set _) in *.
  pose proof (good_shaped _ _ _ _ _ _ _ _ _ Hg) as Hsh. unfold good in Hg. destruct (m s0) as [r st]. cbn [fst snd] in *. split.
  - apply (src_ok_sets K E s _ (rset id) set (members st)); try done; [by apply (shaped_set_ok set)|apply Hsh].
  - assert (Hq : forall e, evolves registry E F (skeleton <$> set) e s0 st -> Forall (event_good K E) (events (ctx st)) /\ Forall F (deferred (ctx st))).
    { intros e [_ He Hd]. split; apply Forall_forall.
      - intros ev Hev. destruct (He ev Hev) as [Hn|[Hk|Hk]]; [by apply not_elem_of_nil in Hn| |by right]. left. exists (skeleton <$> set).
        split; [by apply list_elem_of_lookup_2 in Hks|done].
      - intros y Hy. destruct (Hd y Hy) as [Hn|]; [by apply not_elem_of_nil in Hn|done]. }
    destruct r as [a|y| |]; [| |by right; apply Hg|]; destruct Hg as (HP & _ & He); (split; [by eexists|]); by apply (Hq x).
Qed.

(** A pass over any id, also one that names no record. *)
Lemma entry_good K (s : @Source D) e set c : src_ok K E s ->
  let id := match e with EProcess id | EComplete id | EWrite id _ _ => id end in
  lock_sets (db s) !! rset id = Some set -> depth c = 0 -> (forall i f v, e = EWrite i f v -> value_ok v) -> (slot id < length set)%nat ->
  exists x, good registry E F (skeleton <$> set) 0 x (mkSt set c) (enter clock registry e (mkSt set c)) (ends (fun _ => True)).
Proof.
  intros H id Es Hc Hv Hl. destruct (set_skeleton K s set _ H Es) as [_ Hset].
  apply (enter_safe clock registry E F e (mkSt set c) Hset); [|done]. unfold id in Hl. destruct e; cbn in *; [done..|]. split; [done|by apply (Hv id0 f)].
Qed.

Lemma in_set_missing {A} K (s : @Source D) id (m : @M D A) : src_ok K E s ->
  (forall set c, lock_sets (db s) !! rset id = Some set -> m (mkSt set c) = (Panic, mkSt set c)) ->
  let '(r, s', evs, df) := in_set id m s in src_ok K E s' /\ r = Panic.
Proof.
  intros H Hm. unfold in_set. destruct (lock_sets (db s) !! rset id) as [set|] eqn:Es; [|done]. rewrite (Hm set _ eq_refl). split; [|done].
  destruct (set_skeleton K s set _ H Es) as [_ Hset]. by apply (src_ok_sets K E s _ (rset id) set set).
Qed.

(** The pass of a scan or of a completion, contained. *)
Lemma in_set_entry K (s : @Source D) e id : src_ok K E s -> e = EProcess id \/ e = EComplete id ->
  let '(r, s', evs, df) := in_set id (enter clock registry e) s in
  src_ok K E s' /\ match r with Panic => True | OutOfFuel => False | _ => Forall (event_good K E) evs /\ Forall F df end.
Proof.
  intros H He. destruct (lock_sets (db s) !! rset id) as [set|] eqn:Es; [|by (unfold in_set; rewrite Es)].
  destruct (decide (slot id < length set)%nat) as [Hl|Hl].
  - pose proof (in_set_ok K s id (enter clock registry e) (ends (fun _ => True)) H) as Hin.
    destruct (in_set id _ s) as [[[r s'] evs] df]. destruct Hin as [H' Hr].
    + intros set' c Es' Hc. assert (set' = set) as -> by congruence. apply (entry_good K s e set c H); destruct He as [-> | ->]; done.
    + split; [done|]. destruct r; cbn in Hr; try done; naive_solver.
  - pose proof (in_set_missing K s id (enter clock registry e) H) as Hin. destruct (in_set id _ s) as [[[r s'] evs] df].
    destruct Hin as [H' ->]; [|done]. intros set' c Es'. assert (set' = set) as -> by congruence.
    assert (Hn : set !! slot id = None) by (apply lookup_ge_None; lia).
    destruct He as [-> | ->]; cbn [enter]; [unfold process; destruct (Z.to_nat MAX_DEPTH); cbn [process_fuel]|unfold complete_async];
      unfold mbind, bind_M, get; cbn [members]; by rewrite Hn.
Qed.

Lemma process_ids_ok fuel : forall ids K (s : @Source D), src_ok K E s ->
  match process_ids clock registry fuel ids s with Ok s' => src_ok K E s' | OutOfFuel => exists x, F x | _ => False end.
Proof.
  induction fuel as [|fuel IHf]; intros ids; induction ids as [|id ids IH]; intros K s H; cbn [process_ids]; try done;
    pose proof (in_set_entry K s (EProcess id) id H ltac:(by left)) as Hin; cbn [enter] in Hin; destruct (in_set id _ s) as [[[r s'] evs] df];
    destruct Hin as [H' Hr]; (destruct r as [a|x| |]; [| |by apply IH|done]); destruct Hr as [Hev Hdf];
    pose proof (egress_ok K E s' evs H' Hev) as H2; (destruct df as [|y df]; [by apply IH|]).
  1,2: exists y; by apply Forall_cons in Hdf as [? _].
  all: specialize (IHf (y :: df) K _ H2); destruct (process_ids clock registry fuel (y :: df) _) as [s2| | |]; try done; by apply IH.
Qed.

Lemma complete_ok fuel K id (s : @Source D) : src_ok K E s ->
  let '(r, s') := complete clock registry fuel id s in
  src_ok K E s' /\ match r with Panic => False | OutOfFuel => exists x, F x | _ => True end.
Proof.
  intros H. unfold complete. pose proof (in_set_entry K s (EComplete id) id H ltac:(by right)) as Hin. cbn [enter] in Hin.
  destruct (in_set id _ s) as [[[r s'] evs] df]. destruct Hin as [H' Hr]. destruct r as [a|x| |]; try done; destruct Hr as [Hev Hdf];
    pose proof (egress_ok K E s' evs H' Hev) as H2; (destruct df as [|y df]; [by split|]);
    pose proof (process_ids_ok fuel (y :: df) K _ H2) as H3; destruct (process_ids clock registry fuel (y :: df) _) as [s2| | |]; by try split.
Qed.
End Safety.

(** ** Passes without device support *)

Section Plain.
Context {D : Type} (clock : nat -> Z) (E : Event -> Prop) (K : Skel).
Implicit Types s : @Source D.

#[local] Instance no_devices_posts : Posts (@no_devices D) E (fun _ => False).
Proof. by split. Qed.

Lemma no_devices_calm : ~ device_panics (@no_devices D).
Proof. intros (id & start & _ & _ & _ & Hr & _). discriminate Hr. Qed.

Lemma valid_set s id : src_ok K E s -> valid K id -> exists set, lock_sets (db s) !! rset id = Some set /\ (slot id < length set)%nat.
Proof.
  intros H (k & Hk & Hl). rewrite <- (s_skel _ _ _ H) in Hk. unfold skeletons in Hk. rewrite list_lookup_fmap in Hk.
  destruct (lock_sets (db s) !! rset id) as [set|]; [|done]. injection Hk as <-. rewrite length_fmap in Hl. eauto.
Qed.

Lemma plain_in_set {A} s id (m : @M D A) : src_ok K E s -> valid K id ->
  (forall set, (slot id < length (skeleton <$> set))%nat -> set_ok set ->
     safe no_devices E (fun _ => False) (skeleton <$> set) 0 None m (ends (fun _ => True))) ->
  let '(r, s', evs, _) := in_set id m s in
  src_ok K E s' /\ match r with Ok _ => Forall (event_good K E) evs | Err x => too_deep x /\ Forall (event_good K E) evs | _ => False end.
Proof.
  intros H Hid Hm. destruct (valid_set s id H Hid) as (set & Es & Hl).
  pose proof (in_set_ok no_devices E (fun _ => False) K s id m (ends (fun _ => True)) H) as Hin. destruct (in_set id m s) as [[[r s'] evs] df].
  destruct Hin as [H' Hr].
  - intros set' c Es' Hc. assert (set' = set) as -> by congruence. exists None. destruct (set_skeleton E K s set _ H Es) as [_ Hset].
    apply Hm; [by rewrite length_fmap|done|]. pose proof (set_ok_inv (mkSt set c) Hset) as Hi. cbn in Hi. by rewrite Hc in Hi.
  - split; [done|]. destruct r as [a|x| |]; cbn in Hr; [naive_solver..| |naive_solver]. destruct Hr as [?|?%no_devices_calm]; [congruence|done].
Qed.

Lemma plain_process_safe set i : set_ok set -> (slot i < length (skeleton <$> set))%nat ->
  safe (@no_devices D) E (fun _ => False) (skeleton <$> set) 0 None (process clock no_devices i) (ends (fun _ => True)).
Proof. intros Hset Hi. apply process_safe_spec; [apply _|apply _|by apply set_ok_links|done]. Qed.

Lemma put_record_ok s id v : src_ok K E s -> valid K id -> value_ok v ->
  let '(r, s') := put_record clock id v s in
  src_ok K E s' /\ match r with Ok evs => Forall (event_good K E) evs | Err e => too_deep e | _ => False end.
Proof.
  intros H Hid Hv. unfold put_record.
  pose proof (plain_in_set s id (write_field (process clock no_devices) id FVal v ;; process clock no_devices id) H Hid) as Hin.
  destruct (in_set id _ s) as [[[r s'] evs] df]. destruct Hin as [H' Hr].
  - intros set Hl Hset. eapply safe_bind_err; [apply safe_write_field; [|done..]|intros _ _; by apply plain_process_safe].
    intros i Hi. by apply plain_process_safe.
  - destruct r as [a|x| |]; try done; [split; [by apply flush_ok|done]|]. split; [done|apply Hr].
Qed.

Lemma pini_record_ok s id : src_ok K E s -> valid K id ->
  exists evs s', pini_record clock id s = (Ok evs, s') /\ src_ok K E s' /\ Forall (event_good K E) evs.
Proof.
  intros H Hid. unfold pini_record.
  pose proof (plain_in_set s id (r ← get id; if pini (common r) then process clock no_devices id ;; mret true else mret false) H Hid) as Hin.
  destruct (in_set id _ s) as [[[r s'] evs] df]. destruct Hin as [H' Hr].
  - intros set Hl Hset. eapply safe_seq; [now apply safe_get|]. intros rec _. destruct (pini (common rec)).
    + eapply safe_bind_err; [by apply plain_process_safe|]. intros _ _. eapply returns_ends; [by apply (safe_ret _ _ _ _ _ _ _ (fun _ => True))|done].
    + eapply returns_ends; [by apply (safe_ret _ _ _ _ _ _ _ (fun _ => True))|done].
  - destruct r as [[]|x| |]; try done; (do 2 eexists; split; [reflexivity|]); (split; [first [done|by apply flush_ok|apply flush_ok; naive_solver]|first [done|constructor|naive_solver]]).
Qed.

Lemma pini_pass_ok ids : forall s, src_ok K E s -> Forall (valid K) ids ->
  exists evs s', pini_pass clock ids s = (Ok evs, s') /\ src_ok K E s' /\ Forall (event_good K E) evs.
Proof.
  induction ids as [|id ids IH]; intros s H Hids; [exists [], s; auto|]. apply Forall_cons in Hids as [Hid Hids].
  cbn [pini_pass]. destruct (pini_record_ok s id H Hid) as (evs & s1 & -> & H1 & He). destruct (IH s1 H1 Hids) as (evs' & s2 & -> & H2 & He').
  do 2 eexists. split; [reflexivity|]. split; [done|now apply Forall_app].
Qed.

Lemma at_id_valid s id : src_ok K E s -> valid K id -> exists r, at_id (db s) id = Some r.
Proof. intros H Hid. destruct (valid_set s id H Hid) as (set & Es & Hl). unfold at_id. rewrite Es. cbn. now apply lookup_lt_is_Some_2. Qed.

Lemma pini_order_ok s : src_ok K E s -> exists ids, pini_order (db s) = Ok ids /\ Forall (valid K) ids.
Proof.
  intros H. unfold pini_order. assert (forall l, Forall (fun p : nat * RecordId => valid K p.2) l ->
    exists sw, pini_list (db s) l = Ok sw /\ Forall (fun t : Z * nat * RecordId => valid K t.2) sw) as Hl.
  { induction l as [|[i id] l IH]; intros Hl; [exists []; auto|]. apply Forall_cons in Hl as [Hid Hl]. cbn [pini_list].
    destruct (at_id_valid s id H Hid) as (r & ->). destruct (IH Hl) as (sw & -> & Hsw). cbn [bind_outcome].
    eexists. split; [done|]. destruct (pini (common r)); [constructor; done|done]. }
  destruct (Hl (enumerate (order (db s)))) as (sw & -> & Hsw).
  - apply Forall_forall. intros [i id] Hin. apply list_elem_of_lookup in Hin as (j & [_ Hj]%enumerate_lookup).
    eapply Forall_lookup_1; [apply (s_order _ _ _ H)|exact Hj].
  - cbn [bind_outcome]. eexists. split; [done|]. apply Forall_fmap. rewrite merge_sort_Permutation. exact Hsw.
Qed.

Lemma process_pini_ok s : src_ok K E s -> exists evs s', process_pini clock s = (Ok evs, s') /\ src_ok K E s'.
Proof.
  intros H. unfold process_pini. destruct (pini_order_ok s H) as (ids & -> & Hids). destruct (pini_pass_ok ids s H Hids) as (evs & s' & -> & H' & _). eauto.
Qed.

Lemma subscribe_record_ok s n : src_ok K E s -> src_ok K E (subscribe_record n s).
Proof.
  intros [A B C F G I]. split; try done. cbn. intros m cs Hcs. apply lookup_insert_Some in Hcs as [[<- <-]|[_ Hcs]]; [|eauto].
  apply Forall_app. split; [|repeat constructor]. destruct (subscribers s !! n) eqn:Es; cbn; [eauto|constructor].
Qed.
End Plain.

(** Numbers within their types, as the decoder yields them. *)
Definition decoded_ok (v : Val.DecodedValue) : Prop :=
  match v with Val.Int32 x => in_i32 x | Val.UInt16 x => 0 <= x < 2 ^ 16 | _ => True end.

Lemma value_of_ok v x : decoded_ok v -> value_of v = Some x -> value_ok x.
Proof.
  destruct v; cbn; intros H [= <-]; cbn; try done.
  - unfold in_i32, F64.i32_min, F64.i32_max. destruct v; lia.
  - pose proof (Z.mod_pos_bound v (2 ^ 32) ltac:(lia)). unfold in_i32, F64.i32_min, F64.i32_max, to_signed.
    destruct (Z.ltb_spec (v mod 2 ^ 32) (2 ^ (32 - 1))); lia.
  - unfold in_i32, F64.i32_min, F64.i32_max. lia.
Qed.

(** A source over a database that was just built. *)
Definition new_source {D} (d : RecordDb) (dev : D) : Source := mkSource d ∅ None 0 0 dev.

Lemma built_source_ok {D} E into_values records (dev : D) :
  (forall m, into_values m ≡ₚ (map_to_list m).*2) -> Forall source_ok records ->
  exists d, build into_values records = Ok d /\ src_ok (skeletons (lock_sets d)) E (new_source d dev).
Proof.
  intros Hv Hs. destruct (build_spec into_values Hv records Hs) as (gs & d & Hc & Eb & Hok & Ho & Hn & Hm).
  exists d. split; [done|]. destruct (assign_ids_spec records gs Hc) as [Hl Hids]. rewrite <- Ho in Hl, Hids.
  assert (forall j id, order d !! j = Some id -> valid (skeletons (lock_sets d)) id) as Hval.
  { intros j id Hj. destruct (lookup_lt_is_Some_2 records j) as [r Hr]; [rewrite <- Hl; now apply lookup_lt_Some in Hj|].
    destruct (built_at records gs d j r Hc Ho Hm Hr) as (id' & Hid' & Hat). assert (id' = id) as -> by congruence.
    unfold at_id in Hat. destruct (lock_sets d !! rset id) as [set|] eqn:Es; [|done]. cbn in Hat.
    exists (skeleton <$> set). unfold skeletons. rewrite list_lookup_fmap, Es, length_fmap. split; [done|]. now apply lookup_lt_Some in Hat. }
  split; cbn; try done.
  - apply Forall_forall. intros id Hin. apply list_elem_of_lookup in Hin as (j & Hj). eauto.
  - intros n id Hid. rewrite Hn, Ho in Hid. apply (name_ids_spec records gs Hc) in Hid as (j & Hj & _). rewrite <- Ho in Hj. eauto.
Qed.

(** ** A failed write *)

(** The record after the value of a PUT was written and its monitor taken. *)
Definition written (v : Value) (r : Rec) : Rec :=
  let w := upd_common (set_udf false) (set_val (coerce_to v (kind r)) r) in
  if past_mdel w then posted_rec w else w.

Lemma write_val {D} proc id v (st : @St D) r :
  members st !! slot id = Some r ->
  exists evs, write_field proc id FVal v st
    = (Ok tt, mkSt (<[slot id := written v r]> (members st))
         (mkCtx (events (ctx st) ++ evs) (deferred (ctx st)) (trace (ctx st)) (depth (ctx st)) (ticks (ctx st)) (device (ctx st)))).
Proof.
  intros Hr. pose proof (lookup_lt_Some _ _ _ Hr) as Hlt.
  unfold write_field, mbind, bind_M, get, modify, post_monitors, mbind, bind_M, get, modify, written. rewrite Hr. cbn [members ctx]. rewrite Hr.
  cbn [members ctx]. rewrite list_lookup_insert_eq by done. cbn [negb andb]. set (w := upd_common _ _). destruct (past_mdel w); cbn [negb].
  - unfold post, on_ctx. cbn [members ctx]. rewrite list_lookup_insert_eq by done. rewrite list_insert_insert_eq. eexists. done.
  - exists []. rewrite app_nil_r. unfold mret, ret_M. now destruct (ctx st).
Qed.

(** A PUT whose pass fails is applied but not reported.  When the record's SDIS
    is a cycle the pass fails at the depth cap: the client is told that the write
    failed, yet the record holds the value and counts it as posted, and no
    subscriber has been sent it. *)
Theorem failed_put_unreported {D} clock (s : @Source D) id v set r f ms target :
  lock_sets (db s) !! rset id = Some set -> set !! slot id = Some r -> pact (common r) = false -> tpro (common r) = false ->
  sdis (common r) = Db (Id target) f true ms -> slot target = slot id ->
  let '(res, s') := put_record clock id v s in
  res = Err (TooDeep MAX_DEPTH (name r)) /\ at_id (db s') id = Some (written v r) /\
  val (written v r) = coerce_to v (kind r) /\ subscribers s' = subscribers s.
Proof.
  intros Es Hr Hp Ht Hs Hi. unfold put_record, in_set. rewrite Es. set (st := mkSt set _).
  destruct (write_val (process clock no_devices) id v st r Hr) as (evs & Ew). unfold mbind, bind_M. rewrite Ew.
  set (st1 := mkSt (<[_ := _]> _) _). assert (members st1 !! slot id = Some (written v r)) as Hr1.
  { cbn. apply list_lookup_insert_eq. now apply lookup_lt_Some in Hr. }
  assert (forall (P : Rec -> Prop), (forall x y z t w, P (set_prev x y z t w) <-> P w) -> P (upd_common (set_udf false) (set_val (coerce_to v (kind r)) r)) ->
    P (written v r)) as Hw by (intros P HP Hw; unfold written, posted_rec; destruct (past_mdel _); [now apply HP|done]).
  assert (name (written v r) = name r) as En by now apply Hw.
  unfold process. rewrite (sdis_self_fuel clock no_devices _ id st1 (written v r) f ms target Hr1).
  - cbn [fst snd db at_id lock_sets with_lock_sets subscribers]. rewrite En. split; [done|]. unfold at_id. cbn.
    rewrite list_lookup_insert_eq by now apply lookup_lt_Some in Es. cbn. split; [exact Hr1|]. split; [|done]. now apply Hw.
  - now apply Hw.
  - now apply Hw.
  - now apply Hw.
  - done.
  - cbn. lia.
  - cbn. unfold MAX_DEPTH. lia.
Qed.


Definition cyclic_source : @Source unit :=
  mkSource (mkDb ∅ [sample_set] [] []) {[str "C" := [mkChan [] false]]} None 0 0 tt.

Lemma failed_put_unreported_witness :
  let '(res, s') := put_record sample_clock (mkId 0 2) (Long 0) cyclic_source in
  res = Err (TooDeep MAX_DEPTH (str "C")) /\ val <$> at_id (db s') (mkId 0 2) = Some (Enum 0) /\
  subscribers s' = {[str "C" := [mkChan [] false]]}.
Proof.
  pose proof (failed_put_unreported sample_clock cyclic_source (mkId 0 2) (Long 0) sample_set
    (sample_rec (str "C") Bi (Enum 1) no_link (to 2 true) no_link) FVal true (mkId 0 2)
    eq_refl eq_refl eq_refl eq_refl eq_refl eq_refl) as H.
  destruct (put_record _ _ _ _) as [res s']. destruct H as (H1 & H2 & H3 & H4). split; [exact H1|]. split; [|exact H4].
  rewrite H2. vm_compute. reflexivity.
Defined.

End IocSource.
