(* ===== verification/Chars.v ===== *)
(** * Characters of the standard library

    What the configuration parsers use of [char] and [str]: a string is the list
    of its characters as Unicode scalar values.  White space is the White_Space
    property; [lines], [trim], [split_whitespace], [split], the parser of [u32]
    and its decimal text. *)

From Stdlib Require Import ZArith.
From S2P Require Import Prelude.

Local Open Scope Z_scope.

Module Chars.

Abbreviation Str := (list Z).

Definition is_whitespace (c : Z) : bool :=
  ((9 <=? c) && (c <=? 13)) || (c =? 32) || (c =? 0x85) || (c =? 0xA0) || (c =? 0x1680)
  || ((0x2000 <=? c) && (c <=? 0x200A)) || (c =? 0x2028) || (c =? 0x2029) || (c =? 0x202F)
  || (c =? 0x205F) || (c =? 0x3000).

Definition is_digit (c : Z) : bool := (48 <=? c) && (c <=? 57).

(** The longest prefix without a character of [p], and the rest. *)
Fixpoint break (p : Z -> bool) (s : Str) : Str * Str :=
  match s with
  | [] => ([], [])
  | c :: s' => if p c then ([], s) else let '(a, b) := break p s' in (c :: a, b)
  end.

(** [str::split] at a character. *)
Fixpoint split (sep : Z) (s : Str) : list Str :=
  match s with
  | [] => [[]]
  | c :: s =>
    match split sep s with
    | w :: ws => if c =? sep then [] :: w :: ws else (c :: w) :: ws
    | [] => [[]]
    end
  end.

(** [split_whitespace]: the non-empty pieces between white space. *)
Fixpoint words (s : Str) (w : Str) : list Str :=
  match s with
  | [] => match w with [] => [] | _ => [rev w] end
  | c :: s =>
    if is_whitespace c then match w with [] => words s [] | _ => rev w :: words s [] end
    else words s (c :: w)
  end.

Definition split_whitespace (s : Str) : list Str := words s [].

Fixpoint trim_start (s : Str) : Str :=
  match s with
  | c :: s' => if is_whitespace c then trim_start s' else s
  | [] => []
  end.

Definition trim (s : Str) : Str := rev (trim_start (rev (trim_start s))).

(** [lines]: split at line feeds, a carriage return before one dropped, nothing
    behind the last one. *)
Definition strip_cr (s : Str) : Str :=
  match rev s with 13 :: r => rev r | _ => s end.

Fixpoint line_list (s : Str) (w : Str) : list Str :=
  match s with
  | [] => match w with [] => [] | _ => [rev w] end
  | c :: s => if c =? 10 then strip_cr (rev w) :: line_list s [] else line_list s (c :: w)
  end.

Definition lines (s : Str) : list Str := line_list s [].

(** ** [u32] *)

Fixpoint digits (acc : Z) (s : Str) : option Z :=
  match s with
  | [] => Some acc
  | c :: s =>
    if is_digit c then
      let v := 10 * acc + (c - 48) in
      if v <=? u32_max then digits v s else None
    else None
  end.

Definition parse_u32 (s : Str) : option Z :=
  match s with
  | [] => None
  | 43 :: [] => None
  | 43 :: s => digits 0 s
  | s => digits 0 s
  end.

Fixpoint decimal_fuel (fuel : nat) (n : Z) (acc : Str) : Str :=
  match fuel with
  | O => acc
  | S fuel =>
    let acc := (48 + n mod 10) :: acc in
    if n <? 10 then acc else decimal_fuel fuel (n / 10) acc
  end.

(** Ten digits hold a [u32]. *)
Definition to_string (n : Z) : Str := decimal_fuel 10 n [].

(** ** Lemmas *)

Lemma is_digit_spec c : is_digit c = true <-> 48 <= c <= 57.
Proof. unfold is_digit. rewrite andb_true_iff, !Z.leb_le. tauto. Qed.

Lemma break_app p s : forall rest, Forall (fun c => p c = false) s ->
  match rest with [] => True | c :: _ => p c = true end -> break p (s ++ rest) = (s, rest).
Proof.
  induction s as [|c s IH]; intros rest Hs Hr; simpl.
  - destruct rest as [|c rest]; simpl; [reflexivity|now rewrite Hr].
  - inversion_clear Hs as [|? ? Hc Hs']. now rewrite Hc, IH.
Qed.

Definition digit_value (v : Z) (s : Str) : Z := fold_left (fun v c => 10 * v + (c - 48)) s v.

Lemma digit_value_ge s : forall v, 0 <= v -> Forall (fun c => is_digit c = true) s -> v <= digit_value v s.
Proof.
  induction s as [|c s IH]; intros v Hv Hs; [simpl; lia|].
  inversion_clear Hs as [|? ? Hc Hs']. apply is_digit_spec in Hc.
  change (v <= digit_value (10 * v + (c - 48)) s).
  specialize (IH (10 * v + (c - 48)) ltac:(lia) Hs'). lia.
Qed.

Lemma digits_value s : forall v, 0 <= v -> Forall (fun c => is_digit c = true) s ->
  digit_value v s <= u32_max -> digits v s = Some (digit_value v s).
Proof.
  induction s as [|c s IH]; intros v Hv Hs Hmax; [reflexivity|].
  inversion_clear Hs as [|? ? Hc Hs']. cbn [digits]. rewrite Hc. apply is_digit_spec in Hc.
  change (digit_value v (c :: s)) with (digit_value (10 * v + (c - 48)) s) in *.
  pose proof (digit_value_ge s (10 * v + (c - 48)) ltac:(lia) Hs').
  destruct (Z.leb_spec (10 * v + (c - 48)) u32_max); [|lia]. apply IH; [lia|assumption|assumption].
Qed.

Lemma decimal_app fuel : forall n acc, decimal_fuel fuel n acc = decimal_fuel fuel n [] ++ acc.
Proof.
  induction fuel as [|fuel IH]; intros n acc; [reflexivity|]. cbn [decimal_fuel].
  destruct (n <? 10); [reflexivity|]. rewrite IH, (IH (n / 10) [_]), <- app_assoc. reflexivity.
Qed.

Lemma decimal_value fuel : forall n, 0 <= n < 10 ^ Z.of_nat fuel -> digit_value 0 (decimal_fuel fuel n []) = n.
Proof.
  induction fuel as [|fuel IH]; intros n Hn; [simpl in *; lia|]. cbn [decimal_fuel].
  pose proof (Z.div_mod n 10 ltac:(lia)). pose proof (Z.mod_pos_bound n 10 ltac:(lia)).
  destruct (Z.ltb_spec n 10).
  - unfold digit_value. cbn [fold_left]. rewrite Z.mod_small by lia. lia.
  - rewrite decimal_app. unfold digit_value. rewrite fold_left_app. fold (digit_value 0 (decimal_fuel fuel (n / 10) [])).
    rewrite IH; [cbn [fold_left]; lia|]. split; [apply Z.div_pos; lia|].
    apply Z.div_lt_upper_bound; [lia|]. rewrite Nat2Z.inj_succ, Z.pow_succ_r in Hn; lia.
Qed.

Lemma decimal_digits fuel : forall n acc, Forall (fun c => is_digit c = true) acc ->
  Forall (fun c => is_digit c = true) (decimal_fuel fuel n acc).
Proof.
  induction fuel as [|fuel IH]; intros n acc Hacc; [exact Hacc|]. cbn [decimal_fuel].
  assert (Forall (fun c => is_digit c = true) ((48 + n mod 10) :: acc)).
  { constructor; [|exact Hacc]. apply is_digit_spec. pose proof (Z.mod_pos_bound n 10 ltac:(lia)). lia. }
  destruct (n <? 10); [assumption|now apply IH].
Qed.

Lemma to_string_digits n : Forall (fun c => is_digit c = true) (to_string n).
Proof. apply decimal_digits. constructor. Qed.

Lemma decimal_nonempty fuel n : decimal_fuel (S fuel) n [] <> [].
Proof.
  cbn [decimal_fuel]. destruct (n <? 10); [discriminate|].
  rewrite decimal_app. intros E%(f_equal (@length Z)). rewrite length_app in E. simpl in E. lia.
Qed.

Lemma to_string_nonempty n : to_string n <> [].
Proof. apply decimal_nonempty. Qed.

Lemma parse_u32_digits s : s <> [] -> Forall (fun c => is_digit c = true) s -> parse_u32 s = digits 0 s.
Proof.
  destruct s as [|c s]; [done|]. intros _ [Hc _]%Forall_cons. apply is_digit_spec in Hc.
  destruct (Z.eq_dec c 43); [lia|]. unfold parse_u32.
  repeat match goal with |- match ?x with _ => _ end = _ => is_var x; destruct x; try reflexivity; try lia end.
Qed.

(** The decimal text of a [u32] parses to it. *)
Lemma parse_to_string n : 0 <= n <= u32_max -> parse_u32 (to_string n) = Some n.
Proof.
  intros Hn. assert (E : digit_value 0 (to_string n) = n) by (apply decimal_value; unfold u32_max in Hn; simpl; lia).
  rewrite parse_u32_digits by (apply to_string_nonempty || apply to_string_digits).
  rewrite digits_value, E; [reflexivity|lia|apply to_string_digits|lia].
Qed.

Lemma parse_u32_bound s n : parse_u32 s = Some n -> 0 <= n <= u32_max.
Proof.
  assert (D : forall s v, 0 <= v <= u32_max -> digits v s = Some n -> 0 <= n <= u32_max).
  { clear s. induction s as [|c s IH]; intros v Hv; cbn [digits]; [congruence|].
    destruct (is_digit c) eqn:Hc; [|discriminate]. apply is_digit_spec in Hc.
    destruct (Z.leb_spec (10 * v + (c - 48)) u32_max); [|discriminate]. apply IH. lia. }
  assert (Z0 : 0 <= 0 <= u32_max) by (unfold u32_max; lia).
  unfold parse_u32. intros H.
  repeat match type of H with match ?x with _ => _ end = _ => is_var x; destruct x; try discriminate end;
    eapply D; eauto.
Qed.

(** ** Words *)

Definition plain (s : Str) : Prop := s <> [] /\ Forall (fun c => is_whitespace c = false) s.

Lemma words_plain s : forall w rest, Forall (fun c => is_whitespace c = false) s ->
  words (s ++ rest) w = words rest (rev s ++ w).
Proof.
  induction s as [|c s IH]; intros w rest Hs; [reflexivity|].
  inversion_clear Hs as [|? ? Hc Hs']. simpl. rewrite Hc, IH by assumption.
  now rewrite <- app_assoc.
Qed.

(** Words joined by a space. *)
Fixpoint unwords (ws : list Str) : Str :=
  match ws with
  | [] => []
  | [w] => w
  | w :: ws => w ++ 32 :: unwords ws
  end.

Lemma words_unwords ws : Forall plain ws -> split_whitespace (unwords ws) = ws.
Proof.
  unfold split_whitespace. induction ws as [|w ws IH]; intros H; [reflexivity|].
  inversion_clear H as [|? ? [Hne Hw] Hws]. specialize (IH Hws).
  assert (R : forall k, rev w ++ k <> []).
  { intros k E. apply app_eq_nil in E as [E _]. apply (f_equal (@rev Z)) in E. rewrite rev_involutive in E. done. }
  destruct ws as [|w' ws].
  - simpl. rewrite <- (app_nil_r w) at 1. rewrite words_plain by assumption. simpl.
    destruct (rev w ++ []) eqn:E; [now apply R in E|]. rewrite <- E, app_nil_r, rev_involutive. reflexivity.
  - change (unwords (w :: w' :: ws)) with (w ++ 32 :: unwords (w' :: ws)).
    rewrite words_plain by assumption. cbn [words]. change (is_whitespace 32) with true. cbn match.
    destruct (rev w ++ []) eqn:E; [now apply R in E|]. rewrite <- E, app_nil_r, rev_involutive, IH. reflexivity.
Qed.

Lemma split_none sep s : Forall (fun c => c <> sep) s -> split sep s = [s].
Proof.
  induction s as [|c s IH]; intros H; [reflexivity|]. inversion_clear H as [|? ? Hc Hs].
  cbn [split]. rewrite IH by assumption. now rewrite (proj2 (Z.eqb_neq _ _) Hc).
Qed.

Lemma split_app sep s rest : Forall (fun c => c <> sep) s -> split sep (s ++ sep :: rest) = s :: split sep rest.
Proof.
  induction s as [|c s IH]; intros H; cbn [split app].
  - rewrite Z.eqb_refl. destruct (split sep rest) eqn:E; [|reflexivity].
    destruct rest as [|c rest]; cbn [split] in E; [done|]. destruct (split sep rest); [done|]. now destruct (c =? sep).
  - inversion_clear H as [|? ? Hc Hs]. rewrite IH by assumption. now rewrite (proj2 (Z.eqb_neq _ _) Hc).
Qed.

End Chars.
