(* ===== verification/Acf.v ===== *)
(** * Access security files

    Models [spvirit-gateway/src/access/acf.rs]: the tokenizer and the
    recursive-descent parser of UAG, HAG and ASG definitions.  The parser's
    position in its token vector is the list of the tokens left.  The theorem
    gives the language it accepts as a grammar over tokens and shows that the
    parser decides exactly that language and builds what the grammar says. *)

From stdpp Require Import gmap.
From Stdlib Require Import ZArith.
From S2P Require Import Prelude Chars.

Local Open Scope Z_scope.
Local Open Scope codec_scope.

Module Acf.
Import Chars.

Record OpSet := mkOps { op_get : bool; op_put : bool; op_rpc : bool }.

Record AsgRule := mkRule { asl : Z; ops : OpSet; uags : list Str; hags : list Str }.

(** The groups and rules by name. *)
Record Acf := mkAcf {
  acf_uags : gmap Str (list Str);
  acf_hags : gmap Str (list Str);
  acf_asgs : gmap Str (list AsgRule) }.

(** ** Tokens *)

Inductive Token := Ident (s : Str) | Number (n : Z) | LParen | RParen | LBrace | RBrace | Comma.

#[export] Instance token_eq_dec : EqDecision Token.
Proof. solve_decision. Defined.

Inductive AcfError :=
  | UnterminatedString | UnexpectedCharacter | UnexpectedEnd
  | Expected (t : Token) | ExpectedIdentifier | ExpectedNumber | ExpectedItem | ExpectedSeparator
  | CalcUnsupported | UnknownOperation | ExpectedMembership | ExpectedRule
  | DuplicateName (name : Str) | UnknownKeyword.

(** Where a bare word ends. *)
Definition delimiter (c : Z) : bool :=
  is_whitespace c || (c =? 40) || (c =? 41) || (c =? 123) || (c =? 125) || (c =? 44) || (c =? 35) || (c =? 34).

Definition push (t : Token) (r : outcome AcfError (list Token)) : outcome AcfError (list Token) :=
  let? ts := r in Ok (t :: ts).

(** Every round uses a character. *)
Fixpoint tokenize_fuel (fuel : nat) (s : Str) : outcome AcfError (list Token) :=
  match fuel, s with
  | _, [] => Ok []
  | O, _ => OutOfFuel
  | S fuel, c :: s' =>
    if is_whitespace c then tokenize_fuel fuel s'
    else if c =? 35 then tokenize_fuel fuel (break (fun c => c =? 10) s').2
    else if c =? 40 then push LParen (tokenize_fuel fuel s')
    else if c =? 41 then push RParen (tokenize_fuel fuel s')
    else if c =? 123 then push LBrace (tokenize_fuel fuel s')
    else if c =? 125 then push RBrace (tokenize_fuel fuel s')
    else if c =? 44 then push Comma (tokenize_fuel fuel s')
    else if c =? 34 then
      let '(w, rest) := break (fun c => c =? 34) s' in
      match rest with
      | [] => Err UnterminatedString
      | _ :: rest => push (Ident w) (tokenize_fuel fuel rest)
      end
    else
      let '(word, rest) := break delimiter s in
      match word with
      | [] => Err UnexpectedCharacter
      | _ => push (match parse_u32 word with Some n => Number n | None => Ident word end) (tokenize_fuel fuel rest)
      end
  end.

Definition tokenize (text : Str) : outcome AcfError (list Token) := tokenize_fuel (length text) text.

(** ** The parser *)

Definition next (ts : list Token) : outcome AcfError (Token * list Token) :=
  match ts with t :: ts => Ok (t, ts) | [] => Err UnexpectedEnd end.

Definition expect (t : Token) (ts : list Token) : outcome AcfError (list Token) :=
  let? (t', ts) := next ts in if decide (t' = t) then Ok ts else Err (Expected t).

Definition expect_ident (ts : list Token) : outcome AcfError (Str * list Token) :=
  let? (t, ts) := next ts in match t with Ident s => Ok (s, ts) | _ => Err ExpectedIdentifier end.

Definition expect_number (ts : list Token) : outcome AcfError (Z * list Token) :=
  let? (t, ts) := next ts in match t with Number n => Ok (n, ts) | _ => Err ExpectedNumber end.

Section Lists.
Context (close : Token) (item : Token -> option Str) (bad : AcfError).

(** The loop of both lists: a comma may stand before the closing token. *)
Fixpoint items (ts : list Token) : outcome AcfError (list Str * list Token) :=
  match ts with
  | [] => Err UnexpectedEnd
  | t :: ts1 =>
    if decide (t = close) then Ok ([], ts)
    else
      match item t with
      | None => Err bad
      | Some s =>
        match ts1 with
        | Comma :: ts2 => let? (xs, rest) := items ts2 in Ok (s :: xs, rest)
        | t1 :: _ => if decide (t1 = close) then Ok ([s], ts1) else Err ExpectedSeparator
        | [] => Err ExpectedSeparator
        end
      end
  end.
End Lists.

(** A number in a list of members stands for its decimal text. *)
Definition member_item (t : Token) : option Str :=
  match t with Ident s => Some s | Number n => Some (to_string n) | _ => None end.
Definition ident_item (t : Token) : option Str :=
  match t with Ident s => Some s | _ => None end.

Definition parse_paren_ident_list (ts : list Token) : outcome AcfError (list Str * list Token) :=
  let? ts := expect LParen ts in
  let? (xs, ts) := items RParen member_item ExpectedItem ts in
  let? ts := expect RParen ts in
  Ok (xs, ts).

Definition parse_brace_ident_list (ts : list Token) : outcome AcfError (list Str * list Token) :=
  let? ts := expect LBrace ts in
  let? (xs, ts) := items RBrace ident_item ExpectedIdentifier ts in
  let? ts := expect RBrace ts in
  Ok (xs, ts).

Definition set_op (kw : Str) (o : OpSet) : outcome AcfError OpSet :=
  if decide (kw = str "READ" \/ kw = str "GET") then Ok (mkOps true (op_put o) (op_rpc o))
  else if decide (kw = str "WRITE" \/ kw = str "PUT") then Ok (mkOps (op_get o) true (op_rpc o))
  else if decide (kw = str "RPC") then Ok (mkOps (op_get o) (op_put o) true)
  else if decide (kw = str "CALC") then Err CalcUnsupported
  else Err UnknownOperation.

(** The operations of a rule. *)
Fixpoint rule_ops (o : OpSet) (ts : list Token) : outcome AcfError (OpSet * list Token) :=
  match ts with
  | [] => Err UnexpectedEnd
  | Ident kw :: ts1 =>
    let? o := set_op kw o in
    match ts1 with
    | Comma :: ts2 =>
      match ts2 with
      | Ident kw' :: _ => if decide (kw' = str "CALC") then Err CalcUnsupported else rule_ops o ts2
      | _ => rule_ops o ts2
      end
    | _ => Ok (o, ts1)
    end
  | _ :: _ => Err ExpectedIdentifier
  end.

(** The membership block behind its brace. *)
Fixpoint members (fuel : nat) (us hs : list Str) (ts : list Token) : outcome AcfError (list Str * list Str * list Token) :=
  match fuel with
  | O => OutOfFuel
  | S fuel =>
    match ts with
    | RBrace :: _ => Ok (us, hs, ts)
    | Ident kw :: ts =>
      let? (us, hs, ts) :=
        (if decide (kw = str "UAG") then let? (names, ts) := parse_paren_ident_list ts in Ok (us ++ names, hs, ts)
         else if decide (kw = str "HAG") then let? (names, ts) := parse_paren_ident_list ts in Ok (us, hs ++ names, ts)
         else Err ExpectedMembership) in
      match ts with
      | Comma :: ts => members fuel us hs ts
      | RBrace :: _ => Ok (us, hs, ts)
      | _ => Err ExpectedSeparator
      end
    | _ => Err ExpectedMembership
    end
  end.

Definition parse_rule (ts : list Token) : outcome AcfError (AsgRule * list Token) :=
  let? ts := expect LParen ts in
  let? (n, ts) := expect_number ts in
  let? ts := expect Comma ts in
  let? (o, ts) := rule_ops (mkOps false false false) ts in
  let? ts := expect RParen ts in
  match ts with
  | LBrace :: _ =>
    let? ts := expect LBrace ts in
    let? (us, hs, ts) := members (S (length ts)) [] [] ts in
    let? ts := expect RBrace ts in
    Ok (mkRule n o us hs, ts)
  | _ => Ok (mkRule n o [] [], ts)
  end.

Fixpoint asg_rules (fuel : nat) (ts : list Token) : outcome AcfError (list AsgRule * list Token) :=
  match fuel with
  | O => OutOfFuel
  | S fuel =>
    match ts with
    | RBrace :: _ => Ok ([], ts)
    | Ident kw :: ts =>
      if decide (kw = str "RULE") then
        let? (r, ts) := parse_rule ts in
        let? (rs, ts) := asg_rules fuel ts in
        Ok (r :: rs, ts)
      else Err ExpectedRule
    | _ => Err ExpectedRule
    end
  end.

Definition parse_asg_body (ts : list Token) : outcome AcfError (list AsgRule * list Token) :=
  let? ts := expect LBrace ts in
  let? (rs, ts) := asg_rules (S (length ts)) ts in
  let? ts := expect RBrace ts in
  Ok (rs, ts).

(** The name of a definition. *)
Definition def_name (ts : list Token) : outcome AcfError (Str * list Token) :=
  let? ts := expect LParen ts in
  let? (name, ts) := expect_ident ts in
  let? ts := expect RParen ts in
  Ok (name, ts).

Definition add_new {A} (name : Str) (x : A) (m : gmap Str A) : outcome AcfError (gmap Str A) :=
  match m !! name with Some _ => Err (DuplicateName name) | None => Ok (<[name := x]> m) end.

Definition parse_def (acf : Acf) (ts : list Token) : outcome AcfError (Acf * list Token) :=
  let? (kw, ts) := expect_ident ts in
  if decide (kw = str "UAG") then
    let? (name, ts) := def_name ts in
    let? (users, ts) := parse_brace_ident_list ts in
    let? m := add_new name users (acf_uags acf) in
    Ok (mkAcf m (acf_hags acf) (acf_asgs acf), ts)
  else if decide (kw = str "HAG") then
    let? (name, ts) := def_name ts in
    let? (hosts, ts) := parse_brace_ident_list ts in
    let? m := add_new name hosts (acf_hags acf) in
    Ok (mkAcf (acf_uags acf) m (acf_asgs acf), ts)
  else if decide (kw = str "ASG") then
    let? (name, ts) := def_name ts in
    let? (rules, ts) := parse_asg_body ts in
    let? m := add_new name rules (acf_asgs acf) in
    Ok (mkAcf (acf_uags acf) (acf_hags acf) m, ts)
  else Err UnknownKeyword.

Fixpoint parse_defs (fuel : nat) (acf : Acf) (ts : list Token) : outcome AcfError Acf :=
  match fuel, ts with
  | _, [] => Ok acf
  | O, _ => OutOfFuel
  | S fuel, _ => let? (acf, ts) := parse_def acf ts in parse_defs fuel acf ts
  end.

Definition empty_acf : Acf := mkAcf ∅ ∅ ∅.

Definition parse_document (ts : list Token) : outcome AcfError Acf := parse_defs (length ts) empty_acf ts.

Definition parse_acf (text : Str) : outcome AcfError Acf :=
  let? tokens := tokenize text in parse_document tokens.

(** ** The grammar *)

Inductive item_list (item : Token -> option Str) : list Token -> list Str -> Prop :=
  | il_nil : item_list item [] []
  | il_one t s : item t = Some s -> item_list item [t] [s]
  | il_cons t s ts xs : item t = Some s -> item_list item ts xs -> item_list item (t :: Comma :: ts) (s :: xs).

Inductive wrapped {A} (open close : Token) (G : list Token -> A -> Prop) : list Token -> A -> Prop :=
  | wrap body a : G body a -> wrapped open close G (open :: body ++ [close]) a.

Abbreviation names_in_parens := (wrapped LParen RParen (item_list member_item)).
Abbreviation names_in_braces := (wrapped LBrace RBrace (item_list ident_item)).

Definition op_or (a b : OpSet) : OpSet :=
  mkOps (op_get a || op_get b) (op_put a || op_put b) (op_rpc a || op_rpc b).

(** What a keyword of a rule grants. *)
Definition grants : list (Str * OpSet) :=
  [(str "READ", mkOps true false false); (str "GET", mkOps true false false);
   (str "WRITE", mkOps false true false); (str "PUT", mkOps false true false);
   (str "RPC", mkOps false false true)].

Inductive operations : list Token -> OpSet -> Prop :=
  | ops_one kw o : (kw, o) ∈ grants -> operations [Ident kw] o
  | ops_cons kw o ts o' : (kw, o) ∈ grants -> operations ts o' -> operations (Ident kw :: Comma :: ts) (op_or o o').

Inductive clause : list Token -> list Str * list Str -> Prop :=
  | clause_uag ts xs : names_in_parens ts xs -> clause (Ident (str "UAG") :: ts) (xs, [])
  | clause_hag ts xs : names_in_parens ts xs -> clause (Ident (str "HAG") :: ts) ([], xs).

Inductive membership : list Token -> list Str * list Str -> Prop :=
  | mb_nil : membership [] ([], [])
  | mb_one ts m : clause ts m -> membership ts m
  | mb_cons ts m ts' m' : clause ts m -> membership ts' m' -> membership (ts ++ Comma :: ts') (m.1 ++ m'.1, m.2 ++ m'.2).

Inductive rule : list Token -> AsgRule -> Prop :=
  | rule_plain n os o : operations os o -> rule (LParen :: Number n :: Comma :: os ++ [RParen]) (mkRule n o [] [])
  | rule_members n os o ms m : operations os o -> wrapped LBrace RBrace membership ms m ->
      rule (LParen :: Number n :: Comma :: os ++ RParen :: ms) (mkRule n o m.1 m.2).

Inductive rules : list Token -> list AsgRule -> Prop :=
  | rules_nil : rules [] []
  | rules_cons ts r ts' rs : rule ts r -> rules ts' rs -> rules (Ident (str "RULE") :: ts ++ ts') (r :: rs).

(** A document extends the definitions before it by names that are new. *)
Inductive document : Acf -> list Token -> Acf -> Prop :=
  | doc_end a : document a [] a
  | doc_uag a name ts users ts' a' : acf_uags a !! name = None -> names_in_braces ts users ->
      document (mkAcf (<[name := users]> (acf_uags a)) (acf_hags a) (acf_asgs a)) ts' a' ->
      document a (Ident (str "UAG") :: LParen :: Ident name :: RParen :: ts ++ ts') a'
  | doc_hag a name ts hosts ts' a' : acf_hags a !! name = None -> names_in_braces ts hosts ->
      document (mkAcf (acf_uags a) (<[name := hosts]> (acf_hags a)) (acf_asgs a)) ts' a' ->
      document a (Ident (str "HAG") :: LParen :: Ident name :: RParen :: ts ++ ts') a'
  | doc_asg a name ts rs ts' a' : acf_asgs a !! name = None -> wrapped LBrace RBrace rules ts rs ->
      document (mkAcf (acf_uags a) (acf_hags a) (<[name := rs]> (acf_asgs a))) ts' a' ->
      document a (Ident (str "ASG") :: LParen :: Ident name :: RParen :: ts ++ ts') a'.

(** ** Parsers and languages *)

Definition Parser (A : Type) := list Token -> outcome AcfError (A * list Token).

(** A parser that always answers, takes a phrase of [G] and leaves the rest, and
    finds every phrase with [follow] behind it. *)
Record parses {A} (p : Parser A) (G : list Token -> A -> Prop) (follow : list Token -> Prop) : Prop := {
  p_settles ts : match p ts with Ok _ | Err _ => True | _ => False end;
  p_sound ts a rest : p ts = Ok (a, rest) -> exists pre, ts = pre ++ rest /\ G pre a;
  p_complete pre a rest : G pre a -> follow rest -> p (pre ++ rest) = Ok (a, rest) }.

Abbreviation anything := (fun _ : list Token => True).
Definition starts (t : Token) (ts : list Token) : Prop := exists rest, ts = t :: rest.
Definition not_before (t : Token) (ts : list Token) : Prop := ~ starts t ts.

Lemma bind_ok {E A B} (m : outcome E A) (k : A -> outcome E B) b :
  bind_outcome m k = Ok b -> exists a, m = Ok a /\ k a = Ok b.
Proof. destruct m; try discriminate. eauto. Qed.

Definition settled {E A} (m : outcome E A) : Prop := match m with Ok _ | Err _ => True | _ => False end.

Lemma settled_bind {E A B} (m : outcome E A) (k : A -> outcome E B) :
  settled m -> (forall a, m = Ok a -> settled (k a)) -> settled (bind_outcome m k).
Proof. destruct m; simpl; intros H K; try done. now apply K. Qed.

Lemma expect_ok t ts : expect t (t :: ts) = Ok ts.
Proof. unfold expect. simpl. now rewrite decide_True. Qed.

Lemma expect_inv t ts ts' : expect t ts = Ok ts' -> ts = t :: ts'.
Proof. unfold expect. destruct ts as [|t' ts]; simpl; [discriminate|]. case_decide; [|discriminate]. congruence. Qed.

Lemma expect_settled t ts : settled (expect t ts).
Proof. unfold expect. destruct ts; simpl; [done|]. now case_decide. Qed.

Lemma expect_ident_inv ts s ts' : expect_ident ts = Ok (s, ts') -> ts = Ident s :: ts'.
Proof. unfold expect_ident. destruct ts as [|[] ts]; simpl; congruence. Qed.

Lemma expect_ident_settled ts : settled (expect_ident ts).
Proof. now destruct ts as [|[] ts]. Qed.

Lemma expect_number_ok n ts : expect_number (Number n :: ts) = Ok (n, ts).
Proof. reflexivity. Qed.

Lemma expect_ident_ok w ts : expect_ident (Ident w :: ts) = Ok (w, ts).
Proof. reflexivity. Qed.

Lemma expect_number_inv ts n ts' : expect_number ts = Ok (n, ts') -> ts = Number n :: ts'.
Proof. unfold expect_number. destruct ts as [|[] ts]; simpl; congruence. Qed.

Lemma expect_number_settled ts : settled (expect_number ts).
Proof. now destruct ts as [|[] ts]. Qed.

Create HintDb acf.
#[export] Hint Resolve expect_settled expect_ident_settled expect_number_settled : acf.

(** Take apart a sequence of steps that succeeded. *)
Ltac unbind :=
  repeat match goal with
  | H : bind_outcome _ _ = Ok _ |- _ => apply bind_ok in H as (? & ? & H)
  | H : (let '(_, _) := ?p in _) = Ok _ |- _ => destruct p
  | H : expect _ _ = Ok _ |- _ => apply expect_inv in H; subst
  | H : expect_ident _ = Ok (_, _) |- _ => apply expect_ident_inv in H; subst
  | H : expect_number _ = Ok (_, _) |- _ => apply expect_number_inv in H; subst
  | H : Ok _ = Ok _ |- _ => injection H; clear H; intros; subst
  | p : (_ * _)%type |- _ => destruct p
  end; simpl in *.

Ltac settle := repeat (apply settled_bind; [eauto with acf|intros ? ?]; try match goal with |- settled (match ?x with _ => _ end) => destruct x end); eauto with acf; try done.

(** A parser between two tokens. *)
Lemma parses_wrapped {A} (open close : Token) (p : Parser A) (G : list Token -> A -> Prop) :
  parses p G (starts close) ->
  parses (fun ts => let? ts := expect open ts in
                    let? (a, ts) := p ts in
                    let? ts := expect close ts in Ok (a, ts)) (wrapped open close G) anything.
Proof.
  intros [Hset Hs Hc]. split.
  - intros ts. change (settled (let? ts := expect open ts in let? (a, ts) := p ts in let? ts := expect close ts in Ok (a, ts))).
    apply settled_bind; [auto with acf|]. intros ts' _. apply settled_bind; [apply Hset|]. intros [a ts''] _. settle.
  - intros ts a rest H. unbind.
    match goal with H : p _ = Ok _ |- _ => apply Hs in H as (pre & -> & HG) end.
    exists (open :: pre ++ [close]). split; [now rewrite <- app_comm_cons, <- app_assoc|now constructor].
  - intros pre a rest HG _. destruct HG as [body a HG].
    rewrite <- app_comm_cons, expect_ok, <- app_assoc. simpl.
    rewrite (Hc body a (close :: rest) HG) by (now exists rest). simpl. rewrite expect_ok. reflexivity.
Qed.

(** ** Lists of names *)

Lemma items_parses close item bad :
  item close = None -> close <> Comma -> parses (items close item bad) (item_list item) (starts close).
Proof.
  intros Hclose Hcc. split.
  - enough (forall n ts, (length ts <= n)%nat -> settled (items close item bad ts)) by (intros ts; now apply (H (length ts))).
    induction n as [|n IH]; intros [|t ts] Hn; simpl in *; try done; [lia|].
    case_decide; [done|]. destruct (item t); [|done]. destruct ts as [|[] ts]; try done; try (case_decide; done).
    apply settled_bind; [apply IH; simpl in *; lia|]. now intros [] _.
  - enough (forall n ts a rest, (length ts <= n)%nat -> items close item bad ts = Ok (a, rest) ->
      exists pre, ts = pre ++ rest /\ item_list item pre a) by (intros ts a rest; now apply (H (length ts))).
    induction n as [|n IH]; intros [|t ts] a rest Hn H; simpl in *; try done; [lia|].
    case_decide; [injection H as <- <-; exists []; split; [done|constructor]|].
    destruct (item t) as [s|] eqn:Ht; [|done].
    assert (One : ts = rest -> a = [s] -> exists pre, t :: ts = pre ++ rest /\ item_list item pre a)
      by (intros -> ->; exists [t]; split; [done|now constructor]).
    destruct ts as [|t1 ts]; [done|]. destruct t1; try (case_decide; [injection H as <- <-; now apply One|done]).
    unbind. match goal with H : items _ _ _ _ = Ok _ |- _ => apply IH in H as (pre & -> & HG); [|lia] end.
    exists (t :: Comma :: pre). split; [done|now constructor].
  - intros pre a rest HG [rest' ->]. induction HG as [|t s Ht|t s ts xs Ht HG IH].
    + simpl. now rewrite decide_True.
    + assert (t <> close) by congruence. simpl. rewrite decide_False, Ht by done.
      rewrite decide_True by done. now destruct close.
    + assert (t <> close) by congruence. rewrite <- !app_comm_cons. simpl. rewrite decide_False, Ht by done.
      now rewrite IH.
Qed.

Lemma paren_names_parses : parses parse_paren_ident_list names_in_parens anything.
Proof. exact (parses_wrapped LParen RParen _ _ (items_parses RParen member_item ExpectedItem eq_refl ltac:(done))). Qed.

Lemma brace_names_parses : parses parse_brace_ident_list names_in_braces anything.
Proof. exact (parses_wrapped LBrace RBrace _ _ (items_parses RBrace ident_item ExpectedIdentifier eq_refl ltac:(done))). Qed.

(** ** Operations *)

Definition no_ops : OpSet := mkOps false false false.

Lemma op_or_assoc a b c : op_or (op_or a b) c = op_or a (op_or b c).
Proof. unfold op_or. simpl. now rewrite !orb_assoc. Qed.

Lemma op_or_none a : op_or no_ops a = a.
Proof. now destruct a. Qed.

Lemma set_op_spec kw o :
  (exists g, (kw, g) ∈ grants /\ set_op kw o = Ok (op_or o g))
  \/ ((forall g, (kw, g) ∉ grants) /\ exists e, set_op kw o = Err e /\ (kw = str "CALC" -> e = CalcUnsupported)).
Proof.
  unfold set_op. destruct o as [a b c].
  repeat case_decide; repeat match goal with H : _ \/ _ |- _ => destruct H end; subst;
    try (left; eexists; split; [unfold grants; repeat (apply list_elem_of_here || apply list_elem_of_further)|now destruct a, b, c]).
  - right. split; [|eauto]. intros g. unfold grants. rewrite !elem_of_cons, elem_of_nil. naive_solver.
  - right. split; [|eexists; split; [done|congruence]].
    intros g. unfold grants. rewrite !elem_of_cons, elem_of_nil. naive_solver.
Qed.

Lemma grants_fun kw a b : (kw, a) ∈ grants -> (kw, b) ∈ grants -> a = b.
Proof. unfold grants. rewrite !elem_of_cons, !elem_of_nil. naive_solver. Qed.

Lemma calc_grants_nothing g : (str "CALC", g) ∉ grants.
Proof. unfold grants. rewrite !elem_of_cons, elem_of_nil. naive_solver. Qed.

Lemma set_op_ok kw o g : (kw, g) ∈ grants -> set_op kw o = Ok (op_or o g).
Proof.
  intros Hg. destruct (set_op_spec kw o) as [(g' & Hg' & ->)|(Hn & _)]; [|now apply Hn in Hg].
  now rewrite (grants_fun _ _ _ Hg Hg').
Qed.

(** The look-ahead for CALC changes nothing. *)
Lemma rule_ops_step o kw ts :
  rule_ops o (Ident kw :: ts) =
  let? o := set_op kw o in match ts with Comma :: ts2 => rule_ops o ts2 | _ => Ok (o, ts) end.
Proof.
  cbn [rule_ops]. destruct (set_op kw o) as [o'| | |]; try reflexivity. simpl.
  destruct ts as [|[] [|[kw'| | | | | |] ts]]; try reflexivity. case_decide; [|reflexivity]. subst.
  cbn [rule_ops]. destruct (set_op_spec (str "CALC") o') as [(g & Hg & _)|(_ & e & -> & He)].
  - now apply calc_grants_nothing in Hg.
  - simpl. now rewrite He.
Qed.

Lemma rule_ops_parses o :
  parses (rule_ops o) (fun ts r => exists o', operations ts o' /\ r = op_or o o') (not_before Comma).
Proof.
  split.
  - enough (forall n ts o, (length ts <= n)%nat -> settled (rule_ops o ts)) by (intros ts; now apply (H (length ts))).
    induction n as [|n IH]; intros [|[kw| | | | | |] ts] o' Hn; simpl in Hn; try done; [lia|]. rewrite rule_ops_step.
    apply settled_bind.
    + destruct (set_op_spec kw o') as [(? & _ & ->)|(_ & e & -> & _)]; done.
    + intros o1 _. destruct ts as [|[] ts]; try done. apply IH. simpl in Hn. lia.
  - enough (forall n ts o a rest, (length ts <= n)%nat -> rule_ops o ts = Ok (a, rest) ->
      exists pre, ts = pre ++ rest /\ exists o', operations pre o' /\ a = op_or o o')
      by (intros ts a rest; now apply (H (length ts))).
    induction n as [|n IH]; intros [|[kw| | | | | |] ts] o' a rest Hn H; simpl in Hn; try done; [lia|].
    rewrite rule_ops_step in H. destruct (set_op_spec kw o') as [(g & Hg & E)|(_ & e & E & _)]; rewrite E in H; [|done].
    simpl in H.
    assert (One : ts = rest -> a = op_or o' g -> exists pre, Ident kw :: ts = pre ++ rest /\ exists o1, operations pre o1 /\ a = op_or o' o1)
      by (intros -> ->; exists [Ident kw]; split; [done|exists g; split; [now constructor|done]]).
    destruct ts as [|[] ts]; try (injection H as <- <-; now apply One).
    apply IH in H as (pre & -> & o1 & HG & ->); [|simpl in Hn; lia].
    exists (Ident kw :: Comma :: pre). split; [done|]. exists (op_or g o1). split; [now constructor|apply op_or_assoc].
  - intros pre a rest (o' & HG & ->) Hf. revert o.
    induction HG as [kw g Hg|kw g ts o' Hg HG IH]; intros o; rewrite <- ?app_comm_cons, rule_ops_step, (set_op_ok _ _ _ Hg); simpl.
    + destruct rest as [|[] rest]; try reflexivity. exfalso. apply Hf. now exists rest.
    + now rewrite IH, op_or_assoc.
Qed.

(** ** Membership *)

Definition named (kw : Str) (us hs : list Str) (ts : list Token) : outcome AcfError (list Str * list Str * list Token) :=
  if decide (kw = str "UAG") then let? (names, ts) := parse_paren_ident_list ts in Ok (us ++ names, hs, ts)
  else if decide (kw = str "HAG") then let? (names, ts) := parse_paren_ident_list ts in Ok (us, hs ++ names, ts)
  else Err ExpectedMembership.

Lemma named_settled kw us hs ts : settled (named kw us hs ts).
Proof.
  assert (S := p_settles _ _ _ paren_names_parses). unfold named.
  repeat case_decide; try done; (apply settled_bind; [apply S|now intros []]).
Qed.

Lemma named_sound kw us hs ts us' hs' rest : named kw us hs ts = Ok (us', hs', rest) ->
  exists pre m, Ident kw :: ts = pre ++ rest /\ clause pre m /\ us' = us ++ m.1 /\ hs' = hs ++ m.2.
Proof.
  unfold named. intros H. repeat case_decide; subst; try done; unbind;
    match goal with H : parse_paren_ident_list _ = Ok _ |- _ => apply (p_sound _ _ _ paren_names_parses) in H as (pre & -> & HG) end.
  - exists (Ident (str "UAG") :: pre), (l, []). rewrite app_nil_r. repeat split. now constructor.
  - exists (Ident (str "HAG") :: pre), ([], l). rewrite app_nil_r. repeat split. now constructor.
Qed.

Lemma members_step fuel us hs kw ts :
  members (S fuel) us hs (Ident kw :: ts) =
  let? (us, hs, ts) := named kw us hs ts in
  match ts with Comma :: ts => members fuel us hs ts | RBrace :: _ => Ok (us, hs, ts) | _ => Err ExpectedSeparator end.
Proof. reflexivity. Qed.

Lemma clause_found ts m us hs rest : clause ts m ->
  exists kw ts', ts = Ident kw :: ts' /\ named kw us hs (ts' ++ rest) = Ok (us ++ m.1, hs ++ m.2, rest).
Proof.
  intros H. destruct H as [ts xs HG|ts xs HG]; do 2 eexists; (split; [reflexivity|]); unfold named;
    rewrite (p_complete _ _ _ paren_names_parses _ _ rest HG I); simpl; now rewrite app_nil_r.
Qed.

Lemma named_shrinks kw us hs ts us' hs' rest : named kw us hs ts = Ok (us', hs', rest) -> (length rest <= length ts)%nat.
Proof.
  intros H. apply named_sound in H as (pre & m & E & Hcl & _). destruct Hcl; simpl in E; injection E as -> ->;
    rewrite length_app; lia.
Qed.

Lemma members_settled fuel : forall us hs ts, (length ts < fuel)%nat -> settled (members fuel us hs ts).
Proof.
  induction fuel as [|fuel IH]; intros us hs ts Hf; [lia|].
  destruct ts as [|[kw| | | | | |] ts]; try done. rewrite members_step.
  apply settled_bind; [apply named_settled|]. intros [[us' hs'] ts'] E. apply named_shrinks in E.
  destruct ts' as [|[] ts']; try done. apply IH. simpl in *. lia.
Qed.

Lemma members_sound fuel : forall us hs ts us' hs' rest, members fuel us hs ts = Ok (us', hs', rest) ->
  exists pre m, ts = pre ++ rest /\ membership pre m /\ us' = us ++ m.1 /\ hs' = hs ++ m.2.
Proof.
  induction fuel as [|fuel IH]; intros us hs ts us' hs' rest H; [done|].
  destruct ts as [|[kw| | | | | |] ts]; try done.
  - rewrite members_step in H. apply bind_ok in H as ([[us1 hs1] ts1] & E & H).
    apply named_sound in E as (pre & m & -> & Hcl & -> & ->).
    destruct ts1 as [|[] ts1]; try done.
    + injection H as <- <- <-. exists pre, m. repeat split. now constructor.
    + apply IH in H as (pre' & m' & -> & Hm & -> & ->). exists (pre ++ Comma :: pre'), (m.1 ++ m'.1, m.2 ++ m'.2).
      rewrite <- !app_assoc. repeat split. now constructor.
  - injection H as <- <- <-. exists [], ([], []). rewrite !app_nil_r. repeat split. constructor.
Qed.

Lemma members_complete ts m : membership ts m -> forall fuel us hs rest, (length ts < fuel)%nat ->
  members fuel us hs (ts ++ RBrace :: rest) = Ok (us ++ m.1, hs ++ m.2, RBrace :: rest).
Proof.
  induction 1 as [|ts m Hcl|ts m ts' m' Hcl Hm IH]; intros fuel us hs rest Hf; (destruct fuel; [simpl in Hf; lia|]).
  - simpl. now rewrite !app_nil_r.
  - destruct (clause_found ts m us hs (RBrace :: rest) Hcl) as (kw & ts' & -> & E).
    rewrite <- app_comm_cons, members_step, E. reflexivity.
  - destruct (clause_found ts m us hs (Comma :: ts' ++ RBrace :: rest) Hcl) as (kw & ts1 & -> & E).
    rewrite <- app_assoc, <- !app_comm_cons, members_step, E. simpl.
    rewrite IH by (rewrite length_app in Hf; simpl in Hf; lia). now rewrite !app_assoc.
Qed.

(** The membership block with its closing brace. *)
Definition block (ts : list Token) : outcome AcfError ((list Str * list Str) * list Token) := members (S (length ts)) [] [] ts.

Lemma block_parses : parses block membership (starts RBrace).
Proof.
  split.
  - intros ts. apply members_settled. lia.
  - intros ts [us hs] rest H. apply members_sound in H as (pre & m & -> & Hm & -> & ->). destruct m. eauto.
  - intros pre [us hs] rest Hm [rest' ->]. unfold block. rewrite (members_complete _ _ Hm); [reflexivity|].
    rewrite length_app. lia.
Qed.

(** ** Rules *)

Lemma membership_block_parses :
  parses (fun ts => let? ts := expect LBrace ts in let? (m, ts) := block ts in let? ts := expect RBrace ts in Ok (m, ts))
    (wrapped LBrace RBrace membership) anything.
Proof. exact (parses_wrapped LBrace RBrace _ _ block_parses). Qed.

Abbreviation parse_block := (fun ts => let? ts := expect LBrace ts in let? (m, ts) := block ts in let? ts := expect RBrace ts in Ok (m, ts)).

Lemma parse_rule_eq ts :
  parse_rule ts =
  let? ts := expect LParen ts in
  let? (n, ts) := expect_number ts in
  let? ts := expect Comma ts in
  let? (o, ts) := rule_ops no_ops ts in
  let? ts := expect RParen ts in
  match ts with
  | LBrace :: _ => let? (m, ts) := parse_block ts in Ok (mkRule n o m.1 m.2, ts)
  | _ => Ok (mkRule n o [] [], ts)
  end.
Proof.
  unfold parse_rule. destruct (expect LParen ts) as [ts1| | |]; try reflexivity. cbn [bind_outcome].
  destruct (expect_number ts1) as [[n ts2]| | |]; try reflexivity. cbn [bind_outcome].
  destruct (expect Comma ts2) as [ts3| | |]; try reflexivity. cbn [bind_outcome].
  change (mkOps false false false) with no_ops.
  destruct (rule_ops no_ops ts3) as [[o ts4]| | |]; try reflexivity. cbn [bind_outcome].
  destruct (expect RParen ts4) as [ts5| | |]; try reflexivity. cbn [bind_outcome].
  destruct ts5 as [|[] ts5]; try reflexivity. rewrite expect_ok. cbn [bind_outcome]. unfold block.
  destruct (members _ _ _ ts5) as [[[us hs] ts6]| | |]; try reflexivity. cbn [bind_outcome].
  now destruct (expect RBrace ts6).
Qed.

Lemma parse_rule_parses : parses parse_rule rule (not_before LBrace).
Proof.
  split.
  - intros ts. rewrite parse_rule_eq. change (settled (let? ts := expect LParen ts in
      let? (n, ts) := expect_number ts in let? ts := expect Comma ts in let? (o, ts) := rule_ops no_ops ts in
      let? ts := expect RParen ts in match ts with
      | LBrace :: _ => let? (m, ts) := parse_block ts in Ok (mkRule n o m.1 m.2, ts) | _ => Ok (mkRule n o [] [], ts) end)).
    apply settled_bind; [auto with acf|intros ? _]. apply settled_bind; [auto with acf|intros [n ?] _].
    apply settled_bind; [auto with acf|intros ? _]. apply settled_bind; [apply (p_settles _ _ _ (rule_ops_parses no_ops))|intros [o ?] _].
    apply settled_bind; [auto with acf|intros ts' _]. destruct ts' as [|[] ts']; try done.
    apply settled_bind; [apply (p_settles _ _ _ membership_block_parses)|now intros []].
  - intros ts r rest H. rewrite parse_rule_eq in H.
    apply bind_ok in H as (ts1 & ->%expect_inv & H). apply bind_ok in H as ([n ts2] & ->%expect_number_inv & H).
    apply bind_ok in H as (ts3 & ->%expect_inv & H). apply bind_ok in H as ([o ts4] & Ho & H).
    apply (p_sound _ _ _ (rule_ops_parses no_ops)) in Ho as (os & -> & o' & HG & ->). rewrite op_or_none in H.
    apply bind_ok in H as (ts5 & ->%expect_inv & H).
    assert (Plain : ts5 = rest -> r = mkRule n o' [] [] -> exists pre, LParen :: Number n :: Comma :: os ++ RParen :: ts5 = pre ++ rest /\ rule pre r).
    { intros -> ->. exists (LParen :: Number n :: Comma :: os ++ [RParen]). simpl. rewrite <- app_assoc. split; [done|now constructor]. }
    destruct ts5 as [|[] ts5]; try (injection H as <- <-; now apply Plain).
    apply bind_ok in H as ([m ts6] & Hb & H). injection H as <- <-.
    apply (p_sound _ _ _ membership_block_parses) in Hb as (ms & -> & Hm).
    exists (LParen :: Number n :: Comma :: os ++ RParen :: ms). simpl. rewrite <- app_assoc. split; [done|now constructor].
  - intros pre r rest HG Hf. rewrite parse_rule_eq.
    destruct HG as [n os o HG|n os o ms m HG Hm]; rewrite <- !app_comm_cons, expect_ok; cbn [bind_outcome];
      rewrite expect_number_ok; cbn [bind_outcome]; rewrite expect_ok; cbn [bind_outcome];
      rewrite <- app_assoc, <- app_comm_cons, (p_complete _ _ _ (rule_ops_parses no_ops) os (op_or no_ops o));
      try (now eauto); try (now intros [? ?]); cbn [bind_outcome]; rewrite expect_ok; cbn [bind_outcome app]; rewrite op_or_none.
    + destruct rest as [|[] rest]; try reflexivity. exfalso. apply Hf. now exists rest.
    + pose proof (p_complete _ _ _ membership_block_parses ms m rest Hm I) as E. destruct Hm as [body m Hm].
      simpl in *. rewrite E. reflexivity.
Qed.

Lemma rule_nonempty ts r : rule ts r -> ts <> [].
Proof. now destruct 1. Qed.

Lemma asg_rules_step fuel ts :
  asg_rules (S fuel) (Ident (str "RULE") :: ts) =
  let? (r, ts) := parse_rule ts in let? (rs, ts) := asg_rules fuel ts in Ok (r :: rs, ts).
Proof. reflexivity. Qed.

Lemma asg_rules_settled fuel : forall ts, (length ts < fuel)%nat -> settled (asg_rules fuel ts).
Proof.
  induction fuel as [|fuel IH]; intros ts Hf; [lia|]. destruct ts as [|[kw| | | | | |] ts]; try done. simpl.
  case_decide; [|done]. apply settled_bind; [apply (p_settles _ _ _ parse_rule_parses)|]. intros [r ts'] E.
  apply (p_sound _ _ _ parse_rule_parses) in E as (pre & -> & _). simpl in Hf. rewrite length_app in Hf.
  apply settled_bind; [apply IH; lia|now intros []].
Qed.

Lemma asg_rules_sound fuel : forall ts rs rest, asg_rules fuel ts = Ok (rs, rest) -> exists pre, ts = pre ++ rest /\ rules pre rs.
Proof.
  induction fuel as [|fuel IH]; intros ts rs rest H; [done|]. destruct ts as [|[kw| | | | | |] ts]; try done.
  - simpl in H. case_decide; [|done]. subst. apply bind_ok in H as ([r ts1] & Hr & H).
    apply (p_sound _ _ _ parse_rule_parses) in Hr as (pre & -> & Hr). apply bind_ok in H as ([rs1 ts2] & E & H).
    injection H as <- <-. apply IH in E as (pre' & -> & Hrs). exists (Ident (str "RULE") :: pre ++ pre').
    split; [now rewrite <- app_comm_cons, <- app_assoc|now constructor].
  - injection H as <- <-. exists []. split; [done|constructor].
Qed.

Lemma asg_rules_complete ts rs : rules ts rs -> forall fuel rest, (length ts < fuel)%nat ->
  asg_rules fuel (ts ++ RBrace :: rest) = Ok (rs, RBrace :: rest).
Proof.
  induction 1 as [|ts r ts' rs Hr Hrs IH]; intros fuel rest Hf; (destruct fuel; [simpl in Hf; lia|]); [done|].
  rewrite <- app_comm_cons, <- app_assoc, asg_rules_step, (p_complete _ _ _ parse_rule_parses _ _ _ Hr).
  - simpl. rewrite IH; [done|]. simpl in Hf. rewrite length_app in Hf. lia.
  - intros [k E]. destruct Hrs; discriminate E.
Qed.

Definition asg_rules_all (ts : list Token) := asg_rules (S (length ts)) ts.

Lemma asg_rules_parses : parses asg_rules_all rules (starts RBrace).
Proof.
  split.
  - intros ts. apply asg_rules_settled. lia.
  - intros ts rs rest. apply asg_rules_sound.
  - intros pre rs rest HG [rest' ->]. apply asg_rules_complete; [done|]. rewrite length_app. lia.
Qed.

Lemma asg_body_parses : parses parse_asg_body (wrapped LBrace RBrace rules) anything.
Proof. exact (parses_wrapped LBrace RBrace _ _ asg_rules_parses). Qed.

(** ** Documents *)

Lemma add_new_ok {A} name (x : A) m : m !! name = None -> add_new name x m = Ok (<[name := x]> m).
Proof. unfold add_new. now intros ->. Qed.

Lemma add_new_inv {A} name (x : A) m m' : add_new name x m = Ok m' -> m !! name = None /\ m' = <[name := x]> m.
Proof. unfold add_new. destruct (m !! name); [done|]. intros [= <-]. done. Qed.

Lemma def_name_ok name ts : def_name (LParen :: Ident name :: RParen :: ts) = Ok (name, ts).
Proof. reflexivity. Qed.

Lemma def_name_inv ts name rest : def_name ts = Ok (name, rest) -> ts = LParen :: Ident name :: RParen :: rest.
Proof.
  unfold def_name. intros H. apply bind_ok in H as (ts1 & ->%expect_inv & H).
  apply bind_ok in H as ([w ts2] & ->%expect_ident_inv & H). apply bind_ok in H as (ts3 & ->%expect_inv & H).
  now injection H as <- <-.
Qed.

Lemma def_name_settled ts : settled (def_name ts).
Proof. unfold def_name. apply settled_bind; [auto with acf|intros ? _]. apply settled_bind; [auto with acf|intros [] _]. settle. Qed.

Lemma parse_def_settled a ts : settled (parse_def a ts).
Proof.
  unfold parse_def. apply settled_bind; [auto with acf|intros [kw ts1] _].
  assert (N : forall A (m : gmap Str A) name x, settled (add_new name x m)) by (intros; unfold add_new; now destruct (_ !! _)).
  repeat case_decide; try done; (apply settled_bind; [apply def_name_settled|intros [name ts2] _]);
    (apply settled_bind; [apply (p_settles _ _ _ brace_names_parses) || apply (p_settles _ _ _ asg_body_parses)|intros [? ts3] _]);
    (apply settled_bind; [apply N|done]).
Qed.

Lemma parse_def_sound a ts a' rest : parse_def a ts = Ok (a', rest) ->
  (length rest < length ts)%nat /\ forall a'', document a' rest a'' -> document a ts a''.
Proof.
  unfold parse_def. intros H. apply bind_ok in H as ([kw ts1] & ->%expect_ident_inv & H).
  repeat case_decide; try done; subst; apply bind_ok in H as ([name ts2] & ->%def_name_inv & H);
    apply bind_ok in H as ([body ts3] & Hb & H); apply bind_ok in H as (m & [Hnew ->]%add_new_inv & H); injection H as <- <-;
    (apply (p_sound _ _ _ brace_names_parses) in Hb as (pre & -> & Hb) || apply (p_sound _ _ _ asg_body_parses) in Hb as (pre & -> & Hb));
    (split; [simpl; rewrite length_app; lia|intros a'' Hd]).
  - eapply doc_uag; eauto.
  - eapply doc_hag; eauto.
  - eapply doc_asg; eauto.
Qed.

Lemma parse_defs_settled fuel : forall a ts, (length ts <= fuel)%nat -> settled (parse_defs fuel a ts).
Proof.
  induction fuel as [|fuel IH]; intros a ts Hf; (destruct ts as [|t ts]; [done|]); [simpl in Hf; lia|]. cbn [parse_defs].
  apply settled_bind; [apply parse_def_settled|]. intros [a' ts'] E. apply parse_def_sound in E as [Hl _].
  apply IH. simpl in *. lia.
Qed.

Lemma parse_defs_sound fuel : forall a ts a', parse_defs fuel a ts = Ok a' -> document a ts a'.
Proof.
  induction fuel as [|fuel IH]; intros a ts a' H; (destruct ts as [|t ts]; [injection H as <-; constructor|]); [done|].
  cbn [parse_defs] in H. apply bind_ok in H as ([a1 ts1] & E & H). apply parse_def_sound in E as [_ E]. auto.
Qed.

(** One definition of a document, with the parser of its body. *)
Ltac define_next Hb Hp :=
  rewrite ?decide_False, decide_True by done; rewrite def_name_ok; cbn [bind_outcome];
  rewrite (p_complete _ _ _ Hp _ _ _ Hb I); cbn [bind_outcome]; rewrite add_new_ok by done; cbn [bind_outcome];
  match goal with
  | IH : forall fuel, _ -> parse_defs fuel _ _ = _, Hf : (_ <= _)%nat |- _ =>
      apply IH; simpl in Hf; rewrite length_app in Hf; lia
  end.

Lemma parse_defs_complete a ts a' : document a ts a' -> forall fuel, (length ts <= fuel)%nat -> parse_defs fuel a ts = Ok a'.
Proof.
  induction 1 as [a|a name ts xs ts' a' Hn Hb Hd IH|a name ts xs ts' a' Hn Hb Hd IH|a name ts rs ts' a' Hn Hb Hd IH];
    intros fuel Hf; (destruct fuel; [try (simpl in Hf; lia)|]); try reflexivity; cbn [parse_defs]; unfold parse_def;
    rewrite expect_ident_ok; cbn [bind_outcome].
  - define_next Hb brace_names_parses.
  - define_next Hb brace_names_parses.
  - define_next Hb asg_body_parses.
Qed.

(** ** The lexical grammar *)

Definition punctuation : list (Z * Token) := [(40, LParen); (41, RParen); (123, LBrace); (125, RBrace); (44, Comma)].

Definition word_token (w : Str) : Token := match parse_u32 w with Some n => Number n | None => Ident w end.

Inductive lexes : Str -> list Token -> Prop :=
  | lex_end : lexes [] []
  | lex_space c s ts : is_whitespace c = true -> lexes s ts -> lexes (c :: s) ts
  | lex_comment body s ts : Forall (fun c => c <> 10) body -> match s with [] => True | c :: _ => c = 10 end ->
      lexes s ts -> lexes (35 :: body ++ s) ts
  | lex_punct c t s ts : (c, t) ∈ punctuation -> lexes s ts -> lexes (c :: s) (t :: ts)
  | lex_quoted w s ts : Forall (fun c => c <> 34) w -> lexes s ts -> lexes (34 :: w ++ 34 :: s) (Ident w :: ts)
  | lex_word w s ts : w <> [] -> Forall (fun c => delimiter c = false) w ->
      match s with [] => True | c :: _ => delimiter c = true end ->
      lexes s ts -> lexes (w ++ s) (word_token w :: ts).

Lemma break_spec p s : s = (break p s).1 ++ (break p s).2 /\ Forall (fun c => p c = false) (break p s).1
  /\ match (break p s).2 with [] => True | c :: _ => p c = true end.
Proof.
  induction s as [|c s (IH1 & IH2 & IH3)]; simpl; [done|]. destruct (p c) eqn:Hc; simpl; [now rewrite Hc|].
  destruct (break p s) as [a b]. simpl in *. subst. auto.
Qed.

Lemma break_shrinks p s : (length (break p s).2 <= length s)%nat.
Proof. destruct (break_spec p s) as (E & _). rewrite E at 2. rewrite length_app. lia. Qed.

Lemma neq_eqb (k : Z) l : Forall (fun c => (c =? k) = false) l <-> Forall (fun c => c <> k) l.
Proof. split; intros H; (eapply Forall_impl; [exact H|]); simpl; intros x Hx; now apply Z.eqb_neq in Hx || apply Z.eqb_neq. Qed.

Lemma push_inv t r ts : push t r = Ok ts -> exists ts', r = Ok ts' /\ ts = t :: ts'.
Proof. unfold push. intros H. apply bind_ok in H as (ts' & -> & H). injection H as <-. eauto. Qed.

Lemma push_settled t r : settled r -> settled (push t r).
Proof. now destruct r. Qed.

Lemma tokenize_settled fuel : forall s, (length s <= fuel)%nat -> settled (tokenize_fuel fuel s).
Proof.
  induction fuel as [|fuel IH]; intros [|c s] Hf; simpl in Hf; try done; [lia|]. cbn [tokenize_fuel].
  repeat match goal with |- settled (if ?b then _ else _) => destruct b eqn:?; [first [apply push_settled, IH; lia | apply IH; lia | idtac]|] end.
  - apply IH. pose proof (break_shrinks (fun c => c =? 10) s). lia.
  - pose proof (break_shrinks (fun c => c =? 34) s). destruct (break _ s) as [w [|q rest]]; [done|].
    apply push_settled, IH. simpl in *. lia.
  - simpl. unfold delimiter. match goal with H : is_whitespace c = false |- _ => rewrite H end.
    bool_to_prop. repeat match goal with H : c <> _ |- _ => apply Z.eqb_neq in H; rewrite H; clear H end. simpl.
    pose proof (break_shrinks delimiter s). fold delimiter. destruct (break _ s) as [w rest]. apply push_settled, IH. simpl in *. lia.
Qed.

(** A character that starts a word. *)
Lemma word_start c : is_whitespace c = false -> (c =? 35) = false -> (c =? 40) = false -> (c =? 41) = false ->
  (c =? 123) = false -> (c =? 125) = false -> (c =? 44) = false -> (c =? 34) = false -> delimiter c = false.
Proof. unfold delimiter. now intros -> -> -> -> -> -> -> ->. Qed.

Lemma tokenize_sound fuel : forall s ts, tokenize_fuel fuel s = Ok ts -> lexes s ts.
Proof.
  induction fuel as [|fuel IH]; intros [|c s] ts H; simpl in H; try done; try (injection H as <-; constructor).
  destruct (is_whitespace c) eqn:Hw; [now apply lex_space; auto|].
  destruct (c =? 35) eqn:E1.
  { apply Z.eqb_eq in E1 as ->. pose proof (break_spec (fun c => c =? 10) s) as (Es & Hb & Hn).
    destruct (break _ s) as [body rest]. simpl in *. subst s.
    apply lex_comment; [now apply neq_eqb|destruct rest; [done|now apply Z.eqb_eq]|auto]. }
  repeat match type of H with
  | (if ?b then push _ _ else _) = _ =>
      let E := fresh in destruct b eqn:E;
      [apply Z.eqb_eq in E as ->; apply push_inv in H as (ts' & H & ->); apply lex_punct; [unfold punctuation; set_solver|auto]|]
  end.
  destruct (c =? 34) eqn:Eq.
  - apply Z.eqb_eq in Eq as ->. pose proof (break_spec (fun c => c =? 34) s) as (Es & Hb & Hn).
    destruct (break _ s) as [w [|q rest]]; [done|]. simpl in *. apply Z.eqb_eq in Hn as ->. subst s.
    apply push_inv in H as (ts' & H & ->). apply lex_quoted; [now apply neq_eqb|auto].
  - assert (Hc : delimiter c = false) by (now apply word_start).
    rewrite Hc in H. pose proof (break_spec delimiter s) as (Es & Hb & Hn). destruct (break delimiter s) as [w rest]. simpl in *.
    subst s. apply push_inv in H as (ts' & H & ->). rewrite app_comm_cons. apply lex_word; [done|now constructor|done|auto].
Qed.

Lemma tokenize_complete s ts : lexes s ts -> forall fuel, (length s <= fuel)%nat -> tokenize_fuel fuel s = Ok ts.
Proof.
  induction 1 as [|c s ts Hc H IH|body s ts Hb Hs H IH|c t s ts Hp H IH|w s ts Hw H IH|w s ts Hne Hw Hs H IH];
    intros fuel Hf; (destruct fuel; [try (simpl in Hf; lia)|]); try reflexivity; cbn [tokenize_fuel].
  - rewrite Hc. apply IH. simpl in Hf. lia.
  - change (is_whitespace 35) with false. cbn match. rewrite Z.eqb_refl. cbn match.
    rewrite (break_app (fun c => c =? 10) body s); [|now apply neq_eqb|destruct s; [done|now apply Z.eqb_eq]].
    apply IH. simpl in Hf. rewrite length_app in Hf. lia.
  - unfold push. rewrite IH by (simpl in Hf; lia).
    unfold punctuation in Hp. rewrite !elem_of_cons, elem_of_nil in Hp. destruct_or! Hp; try done; simplify_eq; reflexivity.
  - change (is_whitespace 34) with false. cbn [Z.eqb Pos.eqb].
    rewrite (break_app (fun c => c =? 34) w (34 :: s)); [|now apply neq_eqb|done].
    rewrite IH by (simpl in Hf; rewrite length_app in Hf; simpl in Hf; lia). reflexivity.
  - destruct w; [done|]. exfalso. rewrite length_app in Hf. simpl in Hf. lia.
  - destruct w as [|c w]; [done|]. rewrite <- app_comm_cons. inversion Hw as [|? ? Hc Hw']; subst.
    pose proof (break_app delimiter (c :: w) s Hw Hs) as E. rewrite <- app_comm_cons in E. rewrite E.
    unfold delimiter in Hc. bool_to_prop.
    repeat match goal with H : c <> _ |- _ => apply Z.eqb_neq in H end.
    repeat match goal with H : ?b = false |- context [if ?b then _ else _] => rewrite H end.
    unfold push. rewrite IH by (simpl in Hf; rewrite length_app in Hf; lia). reflexivity.
Qed.

(** C29: reading an access security file always ends with a document or an
    error, and it accepts a text exactly when the characters form tokens of the
    lexical grammar and the tokens a document of the grammar, in which no group
    or rule set is named twice; the result holds the groups, rules and operations
    the grammar gives. *)
Theorem acf_parser_correct text :
  settled (parse_acf text)
  /\ forall acf, parse_acf text = Ok acf <-> exists ts, lexes text ts /\ document empty_acf ts acf.
Proof.
  unfold parse_acf, tokenize, parse_document. split.
  - apply settled_bind; [now apply tokenize_settled|]. intros ts _. now apply parse_defs_settled.
  - intros acf. split.
    + intros H. apply bind_ok in H as (ts & Ht & Hd). exists ts. split; [now apply tokenize_sound in Ht|now apply parse_defs_sound in Hd].
    + intros (ts & Ht & Hd). rewrite (tokenize_complete _ _ Ht) by lia. apply (parse_defs_complete _ _ _ Hd). lia.
Qed.

Definition sample_text : Str := str "UAG(ops) { alice, bob, } # people
HAG(ctl){10.0.0.1}
ASG(RW) { RULE(1, WRITE, RPC) { UAG(ops), HAG(ctl, 7) } RULE(0, READ) }".

Example sample_parses :
  parse_acf sample_text = Ok (mkAcf {[ str "ops" := [str "alice"; str "bob"] ]} {[ str "ctl" := [str "10.0.0.1"] ]}
    {[ str "RW" := [mkRule 1 (mkOps false true true) [str "ops"] [str "ctl"; str "7"]; mkRule 0 (mkOps true false false) [] []] ]}).
Proof. vm_compute. reflexivity. Qed.

Example duplicate_refused : parse_acf (str "UAG(a){} UAG(a){b}") = Err (DuplicateName (str "a")).
Proof. vm_compute. reflexivity. Qed.

End Acf.
