(* ===== verification/Access.v ===== *)
(** * Access control of the gateway

    Models [spvirit-gateway/src/access/pvlist.rs] and
    [spvirit-gateway/src/access/mod.rs].  Regular expressions are a library: the
    compiler, the match and its captures are parameters, with the documented
    agreement of [is_match] and [captures] as a class of its own.  The theorems
    give the list of rules a pvlist text stands for, and the decision as a
    declarative policy: read-only mode, then the first rule that applies, then the
    access security groups. *)

From stdpp Require Import gmap.
From Stdlib Require Import ZArith.
From S2P Require Import Prelude Chars Acf.

Local Open Scope Z_scope.
Local Open Scope codec_scope.

Module Access.
Import Chars Acf.

(** ** Regular expressions *)

(** [Regex::new], [is_match] and the groups of [captures]. *)
Class RegexOps := {
  Regex : Type;
  compile : Str -> option Regex;
  is_match : Regex -> Str -> bool;
  captures : Regex -> Str -> option (nat -> option Str) }.

(** There are captures exactly when there is a match. *)
Class RegexLaws `{RegexOps} : Prop := {
  captures_match r s : is_match r s = true <-> is_Some (captures r s) }.

Section Access.
Context `{RegexOps}.

(** ** The pvlist *)

Inductive PvlistAction := ActAllow | ActDeny | ActAlias (template : Str).

Record PvlistRule := mkPvlistRule {
  pattern : Regex;
  action : PvlistAction;
  asg : Str;
  rule_asl : Z;
  from_hosts : list Str }.

Abbreviation Pvlist := (list PvlistRule).

Inductive PvlistError :=
  | MissingPattern | InvalidPattern | MissingAction | MissingTemplate | UnknownAction
  | FromMissingHosts | TokensAfterFrom | DenyWithArguments | InvalidAsl | TrailingTokens.

(** The first position of a word. *)
Fixpoint position (w : Str) (ws : list Str) : option nat :=
  match ws with
  | [] => None
  | x :: ws => if decide (x = w) then Some O else S <$> position w ws
  end.

(** [FROM] and its hosts are taken off the words behind the action. *)
Definition take_from (remaining : list Str) : outcome PvlistError (list Str * list Str) :=
  match position (str "FROM") remaining with
  | None => Ok ([], remaining)
  | Some from_pos =>
    match remaining !! S from_pos with
    | None => Err FromMissingHosts
    | Some hosts_tok =>
      if decide (length remaining = (from_pos + 2)%nat)
      then Ok (split 44 hosts_tok, take from_pos remaining)
      else Err TokensAfterFrom
    end
  end.

Definition is_deny (a : PvlistAction) : bool := match a with ActDeny => true | _ => false end.

(** What is left names the group and the level. *)
Definition take_asg (a : PvlistAction) (remaining : list Str) : outcome PvlistError (Str * Z) :=
  match remaining with
  | [] => Ok (str "DEFAULT", 0)
  | g :: more =>
    if is_deny a then Err DenyWithArguments
    else
      let? l := match more with
                | [] => Ok 0
                | l :: _ => match parse_u32 l with Some n => Ok n | None => Err InvalidAsl end
                end in
      if decide ((2 < length remaining)%nat) then Err TrailingTokens else Ok (g, l)
  end.

Definition take_action (tokens : list Str) : outcome PvlistError (PvlistAction * list Str) :=
  match tokens with
  | [] => Err MissingAction
  | kw :: tokens =>
    if decide (kw = str "ALLOW") then Ok (ActAllow, tokens)
    else if decide (kw = str "DENY") then Ok (ActDeny, tokens)
    else if decide (kw = str "ALIAS") then
      match tokens with [] => Err MissingTemplate | template :: tokens => Ok (ActAlias template, tokens) end
    else Err UnknownAction
  end.

Definition anchored (src : Str) : Str := str "^(?:" ++ src ++ str ")$".

Definition parse_line (line : Str) : outcome PvlistError PvlistRule :=
  match split_whitespace line with
  | [] => Err MissingPattern
  | src :: tokens =>
    match compile (anchored src) with
    | None => Err InvalidPattern
    | Some pattern =>
      let? (action, remaining) := take_action tokens in
      let? (hosts, remaining) := take_from remaining in
      let? (asg, asl) := take_asg action remaining in
      Ok (mkPvlistRule pattern action asg asl hosts)
    end
  end.

(** Blank lines and comments. *)
Definition skipped (line : Str) : bool :=
  match line with [] => true | c :: _ => c =? 35 end.

(** An error carries its line number. *)
Fixpoint parse_rules (line_no : Z) (ls : list Str) : outcome (Z * PvlistError) Pvlist :=
  match ls with
  | [] => Ok []
  | raw :: ls =>
    let line := trim raw in
    if skipped line then parse_rules (line_no + 1) ls
    else
      let? r := map_err (fun e => (line_no, e)) (parse_line line) in
      let? rs := parse_rules (line_no + 1) ls in
      Ok (r :: rs)
  end.

Definition parse_pvlist (text : Str) : outcome (Z * PvlistError) Pvlist := parse_rules 1 (lines text).

(** ** Decisions *)

Inductive Op := Get | Put | Rpc.

Record Identity := mkIdentity { host : option Str; user : option Str }.

Inductive Decision := Allow | AllowAliased (name : Str) | Deny.

(** Back references to the groups; anything else stands for itself. *)
Fixpoint expand_template (template : Str) (caps : nat -> option Str) : Str :=
  match template with
  | [] => []
  | c :: rest =>
    match rest with
    | d :: rest' =>
      if (c =? 92) && is_digit d then
        (if 1 <=? d - 48 then default [] (caps (Z.to_nat (d - 48))) else []) ++ expand_template rest' caps
      else c :: expand_template rest caps
    | [] => [c]
    end
  end.

Record Binding := mkBinding { b_asg : Str; b_asl : Z }.

Definition DEFAULT_BINDING : Binding := mkBinding (str "DEFAULT") 0.

Definition allow_decision (pv survived : Str) : Decision :=
  if decide (survived = pv) then Allow else AllowAliased survived.

Record AccessControl := mkAccess { read_only : bool; pvlist : option Pvlist; acf : option Acf }.

Definition mentions (who : option Str) (l : list Str) : bool :=
  match who with Some x => bool_decide (x ∈ l) | None => false end.

Definition rule_matches (pv : Str) (id : Identity) (r : PvlistRule) : bool :=
  is_match (pattern r) pv
  && (match from_hosts r with [] => true | _ => false end || mentions (host id) (from_hosts r)).

Definition pvlist_step (ac : AccessControl) (pv : Str) (id : Identity) (unmatched_is_default : bool) : option (Str * Binding) :=
  match pvlist ac with
  | None => Some (pv, DEFAULT_BINDING)
  | Some rules =>
    match List.find (rule_matches pv id) rules with
    | None => if unmatched_is_default then Some (pv, DEFAULT_BINDING) else None
    | Some rule =>
      let binding := mkBinding (asg rule) (rule_asl rule) in
      match action rule with
      | ActDeny => None
      | ActAllow => Some (pv, binding)
      | ActAlias template =>
        Some (match captures (pattern rule) pv with Some caps => expand_template template caps | None => pv end, binding)
      end
    end
  end.

Definition op_bit (o : Op) (s : OpSet) : bool :=
  match o with Get => op_get s | Put => op_put s | Rpc => op_rpc s end.

(** Somebody of one of the named groups. *)
Definition in_groups (groups : gmap Str (list Str)) (who : option Str) (names : list Str) : bool :=
  match names with
  | [] => true
  | _ =>
    match who with
    | Some x => existsb (fun name => match groups !! name with Some l => bool_decide (x ∈ l) | None => false end) names
    | None => false
    end
  end.

Definition acf_grants (a : Acf) (b : Binding) (o : Op) (id : Identity) : bool :=
  match acf_asgs a !! b_asg b with
  | None => false
  | Some rules =>
    existsb (fun rule =>
      if b_asl b <? asl rule then false
      else if negb (op_bit o (ops rule)) then false
      else if negb (in_groups (acf_uags a) (user id) (uags rule)) then false
      else in_groups (acf_hags a) (host id) (hags rule)) rules
  end.

Definition is_read (o : Op) : bool := match o with Get => true | _ => false end.

Definition decide_inner (ac : AccessControl) (o : Op) (pv : Str) (id : Identity) (unmatched_is_default : bool) : Decision :=
  if read_only ac && negb (is_read o) then Deny
  else
    match pvlist_step ac pv id unmatched_is_default with
    | None => Deny
    | Some (survived_name, binding) =>
      if is_read o then allow_decision pv survived_name
      else
        match acf ac with
        | None => allow_decision pv survived_name
        | Some a => if acf_grants a binding o id then allow_decision pv survived_name else Deny
        end
    end.

Definition decide_access (ac : AccessControl) (o : Op) (pv : Str) (id : Identity) : Decision := decide_inner ac o pv id false.
Definition decide_local (ac : AccessControl) (o : Op) (pv : Str) (id : Identity) : Decision := decide_inner ac o pv id true.

(** ** The language of pvlists *)

Inductive line_action : list Str -> PvlistAction -> Prop :=
  | la_allow : line_action [str "ALLOW"] ActAllow
  | la_deny : line_action [str "DENY"] ActDeny
  | la_alias t : line_action [str "ALIAS"; t] (ActAlias t).

Inductive line_group : PvlistAction -> list Str -> Str * Z -> Prop :=
  | lg_default a : line_group a [] (str "DEFAULT", 0)
  | lg_asg a g : a <> ActDeny -> g <> str "FROM" -> line_group a [g] (g, 0)
  | lg_asl a g l n : a <> ActDeny -> g <> str "FROM" -> l <> str "FROM" -> parse_u32 l = Some n -> line_group a [g; l] (g, n).

Inductive line_hosts : list Str -> list Str -> Prop :=
  | lh_any : line_hosts [] []
  | lh_from hosts : line_hosts [str "FROM"; hosts] (split 44 hosts).

(** The words of a line and its rule. *)
Inductive line_rule : list Str -> PvlistRule -> Prop :=
  | lr src p aw a gw g hw hs : compile (anchored src) = Some p -> line_action aw a -> line_group a gw g -> line_hosts hw hs ->
      line_rule (src :: aw ++ gw ++ hw) (mkPvlistRule p a g.1 g.2 hs).

Lemma position_none w ws : position w ws = None <-> w ∉ ws.
Proof.
  induction ws as [|x ws IH]; simpl; [set_solver|]. case_decide as D; [set_solver|].
  rewrite fmap_None, IH. set_solver.
Qed.

Lemma position_some w ws n : position w ws = Some n -> exists post, ws = take n ws ++ w :: post /\ w ∉ take n ws /\ n = length (take n ws).
Proof.
  revert n. induction ws as [|x ws IH]; simpl; intros n E; [done|]. case_decide as D.
  - injection E as <-. subst. exists ws. simpl. split; [done|]. split; [apply not_elem_of_nil|done].
  - destruct (position w ws) as [m|]; [|done]. injection E as <-. destruct (IH m eq_refl) as (post & E1 & E2 & E3).
    exists post. simpl. split; [congruence|]. split; [set_solver|congruence].
Qed.

Lemma position_app w pre post : w ∉ pre -> position w (pre ++ w :: post) = Some (length pre).
Proof.
  induction pre as [|x pre IH]; simpl; intros Hn; [now rewrite decide_True|].
  rewrite decide_False by set_solver. rewrite IH by set_solver. reflexivity.
Qed.

Lemma take_from_sound remaining hs gw :
  take_from remaining = Ok (hs, gw) -> exists hw, remaining = gw ++ hw /\ str "FROM" ∉ gw /\ line_hosts hw hs.
Proof.
  unfold take_from. destruct (position (str "FROM") remaining) as [n|] eqn:E.
  - destruct (position_some _ _ _ E) as (post & E1 & E2 & E3). set (pre := take n remaining) in *. clearbody pre. subst n remaining.
    rewrite lookup_app_r by lia. replace (S (length pre) - length pre)%nat with 1%nat by lia. simpl.
    destruct post as [|hosts post]; simpl; [done|]. case_decide as D; [|done]. intros [= <- <-].
    rewrite length_app in D. simpl in D. destruct post; [|simpl in D; lia].
    exists [str "FROM"; hosts]. split; [done|]. split; [done|constructor].
  - intros [= <- <-]. apply position_none in E. exists []. rewrite app_nil_r. split; [done|]. split; [done|constructor].
Qed.

Lemma take_from_complete gw hw hs : str "FROM" ∉ gw -> line_hosts hw hs -> take_from (gw ++ hw) = Ok (hs, gw).
Proof.
  intros Hn Hh. unfold take_from. destruct Hh.
  - rewrite app_nil_r. now rewrite (proj2 (position_none _ _) Hn).
  - rewrite position_app by done. rewrite lookup_app_r by lia.
    replace (S (length gw) - length gw)%nat with 1%nat by lia. simpl.
    rewrite decide_True by (rewrite length_app; simpl; lia). now rewrite take_app_length.
Qed.

Lemma take_asg_sound a gw g : take_asg a gw = Ok g -> str "FROM" ∉ gw -> line_group a gw g.
Proof.
  destruct gw as [|x [|l [|y more]]]; simpl; intros E Hn.
  - injection E as <-. constructor.
  - destruct a; simpl in E; try discriminate; injection E as <-; constructor; set_solver.
  - destruct a; simpl in E; try discriminate; destruct (parse_u32 l) eqn:P; simpl in E; try discriminate;
      injection E as <-; constructor; set_solver.
  - destruct a; simpl in E; try discriminate; destruct (parse_u32 l); simpl in E; try discriminate;
      rewrite decide_True in E by (simpl; lia); discriminate.
Qed.

Lemma line_group_complete a gw g : line_group a gw g -> take_asg a gw = Ok g /\ str "FROM" ∉ gw.
Proof.
  destruct 1 as [a|a g Ha Hg|a g l n Ha Hg Hl P]; simpl; (split; [|set_solver]); [done| |]; destruct a; try done;
    simpl; rewrite P; reflexivity.
Qed.

Lemma take_action_sound tokens a rest : take_action tokens = Ok (a, rest) -> exists aw, tokens = aw ++ rest /\ line_action aw a.
Proof.
  unfold take_action. destruct tokens as [|kw tokens]; [done|]. repeat case_decide; subst; intros E; try done.
  - injection E as <- <-. exists [str "ALLOW"]. split; [done|constructor].
  - injection E as <- <-. exists [str "DENY"]. split; [done|constructor].
  - destruct tokens as [|t tokens]; [done|]. injection E as <- <-. exists [str "ALIAS"; t]. split; [done|constructor].
Qed.

Lemma take_action_complete aw a rest : line_action aw a -> take_action (aw ++ rest) = Ok (a, rest).
Proof. now destruct 1. Qed.

Lemma parse_line_spec line r : parse_line line = Ok r <-> line_rule (split_whitespace line) r.
Proof.
  unfold parse_line. split.
  - destruct (split_whitespace line) as [|src tokens]; [done|]. destruct (compile _) as [p|] eqn:Hp; [|done]. intros E.
    apply bind_ok in E as ([a rest] & (aw & -> & Ha)%take_action_sound & E).
    apply bind_ok in E as ([hs gw] & (hw & -> & Hn & Hh)%take_from_sound & E).
    apply bind_ok in E as ([g n] & Hg & E). injection E as <-. apply take_asg_sound in Hg; [|done].
    now apply (lr src p aw a gw (g, n) hw hs).
  - intros Hr. inversion Hr as [src p aw a gw g hw hs Hp Ha Hg Hh E E']; subst. rewrite Hp.
    rewrite (take_action_complete _ _ _ Ha). cbn [bind_outcome]. apply line_group_complete in Hg as [Hg Hn].
    rewrite (take_from_complete _ _ _ Hn Hh). cbn [bind_outcome]. rewrite Hg. now destruct g.
Qed.

Lemma parse_line_settled line : settled (parse_line line).
Proof.
  unfold parse_line. destruct (split_whitespace line) as [|src tokens]; [done|]. destruct (compile _); [|done].
  apply settled_bind; [unfold take_action; destruct tokens as [|kw [|t ts]]; [done| |]; now repeat case_decide|].
  intros [a rest] _. apply settled_bind; [|intros [hs gw] _; apply settled_bind; [|now intros []]].
  - unfold take_from. destruct (position _ _); [|done]. destruct (_ !! _); [|done]. now case_decide.
  - unfold take_asg. destruct gw as [|x [|l more]]; [done| |]; destruct (is_deny a); try done;
      (apply settled_bind; [now try destruct (parse_u32 l)|intros n _; now case_decide]).
Qed.

(** The lines that hold a rule. *)
Definition rule_lines (text : Str) : list Str := filter (fun l => skipped l = false) (trim <$> lines text).

Lemma map_err_ok {E F A} (f : E -> F) (m : outcome E A) a : map_err f m = Ok a <-> m = Ok a.
Proof. destruct m; simpl; split; congruence. Qed.

Lemma parse_rules_spec ls : forall n rs,
  parse_rules n ls = Ok rs <-> Forall2 (fun l r => line_rule (split_whitespace l) r) (filter (fun l => skipped l = false) (trim <$> ls)) rs.
Proof.
  induction ls as [|l ls IH]; intros n rs; simpl.
  - split; [intros [= <-]; constructor|intros Hf; now inversion Hf].
  - destruct (skipped (trim l)) eqn:Hs.
    + rewrite filter_cons_False by congruence. apply IH.
    + rewrite filter_cons_True by done. split.
      * intros E. apply bind_ok in E as (r & Hr%map_err_ok & E). apply bind_ok in E as (rs' & Hrs & E). injection E as <-.
        constructor; [now apply parse_line_spec|now apply IH in Hrs].
      * intros Hf. inversion Hf as [|? r ? rs' Hr Hrs]; subst. apply parse_line_spec in Hr. rewrite Hr. simpl.
        apply (IH (n + 1)) in Hrs. now rewrite Hrs.
Qed.

Lemma parse_rules_settled ls : forall n, settled (parse_rules n ls).
Proof.
  induction ls as [|l ls IH]; intros n; simpl; [done|]. destruct (skipped _); [apply IH|].
  apply settled_bind; [pose proof (parse_line_settled (trim l)); now destruct (parse_line _)|]. intros r _.
  apply settled_bind; [apply IH|done].
Qed.

(** ** The policy *)

Definition applies (pv : Str) (id : Identity) (r : PvlistRule) : Prop :=
  is_match (pattern r) pv = true /\ (from_hosts r = [] \/ exists h, host id = Some h /\ h ∈ from_hosts r).

(** The name a rule that applies leaves. *)
Inductive renames (pv : Str) : PvlistRule -> Str -> Prop :=
  | renames_allow r : action r = ActAllow -> renames pv r pv
  | renames_alias r t caps : action r = ActAlias t -> captures (pattern r) pv = Some caps -> renames pv r (expand_template t caps).

(** The name and the group under which a PV is seen. *)
Inductive visible (ac : AccessControl) (pv : Str) (id : Identity) (loc : bool) : Str -> Binding -> Prop :=
  | visible_all : pvlist ac = None -> visible ac pv id loc pv DEFAULT_BINDING
  | visible_local rules : pvlist ac = Some rules -> loc = true -> Forall (fun r => ~ applies pv id r) rules ->
      visible ac pv id loc pv DEFAULT_BINDING
  | visible_rule before r after name : pvlist ac = Some (before ++ r :: after) ->
      Forall (fun r => ~ applies pv id r) before -> applies pv id r -> renames pv r name ->
      visible ac pv id loc name (mkBinding (asg r) (rule_asl r)).

Definition belongs (groups : gmap Str (list Str)) (who : option Str) (names : list Str) : Prop :=
  names = [] \/ exists x name l, who = Some x /\ name ∈ names /\ groups !! name = Some l /\ x ∈ l.

Definition granted (a : Acf) (b : Binding) (o : Op) (id : Identity) : Prop :=
  exists rules rule, acf_asgs a !! b_asg b = Some rules /\ rule ∈ rules /\ asl rule <= b_asl b /\ op_bit o (ops rule) = true
    /\ belongs (acf_uags a) (user id) (uags rule) /\ belongs (acf_hags a) (host id) (hags rule).

(** Reads need only be visible; a write needs a gateway that is not read-only and,
    where there is a security file, a rule of the PV's group. *)
Definition permitted (ac : AccessControl) (o : Op) (pv : Str) (id : Identity) (loc : bool) (name : Str) : Prop :=
  exists b, visible ac pv id loc name b
    /\ (o = Get \/ (read_only ac = false /\ forall a, acf ac = Some a -> granted a b o id)).

Definition decided_name (pv : Str) (d : Decision) : option Str :=
  match d with Allow => Some pv | AllowAliased name => Some name | Deny => None end.

Lemma mentions_spec who l : mentions who l = true <-> exists x, who = Some x /\ x ∈ l.
Proof. unfold mentions. destruct who as [x|]; [|naive_solver]. rewrite bool_decide_eq_true. naive_solver. Qed.

Lemma rule_matches_spec pv id r : rule_matches pv id r = true <-> applies pv id r.
Proof.
  unfold rule_matches, applies. rewrite andb_true_iff, orb_true_iff, mentions_spec.
  destruct (from_hosts r); naive_solver.
Qed.

Lemma find_first {A} (p : A -> bool) l r : List.find p l = Some r <->
  exists before after, l = before ++ r :: after /\ Forall (fun x => p x = false) before /\ p r = true.
Proof.
  induction l as [|x l IH]; simpl; [split; [done|intros (b & a & E & _); now destruct b]|]. destruct (p x) eqn:Hx.
  - split; [intros [= <-]; exists [], l; auto|]. intros (b & a & E & Hb & Hr). destruct b as [|y b]; simplify_eq/=; [done|].
    inversion Hb; congruence.
  - rewrite IH. split; intros (b & a & E & Hb & Hr).
    + exists (x :: b), a. subst. auto.
    + destruct b as [|y b]; simplify_eq/=; [congruence|]. inversion Hb; subst. eauto.
Qed.

Lemma find_nothing {A} (p : A -> bool) l : List.find p l = None <-> Forall (fun x => p x = false) l.
Proof.
  induction l as [|x l IH]; simpl; [split; [constructor|done]|]. destruct (p x) eqn:Hx.
  - split; [done|]. intros Hf. inversion Hf; congruence.
  - rewrite IH. split; [now constructor|]. now inversion 1.
Qed.

Lemma unmatched_spec pv id l : Forall (fun r => rule_matches pv id r = false) l <-> Forall (fun r => ~ applies pv id r) l.
Proof. apply Forall_iff. intros r. now rewrite <- rule_matches_spec, not_true_iff_false. Qed.

Lemma in_groups_spec groups who names : in_groups groups who names = true <-> belongs groups who names.
Proof.
  unfold in_groups, belongs. destruct names as [|n names]; [naive_solver|]. destruct who as [x|]; [|naive_solver].
  rewrite existsb_exists. split.
  - intros (name & Hin%list_elem_of_In & E). destruct (groups !! name) as [l|] eqn:El; [|done].
    apply bool_decide_eq_true in E. right. exists x, name, l. auto.
  - intros [?|(y & name & l & [= <-] & Hin & El & Hx)]; [done|]. exists name. split; [now apply list_elem_of_In|].
    rewrite El. now apply bool_decide_eq_true.
Qed.

Lemma acf_grants_spec a b o id : acf_grants a b o id = true <-> granted a b o id.
Proof.
  unfold acf_grants, granted. destruct (acf_asgs a !! b_asg b) as [rules|]; [|naive_solver].
  rewrite existsb_exists. setoid_rewrite <- in_groups_spec. split.
  - intros (rule & Hin%list_elem_of_In & E). exists rules, rule.
    destruct (Z.ltb_spec (b_asl b) (asl rule)); [done|]. destruct (op_bit o (ops rule)); [|done].
    destruct (in_groups _ _ (uags rule)); [|done]. auto 10.
  - intros (rs & rule & [= <-] & Hin & Hl & Ho & Hu & Hh). exists rule. split; [now apply list_elem_of_In|].
    destruct (Z.ltb_spec (b_asl b) (asl rule)); [lia|]. now rewrite Ho, Hu, Hh.
Qed.

(** A pvlist text is read to the end or refused with an error, and it stands
    for a list of rules exactly when its lines without blanks and comments are,
    one by one and in order, well-formed rules: a pattern that compiles, an action,
    a group and level (never behind DENY), and hosts behind FROM. *)
Theorem pvlist_parser_correct text :
  settled (parse_pvlist text)
  /\ forall rules, parse_pvlist text = Ok rules <-> Forall2 (fun l r => line_rule (split_whitespace l) r) (rule_lines text) rules.
Proof. split; [apply parse_rules_settled|intros rules; apply parse_rules_spec]. Qed.

Section Laws.
Context `{!RegexLaws}.

Lemma renames_spec pv r name (b : Binding) : is_match (pattern r) pv = true ->
  match action r with
  | ActDeny => None
  | ActAllow => Some (pv, b)
  | ActAlias t => Some (match captures (pattern r) pv with Some caps => expand_template t caps | None => pv end, b)
  end = Some (name, b) <-> renames pv r name.
Proof.
  intros Hm. apply captures_match in Hm as [caps Hc]. split.
  - destruct (action r) eqn:Ha; [|done|]; intros E; simplify_eq; [now constructor|]. rewrite Hc. now apply (renames_alias pv r).
  - intros Hr. destruct Hr as [r Ha|r t caps' Ha Hc']; rewrite Ha; [done|]. now rewrite Hc'.
Qed.

Lemma pvlist_step_spec ac pv id loc name b :
  pvlist_step ac pv id loc = Some (name, b) <-> visible ac pv id loc name b.
Proof.
  unfold pvlist_step. split.
  - destruct (pvlist ac) as [rules|] eqn:Hp; [|intros [= <- <-]; now constructor].
    destruct (List.find _ rules) as [r|] eqn:Hf.
    + apply find_first in Hf as (before & after & -> & Hb%unmatched_spec & Hr%rule_matches_spec). intros E.
      assert (b = mkBinding (asg r) (rule_asl r)) as -> by (destruct (action r); simplify_eq; done).
      apply renames_spec in E; [|apply Hr]. now apply (visible_rule _ _ _ _ before r after).
    + destruct loc; [|done]. intros [= <- <-]. apply find_nothing, unmatched_spec in Hf. now apply (visible_local _ _ _ _ rules).
  - intros Hv. destruct Hv as [Hp|rules Hp Hl Hf|before r after name Hp Hb Hr Hn]; rewrite Hp; [done| |].
    + apply unmatched_spec, find_nothing in Hf. now rewrite Hf, Hl.
    + rewrite (proj2 (find_first _ _ r)).
      * apply renames_spec; [apply Hr|done].
      * exists before, after. apply unmatched_spec in Hb. apply rule_matches_spec in Hr. auto.
Qed.

Lemma decided_allow pv name : decided_name pv (allow_decision pv name) = Some name.
Proof. unfold allow_decision. case_decide; simpl; congruence. Qed.

Lemma decide_inner_spec ac o pv id loc name :
  decided_name pv (decide_inner ac o pv id loc) = Some name <-> permitted ac o pv id loc name.
Proof.
  unfold decide_inner, permitted. setoid_rewrite <- pvlist_step_spec.
  destruct (pvlist_step ac pv id loc) as [[n b]|].
  2:{ destruct (read_only ac && _); naive_solver. }
  assert (R : forall d, o <> Get -> (d = true <-> forall a, acf ac = Some a -> granted a b o id) ->
    decided_name pv (if read_only ac then Deny else if d then allow_decision pv n else Deny) = Some name
    <-> exists b0, Some (n, b) = Some (name, b0) /\ (o = Get \/ read_only ac = false /\ forall a, acf ac = Some a -> granted a b0 o id)).
  { intros d Ho Hd. split.
    - destruct (read_only ac) eqn:Hro; [done|]. destruct d; [|done]. rewrite decided_allow. intros [= <-]. exists b. naive_solver.
    - intros (b0 & [= -> <-] & [?|[-> Ha]]); [done|]. apply Hd in Ha as ->. apply decided_allow. }
  destruct o; simpl; rewrite ?andb_false_r, ?andb_true_r.
  - rewrite decided_allow. naive_solver.
  - destruct (acf ac) as [a|]; [apply (R (acf_grants a b Put id)); [done|rewrite acf_grants_spec]|apply (R true); [done|]]; naive_solver.
  - destruct (acf ac) as [a|]; [apply (R (acf_grants a b Rpc id)); [done|rewrite acf_grants_spec]|apply (R true); [done|]]; naive_solver.
Qed.

Lemma alias_is_new ac o pv id loc name : decide_inner ac o pv id loc = AllowAliased name -> name <> pv.
Proof.
  unfold decide_inner, allow_decision. intros E.
  repeat match type of E with
  | (if ?b then _ else _) = _ => destruct b
  | match ?x with _ => _ end = _ => destruct x
  end; try done; congruence.
Qed.

(** C10: the decision on a request is the policy.  A request is let through under
    a name exactly when it is permitted under that name: the first pvlist rule
    whose pattern matches and whose hosts include the peer allows or renames it (a
    name without a rule is refused, unless the gateway serves it itself), and a
    write or call finds the gateway writable and, where there is a security file, a
    rule of the PV's group and level for the user and the host.  The renamed
    outcome is used only for a name that differs from the requested one. *)
Theorem access_decision_correct ac o pv id name :
  (decided_name pv (decide_access ac o pv id) = Some name <-> permitted ac o pv id false name)
  /\ (decided_name pv (decide_local ac o pv id) = Some name <-> permitted ac o pv id true name)
  /\ (forall n, decide_access ac o pv id = AllowAliased n \/ decide_local ac o pv id = AllowAliased n -> n <> pv).
Proof.
  split; [apply decide_inner_spec|]. split; [apply decide_inner_spec|].
  intros n [E|E]; now apply alias_is_new in E.
Qed.

(** Who may write or call may read, under the same name. *)
Lemma write_implies_read ac o pv id name :
  decided_name pv (decide_access ac o pv id) = Some name -> decided_name pv (decide_access ac Get pv id) = Some name.
Proof. unfold decide_access. rewrite !decide_inner_spec. intros (b & Hv & _). exists b. auto. Qed.

End Laws.
End Access.

(** ** A literal engine *)

(** [^(?:text)$] matches the text, and [^(?:text(.* ))$], without the space, every
    continuation of it, which is the first group. *)
Definition literal_compile (s : Str) : option (Str * bool) :=
  let body := take (length s - 6) (drop 4 s) in
  Some (if decide (drop (length body - 4) body = str "(.*)") then (take (length body - 4) body, true) else (body, false)).

Definition literal_captures (r : Str * bool) (s : Str) : option (nat -> option Str) :=
  if (if r.2 then bool_decide (take (length r.1) s = r.1) else bool_decide (s = r.1))
  then Some (fun i => if decide (i = 1%nat) then Some (drop (length r.1) s) else None) else None.

#[export] Instance literal_regex : RegexOps := {|
  compile := literal_compile;
  is_match r s := bool_decide (is_Some (literal_captures r s));
  captures := literal_captures |}.

#[export] Instance literal_laws : RegexLaws.
Proof. split. intros r s. simpl. apply bool_decide_eq_true. Qed.

Definition sample_access : AccessControl :=
  mkAccess false (outcome_ok (parse_pvlist (str "# rules
SECRET:(.*) DENY
 PUB:(.*) ALIAS INT:\1 RW 1 FROM 10.0.0.1,10.0.0.2
(.*) ALLOW")))
    (outcome_ok (parse_acf sample_text)).

Definition alice : Identity := mkIdentity (Some (str "10.0.0.1")) (Some (str "alice")).

Lemma access_decision_correct_witness :
  permitted sample_access Put (str "PUB:x") alice false (str "INT:x")
  /\ ~ permitted sample_access Get (str "SECRET:x") alice false (str "SECRET:x").
Proof.
  split.
  - apply (access_decision_correct sample_access Put (str "PUB:x") alice (str "INT:x")). vm_compute. reflexivity.
  - intros H. apply (access_decision_correct sample_access Get (str "SECRET:x") alice (str "SECRET:x")) in H.
    vm_compute in H. discriminate H.
Defined.

End Access.
