(* ===== verification/NegCache.v ===== *)
(** * The negative cache of the gateway

    Models [spvirit-gateway/src/cache/negative.rs]: names that missed upstream,
    with the deadline until which they count as missing.  Instants and durations
    are nanoseconds.  The entry to evict is searched in the order in which a hash
    map is visited, a parameter of which only the visited elements are known.  The
    theorem refines the cache to the list of the names that missed last. *)

From stdpp Require Import gmap sorting.
From Stdlib Require Import ZArith.
From S2P Require Import Prelude Chars.

Local Open Scope Z_scope.

Module NegCache.
Import Chars.

Record NegativeCache := mkNeg { ttl : Z; capacity : nat; entries : gmap Str Z }.

Definition new (ttl : Z) (capacity : nat) : NegativeCache := mkNeg ttl capacity ∅.

(** The order a hash map is visited in. *)
Class HashIter := iter : gmap Str Z -> list (Str * Z).
Class HashIterLaws `{HashIter} : Prop := iter_perm m : iter m ≡ₚ map_to_list m.

(** [Iterator::min_by_key]: the first of the least. *)
Fixpoint min_by_key (l : list (Str * Z)) : option (Str * Z) :=
  match l with
  | [] => None
  | x :: l => match min_by_key l with Some y => if y.2 <? x.2 then Some y else Some x | None => Some x end
  end.

Section NegCache.
Context `{HashIter}.

Definition record_miss (c : NegativeCache) (name : Str) (now : Z) : NegativeCache :=
  let deadline := now + ttl c in
  let kept :=
    match entries c !! name with
    | Some _ => entries c
    | None =>
      if decide (capacity c <= size (entries c))%nat
      then match min_by_key (iter (entries c)) with Some evict => delete evict.1 (entries c) | None => entries c end
      else entries c
    end in
  mkNeg (ttl c) (capacity c) (<[name := deadline]> kept).

Definition is_missing (c : NegativeCache) (name : Str) (now : Z) : bool :=
  match entries c !! name with Some deadline => now <? deadline | None => false end.

Definition len (c : NegativeCache) : nat := size (entries c).

(** ** The names that missed last *)

(** The misses, the latest first, one for each name. *)
Definition remember (cap : nat) (l : list (Str * Z)) (name : Str) (deadline : Z) : list (Str * Z) :=
  take cap ((name, deadline) :: filter (fun e => e.1 <> name) l).

Definition later (a b : Str * Z) : Prop := b.2 < a.2.

Record holds (c : NegativeCache) (l : list (Str * Z)) : Prop := {
  h_names : NoDup l.*1;
  h_order : StronglySorted later l;
  h_map : entries c = list_to_map l;
  h_len : (length l <= capacity c)%nat }.

Lemma min_by_key_spec l : match min_by_key l with
  | Some x => x ∈ l /\ Forall (fun y => x.2 <= y.2) l
  | None => l = []
  end.
Proof.
  induction l as [|x l IH]; simpl; [done|]. destruct (min_by_key l) as [y|].
  - destruct IH as [Hin Hle]. destruct (Z.ltb_spec y.2 x.2).
    + split; [now constructor|]. constructor; [lia|done].
    + split; [constructor|]. constructor; [lia|]. eapply Forall_impl; [exact Hle|]. simpl. lia.
  - subst. split; [constructor|]. repeat constructor. lia.
Qed.

Lemma sorted_last l e : StronglySorted later (l ++ [e]) -> Forall (fun y => e.2 < y.2) l.
Proof.
  induction l as [|x l IH]; simpl; intros Hs; [constructor|]. apply StronglySorted_inv in Hs as [Hs Hx].
  constructor; [|auto]. apply Forall_app in Hx as [_ Hx]. now inversion Hx.
Qed.

Lemma sorted_init l e : StronglySorted later (l ++ [e]) -> StronglySorted later l.
Proof.
  induction l as [|x l IH]; simpl; intros Hs; [constructor|]. apply StronglySorted_inv in Hs as [Hs Hx].
  constructor; [auto|]. now apply Forall_app in Hx as [Hx _].
Qed.

Lemma sorted_filter_age (P : Str * Z -> Prop) `{forall x, Decision (P x)} l :
  StronglySorted later l -> StronglySorted later (filter P l).
Proof.
  induction 1 as [|x l Hs IH Hx]; [constructor|]. rewrite filter_cons. case_decide; [|done].
  constructor; [done|]. apply Forall_forall. intros y [_ Hy]%list_elem_of_filter. now apply (proj1 (Forall_forall _ _) Hx).
Qed.

Lemma size_list_map (l : list (Str * Z)) : NoDup l.*1 -> size (list_to_map (M := gmap Str Z) l) = length l.
Proof. apply map_size_list_to_map. Qed.

Lemma delete_unlisted (l : list (Str * Z)) name : delete name (list_to_map (M := gmap Str Z) l) = list_to_map (filter (fun e => e.1 <> name) l).
Proof.
  induction l as [|[n d] l IH]; simpl; [apply delete_empty|]. rewrite filter_cons. simpl. case_decide as D.
  - simpl. rewrite delete_insert_ne by congruence. now rewrite IH.
  - subst. now rewrite delete_insert_eq.
Qed.

Lemma filter_absent_name (l : list (Str * Z)) name : name ∉ l.*1 -> filter (fun e => e.1 <> name) l = l.
Proof.
  intros Hn. induction l as [|e l IH]; [done|]. rewrite filter_cons, decide_True by set_solver. now rewrite IH by set_solver.
Qed.

Context `{!HashIterLaws}.

(** The entry evicted is the one that missed first. *)
Lemma evicts_oldest c l e : holds c (l ++ [e]) -> min_by_key (iter (entries c)) = Some e.
Proof.
  intros [Hn Ho Hm _]. pose proof (min_by_key_spec (iter (entries c))) as Hmin.
  assert (Hp : iter (entries c) ≡ₚ l ++ [e]) by (rewrite iter_perm, Hm; now apply map_to_list_to_map).
  destruct (min_by_key _) as [x|].
  - destruct Hmin as [Hin Hle]. rewrite Hp in Hin, Hle. apply Forall_app in Hle as [_ Hle]. inversion_clear Hle as [|? ? Hxe _].
    apply elem_of_app in Hin as [Hin|Hin]; [|now apply list_elem_of_singleton in Hin as ->].
    apply sorted_last in Ho. apply (proj1 (Forall_forall _ _) Ho) in Hin. lia.
  - rewrite Hmin in Hp. apply Permutation_nil_l in Hp. now destruct l.
Qed.

Lemma holds_new t cap : holds (new t cap) [].
Proof. split; simpl; [constructor|constructor|done|lia]. Qed.

Lemma filter_shorter (l : list (Str * Z)) name : name ∈ l.*1 -> (length (filter (fun e => e.1 <> name) l) < length l)%nat.
Proof.
  induction l as [|e l IH]; intros Hin; [now apply not_elem_of_nil in Hin|]. rewrite filter_cons. simpl. case_decide.
  - simpl. enough (length (filter (fun e => e.1 <> name) l) < length l)%nat by lia. apply IH. set_solver.
  - pose proof (length_filter (fun e : Str * Z => e.1 <> name) l). lia.
Qed.

Lemma snoc_view {A} (l : list A) : l <> [] -> exists l0 e, l = l0 ++ [e].
Proof. destruct l as [|e l0] using rev_ind; [done|eauto]. Qed.

Lemma record_miss_entries c l name now : (0 < capacity c)%nat -> holds c l ->
  entries (record_miss c name now) = list_to_map (remember (capacity c) l name (now + ttl c)).
Proof.
  intros Hc Hh. pose proof Hh as [Hn Ho Hm Hl]. unfold record_miss, remember. simpl.
  destruct (decide (name ∈ l.*1)) as [D|D].
  - assert (is_Some (entries c !! name)) as [d ->].
    { rewrite Hm. apply not_eq_None_Some. intros E. now apply not_elem_of_list_to_map in E. }
    pose proof (filter_shorter _ _ D). rewrite take_ge by (simpl; lia). simpl.
    rewrite <- delete_unlisted, <- Hm. now rewrite insert_delete_eq.
  - rewrite filter_absent_name by done. pose proof D as E. apply not_elem_of_list_to_map in E. rewrite <- Hm in E. rewrite E. clear E.
    case_decide as Hs; rewrite Hm, size_list_map in Hs by done.
    + destruct (snoc_view l) as (l0 & e & ->); [intros ->; simpl in Hs; lia|].
      rewrite (evicts_oldest c l0 e Hh), Hm, delete_unlisted, filter_app, length_app in *. simpl in Hs, Hl.
      rewrite fmap_app in Hn. apply NoDup_app in Hn as (Hn0 & Hd & _).
      rewrite filter_absent_name by (intros Hin; apply (Hd _ Hin); set_solver).
      rewrite filter_cons, decide_False by (now intros []). rewrite filter_nil, app_nil_r.
      replace (capacity c) with (length ((name, now + ttl c) :: l0)) by (simpl; lia).
      now rewrite app_comm_cons, take_app_length.
    + rewrite take_ge by (simpl; lia). simpl. now rewrite <- Hm.
Qed.

Lemma sorted_take n l : StronglySorted later l -> StronglySorted later (take n l).
Proof.
  intros Hs. revert n. induction Hs as [|x l Hs IH Hx]; intros [|n]; simpl; try constructor; [auto|]. now apply Forall_take.
Qed.

Lemma nodup_names_filter (l : list (Str * Z)) name : NoDup l.*1 -> NoDup (filter (fun e => e.1 <> name) l).*1.
Proof.
  induction l as [|e l IH]; simpl; intros Hn; [constructor|]. apply NoDup_cons in Hn as [He Hn]. rewrite filter_cons.
  case_decide; [|auto]. simpl. constructor; [|auto]. intros (x & E & [_ Hx]%list_elem_of_filter)%list_elem_of_fmap.
  apply He. rewrite E. apply list_elem_of_fmap. eauto.
Qed.

Lemma record_miss_holds c l name now :
  (0 < capacity c)%nat -> holds c l -> Forall (fun e => e.2 < now + ttl c) l ->
  holds (record_miss c name now) (remember (capacity c) l name (now + ttl c)).
Proof.
  intros Hc Hh Hlate. pose proof (record_miss_entries c l name now Hc Hh) as Hm. pose proof Hh as [Hn Ho _ Hl].
  assert (Hin : forall e, e ∈ filter (fun e => e.1 <> name) l -> e ∈ l /\ e.1 <> name) by (intros e [? ?]%list_elem_of_filter; auto).
  split; [| |exact Hm|].
  - unfold remember. rewrite fmap_take. eapply sublist_NoDup; [|apply sublist_take]. simpl. constructor.
    + intros (e & E & He)%list_elem_of_fmap. apply Hin in He as [_ He]. now apply He.
    + now apply nodup_names_filter.
  - unfold remember. apply sorted_take. constructor; [now apply sorted_filter_age|].
    apply Forall_forall. intros e He. apply Hin in He as [He _]. now apply (proj1 (Forall_forall _ _) Hlate).
  - unfold remember. simpl. rewrite length_take. lia.
Qed.

(** ** Histories *)

Abbreviation misses := (list (Str * Z)).

(** The misses of a history, at times that grow. *)
Definition run (c : NegativeCache) (h : misses) : NegativeCache := fold_left (fun c m => record_miss c m.1 m.2) h c.

Definition recent (t : Z) (cap : nat) (h : misses) : list (Str * Z) :=
  fold_left (fun l m => remember cap l m.1 (m.2 + t)) h [].

Lemma run_ttl h : forall c, ttl (run c h) = ttl c /\ capacity (run c h) = capacity c.
Proof. induction h as [|m h IH]; intros c; [done|]. simpl. now destruct (IH (record_miss c m.1 m.2)) as [-> ->]. Qed.

Lemma run_holds h : forall c l, (0 < capacity c)%nat -> holds c l ->
  Forall (fun m => Forall (fun e => e.2 < m.2 + ttl c) l) h -> StronglySorted (fun a b => a.2 < b.2) h ->
  holds (run c h) (fold_left (fun l m => remember (capacity c) l m.1 (m.2 + ttl c)) h l).
Proof.
  induction h as [|[n t] h IH]; intros c l Hc Hh Hl Hs; [done|]. simpl.
  apply StronglySorted_inv in Hs as [Hs Ht]. inversion_clear Hl as [|? ? Hl0 Hl'].
  apply (IH (record_miss c n t)); [done|now apply record_miss_holds| |done].
  apply Forall_forall. intros m Hm. simpl. unfold remember. apply Forall_take. constructor.
  - apply (proj1 (Forall_forall _ _) Ht) in Hm. simpl in *. lia.
  - apply Forall_forall. intros e [_ He]%list_elem_of_filter.
    apply (proj1 (Forall_forall _ _) Hl') in Hm. now apply (proj1 (Forall_forall _ _) Hm).
Qed.

(** A negative cache that holds at least one entry refines the list of the
    names that missed last: after misses at growing times it holds exactly the
    [capacity] names that missed most recently, each with the deadline of its
    latest miss, however the hash map is visited to find the entry to evict; so it
    never outgrows its capacity, and a name counts as missing exactly when it is
    one of those names and its time to live has not passed. *)
Theorem negative_cache_recent t cap h :
  (0 < cap)%nat -> StronglySorted (fun a b => a.2 < b.2) h ->
  let c := run (new t cap) h in
  entries c = list_to_map (recent t cap h) /\ (len c <= cap)%nat
  /\ forall name now, is_missing c name now = true <-> exists d, (name, d) ∈ recent t cap h /\ now < d.
Proof.
  intros Hc Hs c. pose proof (run_holds h (new t cap) [] Hc (holds_new t cap)) as Hh.
  specialize (Hh ltac:(apply Forall_forall; intros; constructor) Hs). simpl in Hh. fold (recent t cap h) in Hh. fold c in Hh.
  pose proof Hh as [Hn _ Hm Hl]. split; [done|]. split.
  - unfold len. rewrite Hm, size_list_map by done. unfold c in Hl. now rewrite (proj2 (run_ttl h (new t cap))) in Hl.
  - intros name now. unfold is_missing. rewrite Hm. split.
    + destruct (list_to_map _ !! name) as [d|] eqn:E; [|done]. intros Hd%Z.ltb_lt. exists d. split; [|done].
      now apply elem_of_list_to_map.
    + intros (d & Hin & Hd). apply elem_of_list_to_map in Hin; [|done]. rewrite Hin. now apply Z.ltb_lt.
Qed.

End NegCache.

#[local] Instance sample_iter : HashIter := fun m => map_to_list m.
#[local] Instance sample_iter_laws : HashIterLaws.
Proof. intros m. reflexivity. Qed.

Definition sample_history : list (Str * Z) := [(str "A", 0); (str "B", 1); (str "A", 2); (str "C", 3)].

Lemma negative_cache_recent_witness :
  is_missing (run (new 1000 2) sample_history) (str "A") 500 = true
  /\ ~ is_missing (run (new 1000 2) sample_history) (str "B") 500 = true.
Proof.
  assert (Hs : StronglySorted (fun a b : Str * Z => a.2 < b.2) sample_history) by (repeat constructor).
  destruct (negative_cache_recent 1000 2 sample_history ltac:(lia) Hs) as (_ & _ & H). split.
  - apply H. exists 1002. split; [vm_compute; repeat constructor|lia].
  - vm_compute. discriminate.
Defined.

End NegCache.
