(* ===== verification/GatewaySource.v ===== *)
(** * The gateway's source

    Models [spvirit-gateway/src/loopguard.rs] (the bans), and the claim, get, put
    and retirement of [spvirit-gateway/src/proxy.rs] over the access control and
    the negative cache.  A claim asks every upstream client at once and a get waits
    for its client, so both are split where they await: requests in flight are a
    part of the state, and one event runs one request to its next await.  Upstream
    clients are services; their answers arrive as events. *)

From stdpp Require Import gmap.
From Stdlib Require Import ZArith.
From S2P Require Import Prelude Utf8 Wire PvdTypes NtTypes Chars Acf Access NegCache.

Local Open Scope Z_scope.

Module GatewaySource.
Import Chars Access NegCache.

(** ** The loop guard *)

Abbreviation Ip := (list Z).
Abbreviation SocketAddr := (Ip * Z)%type.
Abbreviation Guid := (list Z).

Record LoopGuard := mkGuard {
  banned_sockets : gset SocketAddr;
  banned_ips : gset Ip;
  banned_guids : gset Guid }.

Definition is_banned (g : LoopGuard) (addr : SocketAddr) : bool :=
  bool_decide (addr.1 ∈ banned_ips g) || bool_decide (addr ∈ banned_sockets g).

Definition is_guid_banned (g : LoopGuard) (guid : Guid) : bool :=
  negb (bool_decide (guid = replicate 12 0)) && bool_decide (guid ∈ banned_guids g).

(** ** Descriptors compare by structure *)

Fixpoint type_eq_dec (a b : Ty.FieldType) {struct a} : {a = b} + {a <> b}
with field_eq_dec (a b : Ty.FieldDesc) {struct a} : {a = b} + {a <> b}
with desc_eq_dec (a b : Ty.StructureDesc) {struct a} : {a = b} + {a <> b}.
Proof.
  - decide equality; solve [apply TypeCode.eq_dec | apply Z.eq_dec | apply (List.list_eq_dec field_eq_dec) | apply desc_eq_dec].
  - decide equality; apply (List.list_eq_dec Z.eq_dec).
  - decide equality; [apply (List.list_eq_dec field_eq_dec)|]. decide equality. apply (List.list_eq_dec Z.eq_dec).
Defined.

#[export] Instance structure_desc_eq_dec : EqDecision Ty.StructureDesc := desc_eq_dec.

(** ** State *)

Record Binding := mkBound {
  client_name : Str;
  real_name : Str;
  descriptor : Ty.StructureDesc;
  bound_at : Z;
  last_get : option (Z * NtTypes.NtPayload) }.

(** What a client resolves a name to. *)
Abbreviation Resolved := (Ty.StructureDesc * SocketAddr * Guid)%type.

(** The loop of a claim: the outcome of each client in order, [None] while its
    lookup is in flight, and the first one that is not a settled miss. *)
Record Claim := mkClaim {
  cl_name : Str;
  cl_target : Str;
  outcomes : list (option (option Resolved));
  next : nat }.

(** A get that waits for its client. *)
Record Fetch := mkFetch { f_name : Str; f_client : Str; f_real : Str }.

Inductive Task := InClaim (c : Claim) | InGet (f : Fetch).

Record State := mkState {
  neg : NegativeCache;
  bindings : gmap Str Binding;
  resolves : Z;
  tasks : gmap nat Task }.

Inductive TryClaim := Yes | No | Unknown.

(** What a request answers its caller, or asks of an upstream client. *)
Inductive Output :=
  | Claimed (k : nat) (d : option Ty.StructureDesc)
  | Got (k : nat) (p : option NtTypes.NtPayload)
  | Fetching (client real : Str)
  | PutTo (client real : Str)
  | PutError (e : Str).

Section Source.
Context `{RegexOps} `{HashIter}.
Context (access : AccessControl) (guard : LoopGuard) (client_order : list Str) (pool : gset Str).
Context (getholdoff_ms binding_ttl : Z).

(** [try_claim]; [free] says whether the lock of the bindings could be had. *)
Definition try_claim (s : State) (name : Str) (id : Identity) (now : Z) (free : bool) : TryClaim :=
  if is_missing (neg s) name now then No
  else
    match decide_access access Get name id with
    | Deny => No
    | _ => if free then match bindings s !! name with Some _ => Yes | None => Unknown end else Unknown
    end.

Definition refreshed (b : Binding) (d : Ty.StructureDesc) (now : Z) : Binding :=
  mkBound (client_name b) (real_name b) d now (if decide (descriptor b <> d) then None else last_get b).

Definition record_binding (s : State) (name client target : Str) (d : Ty.StructureDesc) (now : Z) : State :=
  let fresh := mkBound client target d now None in
  let b := match bindings s !! name with
           | Some existing =>
             if decide (client_name existing = client /\ real_name existing = target) then refreshed existing d now else fresh
           | None => fresh
           end in
  mkState (neg s) (<[name := b]> (bindings s)) (resolves s) (tasks s).

Definition usable (r : Resolved) : bool := let '(_, addr, guid) := r in negb (is_banned guard addr) && negb (is_guid_banned guard guid).

(** Forward over settled misses and banned answers. *)
Inductive Walked := Hit (idx : nat) (r : Resolved) | Waiting (idx : nat) | Exhausted.

Fixpoint walk (os : list (option (option Resolved))) (idx : nat) : Walked :=
  match os with
  | [] => Exhausted
  | None :: _ => Waiting idx
  | Some (Some r) :: os => if usable r then Hit idx r else walk os (S idx)
  | Some None :: os => walk os (S idx)
  end.

Definition set_task (s : State) (k : nat) (t : Task) : State := mkState (neg s) (bindings s) (resolves s) (<[k := t]> (tasks s)).
Definition end_task (s : State) (k : nat) : State := mkState (neg s) (bindings s) (resolves s) (delete k (tasks s)).
Definition miss (s : State) (name : Str) (now : Z) : State := mkState (record_miss (neg s) name now) (bindings s) (resolves s) (tasks s).

(** The loop from [next] to its next await or its end. *)
Definition run_claim (s : State) (k : nat) (c : Claim) (now : Z) : State * list Output :=
  match walk (drop (next c) (outcomes c)) (next c) with
  | Hit idx r =>
    let client := default [] (client_order !! idx) in
    let '(d, _, _) := r in
    (end_task (record_binding s (cl_name c) client (cl_target c) d now) k, [Claimed k (Some d)])
  | Exhausted => (end_task (miss s (cl_name c) now) k, [Claimed k None])
  | Waiting idx => (set_task s k (InClaim (mkClaim (cl_name c) (cl_target c) (outcomes c) idx)), [])
  end.

(** The name of the upstream PV. *)
Definition target_of (name : Str) (d : Decision) : option Str := decided_name name d.

(** An unknown client is a settled miss; the others are asked. *)
Definition start_lookups : list (option (option Resolved)) :=
  (fun client => if decide (client ∈ pool) then None else Some None) <$> client_order.

Definition claim (s : State) (k : nat) (name : Str) (id : Identity) (now : Z) : State * list Output :=
  if is_missing (neg s) name now then (s, [Claimed k None])
  else
    match target_of name (decide_access access Get name id) with
    | None => (s, [Claimed k None])
    | Some target =>
      match bindings s !! name with
      | Some b =>
        if bool_decide (real_name b = target) && (now - bound_at b <? binding_ttl) then (s, [Claimed k (Some (descriptor b))])
        else run_claim (mkState (neg s) (bindings s) (resolves s + zlen (filter (fun c => c ∈ pool) client_order)) (tasks s)) k
               (mkClaim name target start_lookups 0) now
      | None => run_claim (mkState (neg s) (bindings s) (resolves s + zlen (filter (fun c => c ∈ pool) client_order)) (tasks s)) k
                  (mkClaim name target start_lookups 0) now
      end
    end.

(** A lookup in flight that answered, failed or panicked; the last two are misses. *)
Definition settle (s : State) (k idx : nat) (r : option Resolved) (now : Z) : State * list Output :=
  match tasks s !! k with
  | Some (InClaim c) =>
    match outcomes c !! idx with
    | Some None => run_claim s k (mkClaim (cl_name c) (cl_target c) (<[idx := Some r]> (outcomes c)) (next c)) now
    | _ => (s, [])
    end
  | _ => (s, [])
  end.

Definition held (b : Binding) (now : Z) : option NtTypes.NtPayload :=
  if 0 <? getholdoff_ms then
    match last_get b with
    | Some (t, p) => if now <? t + getholdoff_ms * 1000000 then Some p else None
    | None => None
    end
  else None.

Definition get (s : State) (k : nat) (name : Str) (now : Z) : State * list Output :=
  match bindings s !! name with
  | None => (s, [Got k None])
  | Some b =>
    match held b now with
    | Some p => (s, [Got k (Some p)])
    | None =>
      if decide (client_name b ∈ pool)
      then (set_task s k (InGet (mkFetch name (client_name b) (real_name b))), [Fetching (client_name b) (real_name b)])
      else (s, [Got k None])
    end
  end.

(** The payload of an upstream get, or its failure. *)
Definition fetched (s : State) (k : nat) (r : option NtTypes.NtPayload) (now : Z) : State * list Output :=
  match tasks s !! k with
  | Some (InGet f) =>
    match r with
    | None => (end_task s k, [Got k None])
    | Some p =>
      let bs := if 0 <? getholdoff_ms then
                  alter (fun b => mkBound (client_name b) (real_name b) (descriptor b) (bound_at b) (Some (now, p))) (f_name f) (bindings s)
                else bindings s in
      (end_task (mkState (neg s) bs (resolves s) (tasks s)) k, [Got k (Some p)])
    end
  | _ => (s, [])
  end.

(** [json] says whether the value converts; the upstream write is the output. *)
Definition put (s : State) (name : Str) (json : outcome Str unit) (id : Identity) : State * list Output :=
  match decide_access access Put name id with
  | Deny => (s, [PutError (str "access denied")])
  | _ =>
    match json with
    | Err e => (s, [PutError e])
    | _ =>
      match bindings s !! name with
      | None => (s, [PutError (str "no binding for unclaimed PV")])
      | Some b => if decide (client_name b ∈ pool) then (s, [PutTo (client_name b) (real_name b)])
                  else (s, [PutError (str "no upstream client")])
      end
    end
  end.

Definition retire_binding (s : State) (name : Str) : State := mkState (neg s) (delete name (bindings s)) (resolves s) (tasks s).

(** ** Events *)

Inductive Event :=
  | OnClaim (k : nat) (name : Str) (id : Identity) (now : Z)
  | OnSettle (k idx : nat) (r : option Resolved) (now : Z)
  | OnGet (k : nat) (name : Str) (now : Z)
  | OnFetched (k : nat) (r : option NtTypes.NtPayload) (now : Z)
  | OnPut (name : Str) (json : outcome Str unit) (id : Identity)
  | OnRetire (name : Str).

Definition step (s : State) (e : Event) : State * list Output :=
  match e with
  | OnClaim k name id now => claim s k name id now
  | OnSettle k idx r now => settle s k idx r now
  | OnGet k name now => get s k name now
  | OnFetched k r now => fetched s k r now
  | OnPut name json id => put s name json id
  | OnRetire name => (retire_binding s name, [])
  end.

Definition run (s : State) (es : list Event) : State * list Output :=
  fold_left (fun (so : State * list Output) e => let '(s', o) := step so.1 e in (s', so.2 ++ o)) es (s, []).

Lemma run_snoc s es e : run s (es ++ [e]) = ((step (run s es).1 e).1, (run s es).2 ++ (step (run s es).1 e).2).
Proof. unfold run. rewrite fold_left_app. simpl. now destruct (step _ e). Qed.

(** ** Claims settle as if the clients were asked in turn *)

(** The first client whose answer may be used. *)
Fixpoint winner (answers : list (option Resolved)) (idx : nat) : option (nat * Resolved) :=
  match answers with
  | [] => None
  | Some r :: answers => if usable r then Some (idx, r) else winner answers (S idx)
  | None :: answers => winner answers (S idx)
  end.

(** The outcomes so far are those of the answers. *)
Definition consistent (os : list (option (option Resolved))) (answers : list (option Resolved)) : Prop :=
  Forall2 (fun o a => o = None \/ o = Some a) os answers.

Lemma walk_winner os answers : consistent os answers -> forall idx,
  match walk os idx with
  | Hit i r => winner answers idx = Some (i, r)
  | Exhausted => winner answers idx = None
  | Waiting i => (idx <= i)%nat /\ os !! (i - idx)%nat = Some None /\ winner answers idx = winner (drop (i - idx) answers) i
  end.
Proof.
  induction 1 as [|o a os answers Hoa Hf IH]; intros idx; simpl; [done|].
  destruct o as [[r|]|].
  - destruct Hoa as [?|[= <-]]; [done|]. destruct (usable r) eqn:Hu; [done|].
    specialize (IH (S idx)). destruct (walk os (S idx)); try done. destruct IH as (Hle & Ho & Hw).
    replace (idx0 - idx)%nat with (S (idx0 - S idx)) by lia. split; [lia|]. done.
  - destruct Hoa as [?|[= <-]]; [done|]. specialize (IH (S idx)). destruct (walk os (S idx)); try done.
    destruct IH as (Hle & Ho & Hw). replace (idx0 - idx)%nat with (S (idx0 - S idx)) by lia. split; [lia|]. done.
  - rewrite Nat.sub_diag. done.
Qed.

(** A claim in flight: what is before [next] is decided. *)
Record claim_ok (c : Claim) (answers : list (option Resolved)) : Prop := {
  co_consistent : consistent (outcomes c) answers;
  co_waits : outcomes c !! next c = Some None;
  co_passed : winner answers 0 = winner (drop (next c) answers) (next c) }.

Lemma walk_from c answers : consistent (outcomes c) answers -> winner answers 0 = winner (drop (next c) answers) (next c) ->
  match walk (drop (next c) (outcomes c)) (next c) with
  | Hit i r => winner answers 0 = Some (i, r)
  | Exhausted => winner answers 0 = None
  | Waiting i => claim_ok (mkClaim (cl_name c) (cl_target c) (outcomes c) i) answers
  end.
Proof.
  intros Hc Hw. pose proof (walk_winner (drop (next c) (outcomes c)) (drop (next c) answers)) as W.
  specialize (W ltac:(unfold consistent; now apply Forall2_drop) (next c)).
  destruct (walk _ _) as [i r|i|]; [congruence| |congruence]. destruct W as (Hle & Ho & Hw').
  rewrite lookup_drop in Ho. split; simpl; [done| |].
  - now replace (next c + (i - next c))%nat with i in Ho by lia.
  - rewrite Hw, Hw', drop_drop. now replace (next c + (i - next c))%nat with i by lia.
Qed.

Definition won (answers : list (option Resolved)) : option Ty.StructureDesc :=
  match winner answers 0 with Some (_, (d, _, _)) => Some d | None => None end.

Lemma run_claim_spec s k c now answers :
  consistent (outcomes c) answers -> winner answers 0 = winner (drop (next c) answers) (next c) ->
  ((run_claim s k c now).2 = [Claimed k (won answers)] /\ tasks (run_claim s k c now).1 !! k = None)
  \/ ((run_claim s k c now).2 = [] /\ exists c', tasks (run_claim s k c now).1 !! k = Some (InClaim c') /\ claim_ok c' answers
      /\ outcomes c' = outcomes c).
Proof.
  intros Hc Hw. pose proof (walk_from c answers Hc Hw) as W. unfold run_claim, won.
  destruct (walk _ _) as [i [[d a] g]|i|].
  - left. rewrite W. split; [done|]. simpl. apply lookup_delete_eq.
  - right. split; [done|]. eexists. split; [simpl; apply lookup_insert_eq|]. split; [done|done].
  - left. rewrite W. split; [done|]. simpl. apply lookup_delete_eq.
Qed.

(** The request an event belongs to. *)
Definition about (e : Event) : option nat :=
  match e with
  | OnClaim k _ _ _ | OnSettle k _ _ _ | OnGet k _ _ | OnFetched k _ _ => Some k
  | _ => None
  end.

Definition for_claim (k : nat) (o : Output) : Prop := exists d, o = Claimed k d.

Lemma run_claim_other s k c now k' : k' <> k ->
  tasks (run_claim s k c now).1 !! k' = tasks s !! k' /\ Forall (fun o => ~ for_claim k' o) (run_claim s k c now).2.
Proof.
  intros Hk. unfold run_claim. destruct (walk _ _) as [i [[d a] g]|i|]; simpl.
  - split; [now apply lookup_delete_ne|]. repeat constructor. intros [d' [=]]. done.
  - split; [now apply lookup_insert_ne|constructor].
  - split; [now apply lookup_delete_ne|]. repeat constructor. intros [d' [=]]. done.
Qed.

(** Other requests leave a claim alone. *)
Lemma step_other s e k : about e <> Some k ->
  tasks (step s e).1 !! k = tasks s !! k /\ Forall (fun o => ~ for_claim k o) (step s e).2.
Proof.
  intros Ha. assert (N : forall k' d, k' <> k -> Forall (fun o => ~ for_claim k o) [Claimed k' d]).
  { intros k' d Hk. repeat constructor. intros [d' [=]]. done. }
  assert (R : forall s' k1 c t, tasks s' = tasks s -> k1 <> k ->
    tasks (run_claim s' k1 c t).1 !! k = tasks s !! k /\ Forall (fun o => ~ for_claim k o) (run_claim s' k1 c t).2).
  { intros s' k1 c t <- Hk. now apply run_claim_other. }
  assert (G : forall o, ~ (exists k' d, o = Claimed k' d) -> Forall (fun o => ~ for_claim k o) [o]).
  { intros o Ho. repeat constructor. intros [d ->]. eauto. }
  destruct e as [k' name id now|k' idx r now|k' name now|k' r now|name json id|name]; simpl in *.
  - unfold claim. assert (k' <> k) by congruence.
    repeat first [split_match | (split; [done|now apply N]) | (apply R; [done|congruence])].
  - unfold settle. repeat first [split_match | (split; [done|constructor]) | (apply R; [done|congruence])].
  - unfold get. repeat split_match; simpl; (split; [try done; apply lookup_insert_ne; congruence|apply G; naive_solver]).
  - unfold fetched. repeat split_match; simpl;
      (split; [try done; apply lookup_delete_ne; congruence|first [constructor; fail|apply G; naive_solver|constructor]]).
  - unfold put. repeat split_match; simpl; (split; [done|apply G; naive_solver]).
  - split; [done|constructor].
Qed.

Definition answers_of (k : nat) (answers : list (option Resolved)) (e : Event) : Prop :=
  about e = Some k -> exists idx r now, e = OnSettle k idx r now /\ answers !! idx = Some r.

(** A claim goes to its clients: it is not answered from memory. *)
Definition asks (s : State) (name : Str) (id : Identity) (now : Z) (target : Str) : Prop :=
  is_missing (neg s) name now = false /\ decided_name name (decide_access access Get name id) = Some target
  /\ forall b, bindings s !! name = Some b -> real_name b <> target \/ binding_ttl <= now - bound_at b.

Lemma claim_asks s k name id now target : asks s name id now target ->
  exists s', tasks s' = tasks s /\ claim s k name id now = run_claim s' k (mkClaim name target start_lookups 0) now.
Proof.
  intros (Hm & Ht & Hb). unfold claim, target_of. rewrite Hm, Ht. destruct (bindings s !! name) as [b|]; [|eexists; split; [|reflexivity]; done].
  assert (bool_decide (real_name b = target) && (now - bound_at b <? binding_ttl) = false) as ->.
  { apply andb_false_iff. rewrite bool_decide_eq_false, Z.ltb_ge. auto. }
  eexists. split; [|reflexivity]. done.
Qed.

(** How a claim stands after some events. *)
Definition progress (k : nat) (answers : list (option Resolved)) (es : list Event) (s : State) (outs : list Output) : Prop :=
  (tasks s !! k = None /\ Claimed k (won answers) ∈ outs /\ forall d, Claimed k d ∈ outs -> d = won answers)
  \/ (exists c, tasks s !! k = Some (InClaim c) /\ claim_ok c answers /\ (forall d, Claimed k d ∉ outs)
      /\ forall idx, outcomes c !! idx = Some None -> start_lookups !! idx = Some None /\ forall r now, OnSettle k idx r now ∉ es).

Lemma progress_start s k name id now target answers :
  asks s name id now target -> consistent start_lookups answers ->
  progress k answers [OnClaim k name id now] (step s (OnClaim k name id now)).1 (step s (OnClaim k name id now)).2.
Proof.
  intros Ha Hc. simpl. destruct (claim_asks s k name id now target Ha) as (s' & _ & ->).
  destruct (run_claim_spec s' k (mkClaim name target start_lookups 0) now answers Hc eq_refl) as [[E T]|(E & c & T & Hok & Ho)]; rewrite E.
  - left. split; [done|]. split; [constructor|]. intros d Hd. apply list_elem_of_singleton in Hd. congruence.
  - right. exists c. split; [done|]. split; [done|]. split; [intros d Hd; now apply not_elem_of_nil in Hd|].
    rewrite Ho. simpl. intros idx Hi. split; [done|]. intros r t Hin. apply list_elem_of_singleton in Hin. done.
Qed.

Lemma consistent_insert os answers idx r : consistent os answers -> answers !! idx = Some r -> consistent (<[idx := Some r]> os) answers.
Proof.
  intros Hc Hr. rewrite <- (list_insert_id answers idx r Hr). unfold consistent. apply Forall2_insert; [done|now right].
Qed.

Lemma progress_step k answers es s outs e :
  answers_of k answers e -> progress k answers es s outs -> progress k answers (es ++ [e]) (step s e).1 (outs ++ (step s e).2).
Proof.
  intros He Hp. destruct (decide (about e = Some k)) as [Hk|Hk].
  - destruct (He Hk) as (idx & r & now & -> & Hr). simpl. unfold settle.
    destruct Hp as [(T & Hin & Hall)|(c & T & [Hc Hw Hp] & Hno & Hfl)]; rewrite T.
    + left. simpl. rewrite app_nil_r. auto.
    + destruct (outcomes c !! idx) as [[o|]|] eqn:Eo.
      1,3: right; exists c; simpl; rewrite app_nil_r; (split; [done|]); (split; [done|]); (split; [done|]);
        intros i Hi; destruct (Hfl i Hi) as [? Hn]; (split; [done|]); intros r' t' Hin;
        (apply elem_of_app in Hin as [Hin|Hin%list_elem_of_singleton]; [now apply Hn in Hin|]); simplify_eq.
      destruct (run_claim_spec s k (mkClaim (cl_name c) (cl_target c) (<[idx := Some r]> (outcomes c)) (next c)) now answers
        (consistent_insert _ _ _ _ Hc Hr) Hp) as [[E T']|(E & c' & T' & Hok & Ho)]; rewrite E.
      * left. split; [done|]. split; [set_solver|]. intros d Hd.
        apply elem_of_app in Hd as [Hd|Hd%list_elem_of_singleton]; [now apply Hno in Hd|congruence].
      * right. exists c'. rewrite app_nil_r. split; [done|]. split; [done|]. split; [done|]. rewrite Ho. simpl. intros i Hi.
        destruct (decide (i = idx)) as [->|Hne].
        { rewrite list_lookup_insert_eq in Hi by (now apply lookup_lt_Some in Eo). done. }
        rewrite list_lookup_insert_ne in Hi by done. destruct (Hfl i Hi) as [? Hn]. split; [done|]. intros r' t' Hin.
        apply elem_of_app in Hin as [Hin|Hin%list_elem_of_singleton]; [now apply Hn in Hin|]. simplify_eq.
  - destruct (step_other s e k Hk) as [T Ho]. rewrite Forall_forall in Ho.
    destruct Hp as [(T0 & Hin & Hall)|(c & T0 & Hok & Hno & Hfl)].
    + left. rewrite T. split; [done|]. split; [set_solver|]. intros d Hd.
      apply elem_of_app in Hd as [Hd|Hd]; [auto|]. exfalso. apply (Ho _ Hd). now exists d.
    + right. exists c. rewrite T. split; [done|]. split; [done|]. split.
      * intros d Hd. apply elem_of_app in Hd as [Hd|Hd]; [now apply Hno in Hd|]. apply (Ho _ Hd). now exists d.
      * intros i Hi. destruct (Hfl i Hi) as [? Hn]. split; [done|]. intros r' t' Hin.
        apply elem_of_app in Hin as [Hin|Hin%list_elem_of_singleton]; [now apply Hn in Hin|]. now subst e.
Qed.

Lemma progress_run s k name id now target answers es :
  asks s name id now target -> consistent start_lookups answers -> Forall (answers_of k answers) es ->
  progress k answers (OnClaim k name id now :: es) (run s (OnClaim k name id now :: es)).1 (run s (OnClaim k name id now :: es)).2.
Proof.
  intros Ha Hc. induction es as [|e es IH] using rev_ind; intros Hes.
  - replace (run s [OnClaim k name id now]) with (step s (OnClaim k name id now)) by (unfold run; simpl; now destruct (claim s k name id now)).
    now apply (progress_start s k name id now target).
  - apply Forall_app in Hes as [Hes He]. inversion_clear He as [|? ? He' _]. rewrite app_comm_cons, run_snoc. cbn [fst snd].
    apply progress_step; [done|]. now apply IH.
Qed.

(** The lookups that can change the answer: those of clients up to the winner. *)
Definition matters (answers : list (option Resolved)) (idx : nat) : Prop :=
  start_lookups !! idx = Some None /\ match winner answers 0 with Some (i, _) => (idx <= i)%nat | None => True end.

Lemma winner_ge answers : forall i j r, winner answers i = Some (j, r) -> (i <= j)%nat.
Proof.
  induction answers as [|[r'|] answers IH]; simpl; intros i j r Hw; [done| |apply IH in Hw; lia].
  destruct (usable r'); [injection Hw as <- <-; lia|]. apply IH in Hw. lia.
Qed.

(** C28: asking every client at once gives the answer of asking them in turn.
    Whatever else the gateway does meanwhile and in whatever order the lookups
    settle, a claim that goes to its clients answers with the descriptor of the
    first client in order whose answer is not a banned server, or with nothing when
    there is none; and it has answered once the lookups up to that client (all of
    them, when there is none) have settled. *)
Theorem claim_first_client_wins s k name id now target answers es :
  asks s name id now target -> consistent start_lookups answers -> Forall (answers_of k answers) es ->
  let outs := (run s (OnClaim k name id now :: es)).2 in
  (forall d, Claimed k d ∈ outs -> d = won answers)
  /\ ((forall idx, matters answers idx -> exists r t, OnSettle k idx r t ∈ es) -> Claimed k (won answers) ∈ outs).
Proof.
  intros Ha Hc Hes outs. pose proof (progress_run s k name id now target answers es Ha Hc Hes) as Hp. fold outs in Hp.
  destruct Hp as [(_ & Hin & Hall)|(c & _ & [_ Hw Hp] & Hno & Hfl)]; [auto|]. split.
  - intros d Hd. now apply Hno in Hd.
  - intros Hset. destruct (Hfl _ Hw) as [Hs Hn]. destruct (Hset (next c)) as (r & t & Hin).
    + split; [done|]. rewrite Hp. destruct (winner (drop (next c) answers) (next c)) as [[i ?]|] eqn:E; [|done].
      now apply winner_ge in E.
    + exfalso. apply (Hn r t). set_solver.
Qed.

(** ** Bindings are vetted *)

Section Vetted.
Context `{!RegexLaws}.

(** What the upstream clients answer for a name. *)
Context (answered : Str -> Str -> Resolved -> Prop).

(** Some identity may see the upstream name under this name, and the client
    answered for it from a server that is not banned. *)
Definition vetted (name client real : Str) (d : Ty.StructureDesc) : Prop :=
  (exists id, permitted access Get name id false real)
  /\ exists addr guid, answered client real (d, addr, guid) /\ is_banned guard addr = false /\ is_guid_banned guard guid = false.

Record claim_sound (c : Claim) : Prop := {
  cs_target : exists id, permitted access Get (cl_name c) id false (cl_target c);
  cs_length : length (outcomes c) = length client_order;
  cs_answers idx r : outcomes c !! idx = Some (Some (Some r)) -> exists client, client_order !! idx = Some client /\ answered client (cl_target c) r }.

Record sound (s : State) : Prop := {
  so_bindings name b : bindings s !! name = Some b -> vetted name (client_name b) (real_name b) (descriptor b);
  so_claims k c : tasks s !! k = Some (InClaim c) -> claim_sound c }.

(** The answer of a lookup is one the client gives for the name. *)
Definition truthful (s : State) (e : Event) : Prop :=
  match e with
  | OnSettle k idx (Some r) _ =>
    forall c client, tasks s !! k = Some (InClaim c) -> client_order !! idx = Some client -> answered client (cl_target c) r
  | _ => True
  end.

Lemma walk_hit os : forall i j r, walk os i = Hit j r -> (i <= j)%nat /\ os !! (j - i)%nat = Some (Some (Some r)) /\ usable r = true.
Proof.
  induction os as [|[[r'|]|] os IH]; simpl; intros i j r Hw; try done.
  - destruct (usable r') eqn:Hu; [injection Hw as <- <-; now rewrite Nat.sub_diag|].
    apply IH in Hw as (Hle & Ho & Hr). replace (j - i)%nat with (S (j - S i)) by lia. split; [lia|]. done.
  - apply IH in Hw as (Hle & Ho & Hr). replace (j - i)%nat with (S (j - S i)) by lia. split; [lia|]. done.
Qed.

Lemma record_binding_sound s name client target d now :
  sound s -> vetted name client target d -> sound (record_binding s name client target d now).
Proof.
  intros [Hb Hc] Hv. split; [|done]. intros n b. unfold record_binding. simpl. rewrite lookup_insert. case_decide as D; [|apply Hb].
  intros [= <-]. subst n. destruct (bindings s !! name) as [b0|]; [|done]. case_decide as E; [|done]. destruct E as [<- <-]. done.
Qed.

Lemma end_task_sound s k : sound s -> sound (end_task s k).
Proof.
  intros [Hb Hc]. split; [done|]. intros k' c. simpl. rewrite lookup_delete. case_decide; [done|]. apply Hc.
Qed.

Lemma set_task_sound s k t : sound s -> match t with InClaim c => claim_sound c | InGet _ => True end -> sound (set_task s k t).
Proof.
  intros [Hb Hc] Ht. split; [done|]. intros k' c. simpl. rewrite lookup_insert. case_decide; [|apply Hc]. intros [= ->]. done.
Qed.

Lemma run_claim_sound s k c now : sound s -> claim_sound c -> sound (run_claim s k c now).1.
Proof.
  intros Hs Hc. pose proof Hc as [Hid Hlen Ho]. unfold run_claim. destruct (walk _ _) as [i [[d a] g]|i|] eqn:Hw.
  - apply walk_hit in Hw as (Hle & Hl & Hu). rewrite lookup_drop in Hl. replace (next c + (i - next c))%nat with i in Hl by lia.
    apply Ho in Hl as (client & Hcl & Ha). apply end_task_sound, record_binding_sound; [done|]. rewrite Hcl. split; [done|].
    exists a, g. unfold usable in Hu. bool_to_prop. auto.
  - now apply set_task_sound.
  - apply end_task_sound. destruct Hs. now split.
Qed.

Lemma start_lookups_settled idx r : start_lookups !! idx <> Some (Some (Some r)).
Proof. unfold start_lookups. rewrite list_lookup_fmap. destruct (client_order !! idx); simpl; [|done]. now case_decide. Qed.

Lemma sound_same s s' : sound s -> bindings s' = bindings s -> tasks s' = tasks s -> sound s'.
Proof. intros [Hb Hc] Eb Et. split; rewrite ?Eb, ?Et; done. Qed.

Lemma claim_keeps_sound s k name id now : sound s -> sound (claim s k name id now).1.
Proof.
  intros Hs. unfold claim, target_of.
  destruct (is_missing _ _ _); [done|]. destruct (decided_name _ _) as [t|] eqn:Ht; [|done].
  apply decide_inner_spec in Ht.
  assert (R : forall s', sound s' -> sound (run_claim s' k (mkClaim name t start_lookups 0) now).1).
  { intros s' Hs'. apply run_claim_sound; [done|]. split; simpl; [now exists id|apply length_fmap|].
    intros idx r Hr. now apply start_lookups_settled in Hr. }
  destruct (bindings s !! name) as [b|]; [destruct (_ && _); [done|]|]; apply R; now apply (sound_same s).
Qed.

Lemma settle_keeps_sound s k idx r now : sound s -> truthful s (OnSettle k idx r now) -> sound (settle s k idx r now).1.
Proof.
  intros Hs Ht. unfold settle. destruct (tasks s !! k) as [[c|f]|] eqn:Hk; [|done|done].
  destruct (outcomes c !! idx) as [[o|]|] eqn:Ho; [done| |done]. pose proof (so_claims s Hs k c Hk) as [Hid Hlen Hall].
  apply run_claim_sound; [done|]. split; simpl; [done|now rewrite length_insert|]. intros i r'.
  rewrite list_lookup_insert. case_decide as D; [|apply Hall]. intros [= ->]. destruct D as [<- Hlt]. rewrite Hlen in Hlt.
  destruct (lookup_lt_is_Some_2 client_order idx Hlt) as [client Hcl]. exists client. split; [done|]. now apply (Ht c client).
Qed.

Lemma step_keeps_sound s e : sound s -> truthful s e -> sound (step s e).1.
Proof.
  intros Hs Ht. destruct e as [k name id now|k idx r now|k name now|k r now|name json id|name]; cbn [step].
  - now apply claim_keeps_sound.
  - now apply settle_keeps_sound.
  - unfold get. repeat split_match; try done. now apply set_task_sound.
  - unfold fetched. destruct (tasks s !! k) as [[c|f]|]; [done| |done]. destruct r as [p|]; [|now apply end_task_sound].
    apply end_task_sound. destruct Hs as [Hb Hc]. split; [|done]. intros n b. simpl. destruct (0 <? getholdoff_ms); [|apply Hb].
    rewrite lookup_alter. case_decide; [|apply Hb]. subst n. destruct (bindings s !! f_name f) as [b0|] eqn:E; [|done]. intros [= <-]. now apply Hb in E.
  - unfold put. repeat split_match; done.
  - destruct Hs as [Hb Hc]. split; [|done]. intros n b. simpl. rewrite lookup_delete. case_decide; [done|]. apply Hb.
Qed.

(** The states of a gateway whose clients answer truthfully. *)
Inductive reachable (n : NegativeCache) : State -> Prop :=
  | reach_init : reachable n (mkState n ∅ 0 ∅)
  | reach_step s e : reachable n s -> truthful s e -> reachable n (step s e).1.

Lemma reachable_sound n s : reachable n s -> sound s.
Proof.
  induction 1 as [|s e Hr IH Ht]; [|now apply step_keeps_sound]. split; simpl; intros ? ?; now rewrite lookup_empty.
Qed.

Definition goes_to (o : Output) (client real : Str) : Prop := o = Fetching client real \/ o = PutTo client real.

(** The downstream name of an operation. *)
Definition named_by (e : Event) (name : Str) : Prop :=
  match e with OnGet _ n _ | OnPut n _ _ => n = name | _ => False end.

(** Every identity that sees the name sees the same upstream PV. *)
Definition one_alias (name : Str) : Prop :=
  forall id id' n n', permitted access Get name id false n -> permitted access Get name id' false n' -> n = n'.

Lemma upstream_bound s e o client real : o ∈ (step s e).2 -> goes_to o client real ->
  exists name b, named_by e name /\ bindings s !! name = Some b /\ client_name b = client /\ real_name b = real
    /\ forall n json id, e = OnPut n json id -> exists t, decided_name n (decide_access access Put n id) = Some t.
Proof.
  intros Hin Hg. assert (RC : forall s k c t, o ∉ (run_claim s k c t).2).
  { intros s0 k c t. unfold run_claim. destruct (walk _ _) as [i [[d a] g]|i|]; simpl; rewrite ?list_elem_of_singleton;
      destruct Hg as [-> | ->]; try done; apply not_elem_of_nil. }
  assert (One : forall x, (forall c r, ~ goes_to x c r) -> o ∉ [x]) by (intros x Hx E%list_elem_of_singleton; subst; now apply (Hx client real)).
  destruct e as [k name id now|k idx r now|k name now|k r now|name json id|name]; cbn [step] in Hin.
  - exfalso. revert Hin. unfold claim. repeat split_match; simpl; first [apply RC|apply One; intros ? ? [?|?]; done].
  - exfalso. revert Hin. unfold settle. repeat split_match; simpl; first [apply RC|apply not_elem_of_nil].
  - unfold get in Hin. destruct (bindings s !! name) as [b|] eqn:Hb; [|apply list_elem_of_singleton in Hin; now destruct Hg; subst].
    destruct (held b now); [apply list_elem_of_singleton in Hin; now destruct Hg; subst|].
    case_decide; apply list_elem_of_singleton in Hin; subst; destruct Hg as [E|E]; try done. injection E as <- <-.
    exists name, b. simpl. split; [done|]. split; [done|]. split; [done|]. split; [done|]. intros n j i [=].
  - exfalso. revert Hin. unfold fetched. repeat split_match; simpl; first [apply not_elem_of_nil|apply One; intros ? ? [?|?]; done].
  - assert (P : forall x, decide_access access Put name id = x -> x <> Deny -> exists t, decided_name name (decide_access access Put name id) = Some t)
      by (intros x -> Hx; destruct x; simpl; eauto; done).
    unfold put in Hin. destruct (decide_access access Put name id) as [|al|] eqn:Hd.
    3:{ apply list_elem_of_singleton in Hin. now destruct Hg; subst. }
    all: destruct json as [[]|e0| |]; try (apply list_elem_of_singleton in Hin; now destruct Hg; subst);
      (destruct (bindings s !! name) as [b|] eqn:Hb; [|apply list_elem_of_singleton in Hin; now destruct Hg; subst]);
      case_decide; apply list_elem_of_singleton in Hin; subst; destruct Hg as [E|E]; try done; injection E as <- <-;
      exists name, b; simpl; (split; [done|]); (split; [done|]); (split; [done|]); (split; [done|]);
      intros n j i [= <- <- <-]; rewrite Hd; simpl; eauto.
  - now apply not_elem_of_nil in Hin.
Qed.

(** C9: whatever requests of whatever clients interleave, a get or a put goes
    upstream only to a client and a name that were vetted for the downstream name:
    the policy lets some identity see that upstream name under it, and the client
    resolved it to a server that is none of the gateway's own and not ignored.  A
    put goes upstream only when the policy lets its identity write, and where the
    name means the same upstream PV to everybody, the PV written is the one the
    policy gives to that identity. *)
Theorem gateway_upstream_vetted n s e o client real :
  reachable n s -> o ∈ (step s e).2 -> goes_to o client real ->
  exists name d, named_by e name /\ vetted name client real d
    /\ forall json id, e = OnPut name json id ->
       (exists t, permitted access Put name id false t) /\ (one_alias name -> permitted access Put name id false real).
Proof.
  intros Hr Hin Hg. destruct (upstream_bound s e o client real Hin Hg) as (name & b & Hn & Hb & <- & <- & Hput).
  pose proof (so_bindings s (reachable_sound n s Hr) name b Hb) as Hv. exists name, (descriptor b). split; [done|]. split; [done|].
  intros json id ->. destruct (Hput name json id eq_refl) as [t Ht]. pose proof Ht as Hp. apply decide_inner_spec in Hp.
  split; [eauto|]. intros Hone. destruct Hv as [[id' Hv] _].
  apply write_implies_read in Ht. apply decide_inner_spec in Ht. now rewrite <- (Hone id id' t (real_name b) Ht Hv).
Qed.

End Vetted.

(** A get that its client answers after the name was bound to another
    upstream PV leaves the value in the new binding, and within the hold-off time
    the next get of the name answers with it: the value of the old PV, for a
    binding to the new one. *)
Theorem late_fetch_served s k k' f b p now now' :
  tasks s !! k = Some (InGet f) -> bindings s !! f_name f = Some b ->
  0 < getholdoff_ms -> now <= now' < now + getholdoff_ms * 1000000 ->
  let s' := (fetched s k (Some p) now).1 in
  (exists b', bindings s' !! f_name f = Some b' /\ client_name b' = client_name b /\ real_name b' = real_name b)
  /\ (get s' k' (f_name f) now').2 = [Got k' (Some p)].
Proof.
  intros Hk Hb Hh Ht s'. unfold s', fetched. rewrite Hk, (proj2 (Z.ltb_lt _ _) Hh). simpl.
  rewrite lookup_alter_eq, Hb. simpl. split; [eauto|]. unfold get. simpl. rewrite lookup_alter_eq, Hb. simpl.
  unfold held. simpl. rewrite (proj2 (Z.ltb_lt _ _) Hh). destruct (Z.ltb_spec now' (now + getholdoff_ms * 1000000)); [done|lia].
Qed.

End Source.

(** ** A gateway with two clients and a name that two hosts see differently *)

#[local] Instance listed_order : HashIter := fun m => map_to_list m.

Definition two_hosts : AccessControl :=
  mkAccess false (outcome_ok (parse_pvlist (str "X ALIAS INT:a FROM 10.0.0.1
X ALIAS INT:b FROM 10.0.0.2"))) None.

Definition host_a : Identity := mkIdentity (Some (str "10.0.0.1")) None.
Definition host_b : Identity := mkIdentity (Some (str "10.0.0.2")) None.

Definition own_server : SocketAddr := ([10; 0; 0; 9], 5075).
Definition ioc : SocketAddr := ([10; 0; 0; 7], 5075).
Definition guid_of (n : Z) : Guid := replicate 12 n.
Definition sample_guard : LoopGuard := mkGuard {[ own_server ]} ∅ {[ guid_of 1 ]}.
Definition sample_clients : list Str := [str "c1"; str "c2"].
Definition no_neg : NegativeCache := NegCache.new 1000 4.
Definition quiet : State := mkState no_neg ∅ 0 ∅.

Abbreviation sample_step := (step two_hosts sample_guard sample_clients {[ str "c1"; str "c2" ]} 1000 30000000000).
Abbreviation sample_run := (run two_hosts sample_guard sample_clients {[ str "c1"; str "c2" ]} 1000 30000000000).

Definition looped : Resolved := (Ty.new, own_server, guid_of 2).
Definition good : Resolved := (Ty.mkStruct (Some (str "id")) [], ioc, guid_of 3).

Lemma claim_first_client_wins_witness :
  Claimed 0 (Some (Ty.mkStruct (Some (str "id")) []))
    ∈ (sample_run quiet [OnClaim 0 (str "X") host_a 0; OnSettle 0 1 (Some good) 1; OnSettle 0 0 (Some looped) 2]).2.
Proof.
  pose proof (claim_first_client_wins two_hosts sample_guard sample_clients {[ str "c1"; str "c2" ]} 1000 30000000000
    quiet 0 (str "X") host_a 0 (str "INT:a") [Some looped; Some good] [OnSettle 0 1 (Some good) 1; OnSettle 0 0 (Some looped) 2]) as W.
  destruct W as [_ W].
  - split; [reflexivity|]. split; [vm_compute; reflexivity|]. intros b Hb. discriminate Hb.
  - repeat constructor.
  - repeat constructor; intros _; do 3 eexists; (split; [reflexivity|reflexivity]).
  - apply W. intros [|[|idx]] [Hm Hw].
    + exists (Some looped), 2. repeat constructor.
    + exists (Some good), 1. repeat constructor.
    + exfalso. vm_compute in Hm. discriminate Hm.
Defined.

Definition bound_to_a : State := (sample_step (sample_step quiet (OnClaim 0 (str "X") host_a 0)).1 (OnSettle 0 0 (Some good) 1)).1.

Lemma gateway_upstream_vetted_witness :
  exists name d, named_by (OnPut (str "X") (Ok tt) host_a) name
    /\ vetted two_hosts sample_guard (fun _ _ _ => True) name (str "c1") (str "INT:a") d.
Proof.
  destruct (gateway_upstream_vetted two_hosts sample_guard sample_clients {[ str "c1"; str "c2" ]} 1000 30000000000 (fun _ _ _ => True)
    no_neg bound_to_a (OnPut (str "X") (Ok tt) host_a) (PutTo (str "c1") (str "INT:a")) (str "c1") (str "INT:a")) as (name & d & Hn & Hv & _).
  - unfold bound_to_a. apply reach_step; [|done]. apply reach_step; [|done]. constructor.
  - vm_compute. constructor.
  - now right.
  - exists name, d. split; [exact Hn|exact Hv].
Defined.

(** The get of the first host is under way when the second host claims the name. *)
Definition rebound : State :=
  (sample_run bound_to_a [OnGet 1 (str "X") 2; OnClaim 2 (str "X") host_b 3; OnSettle 2 0 (Some good) 4]).1.

Definition value_of_a : NtTypes.NtPayload := NtTypes.Generic (str "a") [].

Lemma late_fetch_served_witness :
  (exists b, bindings rebound !! str "X" = Some b /\ real_name b = str "INT:b")
  /\ (get {[ str "c1"; str "c2" ]} 1000 (fetched 1000 rebound 1 (Some value_of_a) 5).1 3 (str "X") 6).2 = [Got 3 (Some value_of_a)].
Proof.
  split.
  - eexists. split; [vm_compute; reflexivity|reflexivity].
  - destruct (late_fetch_served {[ str "c1"; str "c2" ]} 1000 rebound 1 3 (mkFetch (str "X") (str "c1") (str "INT:a"))
      (mkBound (str "c1") (str "INT:b") (Ty.mkStruct (Some (str "id")) []) 4 None) value_of_a 5 6) as [_ W].
    + vm_compute. reflexivity.
    + vm_compute. reflexivity.
    + lia.
    + lia.
    + exact W.
Defined.

End GatewaySource.
