(* ===== verification/MonitorCache.v ===== *)
(** * The monitor cache of the gateway

    Models [spvirit-gateway/src/cache/monitor.rs] and the tasks that
    [GatewaySource::subscribe] in [spvirit-gateway/src/proxy.rs] starts around it:
    the subscription whose callback dispatches updates, and its supervisor.  An
    [Arc] is an index into the heap of entries.  A step is one critical section, so
    a run is an interleaving of subscribers, callbacks and supervisors; receivers
    close at any time.  Payloads are left out: a full channel keeps its subscriber.
    The theorems show that no live subscriber is left on an entry that nobody feeds
    or closes, and that no subscription outlives its entry. *)

From stdpp Require Import gmap.
From Stdlib Require Import ZArith.
From S2P Require Import Prelude Chars.

Module MonitorCache.
Import Chars.

Abbreviation MonitorKey := (Str * Str)%type.

(** The subscription task of an entry. *)
Inductive Upstream := NotStarted | Running | Ended.

#[export] Instance upstream_eq_dec : EqDecision Upstream.
Proof. solve_decision. Defined.

(** Where the callback stands in [dispatch_or_retire]: outside, behind a dispatch
    that found nobody, behind the removal, behind the cancellation. *)
Inductive Callback := Idle | FoundNobody | Removed | Left.

(** Where [spawn_upstream] and then the supervisor stand. *)
Inductive Supervisor :=
  | Fresh | Started                          (* before and behind [pvmonitor_spawn_owned] *)
  | Watching
  | Sweep                                    (* the upstream ran when it was looked at *)
  | SweepRemoved | SweepCancelled            (* inside [retire_if_idle] *)
  | OutOfLoop                                (* about to take the handle *)
  | DeathTaken | DeathRemoved | DeathUnbound (* the teardown of a dead upstream *)
  | Over.

Record Entry := mkEntry {
  key : MonitorKey;
  down_name : Str;
  first : nat;            (* the subscriber whose call created the entry *)
  subs : list nat;
  handle : bool;          (* [upstream] holds a [MonitorHandle] *)
  upstream : Upstream;
  callback : Callback;
  supervisor : Supervisor }.

Record State := mkState {
  heap : list Entry;
  entries : gmap MonitorKey nat;
  open : gset nat;        (* the subscribers whose receiver lives *)
  subscribers : nat;      (* how many there were *)
  bindings : gset Str;
  deaths : Z }.

(** ** Entries *)

Definition with_subs (e : Entry) (l : list nat) : Entry :=
  mkEntry (key e) (down_name e) (first e) l (handle e) (upstream e) (callback e) (supervisor e).
Definition with_handle (e : Entry) (h : bool) : Entry :=
  mkEntry (key e) (down_name e) (first e) (subs e) h (upstream e) (callback e) (supervisor e).
Definition with_upstream (e : Entry) (u : Upstream) : Entry :=
  mkEntry (key e) (down_name e) (first e) (subs e) (handle e) u (callback e) (supervisor e).
Definition with_callback (e : Entry) (c : Callback) : Entry :=
  mkEntry (key e) (down_name e) (first e) (subs e) (handle e) (upstream e) c (supervisor e).
Definition with_supervisor (e : Entry) (p : Supervisor) : Entry :=
  mkEntry (key e) (down_name e) (first e) (subs e) (handle e) (upstream e) (callback e) p.

(** Only a closed receiver is pruned. *)
Definition dispatch (live : gset nat) (e : Entry) : Entry := with_subs e (filter (fun x => x ∈ live) (subs e)).
Definition close_all (e : Entry) : Entry := with_subs e [].
Definition attach_upstream (e : Entry) : Entry := with_handle e true.
Definition cancel_upstream (e : Entry) : Entry := with_handle e false.

Inductive UpstreamState := UpRunning | UpCancelled | UpFinished.

Definition upstream_state (e : Entry) : UpstreamState :=
  if handle e then match upstream e with Ended => UpFinished | _ => UpRunning end else UpCancelled.

(** ** The cache *)

Definition put_entry (s : State) (i : nat) (e : Entry) : State :=
  mkState (<[i := e]> (heap s)) (entries s) (open s) (subscribers s) (bindings s) (deaths s).

(** The entry leaves the map if the key still leads to it. *)
Definition remove_current (s : State) (i : nat) (e : Entry) : State :=
  mkState (heap s) (if decide (entries s !! key e = Some i) then delete (key e) (entries s) else entries s)
    (open s) (subscribers s) (bindings s) (deaths s).

Definition subscribe (s : State) (k : MonitorKey) (down : Str) : State :=
  let x := subscribers s in
  match entries s !! k ≫= fun i => (i,.) <$> heap s !! i with
  | Some (i, e) =>
    mkState (<[i := with_subs e (filter (fun y => y ∈ open s) (subs e) ++ [x])]> (heap s)) (entries s)
      ({[ x ]} ∪ open s) (S x) (bindings s) (deaths s)
  | None =>
    mkState (heap s ++ [mkEntry k down x [x] false NotStarted Idle Fresh]) (<[k := length (heap s)]> (entries s))
      ({[ x ]} ∪ open s) (S x) (bindings s) (deaths s)
  end.

(** The receiver of a subscriber is with its [subscribe] call until that returns. *)
Definition in_call (s : State) (x : nat) : bool :=
  existsb (fun e => bool_decide (first e = x) && match supervisor e with Fresh | Started => true | _ => false end) (heap s).

Inductive Step :=
  | Subscribe (k : MonitorKey) (down : Str) | DropReceiver (x : nat) | Bind (name : Str)
  | SpawnTask (i : nat) | Attach (i : nat)
  | Tick (i : nat) | Recheck (i : nat) | CancelSelf (i : nat) | EndTask (i : nat)
  | SeeEnd (i : nat) | LookAt (i : nat) | SweepRemove (i : nat) | SweepCancel (i : nat) | SweepClose (i : nat)
  | TakeHandle (i : nat) | DeathRemove (i : nat) | DeathUnbind (i : nat) | DeathClose (i : nat).

(** *** [spawn_upstream] in [proxy.rs]: the task, then the handle and the supervisor *)

Definition spawn_task (s : State) (i : nat) (e : Entry) : option State :=
  match supervisor e with Fresh => Some (put_entry s i (with_supervisor (with_upstream e Running) Started)) | _ => None end.

Definition spawn_attach (s : State) (i : nat) (e : Entry) : option State :=
  match supervisor e with Started => Some (put_entry s i (with_supervisor (attach_upstream e) Watching)) | _ => None end.

(** *** [dispatch_or_retire], run by the callback: the dispatch, the check under the
    lock of the map, the cancellation *)

Definition dispatch_tick (s : State) (i : nat) (e : Entry) : option State :=
  match upstream e, callback e with
  | Running, Idle =>
    let e := dispatch (open s) e in
    Some (put_entry s i (match subs e with [] => with_callback e FoundNobody | _ => e end))
  | _, _ => None
  end.

Definition dispatch_recheck (s : State) (i : nat) (e : Entry) : option State :=
  match callback e with
  | FoundNobody =>
    match subs e with
    | [] => Some (put_entry (remove_current s i e) i (with_callback e Removed))
    | _ => Some (put_entry s i (with_callback e Idle))
    end
  | _ => None
  end.

Definition dispatch_cancel (s : State) (i : nat) (e : Entry) : option State :=
  match callback e with Removed => Some (put_entry s i (with_callback (cancel_upstream e) Left)) | _ => None end.

(** The task ends between two callbacks or behind the one that broke off. *)
Definition end_task (s : State) (i : nat) (e : Entry) : option State :=
  match upstream e, callback e with
  | Running, (Idle | Left) => Some (put_entry s i (with_upstream e Ended))
  | _, _ => None
  end.

(** *** The loop of the supervisor *)

Definition see_end (s : State) (i : nat) (e : Entry) : option State :=
  match supervisor e, upstream e with Watching, Ended => Some (put_entry s i (with_supervisor e OutOfLoop)) | _, _ => None end.

Definition look_at (s : State) (i : nat) (e : Entry) : option State :=
  match supervisor e with
  | Watching =>
    Some (put_entry s i (with_supervisor e
      (match upstream_state e with UpRunning => Sweep | UpCancelled => Over | UpFinished => OutOfLoop end)))
  | _ => None
  end.

(** *** [retire_if_idle]: the removal under the locks, the cancellation, the close *)

Definition idle_remove (s : State) (i : nat) (e : Entry) : option State :=
  match supervisor e with
  | Sweep =>
    if forallb (fun x => negb (bool_decide (x ∈ open s))) (subs e)
    then Some (put_entry (remove_current s i e) i (with_supervisor e SweepRemoved))
    else Some (put_entry s i (with_supervisor e Watching))
  | _ => None
  end.

Definition idle_cancel (s : State) (i : nat) (e : Entry) : option State :=
  match supervisor e with SweepRemoved => Some (put_entry s i (with_supervisor (cancel_upstream e) SweepCancelled)) | _ => None end.

Definition idle_close (s : State) (i : nat) (e : Entry) : option State :=
  match supervisor e with SweepCancelled => Some (put_entry s i (with_supervisor (close_all e) Over)) | _ => None end.

(** *** Behind the loop: the handle tells a death from a stop *)

Definition take_upstream (s : State) (i : nat) (e : Entry) : option State :=
  match supervisor e with
  | OutOfLoop => Some (put_entry s i (if handle e then with_supervisor (with_handle e false) DeathTaken else with_supervisor e Over))
  | _ => None
  end.

Definition retire (s : State) (i : nat) (e : Entry) : option State :=
  match supervisor e with
  | DeathTaken => Some (put_entry (remove_current s i e) i (with_supervisor (cancel_upstream e) DeathRemoved))
  | _ => None
  end.

Definition death_unbind (s : State) (i : nat) (e : Entry) : option State :=
  match supervisor e with
  | DeathRemoved =>
    let s := put_entry s i (with_supervisor e DeathUnbound) in
    Some (mkState (heap s) (entries s) (open s) (subscribers s) (bindings s ∖ {[ down_name e ]}) (deaths s + 1))
  | _ => None
  end.

Definition death_close (s : State) (i : nat) (e : Entry) : option State :=
  match supervisor e with DeathUnbound => Some (put_entry s i (with_supervisor (close_all e) Over)) | _ => None end.

Definition on_entry (s : State) (i : nat) (f : State -> nat -> Entry -> option State) : option State := heap s !! i ≫= f s i.

(** A step, when it can be taken. *)
Definition step (s : State) (l : Step) : option State :=
  match l with
  | Subscribe k down => Some (subscribe s k down)
  | DropReceiver x =>
    if in_call s x then None
    else Some (mkState (heap s) (entries s) (open s ∖ {[ x ]}) (subscribers s) (bindings s) (deaths s))
  | Bind name => Some (mkState (heap s) (entries s) (open s) (subscribers s) ({[ name ]} ∪ bindings s) (deaths s))
  | SpawnTask i => on_entry s i spawn_task
  | Attach i => on_entry s i spawn_attach
  | Tick i => on_entry s i dispatch_tick
  | Recheck i => on_entry s i dispatch_recheck
  | CancelSelf i => on_entry s i dispatch_cancel
  | EndTask i => on_entry s i end_task
  | SeeEnd i => on_entry s i see_end
  | LookAt i => on_entry s i look_at
  | SweepRemove i => on_entry s i idle_remove
  | SweepCancel i => on_entry s i idle_cancel
  | SweepClose i => on_entry s i idle_close
  | TakeHandle i => on_entry s i take_upstream
  | DeathRemove i => on_entry s i retire
  | DeathUnbind i => on_entry s i death_unbind
  | DeathClose i => on_entry s i death_close
  end.

(** The step of the entry that [He] looks up. *)
Ltac unfold_step He :=
  unfold step, on_entry; rewrite He; cbn [mbind option_bind];
  unfold spawn_task, spawn_attach, dispatch_tick, dispatch_recheck, dispatch_cancel, end_task, see_end, look_at, idle_remove, idle_cancel,
    idle_close, take_upstream, retire, death_unbind, death_close.

Definition initial : State := mkState [] ∅ ∅ 0 ∅ 0.

Inductive reachable : State -> Prop :=
  | reach_initial : reachable initial
  | reach_step s l s' : reachable s -> step s l = Some s' -> reachable s'.

(** ** The invariant *)

Definition current (s : State) (i : nat) (e : Entry) : Prop := entries s !! key e = Some i.

Definition gone (e : Entry) : Prop := callback e = Removed \/ callback e = Left.

Definition nobody (live : gset nat) (e : Entry) : Prop := forall x, x ∈ subs e -> x ∉ live.

(** What holds of an entry, by where its supervisor stands. *)
Definition sup_ok (cur : Prop) (live : gset nat) (e : Entry) : Prop :=
  match supervisor e with
  | Fresh => upstream e = NotStarted /\ handle e = false /\ callback e = Idle /\ cur /\ first e ∈ subs e /\ first e ∈ live
  | Started => upstream e <> NotStarted /\ handle e = false /\ callback e = Idle /\ cur /\ first e ∈ subs e /\ first e ∈ live
  | Watching | Sweep => upstream e <> NotStarted /\ (handle e = true \/ callback e = Left) /\ (cur \/ gone e)
  | OutOfLoop => upstream e = Ended /\ (handle e = true \/ callback e = Left) /\ (cur \/ gone e)
  | SweepRemoved => upstream e <> NotStarted /\ ~ cur /\ nobody live e
  | SweepCancelled | Over => upstream e <> NotStarted /\ ~ cur /\ nobody live e /\ handle e = false
  | DeathTaken => upstream e = Ended /\ handle e = false /\ callback e = Idle /\ cur
  | DeathRemoved | DeathUnbound => upstream e = Ended /\ handle e = false /\ callback e = Idle /\ ~ cur
  end.

(** And by where its callback stands. *)
Definition cb_ok (cur : Prop) (e : Entry) : Prop :=
  match callback e with
  | Idle => True
  | FoundNobody => upstream e = Running
  | Removed => upstream e = Running /\ ~ cur /\ subs e = []
  | Left => ~ cur /\ subs e = [] /\ handle e = false
  end.

Record inv (s : State) : Prop := {
  i_map k i : entries s !! k = Some i -> exists e, heap s !! i = Some e /\ key e = k;
  i_sup i e : heap s !! i = Some e -> sup_ok (current s i e) (open s) e;
  i_cb i e : heap s !! i = Some e -> cb_ok (current s i e) e;
  i_known i e x : heap s !! i = Some e -> x ∈ subs e -> (x < subscribers s)%nat }.

#[export] Instance sup_ok_proper : Proper (iff ==> eq ==> eq ==> iff) sup_ok.
Proof. intros c c' Hc l ? <- e ? <-. unfold sup_ok. destruct (supervisor e); now rewrite Hc. Qed.

#[export] Instance cb_ok_proper : Proper (iff ==> eq ==> iff) cb_ok.
Proof. intros c c' Hc e ? <-. unfold cb_ok. destruct (callback e); now rewrite ?Hc. Qed.

(** [s'] is [s] but for entry [i]. *)
Record only_at (i : nat) (s s' : State) : Prop := {
  oa_heap j : j <> i -> heap s' !! j = heap s !! j;
  oa_current j e : j <> i -> current s' j e <-> current s j e;
  oa_open : open s' = open s;
  oa_subscribers : subscribers s' = subscribers s }.

Lemma only_at_inv i s s' e e' :
  inv s -> only_at i s s' -> heap s !! i = Some e -> heap s' !! i = Some e' -> key e' = key e ->
  (forall k, entries s' !! k = Some i -> k = key e) ->
  (forall x, x ∈ subs e' -> x ∈ subs e) ->
  sup_ok (current s' i e') (open s) e' -> cb_ok (current s' i e') e' -> inv s'.
Proof.
  intros [Hmap Hsup Hcb Hkn] [Hh Hc Ho Hs] He He' Hk Hki Hsub Hsup' Hcb'. split.
  - intros k j Hj. destruct (decide (j = i)) as [->|Hji]; [apply Hki in Hj as ->; eauto|].
    rewrite Hh by done. assert (Hcur : current s' j (with_subs (mkEntry k [] 0 [] false NotStarted Idle Fresh) [])) by done.
    apply Hc in Hcur; [|done]. now apply Hmap.
  - intros j ej Hj. destruct (decide (j = i)) as [->|Hji]; [rewrite Ho; congruence|].
    rewrite Hh in Hj by done. rewrite Ho, (Hc j ej Hji). auto.
  - intros j ej Hj. destruct (decide (j = i)) as [->|Hji]; [congruence|].
    rewrite Hh in Hj by done. rewrite (Hc j ej Hji). auto.
  - intros j ej x Hj Hx. rewrite Hs. destruct (decide (j = i)) as [->|Hji].
    + apply (Hkn i e); [done|]. apply Hsub. congruence.
    + rewrite Hh in Hj by done. eauto.
Qed.

(** A change of the entry alone. *)
Lemma put_inv s i e e' : inv s -> heap s !! i = Some e -> key e' = key e -> (forall x, x ∈ subs e' -> x ∈ subs e) ->
  (sup_ok (current s i e) (open s) e -> cb_ok (current s i e) e -> sup_ok (current s i e) (open s) e' /\ cb_ok (current s i e) e') ->
  inv (put_entry s i e').
Proof.
  intros Hi He Hk Hsub H. destruct (H (i_sup s Hi i e He) (i_cb s Hi i e He)) as [H1 H2].
  assert (Hlt : (i < length (heap s))%nat) by (now apply lookup_lt_Some in He).
  assert (Hcur : current (put_entry s i e') i e' <-> current s i e) by (unfold current; simpl; now rewrite Hk).
  apply (only_at_inv i s _ e e' Hi); try done.
  - split; try done. intros j Hj. simpl. now apply list_lookup_insert_ne.
  - simpl. now apply list_lookup_insert_eq.
  - intros k Hk'. destruct (i_map s Hi k i Hk') as (e0 & He0 & <-). congruence.
  - now rewrite Hcur.
  - now rewrite Hcur.
Qed.

(** A change of the entry together with its removal from the map. *)
Lemma remove_put_inv s i e e' : inv s -> heap s !! i = Some e -> key e' = key e -> (forall x, x ∈ subs e' -> x ∈ subs e) ->
  (sup_ok (current s i e) (open s) e -> cb_ok (current s i e) e -> sup_ok False (open s) e' /\ cb_ok False e') ->
  inv (put_entry (remove_current s i e) i e').
Proof.
  intros Hi He Hk Hsub H. destruct (H (i_sup s Hi i e He) (i_cb s Hi i e He)) as [H1 H2].
  assert (Hlt : (i < length (heap s))%nat) by (now apply lookup_lt_Some in He).
  assert (Hcur : current (put_entry (remove_current s i e) i e') i e' <-> False).
  { unfold current. simpl. rewrite Hk. case_decide as D; [rewrite lookup_delete_eq; now split|tauto]. }
  apply (only_at_inv i s _ e e' Hi); try done.
  - split; try done.
    + intros j Hj. simpl. now apply list_lookup_insert_ne.
    + intros j ej Hj. unfold current. simpl. case_decide as D; [|done]. rewrite lookup_delete. case_decide as D'; [|done].
      rewrite <- D'. split; congruence.
  - simpl. now apply list_lookup_insert_eq.
  - intros k. simpl. case_decide as D.
    + rewrite lookup_delete. case_decide; [done|]. intros Hk'. destruct (i_map s Hi k i Hk') as (e0 & He0 & <-). congruence.
    + intros Hk'. destruct (i_map s Hi k i Hk') as (e0 & He0 & <-). congruence.
  - now rewrite Hcur.
  - now rewrite Hcur.
Qed.

(** Nobody waits on a number that was not given out. *)
Lemma unknown_sub s i e : inv s -> heap s !! i = Some e -> subscribers s ∉ subs e.
Proof. intros Hi He Hx. apply (i_known s Hi i e) in Hx; [lia|done]. Qed.

Lemma sup_ok_live cur live x e : x ∉ subs e -> sup_ok cur live e -> sup_ok cur ({[ x ]} ∪ live) e.
Proof.
  intros Hx. unfold sup_ok. destruct (supervisor e); try tauto; try set_solver;
    unfold nobody; intros; destruct_and!; repeat split; try done; set_solver.
Qed.

(** A subscriber that joins an entry of the map. *)
Definition joined (live : gset nat) (e : Entry) (x : nat) : Entry := with_subs e (filter (fun y => y ∈ live) (subs e) ++ [x]).

Lemma sup_ok_joined (cur : Prop) live e x : cur -> sup_ok cur live e -> sup_ok cur ({[ x ]} ∪ live) (joined live e x).
Proof.
  intros Hc. assert (F : first e ∈ subs e -> first e ∈ live -> first e ∈ filter (fun y => y ∈ live) (subs e) ++ [x]).
  { intros H1 H2. apply elem_of_app. left. apply list_elem_of_filter. auto. }
  unfold sup_ok, gone. simpl. destruct (supervisor e); try tauto; intros (? & ? & ? & ? & ? & ?);
    repeat split; try tauto; set_solver.
Qed.

Lemma cb_ok_joined (cur : Prop) live e x : cur -> cb_ok cur e -> cb_ok cur (joined live e x).
Proof. intros Hc. unfold cb_ok. simpl. destruct (callback e); tauto. Qed.

Lemma join_inv s i e : inv s -> heap s !! i = Some e -> entries s !! key e = Some i ->
  inv (mkState (<[i := joined (open s) e (subscribers s)]> (heap s)) (entries s) ({[ subscribers s ]} ∪ open s)
         (S (subscribers s)) (bindings s) (deaths s)).
Proof.
  intros Hi He Hcur. assert (Hlt : (i < length (heap s))%nat) by (now apply lookup_lt_Some in He). split; simpl.
  - intros k' j Hj. destruct (i_map s Hi k' j Hj) as (e' & He' & <-). destruct (decide (j = i)) as [->|Hji].
    + rewrite list_lookup_insert_eq by done. eexists. split; [reflexivity|]. simpl. congruence.
    + rewrite list_lookup_insert_ne by done. eauto.
  - intros j ej. rewrite list_lookup_insert. case_decide as D.
    + destruct D as [<- _]. intros [= <-]. apply sup_ok_joined; [done|]. now apply (i_sup s Hi i).
    + intros Hj. apply sup_ok_live; [now apply (unknown_sub s j)|]. now apply (i_sup s Hi j).
  - intros j ej. rewrite list_lookup_insert. case_decide as D; [|apply (i_cb s Hi j)].
    destruct D as [<- _]. intros [= <-]. apply cb_ok_joined; [done|]. now apply (i_cb s Hi i).
  - intros j ej x. rewrite list_lookup_insert. case_decide as D; [|intros Hj Hx'; apply (i_known s Hi j ej) in Hx'; [lia|done]].
    destruct D as [<- _]. intros [= <-]. simpl. intros [[_ Hin]%list_elem_of_filter| ->%list_elem_of_singleton]%elem_of_app; [|lia].
    apply (i_known s Hi i e) in Hin; [lia|done].
Qed.

Lemma subscribe_inv s k down : inv s -> inv (subscribe s k down).
Proof.
  intros Hi. unfold subscribe. destruct (entries s !! k) as [i|] eqn:Hk; simpl.
  - destruct (i_map s Hi k i Hk) as (e & He & <-). rewrite He. now apply join_inv.
  - split; simpl.
    + intros k' j. rewrite lookup_insert. case_decide as D.
      * intros [= <-]. exists (mkEntry k down (subscribers s) [subscribers s] false NotStarted Idle Fresh). split; [|done].
        rewrite lookup_app_r, Nat.sub_diag by lia. done.
      * intros Hj. destruct (i_map s Hi k' j Hj) as (e & He & <-). exists e. split; [|done]. now apply lookup_app_l_Some.
    + intros j ej [Hj|[Hle Hj]]%lookup_app_Some.
      * assert (Hlt : (j < length (heap s))%nat) by (now apply lookup_lt_Some in Hj).
        assert (Hcur : current (mkState (heap s) (<[k := length (heap s)]> (entries s)) (open s) (subscribers s) (bindings s) (deaths s)) j ej
          <-> current s j ej).
        { unfold current. simpl. rewrite lookup_insert. case_decide as D; [|done]. subst k. rewrite Hk. split; [intros [=]; lia|done]. }
        unfold current in *. simpl in *. rewrite Hcur. apply sup_ok_live; [now apply (unknown_sub s j)|]. now apply (i_sup s Hi j).
      * apply list_lookup_singleton_Some in Hj as [Hj <-]. unfold sup_ok, current. simpl. rewrite lookup_insert_eq.
        repeat split; try set_solver. f_equal. lia.
    + intros j ej [Hj|[Hle Hj]]%lookup_app_Some.
      * assert (Hlt : (j < length (heap s))%nat) by (now apply lookup_lt_Some in Hj).
        pose proof (i_cb s Hi j ej Hj) as Hcb. revert Hcb. unfold cb_ok, current. simpl. rewrite lookup_insert.
        case_decide as D; [|done]. subst k. rewrite Hk. destruct (callback ej); naive_solver lia.
      * apply list_lookup_singleton_Some in Hj as [Hj <-]. done.
    + intros j ej x [Hj|[Hle Hj]]%lookup_app_Some.
      * intros Hx. apply (i_known s Hi j ej) in Hx; [lia|done].
      * apply list_lookup_singleton_Some in Hj as [Hj <-]. simpl. intros ->%list_elem_of_singleton. lia.
Qed.

Lemma drop_inv s x : inv s -> in_call s x = false ->
  inv (mkState (heap s) (entries s) (open s ∖ {[ x ]}) (subscribers s) (bindings s) (deaths s)).
Proof.
  intros [Hmap Hsup Hcb Hkn] Hx. split; try done. simpl. intros i e He. specialize (Hsup i e He).
  assert (Hf : (supervisor e = Fresh \/ supervisor e = Started) -> first e <> x).
  { intros Hs <-. assert (in_call s (first e) = true); [|congruence]. apply existsb_exists. exists e.
    split; [apply list_elem_of_In; now apply list_elem_of_lookup_2 in He|]. rewrite bool_decide_eq_true_2 by done. now destruct Hs as [-> | ->]. }
  change (current _ i e) with (current s i e). revert Hsup Hf. unfold sup_ok, nobody. destruct (supervisor e); intros Hsup Hf; try done;
    destruct_and!; repeat split; try done; try set_solver; specialize (Hf ltac:(auto)); set_solver.
Qed.

Lemma nobody_dispatch live e : nobody live e -> nobody live (dispatch live e).
Proof. unfold nobody, dispatch. simpl. intros Hn x [_ Hx]%list_elem_of_filter. auto. Qed.

Lemma dispatch_first live e : first e ∈ subs e -> first e ∈ live -> first e ∈ subs (dispatch live e).
Proof. intros. unfold dispatch. simpl. apply list_elem_of_filter. auto. Qed.

Lemma sup_ok_dispatch cur live e : sup_ok cur live e -> sup_ok cur live (dispatch live e).
Proof.
  pose proof (nobody_dispatch live e) as Hno. pose proof (dispatch_first live e) as Hfi.
  unfold sup_ok, gone. change (supervisor (dispatch live e)) with (supervisor e). destruct (supervisor e); intros;
    destruct_and?; repeat split; auto.
Qed.

Lemma sup_ok_found cur live e : upstream e = Running -> callback e = Idle -> subs e = [] ->
  sup_ok cur live e -> sup_ok cur live (with_callback e FoundNobody).
Proof.
  intros Hu Hc Hs. unfold sup_ok, gone, nobody. simpl. rewrite Hu, Hc, Hs.
  destruct (supervisor e); intros; destruct_and?; try congruence; repeat split; try done; try tauto;
    try (match goal with H : _ ∈ [] |- _ => now apply not_elem_of_nil in H end);
    destruct_or?; try congruence; try tauto.
Qed.

Lemma tick_inv s i e : inv s -> heap s !! i = Some e -> upstream e = Running -> callback e = Idle ->
  inv (put_entry s i (match subs (dispatch (open s) e) with [] => with_callback (dispatch (open s) e) FoundNobody | _ => dispatch (open s) e end)).
Proof.
  intros Hi He Hu Hc.
  assert (Hsub : forall x, x ∈ subs (dispatch (open s) e) -> x ∈ subs e) by (intros x [_ Hx]%list_elem_of_filter; done).
  destruct (subs (dispatch (open s) e)) as [|y l] eqn:E.
  - apply (put_inv s i e); [done|done|done|simpl; intros x Hx; apply Hsub; now rewrite <- E|]. intros Hs _. split.
    + apply sup_ok_found; [done|done|done|now apply sup_ok_dispatch].
    + done.
  - apply (put_inv s i e); [done|done|done|intros x Hx; apply Hsub; now rewrite <- E|]. intros Hs _. split; [now apply sup_ok_dispatch|].
    unfold cb_ok. simpl. now rewrite Hc.
Qed.

(** Case analysis on where the supervisor stands. *)
Ltac by_supervisor e :=
  destruct (supervisor e) eqn:?; intros; destruct_and?; try congruence; repeat split; try done; intuition (try congruence; try done).

Ltac by_callback e :=
  destruct (callback e) eqn:?; simpl; intuition (try congruence; try done).

Lemma recheck_inv s i e s' : inv s -> heap s !! i = Some e -> step s (Recheck i) = Some s' -> inv s'.
Proof.
  intros Hi He. unfold_step He. destruct (callback e) eqn:Hc; try done.
  destruct (subs e) as [|x l] eqn:Hs; intros [= <-].
  - apply (remove_put_inv s i e); [done|done|done|done|]. unfold sup_ok, cb_ok, gone, nobody. simpl. rewrite Hc, Hs.
    intros Hsup Hu. rewrite Hu in *. split; [|tauto]. revert Hsup. by_supervisor e.
  - apply (put_inv s i e); [done|done|done|done|]. unfold sup_ok, cb_ok, gone, nobody. simpl. rewrite Hc.
    intros Hsup Hu. rewrite Hu in *. split; [|tauto]. revert Hsup. by_supervisor e.
Qed.

Lemma callback_inv s i e s' l : inv s -> heap s !! i = Some e -> l ∈ [Tick i; Recheck i; CancelSelf i; EndTask i] ->
  step s l = Some s' -> inv s'.
Proof.
  intros Hi He Hl. rewrite !elem_of_cons, elem_of_nil in Hl. destruct_or! Hl; try done; subst l; try (now apply (recheck_inv s i e));
    unfold_step He.
  - destruct (upstream e) eqn:Hu, (callback e) eqn:Hc; try done. intros [= <-]. now apply (tick_inv s i e).
  - destruct (callback e) eqn:Hc; try done. intros [= <-]. apply (put_inv s i e); [done|done|done|done|].
    unfold sup_ok, cb_ok, gone, nobody. simpl. rewrite Hc. intros Hsup (Hu & Hn & Hs). rewrite Hu, Hs in *. split; [|done].
    revert Hsup. by_supervisor e.
  - destruct (upstream e) eqn:Hu, (callback e) eqn:Hc; try done; intros [= <-]; apply (put_inv s i e); try done;
      unfold sup_ok, cb_ok, gone, nobody; simpl; rewrite Hc, Hu; intros Hsup Hcb; (split; [|done]); revert Hsup; by_supervisor e.
Qed.

Lemma nobody_nil live e : subs e = [] -> nobody live e.
Proof. intros Hs x Hx. rewrite Hs in Hx. now apply not_elem_of_nil in Hx. Qed.

Lemma supervisor_inv s i e s' l : inv s -> heap s !! i = Some e ->
  l ∈ [SpawnTask i; Attach i; SeeEnd i; LookAt i; SweepCancel i; SweepClose i; TakeHandle i; DeathClose i] ->
  step s l = Some s' -> inv s'.
Proof.
  intros Hi He Hl. pose proof (nobody_nil (open s) e) as Hnil. pose proof (nobody_nil (open s) (close_all e) eq_refl) as Hclose.
  assert (Hsub : forall x : nat, x ∈ [] -> x ∈ subs e) by (intros x Hx; now apply not_elem_of_nil in Hx).
  rewrite !elem_of_cons, elem_of_nil in Hl. destruct_or! Hl; try done; subst l;
    unfold_step He; destruct (supervisor e) eqn:Hs; try done;
    try (destruct (upstream e) eqn:Hu; try done); intros [= <-];
    (apply (put_inv s i e); [done|done|destruct (handle e); done|destruct (handle e); done|]);
    unfold sup_ok, cb_ok, gone, upstream_state; rewrite Hs; simpl; rewrite ?Hu.
  all: try (by_callback e; fail).
  all: destruct (handle e) eqn:Hh; simpl; rewrite ?Hu, ?Hh; by_callback e.
Qed.

Lemma removal_inv s i e s' l : inv s -> heap s !! i = Some e -> l ∈ [SweepRemove i; DeathRemove i; DeathUnbind i] ->
  step s l = Some s' -> inv s'.
Proof.
  intros Hi He Hl. rewrite !elem_of_cons, elem_of_nil in Hl. destruct_or! Hl; subst l; try done;
    unfold_step He; destruct (supervisor e) eqn:Hs; try done.
  - destruct (forallb _ (subs e)) eqn:Hf; intros [= <-].
    + assert (Hn : nobody (open s) e).
      { intros x Hx. apply list_elem_of_In in Hx. rewrite forallb_forall in Hf. specialize (Hf x Hx).
        now apply negb_true_iff, bool_decide_eq_false in Hf. }
      apply (remove_put_inv s i e); try done. unfold sup_ok, cb_ok, gone. simpl. rewrite Hs.
      by_callback e.
    + apply (put_inv s i e); try done. unfold sup_ok, cb_ok, gone. simpl. rewrite Hs. by_callback e.
  - intros [= <-]. apply (remove_put_inv s i e); try done. unfold sup_ok, cb_ok, gone. simpl. rewrite Hs. by_callback e.
  - intros [= <-].
    assert (Hi' : inv (put_entry s i (with_supervisor e DeathUnbound))).
    { apply (put_inv s i e); try done. unfold sup_ok, cb_ok, gone. simpl. rewrite Hs. by_callback e. }
    destruct Hi' as [H1 H2 H3 H4]. split; done.
Qed.

Ltac in_list := repeat first [apply list_elem_of_here | apply list_elem_of_further].

Lemma step_inv s l s' : inv s -> step s l = Some s' -> inv s'.
Proof.
  intros Hi. assert (E : forall i f, on_entry s i f = Some s' -> exists e, heap s !! i = Some e).
  { unfold on_entry. intros i f. destruct (heap s !! i); [eauto|done]. }
  destruct l as [k d|x|n|i|i|i|i|i|i|i|i|i|i|i|i|i|i|i]; intros Hst;
    try (pose proof (E _ _ Hst) as [e He];
         first [ apply (callback_inv s i e s' _ Hi He) in Hst; [exact Hst|solve [in_list]]
               | apply (supervisor_inv s i e s' _ Hi He) in Hst; [exact Hst|solve [in_list]]
               | apply (removal_inv s i e s' _ Hi He) in Hst; [exact Hst|solve [in_list]] ]).
  - injection Hst as <-. now apply subscribe_inv.
  - simpl in Hst. destruct (in_call s x) eqn:Hx; [done|]. injection Hst as <-. now apply drop_inv.
  - injection Hst as <-. destruct Hi as [H1 H2 H3 H4]. split; done.
Qed.

Lemma reachable_inv s : reachable s -> inv s.
Proof.
  induction 1 as [|s l s' Hr IH Hs]; [|now apply (step_inv s l)].
  split; simpl; intros; try (now rewrite lookup_empty in *); now rewrite lookup_nil in *.
Qed.

(** ** What subscribers can rely on *)

Fixpoint run (s : State) (ls : list Step) : option State :=
  match ls with
  | [] => Some s
  | l :: ls => step s l ≫= fun s => run s ls
  end.

(** The steps an entry with a dead upstream still has before it. *)
Definition teardown (i : nat) (e : Entry) : list Step :=
  let tail := [TakeHandle i; DeathRemove i; DeathUnbind i; DeathClose i] in
  match supervisor e with
  | Started => Attach i :: SeeEnd i :: tail
  | Watching => SeeEnd i :: tail
  | Sweep => SweepRemove i :: SeeEnd i :: tail
  | OutOfLoop => tail
  | DeathTaken => [DeathRemove i; DeathUnbind i; DeathClose i]
  | DeathRemoved => [DeathUnbind i; DeathClose i]
  | DeathUnbound => [DeathClose i]
  | _ => []
  end.

(** The end of an entry's life: nobody is on it and no key leads to it. *)
Definition closed (s : State) (i : nat) : Prop :=
  exists e, heap s !! i = Some e /\ subs e = [] /\ supervisor e = Over /\ ~ current s i e.

Definition unbound (s : State) (i : nat) : Prop := exists e, heap s !! i = Some e /\ down_name e ∉ bindings s.

Lemma lookup_put s i e e' : heap s !! i = Some e -> heap (put_entry s i e') !! i = Some e'.
Proof. intros He. simpl. apply list_lookup_insert_eq. now apply lookup_lt_Some in He. Qed.

Lemma run_step_cons s l ls : run s (l :: ls) = step s l ≫= fun s => run s ls.
Proof. reflexivity. Qed.

(** The first step of a run, of the entry [He] looks up. *)
Ltac take_step He := rewrite run_step_cons; unfold_step He.

Lemma close_unbound s i e : heap s !! i = Some e -> supervisor e = DeathUnbound -> ~ current s i e ->
  exists s', run s [DeathClose i] = Some s' /\ closed s' i /\ (down_name e ∉ bindings s -> unbound s' i).
Proof.
  intros He Hs Hc. take_step He. rewrite Hs. eexists. split; [reflexivity|].
  split; exists (with_supervisor (close_all e) Over); (split; [now apply (lookup_put s i e)|]); done.
Qed.

Abbreviation ends_closed s i ls := (exists s', run s ls = Some s' /\ closed s' i /\ unbound s' i).

Lemma close_removed s i e : heap s !! i = Some e -> supervisor e = DeathRemoved -> ~ current s i e ->
  ends_closed s i [DeathUnbind i; DeathClose i].
Proof.
  intros He Hs Hc. take_step He. rewrite Hs. cbn [mbind option_bind].
  match goal with |- context [run ?s1 _] =>
    destruct (close_unbound s1 i (with_supervisor e DeathUnbound)) as (s' & Hr & Hcl & Hu) end; [now apply (lookup_put s i e)|done|done|].
  exists s'. split; [exact Hr|]. split; [done|]. apply Hu. simpl. set_solver.
Qed.

Lemma close_taken s i e : heap s !! i = Some e -> supervisor e = DeathTaken ->
  ends_closed s i [DeathRemove i; DeathUnbind i; DeathClose i].
Proof.
  intros He Hs. take_step He. rewrite Hs. cbn [mbind option_bind].
  apply (close_removed _ i (with_supervisor (cancel_upstream e) DeathRemoved)).
  - apply (lookup_put (remove_current s i e) i e). done.
  - done.
  - unfold current. simpl. case_decide as D; [now rewrite lookup_delete_eq|done].
Qed.

Lemma close_out s i e : heap s !! i = Some e -> supervisor e = OutOfLoop -> handle e = true ->
  ends_closed s i [TakeHandle i; DeathRemove i; DeathUnbind i; DeathClose i].
Proof.
  intros He Hs Hh. take_step He. rewrite Hs, Hh. cbn [mbind option_bind].
  apply (close_taken _ i (with_supervisor (with_handle e false) DeathTaken)); [now apply (lookup_put s i e)|done].
Qed.

Lemma close_watching s i e : heap s !! i = Some e -> supervisor e = Watching -> upstream e = Ended -> handle e = true ->
  ends_closed s i (SeeEnd i :: [TakeHandle i; DeathRemove i; DeathUnbind i; DeathClose i]).
Proof.
  intros He Hs Hu Hh. take_step He. rewrite Hs, Hu. cbn [mbind option_bind].
  apply (close_out _ i (with_supervisor e OutOfLoop)); [now apply (lookup_put s i e)|done|done].
Qed.

Lemma teardown_closes s i e x : inv s -> heap s !! i = Some e -> x ∈ subs e -> x ∈ open s -> upstream e = Ended ->
  exists s', run s (teardown i e) = Some s' /\ closed s' i /\ (supervisor e <> DeathUnbound -> unbound s' i).
Proof.
  intros Hi He Hx Hxo Hu. pose proof (i_sup s Hi i e He) as Hsup. pose proof (i_cb s Hi i e He) as Hcb.
  assert (Hleft : callback e <> Left).
  { intros Hl. unfold cb_ok in Hcb. rewrite Hl in Hcb. destruct Hcb as (_ & Hs & _). rewrite Hs in Hx. now apply not_elem_of_nil in Hx. }
  assert (W : forall ls, ends_closed s i ls -> exists s', run s ls = Some s' /\ closed s' i /\ (supervisor e <> DeathUnbound -> unbound s' i))
    by (intros ls (s' & ? & ? & ?); eauto).
  unfold sup_ok, nobody in Hsup. unfold teardown. destruct (supervisor e) eqn:Hs.
  - destruct Hsup as [Hn _]. congruence.
  - apply W. take_step He. rewrite Hs. cbn [mbind option_bind].
    apply (close_watching _ i (with_supervisor (attach_upstream e) Watching)); [now apply (lookup_put s i e)|done|done|done].
  - destruct Hsup as (_ & [Hh|?] & _); [|done]. apply W. now apply (close_watching s i e).
  - destruct Hsup as (_ & [Hh|?] & _); [|done]. apply W. take_step He. rewrite Hs. destruct (forallb _ (subs e)) eqn:Hf.
    { rewrite forallb_forall in Hf. apply list_elem_of_In in Hx. specialize (Hf x Hx). now apply negb_true_iff, bool_decide_eq_false in Hf. }
    cbn [mbind option_bind]. apply (close_watching _ i (with_supervisor e Watching)); [now apply (lookup_put s i e)|done|done|done].
  - destruct Hsup as (_ & _ & Hno). now apply Hno in Hx.
  - destruct Hsup as (_ & _ & Hno & _). now apply Hno in Hx.
  - destruct Hsup as (_ & [Hh|?] & _); [|done]. apply W. now apply (close_out s i e).
  - apply W. now apply (close_taken s i e).
  - apply W. apply (close_removed s i e); [done|done|tauto].
  - destruct (close_unbound s i e He Hs ltac:(tauto)) as (s' & Hr & Hcl & _).
    exists s'. split; [exact Hr|]. split; [exact Hcl|]. intros Hd. now destruct Hd.
  - destruct Hsup as (_ & _ & Hno & _). now apply Hno in Hx.
Qed.

(** C8: no interleaving of subscribers, updates, sweeps and dying upstreams leaves
    a live subscriber on an entry that is silent for ever.  A subscriber whose
    receiver is open is on an entry that its key leads to and whose upstream has
    not ended, or the upstream has ended and at most six steps of the entry's own
    supervisor are left, all of which can be taken: they remove the entry and the
    binding of its name and close the subscriber. *)
Theorem no_silent_subscriber s i e x :
  reachable s -> heap s !! i = Some e -> x ∈ subs e -> x ∈ open s ->
  (current s i e /\ upstream e <> Ended)
  \/ (upstream e = Ended /\ (length (teardown i e) <= 6)%nat
      /\ exists s', run s (teardown i e) = Some s' /\ closed s' i /\ (supervisor e <> DeathUnbound -> unbound s' i)).
Proof.
  intros Hr He Hx Hxo. apply reachable_inv in Hr. destruct (decide (upstream e = Ended)) as [Hu|Hu].
  - right. split; [done|]. split; [unfold teardown; destruct (supervisor e); simpl; lia|]. now apply (teardown_closes s i e x).
  - left. split; [|done]. pose proof (i_sup s Hr i e He) as Hsup. pose proof (i_cb s Hr i e He) as Hcb.
    assert (Hg : ~ gone e).
    { intros Hg. unfold cb_ok in Hcb. assert (subs e = []) as Hs by (destruct Hg as [Hg|Hg]; rewrite Hg in Hcb; tauto).
      rewrite Hs in Hx. now apply not_elem_of_nil in Hx. }
    unfold sup_ok, nobody in Hsup. destruct (supervisor e); destruct_and?; try tauto;
      exfalso; match goal with H : forall y, y ∈ subs e -> _ |- _ => now apply (H x) end.
Qed.

(** C30: no subscription outlives its entry.  A subscription task that still runs
    belongs to the entry its key leads to, or its handle has been dropped, which
    cancels it, or the thread that removed the entry drops the handle in its next
    step; and the supervisor tears an entry down as dead only when its task ended by
    itself, never when the callback or a sweep stopped it. *)
Theorem no_leaked_upstream s i e :
  reachable s -> heap s !! i = Some e ->
  (upstream e = Running -> current s i e \/ handle e = false \/ callback e = Removed \/ supervisor e = SweepRemoved)
  /\ (supervisor e = DeathTaken \/ supervisor e = DeathRemoved \/ supervisor e = DeathUnbound -> upstream e = Ended /\ callback e = Idle).
Proof.
  intros Hr He. apply reachable_inv in Hr. pose proof (i_sup s Hr i e He) as Hsup. pose proof (i_cb s Hr i e He) as Hcb.
  unfold sup_ok, gone in Hsup. unfold cb_ok in Hcb. split.
  - intros Hu. destruct (supervisor e); destruct_and?; try tauto; try congruence.
    all: destruct (callback e); intuition congruence.
  - intros Hd. destruct_or! Hd; rewrite Hd in Hsup; tauto.
Qed.

(** An upstream that dies between the supervisor's look at it and the idle
    sweep that follows is retired as idle: the entry goes, but the death is not
    counted and the binding of its name stays. *)
Theorem sweep_hides_death s i e :
  heap s !! i = Some e -> supervisor e = Sweep -> upstream e = Running -> callback e = Idle -> nobody (open s) e ->
  exists s', run s [EndTask i; SweepRemove i; SweepCancel i; SweepClose i] = Some s'
    /\ closed s' i /\ bindings s' = bindings s /\ deaths s' = deaths s.
Proof.
  intros He Hs Hu Hc Hno. take_step He. rewrite Hu, Hc. cbn [mbind option_bind].
  set (e1 := with_upstream e Ended). set (s1 := put_entry s i e1). assert (He1 : heap s1 !! i = Some e1) by (now apply (lookup_put s i e)).
  take_step He1. change (supervisor e1) with (supervisor e). rewrite Hs.
  assert (forallb (fun x => negb (bool_decide (x ∈ open s1))) (subs e1) = true) as ->.
  { apply forallb_forall. intros x Hx. apply list_elem_of_In in Hx. apply negb_true_iff, bool_decide_eq_false. now apply Hno. }
  cbn [mbind option_bind]. set (e2 := with_supervisor e1 SweepRemoved). set (s2 := put_entry (remove_current s1 i e1) i e2).
  assert (He2 : heap s2 !! i = Some e2) by (now apply (lookup_put (remove_current s1 i e1) i e1)).
  assert (Hc2 : ~ current s2 i e2) by (unfold current; simpl; case_decide; [now rewrite lookup_delete_eq|done]).
  take_step He2. change (supervisor e2) with SweepRemoved. cbn [mbind option_bind].
  set (e3 := with_supervisor (cancel_upstream e2) SweepCancelled). set (s3 := put_entry s2 i e3).
  assert (He3 : heap s3 !! i = Some e3) by (now apply (lookup_put s2 i e2)).
  take_step He3. change (supervisor e3) with SweepCancelled. cbn [mbind option_bind]. eexists. split; [reflexivity|]. split; [|done].
  exists (with_supervisor (close_all e3) Over). split; [now apply (lookup_put s3 i e3)|]. done.
Qed.

(** ** A sample run *)

Definition pv_key : MonitorKey := (str "c", str "INT:a").

(** A second subscriber joins while the callback has found nobody. *)
Definition race : list Step :=
  [Bind (str "X"); Subscribe pv_key (str "X"); SpawnTask 0; Attach 0; DropReceiver 0; Tick 0; Subscribe pv_key (str "X"); Recheck 0].

Definition after (ls : list Step) : State := default initial (run initial ls).

Lemma run_reachable s ls : forall s', reachable s -> run s ls = Some s' -> reachable s'.
Proof.
  revert s. induction ls as [|l ls IH]; simpl; intros s s' Hr Hs; [congruence|].
  destruct (step s l) as [s1|] eqn:E; [|done]. apply (IH s1); [|done]. now apply (reach_step s l).
Qed.

Lemma no_silent_subscriber_witness :
  exists e, heap (after race) !! 0 = Some e /\ current (after race) 0 e /\ upstream e <> Ended.
Proof.
  eexists. split; [vm_compute; reflexivity|].
  destruct (no_silent_subscriber (after race) 0 (mkEntry pv_key (str "X") 0 [1] true Running Idle Watching) 1) as [H|[H _]].
  - apply (run_reachable initial race); [constructor|vm_compute; reflexivity].
  - vm_compute. reflexivity.
  - constructor.
  - vm_compute. reflexivity.
  - exact H.
  - discriminate H.
Defined.

Lemma no_leaked_upstream_witness :
  exists e, heap (after (race ++ [EndTask 0; SeeEnd 0; TakeHandle 0])) !! 0 = Some e /\ upstream e = Ended /\ callback e = Idle.
Proof.
  eexists. split; [vm_compute; reflexivity|].
  apply (no_leaked_upstream (after (race ++ [EndTask 0; SeeEnd 0; TakeHandle 0])) 0).
  - apply (run_reachable initial (race ++ [EndTask 0; SeeEnd 0; TakeHandle 0])); [constructor|vm_compute; reflexivity].
  - vm_compute. reflexivity.
  - left. reflexivity.
Defined.

Lemma sweep_hides_death_witness :
  exists s', run (after [Bind (str "X"); Subscribe pv_key (str "X"); SpawnTask 0; Attach 0; DropReceiver 0; LookAt 0])
    [EndTask 0; SweepRemove 0; SweepCancel 0; SweepClose 0] = Some s' /\ closed s' 0 /\ bindings s' = {[ str "X" ]} /\ deaths s' = 0%Z.
Proof.
  destruct (sweep_hides_death (after [Bind (str "X"); Subscribe pv_key (str "X"); SpawnTask 0; Attach 0; DropReceiver 0; LookAt 0]) 0
    (mkEntry pv_key (str "X") 0 [0] true Running Idle Sweep)) as (s' & Hr & Hc & Hb & Hd).
  - vm_compute. reflexivity.
  - reflexivity.
  - reflexivity.
  - reflexivity.
  - intros x Hx. apply list_elem_of_singleton in Hx as ->. vm_compute. discriminate.
  - exists s'. split; [exact Hr|]. split; [exact Hc|]. split; [rewrite Hb; vm_compute; reflexivity|rewrite Hd; reflexivity].
Defined.

End MonitorCache.
