(* ===== verification/Calc.v ===== *)
(** * CALC expressions: the compiler

    [spvirit-calc]: the opcode table ([op.rs]), the lexer ([lex.rs]) and the
    compiler from infix text to postfix code with resolved jumps ([parse.rs]).
    Source text is its UTF-8 bytes; an index or a slice out of range, or off a
    character boundary, is a panic.  The operator stack has its top first, the
    code is in program order. *)

From Stdlib Require Import ZArith Floats.SpecFloat.
From S2P Require Import Prelude Utf8 Wire PvdTypes NtTypes F64 Text.

Local Open Scope Z_scope.
Local Open Scope codec_scope.

(** ** Opcodes *)

Module Op.

Inductive Op : Type :=
| Arg (i : nat) | Lit (v : Z)
| Add | Sub | Mul | Div | Modulo | Pow | Neg
| CondIf (else_target : nat) | CondElse (end_target : nat) | CondEnd
| Abs | Sqrt | Exp | Log10 | Ln | Ceil | Floor | Nint
| Sin | Cos | Tan | Asin | Acos | Atan | Atan2 | Fmod | Sinh | Cosh | Tanh
| Min (n : nat) | Max (n : nat)
| Gt | Ge | Lt | Le | Eq | Ne | AndL | OrL | NotL
| AndB | OrB | XorB | NotB | Shl | Shr | ShrLogic
| Rndm | IsInf | IsNan (n : nat) | Finite (n : nat)
| Store (i : nat).

#[global] Instance Op_eq_dec : EqDecision Op.
Proof. solve_decision. Defined.

Inductive Assoc : Type := Left | Right.

(** Binding power and associativity. *)
Definition precedence (op : Op) : nat * Assoc :=
  match op with
  | CondIf _ | CondElse _ | CondEnd => (0%nat, Right)
  | OrL | OrB | XorB => (1%nat, Left)
  | AndL | AndB | Shl | Shr | ShrLogic => (2%nat, Left)
  | Gt | Ge | Lt | Le | Eq | Ne => (3%nat, Left)
  | Add | Sub => (4%nat, Left)
  | Mul | Div | Modulo => (5%nat, Left)
  | Pow => (6%nat, Left)
  | Neg | NotL | NotB => (7%nat, Right)
  | Store _ => (0%nat, Left)
  | Arg _ | Lit _ | Rndm => (0%nat, Left)
  | _ => (13%nat, Right)
  end.

(** How many values an operation pops. *)
Definition arity (op : Op) : nat :=
  match op with
  | Arg _ | Lit _ | Rndm => 0
  | Neg | Abs | Sqrt | Exp | Log10 | Ln | Ceil | Floor | Nint | Sin | Cos | Tan | Asin | Acos | Atan
  | Sinh | Cosh | Tanh | NotL | NotB | IsInf => 1
  | Add | Sub | Mul | Div | Modulo | Pow | Atan2 | Fmod | Gt | Ge | Lt | Le | Eq | Ne | AndL | OrL
  | AndB | OrB | XorB | Shl | Shr | ShrLogic => 2
  | CondIf _ => 1
  | CondElse _ | CondEnd => 0
  | Store _ => 1
  | Min n | Max n | IsNan n | Finite n => n
  end%nat.

End Op.

Module Calc.
Import Op(Op, Left, Right, precedence, arity).

(** [f64] division, and the constants of the tables. *)
Definition fdiv (a b : Z) : Z := F64.of_spec (SFdiv 53 1024 (F64.to_spec a) (F64.to_spec b)).
Definition PI : Z := 0x400921FB54442D18.
Definition INFINITY : Z := 0x7FF0000000000000.
Definition NEG_INFINITY : Z := 0xFFF0000000000000.
Definition NAN : Z := 0x7FF8000000000000.

Inductive CalcError : Type :=
| BadChar (c : Z) (at_ : nat)
| BadNumber (at_ : nat)
| UnknownIdent (name : bytes)
| MissingOperand
| ExtraOperand
| Unbalanced
| BadConditional
| BadAssignment
| TooLong.

Definition MAX_OPS : nat := 1000.

(** ** The lexer *)

Module Token.
Inductive Token : Type :=
| Arg (i : nat)
| Num (v : Z)
| Ident (name : bytes)
| Op (sym : bytes).
End Token.
Import Token(Token).

Definition OPS : list bytes :=
  map str
    [">>>"; ">>"; ">="; ">"; "<<"; "<="; "<"; "**"; "*"; ":="; ":"; "=="; "=";
     "!="; "!"; "&&"; "&"; "||"; "|"; "+"; "-"; "/"; "%"; "^"; "~"; "#"; "(";
     ")"; ","; "?"; ";"]%string.

Definition is_ascii_whitespace (c : Z) : bool := (c =? 32) || (c =? 9) || (c =? 10) || (c =? 12) || (c =? 13).
Definition is_ascii_digit (c : Z) : bool := (48 <=? c) && (c <=? 57).
Definition is_ascii_upper (c : Z) : bool := (65 <=? c) && (c <=? 90).
Definition is_ascii_lower (c : Z) : bool := (97 <=? c) && (c <=? 122).
Definition is_ascii_alphabetic (c : Z) : bool := is_ascii_upper c || is_ascii_lower c.
Definition is_ascii_alphanumeric (c : Z) : bool := is_ascii_alphabetic c || is_ascii_digit c.
Definition is_ascii_hexdigit (c : Z) : bool :=
  is_ascii_digit c || ((65 <=? c) && (c <=? 70)) || ((97 <=? c) && (c <=? 102)).
Definition to_ascii_uppercase (s : bytes) : bytes := map (fun c => if is_ascii_lower c then c - 32 else c) s.

(** How many leading bytes satisfy [p]. *)
Fixpoint run_len (p : Z -> bool) (s : bytes) : nat :=
  match s with
  | c :: s => if p c then S (run_len p s) else 0
  | [] => 0
  end.

Fixpoint starts_with (p s : bytes) : bool :=
  match p, s with
  | [], _ => true
  | a :: p, b :: s => (a =? b) && starts_with p s
  | _ :: _, [] => false
  end.

(** [&src[i..]]: the start of a character, or the end. *)
Definition str_from {E} (src : bytes) (i : nat) : outcome E bytes :=
  match i, src !! i with
  | O, _ => Ok src
  | _, Some b => if Utf8.is_cont b then Panic else Ok (drop i src)
  | _, None => if (i =? length src)%nat then Ok [] else Panic
  end.

(** [u32::from_str_radix(digits, 16)] on hexadecimal digits. *)
Definition hex_value (c : Z) : Z := if c <=? 57 then c - 48 else if c <=? 70 then c - 55 else c - 87.
Definition from_hex (digits : bytes) : option Z :=
  let v := fold_left (fun acc c => 16 * acc + hex_value c) digits 0 in
  if v <=? u32_max then Some v else None.

(** The end of a decimal literal: digits, a fraction, a complete exponent. *)
Definition number_end (b : bytes) : nat :=
  let d := run_len is_ascii_digit b in
  let end_ :=
    match b !! d with
    | Some 46 =>
      let after := (d + 1 + run_len is_ascii_digit (drop (d + 1) b))%nat in
      if ((d + 1 <? after) || (0 <? d))%nat then after else d
    | _ => d
    end in
  if (end_ =? 0)%nat then 0%nat
  else
    match b !! end_ with
    | Some c =>
      if (c =? 101) || (c =? 69) then
        let digits_at :=
          match b !! (end_ + 1)%nat with
          | Some s => if (s =? 43) || (s =? 45) then (end_ + 2)%nat else (end_ + 1)%nat
          | None => (end_ + 1)%nat
          end in
        let after := (digits_at + run_len is_ascii_digit (drop digits_at b))%nat in
        if (digits_at <? after)%nat then after else end_
      else end_
    | None => end_
    end.

Definition lex_number (s : bytes) : option (Z * nat) :=
  if starts_with (str "0x") s || starts_with (str "0X") s then
    let rest := drop 2 s in
    let len := run_len is_ascii_hexdigit rest in
    if (len =? 0)%nat then None
    else match from_hex (take len rest) with
         | Some value => Some (Float.of_Z (to_signed 32 value), (2 + len)%nat)
         | None => None
         end
  else
    let end_ := number_end s in
    if (end_ =? 0)%nat then None
    else match Text.parse_f64 (take end_ s) with
         | Some v => Some (v, end_)
         | None => None
         end.

(** One token at [i]: the tokens it adds (none for white space), and its end. *)
Definition lex_step (src : bytes) (i : nat) (c : Z) : outcome CalcError (list Token * nat) :=
  if is_ascii_whitespace c then Ok ([], S i)
  else if is_ascii_digit c
          || ((c =? 46) && match src !! S i with Some d => is_ascii_digit d | None => false end) then
    let? rest := str_from src i in
    match lex_number rest with
    | Some (value, len) => Ok ([Token.Num value], (i + len)%nat)
    | None => Err (BadNumber i)
    end
  else if is_ascii_alphabetic c then
    let len := run_len (fun c => is_ascii_alphanumeric c || (c =? 95)) (drop i src) in
    let? _ := str_from src i in
    let? _ := str_from src (i + len)%nat in
    let word := to_ascii_uppercase (take len (drop i src)) in
    match word with
    | [ch] =>
      if (65 <=? ch) && (ch <=? 85) then Ok ([Token.Arg (Z.to_nat (ch - 65))], (i + len)%nat)
      else Ok ([Token.Ident word], (i + len)%nat)
    | _ => Ok ([Token.Ident word], (i + len)%nat)
    end
  else
    let? rest := str_from src i in
    match find (fun s => starts_with s rest) OPS with
    | Some sym => Ok ([Token.Op sym], (i + length sym)%nat)
    | None => Err (BadChar c i)
    end.

Fixpoint lex_from (fuel : nat) (src : bytes) (i : nat) (out : list Token) : outcome CalcError (list Token) :=
  match fuel with
  | O => OutOfFuel
  | S fuel =>
    match src !! i with
    | None => Ok out
    | Some c => let? (toks, j) := lex_step src i c in lex_from fuel src j (out ++ toks)
    end
  end.

(** Every token takes at least one byte. *)
Definition lex (src : bytes) : outcome CalcError (list Token) := lex_from (S (length src)) src 0 [].

(** ** The tables of names *)

Definition is_sym (s : bytes) (w : string) : bool := bool_decide (s = str w).
Arguments is_sym _ _%_string_scope.

(** The arms of a [match] on a name. *)
Fixpoint arm {A} (arms : list (string * A)) (name : bytes) : option A :=
  match arms with
  | (w, a) :: arms => if is_sym name w then Some a else arm arms name
  | [] => None
  end.

Definition unary_ops : list (string * Op) := [("-", Op.Neg); ("!", Op.NotL); ("~", Op.NotB)]%string.

Definition binary_ops : list (string * Op) :=
  [("+", Op.Add); ("-", Op.Sub); ("*", Op.Mul); ("/", Op.Div); ("%", Op.Modulo); ("^", Op.Pow); ("**", Op.Pow);
   (">", Op.Gt); (">=", Op.Ge); ("<", Op.Lt); ("<=", Op.Le); ("=", Op.Eq); ("==", Op.Eq); ("#", Op.Ne);
   ("!=", Op.Ne); ("&&", Op.AndL); ("||", Op.OrL); ("&", Op.AndB); ("|", Op.OrB); ("<<", Op.Shl);
   (">>", Op.Shr); (">>>", Op.ShrLogic)]%string.

Definition to_op (sym : bytes) (unary_position : bool) : outcome CalcError Op :=
  match arm (if unary_position then unary_ops else binary_ops) sym with
  | Some op => Ok op
  | None => Err MissingOperand
  end.

Definition constant (name : bytes) : option Z :=
  arm [("PI", PI); ("D2R", fdiv PI (Float.of_Z 180)); ("R2D", fdiv (Float.of_Z 180) PI);
       ("INF", INFINITY); ("INFINITY", INFINITY); ("NAN", NAN)]%string name.

Definition nullary_op (name : bytes) : option Op := arm [("RNDM", Op.Rndm)]%string name.

Definition functions : list (string * Op) :=
  [("ABS", Op.Abs); ("SQR", Op.Sqrt); ("SQRT", Op.Sqrt); ("EXP", Op.Exp); ("LOG", Op.Log10); ("LOGE", Op.Ln);
   ("LN", Op.Ln); ("CEIL", Op.Ceil); ("FLOOR", Op.Floor); ("NINT", Op.Nint); ("SIN", Op.Sin); ("COS", Op.Cos);
   ("TAN", Op.Tan); ("ASIN", Op.Asin); ("ACOS", Op.Acos); ("ATAN", Op.Atan); ("ATAN2", Op.Atan2);
   ("FMOD", Op.Fmod); ("SINH", Op.Sinh); ("COSH", Op.Cosh); ("TANH", Op.Tanh); ("MIN", Op.Min 0);
   ("MAX", Op.Max 0); ("ISINF", Op.IsInf); ("ISNAN", Op.IsNan 0); ("FINITE", Op.Finite 0)]%string.

Definition ident_to_op (name : bytes) : outcome CalcError Op :=
  match arm functions name with
  | Some op => Ok op
  | None => Err (UnknownIdent name)
  end.

Definition word_operator (name : bytes) : option Op :=
  arm [("AND", Op.AndB); ("OR", Op.OrB); ("XOR", Op.XorB); ("NOT", Op.NotB)]%string name.

(** ** The operator stack *)

Module Frame.
Inductive Frame : Type :=
| Op (op : Op.Op)
| Paren
| CondHead (if_idx : nat)
| CondTail (if_idx else_idx : nat)
| Func (op : Op.Op).
End Frame.
Import Frame(Frame).

(** [v[i] = x]. *)
Definition set_at {E A} (v : list A) (i : nat) (x : A) : outcome E (list A) :=
  if (i <? length v)%nat then Ok (<[i := x]> v) else Panic.

Definition finalize_cond (out : list Op) (if_idx else_idx : nat) : outcome CalcError (list Op) :=
  let out := out ++ [Op.CondEnd] in
  let? out := set_at out if_idx (Op.CondIf (else_idx + 1)) in
  set_at out else_idx (Op.CondElse (length out)).

Fixpoint pop_while (stack : list Frame) (out : list Op) (prec : nat) (assoc : Op.Assoc) : list Frame * list Op :=
  match stack with
  | Frame.Op top :: rest =>
    let top_prec := fst (precedence top) in
    let should_pop := match assoc with Left => prec <=? top_prec | Right => prec <? top_prec end%nat in
    if should_pop then pop_while rest (out ++ [top]) prec assoc else (stack, out)
  | _ => (stack, out)
  end.

(** The loop of [)]: down to the parenthesis, which is popped. *)
Fixpoint unwind_paren (stack : list Frame) (out : list Op) : outcome CalcError (list Frame * list Op) :=
  match stack with
  | Frame.Op op :: rest => unwind_paren rest (out ++ [op])
  | Frame.CondTail i e :: rest => let? out := finalize_cond out i e in unwind_paren rest out
  | Frame.Paren :: rest => Ok (rest, out)
  | Frame.CondHead _ :: _ => Err BadConditional
  | Frame.Func _ :: _ => Err Unbalanced
  | [] => Err Unbalanced
  end.

(** The loop of [,]: down to the parenthesis, which stays. *)
Fixpoint unwind_comma (stack : list Frame) (out : list Op) : outcome CalcError (list Frame * list Op) :=
  match stack with
  | Frame.Op op :: rest => unwind_comma rest (out ++ [op])
  | Frame.CondTail i e :: rest => let? out := finalize_cond out i e in unwind_comma rest out
  | Frame.Paren :: _ => Ok (stack, out)
  | Frame.CondHead _ :: _ => Err BadConditional
  | _ => Err Unbalanced
  end.

(** The loop of [:]: down to the pending [?]; pending stores are held and put
    back below the new frame.  [held] has the last one popped first. *)
Fixpoint unwind_cond (stack : list Frame) (out : list Op) (held : list Op)
  : outcome CalcError (list Frame * list Op) :=
  match stack with
  | Frame.Op (Op.Store i) :: rest => unwind_cond rest out (Op.Store i :: held)
  | Frame.Op op :: rest => unwind_cond rest (out ++ [op]) held
  | Frame.CondTail i e :: rest => let? out := finalize_cond out i e in unwind_cond rest out held
  | Frame.CondHead if_idx :: rest =>
    let stack := fold_left (fun stack op => Frame.Op op :: stack) held rest in
    let else_idx := length out in
    Ok (Frame.CondTail if_idx else_idx :: stack, out ++ [Op.CondElse 0])
  | Frame.Paren :: _ | Frame.Func _ :: _ | [] => Err BadConditional
  end.

(** The loop of [;] and the one at the end of the input, which differ in the
    error for a function without its parenthesis. *)
Fixpoint unwind_all (func_error : CalcError) (stack : list Frame) (out : list Op) : outcome CalcError (list Op) :=
  match stack with
  | Frame.Op op :: rest => unwind_all func_error rest (out ++ [op])
  | Frame.CondTail i e :: rest => let? out := finalize_cond out i e in unwind_all func_error rest out
  | Frame.Paren :: _ => Err Unbalanced
  | Frame.Func _ :: _ => Err func_error
  | Frame.CondHead _ :: _ => Err BadConditional
  | [] => Ok out
  end.

(** ** The compiler *)

(** The locals of [compile]'s loop. *)
Record St : Type := mkSt {
  out : list Op;
  stack : list Frame;
  expect_operand : bool;
  arg_counts : list nat;
  call_starts : list nat
}.

Definition init : St := mkSt [] [] true [] [].

Definition emit (op : Op) (st : St) : St :=
  mkSt (out st ++ [op]) (stack st) false (arg_counts st) (call_starts st).

Definition push_operator (op : Op) (st : St) : St :=
  let '(prec, assoc) := precedence op in
  let '(stack, out) := pop_while (stack st) (out st) prec assoc in
  mkSt out (Frame.Op op :: stack) true (arg_counts st) (call_starts st).

Definition on_ident (name : bytes) (st : St) : outcome CalcError St :=
  match constant name with
  | Some v => if expect_operand st then Ok (emit (Op.Lit v) st) else Err ExtraOperand
  | None =>
    match nullary_op name with
    | Some op => if expect_operand st then Ok (emit op st) else Err ExtraOperand
    | None =>
      match word_operator name with
      | Some op =>
        let unary := bool_decide (op = Op.NotB) in
        if Bool.eqb unary (expect_operand st) then Ok (push_operator op st) else Err MissingOperand
      | None =>
        if expect_operand st then
          let? op := ident_to_op name in
          Ok (mkSt (out st) (Frame.Func op :: stack st) true (arg_counts st) (call_starts st))
        else Err ExtraOperand
      end
    end
  end.

Definition on_open (st : St) : St :=
  let '(counts, starts) :=
    match stack st with
    | Frame.Func _ :: _ => (0%nat :: arg_counts st, length (out st) :: call_starts st)
    | _ => (arg_counts st, call_starts st)
    end in
  mkSt (out st) (Frame.Paren :: stack st) true counts starts.

(** A variadic function takes the count of its arguments. *)
Definition with_count (op : Op) (count : nat) : Op :=
  match op with
  | Op.Min _ => Op.Min count
  | Op.Max _ => Op.Max count
  | Op.IsNan _ => Op.IsNan count
  | Op.Finite _ => Op.Finite count
  | other => other
  end.

Definition on_close (st : St) : outcome CalcError St :=
  let? (stack, out) := unwind_paren (stack st) (out st) in
  match stack with
  | Frame.Func op :: stack =>
    let commas := hd 0%nat (arg_counts st) in
    let start_len := hd (length out) (call_starts st) in
    if (length out =? start_len)%nat then Err MissingOperand
    else Ok (mkSt (out ++ [with_count op (commas + 1)]) stack false (tl (arg_counts st)) (tl (call_starts st)))
  | _ => Ok (mkSt out stack false (arg_counts st) (call_starts st))
  end.

Definition on_question (st : St) : outcome CalcError St :=
  if expect_operand st then Err MissingOperand
  else
    let '(stack, out) := pop_while (stack st) (out st) 0 Right in
    Ok (mkSt (out ++ [Op.CondIf 0]) (Frame.CondHead (length out) :: stack) true (arg_counts st) (call_starts st)).

Definition is_cond_head (f : Frame) : bool := match f with Frame.CondHead _ => true | _ => false end.

Definition on_store (st : St) : outcome CalcError St :=
  if expect_operand st then Err MissingOperand
  else if negb (forallb is_cond_head (stack st)) then Err BadAssignment
  else
    match last (out st) with
    | Some (Op.Arg slot) =>
      Ok (mkSt (removelast (out st)) (Frame.Op (Op.Store slot) :: stack st) true (arg_counts st) (call_starts st))
    | _ => Err BadAssignment
    end.

Definition on_semicolon (st : St) : outcome CalcError St :=
  if expect_operand st then Err MissingOperand
  else
    let? out := unwind_all Unbalanced (stack st) (out st) in
    Ok (mkSt out [] true (arg_counts st) (call_starts st)).

Definition on_colon (st : St) : outcome CalcError St :=
  if expect_operand st then Err MissingOperand
  else
    let? (stack, out) := unwind_cond (stack st) (out st) [] in
    Ok (mkSt out stack true (arg_counts st) (call_starts st)).

Definition on_comma (st : St) : outcome CalcError St :=
  let? (stack, out) := unwind_comma (stack st) (out st) in
  match arg_counts st with
  | n :: counts => Ok (mkSt out stack true (S n :: counts) (call_starts st))
  | [] => Err Unbalanced
  end.

Definition on_op (sym : bytes) (st : St) : outcome CalcError St :=
  if is_sym sym "(" then Ok (on_open st)
  else if is_sym sym ")" then on_close st
  else if is_sym sym "?" then on_question st
  else if is_sym sym ":=" then on_store st
  else if is_sym sym ";" then on_semicolon st
  else if is_sym sym ":" then on_colon st
  else if is_sym sym "," then on_comma st
  else let? op := to_op sym (expect_operand st) in Ok (push_operator op st).

Definition on_token (tok : Token) (st : St) : outcome CalcError St :=
  match tok with
  | Token.Arg i => Ok (emit (Op.Arg i) st)
  | Token.Num v => Ok (emit (Op.Lit v) st)
  | Token.Ident name => on_ident name st
  | Token.Op sym => on_op sym st
  end.

(** The body of the loop over the tokens, with the guard behind it. *)
Definition step (tok : Token) (st : St) : outcome CalcError St :=
  let? st := on_token tok st in
  if (MAX_OPS <? length (out st))%nat then Err TooLong else Ok st.

Fixpoint steps (toks : list Token) (st : St) : outcome CalcError St :=
  match toks with
  | [] => Ok st
  | tok :: toks => let? st := step tok st in steps toks st
  end.

(** ** The check of the finished code *)

Definition branch_error (got want : nat) : CalcError := if (got <? want)%nat then MissingOperand else ExtraOperand.

(** The loop from [i] to [end_], at stack depth [depth]. *)
Fixpoint check_segment (fuel : nat) (ops : list Op) (i end_ depth : nat) : outcome CalcError nat :=
  match fuel with
  | O => OutOfFuel
  | S fuel =>
    if (end_ <=? i)%nat then Ok depth
    else
      match ops !! i with
      | None => Panic
      | Some (Op.CondIf else_target) =>
        if (depth <? 1)%nat then Err MissingOperand
        else
          let depth_after_cond := (depth - 1)%nat in
          if ((else_target =? 0) || (end_ <? else_target) || (else_target - 1 <=? i))%nat then Err Unbalanced
          else
            let else_op_idx := (else_target - 1)%nat in
            match ops !! else_op_idx with
            | None => Panic
            | Some (Op.CondElse end_target) =>
              if ((end_target =? 0) || (end_ <? end_target) || (end_target <=? else_op_idx))%nat then Err Unbalanced
              else
                let end_op_idx := (end_target - 1)%nat in
                if negb (bool_decide (ops !! end_op_idx = Some Op.CondEnd)) then Err Unbalanced
                else
                  let? then_depth := check_segment fuel ops (i + 1) else_op_idx depth_after_cond in
                  if negb (then_depth =? depth_after_cond + 1)%nat
                  then Err (branch_error then_depth (depth_after_cond + 1))
                  else
                    let? else_depth := check_segment fuel ops (else_op_idx + 1) end_op_idx depth_after_cond in
                    if negb (else_depth =? depth_after_cond + 1)%nat
                    then Err (branch_error else_depth (depth_after_cond + 1))
                    else check_segment fuel ops (end_op_idx + 1) end_ (depth_after_cond + 1)
            | Some _ => Err Unbalanced
            end
      | Some (Op.CondElse _) | Some Op.CondEnd => Err Unbalanced
      | Some (Op.Store _) =>
        if (depth <? 1)%nat then Err MissingOperand else check_segment fuel ops (i + 1) end_ (depth - 1)
      | Some op =>
        let need := arity op in
        if (depth <? need)%nat then Err MissingOperand else check_segment fuel ops (i + 1) end_ (depth - need + 1)
      end
  end.

(** Every iteration and every branch shortens the range. *)
Definition check_arity (ops : list Op) : outcome CalcError unit :=
  let? depth := check_segment (S (length ops)) ops 0 (length ops) 0 in
  match depth with
  | O => match ops with [] => Ok tt | _ => Err MissingOperand end
  | 1%nat => Ok tt
  | _ => Err ExtraOperand
  end.

Definition finish (toks : list Token) (st : St) : outcome CalcError (list Op) :=
  let? out := unwind_all MissingOperand (stack st) (out st) in
  if expect_operand st && negb (bool_decide (toks = [])) then Err MissingOperand
  else if (MAX_OPS <? length out)%nat then Err TooLong
  else let? _ := check_arity out in Ok out.

Definition compile (src : bytes) : outcome CalcError (list Op) :=
  let? tokens := lex src in
  let? st := steps tokens init in
  finish tokens st.

(** ** Which operands are used *)

Record ArgUsage : Type := mkUsage { inputs : Z; stores : Z }.

Fixpoint usage (ops : list Op) (u : ArgUsage) : ArgUsage :=
  match ops with
  | [] => u
  | Op.Arg i :: ops =>
    usage ops (mkUsage (Z.lor (inputs u) (Z.land (Z.shiftl 1 (Z.of_nat i)) (Z.lxor u32_max (stores u)))) (stores u))
  | Op.Store i :: ops => usage ops (mkUsage (inputs u) (Z.lor (stores u) (Z.shiftl 1 (Z.of_nat i))))
  | _ :: ops => usage ops u
  end.

Definition arg_usage (ops : list Op) : ArgUsage := usage ops (mkUsage 0 0).

End Calc.
