(* ===== verification/CalcParse.v ===== *)
(** * CALC expressions: what the compiler produces

    The compiler returns code or an error for every text, and its code keeps the
    invariant the evaluator relies on: operands are in range, jumps land behind
    their markers, and no store lies between a jump and its target. *)

From Stdlib Require Import ZArith.
From S2P Require Import Prelude Utf8 Wire PvdTypes NtTypes F64 Text Calc.

Local Open Scope Z_scope.

Module CalcParse.
Import Calc.
Import Op(Op).
Import Token(Token).
Import Frame(Frame).

(** ** Lexing *)

Ltac or_cases :=
  repeat match goal with H : (_ || _) = true |- _ => apply orb_true_iff in H as [H|H] end; bool_to_prop; lia.

Definition ascii (c : Z) : Prop := 0 <= c < 128.

Lemma valid_cons_ascii c s : ascii c -> Utf8.from_utf8 (c :: s) = Utf8.from_utf8 s.
Proof. intros [? ?]. cbn [Utf8.from_utf8]. destruct (Z.ltb_spec c 0x80); [done|lia]. Qed.

Lemma valid_app_ascii l s : Forall ascii l -> Utf8.from_utf8 (l ++ s) = Utf8.from_utf8 s.
Proof. induction 1 as [|c l Hc _ IH]; [done|]. cbn [app]. now rewrite valid_cons_ascii. Qed.

Lemma valid_drop l n s : Forall ascii (take n l) -> l = s -> Utf8.from_utf8 s = true -> Utf8.from_utf8 (drop n s) = true.
Proof. intros H <- Hv. rewrite <-(take_drop n l) in Hv. now rewrite valid_app_ascii in Hv. Qed.

(** Behind ASCII a valid text continues at the start of a character. *)
Lemma str_from_ok {E} src i :
  Utf8.from_utf8 (drop i src) = true -> (i <= length src)%nat -> @str_from E src i = Ok (drop i src).
Proof.
  intros Hv Hl. unfold str_from. destruct i as [|i]; [done|]. destruct (src !! S i) as [b|] eqn:E1.
  - erewrite drop_S in Hv by eassumption. destruct (Utf8.is_cont b) eqn:Hc; [|done]. exfalso. revert Hv Hc.
    cbn [Utf8.from_utf8]. unfold Utf8.is_cont, Utf8.in_range. intros Hv Hc. bool_to_prop.
    repeat match type of Hv with context [?a <? ?b] => destruct (Z.ltb_spec a b); [lia|]
      | context [?a <=? ?b] => destruct (Z.leb_spec a b); [lia|] end. done.
  - apply lookup_ge_None in E1. replace (S i) with (length src) by lia. rewrite Nat.eqb_refl, drop_ge; done.
Qed.

Lemma run_len_le p s : (run_len p s <= length s)%nat.
Proof. induction s as [|c s IH]; cbn [run_len length]; [lia|]. destruct (p c); lia. Qed.

Lemma run_len_all p s : Forall (fun c => p c = true) (take (run_len p s) s).
Proof. induction s as [|c s IH]; cbn [run_len]; [constructor|]. destruct (p c) eqn:E; cbn; constructor; auto. Qed.

Lemma ascii_of (p : Z -> bool) l : (forall c, p c = true -> ascii c) -> Forall (fun c => p c = true) l -> Forall ascii l.
Proof. intros H Hl. eapply Forall_impl; [exact Hl|auto]. Qed.

Lemma digit_ascii c : is_ascii_digit c = true -> ascii c.
Proof. unfold is_ascii_digit, ascii. intros. bool_to_prop. lia. Qed.
Lemma hex_ascii c : is_ascii_hexdigit c = true -> ascii c.
Proof.
  unfold is_ascii_hexdigit, is_ascii_digit, ascii. intros. or_cases.
Qed.
Lemma word_ascii c : is_ascii_alphanumeric c || (c =? 95) = true -> ascii c.
Proof.
  unfold is_ascii_alphanumeric, is_ascii_alphabetic, is_ascii_upper, is_ascii_lower, is_ascii_digit, ascii. intros.
  or_cases.
Qed.

(** A run of ASCII that grows by one more run. *)
Definition ascii_upto (b : bytes) (n : nat) : Prop := (n <= length b)%nat /\ Forall ascii (take n b).

Lemma upto_app b n m : ascii_upto b n -> ascii_upto (drop n b) m -> ascii_upto b (n + m).
Proof.
  intros [H1 H2] [H3 H4]. rewrite length_drop in H3. split; [lia|].
  rewrite <-(take_drop n b) at 1. rewrite take_app_add' by (rewrite length_take; lia). now apply Forall_app.
Qed.

Lemma upto_run p b : (forall c, p c = true -> ascii c) -> ascii_upto b (run_len p b).
Proof. intros H. split; [apply run_len_le|]. eapply ascii_of; [exact H|apply run_len_all]. Qed.

Lemma upto_one b n c : b !! n = Some c -> ascii c -> ascii_upto (drop n b) 1.
Proof. intros H Hc. erewrite drop_S by eassumption. split; cbn; [lia|]. repeat constructor; done || apply Hc. Qed.

Lemma upto_step b n c : ascii_upto b n -> b !! n = Some c -> ascii c -> ascii_upto b (n + 1).
Proof. intros H Hc Ha. apply upto_app; [done|]. eapply upto_one; eassumption. Qed.

Lemma number_end_upto b : ascii_upto b (number_end b).
Proof.
  unfold number_end. set (d := run_len is_ascii_digit b).
  assert (Hd : ascii_upto b d) by (apply upto_run, digit_ascii).
  match goal with |- context [if (?e =? 0)%nat then _ else _] => set (end_ := e) end.
  assert (He : ascii_upto b end_).
  { unfold end_. destruct (b !! d) as [c|] eqn:E; [|done].
    destruct (decide (c = 46)) as [->|]; [|destruct c as [|p|p]; try done; repeat (destruct p; try done)].
    cbv zeta. destruct (_ || _); [|done]. apply upto_app; [|apply upto_run, digit_ascii].
    eapply upto_step; [done..|]. unfold ascii. lia. }
  clearbody end_. destruct (end_ =? 0)%nat; [split; cbn; [lia|constructor]|].
  destruct (b !! end_) as [c|] eqn:Ec; [|done]. destruct ((c =? 101) || (c =? 69)) eqn:Eb; [|done].
  assert (H1 : ascii_upto b (end_ + 1)).
  { eapply upto_step; [done..|]. unfold ascii. or_cases. }
  cbv zeta. match goal with |- context [(?a <? _)%nat] => set (at_ := a) end.
  assert (Ha : ascii_upto b at_).
  { unfold at_. destruct (b !! (end_ + 1)%nat) as [s|] eqn:Es; [|done]. destruct ((s =? 43) || (s =? 45)) eqn:Eq; [|done].
    replace (end_ + 2)%nat with (end_ + 1 + 1)%nat by lia. eapply upto_step; [done..|]. unfold ascii. or_cases. }
  clearbody at_. destruct (_ <? _)%nat; [|done]. apply upto_app; [done|apply upto_run, digit_ascii].
Qed.

Lemma starts_with_take p s : starts_with p s = true -> take (length p) s = p /\ (length p <= length s)%nat.
Proof.
  revert s. induction p as [|a p IH]; intros s; [intros _; split; [done|cbn; lia]|].
  destruct s as [|b s]; cbn; [done|]. intros H. bool_to_prop. apply IH in H0 as [-> ?]. subst. split; [done|lia].
Qed.

Lemma lex_number_upto s v n : lex_number s = Some (v, n) -> (0 < n)%nat /\ ascii_upto s n.
Proof.
  unfold lex_number. destruct (_ || _) eqn:E.
  - set (r := drop 2 s). pose proof (upto_run _ r hex_ascii) as Hr.
    destruct (Nat.eqb_spec (run_len is_ascii_hexdigit r) 0); [done|]. destruct (from_hex _); [|done].
    intros [= _ <-]. split; [lia|]. apply (upto_app s 2 (run_len is_ascii_hexdigit r)); [|done].
    apply orb_true_iff in E as [E|E]; apply starts_with_take in E as [E ?]; (split; [done|]);
      match type of E with _ = ?w => replace (take 2 s) with w by (symmetry; exact E) end;
      repeat constructor; unfold ascii; cbn; lia.
  - pose proof (number_end_upto s). destruct (Nat.eqb_spec (number_end s) 0); [done|].
    destruct (Text.parse_f64 _); [|done]. intros [= _ <-]. split; [lia|done].
Qed.

Definition tok_ok (t : Token) : Prop := match t with Token.Arg i => (i < 21)%nat | _ => True end.

(** What lexing one token at a boundary gives. *)
Definition lexed (src : bytes) (i : nat) (r : outcome CalcError (list Token * nat)) : Prop :=
  match r with
  | Ok (toks, j) => Forall tok_ok toks /\ (i < j)%nat /\ ascii_upto (drop i src) (j - i)
  | Err _ => True
  | _ => False
  end.

Lemma ops_ascii : Forall (fun s => Forall ascii s /\ (0 < length s)%nat) OPS.
Proof. vm_compute. repeat (constructor; [split; [repeat constructor; done|lia]|]). constructor. Qed.

Lemma lex_word src i c :
  Utf8.from_utf8 (drop i src) = true -> src !! i = Some c -> is_ascii_alphabetic c = true ->
  let len := run_len (fun c => is_ascii_alphanumeric c || (c =? 95)) (drop i src) in
  (0 < len)%nat /\ ascii_upto (drop i src) len /\ @str_from CalcError src (i + len) = Ok (drop (i + len) src).
Proof.
  intros Hv Hc Ha len. assert (Hu : ascii_upto (drop i src) len) by apply upto_run, word_ascii.
  assert (Hl := lookup_lt_Some _ _ _ Hc). repeat split; try apply Hu.
  - unfold len. erewrite drop_S by eassumption. cbn [run_len]. unfold is_ascii_alphanumeric. rewrite Ha. cbn. lia.
  - destruct Hu as [Hu1 Hu2]. rewrite length_drop in Hu1. apply str_from_ok; [|lia].
    rewrite <-drop_drop. eapply valid_drop; [exact Hu2|done|done].
Qed.

Lemma lex_step_ok src i c :
  Utf8.from_utf8 (drop i src) = true -> src !! i = Some c -> lexed src i (lex_step src i c).
Proof.
  intros Hv Hc. assert (Hl := lookup_lt_Some _ _ _ Hc). unfold lex_step. rewrite (str_from_ok src i) by (done || lia).
  destruct (is_ascii_whitespace c) eqn:Ew.
  { split; [constructor|split; [lia|]]. replace (S i - i)%nat with 1%nat by lia. eapply upto_one; [done|].
    unfold ascii, is_ascii_whitespace in *. or_cases. }
  destruct (_ || _) eqn:En; clear En.
  { cbn [bind_outcome]. destruct (lex_number _) as [[v n]|] eqn:E; [|done]. apply lex_number_upto in E as [? ?].
    split; [repeat constructor|split; [lia|]]. now replace (i + n - i)%nat with n by lia. }
  destruct (is_ascii_alphabetic c) eqn:Ea.
  { destruct (lex_word src i c) as (H1 & H2 & H3); [done..|]. cbv zeta. rewrite H3. cbn [bind_outcome].
    set (len := run_len _ _) in *.
    assert (Hj : (i < i + len)%nat /\ ascii_upto (drop i src) (i + len - i))
      by (split; [lia|]; now replace (i + len - i)%nat with len by lia).
    destruct (to_ascii_uppercase _) as [|ch [|]]; try (split; [repeat constructor|done]).
    destruct ((65 <=? ch) && (ch <=? 85)) eqn:E; (split; [|done]); (constructor; [|constructor]); cbn; [|done]. bool_to_prop. lia. }
  cbn [bind_outcome]. destruct (find _ OPS) as [sym|] eqn:E; [|done]. apply find_some in E as [Hin Hs].
  apply starts_with_take in Hs as [Hs Hn].
  assert (H : Forall ascii sym /\ (0 < length sym)%nat)
    by (pose proof ops_ascii as HF; rewrite List.Forall_forall in HF; auto).
  split; [repeat constructor|split; [lia|]]. replace (i + length sym - i)%nat with (length sym) by lia.
  split; [done|]. rewrite Hs. apply H.
Qed.

(** Lexing a [str] returns tokens with operands in range, or an error. *)
Lemma lex_from_ok fuel src : forall i toks,
  Utf8.from_utf8 (drop i src) = true -> (i <= length src < fuel + i)%nat -> Forall tok_ok toks ->
  match lex_from fuel src i toks with Ok l => Forall tok_ok l | Err _ => True | _ => False end.
Proof.
  induction fuel as [|fuel IH]; intros i toks Hv Hf Ht; cbn [lex_from]; [lia|].
  destruct (src !! i) as [c|] eqn:E; [|done]. pose proof (lex_step_ok src i c Hv E) as Hs.
  destruct (lex_step src i c) as [[l j]| | |]; cbn [bind_outcome lexed] in *; try done.
  destruct Hs as (Hl & Hj & Hu & Ha). rewrite length_drop in Hu. apply IH; [|lia|now apply Forall_app].
  replace j with (i + (j - i))%nat by lia. rewrite <-drop_drop. eapply valid_drop; eauto.
Qed.

Lemma lex_ok src :
  Utf8.from_utf8 src = true -> match lex src with Ok l => Forall tok_ok l | Err _ => True | _ => False end.
Proof. intros H. apply lex_from_ok; [done|lia|constructor]. Qed.

(** ** The invariant of the code and the operator stack *)

Definition is_cond (op : Op) : bool :=
  match op with Op.CondIf _ | Op.CondElse _ | Op.CondEnd => true | _ => false end.
Definition is_store (op : Op) : bool := match op with Op.Store _ => true | _ => false end.
Definition jump_target (op : Op) : option nat :=
  match op with Op.CondIf t | Op.CondElse t => Some t | _ => None end.
Definition op_ok (op : Op) : Prop := match op with Op.Arg i | Op.Store i => (i < 21)%nat | _ => True end.

(** No store behind [i], a marker at [i]. *)
Definition clear_after (i : nat) (out : list Op) : Prop :=
  forall k op, (i < k)%nat -> out !! k = Some op -> is_store op = false.
Definition cond_at (out : list Op) (i : nat) : Prop := exists op, out !! i = Some op /\ is_cond op = true.

(** A jump that has its target lands behind a marker and skips no store. *)
Definition jumps_clear (out : list Op) : Prop :=
  forall i op t, out !! i = Some op -> jump_target op = Some t -> t <> 0%nat ->
  cond_at out (t - 1) /\ forall k op, (i < k < t)%nat -> out !! k = Some op -> is_store op = false.

Definition code_ok (out : list Op) : Prop := Forall op_ok out /\ jumps_clear out.

Definition frame_ok (out : list Op) (f : Frame) : Prop :=
  match f with
  | Frame.Op op => op_ok op /\ is_cond op = false
  | Frame.Paren => True
  | Frame.CondHead i => cond_at out i /\ clear_after i out
  | Frame.CondTail i e => (i < e)%nat /\ cond_at out e /\ clear_after i out
  | Frame.Func op => op_ok op /\ is_cond op = false /\ is_store op = false
  end.

(** Below a pending store there are only open conditionals. *)
Fixpoint stores_top (stack : list Frame) : Prop :=
  match stack with
  | [] => True
  | f :: stack =>
    match f with
    | Frame.Op (Op.Store _) => forallb is_cond_head stack = true
    | _ => stores_top stack
    end
  end.

Definition ok (out : list Op) (stack : list Frame) : Prop :=
  code_ok out /\ Forall (frame_ok out) stack /\ stores_top stack.

Lemma cond_heads_top stack : forallb is_cond_head stack = true -> stores_top stack.
Proof. induction stack as [|[] stack IH]; cbn; try done; auto. Qed.

Lemma stores_top_tail f stack : stores_top (f :: stack) -> stores_top stack.
Proof. destruct f as [[]| | | |]; cbn; auto using cond_heads_top. Qed.

(** *** Growing the code *)

Lemma cond_at_app out l i : cond_at out i -> cond_at (out ++ l) i.
Proof. intros (op & H & ?). exists op. split; [|done]. rewrite lookup_app_l; [done|]. by eapply lookup_lt_Some. Qed.

Lemma cond_at_snoc out op : is_cond op = true -> cond_at (out ++ [op]) (length out).
Proof. intros H. exists op. by rewrite list_lookup_middle. Qed.

Lemma lookup_snoc_inv {A} (l : list A) x k y : (l ++ [x]) !! k = Some y -> l !! k = Some y \/ k = length l /\ y = x.
Proof.
  intros H. apply lookup_app_Some in H as [H|[Hk H]]; [by left|right].
  apply list_lookup_singleton_Some in H as [? <-]. split; [lia|done].
Qed.

Lemma clear_after_push i out op : clear_after i out -> is_store op = false -> clear_after i (out ++ [op]).
Proof. intros H Ho k o Hk Hl. apply lookup_snoc_inv in Hl as [Hl|[_ ->]]; [by eapply H|done]. Qed.

(** Appending an operation that is no jump; stores are allowed, since targets do
    not exceed the code. *)
Lemma code_push out op : code_ok out -> op_ok op -> jump_target op = None \/ jump_target op = Some 0%nat -> code_ok (out ++ [op]).
Proof.
  intros [Hf Hj] Ho Ht. split; [apply Forall_app; split; [done|by constructor]|].
  intros i o t Hi Hto Hn. apply lookup_snoc_inv in Hi as [Hi|[_ ->]]; [|destruct Ht; congruence].
  destruct (Hj i o t Hi Hto Hn) as [Hc Hs]. split; [now apply cond_at_app|]. intros k o' Hk Hl.
  apply lookup_snoc_inv in Hl as [Hl|[-> ->]]; [by eapply Hs|]. destruct Hc as (? & Hc & _).
  apply lookup_lt_Some in Hc. lia.
Qed.

Lemma frame_push out op f : is_store op = false -> frame_ok out f -> frame_ok (out ++ [op]) f.
Proof.
  intros Ho. destruct f; cbn; auto.
  - intros [? ?]. auto using cond_at_app, clear_after_push.
  - intros (? & ? & ?). auto using cond_at_app, clear_after_push.
Qed.

Lemma frames_push out op stack : is_store op = false -> Forall (frame_ok out) stack -> Forall (frame_ok (out ++ [op])) stack.
Proof. intros Ho H. eapply Forall_impl; [exact H|]. intros f. by apply frame_push. Qed.

(** *** Overwriting a marker *)

Lemma set_at_ok {E} (out : list Op) i x : (i < length out)%nat -> @set_at E _ out i x = Ok (<[i := x]> out).
Proof. intros H. unfold set_at. destruct (Nat.ltb_spec i (length out)); [done|lia]. Qed.

Lemma lookup_set_store (out : list Op) i x k op :
  is_store x = false -> <[i := x]> out !! k = Some op -> is_store op = true -> out !! k = Some op.
Proof. intros Hx Hk Hs. apply list_lookup_insert_Some in Hk as [(_ & <- & _)|[_ Hk]]; congruence. Qed.

Lemma clear_after_set i out j x : is_store x = false -> clear_after i out -> clear_after i (<[j := x]> out).
Proof. intros Hx H k op Hk Hl. destruct (is_store op) eqn:E; [|done]. rewrite <-E. eauto using lookup_set_store. Qed.

Lemma cond_at_set out i j x : is_cond x = true -> cond_at out i -> cond_at (<[j := x]> out) i.
Proof.
  intros Hx (op & Hi & Hc). destruct (decide (i = j)) as [->|]; [exists x|exists op].
  - rewrite list_lookup_insert_eq; [done|]. by eapply lookup_lt_Some.
  - by rewrite list_lookup_insert_ne.
Qed.

Lemma cond_not_store x : is_cond x = true -> is_store x = false.
Proof. by destruct x. Qed.

Lemma frame_set out i x f : is_cond x = true -> frame_ok out f -> frame_ok (<[i := x]> out) f.
Proof.
  intros Hx. pose proof (cond_not_store x Hx). destruct f; cbn; auto.
  - intros [? ?]. auto using cond_at_set, clear_after_set.
  - intros (? & ? & ?). auto using cond_at_set, clear_after_set.
Qed.

(** Setting the target of a jump. *)
Lemma code_set out i x t :
  code_ok out -> is_cond x = true -> jump_target x = Some t -> t <> 0%nat ->
  cond_at out (t - 1) -> clear_after i out -> code_ok (<[i := x]> out).
Proof.
  intros [Hf Hj] Hx Ht Hn Hc Ha. pose proof (cond_not_store x Hx) as Hs. split.
  - apply Forall_insert; [done|]. by destruct x.
  - intros j o t' Hi Hto Hn'. destruct (decide (i = j)) as [<-|Hne].
    + apply list_lookup_insert_Some in Hi as [(_ & <- & _)|[? ?]]; [|done]. simplify_eq.
      split; [by apply cond_at_set|]. intros k op [? _] Hl. by eapply (clear_after_set i out i x).
    + rewrite list_lookup_insert_ne in Hi by done. destruct (Hj j o t' Hi Hto Hn') as [H1 H2].
      split; [by apply cond_at_set|]. intros k op Hk Hl. destruct (is_store op) eqn:E; [|done]. rewrite <-E.
      eauto using lookup_set_store.
Qed.

(** ** The loops over the stack *)

Lemma cond_at_lt out i : cond_at out i -> (i < length out)%nat.
Proof. intros (? & H & _). by eapply lookup_lt_Some. Qed.

Lemma clear_after_le i j out : (i <= j)%nat -> clear_after i out -> clear_after j out.
Proof. intros Hij H k op Hk. apply H. lia. Qed.

Lemma frames_set out i x stack : is_cond x = true -> Forall (frame_ok out) stack -> Forall (frame_ok (<[i := x]> out)) stack.
Proof. intros Ho H. eapply Forall_impl; [exact H|]. intros f. by apply frame_set. Qed.

(** A completed conditional is closed, without a panic. *)
Lemma finalize_ok out i e stack :
  ok out (Frame.CondTail i e :: stack) -> exists out', finalize_cond out i e = Ok out' /\ ok out' stack.
Proof.
  intros (Hc & Hf & Hs). apply Forall_cons in Hf as [(Hb & He & Ha) Hf]. pose proof (cond_at_lt _ _ He).
  set (o1 := out ++ [Op.CondEnd]). assert (Hl1 : length o1 = S (length out)) by (unfold o1; rewrite length_app; cbn; lia).
  set (o2 := <[i := Op.CondIf (e + 1)]> o1). assert (Hl2 : length o2 = S (length out)) by (unfold o2; now rewrite length_insert).
  exists (<[e := Op.CondElse (length o2)]> o2). split.
  { unfold finalize_cond. fold o1. rewrite set_at_ok by lia. cbn [bind_outcome]. fold o2. apply set_at_ok. lia. }
  assert (Ha1 : clear_after i o1) by (by apply clear_after_push).
  assert (Hc1 : code_ok o1) by (apply code_push; cbn; auto).
  assert (He1 : cond_at o1 e) by (by apply cond_at_app).
  assert (Hc2 : code_ok o2).
  { apply (code_set o1 i _ (e + 1)); try done; [lia|]. by replace (e + 1 - 1)%nat with e by lia. }
  split; [|split; [|done]].
  - apply (code_set o2 e _ (length o2)); try done; [lia| |].
    + unfold o2 at 1. apply cond_at_set; [done|]. exists Op.CondEnd. split; [|done].
      unfold o1. rewrite lookup_app_r by lia. by replace (length o2 - 1 - length out)%nat with 0%nat by lia.
    + apply (clear_after_le i); [lia|]. by apply clear_after_set.
  - apply frames_set; [done|]. apply frames_set; [done|]. by apply frames_push.
Qed.

(** An operation that is not a store is emitted; a store is the last one. *)
Lemma emit_ok out op stack : ok out (Frame.Op op :: stack) -> is_store op = false -> ok (out ++ [op]) stack.
Proof.
  intros (Hc & Hf & Hs) H1. apply Forall_cons in Hf as [[Ho H2] Hf]. split; [|split].
  - apply code_push; [done..|]. left. by destruct op.
  - by apply frames_push.
  - by eapply stores_top_tail.
Qed.

Lemma emit_store_ok out i stack :
  ok out (Frame.Op (Op.Store i) :: stack) -> forallb is_cond_head stack = true /\ ok (out ++ [Op.Store i]) [].
Proof.
  intros (Hc & Hf & Hs). apply Forall_cons in Hf as [[Ho H2] Hf]. split; [done|].
  split; [|split; done || constructor]. apply code_push; auto.
Qed.

(** A call that returns, with a result that satisfies [P], or fails. *)
Definition returns {A} (P : A -> Prop) (r : outcome CalcError A) : Prop :=
  match r with Ok x => P x | Err _ => True | _ => False end.

Lemma returns_bind {A B} (P : A -> Prop) (Q : B -> Prop) m (k : A -> outcome CalcError B) :
  returns P m -> (forall a, P a -> returns Q (k a)) -> returns Q (bind_outcome m k).
Proof. destruct m; cbn; auto. Qed.

Lemma pop_while_ok prec assoc : (match assoc with Op.Left => 1 <= prec | Op.Right => True end)%nat ->
  forall stack out, ok out stack -> let '(stack', out') := pop_while stack out prec assoc in ok out' stack'.
Proof.
  intros Hp stack. induction stack as [|[top| | | |] stack IH]; intros out Ho; try exact Ho. cbn [pop_while]. cbv zeta.
  destruct (match assoc with Op.Left => _ | Op.Right => _ end) eqn:E; [|exact Ho]. apply IH, emit_ok; [done|].
  destruct top; try done. exfalso. cbn in E. destruct assoc; [apply Nat.leb_le in E; lia|done].
Qed.

Lemma unwind_paren_ok : forall stack out, ok out stack -> returns (fun '(s, o) => ok o s) (unwind_paren stack out).
Proof.
  intros stack. induction stack as [|f stack IH]; intros out Ho; [done|]. destruct f as [op| |i|i e|op]; cbn [unwind_paren]; try done.
  - destruct (is_store op) eqn:E; [|by apply IH, emit_ok]. destruct op; try done.
    apply emit_store_ok in Ho as [Hh _]. by destruct stack as [|[] stack].
  - destruct Ho as (? & Hf & Hs). apply Forall_cons in Hf as [_ Hf]. cbn. split; [done|split; done].
  - destruct (finalize_ok _ _ _ _ Ho) as (o & -> & Ho'). by apply IH.
Qed.

Lemma unwind_comma_ok : forall stack out, ok out stack -> returns (fun '(s, o) => ok o s) (unwind_comma stack out).
Proof.
  intros stack. induction stack as [|f stack IH]; intros out Ho; [done|]. destruct f as [op| |i|i e|op]; cbn [unwind_comma]; try done.
  - destruct (is_store op) eqn:E; [|by apply IH, emit_ok]. destruct op; try done.
    apply emit_store_ok in Ho as [Hh _]. by destruct stack as [|[] stack].
  - destruct (finalize_ok _ _ _ _ Ho) as (o & -> & Ho'). by apply IH.
Qed.

Lemma unwind_all_ok err : forall stack out, ok out stack -> returns code_ok (unwind_all err stack out).
Proof.
  intros stack. induction stack as [|f stack IH]; intros out Ho; [apply Ho|]. destruct f as [op| |i|i e|op]; cbn [unwind_all]; try done.
  - destruct (is_store op) eqn:E; [|by apply IH, emit_ok]. destruct op; try done.
    apply emit_store_ok in Ho as [Hh Ho]. destruct stack as [|[] stack]; try done. apply Ho.
  - destruct (finalize_ok _ _ _ _ Ho) as (o & -> & Ho'). by apply IH.
Qed.

(** *** The loop of [:] *)

Lemma cond_close_ok out i stack pending :
  ok out (Frame.CondHead i :: stack) -> Forall (frame_ok out) pending -> stores_top (pending ++ stack) ->
  ok (out ++ [Op.CondElse 0]) (Frame.CondTail i (length out) :: pending ++ stack).
Proof.
  intros (Hc & Hf & _) Hp Hs. apply Forall_cons in Hf as [[Hi Ha] Hf]. split; [|split; [|done]].
  - apply code_push; cbn; auto.
  - constructor; [split; [by apply cond_at_lt|split]|].
    + by apply cond_at_snoc.
    + by apply clear_after_push.
    + apply frames_push; [done|]. by apply Forall_app.
Qed.

(** A store above an open conditional ends below the closed one. *)
Lemma unwind_store_ok i : forall stack out, ok out (Frame.Op (Op.Store i) :: stack) ->
  returns (fun '(s, o) => ok o s) (unwind_cond stack out [Op.Store i]).
Proof.
  intros stack out (Hc & Hf & Hs). cbn in Hs. destruct stack as [|[] stack]; try done.
  apply Forall_cons in Hf as [Hi Hf]. cbn. apply (cond_close_ok out _ stack [Frame.Op (Op.Store i)]).
  - split; [done|split; [done|]]. by apply cond_heads_top.
  - by constructor.
  - cbn in *. done.
Qed.

Lemma unwind_cond_ok : forall stack out, ok out stack -> returns (fun '(s, o) => ok o s) (unwind_cond stack out []).
Proof.
  intros stack. induction stack as [|f stack IH]; intros out Ho; [done|].
  destruct f as [op| |i|i e|op]; cbn [unwind_cond]; try done.
  - destruct (is_store op) eqn:E; [destruct op; try done; by apply unwind_store_ok|].
    assert (H : returns (fun '(s, o) => ok o s) (unwind_cond stack (out ++ [op]) [])) by (by apply IH, emit_ok).
    by destruct op.
  - cbn. apply (cond_close_ok out i stack []); [done|constructor|]. destruct Ho as (_ & _ & Hs). exact Hs.
  - destruct (finalize_ok _ _ _ _ Ho) as (o & -> & Ho'). by apply IH.
Qed.

(** ** The compiler *)

Definition St_ok (st : St) : Prop := ok (out st) (stack st).

(** The arms of a table satisfy what all its entries do. *)
Lemma arm_in {A} (P : A -> Prop) tbl name a : Forall (fun e => P (snd e)) tbl -> arm tbl name = Some a -> P a.
Proof.
  induction tbl as [|[w x] tbl IH]; cbn; [done|]. intros H. apply Forall_cons in H as [? ?].
  destruct (is_sym name w); [by intros [= <-]|auto].
Qed.

Lemma push_ok out f stack : ok out stack -> frame_ok out f -> match f with Frame.Op op => is_store op = false | _ => True end ->
  ok out (f :: stack).
Proof. intros (? & ? & Hs) Hf Ht. split; [done|split; [by constructor|]]. by destruct f as [[]| | | |]. Qed.

Lemma emit_St op st : St_ok st -> op_ok op -> is_cond op = false -> is_store op = false -> St_ok (emit op st).
Proof. intros Ho H1 H2 H3. apply emit_ok; [|done]. apply push_ok; done. Qed.

(** The operators of the tables: a real precedence, no marker, no store. *)
Definition operator (op : Op) : Prop :=
  op_ok op /\ is_cond op = false /\ is_store op = false /\ (1 <= fst (Op.precedence op))%nat.

Lemma push_operator_ok op st : St_ok st -> operator op -> St_ok (push_operator op st).
Proof.
  intros Ho (H1 & H2 & H3 & H4). unfold push_operator. destruct (Op.precedence op) as [prec assoc]. cbn in H4.
  pose proof (pop_while_ok prec assoc) as Hp. specialize (Hp ltac:(destruct assoc; done || lia) _ _ Ho).
  destruct (pop_while _ _ _ _) as [s o]. apply push_ok; done.
Qed.

Lemma to_op_operator sym unary : returns operator (to_op sym unary).
Proof.
  unfold to_op. destruct (arm _ sym) as [op|] eqn:E; [|done]. revert E. apply (arm_in operator).
  destruct unary; repeat (constructor; [repeat split; cbn; lia|]); constructor.
Qed.

Lemma word_operator_operator name op : word_operator name = Some op -> operator op.
Proof. apply arm_in. repeat (constructor; [repeat split; cbn; lia|]); constructor. Qed.

Definition func_op (op : Op) : Prop := op_ok op /\ is_cond op = false /\ is_store op = false.

Lemma ident_to_op_func name : returns func_op (ident_to_op name).
Proof.
  unfold ident_to_op. destruct (arm _ name) as [op|] eqn:E; [|done]. revert E. apply (arm_in func_op).
  repeat (constructor; [done|]); constructor.
Qed.

Lemma on_ident_ok name st : St_ok st -> returns St_ok (on_ident name st).
Proof.
  intros Ho. unfold on_ident. destruct (constant name) as [v|]; [destruct (expect_operand st); [by apply emit_St|done]|].
  destruct (nullary_op name) as [op|] eqn:En.
  { destruct (expect_operand st); [|done]. revert En. apply (arm_in (fun op => St_ok (emit op st))).
    constructor; [by apply emit_St|constructor]. }
  destruct (word_operator name) as [op|] eqn:Ew.
  { destruct (Bool.eqb _ _); [|done]. apply push_operator_ok; [done|]. by eapply word_operator_operator. }
  destruct (expect_operand st); [|done]. eapply returns_bind; [apply ident_to_op_func|].
  intros op Hf. apply push_ok; done.
Qed.

Lemma with_count_ok op n : func_op op -> func_op (with_count op n).
Proof. by destruct op. Qed.

Lemma on_close_ok st : St_ok st -> returns St_ok (on_close st).
Proof.
  intros Ho. unfold on_close. eapply returns_bind; [by apply unwind_paren_ok|]. intros [s o] Hs.
  destruct s as [|[| | | |op] s]; try exact Hs. cbv zeta. destruct (_ =? _)%nat; [done|].
  destruct Hs as (Hc & Hf & Ht). apply Forall_cons in Hf as [Hop Hf].
  destruct (with_count_ok op (hd 0%nat (arg_counts st) + 1) Hop) as (H1 & H2 & H3).
  apply emit_ok; [|done]. by apply push_ok.
Qed.

Lemma on_question_ok st : St_ok st -> returns St_ok (on_question st).
Proof.
  intros Ho. unfold on_question. destruct (expect_operand st); [done|].
  pose proof (pop_while_ok 0 Op.Right I _ _ Ho) as Hp. destruct (pop_while _ _ _ _) as [s o].
  destruct Hp as (Hc & Hf & Hs). cbn. split; [|split; [constructor|done]].
  - apply code_push; cbn; auto.
  - split; [by apply cond_at_snoc|]. cbn. intros k op Hk Hl.
    apply lookup_lt_Some in Hl. rewrite length_app in Hl. cbn in Hl. lia.
  - by apply frames_push.
Qed.

(** Taking back the fetch in front of [:=]. *)
Lemma removelast_lookup {A} (l : list A) k x : removelast l !! k = Some x -> l !! k = Some x.
Proof.
  destruct l as [|y l] using rev_ind; [done|]. rewrite removelast_last. intros H.
  rewrite lookup_app_l; [done|]. by eapply lookup_lt_Some.
Qed.

Lemma cond_at_removelast l op i : is_cond op = false -> cond_at (l ++ [op]) i -> cond_at l i.
Proof. intros Ho (o & H & Hc). apply lookup_snoc_inv in H as [H|[_ ->]]; [by exists o|congruence]. Qed.

Lemma take_back_ok l i stack :
  ok (l ++ [Op.Arg i]) stack -> forallb is_cond_head stack = true -> ok l (Frame.Op (Op.Store i) :: stack).
Proof.
  intros ([Ho Hj] & Hf & Hs) Hh. apply Forall_app in Ho as [Ho Hi]. apply Forall_cons in Hi as [Hi _].
  assert (Hin : forall k o, l !! k = Some o -> (l ++ [Op.Arg i]) !! k = Some o)
    by (intros k o H; rewrite lookup_app_l; [done|by eapply lookup_lt_Some]).
  split; [split; [done|]|split; [constructor; [done|]|done]].
  - intros k o t Hk Ht Hn. destruct (Hj k o t (Hin k o Hk) Ht Hn) as [H1 H2].
    split; [by eapply (cond_at_removelast l (Op.Arg i))|]. eauto.
  - apply List.Forall_forall. intros f Hin'. rewrite List.Forall_forall in Hf. specialize (Hf f Hin').
    rewrite forallb_forall in Hh. specialize (Hh f Hin'). destruct f; try done. destruct Hf as [H1 H2].
    split; [by eapply (cond_at_removelast l (Op.Arg i))|]. intros k o Hk Hl. eauto.
Qed.

Lemma on_store_ok st : St_ok st -> returns St_ok (on_store st).
Proof.
  intros Ho. unfold on_store, St_ok in *. destruct (expect_operand st); [done|].
  destruct (forallb is_cond_head (stack st)) eqn:Eh; [|done]. cbn [negb].
  destruct (out st) as [|op l _] eqn:El using rev_ind; [done|]. rewrite last_snoc, removelast_last.
  destruct op; try done. by apply take_back_ok.
Qed.

Lemma on_op_ok sym st : St_ok st -> returns St_ok (on_op sym st).
Proof.
  intros Ho. unfold on_op. repeat match goal with |- context [is_sym sym ?w] => destruct (is_sym sym w) end.
  - unfold on_open. destruct (match stack st with Frame.Func _ :: _ => _ | _ => _ end) as [c s].
    by apply push_ok.
  - by apply on_close_ok.
  - by apply on_question_ok.
  - by apply on_store_ok.
  - unfold on_semicolon. destruct (expect_operand st); [done|]. eapply returns_bind; [by apply unwind_all_ok|].
    intros o Hc. split; [done|split; done || constructor].
  - unfold on_colon. destruct (expect_operand st); [done|]. eapply returns_bind; [by apply unwind_cond_ok|].
    by intros [s o].
  - unfold on_comma. eapply returns_bind; [by apply unwind_comma_ok|]. intros [s o] Hs. by destruct (arg_counts st).
  - eapply returns_bind; [apply to_op_operator|]. intros op Hop. by apply push_operator_ok.
Qed.

Lemma token_step_ok tok st : tok_ok tok -> St_ok st ->
  returns (fun st' => St_ok st' /\ (length (out st') <= MAX_OPS)%nat) (step tok st).
Proof.
  intros Ht Ho. unfold step. eapply (returns_bind St_ok).
  - destruct tok; cbn [on_token]; [by apply emit_St|by apply emit_St|by apply on_ident_ok|by apply on_op_ok].
  - intros st' H. destruct (Nat.ltb_spec MAX_OPS (length (out st'))); cbn; [done|]. split; [done|lia].
Qed.

Lemma steps_ok toks : Forall tok_ok toks -> forall st, St_ok st -> returns St_ok (steps toks st).
Proof.
  induction 1 as [|tok toks Ht _ IH]; intros st Ho; [exact Ho|]. cbn [steps].
  eapply returns_bind; [by apply token_step_ok|]. intros st' [H _]. by apply IH.
Qed.

(** ** The check returns *)

Lemma check_segment_total fuel ops : forall i end_ depth,
  (end_ <= length ops)%nat -> (end_ - i < fuel)%nat -> returns (fun _ => True) (check_segment fuel ops i end_ depth).
Proof.
  induction fuel as [|fuel IH]; intros i end_ depth He Hf; [lia|]. cbn [check_segment].
  destruct (Nat.leb_spec end_ i); [done|].
  destruct (ops !! i) as [op|] eqn:Ei; [|apply lookup_ge_None in Ei; lia].
  assert (Hgen : returns (fun _ => True)
    (if (depth <? Op.arity op)%nat then Err MissingOperand
     else check_segment fuel ops (i + 1) end_ (depth - Op.arity op + 1)))
    by (destruct (_ <? _)%nat; [done|apply IH; lia]).
  destruct op; try exact Hgen; try done.
  - rename else_target into t. destruct (depth <? 1)%nat; [done|]. destruct (_ || _) eqn:Eb; [done|].
    apply orb_false_iff in Eb as [Eb E3]. apply orb_false_iff in Eb as [E1 E2].
    apply Nat.eqb_neq in E1. apply Nat.ltb_ge in E2. apply Nat.leb_gt in E3.
    destruct (ops !! (t - 1)%nat) as [op|] eqn:Et; [|apply lookup_ge_None in Et; lia]. destruct op; try done.
    destruct (_ || _) eqn:Eb; [done|]. apply orb_false_iff in Eb as [Eb F3]. apply orb_false_iff in Eb as [F1 F2].
    apply Nat.eqb_neq in F1. apply Nat.ltb_ge in F2. apply Nat.leb_gt in F3.
    destruct (negb _); [done|]. cbv zeta.
    eapply returns_bind; [apply IH; lia|]. intros d _. destruct (negb _); [done|].
    eapply returns_bind; [apply IH; lia|]. intros d' _. destruct (negb _); [done|]. apply IH; lia.
  - destruct (depth <? 1)%nat; [done|]. apply IH; lia.
Qed.

(** ** What [compile] returns *)

(** Compiling a text returns an error, or code with operands and jumps in order,
    that the check has accepted and that has at most [MAX_OPS] operations. *)
Lemma compile_ok src : Utf8.from_utf8 src = true ->
  returns (fun ops => code_ok ops /\ (length ops <= MAX_OPS)%nat /\ check_arity ops = Ok tt) (compile src).
Proof.
  intros Hv. unfold compile. pose proof (lex_ok src Hv) as Hl. destruct (lex src) as [toks| | |]; try done.
  cbn [bind_outcome]. eapply returns_bind; [apply steps_ok; [done|]|].
  { split; [split; [constructor|done]|split; done || constructor]. }
  intros st Ho. unfold finish. eapply returns_bind; [by apply unwind_all_ok|]. intros o Hc.
  destruct (_ && _); [done|]. destruct (Nat.ltb_spec MAX_OPS (length o)); [done|].
  assert (Hr : returns (fun _ => True) (check_arity o)).
  { unfold check_arity. eapply returns_bind; [apply check_segment_total; lia|]. intros [|[|d]] _; by destruct o. }
  destruct (check_arity o) as [[]| | |] eqn:E; try done.
Qed.

End CalcParse.
