(* ===== verification/CalcEval.v ===== *)
(** * CALC expressions: the evaluator

    [spvirit-calc/src/eval.rs]: the loop over the code with its jumps, the
    operations on [f64], the random generator.  Arithmetic, comparison, rounding,
    square root and remainder are those of IEEE 754; the transcendental functions
    of the platform are a parameter.  A missing operand, an argument out of range
    and an underflow of [stack.len() - n] are panics. *)

From Stdlib Require Import ZArith Floats.SpecFloat.
From S2P Require Import Prelude Utf8 Wire PvdTypes NtTypes F64 Text Calc CalcParse.

Local Open Scope Z_scope.
Local Open Scope codec_scope.

Module CalcEval.
Import Calc.
Import Op(Op).

(** ** Arithmetic *)

(** The functions of the platform's mathematical library. *)
Record Libm : Type := mkLibm {
  powf : Z -> Z -> Z; atan2 : Z -> Z -> Z;
  exp : Z -> Z; log10 : Z -> Z; ln : Z -> Z;
  sin : Z -> Z; cos : Z -> Z; tan : Z -> Z; asin : Z -> Z; acos : Z -> Z; atan : Z -> Z;
  sinh : Z -> Z; cosh : Z -> Z; tanh : Z -> Z
}.

Definition fneg (a : Z) : Z := Z.lxor a (2 ^ 63).
Definition fmul (a b : Z) : Z := F64.of_spec (SFmul 53 1024 (F64.to_spec a) (F64.to_spec b)).
Definition fsqrt (a : Z) : Z := F64.of_spec (SFsqrt 53 1024 (F64.to_spec a)).
Definition is_infinite (a : Z) : bool := F64.abs a =? INFINITY.
Definition is_finite (a : Z) : bool := F64.abs a <? INFINITY.

(** [a.floor()], [a.ceil()]: a zero result keeps the sign. *)
Definition round_to_int (up : bool) (a : Z) : Z :=
  match F64.to_spec a with
  | S754_finite s m e =>
    if 0 <=? e then a
    else
      let q := Z.shiftr (Zpos m) (- e) in
      let exact := Z.shiftl q (- e) =? Zpos m in
      let q := if exact || eqb s up then q else q + 1 in
      if q =? 0 then F64.of_spec (S754_zero s) else Float.of_Z (if s then - q else q)
  | _ => a
  end.

(** [a as i32], [a as u32]: towards zero, saturating, NaN is 0. *)
Definition as_int (lo hi : Z) (a : Z) : Z :=
  match F64.to_spec a with
  | S754_zero _ | S754_nan => 0
  | S754_infinity s => if s then lo else hi
  | S754_finite s m e =>
    let q := if 0 <=? e then Z.shiftl (Zpos m) e else Z.shiftr (Zpos m) (- e) in
    Z.max lo (Z.min (if s then - q else q) hi)
  end.
Definition as_i32 : Z -> Z := as_int F64.i32_min F64.i32_max.
Definition as_u32 : Z -> Z := as_int 0 u32_max.

(** [a % b]: the remainder of the truncated quotient, with the sign of [a]. *)
Definition fmod (a b : Z) : Z :=
  match F64.to_spec a, F64.to_spec b with
  | S754_nan, _ | _, S754_nan | S754_infinity _, _ | _, S754_zero _ => NAN
  | S754_zero _, _ | _, S754_infinity _ => a
  | S754_finite s m e, S754_finite _ m' e' =>
    let low := Z.min e e' in
    let r := Z.shiftl (Zpos m) (e - low) mod Z.shiftl (Zpos m') (e' - low) in
    F64.of_spec (binary_normalize 53 1024 (if s then - r else r) low s)
  end.

(** [f64::min], [f64::max]: the other operand of a NaN. *)
Definition fmin (a b : Z) : Z := if Float.is_nan64 a then b else if F64.lt64 b a then b else a.
Definition fmax (a b : Z) : Z := if Float.is_nan64 a then b else if F64.lt64 a b then b else a.

Definition d2i (x : Z) : Z := if F64.lt64 x 0 then as_i32 x else to_signed 32 (as_u32 x).
Definition d2ui (x : Z) : Z := if F64.lt64 x 0 then as_i32 x mod 2 ^ 32 else as_u32 x.

(** ** Operations *)

Definition truth (b : bool) : Z := if b then Float.of_Z 1 else 0.
Definition nonzero (a : Z) : bool := negb (Float.eq64 a 0).
Definition half : Z := 0x3FE0000000000000.

(** [a.wrapping_shl(n)] on [i32]. *)
Definition wrapping_shl (a n : Z) : Z := to_signed 32 (Z.shiftl a n mod 2 ^ 32).

(** The value an operation pushes for the operands it popped, the deepest
    first; [None] for a wrong number of operands, and for other operations. *)

(** Arithmetic. *)
Definition arith_value (lm : Libm) (op : Op) (vs : list Z) : option Z :=
  match op, vs with
  | Op.Neg, [a] => Some (fneg a)
  | Op.Add, [a; b] => Some (F64.add a b)
  | Op.Sub, [a; b] => Some (F64.sub a b)
  | Op.Mul, [a; b] => Some (fmul a b)
  | Op.Div, [a; b] => Some (fdiv a b)
  | Op.Modulo, [a; b] =>
    let ib := as_i32 b in
    Some (if ib =? 0 then NAN else Float.of_Z (Z.rem (as_i32 a) ib))
  | Op.Pow, [a; b] => Some (powf lm a b)
  | _, _ => None
  end.

(** The algebraic and transcendental functions. *)
Definition func_value (lm : Libm) (op : Op) (vs : list Z) : option Z :=
  match op, vs with
  | Op.Abs, [a] => Some (F64.abs a)
  | Op.Sqrt, [a] => Some (fsqrt a)
  | Op.Exp, [a] => Some (exp lm a)
  | Op.Log10, [a] => Some (log10 lm a)
  | Op.Ln, [a] => Some (ln lm a)
  | Op.Ceil, [a] => Some (round_to_int true a)
  | Op.Floor, [a] => Some (round_to_int false a)
  | Op.Nint, [a] => Some (Float.of_Z (as_i32 (if Float.le64 0 a then F64.add a half else F64.sub a half)))
  | Op.Sin, [a] => Some (sin lm a)
  | Op.Cos, [a] => Some (cos lm a)
  | Op.Tan, [a] => Some (tan lm a)
  | Op.Asin, [a] => Some (asin lm a)
  | Op.Acos, [a] => Some (acos lm a)
  | Op.Atan, [a] => Some (atan lm a)
  | Op.Atan2, [a; b] => Some (atan2 lm b a)
  | Op.Fmod, [a; b] => Some (fmod a b)
  | Op.Sinh, [a] => Some (sinh lm a)
  | Op.Cosh, [a] => Some (cosh lm a)
  | Op.Tanh, [a] => Some (tanh lm a)
  | _, _ => None
  end.

(** The variadic functions and [ISINF]. *)
Definition fold_value (op : Op) (vs : list Z) : option Z :=
  match op, vs with
  | Op.Min n, vs =>
    if (length vs =? n)%nat
    then Some (if existsb Float.is_nan64 vs then NAN else fold_left fmin vs INFINITY) else None
  | Op.Max n, vs =>
    if (length vs =? n)%nat
    then Some (if existsb Float.is_nan64 vs then NAN else fold_left fmax vs NEG_INFINITY) else None
  | Op.IsInf, [a] => Some (truth (is_infinite a))
  | Op.IsNan n, vs => if (length vs =? n)%nat then Some (truth (existsb Float.is_nan64 vs)) else None
  | Op.Finite n, vs => if (length vs =? n)%nat then Some (truth (forallb is_finite vs)) else None
  | _, _ => None
  end.

(** Relational and logical operators. *)
Definition rel_value (op : Op) (vs : list Z) : option Z :=
  match op, vs with
  | Op.Gt, [a; b] => Some (truth (F64.lt64 b a))
  | Op.Ge, [a; b] => Some (truth (Float.le64 b a))
  | Op.Lt, [a; b] => Some (truth (F64.lt64 a b))
  | Op.Le, [a; b] => Some (truth (Float.le64 a b))
  | Op.Eq, [a; b] => Some (truth (Float.eq64 a b))
  | Op.Ne, [a; b] => Some (truth (negb (Float.eq64 a b)))
  | Op.AndL, [a; b] => Some (truth (nonzero a && nonzero b))
  | Op.OrL, [a; b] => Some (truth (nonzero a || nonzero b))
  | Op.NotL, [a] => Some (truth (Float.eq64 a 0))
  | _, _ => None
  end.

(** Bitwise operators, on 32-bit integers. *)
Definition bit_value (op : Op) (vs : list Z) : option Z :=
  match op, vs with
  | Op.AndB, [a; b] => Some (Float.of_Z (Z.land (d2i a) (d2i b)))
  | Op.OrB, [a; b] => Some (Float.of_Z (Z.lor (d2i a) (d2i b)))
  | Op.XorB, [a; b] => Some (Float.of_Z (Z.lxor (d2i a) (d2i b)))
  | Op.NotB, [a] => Some (Float.of_Z (Z.lnot (d2i a)))
  | Op.Shl, [a; b] => Some (Float.of_Z (wrapping_shl (d2i a) (Z.land (d2i b) 31)))
  | Op.Shr, [a; b] => Some (Float.of_Z (Z.shiftr (d2i a) (Z.land (d2i b) 31)))
  | Op.ShrLogic, [a; b] => Some (Float.of_Z (Z.shiftr (d2ui a) (Z.land (d2ui b) 31)))
  | _, _ => None
  end.

Definition value (lm : Libm) (op : Op) (vs : list Z) : option Z :=
  match op with
  | Op.Lit v => match vs with [] => Some v | _ => None end
  | Op.Neg | Op.Add | Op.Sub | Op.Mul | Op.Div | Op.Modulo | Op.Pow => arith_value lm op vs
  | Op.Min _ | Op.Max _ | Op.IsInf | Op.IsNan _ | Op.Finite _ => fold_value op vs
  | Op.Gt | Op.Ge | Op.Lt | Op.Le | Op.Eq | Op.Ne | Op.AndL | Op.OrL | Op.NotL => rel_value op vs
  | Op.AndB | Op.OrB | Op.XorB | Op.NotB | Op.Shl | Op.Shr | Op.ShrLogic => bit_value op vs
  | op => func_value lm op vs
  end.

(** ** The loop *)

(** The xorshift64* generator behind [RNDM]; a [u64] state. *)
Definition next_rndm (x : Z) : Z * Z :=
  let x := Z.lxor x (Z.shiftr x 12) in
  let x := Z.lxor x (Z.shiftl x 25 mod 2 ^ 64) in
  let x := Z.lxor x (Z.shiftr x 27) in
  let mixed := x * 0x2545F4914F6CDD1D mod 2 ^ 64 in
  (fdiv (Float.of_Z (Z.shiftr mixed 11)) (Float.of_Z (2 ^ 53 - 1)), x).

Section Run.
Context {R : Type} (lm : Libm) (draw : R -> Z * R).

(** The value stack with its top first, the operands and the generator. *)
Record Machine : Type := mkM { vals : list Z; args : list Z; rng : R }.

Definition push (v : Z) (m : Machine) : Machine := mkM (v :: vals m) (args m) (rng m).

(** One operation at [ip]: the next instruction and the machine. *)
Definition exec (op : Op) (ip : nat) (m : Machine) : outcome unit (nat * Machine) :=
  match op with
  | Op.Arg i => match args m !! i with Some v => Ok (S ip, push v m) | None => Panic end
  | Op.Rndm => let '(v, r) := draw (rng m) in Ok (S ip, mkM (v :: vals m) (args m) r)
  | Op.CondIf else_target =>
    match vals m with
    | cond :: s => Ok (if Float.eq64 cond 0 then else_target else S ip, mkM s (args m) (rng m))
    | [] => Panic
    end
  | Op.CondElse end_target => Ok (end_target, m)
  | Op.CondEnd => Ok (S ip, m)
  | Op.Store i =>
    match vals m with
    | v :: s => let? a := set_at (args m) i v in Ok (S ip, mkM s a (rng m))
    | [] => Panic
    end
  | op =>
    let n := Op.arity op in
    if (length (vals m) <? n)%nat then Panic
    else match value lm op (rev (take n (vals m))) with
         | Some v => Ok (S ip, mkM (v :: drop n (vals m)) (args m) (rng m))
         | None => Panic
         end
  end.

Fixpoint run_from (fuel : nat) (ops : list Op) (ip : nat) (m : Machine) : outcome unit Machine :=
  match fuel with
  | O => OutOfFuel
  | S fuel =>
    match ops !! ip with
    | None => Ok m
    | Some op => let? (ip, m) := exec op ip m in run_from fuel ops ip m
    end
  end.

(** Every jump goes forward. *)
Definition run (ops : list Op) (a : list Z) (r : R) : outcome unit (Z * list Z * R) :=
  let? m := run_from (S (length ops)) ops 0 (mkM [] a r) in
  Ok (hd NAN (vals m), args m, rng m).

End Run.
Arguments Machine : clear implicits.
Arguments mkM {R}.

Definition eval_with_rng {R} (lm : Libm) (draw : R -> Z * R) (ops : list Op) (a : list Z) (r : R) := run lm draw ops a r.
Definition eval (lm : Libm) (ops : list Op) (a : list Z) (r : Z) := run lm next_rndm ops a r.

Definition sample_libm : Libm :=
  let id x := x in mkLibm (fun x _ => x) (fun x _ => x) id id id id id id id id id id id id.

(** ** Evaluation returns *)

(** An operation that is applied to as many operands as it pops has a value. *)
Definition applies (op : Op) : bool :=
  match op with
  | Op.Arg _ | Op.Rndm | Op.CondIf _ | Op.CondElse _ | Op.CondEnd | Op.Store _ => false
  | _ => true
  end.

Lemma value_some lm op vs : applies op = true -> length vs = Op.arity op -> is_Some (value lm op vs).
Proof.
  intros Ha Hl. destruct op; try done; cbn [Op.arity] in Hl; cbn [value arith_value func_value fold_value rel_value bit_value];
    try (destruct vs as [|? [|? [|? ?]]]; try discriminate Hl; eexists; reflexivity);
    rewrite Hl, Nat.eqb_refl; eexists; reflexivity.
Qed.

(** The three ways the check passes an instruction. *)
Lemma check_segment_inv fuel ops i end_ d d' op :
  check_segment (S fuel) ops i end_ d = Ok d' -> (i < end_)%nat -> ops !! i = Some op ->
  (CalcParse.is_cond op = false /\ CalcParse.is_store op = false /\ (Op.arity op <= d)%nat /\
     check_segment fuel ops (i + 1) end_ (d - Op.arity op + 1) = Ok d') \/
  (exists s, op = Op.Store s /\ (1 <= d)%nat /\ check_segment fuel ops (i + 1) end_ (d - 1) = Ok d') \/
  (exists t e, op = Op.CondIf t /\ (1 <= d)%nat /\ (i + 1 < t < e)%nat /\ (e <= end_)%nat /\
     ops !! (t - 1)%nat = Some (Op.CondElse e) /\ ops !! (e - 1)%nat = Some Op.CondEnd /\
     check_segment fuel ops (i + 1) (t - 1) (d - 1) = Ok d /\ check_segment fuel ops t (e - 1) (d - 1) = Ok d /\
     check_segment fuel ops e end_ d = Ok d').
Proof.
  intros Hc Hi Ho. cbn [check_segment] in Hc. destruct (Nat.leb_spec end_ i); [lia|]. rewrite Ho in Hc.
  assert (Hgen : (if (d <? Op.arity op)%nat then Err MissingOperand
     else check_segment fuel ops (i + 1) end_ (d - Op.arity op + 1)) = Ok d' ->
     (Op.arity op <= d)%nat /\ check_segment fuel ops (i + 1) end_ (d - Op.arity op + 1) = Ok d')
    by (destruct (Nat.ltb_spec d (Op.arity op)); [done|auto]).
  destruct op; try (apply Hgen in Hc; left; done); try done; clear Hgen.
  - right; right. rename else_target into t. destruct (Nat.ltb_spec d 1); [done|]. cbv zeta in Hc.
    destruct (_ || _) eqn:Eb in Hc; [done|]. apply orb_false_iff in Eb as [Eb E3]. apply orb_false_iff in Eb as [E1 E2].
    apply Nat.eqb_neq in E1. apply Nat.ltb_ge in E2. apply Nat.leb_gt in E3.
    destruct (ops !! (t - 1)%nat) as [[]|] eqn:Et; try done. rename end_target into e.
    destruct (_ || _) eqn:Eb in Hc; [done|]. apply orb_false_iff in Eb as [Eb F3]. apply orb_false_iff in Eb as [F1 F2].
    apply Nat.eqb_neq in F1. apply Nat.ltb_ge in F2. apply Nat.leb_gt in F3.
    destruct (bool_decide_reflect (ops !! (e - 1)%nat = Some Op.CondEnd)) as [Ee|]; [|done].
    assert (e <> t) by (intros ->; congruence). cbn [negb] in Hc.
    replace (d - 1 + 1)%nat with d in Hc by lia. replace (t - 1 + 1)%nat with t in Hc by lia.
    replace (e - 1 + 1)%nat with e in Hc by lia.
    destruct (check_segment fuel ops (i + 1) _ _) as [d1| | |] eqn:C1; try done. cbn [bind_outcome] in Hc.
    destruct (Nat.eqb_spec d1 d) as [->|]; [|done]. cbn [negb] in Hc.
    destruct (check_segment fuel ops t _ _) as [d2| | |] eqn:C2; try done. cbn [bind_outcome] in Hc.
    destruct (Nat.eqb_spec d2 d) as [->|]; [|done]. cbn [negb] in Hc.
    exists t, e. repeat split; try done; lia.
  - right; left. destruct (Nat.ltb_spec d 1); [done|]. eauto with lia.
Qed.

Section Safe.
Context {R : Type} (lm : Libm) (draw : R -> Z * R).
Notation exec := (exec lm draw).
Notation run_from := (run_from lm draw).

Lemma exec_applies op ip m : applies op = true -> (Op.arity op <= length (vals m))%nat ->
  exists v, value lm op (rev (take (Op.arity op) (vals m))) = Some v /\
    exec op ip m = Ok (S ip, mkM (v :: drop (Op.arity op) (vals m)) (args m) (rng m)).
Proof.
  intros Ha Hl. destruct (value_some lm op (rev (take (Op.arity op) (vals m)))) as [v Hv]; [done| |].
  { rewrite length_rev, length_take. lia. }
  exists v. split; [done|]. unfold exec. destruct op; try done; rewrite Hv;
    match goal with |- context [(?a <? ?b)%nat] => destruct (Nat.ltb_spec a b); [lia|] end; done.
Qed.

(** An operation that falls through keeps the operands and the stack discipline. *)
Lemma exec_through op ip m :
  CalcParse.op_ok op -> CalcParse.is_cond op = false -> CalcParse.is_store op = false ->
  length (args m) = 21%nat -> (Op.arity op <= length (vals m))%nat ->
  exists m', exec op ip m = Ok (S ip, m') /\ length (vals m') = (length (vals m) - Op.arity op + 1)%nat /\ args m' = args m.
Proof.
  intros Ho Hc Hs Ha Hl. destruct (applies op) eqn:E.
  - destruct (exec_applies op ip m E Hl) as (v & _ & ->). eexists. split; [done|]. cbn. rewrite length_drop. split; [lia|done].
  - destruct op; try done.
    + cbn. destruct (lookup_lt_is_Some_2 (args m) i) as [v Hv]; [cbn in Ho; lia|]. rewrite Hv.
      eexists. split; [done|]. cbn. split; [lia|done].
    + cbn. destruct (draw (rng m)) as [v r]. eexists. split; [done|]. cbn. split; [lia|done].
Qed.

Lemma exec_store i ip m : (i < 21)%nat -> length (args m) = 21%nat -> (1 <= length (vals m))%nat ->
  exists v s, vals m = v :: s /\ exec (Op.Store i) ip m = Ok (S ip, mkM s (<[i := v]> (args m)) (rng m)).
Proof.
  intros Hi Ha Hl. destruct (vals m) as [|v s] eqn:E; cbn in Hl; [lia|]. exists v, s. split; [done|].
  cbn. rewrite E. unfold set_at. destruct (Nat.ltb_spec i (length (args m))); [done|lia].
Qed.

(** [n] instructions lead from [i] to [j] and [m] to [m']. *)
Definition leads (ops : list Op) (n i : nat) (m : Machine R) (j : nat) (m' : Machine R) : Prop :=
  forall fuel, run_from (n + fuel) ops i m = run_from fuel ops j m'.

Lemma leads_refl ops i m : leads ops 0 i m i m.
Proof. done. Qed.

Lemma leads_trans ops n1 n2 i j k m1 m2 m3 : leads ops n1 i m1 j m2 -> leads ops n2 j m2 k m3 -> leads ops (n1 + n2) i m1 k m3.
Proof. intros H1 H2 fuel. now rewrite <-Nat.add_assoc, H1, H2. Qed.

Lemma leads_one ops i op m j m' : ops !! i = Some op -> exec op i m = Ok (j, m') -> leads ops 1 i m j m'.
Proof. intros H1 H2 fuel. cbn. now rewrite H1, H2. Qed.

(** The branch a conditional takes runs, and the other one is skipped. *)
Lemma cond_leads ops i t e n1 n2 c s a r m1 m2 :
  ops !! i = Some (Op.CondIf t) -> ops !! (t - 1)%nat = Some (Op.CondElse e) -> ops !! (e - 1)%nat = Some Op.CondEnd ->
  (i + 1 < t < e)%nat ->
  leads ops n1 (i + 1) (mkM s a r) (t - 1) m1 -> leads ops n2 t (mkM s a r) (e - 1) m2 ->
  leads ops (if Float.eq64 c 0 then n2 + 2 else n1 + 2) i (mkM (c :: s) a r) e (if Float.eq64 c 0 then m2 else m1).
Proof.
  intros H1 H2 H3 Ht L1 L2. rewrite (Nat.add_comm _ 2), (Nat.add_comm _ 2).
  destruct (Float.eq64 c 0) eqn:E.
  - apply (leads_trans _ 1 (1 + n2) _ t _ _ (mkM s a r)).
    + eapply leads_one; [done|]. cbn. now rewrite E.
    + rewrite Nat.add_comm. eapply leads_trans; [exact L2|]. eapply leads_one; [done|]. cbn. repeat f_equal. lia.
  - apply (leads_trans _ 1 (1 + n1) _ (i + 1) _ _ (mkM s a r)).
    + eapply leads_one; [done|]. cbn. rewrite E. repeat f_equal. lia.
    + rewrite Nat.add_comm. eapply leads_trans; [exact L1|]. by eapply leads_one.
Qed.

(** What the check accepts runs to its end, with the depth it computed. *)
Lemma check_segment_runs ops (Hops : Forall CalcParse.op_ok ops) fuel : forall i end_ d d' m,
  (i <= end_ <= length ops)%nat -> check_segment fuel ops i end_ d = Ok d' -> length (vals m) = d -> length (args m) = 21%nat ->
  exists n m', (n <= end_ - i)%nat /\ leads ops n i m end_ m' /\ length (vals m') = d' /\ length (args m') = 21%nat.
Proof.
  induction fuel as [|fuel IH]; intros i end_ d d' m Hi Hc Hv Ha; [done|].
  destruct (decide (i = end_)) as [->|Hne].
  { cbn in Hc. rewrite Nat.leb_refl in Hc. simplify_eq. exists 0%nat, m. eauto using leads_refl with lia. }
  destruct (lookup_lt_is_Some_2 ops i) as [op Ei]; [lia|].
  assert (Ho : CalcParse.op_ok op) by (rewrite Forall_lookup in Hops; eauto).
  apply (check_segment_inv _ _ _ _ _ _ op) in Hc; [|lia|done].
  destruct Hc as [(H1 & H2 & Hd & Hc)|[(s & -> & Hd & Hc)|(t & e & -> & Hd & Ht & He & Et & Ee & C1 & C2 & C3)]].
  - destruct (exec_through op i m) as (m1 & E1 & V1 & A1); [done..|lia|]. rewrite Nat.add_1_r in Hc.
    destruct (IH (S i) end_ _ d' m1 ltac:(lia) Hc ltac:(lia) ltac:(congruence)) as (n & m' & Hn & L & ?).
    exists (1 + n)%nat, m'. split; [lia|]. split; [|done]. eapply leads_trans; [by eapply leads_one|done].
  - destruct (exec_store s i m) as (v & l & Ev & E1); [done..|lia|]. rewrite Nat.add_1_r in Hc. rewrite Ev in Hv. cbn in Hv.
    destruct (IH (S i) end_ _ d' (mkM l (<[s := v]> (args m)) (rng m)) ltac:(lia) Hc) as (n & m' & Hn & L & ?);
      [cbn; lia|cbn; by rewrite length_insert|].
    exists (1 + n)%nat, m'. split; [lia|]. split; [|done]. eapply leads_trans; [by eapply leads_one|done].
  - destruct m as [[|c s] a r]; cbn in Hv; [lia|]. cbn in Ha.
    destruct (IH (i + 1) (t - 1) _ d (mkM s a r) ltac:(lia) C1 ltac:(cbn; lia) Ha)%nat as (n1 & m1 & Hn1 & L1 & V1 & A1).
    destruct (IH t (e - 1) _ d (mkM s a r) ltac:(lia) C2 ltac:(cbn; lia) Ha)%nat as (n2 & m2 & Hn2 & L2 & V2 & A2).
    pose proof (cond_leads ops i t e n1 n2 c s a r m1 m2 Ei Et Ee Ht L1 L2) as L.
    destruct (IH e end_ d d' (if Float.eq64 c 0 then m2 else m1) ltac:(lia) C3) as (n & m' & Hn & L' & ?);
      [by destruct (Float.eq64 c 0)..|].
    exists ((if Float.eq64 c 0 then n2 + 2 else n1 + 2) + n)%nat, m'.
    split; [destruct (Float.eq64 c 0); lia|]. split; [|done]. by eapply leads_trans.
Qed.

(** Code the check accepts returns, with exactly one value on the stack unless it
    is empty. *)
Lemma checked_runs ops a r :
  Forall CalcParse.op_ok ops -> check_arity ops = Ok tt -> length a = 21%nat ->
  exists m, run_from (S (length ops)) ops 0 (mkM [] a r) = Ok m /\
    length (vals m) = (match ops with [] => 0 | _ => 1 end)%nat /\ length (args m) = 21%nat.
Proof.
  intros Ho Hc Ha. unfold check_arity in Hc.
  destruct (check_segment _ ops 0 (length ops) 0) as [d| | |] eqn:Ec; try done. cbn [bind_outcome] in Hc.
  destruct (check_segment_runs ops Ho (S (length ops)) 0 (length ops) 0 d (mkM [] a r) ltac:(lia) Ec eq_refl Ha) as (n & m & Hn & L & V & A).
  exists m. split; [|split; [|done]].
  - specialize (L (S (length ops) - n)%nat). replace (n + (S (length ops) - n))%nat with (S (length ops)) in L by lia. rewrite L.
    replace (S (length ops) - n)%nat with (S (length ops - n))%nat by lia. cbn [CalcEval.run_from]. by rewrite (lookup_ge_None_2 ops (length ops)) by lia.
  - rewrite V. destruct d as [|[|d]], ops; done.
Qed.

(** ** Which operands are touched *)

(** Slots the code does not store to keep their value. *)
Lemma run_from_frame ops i : (forall k, ops !! k <> Some (Op.Store i)) ->
  forall fuel ip m m', run_from fuel ops ip m = Ok m' -> args m' !! i = args m !! i.
Proof.
  intros Hs fuel. induction fuel as [|fuel IH]; intros ip m m' H; [done|]. cbn in H.
  destruct (ops !! ip) as [op|] eqn:E; [|by simplify_eq].
  destruct (exec op ip m) as [[ip1 m1]| | |] eqn:Ex; try done. cbn in H. rewrite (IH _ _ _ H). clear H IH.
  destruct (applies op) eqn:Ea.
  - unfold CalcEval.exec in Ex. destruct op; try done;
      (destruct (_ <? _)%nat; [done|]); (destruct (value _ _ _); [|done]); by simplify_eq.
  - destruct op; try done; cbn in Ex; repeat case_match; simplify_eq; try done.
    unfold set_at in Ex. destruct (_ <? _)%nat; [|done]. cbn in Ex. simplify_eq. cbn.
    apply list_lookup_insert_ne. intros ->. by apply (Hs ip).
Qed.

End Safe.

Lemma shiftl_1_bit i j : 0 <= j -> Z.testbit (Z.shiftl 1 (Z.of_nat i)) j = (j =? Z.of_nat i).
Proof.
  intros Hj. rewrite Z.shiftl_spec by done. destruct (Z.eqb_spec j (Z.of_nat i)) as [->|].
  - by rewrite Z.sub_diag.
  - destruct (Z.ltb_spec j (Z.of_nat i)); [by rewrite Z.testbit_neg_r by lia|].
    apply (Z.bits_above_log2 1); [lia|]. cbn. lia.
Qed.

(** A mask only grows. *)
Lemma usage_grows ops : forall u j,
  (Z.testbit (inputs u) j = true -> Z.testbit (inputs (usage ops u)) j = true) /\
  (Z.testbit (stores u) j = true -> Z.testbit (stores (usage ops u)) j = true).
Proof.
  induction ops as [|op ops IH]; intros u j; [done|].
  destruct op; cbn [usage]; try apply IH; split; intros H; apply IH; cbn; try done; by rewrite Z.lor_spec, H.
Qed.

Lemma usage_store ops : forall u k i, ops !! k = Some (Op.Store i) -> Z.testbit (stores (usage ops u)) (Z.of_nat i) = true.
Proof.
  induction ops as [|op ops IH]; intros u [|k] i H; cbn in H; try done; simplify_eq.
  - cbn [usage]. apply usage_grows. cbn. rewrite Z.lor_spec, shiftl_1_bit, Z.eqb_refl by lia. apply orb_true_r.
  - destruct op; cbn [usage]; eapply IH; eassumption.
Qed.

(** A fetch is an input, or a store to the slot comes first. *)
Lemma usage_arg ops : forall u k i, (i < 32)%nat -> ops !! k = Some (Op.Arg i) ->
  Z.testbit (inputs (usage ops u)) (Z.of_nat i) = true \/ Z.testbit (stores u) (Z.of_nat i) = true \/
  exists k', (k' < k)%nat /\ ops !! k' = Some (Op.Store i).
Proof.
  induction ops as [|op ops IH]; intros u [|k] i Hi H; cbn in H; try done; simplify_eq.
  - cbn [usage]. destruct (Z.testbit (stores u) (Z.of_nat i)) eqn:E; [auto|]. left. apply usage_grows. cbn.
    rewrite Z.lor_spec, Z.land_spec, shiftl_1_bit, Z.eqb_refl, Z.lxor_spec, E by lia.
    change u32_max with (Z.ones 32). rewrite Z.ones_spec_low by lia. apply orb_true_r.
  - assert (Hk : forall u', (Z.testbit (stores u') (Z.of_nat i) = true ->
        Z.testbit (stores u) (Z.of_nat i) = true \/ op = Op.Store i) ->
      Z.testbit (inputs (usage ops u')) (Z.of_nat i) = true \/ Z.testbit (stores u) (Z.of_nat i) = true \/
      exists k', (k' < S k)%nat /\ (op :: ops) !! k' = Some (Op.Store i)).
    { intros u' Hu. destruct (IH u' k i Hi H) as [?|[Hb|(k' & ? & ?)]]; [auto| |right; right; exists (S k'); split; [lia|done]].
      destruct (Hu Hb) as [?| ->]; [auto|]. right; right. exists 0%nat. split; [lia|done]. }
    destruct op; cbn [usage]; apply Hk; auto. cbn. rewrite Z.lor_spec, shiftl_1_bit by lia. intros Hb.
    apply orb_true_iff in Hb as [?|Hb]; [auto|]. apply Z.eqb_eq in Hb. right. f_equal. lia.
Qed.

Section Inputs.
Context {R : Type} (lm : Libm) (draw : R -> Z * R) (ops : list Op) (Hops : CalcParse.code_ok ops).
Notation exec := (exec lm draw).
Notation run_from := (run_from lm draw).

(** The slots whose value is determined at [ip]: the inputs, and those stored to
    before. *)
Definition covered (ip i : nat) : Prop :=
  Z.testbit (inputs (arg_usage ops)) (Z.of_nat i) = true \/ exists k, (k < ip)%nat /\ ops !! k = Some (Op.Store i).

Definition agree (ip : nat) (m1 m2 : Machine R) : Prop :=
  vals m1 = vals m2 /\ rng m1 = rng m2 /\ length (args m1) = length (args m2) /\
  forall i, covered ip i -> args m1 !! i = args m2 !! i.

(** Going on to [j], over no store other than the one at [ip]. *)
Lemma agree_next ip j op m1 m2 s1 r1 :
  ops !! ip = Some op -> CalcParse.is_store op = false ->
  (forall k o, (ip < k < j)%nat -> ops !! k = Some o -> CalcParse.is_store o = false) ->
  agree ip m1 m2 -> agree j (mkM s1 (args m1) r1) (mkM s1 (args m2) r1).
Proof.
  intros Ho Hs Hj (_ & _ & Hl & Ha). split; [done|]. split; [done|]. split; [done|]. cbn. intros i [Hi|(k & Hk & Hi)]; apply Ha.
  - by left.
  - right. exists k. split; [|done]. destruct (decide (k < ip)%nat); [done|]. exfalso.
    destruct (decide (k = ip)) as [->|]; [by simplify_eq|].
    assert (H := Hj k (Op.Store i) ltac:(lia) Hi). done.
Qed.

Definition same_result (r1 r2 : outcome unit (nat * Machine R)) : Prop :=
  match r1, r2 with
  | Ok (j1, m1), Ok (j2, m2) => j1 = j2 /\ agree j1 m1 m2
  | Panic, Panic => True
  | _, _ => False
  end.

Lemma exec_store_agree ip i m1 m2 :
  ops !! ip = Some (Op.Store i) -> agree ip m1 m2 -> same_result (exec (Op.Store i) ip m1) (exec (Op.Store i) ip m2).
Proof.
  intros Ho (Hv & Hr & Hl & Ha). cbn. rewrite <-Hv, <-Hr. destruct (vals m1) as [|v s]; [done|].
  unfold set_at. rewrite <-Hl. destruct (Nat.ltb_spec i (length (args m1))); [|done]. cbn. split; [done|].
  split; [done|]. split; [done|]. cbn. rewrite !length_insert. split; [done|]. intros j [Hj|(k & Hk & Hj)].
  - destruct (decide (i = j)) as [<-|]; [by rewrite !list_lookup_insert_eq by lia|].
    rewrite !list_lookup_insert_ne by done. apply Ha. by left.
  - destruct (decide (i = j)) as [<-|]; [by rewrite !list_lookup_insert_eq by lia|].
    rewrite !list_lookup_insert_ne by done. apply Ha. right. exists k. split; [|done].
    destruct (decide (k = ip)) as [->|]; [by simplify_eq|lia].
Qed.

Lemma exec_agree ip op m1 m2 :
  ops !! ip = Some op -> agree ip m1 m2 -> same_result (exec op ip m1) (exec op ip m2).
Proof.
  intros Ho Hag. pose proof Hag as (Hv & Hr & Hl & Ha). destruct Hops as [Hok Hj].
  assert (Hnext : CalcParse.is_store op = false -> forall s r, agree (S ip) (mkM s (args m1) r) (mkM s (args m2) r)).
  { intros. eapply agree_next; [done..| |done]. intros. lia. }
  assert (Hjump : forall t s r, CalcParse.jump_target op = Some t -> agree t (mkM s (args m1) r) (mkM s (args m2) r)).
  { intros t s r Ht. eapply agree_next; [done| | |done]; [by destruct op|]. intros k o Hk Hl'.
    destruct (Hj ip op t Ho Ht ltac:(lia)) as [_ H]. eauto. }
  destruct (applies op) eqn:Ea.
  - unfold CalcEval.exec. destruct op; try done; rewrite <-Hv, <-Hr;
      (destruct (_ <? _)%nat; [done|]); (destruct (value _ _ _); [|done]); (split; [done|by apply Hnext]).
  - destruct op; try done; [| | | | |by apply exec_store_agree]; cbn.
    + destruct (usage_arg ops (mkUsage 0 0) ip i) as [Hi|[Hi|Hi]].
      * rewrite Forall_lookup in Hok. pose proof (Hok _ _ Ho) as H. cbn in H. lia.
      * done.
      * rewrite <-(Ha i) by (by left). destruct (args m1 !! i); [|done]. unfold push. rewrite <-Hv, <-Hr.
        split; [done|by apply Hnext].
      * by rewrite Z.bits_0 in Hi.
      * rewrite <-(Ha i) by (by right). destruct (args m1 !! i); [|done]. unfold push. rewrite <-Hv, <-Hr.
        split; [done|by apply Hnext].
    + rewrite <-Hv, <-Hr. destruct (vals m1) as [|c s]; [done|]. split; [done|].
      destruct (Float.eq64 c 0); [by apply Hjump|by apply Hnext].
    + split; [done|]. destruct m1, m2; cbn in *. subst. by apply Hjump.
    + split; [done|]. destruct m1, m2; cbn in *. subst. by apply Hnext.
    + rewrite <-Hv, <-Hr. destruct (draw (rng m1)) as [v r]. split; [done|by apply Hnext].
Qed.

(** Runs that start in agreement end in agreement, over all the code. *)
Lemma run_from_agree fuel : forall ip m1 m2 m1', agree ip m1 m2 -> run_from fuel ops ip m1 = Ok m1' ->
  exists m2', run_from fuel ops ip m2 = Ok m2' /\ agree (length ops) m1' m2'.
Proof.
  induction fuel as [|fuel IH]; intros ip m1 m2 m1' Hag H; [done|]. cbn in *.
  destruct (ops !! ip) as [op|] eqn:Ho.
  - pose proof (exec_agree ip op m1 m2 Ho Hag) as He. unfold same_result in He.
    destruct (exec op ip m1) as [[j1 n1]| | |]; try done. destruct (exec op ip m2) as [[j2 n2]| | |]; try done.
    destruct He as [<- He]. by apply (IH j1 n1).
  - simplify_eq. exists m2. split; [done|]. destruct Hag as (? & ? & ? & Ha). split; [done|]. split; [done|]. split; [done|].
    intros i [Hi|(k & Hk & Hi)]; apply Ha; [by left|right]. exists k. split; [|done].
    apply lookup_ge_None in Ho. lia.
Qed.

End Inputs.

(** ** The contract of the crate *)

(** C7: for every source text the compiler returns an error or code of at most
    [MAX_OPS] operations, never a panic; code it returns can be evaluated on any
    21 operands with any generator and any library of functions: evaluation
    ends, does not panic, leaves the result and nothing else on the stack (and
    nothing for the empty program, whose result is NaN), and writes only the slots
    that [arg_usage] reports as stores. *)
Theorem calc_never_panics (src : bytes) :
  Utf8.from_utf8 src = true ->
  match compile src with
  | Ok ops =>
    (length ops <= MAX_OPS)%nat /\
    forall R (lm : Libm) (draw : R -> Z * R) (a : list Z) (r : R), length a = 21%nat ->
    exists v a' r', eval_with_rng lm draw ops a r = Ok (v, a', r') /\ length a' = 21%nat /\
      (exists m, run_from lm draw (S (length ops)) ops 0 (mkM [] a r) = Ok m /\ args m = a' /\ rng m = r' /\
         vals m = match ops with [] => [] | _ => [v] end) /\
      (ops = [] -> v = NAN /\ a' = a /\ r' = r) /\
      forall i, Z.testbit (stores (arg_usage ops)) (Z.of_nat i) = false -> a' !! i = a !! i
  | Err _ => True
  | Panic | OutOfFuel => False
  end.
Proof.
  intros Hv. pose proof (CalcParse.compile_ok src Hv) as Hc. destruct (compile src) as [ops| | |]; try done.
  destruct Hc as ([Ho _] & Hl & Hk). split; [done|]. intros R lm draw a r Ha.
  destruct (checked_runs lm draw ops a r Ho Hk Ha) as (m & Hm & Hs & Hn).
  exists (hd NAN (vals m)), (args m), (rng m). split; [|split; [done|split; [|split]]].
  - unfold eval_with_rng, run. by rewrite Hm.
  - exists m. do 3 (split; [done|]). destruct ops; destruct (vals m) as [|x [|y l]]; done.
  - intros ->. cbn in Hm. by simplify_eq.
  - intros i Hi. apply (run_from_frame lm draw ops i) in Hm; [done|]. intros k Hk'.
    apply (usage_store ops (mkUsage 0 0)) in Hk'. unfold arg_usage in Hi. congruence.
Qed.

(** The masks of [arg_usage] are sound: the result of an expression, and what
    it stores, depend only on the operands reported as inputs.  A caller that
    leaves out the other operands, as [calcout] does with its links, gets the
    same result. *)
Theorem arg_usage_sound {R} (lm : Libm) (draw : R -> Z * R) src ops (a1 a2 : list Z) (r : R) :
  Utf8.from_utf8 src = true -> compile src = Ok ops -> length a1 = 21%nat -> length a2 = 21%nat ->
  (forall i, Z.testbit (inputs (arg_usage ops)) (Z.of_nat i) = true -> a1 !! i = a2 !! i) ->
  exists v a1' a2' r', eval_with_rng lm draw ops a1 r = Ok (v, a1', r') /\ eval_with_rng lm draw ops a2 r = Ok (v, a2', r') /\
    forall i k, ops !! k = Some (Op.Store i) -> a1' !! i = a2' !! i.
Proof.
  intros Hv Hc H1 H2 Hi. pose proof (CalcParse.compile_ok src Hv) as Hk. rewrite Hc in Hk. destruct Hk as (Ho & _ & Hk).
  destruct (checked_runs lm draw ops a1 r (proj1 Ho) Hk H1) as (m1 & Hm1 & _).
  assert (Hag : agree ops 0 (mkM [] a1 r) (mkM [] a2 r)).
  { split; [done|]. split; [done|]. split; [cbn; congruence|]. intros i [?|(k & ? & _)]; [by apply Hi|lia]. }
  destruct (run_from_agree lm draw ops Ho _ _ _ _ _ Hag Hm1) as (m2 & Hm2 & Hs & Hr & _ & Ha).
  exists (hd NAN (vals m1)), (args m1), (args m2), (rng m1). unfold eval_with_rng, run. rewrite Hm1, Hm2.
  cbn [bind_outcome]. split; [done|]. split; [by rewrite Hs, Hr|]. intros i k Hst. apply Ha. right. exists k. split; [|done]. by eapply lookup_lt_Some.
Qed.

Definition sample_text : bytes := str "A ? B := 1 : C; B*2".

Lemma calc_never_panics_witness :
  exists v a r, match compile sample_text with
    | Ok ops => eval sample_libm ops (replicate 21 0) 1 = Ok (v, a, r) /\ length a = 21%nat
    | _ => False
    end.
Proof.
  pose proof (calc_never_panics sample_text eq_refl) as H.
  destruct (compile sample_text) as [ops| | |] eqn:E; [|vm_compute in E; discriminate E|destruct H..].
  destruct H as [_ H]. destruct (H Z sample_libm next_rndm (replicate 21 0) 1 eq_refl) as (v & a & r & H1 & H2 & _).
  exists v, a, r. split; [exact H1|exact H2].
Defined.

(** [B*2] after [B := ...] does not read B: a value there changes nothing. *)
Lemma arg_usage_sound_witness :
  exists ops v a1 a2 r, compile sample_text = Ok ops /\ arg_usage ops = mkUsage 5 2 /\
    eval_with_rng sample_libm next_rndm ops (replicate 21 0) 1 = Ok (v, a1, r) /\
    eval_with_rng sample_libm next_rndm ops (0 :: Float.of_Z 9 :: replicate 19 0) 1 = Ok (v, a2, r).
Proof.
  destruct (compile sample_text) as [ops| | |] eqn:E; try (vm_compute in E; discriminate E).
  assert (Hu : arg_usage ops = mkUsage 5 2) by (vm_compute in E; injection E as <-; reflexivity).
  destruct (arg_usage_sound sample_libm next_rndm sample_text ops (replicate 21 0) (0 :: Float.of_Z 9 :: replicate 19 0) 1
    eq_refl E eq_refl eq_refl) as (v & a1 & a2 & r & H1 & H2 & _).
  { rewrite Hu. intros [|[|i]] Hi; [reflexivity|discriminate Hi|reflexivity]. }
  exists ops, v, a1, a2, r. auto.
Defined.

(** The value of an expression on the operands 0, 1, 2, ... *)
Definition eval_text (src : string) : option Z :=
  match compile (str src) with
  | Ok ops => match eval sample_libm ops (map (fun i => Float.of_Z (Z.of_nat i)) (seq 0 21)) 1 with Ok (v, _, _) => Some v | _ => None end
  | _ => None
  end.

Example eval_samples :
  (eval_text "B+C*D", eval_text "B?C:D", eval_text "A?C:D", eval_text "7-2-1", eval_text "-C*C", eval_text "1|3 XOR 1")
  = (Some (Float.of_Z 7), Some (Float.of_Z 2), Some (Float.of_Z 3), Some (Float.of_Z 4), Some (Float.of_Z (-4)), Some (Float.of_Z 2)) /\
  (eval_text "FLOOR(-0.5)", eval_text "CEIL(-0.5)", eval_text "CEIL(-2.5)", eval_text "NINT(-2.5)", eval_text "NINT(1e300)")
  = (Some (Float.of_Z (-1)), Some (2 ^ 63), Some (Float.of_Z (-2)), Some (Float.of_Z (-3)), Some (Float.of_Z (2 ^ 31 - 1))) /\
  (eval_text "-7%4", eval_text "7%0", eval_text "FMOD(-7.5,2)", eval_text "FMOD(5e-324,3)", eval_text "MIN(D,B,NAN)")
  = (Some (Float.of_Z (-3)), Some NAN, Some 0xBFF8000000000000, Some 1, Some NAN) /\
  (eval_text "2863311530 & 4294967295", eval_text "-1>>>0", eval_text "1<<31", eval_text "SQRT(2)", eval_text "0xffffffff")
  = (Some (Float.of_Z (-1431655766)), Some (Float.of_Z 4294967295), Some (Float.of_Z (- 2 ^ 31)), Some 0x3FF6A09E667F3BCD,
     Some (Float.of_Z (-1))) /\
  (eval_text "C := 5; C*C", eval_text "A ? B := 7 : 9; B", eval_text "", eval_text "A B", eval_text "ISNAN(A,NAN)")
  = (Some (Float.of_Z 25), Some (Float.of_Z 9), Some NAN, None, Some (Float.of_Z 1)).
Proof. vm_compute. done. Qed.

End CalcEval.
