(* ===== verification/CalcGrammar.v ===== *)
(** * CALC expressions: the language and its compilation

    The grammar of CALC as an inductive relation between tokens and expressions
    (seven levels of operators, left-associative binary operators, prefix
    operators, calls, [?:] with a right-nested else branch, assignments, [;]), the
    meaning of an expression, and the correctness of the compiler: for a program
    of the grammar the operator-precedence loop with its backpatched jumps emits
    the code of the syntax tree, and evaluating that code gives the meaning. *)

From Stdlib Require Import ZArith.
From S2P Require Import Prelude Utf8 Wire PvdTypes NtTypes F64 Text Calc CalcParse CalcEval.

Local Open Scope Z_scope.
Local Open Scope codec_scope.

Module CalcGrammar.
Import Calc CalcEval.
Import Op(Op).
Import Token(Token).
Import Frame(Frame).

(** ** Expressions *)

Inductive Expr : Type :=
| Arg (i : nat)
| Rndm
| App (op : Op) (es : list Expr)
| Cond (c t e : Expr).

Section ExprInd.
Variable P : Expr -> Prop.
Hypothesis HArg : forall i, P (Arg i).
Hypothesis HRndm : P Rndm.
Hypothesis HApp : forall op es, Forall P es -> P (App op es).
Hypothesis HCond : forall c t e, P c -> P t -> P e -> P (Cond c t e).

Fixpoint Expr_nested_ind (e : Expr) : P e :=
  match e with
  | Arg i => HArg i
  | Rndm => HRndm
  | App op es =>
    HApp op es ((fix go es : Forall P es := match es with [] => Forall_nil_2 P | e :: es => Forall_cons_2 P e es (Expr_nested_ind e) (go es) end) es)
  | Cond c t e => HCond c t e (Expr_nested_ind c) (Expr_nested_ind t) (Expr_nested_ind e)
  end.
End ExprInd.

(** The code of an expression at [base]. *)
Fixpoint code (base : nat) (e : Expr) : list Op :=
  match e with
  | Arg i => [Op.Arg i]
  | Rndm => [Op.Rndm]
  | App op es =>
    (fix codes base es :=
       match es with
       | [] => []
       | e :: es => let c := code base e in c ++ codes (base + length c)%nat es
       end) base es ++ [op]
  | Cond c t e =>
    let cc := code base c in
    let bt := (base + length cc + 1)%nat in
    let ct := code bt t in
    let be := (bt + length ct + 1)%nat in
    let ce := code be e in
    cc ++ Op.CondIf be :: ct ++ Op.CondElse (be + length ce + 1)%nat :: ce ++ [Op.CondEnd]
  end.

Fixpoint codes (base : nat) (es : list Expr) : list Op :=
  match es with
  | [] => []
  | e :: es => let c := code base e in c ++ codes (base + length c)%nat es
  end.

Lemma code_App base op es : code base (App op es) = codes base es ++ [op].
Proof. cbn. f_equal. Qed.

(** ** Meaning *)

Section Meaning.
Context {R : Type} (lm : Libm) (draw : R -> Z * R) (a : list Z).

Fixpoint denote (e : Expr) (r : R) : option (Z * R) :=
  match e with
  | Arg i => match a !! i with Some v => Some (v, r) | None => None end
  | Rndm => Some (draw r)
  | App op es =>
    match
      (fix denotes es r :=
         match es with
         | [] => Some ([], r)
         | e :: es =>
           match denote e r with
           | Some (v, r) => match denotes es r with Some (vs, r) => Some (v :: vs, r) | None => None end
           | None => None
           end
         end) es r
    with
    | Some (vs, r) => match value lm op vs with Some v => Some (v, r) | None => None end
    | None => None
    end
  | Cond c t e =>
    match denote c r with
    | Some (v, r) => if Float.eq64 v 0 then denote e r else denote t r
    | None => None
    end
  end.

Fixpoint denotes (es : list Expr) (r : R) : option (list Z * R) :=
  match es with
  | [] => Some ([], r)
  | e :: es =>
    match denote e r with
    | Some (v, r) => match denotes es r with Some (vs, r) => Some (v :: vs, r) | None => None end
    | None => None
    end
  end.

Lemma denote_App op es r :
  denote (App op es) r =
  match denotes es r with
  | Some (vs, r) => match value lm op vs with Some v => Some (v, r) | None => None end
  | None => None
  end.
Proof. done. Qed.

End Meaning.

(** ** Programs *)

Inductive Stmt : Type :=
| Val (e : Expr)
| Set_ (i : nat) (e : Expr).

Definition stmt_code (base : nat) (s : Stmt) : list Op :=
  match s with
  | Val e => code base e
  | Set_ i e => code base e ++ [Op.Store i]
  end.

Fixpoint prog_code (base : nat) (p : list Stmt) : list Op :=
  match p with
  | [] => []
  | s :: p => let c := stmt_code base s in c ++ prog_code (base + length c)%nat p
  end.

(** The values of the statements that are no assignments, and the operands and
    the generator at the end. *)
Fixpoint denote_prog {R} (lm : Libm) (draw : R -> Z * R) (p : list Stmt) (a : list Z) (r : R) : option (list Z * list Z * R) :=
  match p with
  | [] => Some ([], a, r)
  | Val e :: p =>
    match denote lm draw a e r with
    | Some (v, r) =>
      match denote_prog lm draw p a r with Some (vs, a, r) => Some (v :: vs, a, r) | None => None end
    | None => None
    end
  | Set_ i e :: p =>
    match denote lm draw a e r with
    | Some (v, r) => denote_prog lm draw p (<[i := v]> a) r
    | None => None
    end
  end.

(** ** Grammar *)

Definition sym (w : string) : Token := Token.Op (str w).
Arguments sym _%_string_scope.

Definition unary_token (t : Token) (op : Op) : Prop :=
  match t with
  | Token.Op s => arm unary_ops s = Some op
  | Token.Ident n => word_operator n = Some op /\ op = Op.NotB
  | _ => False
  end.

Definition binary_token (t : Token) (op : Op) : Prop :=
  match t with
  | Token.Op s => arm binary_ops s = Some op
  | Token.Ident n => word_operator n = Some op /\ op <> Op.NotB
  | _ => False
  end.

(** [derives p toks e]: [toks] is an expression whose operators outside of
    parentheses bind at least as tightly as level [p]. *)
Inductive derives : nat -> list Token -> Expr -> Prop :=
| d_num v : derives 8 [Token.Num v] (App (Op.Lit v) [])
| d_const n v : constant n = Some v -> derives 8 [Token.Ident n] (App (Op.Lit v) [])
| d_arg i : (i < 21)%nat -> derives 8 [Token.Arg i] (Arg i)
| d_rndm : derives 8 [Token.Ident (str "RNDM")] Rndm
| d_paren toks e : derives 0 toks e -> derives 8 (sym "(" :: toks ++ [sym ")"]) e
| d_call n f toks es :
    arm functions n = Some f -> derives_args toks es -> Op.arity (with_count f (length es)) = length es ->
    derives 8 (Token.Ident n :: sym "(" :: toks ++ [sym ")"]) (App (with_count f (length es)) es)
| d_unary t op toks e : unary_token t op -> derives 7 toks e -> derives 7 (t :: toks) (App op [e])
| d_binary p t op toks1 toks2 e1 e2 :
    binary_token t op -> fst (Op.precedence op) = p -> derives p toks1 e1 -> derives (S p) toks2 e2 ->
    derives p (toks1 ++ t :: toks2) (App op [e1; e2])
| d_cond toks1 toks2 toks3 c t e :
    derives 1 toks1 c -> derives 0 toks2 t -> derives 0 toks3 e ->
    derives 0 (toks1 ++ sym "?" :: toks2 ++ sym ":" :: toks3) (Cond c t e)
| d_up p toks e : derives (S p) toks e -> derives p toks e
with derives_args : list Token -> list Expr -> Prop :=
| a_one toks e : derives 0 toks e -> derives_args toks [e]
| a_cons toks1 toks2 e es : derives 0 toks1 e -> derives_args toks2 es -> derives_args (toks1 ++ sym "," :: toks2) (e :: es).

(** An assignment; one in the then branch of a conditional assigns the whole
    conditional. *)
Inductive assigns : list Token -> nat -> Expr -> Prop :=
| h_set i toks e : (i < 21)%nat -> derives 0 toks e -> assigns (Token.Arg i :: sym ":=" :: toks) i e
| h_cond toks1 toks2 toks3 i c t e :
    derives 1 toks1 c -> assigns toks2 i t -> derives 0 toks3 e ->
    assigns (toks1 ++ sym "?" :: toks2 ++ sym ":" :: toks3) i (Cond c t e).

Inductive statement : list Token -> Stmt -> Prop :=
| s_val toks e : derives 0 toks e -> statement toks (Val e)
| s_set toks i e : assigns toks i e -> statement toks (Set_ i e).

Inductive program : list Token -> list Stmt -> Prop :=
| p_one toks s : statement toks s -> program toks [s]
| p_cons toks1 toks2 s p : statement toks1 s -> program toks2 p -> program (toks1 ++ sym ";" :: toks2) (s :: p).

Scheme derives_mut := Minimality for derives Sort Prop
with derives_args_mut := Minimality for derives_args Sort Prop.
Combined Scheme derives_both from derives_mut, derives_args_mut.

(** ** Parsing *)

Lemma steps_app l1 l2 st : steps (l1 ++ l2) st = let? st := steps l1 st in steps l2 st.
Proof.
  revert st. induction l1 as [|t l1 IH]; intros st; [done|]. cbn. destruct (step t st); cbn; auto.
Qed.

(** Emitting pending frames. *)
Fixpoint flush (fs : list Frame) (out : list Op) : outcome CalcError (list Op) :=
  match fs with
  | [] => Ok out
  | Frame.Op op :: fs => flush fs (out ++ [op])
  | Frame.CondTail i e :: fs => let? out := finalize_cond out i e in flush fs out
  | _ => Err Unbalanced
  end.

(** What an expression of level [p] leaves on the stack. *)
Definition pending (p : nat) (f : Frame) : Prop :=
  match f with
  | Frame.Op op => (1 <= fst (Op.precedence op) /\ p <= fst (Op.precedence op))%nat
  | Frame.CondTail _ _ => p = 0%nat
  | _ => False
  end.

(** Where an expression of level [p] may start. *)
Definition ctx_ok (p : nat) (stack : list Frame) : Prop :=
  match stack with
  | Frame.Op op :: _ =>
    let q := fst (Op.precedence op) in (q < p \/ q = p /\ (p = 0 \/ p = 7))%nat
  | Frame.Func _ :: _ => False
  | _ => True
  end.

Lemma flush_app fs1 fs2 out : flush (fs1 ++ fs2) out = let? out := flush fs1 out in flush fs2 out.
Proof.
  revert out. induction fs1 as [|f fs1 IH]; intros out; [done|]. destruct f; cbn; auto.
  destruct (finalize_cond out if_idx else_idx); cbn; auto.
Qed.

Lemma flush_paren p fs rest out : Forall (pending p) fs ->
  unwind_paren (fs ++ Frame.Paren :: rest) out = let? out := flush fs out in Ok (rest, out).
Proof.
  intros H. revert out. induction H as [|f fs Hf _ IH]; intros out; [done|]. destruct f; try done; cbn; auto.
  destruct (finalize_cond out if_idx else_idx); cbn; auto.
Qed.

Lemma flush_comma p fs rest out : Forall (pending p) fs ->
  unwind_comma (fs ++ Frame.Paren :: rest) out = let? out := flush fs out in Ok (Frame.Paren :: rest, out).
Proof.
  intros H. revert out. induction H as [|f fs Hf _ IH]; intros out; [done|]. destruct f; try done; cbn; auto.
  destruct (finalize_cond out if_idx else_idx); cbn; auto.
Qed.

Lemma flush_all p err fs rest out : Forall (pending p) fs ->
  unwind_all err (fs ++ rest) out = let? out := flush fs out in unwind_all err rest out.
Proof.
  intros H. revert out. induction H as [|f fs Hf _ IH]; intros out; [done|]. destruct f; try done; cbn; auto.
  destruct (finalize_cond out if_idx else_idx); cbn; auto.
Qed.

Lemma flush_cond p fs rest out held : Forall (pending p) fs ->
  unwind_cond (fs ++ rest) out held = let? out := flush fs out in unwind_cond rest out held.
Proof.
  intros H. revert out. induction H as [|f fs Hf _ IH]; intros out; [done|]. destruct f; try done; cbn.
  - destruct op; cbn in Hf; try (destruct Hf; lia); apply IH.
  - destruct (finalize_cond out if_idx else_idx); cbn; auto.
Qed.

(** An incoming operator emits exactly what its left operand left. *)
Lemma flush_pop p q assoc fs rest out out' :
  Forall (pending p) fs -> (1 <= p)%nat -> flush fs out = Ok out' ->
  (match assoc with Op.Left => q <= p | Op.Right => q < p end)%nat ->
  match rest with
  | Frame.Op op :: _ => match assoc with Op.Left => fst (Op.precedence op) < q | Op.Right => fst (Op.precedence op) <= q end
  | _ => True
  end%nat ->
  pop_while (fs ++ rest) out q assoc = (rest, out').
Proof.
  intros H Hp. revert out. induction H as [|f fs Hf _ IH]; intros out Hfl Hq Hr.
  - cbn in Hfl. simplify_eq. destruct rest as [|[op| | | |] rest]; try done. cbn [pop_while app]. cbv zeta.
    destruct assoc; [destruct (Nat.leb_spec q (fst (Op.precedence op)))|destruct (Nat.ltb_spec q (fst (Op.precedence op)))]; done || lia.
  - destruct f; cbn [pending] in Hf; try done; [|lia]. cbn [pop_while app]. cbv zeta. cbn [flush] in Hfl.
    destruct assoc; [destruct (Nat.leb_spec q (fst (Op.precedence op)))|destruct (Nat.ltb_spec q (fst (Op.precedence op)))];
      try lia; auto.
Qed.

(** *** One token *)

Lemma step_intro tok st st' : on_token tok st = Ok st' -> (length (out st') <= MAX_OPS)%nat -> step tok st = Ok st'.
Proof. intros H Hl. unfold step. rewrite H. cbn [bind_outcome]. destruct (Nat.ltb_spec MAX_OPS (length (out st'))); [lia|done]. Qed.

Lemma arm_inv {A} (tbl : list (string * A)) n a : arm tbl n = Some a -> exists w, (w, a) ∈ tbl /\ n = str w.
Proof.
  induction tbl as [|[w x] tbl IH]; cbn; [done|]. unfold is_sym. destruct (bool_decide_reflect (n = str w)) as [->|].
  - intros [= <-]. exists w. split; [apply list_elem_of_here|done].
  - intros H. destruct (IH H) as (w' & Hin & ->). exists w'. split; [by apply list_elem_of_further|done].
Qed.

(** Case analysis on the entry of a table. *)
Ltac table H :=
  apply arm_inv in H as (? & H & ->);
  repeat (apply elem_of_cons in H as [H|H]; [injection H as -> ->|]);
  [..|by apply elem_of_nil in H].

Lemma on_binary t op o s ac cs : binary_token t op ->
  on_token t (mkSt o s false ac cs) = Ok (push_operator op (mkSt o s false ac cs)).
Proof.
  destruct t as [| |n|w]; cbn [binary_token]; try done.
  - intros [H Hn]. table H; try done; reflexivity.
  - intros H. table H; reflexivity.
Qed.

Lemma on_unary t op o s ac cs : unary_token t op ->
  on_token t (mkSt o s true ac cs) = Ok (push_operator op (mkSt o s true ac cs)).
Proof.
  destruct t as [| |n|w]; cbn [unary_token]; try done.
  - intros [H ->]. apply arm_inv in H as (w & H & ->).
    repeat (apply elem_of_cons in H as [H|H]; [injection H; intros; subst w; try done; reflexivity|]). by apply elem_of_nil in H.
  - intros H. table H; reflexivity.
Qed.

Lemma on_function n f o s ac cs : arm functions n = Some f ->
  on_token (Token.Ident n) (mkSt o s true ac cs) = Ok (mkSt o (Frame.Func f :: s) true ac cs).
Proof. intros H. table H; reflexivity. Qed.

Lemma unary_prec t op : unary_token t op -> Op.precedence op = (7%nat, Op.Right).
Proof. destruct t as [| |n|w]; cbn [unary_token]; try done; [intros [_ ->]; done|]. intros H. table H; done. Qed.

Lemma binary_prec t op : binary_token t op -> snd (Op.precedence op) = Op.Left /\ (1 <= fst (Op.precedence op) <= 6)%nat.
Proof.
  destruct t as [| |n|w]; cbn [binary_token]; try done.
  - intros [H Hn]. table H; try done; cbn; split; done || lia.
  - intros H. table H; cbn; split; done || lia.
Qed.

Lemma flush_length fs : forall o o', flush fs o = Ok o' -> (length o <= length o')%nat.
Proof.
  induction fs as [|f fs IH]; intros o o' H; cbn in H; [by simplify_eq|]. destruct f; try done.
  - apply IH in H. rewrite length_app in H. cbn in H. lia.
  - unfold finalize_cond, set_at in H. destruct (_ <? _)%nat; [|done]. cbn [bind_outcome] in H.
    destruct (_ <? _)%nat; [|done]. cbn [bind_outcome] in H. apply IH in H. rewrite !length_insert, length_app in H. lia.
Qed.

Lemma code_nonempty e : forall base, (0 < length (code base e))%nat.
Proof. destruct e; intros base; [cbn; lia..|rewrite code_App|cbn [code]]; rewrite !length_app; cbn; lia. Qed.

(** ** What parsing an expression does *)

Definition parses (p : nat) (toks : list Token) (c : nat -> list Op) : Prop :=
  forall o s ac cs, ctx_ok p s -> (length o + length (c (length o)) <= MAX_OPS)%nat ->
  exists fs o', steps toks (mkSt o s true ac cs) = Ok (mkSt o' (fs ++ s) false ac cs) /\
    Forall (pending p) fs /\ flush fs o' = Ok (o ++ c (length o)).

Definition parses_args (toks : list Token) (es : list Expr) : Prop :=
  forall o s n ac cs, (length o + length (codes (length o) es) <= MAX_OPS)%nat ->
  exists fs o', steps toks (mkSt o (Frame.Paren :: s) true (n :: ac) cs)
      = Ok (mkSt o' (fs ++ Frame.Paren :: s) false ((n + length es - 1)%nat :: ac) cs) /\
    Forall (pending 0) fs /\ flush fs o' = Ok (o ++ codes (length o) es).

(** A token that is an operand by itself. *)
Lemma parses_atom p t op : (forall o s ac cs, on_token t (mkSt o s true ac cs) = Ok (emit op (mkSt o s true ac cs))) ->
  parses p [t] (fun _ => [op]).
Proof.
  intros Ht o s ac cs _ Hl. cbn in Hl. exists [], (o ++ [op]). split; [|split; [constructor|done]]. cbn [steps].
  erewrite step_intro by (apply Ht || (cbn; rewrite length_app; cbn; lia)). done.
Qed.

Lemma ctx_up p s : ctx_ok p s -> ctx_ok (S p) s.
Proof. destruct s as [|[op| | | |] s]; cbn; try done. lia. Qed.

Lemma parses_up p toks c : parses (S p) toks c -> parses p toks c.
Proof.
  intros H o s ac cs Hc Hl. destruct (H o s ac cs (ctx_up _ _ Hc) Hl) as (fs & o' & H1 & H2 & H3).
  exists fs, o'. split; [done|]. split; [|done]. eapply Forall_impl; [exact H2|]. intros [] Hf; cbn in *; try done. lia.
Qed.

Lemma steps_cons tok toks st st' : on_token tok st = Ok st' -> (length (out st') <= MAX_OPS)%nat ->
  steps (tok :: toks) st = steps toks st'.
Proof. intros H Hl. cbn [steps]. now rewrite (step_intro tok st st'). Qed.

(** Closing a parenthesis that opens no call. *)
Lemma close_plain fs o o' s ac cs : Forall (pending 0) fs -> flush fs o = Ok o' -> ctx_ok 8 s ->
  on_token (sym ")") (mkSt o (fs ++ Frame.Paren :: s) false ac cs) = Ok (mkSt o' s false ac cs).
Proof.
  intros Hf Ho Hc. change (on_close (mkSt o (fs ++ Frame.Paren :: s) false ac cs) = Ok (mkSt o' s false ac cs)).
  unfold on_close. cbn [Calc.stack Calc.out]. rewrite (flush_paren 0), Ho by done. cbn. by destruct s as [|[] s].
Qed.

Lemma parses_paren toks c : parses 0 toks c -> parses 8 (sym "(" :: toks ++ [sym ")"]) c.
Proof.
  intros H o s ac cs Hc Hl. destruct (H o (Frame.Paren :: s) ac cs I Hl) as (fs & o' & H1 & H2 & H3).
  exists [], (o ++ c (length o)). split; [|split; [constructor|done]].
  rewrite (steps_cons _ _ _ (mkSt o (Frame.Paren :: s) true ac cs)); [|by destruct s as [|[] s]|cbn; lia].
  rewrite steps_app, H1. cbn [bind_outcome].
  erewrite steps_cons; [done|by apply close_plain|cbn; rewrite length_app; lia].
Qed.

(** *** Calls *)

Lemma args_one toks e : parses 0 toks (fun b => code b e) -> parses_args toks [e].
Proof.
  intros H o s n ac cs Hl. cbn in Hl. rewrite app_nil_r in Hl.
  destruct (H o (Frame.Paren :: s) (n :: ac) cs I Hl) as (fs & o' & H1 & H2 & H3). exists fs, o'.
  replace (n + length [e] - 1)%nat with n by (cbn; lia). cbn. by rewrite app_nil_r.
Qed.

Lemma args_cons toks1 toks2 e es :
  es <> [] -> parses 0 toks1 (fun b => code b e) -> parses_args toks2 es -> parses_args (toks1 ++ sym "," :: toks2) (e :: es).
Proof.
  intros Hne H1 H2 o s n ac cs Hl. cbn [codes] in *. rewrite length_app in Hl.
  destruct (H1 o (Frame.Paren :: s) (n :: ac) cs I ltac:(cbv beta; lia)) as (fs1 & o1 & S1 & P1 & F1).
  destruct (H2 (o ++ code (length o) e) s (S n) ac cs) as (fs2 & o2 & S2 & P2 & F2).
  { rewrite length_app. lia. }
  exists fs2, o2. rewrite steps_app, S1. cbn [bind_outcome].
  rewrite (steps_cons _ _ _ (mkSt (o ++ code (length o) e) (Frame.Paren :: s) true (S n :: ac) cs)).
  - rewrite S2. split; [|split; [done|]].
    + replace (S n + length es - 1)%nat with (n + length (e :: es) - 1)%nat; [done|]. destruct es; [done|]. cbn. lia.
    + rewrite F2, length_app. by rewrite <-app_assoc.
  - change (on_comma (mkSt o1 (fs1 ++ Frame.Paren :: s) false (n :: ac) cs)
      = Ok (mkSt (o ++ code (length o) e) (Frame.Paren :: s) true (S n :: ac) cs)).
    unfold on_comma. cbn [Calc.stack Calc.out arg_counts]. by rewrite (flush_comma 0), F1 by done.
  - cbn [Calc.out]. rewrite length_app. lia.
Qed.

Lemma parses_call n f toks es :
  arm functions n = Some f -> es <> [] -> parses_args toks es ->
  parses 8 (Token.Ident n :: sym "(" :: toks ++ [sym ")"]) (fun b => codes b es ++ [with_count f (length es)]).
Proof.
  intros Hn Hne H o s ac cs Hc Hl. rewrite length_app in Hl. cbn in Hl.
  destruct (H o (Frame.Func f :: s) 0%nat ac (length o :: cs) ltac:(lia)) as (fs & o' & S1 & P1 & F1).
  exists [], (o ++ codes (length o) es ++ [with_count f (length es)]). split; [|split; [constructor|done]].
  rewrite (steps_cons _ _ _ (mkSt o (Frame.Func f :: s) true ac cs)); [|by apply on_function|cbn; lia].
  rewrite (steps_cons _ _ _ (mkSt o (Frame.Paren :: Frame.Func f :: s) true (0%nat :: ac) (length o :: cs))); [|done|cbn; lia].
  rewrite steps_app, S1. cbn [bind_outcome]. erewrite steps_cons; [done| |cbn; rewrite !length_app; cbn; lia].
  match goal with |- on_token _ ?st = ?r => change (on_close st = r) end.
  unfold on_close. cbn [Calc.stack Calc.out]. rewrite (flush_paren 0), F1 by done. cbn [bind_outcome arg_counts call_starts hd tl].
  destruct es as [|e es]; [done|]. rewrite length_app. cbn [codes length].
  destruct (Nat.eqb_spec (length o + length (code (length o) e ++ codes (length o + length (code (length o) e)) es)) (length o)) as [E|_].
  { rewrite length_app in E. pose proof (code_nonempty e (length o)). lia. }
  rewrite <-!app_assoc. replace (0 + S (length es) - 1 + 1)%nat with (S (length es)) by lia. done.
Qed.

(** *** Operators *)

Lemma pop_none q s o : (7 <= q)%nat -> match s with Frame.Op op :: _ => (fst (Op.precedence op) <= q)%nat | _ => True end ->
  pop_while s o q Op.Right = (s, o).
Proof. intros Hq Hs. apply (flush_pop (S q) q Op.Right [] s o o); done || lia || constructor. Qed.

Lemma parses_unary t op toks c :
  unary_token t op -> parses 7 toks c -> parses 7 (t :: toks) (fun b => c b ++ [op]).
Proof.
  intros Ht H o s ac cs Hc Hl. rewrite length_app in Hl. pose proof (unary_prec _ _ Ht) as Hp.
  destruct (H o (Frame.Op op :: s) ac cs) as (fs & o' & S1 & P1 & F1); [cbn; rewrite Hp; cbn; lia|lia|].
  exists (fs ++ [Frame.Op op]), o'. rewrite (steps_cons _ _ _ (mkSt o (Frame.Op op :: s) true ac cs)); [|  |cbn; lia].
  - rewrite S1, <-app_assoc. split; [done|]. split.
    + apply Forall_app. split; [done|]. repeat constructor; cbn; rewrite Hp; cbn; lia.
    + rewrite flush_app, F1. cbn. by rewrite <-app_assoc.
  - rewrite (on_unary _ _ _ _ _ _ Ht). unfold push_operator. rewrite Hp. cbn [Calc.stack Calc.out].
    rewrite pop_none; [done|lia|]. destruct s as [|[] s]; try done. cbn in Hc. lia.
Qed.

Lemma parses_binary p t op toks1 toks2 c1 c2 :
  binary_token t op -> fst (Op.precedence op) = p -> parses p toks1 c1 -> parses (S p) toks2 c2 ->
  parses p (toks1 ++ t :: toks2) (fun b => c1 b ++ c2 (b + length (c1 b))%nat ++ [op]).
Proof.
  intros Ht Hp H1 H2 o s ac cs Hc Hl. rewrite !length_app in Hl. destruct (binary_prec _ _ Ht) as [Ha Hr].
  destruct (H1 o s ac cs Hc ltac:(lia)) as (fs1 & o1 & S1 & P1 & F1).
  destruct (H2 (o ++ c1 (length o)) (Frame.Op op :: s) ac cs) as (fs2 & o2 & S2 & P2 & F2).
  { cbn. lia. } { rewrite length_app. lia. }
  exists (fs2 ++ [Frame.Op op]), o2. rewrite steps_app, S1. cbn [bind_outcome].
  rewrite (steps_cons _ _ _ (mkSt (o ++ c1 (length o)) (Frame.Op op :: s) true ac cs)).
  - rewrite S2, <-app_assoc. split; [done|]. split.
    + apply Forall_app. split; [|repeat constructor; cbn; lia].
      eapply Forall_impl; [exact P2|]. intros [] Hf; cbn in *; try done. lia.
    + rewrite flush_app, F2, length_app. cbn. by rewrite <-!app_assoc.
  - rewrite (on_binary _ _ _ _ _ _ Ht). unfold push_operator. destruct (Op.precedence op) as [q a] eqn:E. cbn in Ha, Hp. subst.
    cbn [Calc.stack Calc.out]. cbn in Hr. rewrite (flush_pop p p Op.Left fs1 s o1 (o ++ c1 (length o))); try done; [lia|].
    destruct s as [|[] s]; try done. cbn in Hc. lia.
  - cbn [Calc.out]. rewrite length_app. lia.
Qed.

(** *** Conditionals *)

Definition cond_code (c1 c2 c3 : nat -> list Op) (base : nat) : list Op :=
  let cc := c1 base in
  let bt := (base + length cc + 1)%nat in
  let ct := c2 bt in
  let be := (bt + length ct + 1)%nat in
  let ce := c3 be in
  cc ++ Op.CondIf be :: ct ++ Op.CondElse (be + length ce + 1)%nat :: ce ++ [Op.CondEnd].

(** Backpatching turns the two placeholders into the jumps. *)
Lemma finalize_code x y z :
  finalize_cond (x ++ Op.CondIf 0 :: y ++ Op.CondElse 0 :: z) (length x) (length x + 1 + length y) =
  Ok (x ++ Op.CondIf (length x + 1 + length y + 1) :: y
        ++ Op.CondElse (length x + 1 + length y + 1 + length z + 1) :: z ++ [Op.CondEnd]).
Proof.
  unfold finalize_cond. set (e := Op.CondIf (length x + 1 + length y + 1)).
  assert (Hl : forall c, length ((x ++ c :: y ++ Op.CondElse 0 :: z) ++ [Op.CondEnd]) = (length x + 1 + length y + 1 + length z + 1)%nat)
    by (intros; rewrite !length_app; cbn; rewrite length_app; cbn; lia).
  rewrite CalcParse.set_at_ok by (rewrite Hl; lia). cbn [bind_outcome].
  assert (E : <[length x := e]> ((x ++ Op.CondIf 0 :: y ++ Op.CondElse 0 :: z) ++ [Op.CondEnd]) = (x ++ e :: y ++ Op.CondElse 0 :: z) ++ [Op.CondEnd]).
  { rewrite <-!app_assoc, <-(Nat.add_0_r (length x)), insert_app_r. done. }
  rewrite E, CalcParse.set_at_ok, Hl by (rewrite Hl; lia). clearbody e. generalize (length x + 1 + length y + 1 + length z + 1)%nat.
  intros n. f_equal. replace (length x + 1 + length y)%nat with (length x + S (length y + 0))%nat by lia.
  rewrite <-!app_assoc, insert_app_r. f_equal.
  change (e :: <[(length y + 0)%nat := Op.CondElse n]> ((y ++ Op.CondElse 0 :: z) ++ [Op.CondEnd]) = e :: y ++ Op.CondElse n :: z ++ [Op.CondEnd]).
  by rewrite <-app_assoc, insert_app_r.
Qed.

Lemma cond_open toks1 c1 rest o s ac cs :
  parses 1 toks1 c1 -> ctx_ok 0 s -> (length o + length (c1 (length o)) + 1 <= MAX_OPS)%nat ->
  steps (toks1 ++ sym "?" :: rest) (mkSt o s true ac cs)
  = steps rest (mkSt (o ++ c1 (length o) ++ [Op.CondIf 0]) (Frame.CondHead (length (o ++ c1 (length o))) :: s) true ac cs).
Proof.
  intros H Hc Hl. destruct (H o s ac cs (ctx_up _ _ Hc) ltac:(lia)) as (fs & o1 & S1 & P1 & F1).
  rewrite steps_app, S1. cbn [bind_outcome]. apply steps_cons; [|cbn [Calc.out]; rewrite !length_app; cbn; lia].
  match goal with |- on_token _ ?st = ?r => change (on_question st = r) end.
  unfold on_question. cbn [expect_operand Calc.stack Calc.out].
  rewrite (flush_pop 1 0 Op.Right fs s o1 (o ++ c1 (length o))); try done; [by rewrite <-app_assoc|lia|].
  destruct s as [|[] s]; try done. cbn in Hc. lia.
Qed.

(** From the then branch on: a pending store is carried below the conditional. *)
Lemma cond_close hs fs2 o2 x y c3 toks3 s ac cs :
  Forall (pending 0) fs2 -> flush fs2 o2 = Ok (x ++ Op.CondIf 0 :: y) -> (length hs <= 1)%nat -> parses 0 toks3 c3 ->
  let be := (length x + 1 + length y + 1)%nat in
  (be + length (c3 be) <= MAX_OPS)%nat ->
  exists fs o', steps (sym ":" :: toks3)
      (mkSt o2 (fs2 ++ map (fun i => Frame.Op (Op.Store i)) hs ++ Frame.CondHead (length x) :: s) false ac cs)
      = Ok (mkSt o' (fs ++ map (fun i => Frame.Op (Op.Store i)) hs ++ s) false ac cs) /\
    Forall (pending 0) fs /\
    flush fs o' = Ok (x ++ Op.CondIf be :: y ++ Op.CondElse (be + length (c3 be) + 1) :: c3 be ++ [Op.CondEnd]).
Proof.
  intros P2 F2 Hh H3 be Hl. set (held := map _ hs). set (oB := x ++ Op.CondIf 0 :: y ++ [Op.CondElse 0]).
  assert (HB : length oB = be) by (unfold oB, be; rewrite !length_app; cbn; rewrite length_app; cbn; lia).
  set (j := (length x + 1 + length y)%nat).
  destruct (H3 oB (Frame.CondTail (length x) j :: held ++ s) ac cs I) as (fs3 & o3 & S3 & P3 & F3); [by rewrite HB|].
  exists (fs3 ++ [Frame.CondTail (length x) j]), o3. split; [|split].
  - replace ((fs3 ++ [Frame.CondTail (length x) j]) ++ held ++ s) with (fs3 ++ Frame.CondTail (length x) j :: held ++ s) by (by rewrite <-app_assoc).
    rewrite <-S3. apply steps_cons; [|cbn [Calc.out]; rewrite HB; lia].
    match goal with |- on_token _ ?st = ?r => change (on_colon st = r) end.
    unfold on_colon. cbn [expect_operand Calc.stack Calc.out]. rewrite (flush_cond 0), F2 by done. cbn [bind_outcome].
    assert (E : unwind_cond (held ++ Frame.CondHead (length x) :: s) (x ++ Op.CondIf 0 :: y) []
      = Ok (Frame.CondTail (length x) j :: held ++ s, oB)).
    { replace j with (length (x ++ Op.CondIf 0 :: y)) by (rewrite length_app; unfold j; cbn; lia).
      unfold held, oB. destruct hs as [|i [|]]; [| |cbn in *; lia]; cbn; by rewrite <-app_assoc. }
    by rewrite E.
  - apply Forall_app. split; [done|]. by repeat constructor.
  - rewrite flush_app, F3. cbn [bind_outcome flush]. rewrite HB.
    replace (oB ++ c3 be) with (x ++ Op.CondIf 0 :: y ++ Op.CondElse 0 :: c3 be) by (unfold oB; by rewrite <-!app_assoc; cbn; rewrite <-app_assoc).
    unfold j. by rewrite finalize_code.
Qed.

Lemma parses_cond toks1 toks2 toks3 c1 c2 c3 :
  parses 1 toks1 c1 -> parses 0 toks2 c2 -> parses 0 toks3 c3 ->
  parses 0 (toks1 ++ sym "?" :: toks2 ++ sym ":" :: toks3) (cond_code c1 c2 c3).
Proof.
  intros H1 H2 H3 o s ac cs Hc Hl. unfold cond_code in *. cbv zeta in *. rewrite !length_app in Hl. cbn in Hl.
  rewrite !length_app in Hl. cbn in Hl. rewrite length_app in Hl. cbn in Hl.
  rewrite (cond_open _ c1) by (done || lia). rewrite steps_app. set (x := o ++ c1 (length o)).
  destruct (H2 (o ++ c1 (length o) ++ [Op.CondIf 0]) (Frame.CondHead (length x) :: s) ac cs I) as (fs2 & o2 & S2 & P2 & F2).
  { rewrite !length_app. cbn. rewrite Nat.add_assoc. lia. }
  rewrite S2. cbn [bind_outcome]. set (bt := (length o + length (c1 (length o)) + 1)%nat) in *.
  assert (Hx : (length x + 1)%nat = bt) by (unfold x, bt; rewrite length_app; lia).
  replace (length (o ++ c1 (length o) ++ [Op.CondIf 0])) with bt in F2 by (rewrite !length_app; cbn; unfold bt; lia).
  destruct (cond_close [] fs2 o2 x (c2 bt) c3 toks3 s ac cs P2) as (fs & o' & S3 & P3 & F3); try done.
  { rewrite F2. unfold x. by rewrite <-!app_assoc. }
  { cbn. lia. }
  { rewrite Hx. lia. }
  exists fs, o'. split; [done|]. split; [done|]. rewrite F3, Hx. unfold x. by rewrite <-app_assoc.
Qed.

(** ** What parsing the grammar does *)

Lemma parses_ext p toks c c' : (forall b, c b = c' b) -> parses p toks c -> parses p toks c'.
Proof.
  intros E H o s ac cs Hc Hl. rewrite <-E in Hl. destruct (H o s ac cs Hc Hl) as (fs & o' & ? & ? & ?).
  exists fs, o'. by rewrite <-E.
Qed.

Lemma derives_args_ne toks es : derives_args toks es -> es <> [].
Proof. by destruct 1. Qed.

Lemma derives_parse :
  (forall p toks e, derives p toks e -> parses p toks (fun b => code b e)) /\
  (forall toks es, derives_args toks es -> parses_args toks es).
Proof.
  apply derives_both.
  - intros v. by apply parses_atom.
  - intros n v Hn. apply parses_atom. intros. cbn. unfold on_ident. by rewrite Hn.
  - intros i _. by apply parses_atom.
  - by apply parses_atom.
  - intros toks e _ IH. by apply parses_paren.
  - intros n f toks es Hn Ha IH _. eapply parses_ext; [|eapply parses_call; eauto using derives_args_ne].
    intros b. by rewrite code_App.
  - intros t op toks e Ht _ IH. eapply parses_ext; [|by eapply parses_unary].
    intros b. rewrite code_App. cbn. by rewrite app_nil_r.
  - intros p t op toks1 toks2 e1 e2 Ht Hp _ IH1 _ IH2. eapply parses_ext; [|by eapply parses_binary].
    intros b. rewrite code_App. cbn. by rewrite app_nil_r, <-app_assoc.
  - intros toks1 toks2 toks3 c t e _ IH1 _ IH2 _ IH3. by apply (parses_cond _ _ _ _ _ _ IH1 IH2 IH3).
  - intros p toks e _ IH. by apply parses_up.
  - intros toks e _ IH. by apply args_one.
  - intros toks1 toks2 e es _ IH1 Ha IH2. apply args_cons; eauto using derives_args_ne.
Qed.

(** An assignment leaves its store below the pending frames. *)
Lemma assigns_parse toks i e : assigns toks i e ->
  forall o s ac cs, forallb is_cond_head s = true -> (length o + length (code (length o) e) + 1 <= MAX_OPS)%nat ->
  exists fs o', steps toks (mkSt o s true ac cs) = Ok (mkSt o' (fs ++ Frame.Op (Op.Store i) :: s) false ac cs) /\
    Forall (pending 0) fs /\ flush fs o' = Ok (o ++ code (length o) e).
Proof.
  induction 1 as [i toks e Hi Hd|toks1 toks2 toks3 i c t e H1 H2 IH H3]; intros o s ac cs Hs Hl.
  - apply derives_parse in Hd.
    destruct (Hd o (Frame.Op (Op.Store i) :: s) ac cs) as (fs & o' & S1 & P1 & F1); [cbn; lia|cbv beta; lia|].
    exists fs, o'. split; [|done]. pose proof (code_nonempty e (length o)).
    rewrite (steps_cons _ _ _ (mkSt (o ++ [Op.Arg i]) s false ac cs)); [|done|cbn [Calc.out]; rewrite length_app; cbn; lia].
    rewrite (steps_cons _ _ _ (mkSt o (Frame.Op (Op.Store i) :: s) true ac cs)); [done| |cbn [Calc.out]; lia].
    match goal with |- on_token _ ?st = ?r => change (on_store st = r) end.
    unfold on_store. cbn [expect_operand Calc.stack Calc.out]. by rewrite Hs, last_snoc, removelast_last.
  - apply derives_parse in H1, H3. cbn [code] in Hl. rewrite !length_app in Hl. cbn in Hl.
    rewrite !length_app in Hl. cbn in Hl. rewrite length_app in Hl. cbn in Hl.
    rewrite (cond_open _ (fun b => code b c)); [|done|by destruct s as [|[] s]|lia]. rewrite steps_app.
    set (x := o ++ code (length o) c). set (bt := (length o + length (code (length o) c) + 1)%nat) in *.
    assert (Hx : (length x + 1)%nat = bt) by (unfold x, bt; rewrite length_app; lia).
    assert (Hb : length (o ++ code (length o) c ++ [Op.CondIf 0]) = bt) by (rewrite !length_app; cbn; unfold bt; lia).
    destruct (IH (o ++ code (length o) c ++ [Op.CondIf 0]) (Frame.CondHead (length x) :: s) ac cs) as (fs2 & o2 & S2 & P2 & F2).
    { done. } { rewrite Hb. lia. }
    rewrite S2. cbn [bind_outcome]. rewrite Hb in F2.
    destruct (cond_close [i] fs2 o2 x (code bt t) (fun b => code b e) toks3 s ac cs P2) as (fs & o' & S3 & P3 & F3); try done.
    { rewrite F2. unfold x. by rewrite <-!app_assoc. }
    { rewrite Hx. lia. }
    exists fs, o'. split; [done|]. split; [done|]. rewrite F3, Hx. unfold x. by rewrite <-app_assoc.
Qed.

(** A statement leaves frames that emit the rest of its code. *)
Lemma statement_parse toks st : statement toks st -> forall o ac cs, (length o + length (stmt_code (length o) st) <= MAX_OPS)%nat ->
  exists fs o', steps toks (mkSt o [] true ac cs) = Ok (mkSt o' fs false ac cs) /\
    forall err, unwind_all err fs o' = Ok (o ++ stmt_code (length o) st).
Proof.
  destruct 1 as [toks e H|toks i e H]; intros o ac cs Hl; cbn [stmt_code] in *.
  - apply derives_parse in H. destruct (H o [] ac cs I Hl) as (fs & o' & S1 & P1 & F1). exists fs, o'.
    rewrite app_nil_r in S1. split; [done|]. intros err. rewrite <-(app_nil_r fs), (flush_all 0), F1 by done. done.
  - rewrite length_app in Hl. cbn in Hl.
    destruct (assigns_parse _ _ _ H o [] ac cs eq_refl ltac:(lia)) as (fs & o' & S1 & P1 & F1).
    exists (fs ++ [Frame.Op (Op.Store i)]), o'. split; [done|]. intros err. rewrite (flush_all 0), F1 by done.
    cbn. by rewrite <-app_assoc.
Qed.

Lemma program_parse toks p : program toks p -> forall o ac cs, (length o + length (prog_code (length o) p) <= MAX_OPS)%nat ->
  exists fs o', steps toks (mkSt o [] true ac cs) = Ok (mkSt o' fs false ac cs) /\
    unwind_all MissingOperand fs o' = Ok (o ++ prog_code (length o) p).
Proof.
  induction 1 as [toks s H|toks1 toks2 s p H Hp IH]; intros o ac cs Hl; cbn [prog_code] in *.
  - rewrite app_nil_r in *. destruct (statement_parse _ _ H o ac cs Hl) as (fs & o' & S1 & F1). eauto.
  - rewrite length_app in Hl. destruct (statement_parse _ _ H o ac cs ltac:(lia)) as (fs1 & o1 & S1 & F1).
    destruct (IH (o ++ stmt_code (length o) s) ac cs) as (fs & o' & S2 & F2); [rewrite length_app; lia|].
    exists fs, o'. split; [|by rewrite F2, length_app, <-app_assoc].
    rewrite steps_app, S1. cbn [bind_outcome]. rewrite <-S2. apply steps_cons; [|cbn [Calc.out]; rewrite length_app; lia].
    match goal with |- on_token _ ?st = ?r => change (on_semicolon st = r) end.
    unfold on_semicolon. cbn [expect_operand Calc.stack Calc.out]. by rewrite F1.
Qed.

(** ** The code of an expression passes the check *)

Inductive wf : Expr -> Prop :=
| wf_Arg i : (i < 21)%nat -> wf (Arg i)
| wf_Rndm : wf Rndm
| wf_App op es : applies op = true -> Op.arity op = length es -> Forall wf es -> wf (App op es)
| wf_Cond c t e : wf c -> wf t -> wf e -> wf (Cond c t e).

Definition placed (ops : list Op) (base : nat) (c : list Op) : Prop :=
  forall k op, c !! k = Some op -> ops !! (base + k)%nat = Some op.

Lemma placed_app ops base c1 c2 : placed ops base (c1 ++ c2) <-> placed ops base c1 /\ placed ops (base + length c1) c2.
Proof.
  split.
  - intros H. split; intros k op Hk.
    + apply H. rewrite lookup_app_l; [done|]. by eapply lookup_lt_Some.
    + rewrite <-Nat.add_assoc. apply H. rewrite lookup_app_r by lia. by replace (length c1 + k - length c1)%nat with k by lia.
  - intros [H1 H2] k op Hk. apply lookup_app_Some in Hk as [Hk|[Hl Hk]]; [by apply H1|].
    apply H2 in Hk. by replace (base + length c1 + (k - length c1))%nat with (base + k)%nat in Hk by lia.
Qed.

Lemma placed_cons ops base op c : placed ops base (op :: c) <-> ops !! base = Some op /\ placed ops (base + 1) c.
Proof.
  rewrite (placed_app ops base [op] c). split; intros [H1 H2]; (split; [|done]).
  - specialize (H1 0%nat op eq_refl). by rewrite Nat.add_0_r in H1.
  - intros [|k] o Hk; [|done]. cbn in Hk. simplify_eq. by rewrite Nat.add_0_r.
Qed.

Lemma placed_lt ops base c : placed ops base c -> c <> [] -> (base + length c <= length ops)%nat.
Proof.
  intros H Hne. destruct (lookup_lt_is_Some_2 c (length c - 1)) as [op Ho]; [destruct c; [done|cbn; lia]|].
  pose proof (H _ _ Ho) as Hl. apply lookup_lt_Some in Hl, Ho. lia.
Qed.

(** Enough fuel is enough. *)
Lemma check_segment_fuel ops f1 : forall f2 i end_ d, (end_ <= length ops)%nat -> (end_ - i < f1)%nat -> (end_ - i < f2)%nat ->
  check_segment f1 ops i end_ d = check_segment f2 ops i end_ d.
Proof.
  induction f1 as [|f1 IH]; intros [|f2] i end_ d He H1 H2; try lia. cbn [check_segment].
  destruct (Nat.leb_spec end_ i); [done|].
  destruct (ops !! i) as [op|] eqn:Ei; [|done].
  destruct op; try (destruct (_ <? _)%nat; [done|]; apply IH; lia); try done. rename else_target into t.
  destruct (_ <? _)%nat; [done|]. cbv zeta. destruct (_ || _) eqn:Eb; [done|].
  apply orb_false_iff in Eb as [Eb E3]. apply orb_false_iff in Eb as [E1 E2].
  apply Nat.eqb_neq in E1. apply Nat.ltb_ge in E2. apply Nat.leb_gt in E3.
  destruct (ops !! (t - 1)%nat) as [[]|]; try done. rename end_target into e.
  destruct (_ || _) eqn:Eb; [done|]. apply orb_false_iff in Eb as [Eb F3]. apply orb_false_iff in Eb as [F1 F2].
  apply Nat.eqb_neq in F1. apply Nat.ltb_ge in F2. apply Nat.leb_gt in F3.
  destruct (negb _); [done|]. rewrite (IH f2 (i + 1)%nat (t - 1)%nat) by lia.
  destruct (check_segment f2 ops (i + 1) _ _); try done. cbn [bind_outcome]. destruct (negb _); [done|].
  rewrite (IH f2 (t - 1 + 1)%nat (e - 1)%nat) by lia. destruct (check_segment f2 ops (t - 1 + 1) _ _); try done.
  cbn [bind_outcome]. destruct (negb _); [done|]. apply IH; lia.
Qed.

(** From [i] at depth [d] the check goes on at [j] with depth [d']. *)
Definition checks (ops : list Op) (i d j d' : nat) : Prop :=
  forall fuel end_, (j <= end_ <= length ops)%nat -> (end_ - i < fuel)%nat ->
  check_segment fuel ops i end_ d = check_segment fuel ops j end_ d'.

Lemma checks_trans ops i d j d' k d'' : (i <= j <= k)%nat -> checks ops i d j d' -> checks ops j d' k d'' -> checks ops i d k d''.
Proof. intros Hij H1 H2 fuel end_ He Hf. rewrite H1 by lia. apply H2; lia. Qed.

Lemma checks_one ops i op d : ops !! i = Some op -> CalcParse.is_cond op = false -> CalcParse.is_store op = false ->
  (Op.arity op <= d)%nat -> checks ops i d (i + 1) (d - Op.arity op + 1).
Proof.
  intros Ho Hc Hs Hd [|fuel] end_ He Hf; [lia|]. rewrite (check_segment_fuel ops (S fuel) fuel (i + 1)) by lia.
  cbn [check_segment]. destruct (Nat.leb_spec end_ i); [lia|]. rewrite Ho.
  destruct (Nat.ltb_spec d (Op.arity op)) as [|Hl]; [lia|]. apply Nat.ltb_ge in Hl.
  destruct op; try done; cbn [Op.arity] in *; by rewrite Hl.
Qed.

Lemma checks_store ops i s d : ops !! i = Some (Op.Store s) -> checks ops i (S d) (i + 1) d.
Proof.
  intros Ho [|fuel] end_ He Hf; [lia|]. rewrite (check_segment_fuel ops (S fuel) fuel (i + 1)) by lia.
  cbn [check_segment]. destruct (Nat.leb_spec end_ i); [lia|]. rewrite Ho. cbn [Nat.ltb Nat.leb].
  by rewrite Nat.sub_succ, Nat.sub_0_r.
Qed.

Lemma checks_cond ops i t e d :
  ops !! i = Some (Op.CondIf t) -> ops !! (t - 1)%nat = Some (Op.CondElse e) -> ops !! (e - 1)%nat = Some Op.CondEnd ->
  (i + 1 < t < e)%nat -> checks ops (i + 1) d (t - 1) (S d) -> checks ops t d (e - 1) (S d) -> checks ops i (S d) e (S d).
Proof.
  intros H1 H2 H3 Ht C1 C2 [|fuel] end_ He Hf; [lia|]. rewrite (check_segment_fuel ops (S fuel) fuel e) by lia.
  cbn [check_segment]. destruct (Nat.leb_spec end_ i); [lia|].
  rewrite H1. destruct (Nat.ltb_spec (S d) 1); [lia|]. cbv zeta. rewrite Nat.sub_succ, Nat.sub_0_r.
  destruct (Nat.eqb_spec t 0); [lia|]. destruct (Nat.ltb_spec end_ t); [lia|]. destruct (Nat.leb_spec (t - 1) i); [lia|].
  cbn [orb]. rewrite H2. destruct (Nat.eqb_spec e 0); [lia|]. destruct (Nat.ltb_spec end_ e); [lia|].
  destruct (Nat.leb_spec e (t - 1)); [lia|]. cbn [orb]. rewrite bool_decide_eq_true_2 by done. cbn [negb].
  assert (E : forall j k, (k <= length ops)%nat -> (k - j < fuel)%nat -> (k <= j)%nat -> check_segment fuel ops j k (S d) = Ok (S d)).
  { intros j k _ Hk Hjk. destruct fuel; [lia|]. cbn [check_segment]. destruct (Nat.leb_spec k j); [done|lia]. }
  rewrite C1 by lia. rewrite E by lia. cbn [bind_outcome]. rewrite (Nat.add_1_r d), Nat.eqb_refl. cbn [negb].
  replace (t - 1 + 1)%nat with t by lia. rewrite C2 by lia. rewrite E by lia. cbn [bind_outcome]. rewrite Nat.eqb_refl. cbn [negb].
  by replace (e - 1 + 1)%nat with e by lia.
Qed.

Lemma code_split ops base c t e : placed ops base (code base (Cond c t e)) ->
  let i := (base + length (code base c))%nat in
  let t_ := (i + 1 + length (code (i + 1) t) + 1)%nat in
  let e_ := (t_ + length (code t_ e) + 1)%nat in
  placed ops base (code base c) /\ ops !! i = Some (Op.CondIf t_) /\ placed ops (i + 1) (code (i + 1) t) /\
  ops !! (t_ - 1)%nat = Some (Op.CondElse e_) /\ placed ops t_ (code t_ e) /\ ops !! (e_ - 1)%nat = Some Op.CondEnd /\
  (base + length (code base (Cond c t e)))%nat = e_ /\ (i + 1 < t_ < e_)%nat.
Proof.
  intros H i t_ e_. cbn [code] in H. fold i in H. fold t_ in H. fold e_ in H.
  apply placed_app in H as [H1 H]. fold i in H. apply placed_cons in H as [H2 H]. apply placed_app in H as [H3 H].
  apply placed_cons in H as [H4 H].
  replace (i + 1 + length (code (i + 1) t) + 1)%nat with t_ in H by (unfold t_; lia).
  replace (i + 1 + length (code (i + 1) t))%nat with (t_ - 1)%nat in H4 by (unfold t_; lia).
  apply placed_app in H as [H5 H]. apply placed_cons in H as [H6 _].
  replace (t_ + length (code t_ e))%nat with (e_ - 1)%nat in H6 by (unfold e_; lia).
  pose proof (code_nonempty t (i + 1)). pose proof (code_nonempty e t_).
  repeat split; try done; [|unfold t_; lia|unfold e_; lia].
  cbn [code]. fold i. fold t_. fold e_. rewrite !length_app. cbn. rewrite !length_app. cbn. rewrite length_app. cbn.
  unfold e_, t_, i. lia.
Qed.

Lemma applies_plain op : applies op = true -> CalcParse.is_cond op = false /\ CalcParse.is_store op = false.
Proof. by destruct op. Qed.

Lemma code_checks e : wf e -> forall ops base d, placed ops base (code base e) ->
  checks ops base d (base + length (code base e)) (S d).
Proof.
  induction e as [i| |op es IH|c t e IHc IHt IHe] using Expr_nested_ind; intros Hw ops base d Hp.
  - apply placed_cons in Hp as [Ho _]. cbn. replace (S d) with (d - 0 + 1)%nat by lia. apply (checks_one _ _ _ d Ho); done || (cbn; lia).
  - apply placed_cons in Hp as [Ho _]. cbn. replace (S d) with (d - 0 + 1)%nat by lia. apply (checks_one _ _ _ d Ho); done || (cbn; lia).
  - inversion_clear Hw as [| |? ? Ha Har Hes|]. rewrite code_App in *. apply placed_app in Hp as [Hp Ho].
    apply placed_cons in Ho as [Ho _].
    assert (Hc : forall base d, placed ops base (codes base es) ->
      checks ops base d (base + length (codes base es)) (d + length es)).
    { clear Hp Ho Har. clear base d. induction es as [|e es IHes]; intros base d Hp; cbn [codes length] in *.
      - rewrite !Nat.add_0_r. intros fuel end_ _ _. done.
      - apply placed_app in Hp as [H1 H2]. apply Forall_cons in IH as [IH1 IH2]. apply Forall_cons in Hes as [W1 W2].
        rewrite length_app, Nat.add_assoc. eapply checks_trans; [|by apply IH1|].
        + lia.
        + replace (d + S (length es))%nat with (S d + length es)%nat by lia. by apply IHes. }
    rewrite length_app, Nat.add_assoc. eapply checks_trans; [|by apply Hc|]; [cbn; lia|].
    replace (S d) with (d + length es - Op.arity op + 1)%nat by lia. destruct (applies_plain op Ha).
    apply checks_one; done || lia.
  - inversion_clear Hw as [| | |? ? ? Wc Wt We]. destruct (code_split _ _ _ _ _ Hp) as (H1 & H2 & H3 & H4 & H5 & H6 & -> & Hl).
    eapply checks_trans; [|by apply IHc|]; [lia|]. eapply checks_cond; try done.
    + match goal with |- checks _ _ _ (?t - 1) _ => set (t_ := t) in * end.
      match goal with |- checks _ ?i _ _ _ => replace (t_ - 1)%nat with (i + length (code i t))%nat by (unfold t_; lia) end.
      by apply IHt.
    + match goal with |- checks _ ?i _ (?e_ - 1) _ => replace (e_ - 1)%nat with (i + length (code i e))%nat by lia end. by apply IHe.
Qed.

(** ** Running the code of an expression *)

Section Runs.
Context {R : Type} (lm : Libm) (draw : R -> Z * R) (ops : list Op).
Notation leads := (leads lm draw ops).

(** The code leaves the meaning on the stack. *)
Definition runs_as (e : Expr) : Prop :=
  forall base (m : Machine R), placed ops base (code base e) -> length (args m) = 21%nat ->
  exists n v r, (n <= length (code base e))%nat /\ denote lm draw (args m) e (rng m) = Some (v, r) /\
    leads n base m (base + length (code base e)) (mkM (v :: vals m) (args m) r).

Lemma codes_run es : Forall runs_as es -> forall base (m : Machine R), placed ops base (codes base es) -> length (args m) = 21%nat ->
  exists n vs r, (n <= length (codes base es))%nat /\ denotes lm draw (args m) es (rng m) = Some (vs, r) /\
    length vs = length es /\ leads n base m (base + length (codes base es)) (mkM (rev vs ++ vals m) (args m) r).
Proof.
  induction 1 as [|e es He _ IH]; intros base m Hp Ha; cbn [codes denotes] in *.
  - exists 0%nat, [], (rng m). rewrite Nat.add_0_r. repeat split; try done. by destruct m.
  - apply placed_app in Hp as [H1 H2]. destruct (He base m H1 Ha) as (n1 & v & r1 & N1 & -> & L1).
    destruct (IH _ (mkM (v :: vals m) (args m) r1) H2 Ha) as (n2 & vs & r2 & N2 & E2 & V2 & L2). cbn in E2. rewrite E2.
    exists (n1 + n2)%nat, (v :: vs), r2. rewrite length_app, Nat.add_assoc. repeat split; [lia|cbn; lia|].
    eapply leads_trans; [exact L1|]. cbn [rev]. rewrite <-app_assoc. exact L2.
Qed.

Lemma code_runs e : wf e -> runs_as e.
Proof.
  induction e as [i| |op es IH|c t e IHc IHt IHe] using Expr_nested_ind; intros Hw base m Hp Ha.
  - inversion_clear Hw as [? Hi| | |]. apply placed_cons in Hp as [Ho _].
    destruct (lookup_lt_is_Some_2 (args m) i) as [v Hv]; [lia|]. exists 1%nat, v, (rng m). cbn [denote code length]. rewrite Hv.
    repeat split; [lia|]. eapply leads_one; [done|]. cbn. rewrite Hv. by rewrite Nat.add_1_r.
  - apply placed_cons in Hp as [Ho _]. destruct (draw (rng m)) as [v r] eqn:E. exists 1%nat, v, r. cbn [denote code length]. rewrite E.
    repeat split; [lia|]. eapply leads_one; [done|]. cbn. rewrite E. by rewrite Nat.add_1_r.
  - inversion_clear Hw as [| |? ? Hap Har Hes|]. rewrite code_App in *. apply placed_app in Hp as [Hp Ho].
    apply placed_cons in Ho as [Ho _].
    assert (Hes' : Forall runs_as es) by (rewrite Forall_forall in *; eauto).
    destruct (codes_run es Hes' base m Hp Ha) as (n & vs & r & N & E & V & L).
    set (m1 := mkM (rev vs ++ vals m) (args m) r) in *.
    destruct (exec_applies lm draw op (base + length (codes base es)) m1 Hap) as (v & Ev & Ex).
    { cbn. rewrite length_app, length_rev. lia. }
    unfold m1 in Ev at 1. cbn [vals] in Ev. rewrite take_app_length', rev_involutive in Ev by (rewrite length_rev; lia).
    exists (n + 1)%nat, v, r. rewrite denote_App, E, Ev, length_app, Nat.add_assoc. repeat split; [cbn; lia|].
    eapply leads_trans; [exact L|]. eapply leads_one; [exact Ho|]. rewrite Ex. cbn.
    rewrite drop_app_length' by (rewrite length_rev; lia). by rewrite Nat.add_1_r.
  - inversion_clear Hw as [| | |? ? ? Wc Wt We]. destruct (code_split _ _ _ _ _ Hp) as (H1 & H2 & H3 & H4 & H5 & H6 & He & Hl).
    destruct (IHc Wc base m H1 Ha) as (n1 & v & r1 & N1 & E1 & L1). cbn [denote]. rewrite E1. rewrite He.
    set (i := (base + length (code base c))%nat) in *. set (t_ := (i + 1 + length (code (i + 1) t) + 1)%nat) in *.
    set (e_ := (t_ + length (code t_ e) + 1)%nat) in *. set (m1 := mkM (vals m) (args m) r1).
    destruct (IHt Wt _ m1 H3 Ha) as (n2 & v2 & r2 & N2 & E2 & L2). destruct (IHe We _ m1 H5 Ha) as (n3 & v3 & r3 & N3 & E3 & L3).
    replace (i + 1 + length (code (i + 1) t))%nat with (t_ - 1)%nat in L2 by (unfold t_; lia).
    replace (t_ + length (code t_ e))%nat with (e_ - 1)%nat in L3 by (unfold e_; lia).
    pose proof (cond_leads lm draw ops i t_ e_ n2 n3 v (vals m) (args m) r1 _ _ H2 H4 H6 Hl L2 L3) as L.
    exists (n1 + (if Float.eq64 v 0 then n3 + 2 else n2 + 2))%nat, (if Float.eq64 v 0 then v3 else v2), (if Float.eq64 v 0 then r3 else r2).
    repeat split.
    + assert (length (code base (Cond c t e)) = (e_ - base)%nat) as -> by lia. unfold e_, t_, i in *. destruct (Float.eq64 v 0); lia.
    + by destruct (Float.eq64 v 0).
    + eapply leads_trans; [exact L1|]. by destruct (Float.eq64 v 0).
Qed.

End Runs.

(** ** Programs *)

Definition stmt_wf (s : Stmt) : Prop := match s with Val e => wf e | Set_ i e => (i < 21)%nat /\ wf e end.
Definition is_val (s : Stmt) : bool := match s with Val _ => true | Set_ _ _ => false end.
Definition values (p : list Stmt) : nat := length (List.filter is_val p).

Lemma prog_checks p : Forall stmt_wf p -> forall ops base d, placed ops base (prog_code base p) ->
  checks ops base d (base + length (prog_code base p)) (d + values p).
Proof.
  induction 1 as [|s p Hs _ IH]; intros ops base d Hp; cbn [prog_code] in *.
  - unfold values. cbn. rewrite !Nat.add_0_r. intros fuel end_ _ _. done.
  - apply placed_app in Hp as [H1 H2]. rewrite length_app, Nat.add_assoc. destruct s as [e|i e]; cbn [stmt_code] in *.
    + eapply checks_trans; [|by apply code_checks|]; [lia|]. unfold values. cbn.
      replace (d + S (length (List.filter is_val p)))%nat with (S d + values p)%nat by (unfold values; lia). by apply IH.
    + destruct Hs as [Hi He]. apply placed_app in H1 as [H1 H3]. apply placed_cons in H3 as [H3 _].
      eapply checks_trans; [|by apply code_checks|]; [rewrite length_app; lia|].
      eapply checks_trans; [|by apply (checks_store _ _ i)|]; [rewrite length_app; cbn; lia|].
      rewrite length_app, Nat.add_assoc in *. by apply IH.
Qed.

Lemma prog_runs {R} (lm : Libm) (draw : R -> Z * R) ops p : Forall stmt_wf p ->
  forall base (m : Machine R), placed ops base (prog_code base p) -> length (args m) = 21%nat ->
  exists n vs a r, (n <= length (prog_code base p))%nat /\ denote_prog lm draw p (args m) (rng m) = Some (vs, a, r) /\
    length vs = values p /\ leads lm draw ops n base m (base + length (prog_code base p)) (mkM (rev vs ++ vals m) a r).
Proof.
  induction 1 as [|s p Hs _ IH]; intros base m Hp Ha; cbn [prog_code denote_prog] in *.
  - exists 0%nat, [], (args m), (rng m). rewrite Nat.add_0_r. repeat split; try done. by destruct m.
  - apply placed_app in Hp as [H1 H2]. rewrite length_app, Nat.add_assoc. destruct s as [e|i e]; cbn [stmt_code] in *.
    + destruct (code_runs lm draw ops e Hs base m H1 Ha) as (n1 & v & r1 & N1 & E1 & L1). rewrite E1.
      destruct (IH _ (mkM (v :: vals m) (args m) r1) H2 Ha) as (n2 & vs & a & r & N2 & E2 & V2 & L2). cbn in E2. rewrite E2.
      exists (n1 + n2)%nat, (v :: vs), a, r. unfold values in *. repeat split; [lia|cbn; lia|].
      eapply leads_trans; [exact L1|]. cbn [rev]. rewrite <-app_assoc. exact L2.
    + destruct Hs as [Hi He]. apply placed_app in H1 as [H1 H3]. apply placed_cons in H3 as [H3 _].
      destruct (code_runs lm draw ops e He base m H1 Ha) as (n1 & v & r1 & N1 & E1 & L1). rewrite E1.
      destruct (IH _ (mkM (vals m) (<[i := v]> (args m)) r1) H2) as (n2 & vs & a & r & N2 & E2 & V2 & L2); [cbn; by rewrite length_insert|].
      cbn in E2. rewrite E2. exists (n1 + 1 + n2)%nat, vs, a, r. rewrite length_app in *. cbn [length] in *.
      repeat split; [lia|done|]. eapply leads_trans; [|exact L2]. eapply leads_trans; [exact L1|].
      eapply leads_one; [exact H3|]. destruct (exec_store lm draw i (base + length (code base e)) (mkM (v :: vals m) (args m) r1))
        as (v' & s' & E & ->); [done|done|cbn; lia|]. cbn in E. simplify_eq. cbn. repeat f_equal. lia.
Qed.

(** *** The expressions of the grammar are well formed *)

Lemma unary_wf t op : unary_token t op -> applies op = true /\ Op.arity op = 1%nat.
Proof. destruct t as [| |n|w]; cbn [unary_token]; try done; [intros [_ ->]; done|]. intros H. table H; done. Qed.

Lemma binary_wf t op : binary_token t op -> applies op = true /\ Op.arity op = 2%nat.
Proof. destruct t as [| |n|w]; cbn [binary_token]; try done; [intros [H Hn]|intros H]; table H; done. Qed.

Lemma function_applies n f k : arm functions n = Some f -> applies (with_count f k) = true.
Proof. intros H. table H; done. Qed.

Lemma derives_wf : (forall p toks e, derives p toks e -> wf e) /\ (forall toks es, derives_args toks es -> Forall wf es).
Proof.
  apply derives_both; try done.
  - intros v. by apply wf_App.
  - intros n v _. by apply wf_App.
  - intros i Hi. by apply wf_Arg.
  - apply wf_Rndm.
  - intros n f toks es Hn _ Hes Ha. apply wf_App; [by eapply function_applies|done|done].
  - intros t op toks e Ht _ He. apply unary_wf in Ht as [? ?]. apply wf_App; auto.
  - intros p t op toks1 toks2 e1 e2 Ht _ _ H1 _ H2. apply binary_wf in Ht as [? ?]. apply wf_App; auto.
  - intros. by apply wf_Cond.
  - intros. by constructor.
  - intros. by constructor.
Qed.

Lemma assigns_wf toks i e : assigns toks i e -> (i < 21)%nat /\ wf e.
Proof.
  induction 1 as [i toks e Hi Hd|toks1 toks2 toks3 i c t e H1 H2 [? ?] H3]; [split; [done|by eapply derives_wf]|].
  split; [done|]. apply wf_Cond; [by eapply derives_wf|done|by eapply derives_wf].
Qed.

Lemma program_wf toks p : program toks p -> Forall stmt_wf p.
Proof.
  assert (Hs : forall toks s, statement toks s -> stmt_wf s)
    by (destruct 1 as [toks' e H|toks' i e H]; [by eapply derives_wf|by eapply assigns_wf]).
  induction 1; repeat constructor; eauto.
Qed.

(** C6: the compiler is correct: text that reads as a program of the grammar, with
    exactly one statement that is not an assignment and code of at most
    [MAX_OPS] operations, compiles to the code of its syntax tree: operators are
    grouped by their level and to the left, the else branch of [?:] reaches as far
    as it can, a store in a then branch is hoisted.  Evaluating the code on any
    operands gives the meaning of the program: every operand of an operator is
    evaluated once and in order, only the branch taken is evaluated, and
    assignments take effect in order. *)
Theorem calc_compiler_correct src toks p :
  lex src = Ok toks -> program toks p -> values p = 1%nat -> (length (prog_code 0 p) <= MAX_OPS)%nat ->
  compile src = Ok (prog_code 0 p) /\
  forall R (lm : Libm) (draw : R -> Z * R) (a : list Z) (r : R), length a = 21%nat ->
  exists v a' r', denote_prog lm draw p a r = Some ([v], a', r') /\ eval_with_rng lm draw (prog_code 0 p) a r = Ok (v, a', r').
Proof.
  intros Hlex Hp Hv Hl. pose proof (program_wf _ _ Hp) as Hw. set (ops := prog_code 0 p) in *.
  assert (Hpl : placed ops 0 (prog_code 0 p)) by (intros k op; done). split.
  - unfold compile. rewrite Hlex. cbn [bind_outcome]. destruct (program_parse _ _ Hp [] [] [] Hl) as (fs & o & S1 & F1).
    unfold init. rewrite S1. cbn [bind_outcome]. unfold finish. cbn [Calc.stack Calc.out expect_operand andb]. rewrite F1.
    change ([] ++ prog_code (length []) p) with ops. cbn [bind_outcome]. destruct (Nat.ltb_spec MAX_OPS (length ops)); [lia|].
    assert (Hc : check_arity ops = Ok tt).
    { unfold check_arity. rewrite (prog_checks p Hw ops 0 0 Hpl) by (fold ops; lia). fold ops. cbn [Nat.add]. rewrite Hv.
      cbn [check_segment]. by rewrite Nat.leb_refl. }
    by rewrite Hc.
  - intros R lm draw a r Ha. destruct (prog_runs lm draw ops p Hw 0 (mkM [] a r) Hpl Ha) as (n & vs & a' & r' & N & E & V & L).
    rewrite Hv in V. destruct vs as [|v [|]]; try done. exists v, a', r'. split; [done|].
    unfold eval_with_rng, run. fold ops in L, N. specialize (L (S (length ops) - n)%nat).
    replace (n + (S (length ops) - n))%nat with (S (length ops)) in L by lia. rewrite L.
    replace (S (length ops) - n)%nat with (S (length ops - n)) by lia. cbn [run_from Nat.add].
    by rewrite (lookup_ge_None_2 ops (length ops)) by lia.
Qed.

(** ** Samples *)

Lemma derives_le q p toks e : (p <= q)%nat -> derives q toks e -> derives p toks e.
Proof. intros H Hd. induction H as [|q H IH]; [done|]. apply IH. by apply d_up. Qed.

Definition sample_src : bytes := str "A ? B := -C^2 : 1; B+MIN(A,2)".
Definition sample_prog : list Stmt :=
  [Set_ 1 (Cond (Arg 0) (App Op.Pow [App Op.Neg [Arg 2]; App (Op.Lit (Float.of_Z 2)) []]) (App (Op.Lit (Float.of_Z 1)) []));
   Val (App Op.Add [Arg 1; App (Op.Min 2) [Arg 0; App (Op.Lit (Float.of_Z 2)) []]])].

Lemma sample_program : exists toks, lex sample_src = Ok toks /\ program toks sample_prog.
Proof.
  eexists. split; [vm_compute; reflexivity|].
  apply (p_cons [Token.Arg 0; sym "?"; Token.Arg 1; sym ":="; sym "-"; Token.Arg 2; sym "^"; Token.Num (Float.of_Z 2); sym ":"; Token.Num (Float.of_Z 1)]).
  - apply s_set, (h_cond [Token.Arg 0] [Token.Arg 1; sym ":="; sym "-"; Token.Arg 2; sym "^"; Token.Num (Float.of_Z 2)]).
    + apply (derives_le 8); [lia|]. apply d_arg. lia.
    + apply h_set; [lia|]. apply (derives_le 6); [lia|].
      apply (d_binary 6 (sym "^") Op.Pow [sym "-"; Token.Arg 2]); [done..| |apply (derives_le 8); [lia|apply d_num]].
      apply d_up, (d_unary (sym "-")); [done|]. apply d_up, d_arg. lia.
    + apply (derives_le 8); [lia|]. apply d_num.
  - apply p_one, s_val, (derives_le 4); [lia|]. apply (d_binary 4 (sym "+") Op.Add [Token.Arg 1]); [done..| |].
    + apply (derives_le 8); [lia|]. apply d_arg. lia.
    + apply (derives_le 8); [lia|]. apply (d_call (str "MIN") (Op.Min 0) [Token.Arg 0; sym ","; Token.Num (Float.of_Z 2)]
        [Arg 0; App (Op.Lit (Float.of_Z 2)) []]); [done| |done].
      apply (a_cons [Token.Arg 0]); [|apply a_one; apply (derives_le 8); [lia|apply d_num]].
      apply (derives_le 8); [lia|]. apply d_arg. lia.
Qed.

Lemma calc_compiler_correct_witness :
  compile sample_src = Ok (prog_code 0 sample_prog) /\
  exists v a r, eval_with_rng sample_libm next_rndm (prog_code 0 sample_prog) (replicate 21 0) 1 = Ok (v, a, r).
Proof.
  destruct sample_program as (toks & Hl & Hp).
  destruct (calc_compiler_correct sample_src toks sample_prog Hl Hp eq_refl) as [Hc Hr]; [vm_compute; lia|].
  split; [exact Hc|]. destruct (Hr Z sample_libm next_rndm (replicate 21 0) 1 eq_refl) as (v & a & r & _ & E). eauto.
Defined.

(** Beyond the grammar: the argument count of a call is not checked against the
    function, so that a call with one argument too many is accepted where the
    surplus value is used by an enclosing call, and a missing comma is too. *)
Example call_arity_unchecked :
  compile (str "ABS(A,B)") = Err ExtraOperand /\
  compile (str "ATAN2(ABS(A,B))") = Ok [Op.Arg 0; Op.Arg 1; Op.Abs; Op.Atan2] /\
  compile (str "ATAN2(A B)") = compile (str "ATAN2(A,B)").
Proof. vm_compute. done. Qed.

End CalcGrammar.
