(* ===== verification/Registry.v ===== *)
(** * The source registry and the search resolver

    [spvirit-server/src/pvstore.rs] and [search_resolve.rs]: the sources of a
    server in the order they are asked, the memo of resolved names, and the
    background tasks that resolve what a search could not answer.  A source is a
    number; what it answers is an argument, since it may change between two
    questions.  Each critical section of a task is one step of an interleaving;
    time is in nanoseconds. *)

From Stdlib Require Import ZArith Sorted.
From stdpp Require Import gmap sorting.
From S2P Require Import Prelude.

Local Open Scope Z_scope.

Module Registry.

(** ** Sorting by a key *)

Section Sort.
Context {A : Type} (key : A -> Z).

(** [sort_by_key], which is stable. *)
Fixpoint insert_by_key (x : A) (l : list A) : list A :=
  match l with
  | [] => [x]
  | y :: l' => if key x <=? key y then x :: l else y :: insert_by_key x l'
  end.

Definition sort_by_key (l : list A) : list A := foldr insert_by_key [] l.

Definition ordered : list A -> Prop := StronglySorted (fun x y => key x <= key y).

Definition of_key (k : Z) (l : list A) : list A := List.filter (fun x => key x =? k) l.

Lemma insert_by_key_perm x l : insert_by_key x l ≡ₚ x :: l.
Proof. induction l as [|y l IH]; cbn; [done|]. destruct (_ <=? _); [done|]. rewrite IH. constructor. Qed.

Lemma sort_by_key_perm l : sort_by_key l ≡ₚ l.
Proof. induction l as [|x l IH]; cbn; [done|]. by rewrite insert_by_key_perm, IH. Qed.

Lemma insert_by_key_ordered x l : ordered l -> ordered (insert_by_key x l).
Proof.
  induction l as [|y l IH]; cbn; [repeat constructor|]. intros H. inversion_clear H as [|? ? Hs Hf].
  destruct (Z.leb_spec (key x) (key y)).
  - constructor; [by constructor|]. constructor; [done|]. eapply Forall_impl; [exact Hf|]. cbn. lia.
  - constructor; [by apply IH|]. rewrite insert_by_key_perm. constructor; [lia|done].
Qed.

Lemma sort_by_key_ordered l : ordered (sort_by_key l).
Proof. induction l as [|x l IH]; cbn; [constructor|]. by apply insert_by_key_ordered. Qed.

Lemma of_key_insert k x l : of_key k (insert_by_key x l) = of_key k (x :: l).
Proof.
  unfold of_key. induction l as [|y l IH]; [done|]. cbn. destruct (Z.leb_spec (key x) (key y)); [done|].
  cbn. rewrite IH. cbn. destruct (Z.eqb_spec (key y) k), (Z.eqb_spec (key x) k); try done. lia.
Qed.

Lemma sort_by_key_stable k l : of_key k (sort_by_key l) = of_key k l.
Proof. induction l as [|x l IH]; [done|]. cbn [sort_by_key foldr]. rewrite of_key_insert. unfold of_key in *. cbn. by rewrite <-IH. Qed.

(** An ordered list is determined by its elements of each key. *)
Lemma ordered_unique l1 : forall l2, ordered l1 -> ordered l2 -> (forall k, of_key k l1 = of_key k l2) -> l1 = l2.
Proof.
  induction l1 as [|x l1 IH]; intros [|y l2] H1 H2 Hk; [done|..].
  - specialize (Hk (key y)). cbn in Hk. by rewrite Z.eqb_refl in Hk.
  - specialize (Hk (key x)). cbn in Hk. by rewrite Z.eqb_refl in Hk.
  - inversion_clear H1 as [|? ? S1 F1]. inversion_clear H2 as [|? ? S2 F2].
    assert (E : key x = key y).
    { assert (Hxy : forall k, key x = k -> x ∈ y :: l2).
      { intros k <-. assert (Hx : x ∈ of_key (key x) (y :: l2)) by (rewrite <-Hk; cbn; rewrite Z.eqb_refl; by left).
        unfold of_key in Hx. apply list_elem_of_In, filter_In in Hx as [Hx _]. by apply list_elem_of_In. }
      assert (Hyx : y ∈ x :: l1).
      { assert (Hy : y ∈ of_key (key y) (x :: l1)) by (rewrite Hk; cbn; rewrite Z.eqb_refl; by left).
        unfold of_key in Hy. apply list_elem_of_In, filter_In in Hy as [Hy _]. by apply list_elem_of_In. }
      specialize (Hxy _ eq_refl). rewrite Forall_forall in F1, F2.
      apply elem_of_cons in Hxy as [->|Hxy]; [done|]. apply elem_of_cons in Hyx as [->|Hyx]; [done|].
      apply F2 in Hxy. apply F1 in Hyx. lia. }
    assert (x = y) as ->.
    { specialize (Hk (key y)). cbn in Hk. rewrite E, Z.eqb_refl in Hk. by injection Hk. }
    f_equal. apply IH; [done..|]. intros k. specialize (Hk k). cbn in Hk. destruct (_ =? k); [by injection Hk|done].
Qed.

Lemma of_key_filter k (p : A -> bool) l : of_key k (List.filter p l) = List.filter p (of_key k l).
Proof.
  unfold of_key. induction l as [|x l IH]; [done|]. cbn.
  destruct (p x) eqn:Ep, (key x =? k) eqn:Ek; cbn; rewrite ?Ep, ?Ek, ?IH; done.
Qed.

Lemma ordered_filter (p : A -> bool) l : ordered l -> ordered (List.filter p l).
Proof.
  induction 1 as [|x l Hs IH Hf]; cbn; [constructor|]. destruct (p x); [|done]. constructor; [done|].
  rewrite List.Forall_forall in *. intros y Hy. apply filter_In in Hy as [Hy _]. auto.
Qed.

Lemma sort_filter (p : A -> bool) l : List.filter p (sort_by_key l) = sort_by_key (List.filter p l).
Proof.
  apply ordered_unique; [apply ordered_filter, sort_by_key_ordered|apply sort_by_key_ordered|].
  intros k. by rewrite sort_by_key_stable, !of_key_filter, sort_by_key_stable.
Qed.

Lemma sort_snoc l x : sort_by_key (sort_by_key l ++ [x]) = sort_by_key (l ++ [x]).
Proof.
  apply ordered_unique; [apply sort_by_key_ordered..|]. intros k. rewrite !sort_by_key_stable.
  unfold of_key. rewrite !List.filter_app. f_equal. apply sort_by_key_stable.
Qed.

End Sort.

(** ** The registry *)

Definition second : Z := 10 ^ 9.
Definition RESOLVED_TTL : Z := 10 * second.
Definition RESOLVED_NEGATIVE_TTL : Z := 2 * second.
Definition SHADOW_CHECKED_CAP : nat := 10000.
Definition RESOLVED_CAPACITY : nat := 4096.
Definition RESOLVED_EVICT_BATCH : nat := RESOLVED_CAPACITY / 4.

Inductive TryClaim := Yes | No | Unknown.

Record SourceEntry := mkEntry { label : bytes; order : Z; source : nat; is_store : bool }.

(** The peer and the user of a request, if it has any. *)
Definition Identity : Type := option Z * option bytes.
Definition MemoKey : Type := Identity * bytes.

Record SourceRegistry := mkReg {
  sources : list SourceEntry;
  shadow_checked : gset bytes;
  resolved : gmap MemoKey (Z * bool)
}.

Definition new : SourceRegistry := mkReg [] ∅ ∅.

(** The order a hash map is visited in. *)
Class MemoIter := memo_iter : gmap MemoKey (Z * bool) -> list (MemoKey * (Z * bool)).
Class MemoIterLaws `{MemoIter} : Prop := memo_iter_perm m : memo_iter m ≡ₚ map_to_list m.

(** [now.duration_since(at)]. *)
Definition duration_since (now at_ : Z) : Z := Z.max (now - at_) 0.

Definition ttl_of (found : bool) : Z := if found then RESOLVED_TTL else RESOLVED_NEGATIVE_TTL.
Definition alive (now : Z) (e : Z * bool) : bool := duration_since now e.1 <? ttl_of e.2.

Definition note_shadow_checked (r : SourceRegistry) (name : bytes) : SourceRegistry * bool :=
  let set := if (SHADOW_CHECKED_CAP <=? size (shadow_checked r))%nat then ∅ else shadow_checked r in
  (mkReg (sources r) ({[name]} ∪ set) (resolved r), negb (bool_decide (name ∈ set))).

Section Memo.
Context `{MemoIter}.

Definition evict_batch (memo : gmap MemoKey (Z * bool)) : gmap MemoKey (Z * bool) :=
  let by_age := sort_by_key (fun e : MemoKey * (Z * bool) => e.2.1) (memo_iter memo) in
  foldr (fun e memo => delete e.1 memo) memo (take (Nat.max RESOLVED_EVICT_BATCH 1) by_age).

Definition note_resolved (r : SourceRegistry) (key : MemoKey) (now : Z) (found : bool) : SourceRegistry :=
  let memo := resolved r in
  let memo :=
    if (RESOLVED_CAPACITY <=? size memo)%nat then
      let memo := filter (fun e => alive now e.2 = true) memo in
      if (RESOLVED_CAPACITY <=? size memo)%nat then evict_batch memo else memo
    else memo in
  mkReg (sources r) (shadow_checked r) (<[key := (now, found)]> memo).

(** The memo is read with [try_lock]: a contended one answers nothing. *)
Definition recall (r : SourceRegistry) (key : MemoKey) (now : Z) (memo_locked : bool) : option bool :=
  if memo_locked then None
  else match resolved r !! key with
       | Some e => if alive now e then Some e.2 else None
       | None => None
       end.

End Memo.

Definition invalidate_memo (r : SourceRegistry) : SourceRegistry := mkReg (sources r) ∅ ∅.

Definition insert (r : SourceRegistry) (e : SourceEntry) : SourceRegistry :=
  invalidate_memo (mkReg (sort_by_key order (sources r ++ [e])) (shadow_checked r) (resolved r)).

Definition remove (r : SourceRegistry) (l : bytes) : SourceRegistry :=
  invalidate_memo (mkReg (List.filter (fun e => negb (bool_decide (label e = l))) (sources r)) (shadow_checked r) (resolved r)).

(** The source that [claim], [get], [put], [subscribe], [pushes_own_updates] and
    [rpc] go to: the first one that claims the name. *)
Definition delegate (claims : nat -> bool) (r : SourceRegistry) : option nat :=
  source <$> List.find (fun e => claims (source e)) (sources r).

(** What a remembered outcome answers. *)
Definition from_memo (o : option bool) : TryClaim :=
  match o with Some true => Yes | Some false => No | None => Unknown end.

(** [None] for the answers when the lock on the sources is contended. *)
Definition try_claim (r : SourceRegistry) (answers : option (nat -> TryClaim)) (key : MemoKey) (now : Z) (memo_locked : bool) : TryClaim :=
  match answers with
  | None => from_memo (recall r key now memo_locked)
  | Some f =>
    if existsb (fun e => match f (source e) with Yes => true | _ => false end) (sources r) then Yes
    else if forallb (fun e => match f (source e) with No => true | _ => false end) (sources r) then No
    else from_memo (recall r key now memo_locked)
  end.

(** ** The resolver *)

Definition RESOLVE_CONCURRENCY : nat := 8.

(** Where a resolution stands: a permit taken, on its list, asking the sources of
    its snapshot, looking for a shadowed store, resolved, the name off the list. *)
Inductive Phase :=
| Acquired
| Spawned
| Asking (snapshot rest : list SourceEntry)
| Shadow (rest : list SourceEntry)
| Resolved (found : bool)
| Leaving
| Released.

Record Task := mkTask { t_key : MemoKey; phase : Phase }.
Definition t_name (t : Task) : bytes := (t_key t).2.

Record State := mkState {
  reg : SourceRegistry;
  permits : nat;
  inflight : gset bytes;
  tasks : gmap nat Task
}.

Definition initial : State := mkState new RESOLVE_CONCURRENCY ∅ ∅.

Definition with_reg (s : State) (r : SourceRegistry) : State := mkState r (permits s) (inflight s) (tasks s).
Definition set_task (s : State) (k : nat) (t : Task) : State :=
  mkState (reg s) (permits s) (inflight s) (<[k := t]> (tasks s)).

(** [enqueue]: the permit, then the entry on the list, which a name that is
    already there gives back. *)
Definition enqueue_acquire (s : State) (k : nat) (key : MemoKey) : State :=
  match permits s with
  | O => s
  | S p => mkState (reg s) p (inflight s) (<[k := mkTask key Acquired]> (tasks s))
  end.

Definition enqueue_insert (s : State) (k : nat) (t : Task) : State :=
  if bool_decide (t_name t ∈ inflight s)
  then mkState (reg s) (S (permits s)) (inflight s) (delete k (tasks s))
  else mkState (reg s) (permits s) ({[t_name t]} ∪ inflight s) (<[k := mkTask (t_key t) Spawned]> (tasks s)).

(** [claim] takes its snapshot. *)
Definition asking (snapshot rest : list SourceEntry) : Phase := match rest with [] => Resolved false | _ => Asking snapshot rest end.
Definition task_snapshot (s : State) (k : nat) (t : Task) : State :=
  set_task s k (mkTask (t_key t) (asking (sources (reg s)) (sources (reg s)))).

Definition shadow (rest : list SourceEntry) : Phase := match rest with [] => Resolved true | _ => Shadow rest end.

(** The source asked answers. *)
Definition task_answer (s : State) (k : nat) (t : Task) (snapshot : list SourceEntry) (e : SourceEntry) (rest : list SourceEntry) (claimed : bool) : State :=
  if claimed then
    if is_store e then set_task s k (mkTask (t_key t) (Resolved true))
    else
      let '(r, first) := note_shadow_checked (reg s) (t_name t) in
      set_task (with_reg s r) k
        (mkTask (t_key t) (if first then shadow (List.filter is_store snapshot) else Resolved true))
  else set_task s k (mkTask (t_key t) (asking snapshot rest)).

(** The store asked whether it is shadowed answers. *)
Definition task_shadow (s : State) (k : nat) (t : Task) (rest : list SourceEntry) (claimed : bool) : State :=
  set_task s k (mkTask (t_key t) (if claimed then Resolved true else shadow rest)).

Definition task_note `{MemoIter} (s : State) (k : nat) (t : Task) (found : bool) (now : Z) : State :=
  set_task (mkState (note_resolved (reg s) (t_key t) now found) (permits s) (inflight s) (tasks s)) k (mkTask (t_key t) Leaving).

(** The guard, then the permit are dropped. *)
Definition task_release (s : State) (k : nat) (t : Task) : State :=
  mkState (reg s) (permits s) (inflight s ∖ {[t_name t]}) (<[k := mkTask (t_key t) Released]> (tasks s)).
Definition task_end (s : State) (k : nat) : State :=
  mkState (reg s) (S (permits s)) (inflight s) (delete k (tasks s)).

(** ** Steps *)

Inductive Event :=
| Add (e : SourceEntry)
| Remove (l : bytes)
| Enqueue (k : nat) (key : MemoKey)
| Enlist (k : nat)
| Snapshot (k : nat)
| Answer (k : nat) (claimed : bool)
| Panicked (k : nat)
| Note (k : nat) (now : Z)
| Release (k : nat)
| End (k : nat).

Definition apply `{MemoIter} (s : State) (ev : Event) : option State :=
  match ev with
  | Add e => Some (with_reg s (insert (reg s) e))
  | Remove l => Some (with_reg s (remove (reg s) l))
  | Enqueue k key => match tasks s !! k with None => Some (enqueue_acquire s k key) | Some _ => None end
  | Enlist k => match tasks s !! k with Some t => match phase t with Acquired => Some (enqueue_insert s k t) | _ => None end | None => None end
  | Snapshot k => match tasks s !! k with Some t => match phase t with Spawned => Some (task_snapshot s k t) | _ => None end | None => None end
  | Answer k claimed =>
    match tasks s !! k with
    | Some t =>
      match phase t with
      | Asking snapshot (e :: rest) => Some (task_answer s k t snapshot e rest claimed)
      | Shadow (_ :: rest) => Some (task_shadow s k t rest claimed)
      | _ => None
      end
    | None => None
    end
  | Panicked k =>
    match tasks s !! k with
    | Some t => match phase t with Asking _ _ | Shadow _ => Some (set_task s k (mkTask (t_key t) Leaving)) | _ => None end
    | None => None
    end
  | Note k now =>
    match tasks s !! k with
    | Some t => match phase t with Resolved found => Some (task_note s k t found now) | _ => None end
    | None => None
    end
  | Release k => match tasks s !! k with Some t => match phase t with Leaving => Some (task_release s k t) | _ => None end | None => None end
  | End k => match tasks s !! k with Some t => match phase t with Released => Some (task_end s k) | _ => None end | None => None end
  end.

Fixpoint run `{MemoIter} (s : State) (evs : list Event) : option State :=
  match evs with
  | [] => Some s
  | ev :: evs => match apply s ev with Some s => run s evs | None => None end
  end.

(** ** The memo *)

Section Bounds.
Context `{HI : MemoIter} `{!MemoIterLaws}.

Definition drop_all (l : list (MemoKey * (Z * bool))) (m : gmap MemoKey (Z * bool)) : gmap MemoKey (Z * bool) :=
  foldr (fun e memo => delete e.1 memo) m l.

Lemma drop_all_sub l m : drop_all l m ⊆ m.
Proof. induction l as [|e l IH]; cbn; [done|]. etrans; [apply delete_subseteq|done]. Qed.

Lemma drop_all_size l m : NoDup l.*1 -> Forall (fun e => m !! e.1 = Some e.2) l -> (size (drop_all l m) = size m - length l)%nat.
Proof.
  induction l as [|e l IH]; cbn; [lia|]. intros Hn Hf. apply NoDup_cons in Hn as [Hn1 Hn2].
  apply Forall_cons in Hf as [He Hf].
  assert (Hl : drop_all l m !! e.1 = Some e.2).
  { clear IH Hn2 Hf. induction l as [|x l IH]; cbn; [done|]. rewrite lookup_delete_ne; [apply IH|]; set_solver. }
  fold (drop_all l m). rewrite map_size_delete, Hl. rewrite IH by done. lia.
Qed.

Lemma evict_batch_sub m : evict_batch m ⊆ m.
Proof. apply drop_all_sub. Qed.

Lemma evict_batch_size m : (RESOLVED_CAPACITY <= size m)%nat -> (size (evict_batch m) = size m - RESOLVED_EVICT_BATCH)%nat.
Proof.
  intros Hs. unfold evict_batch. fold (drop_all (take (Nat.max RESOLVED_EVICT_BATCH 1)
    (sort_by_key (fun e : MemoKey * (Z * bool) => e.2.1) (memo_iter m))) m).
  assert (Hp : sort_by_key (fun e : MemoKey * (Z * bool) => e.2.1) (memo_iter m) ≡ₚ map_to_list m)
    by (by rewrite sort_by_key_perm, memo_iter_perm).
  set (l := sort_by_key _ _) in *. rewrite drop_all_size.
  - rewrite length_take, Hp, length_map_to_list. unfold RESOLVED_EVICT_BATCH, RESOLVED_CAPACITY in *.
    change (4096 / 4)%nat with 1024%nat. lia.
  - rewrite fmap_take. eapply sublist_NoDup; [|apply sublist_take]. rewrite Hp. apply NoDup_fst_map_to_list.
  - apply Forall_take. rewrite Hp. apply Forall_forall. intros [k e] He. by apply elem_of_map_to_list in He.
Qed.

(** The memo stays within its capacity and holds only what was noted. *)
Lemma note_resolved_memo r key now found :
  (size (resolved r) <= RESOLVED_CAPACITY)%nat ->
  (size (resolved (note_resolved r key now found)) <= RESOLVED_CAPACITY)%nat /\
  forall k e, resolved (note_resolved r key now found) !! k = Some e -> k = key /\ e = (now, found) \/ resolved r !! k = Some e.
Proof.
  intros Hs. unfold note_resolved. cbn [resolved].
  set (m := if (_ <=? _)%nat then _ else _).
  assert (Hm : m ⊆ resolved r /\ (size m < RESOLVED_CAPACITY)%nat).
  { unfold m. destruct (Nat.leb_spec RESOLVED_CAPACITY (size (resolved r))); [|done].
    set (f := filter _ (resolved r)). assert (Hf : f ⊆ resolved r) by apply map_filter_subseteq.
    destruct (Nat.leb_spec RESOLVED_CAPACITY (size f)) as [Hl|Hl]; [|done].
    split; [etrans; [apply evict_batch_sub|done]|]. rewrite evict_batch_size by done.
    pose proof (map_subseteq_size _ _ Hf). unfold RESOLVED_EVICT_BATCH, RESOLVED_CAPACITY in *. change (4096 / 4)%nat with 1024%nat. lia. }
  clearbody m. destruct Hm as [Hsub Hlt]. split.
  - rewrite map_size_insert. destruct (m !! key); cbn; lia.
  - intros k e He. destruct (decide (k = key)) as [->|Hne].
    + rewrite lookup_insert_eq in He. simplify_eq. by left.
    + rewrite lookup_insert_ne in He by done. right. by eapply lookup_weaken.
Qed.

(** ** The invariant of the resolver *)

Definition holds_name (p : Phase) : bool :=
  match p with Spawned | Asking _ _ | Shadow _ | Resolved _ | Leaving => true | Acquired | Released => false end.

Record Inv (s : State) : Prop := {
  i_permits : (permits s + size (tasks s) = RESOLVE_CONCURRENCY)%nat;
  i_listed : forall n, n ∈ inflight s <-> exists k t, tasks s !! k = Some t /\ holds_name (phase t) = true /\ t_name t = n;
  i_unique : forall k1 k2 t1 t2, tasks s !! k1 = Some t1 -> tasks s !! k2 = Some t2 ->
    holds_name (phase t1) = true -> holds_name (phase t2) = true -> t_name t1 = t_name t2 -> k1 = k2;
  i_memo : (size (resolved (reg s)) <= RESOLVED_CAPACITY)%nat;
  i_shadow : (size (shadow_checked (reg s)) <= SHADOW_CHECKED_CAP)%nat
}.

(** A step that moves a task between phases that both hold its name, and leaves
    the rest of the resolver. *)
Lemma inv_move s r k t p :
  Inv s -> tasks s !! k = Some t -> holds_name p = holds_name (phase t) ->
  (size (resolved r) <= RESOLVED_CAPACITY)%nat -> (size (shadow_checked r) <= SHADOW_CHECKED_CAP)%nat ->
  Inv (mkState r (permits s) (inflight s) (<[k := mkTask (t_key t) p]> (tasks s))).
Proof.
  intros [H1 H2 H3 H4 H5] Hk Hp Hm Hsh.
  assert (Hold : forall j u, <[k := mkTask (t_key t) p]> (tasks s) !! j = Some u ->
    exists u', tasks s !! j = Some u' /\ holds_name (phase u') = holds_name (phase u) /\ t_name u' = t_name u).
  { intros j u Hu. destruct (decide (j = k)) as [->|].
    - rewrite lookup_insert_eq in Hu. simplify_eq. by exists t.
    - rewrite lookup_insert_ne in Hu by done. by exists u. }
  split; cbn [permits tasks inflight reg]; try done.
  - rewrite map_size_insert, Hk. cbn. lia.
  - intros n. rewrite H2. split.
    + intros (j & u & Hj & Hh & Hn). destruct (decide (j = k)) as [->|].
      * simplify_eq. exists k, (mkTask (t_key t) p). rewrite lookup_insert_eq. cbn [phase]. by rewrite Hp.
      * exists j, u. by rewrite lookup_insert_ne.
    + intros (j & u & Hj & Hh & Hn). destruct (Hold j u Hj) as (u' & ? & E & En). exists j, u'. by rewrite E, En.
  - intros k1 k2 t1 t2 Hk1 Hk2 Hh1 Hh2 Hn. destruct (Hold _ _ Hk1) as (u1 & A1 & B1 & C1).
    destruct (Hold _ _ Hk2) as (u2 & A2 & B2 & C2). eapply (H3 k1 k2 u1 u2); congruence.
Qed.

Lemma inv_initial : Inv initial.
Proof.
  split; cbn [permits tasks inflight reg initial new resolved shadow_checked].
  - by rewrite map_size_empty, Nat.add_0_r.
  - intros n. split; [set_solver|]. by intros (k & t & Hk & _).
  - done.
  - rewrite map_size_empty. apply Nat.le_0_l.
  - rewrite size_empty. apply Nat.le_0_l.
Qed.

(** A task that holds no name comes or goes. *)
Lemma inv_spawn s k key p : Inv s -> permits s = S p -> tasks s !! k = None -> Inv (enqueue_acquire s k key).
Proof.
  intros [H1 H2 H3 H4 H5] Hp Hk. unfold enqueue_acquire. rewrite Hp.
  assert (Hold : forall j u, <[k := mkTask key Acquired]> (tasks s) !! j = Some u -> holds_name (phase u) = true -> tasks s !! j = Some u).
  { intros j u Hu Hh. destruct (decide (j = k)) as [->|]; [rewrite lookup_insert_eq in Hu; by simplify_eq|]. by rewrite lookup_insert_ne in Hu. }
  split; cbn [permits tasks inflight reg]; try done.
  - rewrite map_size_insert, Hk. cbn. lia.
  - intros n. rewrite H2. split; intros (j & u & Hj & Hh & Hn); exists j, u; (split; [|done]); [|by apply Hold].
    rewrite lookup_insert_ne; [done|]. intros ->. congruence.
  - intros k1 k2 t1 t2 A1 A2 B1 B2. apply (H3 k1 k2); auto.
Qed.

Lemma inv_leave s k t : Inv s -> tasks s !! k = Some t -> holds_name (phase t) = false ->
  Inv (mkState (reg s) (S (permits s)) (inflight s) (delete k (tasks s))).
Proof.
  intros [H1 H2 H3 H4 H5] Hk Hh. split; cbn [permits tasks inflight reg]; try done.
  - rewrite map_size_delete, Hk. cbn. pose proof (map_size_ne_0_lookup_2 (tasks s) k ltac:(by eexists)). lia.
  - intros n. rewrite H2. split; intros (j & u & Hj & Hu & Hn); exists j, u; (split; [|done]).
    + rewrite lookup_delete_ne; [done|]. intros ->. congruence.
    + by apply lookup_delete_Some in Hj as [_ ?].
  - intros k1 k2 t1 t2 A1 A2. apply lookup_delete_Some in A1 as [_ A1], A2 as [_ A2]. by apply (H3 k1 k2).
Qed.

(** The name goes on the list, and off it. *)
Lemma inv_enlist s k t : Inv s -> tasks s !! k = Some t -> phase t = Acquired -> Inv (enqueue_insert s k t).
Proof.
  intros HI' Hk Hp. unfold enqueue_insert. destruct (bool_decide_reflect (t_name t ∈ inflight s)) as [|Hn].
  { apply (inv_leave s k t); [done..|]. by rewrite Hp. }
  destruct HI' as [H1 H2 H3 H4 H5]. set (t' := mkTask (t_key t) Spawned).
  assert (Hold : forall j u, <[k := t']> (tasks s) !! j = Some u -> j <> k -> tasks s !! j = Some u)
    by (intros j u Hu Hj; by rewrite lookup_insert_ne in Hu).
  split; cbn [permits tasks inflight reg]; try done.
  - rewrite map_size_insert, Hk. cbn. lia.
  - intros n. rewrite elem_of_union, elem_of_singleton, H2. split.
    + intros [->|(j & u & Hj & Hu & <-)]; [exists k, t'; by rewrite lookup_insert_eq|].
      exists j, u. rewrite lookup_insert_ne; [done|]. intros ->. simplify_eq. by rewrite Hp in Hu.
    + intros (j & u & Hj & Hu & <-). destruct (decide (j = k)) as [->|]; [left; rewrite lookup_insert_eq in Hj; by simplify_eq|].
      right. exists j, u. split; [by apply Hold|done].
  - assert (Hfresh : forall j u, tasks s !! j = Some u -> holds_name (phase u) = true -> t_name u = t_name t -> False).
    { intros j u Hj Hu En. apply Hn, H2. eauto. }
    intros k1 k2 t1 t2 A1 A2 B1 B2 En.
    destruct (decide (k1 = k)) as [->|N1], (decide (k2 = k)) as [->|N2]; [done|..].
    + rewrite lookup_insert_eq in A1. simplify_eq. exfalso. eapply (Hfresh k2 t2); eauto.
    + rewrite lookup_insert_eq in A2. simplify_eq. exfalso. eapply (Hfresh k1 t1); eauto.
    + by apply (H3 k1 k2 t1 t2); auto.
Qed.

Lemma inv_release s k t : Inv s -> tasks s !! k = Some t -> phase t = Leaving -> Inv (task_release s k t).
Proof.
  intros [H1 H2 H3 H4 H5] Hk Hp. unfold task_release.
  assert (Hold : forall j u, <[k := mkTask (t_key t) Released]> (tasks s) !! j = Some u -> holds_name (phase u) = true -> j <> k /\ tasks s !! j = Some u).
  { intros j u Hu Hh. destruct (decide (j = k)) as [->|]; [rewrite lookup_insert_eq in Hu; by simplify_eq|]. by rewrite lookup_insert_ne in Hu. }
  split; cbn [permits tasks inflight reg]; try done.
  - rewrite map_size_insert, Hk. cbn. lia.
  - intros n. rewrite elem_of_difference, elem_of_singleton, H2. split.
    + intros [(j & u & Hj & Hu & Hn) Hne]. exists j, u. rewrite lookup_insert_ne; [done|]. intros ->. congruence.
    + intros (j & u & Hj & Hu & Hn). destruct (Hold j u Hj Hu) as [Hne Hj']. split; [eauto|]. intros ->.
      apply Hne. apply (H3 j k u t); [done..| |done]. by rewrite Hp.
  - intros k1 k2 t1 t2 A1 A2 B1 B2. destruct (Hold _ _ A1 B1), (Hold _ _ A2 B2). by apply (H3 k1 k2).
Qed.

(** The registry changes and forgets. *)
Lemma inv_sources s r : Inv s -> resolved r = ∅ -> shadow_checked r = ∅ -> Inv (with_reg s r).
Proof. intros [H1 H2 H3 H4 H5] Em Es. split; cbn [permits tasks inflight reg with_reg]; rewrite ?Em, ?Es, ?map_size_empty, ?size_empty;
    done || apply Nat.le_0_l. Qed.

Lemma shadow_size r name : (size (shadow_checked r) <= SHADOW_CHECKED_CAP)%nat ->
  (size (shadow_checked (note_shadow_checked r name).1) <= SHADOW_CHECKED_CAP)%nat.
Proof.
  intros Hs. unfold note_shadow_checked. cbn [fst shadow_checked].
  assert (Hu : forall set : gset bytes, (size ({[name]} ∪ set) <= S (size set))%nat).
  { intros set. rewrite size_union_alt, size_singleton. assert (size (set ∖ {[name]}) <= size set)%nat by (apply subseteq_size; set_solver). lia. }
  destruct (Nat.leb_spec SHADOW_CHECKED_CAP (size (shadow_checked r))).
  - etrans; [exact (Hu ∅)|]. rewrite size_empty. by apply Nat.leb_le.
  - specialize (Hu (shadow_checked r)). lia.
Qed.

Lemma inv_note s k t found now : Inv s -> tasks s !! k = Some t -> phase t = Resolved found -> Inv (task_note s k t found now).
Proof.
  intros HI' Hk Hp. pose proof HI' as [_ _ _ Hm Hsh].
  destruct (note_resolved_memo (reg s) (t_key t) now found Hm) as [Hs Hr].
  apply (inv_move s (note_resolved (reg s) (t_key t) now found) k t Leaving); try done. by rewrite Hp.
Qed.

Lemma inv_answer s k t snapshot e rest claimed :
  Inv s -> tasks s !! k = Some t -> holds_name (phase t) = true -> Inv (task_answer s k t snapshot e rest claimed).
Proof.
  intros HI' Hk Hh. pose proof HI' as [_ _ _ Hm Hsh]. unfold task_answer.
  destruct claimed; [destruct (is_store e)|]; try (apply inv_move; try done; rewrite Hh; by destruct rest).
  pose proof (shadow_size (reg s) (t_name t) Hsh) as Hs2. unfold note_shadow_checked in *. cbn [fst] in Hs2.
  match goal with |- Inv (set_task (with_reg s ?r) k (mkTask _ ?p)) => apply (inv_move s r k t p); try done end.
  rewrite Hh. destruct (negb _); [|done]. by destruct (List.filter _ _).
Qed.

Lemma inv_apply s ev s' : Inv s -> apply s ev = Some s' -> Inv s'.
Proof.
  intros HI' Ha. pose proof HI' as [_ _ _ Hm Hsh].
  assert (Hmv : forall k t p, tasks s !! k = Some t -> holds_name p = holds_name (phase t) -> Inv (set_task s k (mkTask (t_key t) p)))
    by (intros; by apply inv_move).
  destruct ev as [e|l|k key|k|k|k claimed|k|k now|k|k]; cbn [apply] in Ha;
    [simplify_eq; by apply inv_sources|simplify_eq; by apply inv_sources|..];
    destruct (tasks s !! k) as [t|] eqn:Hk; try done; try (destruct (phase t) eqn:Hp; try done).
  - simplify_eq. destruct (permits s) as [|p] eqn:E; [|by eapply inv_spawn]. unfold enqueue_acquire. rewrite E. by destruct s.
  - simplify_eq. by apply inv_enlist.
  - simplify_eq. apply Hmv; [done|]. rewrite Hp. unfold asking. by destruct (sources (reg s)).
  - destruct rest as [|e rest]; [done|]. simplify_eq. apply inv_answer; [done..|]. by rewrite Hp.
  - destruct rest as [|e rest]; [done|]. simplify_eq. apply Hmv; [done|]. rewrite Hp. destruct claimed; [done|]. by destruct rest.
  - simplify_eq. apply Hmv; [done|]. by rewrite Hp.
  - simplify_eq. apply Hmv; [done|]. by rewrite Hp.
  - simplify_eq. by apply inv_note.
  - simplify_eq. by apply inv_release.
  - simplify_eq. apply (inv_leave s k t); [done..|]. by rewrite Hp.
Qed.

Lemma inv_run evs : forall s s', Inv s -> run s evs = Some s' -> Inv s'.
Proof.
  induction evs as [|ev evs IH]; intros s s' Hi Hr; cbn in Hr; [by simplify_eq|].
  destruct (apply s ev) as [s1|] eqn:E; [|done]. eapply IH; [|done]. by eapply inv_apply.
Qed.

End Bounds.

(** ** Priority *)

(** The sources registered, in the order they were added. *)
Fixpoint registered (evs : list Event) (h : list SourceEntry) : list SourceEntry :=
  match evs with
  | [] => h
  | Add e :: evs => registered evs (h ++ [e])
  | Remove l :: evs => registered evs (List.filter (fun e => negb (bool_decide (label e = l))) h)
  | _ :: evs => registered evs h
  end.

Lemma run_sources `{MemoIter} evs : forall s s' h,
  run s evs = Some s' -> sources (reg s) = sort_by_key order h -> sources (reg s') = sort_by_key order (registered evs h).
Proof.
  induction evs as [|ev evs IH]; intros s s' h Hr Hs; cbn [run registered] in *; [by simplify_eq|].
  destruct (apply s ev) as [s1|] eqn:E; [|done].
  assert (Hsame : sources (reg s1) = sources (reg s) -> sources (reg s') = sort_by_key order (registered evs h))
    by (intros E1; apply (IH s1); congruence).
  destruct ev; cbn [apply] in E; try (simplify_eq; apply (IH _ _ _ Hr); cbn; rewrite Hs; apply sort_snoc || apply sort_filter);
    apply Hsame; clear Hsame IH Hr Hs; repeat case_match; simplify_eq; try done.
  - unfold enqueue_acquire. by destruct (permits s).
  - unfold enqueue_insert. by destruct (bool_decide _).
  - unfold task_answer. destruct claimed; [|done]. by destruct (is_store _).
Qed.

Lemma find_lowest {A} (p : A -> bool) l x : List.find p l = Some x -> exists l1 l2, l = l1 ++ x :: l2 /\ p x = true /\ Forall (fun y => p y = false) l1.
Proof.
  induction l as [|y l IH]; cbn; [done|]. destruct (p y) eqn:E.
  - intros [= ->]. exists [], l. by repeat constructor.
  - intros Hf. destruct (IH Hf) as (l1 & l2 & -> & ? & ?). exists (y :: l1), l2. repeat split; [done|by constructor].
Qed.

Lemma find_none_in {A} (p : A -> bool) l : List.find p l = None <-> Forall (fun y => p y = false) l.
Proof.
  induction l as [|y l IH]; cbn; [split; [constructor|done]|]. rewrite Forall_cons. destruct (p y); [split; [done|by intros [? _]]|].
  rewrite IH. split; [done|by intros [_ ?]].
Qed.

Lemma find_app_none {A} (p : A -> bool) l1 l2 : Forall (fun y => p y = false) l1 -> List.find p (l1 ++ l2) = List.find p l2.
Proof. induction 1 as [|y l1 Hy _ IH]; [done|]. cbn. by rewrite Hy. Qed.

(** A request for a name goes to the source of the lowest order that claims it,
    and among sources of one order to the one registered first, whatever was
    added and removed before; it finds nobody only if no registered source claims
    the name. *)
Theorem lowest_order_wins `{MemoIter} evs s claims :
  run initial evs = Some s ->
  match delegate claims (reg s) with
  | Some x =>
    exists e, source e = x /\ claims x = true /\
      (forall e', e' ∈ registered evs [] -> claims (source e') = true -> order e <= order e') /\
      List.find (fun e' => claims (source e')) (of_key order (order e) (registered evs [])) = Some e
  | None => forall e, e ∈ registered evs [] -> claims (source e) = false
  end.
Proof.
  intros Hr. pose proof (run_sources evs initial s [] Hr eq_refl) as Hs. set (h := registered evs []) in *.
  assert (Hp : sources (reg s) ≡ₚ h) by (rewrite Hs; apply sort_by_key_perm).
  pose proof (sort_by_key_ordered order h) as Ho. pose proof (fun k => sort_by_key_stable order k h) as Hk. rewrite <-Hs in Ho, Hk.
  unfold delegate. destruct (List.find _ (sources (reg s))) as [e|] eqn:E; cbn.
  - apply find_lowest in E as (l1 & l2 & El & Hc & Hf). rewrite El in Ho, Hk, Hp. exists e. repeat split; [done|..].
    + intros e' Hin He'. rewrite <-Hp in Hin. apply elem_of_app in Hin as [Hin|Hin].
      { rewrite Forall_forall in Hf. apply Hf in Hin. cbn in Hin. congruence. }
      apply elem_of_cons in Hin as [->|Hin]; [done|]. apply StronglySorted_app in Ho as (_ & _ & Ho).
      inversion_clear Ho as [|? ? _ Ho']. rewrite Forall_forall in Ho'. by apply Ho'.
    + rewrite <-Hk. unfold of_key. rewrite List.filter_app. cbn. rewrite Z.eqb_refl. rewrite find_app_none; [cbn; by rewrite Hc|].
      rewrite Forall_forall in *. intros y Hy. apply Hf. apply list_elem_of_In, filter_In in Hy as [Hy _]. by apply list_elem_of_In.
  - intros e Hin. apply find_none_in in E. rewrite Hp, Forall_forall in E. by apply E.
Qed.

Section Claims.
Context `{HI : MemoIter} `{!MemoIterLaws}.

(** C32: the background resolver stays within its bounds under any interleaving,
    also when a source panics: at most eight resolutions hold a permit, and every
    permit is free or held by one of them; the names in flight are exactly those
    of the running resolutions, one for each name; the memo of outcomes and the
    set of checked names stay within their capacities. *)
Theorem resolver_bounded evs s : run initial evs = Some s ->
  (permits s + size (tasks s) = RESOLVE_CONCURRENCY)%nat /\
  (forall n, n ∈ inflight s <-> exists k t, tasks s !! k = Some t /\ holds_name (phase t) = true /\ t_name t = n) /\
  (forall k1 k2 t1 t2, tasks s !! k1 = Some t1 -> tasks s !! k2 = Some t2 ->
    holds_name (phase t1) = true -> holds_name (phase t2) = true -> t_name t1 = t_name t2 -> k1 = k2) /\
  (size (resolved (reg s)) <= RESOLVED_CAPACITY)%nat /\ (size (shadow_checked (reg s)) <= SHADOW_CHECKED_CAP)%nat.
Proof. intros Hr. by destruct (inv_run evs _ _ inv_initial Hr) as [H1 H2 H3 H4 H5]. Qed.

End Claims.

(** ** Resolutions end *)

Definition rest_ne (p : Phase) : Prop := match p with Asking _ rest | Shadow rest => rest <> [] | _ => True end.

Lemma asking_ne snapshot rest : rest_ne (asking snapshot rest).
Proof. by destruct rest. Qed.
Lemma shadow_ne rest : rest_ne (shadow rest).
Proof. by destruct rest. Qed.

(** The task an event belongs to. *)
Definition own (ev : Event) : option nat :=
  match ev with
  | Add _ | Remove _ | Enqueue _ _ => None
  | Enlist k | Snapshot k | Answer k _ | Panicked k | Note k _ | Release k | End k => Some k
  end.

(** How far a resolution that has its snapshot is from its end. *)
Definition weight (p : Phase) : option nat :=
  match p with
  | Acquired | Spawned => None
  | Asking snapshot rest => Some (3 + length snapshot + length rest)
  | Shadow rest => Some (3 + length rest)
  | Resolved _ => Some 3
  | Leaving => Some 2
  | Released => Some 1
  end%nat.

Definition closer (p p' : Phase) : Prop :=
  match weight p with
  | Some w => exists w', weight p' = Some w' /\ (w' < w)%nat
  | None => p = Acquired /\ p' = Spawned \/ p = Spawned /\ is_Some (weight p')
  end.

Lemma asking_weight snapshot rest w : (3 + length snapshot + length rest < w)%nat -> exists w', weight (asking snapshot rest) = Some w' /\ (w' < w)%nat.
Proof. destruct rest; cbn; eexists; (split; [done|]); cbn in *; lia. Qed.
Lemma shadow_weight rest w : (3 + length rest < w)%nat -> exists w', weight (shadow rest) = Some w' /\ (w' < w)%nat.
Proof. destruct rest; cbn; eexists; (split; [done|]); cbn in *; lia. Qed.

(** Every step touches the task it belongs to and no other. *)
Lemma apply_other `{MemoIter} s ev s' k : apply s ev = Some s' -> own ev <> Some k ->
  match ev with Enqueue j _ => j <> k | _ => True end -> tasks s' !! k = tasks s !! k.
Proof.
  intros Ha Ho He. destruct ev; cbn in Ha; repeat case_match; simplify_eq; try done; cbn in Ho;
    try (assert (k0 <> k) by congruence); cbn; try by rewrite lookup_insert_ne.
  - unfold enqueue_acquire. destruct (permits s); [done|]. cbn. by rewrite lookup_insert_ne.
  - unfold enqueue_insert. case_bool_decide; cbn; [by rewrite lookup_delete_ne|by rewrite lookup_insert_ne].
  - unfold task_answer. destruct claimed; [destruct (is_store _)|]; cbn; by rewrite lookup_insert_ne.
  - by rewrite lookup_delete_ne.
Qed.

(** A step of its own brings a resolution closer to its end. *)
Lemma apply_own `{MemoIter} s ev s' k t : apply s ev = Some s' -> own ev = Some k -> tasks s !! k = Some t ->
  tasks s' !! k = None \/ exists t', tasks s' !! k = Some t' /\ closer (phase t) (phase t') /\ rest_ne (phase t').
Proof.
  intros Ha Ho Hk.
  assert (Hset : forall r pm fl (p : Phase), closer (phase t) p -> rest_ne p -> s' = mkState r pm fl (<[k := mkTask (t_key t) p]> (tasks s)) ->
    tasks s' !! k = None \/ exists t', tasks s' !! k = Some t' /\ closer (phase t) (phase t') /\ rest_ne (phase t')).
  { intros r pm fl p Hc Hn ->. right. eexists. cbn. by rewrite lookup_insert_eq. }
  destruct ev; cbn [own] in Ho; try done; injection Ho as ->; cbn [apply] in Ha; rewrite Hk in Ha;
    destruct (phase t) eqn:Hp; try done.
  - injection Ha as <-. unfold enqueue_insert in *. case_bool_decide; [left; cbn; by rewrite lookup_delete_eq|].
    eapply (Hset _ _ _ Spawned); [|done|done]. unfold closer. cbn. by left.
  - injection Ha as <-. unfold task_snapshot, set_task in *.
    eapply (Hset _ _ _ (asking _ _)); [|apply asking_ne|done]. right. split; [done|]. by destruct (sources (reg s)).
  - destruct rest as [|e rest]; [done|]. injection Ha as <-. unfold task_answer, set_task in *. destruct claimed; [destruct (is_store e)|].
    + eapply (Hset _ _ _ (Resolved true)); [|done|done]. eexists. split; [done|]. cbn. lia.
    + destruct (note_shadow_checked _ _) as [r first]. eapply Hset; [| |reflexivity]; [|destruct first; [apply shadow_ne|done]].
      unfold closer. cbn [weight]. pose proof (List.filter_length_le is_store snapshot).
      destruct first; [apply shadow_weight; cbn; lia|]. eexists. split; [done|]. cbn. lia.
    + eapply Hset; [|apply asking_ne|done]. apply asking_weight. cbn. lia.
  - destruct rest as [|e rest]; [done|]. injection Ha as <-. unfold task_shadow, set_task in *. eapply Hset; [| |done].
    + unfold closer. cbn [weight]. destruct claimed; [eexists; split; [done|]; cbn; lia|]. apply shadow_weight. cbn. lia.
    + destruct claimed; [done|apply shadow_ne].
  - injection Ha as <-. eapply (Hset _ _ _ Leaving); [|done|done]. eexists. split; [done|]. cbn. lia.
  - injection Ha as <-. eapply (Hset _ _ _ Leaving); [|done|done]. eexists. split; [done|]. cbn. lia.
  - injection Ha as <-. eapply (Hset _ _ _ Leaving); [|done|done]. eexists. split; [done|]. cbn. lia.
  - injection Ha as <-. eapply (Hset _ _ _ Released); [|done|done]. eexists. split; [done|]. cbn. lia.
  - injection Ha as <-. left. cbn. by rewrite lookup_delete_eq.
Qed.

Lemma run_rest_ne `{MemoIter} evs : forall s s', run s evs = Some s' -> (forall k t, tasks s !! k = Some t -> rest_ne (phase t)) ->
  forall k t, tasks s' !! k = Some t -> rest_ne (phase t).
Proof.
  induction evs as [|ev evs IH]; intros s s' Hr Hs; cbn in Hr; [by simplify_eq|].
  destruct (apply s ev) as [s1|] eqn:E; [|done]. apply (IH s1 s' Hr). intros k t Hk.
  destruct (decide (own ev = Some k)) as [Ho|Ho].
  - destruct (tasks s !! k) as [t0|] eqn:E0.
    + destruct (apply_own s ev s1 k t0 E Ho E0) as [?|(t' & ? & _ & ?)]; congruence.
    + destruct ev; cbn in Ho, E; simplify_eq; by rewrite E0 in E.
  - assert (He : match ev with Enqueue j _ => j <> k | _ => True end \/ exists key, ev = Enqueue k key)
      by (destruct ev as [| |j key| | | | | | |]; auto; destruct (decide (j = k)) as [->|]; eauto).
    destruct He as [He|[key ->]]; [apply (Hs k); by rewrite <-(apply_other s ev s1 k)|].
    cbn in E. destruct (tasks s !! k) eqn:E0; [done|]. simplify_eq. unfold enqueue_acquire in Hk.
    destruct (permits s); cbn in Hk; [congruence|]. rewrite lookup_insert_eq in Hk. by simplify_eq.
Qed.

(** The step a task can take, whatever its source answers. *)
Definition next_own (k : nat) (p : Phase) (claimed : bool) (now : Z) : Event :=
  match p with
  | Acquired => Enlist k
  | Spawned => Snapshot k
  | Asking _ _ | Shadow _ => Answer k claimed
  | Resolved _ => Note k now
  | Leaving => Release k
  | Released => End k
  end.

(** How a resolution lets go of its name and of its permit. *)
Lemma apply_ends `{MemoIter} s ev s' k t : apply s ev = Some s' -> own ev = Some k -> tasks s !! k = Some t ->
  match tasks s' !! k with
  | None => permits s' = S (permits s) /\ inflight s' = inflight s /\
      (phase t = Released \/ phase t = Acquired /\ t_name t ∈ inflight s)
  | Some t' => t_key t' = t_key t /\ (phase t' = Released -> t_name t ∉ inflight s')
  end.
Proof.
  intros Ha Ho Hk.
  assert (Hset : forall r pm fl (p : Phase), s' = mkState r pm fl (<[k := mkTask (t_key t) p]> (tasks s)) ->
    p <> Released \/ t_name t ∉ fl -> match tasks s' !! k with None => False | Some t' => t_key t' = t_key t /\ (phase t' = Released -> t_name t ∉ inflight s') end).
  { intros r pm fl p -> Hp. cbn. rewrite lookup_insert_eq. split; [done|]. cbn. intros ->. by destruct Hp. }
  assert (Hgo : match tasks s' !! k with None => False | Some t' => t_key t' = t_key t /\ (phase t' = Released -> t_name t ∉ inflight s') end ->
    match tasks s' !! k with None => permits s' = S (permits s) /\ inflight s' = inflight s /\ (phase t = Released \/ phase t = Acquired /\ t_name t ∈ inflight s)
    | Some t' => t_key t' = t_key t /\ (phase t' = Released -> t_name t ∉ inflight s') end) by (by destruct (tasks s' !! k)).
  destruct ev; cbn [own] in Ho; try done; injection Ho as ->; cbn [apply] in Ha; rewrite Hk in Ha; destruct (phase t) eqn:Hp; try done;
    try (destruct rest as [|e rest]; [done|]); injection Ha as <-.
  - unfold enqueue_insert in *. case_bool_decide; [cbn; rewrite lookup_delete_eq; auto|]. apply Hgo. by eapply Hset; [reflexivity|left].
  - apply Hgo. eapply Hset; [reflexivity|left]. by destruct (sources (reg s)).
  - apply Hgo. unfold task_answer, set_task in *. destruct claimed; [destruct (is_store e)|].
    + by eapply Hset; [reflexivity|left].
    + destruct (note_shadow_checked _ _) as [r []]; (eapply Hset; [reflexivity|left]); [by destruct (List.filter _ _)|done].
    + eapply Hset; [reflexivity|left]. by destruct rest.
  - apply Hgo. eapply Hset; [reflexivity|left]. destruct claimed; [done|]. by destruct rest.
  - apply Hgo. by eapply Hset; [reflexivity|left].
  - apply Hgo. by eapply Hset; [reflexivity|left].
  - apply Hgo. by eapply Hset; [reflexivity|left].
  - apply Hgo. eapply Hset; [reflexivity|right]. set_solver.
  - cbn. rewrite lookup_delete_eq. auto.
Qed.

(** C33: no resolution is stuck and none goes on for ever.  In every reachable state a
    resolution can take its next step whatever the source it asks answers, and no
    step of another task or of the registry disturbs it.  Each of its own steps, a
    panic of a source included, brings it strictly closer to the end once its
    snapshot is taken; when it lets go of its name, the name is no longer in
    flight; and it ends only after that, or at once when another resolution of the
    name is in flight, and gives its permit back. *)
Theorem resolution_ends `{MemoIter} evs s k t : run initial evs = Some s -> tasks s !! k = Some t ->
  (forall claimed now, is_Some (apply s (next_own k (phase t) claimed now))) /\
  (forall ev s', apply s ev = Some s' -> own ev <> Some k -> tasks s' !! k = Some t) /\
  (forall ev s', apply s ev = Some s' -> own ev = Some k ->
     match tasks s' !! k with
     | None => permits s' = S (permits s) /\ inflight s' = inflight s /\
         (phase t = Released \/ phase t = Acquired /\ t_name t ∈ inflight s)
     | Some t' => closer (phase t) (phase t') /\ t_key t' = t_key t /\ (phase t' = Released -> t_name t ∉ inflight s')
     end).
Proof.
  intros Hr Hk. pose proof (run_rest_ne evs initial s Hr ltac:(done) k t Hk) as Hn. split; [|split].
  - intros claimed now. destruct (phase t) as [| |sn [|e rest]|[|e rest]| | |] eqn:Hp; try done; cbn; rewrite Hk, Hp; by eexists.
  - intros ev s' Ha Ho. rewrite (apply_other s ev s' k Ha Ho); [done|]. destruct ev; try done. intros ->. cbn in Ha. by rewrite Hk in Ha.
  - intros ev s' Ha Ho. pose proof (apply_ends s ev s' k t Ha Ho Hk) as He.
    destruct (apply_own s ev s' k t Ha Ho Hk) as [E|(t' & E & Hc & _)]; rewrite E in *; [done|]. split; [done|exact He].
Qed.

(** ** What the sources said *)

(** The answers task [k] got since it was last enqueued, in order: they are inputs
    of the run, not part of its state. *)
Definition heard_step (k : nat) (h : list bool) (ev : Event) : list bool :=
  match ev with
  | Enqueue j _ => if decide (j = k) then [] else h
  | Answer j claimed => if decide (j = k) then h ++ [claimed] else h
  | _ => h
  end.
Definition heard (k : nat) (evs : list Event) : list bool := fold_left (heard_step k) evs [].

(** Task [k] took its snapshot when [l] were the sources. *)
Definition asked `{MemoIter} (evs : list Event) (k : nat) (l : list SourceEntry) : Prop :=
  exists evs1 evs2 s1, evs = evs1 ++ Snapshot k :: evs2 /\ run initial evs1 = Some s1 /\ sources (reg s1) = l /\
    Forall (fun ev => forall key, ev <> Enqueue k key) evs2.

(** A resolution for [key] noted its outcome at [at_]: a source had claimed the
    name, or every source of the snapshot had declined it. *)
Definition resolved_by `{MemoIter} (evs : list Event) (key : MemoKey) (at_ : Z) (found : bool) : Prop :=
  exists evs1 k evs2 s1 t, evs = evs1 ++ Note k at_ :: evs2 /\ run initial evs1 = Some s1 /\ tasks s1 !! k = Some t /\ t_key t = key /\
    if found then true ∈ heard k evs1 else exists l, asked evs1 k l /\ heard k evs1 = replicate (length l) false.

Lemma events_snoc `{MemoIter} evs ev s : forall s', run s (evs ++ [ev]) = Some s' <-> exists s1, run s evs = Some s1 /\ apply s1 ev = Some s'.
Proof.
  revert s. induction evs as [|e evs IH]; intros s s'; cbn.
  - destruct (apply s ev) eqn:E; split; try done; [intros [= <-]; by exists s|..]; by intros (? & [= <-] & ?); congruence.
  - destruct (apply s e); [apply IH|]. split; [done|by intros (? & ? & _)].
Qed.

Lemma heard_snoc k evs ev : heard k (evs ++ [ev]) = heard_step k (heard k evs) ev.
Proof. unfold heard. by rewrite fold_left_app. Qed.

Lemma asked_snoc `{MemoIter} evs ev k l : asked evs k l -> (forall key, ev <> Enqueue k key) -> asked (evs ++ [ev]) k l.
Proof.
  intros (e1 & e2 & s1 & -> & H1 & H2 & H3) He. exists e1, (e2 ++ [ev]), s1. rewrite <-app_assoc. split; [done|]. do 2 (split; [done|]).
  apply Forall_app. by repeat constructor.
Qed.

Lemma resolved_by_snoc `{MemoIter} evs ev key at_ b : resolved_by evs key at_ b -> resolved_by (evs ++ [ev]) key at_ b.
Proof. intros (e1 & k & e2 & s1 & t & -> & Hr). exists e1, k, (e2 ++ [ev]), s1, t. by rewrite <-app_assoc. Qed.

(** Where a task stands is what it has heard. *)
Definition told `{MemoIter} (evs : list Event) (k : nat) (p : Phase) : Prop :=
  match p with
  | Acquired | Spawned => heard k evs = []
  | Asking snapshot rest => asked evs k snapshot /\ exists before, snapshot = before ++ rest /\ heard k evs = replicate (length before) false
  | Shadow _ | Resolved true => true ∈ heard k evs
  | Resolved false => exists l, asked evs k l /\ heard k evs = replicate (length l) false
  | Leaving | Released => True
  end.

Lemma told_asking `{MemoIter} evs k snapshot before rest : asked evs k snapshot -> snapshot = before ++ rest ->
  heard k evs = replicate (length before) false -> told evs k (asking snapshot rest).
Proof.
  intros Ha E Hh. destruct rest as [|e rest]; [|by split; [|exists before]]. exists snapshot. split; [done|]. by rewrite Hh, E, app_nil_r.
Qed.

Lemma told_shadow `{MemoIter} evs k rest : true ∈ heard k evs -> told evs k (shadow rest).
Proof. by destruct rest. Qed.

(** A task that takes no step has heard nothing new. *)
Lemma told_other `{MemoIter} evs ev k p : told evs k p -> own ev <> Some k -> (forall key, ev <> Enqueue k key) -> told (evs ++ [ev]) k p.
Proof.
  intros Ht Ho He.
  assert (Hh : heard k (evs ++ [ev]) = heard k evs).
  { rewrite heard_snoc. destruct ev as [| |j key| | |j c| | | |]; try done; cbn in *; rewrite decide_False; try done; intros ->; [by destruct (He key)|done]. }
  destruct p as [| |snapshot rest|rest|[]| |]; cbn in *; rewrite ?Hh; try done.
  - destruct Ht as [Ha Hb]. split; [by apply asked_snoc|done].
  - destruct Ht as (l & Ha & Hl). exists l. split; [by apply asked_snoc|done].
Qed.

(** A step of its own keeps the account. *)
Lemma told_own `{MemoIter} evs s ev s' k t t' : run initial evs = Some s -> apply s ev = Some s' -> own ev = Some k ->
  tasks s !! k = Some t -> told evs k (phase t) -> tasks s' !! k = Some t' -> told (evs ++ [ev]) k (phase t').
Proof.
  intros Hr Ha Ho Hk Ht Hk'.
  destruct ev as [| | |j|j|j c|j|j now|j|j]; cbn [own] in Ho; try done; injection Ho as ->; cbn [apply] in Ha; rewrite Hk in Ha;
    destruct (phase t) as [| |snapshot rest|rest|b| |] eqn:Hp; try done; cbn [told] in Ht.
  - injection Ha as <-. unfold enqueue_insert in Hk'. case_bool_decide; cbn in Hk'; [by rewrite lookup_delete_eq in Hk'|].
    rewrite lookup_insert_eq in Hk'. injection Hk' as <-. cbn [phase told]. by rewrite heard_snoc.
  - injection Ha as <-. cbn in Hk'. rewrite lookup_insert_eq in Hk'. injection Hk' as <-.
    apply (told_asking _ _ _ []); [|done|by rewrite heard_snoc]. exists evs, [], s. by repeat constructor.
  - destruct rest as [|e rest]; [done|]. injection Ha as <-. destruct Ht as (Hq & before & E & Hh). unfold task_answer in Hk'.
    assert (Hs : heard k (evs ++ [Answer k c]) = heard k evs ++ [c]) by (rewrite heard_snoc; cbn; by rewrite decide_True).
    destruct c; [destruct (is_store e)|].
    + cbn in Hk'. rewrite lookup_insert_eq in Hk'. injection Hk' as <-. cbn. rewrite Hs. set_solver.
    + destruct (note_shadow_checked _ _) as [r []]; cbn in Hk'; rewrite lookup_insert_eq in Hk'; injection Hk' as <-;
        [apply told_shadow|cbn]; rewrite Hs; set_solver.
    + cbn in Hk'. rewrite lookup_insert_eq in Hk'. injection Hk' as <-. apply (told_asking _ _ _ (before ++ [e])).
      * by apply asked_snoc.
      * by rewrite <-app_assoc.
      * rewrite Hs, Hh, length_app. cbn [length]. by rewrite replicate_add.
  - destruct rest as [|e rest]; [done|]. injection Ha as <-. cbn in Hk'. rewrite lookup_insert_eq in Hk'. injection Hk' as <-.
    assert (Hs : true ∈ heard k (evs ++ [Answer k c])) by (rewrite heard_snoc; cbn; rewrite decide_True by done; set_solver).
    destruct c; [done|by apply told_shadow].
  - injection Ha as <-. cbn in Hk'. rewrite lookup_insert_eq in Hk'. by injection Hk' as <-.
  - injection Ha as <-. cbn in Hk'. rewrite lookup_insert_eq in Hk'. by injection Hk' as <-.
  - injection Ha as <-. cbn in Hk'. rewrite lookup_insert_eq in Hk'. by injection Hk' as <-.
  - injection Ha as <-. cbn in Hk'. rewrite lookup_insert_eq in Hk'. by injection Hk' as <-.
  - injection Ha as <-. cbn in Hk'. by rewrite lookup_delete_eq in Hk'.
Qed.

Section Vouched.
Context `{HI : MemoIter} `{!MemoIterLaws}.

Record accounted (evs : list Event) (s : State) : Prop := {
  a_tasks : forall k t, tasks s !! k = Some t -> told evs k (phase t);
  a_memo : forall key e, resolved (reg s) !! key = Some e -> resolved_by evs key e.1 e.2 }.

(** Only a note and a change of the sources touch the memo. *)
Lemma memo_step s ev s' : apply s ev = Some s' ->
  match ev with Note _ _ | Add _ | Remove _ => True | _ => resolved (reg s') = resolved (reg s) end.
Proof.
  intros Ha. destruct ev; cbn in Ha; try done; repeat case_match; simplify_eq; try done.
  - unfold enqueue_acquire. by destruct (permits s).
  - unfold enqueue_insert. by case_bool_decide.
  - unfold task_answer. destruct claimed; [|done]. by destruct (is_store _).
Qed.

Lemma accounted_step evs s ev s' : Inv s -> run initial evs = Some s -> accounted evs s -> apply s ev = Some s' -> accounted (evs ++ [ev]) s'.
Proof.
  intros Hi Hr [Ht Hm] Ha. split.
  - intros k t' Hk'. destruct (decide (own ev = Some k)) as [Ho|Ho].
    + destruct (tasks s !! k) as [t|] eqn:Hk; [by eapply told_own; eauto|]. destruct ev; cbn in Ho, Ha; simplify_eq; by rewrite Hk in Ha.
    + destruct (tasks s !! k) as [t|] eqn:Hk.
      * assert (He : forall key, ev <> Enqueue k key) by (intros key ->; cbn in Ha; by rewrite Hk in Ha).
        rewrite (apply_other s ev s' k Ha Ho) in Hk'; [|destruct ev; try done; intros ->; by destruct (He key)].
        simplify_eq. apply told_other; auto.
      * destruct ev as [| |j key| | | | | | |]; try (rewrite (apply_other s _ s' k Ha Ho) in Hk' by done; congruence).
        destruct (decide (j = k)) as [->|Hj]; [|rewrite (apply_other s _ s' k Ha Ho) in Hk' by done; congruence].
        cbn in Ha. rewrite Hk in Ha. simplify_eq. unfold enqueue_acquire in Hk'. destruct (permits s); cbn in Hk'; [congruence|].
        rewrite lookup_insert_eq in Hk'. injection Hk' as <-. cbn. rewrite heard_snoc. cbn. by rewrite decide_True.
  - intros key e He. destruct ev as [| | | | | | |k now| |];
      try (rewrite (memo_step s _ s' Ha) in He; by apply resolved_by_snoc, Hm); try (cbn in Ha; simplify_eq; done).
    cbn in Ha. destruct (tasks s !! k) as [t|] eqn:Hk; [|done]. destruct (phase t) as [| | | |found| |] eqn:Hp; try done. simplify_eq.
    cbn in He. destruct (proj2 (note_resolved_memo (reg s) (t_key t) now found (i_memo _ Hi)) key e He) as [[-> ->]|Hold];
      [|by apply resolved_by_snoc, Hm].
    exists evs, k, [], s, t. do 4 (split; [done|]). pose proof (Ht k t Hk) as Hto. rewrite Hp in Hto. by destruct found.
Qed.

Lemma accounted_run evs : forall s, run initial evs = Some s -> accounted evs s.
Proof.
  induction evs as [|ev evs IH] using rev_ind; intros s Hr; [cbn in Hr; simplify_eq; by split|].
  apply events_snoc in Hr as (s1 & Hr1 & Ha). eapply accounted_step; eauto. by eapply inv_run; [apply inv_initial|].
Qed.

Lemma recall_vouched evs s key now locked b : run initial evs = Some s -> recall (reg s) key now locked = Some b ->
  exists at_, resolved_by evs key at_ b /\ now - at_ < ttl_of b.
Proof.
  intros Hrun Hr. unfold recall in Hr. destruct locked; [done|].
  destruct (resolved (reg s) !! key) as [[at_ f]|] eqn:E; [|done].
  destruct (alive now (at_, f)) eqn:Ea; [|done]. cbn in Hr. simplify_eq. exists at_.
  split; [by apply (a_memo _ _ (accounted_run evs s Hrun) key (at_, b))|].
  unfold alive, duration_since in Ea. cbn in Ea. apply Z.ltb_lt in Ea. lia.
Qed.

(** C31: what a search answers without waiting is vouched for by the sources.  Yes only
    if a source says yes now, or a resolution of this very name for this very
    identity, noted less than ten seconds ago, was told yes by a source it asked.
    No only if every source says no now, or such a resolution, noted less than two
    seconds ago, was told no by every source there was when it began.  When the
    sources are locked only what is remembered answers, a remembered miss
    included, although the code documents that it then never answers no.  Nothing
    that was resolved for a different peer or user is revealed. *)
Theorem search_answer_sound evs s answers key now locked : run initial evs = Some s ->
  match try_claim (reg s) answers key now locked with
  | Yes =>
    (exists f e, answers = Some f /\ e ∈ sources (reg s) /\ f (source e) = Yes) \/
    (exists at_, resolved_by evs key at_ true /\ now - at_ < RESOLVED_TTL)
  | No =>
    (exists f, answers = Some f /\ forall e, e ∈ sources (reg s) -> f (source e) = No) \/
    (exists at_, resolved_by evs key at_ false /\ now - at_ < RESOLVED_NEGATIVE_TTL)
  | Unknown => True
  end.
Proof.
  intros Hr.
  assert (Hm : match from_memo (recall (reg s) key now locked) with
    | Yes => exists at_, resolved_by evs key at_ true /\ now - at_ < RESOLVED_TTL
    | No => exists at_, resolved_by evs key at_ false /\ now - at_ < RESOLVED_NEGATIVE_TTL
    | Unknown => True end).
  { destruct (recall (reg s) key now locked) as [[]|] eqn:E; [..|done]; by apply (recall_vouched evs s) in E. }
  unfold try_claim. destruct answers as [f|].
  - destruct (existsb _ _) eqn:E1; [|destruct (forallb _ _) eqn:E2].
    + left. apply existsb_exists in E1 as (e & He & Hf). exists f, e. split; [done|]. split; [by apply list_elem_of_In|].
      by destruct (f (source e)).
    + left. exists f. split; [done|]. intros e He. rewrite forallb_forall in E2. apply list_elem_of_In, E2 in He.
      by destruct (f (source e)).
    + destruct (from_memo _); [by right|by right|done].
  - destruct (from_memo _); [by right|by right|done].
Qed.

End Vouched.

(** ** Samples *)

#[local] Instance sample_memo_iter : MemoIter := fun m => map_to_list m.
#[local] Instance sample_memo_laws : MemoIterLaws.
Proof. intros m. reflexivity. Qed.

Definition entry_a : SourceEntry := mkEntry (str "A") 5 1 true.
Definition entry_b : SourceEntry := mkEntry (str "B") 0 2 false.
Definition entry_c : SourceEntry := mkEntry (str "C") 5 3 false.
Definition sample_key : MemoKey := ((Some 7, None), str "PV:1").
Definition sample_events : list Event := [Add entry_a; Add entry_b; Add entry_c; Enqueue 0 sample_key; Enlist 0; Snapshot 0; Answer 0 false].

Lemma lowest_order_wins_witness : exists s, run initial sample_events = Some s /\ delegate (fun x => negb (x =? 2)%nat) (reg s) = Some 1%nat.
Proof.
  destruct (run initial sample_events) as [s|] eqn:E; [|vm_compute in E; discriminate E].
  exists s. split; [reflexivity|]. pose proof (lowest_order_wins sample_events s (fun x => negb (x =? 2)%nat) E) as Hw.
  destruct (delegate _ (reg s)) as [x|] eqn:Ed.
  - destruct Hw as (e & <- & _ & _ & Hf). f_equal.
    vm_compute in E. injection E as <-. vm_compute in Ed. by injection Ed.
  - exfalso. specialize (Hw entry_a). vm_compute in E. injection E as <-. vm_compute in Ed. discriminate Ed.
Defined.

Lemma resolver_bounded_witness : exists s, run initial sample_events = Some s /\ (permits s + size (tasks s) = 8)%nat.
Proof.
  destruct (run initial sample_events) as [s|] eqn:E; [|vm_compute in E; discriminate E].
  exists s. split; [reflexivity|]. exact (proj1 (resolver_bounded sample_events s E)).
Defined.

Definition noted_events : list Event := sample_events ++ [Answer 0 true; Note 0 second].

Lemma search_answer_sound_witness : exists s, run initial noted_events = Some s /\
  try_claim (reg s) (Some (fun _ => Unknown)) sample_key (5 * second) false = Yes /\
  try_claim (reg s) (Some (fun _ => Unknown)) ((Some 8, None), str "PV:1") (5 * second) false = Unknown /\
  exists at_, resolved_by noted_events sample_key at_ true /\ 5 * second - at_ < RESOLVED_TTL.
Proof.
  destruct (run initial noted_events) as [s|] eqn:E; [|vm_compute in E; discriminate E].
  pose proof (search_answer_sound noted_events s (Some (fun _ => Unknown)) sample_key (5 * second) false E) as Hw.
  assert (Hy : try_claim (reg s) (Some (fun _ => Unknown)) sample_key (5 * second) false = Yes)
    by (vm_compute in E; injection E as <-; vm_compute; reflexivity).
  exists s. split; [reflexivity|]. split; [exact Hy|]. split; [vm_compute in E; injection E as <-; vm_compute; reflexivity|].
  rewrite Hy in Hw. destruct Hw as [(f & e & Ef & _ & Hf)|Hw]; [|exact Hw]. injection Ef as <-. discriminate Hf.
Defined.

Lemma resolution_ends_witness : exists s t, run initial sample_events = Some s /\ tasks s !! 0%nat = Some t /\
  is_Some (apply s (next_own 0 (phase t) true second)).
Proof.
  destruct (run initial sample_events) as [s|] eqn:E; [|vm_compute in E; discriminate E].
  destruct (tasks s !! 0%nat) as [t|] eqn:Ht; [|vm_compute in E; injection E as <-; vm_compute in Ht; discriminate Ht].
  exists s, t. split; [reflexivity|]. split; [exact Ht|]. exact (proj1 (resolution_ends sample_events s 0 t E Ht) true second).
Defined.

(** A resolution that began before a source was removed notes its outcome behind the
    invalidation: the name stays advertised although its only source is gone. *)
Definition stale_events : list Event :=
  [Add entry_a; Add entry_c; Enqueue 0 sample_key; Enlist 0; Snapshot 0; Answer 0 true; Remove (str "A"); Note 0 second].

Theorem stale_note_outlives_removal : exists s, run initial stale_events = Some s /\ sources (reg s) = [entry_c] /\
  try_claim (reg s) (Some (fun _ => Unknown)) sample_key (10 * second) false = Yes /\
  delegate (fun x => (x =? 1)%nat) (reg s) = None.
Proof. eexists. split; [vm_compute; reflexivity|]. vm_compute. done. Qed.

(** With the sources locked a remembered miss answers no. *)
Example contended_search_answers_no : exists s,
  run initial [Add entry_c; Enqueue 0 sample_key; Enlist 0; Snapshot 0; Answer 0 false; Note 0 second] = Some s /\
  try_claim (reg s) None sample_key (2 * second) false = No.
Proof. eexists. split; [vm_compute; reflexivity|]. vm_compute. done. Qed.

End Registry.
