(* ===== verification/Cycles.v ===== *)
(** * Cycles of the link graph

    [find_cycles] of [spvirit-ioc/src/graph.rs]: the iterative depth-first search
    that reports the strongly connected components of the db links.  The explicit
    work list, the index and low-link maps and the stack are the ones of the code;
    an index into a map that has no such key is a panic ([None]), and the fuel is
    a bound on the steps of one search, so that the result [Some] shows that the
    search neither panics nor runs on. *)

From stdpp Require Import gmap sorting relations.
From S2P Require Import Prelude Utf8 Wire PvdTypes NtTypes F64 Ioc IocSafe UnionFind LockSet.

Module Cycles.
Import LockSet.

(** ** Edges *)

Inductive EdgeKind := EInp | EOut | EDol | EFlnk | ESdis.

Record Edge := mkEdge { from : bytes; to : bytes; ekind : EdgeKind; processes_target : bool }.

(** ** Order of the results *)

Fixpoint vec_leb (a b : list bytes) : bool :=
  match a, b with
  | [], _ => true
  | _ :: _, [] => false
  | x :: a, y :: b => if bool_decide (x = y) then vec_leb a b else bytes_leb x y
  end.
Definition vec_le (a b : list bytes) : Prop := vec_leb a b = true.

#[export] Instance vec_le_dec : RelDecision vec_le.
Proof. intros a b. unfold vec_le. apply _. Defined.

#[export] Instance bytes_le_total : Total bytes_le.
Proof.
  intros a. unfold bytes_le. induction a as [|x a IH]; intros [|y b]; cbn; auto.
  destruct (Z.lt_trichotomy x y) as [?|[->|?]].
  - left. apply Z.ltb_lt in H as ->. done.
  - rewrite Z.ltb_irrefl, Z.eqb_refl. cbn. apply IH.
  - right. apply Z.ltb_lt in H as ->. done.
Qed.

#[export] Instance vec_le_total : Total vec_le.
Proof.
  intros a. unfold vec_le. induction a as [|x a IH]; intros [|y b]; cbn; auto.
  destruct (decide (x = y)) as [->|Hne]; [rewrite bool_decide_eq_true_2 by done; apply IH|].
  rewrite !bool_decide_eq_false_2 by congruence. apply bytes_le_total.
Qed.

(** ** The search *)

Definition adjacency (edges : list Edge) : gmap bytes (list bytes) :=
  fold_left (fun m e => <[from e := default [] (m !! from e) ++ [to e]]> m) edges ∅.

Definition see (acc : gset bytes * list bytes) (n : bytes) : gset bytes * list bytes :=
  if bool_decide (n ∈ acc.1) then acc else ({[n]} ∪ acc.1, acc.2 ++ [n]).

Definition nodes (edges : list Edge) : list bytes :=
  merge_sort bytes_le (fold_left (fun acc e => see (see acc (from e)) (to e)) edges (∅, [])).2.

Record Dfs := mkDfs {
  index : gmap bytes nat;
  low : gmap bytes nat;
  on_stack : gset bytes;
  stack : list bytes;
  next_index : nat;
  found : list (list bytes)
}.

Definition start : Dfs := mkDfs ∅ ∅ ∅ [] 0 [].

(** A node met for the first time. *)
Definition open_node (s : Dfs) (n : bytes) : Dfs :=
  mkDfs (<[n := next_index s]> (index s)) (<[n := next_index s]> (low s)) ({[n]} ∪ on_stack s) (n :: stack s)
    (S (next_index s)) (found s).

Definition set_low (s : Dfs) (n : bytes) (l : nat) : Dfs :=
  mkDfs (index s) (<[n := l]> (low s)) (on_stack s) (stack s) (next_index s) (found s).

(** The stack down to the root of the component. *)
Fixpoint pop_component (n : bytes) (st : list bytes) (on : gset bytes) : list bytes * list bytes * gset bytes :=
  match st with
  | [] => ([], [], on)
  | top :: st =>
    if bool_decide (top = n) then ([top], st, on ∖ {[top]})
    else let '(c, st', on') := pop_component n st (on ∖ {[top]}) in (top :: c, st', on')
  end.

Section Search.
Variable adj : gmap bytes (list bytes).

Definition neighbours (n : bytes) : list bytes := default [] (adj !! n).

Definition emit (s : Dfs) (n : bytes) : Dfs :=
  let '(component, st, on) := pop_component n (stack s) (on_stack s) in
  let self_loop := bool_decide (n ∈ neighbours n) in
  mkDfs (index s) (low s) on st (next_index s)
    (if (1 <? length component)%nat || self_loop then found s ++ [merge_sort bytes_le component] else found s).

(** A finished node hands its low-link to its parent. *)
Definition propagate (s : Dfs) (n : bytes) (work : list (bytes * nat)) : option Dfs :=
  match work with
  | [] => Some s
  | (parent, _) :: _ =>
    match low s !! parent, low s !! n with
    | Some lp, Some ln => Some (set_low s parent (Nat.min lp ln))
    | _, _ => None
    end
  end.

Definition close_node (s : Dfs) (n : bytes) : option Dfs :=
  match low s !! n, index s !! n with
  | Some l, Some i => Some (if (l =? i)%nat then emit s n else s)
  | _, _ => None
  end.

(** One turn of the loop, with the top of the work list taken off. *)
Definition turn (s : Dfs) (n : bytes) (pos : nat) (work : list (bytes * nat)) : option (Dfs * list (bytes * nat)) :=
  match neighbours n !! pos with
  | Some next =>
    let work := (n, S pos) :: work in
    match index s !! next with
    | None => Some (open_node s next, (next, 0) :: work)
    | Some i =>
      if bool_decide (next ∈ on_stack s)
      then match low s !! n with Some l => Some (set_low s n (Nat.min l i), work) | None => None end
      else Some (s, work)
    end
  | None =>
    match propagate s n work with
    | Some s => match close_node s n with Some s => Some (s, work) | None => None end
    | None => None
    end
  end.

Fixpoint visit (fuel : nat) (s : Dfs) (work : list (bytes * nat)) : option Dfs :=
  match work with
  | [] => Some s
  | (n, pos) :: work =>
    match fuel with
    | O => None
    | S fuel => match turn s n pos work with Some (s, work) => visit fuel s work | None => None end
    end
  end.

Fixpoint visit_roots (fuel : nat) (s : Dfs) (roots : list bytes) : option Dfs :=
  match roots with
  | [] => Some s
  | root :: roots =>
    match index s !! root with
    | Some _ => visit_roots fuel s roots
    | None => match visit fuel (open_node s root) [(root, 0)] with Some s => visit_roots fuel s roots | None => None end
    end
  end.

End Search.

Definition find_cycles (edges : list Edge) : option (list (list bytes)) :=
  match visit_roots (adjacency edges) (length (nodes edges) * S (length edges)) start (nodes edges) with
  | Some s => Some (merge_sort vec_le (found s))
  | None => None
  end.

(** ** Reachability *)

(** An edge of the graph. *)
Definition edge (edges : list Edge) (x y : bytes) : Prop := exists e, e ∈ edges /\ from e = x /\ to e = y.

(** [c] is the component of a node that lies on a cycle. *)
Definition component (E : relation bytes) (c : list bytes) : Prop :=
  NoDup c /\ exists x, x ∈ c /\ tc E x x /\ forall y, y ∈ c <-> rtc E x y /\ rtc E y x.

Lemma component_perm E c c' : c ≡ₚ c' -> component E c -> component E c'.
Proof. intros Hp [Hn (x & Hx & Ht & Hc)]. split; [by rewrite <-Hp|]. exists x. rewrite <-Hp. split_and!; [done..|]. intros y. by rewrite <-Hp. Qed.

Lemma tc_via E (x y : bytes) : x <> y -> rtc E x y -> rtc E y x -> tc E x x.
Proof. intros Hne H1 H2. apply rtc_tc in H1 as [?|H1]; [done|]. by eapply tc_rtc_r. Qed.

Section Correct.
Variable adj : gmap bytes (list bytes).
Abbreviation nb := (neighbours adj).
Definition E (x y : bytes) : Prop := y ∈ nb x.

Definition ix (s : Dfs) (x : bytes) : nat := default 0 (index s !! x).
Definition lw (s : Dfs) (x : bytes) : nat := default 0 (low s !! x).
Definition met (s : Dfs) (x : bytes) : Prop := is_Some (index s !! x).

(** An edge the search has looked at. *)
Definition seen (work : list (bytes * nat)) (x y : bytes) : Prop :=
  exists k, nb x !! k = Some y /\ forall p, (x, p) ∈ work -> (k < p)%nat.

(** The maps, the stack and the work list fit each other. *)
Record Shape (s : Dfs) (work : list (bytes * nat)) : Prop := {
  i_low : forall x, met s x <-> is_Some (low s !! x);
  i_lt : forall x, met s x -> (ix s x < next_index s)%nat;
  i_inj : forall x y, met s x -> met s y -> ix s x = ix s y -> x = y;
  i_on : forall x, x ∈ on_stack s <-> x ∈ stack s;
  i_met : forall x, x ∈ stack s -> met s x;
  i_sorted : StronglySorted (fun x y => (ix s y < ix s x)%nat) (stack s);
  i_work : forall w, w ∈ work.*1 -> w ∈ stack s;
  i_path : StronglySorted (fun x y => (ix s y < ix s x)%nat /\ rtc E y x) work.*1
}.

(** What holds of the search between two turns of its loop. *)
Record Inv (s : Dfs) (work : list (bytes * nat)) : Prop := {
  i_shape : Shape s work;
  i_desc : forall w x, w ∈ work.*1 -> x ∈ stack s -> (ix s w <= ix s x)%nat -> rtc E w x;
  i_gray : forall x, x ∈ stack s -> exists w, w ∈ work.*1 /\ (ix s w <= ix s x)%nat /\ rtc E x w;
  i_dead : forall x y, met s x -> x ∉ stack s -> E x y -> met s y /\ y ∉ stack s;
  i_seen : forall x y, met s x -> seen work x y -> met s y /\ (y ∈ stack s -> lw s x <= ix s y)%nat;
  i_le : forall x, met s x -> (lw s x <= ix s x)%nat;
  i_reach : forall x, x ∈ stack s -> exists y, y ∈ stack s /\ ix s y = lw s x /\ rtc E x y;
  i_seg : forall x, x ∈ stack s -> exists w, w ∈ work.*1 /\ (ix s w <= ix s x)%nat /\ (lw s w <= lw s x)%nat /\
    forall w', w' ∈ work.*1 -> (ix s w' <= ix s x)%nat -> (ix s w' <= ix s w)%nat;
  i_found : forall c, c ∈ found s -> (component E c /\ Sorted bytes_le c) /\ forall x, x ∈ c -> met s x /\ x ∉ stack s;
  i_all : forall x, met s x -> x ∉ stack s -> tc E x x -> exists c, c ∈ found s /\ x ∈ c;
  i_once : NoDup (found s)
}.

Lemma met_start x : ~ met start x.
Proof. unfold met. cbn. rewrite lookup_empty. by intros [? ?]. Qed.

Lemma inv_start : Inv start [].
Proof.
  split; [split|..]; try (by intros x Hx; destruct (met_start x)); try (by intros x y Hx; destruct (met_start x)); cbn; try constructor; try set_solver.
Qed.

(** *** Meeting a node *)

Lemma met_open s n x : met (open_node s n) x <-> x = n \/ met s x.
Proof. unfold met. cbn. destruct (decide (x = n)) as [->|Hne]; [rewrite lookup_insert_eq; naive_solver|]. rewrite lookup_insert_ne by done. naive_solver. Qed.

Lemma ix_open s n : ix (open_node s n) n = next_index s.
Proof. unfold ix. cbn. by rewrite lookup_insert_eq. Qed.

Lemma ix_open_ne s n x : x <> n -> ix (open_node s n) x = ix s x.
Proof. intros. unfold ix. cbn. by rewrite lookup_insert_ne. Qed.

Lemma lw_open s n : lw (open_node s n) n = next_index s.
Proof. unfold lw. cbn. by rewrite lookup_insert_eq. Qed.

Lemma lw_open_ne s n x : x <> n -> lw (open_node s n) x = lw s x.
Proof. intros. unfold lw. cbn. by rewrite lookup_insert_ne. Qed.

Lemma sorted_imp {A} (R R' : relation A) l : (forall x y, x ∈ l -> y ∈ l -> R x y -> R' x y) -> StronglySorted R l -> StronglySorted R' l.
Proof.
  induction 2 as [|a l Hs IH Hf]; constructor.
  - apply IH. set_solver.
  - rewrite Forall_forall in *. intros y Hy. apply H; [set_solver..|]. by apply Hf.
Qed.

(** Membership in a list with a new head. *)
Ltac mem := solve [by left | by right; auto | set_solver].

Lemma open_shape s work work' n : Shape s work -> ~ met s n -> work'.*1 = work.*1 ->
  (forall w, w ∈ work.*1 -> rtc E w n) -> Shape (open_node s n) ((n, 0) :: work').
Proof.
  intros [Ilow Ilt Iinj Ion Imet Isort Iwork Ipath] Hn Hw Hr.
  assert (Hst : forall x, x ∈ stack s -> x <> n) by (intros x Hx ->; by apply Hn, Imet).
  assert (Hwk : forall x, x ∈ work.*1 -> x <> n) by (intros x Hx; by apply Hst, Iwork).
  assert (Hm : forall x, met s x -> x <> n) by congruence.
  assert (Hlt : forall x, x <> n -> met (open_node s n) x -> (ix s x < next_index s)%nat) by (intros x ? [?|?]%met_open; [done|by apply Ilt]).
  split; rewrite ?fmap_cons, ?Hw; cbn [stack found on_stack fst].
  - intros x. rewrite met_open. cbn. rewrite lookup_insert_is_Some, Ilow. destruct (decide (x = n)); naive_solver.
  - intros x [->|Hx]%met_open; cbn; [rewrite ix_open; lia|]. rewrite ix_open_ne by auto. specialize (Ilt x Hx). lia.
  - intros x y Hx Hy. destruct (decide (x = n)) as [->|Hxn], (decide (y = n)) as [->|Hyn]; [done|..];
      rewrite ?ix_open, ?ix_open_ne by done.
    + specialize (Hlt y Hyn Hy). lia.
    + specialize (Hlt x Hxn Hx). lia.
    + apply met_open in Hx as [?|Hx], Hy as [?|Hy]; [done..|]. by apply Iinj.
  - cbn. mem.
  - cbn. intros x [->|Hx]%elem_of_cons; rewrite met_open; auto.
  - cbn. constructor.
    + eapply sorted_imp; [|exact Isort]. intros x y Hx Hy. by rewrite !ix_open_ne by auto.
    + apply Forall_forall. intros x Hx. rewrite ix_open, ix_open_ne by auto. auto.
  - cbn. intros w [->|Hx]%elem_of_cons; mem.
  - constructor.
    + eapply sorted_imp; [|exact Ipath]. intros x y Hx Hy. by rewrite !ix_open_ne by auto.
    + apply Forall_forall. intros x Hx. rewrite ix_open, ix_open_ne by auto. auto.
Qed.

Lemma open_inv s work work' n : Inv s work -> ~ met s n -> work'.*1 = work.*1 ->
  (forall x y, met s x -> seen work' x y -> seen work x y \/ (x ∈ work.*1 /\ y = n)) ->
  (forall w, w ∈ work.*1 -> rtc E w n) -> Inv (open_node s n) ((n, 0) :: work').
Proof.
  intros HI Hn Hw Hs Hr. destruct HI as [HS Idesc Igray Idead Iseen Ile Ireach Iseg Ifound Iall Ionce].
  pose proof (open_shape s work work' n HS Hn Hw Hr) as HS'. destruct HS as [Ilow Ilt Iinj Ion Imet Isort Iwork Ipath].
  assert (Hst : forall x, x ∈ stack s -> x <> n) by (intros x Hx ->; by apply Hn, Imet).
  assert (Hwk : forall x, x ∈ work.*1 -> x <> n) by (intros x Hx; by apply Hst, Iwork).
  assert (Hm : forall x, met s x -> x <> n) by congruence.
  split; rewrite ?fmap_cons, ?Hw; [exact HS'|..]; clear HS'.
  - cbn. intros w x [->|Hwi]%elem_of_cons [->|Hx]%elem_of_cons; [intros; reflexivity| |intros; auto|].
    + rewrite ix_open, ix_open_ne by auto. specialize (Ilt x (Imet x Hx)). lia.
    + rewrite !ix_open_ne by auto. auto.
  - cbn. intros x [->|Hx]%elem_of_cons; [exists n; split_and!; [mem|lia|reflexivity]|].
    destruct (Igray x Hx) as (w & Hwi & Hle & Hrt). exists w. rewrite !ix_open_ne by auto. split_and!; [mem|done..].
  - cbn. intros x y [->|Hx]%met_open [Hxn Hnx]%not_elem_of_cons HE; [done|].
    destruct (Idead x y Hx Hnx HE) as [Hy Hny]. rewrite met_open. split; [auto|].
    intros [->|?]%elem_of_cons; [done|done].
  - cbn. intros x y Hx (k & Hk & Hp).
    assert (Hxy : x <> n /\ seen work' x y) by (split; [intros ->; specialize (Hp 0 ltac:(mem)); lia|]; exists k; split; [done|]; intros p ?; apply Hp; mem).
    destruct Hxy as [Hxn Hsn]. apply met_open in Hx as [?|Hx]; [done|]. rewrite met_open, lw_open_ne by done.
    destruct (Hs x y Hx Hsn) as [[Hy Hl]%(Iseen x y Hx)|[Hxw ->]].
    + split; [auto|]. intros [?|Hys]%elem_of_cons; [congruence|]. rewrite ix_open_ne by auto. auto.
    + split; [auto|]. intros _. rewrite ix_open. specialize (Ilt x Hx). specialize (Ile x Hx). lia.
  - intros x [->|Hx]%met_open; [by rewrite ix_open, lw_open|]. rewrite ix_open_ne, lw_open_ne by auto. auto.
  - cbn. intros x [->|Hx]%elem_of_cons; [exists n; rewrite ix_open, lw_open; split_and!; [mem|done|reflexivity]|].
    destruct (Ireach x Hx) as (y & Hy & He & Hrt). exists y. rewrite ix_open_ne, lw_open_ne by auto. split_and!; [mem|done..].
  - cbn. intros x [->|Hx]%elem_of_cons.
    + exists n. rewrite ix_open. split_and!; [mem|done..].
    + destruct (Iseg x Hx) as (w & Hwi & H1 & H2 & H3). exists w. rewrite !ix_open_ne, !lw_open_ne by auto.
      split_and!; [mem|done..|]. intros w' [->|Hw']%elem_of_cons.
      * rewrite ix_open. specialize (Ilt x (Imet x Hx)). lia.
      * rewrite ix_open_ne by auto. auto.
  - cbn. intros c Hc. destruct (Ifound c Hc) as [? Hd]. split; [done|]. intros x Hx. rewrite met_open.
    destruct (Hd x Hx). split; [auto|]. intros [->|?]%elem_of_cons; done.
  - cbn. intros x [->|Hx]%met_open [Hxn Hnx]%not_elem_of_cons; [done|]. by apply Iall.
  - done.
Qed.

(** *** Lowering a low-link *)

Lemma met_low s n l x : met (set_low s n l) x <-> met s x.
Proof. done. Qed.

Lemma ix_low s n l x : ix (set_low s n l) x = ix s x.
Proof. done. Qed.

Lemma lw_low s n l x : lw (set_low s n l) x = if decide (x = n) then l else lw s x.
Proof. unfold lw. cbn. destruct (decide (x = n)) as [->|?]; [by rewrite lookup_insert_eq|by rewrite lookup_insert_ne]. Qed.

Lemma lw_lower s n l x : (l <= lw s n)%nat -> (lw (set_low s n l) x <= lw s x)%nat.
Proof. intros. rewrite lw_low. destruct (decide _) as [->|?]; lia. Qed.

Lemma set_low_inv s work n l : Inv s work -> n ∈ work.*1 -> (l <= lw s n)%nat ->
  (exists y, y ∈ stack s /\ ix s y = l /\ rtc E n y) -> Inv (set_low s n l) work.
Proof.
  intros [HS Idesc Igray Idead Iseen Ile Ireach Iseg Ifound Iall Ionce] Hn Hl Hy.
  pose proof (fun x => lw_lower s n l x Hl) as Hle. pose proof HS as [Ilow Ilt Iinj Ion Imet Isort Iwork Ipath].
  assert (Hmn : met s n) by auto.
  split; try done.
  - split; try done. intros x. rewrite met_low, Ilow. cbn. rewrite lookup_insert_is_Some.
    destruct (decide (n = x)) as [->|?]; [|naive_solver]. split; [auto|]. intros _. by apply Ilow.
  - intros x y Hx Hsn. destruct (Iseen x y Hx Hsn) as [? Hys]. split; [done|]. intros Hst. specialize (Hys Hst). specialize (Hle x).
    rewrite ix_low. lia.
  - intros x Hx. specialize (Ile x Hx). specialize (Hle x). rewrite ix_low. lia.
  - intros x Hx. rewrite lw_low. destruct (decide (x = n)) as [->|?]; [done|]. by apply Ireach.
  - intros x Hx. destruct (decide (x = n)) as [->|Hne]; [exists n; split_and!; done|].
    destruct (Iseg x Hx) as (w & Hw & H1 & H2 & H3). exists w. rewrite (lw_low _ _ _ x), decide_False by done.
    specialize (Hle w). split_and!; [done..|lia|done].
Qed.

(** *** Looking at an edge *)

Lemma seen_advance n pos next work x y : nb n !! pos = Some next ->
  seen ((n, S pos) :: work) x y -> seen ((n, pos) :: work) x y \/ (x = n /\ y = next).
Proof.
  intros Hp (k & Hk & Hs). destruct (decide (x = n /\ k = pos)) as [[-> ->]|Hne]; [right; split; congruence|].
  left. exists k. split; [done|]. intros p [[= -> ->]|Hin]%elem_of_cons.
  - specialize (Hs (S pos) ltac:(by left)). destruct (decide (k = pos)); [|lia]. subst. by destruct Hne.
  - apply Hs. by right.
Qed.

(** The edge leads to a node that was met before, accounted for if it is on the stack. *)
Lemma advance_inv s n pos next work : Inv s ((n, pos) :: work) -> nb n !! pos = Some next -> met s next ->
  (next ∈ stack s -> (lw s n <= ix s next)%nat) -> Inv s ((n, S pos) :: work).
Proof.
  intros [HS Idesc Igray Idead Iseen Ile Ireach Iseg Ifound Iall Ionce] Hp Hm Hl.
  split; try done.
  - destruct HS. split; done.
  - intros x y Hx Hsn. destruct (seen_advance _ _ _ _ _ _ Hp Hsn) as [Ho|[-> ->]]; auto.
Qed.

(** *** Leaving a node *)

Lemma seen_leave n pos work x y : nb n !! pos = None -> seen work x y -> seen ((n, pos) :: work) x y.
Proof.
  intros Hp (k & Hk & Hs). exists k. split; [done|]. intros p [[= -> ->]|Hin]%elem_of_cons; [|auto].
  apply lookup_lt_Some in Hk. apply lookup_ge_None in Hp. lia.
Qed.

Lemma leave_shape s n pos work : Shape s ((n, pos) :: work) -> Shape s work.
Proof.
  intros [Ilow Ilt Iinj Ion Imet Isort Iwork Ipath]. cbn in *. split; try done; [intros w Hw; apply Iwork; by right|].
  by apply StronglySorted_inv in Ipath as [? _].
Qed.

Lemma work_head s n pos work w : Shape s ((n, pos) :: work) -> w ∈ work.*1 -> (ix s w < ix s n)%nat /\ rtc E w n.
Proof. intros HS Hw. destruct HS as [_ _ _ _ _ _ _ Ipath]. apply StronglySorted_inv in Ipath as [_ Hf]. rewrite Forall_forall in Hf. by apply Hf. Qed.

Lemma keep_inv s n pos work : Inv s ((n, pos) :: work) -> nb n !! pos = None -> lw s n <> ix s n ->
  match work with [] => True | (p, _) :: _ => (lw s p <= lw s n)%nat end -> Inv s work.
Proof.
  intros [HS Idesc Igray Idead Iseen Ile Ireach Iseg Ifound Iall Ionce] Hp Hne Hpar.
  pose proof (leave_shape _ _ _ _ HS) as HS'. pose proof (fun w => work_head _ _ _ _ w HS) as Hhd.
  assert (Hns : n ∈ stack s) by (apply (i_work _ _ HS); by left).
  assert (Hlow : exists y w, rtc E n y /\ rtc E y w /\ w ∈ work.*1 /\ (ix s w < ix s n)%nat).
  { destruct (Ireach n Hns) as (y & Hy & Hyi & Hr). destruct (Igray y Hy) as (w & Hw & Hwi & Hrw). exists y, w.
    specialize (Ile n (i_met _ _ HS n Hns)). cbn in Hw. apply elem_of_cons in Hw as [->|Hw]; [lia|]. split_and!; [done..|lia]. }
  destruct Hlow as (y & w0 & Hny & Hyw & Hw0 & Hlt).
  split; try done.
  - intros w x Hw Hx Hwx. apply Idesc; [by right|done..].
  - intros x Hx. destruct (Igray x Hx) as (w & [->|Hw]%elem_of_cons & Hwi & Hr); [|by exists w].
    exists w0. cbn in Hwi, Hr. split_and!; [done|lia|]. etrans; [exact Hr|]. by etrans.
  - intros x z Hx Hsn. apply Iseen; [done|]. by apply seen_leave.
  - intros x Hx. destruct (Iseg x Hx) as (w & Hw & H1 & H2 & H3). apply elem_of_cons in Hw as [->|Hw]; [|exists w; split_and!; try done; intros w' Hw'; apply H3; by right].
    destruct work as [|[p q] work]; [by apply not_elem_of_nil in Hw0|]. exists p. cbn in *.
    destruct (Hhd p ltac:(by left)) as [Hpn _]. split_and!; [by left|lia..|].
    intros w' [->|Hw']%elem_of_cons _; [done|]. destruct (work_head _ _ _ _ w' HS' Hw'). lia.
Qed.

(** *** Taking a component off the stack *)

Lemma pop_component_spec n pre rest on : n ∉ pre ->
  pop_component n (pre ++ n :: rest) on = (pre ++ [n], rest, on ∖ list_to_set (pre ++ [n])).
Proof.
  revert on. induction pre as [|x pre IH]; intros on; cbn.
  - intros _. rewrite bool_decide_eq_true_2 by done. f_equal. set_solver.
  - intros [Hne Hn]%not_elem_of_cons. rewrite bool_decide_eq_false_2 by congruence. rewrite IH by done. f_equal. set_solver.
Qed.

(** The stack above a node of the work list holds the later indices. *)
Lemma stack_split s work n pre rest : Shape s work -> stack s = pre ++ n :: rest ->
  (forall x, x ∈ pre ++ [n] <-> x ∈ stack s /\ (ix s n <= ix s x)%nat) /\
  (forall x, x ∈ rest <-> x ∈ stack s /\ (ix s x < ix s n)%nat).
Proof.
  intros HS Est. pose proof (i_sorted _ _ HS) as Hs. rewrite Est in Hs.
  assert (H1 : forall x, x ∈ pre -> (ix s n < ix s x)%nat) by (intros x Hx; apply (StronglySorted_app_1_elem_of _ _ _ x n Hs Hx); by left).
  assert (H2 : forall x, x ∈ rest -> (ix s x < ix s n)%nat).
  { apply StronglySorted_app_1_r in Hs. apply StronglySorted_inv in Hs as [_ Hf]. by rewrite Forall_forall in Hf. }
  rewrite Est. split; intros x.
  - rewrite elem_of_app, list_elem_of_singleton, elem_of_app, elem_of_cons. split.
    + intros [Hx| ->]; [specialize (H1 x Hx)|]; split; auto; lia.
    + intros [[Hx|[->|Hx]] Hl]; auto. specialize (H2 x Hx). lia.
  - rewrite elem_of_app, elem_of_cons. split; [intros Hx; split; [auto|by apply H2]|].
    intros [[Hx|[->|Hx]] Hl]; auto; [specialize (H1 x Hx)|]; lia.
Qed.

(** With the low-link of [n] its own index, no edge leaves the stack above it downwards. *)
Lemma closed_above s n pos work x y : Inv s ((n, pos) :: work) -> nb n !! pos = None -> lw s n = ix s n ->
  x ∈ stack s -> (ix s n <= ix s x)%nat -> E x y -> met s y /\ (y ∈ stack s -> (ix s n <= ix s y)%nat).
Proof.
  intros HI Hp Hroot Hx Hle HE. pose proof (i_shape _ _ HI) as HS. pose proof (fun w => work_head _ _ _ _ w HS) as Hhd.
  assert (Hsn : seen ((n, pos) :: work) x y).
  { apply list_elem_of_lookup in HE as [k Hk]. exists k. split; [done|]. intros p [[= -> ->]|Hin]%elem_of_cons.
    - apply lookup_lt_Some in Hk. apply lookup_ge_None in Hp. lia.
    - destruct (Hhd x); [|lia]. apply list_elem_of_fmap. by exists (x, p). }
  destruct (i_seen _ _ HI x y (i_met _ _ HS x Hx) Hsn) as [Hm Hl]. split; [done|]. intros Hy. specialize (Hl Hy).
  destruct (i_seg _ _ HI x Hx) as (w & Hw & H1 & H2 & H3). specialize (H3 n ltac:(by left) Hle).
  apply elem_of_cons in Hw as [->|Hw]; [cbn in *; lia|]. destruct (Hhd w Hw). lia.
Qed.

(** The part of the stack above [n] is its strongly connected component. *)
Lemma above_component s n pos work : Inv s ((n, pos) :: work) -> nb n !! pos = None -> lw s n = ix s n ->
  forall y, y ∈ stack s /\ (ix s n <= ix s y)%nat <-> rtc E n y /\ rtc E y n.
Proof.
  intros HI Hp Hroot y. pose proof (i_shape _ _ HI) as HS. pose proof (fun w => work_head _ _ _ _ w HS) as Hhd.
  assert (Hns : n ∈ stack s) by (apply (i_work _ _ HS); by left). split.
  - intros [Hy Hle]. split; [apply (i_desc _ _ HI); [by left|done..]|].
    destruct (i_gray _ _ HI y Hy) as (w & [->|Hw]%elem_of_cons & _ & Hr); [done|]. etrans; [exact Hr|]. by apply Hhd.
  - intros [Hny Hyn].
    assert (Hdead : forall a, rtc E a n -> met s a -> a ∈ stack s).
    { intros a Ha Hm. destruct (decide (a ∈ stack s)) as [|Hna]; [done|]. exfalso. revert Hm Hna.
      induction Ha as [|a b c Hab _ IH]; intros Hm Hna; [done|]. destruct (i_dead _ _ HI a b Hm Hna Hab). auto. }
    assert (Hup : met s y /\ (y ∈ stack s -> (ix s n <= ix s y)%nat)).
    { clear Hyn. revert y Hny. apply (rtc_ind_r (fun y => met s y /\ (y ∈ stack s -> (ix s n <= ix s y)%nat)) n); [split; [by apply (i_met _ _ HS)|done]|].
      intros a b Hna Hab [Hm Hl]. destruct (decide (a ∈ stack s)) as [Has|Has]; [by eapply closed_above; eauto|].
      destruct (i_dead _ _ HI a b Hm Has Hab). done. }
    destruct Hup as [Hm Hl]. specialize (Hdead y Hyn Hm). auto.
Qed.

Lemma falling_nodup (f : bytes -> nat) l : StronglySorted (fun x y => (f y < f x)%nat) l -> NoDup l.
Proof. induction 1 as [|a l _ IH Hf]; constructor; [|done]. rewrite Forall_forall in Hf. intros Ha. specialize (Hf a Ha). cbn in Hf. lia. Qed.

(** The test of the code tells a component on a cycle. *)
Lemma cyclic_test n c : n ∈ c -> NoDup c -> (forall y, y ∈ c <-> rtc E n y /\ rtc E y n) ->
  (1 <? length c)%nat || bool_decide (n ∈ nb n) = true <-> tc E n n.
Proof.
  intros Hn Hd Hc. rewrite orb_true_iff, Nat.ltb_lt, bool_decide_eq_true. split.
  - intros [Hl|Hs]; [|by apply tc_once]. destruct c as [|a [|b c]]; cbn in Hl; try lia.
    assert (Hab : exists y, y ∈ a :: b :: c /\ n <> y).
    { apply NoDup_cons in Hd as [Ha _]. destruct (decide (n = a)) as [->|]; [exists b; split; [by right; left|]|exists a; split; [by left|done]].
      intros ->. apply Ha. by left. }
    destruct Hab as (y & Hy & Hne). apply Hc in Hy as [? ?]. by eapply tc_via.
  - intros Ht. assert (Hy : exists y, E n y /\ rtc E y n) by (inversion Ht; subst; eauto using rtc_refl, tc_rtc).
    destruct Hy as (y & Hy & Hr). destruct (decide (y = n)) as [->|Hne]; [by right|]. left.
    assert (Hyc : y ∈ c) by (apply Hc; split; [by apply rtc_once|done]).
    destruct c as [|a [|b c]]; [by apply not_elem_of_nil in Hn| |cbn; lia].
    apply list_elem_of_singleton in Hn, Hyc. congruence.
Qed.

Lemma emit_shape s n pos work pre rest st' fd : Shape s ((n, pos) :: work) -> stack s = pre ++ n :: rest ->
  (forall x, x ∈ st' <-> x ∈ rest) -> Shape (mkDfs (index s) (low s) st' rest (next_index s) fd) work.
Proof.
  intros HS Est Hst. destruct (stack_split s _ n pre rest HS Est) as [_ Hrest]. pose proof (fun w => work_head _ _ _ _ w HS) as Hhd.
  destruct (leave_shape _ _ _ _ HS) as [Ilow Ilt Iinj Ion Imet Isort Iwork Ipath].
  split; try done; cbn.
  - intros x Hx. apply Imet. by apply Hrest.
  - rewrite Est in Isort. apply StronglySorted_app_1_r in Isort. by apply StronglySorted_inv in Isort as [? _].
  - intros w Hw. apply Hrest. split; [auto|]. by apply Hhd.
Qed.

(** The stack without the component, whatever is reported. *)
Lemma pop_inv s n pos work pre rest on fd : Inv s ((n, pos) :: work) -> nb n !! pos = None -> lw s n = ix s n ->
  stack s = pre ++ n :: rest -> (forall x, x ∈ on <-> x ∈ rest) ->
  (forall c, c ∈ fd -> (component E c /\ Sorted bytes_le c) /\ forall x, x ∈ c -> met s x /\ x ∉ rest) ->
  (forall x, met s x -> x ∉ rest -> tc E x x -> exists c, c ∈ fd /\ x ∈ c) -> NoDup fd ->
  Inv (mkDfs (index s) (low s) on rest (next_index s) fd) work.
Proof.
  intros HI Hp Hroot Est Hon Hfd Hall Hnd. pose proof (i_shape _ _ HI) as HS. pose proof (fun w => work_head _ _ _ _ w HS) as Hhd.
  destruct (stack_split s _ n pre rest HS Est) as [Hcomp Hrest].
  pose proof (fun x y => closed_above s n pos work x y HI Hp Hroot) as Hclosed.
  destruct HI as [_ Idesc Igray Idead Iseen Ile Ireach Iseg Ifound Iall Ionce].
  split; try done; [by eapply emit_shape|..]; cbn.
  - intros w x Hw Hx. apply Idesc; [by right|]. by apply Hrest.
  - intros x [Hx Hlt]%Hrest. destruct (Igray x Hx) as (w & [->|Hw]%elem_of_cons & Hwi & Hr); cbn in *; [lia|by exists w].
  - intros x y Hx Hnx HE. destruct (decide (x ∈ stack s)) as [Hxs|Hxs].
    + assert (Hle : (ix s n <= ix s x)%nat) by (apply not_lt; intros Hlt; apply Hnx, Hrest; auto).
      destruct (Hclosed x y Hxs Hle HE) as [? Hy]. split; [done|]. intros [Hys Hlt]%Hrest. specialize (Hy Hys). lia.
    + destruct (Idead x y Hx Hxs HE) as [? Hy]. split; [done|]. by intros [? _]%Hrest.
  - intros x y Hx Hsn. destruct (Iseen x y Hx) as [Hy Hl]; [by apply seen_leave|]. split; [done|]. intros [? _]%Hrest. by apply Hl.
  - intros x [Hx Hlt]%Hrest. destruct (Ireach x Hx) as (y & Hy & He & Hr). exists y. split_and!; [|done..]. apply Hrest.
    split; [done|]. specialize (Ile x (i_met _ _ HS x Hx)). lia.
  - intros x [Hx Hlt]%Hrest. destruct (Iseg x Hx) as (w & [->|Hw]%elem_of_cons & H1 & H2 & H3); cbn in *; [lia|].
    exists w. split_and!; [done..|]. intros w' Hw'. apply H3. by right.
Qed.

Lemma emit_inv s n pos work : Inv s ((n, pos) :: work) -> nb n !! pos = None -> lw s n = ix s n -> Inv (emit adj s n) work.
Proof.
  intros HI Hp Hroot. pose proof (i_shape _ _ HI) as HS.
  assert (Hns : n ∈ stack s) by (apply (i_work _ _ HS); by left).
  destruct (list_elem_of_split_l _ _ Hns) as (pre & rest & Est & Hpre).
  destruct (stack_split s _ n pre rest HS Est) as [Hcomp Hrest].
  unfold emit. rewrite Est at 1. rewrite pop_component_spec by done. set (c := pre ++ [n]) in *.
  assert (Hc : forall y, y ∈ c <-> rtc E n y /\ rtc E y n) by (intros y; rewrite Hcomp; by eapply above_component).
  assert (Hnd : NoDup c).
  { apply falling_nodup with (f := ix s). pose proof (i_sorted _ _ HS) as Hs. rewrite Est, cons_middle, app_assoc in Hs. by apply StronglySorted_app_1_l in Hs. }
  assert (Hn : n ∈ c) by (apply elem_of_app; right; by left).
  pose proof (cyclic_test n c Hn Hnd Hc) as Htest. pose proof (i_found _ _ HI) as Hfound.
  assert (Hkept : forall c', c' ∈ found s -> (component E c' /\ Sorted bytes_le c') /\ forall x, x ∈ c' -> met s x /\ x ∉ rest).
  { intros c' Hc'. destruct (Hfound c' Hc') as [? Hd]. split; [done|]. intros x Hx. destruct (Hd x Hx) as [? Hnx]. split; [done|]. by intros [? _]%Hrest. }
  assert (Hon : forall x, x ∈ on_stack s ∖ list_to_set c <-> x ∈ rest).
  { intros x. rewrite elem_of_difference, elem_of_list_to_set, (i_on _ _ HS), Hrest, Hcomp. split; intros [? ?]; split; try done; [|lia].
    apply not_le. naive_solver. }
  assert (Hold : forall x, met s x -> x ∉ rest -> x ∈ c \/ x ∉ stack s).
  { intros x Hx Hnx. destruct (decide (x ∈ stack s)) as [Hxs|]; [left|by right]. apply Hcomp. split; [done|].
    apply not_lt. intros Hlt. apply Hnx, Hrest. done. }
  destruct (_ || _) eqn:Et; (eapply pop_inv; [done..| | |]).
  - assert (Hp' : merge_sort bytes_le c ≡ₚ c) by apply merge_sort_Permutation.
    intros c' [Hc'|Hc']%elem_of_app; [by apply Hkept|]. apply list_elem_of_singleton in Hc' as ->. split.
    + split; [|apply Sorted_merge_sort; apply _]. eapply component_perm; [symmetry; exact Hp'|]. split; [done|]. exists n. split_and!; [done|by apply Htest|done].
    + intros x Hx. rewrite Hp' in Hx. apply Hcomp in Hx as [Hx Hle]. split; [by apply (i_met _ _ HS)|]. intros [_ ?]%Hrest. lia.
  - intros x Hx Hnx Ht. destruct (Hold x Hx Hnx) as [Hxc|Hxs].
    + exists (merge_sort bytes_le c). split; [apply elem_of_app; right; by left|]. by rewrite merge_sort_Permutation.
    + destruct (i_all _ _ HI x Hx Hxs Ht) as (c' & ? & ?). exists c'. split; [apply elem_of_app; by left|done].
  - apply NoDup_app. split_and!; [apply HI| |apply NoDup_singleton]. intros c' Hc' Hs. apply list_elem_of_singleton in Hs as ->.
    destruct (Hfound _ Hc') as [_ Hd]. destruct (Hd n) as [_ ?]; [|done]. by rewrite merge_sort_Permutation.
  - done.
  - intros x Hx Hnx Ht. destruct (Hold x Hx Hnx) as [Hxc|Hxs]; [|by apply (i_all _ _ HI)]. exfalso.
    assert (Htn : tc E n n); [|by apply Htest in Htn]. apply Hc in Hxc as [? ?]. eapply tc_rtc_l; [done|]. by eapply tc_rtc_r.
  - apply HI.
Qed.

(** *** The loop *)

Lemma index_met s x : met s x -> index s !! x = Some (ix s x).
Proof. unfold ix. by intros [i ->]. Qed.

Lemma low_met s work x : Shape s work -> met s x -> low s !! x = Some (lw s x).
Proof. intros HS Hx. unfold lw. by destruct (proj1 (i_low _ _ HS x) Hx) as [l ->]. Qed.

(** What is left to do: the nodes not met yet and the rest of the open ones. *)
Variable ns : list bytes.
Hypothesis targets : forall x y, E x y -> y ∈ ns.

Definition unmet (s : Dfs) (x : bytes) : nat := match index s !! x with Some _ => 0 | None => S (length (nb x)) end.
Definition todo (work : list (bytes * nat)) : nat := sum_list_with (fun xp => S (length (nb xp.1) - xp.2)) work.
Definition left_over (s : Dfs) (work : list (bytes * nat)) : nat := sum_list_with (unmet s) ns + todo work.

Lemma unmet_open s n x : ~ met s n -> (unmet (open_node s n) x + (if decide (x = n) then S (length (nb n)) else 0) = unmet s x)%nat.
Proof.
  intros Hn. unfold unmet. cbn. destruct (decide (x = n)) as [->|Hne]; [rewrite lookup_insert_eq|rewrite lookup_insert_ne by done; lia].
  destruct (index s !! n) eqn:En; [|lia]. destruct Hn. by eexists.
Qed.

Lemma sum_open s n l : ~ met s n -> (sum_list_with (unmet (open_node s n)) l <= sum_list_with (unmet s) l)%nat /\
  (n ∈ l -> (sum_list_with (unmet (open_node s n)) l + S (length (nb n)) <= sum_list_with (unmet s) l)%nat).
Proof.
  intros Hn. induction l as [|x l [IH1 IH2]]; cbn; [split; [lia|by intros ?%not_elem_of_nil]|].
  pose proof (unmet_open s n x Hn) as Hu. split; [lia|].
  intros [->|Hin]%elem_of_cons; [rewrite decide_True in Hu by done|specialize (IH2 Hin)]; lia.
Qed.

Lemma close_turn s n pos work : Inv s ((n, pos) :: work) -> nb n !! pos = None ->
  exists s1 s2, propagate s n work = Some s1 /\ close_node adj s1 n = Some s2 /\ Inv s2 work /\ index s2 = index s.
Proof.
  intros HI Hp. pose proof (i_shape _ _ HI) as HS. assert (Hn : n ∈ stack s) by (apply (i_work _ _ HS); by left).
  assert (H1 : exists s1, propagate s n work = Some s1 /\ Inv s1 ((n, pos) :: work) /\ index s1 = index s /\
    match work with [] => True | (p, _) :: _ => (lw s1 p <= lw s1 n)%nat end).
  { destruct work as [|[p q] work]; cbn; [by exists s|]. assert (Hps : p ∈ stack s) by (apply (i_work _ _ HS); by right; left).
    destruct (work_head _ _ _ _ p HS ltac:(by left)) as [Hlt Hpn].
    rewrite (low_met _ _ p HS (i_met _ _ HS p Hps)), (low_met _ _ n HS (i_met _ _ HS n Hn)).
    eexists. split_and!; [reflexivity| |done|rewrite !lw_low, decide_True, decide_False by (done || intros ->; lia); lia].
    apply set_low_inv; [done|by right; left|lia|]. destruct (Nat.min_dec (lw s p) (lw s n)) as [-> | ->]; [by apply (i_reach _ _ HI)|].
    destruct (i_reach _ _ HI n Hn) as (y & Hy & He & Hr). exists y. split_and!; [done..|]. by etrans. }
  destruct H1 as (s1 & Hpr & HI1 & Hix & Hlow). pose proof (i_shape _ _ HI1) as HS1.
  assert (Hm : met s1 n) by (apply (i_met _ _ HS1), (i_work _ _ HS1); by left).
  exists s1. unfold close_node. rewrite (low_met _ _ n HS1 Hm), (index_met s1 n Hm). eexists. split_and!; [done|reflexivity|..].
  - destruct (Nat.eqb_spec (lw s1 n) (ix s1 n)); [by eapply emit_inv|by eapply keep_inv].
  - rewrite <-Hix. destruct (_ =? _)%nat; [|done]. unfold emit. by destruct (pop_component _ _ _) as [[? ?] ?].
Qed.

Lemma turn_inv s n pos work : Inv s ((n, pos) :: work) ->
  exists s' work', turn adj s n pos work = Some (s', work') /\ Inv s' work' /\
    (left_over s' work' < left_over s ((n, pos) :: work))%nat /\ forall x, met s x -> met s' x.
Proof.
  intros HI. pose proof (i_shape _ _ HI) as HS. unfold turn. destruct (nb n !! pos) as [next|] eqn:Hp.
  - pose proof (lookup_lt_Some _ _ _ Hp) as Hlen. assert (HE : E n next) by (by eapply list_elem_of_lookup_2).
    assert (Hn : n ∈ stack s) by (apply (i_work _ _ HS); by left). destruct (index s !! next) as [i|] eqn:Ei.
    + assert (Hm : met s next) by (by eexists). assert (Hi : i = ix s next) by (unfold ix; by rewrite Ei). subst i.
      case_bool_decide as Hon; rewrite (i_on _ _ HS) in Hon.
      * rewrite (low_met _ _ n HS (i_met _ _ HS n Hn)). do 2 eexists. split_and!; [reflexivity| |unfold left_over, unmet; cbn; lia|done].
        eapply advance_inv; [|exact Hp|done|intros _; rewrite lw_low, decide_True, ix_low by done; lia].
        apply set_low_inv; [done|by left|lia|]. destruct (Nat.min_dec (lw s n) (ix s next)) as [-> | ->]; [by apply (i_reach _ _ HI)|].
        exists next. split_and!; [done..|by apply rtc_once].
      * do 2 eexists. split_and!; [reflexivity| |unfold left_over, unmet; cbn; lia|done]. by eapply advance_inv.
    + assert (Hm : ~ met s next) by (intros [? ?]; congruence). do 2 eexists. split_and!; [reflexivity|..].
      * eapply open_inv; [exact HI|done|done|..].
        -- intros x y _ [?|[-> ->]]%(seen_advance _ _ _ _ _ _ Hp); [by left|]. right. split; [by left|done].
        -- intros w [->|Hw]%elem_of_cons; [by apply rtc_once|]. destruct (work_head _ _ _ _ w HS Hw) as [_ Hr]. by eapply rtc_r.
      * unfold left_over. destruct (sum_open s next ns Hm) as [_ Hsum]. specialize (Hsum (targets _ _ HE)). cbn in *. lia.
      * intros x Hx. apply met_open. by right.
  - destruct (close_turn s n pos work HI Hp) as (s1 & s2 & -> & -> & HI2 & Hix). do 2 eexists. split_and!; [reflexivity|done|..].
    + unfold left_over, unmet, todo. rewrite Hix. cbn. lia.
    + intros x. unfold met. by rewrite Hix.
Qed.

Lemma visit_inv fuel : forall s work, Inv s work -> (left_over s work <= fuel)%nat ->
  exists s', visit adj fuel s work = Some s' /\ Inv s' [] /\ forall x, met s x -> met s' x.
Proof.
  induction fuel as [|fuel IH]; intros s [|[n pos] work] HI Hl; cbn; try (by exists s); [unfold left_over in Hl; cbn in Hl; lia|].
  destruct (turn_inv s n pos work HI) as (s1 & work1 & -> & HI1 & Hlt & Hm).
  destruct (IH s1 work1 HI1 ltac:(lia)) as (s2 & Hv & HI2 & Hm2). exists s2. split_and!; auto.
Qed.

Lemma visit_roots_inv fuel roots : forall s, Inv s [] -> (forall x, x ∈ roots -> x ∈ ns) ->
  (sum_list_with (fun x => S (length (nb x))) ns <= fuel)%nat ->
  exists s', visit_roots adj fuel s roots = Some s' /\ Inv s' [] /\ (forall x, met s x -> met s' x) /\ forall x, x ∈ roots -> met s' x.
Proof.
  induction roots as [|r roots IH]; intros s HI Hns Hf; cbn.
  { exists s. split_and!; try done. by intros x ?%not_elem_of_nil. }
  assert (Hns' : forall x, x ∈ roots -> x ∈ ns) by (intros; apply Hns; by right).
  assert (Hgo : forall s1, Inv s1 [] -> met s1 r -> (forall x, met s x -> met s1 x) -> exists s', visit_roots adj fuel s1 roots = Some s' /\
    Inv s' [] /\ (forall x, met s x -> met s' x) /\ forall x, x ∈ r :: roots -> met s' x).
  { intros s1 HI1 Hr Hm1. destruct (IH s1 HI1 Hns' Hf) as (s' & ? & ? & Hm & Hall). exists s'. split_and!; auto. intros x [->|?]%elem_of_cons; auto. }
  destruct (index s !! r) as [i|] eqn:Er; [apply Hgo; [done|by eexists|done]|].
  assert (Hr : ~ met s r) by (intros [? ?]; congruence).
  assert (HI0 : Inv (open_node s r) [(r, 0)]) by (eapply open_inv; [exact HI|done..| |]; [by left|by intros w ?%not_elem_of_nil]).
  destruct (visit_inv fuel _ _ HI0) as (s1 & -> & HI1 & Hm1).
  { destruct (sum_open s r ns Hr) as [_ Hs]. specialize (Hs ltac:(apply Hns; by left)). unfold left_over. cbn.
    assert (Hu : (sum_list_with (unmet s) ns <= sum_list_with (fun x => S (length (nb x))) ns)%nat); [|lia].
    clear. induction ns as [|x l IHl]; cbn; [lia|]. unfold unmet at 1. destruct (index s !! x); lia. }
  apply Hgo; [done|apply Hm1, met_open; by left|]. intros x Hx. apply Hm1, met_open. by right.
Qed.

End Correct.

(** ** The graph the search works on *)

Lemma adjacency_lookup edges x : neighbours (adjacency edges) x = to <$> filter (fun e => from e = x) edges.
Proof.
  unfold adjacency. induction edges as [|e edges IH] using rev_ind; cbn; [unfold neighbours; by rewrite lookup_empty|].
  rewrite fold_left_app, filter_app, fmap_app, <-IH, filter_cons, filter_nil. unfold neighbours. cbn.
  destruct (decide (from e = x)) as [->|Hne]; [by rewrite lookup_insert_eq|]. rewrite lookup_insert_ne by done. by rewrite app_nil_r.
Qed.

Lemma adjacency_edge edges x y : E (adjacency edges) x y <-> edge edges x y.
Proof.
  unfold E. rewrite adjacency_lookup, list_elem_of_fmap. unfold edge. split.
  - intros (e & -> & [? ?]%list_elem_of_filter). by exists e.
  - intros (e & ? & ? & <-). exists e. split; [done|]. by apply list_elem_of_filter.
Qed.

Lemma neighbours_length edges x : (length (neighbours (adjacency edges) x) <= length edges)%nat.
Proof. rewrite adjacency_lookup, length_fmap. apply length_filter. Qed.

Lemma nodes_spec edges x : x ∈ nodes edges <-> exists e, e ∈ edges /\ (from e = x \/ to e = x).
Proof.
  unfold nodes. rewrite (merge_sort_Permutation bytes_le).
  assert (Hsee : forall acc n, (forall z, z ∈ acc.1 <-> z ∈ acc.2) -> (forall z, z ∈ (see acc n).1 <-> z ∈ (see acc n).2) /\
    forall z, z ∈ (see acc n).2 <-> z ∈ acc.2 \/ z = n).
  { intros [seen l] n Hs. unfold see. cbn in *. case_bool_decide as Hn; cbn.
    - split; [done|]. intros z. split; [auto|]. intros [?| ->]; [done|by apply Hs].
    - split; intros z; rewrite ?elem_of_union, ?elem_of_singleton, elem_of_app, list_elem_of_singleton, ?Hs; tauto. }
  set (f := fun acc e => see (see acc (from e)) (to e)).
  assert (Hf : forall es, let acc := fold_left f es (∅, []) in (forall z, z ∈ acc.1 <-> z ∈ acc.2) /\
    forall z, z ∈ acc.2 <-> exists e, e ∈ es /\ (from e = z \/ to e = z)).
  { clear edges x. intros es. induction es as [|e es IH] using rev_ind; cbn.
    - split; intros z; split; [by intros ?%elem_of_empty|by intros ?%not_elem_of_nil..|]. by intros (e & ?%not_elem_of_nil & _).
    - rewrite fold_left_app. cbn in *. destruct IH as [Hs Hm]. destruct (Hsee _ (from e) Hs) as [Hs1 Hm1].
      destruct (Hsee _ (to e) Hs1) as [Hs2 Hm2]. split; [exact Hs2|]. intros z. unfold f at 1. rewrite Hm2, Hm1, Hm. split.
      + intros [[(e' & He' & Hz)| ->]| ->]; [exists e'|exists e..]; rewrite elem_of_app, list_elem_of_singleton; auto.
      + intros (e' & [He'|He']%elem_of_app & Hz); [left; left; by exists e'|]. apply list_elem_of_singleton in He' as ->. destruct Hz; auto. }
  apply Hf.
Qed.

(** The search runs to its end: every node is met and the stack is empty. *)
Lemma search_result edges : exists s, find_cycles edges = Some (merge_sort vec_le (found s)) /\ Inv (adjacency edges) s [] /\
  (forall x, x ∉ stack s) /\ forall x, x ∈ nodes edges -> met s x.
Proof.
  destruct (visit_roots_inv (adjacency edges) (nodes edges)) with (fuel := length (nodes edges) * S (length edges)) (roots := nodes edges) (s := start)
    as (s & Hv & HI & _ & Hall).
  - intros x y (e & ? & ? & ?)%adjacency_edge. apply nodes_spec. eauto.
  - apply inv_start.
  - done.
  - generalize (nodes edges). intros l. induction l as [|x l IH]; cbn; [lia|]. pose proof (neighbours_length edges x) as Hl. lia.
  - exists s. unfold find_cycles. rewrite Hv. split_and!; try done.
    intros x Hx. by destruct (i_gray _ _ _ HI x Hx) as (w & ?%not_elem_of_nil & _).
Qed.

Lemma edge_rtc edges x y : rtc (E (adjacency edges)) x y <-> rtc (edge edges) x y.
Proof. split; apply rtc_congruence with (f := id); intros; by apply adjacency_edge. Qed.

Lemma edge_tc edges x y : tc (E (adjacency edges)) x y <-> tc (edge edges) x y.
Proof. split; apply tc_congruence with (f := id); intros; by apply adjacency_edge. Qed.

Lemma on_cycle edges : exists cs, find_cycles edges = Some cs /\
  forall x, (exists c, c ∈ cs /\ x ∈ c) <-> tc (edge edges) x x.
Proof.
  destruct (search_result edges) as (s & -> & HI & Hst & Hall). eexists. split; [done|]. intros x. rewrite <-edge_tc. split.
  - intros (c & Hc & Hx). rewrite merge_sort_Permutation in Hc. destruct (i_found _ _ _ HI c Hc) as [[[_ (r & _ & Hrr & Hcr)] _] _].
    destruct (proj1 (Hcr x) Hx). eapply tc_rtc_l; [done|]. by eapply tc_rtc_r.
  - intros Hxx. destruct (i_all _ _ _ HI x) as (c & ? & ?); [|by apply Hst|done|exists c; by rewrite merge_sort_Permutation].
    apply Hall, nodes_spec. assert (Hxy : exists y, E (adjacency edges) x y) by (inversion Hxx; subst; eauto).
    destruct Hxy as (y & (e & ? & ? & _)%adjacency_edge). eauto.
Qed.

(** C23: the diagnostic reports exactly the cycles of the link graph.  For every list
    of edges the search ends without a panic; what it reports are strongly
    connected components, each once, each with all its members and in order; and
    a record is in a reported component exactly if it can reach itself over one
    or more links, so that an acyclic part of the database is never reported. *)
Theorem cycles_exact edges : exists cs, find_cycles edges = Some cs /\ NoDup cs /\ Sorted vec_le cs /\
  (forall c, c ∈ cs -> NoDup c /\ Sorted bytes_le c /\
    exists x, x ∈ c /\ forall y, y ∈ c <-> rtc (edge edges) x y /\ rtc (edge edges) y x) /\
  (forall x, (exists c, c ∈ cs /\ x ∈ c) <-> tc (edge edges) x x).
Proof.
  destruct (on_cycle edges) as (cs & Hcs & Hx). destruct (search_result edges) as (s & Hs & HI & _ & _).
  exists cs. rewrite Hs in Hcs. injection Hcs as <-. split_and!; [done|..|done].
  - rewrite merge_sort_Permutation. apply HI.
  - apply Sorted_merge_sort. apply _.
  - intros c Hc. rewrite merge_sort_Permutation in Hc. destruct (i_found _ _ _ HI c Hc) as [[[Hn (x & Hxc & _ & Hcc)] Hsc] _].
    split_and!; [done..|]. exists x. split; [done|]. intros y. by rewrite <-!edge_rtc.
Qed.

End Cycles.
