(* ===== verification/Graph.v ===== *)
(** * The link graph and its load-time report

    [dependency_graph] of [spvirit-ioc/src/graph.rs]: the edges of a loaded
    record database, the records that can never process, the records with many
    dependants and the cycles ([Cycles]).  The theorems say what the report means
    in terms of the records as they were written, and that a record it calls
    unreachable is indeed left alone by the record engine of [Ioc]. *)

From stdpp Require Import gmap sorting relations.
From S2P Require Import Prelude Utf8 Wire PvdTypes NtTypes F64 Text Ioc IocSafe UnionFind LockSet Cycles.

Module Graph.
Import Ioc LockSet Cycles.

(** ** Definitions *)

Definition FAN_OUT_THRESHOLD : nat := 10.

#[export] Instance record_id_eq_dec : EqDecision RecordId.
Proof. solve_decision. Defined.
#[export] Program Instance record_id_countable : Countable RecordId :=
  inj_countable' (fun id => (rset id, slot id)) (fun p => mkId p.1 p.2) _.
Next Obligation. by intros []. Qed.
#[export] Instance edge_kind_eq_dec : EqDecision EdgeKind.
Proof. solve_decision. Defined.

(** [EdgeKind::from]. *)
Definition edge_kind (f : LinkField) : EdgeKind :=
  match f with LInp => EInp | LOut => EOut | LDol => EDol | LFlnk => EFlnk | LSdis => ESdis end.

Definition kind_code (k : EdgeKind) : nat :=
  match k with EInp => 0 | EOut => 1 | EDol => 2 | EFlnk => 3 | ESdis => 4 end.

Definition edge_le (a b : Edge) : Prop :=
  if decide (from a = from b)
  then if decide (to a = to b) then (kind_code (ekind a) <= kind_code (ekind b))%nat else bytes_le (to a) (to b)
  else bytes_le (from a) (from b).
#[export] Instance edge_le_dec : RelDecision edge_le.
Proof. intros a b. unfold edge_le. repeat destruct (decide _); apply _. Defined.

(** The derived order of pairs. *)
Definition fan_le (a b : bytes * nat) : Prop := if decide (a.1 = b.1) then (a.2 <= b.2)%nat else bytes_le a.1 b.1.
#[export] Instance fan_le_dec : RelDecision fan_le.
Proof. intros a b. unfold fan_le. destruct (decide _); apply _. Defined.

Record DependencyGraph := mkGraph {
  g_edges : list Edge;
  g_lock_sets : list (list bytes);
  unreachable : list bytes;
  cycles : list (list bytes);
  high_fan_out : list (bytes * nat);
  g_unresolved : list bytes }.

(** [names]. *)
Definition db_names (db : RecordDb) : list bytes := merge_sort bytes_le (map_to_list (by_name db)).*1.

Definition id_name (db : RecordDb) : gmap RecordId bytes :=
  fold_left (fun m '(s, set) => fold_left (fun m '(k, r) => <[mkId s k := name r]> m) (enumerate set) m)
    (enumerate (lock_sets db)) ∅.

(** A record that processes on its own: PINI, or any SCAN but [Passive]. *)
Definition runs_itself (r : Rec) : bool :=
  pini (common r) || negb (bool_decide (Text.to_ascii_lowercase (scan_raw (common r)) = str "passive")).

Definition link_edge (ids : gmap RecordId bytes) (r : Rec) (fl : LinkField * Link) : option Edge :=
  match fl.2 with
  | Db (Id id) _ pp _ =>
    let k := edge_kind fl.1 in
    Some (mkEdge (name r) (default [] (ids !! id)) k (bool_decide (k = EFlnk) || pp))
  | _ => None
  end.

Definition record_edges (ids : gmap RecordId bytes) (r : Rec) : list Edge := omap (link_edge ids r) (links r).

Definition fan_out (edges : list Edge) : gmap bytes nat :=
  fold_left (fun m e => <[to e := S (default 0 (m !! to e))]> m) edges ∅.

Definition graph_edges (db : RecordDb) : list Edge :=
  merge_sort edge_le (concat (map (record_edges (id_name db)) (concat (lock_sets db)))).

Definition self_processing (db : RecordDb) : gset bytes :=
  fold_left (fun acc r => if runs_itself r then {[name r]} ∪ acc else acc) (concat (lock_sets db)) ∅.

Definition processed_by_someone (edges : list Edge) : gset bytes :=
  list_to_set (map to (filter (fun e => processes_target e = true) edges)).

Definition dependency_graph (db : RecordDb) : option DependencyGraph :=
  let edges := graph_edges db in
  let never := merge_sort bytes_le (filter (fun n => n ∉ self_processing db /\ n ∉ processed_by_someone edges) (db_names db)) in
  let high := merge_sort fan_le (filter (fun nd => FAN_OUT_THRESHOLD < nd.2)%nat (map_to_list (fan_out edges))) in
  match find_cycles edges with
  | Some cs => Some (mkGraph edges (map (map name) (lock_sets db)) never cs high (unresolved db))
  | None => None
  end.

(** ** The names behind the addresses *)

Lemma fold_set s set : forall o (m : gmap RecordId bytes) id,
  fold_left (fun m '(k, r) => <[mkId s k := name r]> m) (zip (seq o (length set)) set) m !! id =
  if decide (rset id = s /\ (o <= slot id)%nat /\ is_Some (set !! (slot id - o)%nat)) then name <$> set !! (slot id - o)%nat else m !! id.
Proof.
  induction set as [|r set IH]; intros o m id; cbn; [rewrite decide_False; [done|]; by intros (_ & _ & [? ?])|].
  rewrite IH. destruct (decide (id = mkId s o)) as [->|Hne]; cbn.
  - rewrite decide_False by lia. rewrite Nat.sub_diag. rewrite decide_True by (split_and!; [done|lia|by eexists]). by rewrite lookup_insert_eq.
  - rewrite lookup_insert_ne by done. destruct (decide (slot id = o /\ rset id = s)) as [[? ?]|Hd]; [destruct Hne; destruct id; cbn in *; by subst|].
    destruct (decide (S o <= slot id)%nat) as [Hle|Hlt].
    + replace (slot id - o)%nat with (S (slot id - S o)) by lia. cbn. apply decide_ext. split; intros (? & ? & ?); split_and!; try done; lia.
    + rewrite !decide_False; [done| |]; intros (? & ? & ?); [|lia]. destruct (decide (slot id = o)); [naive_solver|lia].
Qed.

Lemma fold_sets sets : forall o (m : gmap RecordId bytes) id, (forall id, (o <= rset id)%nat -> m !! id = None) ->
  fold_left (fun m '(s, set) => fold_left (fun m '(k, r) => <[mkId s k := name r]> m) (enumerate set) m)
    (zip (seq o (length sets)) sets) m !! id =
  if decide (o <= rset id)%nat then name <$> (sets !! (rset id - o)%nat ≫= fun set => set !! slot id) else m !! id.
Proof.
  induction sets as [|set sets IH]; intros o m id Hm; cbn; [destruct (decide _); [by apply Hm|done]|].
  assert (Hin : forall id, fold_left (fun m '(k, r) => <[mkId o k := name r]> m) (enumerate set) m !! id =
    if decide (rset id = o) then name <$> set !! slot id else m !! id).
  { intros id'. unfold enumerate. rewrite fold_set, Nat.sub_0_r. destruct (decide (rset id' = o)) as [Ho|Ho]; [|by rewrite decide_False by naive_solver].
    destruct (set !! slot id') eqn:Es; [rewrite decide_True by (split_and!; [done|lia|by eexists]); done|].
    rewrite decide_False by (intros (_ & _ & [? ?]); congruence). apply Hm. lia. }
  rewrite IH by (intros id' Hid; rewrite Hin, decide_False by lia; apply Hm; lia). rewrite Hin.
  destruct (decide (rset id = o)) as [->|Hne]; [rewrite decide_False by lia; rewrite decide_True by lia; by rewrite Nat.sub_diag|].
  destruct (decide (o <= rset id)%nat) as [Hle|Hlt]; [|by rewrite decide_False by lia].
  rewrite decide_True by lia. by replace (rset id - o)%nat with (S (rset id - S o)) by lia.
Qed.

Lemma id_name_spec db id : id_name db !! id = name <$> at_id db id.
Proof. unfold id_name, enumerate. rewrite fold_sets by (intros; apply lookup_empty). rewrite decide_True by lia. by rewrite Nat.sub_0_r. Qed.


(** ** The graph in terms of the records as written *)

(** Some record is called [n]. *)
Definition exists_record (records : list Rec) (n : bytes) : Prop := exists r, r ∈ records /\ name r = n.

#[export] Instance exists_record_dec records n : Decision (exists_record records n).
Proof.
  destruct (decide (n ∈ map name records)) as [H|H]; [left|right].
  - apply list_elem_of_fmap in H as (r & -> & ?). by exists r.
  - intros (r & ? & <-). apply H. apply list_elem_of_fmap. by exists r.
Defined.

(** The edge a link stands for, if the record it names exists. *)
Definition named_edge (records : list Rec) (r : Rec) (fl : LinkField * Link) : option Edge :=
  match fl.2 with
  | Db (Name n) _ pp _ =>
    if decide (exists_record records n) then Some (mkEdge (name r) n (edge_kind fl.1) (bool_decide (edge_kind fl.1 = EFlnk) || pp)) else None
  | _ => None
  end.

Definition named_edges (records : list Rec) : list Edge := concat (map (fun r => omap (named_edge records r) (links r)) records).

Lemma named_exists records n : exists_record records n <-> exists j, named records n j.
Proof.
  split; [|intros (j & r & Hr & Hn & _); exists r; split; [by eapply list_elem_of_lookup_2|done]].
  induction records as [|r records IH] using rev_ind; [by intros (? & ?%not_elem_of_nil & _)|]. intros Hex.
  destruct (decide (name r = n)) as [Hn|Hn].
  - exists (length records), r. split_and!; [by rewrite lookup_app_r, Nat.sub_diag|done|].
    intros k r' Hk Hr'. apply lookup_lt_Some in Hr'. rewrite length_app in Hr'. cbn in Hr'. lia.
  - destruct IH as (j & r0 & Hr0 & Hn0 & Hlast).
    { destruct Hex as (r' & [?|Hr']%elem_of_app & ?); [by exists r'|]. apply list_elem_of_singleton in Hr' as ->. done. }
    exists j, r0. split_and!; [by apply lookup_app_l_Some|done|]. intros k r' Hk Hr'.
    apply lookup_app_Some in Hr' as [?|[_ Hr']]; [by eapply Hlast|]. destruct (k - length records)%nat; cbn in Hr'; [congruence|done].
Qed.

Section Built.
Context (into_values : gmap nat (list nat) -> list (list nat)) (records : list Rec) (gs : list (list nat)) (db : RecordDb).
Hypothesis sources : Forall source_ok records.
Hypothesis comps : components records gs.
Hypothesis order_eq : order db = assign_ids (length records) gs.
Hypothesis names_eq : by_name db = name_ids (order db) records.
Hypothesis members_moved : Forall2 (Forall2 (moved (by_name db) (Some <$> records))) gs (lock_sets db).

Abbreviation resolve := (fun r => (resolve_links (by_name db) r).1).

Lemma by_name_spec n id : by_name db !! n = Some id <-> exists j, order db !! j = Some id /\ named records n j.
Proof. rewrite names_eq, order_eq. apply (name_ids_spec records gs comps). Qed.

Lemma by_name_exists n : is_Some (by_name db !! n) <-> exists_record records n.
Proof.
  rewrite named_exists. split.
  - intros [id (j & _ & ?)%by_name_spec]. by exists j.
  - intros (j & Hj). destruct Hj as (r & Hr & Hn & Hlast) eqn:Ej. destruct (built_at records gs db j r comps order_eq members_moved Hr) as (id & Hid & _).
    exists id. apply by_name_spec. exists j. split; [done|]. by exists r.
Qed.

(** The address of a name leads to a record of that name. *)
Lemma by_name_at n id : by_name db !! n = Some id -> exists r, r ∈ records /\ name r = n /\ at_id db id = Some (resolve r).
Proof.
  intros (j & Hj & r & Hr & Hn & _)%by_name_spec. destruct (built_at records gs db j r comps order_eq members_moved Hr) as (id' & Hid & Hat).
  exists r. split_and!; [by eapply list_elem_of_lookup_2|done|congruence].
Qed.

Lemma members_perm : concat (lock_sets db) ≡ₚ map resolve records.
Proof.
  set (h := fun o => match records !! o with Some r => [resolve r] | None => [] end).
  assert (H1 : forall gs sets, Forall2 (Forall2 (moved (by_name db) (Some <$> records))) gs sets -> concat sets = flat_map h (mjoin gs)).
  { clear. induction 1 as [|g set gs sets Hm _ IH]; [done|]. cbn [concat].
    change (mjoin (g :: gs)) with (g ++ mjoin gs). rewrite flat_map_app, <-IH. f_equal.
    induction Hm as [|o m g set (r & Hr & ->) _ IHs]; cbn; [done|]. rewrite <-IHs. unfold h at 1.
    rewrite list_lookup_fmap in Hr. destruct (records !! o); cbn in Hr; [|done]. by injection Hr as ->. }
  rewrite (H1 _ _ members_moved). etrans; [exact (Permutation_flat_map h (c_cover _ _ comps))|].
  assert (H2 : forall l0 l, flat_map (fun o => match (l0 ++ l) !! o with Some r => [resolve r] | None => [] end) (seq (length l0) (length l)) = map resolve l).
  { clear. intros l0 l. revert l0. induction l as [|r l IH]; intros l0; cbn; [done|]. rewrite lookup_app_r, Nat.sub_diag by done. cbn. f_equal.
    specialize (IH (l0 ++ [r])). rewrite length_app, Nat.add_comm, <-app_assoc in IH. exact IH. }
  pose proof (H2 [] records) as H3. cbn in H3. unfold h. by rewrite H3.
Qed.

Lemma resolve_name r : name (resolve r) = name r.
Proof. unfold resolve_links. repeat destruct (fix_link _ _). done. Qed.

Lemma resolve_common r : runs_itself (resolve r) = runs_itself r.
Proof. unfold resolve_links. repeat destruct (fix_link _ _). done. Qed.

Lemma fix_edge r f l : plain l -> link_edge (id_name db) (resolve r) (f, (fix_link (by_name db) l).1) = named_edge records r (f, l).
Proof.
  unfold link_edge, named_edge. cbn [fst snd]. destruct l as [v|[n|id] fd pp ms|n]; cbn; try done. intros _.
  destruct (by_name db !! n) as [id|] eqn:En; cbn.
  - rewrite decide_True by (apply by_name_exists; by eexists). rewrite id_name_spec.
    destruct (by_name_at n id En) as (r' & _ & Hn & ->). cbn. rewrite !resolve_name. by rewrite Hn.
  - rewrite decide_False; [done|]. intros [? ?]%by_name_exists. congruence.
Qed.

Lemma resolve_edges r : r ∈ records -> record_edges (id_name db) (resolve r) = omap (named_edge records r) (links r).
Proof.
  intros Hr. assert (Hp : Forall plain (IocSafe.links_of r)) by (rewrite Forall_forall in sources; by apply sources).
  unfold record_edges. assert (Hl : links (resolve r) = map (fun fl => (fl.1, (fix_link (by_name db) fl.2).1)) (links r)).
  { unfold links, resolve_links. cbn. repeat destruct (fix_link _ _). done. }
  rewrite Hl. assert (Hpl : Forall (fun fl => plain fl.2) (links r)) by (unfold IocSafe.links_of in Hp; by decompose_Forall_hyps; repeat constructor).
  clear Hl Hp. unfold omap. induction Hpl as [|[f l] ls Hl _ IH]; [done|]. cbn [map list_omap fst snd]. rewrite fix_edge by done. by rewrite IH.
Qed.

Lemma graph_edges_perm : graph_edges db ≡ₚ named_edges records.
Proof.
  unfold graph_edges, named_edges. rewrite merge_sort_Permutation, <-!flat_map_concat_map.
  etrans; [exact (Permutation_flat_map _ members_perm)|]. rewrite !flat_map_concat_map, map_map. erewrite map_ext_in; [reflexivity|].
  intros r Hr. apply resolve_edges. by apply list_elem_of_In.
Qed.

Lemma self_processing_spec n : n ∈ self_processing db <-> exists r, r ∈ records /\ name r = n /\ runs_itself r = true.
Proof.
  unfold self_processing. assert (H : forall l (acc : gset bytes), n ∈ fold_left (fun acc r => if runs_itself r then {[name r]} ∪ acc else acc) l acc <->
    n ∈ acc \/ exists r, r ∈ l /\ name r = n /\ runs_itself r = true).
  { clear. induction l as [|r l IH]; intros acc; cbn; [split; [auto|]; by intros [?|(? & ?%not_elem_of_nil & _)]|]. rewrite IH.
    destruct (runs_itself r) eqn:Er; setoid_rewrite elem_of_cons; [rewrite elem_of_union, elem_of_singleton|]; naive_solver congruence. }
  rewrite H. split.
  - intros [?%elem_of_empty|(m & Hm & Hn & Hr)]; [done|]. rewrite members_perm in Hm. apply list_elem_of_fmap in Hm as (r & -> & ?).
    rewrite resolve_name in Hn. rewrite resolve_common in Hr. by exists r.
  - intros (r & Hr & Hn & Hs). right. exists (resolve r). rewrite members_perm, resolve_name, resolve_common. split_and!; [|done..].
    apply list_elem_of_fmap. by exists r.
Qed.

Lemma db_names_spec n : n ∈ db_names db <-> exists_record records n.
Proof.
  unfold db_names. rewrite merge_sort_Permutation, <-by_name_exists, list_elem_of_fmap. split.
  - intros ([n' id] & -> & ?%elem_of_map_to_list). by eexists.
  - intros [id ?]. exists (n, id). split; [done|]. by apply elem_of_map_to_list.
Qed.

End Built.


(** ** Counting dependants *)

Lemma fan_out_lookup edges n : fan_out edges !! n =
  match length (filter (fun e => to e = n) edges) with O => None | S d => Some (S d) end.
Proof.
  unfold fan_out. induction edges as [|e edges IH] using rev_ind; [apply lookup_empty|].
  rewrite fold_left_app, filter_app, length_app, filter_cons, filter_nil. cbn. destruct (decide (to e = n)) as [->|Hne].
  - rewrite lookup_insert_eq, IH. cbn. rewrite Nat.add_1_r. by destruct (length _).
  - rewrite lookup_insert_ne by done. cbn. by rewrite Nat.add_0_r.
Qed.


(** ** What the report says *)

Definition links_to (n : bytes) (fl : LinkField * Link) : Prop :=
  match fl.2 with Db (Name m) _ _ _ => m = n | _ => False end.
#[export] Instance links_to_dec n fl : Decision (links_to n fl).
Proof. unfold links_to. destruct fl.2 as [|[] ? ? ?|]; apply _. Defined.

(** The link makes its target process: a forward link, or one with PP. *)
Definition drives (fl : LinkField * Link) : Prop :=
  fl.1 = LFlnk \/ match fl.2 with Db _ _ pp _ => pp = true | _ => False end.

(** How many link fields name [n]. *)
Definition dependants (records : list Rec) (n : bytes) : nat := length (filter (links_to n) (concat (map links records))).

Definition points_to (records : list Rec) (x y : bytes) : Prop :=
  exists_record records y /\ exists r fl, r ∈ records /\ name r = x /\ fl ∈ links r /\ links_to y fl.

Lemma named_edge_some records r fl e : named_edge records r fl = Some e ->
  exists_record records (to e) /\ links_to (to e) fl /\ from e = name r /\ (processes_target e = true <-> drives fl).
Proof.
  unfold named_edge, links_to, drives. destruct fl as [f [v|[n|id] fd pp ms|n]]; cbn; try done.
  destruct (decide _); [|done]. intros [= <-]. cbn. split_and!; try done. destruct f, pp; cbn; naive_solver.
Qed.

Lemma named_edge_none records r fl n : links_to n fl -> exists_record records n -> is_Some (named_edge records r fl).
Proof. unfold named_edge, links_to. destruct fl as [f [v|[m|id] fd pp ms|m]]; cbn; try done. intros -> Hex. rewrite decide_True by done. by eexists. Qed.

Lemma links_to_inj n m fl : links_to n fl -> links_to m fl -> n = m.
Proof. unfold links_to. destruct fl as [f [v|[k|id] fd pp ms|k]]; cbn; congruence || done. Qed.

Lemma elem_of_named_edges records e : e ∈ named_edges records <-> exists r fl, r ∈ records /\ fl ∈ links r /\ named_edge records r fl = Some e.
Proof.
  unfold named_edges. rewrite list_elem_of_In, in_concat. setoid_rewrite in_map_iff. setoid_rewrite <-list_elem_of_In. split.
  - intros (l & (r & <- & Hr) & (fl & ? & ?)%list_elem_of_omap). eauto.
  - intros (r & fl & Hr & Hfl & He). exists (omap (named_edge records r) (links r)). split; [by exists r|]. apply list_elem_of_omap. by exists fl.
Qed.

(** The edges out of the links that name [n]. *)
Lemma named_edges_to records n (P : Edge -> Prop) : (exists e, e ∈ named_edges records /\ to e = n /\ P e) <->
  exists_record records n /\ exists r fl e, r ∈ records /\ fl ∈ links r /\ links_to n fl /\ named_edge records r fl = Some e /\ P e.
Proof.
  split.
  - intros (e & (r & fl & Hr & Hfl & He)%elem_of_named_edges & <- & HP). destruct (named_edge_some _ _ _ _ He) as (Hex & Hl & _ & _).
    split; [done|]. by exists r, fl, e.
  - intros (Hex & r & fl & e & Hr & Hfl & Hl & He & HP). exists e. split_and!; [apply elem_of_named_edges; eauto| |done].
    destruct (named_edge_some _ _ _ _ He) as (_ & Hl' & _). by eapply links_to_inj.
Qed.

Lemma named_edges_step records x y : edge (named_edges records) x y <-> points_to records x y.
Proof.
  unfold edge, points_to. transitivity (exists e, e ∈ named_edges records /\ to e = y /\ from e = x); [naive_solver|].
  rewrite named_edges_to. split; intros (Hex & H); (split; [done|]).
  - destruct H as (r & fl & e & ? & ? & ? & He & <-). destruct (named_edge_some _ _ _ _ He) as (_ & _ & -> & _). by exists r, fl.
  - destruct H as (r & fl & Hr & <- & Hfl & Hl). destruct (named_edge_none records r fl y Hl Hex) as [e He].
    exists r, fl, e. split_and!; try done. by destruct (named_edge_some _ _ _ _ He) as (_ & _ & ? & _).
Qed.

Lemma named_edges_count records n : exists_record records n ->
  length (filter (fun e => to e = n) (named_edges records)) = dependants records n.
Proof.
  intros Hex. unfold named_edges, dependants.
  assert (Hone : forall r fls, length (filter (fun e => to e = n) (omap (named_edge records r) fls)) = length (filter (links_to n) fls)).
  { intros r fls. induction fls as [|fl fls IH]; [done|]. rewrite (filter_cons (links_to n)).
    change (omap (named_edge records r) (fl :: fls)) with
      (match named_edge records r fl with Some e => e :: omap (named_edge records r) fls | None => omap (named_edge records r) fls end).
    destruct (named_edge records r fl) as [e|] eqn:Ee.
    - destruct (named_edge_some _ _ _ _ Ee) as (_ & Hl & _). rewrite filter_cons. destruct (decide (to e = n)) as [<-|Hne].
      + rewrite decide_True by done. cbn. by rewrite IH.
      + rewrite decide_False; [done|]. intros ?. apply Hne. by eapply links_to_inj.
    - rewrite decide_False; [done|]. intros Hl. destruct (named_edge_none records r fl n Hl Hex). congruence. }
  generalize records at 2 3. intros rs. induction rs as [|r rs IH]; [done|]. cbn [map concat]. by rewrite !filter_app, !length_app, IH, Hone.
Qed.


Lemma processed_spec edges records n : edges ≡ₚ named_edges records ->
  n ∈ processed_by_someone edges <-> exists_record records n /\ exists r fl, r ∈ records /\ fl ∈ links r /\ links_to n fl /\ drives fl.
Proof.
  intros Hp. unfold processed_by_someone. rewrite elem_of_list_to_set, list_elem_of_fmap.
  transitivity (exists e, e ∈ named_edges records /\ to e = n /\ processes_target e = true).
  { split; [intros (e & -> & [? ?]%list_elem_of_filter)|intros (e & ? & <- & ?)]; exists e.
    - by rewrite <-Hp.
    - split; [done|]. apply list_elem_of_filter. by rewrite Hp. }
  rewrite named_edges_to. split; intros (Hex & H); (split; [done|]).
  - destruct H as (r & fl & e & Hr & Hfl & Hl & He & Ht). exists r, fl. split_and!; try done. by apply (named_edge_some _ _ _ _ He).
  - destruct H as (r & fl & Hr & Hfl & Hl & Hd). destruct (named_edge_none records r fl n Hl Hex) as [e He].
    exists r, fl, e. split_and!; try done. by apply (named_edge_some _ _ _ _ He).
Qed.

Lemma fan_out_spec edges records n d : edges ≡ₚ named_edges records -> (0 < d)%nat ->
  fan_out edges !! n = Some d <-> exists_record records n /\ d = dependants records n.
Proof.
  intros Hp Hd. rewrite fan_out_lookup. set (f := filter (fun e => to e = n)).
  assert (Hl : length (f edges) = length (f (named_edges records))) by (apply Permutation_length; unfold f; by rewrite Hp).
  rewrite Hl. destruct (decide (exists_record records n)) as [Hex|Hex].
  - unfold f. rewrite (named_edges_count _ _ Hex). destruct (dependants records n); naive_solver lia.
  - split; [|naive_solver]. destruct (f (named_edges records)) as [|e l] eqn:Ef; [done|]. intros _. exfalso. apply Hex.
    assert (He : e ∈ f (named_edges records)) by (rewrite Ef; by left). apply list_elem_of_filter in He as [<- (r & fl & _ & _ & He)%elem_of_named_edges].
    by destruct (named_edge_some _ _ _ _ He).
Qed.

(** C25: the load-time report, in terms of the records as they were written.
    For records with links by name, as the loader makes them, loading succeeds and
    the report is produced; it calls exactly those records
    unreachable that are passive, have no PINI and are the target of no forward
    link and no PP link; it lists exactly the names that more than ten link fields
    name, with the number of those fields, several fields of one record and the
    fields of the record itself counted each (the text of the report speaks of that
    many other records); and a record is reported on a cycle exactly if its links
    lead back to it. *)
Theorem link_report_exact into_values records :
  (forall m, into_values m ≡ₚ (map_to_list m).*2) -> Forall source_ok records ->
  exists db g, build into_values records = Ok db /\ dependency_graph db = Some g /\
    (forall n, n ∈ unreachable g <-> exists_record records n /\ (forall r, r ∈ records -> name r = n -> runs_itself r = false) /\
       (forall r fl, r ∈ records -> fl ∈ links r -> links_to n fl -> ~ drives fl)) /\
    (forall n d, (n, d) ∈ high_fan_out g <-> exists_record records n /\ d = dependants records n /\ (FAN_OUT_THRESHOLD < d)%nat) /\
    (forall x, (exists c, c ∈ cycles g /\ x ∈ c) <-> tc (points_to records) x x).
Proof.
  intros Hv Hs. destruct (build_spec into_values Hv records Hs) as (gs & db & Hc & Hb & _ & Ho & Hn & Hm).
  pose proof (graph_edges_perm records gs db Hs Hc Ho Hn Hm) as Hp.
  destruct (on_cycle (graph_edges db)) as (cs & Hcs & Hcyc).
  exists db. unfold dependency_graph. rewrite Hcs. eexists. split_and!; [done|reflexivity|..]; cbn [unreachable high_fan_out cycles].
  - intros n. rewrite merge_sort_Permutation, list_elem_of_filter, (db_names_spec records gs db Hc Ho Hn Hm), (self_processing_spec records gs db Hc Hm).
    rewrite (processed_spec _ _ n Hp). split.
    + intros ([Hns Hnp] & Hex). split_and!; [done|..].
      * intros r Hr <-. apply not_true_is_false. intros Ht. apply Hns. eauto.
      * intros r fl Hr Hfl Hl Hd. apply Hnp. eauto 10.
    + intros (Hex & Hns & Hnp). split_and!; [..|done].
      * intros (r & Hr & Hrn & Ht). rewrite (Hns r Hr Hrn) in Ht. done.
      * intros (_ & r & fl & Hr & Hfl & Hl & Hd). by eapply Hnp.
  - intros n d. rewrite merge_sort_Permutation, list_elem_of_filter, elem_of_map_to_list. cbn [snd]. split.
    + intros [Hlt Hf]. apply (fan_out_spec _ _ _ _ Hp) in Hf as [? ?]; [done|lia].
    + intros (Hex & He & Hlt). split; [done|]. apply (fan_out_spec _ _ _ _ Hp); [lia|done].
  - intros x. rewrite Hcyc. split; apply tc_congruence with (f := id); cbn; intros a b.
    + intros (e & He & Hf & Ht). apply named_edges_step. exists e. by rewrite <-Hp.
    + intros (e & He & Hf & Ht)%named_edges_step. exists e. by rewrite Hp.
Qed.

(** ** Sample *)

Lemma link_report_exact_witness : exists db g, build values_of sample_records = Ok db /\ dependency_graph db = Some g /\
  unreachable g = [str "C"; str "D"] /\ cycles g = [[str "A"; str "B"]] /\
  tc (points_to sample_records) (str "A") (str "A").
Proof.
  destruct (link_report_exact values_of sample_records) as (db & g & Hb & Hg & _ & _ & Hc).
  - intros m. reflexivity.
  - repeat constructor; cbn; try done; try lia; unfold IocSafe.in_i32, F64.i32_min, F64.i32_max; lia.
  - exists db, g. split; [exact Hb|]. split; [exact Hg|]. vm_compute in Hb. injection Hb as <-. vm_compute in Hg. injection Hg as <-.
    split; [reflexivity|]. split; [reflexivity|]. apply Hc. exists [str "A"; str "B"]. split; by left.
Defined.

End Graph.
