(* ===== verification/GraphProc.v ===== *)
(** * Records the report calls unreachable are left alone

    The frame property of the record engine of [Ioc] that gives the report of
    [Graph] its meaning: a pass over any other record of the lock set leaves the
    time stamp, the alarms and PACT of a record that is the target of no
    processing link as they were. *)

From stdpp Require Import gmap sorting relations.
From S2P Require Import Prelude Utf8 Wire PvdTypes NtTypes F64 Text Ioc IocSafe UnionFind LockSet Cycles Graph.

Module GraphProc.
Import Ioc IocSafe LockSet Cycles Graph.

(** What processing a record changes and writing to it does not. *)
Definition foot (r : Rec) : bool * (Severity * Condition) * (Severity * Condition) * Z :=
  (pact (common r), (sevr (common r), stat (common r)), (nsev (common r), nsta (common r)), time_ns r).

(** The field of a link that names the record at slot [u] does not process it. *)
Definition gentle (u : nat) (fl : LinkField * Link) : Prop :=
  match fl.2 with
  | Db (Id t) fd pp _ => slot t = u -> fl.1 <> LFlnk /\ pp = false /\ (fl.1 = LOut -> fd <> FProc)
  | _ => True
  end.

Definition gentle_skeleton (u : nat) (k : bytes * Kind * list Link) : Prop :=
  Forall (gentle u) (zip [LInp; LOut; LDol; LFlnk; LSdis] k.2).

Section Frame.
Context {D : Type} (clock : nat -> Z) (registry : RecordId -> option (Support D)).
Context (K : list (bytes * Kind * list Link)) (u : nat).
Hypothesis all_gentle : Forall (gentle_skeleton u) K.

Abbreviation M := (@M D).
Abbreviation St := (@St D).

Definition same (s s' : St) : Prop :=
  skeleton <$> members s' = K /\ foot <$> members s' !! u = foot <$> members s !! u.

Definition frames {A} (m : M A) : Prop := forall s, skeleton <$> members s = K -> same s (m s).2.

Lemma same_trans s1 s2 s3 : same s1 s2 -> same s2 s3 -> same s1 s3.
Proof. intros [_ H1] [H2 H3]. split; [done|congruence]. Qed.

Lemma frames_seq {A B} (m : M A) (k : A -> M B) : frames m -> (forall a, frames (k a)) -> frames (m ≫= k).
Proof.
  intros Hm Hk s Hs. specialize (Hm s Hs). unfold mbind, bind_M. destruct (m s) as [[a| | |] s1]; cbn in *; try done.
  eapply same_trans; [exact Hm|]. apply Hk, Hm.
Qed.

Lemma frames_get {B} id (k : Rec -> M B) : (forall r, K !! slot id = Some (skeleton r) -> frames (k r)) -> frames (get id ≫= k).
Proof.
  intros Hk s Hs. unfold mbind, bind_M, get. destruct (members s !! slot id) as [r|] eqn:Er; cbn; [|done].
  apply Hk; [|done]. by rewrite <-Hs, list_lookup_fmap, Er.
Qed.

Lemma frames_ret {A} (a : A) : frames (mret a).
Proof. intros s Hs. done. Qed.

Lemma frames_ctx f : frames (on_ctx f).
Proof. intros s Hs. done. Qed.

Lemma frames_modify id f : (forall r, skeleton (f r) = skeleton r) -> (slot id = u -> forall r, foot (f r) = foot r) -> frames (modify id f).
Proof.
  intros Hf Hu s Hs. unfold modify. destruct (members s !! slot id) as [r|] eqn:Er; cbn; [|done]. split; cbn.
  - rewrite list_fmap_insert, Hf, Hs. apply list_insert_id. by rewrite <-Hs, list_lookup_fmap, Er.
  - destruct (decide (slot id = u)) as [<-|Hne]; [|by rewrite list_lookup_insert_ne].
    rewrite list_lookup_insert_eq by (by eapply lookup_lt_Some). rewrite Er. cbn. by rewrite Hu.
Qed.

(** Updates that leave what processing marks alone. *)
Ltac frame := first [apply frames_ret | apply frames_ctx | apply frames_modify; [done|try done]].

Lemma frames_trace_if (b : bool) l : frames (if b then trace_line l else mret tt).
Proof. destruct b; frame. Qed.

Lemma frames_post_monitors id b : frames (post_monitors id b).
Proof. apply frames_get. intros r _. destruct (_ && _); [frame|]. apply frames_seq; [by frame|]. intros _. frame. Qed.

Lemma frames_reset id : slot id <> u -> frames (reset_alarms id).
Proof. intros Hid. apply frames_get. intros r _. apply frames_seq; [by frame|]. intros _. frame. Qed.

Lemma quiet_skeleton f : quiet f -> forall r, skeleton (f r) = skeleton r.
Proof. intros H r. by destruct (H r). Qed.

Lemma frames_quiet id f : slot id <> u -> quiet f -> frames (modify id f).
Proof. intros Hid Hf. apply frames_modify; [by apply quiet_skeleton|done]. Qed.

Section Body.
Context (proc : RecordId -> M unit).
Hypothesis proc_frames : forall id, slot id <> u -> frames (proc id).

Lemma gentle_link id r f l : K !! slot id = Some (skeleton r) -> (f, l) ∈ links r -> gentle u (f, l).
Proof.
  intros Hk Hl. pose proof (Forall_lookup_1 _ _ _ _ all_gentle Hk) as H. unfold gentle_skeleton, skeleton in H. cbn in H.
  rewrite Forall_forall in H. by apply H.
Qed.

Lemma frames_proc_if (b : bool) id : (slot id = u -> b = false) -> frames (if b then proc id else mret tt).
Proof. intros H. destruct b; [|frame]. apply proc_frames. intros E. by specialize (H E). Qed.

Lemma frames_fetch f l k : gentle u (f, l) -> frames (fetch_link_value proc l k).
Proof.
  intros Hg. destruct l as [v|[n|t] fd pp ms|n]; cbn; [frame|by intros s Hs| |frame].
  apply frames_seq; [apply frames_proc_if; intros E; by destruct (Hg E) as (_ & ? & _)|]. intros _.
  apply frames_seq; [apply frames_get; intros; frame|]. intros v. apply frames_get. intros r _. frame.
Qed.

Lemma frames_write id fd v : (slot id = u -> fd <> FProc) -> frames (write_field proc id fd v).
Proof.
  intros H. destruct fd; cbn; try frame.
  - apply frames_get. intros r _. apply frames_seq; [by frame|]. intros _. apply frames_post_monitors.
  - apply proc_frames. intros E. by specialize (H E).
Qed.

Lemma frames_forward id : frames (forward_link proc id).
Proof.
  apply frames_get. intros r Hr. pose proof (gentle_link id r LFlnk (flnk (common r)) Hr ltac:(unfold links; set_solver)) as Hg.
  destruct (flnk (common r)) as [v|[n|t] fd pp ms|n]; [frame|by intros s Hs| |frame].
  apply proc_frames. intros E. by destruct (Hg E).
Qed.

Lemma frames_input id : slot id <> u -> frames (input_body proc id).
Proof.
  intros Hid. apply frames_get. intros r Hr. destruct (is_constant _); [by frame|].
  apply frames_seq; [apply (frames_fetch LInp), (gentle_link id r); [done|unfold links; set_solver]|]. intros p.
  apply frames_modify; [|done]. intros r'. rewrite (quiet_skeleton _ (link_sevr_quiet _)). done.
Qed.

Lemma frames_output id : slot id <> u -> frames (output_body proc id).
Proof.
  intros Hid. apply frames_get. intros r Hr. apply frames_seq.
  { destruct (omsl r); [frame|]. destruct (is_constant _); [frame|].
    apply frames_seq; [apply (frames_fetch LDol), (gentle_link id r); [done|unfold links; set_solver]|]. intros p.
    apply frames_modify; [|done]. intros r'. rewrite (quiet_skeleton _ (link_sevr_quiet _)). done. }
  intros _. apply frames_seq; [by frame|]. intros _. apply frames_get. intros r' Hr'.
  pose proof (gentle_link id r' LOut (out r') Hr' ltac:(unfold links; set_solver)) as Hg.
  destruct (out r') as [v|[n|t] fd pp ms|n]; [frame|by intros s Hs| |frame].
  apply frames_seq; [apply frames_write; intros E; by apply (Hg E)|]. intros _. apply frames_proc_if. intros E. by apply (Hg E).
Qed.

Lemma frames_hook id b : slot id <> u -> frames (async_hook registry id b).
Proof.
  intros Hid s Hs. unfold async_hook. destruct (registry id) as [start|]; [|done].
  destruct (members s !! slot id) as [r|] eqn:Er; [|done]. destruct (start _ _ _) as [[[]|] c]; try done.
  pose proof (frames_modify id (upd_common (set_pact false)) ltac:(done) ltac:(done) s Hs) as H. unfold modify in H. rewrite Er in H. exact H.
Qed.

(** Clearing PACT behind a step that frames. *)
Lemma frames_clear_after id m : slot id <> u -> frames m -> frames (clear_after id m).
Proof.
  intros Hid Hm s Hs. specialize (Hm s Hs). unfold clear_after. destruct (m s) as [res s1]. cbn in Hm.
  assert (Hc : same s (modify id (upd_common (set_pact false)) s1).2)
    by (eapply same_trans; [exact Hm|]; apply frames_modify; [done|done|apply Hm]).
  destruct res; try done; destruct (modify _ _ s1) as [[] ?]; done.
Qed.

Lemma frames_or_give_up id m k : slot id <> u -> frames m -> frames k -> frames (or_give_up id m k).
Proof.
  intros Hid Hm Hk s Hs. specialize (Hm s Hs). unfold or_give_up. destruct (m s) as [res s1]. cbn in Hm.
  assert (Hc : same s (modify id (upd_common (set_pact false)) s1).2)
    by (eapply same_trans; [exact Hm|]; apply frames_modify; [done|done|apply Hm]).
  destruct res; try done; [eapply same_trans; [exact Hm|]; apply Hk, Hm|]. destruct (modify _ _ s1) as [[] ?]; done.
Qed.

Lemma frames_then_trace id tp m : frames m -> frames (then_trace id tp m).
Proof.
  intros Hm s Hs. specialize (Hm s Hs). unfold then_trace. destruct (m s) as [res s1]. cbn in Hm.
  destruct res, tp; try done; destruct (members s1 !! slot id); done.
Qed.

Lemma frames_then_pop {A} (m : M A) : frames m -> frames (then_pop m).
Proof.
  intros Hm s Hs. specialize (Hm s Hs). unfold then_pop, pop_depth. destruct (m s) as [res s1]. cbn in Hm.
  destruct res; try done; destruct (0 <? depth (ctx s1))%Z; done.
Qed.

Lemma frames_finish id k : slot id <> u -> frames (finish_pass clock proc id k).
Proof.
  intros Hid. apply frames_seq; [by intros s Hs|]. intros t. apply frames_seq; [by frame|]. intros _. apply frames_seq.
  { destruct (is_analogue k); apply frames_quiet; auto using limits_quiet, udf_quiet. }
  intros _. apply frames_seq; [by apply frames_reset|]. intros ch. apply frames_seq; [apply frames_post_monitors|]. intros _.
  apply frames_clear_after; [done|]. apply frames_forward.
Qed.

Lemma frames_record id : slot id <> u -> frames (record_body clock registry proc id).
Proof.
  intros Hid. apply frames_get. intros r _. apply frames_seq; [by frame|]. intros _. apply frames_seq; [by apply frames_hook|]. intros go.
  destruct (negb go); [frame|]. apply frames_get. intros r' _.
  apply frames_or_give_up; [done| |by apply frames_finish]. destruct (is_output _); [by apply frames_output|by apply frames_input].
Qed.

Lemma frames_disa id : slot id <> u -> frames (fetch_disa proc id).
Proof.
  intros Hid. apply frames_get. intros r Hr. destruct (is_constant _); [frame|].
  apply frames_seq; [apply (frames_fetch LSdis), (gentle_link id r); [done|unfold links; set_solver]|]. intros p. by frame.
Qed.

Lemma frames_inner id tp : slot id <> u -> frames (process_inner clock registry proc id tp).
Proof.
  intros Hid. apply frames_get. intros r _. apply frames_seq; [apply frames_trace_if|]. intros _.
  apply frames_seq; [by apply frames_disa|]. intros _. apply frames_get. intros r' _.
  destruct (_ =? _)%Z; [|by apply frames_then_trace, frames_record].
  apply frames_seq; [apply frames_trace_if|]. intros _. apply frames_seq; [apply frames_quiet; [done|apply disabled_quiet]|]. intros _.
  apply frames_seq; [by apply frames_reset|]. intros ch. apply frames_post_monitors.
Qed.

End Body.

(** A pass over another record frames. *)
Lemma frames_process fuel : forall id, slot id <> u -> frames (process_fuel clock registry fuel id).
Proof.
  induction fuel as [|fuel IH]; intros id Hid; cbn [process_fuel]; apply frames_get; intros r _;
    (destruct (pact (common r)); [apply frames_trace_if|]);
    (apply frames_seq; [intros s Hs; unfold push_depth; by destruct (MAX_DEPTH <=? _)%Z|]); intros _; apply frames_then_pop.
  - by intros s Hs.
  - by apply frames_inner.
Qed.

End Frame.

(** ** The reported records *)

(** A link of a built database to the record at [u] is an edge to its name. *)
Lemma edge_to db u r m f fd pp ms : at_id db u = Some r -> m ∈ concat (lock_sets db) -> (f, Db (Id u) fd pp ms) ∈ links m ->
  mkEdge (name m) (name r) (edge_kind f) (bool_decide (edge_kind f = EFlnk) || pp) ∈ graph_edges db.
Proof.
  intros Hu Hm Hl. unfold graph_edges. rewrite merge_sort_Permutation. apply list_elem_of_In, in_concat.
  exists (record_edges (id_name db) m). split; [apply in_map, list_elem_of_In, Hm|]. apply list_elem_of_In, list_elem_of_omap.
  eexists. split; [exact Hl|]. unfold link_edge. cbn. by rewrite id_name_spec, Hu.
Qed.

Lemma link_of m f l : (f, l) ∈ links m -> l ∈ links_of m.
Proof. intros H. change (links_of m) with (links m).*2. apply list_elem_of_fmap. by exists (f, l). Qed.

Lemma link_out m l : (LOut, l) ∈ links m -> l = out m.
Proof. unfold links. rewrite !elem_of_cons, elem_of_nil. naive_solver. Qed.

(** An OUT link that processes through PROC was written so. *)
Lemma out_proc names r u pp ms : source_ok r -> out (resolve_links names r).1 = Db (Id u) FProc pp ms ->
  exists n, out r = Db (Name n) FProc pp ms /\ names !! n = Some u.
Proof.
  intros [_ Hp]. assert (Hpl : plain (out r)) by (rewrite Forall_forall in Hp; apply Hp; unfold links_of; set_solver).
  assert (Ho : out (resolve_links names r).1 = (fix_link names (out r)).1) by (unfold resolve_links; repeat destruct (fix_link _ _); done).
  rewrite Ho. destruct (out r) as [v|[n|id] fd pp' ms'|n]; cbn in *; try done. destruct (names !! n) as [id|] eqn:En; [|done].
  cbn. intros [= -> -> -> ->]. by exists n.
Qed.

Lemma unreachable_gentle into_values records db g n u set :
  (forall m, into_values m ≡ₚ (map_to_list m).*2) -> Forall source_ok records -> build into_values records = Ok db ->
  dependency_graph db = Some g -> n ∈ unreachable g -> (forall r pp ms, r ∈ records -> out r <> Db (Name n) FProc pp ms) ->
  lookup_name db n = Some u -> lock_sets db !! rset u = Some set -> Forall (gentle_skeleton (slot u)) (skeleton <$> set).
Proof.
  intros Hv Hs Hb Hg Hn Hproc Hu Hset.
  destruct (build_spec into_values Hv records Hs) as (gs & db' & Hc & Hb' & Hok & Ho & Hnm & Hm). assert (db' = db) as -> by congruence.
  destruct (by_name_at records gs db Hc Ho Hnm Hm n u Hu) as (ru & _ & Hru & Hat).
  assert (Hnp : n ∉ processed_by_someone (graph_edges db)).
  { unfold dependency_graph in Hg. destruct (find_cycles _); [|done]. injection Hg as <-. cbn in Hn.
    rewrite merge_sort_Permutation in Hn. by apply list_elem_of_filter in Hn as [[_ ?] _]. }
  assert (Hin : forall m, m ∈ set -> m ∈ concat (lock_sets db)).
  { intros m Hms. apply list_elem_of_In, in_concat. exists set. split; apply list_elem_of_In; [by eapply list_elem_of_lookup_2|done]. }
  apply Forall_fmap, Forall_forall. intros m Hms. destruct (Hok _ _ Hset) as [_ Hloc]. rewrite Forall_forall in Hloc.
  specialize (Hloc m Hms). rewrite Forall_forall in Hloc. cbn. apply Forall_forall. intros [f l] Hl.
  assert (Hlm : (f, l) ∈ links m) by exact Hl.
  unfold gentle. cbn [fst snd]. destruct l as [|[|t] fd pp ms|]; try done. intros Est.
  assert (t = u) as ->.
  { specialize (Hloc _ (link_of m f _ Hlm)).
    cbn in Hloc. destruct t, u. cbn in *. congruence. }
  pose proof (edge_to db u _ m f fd pp ms Hat (Hin m Hms) Hlm) as He. rewrite resolve_name, Hru in He.
  assert (Hpt : bool_decide (edge_kind f = EFlnk) || pp = false).
  { apply not_true_is_false. intros Ht. apply Hnp. unfold processed_by_someone. apply elem_of_list_to_set, list_elem_of_fmap.
    eexists. split; [|apply list_elem_of_filter; split; [|exact He]]; [done|exact Ht]. }
  apply orb_false_iff in Hpt as [Hk ->]. split_and!; [by intros ->|done|]. intros -> ->.
  apply Hin in Hms. rewrite (members_perm records gs db Hc Hm) in Hms. apply list_elem_of_fmap in Hms as (r0 & -> & Hr0).
  rewrite Forall_forall in Hs. destruct (out_proc (by_name db) r0 u false ms (Hs r0 Hr0)) as (n' & Hout & Hn'); [symmetry; by apply link_out|].
  destruct (by_name_at records gs db Hc Ho Hnm Hm n' u Hn') as (r' & _ & Hr' & Hat').
  apply (Hproc r0 false ms Hr0). rewrite Hout. do 2 f_equal. rewrite Hat in Hat'. injection Hat' as Hat'.
  rewrite <-Hr', <-Hru. rewrite <-(resolve_name db r'), <-(resolve_name db ru). by rewrite Hat'.
Qed.

(** C24: a record the report calls unreachable is left alone.  In a loaded database, as
    long as no record writes its PROC field, a pass over any other record of its
    lock set, in any state of the set and whatever device support does, leaves
    its time stamp, its alarm states and its PACT flag as they were: it is never
    processed by another record, at any depth of the chain of links. *)
Theorem unreachable_left_alone {D} (clock : nat -> Z) (registry : RecordId -> option (Support D))
  into_values records db g n u set (s : St) id :
  (forall m, into_values m ≡ₚ (map_to_list m).*2) -> Forall source_ok records -> build into_values records = Ok db ->
  dependency_graph db = Some g -> n ∈ unreachable g -> (forall r pp ms, r ∈ records -> out r <> Db (Name n) FProc pp ms) ->
  lookup_name db n = Some u -> lock_sets db !! rset u = Some set -> skeleton <$> members s = skeleton <$> set -> slot id <> slot u ->
  foot <$> members (process clock registry id s).2 !! slot u = foot <$> members s !! slot u.
Proof.
  intros Hv Hs Hb Hg Hn Hproc Hu Hset Hsk Hid.
  pose proof (unreachable_gentle into_values records db g n u set Hv Hs Hb Hg Hn Hproc Hu Hset) as Hgentle.
  by apply (frames_process clock registry (skeleton <$> set) (slot u) Hgentle).
Qed.


(** ** Samples *)

Definition scanned (c : Common) : Common :=
  mkCommon (desc c) (str "1 second") (evnt c) (pini c) (phas c) (pact c) (disa c) (disv c) (diss c) (sdis c) (flnk c) (tse c) (tpro c)
    (udf c) (sevr c) (stat c) (nsev c) (nsta c).

(** A scanned output record: OUT to [L], FLNK to [Y]. *)
Definition driver (o : Link) : Rec :=
  mkRec (str "X") Ao (scanned (sample_common no_link (by_name_link (str "Y")))) no_limits [] (Double 5) (Double 0) (Double 0) SevNone CondNone
    no_link o no_link Supervisory 0.

Definition report_records (o : Link) : list Rec :=
  [driver o; sample_rec (str "Y") Ai (Double 0) no_link no_link no_link; sample_rec (str "L") Ao (Double 0) no_link no_link no_link].

Definition report_db (o : Link) : RecordDb :=
  match build values_of (report_records o) with Ok db => db | _ => mkDb ∅ [] [] [] end.

Definition report_state (o : Link) : @St unit := mkSt (concat (lock_sets (report_db o))) (mkCtx [] [] [] 0 0 tt).

Definition value_link : Link := Db (Name (str "L")) FVal false false.
Definition proc_link : Link := Db (Name (str "L")) FProc false false.

Lemma report_records_ok o : plain o -> Forall source_ok (report_records o).
Proof.
  intros Ho. repeat constructor; cbn; try done; try lia; unfold in_i32, F64.i32_min, F64.i32_max; lia.
Qed.

(** X writes the value of L and processes Y; L is reported and keeps its marks. *)
Lemma unreachable_left_alone_witness :
  unreachable <$> dependency_graph (report_db value_link) = Some [str "L"] /\
  val <$> members (process sample_clock no_registry (mkId 0 0) (report_state value_link)).2 !! 2%nat = Some (Double 5) /\
  foot <$> members (process sample_clock no_registry (mkId 0 0) (report_state value_link)).2 !! 2%nat =
  foot <$> members (report_state value_link) !! 2%nat.
Proof.
  assert (Hb : build values_of (report_records value_link) = Ok (report_db value_link)) by (vm_compute; reflexivity).
  destruct (dependency_graph (report_db value_link)) as [g|] eqn:Eg; [|vm_compute in Eg; discriminate Eg].
  assert (Hu : unreachable g = [str "L"]) by (vm_compute in Eg; injection Eg as <-; reflexivity).
  assert (Hproc : forall r pp ms, r ∈ report_records value_link -> out r <> Db (Name (str "L")) FProc pp ms).
  { intros r pp ms Hr. repeat (apply elem_of_cons in Hr as [->|Hr]; [vm_compute; discriminate|]). destruct (proj1 (elem_of_nil _) Hr). }
  pose proof (unreachable_left_alone sample_clock no_registry values_of (report_records value_link) (report_db value_link) g (str "L") (mkId 0 2)
    (concat (lock_sets (report_db value_link))) (report_state value_link) (mkId 0 0) (fun m => reflexivity _) (report_records_ok value_link I) Hb Eg
    ltac:(rewrite Hu; by left) Hproc ltac:(vm_compute; reflexivity) ltac:(vm_compute; reflexivity) eq_refl ltac:(done)) as Hf.
  cbn [slot] in Hf. split; [cbn; by rewrite Hu|]. split; [vm_compute; reflexivity|]. exact Hf.
Defined.

(** An OUT link to PROC processes its target without PP, and the target is reported
    as one that can never process all the same. *)
Theorem proc_target_reported :
  unreachable <$> dependency_graph (report_db proc_link) = Some [str "L"] /\
  time_ns <$> report_records proc_link !! 2%nat = Some 0%Z /\
  time_ns <$> members (process sample_clock no_registry (mkId 0 0) (report_state proc_link)).2 !! 2%nat = Some 1000000000%Z.
Proof. vm_compute. done. Qed.

(** A hub named by two records' links is reported with more dependants than there
    are records. *)
Definition busy (n : bytes) : Rec :=
  let l := by_name_link (str "H") in
  mkRec n Ao (sample_common l l) no_limits [] (Double 0) (Double 0) (Double 0) SevNone CondNone l l l Supervisory 0.

Example fan_out_counts_fields :
  match build values_of [busy (str "A"); busy (str "B"); busy (str "H")] with
  | Ok db => high_fan_out <$> dependency_graph db
  | _ => None
  end = Some [(str "H", 15%nat)].
Proof. vm_compute. done. Qed.

End GraphProc.
