(* ===== verification/PutEncode.v ===== *)
(** * PUT requests of the client

    [spvirit-client/src/put_encode.rs]: a JSON value encoded against the type of a
    channel as the body of a PUT, a changed bitset followed by the values of the
    fields the input names.  The JSON library is represented by the accessors the
    code uses: a number by what [as_i64], [as_u64] and [as_f64] return and by its
    text, an object by its entries in iteration order; the text of arrays and
    objects ([json_text]) is a parameter. *)

From Stdlib Require Import ZArith Floats.SpecFloat.
From stdpp Require Import gmap.
From S2P Require Import Prelude Utf8 Wire PvdTypes PvdEncode NtTypes F64 Text Calc CalcParse CalcEval.

Local Open Scope Z_scope.
Local Open Scope codec_scope.

Module PutEncode.
Import Wire PvdEncode.

(** ** JSON values *)

Record Number := mkNumber { as_i64 : option Z; as_u64 : option Z; as_f64 : option Z; number_text : bytes }.

Inductive Value :=
| Null
| Bool (b : bool)
| Num (n : Number)
| Str (s : bytes)
| Arr (l : list Value)
| Obj (m : list (bytes * Value)).

Definition lookup_key (m : list (bytes * Value)) (k : bytes) : option Value :=
  snd <$> List.find (fun e => bool_decide (e.1 = k)) m.

(** ** Errors *)

Inductive PutError :=
| NoFields | NeedsValueField
| UnknownField (n : bytes) | EmptyObject (n : bytes) | ExpectsObject (n : bytes) | MissingField (n : bytes)
| ExpectsBoolean (n : bytes) | OutOfRange (n : bytes) | ExpectsInteger (n : bytes) | ExpectsUnsigned (n : bytes)
| ExpectsFloat (n : bytes) | ExpectsString (n : bytes) | UnsupportedScalar (n : bytes) | ExpectsArray (n : bytes)
| ExpectsArrayOfObjects (n : bytes) | ExpectsStructure (n : bytes) | UnionObject (n : bytes) | UnionOneMember (n : bytes)
| UnionUnknownMember (n m : bytes).

Abbreviation result := (outcome PutError).

(** ** Numbers *)

(** [s.parse::<i64>()] and [s.parse::<u64>()]. *)
Definition parse_signed (lo hi : Z) (s : bytes) : option Z :=
  let '(neg, s) := Text.sign s in
  let '(v, n, rest) := Text.digits 0 s in
  let v := if neg then - v else v in
  if (0 <? n) && bool_decide (rest = []) && (lo <=? v) && (v <=? hi) then Some v else None.

Definition parse_unsigned (hi : Z) (s : bytes) : option Z :=
  let s := match s with 43 :: s => s | _ => s end in
  let '(v, n, rest) := Text.digits 0 s in
  if (0 <? n) && bool_decide (rest = []) && (v <=? hi) then Some v else None.

Definition i64_min : Z := - 2 ^ 63.
Definition i64_max : Z := 2 ^ 63 - 1.
Definition u64_max : Z := 2 ^ 64 - 1.

(** [f64::EPSILON]. *)
Definition EPSILON : Z := 0x3CB0000000000000.

(** [f.fract()]. *)
Definition fract (f : Z) : Z := F64.sub f (CalcEval.round_to_int (F64.lt64 f 0) f).

Definition json_to_int (val : Value) (name : bytes) : result Z :=
  match val with
  | Num n =>
    match as_i64 n, as_u64 n, as_f64 n with
    | Some i, _, _ => Ok i
    | None, Some u, _ => if u <=? i64_max then Ok u else Err (OutOfRange name)
    | None, None, Some f =>
      if F64.lt64 EPSILON (F64.abs (fract f)) then Err (ExpectsInteger name)
      else Ok (CalcEval.as_int i64_min i64_max f)
    | None, None, None => Err (ExpectsInteger name)
    end
  | Str s => match parse_signed i64_min i64_max s with Some v => Ok v | None => Err (ExpectsInteger name) end
  | _ => Err (ExpectsInteger name)
  end.

Definition json_to_uint (val : Value) (name : bytes) : result Z :=
  match val with
  | Num n =>
    match as_u64 n, as_i64 n, as_f64 n with
    | Some u, _, _ => Ok u
    | None, Some i, _ => if i <? 0 then Err (ExpectsUnsigned name) else Ok i
    | None, None, Some f =>
      if F64.lt64 EPSILON (F64.abs (fract f)) || F64.lt64 f 0 then Err (ExpectsUnsigned name)
      else Ok (CalcEval.as_int 0 u64_max f)
    | None, None, None => Err (ExpectsUnsigned name)
    end
  | Str s => match parse_unsigned u64_max s with Some v => Ok v | None => Err (ExpectsUnsigned name) end
  | _ => Err (ExpectsUnsigned name)
  end.

(** A bit pattern of 64 bits. *)
Definition json_to_float (val : Value) (name : bytes) : result Z :=
  match val with
  | Num n => match as_f64 n with Some f => Ok f | None => Err (ExpectsFloat name) end
  | Str s => match Text.parse_f64 s with Some f => Ok (f mod 2 ^ 64) | None => Err (ExpectsFloat name) end
  | _ => Err (ExpectsFloat name)
  end.

(** [v as f32], a bit pattern of 32 bits. *)
Definition to_f32 (x : Z) : Z :=
  let pattern :=
    match F64.to_spec x with
    | S754_zero s => if s then 2 ^ 31 else 0
    | S754_infinity s => (if s then 2 ^ 31 else 0) + 0xFF * 2 ^ 23
    | S754_nan => 0x7FC00000
    | S754_finite s m e =>
      match binary_normalize 24 128 (if s then Zneg m else Zpos m) e s with
      | S754_zero s => if s then 2 ^ 31 else 0
      | S754_infinity s => (if s then 2 ^ 31 else 0) + 0xFF * 2 ^ 23
      | S754_nan => 0x7FC00000
      | S754_finite s m e =>
        (if s then 2 ^ 31 else 0) + (if Zpos m <? 2 ^ 23 then Zpos m else (e + 150) * 2 ^ 23 + (Zpos m - 2 ^ 23))
      end
    end in
  pattern mod 2 ^ 32.

Definition ensure_range (v lo hi : Z) (name : bytes) : result unit :=
  if (v <? lo) || (hi <? v) then Err (OutOfRange name) else Ok tt.

(** ** Values *)

(** A loop over items that appends to the data. *)
Fixpoint each {A} (f : A -> bytes -> result bytes) (items : list A) (data : bytes) : result bytes :=
  match items with
  | [] => Ok data
  | item :: items => let? data := f item data in each f items data
  end.

Section Encode.
Context (is_be : bool) (json_text : Value -> bytes).

Definition push_text (data s : bytes) : bytes := data ++ encode_size (zlen s) is_be ++ s.

Definition encode_string_value (val : Value) (data name : bytes) : result bytes :=
  match val with Str s => Ok (push_text data s) | _ => Err (ExpectsString name) end.

Definition encode_signed (n : nat) (val : Value) (data name : bytes) : result bytes :=
  let? v := json_to_int val name in
  let? _ := ensure_range v (- 2 ^ (8 * Z.of_nat n - 1)) (2 ^ (8 * Z.of_nat n - 1) - 1) name in
  Ok (data ++ put_int is_be n v).

Definition encode_unsigned (n : nat) (val : Value) (data name : bytes) : result bytes :=
  let? v := json_to_uint val name in
  let? _ := ensure_range v 0 (2 ^ (8 * Z.of_nat n) - 1) name in
  Ok (data ++ put_int is_be n v).

Definition encode_scalar_value (tc : TypeCode.t) (val : Value) (data name : bytes) : result bytes :=
  match tc with
  | TypeCode.Boolean =>
    match val with
    | Bool b => Ok (data ++ [bool_byte b])
    | Num n => match as_i64 n with Some v => Ok (data ++ [bool_byte (negb (v =? 0))]) | None => Err (ExpectsBoolean name) end
    | _ => Err (ExpectsBoolean name)
    end
  | TypeCode.Int8 => encode_signed 1 val data name
  | TypeCode.Int16 => encode_signed 2 val data name
  | TypeCode.Int32 => encode_signed 4 val data name
  | TypeCode.Int64 => let? v := json_to_int val name in Ok (data ++ put_int is_be 8 v)
  | TypeCode.UInt8 => encode_unsigned 1 val data name
  | TypeCode.UInt16 => encode_unsigned 2 val data name
  | TypeCode.UInt32 => encode_unsigned 4 val data name
  | TypeCode.UInt64 => let? v := json_to_uint val name in Ok (data ++ put_int is_be 8 v)
  | TypeCode.Float32 => let? v := json_to_float val name in Ok (data ++ put_int is_be 4 (to_f32 v))
  | TypeCode.Float64 => let? v := json_to_float val name in Ok (data ++ put_int is_be 8 v)
  | TypeCode.String => encode_string_value val data name
  | _ => Err (UnsupportedScalar name)
  end.

(** The arrays: their count, then the items. *)
Definition encode_items (item : Value -> bytes -> result bytes) (val : Value) (data name : bytes) : result bytes :=
  match val with
  | Arr items => each item items (data ++ encode_size (zlen items) is_be)
  | _ => Err (ExpectsArray name)
  end.

Definition encode_scalar_array (tc : TypeCode.t) (val : Value) (data name : bytes) : result bytes :=
  encode_items (fun v d => encode_scalar_value tc v d name) val data name.

Definition encode_string_array (val : Value) (data name : bytes) : result bytes :=
  encode_items (fun v d => encode_string_value v d name) val data name.

(** An entry of an object sent as an [any]: its text. *)
Definition entry_text (v : Value) : bytes :=
  match v with
  | Str s => s
  | Num n => number_text n
  | Bool b => if b then str "true" else str "false"
  | Null => []
  | _ => json_text v
  end.

Definition is_string (v : Value) : bool := match v with Str _ => true | _ => false end.

Definition encode_variant (val : Value) (data name : bytes) : result bytes :=
  match val with
  | Null => Ok (data ++ [0xFF])
  | Bool _ => encode_scalar_value TypeCode.Boolean val (data ++ [TypeCode.to_byte TypeCode.Boolean]) name
  | Num n =>
    match as_i64 n, as_u64 n with
    | None, None => encode_scalar_value TypeCode.Float64 val (data ++ [TypeCode.to_byte TypeCode.Float64]) name
    | _, _ => encode_scalar_value TypeCode.Int32 val (data ++ [TypeCode.to_byte TypeCode.Int32]) name
    end
  | Str _ => encode_string_value val (data ++ [TypeCode.to_byte TypeCode.String]) name
  | Arr [] => Ok (data ++ [Z.lor (TypeCode.to_byte TypeCode.Float64) 0x08] ++ encode_size 0 is_be)
  | Arr l =>
    if forallb is_string l then encode_string_array val (data ++ [0x68]) name
    else encode_scalar_array TypeCode.Float64 val (data ++ [Z.lor (TypeCode.to_byte TypeCode.Float64) 0x08]) name
  | Obj m =>
    let desc := Ty.mkStruct None (map (fun e => Ty.mkField e.1 Ty.String) m) in
    Ok (fold_left (fun data e => push_text data (entry_text e.2)) m (data ++ [0x80] ++ encode_structure_desc desc is_be))
  end.

Definition encode_variant_array (val : Value) (data name : bytes) : result bytes :=
  encode_items (fun v d => encode_variant v d name) val data name.

(** A value inside a structure that is sent whole ([encode_structure_full] and the
    calls it makes): only there is a nested structure encoded. *)
Fixpoint encode_full (ft : Ty.FieldType) (val : Value) (data name : bytes) {struct ft} : result bytes :=
  let fields := fix fields (fs : list Ty.FieldDesc) (m : list (bytes * Value)) (data : bytes) : result bytes :=
    match fs with
    | [] => Ok data
    | Ty.mkField n t :: fs =>
      match lookup_key m n with
      | None => Err (MissingField n)
      | Some v => let? data := encode_full t v data n in fields fs m data
      end
    end in
  let member := fix member (fs : list Ty.FieldDesc) (i : Z) (n : bytes) (v : Value) (data : bytes) : result bytes :=
    match fs with
    | [] => Err (UnionUnknownMember name n)
    | Ty.mkField n' t :: fs =>
      if bool_decide (n' = n) then
        match t with
        | Ty.Structure _ => Err (ExpectsStructure n)
        | _ => encode_full t v (data ++ encode_size i is_be) n
        end
      else member fs (i + 1) n v data
    end in
  let union := fun fs val data =>
    match val with
    | Obj [(n, v)] => member fs 0 n v data
    | Obj _ => Err (UnionOneMember name)
    | _ => Err (UnionObject name)
    end in
  match ft with
  | Ty.Scalar tc => encode_scalar_value tc val data name
  | Ty.ScalarArray tc => encode_scalar_array tc val data name
  | Ty.String | Ty.BoundedString _ => encode_string_value val data name
  | Ty.StringArray => encode_string_array val data name
  | Ty.Structure (Ty.mkStruct _ fs) => match val with Obj m => fields fs m data | _ => Err (ExpectsObject name) end
  | Ty.StructureArray (Ty.mkStruct _ fs) =>
    encode_items (fun v d => match v with Obj m => fields fs m d | _ => Err (ExpectsArrayOfObjects name) end) val data name
  | Ty.Union fs => union fs val data
  | Ty.UnionArray fs => encode_items (union fs) val data name
  | Ty.Variant => encode_variant val data name
  | Ty.VariantArray => encode_variant_array val data name
  end.

Definition encode_field_value (ft : Ty.FieldType) (val : Value) (data name : bytes) : result bytes :=
  match ft with Ty.Structure _ => Err (ExpectsStructure name) | _ => encode_full ft val data name end.

(** ** The request *)

Definition resize (l : bytes) (n : nat) : bytes := l ++ replicate (n - length l) 0.

Definition set_bit (bitset : bytes) (bit : Z) : bytes :=
  let idx := Z.to_nat (bit / 8) in
  let bitset := resize bitset (S idx) in
  <[idx := Z.lor (nth idx bitset 0) (Z.shiftl 1 (bit mod 8))]> bitset.

(** The bitset, the next bit and the data. *)
Record Out := mkOut { o_bits : bytes; o_bit : Z; o_data : bytes }.

Section Partial.
Context (nested : Ty.StructureDesc -> list (bytes * Value) -> Out -> result Out).

Definition partial_field (f : Ty.FieldDesc) (m : list (bytes * Value)) (o : Out) : result Out :=
  let current_bit := o_bit o in
  let o := mkOut (o_bits o) (o_bit o + 1) (o_data o) in
  match Ty.field_type f with
  | Ty.Structure d =>
    match lookup_key m (Ty.name f) with
    | Some (Obj []) => Err (EmptyObject (Ty.name f))
    | Some (Obj obj) => nested d obj o
    | Some _ => Err (ExpectsObject (Ty.name f))
    | None => Ok (mkOut (o_bits o) (o_bit o + Ty.count_structure_fields d) (o_data o))
    end
  | ft =>
    match lookup_key m (Ty.name f) with
    | Some v =>
      let? data := encode_field_value ft v (o_data o) (Ty.name f) in
      Ok (mkOut (set_bit (o_bits o) current_bit) (o_bit o) data)
    | None => Ok o
    end
  end.

Fixpoint partial_fields (fs : list Ty.FieldDesc) (m : list (bytes * Value)) (o : Out) : result Out :=
  match fs with
  | [] => Ok o
  | f :: fs => let? o := partial_field f m o in partial_fields fs m o
  end.
End Partial.

Definition known (fs : list Ty.FieldDesc) (k : bytes) : bool := existsb (fun f => bool_decide (Ty.name f = k)) fs.

Fixpoint encode_structure_partial (desc : Ty.StructureDesc) (m : list (bytes * Value)) (o : Out) : result Out :=
  match desc with
  | Ty.mkStruct _ fs =>
    match List.find (fun e => negb (known fs e.1)) m with
    | Some e => Err (UnknownField e.1)
    | None => partial_fields encode_structure_partial fs m o
    end
  end.

Definition normalize_root (desc : Ty.StructureDesc) (input : Value) : result (list (bytes * Value)) :=
  match input with
  | Obj m => Ok m
  | _ => if known (Ty.fields desc) (str "value") then Ok [(str "value", input)] else Err NeedsValueField
  end.

Definition encode_put_payload (desc : Ty.StructureDesc) (input : Value) : result bytes :=
  let? root := normalize_root desc input in
  let? o := encode_structure_partial desc root (mkOut [] 1 []) in
  match o_bits o with
  | [] => Err NoFields
  | bits => Ok (encode_size (zlen bits) is_be ++ bits ++ o_data o)
  end.

End Encode.

End PutEncode.
