(* ===== verification/PutDecode.v ===== *)
(** * PUT bodies on the server

    [spvirit-server/src/decode.rs]: the body of a PUT decoded against the type of
    the channel, with the fallbacks for clients that prefix a status byte, that
    number the bits of their bitset from zero, or that send the bare value. *)

From stdpp Require Import gmap.
From S2P Require Import Prelude Utf8 Wire PvdTypes PvdEncode PvdDecode PvdSafety.

Local Open Scope Z_scope.

Module PutDecode.
Import Wire PvdDecode PvdEncode.

Section Decode.
Context (is_be : bool).

(** [PvdDecoder::new(is_be)]. *)
Definition new : PvdDecoder := with_limits default_limits.

Abbreviation decode_bitset := (decode_structure_with_bitset is_be default_limits).

Definition decoded_is_empty (v : Val.DecodedValue) : bool := match v with Val.Structure [] => true | _ => false end.

(** The value of an attempt that succeeds with something. *)
Definition attempt (m : M (Val.DecodedValue * Z)) : M (option Val.DecodedValue) :=
  bind (try m) (fun r =>
  match r with
  | inl (v, _) => ret (if decoded_is_empty v then None else Some v)
  | inr _ => ret None
  end).

(** [m], and [k] when it found nothing. *)
Definition or_else (m k : M (option Val.DecodedValue)) : M (option Val.DecodedValue) :=
  bind m (fun r => match r with Some v => ret (Some v) | None => k end).

(** The loop of [shift_bitset_left]; both index expressions panic out of range. *)
Fixpoint shift_bits (bitset : bytes) (shift : Z) (bits : list Z) (out : bytes) : DecodeResult bytes :=
  match bits with
  | [] => Ok out
  | bit :: bits =>
    match bitset !! Z.to_nat (bit / 8) with
    | None => Panic
    | Some b =>
      if negb (Z.land b (Z.shiftl 1 (bit mod 8)) =? 0) then
        let new_bit := bit + shift in
        match out !! Z.to_nat (new_bit / 8) with
        | None => Panic
        | Some o => shift_bits bitset shift bits (<[Z.to_nat (new_bit / 8) := Z.lor o (Z.shiftl 1 (new_bit mod 8))]> out)
        end
      else shift_bits bitset shift bits out
    end
  end.

Definition shift_bitset_left (bitset : bytes) (shift : Z) : DecodeResult bytes :=
  if shift =? 0 then Ok bitset
  else
    let total_bits := zlen bitset * 8 in
    shift_bits bitset shift (Z.of_nat <$> seq 0 (Z.to_nat total_bits)) (replicate (Z.to_nat (div_ceil (total_bits + shift) 8)) 0).

Definition decode_put_body_shifted_bitset (body : bytes) (desc : Ty.StructureDesc) : M (option Val.DecodedValue) :=
  bind (try (decode_size is_be body)) (fun r =>
  match r with
  | inr _ => ret None
  | inl (size, consumed) =>
    if (size =? 0) || (zlen body <? consumed + size) then ret None
    else
      bind (lift (slice body consumed (consumed + size))) (fun bitset =>
      bind (lift (slice_from body (consumed + size))) (fun data =>
      bind (lift (shift_bitset_left bitset 1)) (fun shifted =>
      attempt (decode_bitset (encode_size (zlen shifted) is_be ++ shifted ++ data) desc))))
  end).

Definition decode_value_only_from_data (data : bytes) (desc : Ty.StructureDesc) : M (option Val.DecodedValue) :=
  match List.find (fun f => bool_decide (Ty.name f = str "value")) (Ty.fields desc) with
  | None => ret None
  | Some f =>
    bind (try (decode_value is_be default_limits data (Ty.field_type f))) (fun r =>
    match r with
    | inl (v, _) => ret (Some (Val.Structure [(str "value", v)]))
    | inr _ => ret None
    end)
  end.

Definition decode_put_body_value_only (body : bytes) (desc : Ty.StructureDesc) : M (option Val.DecodedValue) :=
  bind (try (decode_size is_be body)) (fun r =>
  or_else
    (match r with
     | inl (size, consumed) =>
       if consumed + size <=? zlen body then
         bind (lift (slice_from body (consumed + size))) (fun data => decode_value_only_from_data data desc)
       else ret None
     | inr _ => ret None
     end)
    (decode_value_only_from_data body desc)).

(** Run on a decoder of its own. *)
Definition fresh {A} (m : M A) : M A := fun s => ((m new).1, s).

Definition decode_put_body_steps (body : bytes) (desc : Ty.StructureDesc) : M (option Val.DecodedValue) :=
  or_else (attempt (decode_bitset body desc))
  (or_else
    (match body with
     | 0xFF :: body => attempt (decode_bitset body desc)
     | _ => ret None
     end)
  (or_else (fresh (decode_put_body_shifted_bitset body desc))
    (fresh (decode_put_body_value_only body desc)))).

Definition decode_put_body (body : bytes) (desc : Ty.StructureDesc) : DecodeResult (option Val.DecodedValue) :=
  (decode_put_body_steps body desc new).1.

End Decode.

(** ** The shifted bitset *)

Lemma alter_insert (l : bytes) k f : (k < length l)%nat -> alter f k l = <[k := f (nth k l 0)]> l.
Proof.
  intros Hk. apply list_eq. intros j. destruct (decide (j = k)) as [->|Hne].
  - rewrite list_lookup_alter_eq, list_lookup_insert_eq by done. rewrite nth_lookup. by destruct (lookup_lt_is_Some_2 l k Hk) as [x ->].
  - by rewrite list_lookup_alter_ne, list_lookup_insert_ne.
Qed.

(** The loop within its bounds. *)
Definition shift_loop (B : bytes) (k : Z) (js : list Z) (out : bytes) : bytes :=
  fold_left (fun out bit =>
    if bit_set B bit then
      let new_bit := bit + k in
      alter (fun b => Z.lor b (Z.shiftl 1 (new_bit mod 8))) (Z.to_nat (new_bit / 8)) out
    else out) js out.

Lemma shift_loop_spec B k js : forall out n, 0 <= k -> 0 <= n -> Forall (fun b => 0 <= b < 8 * zlen B /\ b + k < 8 * zlen out) js ->
  bit_set (shift_loop B k js out) n = bit_set out n || (bool_decide (n - k ∈ js) && bit_set B (n - k)) /\
  length (shift_loop B k js out) = length out.
Proof.
  induction js as [|b js IH]; intros out n Hk Hn Hf; cbn [shift_loop fold_left].
  { rewrite bool_decide_eq_false_2 by (by intros ?%not_elem_of_nil). by rewrite orb_false_r. }
  apply Forall_cons in Hf as [[Hb Hbo] Hf]. destruct (byte_bits (b + k)) as (? & ? & ?); [lia|]. destruct (byte_bits b) as (? & ? & ?); [lia|].
  cbn zeta. rewrite alter_insert by (unfold zlen in *; lia).
  set (out' := if bit_set B b then _ else out).
  assert (Hlen : length out' = length out) by (unfold out'; destruct (bit_set B b); [apply length_insert|done]).
  destruct (IH out' n Hk Hn) as [Hset Hl]; [unfold zlen in *; rewrite Hlen; done|]. fold (shift_loop B k js out'). rewrite Hset, Hl. split; [|done].
  assert (Hout : bit_set out' n = bit_set out n || ((n =? b + k) && bit_set B b)).
  { unfold out'. destruct (bit_set B b); [|by rewrite andb_false_r, orb_false_r]. rewrite andb_true_r. apply (bit_set_set out (b + k) n); lia. }
  rewrite Hout, <-orb_assoc. f_equal. destruct (Z.eqb_spec n (b + k)) as [->|Hne].
  - replace (b + k - k) with b by lia. rewrite (bool_decide_eq_true_2 (b ∈ b :: js)) by left.
    destruct (bit_set B b), (bool_decide (b ∈ js)); reflexivity.
  - cbn [andb orb]. f_equal. apply bool_decide_ext. rewrite elem_of_cons. split; [auto|]. intros [?|?]; [lia|done].
Qed.

Lemma shift_bits_ok B k js : forall out, 0 <= k -> Forall (fun b => 0 <= b < 8 * zlen B /\ b + k < 8 * zlen out) js ->
  shift_bits B k js out = Ok (shift_loop B k js out).
Proof.
  induction js as [|b js IH]; intros out Hk Hf; [done|]. apply Forall_cons in Hf as [[Hb Hbo] Hf].
  destruct (byte_bits (b + k)) as (? & ? & ?); [lia|]. destruct (byte_bits b) as (? & ? & ?); [lia|]. cbn [shift_bits shift_loop fold_left].
  destruct (lookup_lt_is_Some_2 B (Z.to_nat (b / 8))) as [x Hx]; [unfold zlen in *; lia|]. rewrite Hx.
  assert (Hbit : negb (Z.land x (Z.shiftl 1 (b mod 8)) =? 0) = bit_set B b).
  { unfold bit_set. rewrite (proj2 (Z.ltb_lt _ _)) by lia. rewrite nth_lookup, Hx. done. }
  rewrite Hbit. destruct (bit_set B b); [|by apply IH]. cbn zeta.
  destruct (lookup_lt_is_Some_2 out (Z.to_nat ((b + k) / 8))) as [o Ho]; [unfold zlen in *; lia|]. rewrite Ho.
  rewrite IH; [|done|eapply Forall_impl; [exact Hf|]; intros j Hj; unfold zlen in *; by rewrite length_insert].
  f_equal. unfold shift_loop. f_equal. rewrite alter_insert by (by apply lookup_lt_Some in Ho). by rewrite nth_lookup, Ho.
Qed.

Lemma lor_byte a b : 0 <= a < 256 -> 0 <= b < 256 -> 0 <= Z.lor a b < 256.
Proof.
  intros Ha Hb. assert (Hn : 0 <= Z.lor a b) by (apply Z.lor_nonneg; lia). split; [done|].
  destruct (decide (Z.lor a b = 0)) as [->|]; [lia|]. change 256 with (2 ^ 8). apply Z.log2_lt_pow2; [lia|].
  rewrite Z.log2_lor by lia. destruct (decide (a = 0)) as [->|], (decide (b = 0)) as [->|]; cbn; try lia;
    apply Z.max_lub_lt; try (by cbn); apply Z.log2_lt_pow2; lia.
Qed.

Lemma shift_loop_bytes B k js : forall out, bytes_ok out -> bytes_ok (shift_loop B k js out).
Proof.
  induction js as [|b js IH]; intros out Ho; cbn [shift_loop fold_left]; [done|]. apply IH. destruct (bit_set B b); [|done]. cbn zeta.
  apply Forall_alter; [done|]. intros x Hx Hxb. unfold byte_ok in *. pose proof (Z.mod_pos_bound (b + k) 8 ltac:(lia)).
  rewrite Z.shiftl_1_l. apply lor_byte; [done|]. split; [apply Z.pow_nonneg; lia|]. change 256 with (2 ^ 8). apply Z.pow_lt_mono_r; lia.
Qed.

(** The shift never indexes out of range; bit [n] of the result is bit [n - k] of
    the bitset. *)
Lemma shift_bitset_left_spec B k : 0 < k ->
  exists out, shift_bitset_left B k = Ok out /\ (bytes_ok B -> bytes_ok out) /\
    forall n, 0 <= n -> bit_set out n = (k <=? n) && bit_set B (n - k).
Proof.
  intros Hk. unfold shift_bitset_left. destruct (Z.eqb_spec k 0) as [|_]; [lia|]. pose proof (zlen_nonneg B).
  set (js := Z.of_nat <$> seq 0 (Z.to_nat (zlen B * 8))). destruct (div_ceil_8 (zlen B * 8 + k)) as [Hc Hc']; [lia|].
  set (out := replicate _ 0). assert (Ho : zlen out = div_ceil (zlen B * 8 + k) 8) by (unfold out, zlen in *; rewrite length_replicate; unfold zlen in *; lia).
  assert (Hjs : forall b, b ∈ js <-> 0 <= b < zlen B * 8).
  { intros b. unfold js. rewrite list_elem_of_fmap. split; [intros (i & -> & Hi); apply elem_of_seq in Hi; lia|].
    intros Hb. exists (Z.to_nat b). split; [lia|]. apply elem_of_seq. lia. }
  assert (Hr : Forall (fun b => 0 <= b < 8 * zlen B /\ b + k < 8 * zlen out) js) by (apply Forall_forall; intros b Hb; apply Hjs in Hb; lia).
  exists (shift_loop B k js out). split; [by apply shift_bits_ok; [lia|]|]. split; [intros _; apply shift_loop_bytes, Forall_replicate; unfold byte_ok; lia|].
  intros n Hn. destruct (shift_loop_spec B k js out n) as [-> _]; [lia|done|done|].
  assert (Hz : bit_set out n = false) by (rewrite bit_set_testbit by done; unfold out; rewrite nth_replicate_0; apply Z.bits_0).
  rewrite Hz. cbn [orb]. destruct (Z.leb_spec k n) as [Hle|Hlt]; cbn [andb].
  - destruct (decide (n - k < zlen B * 8)); [by rewrite bool_decide_eq_true_2 by (apply Hjs; lia)|].
    rewrite bool_decide_eq_false_2 by (rewrite Hjs; lia). cbn [andb]. unfold bit_set. rewrite (proj2 (Z.ltb_ge _ _)); [done|].
    apply Z.div_le_lower_bound; lia.
  - by rewrite bool_decide_eq_false_2 by (rewrite Hjs; lia).
Qed.

Lemma encode_size_ok n is_be : 0 <= n -> bytes_ok (encode_size n is_be).
Proof.
  intros Hn. unfold encode_size, push_size. destruct (_ <? _) eqn:E; bool_to_prop; [constructor; [|constructor]; unfold byte_ok; rewrite Z.mod_small; lia|].
  apply (put_int_ok is_be 4) || (constructor; [unfold byte_ok; lia|apply put_int_ok]).
Qed.

(** ** Safety *)

Section Total.
Context (is_be : bool).
Abbreviation idle := (PvdSafety.idle default_limits).
Abbreviation wp := PvdSafety.wp.

(** [m] ends with a value or nothing, on an idle decoder. *)
Definition total (m : M (option Val.DecodedValue)) : Prop :=
  forall s, idle s -> wp m s (fun r s' => idle s' /\ forall v, r = Some v -> decoded_is_empty v = false) (fun _ _ => False).

Lemma total_ret : total (ret None).
Proof. intros s Hs. apply PvdSafety.wp_ret. done. Qed.

Lemma total_or_else m k : total m -> total k -> total (or_else m k).
Proof.
  intros Hm Hk s Hs. apply PvdSafety.wp_bind. eapply PvdSafety.wp_conseq; [by apply Hm| |done]. intros [v|] s' [Hi Hv].
  - apply PvdSafety.wp_ret. done.
  - by apply Hk.
Qed.

Lemma total_attempt data desc : bytes_ok data -> total (attempt (decode_structure_with_bitset is_be default_limits data desc)).
Proof.
  intros Hd s Hs. apply PvdSafety.wp_bind, PvdSafety.wp_try.
  eapply PvdSafety.wp_conseq; [apply PvdSafety.safe_structure_with_bitset; [exact PvdSafety.default_limits_ok|done|done]|..].
  - intros [v c] s' [Hi _]. apply PvdSafety.wp_ret. split; [done|]. destruct (decoded_is_empty v) eqn:E; [done|]. by intros ? [= <-].
  - intros e s' Hi. by apply PvdSafety.wp_ret.
Qed.

Lemma total_fresh m : total m -> total (fresh m).
Proof.
  intros Hm s Hs. specialize (Hm new (PvdSafety.idle_with_limits default_limits)). unfold fresh, wp, PvdSafety.wp in *.
  destruct (m new) as [[r| | |] s']; cbn in *; try done. by destruct Hm.
Qed.

Lemma total_shifted body desc : bytes_ok body -> total (decode_put_body_shifted_bitset is_be body desc).
Proof.
  intros Hb s Hs. apply PvdSafety.wp_bind, PvdSafety.wp_try, PvdSafety.wp_decode_size; [done| |by intros; apply PvdSafety.wp_ret].
  intros n c Hn Hc. destruct (_ || _) eqn:E; [by apply PvdSafety.wp_ret|]. apply orb_false_iff in E as [E1 E2]. bool_to_prop.
  apply PvdSafety.wp_bind. rewrite slice_ok by lia. apply PvdSafety.wp_lift_ok. apply PvdSafety.wp_bind, PvdSafety.wp_slice_from; [lia|].
  apply PvdSafety.wp_bind. destruct (shift_bitset_left_spec (take (Z.to_nat n) (drop (Z.to_nat c) body)) 1 ltac:(lia)) as (out & Eo & Hout & _).
  match goal with |- context [shift_bitset_left ?b 1] => replace b with (take (Z.to_nat n) (drop (Z.to_nat c) body)) by (do 2 f_equal; lia) end.
  rewrite Eo. apply PvdSafety.wp_lift_ok.
  apply total_attempt; [|done]. apply Forall_app. split; [apply encode_size_ok, zlen_nonneg|]. apply Forall_app. split; [by apply Hout, Forall_take, Forall_drop|by apply Forall_drop].
Qed.

Lemma total_value_only data desc : bytes_ok data -> total (decode_value_only_from_data is_be data desc).
Proof.
  intros Hd s Hs. unfold decode_value_only_from_data. destruct (List.find _ _) as [f|]; [|by apply PvdSafety.wp_ret].
  apply PvdSafety.wp_bind, PvdSafety.wp_try.
  eapply PvdSafety.wp_conseq; [apply PvdSafety.safe_value; [exact PvdSafety.default_limits_ok|done|done]|..].
  - intros [v c] s' [Hi _]. apply PvdSafety.wp_ret. split; [done|]. by intros ? [= <-].
  - intros e s' Hi. by apply PvdSafety.wp_ret.
Qed.

Lemma total_body_value_only body desc : bytes_ok body -> total (decode_put_body_value_only is_be body desc).
Proof.
  intros Hb s Hs. apply PvdSafety.wp_bind, PvdSafety.wp_try, PvdSafety.wp_decode_size; [done|..].
  - intros n c Hn Hc. apply total_or_else; [|by apply total_value_only|done]. intros s' Hs'. destruct (_ <=? _) eqn:E; [|by apply PvdSafety.wp_ret].
    bool_to_prop. apply PvdSafety.wp_bind, PvdSafety.wp_slice_from; [lia|]. apply total_value_only; [by apply Forall_drop|done].
  - intros k a. apply total_or_else; [apply total_ret|by apply total_value_only|done].
Qed.

Lemma total_steps body desc : bytes_ok body -> total (decode_put_body_steps is_be body desc).
Proof.
  intros Hb. apply total_or_else; [by apply total_attempt|]. apply total_or_else.
  { destruct body as [|x body]; [apply total_ret|]. apply Forall_cons in Hb as [_ Hb]. destruct (decide (x = 0xFF)) as [->|]; [by apply total_attempt|].
    repeat case_match; apply total_ret || by apply total_attempt. }
  apply total_or_else; apply total_fresh; [by apply total_shifted|by apply total_body_value_only].
Qed.

End Total.

(** C15: the server survives any PUT body.  Whatever bytes a client sends for a channel
    of whatever type, the decoding with all its fallbacks ends without a panic
    and without running out of its depth budget, with nothing or with a value
    that names at least one field. *)
Theorem put_body_total is_be body desc : bytes_ok body ->
  exists r, decode_put_body is_be body desc = Ok r /\ forall v, r = Some v -> decoded_is_empty v = false.
Proof.
  intros Hb. pose proof (total_steps is_be body desc Hb new (PvdSafety.idle_with_limits default_limits)) as H. unfold decode_put_body, PvdSafety.wp in *.
  destruct (decode_put_body_steps is_be body desc new) as [[r| | |] s']; try done. destruct H as [_ H]. by exists r.
Qed.

(** A body with a status byte in front of the bitset. *)
Lemma put_body_total_witness : exists r,
  decode_put_body false [255; 1; 2; 7; 0; 0; 0] (Ty.mkStruct None [Ty.mkField (str "value") (Ty.Scalar TypeCode.Int32)]) = Ok r /\
  r = Some (Val.Structure [(str "value", Val.Int32 7)]).
Proof.
  destruct (put_body_total false [255; 1; 2; 7; 0; 0; 0] (Ty.mkStruct None [Ty.mkField (str "value") (Ty.Scalar TypeCode.Int32)])) as (r & Hr & _).
  - repeat constructor; unfold byte_ok; lia.
  - exists r. split; [exact Hr|]. vm_compute in Hr. injection Hr as <-. reflexivity.
Defined.

End PutDecode.
