(* ===== verification/Convert.v ===== *)
(** * Conversions of a PUT value

    [spvirit-server/src/convert.rs]: the conversions from a decoded value to the
    scalar types of a record, scalar arrays, alarms, time stamps and display
    limits.  An integer that does not fit its target and a float that is not
    finite or out of range are refused.  [f64_to_i64_checked_spec] and
    [f64_to_u64_checked_spec] relate the range tests on floats to the integer
    part of the float. *)

From Stdlib Require Import ZArith Floats.SpecFloat.
From S2P Require Import Prelude Utf8 Wire PvdTypes NtTypes F64 Text Calc CalcParse CalcEval PutEncode.

Local Open Scope Z_scope.

Module Convert.
Import Float NtTypes.
Import Val(DecodedValue).

(** ** Scalars *)

(** [T::try_from(v).ok()] for an integer type of this range. *)
Definition try_from (lo hi v : Z) : option Z := if (lo <=? v) && (v <=? hi) then Some v else None.

Definition signed (w : Z) : Z -> option Z := try_from (- 2 ^ (w - 1)) (2 ^ (w - 1) - 1).
Definition unsigned (w : Z) : Z -> option Z := try_from 0 (2 ^ w - 1).

(** The constants [-2^63], [2^63] and [2^64] as patterns. *)
Definition MIN_I64 : Z := 0xC3E0000000000000.
Definition LIMIT_I64 : Z := 0x43E0000000000000.
Definition LIMIT_U64 : Z := 0x43F0000000000000.

Definition f64_to_i64_checked (v : Z) : option Z :=
  if CalcEval.is_finite v && (le64 MIN_I64 v && F64.lt64 v LIMIT_I64)
  then Some (CalcEval.as_int (- 2 ^ 63) (2 ^ 63 - 1) v) else None.

Definition f64_to_u64_checked (v : Z) : option Z :=
  if CalcEval.is_finite v && (le64 0 v && F64.lt64 v LIMIT_U64)
  then Some (CalcEval.as_int 0 (2 ^ 64 - 1) v) else None.

Definition decoded_to_bool (val : DecodedValue) : option bool :=
  match val with
  | Val.Boolean v => Some v
  | Val.Int8 v | Val.Int16 v | Val.Int32 v | Val.Int64 v
  | Val.UInt8 v | Val.UInt16 v | Val.UInt32 v | Val.UInt64 v => Some (negb (v =? 0))
  | Val.Float32 v => Some (negb (eq32 v 0))
  | Val.Float64 v => Some (negb (eq64 v 0))
  | _ => None
  end.

Definition decoded_to_i64 (val : DecodedValue) : option Z :=
  match val with
  | Val.Int8 v | Val.Int16 v | Val.Int32 v | Val.Int64 v
  | Val.UInt8 v | Val.UInt16 v | Val.UInt32 v => Some v
  | Val.UInt64 v => signed 64 v
  | Val.Boolean v => Some (if v then 1 else 0)
  | Val.Float32 v => f64_to_i64_checked (widen v)
  | Val.Float64 v => f64_to_i64_checked v
  | _ => None
  end.

Definition decoded_to_i8 (val : DecodedValue) : option Z := decoded_to_i64 val ≫= signed 8.
Definition decoded_to_i16 (val : DecodedValue) : option Z := decoded_to_i64 val ≫= signed 16.

Definition decoded_to_i32 (val : DecodedValue) : option Z :=
  match val with
  | Val.Int8 v | Val.Int16 v | Val.Int32 v | Val.UInt8 v | Val.UInt16 v => Some v
  | Val.Int64 v | Val.UInt32 v | Val.UInt64 v => signed 32 v
  | Val.Boolean v => Some (if v then 1 else 0)
  | Val.Float32 v => f64_to_i64_checked (widen v) ≫= signed 32
  | Val.Float64 v => f64_to_i64_checked v ≫= signed 32
  | _ => None
  end.

Definition decoded_to_u64 (val : DecodedValue) : option Z :=
  match val with
  | Val.Int8 v | Val.Int16 v | Val.Int32 v | Val.Int64 v => if 0 <=? v then Some v else None
  | Val.UInt8 v | Val.UInt16 v | Val.UInt32 v | Val.UInt64 v => Some v
  | Val.Boolean v => Some (if v then 1 else 0)
  | Val.Float32 v => f64_to_u64_checked (widen v)
  | Val.Float64 v => f64_to_u64_checked v
  | _ => None
  end.

Definition decoded_to_u8 (val : DecodedValue) : option Z := decoded_to_u64 val ≫= unsigned 8.
Definition decoded_to_u16 (val : DecodedValue) : option Z := decoded_to_u64 val ≫= unsigned 16.
Definition decoded_to_u32 (val : DecodedValue) : option Z := decoded_to_u64 val ≫= unsigned 32.

Definition decoded_to_f64 (val : DecodedValue) : option Z :=
  match val with
  | Val.Float64 v => Some v
  | Val.Float32 v => Some (widen v)
  | Val.Int8 v | Val.Int16 v | Val.Int32 v | Val.Int64 v
  | Val.UInt8 v | Val.UInt16 v | Val.UInt32 v | Val.UInt64 v => Some (of_Z v)
  | Val.Boolean v => Some (if v then of_Z 1 else 0)
  | _ => None
  end.

Definition decoded_to_f32 (val : DecodedValue) : option Z := PutEncode.to_f32 <$> decoded_to_f64 val.

Definition decoded_to_string (val : DecodedValue) : option bytes :=
  match val with Val.String s => Some s | _ => None end.

Definition decoded_to_scalar_value (val : DecodedValue) : ScalarValue :=
  match decoded_to_bool val with
  | Some b => Bool b
  | None =>
    match decoded_to_i32 val with
    | Some i => I32 i
    | None =>
      match decoded_to_f64 val with
      | Some f => F64 f
      | None => match decoded_to_string val with Some s => Str s | None => I32 0 end
      end
    end
  end.

(** ** Arrays and structures *)

Definition decoded_to_scalar_array (val : DecodedValue) (template : ScalarArrayValue) : option ScalarArrayValue :=
  match val with
  | Val.Array items =>
    match template with
    | ABool _ => ABool <$> mapM decoded_to_bool items
    | AI8 _ => AI8 <$> mapM decoded_to_i8 items
    | AI16 _ => AI16 <$> mapM decoded_to_i16 items
    | AI32 _ => AI32 <$> mapM decoded_to_i32 items
    | AI64 _ => AI64 <$> mapM decoded_to_i64 items
    | AU8 _ => AU8 <$> mapM decoded_to_u8 items
    | AU16 _ => AU16 <$> mapM decoded_to_u16 items
    | AU32 _ => AU32 <$> mapM decoded_to_u32 items
    | AU64 _ => AU64 <$> mapM decoded_to_u64 items
    | AF32 _ => AF32 <$> mapM decoded_to_f32 items
    | AF64 _ => AF64 <$> mapM decoded_to_f64 items
    | AStr _ => AStr <$> mapM decoded_to_string items
    end
  | _ => None
  end.

(** The first field of this name. *)
Definition field (fields : list (bytes * DecodedValue)) (name : bytes) : option DecodedValue :=
  snd <$> find (fun f => bool_decide (f.1 = name)) fields.

Definition field_or {A} (conv : DecodedValue -> option A) (default : A) (fields : list (bytes * DecodedValue)) (name : bytes) : A :=
  match field fields name ≫= conv with Some v => v | None => default end.

Definition decode_nt_alarm (val : DecodedValue) : option NtAlarm :=
  match val with
  | Val.Structure fields =>
    Some (mkAlarm (field_or decoded_to_i32 0 fields (str "severity")) (field_or decoded_to_i32 0 fields (str "status"))
            (field_or decoded_to_string [] fields (str "message")))
  | _ => None
  end.

Definition decode_nt_timestamp (val : DecodedValue) : option NtTimeStamp :=
  match val with
  | Val.Structure fields =>
    Some (mkTimeStamp (field_or decoded_to_i64 0 fields (str "secondsPastEpoch"))
            (field_or decoded_to_i32 0 fields (str "nanoseconds")) (field_or decoded_to_i32 0 fields (str "userTag")))
  | _ => None
  end.

Definition decode_nt_display (val : DecodedValue) : option NtDisplay :=
  match val with
  | Val.Structure fields =>
    Some (mkDisplay (field_or decoded_to_f64 0 fields (str "limitLow")) (field_or decoded_to_f64 0 fields (str "limitHigh"))
            (field_or decoded_to_string [] fields (str "description")) (field_or decoded_to_string [] fields (str "units"))
            (field_or decoded_to_i32 0 fields (str "precision")))
  | _ => None
  end.

(** ** The integer part of a float *)

(** A finite pattern rounded towards zero; 0 for the others. *)
Definition trunc (x : Z) : Z :=
  match F64.to_spec x with
  | S754_finite s m e =>
    let q := if 0 <=? e then Z.shiftl (Zpos m) e else Z.shiftr (Zpos m) (- e) in if s then - q else q
  | _ => 0
  end.

(** The integer part of the magnitude, from the 63 bits below the sign. *)
Definition trunc_mag (g : Z) : Z :=
  let e := g / 2 ^ 52 in
  let m := g mod 2 ^ 52 in
  let q := if e =? 0 then m else 2 ^ 52 + m in
  let e' := (if e =? 0 then 1 else e) - 1075 in
  if 0 <=? e' then q * 2 ^ e' else q / 2 ^ (- e').

Section Patterns.
Context (x : Z).
Hypothesis Hx : 0 <= x < 2 ^ 64.

Lemma abs_mod : F64.abs x = x mod 2 ^ 63.
Proof using. unfold F64.abs. change 0x7FFFFFFFFFFFFFFF with (Z.ones 63). apply Z.land_ones. lia. Qed.

Lemma sign_split : x = (if 2 ^ 63 <=? x then 2 ^ 63 else 0) + x mod 2 ^ 63.
Proof using Hx.
  destruct (2 ^ 63 <=? x) eqn:E; [apply Z.leb_le in E|apply Z.leb_gt in E].
  - rewrite (Z.mod_eq x (2 ^ 63)) by lia. replace (x / 2 ^ 63) with 1; [lia|]. apply (Z.div_unique_pos x (2 ^ 63) 1 (x - 2 ^ 63)); lia.
  - rewrite Z.mod_small; lia.
Qed.

Lemma key_split : key 64 x = if 2 ^ 63 <=? x then - (x mod 2 ^ 63) else x mod 2 ^ 63.
Proof using Hx.
  pose proof sign_split as H. unfold key. change (64 - 1) with 63.
  destruct (2 ^ 63 <=? x) eqn:E; [apply Z.leb_le in E|apply Z.leb_gt in E].
  - replace (x <? 2 ^ 63) with false by (symmetry; apply Z.ltb_ge; lia). lia.
  - replace (x <? 2 ^ 63) with true by (symmetry; apply Z.ltb_lt; lia). lia.
Qed.

Lemma exponent_split : Z.shiftr x 52 mod 2 ^ 11 = (x mod 2 ^ 63) / 2 ^ 52.
Proof using.
  rewrite Z.shiftr_div_pow2 by lia. change (2 ^ 63) with (2 ^ 52 * 2 ^ 11).
  rewrite Z.rem_mul_r by lia. rewrite Z.add_comm, (Z.mul_comm (2 ^ 52)).
  rewrite Z.div_add_l by lia. rewrite (Z.div_small (x mod 2 ^ 52)); [lia|]. apply Z.mod_pos_bound. lia.
Qed.

Lemma mantissa_split : x mod 2 ^ 52 = (x mod 2 ^ 63) mod 2 ^ 52.
Proof using.
  change (2 ^ 63) with (2 ^ 52 * 2 ^ 11). rewrite Z.rem_mul_r by lia.
  rewrite (Z.mul_comm (2 ^ 52)), Z.mod_add by lia. by rewrite Z.mod_mod by lia.
Qed.

Lemma finite_below : CalcEval.is_finite x = (x mod 2 ^ 63 <? 2047 * 2 ^ 52).
Proof using. unfold CalcEval.is_finite. by rewrite abs_mod. Qed.

Lemma finite_not_nan : CalcEval.is_finite x = true -> is_nan64 x = false.
Proof using.
  rewrite finite_below. intros H%Z.ltb_lt. unfold is_nan64. change 0x7FFFFFFFFFFFFFFF with (Z.ones 63).
  rewrite Z.land_ones by lia. rewrite Z.gtb_ltb. apply Z.ltb_ge. lia.
Qed.

Lemma trunc_split : CalcEval.is_finite x = true -> trunc x = (if 2 ^ 63 <=? x then -1 else 1) * trunc_mag (x mod 2 ^ 63).
Proof using.
  rewrite finite_below. intros Hf%Z.ltb_lt. unfold trunc, F64.to_spec. rewrite exponent_split, mantissa_split.
  set (g := x mod 2 ^ 63) in *. assert (Hg : 0 <= g) by (apply Z.mod_pos_bound; lia). unfold trunc_mag.
  assert (He : 0 <= g / 2 ^ 52 < 2047) by (split; [apply Z.div_pos|apply Z.div_lt_upper_bound]; lia).
  assert (Hm : 0 <= g mod 2 ^ 52 < 2 ^ 52) by (apply Z.mod_pos_bound; lia).
  replace (g / 2 ^ 52 =? 0x7FF) with false by (symmetry; apply Z.eqb_neq; lia).
  destruct (g / 2 ^ 52 =? 0) eqn:E0; cbv beta iota zeta.
  - change (1 - 1075) with (-1074). change (0 <=? -1074) with false. change (- -1074) with 1074. cbv iota.
    destruct (g mod 2 ^ 52) as [|p|p] eqn:Em; [|rewrite Z.shiftr_div_pow2 by lia|lia].
    + rewrite Z.div_0_l by lia. lia.
    + change (0 <=? -1074) with false. change (- -1074) with 1074. cbv iota. destruct (2 ^ 63 <=? x); ring.
  - rewrite Z2Pos.id by lia. destruct (0 <=? g / 2 ^ 52 - 1075) eqn:E1.
    + rewrite Z.shiftl_mul_pow2 by lia. destruct (2 ^ 63 <=? x); ring.
    + apply Z.leb_gt in E1. rewrite Z.shiftr_div_pow2 by lia. destruct (2 ^ 63 <=? x); ring.
Qed.

Lemma as_int_trunc lo hi : lo <= 0 <= hi -> CalcEval.is_finite x = true -> CalcEval.as_int lo hi x = Z.max lo (Z.min (trunc x) hi).
Proof using.
  intros Hr Hf. unfold CalcEval.as_int, trunc. destruct (F64.to_spec x) as [s|s| |s m e] eqn:E; [lia| |lia|done].
  exfalso. revert E. unfold F64.to_spec. rewrite exponent_split. rewrite finite_below in Hf. apply Z.ltb_lt in Hf.
  replace (_ =? 0x7FF) with false; [destruct (_ =? 0); [destruct (x mod 2 ^ 52)|]; done|].
  symmetry. apply Z.eqb_neq. assert ((x mod 2 ^ 63) / 2 ^ 52 < 2047); [|lia]. apply Z.div_lt_upper_bound; lia.
Qed.

End Patterns.

Lemma trunc_mag_nonneg g : 0 <= trunc_mag g.
Proof.
  unfold trunc_mag. assert (Hm : 0 <= g mod 2 ^ 52 < 2 ^ 52) by (apply Z.mod_pos_bound; lia). cbv zeta.
  destruct (g / 2 ^ 52 =? 0); destruct (0 <=? _) eqn:E; try (apply Z.mul_nonneg_nonneg; [lia|apply Z.pow_nonneg; lia]);
    apply Z.leb_gt in E; (apply Z.div_pos; [lia|apply Z.pow_pos_nonneg; lia]).
Qed.

(** The magnitude reaches [2^k] exactly when the exponent does. *)
Lemma trunc_mag_below g k : 0 <= g -> 52 <= k -> g < (k + 1023) * 2 ^ 52 -> 0 <= trunc_mag g < 2 ^ k.
Proof.
  intros Hg Hk H. unfold trunc_mag. assert (Hm : 0 <= g mod 2 ^ 52 < 2 ^ 52) by (apply Z.mod_pos_bound; lia).
  assert (He : 0 <= g / 2 ^ 52 < k + 1023) by (split; [apply Z.div_pos|apply Z.div_lt_upper_bound]; lia).
  set (q := if g / 2 ^ 52 =? 0 then g mod 2 ^ 52 else 2 ^ 52 + g mod 2 ^ 52).
  assert (Hq : 0 <= q < 2 ^ 53) by (unfold q; destruct (_ =? 0); lia).
  set (e := (if g / 2 ^ 52 =? 0 then 1 else g / 2 ^ 52) - 1075).
  assert (e < k - 52) by (unfold e; destruct (_ =? 0); lia). cbv zeta.
  destruct (0 <=? e) eqn:E; [apply Z.leb_le in E|apply Z.leb_gt in E].
  - split; [apply Z.mul_nonneg_nonneg; lia|].
    apply Z.lt_le_trans with (2 ^ 53 * 2 ^ e); [apply Z.mul_lt_mono_pos_r; lia|].
    rewrite <- Z.pow_add_r by lia. apply Z.pow_le_mono_r; lia.
  - split; [apply Z.div_pos; lia|]. apply Z.div_lt_upper_bound; [lia|].
    apply Z.lt_le_trans with (2 ^ 53); [lia|]. rewrite <- Z.pow_add_r by lia. apply Z.pow_le_mono_r; lia.
Qed.

Lemma trunc_mag_above g k : 52 <= k -> (k + 1023) * 2 ^ 52 <= g -> 2 ^ k <= trunc_mag g.
Proof.
  intros Hk H. unfold trunc_mag. assert (Hm : 0 <= g mod 2 ^ 52 < 2 ^ 52) by (apply Z.mod_pos_bound; lia).
  assert (He : k + 1023 <= g / 2 ^ 52) by (apply Z.div_le_lower_bound; lia).
  replace (g / 2 ^ 52 =? 0) with false by (symmetry; apply Z.eqb_neq; lia). cbv zeta.
  replace (0 <=? g / 2 ^ 52 - 1075) with true by (symmetry; apply Z.leb_le; lia).
  apply Z.le_trans with (2 ^ 52 * 2 ^ (g / 2 ^ 52 - 1075)).
  - rewrite <- Z.pow_add_r by lia. apply Z.pow_le_mono_r; lia.
  - apply Z.mul_le_mono_nonneg_r; lia.
Qed.

(** One step past [2^k] the integer part has moved, as the last bit counts. *)
Lemma trunc_mag_past g k : 53 <= k -> (k + 1023) * 2 ^ 52 < g -> 2 ^ k < trunc_mag g.
Proof.
  intros Hk H. assert (Hm : 0 <= g mod 2 ^ 52 < 2 ^ 52) by (apply Z.mod_pos_bound; lia).
  assert (He : k + 1023 <= g / 2 ^ 52) by (apply Z.div_le_lower_bound; lia).
  destruct (decide (k + 1023 = g / 2 ^ 52)) as [E|E].
  - assert (Hpos : 0 < g mod 2 ^ 52). { pose proof (Z.div_mod g (2 ^ 52)). lia. }
    unfold trunc_mag. replace (g / 2 ^ 52 =? 0) with false by (symmetry; apply Z.eqb_neq; lia). cbv zeta.
    replace (0 <=? g / 2 ^ 52 - 1075) with true by (symmetry; apply Z.leb_le; lia).
    apply Z.le_lt_trans with (2 ^ 52 * 2 ^ (g / 2 ^ 52 - 1075)).
    + rewrite <- Z.pow_add_r by lia. apply Z.pow_le_mono_r; lia.
    + apply Z.mul_lt_mono_pos_r; lia.
  - apply Z.lt_le_trans with (2 ^ (k + 1)); [apply Z.pow_lt_mono_r; lia|]. apply trunc_mag_above; [lia|].
    pose proof (Z.div_mod g (2 ^ 52)). lia.
Qed.

Lemma try_from_in lo hi v : lo <= v <= hi -> try_from lo hi v = Some v.
Proof. intros H. unfold try_from. replace (_ && _) with true; [done|]. symmetry. apply andb_true_intro. split; apply Z.leb_le; lia. Qed.

Lemma try_from_out lo hi v : v < lo \/ hi < v -> try_from lo hi v = None.
Proof. intros H. unfold try_from. destruct (_ && _) eqn:E; [|done]. apply andb_prop in E as [?%Z.leb_le ?%Z.leb_le]. lia. Qed.

Lemma try_from_some lo hi v r : try_from lo hi v = Some r -> r = v /\ lo <= v <= hi.
Proof. unfold try_from. destruct (_ && _) eqn:E; [|done]. apply andb_prop in E as [?%Z.leb_le ?%Z.leb_le]. intros [= <-]. done. Qed.

(** The checked conversion takes exactly the floats whose integer part is an
    [i64]: the bounds are powers of two, so nothing lies between a bound and the
    next integer. *)
Lemma f64_to_i64_checked_spec x : 0 <= x < 2 ^ 64 ->
  f64_to_i64_checked x = if CalcEval.is_finite x then signed 64 (trunc x) else None.
Proof.
  intros Hx. unfold f64_to_i64_checked. destruct (CalcEval.is_finite x) eqn:Hf; [|done]. cbn [andb].
  rewrite (as_int_trunc x) by (done || lia). unfold le64, F64.lt64. rewrite (finite_not_nan x Hf), (key_split x Hx).
  change (is_nan64 MIN_I64) with false. change (is_nan64 LIMIT_I64) with false. cbn [negb andb].
  change (key 64 MIN_I64) with (- ((63 + 1023) * 2 ^ 52)). change (key 64 LIMIT_I64) with ((63 + 1023) * 2 ^ 52).
  unfold signed. change (64 - 1) with 63. rewrite (trunc_split x Hf). assert (Hg : 0 <= x mod 2 ^ 63) by (apply Z.mod_pos_bound; lia).
  set (g := x mod 2 ^ 63) in *. destruct (2 ^ 63 <=? x).
  - destruct (Z.lt_trichotomy g ((63 + 1023) * 2 ^ 52)) as [H|[H|H]].
    + pose proof (trunc_mag_below g 63 Hg). rewrite try_from_in by lia.
      replace (_ && _) with true by (symmetry; apply andb_true_intro; split; [apply Z.leb_le|apply Z.ltb_lt]; lia). f_equal. lia.
    + rewrite H. reflexivity.
    + pose proof (trunc_mag_past g 63). rewrite try_from_out by lia.
      replace (_ <=? _) with false by (symmetry; apply Z.leb_gt; lia). done.
  - destruct (Z.lt_ge_cases g ((63 + 1023) * 2 ^ 52)) as [H|H].
    + pose proof (trunc_mag_below g 63 Hg). rewrite try_from_in by lia.
      replace (_ && _) with true by (symmetry; apply andb_true_intro; split; [apply Z.leb_le|apply Z.ltb_lt]; lia). f_equal. lia.
    + pose proof (trunc_mag_above g 63). rewrite try_from_out by lia.
      replace (g <? _) with false by (symmetry; apply Z.ltb_ge; lia). by rewrite andb_false_r.
Qed.

(** Into [u64] a float below zero is refused, also when its integer part is 0. *)
Lemma f64_to_u64_checked_spec x : 0 <= x < 2 ^ 64 ->
  f64_to_u64_checked x = if CalcEval.is_finite x && (0 <=? key 64 x) then unsigned 64 (trunc x) else None.
Proof.
  intros Hx. unfold f64_to_u64_checked. destruct (CalcEval.is_finite x) eqn:Hf; [|done]. cbn [andb].
  rewrite (as_int_trunc x) by (done || lia). unfold le64, F64.lt64. rewrite (finite_not_nan x Hf).
  change (is_nan64 0) with false. change (is_nan64 LIMIT_U64) with false. cbn [negb andb].
  change (key 64 0) with 0. change (key 64 LIMIT_U64) with ((64 + 1023) * 2 ^ 52).
  destruct (0 <=? key 64 x) eqn:Hk; [|done]. apply Z.leb_le in Hk. cbn [andb]. revert Hk. rewrite (key_split x Hx), (trunc_split x Hf).
  assert (Hg : 0 <= x mod 2 ^ 63) by (apply Z.mod_pos_bound; lia). unfold unsigned. set (g := x mod 2 ^ 63) in *.
  destruct (2 ^ 63 <=? x); intros Hk.
  - replace g with 0 by lia. reflexivity.
  - destruct (Z.lt_ge_cases g ((64 + 1023) * 2 ^ 52)) as [H|H].
    + pose proof (trunc_mag_below g 64 Hg). rewrite try_from_in by lia.
      replace (_ <? _) with true by (symmetry; apply Z.ltb_lt; lia). f_equal. lia.
    + pose proof (trunc_mag_above g 64). rewrite try_from_out by lia.
      replace (g <? _) with false by (symmetry; apply Z.ltb_ge; lia). done.
Qed.

Lemma clamp_128 lo hi t : - 2 ^ 127 < lo -> hi < 2 ^ 127 - 1 ->
  try_from lo hi (Z.max (- 2 ^ 127) (Z.min t (2 ^ 127 - 1))) = try_from lo hi t.
Proof.
  intros. destruct (decide (lo <= t <= hi)).
  - rewrite !try_from_in by lia. f_equal. lia.
  - rewrite !try_from_out by lia. done.
Qed.

Lemma narrow lo hi lo' hi' t : lo' <= lo -> hi <= hi' -> try_from lo' hi' t ≫= try_from lo hi = try_from lo hi t.
Proof.
  intros. destruct (decide (lo' <= t <= hi')); [by rewrite try_from_in|].
  rewrite (try_from_out lo' hi'), try_from_out by lia. done.
Qed.


(** ** Widening and narrowing *)

Lemma widen_range x : 0 <= x < 2 ^ 32 -> 0 <= widen x < 2 ^ 64.
Proof.
  intros Hx. unfold widen. assert (He : 0 <= Z.shiftr x 23 mod 256 < 256) by (apply Z.mod_pos_bound; lia).
  assert (Hm : 0 <= x mod 2 ^ 23 < 2 ^ 23) by (apply Z.mod_pos_bound; lia). cbv zeta.
  destruct (_ =? 255) eqn:E1; [apply Z.eqb_eq in E1; destruct (x <? 2 ^ 31); lia|apply Z.eqb_neq in E1].
  destruct (_ =? 0) eqn:E2; [|apply Z.eqb_neq in E2; destruct (x <? 2 ^ 31); lia].
  destruct (x mod 2 ^ 23 =? 0) eqn:E3; [destruct (x <? 2 ^ 31); lia|apply Z.eqb_neq in E3].
  set (m := x mod 2 ^ 23) in *. destruct (Z.log2_spec m) as [L1 L2]; [lia|]. pose proof (Z.log2_nonneg m).
  assert (L3 : Z.log2 m < 23) by (apply Z.log2_lt_pow2; lia).
  assert (L4 : 0 <= Z.shiftl (m - 2 ^ Z.log2 m) (52 - Z.log2 m) < 2 ^ 52).
  { rewrite Z.shiftl_mul_pow2 by lia. split; [apply Z.mul_nonneg_nonneg; lia|].
    apply Z.lt_le_trans with (2 ^ Z.log2 m * 2 ^ (52 - Z.log2 m)); [apply Z.mul_lt_mono_pos_r; [lia|]|].
    - rewrite Z.pow_succ_r in L2 by lia. lia.
    - rewrite <- Z.pow_add_r by lia. apply Z.pow_le_mono_r; lia. }
  destruct (x <? 2 ^ 31); lia.
Qed.

(** *** An [f32] widened and cast back is itself *)

Lemma iter_pos_nat {A} (f : A -> A) p : forall x, SpecFloat.iter_pos f p x = Nat.iter (Pos.to_nat p) f x.
Proof.
  induction p as [p IH|p IH|]; intros x; cbn [SpecFloat.iter_pos]; [| |done]; rewrite !IH.
  - rewrite <- Nat.iter_add, <- Nat.iter_succ_r. f_equal. lia.
  - rewrite <- Nat.iter_add. f_equal. lia.
Qed.

Lemma shr_exact m n : Nat.iter n SpecFloat.shr_1 (SpecFloat.Build_shr_record (Zpos m * 2 ^ Z.of_nat n) false false)
  = SpecFloat.Build_shr_record (Zpos m) false false.
Proof.
  induction n as [|n IH]; [cbn; by rewrite Z.mul_1_r|]. rewrite Nat.iter_succ_r.
  replace (Zpos m * 2 ^ Z.of_nat (S n)) with (2 * (Zpos m * 2 ^ Z.of_nat n)) by (rewrite Nat2Z.inj_succ, Z.pow_succ_r by lia; ring).
  assert (0 < Zpos m * 2 ^ Z.of_nat n) by (apply Z.mul_pos_pos; lia).
  destruct (Zpos m * 2 ^ Z.of_nat n) as [|q|q] eqn:E; try lia. exact IH.
Qed.

Lemma digits_log2 m : Zpos (SpecFloat.digits2_pos m) = Z.log2 (Zpos m) + 1.
Proof.
  induction m as [m IH|m IH|]; cbn [SpecFloat.digits2_pos]; [| |done]; rewrite Pos2Z.inj_succ, IH.
  - change (Zpos m~1) with (2 * Zpos m + 1). rewrite Z.log2_succ_double by lia. lia.
  - change (Zpos m~0) with (2 * Zpos m). rewrite Z.log2_double by lia. lia.
Qed.

(** Rounding keeps a value that its format holds. *)
Lemma round_exact s m e m0 e0 :
  Zpos m = Zpos m0 * 2 ^ (e0 - e) -> e <= e0 <= 104 -> e0 = Z.max (Z.log2 (Zpos m) + 1 + e - 24) (-149) ->
  SpecFloat.binary_round 24 128 s m e = SpecFloat.S754_finite s m0 e0.
Proof.
  intros Hm He Hf. unfold SpecFloat.binary_round, SpecFloat.shl_align.
  assert (Hx : forall z, SpecFloat.fexp 24 128 z = Z.max (z - 24) (-149)) by done.
  rewrite digits_log2, Hx, <- Hf.
  assert (exists n, e0 - e = Z.of_nat n) as [n Hn] by (exists (Z.to_nat (e0 - e)); lia).
  assert (Hal : match e0 - e with Zneg d => (Pos.iter xO m d, e0) | _ => (m, e) end = (m, e)) by (rewrite Hn; by destruct n).
  rewrite Hal. unfold SpecFloat.binary_round_aux, SpecFloat.shr_fexp. cbn [SpecFloat.Zdigits2 SpecFloat.shr_record_of_loc].
  rewrite digits_log2, Hx, <- Hf.
  assert (Hshr : SpecFloat.shr (SpecFloat.Build_shr_record (Zpos m) false false) e (e0 - e) = (SpecFloat.Build_shr_record (Zpos m0) false false, e0)).
  { rewrite Hn. rewrite Hn in Hm. destruct n as [|n].
    - cbn [Z.of_nat] in *. rewrite Z.pow_0_r, Z.mul_1_r in Hm. injection Hm as ->. change (Z.of_nat 0) with 0 in *. unfold SpecFloat.shr. f_equal. lia.
    - change (SpecFloat.shr _ _ _) with (SpecFloat.iter_pos SpecFloat.shr_1 (Pos.of_succ_nat n) (SpecFloat.Build_shr_record (Zpos m) false false), e + Z.of_nat (S n)).
      rewrite iter_pos_nat, SuccNat2Pos.id_succ, Hm.
      rewrite shr_exact. f_equal. lia. }
  rewrite Hshr. cbn [SpecFloat.shr_m SpecFloat.loc_of_shr_record SpecFloat.round_nearest_even SpecFloat.Zdigits2].
  rewrite digits_log2, Hx.
  assert (Hl : Z.log2 (Zpos m) = Z.log2 (Zpos m0) + (e0 - e)) by (rewrite Hm, Z.log2_mul_pow2 by lia; lia).
  replace (Z.max (Z.log2 (Zpos m0) + 1 + e0 - 24) (-149) - e0) with 0 by lia. cbn [SpecFloat.shr SpecFloat.shr_m].
  replace (e0 <=? 128 - 24) with true by (symmetry; apply Z.leb_le; lia). done.
Qed.

Lemma to_spec_parts (s : bool) E M : 0 <= E < 2047 -> 0 <= M < 2 ^ 52 -> 0 < E ->
  F64.to_spec ((if s then 2 ^ 63 else 0) + E * 2 ^ 52 + M) = SpecFloat.S754_finite s (Z.to_pos (2 ^ 52 + M)) (E - 1075).
Proof.
  intros HE HM H0. set (x := _ + E * 2 ^ 52 + M). unfold F64.to_spec.
  assert (Hx : x = (if s then 2 ^ 63 else 0) + (E * 2 ^ 52 + M)) by (unfold x; lia).
  assert (x mod 2 ^ 63 = E * 2 ^ 52 + M) as Hg.
  { symmetry. apply (Z.mod_unique_pos x (2 ^ 63) (if s then 1 else 0)); [lia|]. rewrite Hx. destruct s; lia. }
  rewrite (exponent_split x), (mantissa_split x), Hg.
  rewrite Z.div_add_l, (Z.div_small M), Z.add_0_r by lia. rewrite Z.add_comm, Z.mod_add, Z.mod_small by lia.
  replace (2 ^ 63 <=? x) with s by (symmetry; rewrite Hx; destruct s; [apply Z.leb_le|apply Z.leb_gt]; lia).
  replace (E =? 0x7FF) with false by (symmetry; apply Z.eqb_neq; lia).
  replace (E =? 0) with false by (symmetry; apply Z.eqb_neq; lia). done.
Qed.

(** The three parts of an [f32] pattern. *)
Lemma split32 x : 0 <= x < 2 ^ 32 ->
  exists (s : bool) e m, x = (if s then 2 ^ 31 else 0) + e * 2 ^ 23 + m /\ 0 <= e < 256 /\ 0 <= m < 2 ^ 23 /\
    (x <? 2 ^ 31) = negb s /\ Z.shiftr x 23 mod 256 = e /\ x mod 2 ^ 23 = m.
Proof.
  intros Hx. exists (negb (x <? 2 ^ 31)), (Z.shiftr x 23 mod 256), (x mod 2 ^ 23). rewrite Z.shiftr_div_pow2 by lia.
  pose proof (Z.div_mod x (2 ^ 23)). pose proof (Z.div_mod (x / 2 ^ 23) 256). pose proof (Z.mod_pos_bound x (2 ^ 23)).
  pose proof (Z.mod_pos_bound (x / 2 ^ 23) 256). assert (x / 2 ^ 23 / 256 = if x <? 2 ^ 31 then 0 else 1).
  { rewrite Z.div_div by lia. change (2 ^ 23 * 256) with (2 ^ 31). destruct (x <? 2 ^ 31) eqn:E; [apply Z.ltb_lt in E|apply Z.ltb_ge in E].
    - apply Z.div_small. lia.
    - symmetry. apply (Z.div_unique_pos x (2 ^ 31) 1 (x - 2 ^ 31)); lia. }
  rewrite negb_involutive. repeat split; try lia; try done. destruct (x <? 2 ^ 31); cbn [negb] in *; lia.
Qed.

Lemma to_f32_finite s E M m0 e0 :
  0 < E < 2047 -> 0 <= M < 2 ^ 52 -> 2 ^ 52 + M = Zpos m0 * 2 ^ (e0 - (E - 1075)) -> E - 1075 <= e0 <= 104 ->
  e0 = Z.max (E - 1046) (-149) -> Zpos m0 < 2 ^ 24 ->
  PutEncode.to_f32 ((if s : bool then 2 ^ 63 else 0) + E * 2 ^ 52 + M)
  = (if s then 2 ^ 31 else 0) + (if Zpos m0 <? 2 ^ 23 then Zpos m0 else (e0 + 150) * 2 ^ 23 + (Zpos m0 - 2 ^ 23)).
Proof.
  intros HE HM Hm He Hf H24. unfold PutEncode.to_f32. rewrite to_spec_parts by lia.
  assert (Hp : Zpos (Z.to_pos (2 ^ 52 + M)) = 2 ^ 52 + M) by (apply Z2Pos.id; lia).
  assert (Hl : Z.log2 (2 ^ 52 + M) = 52) by (apply Z.log2_unique; lia).
  assert (Hn : SpecFloat.binary_normalize 24 128 (if s then Zneg (Z.to_pos (2 ^ 52 + M)) else Zpos (Z.to_pos (2 ^ 52 + M))) (E - 1075) s
          = SpecFloat.S754_finite s m0 e0).
  { unfold SpecFloat.binary_normalize. destruct s; (apply round_exact; rewrite ?Hp; [done|done|rewrite Hl; lia]). }
  rewrite Hn. apply Z.mod_small. assert (-149 <= e0) by lia.
  destruct (Zpos m0 <? 2 ^ 23) eqn:E1; [apply Z.ltb_lt in E1|apply Z.ltb_ge in E1]; destruct s; lia.
Qed.

Lemma to_f32_widen x : 0 <= x < 2 ^ 32 -> is_nan32 x = false -> PutEncode.to_f32 (widen x) = x.
Proof.
  intros Hx Hn. destruct (split32 x Hx) as (s & e & m & Hs & He & Hm & H1 & H2 & H3). unfold widen. rewrite H1, H2, H3. cbv zeta.
  replace (if negb s then 0 else 2 ^ 63) with (if s then 2 ^ 63 else 0) by (by destruct s).
  destruct (Z.eqb_spec e 255) as [->|E1].
  - assert (m = 0) as ->; [|rewrite Hs; by destruct s]. unfold is_nan32 in Hn. change 0x7FFFFFFF with (Z.ones 31) in Hn.
    rewrite Z.land_ones in Hn by lia. rewrite Z.gtb_ltb in Hn. apply Z.ltb_ge in Hn.
    assert (x mod 2 ^ 31 = 255 * 2 ^ 23 + m); [|lia]. symmetry.
    apply (Z.mod_unique_pos x (2 ^ 31) (if s then 1 else 0)); [lia|]. destruct s; lia.
  - destruct (Z.eqb_spec e 0) as [->|E2]; [destruct (Z.eqb_spec m 0) as [->|E3]|].
    + rewrite Hs. by destruct s.
    + destruct (Z.log2_spec m) as [L1 L2]; [lia|]. assert (L3 : 0 <= Z.log2 m < 23) by (split; [apply Z.log2_nonneg|apply Z.log2_lt_pow2; lia]).
      rewrite Z.pow_succ_r in L2 by lia. rewrite Z.shiftl_mul_pow2 by lia. set (l := Z.log2 m) in *.
      assert (H52 : 2 ^ 52 = 2 ^ l * 2 ^ (52 - l)) by (rewrite <- Z.pow_add_r by lia; f_equal; lia).
      assert (0 < 2 ^ (52 - l)) by (apply Z.pow_pos_nonneg; lia).
      rewrite (to_f32_finite s (l - 149 + 1023) ((m - 2 ^ l) * 2 ^ (52 - l)) (Z.to_pos m) (-149)); rewrite ?Z2Pos.id by lia; try lia.
      * replace (m <? 2 ^ 23) with true by (symmetry; apply Z.ltb_lt; lia). lia.
      * split; [apply Z.mul_nonneg_nonneg; lia|]. rewrite H52. apply Z.mul_lt_mono_pos_r; lia.
      * replace (-149 - (l - 149 + 1023 - 1075)) with (52 - l) by lia. rewrite H52. ring.
    + rewrite (to_f32_finite s (e - 127 + 1023) (m * 2 ^ 29) (Z.to_pos (2 ^ 23 + m)) (e - 150)); rewrite ?Z2Pos.id by lia; try lia.
      * replace (2 ^ 23 + m <? 2 ^ 23) with false by (symmetry; apply Z.ltb_ge; lia). destruct s; lia.
      * replace (e - 150 - (e - 127 + 1023 - 1075)) with 29 by lia. lia.
Qed.

Lemma key_zero w x : 0 < w -> 0 <= x < 2 ^ w -> (key w x =? 0) = (x =? 0) || (x =? 2 ^ (w - 1)).
Proof.
  intros Hw Hx. pose proof (Z.pow_pos_nonneg 2 (w - 1)). assert (2 ^ w = 2 * 2 ^ (w - 1)) by (rewrite <- Z.pow_succ_r by lia; f_equal; lia). unfold key.
  destruct (x <? 2 ^ (w - 1)) eqn:E; [apply Z.ltb_lt in E|apply Z.ltb_ge in E].
  - rewrite (proj2 (Z.eqb_neq x (2 ^ (w - 1)))) by lia. by rewrite orb_false_r.
  - destruct (Z.eqb_spec x (2 ^ (w - 1))); destruct (Z.eqb_spec (- (x - 2 ^ (w - 1))) 0); destruct (Z.eqb_spec x 0); try done; lia.
Qed.

Lemma eq_zero32 x : 0 <= x < 2 ^ 32 -> eq32 x 0 = (key 32 x =? 0).
Proof.
  intros Hx. unfold eq32. change (is_nan32 0) with false. change (key 32 0) with 0. destruct (is_nan32 x) eqn:E; [|done].
  symmetry. rewrite key_zero by lia. destruct (Z.eqb_spec x 0) as [->|]; [done|]. destruct (Z.eqb_spec x (2 ^ (32 - 1))) as [->|]; done.
Qed.

Lemma eq_zero64 x : 0 <= x < 2 ^ 64 -> eq64 x 0 = (key 64 x =? 0).
Proof.
  intros Hx. unfold eq64. change (is_nan64 0) with false. change (key 64 0) with 0. destruct (is_nan64 x) eqn:E; [|done].
  symmetry. rewrite key_zero by lia. destruct (Z.eqb_spec x 0) as [->|]; [done|]. destruct (Z.eqb_spec x (2 ^ (64 - 1))) as [->|]; done.
Qed.

(** Widening keeps zeros and only them. *)
Lemma eq_zero_widen x : 0 <= x < 2 ^ 32 -> eq64 (widen x) 0 = eq32 x 0.
Proof.
  intros Hx. pose proof (widen_range x Hx) as Hr. rewrite eq_zero64, eq_zero32 by done. rewrite !key_zero by lia.
  change (32 - 1) with 31. change (64 - 1) with 63. clear Hr. unfold widen. rewrite Z.shiftr_div_pow2 by lia.
  assert (Hd : x = 2 ^ 31 * (x / 2 ^ 31) + 2 ^ 23 * (x / 2 ^ 23 mod 256) + x mod 2 ^ 23).
  { pose proof (Z.div_mod x (2 ^ 23)). pose proof (Z.div_mod (x / 2 ^ 23) 256). pose proof (Z.div_div x (2 ^ 23) 256).
    change (2 ^ 23 * 256) with (2 ^ 31) in *. lia. }
  assert (Hh : 0 <= x / 2 ^ 31 < 2) by (split; [apply Z.div_pos|apply Z.div_lt_upper_bound]; lia).
  assert (He : 0 <= x / 2 ^ 23 mod 256 < 256) by (apply Z.mod_pos_bound; lia).
  assert (Hm : 0 <= x mod 2 ^ 23 < 2 ^ 23) by (apply Z.mod_pos_bound; lia).
  set (e := x / 2 ^ 23 mod 256) in *. set (m := x mod 2 ^ 23) in *. set (h := x / 2 ^ 31) in *. cbv zeta.
  assert (Hz : (x =? 0) || (x =? 2 ^ 31) = (e =? 0) && (m =? 0)).
  { destruct (Z.eqb_spec x 0), (Z.eqb_spec x (2 ^ 31)), (Z.eqb_spec e 0), (Z.eqb_spec m 0); try done; exfalso; lia. }
  rewrite Hz. assert (Hs : (if x <? 2 ^ 31 then 0 else 2 ^ 63) = 0 \/ (if x <? 2 ^ 31 then 0 else 2 ^ 63) = 2 ^ 63) by (destruct (x <? 2 ^ 31); lia).
  set (s := if x <? 2 ^ 31 then 0 else 2 ^ 63) in *.
  assert (Hn : forall y, 0 < y < 2 ^ 63 -> (s + y =? 0) || (s + y =? 2 ^ 63) = false).
  { intros y Hy. destruct Hs as [-> | ->]; apply orb_false_intro; apply Z.eqb_neq; lia. }
  destruct (Z.eqb_spec e 255) as [->|]; [rewrite <- Z.add_assoc, Hn; [done|lia]|].
  destruct (Z.eqb_spec e 0) as [->|]; [|rewrite <- Z.add_assoc, Hn; [done|lia]].
  destruct (Z.eqb_spec m 0) as [->|]; [destruct Hs as [-> | ->]; done|].
  destruct (Z.log2_spec m) as [L1 L2]; [lia|]. assert (L3 : 0 <= Z.log2 m < 23) by (split; [apply Z.log2_nonneg|apply Z.log2_lt_pow2; lia]).
  rewrite <- Z.add_assoc, Hn; [done|]. rewrite Z.shiftl_mul_pow2 by lia.
  assert (0 <= (m - 2 ^ Z.log2 m) * 2 ^ (52 - Z.log2 m)) by (apply Z.mul_nonneg_nonneg; lia).
  assert ((m - 2 ^ Z.log2 m) * 2 ^ (52 - Z.log2 m) < 2 ^ Z.log2 m * 2 ^ (52 - Z.log2 m)).
  { apply Z.mul_lt_mono_pos_r; [lia|]. rewrite Z.pow_succ_r in L2 by lia. lia. }
  rewrite <- Z.pow_add_r in * by lia. replace (Z.log2 m + (52 - Z.log2 m)) with 52 in * by lia. lia.
Qed.

End Convert.
