(* ===== verification/JsonNumber.v ===== *)
(** * What a JSON number stands for

    The numbers of a PUT ([json_to_int], [json_to_uint] and [json_to_float] of
    [spvirit-client/src/put_encode.rs]) against the integers they denote.  An
    integer of the JSON text is itself; a fraction or an exponent makes it a
    double, whose integer part is taken exactly, in unbounded integers, when what
    is left is at most 2^-52, and then brought into the 64 bits of the target.
    [fract_spec] relates the code's floating-point test, a subtraction rounded to
    a double and compared with [f64::EPSILON], to the remainder of an integer
    division. *)

From Stdlib Require Import ZArith Floats.SpecFloat.
From stdpp Require Import gmap.
From S2P Require Import Prelude Utf8 Wire PvdTypes PvdEncode PvdDecode PvdSafety PvdRoundtrip NtTypes F64 Text Calc CalcParse CalcEval PutEncode Convert.

Local Open Scope Z_scope.

Module JsonNumber.
Import PvdRoundtrip PutEncode.

(** ** Meaning *)

(** The integer a number is written as. *)
Definition integer (n : Number) : option Z := match as_i64 n with Some i => Some i | None => as_u64 n end.

(** The integer part of a finite double, when the rest is at most 2^-52. *)
Definition whole (f : Z) : option Z :=
  match F64.to_spec f with
  | S754_zero _ => Some 0
  | S754_finite s m e =>
    let sign (q : Z) := if s then - q else q in
    if 0 <=? e then Some (sign (Zpos m * 2 ^ e))
    else if 2 ^ (- e) <? Zpos m mod 2 ^ (- e) * 2 ^ 52 then None
    else Some (sign (Zpos m / 2 ^ (- e)))
  | _ => None
  end.

Definition negative (f : Z) : bool := match F64.to_spec f with S754_finite s _ _ => s | _ => false end.

(** The nearest integer of a range. *)
Definition clamp (lo hi v : Z) : Z := Z.max lo (Z.min v hi).

(** A number within a range. *)
Definition within (lo hi : Z) (r : option Z) : option Z :=
  match r with Some v => if (v <? lo) || (hi <? v) then None else Some v | None => None end.

(** A signed and an unsigned integer: one written as an integer must fit 64 bits,
    a double is brought into them. *)
Definition put_integer (v : Value) : option Z :=
  match v with
  | Num n =>
    match integer n with
    | Some i => within i64_min i64_max (Some i)
    | None => clamp i64_min i64_max <$> (as_f64 n ≫= whole)
    end
  | Str s => parse_signed i64_min i64_max s
  | _ => None
  end.

Definition put_natural (v : Value) : option Z :=
  match v with
  | Num n =>
    match integer n with
    | Some i => within 0 u64_max (Some i)
    | None => clamp 0 u64_max <$> (as_f64 n ≫= fun f => if negative f then None else whole f)
    end
  | Str s => parse_unsigned u64_max s
  | _ => None
  end.

(** The pattern of a double. *)
Definition put_double (v : Value) : option Z :=
  match v with
  | Num n => as_f64 n
  | Str s => (fun f => f mod 2 ^ 64) <$> Text.parse_f64 s
  | _ => None
  end.

(** What the JSON library promises of a number: the integers have 64 bits and
    agree, and a double is finite. *)
Definition finite (f : Z) : bool := match F64.to_spec f with S754_zero _ | S754_finite _ _ _ => true | _ => false end.

Definition number_ok (n : Number) : bool :=
  match as_i64 n with Some i => in_s 64 i | None => true end &&
  match as_u64 n with Some u => in_u 64 u | None => true end &&
  match as_i64 n, as_u64 n with Some i, Some u => i =? u | _, _ => true end &&
  match as_f64 n with Some f => in_u 64 f && finite f | None => true end.

(** ** The fraction of a double *)

Lemma iter_double m d : Zpos (Pos.iter xO m d) = Zpos m * 2 ^ Zpos d.
Proof.
  induction d as [|d IH] using Pos.peano_ind; [cbn; lia|]. rewrite Pos.iter_succ, Pos2Z.inj_succ, Z.pow_succ_r by lia.
  rewrite Pos2Z.inj_xO, IH. lia.
Qed.

(** A mantissa of at most 53 bits is kept as it is, its exponent lowered. *)
Lemma round_fits s r e : Z.log2 (Zpos r) < 53 -> -1074 <= e <= 971 ->
  exists m0 e0, binary_round 53 1024 s r e = S754_finite s m0 e0 /\ Zpos m0 = Zpos r * 2 ^ (e - e0) /\ -1074 <= e0 <= e /\
    Zpos m0 < 2 ^ 53 /\ (2 ^ 52 <= Zpos m0 \/ e0 = -1074).
Proof.
  intros Hr He. unfold binary_round, shl_align.
  assert (Hx : forall z, fexp 53 1024 z = Z.max (z - 53) (-1074)) by done.
  rewrite Convert.digits_log2, Hx. set (e0 := Z.max (Z.log2 (Zpos r) + 1 + e - 53) (-1074)).
  assert (H0 : -1074 <= e0 <= e) by (unfold e0; lia).
  assert (exists m0, match e0 - e with Zneg d => (Pos.iter xO r d, e0) | _ => (r, e) end = (m0, e0) /\ Zpos m0 = Zpos r * 2 ^ (e - e0)) as (m0 & Hal & Hm).
  { destruct (e0 - e) as [|d|d] eqn:Ed; try lia.
    - exists r. replace (e - e0) with 0 by lia. split; [f_equal; lia|lia].
    - eexists. split; [reflexivity|]. rewrite iter_double. by replace (e - e0) with (Zpos d) by lia. }
  rewrite Hal. assert (Hl : Z.log2 (Zpos m0) = Z.log2 (Zpos r) + (e - e0)) by (rewrite Hm, Z.log2_mul_pow2 by lia; lia).
  exists m0, e0. split; [|split; [done|split; [done|]]].
  - unfold binary_round_aux, shr_fexp. cbn [Zdigits2 shr_record_of_loc]. rewrite Convert.digits_log2, Hx.
    replace (Z.max (Z.log2 (Zpos m0) + 1 + e0 - 53) (-1074) - e0) with 0 by lia. cbn [shr shr_m loc_of_shr_record round_nearest_even Zdigits2 shr_record_of_loc].
    rewrite Convert.digits_log2, Hx. replace (Z.max (Z.log2 (Zpos m0) + 1 + e0 - 53) (-1074) - e0) with 0 by lia. cbn [shr shr_m].
    replace (e0 <=? 1024 - 53) with true by (symmetry; apply Z.leb_le; lia). done.
  - pose proof (Z.log2_spec (Zpos m0) ltac:(lia)) as [H1 H2]. split.
    + apply (Z.log2_lt_pow2 (Zpos m0) 53); lia.
    + destruct (decide (e0 = -1074)); [by right|]. left. apply (Z.log2_le_pow2 (Zpos m0) 52); lia.
Qed.

Lemma not_nan x : 0 <= x <= 0x7FF0000000000000 -> Float.is_nan64 x = false.
Proof.
  intros H. unfold Float.is_nan64. change 0x7FFFFFFFFFFFFFFF with (Z.ones 63). rewrite Z.land_ones, Z.mod_small by lia.
  rewrite Z.gtb_ltb. apply Z.ltb_ge. lia.
Qed.

Lemma key_positive x : 0 <= x < 2 ^ 63 -> Float.key 64 x = x.
Proof. intros H. unfold Float.key. change (2 ^ (64 - 1)) with (2 ^ 63). by rewrite (proj2 (Z.ltb_lt _ _)) by lia. Qed.

(** The comparison with [f64::EPSILON], which is 2^-52. *)
Lemma above_epsilon s m e : -1074 <= e <= 0 -> Zpos m < 2 ^ 53 -> (2 ^ 52 <= Zpos m \/ e = -1074) ->
  F64.lt64 EPSILON (F64.abs (F64.of_spec (S754_finite s m e))) = (2 ^ (- e) <? Zpos m * 2 ^ 52).
Proof.
  intros He Hm Hc. cbn [F64.of_spec]. set (p := if Zpos m <? 2 ^ 52 then _ else _).
  assert (Hp : 0 <= p < 0x7FF0000000000000).
  { unfold p. destruct (Z.ltb_spec (Zpos m) (2 ^ 52)); lia. }
  assert (Ha : F64.abs ((if s then 2 ^ 63 else 0) + p) = p).
  { rewrite Convert.abs_mod. symmetry. apply (Z.mod_unique_pos _ (2 ^ 63) (if s then 1 else 0)); [lia|]. destruct s; lia. }
  rewrite Ha. unfold F64.lt64. rewrite !not_nan by (unfold EPSILON; lia). cbn [negb andb].
  rewrite !key_positive by (unfold EPSILON; lia). unfold EPSILON, p. clear Ha Hp p.
  destruct (Z.ltb_spec (Zpos m) (2 ^ 52)) as [Hs|Hs].
  - assert (e = -1074) as -> by lia. rewrite (proj2 (Z.ltb_ge _ _)) by lia. symmetry. apply Z.ltb_ge.
    change (2 ^ (- -1074)) with (2 ^ 970 * 2 ^ 104). assert (2 ^ 104 <= 2 ^ 970 * 2 ^ 104) by (vm_compute; discriminate). lia.
  - destruct (Z.lt_trichotomy e (-104)) as [Hlt|[->|Hgt]].
    + rewrite (proj2 (Z.ltb_ge _ _)) by lia. symmetry. apply Z.ltb_ge. transitivity (2 ^ 105); [lia|]. apply Z.pow_le_mono_r; lia.
    + change (2 ^ (- -104)) with (2 ^ 104). destruct (Z.ltb_spec (Zpos m * 2 ^ 52) (2 ^ 104 + 1)); [rewrite !(proj2 (Z.ltb_ge _ _)) by lia|rewrite !(proj2 (Z.ltb_lt _ _)) by lia]; done.
    + rewrite (proj2 (Z.ltb_lt _ _)) by lia. symmetry. apply Z.ltb_lt. apply Z.le_lt_trans with (2 ^ 103); [apply Z.pow_le_mono_r; lia|lia].
Qed.

(** The parts of a finite pattern, and its sign as the code tests it. *)
Lemma to_spec_finite f s m e : 0 <= f < 2 ^ 64 -> F64.to_spec f = S754_finite s m e ->
  Zpos m < 2 ^ 53 /\ -1074 <= e <= 971 /\ (2 ^ 52 <= Zpos m \/ e = -1074) /\ F64.lt64 f 0 = s.
Proof.
  intros Hf. unfold F64.to_spec. rewrite Convert.exponent_split, Convert.mantissa_split. set (g := f mod 2 ^ 63).
  assert (Hg : 0 <= g < 2 ^ 63) by (apply Z.mod_pos_bound; lia). pose proof (Z.div_mod g (2 ^ 52) ltac:(lia)).
  pose proof (Z.mod_pos_bound g (2 ^ 52) ltac:(lia)). set (E := g / 2 ^ 52) in *. set (M := g mod 2 ^ 52) in *.
  assert (Hs : f = g + (if 2 ^ 63 <=? f then 2 ^ 63 else 0)).
  { pose proof (Z.div_mod f (2 ^ 63) ltac:(lia)). fold g in H1. assert (0 <= f / 2 ^ 63 < 2) by (split; [apply Z.div_pos|apply Z.div_lt_upper_bound]; lia).
    destruct (Z.leb_spec (2 ^ 63) f); nia. }
  assert (Hlt : 0 < g -> E <> 0x7FF -> F64.lt64 f 0 = (2 ^ 63 <=? f)).
  { intros H1 H2. unfold F64.lt64. change (Float.is_nan64 0) with false. unfold Float.is_nan64 at 1. change 0x7FFFFFFFFFFFFFFF with (Z.ones 63).
    rewrite Z.land_ones, Z.gtb_ltb by lia. fold g. rewrite (proj2 (Z.ltb_ge _ g)) by nia. cbn [negb andb]. change (Float.key 64 0) with 0. unfold Float.key.
    change (2 ^ (64 - 1)) with (2 ^ 63). destruct (Z.leb_spec (2 ^ 63) f), (Z.ltb_spec f (2 ^ 63)); lia. }
  destruct (Z.eqb_spec E 0x7FF); [destruct (M =? 0); done|]. destruct (Z.eqb_spec E 0) as [HE|HE].
  - destruct M as [|p|] eqn:EM; try done. intros [= <- <- <-]. rewrite Hlt by lia. repeat split; lia.
  - intros [= <- <- <-]. rewrite Z2Pos.id by lia. rewrite Hlt by nia. repeat split; try lia; nia.
Qed.

(** The integer part of a double below 2^53 that has a fraction, as a double. *)
Lemma trunc_spec f s m e : 0 <= f < 2 ^ 64 -> F64.to_spec f = S754_finite s m e -> e < 0 ->
  let q := Zpos m / 2 ^ (- e) in
  F64.to_spec (CalcEval.round_to_int (F64.lt64 f 0) f) = match q with Zpos _ => S754_finite s (Z.to_pos (q * 2 ^ (- e))) e | _ => S754_zero s end.
Proof.
  intros Hf Hx He q. destruct (to_spec_finite f s m e Hf Hx) as (Hm & Hr & Hc & ->). unfold CalcEval.round_to_int. rewrite Hx.
  rewrite (proj2 (Z.leb_gt _ _)) by lia. rewrite Bool.eqb_reflx, orb_true_r, Z.shiftr_div_pow2 by lia. fold q. cbv zeta.
  assert (Hp : 0 < 2 ^ (- e)) by (apply Z.pow_pos_nonneg; lia). assert (Hq : 0 <= q) by (apply Z.div_pos; lia).
  destruct (Z.eqb_spec q 0) as [->|Hne]; [by destruct s|].
  assert (He53 : - e < 53).
  { apply (Z.pow_lt_mono_r_iff 2); [lia|lia|]. apply Z.le_lt_trans with (Zpos m); [|done].
    destruct (Z.le_gt_cases (2 ^ (- e)) (Zpos m)); [done|]. exfalso. apply Hne. apply Z.div_small. lia. }
  assert (Hm52 : Z.log2 (Zpos m) = 52) by (apply Z.log2_unique; lia).
  assert (Hl : Z.log2 q = 52 + e) by (unfold q; rewrite <- Z.shiftr_div_pow2, Z.log2_shiftr by lia; lia).
  pose proof (Z.log2_spec q ltac:(lia)) as [H1 H2]. rewrite Hl in *.
  assert (Hb : 2 ^ 52 <= q * 2 ^ (- e) < 2 ^ 53).
  { assert (2 ^ 52 = 2 ^ (52 + e) * 2 ^ (- e)) as -> by (rewrite <- Z.pow_add_r by lia; f_equal; lia).
    assert (2 ^ 53 = 2 ^ Z.succ (52 + e) * 2 ^ (- e)) as -> by (rewrite <- Z.pow_add_r by lia; f_equal; lia).
    split; [apply Z.mul_le_mono_nonneg_r|apply Z.mul_lt_mono_pos_r]; lia. }
  assert (Ho : Float.of_Z (if s then - q else q) = (if s then 2 ^ 63 else 0) + (e + 1075) * 2 ^ 52 + (q * 2 ^ (- e) - 2 ^ 52)).
  { unfold Float.of_Z. replace (Z.abs (if s then - q else q)) with q by (destruct s; lia). rewrite Hl.
    replace ((if s then - q else q) =? 0) with false by (destruct s; lia). replace ((if s then - q else q) <? 0) with s by (destruct s; lia).
    cbv zeta. rewrite (proj2 (Z.leb_le _ _)), Z.shiftl_mul_pow2 by lia. replace (52 - (52 + e)) with (- e) by lia. lia. }
  rewrite Ho, Convert.to_spec_parts by lia. destruct q as [|q'|q'] eqn:Eq; try lia. do 2 f_equal; lia.
Qed.

(** The remainder of the integer part, as the code subtracts it. *)
Lemma fract_finite f s m e : 0 <= f < 2 ^ 64 -> F64.to_spec f = S754_finite s m e -> e < 0 ->
  F64.lt64 EPSILON (F64.abs (fract f)) = (2 ^ (- e) <? Zpos m mod 2 ^ (- e) * 2 ^ 52).
Proof.
  intros Hf Hx He. destruct (to_spec_finite f s m e Hf Hx) as (Hm & Hr & Hc & _). unfold fract, F64.sub. rewrite (trunc_spec f s m e Hf Hx He), Hx.
  assert (Hp : 0 < 2 ^ (- e)) by (apply Z.pow_pos_nonneg; lia). pose proof (Z.div_mod (Zpos m) (2 ^ (- e)) ltac:(lia)) as Hdm.
  pose proof (Z.mod_pos_bound (Zpos m) (2 ^ (- e)) Hp) as Hb. set (r := Zpos m mod 2 ^ (- e)) in *. cbv zeta.
  assert (0 <= Zpos m / 2 ^ (- e)) by (apply Z.div_pos; lia).
  destruct (Zpos m / 2 ^ (- e)) as [|q|q] eqn:Eq; try lia.
  - replace r with (Zpos m) by lia. by apply above_epsilon; lia.
  - cbn [SFsub]. rewrite Z.min_id. unfold shl_align. rewrite Z.sub_diag. cbn [fst]. rewrite Z2Pos.id by lia.
    replace (cond_Zopp s (Zpos m) - cond_Zopp s (Zpos q * 2 ^ (- e))) with (if s then - r else r) by (destruct s; cbn; lia).
    clearbody r. destruct r as [|r|r]; try lia.
    + replace (if s then - 0 else 0) with 0 by (by destruct s). symmetry. apply Z.ltb_ge. lia.
    + assert (Hn : binary_normalize 53 1024 (if s then - Zpos r else Zpos r) e false = binary_round 53 1024 s r e) by (by destruct s).
      rewrite Hn. destruct (round_fits s r e) as (m0 & e0 & -> & H0 & H1 & H2 & H3); [apply Z.log2_lt_pow2; lia|lia|].
      rewrite above_epsilon, H0 by lia. replace (- e0) with (- e + (e - e0)) by lia. rewrite Z.pow_add_r by lia.
      assert (0 < 2 ^ (e - e0)) by (apply Z.pow_pos_nonneg; lia). rewrite <- Z.mul_assoc, (Z.mul_comm (2 ^ (e - e0))), Z.mul_assoc.
      destruct (Z.ltb_spec (2 ^ (- e)) (Zpos r * 2 ^ 52)); [apply Z.ltb_lt|apply Z.ltb_ge]; nia.
Qed.

Lemma fract_whole f : 0 <= f < 2 ^ 64 -> match F64.to_spec f with S754_finite _ _ e => 0 <= e | _ => True end ->
  F64.lt64 EPSILON (F64.abs (fract f)) = false.
Proof.
  intros Hf He. unfold fract, F64.sub, CalcEval.round_to_int. destruct (F64.to_spec f) as [s|s| |s m e] eqn:Hx; rewrite ?(proj2 (Z.leb_le 0 e) He), ?Hx; try (by destruct s); [done|].
  cbn [SFsub]. by rewrite Z.sub_diag.
Qed.

(** The code's test for a fraction and its conversion find the integer part. *)
Lemma fract_spec f : 0 <= f < 2 ^ 64 -> finite f = true ->
  match whole f with
  | None => F64.lt64 EPSILON (F64.abs (fract f)) = true
  | Some v => F64.lt64 EPSILON (F64.abs (fract f)) = false /\ forall lo hi, lo <= 0 <= hi -> CalcEval.as_int lo hi f = clamp lo hi v
  end.
Proof.
  intros Hf Hfin. unfold whole, finite, CalcEval.as_int in *. destruct (F64.to_spec f) as [s|s| |s m e] eqn:Hx; try done.
  - split; [apply fract_whole; [done|by rewrite Hx]|]. intros. unfold clamp. lia.
  - destruct (Z.leb_spec 0 e) as [He|He].
    + split; [apply fract_whole; [done|by rewrite Hx]|]. intros. by rewrite Z.shiftl_mul_pow2.
    + rewrite (fract_finite f s m e Hf Hx He). destruct (_ <? _); [done|]. split; [done|]. intros. by rewrite Z.shiftr_div_pow2 by lia.
Qed.

(** ** The conversions *)

Lemma in_s_64 i : in_s 64 i = true <-> i64_min <= i <= i64_max.
Proof. unfold in_s, i64_min, i64_max. change (2 ^ (64 - 1)) with (2 ^ 63). rewrite andb_true_iff, Z.leb_le, Z.ltb_lt. lia. Qed.

Lemma in_u_64 i : in_u 64 i = true <-> 0 <= i <= u64_max.
Proof. unfold in_u, u64_max. rewrite andb_true_iff, Z.leb_le, Z.ltb_lt. lia. Qed.

Lemma within_in lo hi v : lo <= v <= hi -> within lo hi (Some v) = Some v.
Proof. intros. unfold within. by rewrite !(proj2 (Z.ltb_ge _ _)) by lia. Qed.

(** [r] is what [o] says, or an error. *)
Definition answers {A} (r : result A) (o : option A) : Prop := match o with Some a => r = Ok a | None => exists e, r = Err e end.

Lemma json_to_int_spec n name : number_ok n = true -> answers (json_to_int (Num n) name) (put_integer (Num n)).
Proof.
  unfold number_ok. rewrite !andb_true_iff. intros [[[Hi Hu] _] Hf]. unfold answers, put_integer, json_to_int, integer.
  destruct (as_i64 n) as [i|]; [apply in_s_64 in Hi; by rewrite within_in|]. destruct (as_u64 n) as [u|].
  - apply in_u_64 in Hu. destruct (Z.leb_spec u i64_max); [rewrite within_in by (unfold i64_min; lia); done|].
    unfold within. rewrite (proj2 (Z.ltb_lt i64_max u)), orb_true_r by lia. by eexists.
  - destruct (as_f64 n) as [f|]; [|by eexists]. apply andb_true_iff in Hf as [Hf Hfin]. apply in_u_64 in Hf.
    pose proof (fract_spec f ltac:(unfold u64_max in Hf; lia) Hfin) as Hs. cbn [mbind option_bind].
    destruct (whole f) as [v|]; [destruct Hs as [-> Hs]; cbn; rewrite (Hs i64_min i64_max) by done; done|]. rewrite Hs. by eexists.
Qed.

Lemma negative_spec f : 0 <= f < 2 ^ 64 -> finite f = true -> F64.lt64 f 0 = negative f.
Proof.
  intros Hf Hfin. unfold finite, negative in *. destruct (F64.to_spec f) as [s|s| |s m e] eqn:Hx; try done; [|by apply (to_spec_finite f s m e)].
  assert (Hg : f mod 2 ^ 63 = 0).
  { revert Hx. unfold F64.to_spec. rewrite Convert.exponent_split, Convert.mantissa_split. set (g := f mod 2 ^ 63).
    assert (0 <= g < 2 ^ 63) by (apply Z.mod_pos_bound; lia). pose proof (Z.div_mod g (2 ^ 52) ltac:(lia)). pose proof (Z.mod_pos_bound g (2 ^ 52) ltac:(lia)).
    destruct (Z.eqb_spec (g / 2 ^ 52) 0x7FF); [by destruct (_ =? 0)|]. destruct (Z.eqb_spec (g / 2 ^ 52) 0); [|done].
    destruct (g mod 2 ^ 52) eqn:E; try done; lia. }
  assert (f = 0 \/ f = 2 ^ 63) as [-> | ->]; [|done..].
  pose proof (Z.div_mod f (2 ^ 63) ltac:(lia)). assert (0 <= f / 2 ^ 63 < 2) by (split; [apply Z.div_pos|apply Z.div_lt_upper_bound]; lia). nia.
Qed.

Lemma json_to_uint_spec n name : number_ok n = true -> answers (json_to_uint (Num n) name) (put_natural (Num n)).
Proof.
  unfold number_ok. rewrite !andb_true_iff. intros [[[Hi Hu] Hiu] Hf]. unfold answers, put_natural, json_to_uint, integer.
  destruct (as_u64 n) as [u|].
  - apply in_u_64 in Hu. destruct (as_i64 n) as [i|]; [apply Z.eqb_eq in Hiu as ->|]; by rewrite within_in.
  - destruct (as_i64 n) as [i|].
    + apply in_s_64 in Hi. destruct (Z.ltb_spec i 0); [|by rewrite within_in by (unfold i64_max, u64_max in *; lia)].
      unfold within. rewrite (proj2 (Z.ltb_lt i 0)) by lia. by eexists.
    + destruct (as_f64 n) as [f|]; [|by eexists]. apply andb_true_iff in Hf as [Hf Hfin]. apply in_u_64 in Hf.
      assert (Hr : 0 <= f < 2 ^ 64) by (unfold u64_max in Hf; lia). rewrite negative_spec by done. cbn [mbind option_bind].
      pose proof (fract_spec f Hr Hfin) as Hs. destruct (negative f); [rewrite orb_true_r; by eexists|].
      destruct (whole f) as [v|]; [destruct Hs as [-> Hs]; cbn; rewrite (Hs 0 u64_max) by done; done|]. rewrite Hs. by eexists.
Qed.

(** What a value says and what the code makes of it, for numbers and texts. *)
Definition value_number_ok (v : Value) : bool := match v with Num n => number_ok n | _ => true end.

Lemma int_answers v name : value_number_ok v = true -> answers (json_to_int v name) (put_integer v).
Proof.
  destruct v as [| |n|s| |]; intros H; try (by eexists); [by apply json_to_int_spec|].
  unfold answers, put_integer, json_to_int. destruct (parse_signed _ _ s); [done|by eexists].
Qed.

Lemma uint_answers v name : value_number_ok v = true -> answers (json_to_uint v name) (put_natural v).
Proof.
  destruct v as [| |n|s| |]; intros H; try (by eexists); [by apply json_to_uint_spec|].
  unfold answers, put_natural, json_to_uint. destruct (parse_unsigned _ s); [done|by eexists].
Qed.

Lemma float_answers v name : answers (json_to_float v name) (put_double v).
Proof.
  destruct v as [| |n|s| |]; try (by eexists); unfold answers, put_double, json_to_float; [destruct (as_f64 n)|destruct (Text.parse_f64 s)]; by try eexists.
Qed.

(** [2.5] is no integer, [3.0] is 3, and [1e30] is out of an [i64]'s range but its
    nearest value is taken. *)
Example number_samples :
  (whole 0x4004000000000000, whole 0x4008000000000000, put_integer (Num (mkNumber None None (Some 0x46293E5939A08CEA) []))) =
  (None, Some 3, Some i64_max).
Proof. vm_compute. reflexivity. Qed.

End JsonNumber.
