(* ===== verification/PutRoundtrip.v ===== *)
(** * From the client's JSON to the server's values

    The PUT encoder of the client against the PUT decoder of the server: what the
    input says a field should become ([put_entries]) is what the server decodes,
    for every type without unions, [any]s and structure arrays. *)

From stdpp Require Import gmap.
From S2P Require Import Prelude Utf8 Wire PvdTypes PvdEncode PvdDecode PvdSafety PvdRoundtrip PvdDelta NtTypes F64 Text Calc CalcParse CalcEval PutEncode PutDecode Convert JsonNumber.

Local Open Scope Z_scope.
Local Open Scope codec_scope.

Module PutRoundtrip.
Import Wire PvdDecode PvdEncode PvdRoundtrip PvdDelta PutEncode PutDecode JsonNumber.

(** ** What an input stands for *)

(** What an input promises: numbers are as the JSON library gives them, strings
    are UTF-8, and arrays are within what the decoder accepts. *)
Fixpoint json_ok (v : Value) : bool :=
  match v with
  | Num n => number_ok n
  | Str s => name_ok s
  | Arr l => (zlen l <=? (if existsb is_string l then max_string_array default_limits else max_scalar_array default_limits)) && forallb json_ok l
  | Obj m => forallb (fun e => json_ok e.2) m
  | _ => true
  end.

(** The value of a scalar field.  An integer of the text that is out of the
    field's range has none, nor does a double with a fraction where an integer
    belongs; a double without one becomes the nearest integer of 64 bits before
    a narrower range is checked, and [to_f32] is Rust's cast. *)
Definition put_scalar (tc : TypeCode.t) (v : Value) : option Val.DecodedValue :=
  let int := put_integer v in
  let uint := put_natural v in
  match tc with
  | TypeCode.Boolean =>
    match v with
    | Bool b => Some (Val.Boolean b)
    | Num n => (fun i => Val.Boolean (negb (i =? 0))) <$> as_i64 n
    | _ => None
    end
  | TypeCode.Int8 => Val.Int8 <$> within (- 2 ^ 7) (2 ^ 7 - 1) int
  | TypeCode.Int16 => Val.Int16 <$> within (- 2 ^ 15) (2 ^ 15 - 1) int
  | TypeCode.Int32 => Val.Int32 <$> within (- 2 ^ 31) (2 ^ 31 - 1) int
  | TypeCode.Int64 => Val.Int64 <$> int
  | TypeCode.UInt8 => Val.UInt8 <$> within 0 (2 ^ 8 - 1) uint
  | TypeCode.UInt16 => Val.UInt16 <$> within 0 (2 ^ 16 - 1) uint
  | TypeCode.UInt32 => Val.UInt32 <$> within 0 (2 ^ 32 - 1) uint
  | TypeCode.UInt64 => Val.UInt64 <$> uint
  | TypeCode.Float32 => (fun f => Val.Float32 (to_f32 f)) <$> put_double v
  | TypeCode.Float64 => Val.Float64 <$> put_double v
  | _ => None
  end.

Definition put_string (v : Value) : option Val.DecodedValue := match v with Str s => Some (Val.String s) | _ => None end.

Definition put_array (item : Value -> option Val.DecodedValue) (v : Value) : option Val.DecodedValue :=
  match v with Arr l => Val.Array <$> mapM item l | _ => None end.

Definition put_leaf (ft : Ty.FieldType) (v : Value) : option Val.DecodedValue :=
  match ft with
  | Ty.Scalar tc => put_scalar tc v
  | Ty.ScalarArray tc => put_array (put_scalar tc) v
  | Ty.String | Ty.BoundedString _ => put_string v
  | Ty.StringArray => put_array put_string v
  | _ => None
  end.

(** The types of this development's claim. *)
Definition numeric (tc : TypeCode.t) : bool := match TypeCode.size tc with Some _ => true | None => false end.

Fixpoint simple (ft : Ty.FieldType) : bool :=
  match ft with
  | Ty.Scalar tc | Ty.ScalarArray tc => numeric tc
  | Ty.String | Ty.BoundedString _ | Ty.StringArray => true
  | Ty.Structure (Ty.mkStruct _ fs) =>
    negb (zlen fs =? 0) && forallb (fun f => match f with Ty.mkField _ t => simple t end) fs
  | _ => false
  end.

Section Entries.
Context (nested : Ty.StructureDesc -> list (bytes * Value) -> option entries).

(** The entry of one field: none when the input does not name it. *)
Definition put_field (f : Ty.FieldDesc) (m : list (bytes * Value)) : option entries :=
  match lookup_key m (Ty.name f) with
  | None => Some []
  | Some v =>
    match Ty.field_type f with
    | Ty.Structure d =>
      match v with
      | Obj [] => None
      | Obj obj => (fun sub => [(Ty.name f, Val.Structure sub)]) <$> nested d obj
      | _ => None
      end
    | ft => (fun w => [(Ty.name f, w)]) <$> put_leaf ft v
    end
  end.

Fixpoint put_fields (fs : list Ty.FieldDesc) (m : list (bytes * Value)) : option entries :=
  match fs with
  | [] => Some []
  | f :: fs =>
    match put_field f m, put_fields fs m with
    | Some a, Some b => Some (a ++ b)
    | _, _ => None
    end
  end.
End Entries.

Fixpoint put_entries (d : Ty.StructureDesc) (m : list (bytes * Value)) : option entries :=
  match d with
  | Ty.mkStruct _ fs => if forallb (fun e => known fs e.1) m then put_fields put_entries fs m else None
  end.

(** ** Leaves *)

Section Leaves.
Context (is_be : bool) (json_text : Value -> bytes).

(** [m] writes what [o] stands for, or fails. *)
Definition writes (m : result bytes) (data : bytes) (o : option Val.DecodedValue) : Prop :=
  match o with
  | Some w => m = Ok (data ++ encode_decoded_value w is_be)
  | None => exists e, m = Err e
  end.

Lemma writes_signed k con v data n : value_number_ok v = true ->
  (forall i, encode_decoded_value (con i) is_be = put_int is_be k i) ->
  writes (encode_signed is_be k v data n) data
    (con <$> within (- 2 ^ (8 * Z.of_nat k - 1)) (2 ^ (8 * Z.of_nat k - 1) - 1) (put_integer v)).
Proof.
  intros Hv Hc. pose proof (int_answers v n Hv) as Hi. unfold encode_signed, ensure_range, within, writes, answers in *.
  destruct (put_integer v) as [i|]; [rewrite Hi|destruct Hi as [e ->]; cbn; eauto]. cbn [bind_outcome].
  destruct (_ || _); cbn; [eauto|]. by rewrite Hc.
Qed.

Lemma writes_unsigned k con v data n : value_number_ok v = true ->
  (forall i, 0 <= i <= 2 ^ (8 * Z.of_nat k) - 1 -> encode_decoded_value (con i) is_be = put_int is_be k i) ->
  writes (encode_unsigned is_be k v data n) data (con <$> within 0 (2 ^ (8 * Z.of_nat k) - 1) (put_natural v)).
Proof.
  intros Hv Hc. pose proof (uint_answers v n Hv) as Hu. unfold encode_unsigned, ensure_range, within, writes, answers in *.
  destruct (put_natural v) as [i|]; [rewrite Hu|destruct Hu as [e ->]; cbn; eauto]. cbn [bind_outcome].
  destruct (_ || _) eqn:E; cbn -[Z.pow]; [eauto|]. apply orb_false_iff in E as [? ?]. bool_to_prop. by rewrite Hc.
Qed.

(** A conversion without a range check. *)
Lemma writes_plain (r : result Z) (o : option Z) (g : Z -> bytes) con data :
  answers r o -> (forall i, encode_decoded_value (con i) is_be = g i) ->
  writes (let? v := r in Ok (data ++ g v)) data (con <$> o).
Proof. intros Hr Hc. unfold writes, answers in *. destruct o as [i|]; [rewrite Hr; cbn; by rewrite Hc|]. destruct Hr as [e ->]. cbn. eauto. Qed.

Lemma put_byte v : put_int is_be 1 v = [v mod 256].
Proof. destruct is_be; reflexivity. Qed.

Lemma writes_scalar tc v data n : value_number_ok v = true -> numeric tc = true -> writes (encode_scalar_value is_be tc v data n) data (put_scalar tc v).
Proof.
  intros Hv Hn. destruct tc; try discriminate Hn; cbn [put_scalar encode_scalar_value].
  - unfold writes. destruct v as [| |k| | |]; eauto. destruct (as_i64 k); cbn; eauto.
  - apply (writes_signed 1 Val.Int8); [done|]. intros i. by rewrite put_byte.
  - by apply (writes_signed 2 Val.Int16).
  - by apply (writes_signed 4 Val.Int32).
  - apply (writes_plain _ _ _ Val.Int64); [by apply int_answers|done].
  - apply (writes_unsigned 1 Val.UInt8); [done|]. intros i Hi. rewrite put_byte, Z.mod_small by (cbn in Hi; lia). done.
  - by apply (writes_unsigned 2 Val.UInt16).
  - by apply (writes_unsigned 4 Val.UInt32).
  - apply (writes_plain _ _ _ Val.UInt64); [by apply uint_answers|done].
  - apply (writes_plain _ _ (fun f => put_int is_be 4 (to_f32 f)) (fun f => Val.Float32 (to_f32 f))); [apply float_answers|done].
  - apply (writes_plain _ _ _ Val.Float64); [apply float_answers|done].
Qed.

Lemma writes_string v data n : writes (encode_string_value is_be v data n) data (put_string v).
Proof. unfold writes. destruct v; cbn; eauto. Qed.

Lemma writes_items (f : Value -> bytes -> result bytes) g v data n :
  (forall x d, json_ok x = true -> writes (f x d) d (g x)) -> json_ok v = true -> writes (encode_items is_be f v data n) data (put_array g v).
Proof.
  intros Hf Hj. destruct v as [| | | |l|]; cbn; try (by eexists). cbn [json_ok] in Hj. apply andb_true_iff in Hj as [_ Hj].
  assert (Hl : forall l d, forallb json_ok l = true -> match mapM g l with Some ws => each f l d = Ok (d ++ concat (map (fun w => encode_decoded_value w is_be) ws)) | None => exists e, each f l d = Err e end).
  { clear l Hj. intros l. induction l as [|x l IH]; intros d Hj; cbn; [by rewrite app_nil_r|]. cbn in Hj. apply andb_true_iff in Hj as [Hj1 Hj2].
    pose proof (Hf x d Hj1) as Hx. unfold writes in Hx.
    destruct (g x) as [w|]; cbn; [rewrite Hx|destruct Hx as [e ->]; cbn; eauto]. cbn [bind_outcome].
    specialize (IH (d ++ encode_decoded_value w is_be) Hj2). destruct (mapM g l) as [ws|]; cbn; [|done]. by rewrite IH, <-app_assoc. }
  specialize (Hl l (data ++ encode_size (zlen l) is_be) Hj). unfold writes. destruct (mapM g l) as [ws|] eqn:Em; [|done]. cbn [fmap option_fmap option_map].
  rewrite Hl, encode_array, <-app_assoc. apply length_mapM in Em. unfold zlen. by rewrite Em.
Qed.

Definition is_leaf (ft : Ty.FieldType) : bool := match ft with Ty.Structure _ => false | _ => simple ft end.

Lemma json_number_ok v : json_ok v = true -> value_number_ok v = true.
Proof. by destruct v. Qed.

Lemma writes_leaf ft v data n : is_leaf ft = true -> json_ok v = true -> writes (encode_field_value is_be json_text ft v data n) data (put_leaf ft v).
Proof.
  destruct ft; try discriminate; cbn; intros Hs Hj.
  - by apply writes_scalar, Hs; apply json_number_ok.
  - apply writes_items; [|done]. intros x d Hx. by apply writes_scalar, Hs; apply json_number_ok.
  - apply writes_string.
  - apply writes_items; [|done]. intros x d _. apply writes_string.
  - apply writes_string.
Qed.

End Leaves.

(** ** Bits *)

(** The bits the fields below a field take. *)
Definition below (f : Ty.FieldDesc) : Z :=
  match Ty.field_type f with Ty.Structure d => Ty.count_structure_fields d | _ => 0 end.

Lemma below_nonneg f : 0 <= below f.
Proof. unfold below. destruct (Ty.field_type f); try lia. apply Ty.count_structure_fields_nonneg. Qed.

Lemma count_cons i f fs :
  Ty.count_structure_fields (Ty.mkStruct i (f :: fs)) = 1 + below f + Ty.count_structure_fields (Ty.mkStruct i fs).
Proof.
  rewrite <- !Ty.counts_spec_length, !PvdSafety.counts_of_desc. cbn [Ty.fields]. rewrite PvdSafety.counts_of_cons, zlen_app.
  unfold below. destruct (Ty.field_type f); rewrite ?zlen_cons, ?zlen_nil, ?Ty.counts_spec_length; lia.
Qed.

Section Bits.
Context (nested : Ty.StructureDesc -> list (bytes * Value) -> Z -> list Z).

Definition field_bits (f : Ty.FieldDesc) (m : list (bytes * Value)) (bit : Z) : list Z :=
  match lookup_key m (Ty.name f) with
  | None => []
  | Some v => match Ty.field_type f, v with Ty.Structure d, Obj obj => nested d obj (bit + 1) | Ty.Structure _, _ => [] | _, _ => [bit] end
  end.

Fixpoint fields_bits (fs : list Ty.FieldDesc) (m : list (bytes * Value)) (bit : Z) : list Z :=
  match fs with
  | [] => []
  | f :: fs => field_bits f m bit ++ fields_bits fs m (bit + 1 + below f)
  end.
End Bits.

(** The bits a PUT of [m] sets, those of its leaves. *)
Fixpoint put_bits (d : Ty.StructureDesc) (m : list (bytes * Value)) (bit : Z) : list Z :=
  match d with Ty.mkStruct _ fs => fields_bits put_bits fs m bit end.

Lemma put_bits_range d : forall m bit b, b ∈ put_bits d m bit -> bit <= b < bit + Ty.count_structure_fields d.
Proof.
  induction d as [[i fs] IH] using Ty.StructureDesc_nested_ind. cbn [Ty.fields put_bits] in *. intros m.
  induction IH as [|f fs Hf _ IHfs]; intros bit b; cbn [fields_bits]; [by intros ?%not_elem_of_nil|].
  rewrite count_cons. pose proof (below_nonneg f). pose proof (Ty.count_structure_fields_nonneg (Ty.mkStruct i fs)).
  intros [Hb|Hb]%elem_of_app; [|specialize (IHfs _ _ Hb); lia]. unfold field_bits in Hb. unfold below in *.
  destruct (lookup_key m (Ty.name f)) as [v|]; [|by apply not_elem_of_nil in Hb].
  destruct (Ty.field_type f); try (apply list_elem_of_singleton in Hb; lia).
  destruct v; try (by apply not_elem_of_nil in Hb). specialize (Hf _ _ _ Hb). lia.
Qed.

Lemma set_bit_spec B b n : 0 <= b -> 0 <= n -> bit_set (set_bit B b) n = bit_set B n || (n =? b).
Proof.
  intros Hb Hn. unfold set_bit. destruct (byte_bits b) as (? & ? & ?); [done|]. set (B' := resize B (S (Z.to_nat (b / 8)))).
  assert (Hl : b < 8 * zlen B') by (unfold B', resize, zlen; rewrite length_app, length_replicate; lia).
  assert (HB : bit_set B' n = bit_set B n).
  { rewrite !bit_set_testbit by done. f_equal. unfold B', resize. destruct (decide (Z.to_nat (n / 8) < length B)%nat).
    - by rewrite app_nth1.
    - rewrite app_nth2, nth_replicate_0 by lia. by rewrite nth_overflow by lia. }
  rewrite <-HB. apply (bit_set_set B' b n); lia.
Qed.

Lemma set_bits_spec bits : forall B n, Forall (fun b => 0 <= b) bits -> 0 <= n ->
  bit_set (fold_left set_bit bits B) n = bit_set B n || bool_decide (n ∈ bits).
Proof.
  induction bits as [|b bits IH]; intros B n Hf Hn; cbn [fold_left].
  { rewrite bool_decide_eq_false_2 by (by intros ?%not_elem_of_nil). by rewrite orb_false_r. }
  apply Forall_cons in Hf as [Hb Hf]. rewrite IH, set_bit_spec by done. rewrite <-orb_assoc. f_equal.
  destruct (Z.eqb_spec n b) as [->|Hne]; cbn [orb].
  - by rewrite bool_decide_eq_true_2 by left.
  - apply bool_decide_ext. rewrite elem_of_cons. naive_solver.
Qed.

Lemma any_bit_set_spec B : forall n b, any_bit_set B b n = true <-> exists k, b <= k < b + Z.of_nat n /\ bit_set B k = true.
Proof.
  induction n as [|n IH]; intros b; cbn [any_bit_set]; [split; [done|intros (k & ? & _); lia]|].
  rewrite orb_true_iff, IH. split.
  - intros [H|(k & ? & ?)]; [exists b; split; [lia|done]|exists k; split; [lia|done]].
  - intros (k & Hk & H). destruct (decide (k = b)) as [->|]; [by left|]. right. exists k. split; [lia|done].
Qed.

(** ** The encoder writes the entries *)

Definition simple_fields (fs : list Ty.FieldDesc) : bool := forallb (fun f => simple (Ty.field_type f)) fs.

Lemma simple_structure i fs : simple (Ty.Structure (Ty.mkStruct i fs)) = negb (zlen fs =? 0) && simple_fields fs.
Proof. cbn. f_equal. unfold simple_fields. induction fs as [|[n t] fs IH]; cbn; [done|]. by rewrite IH. Qed.

(** [o'] extends [o] by what [sel] and [bits] say. *)
Definition extends (is_be : bool) (o : Out) (sel : entries) (bits : list Z) (w : Z) : Out :=
  mkOut (fold_left set_bit bits (o_bits o)) (o_bit o + w) (o_data o ++ encode_entries sel is_be).

Lemma find_none_forallb {A} (p : A -> bool) l :
  List.find (fun x => negb (p x)) l = None <-> forallb p l = true.
Proof. induction l as [|x l IH]; cbn; [done|]. destruct (p x); cbn; [done|]. split; done. Qed.

Lemma lookup_ok m k v : forallb (fun e => json_ok e.2) m = true -> lookup_key m k = Some v -> json_ok v = true.
Proof.
  unfold lookup_key. intros Hm Hl. destruct (List.find _ m) as [e|] eqn:Ef; [|done]. injection Hl as <-. apply List.find_some in Ef as [Hin _].
  rewrite forallb_forall in Hm. by apply Hm.
Qed.

Section Partial.
Context (is_be : bool) (json_text : Value -> bytes).
Abbreviation partial := (encode_structure_partial is_be json_text).

(** The outcome of an encoding step against what the input stands for. *)
Definition outcome_is (r : result Out) (o : Out) (e : option entries) (bits : list Z) (w : Z) : Prop :=
  match e with
  | Some sel => r = Ok (extends is_be o sel bits w)
  | None => exists x, r = Err x
  end.

Lemma partial_field_spec f m o :
  simple (Ty.field_type f) = true ->
  match Ty.field_type f with
  | Ty.Structure n => forall m o, simple_fields (Ty.fields n) = true -> json_ok (Obj m) = true ->
      outcome_is (partial n m o) o (put_entries n m) (put_bits n m (o_bit o)) (Ty.count_structure_fields n)
  | _ => True
  end ->
  json_ok (Obj m) = true ->
  outcome_is (partial_field is_be json_text partial f m o) o (put_field put_entries f m) (field_bits put_bits f m (o_bit o)) (1 + below f).
Proof.
  intros Hs IH Hj. unfold outcome_is, partial_field, put_field, field_bits, below.
  destruct (is_leaf (Ty.field_type f)) eqn:El.
  - assert (Hns : forall d, Ty.field_type f <> Ty.Structure d) by (intros d E; by rewrite E in El).
    destruct (lookup_key m (Ty.name f)) as [v|] eqn:Ev; [|unfold extends; destruct (Ty.field_type f); try (by destruct (Hns desc)); cbn; rewrite ?app_nil_r; done].
    pose proof (writes_leaf is_be json_text _ v (o_data o) (Ty.name f) El (lookup_ok m _ v Hj Ev)) as Hw. unfold writes in Hw.
    destruct (Ty.field_type f); try (by destruct (Hns desc));
      (destruct (put_leaf _ v) as [w|]; [cbn [o_data]; rewrite Hw; cbn [bind_outcome fmap option_fmap option_map]; unfold extends;
         rewrite encode_entries_one; reflexivity|destruct Hw as [e Hw]; cbn [o_data]; rewrite Hw; cbn; eauto]).
  - destruct (Ty.field_type f) as [| | | |[i nfs]| | | | | |] eqn:Et; try (exfalso; cbn in El, Hs; congruence).
    rewrite simple_structure in Hs. apply andb_true_iff in Hs as [_ Hs].
    destruct (lookup_key m (Ty.name f)) as [v|] eqn:Ev; [|unfold extends; cbn; rewrite app_nil_r; do 2 f_equal; cbn; lia].
    destruct v as [| | | | |[|e obj]]; try (by eexists). specialize (IH (e :: obj) (mkOut (o_bits o) (o_bit o + 1) (o_data o)) Hs (lookup_ok m _ _ Hj Ev)).
    unfold outcome_is in IH. destruct (put_entries _ (e :: obj)) as [sub|]; cbn [fmap option_fmap option_map]; [|done]. rewrite IH.
    unfold extends. cbn [o_bits o_bit o_data]. rewrite encode_entries_one. do 2 f_equal. lia.
Qed.

Lemma partial_spec d : simple_fields (Ty.fields d) = true -> forall m, json_ok (Obj m) = true -> forall o,
  outcome_is (partial d m o) o (put_entries d m) (put_bits d m (o_bit o)) (Ty.count_structure_fields d).
Proof.
  induction d as [[i fs] IH] using Ty.StructureDesc_nested_ind. cbn [Ty.fields] in *. intros Hs m Hj.
  cbn [encode_structure_partial put_entries put_bits]. pose proof (find_none_forallb (fun e : bytes * Value => known fs e.1) m) as Hfind.
  destruct (List.find _ m) as [e|].
  { destruct (forallb _ m); [discriminate (proj2 Hfind eq_refl)|]. intros o. by eexists. }
  rewrite (proj1 Hfind eq_refl). clear Hfind.
  induction IH as [|f fs Hf _ IHfs]; intros o.
  { unfold outcome_is, extends. cbn. rewrite app_nil_r, Z.add_0_r. by destruct o. }
  cbn [simple_fields forallb] in Hs. apply andb_true_iff in Hs as [Hsf Hs]. specialize (IHfs Hs).
  cbn [partial_fields put_fields fields_bits]. rewrite count_cons.
  assert (Hpf : outcome_is (partial_field is_be json_text partial f m o) o (put_field put_entries f m) (field_bits put_bits f m (o_bit o)) (1 + below f)).
  { apply partial_field_spec; [done| |done]. destruct (Ty.field_type f); try done. intros m' o' Hn Hj'. by apply Hf. }
  unfold outcome_is in *. destruct (put_field put_entries f m) as [a|]; [rewrite Hpf|destruct Hpf as [x ->]; cbn; eauto]. cbn [bind_outcome].
  specialize (IHfs (extends is_be o a (field_bits put_bits f m (o_bit o)) (1 + below f))).
  destruct (put_fields put_entries fs m) as [b|]; [|done]. rewrite IHfs. unfold extends. cbn [o_bits o_bit o_data].
  rewrite encode_entries_app, fold_left_app, <-app_assoc, !Z.add_assoc. done.
Qed.

End Partial.

(** ** A whole value around the entries *)

Definition zero_scalar (tc : TypeCode.t) : Val.DecodedValue :=
  match tc with
  | TypeCode.Boolean => Val.Boolean false
  | TypeCode.Int8 => Val.Int8 0 | TypeCode.Int16 => Val.Int16 0 | TypeCode.Int32 => Val.Int32 0 | TypeCode.Int64 => Val.Int64 0
  | TypeCode.UInt8 => Val.UInt8 0 | TypeCode.UInt16 => Val.UInt16 0 | TypeCode.UInt32 => Val.UInt32 0 | TypeCode.UInt64 => Val.UInt64 0
  | TypeCode.Float32 => Val.Float32 0
  | _ => Val.Float64 0
  end.

Fixpoint zero (ft : Ty.FieldType) : Val.DecodedValue :=
  match ft with
  | Ty.Scalar tc => zero_scalar tc
  | Ty.String | Ty.BoundedString _ => Val.String []
  | Ty.Structure (Ty.mkStruct _ fs) => Val.Structure (map (fun f => match f with Ty.mkField n t => (n, zero t) end) fs)
  | _ => Val.Array []
  end.

Definition complete_field (nested : Ty.StructureDesc -> list (bytes * Value) -> entries) (m : list (bytes * Value)) (f : Ty.FieldDesc) : bytes * Val.DecodedValue :=
  (Ty.name f,
   match lookup_key m (Ty.name f) with
   | None => zero (Ty.field_type f)
   | Some v =>
     match Ty.field_type f, v with
     | Ty.Structure d, Obj obj => Val.Structure (nested d obj)
     | ft, _ => default (zero ft) (put_leaf ft v)
     end
   end).

(** The input with every field it does not name at zero. *)
Fixpoint complete (d : Ty.StructureDesc) (m : list (bytes * Value)) : entries :=
  match d with Ty.mkStruct _ fs => map (complete_field complete m) fs end.

(** An input that names something sets a bit. *)
Lemma put_nonempty d : forall m sel bit, put_entries d m = Some sel -> m <> [] -> put_bits d m bit <> [] /\ sel <> [].
Proof.
  induction d as [[i fs] IH] using Ty.StructureDesc_nested_ind. cbn [Ty.fields put_entries put_bits] in *. intros m sel bit Hp Hm.
  destruct (forallb _ m) eqn:Ek; [|done].
  assert (Hex : exists f, f ∈ fs /\ is_Some (lookup_key m (Ty.name f))).
  { destruct m as [|[k v] m]; [done|]. cbn in Ek. apply andb_true_iff in Ek as [Ek _]. unfold known in Ek. apply existsb_exists in Ek as (f & Hf & He).
    apply bool_decide_eq_true in He. exists f. split; [by apply list_elem_of_In|]. unfold lookup_key. cbn. rewrite bool_decide_eq_true_2 by done. by eexists. }
  destruct Hex as (f & Hf & Hl). clear Ek. revert sel bit Hp. induction IH as [|g fs Hg _ IHfs]; intros sel bit Hp; [by apply not_elem_of_nil in Hf|].
  cbn [put_fields fields_bits] in *. destruct (put_field put_entries g m) as [a|] eqn:Ea; [|done].
  destruct (put_fields put_entries fs m) as [b|]; [|done]. injection Hp as <-.
  apply elem_of_cons in Hf as [->|Hf].
  - destruct Hl as [v Hv]. unfold put_field in Ea. unfold field_bits. rewrite Hv in *.
    destruct (Ty.field_type g); try (destruct (put_leaf _ v); [|done]; injection Ea as <-; done).
    destruct v as [| | | | |[|e obj]]; try done. destruct (put_entries desc (e :: obj)) as [sub|] eqn:Es; [|done]. injection Ea as <-.
    destruct (Hg _ _ (bit + 1) Es) as [Hb _]; [done|]. split; [|done]. intros [? _]%app_eq_nil. done.
  - destruct (IHfs Hf _ (bit + 1 + below g) eq_refl) as [H1 H2]. split; intros [_ ?]%app_eq_nil; done.
Qed.

(** A bitset whose bits in the range of [d] are those of the input selects its entries. *)
Definition agrees (B : bytes) (bits : list Z) (lo w : Z) : Prop :=
  forall b, lo <= b < lo + w -> bit_set B b = bool_decide (b ∈ bits).

Lemma agrees_split B l1 l2 lo w1 w2 : 0 <= w1 -> 0 <= w2 -> (forall b, b ∈ l1 -> lo <= b < lo + w1) -> (forall b, b ∈ l2 -> lo + w1 <= b) ->
  agrees B (l1 ++ l2) lo (w1 + w2) -> agrees B l1 lo w1 /\ agrees B l2 (lo + w1) w2.
Proof.
  intros H1 H2 Hl1 Hl2 H. split; intros b Hb; rewrite H by lia; apply bool_decide_ext; rewrite elem_of_app.
  - split; [|auto]. intros [?|Hb2]; [done|]. specialize (Hl2 b Hb2). lia.
  - split; [|auto]. intros [Hb1|?]; [|done]. specialize (Hl1 b Hb1). lia.
Qed.

(** The part of the selection that comes from one field. *)
Definition select_head (B : bytes) (f : Ty.FieldDesc) (v : Val.DecodedValue) (bit : Z) : entries :=
  match Ty.field_type f with
  | Ty.Structure nested => select_structure_field B (select_structure B) (Ty.name f) nested v bit
  | _ => if bit_set B bit then [(Ty.name f, v)] else []
  end.

Lemma select_cons B f fs nv vs bit : select_fields B (select_structure B) (f :: fs) (nv :: vs) bit =
  select_head B f nv.2 bit ++ select_fields B (select_structure B) fs vs (bit + 1 + below f).
Proof. cbn [select_fields]. unfold select_head, below. destruct (Ty.field_type f); by rewrite ?Z.add_0_r. Qed.

Lemma field_bits_range f m bit b : b ∈ field_bits put_bits f m bit -> bit <= b < bit + (1 + below f).
Proof.
  unfold field_bits, below. destruct (lookup_key m (Ty.name f)) as [v|]; [|by intros ?%not_elem_of_nil].
  destruct (Ty.field_type f); try (intros Hb; apply list_elem_of_singleton in Hb; lia).
  destruct v; try (by intros ?%not_elem_of_nil). intros Hb. apply put_bits_range in Hb. lia.
Qed.

Lemma fields_bits_from fs m : forall bit b, b ∈ fields_bits put_bits fs m bit -> bit <= b.
Proof.
  induction fs as [|f fs IH]; intros bit b; cbn [fields_bits]; [by intros ?%not_elem_of_nil|].
  intros [Hb|Hb]%elem_of_app; [apply field_bits_range in Hb|apply IH in Hb; pose proof (below_nonneg f)]; lia.
Qed.

Lemma select_head_put B f m a bit : simple (Ty.field_type f) = true ->
  match Ty.field_type f with
  | Ty.Structure n => forall m sel bit, simple_fields (Ty.fields n) = true -> put_entries n m = Some sel ->
      agrees B (put_bits n m bit) bit (Ty.count_structure_fields n) -> select_structure B n (complete n m) bit = sel
  | _ => True
  end ->
  put_field put_entries f m = Some a -> agrees B (field_bits put_bits f m bit) bit (1 + below f) ->
  select_head B f (complete_field complete m f).2 bit = a.
Proof.
  intros Hs IH Hp Hag. unfold put_field in Hp. unfold field_bits in Hag. unfold complete_field, select_head, below in *. cbn [snd].
  destruct (is_leaf (Ty.field_type f)) eqn:El.
  - destruct (lookup_key m (Ty.name f)) as [v|].
    + destruct (Ty.field_type f); try discriminate El; (destruct (put_leaf _ v) as [w|]; [|done]; injection Hp as <-;
        rewrite Hag, bool_decide_eq_true_2 by (lia || by left); done).
    + injection Hp as <-. destruct (Ty.field_type f); try discriminate El;
        (rewrite Hag, bool_decide_eq_false_2 by (lia || by intros ?%not_elem_of_nil); done).
  - destruct (Ty.field_type f) as [| | | |n| | | | | |] eqn:Et; try (exfalso; cbn in El, Hs; congruence).
    pose proof (Ty.count_structure_fields_nonneg n). destruct n as [i nfs]. rewrite simple_structure in Hs. apply andb_true_iff in Hs as [_ Hs].
    unfold select_structure_field. set (nd := Ty.mkStruct i nfs) in *. destruct (lookup_key m (Ty.name f)) as [v|].
    + destruct v as [| | | | |[|e obj]]; try done. destruct (put_entries nd (e :: obj)) as [sub|] eqn:Es; [|done]. injection Hp as <-.
      destruct (put_nonempty nd _ _ (bit + 1) Es) as [Hb Hsub]; [done|].
      assert (Hany : any_bit_set B (bit + 1) (Z.to_nat (Ty.count_structure_fields nd)) = true).
      { apply any_bit_set_spec. destruct (put_bits nd (e :: obj) (bit + 1)) as [|b bs] eqn:Eb; [done|]. exists b.
        assert (Hbr : bit + 1 <= b < bit + 1 + Ty.count_structure_fields nd) by (apply (put_bits_range nd (e :: obj)); rewrite Eb; by left).
        split; [lia|]. rewrite Hag by lia. apply bool_decide_eq_true_2. by left. }
      rewrite Hany, (IH _ sub); [by destruct sub|done|done|]. intros b Hb'. apply Hag. lia.
    + injection Hp as <-. assert (Hany : any_bit_set B (bit + 1) (Z.to_nat (Ty.count_structure_fields nd)) = false).
      { apply not_true_is_false. intros (k & Hk & Hbk)%any_bit_set_spec. rewrite Hag in Hbk by lia. apply bool_decide_eq_true in Hbk. by apply not_elem_of_nil in Hbk. }
      rewrite Hany, Hag, bool_decide_eq_false_2 by (lia || by intros ?%not_elem_of_nil). done.
Qed.

Lemma select_put B d : forall m sel bit, simple_fields (Ty.fields d) = true -> put_entries d m = Some sel ->
  agrees B (put_bits d m bit) bit (Ty.count_structure_fields d) -> select_structure B d (complete d m) bit = sel.
Proof.
  induction d as [[i fs] IH] using Ty.StructureDesc_nested_ind. cbn [Ty.fields put_entries put_bits complete select_structure] in *.
  intros m. destruct (forallb _ m); [|done].
  induction IH as [|f fs Hf _ IHfs]; intros sel bit Hs Hp Hag; [by injection Hp as <-|].
  cbn [simple_fields forallb] in Hs. apply andb_true_iff in Hs as [Hsf Hs]. cbn [put_fields fields_bits map] in *.
  destruct (put_field put_entries f m) as [a|] eqn:Ea; [|done]. destruct (put_fields put_entries fs m) as [b|]; [|done]. injection Hp as <-.
  rewrite count_cons in Hag. pose proof (below_nonneg f).
  apply agrees_split in Hag as [Ha Hb]; [|lia|apply Ty.count_structure_fields_nonneg|apply field_bits_range|
    intros x Hx; apply fields_bits_from in Hx; lia].
  rewrite select_cons, (select_head_put B f m a bit Hsf Hf Ea Ha). f_equal.
  apply IHfs; try done. by replace (bit + 1 + below f) with (bit + (1 + below f)) at 2 by lia.
Qed.

(** ** Ranges *)

Lemma in_s_spec w v : in_s w v = true <-> - 2 ^ (w - 1) <= v < 2 ^ (w - 1).
Proof. unfold in_s. rewrite andb_true_iff, Z.leb_le, Z.ltb_lt. done. Qed.

Lemma in_u_spec w v : in_u w v = true <-> 0 <= v < 2 ^ w.
Proof. unfold in_u. rewrite andb_true_iff, Z.leb_le, Z.ltb_lt. done. Qed.

Lemma digits_nonneg s : forall acc, 0 <= acc -> 0 <= (Text.digits acc s).1.1.
Proof.
  induction s as [|b s IH]; intros acc Ha; cbn; [done|]. destruct (_ && _) eqn:E; [|done]. apply andb_true_iff in E as [E1 E2]. bool_to_prop.
  specialize (IH (10 * acc + (b - 48)) ltac:(lia)). destruct (Text.digits _ s) as [[v n] r]. exact IH.
Qed.

Lemma within_spec lo hi r v : within lo hi r = Some v -> r = Some v /\ lo <= v <= hi.
Proof. unfold within. destruct r as [x|]; [|done]. destruct (_ || _) eqn:E; [done|]. intros [= <-]. apply orb_false_iff in E as [? ?]. bool_to_prop. split; [done|lia]. Qed.

Lemma int_range v i : put_integer v = Some i -> in_s 64 i = true.
Proof.
  rewrite in_s_64. destruct v as [| |n|s| |]; try done; cbn [put_integer].
  - destruct (integer n) as [k|].
    + intros [E H]%within_spec. simplify_eq. done.
    + intros (w & _ & ->)%fmap_Some. unfold clamp, i64_min, i64_max. lia.
  - unfold parse_signed. destruct (Text.sign s) as [neg s']. destruct (Text.digits 0 s') as [[w k] r].
    destruct (_ && _) eqn:E; [|done]. intros [= <-]. rewrite !andb_true_iff, !Z.leb_le in E. lia.
Qed.

Lemma uint_range v i : put_natural v = Some i -> in_u 64 i = true.
Proof.
  rewrite in_u_64. destruct v as [| |n|s| |]; try done; cbn [put_natural].
  - destruct (integer n) as [k|].
    + intros [E H]%within_spec. simplify_eq. done.
    + intros (w & _ & ->)%fmap_Some. unfold clamp, u64_max. lia.
  - unfold parse_unsigned. set (s' := match s with 43 :: s => s | _ => s end). pose proof (digits_nonneg s' 0 ltac:(done)) as Hd.
    destruct (Text.digits 0 s') as [[w k] r]. cbn in Hd.
    destruct (_ && _) eqn:E; [|done]. intros [= <-]. rewrite !andb_true_iff, !Z.leb_le in E. lia.
Qed.

Lemma float_range v f : json_ok v = true -> put_double v = Some f -> in_u 64 f = true.
Proof.
  intros Hj. destruct v as [| |n|s| |]; try done; cbn [put_double].
  - cbn in Hj. unfold number_ok in Hj. apply andb_true_iff in Hj as [_ Hf]. destruct (as_f64 n); [|done]. intros [= <-]. by apply andb_true_iff in Hf as [Hf _].
  - destruct (Text.parse_f64 s) as [x|]; [|done]. cbn. intros [= <-]. apply in_u_spec. apply Z.mod_pos_bound. lia.
Qed.

Lemma scalar_range tc v w : json_ok v = true -> put_scalar tc v = Some w -> scalar_ok tc w = true.
Proof.
  intros Hj. destruct tc; cbn [put_scalar]; try done; intros Hp; try (apply fmap_Some in Hp as (x & Hx & ->); cbn [scalar_ok]).
  all: try (apply within_spec in Hx as [_ Hx]; (apply in_s_spec || apply in_u_spec); lia).
  - destruct v as [| |n| | |]; try done; [by injection Hp as <-|]. by apply fmap_Some in Hp as (x & _ & ->).
  - by apply (int_range v).
  - by apply (uint_range v).
  - apply in_u_spec. apply Z.mod_pos_bound. lia.
  - by apply (float_range v).
Qed.

Lemma items_range (g : Value -> option Val.DecodedValue) (ok : Val.DecodedValue -> bool) l ws :
  (forall v w, json_ok v = true -> g v = Some w -> ok w = true) -> forallb json_ok l = true -> mapM g l = Some ws -> forallb ok ws = true.
Proof.
  intros Hg. revert ws. induction l as [|v l IH]; intros ws Hl; cbn in *; [by intros [= <-]|].
  apply andb_true_iff in Hl as [Hv Hl]. destruct (g v) as [w|] eqn:Ew; [|done]. cbn. destruct (mapM g l) as [ws'|]; [|done]. cbn.
  intros [= <-]. cbn. by rewrite (Hg v w Hv Ew), (IH ws' Hl eq_refl).
Qed.

Lemma leaf_range ft v w : is_leaf ft = true -> json_ok v = true -> put_leaf ft v = Some w -> value_ok default_limits ft w = true.
Proof.
  assert (Hu : max_scalar_array default_limits <= u32_max /\ max_string_array default_limits <= u32_max) by (by vm_compute).
  assert (Hs : forall v w, json_ok v = true -> put_string v = Some w -> string_ok w = true) by (intros [] ? ? [= <-]; done).
  intros Hl Hj Hp. destruct ft; try discriminate Hl; cbn [put_leaf value_ok] in *.
  - by apply (scalar_range _ v).
  - destruct v as [| | | |l|]; try done. cbn in Hp. apply fmap_Some in Hp as (ws & Hws & ->). cbn [json_ok] in Hj. apply andb_true_iff in Hj as [Hlen Hj].
    cbn [array_ok]. rewrite (items_range _ (scalar_ok tc) l ws (scalar_range tc) Hj Hws). apply length_mapM in Hws. unfold zlen in *. rewrite <-Hws. bool_to_prop.
    destruct (existsb _ l); cbn in *; rewrite !andb_true_iff, !Z.leb_le; lia.
  - by apply (Hs v).
  - destruct v as [| | | |l|]; try done. cbn in Hp. apply fmap_Some in Hp as (ws & Hws & ->). cbn [json_ok] in Hj. apply andb_true_iff in Hj as [Hlen Hj].
    cbn [array_ok]. rewrite (items_range _ string_ok l ws Hs Hj Hws). assert (He : l = [] \/ existsb is_string l = true).
    { destruct l as [|x l]; [by left|]. right. cbn in Hws. by destruct x. }
    apply length_mapM in Hws. unfold zlen in *. rewrite <-Hws. bool_to_prop.
    destruct He as [->|He]; [done|]. rewrite He in Hlen. rewrite !andb_true_iff, !Z.leb_le. lia.
  - by apply (Hs v).
Qed.

Lemma zero_match fs : Forall (fun f => simple (Ty.field_type f) = true -> value_ok default_limits (Ty.field_type f) (zero (Ty.field_type f)) = true) fs ->
  simple_fields fs = true -> fields_match default_limits fs (map (fun f => (Ty.name f, zero (Ty.field_type f))) fs) = true.
Proof.
  induction 1 as [|f fs Hf _ IH]; intros Hs; [done|]. cbn in *. apply andb_true_iff in Hs as [H1 H2].
  by rewrite bool_decide_eq_true_2, Hf, IH.
Qed.

Lemma zero_ok ft : simple ft = true -> value_ok default_limits ft (zero ft) = true.
Proof.
  induction ft as [ft Hl|ft fs Hf IH] using Ty.FieldType_tree_ind; intros Hs.
  - destruct ft as [tc|tc| | | | | | | | |]; try done. by destruct tc.
  - destruct ft as [| | | |[i gs]| | | | | |]; try done. injection Hf as ->. rewrite simple_structure in Hs. apply andb_true_iff in Hs as [Hz Hs].
    change (zero (Ty.Structure (Ty.mkStruct i fs))) with (Val.Structure (map (fun f => match f with Ty.mkField n t => (n, zero t) end) fs)).
    rewrite value_ok_structure, Hz. cbn [andb]. rewrite <-(zero_match fs IH Hs). f_equal. apply map_ext. by intros [].
Qed.

Lemma complete_match d : forall m sel, simple_fields (Ty.fields d) = true -> json_ok (Obj m) = true -> put_entries d m = Some sel ->
  fields_match default_limits (Ty.fields d) (complete d m) = true.
Proof.
  induction d as [[i fs] IH] using Ty.StructureDesc_nested_ind. cbn [Ty.fields put_entries complete] in *. intros m.
  destruct (forallb _ m); [|done].
  induction IH as [|f fs Hf _ IHfs]; intros sel Hs Hj Hp; [done|]. cbn [simple_fields forallb] in Hs. apply andb_true_iff in Hs as [Hsf Hs].
  cbn [put_fields map fields_match] in *. destruct (put_field put_entries f m) as [a|] eqn:Ea; [|done].
  destruct (put_fields put_entries fs m) as [b|] eqn:Eb; [|done]. rewrite (IHfs b Hs Hj eq_refl). cbn [complete_field fst snd].
  rewrite bool_decide_eq_true_2 by done. cbn [andb]. rewrite andb_true_r. unfold put_field in Ea.
  destruct (lookup_key m (Ty.name f)) as [v|] eqn:Ev; [|by apply zero_ok]. pose proof (lookup_ok m _ v Hj Ev) as Hv.
  destruct (is_leaf (Ty.field_type f)) eqn:El.
  - destruct (Ty.field_type f); try discriminate El; (destruct (put_leaf _ v) as [w|] eqn:Ew; [|done]; by apply (leaf_range _ v)).
  - destruct (Ty.field_type f) as [| | | |[j nfs]| | | | | |]; try (exfalso; cbn in El, Hsf; congruence).
    rewrite simple_structure in Hsf. apply andb_true_iff in Hsf as [Hz Hsf]. destruct v as [| | | | |[|e obj]]; try done.
    destruct (put_entries _ (e :: obj)) as [sub|] eqn:Es; [|done]. rewrite value_ok_structure, Hz. by apply (Hf _ sub).
Qed.

(** ** The whole way *)

Lemma field_bit_set B b : 1 <= b -> bit_set B b = true -> has_field_bits B = true.
Proof.
  intros Hb Hs. rewrite bit_set_testbit in Hs by lia. destruct (byte_bits b) as (Hd & Hm & Hq); [lia|].
  destruct B as [|x B]; [rewrite nth_overflow, Z.bits_0 in Hs by (cbn; lia); done|]. cbn [has_field_bits]. apply orb_true_iff.
  destruct (decide (b / 8 = 0)) as [E0|E0].
  - left. rewrite E0 in Hs. change (Z.to_nat 0) with 0%nat in Hs. cbn [nth] in Hs. apply negb_true_iff, Z.eqb_neq. intros Hz.
    assert (Hbit : Z.testbit (Z.land x 0xFE) (b mod 8) = true); [|by rewrite Hz, Z.bits_0 in Hbit].
    rewrite Z.land_spec, Hs. cbn [andb]. assert (Hk : 1 <= b mod 8 < 8) by lia. clear - Hk.
    assert (b mod 8 = 1 \/ b mod 8 = 2 \/ b mod 8 = 3 \/ b mod 8 = 4 \/ b mod 8 = 5 \/ b mod 8 = 6 \/ b mod 8 = 7) by lia.
    destruct H as [->|[->|[->|[->|[->|[->| ->]]]]]]; reflexivity.
  - right. replace (Z.to_nat (b / 8)) with (S (Z.to_nat (b / 8 - 1))) in Hs by lia. cbn [nth] in Hs.
    apply existsb_exists. exists (nth (Z.to_nat (b / 8 - 1)) B 0). split.
    + destruct (decide (Z.to_nat (b / 8 - 1) < length B)%nat); [by apply nth_In|]. rewrite nth_overflow, Z.bits_0 in Hs by lia. done.
    + apply negb_true_iff, Z.eqb_neq. intros Hz. by rewrite Hz, Z.bits_0 in Hs.
Qed.

Lemma set_bits_length bits w : forall B, 0 <= w -> Forall (fun b => 0 <= b < w) bits -> zlen B <= w -> zlen (fold_left set_bit bits B) <= w.
Proof.
  induction bits as [|b bits IH]; intros B Hw Hf HB; [done|]. apply Forall_cons in Hf as [Hb Hf]. cbn [fold_left]. apply IH; [done|done|].
  unfold set_bit, resize, zlen in *. rewrite length_insert, length_app, length_replicate. pose proof (Z.div_le_upper_bound b 8 b). 
  pose proof (Z.div_pos b 8). lia.
Qed.

Lemma attempt_found m s v (c : Z) k : (m s).1 = Ok (v, c) -> decoded_is_empty v = false -> (or_else (attempt m) k s).1 = Ok (Some v).
Proof.
  intros Hm Hv. unfold or_else, attempt, bind, try. destruct (m s) as [r s']. cbn in Hm. subst r. cbn. by rewrite Hv.
Qed.

Lemma put_nothing d bit : put_entries d [] = Some [] /\ put_bits d [] bit = [].
Proof.
  destruct d as [i fs]. cbn. revert bit. induction fs as [|f fs IH]; intros bit; [done|]. cbn. destruct (IH (bit + 1 + below f)) as [-> ->]. done.
Qed.

(** Encoding and decoding of a PUT body. *)
Lemma put_body_agrees is_be json_text d input rest :
  simple_fields (Ty.fields d) = true -> json_ok input = true -> 1 + Ty.count_structure_fields d <= u32_max ->
  Ty.fields_height (Ty.fields d) <= max_depth default_limits ->
  match normalize_root d input with
  | Ok root =>
    match put_entries d root with
    | Some (e :: sel) => exists msg, encode_put_payload is_be json_text d input = Ok msg /\
        decode_put_body is_be (msg ++ rest) d = Ok (Some (Val.Structure (e :: sel)))
    | _ => exists err, encode_put_payload is_be json_text d input = Err err
    end
  | _ => exists err, encode_put_payload is_be json_text d input = Err err
  end.
Proof.
  intros Hs Hj Hc Hh. unfold encode_put_payload.
  destruct (normalize_root d input) as [root|x| |] eqn:En; cbn [bind_outcome]; [|by eexists|exfalso; revert En; destruct input; cbn; repeat case_match; done..].
  assert (Hr : json_ok (Obj root) = true).
  { destruct input; cbn in En; try (destruct (known _ _); [|done]); injection En as <-; cbn in *; rewrite ?Hj; done. }
  pose proof (partial_spec is_be json_text d Hs root Hr (mkOut [] 1 [])) as Hp. unfold outcome_is in Hp.
  destruct (put_entries d root) as [sel|] eqn:Ee; [rewrite Hp|destruct Hp as [x ->]; by eexists]. clear Hp. cbn [bind_outcome].
  unfold extends. cbn [o_bits o_bit o_data app]. set (bits := put_bits d root 1). set (B := fold_left set_bit bits []).
  assert (Hbits : Forall (fun b => 0 <= b < 1 + Ty.count_structure_fields d) bits).
  { apply Forall_forall. intros b Hb. apply put_bits_range in Hb. lia. }
  assert (HB : forall n, 0 <= n -> bit_set B n = bool_decide (n ∈ bits)).
  { intros n Hn. unfold B. rewrite set_bits_spec; [|eapply Forall_impl; [exact Hbits|]; cbn; lia|done]. unfold bit_set. cbn.
    rewrite (proj2 (Z.ltb_ge _ _)); [done|]. apply Z.div_pos; lia. }
  destruct (put_nothing d 1) as [Hn1 Hn2]. destruct root as [|r root].
  { rewrite Hn1 in Ee. injection Ee as <-. unfold B, bits. rewrite Hn2. by eexists. }
  destruct (put_nonempty d _ _ 1 Ee) as [Hne Hsel]; [done|]. destruct sel as [|e sel]; [done|].
  assert (Hfirst : exists b, 1 <= b /\ bit_set B b = true).
  { fold bits in Hne. destruct bits as [|b l] eqn:Eb; [done|]. exists b.
    assert (Hb : 1 <= b) by (apply (put_bits_range d (r :: root) 1); fold bits; rewrite Eb; by left).
    split; [done|]. rewrite HB by lia. apply bool_decide_eq_true_2. by left. }
  destruct Hfirst as (b0 & Hb0 & Hset). pose proof (field_bit_set B b0 Hb0 Hset) as Hfb.
  assert (Hlen : 1 <= zlen B <= u32_max).
  { split; [destruct B; [done|]; rewrite zlen_cons; pose proof (zlen_nonneg B); lia|].
    etrans; [apply (set_bits_length bits (1 + Ty.count_structure_fields d) []); [|done|]|lia].
    all: pose proof (Ty.count_structure_fields_nonneg d); rewrite ?zlen_nil; lia. }
  assert (Hsl : select_delta B d (complete d (r :: root)) = e :: sel).
  { unfold select_delta. rewrite Hfb. cbn [negb andb]. apply select_put; [done|done|]. intros b Hb. apply HB. lia. }
  pose proof (delta_encode is_be default_limits PvdSafety.default_limits_ok d (complete d (r :: root)) B rest new
    (PvdSafety.idle_with_limits default_limits) Hlen (complete_match d _ _ Hs Hr Ee) Hh) as Hd.
  cbn zeta in Hd. rewrite Hsl in Hd. destruct B as [|b B]; [done|]. eexists. split; [reflexivity|].
  unfold decode_put_body, decode_put_body_steps. eapply attempt_found; [exact Hd|done].
Qed.

(** C14: a PUT arrives as it was meant.  For every channel type of numbers, strings,
    their arrays and non-empty nested structures, and every JSON input whose
    arrays are within the decoder's limits, the encoder refuses the input exactly
    when it names an unknown field, names nothing, or gives a field a value that
    stands for none of its type: text that is no number, an integer outside the
    field's range, a double whose fraction exceeds 2^-52 in an integer field.
    Otherwise it produces a body that the server decodes, whatever follows the
    body, to exactly the fields the input names with the values they stand for:
    an integer is itself; a double without a fraction is its integer part, brought
    to the nearest integer of 64 bits before a narrower field's range is checked,
    so that 1e30 in a 64-bit field arrives as its largest value; in a field of 32-bit
    floats a double is rounded, beyond their range to infinity.  The integer part
    and the fraction are those of the double's mantissa and exponent, not of the
    code's floating-point test.  The type nests within the decoder's depth limit and
    has fewer than 2^32 fields. *)
Theorem put_roundtrip is_be json_text d input rest :
  simple_fields (Ty.fields d) = true -> json_ok input = true -> 1 + Ty.count_structure_fields d <= u32_max ->
  Ty.fields_height (Ty.fields d) <= max_depth default_limits ->
  match normalize_root d input with
  | Ok root =>
    match put_entries d root with
    | Some (e :: sel) => exists msg, encode_put_payload is_be json_text d input = Ok msg /\
        decode_put_body is_be (msg ++ rest) d = Ok (Some (Val.Structure (e :: sel)))
    | _ => exists err, encode_put_payload is_be json_text d input = Err err
    end
  | _ => exists err, encode_put_payload is_be json_text d input = Err err
  end.
Proof. apply put_body_agrees. Qed.

(** ** Samples *)

Definition int_number (i : Z) : Number := mkNumber (Some i) (if i <? 0 then None else Some i) (Some (Float.of_Z i)) [].
Definition no_text (_ : Value) : bytes := [].

(** [{"a": 7, "b": {"c": "xy"}}] for a structure of an int, a structure with a
    string and a float array, and a double. *)
Definition put_desc : Ty.StructureDesc :=
  Ty.mkStruct None
    [Ty.mkField (str "a") (Ty.Scalar TypeCode.Int32);
     Ty.mkField (str "b") (Ty.Structure (Ty.mkStruct None
       [Ty.mkField (str "w") (Ty.ScalarArray TypeCode.Float64); Ty.mkField (str "c") Ty.String]));
     Ty.mkField (str "d") (Ty.Scalar TypeCode.Float64)].
Definition put_input : Value :=
  Obj [(str "a", Num (int_number 7)); (str "b", Obj [(str "c", Str (str "xy"))])].

Lemma put_roundtrip_witness : exists msg, encode_put_payload true no_text put_desc put_input = Ok msg /\
  decode_put_body true msg put_desc =
  Ok (Some (Val.Structure [(str "a", Val.Int32 7); (str "b", Val.Structure [(str "c", Val.String (str "xy"))])])).
Proof.
  pose proof (put_roundtrip true no_text put_desc put_input [] ltac:(vm_compute; reflexivity) ltac:(vm_compute; reflexivity)
    ltac:(vm_compute; discriminate) ltac:(vm_compute; discriminate)) as H.
  cbn [normalize_root put_input] in H. fold put_input in H.
  assert (E : put_entries put_desc [(str "a", Num (int_number 7)); (str "b", Obj [(str "c", Str (str "xy"))])] =
    Some [(str "a", Val.Int32 7); (str "b", Val.Structure [(str "c", Val.String (str "xy"))])]) by (vm_compute; reflexivity).
  rewrite E in H. destruct H as (msg & Hm & Hd). exists msg. split; [exact Hm|]. rewrite app_nil_r in Hd. exact Hd.
Defined.

(** [1e30] into an [int64] field is not refused: it arrives as the largest [i64];
    [1e300] into a [float] field arrives as infinity. *)
Example oversized_numbers_saturate :
  let number f := Num (mkNumber None None (Some f) []) in
  (put_scalar TypeCode.Int64 (number 0x46293E5939A08CEA), put_scalar TypeCode.Float32 (number 0x7E37E43C8800759C),
   put_scalar TypeCode.Int32 (number 0x46293E5939A08CEA)) = (Some (Val.Int64 (2 ^ 63 - 1)), Some (Val.Float32 0x7F800000), None).
Proof. vm_compute. reflexivity. Qed.

(** The elements of a structure array are written without the byte that tells the
    decoder they are there: the server decodes something else. *)
Definition array_desc : Ty.StructureDesc :=
  Ty.mkStruct None [Ty.mkField (str "value") (Ty.StructureArray (Ty.mkStruct None [Ty.mkField (str "x") (Ty.Scalar TypeCode.UInt8)]))].
Definition array_input : Value := Arr [Obj [(str "x", Num (int_number 0))]; Obj [(str "x", Num (int_number 0))]].

Theorem structure_array_put_lost :
  match encode_put_payload false no_text array_desc array_input with
  | Ok msg => decode_put_body false msg array_desc
  | _ => Ok None
  end = Ok (Some (Val.Structure [(str "value", Val.Array [Val.Structure []; Val.Structure []])])).
Proof. vm_compute. reflexivity. Qed.

End PutRoundtrip.
