(* ===== verification/Records.v ===== *)
(** * The records of the server

    [spvirit-server/src/types.rs]: the record model, the payload a record
    serves, and the writes of the host: scalars with their coercion, arrays,
    whole payloads, time stamps.  The clock is an argument [now]; the text of a
    float ([f32::to_string], [f64::to_string]) is the class [FloatText]. *)

From stdpp Require Import gmap pretty.
From Stdlib Require Import ZArith.
From S2P Require Import Prelude Utf8 Wire PvdTypes NtTypes F64 Text Calc CalcParse CalcEval MonitorHub PutEncode Convert.

Local Open Scope Z_scope.

(** What [Display] prints for a float. *)
Class FloatText : Type := { f32_text : Z -> bytes; f64_text : Z -> bytes }.

Module Records.
Import Float NtTypes PayloadEq.

(** ** The fields of an [NtScalar] that are assigned one by one *)

Definition set_value (v : ScalarValue) (nt : NtScalar) : NtScalar :=
  let '(mkScalar _ x1 x2 x3 x4 x5 x6 x7 x8 x9 x10 x11 x12 x13 x14 x15 x16 x17 x18 x19 x20 x21 x22 x23 x24 x25 x26 x27 x28) := nt in
  mkScalar v x1 x2 x3 x4 x5 x6 x7 x8 x9 x10 x11 x12 x13 x14 x15 x16 x17 x18 x19 x20 x21 x22 x23 x24 x25 x26 x27 x28.
Definition set_alarm_severity (v : Z) (nt : NtScalar) : NtScalar :=
  let '(mkScalar x0 _ x2 x3 x4 x5 x6 x7 x8 x9 x10 x11 x12 x13 x14 x15 x16 x17 x18 x19 x20 x21 x22 x23 x24 x25 x26 x27 x28) := nt in
  mkScalar x0 v x2 x3 x4 x5 x6 x7 x8 x9 x10 x11 x12 x13 x14 x15 x16 x17 x18 x19 x20 x21 x22 x23 x24 x25 x26 x27 x28.
Definition set_alarm_status (v : Z) (nt : NtScalar) : NtScalar :=
  let '(mkScalar x0 x1 _ x3 x4 x5 x6 x7 x8 x9 x10 x11 x12 x13 x14 x15 x16 x17 x18 x19 x20 x21 x22 x23 x24 x25 x26 x27 x28) := nt in
  mkScalar x0 x1 v x3 x4 x5 x6 x7 x8 x9 x10 x11 x12 x13 x14 x15 x16 x17 x18 x19 x20 x21 x22 x23 x24 x25 x26 x27 x28.
Definition set_alarm_message (v : bytes) (nt : NtScalar) : NtScalar :=
  let '(mkScalar x0 x1 x2 _ x4 x5 x6 x7 x8 x9 x10 x11 x12 x13 x14 x15 x16 x17 x18 x19 x20 x21 x22 x23 x24 x25 x26 x27 x28) := nt in
  mkScalar x0 x1 x2 v x4 x5 x6 x7 x8 x9 x10 x11 x12 x13 x14 x15 x16 x17 x18 x19 x20 x21 x22 x23 x24 x25 x26 x27 x28.
Definition set_display_low (v : Z) (nt : NtScalar) : NtScalar :=
  let '(mkScalar x0 x1 x2 x3 x4 x5 x6 x7 _ x9 x10 x11 x12 x13 x14 x15 x16 x17 x18 x19 x20 x21 x22 x23 x24 x25 x26 x27 x28) := nt in
  mkScalar x0 x1 x2 x3 x4 x5 x6 x7 v x9 x10 x11 x12 x13 x14 x15 x16 x17 x18 x19 x20 x21 x22 x23 x24 x25 x26 x27 x28.
Definition set_display_high (v : Z) (nt : NtScalar) : NtScalar :=
  let '(mkScalar x0 x1 x2 x3 x4 x5 x6 x7 x8 _ x10 x11 x12 x13 x14 x15 x16 x17 x18 x19 x20 x21 x22 x23 x24 x25 x26 x27 x28) := nt in
  mkScalar x0 x1 x2 x3 x4 x5 x6 x7 x8 v x10 x11 x12 x13 x14 x15 x16 x17 x18 x19 x20 x21 x22 x23 x24 x25 x26 x27 x28.
Definition set_display_description (v : bytes) (nt : NtScalar) : NtScalar :=
  let '(mkScalar x0 x1 x2 x3 x4 x5 x6 x7 x8 x9 _ x11 x12 x13 x14 x15 x16 x17 x18 x19 x20 x21 x22 x23 x24 x25 x26 x27 x28) := nt in
  mkScalar x0 x1 x2 x3 x4 x5 x6 x7 x8 x9 v x11 x12 x13 x14 x15 x16 x17 x18 x19 x20 x21 x22 x23 x24 x25 x26 x27 x28.
Definition set_display_precision (v : Z) (nt : NtScalar) : NtScalar :=
  let '(mkScalar x0 x1 x2 x3 x4 x5 x6 x7 x8 x9 x10 _ x12 x13 x14 x15 x16 x17 x18 x19 x20 x21 x22 x23 x24 x25 x26 x27 x28) := nt in
  mkScalar x0 x1 x2 x3 x4 x5 x6 x7 x8 x9 x10 v x12 x13 x14 x15 x16 x17 x18 x19 x20 x21 x22 x23 x24 x25 x26 x27 x28.
Definition set_display_form_index (v : Z) (nt : NtScalar) : NtScalar :=
  let '(mkScalar x0 x1 x2 x3 x4 x5 x6 x7 x8 x9 x10 x11 _ x13 x14 x15 x16 x17 x18 x19 x20 x21 x22 x23 x24 x25 x26 x27 x28) := nt in
  mkScalar x0 x1 x2 x3 x4 x5 x6 x7 x8 x9 x10 x11 v x13 x14 x15 x16 x17 x18 x19 x20 x21 x22 x23 x24 x25 x26 x27 x28.
Definition set_display_form_choices (v : list bytes) (nt : NtScalar) : NtScalar :=
  let '(mkScalar x0 x1 x2 x3 x4 x5 x6 x7 x8 x9 x10 x11 x12 _ x14 x15 x16 x17 x18 x19 x20 x21 x22 x23 x24 x25 x26 x27 x28) := nt in
  mkScalar x0 x1 x2 x3 x4 x5 x6 x7 x8 x9 x10 x11 x12 v x14 x15 x16 x17 x18 x19 x20 x21 x22 x23 x24 x25 x26 x27 x28.
Definition set_control_low (v : Z) (nt : NtScalar) : NtScalar :=
  let '(mkScalar x0 x1 x2 x3 x4 x5 x6 x7 x8 x9 x10 x11 x12 x13 _ x15 x16 x17 x18 x19 x20 x21 x22 x23 x24 x25 x26 x27 x28) := nt in
  mkScalar x0 x1 x2 x3 x4 x5 x6 x7 x8 x9 x10 x11 x12 x13 v x15 x16 x17 x18 x19 x20 x21 x22 x23 x24 x25 x26 x27 x28.
Definition set_control_high (v : Z) (nt : NtScalar) : NtScalar :=
  let '(mkScalar x0 x1 x2 x3 x4 x5 x6 x7 x8 x9 x10 x11 x12 x13 x14 _ x16 x17 x18 x19 x20 x21 x22 x23 x24 x25 x26 x27 x28) := nt in
  mkScalar x0 x1 x2 x3 x4 x5 x6 x7 x8 x9 x10 x11 x12 x13 x14 v x16 x17 x18 x19 x20 x21 x22 x23 x24 x25 x26 x27 x28.
Definition set_control_min_step (v : Z) (nt : NtScalar) : NtScalar :=
  let '(mkScalar x0 x1 x2 x3 x4 x5 x6 x7 x8 x9 x10 x11 x12 x13 x14 x15 _ x17 x18 x19 x20 x21 x22 x23 x24 x25 x26 x27 x28) := nt in
  mkScalar x0 x1 x2 x3 x4 x5 x6 x7 x8 x9 x10 x11 x12 x13 x14 x15 v x17 x18 x19 x20 x21 x22 x23 x24 x25 x26 x27 x28.
Definition set_sc_units (v : bytes) (nt : NtScalar) : NtScalar :=
  let '(mkScalar x0 x1 x2 x3 x4 x5 x6 x7 x8 x9 x10 x11 x12 x13 x14 x15 x16 _ x18 x19 x20 x21 x22 x23 x24 x25 x26 x27 x28) := nt in
  mkScalar x0 x1 x2 x3 x4 x5 x6 x7 x8 x9 x10 x11 x12 x13 x14 x15 x16 v x18 x19 x20 x21 x22 x23 x24 x25 x26 x27 x28.
Definition set_time_stamp (v : option NtTimeStamp) (nt : NtScalar) : NtScalar :=
  let '(mkScalar x0 x1 x2 x3 x4 x5 x6 x7 x8 x9 x10 x11 x12 x13 x14 x15 x16 x17 x18 x19 x20 x21 x22 x23 x24 x25 x26 x27 _) := nt in
  mkScalar x0 x1 x2 x3 x4 x5 x6 x7 x8 x9 x10 x11 x12 x13 x14 x15 x16 x17 x18 x19 x20 x21 x22 x23 x24 x25 x26 x27 v.

(** ** Data *)

Inductive RecordType : Type :=
| TAi | TAo | TBi | TBo | TStringIn | TStringOut | TWaveform | TAai | TAao | TSubArray
| TNtTable | TNtNdArray | TMbbi | TMbbo | TGeneric | TLongIn | TLongOut.

Definition from_db_name (name : bytes) : option RecordType :=
  let n := Text.to_ascii_lowercase name in
  let named s := bool_decide (n = str s) in
  if named "ai" then Some TAi else if named "ao" then Some TAo
  else if named "bi" then Some TBi else if named "bo" then Some TBo
  else if named "stringin" then Some TStringIn else if named "stringout" then Some TStringOut
  else if named "waveform" then Some TWaveform else if named "aai" then Some TAai
  else if named "aao" then Some TAao else if named "subarray" then Some TSubArray
  else if named "mbbi" || named "ntenum" then Some TMbbi
  else if named "mbbo" then Some TMbbo
  else None.

Definition is_output (t : RecordType) : bool :=
  match t with TAo | TBo | TStringOut | TAao | TMbbo | TLongOut => true | _ => false end.

(** A [Duration] is its nanoseconds. *)
Inductive ScanMode : Type := Passive | Periodic (every : Z) | Event (name : bytes) | IoEvent (name : bytes).

Inductive LinkExpr : Type :=
| Constant (v : ScalarValue)
| DbLink (target : bytes) (process_passive maximize_severity : bool).

Inductive OutputMode : Type := Supervisory | ClosedLoop.

Record DbCommonState := mkCommon {
  desc : bytes; scan : ScanMode; pini : bool; phas : Z; pact : bool; disa : bool;
  sdis : option LinkExpr; diss : Z; flnk : option LinkExpr }.

Definition default_common : DbCommonState := mkCommon [] Passive false 0 false false None 0 None.

Inductive RecordData : Type :=
| Ai (nt : NtScalar) (inp siml siol : option LinkExpr) (simm : bool)
| Ao (nt : NtScalar) (out dol : option LinkExpr) (omsl : OutputMode) (drvl drvh oroc : option Z)
     (siml siol : option LinkExpr) (simm : bool)
| Bi (nt : NtScalar) (inp : option LinkExpr) (znam onam : bytes) (siml siol : option LinkExpr) (simm : bool)
| Bo (nt : NtScalar) (out dol : option LinkExpr) (omsl : OutputMode) (znam onam : bytes)
     (siml siol : option LinkExpr) (simm : bool)
| StringIn (nt : NtScalar) (inp siml siol : option LinkExpr) (simm : bool)
| StringOut (nt : NtScalar) (out dol : option LinkExpr) (omsl : OutputMode) (siml siol : option LinkExpr) (simm : bool)
| Waveform (nt : NtScalarArray) (inp : option LinkExpr) (ftvl : bytes) (nelm nord : Z)
| Aai (nt : NtScalarArray) (inp : option LinkExpr) (ftvl : bytes) (nelm nord : Z)
| Aao (nt : NtScalarArray) (out dol : option LinkExpr) (omsl : OutputMode) (ftvl : bytes) (nelm nord : Z)
| SubArray (nt : NtScalarArray) (inp : option LinkExpr) (ftvl : bytes) (malm nelm nord indx : Z)
| RTable (nt : NtTable) (inp out : option LinkExpr) (omsl : OutputMode)
| RNdArray (nt : NtNdArray) (inp out : option LinkExpr) (omsl : OutputMode)
| REnum (nt : NtEnum) (inp out : option LinkExpr) (omsl : OutputMode)
| RGeneric (struct_id : bytes) (fields : list (bytes * PvValue)) (inp out : option LinkExpr) (omsl : OutputMode).

Record RecordInstance := mkRecord {
  name : bytes; record_type : RecordType; common : DbCommonState; data : RecordData;
  raw_fields : gmap bytes bytes }.

Definition with_data (r : RecordInstance) (d : RecordData) : RecordInstance :=
  mkRecord (name r) (record_type r) (common r) d (raw_fields r).

(** ** Access *)

Definition nt_scalar (d : RecordData) : option NtScalar :=
  match d with
  | Ai nt _ _ _ _ | Ao nt _ _ _ _ _ _ _ _ _ | Bi nt _ _ _ _ _ _ | Bo nt _ _ _ _ _ _ _ _
  | StringIn nt _ _ _ _ | StringOut nt _ _ _ _ _ _ => Some nt
  | _ => None
  end.

(** [*nt = v] through the reference of [nt_scalar_mut]. *)
Definition put_scalar (d : RecordData) (v : NtScalar) : RecordData :=
  match d with
  | Ai _ a b c e => Ai v a b c e
  | Ao _ a b c e f g h i j => Ao v a b c e f g h i j
  | Bi _ a b c e f g => Bi v a b c e f g
  | Bo _ a b c e f g h i => Bo v a b c e f g h i
  | StringIn _ a b c e => StringIn v a b c e
  | StringOut _ a b c e f g => StringOut v a b c e f g
  | d => d
  end.

(** The array of the four array records, with [nelm] and [nord]. *)
Definition nt_array (d : RecordData) : option (NtScalarArray * Z * Z) :=
  match d with
  | Waveform nt _ _ nelm nord | Aai nt _ _ nelm nord | Aao nt _ _ _ _ nelm nord | SubArray nt _ _ _ nelm nord _ =>
    Some (nt, nelm, nord)
  | _ => None
  end.

(** [*nt = v; *nord = n]. *)
Definition put_array (d : RecordData) (v : NtScalarArray) (n : Z) : RecordData :=
  match d with
  | Waveform _ a b nelm _ => Waveform v a b nelm n
  | Aai _ a b nelm _ => Aai v a b nelm n
  | Aao _ a b c e nelm _ => Aao v a b c e nelm n
  | SubArray _ a b malm nelm _ indx => SubArray v a b malm nelm n indx
  | d => d
  end.

(** [nt_mut] panics where [nt_scalar_mut] gives [None]. *)
Definition nt_mut (d : RecordData) : outcome Empty_set NtScalar :=
  match nt_scalar d with Some nt => Ok nt | None => Panic end.

(** [payload_ref]; [to_owned_payload] clones the same variant, so that
    [payload] is this value. *)
Definition payload (d : RecordData) : NtPayload :=
  match d with
  | Ai nt _ _ _ _ | Ao nt _ _ _ _ _ _ _ _ _ | Bi nt _ _ _ _ _ _ | Bo nt _ _ _ _ _ _ _ _
  | StringIn nt _ _ _ _ | StringOut nt _ _ _ _ _ _ => Scalar nt
  | Waveform nt _ _ _ _ | Aai nt _ _ _ _ | Aao nt _ _ _ _ _ _ | SubArray nt _ _ _ _ _ _ => ScalarArray nt
  | RTable nt _ _ _ => Table nt
  | RNdArray nt _ _ _ => NdArray nt
  | REnum nt _ _ _ => Enum nt
  | RGeneric id fs _ _ _ => Generic id fs
  end.

Definition to_ntpayload (r : RecordInstance) : NtPayload := payload (data r).

Definition writable (r : RecordInstance) : bool :=
  if is_output (record_type r) then true
  else
    match data r with
    | Ai _ _ _ _ true => true
    | Waveform _ _ _ _ _ => true
    | RTable _ _ _ _ => true
    | RNdArray _ _ _ _ => true
    | RGeneric _ _ _ _ _ => true
    | _ => false
    end.

Definition record_severity (r : RecordInstance) : Z :=
  match to_ntpayload r with Scalar nt => alarm_severity nt | _ => 0 end.

(** [n as i32]. *)
Definition as_i32 (n : Z) : Z := to_signed 32 (n mod 2 ^ 32).

Definition current_value (r : RecordInstance) : ScalarValue :=
  match to_ntpayload r with
  | Scalar nt => value nt
  | ScalarArray nt => I32 (as_i32 (len (sa_value nt)))
  | Table nt => I32 (as_i32 (zlen (columns nt)))
  | NdArray nt => I32 (as_i32 (zlen (dimension nt)))
  | Enum nt => I32 (enum_index nt)
  | Generic _ fs => I32 (as_i32 (zlen fs))
  end.

Definition to_ntscalar (r : RecordInstance) : NtScalar :=
  let described v s := set_display_description s (from_value v) in
  match to_ntpayload r with
  | Scalar nt => nt
  | ScalarArray nt => described (I32 (as_i32 (len (sa_value nt)))) (str "Array length")
  | Table nt => described (I32 (as_i32 (zlen (columns nt)))) (str "Table columns")
  | NdArray nt => described (I32 (as_i32 (zlen (dimension nt)))) (str "NDArray dimensions")
  | Enum nt => described (I32 (enum_index nt)) (match selected nt with Some s => s | None => [] end)
  | Generic _ fs => described (I32 (as_i32 (zlen fs))) (str "Generic structure")
  end.

(** ** Time stamps *)

Definition set_array_time (ts : NtTimeStamp) (nt : NtScalarArray) : NtScalarArray :=
  mkScalarArray (sa_value nt) (sa_alarm nt) ts (sa_display nt) (sa_control nt).

Definition set_array_data (v : ScalarArrayValue) (nt : NtScalarArray) : NtScalarArray :=
  mkScalarArray v (sa_alarm nt) (sa_time_stamp nt) (sa_display nt) (sa_control nt).

Definition set_table_time (ts : option NtTimeStamp) (nt : NtTable) : NtTable :=
  mkTable (labels nt) (columns nt) (tb_descriptor nt) (tb_alarm nt) ts.

Definition set_nd_times (ts : option NtTimeStamp) (dts : NtTimeStamp) (nt : NtNdArray) : NtNdArray :=
  mkNdArray (nd_value nt) (codec nt) (compressed_size nt) (uncompressed_size nt) (dimension nt) (unique_id nt)
    dts (attribute nt) (nd_descriptor nt) (nd_alarm nt) ts (nd_display nt).

Definition set_nd_value (v : ScalarArrayValue) (nt : NtNdArray) : NtNdArray :=
  mkNdArray v (codec nt) (compressed_size nt) (uncompressed_size nt) (dimension nt) (unique_id nt)
    (data_time_stamp nt) (attribute nt) (nd_descriptor nt) (nd_alarm nt) (nd_time_stamp nt) (nd_display nt).

Definition set_enum_time (ts : NtTimeStamp) (nt : NtEnum) : NtEnum :=
  mkEnum (enum_index nt) (choices nt) (en_alarm nt) ts.

Definition set_enum_index (i : Z) (nt : NtEnum) : NtEnum :=
  mkEnum i (choices nt) (en_alarm nt) (en_time_stamp nt).

(** [opt.get_or_insert(ts)], and the same for the default of a time stamp. *)
Definition or_now (ts : option NtTimeStamp) (now : NtTimeStamp) : option NtTimeStamp :=
  match ts with None => Some now | ts => ts end.
Definition default_or (ts now : NtTimeStamp) : NtTimeStamp := if time_eq ts default_time_stamp then now else ts.

Definition stamp_missing_timestamps (now : NtTimeStamp) (r : RecordInstance) : RecordInstance :=
  with_data r
    match nt_scalar (data r), nt_array (data r), data r with
    | Some nt, _, d => put_scalar d (set_time_stamp (or_now (time_stamp nt) now) nt)
    | None, Some (nt, _, nord), d => put_array d (set_array_time (default_or (sa_time_stamp nt) now) nt) nord
    | None, None, REnum nt a b c => REnum (set_enum_time (default_or (en_time_stamp nt) now) nt) a b c
    | None, None, RTable nt a b c => RTable (set_table_time (or_now (tb_time_stamp nt) now) nt) a b c
    | None, None, RNdArray nt a b c =>
      RNdArray (set_nd_times (or_now (nd_time_stamp nt) now) (default_or (data_time_stamp nt) now) nt) a b c
    | None, None, d => d
    end.

Definition set_record_time (ts : NtTimeStamp) (r : RecordInstance) : RecordInstance :=
  with_data r
    match nt_scalar (data r), nt_array (data r), data r with
    | Some nt, _, d => put_scalar d (set_time_stamp (Some ts) nt)
    | None, Some (nt, _, nord), d => put_array d (set_array_time ts nt) nord
    | None, None, REnum nt a b c => REnum (set_enum_time ts nt) a b c
    | None, None, RTable nt a b c => RTable (set_table_time (Some ts) nt) a b c
    | None, None, RNdArray nt a b c => RNdArray (set_nd_times (Some ts) ts nt) a b c
    | None, None, d => d
    end.

(** ** Coercion of a host write *)

Section Writes.
Context `{FloatText}.

Definition as_i128 (v : ScalarValue) : option Z :=
  match v with
  | Bool b => Some (if b then 1 else 0)
  | I8 x | I16 x | I32 x | I64 x | U8 x | U16 x | U32 x | U64 x => Some x
  | F32 _ | F64 _ | Str _ => None
  end.

Definition as_f64 (v : ScalarValue) : option Z :=
  match v with
  | F32 x => Some (widen x)
  | F64 x => Some x
  | Str _ => None
  | other => of_Z <$> as_i128 other
  end.

Definition scalar_to_string (v : ScalarValue) : bytes :=
  match v with
  | Bool x => if x then str "1" else str "0"
  | I8 x | I16 x | I32 x | I64 x | U8 x | U16 x | U32 x | U64 x => str (pretty x)
  | F32 x => f32_text x
  | F64 x => f64_text x
  | Str s => s
  end.

Definition parse_bool_like (input : bytes) : option bool :=
  let s := Text.to_ascii_lowercase (Text.trim input) in
  let any l := existsb (fun t => bool_decide (s = str t)) l in
  if any ["1"; "true"; "yes"; "on"]%string then Some true
  else if any ["0"; "false"; "no"; "off"]%string then Some false
  else None.

(** [int::<T>] for an integer type [T] given by its [try_from]. *)
Definition to_int (T : Z -> option Z) (v : ScalarValue) : option Z :=
  match as_i128 v with
  | Some i => T i
  | None =>
    match as_f64 v with
    | Some f => if CalcEval.is_finite f then T (CalcEval.as_int (- 2 ^ 127) (2 ^ 127 - 1) f) else None
    | None => None
    end
  end.

Definition coerce_cross_variant (target incoming : ScalarValue) : option ScalarValue :=
  match incoming with
  | Str s =>
    match target with
    | Bool _ => Bool <$> parse_bool_like s
    | I32 _ => I32 <$> Text.parse_i32 s
    | F64 _ => (fun f => F64 (f mod 2 ^ 64)) <$> Text.parse_f64 s
    | _ => None
    end
  | _ =>
    match target with
    | Str _ => Some (Str (scalar_to_string incoming))
    | Bool _ =>
      match as_i128 incoming with
      | Some i => Some (Bool (negb (i =? 0)))
      | None => (fun f => Bool (negb (eq64 f 0))) <$> as_f64 incoming
      end
    | F64 _ => F64 <$> as_f64 incoming
    | F32 _ => (fun f => F32 (PutEncode.to_f32 f)) <$> as_f64 incoming
    | I8 _ => I8 <$> to_int (Convert.signed 8) incoming
    | I16 _ => I16 <$> to_int (Convert.signed 16) incoming
    | I32 _ => I32 <$> to_int (Convert.signed 32) incoming
    | I64 _ => I64 <$> to_int (Convert.signed 64) incoming
    | U8 _ => U8 <$> to_int (Convert.unsigned 8) incoming
    | U16 _ => U16 <$> to_int (Convert.unsigned 16) incoming
    | U32 _ => U32 <$> to_int (Convert.unsigned 32) incoming
    | U64 _ => U64 <$> to_int (Convert.unsigned 64) incoming
    end
  end.

(** [std::mem::discriminant]. *)
Definition same_variant (a b : ScalarValue) : bool :=
  match a, b with
  | Bool _, Bool _ | I8 _, I8 _ | I16 _, I16 _ | I32 _, I32 _ | I64 _, I64 _
  | U8 _, U8 _ | U16 _, U16 _ | U32 _, U32 _ | U64 _, U64 _
  | F32 _, F32 _ | F64 _, F64 _ | Str _, Str _ => true
  | _, _ => false
  end.

Definition coerce_into (target incoming : ScalarValue) : option ScalarValue :=
  if same_variant target incoming then Some incoming else coerce_cross_variant target incoming.

(** ** Writes of the host *)

Context (now : NtTimeStamp).

Definition try_set_scalar_value (r : RecordInstance) (v : ScalarValue) (compute_alarms : bool)
  : RecordInstance * option bool :=
  match data r with
  | REnum nt inp out omsl =>
    let idx := match v with I32 i | I16 i | I8 i => Some i | I64 i => Some (as_i32 i) | _ => None end in
    match idx with
    | None => (r, Some false)
    | Some idx =>
      if (idx <? 0) || (zlen (choices nt) <=? idx) then (r, Some false)
      else if enum_index nt =? idx then (r, Some false)
      else (with_data r (REnum (set_enum_time now (set_enum_index idx nt)) inp out omsl), Some true)
    end
  | d =>
    match nt_scalar d with
    | None => (r, Some false)
    | Some nt =>
      match coerce_into (value nt) v with
      | None => (r, None)
      | Some next =>
        if scalar_eq (value nt) next then (r, Some false)
        else
          let nt := set_time_stamp (Some now) (set_value next nt) in
          let nt := if compute_alarms then update_alarm_from_value nt else nt in
          (with_data r (put_scalar d nt), Some true)
      end
    end
  end.

Definition set_scalar_value (r : RecordInstance) (v : ScalarValue) (compute_alarms : bool) : RecordInstance * bool :=
  let '(r, o) := try_set_scalar_value r v compute_alarms in (r, match o with Some c => c | None => false end).

Definition truncate_scalar_array_to_nelm (v : ScalarArrayValue) (nelm : Z) : ScalarArrayValue :=
  let n := Z.to_nat nelm in
  match v with
  | ABool v => ABool (take n v)
  | AI8 v => AI8 (take n v) | AI16 v => AI16 (take n v) | AI32 v => AI32 (take n v) | AI64 v => AI64 (take n v)
  | AU8 v => AU8 (take n v) | AU16 v => AU16 (take n v) | AU32 v => AU32 (take n v) | AU64 v => AU64 (take n v)
  | AF32 v => AF32 (take n v) | AF64 v => AF64 (take n v)
  | AStr v => AStr (take n v)
  end.

Definition set_array_value (r : RecordInstance) (v : ScalarArrayValue) : RecordInstance * bool :=
  match data r with
  | RNdArray nt inp out omsl =>
    if array_eq (nd_value nt) v then (r, false)
    else (with_data r (RNdArray (set_nd_times (Some now) now (set_nd_value v nt)) inp out omsl), true)
  | d =>
    match nt_array d with
    | None => (r, false)
    | Some (nt, nelm, _) =>
      let next := truncate_scalar_array_to_nelm v nelm in
      if array_eq (sa_value nt) next then (r, false)
      else (with_data r (put_array d (set_array_time now (set_array_data next nt)) (len next)), true)
    end
  end.

(** The overflow check in the validation of an NTNDArray can panic. *)
Definition set_nt_payload (r : RecordInstance) (p : NtPayload) : outcome Empty_set (RecordInstance * bool) :=
  match nt_scalar (data r), nt_array (data r), data r, p with
  | Some nt, _, d, Scalar next =>
    if nt_scalar_eq nt next then Ok (r, false)
    else Ok (with_data r (put_scalar d (set_time_stamp (or_now (time_stamp next) now) next)), true)
  | None, Some (nt, nelm, _), d, ScalarArray next =>
    let next := set_array_data (truncate_scalar_array_to_nelm (sa_value next) nelm) next in
    if nt_scalar_array_eq nt next then Ok (r, false)
    else Ok (with_data r (put_array d (set_array_time (default_or (sa_time_stamp next) now) next) (len (sa_value next))), true)
  | None, None, RTable nt inp out omsl, Table next =>
    match table_validate next with
    | Ok _ =>
      if table_eq nt next then Ok (r, false)
      else Ok (with_data r (RTable (set_table_time (or_now (tb_time_stamp next) now) next) inp out omsl), true)
    | Err _ => Ok (r, false)
    | Panic => Panic
    | OutOfFuel => OutOfFuel
    end
  | None, None, RNdArray nt inp out omsl, NdArray next =>
    match ndarray_validate next with
    | Ok _ =>
      if ndarray_eq nt next then Ok (r, false)
      else Ok (with_data r (RNdArray (set_nd_times (or_now (nd_time_stamp next) now) (default_or (data_time_stamp next) now) next) inp out omsl), true)
    | Err _ => Ok (r, false)
    | Panic => Panic
    | OutOfFuel => OutOfFuel
    end
  | None, None, REnum nt inp out omsl, Enum next =>
    if enum_eq nt next then Ok (r, false)
    else Ok (with_data r (REnum (set_enum_time (default_or (en_time_stamp next) now) next) inp out omsl), true)
  | None, None, RGeneric id fs inp out omsl, Generic id' fs' =>
    if payload_eq (Generic id fs) (Generic id' fs') then Ok (r, false)
    else Ok (with_data r (RGeneric id' fs' inp out omsl), true)
  | _, _, _, _ => Ok (r, false)
  end.

End Writes.

End Records.
