(* ===== verification/Apply.v ===== *)
(** * Applying a PUT to a record

    [spvirit-server/src/apply.rs]: the walks over the fields of a decoded PUT
    that update a scalar, an array, a table, an NTNDArray or an enum, the choice
    of the time stamp, and [RecordInstance::apply_put].  A mutable reference is
    passed as a value and returned; the text of a refusal is its parts.

    [host_wire_agree]: the conversion of the PUT path against the coercion of
    the host path ([Records.coerce_into]).  [put_stores_or_refuses]: what a PUT
    leaves in a record. *)

From stdpp Require Import gmap.
From Stdlib Require Import ZArith.
From S2P Require Import Prelude Utf8 Wire PvdTypes NtTypes F64 Text Calc CalcParse CalcEval MonitorHub PutEncode Convert Records.

Local Open Scope Z_scope.

Module Apply.
Import Float NtTypes PayloadEq Convert Records.
Import Val(DecodedValue).

Abbreviation fields_of_put := (list (bytes * DecodedValue)).

Definition named (n : bytes) (s : String.string) : bool := bool_decide (n = str s).

(** ** Scalars *)

(** The conversion to the variant of the current value. *)
Definition decode_as (target : ScalarValue) (val : DecodedValue) : option ScalarValue :=
  match target with
  | Bool _ => Bool <$> decoded_to_bool val
  | I8 _ => I8 <$> decoded_to_i8 val
  | I16 _ => I16 <$> decoded_to_i16 val
  | I32 _ => I32 <$> decoded_to_i32 val
  | I64 _ => I64 <$> decoded_to_i64 val
  | U8 _ => U8 <$> decoded_to_u8 val
  | U16 _ => U16 <$> decoded_to_u16 val
  | U32 _ => U32 <$> decoded_to_u32 val
  | U64 _ => U64 <$> decoded_to_u64 val
  | F32 _ => F32 <$> decoded_to_f32 val
  | F64 _ => F64 <$> decoded_to_f64 val
  | Str _ => Str <$> decoded_to_string val
  end.

Definition assign_value (nt : NtScalar) (val : DecodedValue) (compute_alarms : bool) : NtScalar * bool :=
  match decode_as (value nt) val with
  | Some v =>
    let nt := set_value v nt in
    (if compute_alarms then update_alarm_from_value nt else nt, true)
  | None => (nt, false)
  end.

Fixpoint apply_value_update (nt : NtScalar) (val : DecodedValue) (compute_alarms : bool) {struct val} : NtScalar * bool :=
  match val with
  | Val.Structure fields =>
    (fix first (fs : fields_of_put) : NtScalar * bool :=
       match fs with
       | [] => assign_value nt val compute_alarms
       | (name, inner) :: fs =>
         if named name "value" then apply_value_update nt inner compute_alarms else first fs
       end) fields
  | _ => assign_value nt val compute_alarms
  end.

(** [if let Some(v) = .. { field = v; changed = true; }]. *)
Definition assign {A S} (o : option A) (set : A -> S -> S) (acc : S * bool) : S * bool :=
  match o with Some v => (set v acc.1, true) | None => acc end.

Definition alarm_field (acc : NtScalar * bool) (f : bytes * DecodedValue) : NtScalar * bool :=
  let '(name, v) := f in
  if named name "severity" then assign (decoded_to_i32 v) set_alarm_severity acc
  else if named name "status" then assign (decoded_to_i32 v) set_alarm_status acc
  else if named name "message" then assign (decoded_to_string v) set_alarm_message acc
  else acc.

Definition apply_alarm_update (nt : NtScalar) (val : DecodedValue) : NtScalar * bool :=
  match val with Val.Structure fields => fold_left alarm_field fields (nt, false) | _ => (nt, false) end.

Definition form_field (acc : NtScalar * bool) (f : bytes * DecodedValue) : NtScalar * bool :=
  let '(name, v) := f in
  if named name "index" then assign (decoded_to_i32 v) set_display_form_index acc
  else if named name "choices" then
    match v with
    | Val.Array items =>
      let choices := omap decoded_to_string items in
      match choices with [] => acc | _ => (set_display_form_choices choices acc.1, true) end
    | _ => acc
    end
  else acc.

Definition display_field (acc : NtScalar * bool) (f : bytes * DecodedValue) : NtScalar * bool :=
  let '(name, v) := f in
  if named name "low" || named name "limitLow" then assign (decoded_to_f64 v) set_display_low acc
  else if named name "high" || named name "limitHigh" then assign (decoded_to_f64 v) set_display_high acc
  else if named name "description" then assign (decoded_to_string v) set_display_description acc
  else if named name "units" then assign (decoded_to_string v) set_sc_units acc
  else if named name "precision" then assign (decoded_to_i32 v) set_display_precision acc
  else if named name "form" then
    match v with
    | Val.Structure form_fields =>
      let '(nt, updated) := fold_left form_field form_fields (acc.1, false) in (nt, acc.2 || updated)
    | _ => acc
    end
  else acc.

Definition apply_display_update (nt : NtScalar) (val : DecodedValue) : NtScalar * bool :=
  match val with Val.Structure fields => fold_left display_field fields (nt, false) | _ => (nt, false) end.

Definition control_field (acc : NtScalar * bool) (f : bytes * DecodedValue) : NtScalar * bool :=
  let '(name, v) := f in
  if named name "low" || named name "limitLow" then assign (decoded_to_f64 v) set_control_low acc
  else if named name "high" || named name "limitHigh" then assign (decoded_to_f64 v) set_control_high acc
  else if named name "minStep" then assign (decoded_to_f64 v) set_control_min_step acc
  else acc.

Definition apply_control_update (nt : NtScalar) (val : DecodedValue) : NtScalar * bool :=
  match val with Val.Structure fields => fold_left control_field fields (nt, false) | _ => (nt, false) end.

(** ** Arrays and tables *)

(** [None] is a refusal. *)
Definition apply_scalar_array_put (nt : NtScalarArray) (nord : Z) (val : DecodedValue)
  : NtScalarArray * Z * option bool :=
  let field_value :=
    match val with
    | Val.Structure fields => field fields (str "value")
    | _ => Some val
    end in
  match field_value with
  | None => (nt, nord, Some false)
  | Some v =>
    match decoded_to_scalar_array v (sa_value nt) with
    | None => (nt, nord, None)
    | Some next =>
      if array_eq (sa_value nt) next then (nt, nord, Some false)
      else (set_array_data next nt, len next, Some true)
    end
  end.

(** [nt.columns.iter().position(|c| c.name == name)] with the column. *)
Fixpoint position (cols : list NtTableColumn) (name : bytes) (i : nat) : option (nat * NtTableColumn) :=
  match cols with
  | [] => None
  | c :: cols => if bool_decide (col_name c = name) then Some (i, c) else position cols name (S i)
  end.

Fixpoint decode_columns (nt : NtTable) (cols : fields_of_put) : option (list (nat * ScalarArrayValue)) :=
  match cols with
  | [] => Some []
  | (col_name, col_value) :: cols =>
    match position (columns nt) col_name 0 with
    | None => decode_columns nt cols
    | Some (idx, col) =>
      next ← decoded_to_scalar_array col_value (col_values col);
      rest ← decode_columns nt cols; Some ((idx, next) :: rest)
    end
  end.

Fixpoint next_columns (nt : NtTable) (fields : fields_of_put) : option (list (nat * ScalarArrayValue)) :=
  match fields with
  | [] => Some []
  | (name, v) :: fields =>
    match named name "value", v with
    | true, Val.Structure cols =>
      here ← decode_columns nt cols; rest ← next_columns nt fields; Some (here ++ rest)
    | _, _ => next_columns nt fields
    end
  end.

Definition set_labels (v : list bytes) (nt : NtTable) : NtTable :=
  mkTable v (columns nt) (tb_descriptor nt) (tb_alarm nt) (tb_time_stamp nt).
Definition set_columns (v : list NtTableColumn) (nt : NtTable) : NtTable :=
  mkTable (labels nt) v (tb_descriptor nt) (tb_alarm nt) (tb_time_stamp nt).
Definition set_tb_descriptor (v : option bytes) (nt : NtTable) : NtTable :=
  mkTable (labels nt) (columns nt) v (tb_alarm nt) (tb_time_stamp nt).
Definition set_tb_alarm (v : option NtAlarm) (nt : NtTable) : NtTable :=
  mkTable (labels nt) (columns nt) (tb_descriptor nt) v (tb_time_stamp nt).

(** [if current != next { current = next; changed = true; }]. *)
Definition replace_if {A S} (eq : A -> A -> bool) (get : S -> A) (set : A -> S -> S) (next : A) (acc : S * bool) : S * bool :=
  if eq (get acc.1) next then acc else (set next acc.1, true).

Definition set_column (acc : NtTable * bool) (u : nat * ScalarArrayValue) : NtTable * bool :=
  let '(idx, next) := u in
  match columns acc.1 !! idx with
  | Some col =>
    if array_eq (col_values col) next then acc
    else (set_columns (<[idx := mkColumn (col_name col) next]> (columns acc.1)) acc.1, true)
  | None => acc
  end.

Definition non_empty (s : bytes) : option bytes := match s with [] => None | _ => Some s end.

(** The columns decoded beforehand are taken by the first [value]. *)
Definition table_field (st : NtTable * bool * list (nat * ScalarArrayValue)) (f : bytes * DecodedValue)
  : NtTable * bool * list (nat * ScalarArrayValue) :=
  let '(acc, pending) := st in
  let '(name, v) := f in
  if named name "labels" then
    match v with
    | Val.Array items =>
      match omap decoded_to_string items with
      | [] => st
      | ls => (replace_if (list_eq bytes_eq) labels set_labels ls acc, pending)
      end
    | _ => st
    end
  else if named name "value" then (fold_left set_column pending acc, [])
  else if named name "descriptor" then
    match decoded_to_string v with
    | Some s => (replace_if (opt_eq bytes_eq) tb_descriptor set_tb_descriptor (non_empty s) acc, pending)
    | None => st
    end
  else if named name "alarm" then
    match decode_nt_alarm v with
    | Some a => (replace_if (opt_eq alarm_eq) tb_alarm set_tb_alarm (Some a) acc, pending)
    | None => st
    end
  else st.

Definition apply_table_put (nt : NtTable) (val : DecodedValue) : NtTable * option bool :=
  match val with
  | Val.Structure fields =>
    match next_columns nt fields with
    | None => (nt, None)
    | Some pending =>
      let '(nt, changed, _) := fold_left table_field fields (nt, false, pending) in (nt, Some changed)
    end
  | _ => (nt, Some false)
  end.

(** ** NTNDArray *)

Definition nd_with (nt : NtNdArray) (v : ScalarArrayValue) (c : NdCodec) (cs us : Z) (ds : list NdDimension) (uid : Z)
    (ats : list NtAttribute) (d : option bytes) (al : option NtAlarm) (dis : option NtDisplay) : NtNdArray :=
  mkNdArray v c cs us ds uid (data_time_stamp nt) ats d al (nd_time_stamp nt) dis.
Definition set_compressed_size (x : Z) (nt : NtNdArray) : NtNdArray :=
  nd_with nt (nd_value nt) (codec nt) x (uncompressed_size nt) (dimension nt) (unique_id nt) (attribute nt)
    (nd_descriptor nt) (nd_alarm nt) (nd_display nt).
Definition set_uncompressed_size (x : Z) (nt : NtNdArray) : NtNdArray :=
  nd_with nt (nd_value nt) (codec nt) (compressed_size nt) x (dimension nt) (unique_id nt) (attribute nt)
    (nd_descriptor nt) (nd_alarm nt) (nd_display nt).
Definition set_unique_id (x : Z) (nt : NtNdArray) : NtNdArray :=
  nd_with nt (nd_value nt) (codec nt) (compressed_size nt) (uncompressed_size nt) (dimension nt) x (attribute nt)
    (nd_descriptor nt) (nd_alarm nt) (nd_display nt).
Definition set_codec_name (x : bytes) (nt : NtNdArray) : NtNdArray :=
  nd_with nt (nd_value nt) (mkCodec x (parameters (codec nt))) (compressed_size nt) (uncompressed_size nt) (dimension nt)
    (unique_id nt) (attribute nt) (nd_descriptor nt) (nd_alarm nt) (nd_display nt).
Definition set_dimension (x : list NdDimension) (nt : NtNdArray) : NtNdArray :=
  nd_with nt (nd_value nt) (codec nt) (compressed_size nt) (uncompressed_size nt) x (unique_id nt) (attribute nt)
    (nd_descriptor nt) (nd_alarm nt) (nd_display nt).
Definition set_nd_descriptor (x : option bytes) (nt : NtNdArray) : NtNdArray :=
  nd_with nt (nd_value nt) (codec nt) (compressed_size nt) (uncompressed_size nt) (dimension nt) (unique_id nt)
    (attribute nt) x (nd_alarm nt) (nd_display nt).
Definition set_nd_alarm (x : option NtAlarm) (nt : NtNdArray) : NtNdArray :=
  nd_with nt (nd_value nt) (codec nt) (compressed_size nt) (uncompressed_size nt) (dimension nt) (unique_id nt)
    (attribute nt) (nd_descriptor nt) x (nd_display nt).
Definition set_nd_display (x : option NtDisplay) (nt : NtNdArray) : NtNdArray :=
  nd_with nt (nd_value nt) (codec nt) (compressed_size nt) (uncompressed_size nt) (dimension nt) (unique_id nt)
    (attribute nt) (nd_descriptor nt) (nd_alarm nt) x.
Definition set_attribute (x : list NtAttribute) (nt : NtNdArray) : NtNdArray :=
  nd_with nt (nd_value nt) (codec nt) (compressed_size nt) (uncompressed_size nt) (dimension nt) (unique_id nt) x
    (nd_descriptor nt) (nd_alarm nt) (nd_display nt).

Definition decode_dimension (item : DecodedValue) : option NdDimension :=
  match item with
  | Val.Structure fs =>
    Some (mkDimension (field_or decoded_to_i32 0 fs (str "size")) (field_or decoded_to_i32 0 fs (str "offset"))
            (field_or decoded_to_i32 0 fs (str "fullSize")) (field_or decoded_to_i32 1 fs (str "binning"))
            (field_or decoded_to_bool false fs (str "reverse")))
  | _ => None
  end.

Definition decode_attribute (item : DecodedValue) : option NtAttribute :=
  match item with
  | Val.Structure fs =>
    Some (mkAttribute (field_or decoded_to_string [] fs (str "name"))
            (match field fs (str "value") with Some v => decoded_to_scalar_value v | None => I32 0 end)
            (field_or decoded_to_string [] fs (str "descriptor")) (field_or decoded_to_i32 0 fs (str "sourceType"))
            (field_or decoded_to_string [] fs (str "source")))
  | _ => None
  end.

Definition codec_field (acc : NtNdArray * bool) (f : bytes * DecodedValue) : NtNdArray * bool :=
  if named f.1 "name" then
    match decoded_to_string f.2 with
    | Some s => replace_if bytes_eq (fun nt => codec_name (codec nt)) set_codec_name s acc
    | None => acc
    end
  else acc.

(** [if let Some(v) = .. && current != v { current = v; changed = true; }]. *)
Definition replace_opt {A S} (eq : A -> A -> bool) (get : S -> A) (set : A -> S -> S) (o : option A) (acc : S * bool) : S * bool :=
  match o with Some v => replace_if eq get set v acc | None => acc end.

(** The array decoded beforehand is taken by the first [value]. *)
Definition nd_field (st : NtNdArray * bool * option ScalarArrayValue) (f : bytes * DecodedValue)
  : NtNdArray * bool * option ScalarArrayValue :=
  let '(acc, pending) := st in
  let '(name, v) := f in
  if named name "value" then (replace_opt array_eq nd_value set_nd_value pending acc, None)
  else
    (if named name "compressedSize" then replace_opt Z.eqb compressed_size set_compressed_size (decoded_to_i64 v) acc
     else if named name "uncompressedSize" then replace_opt Z.eqb uncompressed_size set_uncompressed_size (decoded_to_i64 v) acc
     else if named name "uniqueId" then replace_opt Z.eqb unique_id set_unique_id (decoded_to_i32 v) acc
     else if named name "codec" then
       match v with Val.Structure codec_fields => fold_left codec_field codec_fields acc | _ => acc end
     else if named name "dimension" then
       match v with
       | Val.Array items =>
         match omap decode_dimension items with
         | [] => acc
         | dims => replace_if (list_eq dimension_eq) dimension set_dimension dims acc
         end
       | _ => acc
       end
     else if named name "descriptor" then
       replace_opt (opt_eq bytes_eq) nd_descriptor set_nd_descriptor (non_empty <$> decoded_to_string v) acc
     else if named name "alarm" then
       replace_opt (opt_eq alarm_eq) nd_alarm set_nd_alarm (Some <$> decode_nt_alarm v) acc
     else if named name "display" then
       replace_opt (opt_eq display_eq) nd_display set_nd_display (Some <$> decode_nt_display v) acc
     else if named name "attribute" then
       match v with
       | Val.Array items =>
         match omap decode_attribute items with
         | [] => acc
         | attrs => replace_if (list_eq attribute_eq) attribute set_attribute attrs acc
         end
       | _ => acc
       end
     else acc, pending).

Definition apply_ndarray_put (nt : NtNdArray) (val : DecodedValue) : NtNdArray * option bool :=
  match val with
  | Val.Structure fields =>
    let walk pending :=
      let '(nt, changed, _) := fold_left nd_field fields (nt, false, pending) in (nt, Some changed) in
    match field fields (str "value") with
    | Some (Val.Array items) =>
      match decoded_to_scalar_array (Val.Array items) (nd_value nt) with
      | Some next => walk (Some next)
      | None => (nt, None)
      end
    | _ => walk None
    end
  | _ => (nt, Some false)
  end.

(** ** Records *)

Record PutOutcome := mkOutcome { value_changed : bool; client_stamped : bool }.

Definition client_timestamp_named (val : DecodedValue) (field_name : bytes) : option NtTimeStamp :=
  match val with
  | Val.Structure fields =>
    v ← field fields field_name;
    ts ← decode_nt_timestamp v;
    if time_eq ts default_time_stamp then None else Some ts
  | _ => None
  end.
Definition client_timestamp (val : DecodedValue) : option NtTimeStamp := client_timestamp_named val (str "timeStamp").
Definition client_data_timestamp (val : DecodedValue) : option NtTimeStamp := client_timestamp_named val (str "dataTimeStamp").

Definition scalar_type_name (v : ScalarValue) : bytes :=
  str match v with
      | Bool _ => "boolean" | I8 _ => "byte" | I16 _ => "short" | I32 _ => "int" | I64 _ => "long"
      | U8 _ => "ubyte" | U16 _ => "ushort" | U32 _ => "uint" | U64 _ => "ulong"
      | F32 _ => "float" | F64 _ => "double" | Str _ => "string"
      end.

(** The reasons of a refusal, with what their texts show. *)
Inductive Refusal : Type :=
| NotRepresentable (val : DecodedValue) (type_name : bytes)
| ARRAY_REFUSAL
| NotAnIndex (val : DecodedValue)
| OutsideChoices (idx : Z) (count : Z)
| NoPutPath.

(** One field of a PUT to a scalar record. *)
Definition scalar_field (compute_alarms : bool) (acc : NtScalar * bool) (f : bytes * DecodedValue) : NtScalar * bool :=
  let '(nt, changed) := acc in
  let '(name, val) := f in
  let orb (u : NtScalar * bool) := (u.1, changed || u.2) in
  if named name "value" then ((apply_value_update nt val compute_alarms).1, changed)
  else if named name "alarm" then orb (apply_alarm_update nt val)
  else if named name "display" then orb (apply_display_update nt val)
  else if named name "control" then orb (apply_control_update nt val)
  else acc.

Definition array_result {S} (r : S * option bool) : S * outcome Refusal bool :=
  (r.1, match r.2 with Some c => Ok c | None => Err ARRAY_REFUSAL end).

Definition scalar_put (nt : NtScalar) (fields : fields_of_put) (compute_alarms : bool) : NtScalar * outcome Refusal bool :=
  let walk :=
    let '(nt', changed) := fold_left (scalar_field compute_alarms) fields (nt, false) in
    (nt', Ok (changed || negb (scalar_eq (value nt') (value nt)))) in
  match field fields (str "value") with
  | Some val =>
    if (apply_value_update (from_value (value nt)) val false).2 then walk
    else (nt, Err (NotRepresentable val (scalar_type_name (value nt))))
  | None => walk
  end.

Definition enum_put (nt : NtEnum) (fields : fields_of_put) : NtEnum * outcome Refusal bool :=
  match field fields (str "value") with
  | None => (nt, Ok false)
  | Some val =>
    let idx :=
      match val with
      | Val.Structure inner => field inner (str "index") ≫= decoded_to_i32
      | other => decoded_to_i32 other
      end in
    match idx with
    | None => (nt, Err (NotAnIndex val))
    | Some idx =>
      if (idx <? 0) || (zlen (choices nt) <=? idx) then (nt, Err (OutsideChoices idx (zlen (choices nt))))
      else (set_enum_index idx nt, Ok (negb (enum_index nt =? idx)))
    end
  end.

Definition apply_put_fields (r : RecordInstance) (val : DecodedValue) (compute_alarms : bool)
  : RecordInstance * outcome Refusal bool :=
  match val with
  | Val.Structure fields =>
    match nt_scalar (data r), nt_array (data r), data r with
    | Some nt, _, d =>
      let '(nt, res) := scalar_put nt fields compute_alarms in (with_data r (put_scalar d nt), res)
    | None, Some (nt, _, nord), d =>
      let '(nt, nord, res) := apply_scalar_array_put nt nord val in
      (with_data r (put_array d nt nord), match res with Some c => Ok c | None => Err ARRAY_REFUSAL end)
    | None, None, RTable nt inp out omsl =>
      let '(nt, res) := array_result (apply_table_put nt val) in (with_data r (RTable nt inp out omsl), res)
    | None, None, RNdArray nt inp out omsl =>
      let '(nt, res) := array_result (apply_ndarray_put nt val) in (with_data r (RNdArray nt inp out omsl), res)
    | None, None, REnum nt inp out omsl =>
      let '(nt, res) := enum_put nt fields in (with_data r (REnum nt inp out omsl), res)
    | None, None, _ => (r, Err NoPutPath)
    end
  | _ => (r, Ok false)
  end.

Definition apply_put (now : NtTimeStamp) (r : RecordInstance) (val : DecodedValue) (compute_alarms : bool)
  : RecordInstance * outcome (bytes * Refusal) PutOutcome :=
  let val := match val with Val.Structure _ => val | other => Val.Structure [(str "value", other)] end in
  match apply_put_fields r val compute_alarms with
  | (r, Ok changed) =>
    let client_ts := client_timestamp val in
    let r := set_record_time (match client_ts with Some ts => ts | None => now end) r in
    let r :=
      match data r, client_data_timestamp val with
      | RNdArray nt inp out omsl, Some ts => with_data r (RNdArray (set_nd_times (nd_time_stamp nt) ts nt) inp out omsl)
      | _, _ => r
      end in
    (r, Ok (mkOutcome changed (match client_ts with Some _ => true | None => false end)))
  | (r, Err reason) => (r, Err (name r, reason))
  | (r, Panic) => (r, Panic)
  | (r, OutOfFuel) => (r, OutOfFuel)
  end.

(** ** What a PUT leaves in a record *)

(** The value found behind nested [value] fields. *)
Fixpoint inner_value (val : DecodedValue) : DecodedValue :=
  match val with
  | Val.Structure fields =>
    (fix first (fs : fields_of_put) : DecodedValue :=
       match fs with
       | [] => val
       | (name, inner) :: fs => if named name "value" then inner_value inner else first fs
       end) fields
  | _ => val
  end.

Lemma apply_value_update_inner nt ca val : apply_value_update nt val ca = assign_value nt (inner_value val) ca.
Proof.
  induction val as [v Ha Hs|l _|fs IH] using Val.DecodedValue_tree_ind; [| done|].
  - destruct v; try done. by edestruct Hs.
  - cbn [apply_value_update inner_value].
    assert (G : forall w gs, Forall (fun nv : bytes * DecodedValue => apply_value_update nt nv.2 ca = assign_value nt (inner_value nv.2) ca) gs ->
      (fix first (fs : fields_of_put) : NtScalar * bool :=
         match fs with [] => assign_value nt w ca | (name, inner) :: fs => if named name "value" then apply_value_update nt inner ca else first fs end) gs
      = assign_value nt ((fix first (fs : fields_of_put) : DecodedValue :=
         match fs with [] => w | (name, inner) :: fs => if named name "value" then inner_value inner else first fs end) gs) ca).
    { intros w gs Hg. induction Hg as [|[n v] gs Hv _ IHg]; [done|]. destruct (named n "value"); [done|]. exact IHg. }
    by apply G.
Qed.

Lemma decode_as_variant target target' val : same_variant target target' = true -> decode_as target val = decode_as target' val.
Proof. by destruct target, target'. Qed.

(** Everything an alarm depends on. *)
Definition alarm_inputs (nt : NtScalar) := (value nt, alarm_low nt, alarm_high nt, alarm_lolo nt, alarm_hihi nt).
Definition alarm_fields (nt : NtScalar) := (alarm_severity nt, alarm_status nt, alarm_message nt).

Lemma update_alarm_fields nt nt' : alarm_inputs nt = alarm_inputs nt' ->
  alarm_fields (update_alarm_from_value nt) = alarm_fields (update_alarm_from_value nt').
Proof.
  unfold alarm_inputs. intros [= H1 H2 H3 H4 H5]. unfold update_alarm_from_value. rewrite H1, H2, H3, H4, H5.
  destruct (NtTypes.as_f64 (value nt')); [|done]. cbv zeta. destruct (try_limit _ _ _ _ _) as [sev msg]. by destruct (sev =? 0).
Qed.

Lemma update_alarm_inputs nt : alarm_inputs (update_alarm_from_value nt) = alarm_inputs nt.
Proof.
  unfold update_alarm_from_value. destruct (NtTypes.as_f64 (value nt)); [|done]. cbv zeta. destruct (try_limit _ _ _ _ _) as [sev msg]. by destruct (sev =? 0).
Qed.

(** A step of a walk that keeps a projection keeps it over the walk. *)
Lemma fold_keeps {S A B} (g : S -> B) (f : S -> A -> S) l : (forall s x, In x l -> g (f s x) = g s) -> forall s, g (fold_left f l s) = g s.
Proof.
  induction l as [|x l IH]; intros Hf s; [done|]. cbn [fold_left]. rewrite IH; [apply Hf; by left|].
  intros s' y Hy. apply Hf. by right.
Qed.

(** The alarm state of a record: inputs and fields. *)
Definition alarm_state (nt : NtScalar) := (alarm_inputs nt, alarm_fields nt).

Lemma assign_keeps {A B} (g : NtScalar -> B) (o : option A) (set : A -> NtScalar -> NtScalar) acc :
  (forall v nt, g (set v nt) = g nt) -> g (assign o set acc).1 = g acc.1.
Proof. intros H. destruct o; cbn; [apply H|done]. Qed.

Ltac keeps := repeat first [ apply assign_keeps; intros ? []; reflexivity | case_match ]; try reflexivity.

Lemma form_keeps acc f : alarm_state (form_field acc f).1 = alarm_state acc.1.
Proof. destruct f as [n v]. unfold form_field. keeps. destruct acc as [[] ?]. reflexivity. Qed.

Lemma alarm_update_keeps nt val : alarm_inputs (apply_alarm_update nt val).1 = alarm_inputs nt.
Proof.
  unfold apply_alarm_update. destruct val; try done.
  apply (fold_keeps (fun s : NtScalar * bool => alarm_inputs s.1)). intros s [n v] _. unfold alarm_field. keeps.
Qed.

Lemma display_update_keeps nt val : alarm_state (apply_display_update nt val).1 = alarm_state nt.
Proof.
  unfold apply_display_update. destruct val; try done.
  apply (fold_keeps (fun s : NtScalar * bool => alarm_state s.1)). intros s [n v] _. unfold display_field. keeps.
  match goal with E : fold_left form_field ?l ?a = _ |- _ =>
    pose proof (fold_keeps (fun s : NtScalar * bool => alarm_state s.1) form_field l (fun s f _ => form_keeps s f) a) as K; by rewrite E in K end.
Qed.

Lemma control_update_keeps nt val : alarm_state (apply_control_update nt val).1 = alarm_state nt.
Proof.
  unfold apply_control_update. destruct val; try done.
  apply (fold_keeps (fun s : NtScalar * bool => alarm_state s.1)). intros s [n v] _. unfold control_field. keeps.
Qed.

Lemma scalar_field_inputs ca acc f : named f.1 "value" = false -> alarm_inputs (scalar_field ca acc f).1 = alarm_inputs acc.1.
Proof.
  destruct acc as [nt c], f as [n v]. unfold scalar_field. cbn [fst]. intros ->.
  destruct (named n "alarm"); [apply alarm_update_keeps|].
  destruct (named n "display"); [exact (f_equal fst (display_update_keeps nt v))|].
  destruct (named n "control"); [exact (f_equal fst (control_update_keeps nt v))|done].
Qed.

Lemma scalar_field_state ca acc f : named f.1 "value" = false -> named f.1 "alarm" = false ->
  alarm_state (scalar_field ca acc f).1 = alarm_state acc.1.
Proof.
  destruct acc as [nt c], f as [n v]. unfold scalar_field. cbn [fst]. intros -> ->.
  destruct (named n "display"); [apply display_update_keeps|]. destruct (named n "control"); [apply control_update_keeps|done].
Qed.

Lemma field_split fields s val : NoDup (fields.*1) -> field fields (str s) = Some val ->
  exists l1 l2, fields = l1 ++ (str s, val) :: l2 /\ (forall f, In f (l1 ++ l2) -> named f.1 s = false).
Proof.
  unfold field. induction fields as [|[n v] fs IH]; [done|]. cbn [find fst]. rewrite fmap_cons, NoDup_cons. intros [Hn Hd].
  destruct (bool_decide (n = str s)) eqn:E.
  - apply bool_decide_eq_true in E as ->. intros [= <-]. exists [], fs. split; [done|]. intros f Hf. apply bool_decide_eq_false.
    intros Hs. apply Hn. cbn. rewrite <- Hs. apply list_elem_of_fmap. exists f. split; [done|]. by apply list_elem_of_In.
  - intros Hf. destruct (IH Hd Hf) as (l1 & l2 & -> & H). exists ((n, v) :: l1), l2. split; [done|].
    intros f [<-|Hin]; [exact E|by apply H].
Qed.

Lemma field_none fields s : field fields (str s) = None -> forall f, In f fields -> named f.1 s = false.
Proof.
  unfold field. destruct (find _ fields) eqn:E; [done|]. intros _ f Hf. exact (find_none _ _ E f Hf).
Qed.

Definition alarm_agrees (nt : NtScalar) : Prop := alarm_fields nt = alarm_fields (update_alarm_from_value nt).

Lemma value_step_state ca nt val next c : decode_as (value nt) (inner_value val) = Some next ->
  let nt' := (scalar_field ca (nt, c) (str "value", val)).1 in value nt' = next /\ (ca = true -> alarm_agrees nt').
Proof.
  intros Hd. cbv zeta. change (scalar_field ca (nt, c) (str "value", val)).1 with (apply_value_update nt val ca).1.
  rewrite apply_value_update_inner. unfold assign_value. rewrite Hd. cbn [fst]. assert (Hv : value (set_value next nt) = next) by (by destruct nt).
  destruct ca; [|done]. pose proof (update_alarm_inputs (set_value next nt)) as Hi. split.
  - injection Hi as Hi _ _ _ _. by rewrite Hi.
  - intros _. unfold alarm_agrees. symmetry. by apply update_alarm_fields.
Qed.

Lemma scalar_walk ca nt fields val next : NoDup (fields.*1) -> field fields (str "value") = Some val ->
  decode_as (value nt) (inner_value val) = Some next ->
  let nt' := (fold_left (scalar_field ca) fields (nt, false)).1 in
  value nt' = next /\ (ca = true -> field fields (str "alarm") = None -> alarm_agrees nt').
Proof.
  intros Hd Hf Hv. cbv zeta. assert (Ha := field_none fields "alarm"). destruct (field_split fields "value" val Hd Hf) as (l1 & l2 & -> & Hn).
  rewrite fold_left_app. cbn [fold_left]. set (acc1 := fold_left (scalar_field ca) l1 (nt, false)).
  assert (H1 : alarm_inputs acc1.1 = alarm_inputs nt).
  { apply (fold_keeps (fun s : NtScalar * bool => alarm_inputs s.1)). intros. apply scalar_field_inputs, Hn, in_or_app. by left. }
  injection H1 as H1 _ _ _ _. rewrite <- H1 in Hv. destruct acc1 as [nt1 c1]. cbn [fst] in Hv.
  destruct (value_step_state ca nt1 val next c1 Hv) as [V A]. set (acc2 := scalar_field ca (nt1, c1) (str "value", val)) in *.
  assert (H2 : alarm_inputs (fold_left (scalar_field ca) l2 acc2).1 = alarm_inputs acc2.1).
  { apply (fold_keeps (fun s : NtScalar * bool => alarm_inputs s.1)). intros. apply scalar_field_inputs, Hn, in_or_app. by right. }
  split; [injection H2 as -> _ _ _ _; done|]. intros Hca Hal. specialize (A Hca). specialize (Ha Hal). unfold alarm_agrees in *.
  assert (H3 : alarm_state (fold_left (scalar_field ca) l2 acc2).1 = alarm_state acc2.1).
  { apply (fold_keeps (fun s : NtScalar * bool => alarm_state s.1)). intros. apply scalar_field_state; [apply Hn, in_or_app; by right|].
    apply Ha, in_or_app. right. by right. }
  rewrite (update_alarm_fields _ _ H2), <- A. exact (f_equal snd H3).
Qed.

Lemma put_scalar_get d nt nt' : nt_scalar d = Some nt -> nt_scalar (put_scalar d nt') = Some nt'.
Proof. by destruct d. Qed.

Lemma put_scalar_same d nt : nt_scalar d = Some nt -> put_scalar d nt = d.
Proof. destruct d; try done; intros [= ->]; done. Qed.

Lemma with_data_same r : with_data r (data r) = r.
Proof. by destruct r. Qed.

(** The fields of a PUT: a bare value is the field [value]. *)
Definition put_fields (val : DecodedValue) : fields_of_put :=
  match val with Val.Structure fields => fields | other => [(str "value", other)] end.

(** The time stamp an accepted PUT leaves. *)
Definition put_stamp (now : NtTimeStamp) (val : DecodedValue) : NtTimeStamp :=
  match client_timestamp (Val.Structure (put_fields val)) with Some ts => ts | None => now end.

Lemma apply_put_scalar now r val ca nt : nt_scalar (data r) = Some nt ->
  apply_put now r val ca =
  match scalar_put nt (put_fields val) ca with
  | (nt', Ok changed) =>
    (with_data r (put_scalar (data r) (set_time_stamp (Some (put_stamp now val)) nt')),
     Ok (mkOutcome changed (match client_timestamp (Val.Structure (put_fields val)) with Some _ => true | None => false end)))
  | (nt', Err reason) => (with_data r (put_scalar (data r) nt'), Err (name r, reason))
  | (nt', Panic) => (with_data r (put_scalar (data r) nt'), Panic)
  | (nt', OutOfFuel) => (with_data r (put_scalar (data r) nt'), OutOfFuel)
  end.
Proof.
  intros Hnt. unfold apply_put.
  replace (match val with Val.Structure _ => val | other => Val.Structure [(str "value", other)] end)
    with (Val.Structure (put_fields val)) by (by destruct val).
  unfold apply_put_fields. rewrite Hnt. destruct (scalar_put nt (put_fields val) ca) as [nt' [changed|reason| |]]; try done.
  assert (set_record_time (put_stamp now val) (with_data r (put_scalar (data r) nt'))
          = with_data r (put_scalar (data r) (set_time_stamp (Some (put_stamp now val)) nt'))) as Hs.
  { unfold set_record_time. cbn [data with_data]. rewrite (put_scalar_get _ nt nt' Hnt). by destruct (data r). }
  unfold put_stamp in *. rewrite Hs. f_equal. cbn [data with_data]. by destruct (data r).
Qed.

(** The two ways a PUT to a scalar record is accepted. *)
Lemma stamp_scalar ts nt : value (set_time_stamp ts nt) = value nt /\ time_stamp (set_time_stamp ts nt) = ts /\
  (alarm_agrees nt -> alarm_agrees (set_time_stamp ts nt)).
Proof. destruct nt. repeat split; try done. unfold alarm_agrees. intros Hal. erewrite update_alarm_fields; [exact Hal|done]. Qed.

Lemma put_stored now r val ca nt v next :
  nt_scalar (data r) = Some nt -> NoDup ((put_fields val).*1) -> field (put_fields val) (str "value") = Some v ->
  decode_as (value nt) (inner_value v) = Some next ->
  exists r' o nt', apply_put now r val ca = (r', Ok o) /\ nt_scalar (data r') = Some nt' /\
    value nt' = next /\ time_stamp nt' = Some (put_stamp now val) /\
    (ca = true -> field (put_fields val) (str "alarm") = None -> alarm_agrees nt').
Proof.
  intros Hnt Hd Hf Hv. rewrite (apply_put_scalar now r val ca nt Hnt). unfold scalar_put.
  rewrite Hf, apply_value_update_inner. unfold assign_value. change (value (from_value (value nt))) with (value nt). rewrite Hv. cbn [snd].
  destruct (scalar_walk ca nt (put_fields val) v next Hd Hf Hv) as [V A]. destruct (fold_left _ _ _) as [nt' c]. cbn [fst] in V, A.
  destruct (stamp_scalar (Some (put_stamp now val)) nt') as (S1 & S2 & S3). eexists _, _, _. split; [reflexivity|]. cbn [data with_data].
  split; [by apply put_scalar_get with nt|]. split; [by rewrite S1|]. split; [done|]. intros Hc Hal. by apply S3, A.
Qed.

(** C18: a PUT to a scalar record either stores the value it carries, converted to
    the type of the record, or is refused and leaves the record exactly as it
    was, down to its time stamp; which of the two depends on the value alone.
    An accepted PUT always restamps the record, with the client's time if it
    sent one, and where alarms are computed and the PUT sets none the alarm is
    that of the new value. *)
Theorem put_stores_or_refuses now r val ca nt :
  nt_scalar (data r) = Some nt -> NoDup ((put_fields val).*1) ->
  let stored next := exists r' o nt', apply_put now r val ca = (r', Ok o) /\ nt_scalar (data r') = Some nt' /\
    value nt' = next /\ time_stamp nt' = Some (put_stamp now val) /\
    (ca = true -> field (put_fields val) (str "value") <> None -> field (put_fields val) (str "alarm") = None -> alarm_agrees nt') in
  match field (put_fields val) (str "value") with
  | None => stored (value nt)
  | Some v =>
    match decode_as (value nt) (inner_value v) with
    | Some next => stored next
    | None => apply_put now r val ca = (r, Err (name r, NotRepresentable v (scalar_type_name (value nt))))
    end
  end.
Proof.
  intros Hnt Hd stored. unfold stored. clear stored. destruct (field (put_fields val) (str "value")) as [v|] eqn:Hf.
  - destruct (decode_as (value nt) (inner_value v)) as [next|] eqn:Hv.
    + destruct (put_stored now r val ca nt v next Hnt Hd Hf Hv) as (r' & o & nt' & H1 & H2 & H3 & H4 & H5).
      exists r', o, nt'. repeat split; try done. intros. by apply H5.
    + rewrite (apply_put_scalar now r val ca nt Hnt). unfold scalar_put. rewrite Hf, apply_value_update_inner. unfold assign_value.
      change (value (from_value (value nt))) with (value nt). rewrite Hv. cbn [snd]. by rewrite put_scalar_same, with_data_same.
  - rewrite (apply_put_scalar now r val ca nt Hnt). unfold scalar_put. rewrite Hf.
    assert (W : alarm_inputs (fold_left (scalar_field ca) (put_fields val) (nt, false)).1 = alarm_inputs nt).
    { apply (fold_keeps (fun s : NtScalar * bool => alarm_inputs s.1)). intros. apply scalar_field_inputs.
      by apply (field_none (put_fields val) "value"). }
    destruct (fold_left _ _ _) as [nt' c]. destruct (stamp_scalar (Some (put_stamp now val)) nt') as (S1 & S2 & S3). injection W as W _ _ _ _.
    eexists _, _, _. split; [reflexivity|]. cbn [data with_data]. split; [by apply put_scalar_get with nt|]. by rewrite S1.
Qed.

(** An [ao] record of 1.5 with a limit at 8.0, written 20.0. *)
Definition sample_scalar : NtScalar :=
  mkScalar (F64 (of_Z 1)) 0 0 [] None (Some (of_Z 8)) None None 0 0 [] 0 0 [] 0 0 0 [] false 0 0 0 0 0 0 0 0 0 None.
Definition sample_ao : RecordInstance :=
  mkRecord (str "A") TAo default_common (Ao sample_scalar None None Supervisory None None None None None false) ∅.

Lemma put_stores_or_refuses_witness :
  exists r' o nt', apply_put (mkTimeStamp 5 0 0) sample_ao (Val.Int32 20) true = (r', Ok o) /\ nt_scalar (data r') = Some nt' /\
    value nt' = F64 (of_Z 20) /\ time_stamp nt' = Some (mkTimeStamp 5 0 0) /\ alarm_agrees nt'.
Proof.
  destruct (put_stores_or_refuses (mkTimeStamp 5 0 0) sample_ao (Val.Int32 20) true sample_scalar eq_refl) as (r' & o & nt' & H1 & H2 & H3 & H4 & H5);
    [cbn; apply NoDup_singleton|].
  exists r', o, nt'. split; [exact H1|]. split; [exact H2|]. split; [exact H3|]. split; [exact H4|]. by apply H5.
Defined.

(** ** Every kind of record *)

Definition record_stamp (r : RecordInstance) : option NtTimeStamp :=
  match to_ntpayload r with
  | Scalar nt => time_stamp nt
  | ScalarArray nt => Some (sa_time_stamp nt)
  | Table nt => tb_time_stamp nt
  | NdArray nt => nd_time_stamp nt
  | Enum nt => Some (en_time_stamp nt)
  | Generic _ _ => None
  end.

(** The constructor of the data. *)
Definition kind (d : RecordData) : Z :=
  match d with
  | Ai _ _ _ _ _ => 0 | Ao _ _ _ _ _ _ _ _ _ _ => 1 | Bi _ _ _ _ _ _ _ => 2 | Bo _ _ _ _ _ _ _ _ _ => 3
  | StringIn _ _ _ _ _ => 4 | StringOut _ _ _ _ _ _ _ => 5 | Waveform _ _ _ _ _ => 6 | Aai _ _ _ _ _ => 7
  | Aao _ _ _ _ _ _ _ => 8 | SubArray _ _ _ _ _ _ _ => 9 | RTable _ _ _ _ => 10 | RNdArray _ _ _ _ => 11
  | REnum _ _ _ _ => 12 | RGeneric _ _ _ _ _ => 13
  end.

(** [NORD] counts the elements, and an enum's index names a choice. *)
Definition counts_ok (d : RecordData) : Prop :=
  match nt_array d, d with
  | Some (nt, _, nord), _ => nord = len (sa_value nt)
  | _, REnum nt _ _ _ => 0 <= enum_index nt < zlen (choices nt)
  | _, _ => True
  end.

Lemma scalar_put_cases nt fields ca : 
  match scalar_put nt fields ca with (nt', Err _) => nt' = nt | (_, Ok _) => True | _ => False end.
Proof.
  unfold scalar_put. destruct (fold_left _ _ _) as [nt' c]. destruct (field _ _); [|done]. by destruct (apply_value_update _ _ _).2.
Qed.

Lemma array_put_cases nt nord val :
  match apply_scalar_array_put nt nord val with
  | (nt', nord', None) => nt' = nt /\ nord' = nord
  | (nt', nord', Some _) => nord = len (sa_value nt) -> nord' = len (sa_value nt')
  end.
Proof.
  unfold apply_scalar_array_put. destruct (match val with Val.Structure _ => _ | _ => _ end); [|done].
  destruct (decoded_to_scalar_array _ _); [|done]. by destruct (array_eq _ _).
Qed.

Lemma table_put_cases nt val : match apply_table_put nt val with (nt', None) => nt' = nt | _ => True end.
Proof.
  unfold apply_table_put. destruct val; try done. destruct (next_columns _ _); [|done]. by destruct (fold_left _ _ _) as [[? ?] ?].
Qed.

Lemma ndarray_put_cases nt val : match apply_ndarray_put nt val with (nt', None) => nt' = nt | _ => True end.
Proof.
  unfold apply_ndarray_put. destruct val; try done.
  destruct (field _ _) as [[]|]; try (by destruct (fold_left _ _ _) as [[? ?] ?]).
  destruct (decoded_to_scalar_array _ _); [|done]. by destruct (fold_left _ _ _) as [[? ?] ?].
Qed.

Lemma enum_put_cases nt fields :
  match enum_put nt fields with
  | (nt', Err _) => nt' = nt
  | (nt', Ok _) => 0 <= enum_index nt < zlen (choices nt) -> 0 <= enum_index nt' < zlen (choices nt')
  | _ => False
  end.
Proof.
  unfold enum_put. destruct (field _ _) as [v|]; [|done]. destruct (match v with Val.Structure _ => _ | _ => _ end) as [i|]; [|done].
  destruct (_ || _) eqn:E; [done|]. apply orb_false_elim in E as [?%Z.ltb_ge ?%Z.leb_gt]. intros _. by destruct nt.
Qed.

(** One step on the fields: untouched, or the same record with other data. *)
Lemma put_fields_cases r fields ca :
  match apply_put_fields r (Val.Structure fields) ca with
  | (r', Err _) => r' = r
  | (r', Ok _) => r' = with_data r (data r') /\ kind (data r') = kind (data r) /\ (counts_ok (data r) -> counts_ok (data r')) /\ kind (data r) <> 13
  | _ => False
  end.
Proof.
  unfold apply_put_fields. destruct (nt_scalar (data r)) as [nt|] eqn:Es.
  - pose proof (scalar_put_cases nt fields ca) as H. destruct (scalar_put nt fields ca) as [nt' [c|e| |]]; try done.
    + cbn [data with_data]. by destruct (data r).
    + subst nt'. by rewrite put_scalar_same, with_data_same.
  - destruct (nt_array (data r)) as [[[nt nelm] nord]|] eqn:Ea.
    + pose proof (array_put_cases nt nord (Val.Structure fields)) as H.
      destruct (apply_scalar_array_put _ _ _) as [[nt' nord'] [c|]].
      * cbn [data with_data]. unfold counts_ok. rewrite Ea. destruct (data r); try done; injection Ea as -> -> ->; done.
      * destruct H as [-> ->]. destruct r as [n rt cm d rf]. cbn in *. by destruct d; try done; injection Ea as -> -> ->.
    + destruct r as [n rt cm d rf]. cbn [data] in *. destruct d; try done; cbn [data with_data].
      * pose proof (table_put_cases nt (Val.Structure fields)) as H. unfold array_result. destruct (apply_table_put _ _) as [nt' [c|]]; [done|]. by subst.
      * pose proof (ndarray_put_cases nt (Val.Structure fields)) as H. unfold array_result. destruct (apply_ndarray_put _ _) as [nt' [c|]]; [done|]. by subst.
      * pose proof (enum_put_cases nt fields) as H. destruct (enum_put nt fields) as [nt' [c|e| |]]; try done. by subst.
Qed.

(** C19: for every kind of record, a refused PUT leaves the record exactly as it
    was and names it; an accepted one changes nothing but its data, keeps the
    kind of the data, stamps it with the client's time or the server's, and keeps
    [NORD] at the number of elements and the index of an enum within its
    choices.  A generic structure is never written. *)
Theorem put_all_or_nothing now r val ca :
  match apply_put now r val ca with
  | (r', Err (n, _)) => r' = r /\ n = name r
  | (r', Ok _) => r' = with_data r (data r') /\ kind (data r') = kind (data r) /\ kind (data r) <> 13 /\
      record_stamp r' = Some (put_stamp now val) /\ (counts_ok (data r) -> counts_ok (data r'))
  | _ => False
  end.
Proof.
  unfold apply_put.
  replace (match val with Val.Structure _ => val | other => Val.Structure [(str "value", other)] end)
    with (Val.Structure (put_fields val)) by (by destruct val).
  pose proof (put_fields_cases r (put_fields val) ca) as H.
  destruct (apply_put_fields _ _ _) as [[n rt cm d rf] [c|e| |]]; try done; [|by subst].
  destruct H as (Hr & Hk & Hc & Hg). destruct r as [n0 rt0 cm0 d0 rf0]. cbn [data with_data name record_type common raw_fields] in *.
  injection Hr as -> -> -> ->. cbv zeta. fold (put_stamp now val). generalize (put_stamp now val). intros ts. rewrite <- Hk in Hg. revert Hc Hk Hg. generalize (counts_ok d0) (kind d0). intros P k Hc Hk Hg.
  unfold record_stamp, counts_ok, to_ntpayload, set_record_time in *.
  destruct (client_data_timestamp _); destruct d; try done; subst k;
    cbn [data with_data nt_scalar nt_array put_array put_scalar kind payload] in *; repeat split; try done; try (by destruct nt); by apply Hc.
Qed.

(** ** Where a PUT and the host part *)

Definition sample_waveform : RecordInstance :=
  mkRecord (str "W") TWaveform default_common
    (Waveform (mkScalarArray (AI32 [1; 2]) default_alarm default_time_stamp default_display default_control) None (str "LONG") 2 2) ∅.

(** A PUT of three elements into a waveform of at most two is stored whole; the
    host's write is cut to [NELM]. *)
Example put_exceeds_nelm :
  nt_array (data (apply_put default_time_stamp sample_waveform (Val.Array [Val.Int32 1; Val.Int32 2; Val.Int32 3]) false).1)
  = Some (mkScalarArray (AI32 [1; 2; 3]) default_alarm default_time_stamp default_display default_control, 2, 3) /\
  nt_array (data (set_array_value default_time_stamp sample_waveform (AI32 [7; 8; 9])).1)
  = Some (mkScalarArray (AI32 [7; 8]) default_alarm default_time_stamp default_display default_control, 2, 2).
Proof. vm_compute. done. Qed.

Definition sample_table : NtTable :=
  mkTable [str "a"; str "b"] [mkColumn (str "a") (AI32 [1]); mkColumn (str "b") (AI32 [2])] None None None.

(** A PUT to one column of a table leaves columns of different lengths, which
    [validate] refuses from the host. *)
Example put_makes_ragged_table :
  table_validate sample_table = Ok tt /\
  let nt := (apply_table_put sample_table
    (Val.Structure [(str "value", Val.Structure [(str "a", Val.Array [Val.Int32 1; Val.Int32 5])])])).1 in
  columns nt = [mkColumn (str "a") (AI32 [1; 5]); mkColumn (str "b") (AI32 [2])] /\
  table_validate nt = Err (ColumnLength (str "b") 1 2).
Proof. vm_compute. done. Qed.

(** A number in an attribute becomes a boolean: every number converts to [bool]
    first. *)
Example attribute_number_lost :
  decode_attribute (Val.Structure [(str "name", Val.String (str "Gain")); (str "value", Val.Int32 5)])
  = Some (mkAttribute (str "Gain") (Bool true) [] 0 []).
Proof. vm_compute. done. Qed.

(** Sending the alarm a record already has is reported as a change. *)
Example same_alarm_reported :
  let put := Val.Structure [(str "alarm", Val.Structure [(str "severity", Val.Int32 0)])] in
  (apply_put default_time_stamp sample_ao put false).2 = Ok (mkOutcome true false) /\
  nt_scalar (data (apply_put default_time_stamp sample_ao put false).1) = Some (set_time_stamp (Some default_time_stamp) sample_scalar).
Proof. vm_compute. done. Qed.

End Apply.
