(* ===== verification/WritePaths.v ===== *)
(** * The two write paths of a record

    A client's PUT converts its value with [convert.rs], a write of the host with
    [coerce_into] of [types.rs]; the source says the two must not disagree.
    [host_wire_agree] states where they agree and where they do not. *)

From Stdlib Require Import ZArith.
From S2P Require Import Prelude Utf8 Wire PvdTypes NtTypes F64 Text Calc CalcParse CalcEval MonitorHub PutEncode Convert Records Apply.

Local Open Scope Z_scope.

Module WritePaths.
Import Float NtTypes PayloadEq Convert Records Apply.
Import Val(DecodedValue).

(** A scalar as it arrives in a PUT. *)
Definition to_decoded (v : ScalarValue) : DecodedValue :=
  match v with
  | Bool b => Val.Boolean b
  | I8 x => Val.Int8 x | I16 x => Val.Int16 x | I32 x => Val.Int32 x | I64 x => Val.Int64 x
  | U8 x => Val.UInt8 x | U16 x => Val.UInt16 x | U32 x => Val.UInt32 x | U64 x => Val.UInt64 x
  | F32 x => Val.Float32 x | F64 x => Val.Float64 x
  | Str s => Val.String s
  end.

(** The payload of a scalar is within its type. *)
Definition scalar_ok (v : ScalarValue) : Prop :=
  match v with
  | Bool _ | Str _ => True
  | I8 x => - 2 ^ 7 <= x < 2 ^ 7 | I16 x => - 2 ^ 15 <= x < 2 ^ 15
  | I32 x => - 2 ^ 31 <= x < 2 ^ 31 | I64 x => - 2 ^ 63 <= x < 2 ^ 63
  | U8 x => 0 <= x < 2 ^ 8 | U16 x => 0 <= x < 2 ^ 16 | U32 x => 0 <= x < 2 ^ 32 | U64 x => 0 <= x < 2 ^ 64
  | F32 x => 0 <= x < 2 ^ 32 | F64 x => 0 <= x < 2 ^ 64
  end.

Definition is_str (v : ScalarValue) : bool := match v with Str _ => true | _ => false end.
Definition is_unsigned (v : ScalarValue) : bool := match v with U8 _ | U16 _ | U32 _ | U64 _ => true | _ => false end.

(** Not an [f32] NaN, whose payload a cast need not keep. *)
Definition plain (v : ScalarValue) : bool := match v with F32 x => negb (is_nan32 x) | _ => true end.

(** A float strictly between -1 and 0. *)
Definition fraction_below_zero (v : ScalarValue) : bool :=
  match v with
  | F32 x => CalcEval.is_finite (widen x) && (key 64 (widen x) <? 0) && (trunc (widen x) =? 0)
  | F64 x => CalcEval.is_finite x && (key 64 x <? 0) && (trunc x =? 0)
  | _ => false
  end.

(** The float a scalar holds, widened. *)
Definition float_of (v : ScalarValue) : option Z := match v with F32 x => Some (widen x) | F64 x => Some x | _ => None end.

Lemma float_bits v x : scalar_ok v -> float_of v = Some x -> 0 <= x < 2 ^ 64.
Proof. destruct v; try done; cbn [float_of scalar_ok]; intros ? [= <-]; [by apply widen_range|done]. Qed.

Lemma host_float lo hi v x : scalar_ok v -> float_of v = Some x -> - 2 ^ 127 < lo -> hi < 2 ^ 127 - 1 ->
  to_int (try_from lo hi) v = if CalcEval.is_finite x then try_from lo hi (trunc x) else None.
Proof.
  intros Hv Hx Hlo Hhi. pose proof (float_bits v x Hv Hx) as Hr.
  assert (to_int (try_from lo hi) v = if CalcEval.is_finite x then try_from lo hi (CalcEval.as_int (- 2 ^ 127) (2 ^ 127 - 1) x) else None) as ->.
  { destruct v; try done; cbn [float_of] in Hx; injection Hx as <-; reflexivity. }
  destruct (CalcEval.is_finite x) eqn:Hf; [|done]. rewrite (as_int_trunc x) by (done || lia). by apply clamp_128.
Qed.

Lemma wire_signed lo hi v : scalar_ok v -> is_str v = false -> - 2 ^ 63 <= lo -> hi < 2 ^ 63 ->
  decoded_to_i64 (to_decoded v) ≫= try_from lo hi = to_int (try_from lo hi) v.
Proof.
  intros Hv Hs Hlo Hhi. destruct (float_of v) as [x|] eqn:Hx.
  - rewrite (host_float lo hi v x) by (done || lia). pose proof (float_bits v x Hv Hx).
    assert (decoded_to_i64 (to_decoded v) = f64_to_i64_checked x) as ->.
    { destruct v; try done; cbn [float_of] in Hx; injection Hx as <-; reflexivity. }
    rewrite f64_to_i64_checked_spec by done. destruct (CalcEval.is_finite x); [|done]. apply narrow; lia.
  - destruct v; try done; cbn [to_decoded decoded_to_i64 mbind option_bind]. apply narrow; lia.
Qed.

Lemma wire_unsigned hi v : scalar_ok v -> is_str v = false -> 0 <= hi < 2 ^ 64 ->
  decoded_to_u64 (to_decoded v) ≫= try_from 0 hi = if fraction_below_zero v then None else to_int (try_from 0 hi) v.
Proof.
  intros Hv Hs Hhi. destruct (float_of v) as [x|] eqn:Hx.
  - rewrite (host_float 0 hi v x) by (done || lia). pose proof (float_bits v x Hv Hx).
    assert (decoded_to_u64 (to_decoded v) = f64_to_u64_checked x /\
            fraction_below_zero v = CalcEval.is_finite x && (key 64 x <? 0) && (trunc x =? 0)) as [-> ->].
    { destruct v; try done; cbn [float_of] in Hx; injection Hx as <-; done. }
    rewrite f64_to_u64_checked_spec by done. destruct (CalcEval.is_finite x) eqn:Hf; [|done]. cbn [andb].
    destruct (0 <=? key 64 x) eqn:Hk; [apply Z.leb_le in Hk|apply Z.leb_gt in Hk].
    + replace (key 64 x <? 0) with false by (symmetry; apply Z.ltb_ge; lia). apply narrow; lia.
    + replace (key 64 x <? 0) with true by (symmetry; apply Z.ltb_lt; lia). cbn [andb mbind option_bind].
      destruct (trunc x =? 0) eqn:Ht; [done|apply Z.eqb_neq in Ht]. symmetry. apply try_from_out. left.
      revert Hk Ht. rewrite (key_split x), (trunc_split x) by done. pose proof (Z.mod_pos_bound x (2 ^ 63)).
      pose proof (trunc_mag_nonneg (x mod 2 ^ 63)). destruct (2 ^ 63 <=? x); lia.
  - destruct v; try done; cbn [to_decoded decoded_to_u64 fraction_below_zero to_int as_i128]; try done.
    all: destruct (0 <=? v) eqn:E; [done|apply Z.leb_gt in E]; symmetry; apply try_from_out; lia.
Qed.

(** Where the two paths part: a string against a number, and a fraction below
    zero into an unsigned type. *)
Definition differs (target v : ScalarValue) : bool :=
  xorb (is_str target) (is_str v) || (is_unsigned target && fraction_below_zero v).

Section Paths.
Context `{FloatText}.

Lemma in_type v : scalar_ok v -> is_str v = false ->
  match v with
  | I8 x => signed 8 x = Some x | I16 x => signed 16 x = Some x | I32 x => signed 32 x = Some x | I64 x => signed 64 x = Some x
  | U8 x => unsigned 8 x = Some x | U16 x => unsigned 16 x = Some x | U32 x => unsigned 32 x = Some x | U64 x => unsigned 64 x = Some x
  | _ => True
  end.
Proof. destruct v; try done; cbn [scalar_ok]; intros; apply try_from_in; cbn; lia. Qed.

Lemma wire_i32 v : scalar_ok v -> is_str v = false -> decoded_to_i32 (to_decoded v) = to_int (signed 32) v.
Proof.
  intros Hv Hs. unfold signed at 1. rewrite <- wire_signed by (done || lia).
  destruct v; try done; cbn [to_decoded decoded_to_i64 decoded_to_i32 mbind option_bind]; cbn [scalar_ok] in Hv;
    first [done | symmetry; apply try_from_in; cbn; lia | symmetry; apply narrow; lia | destruct v; done].
Qed.

Lemma wire_i64 v : scalar_ok v -> is_str v = false -> decoded_to_i64 (to_decoded v) = to_int (signed 64) v.
Proof.
  intros Hv Hs. unfold signed at 1. rewrite <- wire_signed by (done || lia). destruct (float_of v) as [x|] eqn:Hx.
  - assert (decoded_to_i64 (to_decoded v) = f64_to_i64_checked x) as ->.
    { destruct v; try done; cbn [float_of] in Hx; injection Hx as <-; reflexivity. }
    rewrite f64_to_i64_checked_spec by (by apply (float_bits v)). destruct (CalcEval.is_finite x); [|done].
    symmetry. apply narrow; lia.
  - destruct v; try done; cbn [to_decoded decoded_to_i64 mbind option_bind]; cbn [scalar_ok] in Hv;
      first [symmetry; apply try_from_in; cbn; lia | symmetry; apply narrow; lia | destruct v; done].
Qed.

Lemma wire_u64 v : scalar_ok v -> is_str v = false ->
  decoded_to_u64 (to_decoded v) = if fraction_below_zero v then None else to_int (unsigned 64) v.
Proof.
  intros Hv Hs. unfold unsigned at 1. rewrite <- wire_unsigned by (done || lia). destruct (float_of v) as [x|] eqn:Hx.
  - assert (decoded_to_u64 (to_decoded v) = f64_to_u64_checked x) as ->.
    { destruct v; try done; cbn [float_of] in Hx; injection Hx as <-; reflexivity. }
    rewrite f64_to_u64_checked_spec by (by apply (float_bits v)). destruct (_ && _); [|done].
    symmetry. apply narrow; lia.
  - destruct v; try done; cbn [to_decoded decoded_to_u64]; cbn [scalar_ok] in Hv;
      try (destruct (0 <=? v) eqn:E; [apply Z.leb_le in E|done]); cbn [mbind option_bind];
      first [symmetry; apply try_from_in; cbn; lia | destruct v; done].
Qed.

(** The host path to an integer variant. *)
Lemma host_int target v (T : Z -> option Z) (C : Z -> ScalarValue) : scalar_ok v -> is_str v = false ->
  In (target, T, C)
    [(I8 0, signed 8, I8); (I16 0, signed 16, I16); (I32 0, signed 32, I32); (I64 0, signed 64, I64);
     (U8 0, unsigned 8, U8); (U16 0, unsigned 16, U16); (U32 0, unsigned 32, U32); (U64 0, unsigned 64, U64)] ->
  coerce_into target v = C <$> to_int T v.
Proof.
  intros Hv Hs Hin. pose proof (in_type v Hv Hs) as Ht. unfold coerce_into.
  cbn [In] in Hin. repeat destruct Hin as [[= <- <- <-]|Hin]; try done; destruct v; try done; cbn [same_variant to_int as_i128];
    rewrite Ht; done.
Qed.

Lemma coerce_variant target target' v : same_variant target target' = true -> coerce_into target v = coerce_into target' v.
Proof. destruct target, target'; try done; destruct v; reflexivity. Qed.

Lemma fraction_host lo hi v : scalar_ok v -> fraction_below_zero v = true -> - 2 ^ 127 < lo <= 0 -> 0 <= hi < 2 ^ 127 - 1 ->
  to_int (try_from lo hi) v = Some 0.
Proof.
  intros Hv Hf Hlo Hhi.
  assert (exists x, float_of v = Some x /\ CalcEval.is_finite x = true /\ trunc x = 0) as (x & Hx & Hfin & Ht).
  { destruct v; try done; cbn [fraction_below_zero] in Hf; apply andb_prop in Hf as [[? ?]%andb_prop ?%Z.eqb_eq]; eexists; done. }
  rewrite (host_float lo hi v x), Hfin, Ht by (done || lia). apply try_from_in. lia.
Qed.

(** Into an integer variant. *)
Lemma agree_signed target v T C : scalar_ok v -> is_str v = false ->
  In (target, T, C) [(I8 0, signed 8, I8); (I16 0, signed 16, I16); (I32 0, signed 32, I32); (I64 0, signed 64, I64)] ->
  decode_as target (to_decoded v) = coerce_into target v.
Proof.
  intros Hv Hs Hin. rewrite (host_int target v T C) by (done || cbn [In] in *; tauto).
  cbn [In] in Hin. repeat destruct Hin as [[= <- <- <-]|Hin]; try done; cbn [decode_as].
  - unfold decoded_to_i8, signed. by rewrite wire_signed by (done || lia).
  - unfold decoded_to_i16, signed. by rewrite wire_signed by (done || lia).
  - by rewrite wire_i32.
  - by rewrite wire_i64.
Qed.

Lemma agree_unsigned target v T C : scalar_ok v -> is_str v = false ->
  In (target, T, C) [(U8 0, unsigned 8, U8); (U16 0, unsigned 16, U16); (U32 0, unsigned 32, U32); (U64 0, unsigned 64, U64)] ->
  decode_as target (to_decoded v) = (if fraction_below_zero v then None else coerce_into target v) /\
  (fraction_below_zero v = true -> coerce_into target v = Some (C 0)).
Proof.
  intros Hv Hs Hin. rewrite (host_int target v T C) by (done || cbn [In] in *; tauto).
  assert (fraction_below_zero v = true -> to_int T v = Some 0) as Hz.
  { intros Hf. cbn [In] in Hin. repeat destruct Hin as [[= _ <- _]|Hin]; try done; apply fraction_host; done || lia. }
  split; [|intros Hf; by rewrite Hz]. cbn [In] in Hin.
  repeat destruct Hin as [[= <- <- <-]|Hin]; try done; cbn [decode_as].
  - unfold decoded_to_u8, unsigned. rewrite wire_unsigned by (done || lia). by destruct (fraction_below_zero v).
  - unfold decoded_to_u16, unsigned. rewrite wire_unsigned by (done || lia). by destruct (fraction_below_zero v).
  - unfold decoded_to_u32, unsigned. rewrite wire_unsigned by (done || lia). by destruct (fraction_below_zero v).
  - rewrite wire_u64 by done. by destruct (fraction_below_zero v).
Qed.

(** C17: a client's PUT of a number and the same write by the host store the
    same value or are both refused, whatever the types of the record and of the
    value, except that a string and a number never convert into each other in a
    PUT, and a fraction between -1 and 0 is refused by an unsigned record in a
    PUT while the host writes 0. *)
Theorem host_wire_agree target v :
  scalar_ok v -> plain v = true ->
  decode_as target (to_decoded v) = (if differs target v then None else coerce_into target v) /\
  (is_unsigned target && fraction_below_zero v = true ->
   exists next, coerce_into target v = Some next /\ as_i128 next = Some 0 /\ same_variant target next = true).
Proof.
  intros Hv Hp. destruct (is_str v) eqn:Hs; [by destruct v; try done; destruct target|].
  unfold differs. rewrite Hs, xorb_false_r.
  destruct target; cbn [is_str is_unsigned orb andb];
    try (match goal with |- context [decode_as (?C ?x)] =>
           split; [|done]; change (decode_as (C x)) with (decode_as (C 0)); rewrite (coerce_variant (C x) (C 0)) by done; by eapply agree_signed; [..|cbn [In]; tauto] end);
    try (match goal with |- context [decode_as (?C ?x)] =>
           change (decode_as (C x)) with (decode_as (C 0)); rewrite (coerce_variant (C x) (C 0)) by done;
           destruct (agree_unsigned (C 0) v _ C Hv Hs ltac:(cbn [In]; tauto)) as [E1 E2]; split; [exact E1|];
           intros Hf; exists (C 0); by rewrite E2 end).
  - split; [|done]. destruct v; try done; cbn. f_equal. by rewrite eq_zero_widen.
  - split; [|done]. destruct v as [[]| | | | | | | | |x| |]; try reflexivity. apply negb_true_iff in Hp. cbn [decode_as to_decoded decoded_to_f32 decoded_to_f64 fmap option_fmap option_map].
    by rewrite to_f32_widen.
  - split; [|done]. destruct v as [[]| | | | | | | | | | |]; reflexivity || done.
  - split; [|done]. by destruct v.
Qed.

End Paths.

(** [-0.5] into a [ubyte] record. *)
Lemma host_wire_agree_witness :
  decode_as (U8 7) (to_decoded (F64 0xBFE0000000000000)) = None /\
  exists next, @coerce_into (Build_FloatText (fun _ => []) (fun _ => [])) (U8 7) (F64 0xBFE0000000000000) = Some next /\
    as_i128 next = Some 0 /\ same_variant (U8 7) next = true.
Proof.
  destruct (@host_wire_agree (Build_FloatText (fun _ => []) (fun _ => [])) (U8 7) (F64 0xBFE0000000000000)) as [E1 E2];
    [cbn [scalar_ok]; lia|reflexivity|]. split; [rewrite E1; vm_compute; reflexivity|apply E2; vm_compute; reflexivity].
Defined.

End WritePaths.
