(* ===== verification/SimpleStore.v ===== *)
(** * The in-memory store

    [spvirit-server/src/simple_store.rs]: the PV entries with their subscribers
    and the reference point of the monitor deadband, the writes of the host, the
    PUT of a client, and the propagation of links.  A subscriber is its channel
    of 64 slots; the calls of the monitor registry and the spawned [on_put]
    callbacks are recorded in order.  Link computations and PUT validators are
    functions given by the user of the store.  [now] is the clock of the
    operation. *)

From stdpp Require Import gmap.
From Stdlib Require Import ZArith.
From S2P Require Import Prelude Utf8 Wire PvdTypes NtTypes F64 Text Calc CalcParse CalcEval MonitorHub PutEncode Convert Records Apply.

Local Open Scope Z_scope.

Module SimpleStore.
Import Float NtTypes PayloadEq Convert Records Apply.
Import Val(DecodedValue).

(** ** State *)

(** The sender of an [mpsc::channel(64)], seen with the queue of its receiver. *)
Record Sender := mkSender { queued : list NtPayload; is_closed : bool }.
Definition CAPACITY : Z := 64.

Record PvEntry := mkEntry { record : RecordInstance; subscribers : list Sender; last_posted : option Z }.

Inductive SetOutcome : Type := Changed | Unchanged | Refused | NotFound.
#[export] Instance SetOutcome_eq_dec : EqDecision SetOutcome.
Proof. solve_decision. Defined.

Record LinkDef := mkLink { output : bytes; inputs : list bytes; compute : list ScalarValue -> ScalarValue }.

(** [Err(msg)] rejects the PUT. *)
Definition PutValidator : Type := bytes -> DecodedValue -> outcome bytes unit.

Record SimplePvStore := mkStore {
  pvs : gmap bytes PvEntry;
  registry : bool;
  validators : gmap bytes PutValidator;
  notified : list (bytes * NtPayload);
  spawned : list (bytes * DecodedValue) }.

Definition with_pvs (st : SimplePvStore) (m : gmap bytes PvEntry) : SimplePvStore :=
  mkStore m (registry st) (validators st) (notified st) (spawned st).

(** [registry.notify_monitors(name, payload)] where a registry is attached. *)
Definition notify_monitors (st : SimplePvStore) (name : bytes) (p : NtPayload) : SimplePvStore :=
  if registry st then mkStore (pvs st) (registry st) (validators st) (notified st ++ [(name, p)]) (spawned st) else st.

Definition spawn_on_put (st : SimplePvStore) (name : bytes) (v : DecodedValue) : SimplePvStore :=
  mkStore (pvs st) (registry st) (validators st) (notified st) (spawned st ++ [(name, v)]).

(** ** Helpers *)

(** [None] drops the sender. *)
Definition deliver_or_keep (p : NtPayload) (tx : Sender) : option Sender :=
  if is_closed tx then None
  else if CAPACITY <=? zlen (queued tx) then Some tx
  else Some (mkSender (queued tx ++ [p]) (is_closed tx)).

Definition scalar_as_f64 (v : ScalarValue) : option Z :=
  match v with
  | I8 x | I16 x | I32 x | I64 x | U8 x | U16 x | U32 x | U64 x => Some (of_Z x)
  | F32 x => Some (widen x)
  | F64 x => Some x
  | Bool _ | Str _ => None
  end.

Definition initial_posted (r : RecordInstance) : option Z :=
  match to_ntpayload r with Scalar nt => scalar_as_f64 (value nt) | _ => None end.

Definition mdel_of (r : RecordInstance) : Z :=
  match raw_fields r !! str "MDEL" ≫= (fun s => Text.parse_f64 (Text.trim s)) with
  | Some f => f mod 2 ^ 64
  | None => 0
  end.

Definition should_post_update (e : PvEntry) (prev_severity : Z) : PvEntry * bool :=
  match initial_posted (record e) with
  | None => (e, true)
  | Some new_f =>
    let mdel := mdel_of (record e) in
    let severity_changed := negb (record_severity (record e) =? prev_severity) in
    let within_deadband :=
      F64.lt64 0 mdel && negb severity_changed
      && match last_posted e with Some last => F64.lt64 (F64.abs (F64.sub new_f last)) mdel | None => false end in
    if within_deadband then (e, false) else (mkEntry (record e) (subscribers e) (Some new_f), true)
  end.

(** [let payload = record.to_ntpayload(); subscribers.retain(..)]. *)
Definition post (e : PvEntry) : PvEntry * NtPayload :=
  let p := to_ntpayload (record e) in (mkEntry (record e) (omap (deliver_or_keep p) (subscribers e)) (last_posted e), p).

Definition with_record (e : PvEntry) (r : RecordInstance) : PvEntry := mkEntry r (subscribers e) (last_posted e).

(** ** The table of PVs *)

Definition new_entry (now : NtTimeStamp) (r : RecordInstance) : PvEntry :=
  let r := stamp_missing_timestamps now r in mkEntry r [] (initial_posted r).

Definition new (now : NtTimeStamp) (records : gmap bytes RecordInstance) : SimplePvStore :=
  mkStore (new_entry now <$> records) false ∅ [] [].

Definition set_registry (st : SimplePvStore) : SimplePvStore :=
  mkStore (pvs st) true (validators st) (notified st) (spawned st).

Definition set_validator (st : SimplePvStore) (name : bytes) (v : PutValidator) : SimplePvStore :=
  mkStore (pvs st) (registry st) (<[name := v]> (validators st)) (notified st) (spawned st).

Definition insert (now : NtTimeStamp) (st : SimplePvStore) (name : bytes) (r : RecordInstance) : SimplePvStore :=
  with_pvs st (<[name := new_entry now r]> (pvs st)).

Definition remove (st : SimplePvStore) (name : bytes) : SimplePvStore * bool :=
  (with_pvs st (delete name (pvs st)), bool_decide (is_Some (pvs st !! name))).

Definition get_value (st : SimplePvStore) (name : bytes) : option ScalarValue :=
  (fun e => current_value (record e)) <$> pvs st !! name.

Definition get_nt (st : SimplePvStore) (name : bytes) : option NtPayload :=
  (fun e => to_ntpayload (record e)) <$> pvs st !! name.

Definition get_record (st : SimplePvStore) (name : bytes) : option RecordInstance := record <$> pvs st !! name.

Definition subscribe (st : SimplePvStore) (name : bytes) : SimplePvStore * bool :=
  match pvs st !! name with
  | None => (st, false)
  | Some e =>
    let live := filter (fun tx => is_closed tx = false) (subscribers e) in
    (with_pvs st (<[name := mkEntry (record e) (live ++ [mkSender [] false]) (last_posted e)]> (pvs st)), true)
  end.

(** ** Writes *)

Section Store.
Context `{FloatText}.
Context (now : NtTimeStamp) (on_put : gset bytes) (links : list LinkDef) (compute_alarms : bool).

Definition set_value_outcome (st : SimplePvStore) (name : bytes) (v : ScalarValue) : SimplePvStore * SetOutcome :=
  match pvs st !! name with
  | None => (st, NotFound)
  | Some e =>
    let prev_severity := alarm_severity (to_ntscalar (record e)) in
    match try_set_scalar_value now (record e) v compute_alarms with
    | (_, None) => (st, Refused)
    | (_, Some false) => (st, Unchanged)
    | (r, Some true) =>
      match should_post_update (with_record e r) prev_severity with
      | (e, false) => (with_pvs st (<[name := e]> (pvs st)), Changed)
      | (e, true) =>
        let '(e, p) := post e in
        (notify_monitors (with_pvs st (<[name := e]> (pvs st))) name p, Changed)
      end
    end
  end.

Definition set_array_value_inner (st : SimplePvStore) (name : bytes) (v : ScalarArrayValue) : SimplePvStore * bool :=
  match pvs st !! name with
  | None => (st, false)
  | Some e =>
    match set_array_value now (record e) v with
    | (_, false) => (st, false)
    | (r, true) =>
      let '(e, p) := post (with_record e r) in
      (notify_monitors (with_pvs st (<[name := e]> (pvs st))) name p, true)
    end
  end.

Definition put_nt_inner (st : SimplePvStore) (name : bytes) (payload : NtPayload) : SimplePvStore * outcome Empty_set bool :=
  match pvs st !! name with
  | None => (st, Ok false)
  | Some e =>
    match set_nt_payload now (record e) payload with
    | Ok (_, false) => (st, Ok false)
    | Ok (r, true) =>
      let '(e, p) := post (with_record e r) in
      (notify_monitors (with_pvs st (<[name := e]> (pvs st))) name p, Ok true)
    | Err e => match e with end
    | Panic => (st, Panic)
    | OutOfFuel => (st, OutOfFuel)
    end
  end.

(** The alarm of a record that has one, and its replacement. *)
Definition alarm_of (d : RecordData) : option NtAlarm :=
  match nt_scalar d, nt_array d, d with
  | Some nt, _, _ => Some (mkAlarm (alarm_severity nt) (alarm_status nt) (alarm_message nt))
  | None, Some (nt, _, _), _ => Some (sa_alarm nt)
  | None, None, REnum nt _ _ _ => Some (en_alarm nt)
  | _, _, _ => None
  end.

Definition put_alarm (d : RecordData) (a : NtAlarm) : RecordData :=
  match nt_scalar d, nt_array d, d with
  | Some nt, _, _ => put_scalar d (NtTypes.set_alarm nt (severity a) (al_status a) (al_message a))
  | None, Some (nt, _, nord), _ =>
    put_array d (mkScalarArray (sa_value nt) a (sa_time_stamp nt) (sa_display nt) (sa_control nt)) nord
  | None, None, REnum nt inp out omsl => REnum (mkEnum (enum_index nt) (choices nt) a (en_time_stamp nt)) inp out omsl
  | _, _, d => d
  end.

Definition set_alarm (st : SimplePvStore) (name : bytes) (a : NtAlarm) : SimplePvStore * bool :=
  match pvs st !! name with
  | None => (st, false)
  | Some e =>
    match alarm_of (data (record e)) with
    | None => (st, false)
    | Some old =>
      if alarm_eq old a then (st, false)
      else
        let '(e, p) := post (with_record e (with_data (record e) (put_alarm (data (record e)) a))) in
        (notify_monitors (with_pvs st (<[name := e]> (pvs st))) name p, true)
    end
  end.

(** ** Links *)

Definition link_values (st : SimplePvStore) (l : LinkDef) : list ScalarValue :=
  map (fun n => match get_value st n with Some v => v | None => F64 0 end) (inputs l).

(** One turn of [for link in &self.links]; the last pushed PV is the head. *)
Definition link_step (pv : bytes) (acc : SimplePvStore * list bytes) (l : LinkDef) : SimplePvStore * list bytes :=
  let '(st, queue) := acc in
  if existsb (fun i => bool_decide (i = pv)) (inputs l) then
    let '(st, o) := set_value_outcome st (output l) (compute l (link_values st l)) in
    (st, if decide (o = Changed) then output l :: queue else queue)
  else acc.

(** The loop, with the PVs it logs as circular. *)
Fixpoint link_loop (fuel : nat) (st : SimplePvStore) (queue : list bytes) (visited : gset bytes) (circular : list bytes)
  : outcome Empty_set (SimplePvStore * list bytes) :=
  match queue with
  | [] => Ok (st, circular)
  | pv :: queue =>
    match fuel with
    | O => OutOfFuel
    | S fuel =>
      if decide (pv ∈ visited) then link_loop fuel st queue visited (pv :: circular)
      else
        let '(st, queue) := fold_left (link_step pv) links (st, queue) in
        link_loop fuel st queue ({[pv]} ∪ visited) circular
    end
  end.

(** Turns of the loop: one for the PV that changed and, for each PV visited, one
    for each link. *)
Definition link_fuel : nat := S ((1 + length links) * length links).

Definition evaluate_links (st : SimplePvStore) (changed_pv : bytes) : outcome Empty_set (SimplePvStore * list bytes) :=
  match links with
  | [] => Ok (st, [])
  | _ => link_loop link_fuel st [changed_pv] ∅ []
  end.

(** ** The operations of the host and the PUT of a client *)

Local Open Scope codec_scope.

Definition set_value_checked (st : SimplePvStore) (name : bytes) (v : ScalarValue)
  : outcome Empty_set (SimplePvStore * SetOutcome * list bytes) :=
  let '(st, o) := set_value_outcome st name v in
  if decide (o = Changed) then let? next := evaluate_links st name in Ok (next.1, o, next.2)
  else Ok (st, o, []).

Definition set_array_value (st : SimplePvStore) (name : bytes) (v : ScalarArrayValue)
  : outcome Empty_set (SimplePvStore * bool * list bytes) :=
  let '(st, changed) := set_array_value_inner st name v in
  if changed then let? next := evaluate_links st name in Ok (next.1, true, next.2)
  else Ok (st, false, []).

Definition put_nt (st : SimplePvStore) (name : bytes) (payload : NtPayload)
  : outcome Empty_set (SimplePvStore * bool * list bytes) :=
  let '(st, changed) := put_nt_inner st name payload in
  let? changed := changed in
  if (changed : bool) then let? next := evaluate_links st name in Ok (next.1, true, next.2)
  else Ok (st, false, []).

Inductive StoreError : Type :=
| Rejected (msg : bytes) | PvNotFound (name : bytes) | NotWritable (name : bytes) | PutRefused (record : bytes) (why : Refusal).

(** The record part of a PUT, under the lock. *)
Definition put_record (st : SimplePvStore) (name : bytes) (val : DecodedValue)
  : SimplePvStore * outcome StoreError (option (bytes * NtPayload) * PutOutcome) :=
  match pvs st !! name with
  | None => (st, Err (PvNotFound name))
  | Some e =>
    if negb (writable (record e)) then (st, Err (NotWritable name))
    else
      let prev_severity := alarm_severity (to_ntscalar (record e)) in
      match apply_put now (record e) val compute_alarms with
      | (r, Err (n, why)) => (with_pvs st (<[name := with_record e r]> (pvs st)), Err (PutRefused n why))
      | (r, Ok o) =>
        let e := with_record e r in
        let '(e, do_post) :=
          if value_changed o then should_post_update e prev_severity else (e, client_stamped o) in
        if (do_post : bool) then
          let '(e, p) := post e in (with_pvs st (<[name := e]> (pvs st)), Ok (Some (name, p), o))
        else (with_pvs st (<[name := e]> (pvs st)), Ok (None, o))
      | (r, Panic) => (st, Panic)
      | (r, OutOfFuel) => (st, OutOfFuel)
      end
  end.

Definition put (st : SimplePvStore) (name : bytes) (val : DecodedValue)
  : SimplePvStore * outcome StoreError (list (bytes * NtPayload) * list bytes) :=
  match match validators st !! name with Some v => v name val | None => Ok tt end with
  | Err msg => (st, Err (Rejected msg))
  | Panic => (st, Panic)
  | OutOfFuel => (st, OutOfFuel)
  | Ok _ =>
    match put_record st name val with
    | (st, Ok (result, o)) =>
      let st := if decide (name ∈ on_put) then spawn_on_put st name val else st in
      let posted := match result with Some p => [p] | None => [] end in
      if value_changed o then
        match evaluate_links st name with
        | Ok (st, circular) => (st, Ok (posted, circular))
        | Err e => match e with end
        | Panic => (st, Panic)
        | OutOfFuel => (st, OutOfFuel)
        end
      else (st, Ok (posted, []))
    | (st, Err e) => (st, Err e)
    | (st, Panic) => (st, Panic)
    | (st, OutOfFuel) => (st, OutOfFuel)
    end
  end.

End Store.

(** ** Propagation ends *)

Section Propagation.
Context `{FloatText}.
Context (now : NtTimeStamp) (links : list LinkDef) (ca : bool).

Abbreviation step := (link_step now ca).
Abbreviation loop := (link_loop now links ca).

Lemma fold_queue pv ls : forall st q, exists add, (fold_left (step pv) ls (st, q)).2 = add ++ q /\
  (length add <= length ls)%nat /\ Forall (fun x => In x (map output ls)) add.
Proof.
  induction ls as [|l ls IH]; intros st q; [by exists []|]. cbn [fold_left].
  assert (exists st1 a1, step pv (st, q) l = (st1, a1 ++ q) /\ (a1 = [] \/ a1 = [output l])) as (st1 & a1 & E & Ha).
  { unfold link_step. destruct (existsb _ _); [|by eexists _, []; auto]. destruct (set_value_outcome _ _ _ _ _) as [st1 o].
    destruct (decide (o = Changed)); [by eexists _, [_]; auto|by eexists _, []; auto]. }
  rewrite E. destruct (IH st1 (a1 ++ q)) as (a2 & -> & Hl & Hf). exists (a2 ++ a1). rewrite <- app_assoc. split; [done|].
  rewrite length_app. cbn [map length]. split; [destruct Ha as [-> | ->]; cbn; lia|]. apply Forall_app. split.
  - eapply Forall_impl; [exact Hf|]. intros x Hx. by right.
  - destruct Ha as [-> | ->]; [done|]. repeat constructor.
Qed.

Lemma size_list_to_set_le (l : list bytes) : (size (list_to_set l : gset bytes) <= length l)%nat.
Proof.
  induction l as [|x l IH]; [done|]. cbn [list_to_set length]. rewrite size_union_alt, size_singleton.
  assert (size (list_to_set l ∖ {[x]} : gset bytes) <= size (list_to_set l : gset bytes))%nat by (apply subseteq_size; set_solver). lia.
Qed.

Lemma unvisited (U V : gset bytes) x : x ∈ U -> x ∉ V -> (S (size (U ∖ ({[x]} ∪ V))) <= size (U ∖ V))%nat.
Proof.
  intros HU HV. apply subset_size. split; [set_solver|]. intros Hs. specialize (Hs x). set_solver.
Qed.

Lemma loop_ends (U : gset bytes) : (forall l, In l links -> output l ∈ U) -> forall fuel st q V circ,
  Forall (fun x => x ∈ U) q -> (length q + length links * size (U ∖ V) <= fuel)%nat ->
  exists st' circ', loop fuel st q V circ = Ok (st', circ').
Proof.
  intros HU. induction fuel as [|fuel IH]; intros st q V circ Hq Hf.
  - destruct q; [by eexists _, _|]. cbn in Hf. lia.
  - destruct q as [|pv q]; [by eexists _, _|]. apply Forall_cons in Hq as [Hpv Hq]. cbn [link_loop].
    destruct (decide (pv ∈ V)); [apply IH; [done|cbn in Hf; lia]|].
    destruct (fold_queue pv links st q) as (add & E & Hl & Ha). destruct (fold_left _ _ _) as [st' q']. cbn [snd] in E. subst q'.
    apply IH.
    + apply Forall_app. split; [|done]. eapply Forall_impl; [exact Ha|]. intros x (l & <- & Hin)%in_map_iff. by apply HU.
    + pose proof (unvisited U V pv Hpv n). rewrite length_app. cbn in Hf. nia.
Qed.

Lemma evaluate_ends st name : exists st' circ, evaluate_links now links ca st name = Ok (st', circ).
Proof.
  unfold evaluate_links. destruct links as [|l0 ls] eqn:E; [by eexists _, _|]. rewrite <- E.
  apply (loop_ends ({[name]} ∪ list_to_set (map output links))).
  - intros l Hl. apply elem_of_union_r, elem_of_list_to_set, list_elem_of_In, in_map_iff. by exists l.
  - repeat constructor. set_solver.
  - unfold link_fuel. rewrite difference_empty_L.
    assert (size ({[name]} ∪ list_to_set (map output links) : gset bytes) <= 1 + length links)%nat; [|cbn [length]; nia].
    rewrite size_union_alt, size_singleton, <- (length_map output links).
    assert (size (list_to_set (map output links) ∖ {[name]} : gset bytes) <= size (list_to_set (map output links) : gset bytes))%nat
      by (apply subseteq_size; set_solver).
    pose proof (size_list_to_set_le (map output links)). lia.
Qed.

(** ** Links settle *)

Definition bytes_dec (a b : bytes) : {a = b} + {a <> b} := decide (a = b).

Definition rec_of (st : SimplePvStore) (n : bytes) : option RecordInstance := record <$> pvs st !! n.

(** Computing the link once more and writing the result would leave the value of
    its output as it is. *)
Definition settled (st : SimplePvStore) (l : LinkDef) : Prop :=
  forall r, rec_of st (output l) = Some r ->
    current_value (try_set_scalar_value now r (compute l (link_values st l)) ca).1 = current_value r.

Lemma get_value_rec st n : get_value st n = current_value <$> rec_of st n.
Proof. unfold get_value, rec_of. by destruct (pvs st !! n). Qed.

Lemma try_set_unchanged r v : (try_set_scalar_value now r v ca).2 <> Some true -> (try_set_scalar_value now r v ca).1 = r.
Proof.
  unfold try_set_scalar_value. intros H0.
  repeat (case_match; cbn [fst snd] in *; try done).
Qed.

Lemma coerce_into_variant t v n : coerce_into t v = Some n -> same_variant t n = true.
Proof.
  unfold coerce_into. destruct (same_variant t v) eqn:E; [by intros [= <-]|]. unfold coerce_cross_variant.
  destruct v; destruct t; try done;
    repeat (match goal with |- context [fmap _ ?o] => destruct o; cbn [fmap option_fmap option_map]; try done; try by intros [= <-] end);
    cbn [as_i128]; by intros [= <-].
Qed.

Lemma coerce_into_again t v n : coerce_into t v = Some n -> coerce_into n v = Some n.
Proof.
  intros Hc. pose proof (coerce_into_variant t v n Hc) as Hs. rewrite <- Hc. symmetry.
  destruct t, n; try done; destruct v; reflexivity.
Qed.

Lemma current_scalar r nt : nt_scalar (data r) = Some nt -> current_value r = value nt.
Proof. destruct r as [? ? ? d ?]. cbn. destruct d; try done; by intros [= ->]. Qed.

Lemma scalar_write r nt v : nt_scalar (data r) = Some nt ->
  exists nt', nt_scalar (data (try_set_scalar_value now r v ca).1) = Some nt' /\
    value nt' = match coerce_into (value nt) v with
                | Some next => if scalar_eq (value nt) next then value nt else next
                | None => value nt
                end.
Proof.
  intros Hnt. assert (E : try_set_scalar_value now r v ca =
    match coerce_into (value nt) v with
    | None => (r, None)
    | Some next =>
      if scalar_eq (value nt) next then (r, Some false)
      else
        let nt := set_time_stamp (Some now) (set_value next nt) in
        (with_data r (put_scalar (data r) (if ca then update_alarm_from_value nt else nt)), Some true)
    end).
  { unfold try_set_scalar_value. destruct (data r); try done; injection Hnt as ->; reflexivity. }
  rewrite E. destruct (coerce_into (value nt) v) as [next|]; [|by exists nt]. destruct (scalar_eq (value nt) next); [by exists nt|].
  eexists. cbn [fst data with_data]. split; [by apply put_scalar_get with nt|].
  assert (value (set_time_stamp (Some now) (set_value next nt)) = next) as V by (by destruct nt).
  destruct ca; [|done]. pose proof (update_alarm_inputs (set_time_stamp (Some now) (set_value next nt))) as Hi.
  injection Hi as Hi _ _ _ _. by rewrite Hi.
Qed.

(** Writing a value twice leaves what writing it once does. *)
Lemma try_set_twice r v :
  current_value (try_set_scalar_value now (try_set_scalar_value now r v ca).1 v ca).1 = current_value (try_set_scalar_value now r v ca).1.
Proof.
  destruct (decide ((try_set_scalar_value now r v ca).2 = Some true)) as [Ht|Ht]; [|by rewrite !(try_set_unchanged r v Ht)].
  destruct (nt_scalar (data r)) as [nt|] eqn:Hnt.
  - destruct (scalar_write r nt v Hnt) as (nt1 & H1 & V1). destruct (scalar_write _ nt1 v H1) as (nt2 & H2 & V2).
    rewrite (current_scalar _ _ H2), (current_scalar _ _ H1), V2.
    destruct (coerce_into (value nt) v) as [next|] eqn:Hc; [|by rewrite V1, Hc].
    destruct (scalar_eq (value nt) next) eqn:He; rewrite V1; [by rewrite Hc, He|].
    rewrite (coerce_into_again _ _ _ Hc). by destruct (scalar_eq next next).
  - unfold try_set_scalar_value in Ht |- *. destruct (data r) eqn:Hd; try done.
    destruct (match v with I32 i => Some i | _ => _ end) as [idx|]; [|done].
    destruct (_ || _) eqn:Hr; [done|]. destruct (enum_index nt =? idx) eqn:Hi; [done|]. cbn [fst data with_data].
    destruct nt as [i cs al ts]. cbn [choices enum_index set_enum_time set_enum_index] in *. by rewrite Hr, Z.eqb_refl.
Qed.

(** The records after a write. *)
Lemma rec_of_write st n v m : rec_of (set_value_outcome now ca st n v).1 m =
  if decide (m = n) then (fun r => (try_set_scalar_value now r v ca).1) <$> rec_of st n else rec_of st m.
Proof.
  unfold set_value_outcome, rec_of. destruct (pvs st !! n) as [e|] eqn:He; [|cbn [fst]; destruct (decide (m = n)) as [->|]; by rewrite ?He].
  pose proof (try_set_unchanged (record e) v) as Hu.
  destruct (try_set_scalar_value now (record e) v ca) as [r [[]|]] eqn:Et; cbn [fst snd] in Hu.
  - destruct (should_post_update _ _) as [e' b] eqn:Ep.
    assert (record e' = r) as Hr.
    { unfold should_post_update in Ep. destruct (initial_posted _); [destruct (_ && _)|]; injection Ep as <- <-; done. }
    assert (forall e'', record e'' = r -> record <$> <[n := e'']> (pvs st) !! m =
      if decide (m = n) then (fun r => (try_set_scalar_value now r v ca).1) <$> Some (record e) else record <$> pvs st !! m) as Hw.
    { intros e'' <-. destruct (decide (m = n)) as [->|]; [rewrite lookup_insert_eq; cbn; by rewrite Et|by rewrite lookup_insert_ne]. }
    destruct b; cbn [post fst]; [|by apply Hw]. unfold notify_monitors. destruct (registry _); cbn [pvs with_pvs]; by apply Hw.
  - cbn [fst]. destruct (decide (m = n)) as [->|]; [|done]. rewrite He. cbn. by rewrite Et, Hu.
  - cbn [fst]. destruct (decide (m = n)) as [->|]; [|done]. rewrite He. cbn. by rewrite Et, Hu.
Qed.

Lemma write_outcome st n v : (set_value_outcome now ca st n v).2 <> Changed -> (set_value_outcome now ca st n v).1 = st.
Proof.
  unfold set_value_outcome. destruct (pvs st !! n) as [e|]; [|done]. destruct (try_set_scalar_value _ _ _ _) as [r [[]|]]; try done.
  destruct (should_post_update _ _) as [e' []]; done.
Qed.

Lemma link_values_same st st' l : (forall i, In i (inputs l) -> rec_of st' i = rec_of st i) -> link_values st' l = link_values st l.
Proof. intros Hi. apply map_ext_in. intros i Hin. rewrite !get_value_rec. by rewrite Hi. Qed.

Lemma settled_write st l n v : output l <> n -> ~ In n (inputs l) -> settled st l ->
  settled (set_value_outcome now ca st n v).1 l.
Proof.
  intros Ho Hi Hs r. rewrite rec_of_write, decide_False by done. intros Hr. rewrite (link_values_same st); [by apply Hs|].
  intros i Hin. rewrite rec_of_write, decide_False; [done|]. by intros ->.
Qed.

Lemma settled_own st l : ~ In (output l) (inputs l) ->
  settled (set_value_outcome now ca st (output l) (compute l (link_values st l))).1 l.
Proof.
  intros Hi r. rewrite rec_of_write, decide_True by done.
  rewrite (link_values_same st (set_value_outcome now ca st (output l) (compute l (link_values st l))).1) by (intros i Hin; rewrite rec_of_write, decide_False; [done|]; by intros ->).
  destruct (rec_of st (output l)) as [r0|]; [|done]. intros [= <-]. apply try_set_twice.
Qed.

(** A link is settled, waits for a PV in the queue, or is still to be visited. *)
Definition waits (st : SimplePvStore) (queue : list bytes) (todo : list LinkDef) (pv : bytes) (l : LinkDef) : Prop :=
  settled st l \/ (exists i, In i (inputs l) /\ In i queue) \/ (In l todo /\ In pv (inputs l)).

Hypothesis one_driver : NoDup (map output links).

Lemma driver_unique l l0 : In l links -> In l0 links -> output l = output l0 -> l = l0.
Proof using one_driver.
  clear ca now. intros Hl Hl0 E. induction links as [|x ls IH]; [done|]. cbn in one_driver. apply NoDup_cons in one_driver as [Hn Hd].
  assert (forall y, In y ls -> output y <> output x) as Hx.
  { intros y Hy Hxy. apply Hn. rewrite <- Hxy. apply list_elem_of_In, in_map_iff. by exists y. }
  destruct Hl as [<-|Hl], Hl0 as [<-|Hl0]; [done|by edestruct Hx; eauto|by edestruct Hx; eauto|by apply IH].
Qed.

Lemma step_waits st q l0 todo pv : In l0 links -> (forall l, In l links -> waits st q (l0 :: todo) pv l) ->
  forall l, In l links -> waits (step pv (st, q) l0).1 (step pv (st, q) l0).2 todo pv l.
Proof using one_driver.
  intros Hl0 HJ l Hl. specialize (HJ l Hl). unfold link_step. destruct (existsb _ _) eqn:Hpv.
  2:{ destruct HJ as [?|[?|[[<-|?] Hin]]]; [by left|by right; left| |by right; right].
      exfalso. apply not_true_iff_false in Hpv. apply Hpv, existsb_exists. exists pv. split; [done|]. by apply bool_decide_eq_true. }
  set (v := compute l0 (link_values st l0)). pose proof (write_outcome st (output l0) v) as Hw.
  pose proof (settled_write st l (output l0) v) as Hsw. pose proof (settled_own st l0) as Hso. fold v in Hso.
  assert (Hown : rec_of (set_value_outcome now ca st (output l0) v).1 (output l0) = _ <$> rec_of st (output l0)) by (by rewrite rec_of_write, decide_True).
  destruct (set_value_outcome now ca st (output l0) v) as [st' o]. cbn [fst snd] in *.
  destruct (decide (o = Changed)) as [->|Ho]; cbn [fst snd].
  - destruct (in_dec bytes_dec (output l0) (inputs l)) as [Hin|Hin]; [right; left; exists (output l0); split; [done|by left]|].
    destruct (decide (output l = output l0)) as [E|E]; [left; rewrite (driver_unique l l0 Hl Hl0 E) in Hin |- *; by apply Hso|].
    destruct HJ as [Hs|[(i & Hi & Hq)|[[<-|Ht] Hp]]]; [left; by apply Hsw|right; left; exists i; split; [done|by right]|done|by right; right].
  - specialize (Hw Ho) as ->. destruct HJ as [Hs|[Hq|[[<-|Ht] Hp]]]; [by left|by right; left| |by right; right]. left.
    intros r Hr. rewrite Hr in Hown. cbn in Hown. injection Hown as Hown. fold v. by rewrite <- Hown.
Qed.

Lemma fold_waits pv todo : (forall l, In l todo -> In l links) -> forall st q, (forall l, In l links -> waits st q todo pv l) ->
  forall l, In l links -> waits (fold_left (step pv) todo (st, q)).1 (fold_left (step pv) todo (st, q)).2 [] pv l.
Proof using one_driver.
  induction todo as [|l0 todo IH]; intros Hsub st q HJ; [done|]. cbn [fold_left].
  pose proof (step_waits st q l0 todo pv (Hsub l0 (or_introl eq_refl)) HJ) as H1. destruct (step pv (st, q) l0) as [st1 q1].
  apply IH; [|done]. intros l Hl. apply Hsub. by right.
Qed.

Lemma loop_logs fuel : forall st q V circ st' circ', loop fuel st q V circ = Ok (st', circ') -> exists k, circ' = k ++ circ.
Proof using.
  clear one_driver. induction fuel as [|fuel IH]; intros st q V circ st' circ'; destruct q as [|pv q]; try done; cbn [link_loop].
  - intros [= <- <-]. by exists [].
  - intros [= <- <-]. by exists [].
  - destruct (decide (pv ∈ V)).
    + intros (k & ->)%IH. exists (k ++ [pv]). by rewrite <- app_assoc.
    + destruct (fold_left _ _ _) as [st1 q1]. apply IH.
Qed.

Lemma loop_settles fuel : forall st q V st', (forall l, In l links -> settled st l \/ exists i, In i (inputs l) /\ In i q) ->
  loop fuel st q V [] = Ok (st', []) -> forall l, In l links -> settled st' l.
Proof using one_driver.
  induction fuel as [|fuel IH]; intros st q V st' HJ; destruct q as [|pv q]; try done; cbn [link_loop].
  - intros [= <-] l Hl. by destruct (HJ l Hl) as [?|(? & ? & [])].
  - intros [= <-] l Hl. by destruct (HJ l Hl) as [?|(? & ? & [])].
  - destruct (decide (pv ∈ V)); [intros (k & Hk)%loop_logs; by destruct k|].
    pose proof (fold_waits pv links (fun l Hl => Hl) st q) as HF. destruct (fold_left _ _ _) as [st1 q1] eqn:Ef. cbn [fst snd] in HF.
    intros Hloop. eapply IH; [|exact Hloop]. intros l Hl. destruct (HF) with l as [?|[?|[[] _]]]; [|done|by left|by right].
    intros l' Hl'. destruct (HJ l' Hl') as [?|(i & Hi & [<-|Hq])]; [by left|by right; right|right; left; by exists i].
Qed.

Lemma evaluate_settles st name st' : (forall l, In l links -> settled st l \/ In name (inputs l)) ->
  evaluate_links now links ca st name = Ok (st', []) -> forall l, In l links -> settled st' l.
Proof using one_driver.
  intros HJ He l Hl. assert (Hloop : loop (link_fuel links) st [name] ∅ [] = Ok (st', [])).
  { clear one_driver HJ. unfold evaluate_links in He. by destruct links. }
  refine (loop_settles _ _ _ _ _ _ Hloop l Hl).
  intros l' Hl'. destruct (HJ l' Hl') as [?|?]; [by left|]. right. exists name. split; [done|by left].
Qed.

End Propagation.

(** C20: a write of the host to a PV propagates through the links and ends.  If every
    link was settled before, no two links drive the same PV and none drives the
    one written, then unless a PV had to be visited again, which the loop logs as
    circular and skips, every link is settled afterwards: computing any of them
    again would change nothing. *)
Theorem host_write_settles `{FloatText} now links ca st name v :
  NoDup (map output links) -> (forall l, In l links -> output l <> name) -> (forall l, In l links -> settled now ca st l) ->
  exists st' o circular, set_value_checked now links ca st name v = Ok (st', o, circular) /\
    (circular = [] -> forall l, In l links -> settled now ca st' l).
Proof.
  intros Hd Hn Hs. unfold set_value_checked.
  assert (HJ : forall l, In l links -> settled now ca (set_value_outcome now ca st name v).1 l \/ In name (inputs l)).
  { intros l Hl. destruct (in_dec bytes_dec name (inputs l)); [by right|left]. apply settled_write; [by apply Hn|done|by apply Hs]. }
  pose proof (write_outcome now ca st name v) as Hw. destruct (set_value_outcome now ca st name v) as [st1 o]. cbn [fst snd] in *.
  destruct (decide (o = Changed)) as [->|Ho].
  - destruct (evaluate_ends now links ca st1 name) as (st' & circ & E). rewrite E. eexists _, _, _. split; [reflexivity|]. cbn [fst snd].
    intros ->. by eapply evaluate_settles.
  - rewrite (Hw Ho). eexists _, _, _. split; [reflexivity|]. done.
Qed.

(** ** Samples *)

Definition sum (l : list ScalarValue) : ScalarValue := I32 (fold_left (fun n v => match v with I32 i => n + i | _ => n end) l 0).
Definition longin (n : String.string) (v : Z) : RecordInstance :=
  mkRecord (str n) TLongIn default_common (Ai (from_value (I32 v)) None None None false) ∅.
Definition plain_text : FloatText := Build_FloatText (fun _ => []) (fun _ => []).
Definition t0 : NtTimeStamp := mkTimeStamp 1 0 0.
Definition store_of (l : list (String.string * Z)) : SimplePvStore :=
  new t0 (list_to_map (map (fun nv => (str nv.1, longin nv.1 nv.2)) l)).

(** [B = A], and then [C = A + B]. *)
Definition chain : list LinkDef := [mkLink (str "B") [str "A"] sum; mkLink (str "C") [str "A"; str "B"] sum].

Lemma host_write_settles_witness :
  exists st' o circular,
    @set_value_checked plain_text t0 chain false (store_of [("A", 1); ("B", 1); ("C", 2)]%string) (str "A") (I32 5) = Ok (st', o, circular) /\
    (circular = [] -> forall l, In l chain -> @settled plain_text t0 false st' l).
Proof.
  apply (@host_write_settles plain_text t0 chain false).
  - apply (bool_decide_unpack _). vm_compute. exact I.
  - intros l [<-|[<-|[]]]; discriminate.
  - intros l [<-|[<-|[]]] r Hr; vm_compute in Hr; injection Hr as <-; vm_compute; reflexivity.
Defined.

Example chain_settles :
  match @set_value_checked plain_text t0 chain false (store_of [("A", 1); ("B", 1); ("C", 2)]%string) (str "A") (I32 5) with
  | Ok (st, Changed, []) => get_value st (str "C") = Some (I32 10)
  | _ => False
  end.
Proof. vm_compute. reflexivity. Qed.

(** Links without a cycle can end with a stale PV: [B = A], [D = A + C], [E = D],
    [C = B].  [D] is written before [C] is, visited, and written again; the second
    visit is taken for a cycle, so that [E] keeps the first value of [D]. *)
Example derived_value_left_stale :
  let links := [mkLink (str "B") [str "A"] sum; mkLink (str "D") [str "A"; str "C"] sum;
                mkLink (str "E") [str "D"] sum; mkLink (str "C") [str "B"] sum] in
  match @set_value_checked plain_text t0 links false
          (store_of [("A", 0); ("B", 0); ("C", 0); ("D", 0); ("E", 0)]%string) (str "A") (I32 7) with
  | Ok (st, Changed, circular) =>
    circular = [str "D"] /\ get_value st (str "D") = Some (I32 14) /\ get_value st (str "E") = Some (I32 7)
  | _ => False
  end.
Proof. vm_compute. done. Qed.

(** After a whole payload of 100 is posted, a write of 5 with a deadband of 10 is
    not: the reference point is still the initial 0. *)
Example payload_write_forgets_deadband :
  let r := mkRecord (str "A") TAi default_common (Ai (from_value (F64 0)) None None None false) {[str "MDEL" := str "10"]} in
  let st := set_registry (new t0 {[str "A" := r]}) in
  match @put_nt plain_text t0 [] false st (str "A") (Scalar (from_value (F64 (of_Z 100)))) with
  | Ok (st, true, _) =>
    match @set_value_checked plain_text t0 [] false st (str "A") (F64 (of_Z 5)) with
    | Ok (st, Changed, _) =>
      get_value st (str "A") = Some (F64 (of_Z 5)) /\
      map (fun np => match np.2 with Scalar nt => value nt | _ => I32 0 end) (notified st) = [F64 (of_Z 100)]
    | _ => False
    end
  | _ => False
  end.
Proof. vm_compute. done. Qed.


End SimpleStore.
