(* ===== verification/ClientPut.v ===== *)
(** * A client's PUT into a server's record

    The whole way of a scalar PUT: the client encodes a JSON value for the
    descriptor the server advertises ([PutEncode]), the server decodes the body
    ([PutDecode]) and applies it to the record ([Apply]). *)

From stdpp Require Import gmap.
From S2P Require Import Prelude Utf8 Wire PvdTypes PvdEncode PvdDecode PvdSafety PvdRoundtrip PvdDelta Monitor Packet Message NtTypes NtEncode.
From S2P Require Import F64 Text Calc CalcParse CalcEval MonitorHub PutEncode PutDecode Convert JsonNumber PutRoundtrip Records Apply WritePaths.

Local Open Scope Z_scope.

Module ClientPut.
Import Wire PvdDecode NtTypes NtEncode PutEncode PutDecode JsonNumber PutRoundtrip Convert Records Apply WritePaths.

(** The descriptor of an NTScalar fits the encoder and the decoder. *)
Lemma scalar_desc_simple v :
  simple_fields (Ty.fields (nt_scalar_desc v)) = true /\ 1 + Ty.count_structure_fields (nt_scalar_desc v) <= u32_max /\
  Ty.fields_height (Ty.fields (nt_scalar_desc v)) <= max_depth default_limits.
Proof. destruct v; vm_compute; done. Qed.

Lemma scalar_entries v input :
  put_entries (nt_scalar_desc v) [(str "value", input)] = (fun w => [(str "value", w)]) <$> put_leaf (scalar_type v) input.
Proof.
  unfold nt_scalar_desc. cbn [put_entries PutRoundtrip.put_fields].
  assert (Hn : forall n t, n <> str "value" -> put_field put_entries (Ty.mkField n t) [(str "value", input)] = Some []).
  { intros n t Hn. unfold put_field, lookup_key. cbn [Ty.name List.find fst]. by rewrite bool_decide_eq_false_2. }
  assert (Hv : put_field put_entries (NtEncode.field "value" (scalar_type v)) [(str "value", input)] = (fun w => [(str "value", w)]) <$> put_leaf (scalar_type v) input).
  { unfold put_field, lookup_key. cbn [Ty.name List.find fst snd fmap option_fmap option_map Ty.field_type]. rewrite bool_decide_eq_true_2 by done. by destruct v. }
  rewrite Hv. rewrite !Hn by done. destruct (put_leaf (scalar_type v) input); [|by destruct v]. cbn [fmap option_fmap option_map]. by destruct v.
Qed.

(** Not the pattern of an [f32] NaN. *)
Definition canonical (w : Val.DecodedValue) : Prop := match w with Val.Float32 x => Float.is_nan32 x = false | _ => True end.

Lemma within_some lo hi o v : within lo hi o = Some v -> lo <= v <= hi.
Proof. unfold within. destruct o as [x|]; [|done]. destruct (_ || _) eqn:E; [done|]. intros [= <-]. apply orb_false_elim in E as [?%Z.ltb_ge ?%Z.ltb_ge]. lia. Qed.

(** What the client encodes for a record's own type, the record takes. *)
Lemma leaf_decodes v input w : put_leaf (scalar_type v) input = Some w ->
  inner_value w = w /\ exists next, decode_as v w = Some next /\ (canonical w -> to_decoded next = w).
Proof.
  destruct v; cbn [scalar_type scalar_value_type_code put_leaf PutRoundtrip.put_scalar decode_as].
  - destruct input; try done; [intros [= <-]; split; [done|by eexists]|].
    destruct (PutEncode.as_i64 n); cbn [fmap option_fmap option_map]; [|done]. intros [= <-]. split; [done|by eexists].
  - destruct (within _ _ _) as [x|] eqn:E; [|done]. intros [= <-]. apply within_some in E. split; [done|].
    unfold decoded_to_i8, signed. cbn [decoded_to_i64 mbind option_bind]. rewrite try_from_in by lia. by eexists.
  - destruct (within _ _ _) as [x|] eqn:E; [|done]. intros [= <-]. apply within_some in E. split; [done|].
    unfold decoded_to_i16, signed. cbn [decoded_to_i64 mbind option_bind]. rewrite try_from_in by lia. by eexists.
  - destruct (within _ _ _) as [x|] eqn:E; [|done]. intros [= <-]. split; [done|by eexists].
  - destruct (_ input) as [x|]; [|done]. intros [= <-]. split; [done|by eexists].
  - destruct (within _ _ _) as [x|] eqn:E; [|done]. intros [= <-]. apply within_some in E. split; [done|].
    unfold decoded_to_u8, unsigned. cbn [decoded_to_u64 mbind option_bind]. rewrite try_from_in by lia. by eexists.
  - destruct (within _ _ _) as [x|] eqn:E; [|done]. intros [= <-]. apply within_some in E. split; [done|].
    unfold decoded_to_u16, unsigned. cbn [decoded_to_u64 mbind option_bind]. rewrite try_from_in by lia. by eexists.
  - destruct (within _ _ _) as [x|] eqn:E; [|done]. intros [= <-]. apply within_some in E. split; [done|].
    unfold decoded_to_u32, unsigned. cbn [decoded_to_u64 mbind option_bind]. rewrite try_from_in by lia. by eexists.
  - destruct (_ input) as [x|]; [|done]. intros [= <-]. split; [done|by eexists].
  - destruct (_ input) as [x|]; [|done]. intros [= <-]. split; [done|]. eexists. split; [reflexivity|]. intros Hc.
    cbn [to_decoded]. f_equal. apply to_f32_widen; [|done]. unfold to_f32. apply Z.mod_pos_bound. lia.
  - destruct (_ input) as [x|]; [|done]. intros [= <-]. split; [done|by eexists].
  - destruct input; try done. intros [= <-]. split; [done|by eexists].
Qed.

(** C16: a client that puts a JSON value other than an object into a scalar record,
    encoded for the descriptor the server advertises, either is told at once that
    the value stands for none of the record's type, or the server decodes the
    body, whatever follows it, accepts it and the record then holds exactly what
    the value stands for in that type, stamped with the server's time, so the
    server never refuses what the client sends.  What a value stands for is an
    integer as written, the integer part of a double without a fraction, the
    nearest 64-bit integer when that is beyond them (1e30 leaves the largest one
    in an [I64] record), the nearest double or float; of a NaN in an [F32] record
    only the stamp is claimed. *)
Theorem client_put_reaches_record is_be json_text rest now r nt ca input :
  nt_scalar (data r) = Some nt -> json_ok input = true -> match input with Obj _ => false | _ => true end = true ->
  let d := nt_scalar_desc (value nt) in
  match put_leaf (scalar_type (value nt)) input with
  | None => exists err, encode_put_payload is_be json_text d input = Err err
  | Some w => exists msg r' o nt', encode_put_payload is_be json_text d input = Ok msg /\
      decode_put_body is_be (msg ++ rest) d = Ok (Some (Val.Structure [(str "value", w)])) /\
      apply_put now r (Val.Structure [(str "value", w)]) ca = (r', Ok o) /\ nt_scalar (data r') = Some nt' /\
      (canonical w -> to_decoded (value nt') = w) /\ time_stamp nt' = Some now
  end.
Proof.
  intros Hnt Hj Hi d. destruct (scalar_desc_simple (value nt)) as (D1 & D2 & D3).
  pose proof (put_body_agrees is_be json_text d input rest D1 Hj D2 D3) as H.
  assert (Hr : normalize_root d input = Ok [(str "value", input)]) by (by destruct input).
  rewrite Hr in H. unfold d in H at 1. rewrite scalar_entries in H.
  destruct (put_leaf (scalar_type (value nt)) input) as [w|] eqn:Hw; cbn [fmap option_fmap option_map] in H; [|exact H].
  destruct H as (msg & Hm & Hd). destruct (leaf_decodes _ _ _ Hw) as (Hin & next & Hn & Hc).
  destruct (put_stored now r (Val.Structure [(str "value", w)]) ca nt w next Hnt) as (r' & o & nt' & H1 & H2 & H3 & H4 & _).
  - cbn. apply NoDup_singleton.
  - reflexivity.
  - by rewrite Hin.
  - exists msg, r', o, nt'. rewrite H3. by repeat split.
Qed.

Lemma client_put_reaches_record_witness :
  exists msg r' o nt', encode_put_payload true no_text (nt_scalar_desc (F64 (Float.of_Z 1))) (Num (int_number 20)) = Ok msg /\
    decode_put_body true (msg ++ []) (nt_scalar_desc (F64 (Float.of_Z 1))) = Ok (Some (Val.Structure [(str "value", Val.Float64 (Float.of_Z 20))])) /\
    apply_put default_time_stamp sample_ao (Val.Structure [(str "value", Val.Float64 (Float.of_Z 20))]) true = (r', Ok o) /\
    nt_scalar (data r') = Some nt' /\ (True -> to_decoded (value nt') = Val.Float64 (Float.of_Z 20)) /\ time_stamp nt' = Some default_time_stamp.
Proof.
  exact (client_put_reaches_record true no_text [] default_time_stamp sample_ao sample_scalar true (Num (int_number 20)) eq_refl eq_refl eq_refl).
Defined.

End ClientPut.
