(* ===== verification/Fields.v ===== *)
(** * Fields of records as channels

    [spvirit-server/src/record_fields.rs] and [field_provider.rs]: the names
    [<record>.<FIELD>] and [<record>.<FIELD>$], the defaults of dbCommon, the
    text of links, the value of a field of a record of the store, and the
    interface both stores implement.  The class [RecordFieldProvider] is that
    interface and [FieldLaws] its documented law: the descriptor of a field agrees
    with its value.  [IocEngine.v] has the second instance. *)

From stdpp Require Import gmap.
From Stdlib Require Import ZArith.
From S2P Require Import Prelude Utf8 Wire PvdTypes PvdEncode PvdDecode Monitor Packet Message NtTypes NtEncode F64 Text Calc CalcParse CalcEval MonitorHub.
From S2P Require Import Registry PutEncode Convert Records Apply SimpleStore.

Local Open Scope Z_scope.

Module Fields.
Import NtTypes NtEncode Records SimpleStore.

(** ** Text of the standard library *)

Definition to_ascii_uppercase (s : bytes) : bytes := map (fun b => if (97 <=? b) && (b <=? 122) then b - 32 else b) s.
Definition eq_ignore_ascii_case (a b : bytes) : bool := bool_decide (Text.to_ascii_lowercase a = Text.to_ascii_lowercase b).

(** [s.split_once(c)] and [s.rsplit_once(c)] at an ASCII character. *)
Fixpoint split_once (c : Z) (s : bytes) : option (bytes * bytes) :=
  match s with
  | [] => None
  | b :: s => if b =? c then Some ([], s) else (fun p => (b :: p.1, p.2)) <$> split_once c s
  end.

Definition rsplit_once (c : Z) (s : bytes) : option (bytes * bytes) :=
  (fun p => (rev p.2, rev p.1)) <$> split_once c (rev s).

(** The bytes before the next white space, and the rest. *)
Fixpoint token (s : bytes) : bytes * bytes :=
  match s with
  | [] => ([], [])
  | b :: s' =>
    match Text.strip_any Text.whitespace s with
    | Some _ => ([], s)
    | None => let '(t, rest) := token s' in (b :: t, rest)
    end
  end.

(** [s.split_whitespace()]; every word takes a byte. *)
Fixpoint words (fuel : nat) (s : bytes) : list bytes :=
  match fuel with
  | O => []
  | S fuel =>
    match Text.trim_start s with
    | [] => []
    | s => let '(t, rest) := token s in t :: words fuel rest
    end
  end.
Definition split_whitespace (s : bytes) : list bytes := words (length s) s.

(** ** Names of fields *)

Record FieldRef := mkFieldRef { base : bytes; field : bytes; long_string : bool }.

Inductive FieldKind : Type := KStr | KInt | KDouble.
#[export] Instance FieldKind_eq_dec : EqDecision FieldKind.
Proof. solve_decision. Defined.

Definition dot : Z := 46.
Definition dollar : Z := 36.

Definition parse_field_ref (name : bytes) : option FieldRef :=
  match rsplit_once dot name with
  | None => None
  | Some (base, field_part) =>
    match base with
    | [] => None
    | _ =>
      let '(field, long_string) :=
        match Text.strip_suffix [dollar] field_part with Some f => (f, true) | None => (field_part, false) end in
      match field with
      | [] => None
      | _ =>
        if forallb (fun b => ((65 <=? b) && (b <=? 90)) || ((48 <=? b) && (b <=? 57))) field
        then Some (mkFieldRef base field long_string) else None
      end
    end
  end.

(** ** dbCommon *)

Definition DBCOMMON_DEFAULTS : list (bytes * FieldKind * bytes) :=
  map (fun e => (str e.1.1, e.1.2, str e.2))
    [("DESC", KStr, ""); ("SCAN", KStr, "Passive"); ("PINI", KStr, "NO"); ("PHAS", KInt, "0"); ("EVNT", KStr, "");
     ("PRIO", KStr, "LOW"); ("DISV", KInt, "1"); ("DISA", KInt, "0"); ("SDIS", KStr, ""); ("DISS", KStr, "NO_ALARM");
     ("PROC", KInt, "0"); ("STAT", KStr, "UDF"); ("SEVR", KStr, "INVALID"); ("UDF", KInt, "1"); ("TPRO", KInt, "0");
     ("FLNK", KStr, ""); ("ADEL", KDouble, "0"); ("MDEL", KDouble, "0"); ("TSE", KInt, "0"); ("DISP", KInt, "0");
     ("ACKS", KStr, "NO_ALARM"); ("ACKT", KStr, "YES"); ("ASG", KStr, "")]%string.

Definition dbcommon_default (f : bytes) : option (FieldKind * bytes) :=
  (fun e => (e.1.2, e.2)) <$> find (fun e => bool_decide (e.1.1 = f)) DBCOMMON_DEFAULTS.

Definition typed_value (k : FieldKind) (raw : bytes) : ScalarValue :=
  match k with
  | KInt => match Text.parse_i32 (Text.trim raw) with Some v => I32 v | None => Str raw end
  | KDouble => match Text.parse_f64 (Text.trim raw) with Some v => F64 (v mod 2 ^ 64) | None => Str raw end
  | KStr => Str raw
  end.

Definition dbcommon_default_value (f : bytes) : option ScalarValue :=
  (fun kd => typed_value kd.1 kd.2) <$> dbcommon_default f.

(** ** Links *)

Definition LINK_FIELDS : list bytes := map str ["INP"; "OUT"; "DOL"; "SDIS"; "FLNK"]%string.
Definition is_link_field (f : bytes) : bool := existsb (fun l => bool_decide (l = f)) LINK_FIELDS.

Definition render_link_text (target : bytes) (f : option bytes) (process_passive maximize_severity : bool) : bytes :=
  target ++ match f with Some f => dot :: f | None => [] end
  ++ str " " ++ str (if process_passive then "PP" else "NPP") ++ str " " ++ str (if maximize_severity then "MS" else "NMS").

(** The loop over the modifiers. *)
Fixpoint canonical_modifiers (ms : list bytes) (pp mx : bool) : option (bool * bool) :=
  match ms with
  | [] => Some (pp, mx)
  | m :: ms =>
    let named s := bool_decide (to_ascii_uppercase m = str s) in
    if named "PP" then canonical_modifiers ms true mx
    else if named "NPP" then canonical_modifiers ms false mx
    else if named "MS" || named "MSS" || named "MSI" then canonical_modifiers ms pp true
    else if named "NMS" then canonical_modifiers ms pp false
    else None
  end.

Definition canonical_link_text (raw : bytes) (forward : bool) : option bytes :=
  let raw := Text.trim raw in
  match raw with
  | [] => None
  | _ =>
    match Text.parse_f64 raw with
    | Some _ => None
    | None =>
      match split_whitespace raw with
      | [] => None
      | target_spec :: parts =>
        match canonical_modifiers parts false false with
        | None => None
        | Some (pp, mx) =>
          let '(target, f) :=
            match split_once dot target_spec with
            | Some (t, f) => match t, f with _ :: _, _ :: _ => (t, Some f) | _, _ => (target_spec, None) end
            | None => (target_spec, None)
            end in
          let f := match f with
                   | Some f => if negb forward && negb (eq_ignore_ascii_case f (str "VAL")) then Some f else None
                   | None => None
                   end in
          Some (render_link_text target f pp mx)
        end
      end
    end
  end.

(** ** The fields of a record of the store *)

Definition record_type_name (rt : RecordType) : bytes :=
  str match rt with
      | TAi => "ai" | TAo => "ao" | TBi => "bi" | TBo => "bo" | TStringIn => "stringin" | TStringOut => "stringout"
      | TWaveform => "waveform" | TAai => "aai" | TAao => "aao" | TSubArray => "subArray" | TNtTable => "ntTable"
      | TNtNdArray => "ntNDArray" | TMbbi => "mbbi" | TMbbo => "mbbo" | TGeneric => "generic"
      | TLongIn => "longin" | TLongOut => "longout"
      end.

Definition field_value (r : RecordInstance) (f : bytes) : option ScalarValue :=
  let named s := bool_decide (f = str s) in
  if named "RTYP" then Some (Str (record_type_name (record_type r)))
  else if named "NAME" then Some (Str (name r))
  else if named "VAL" then Some (current_value r)
  else if named "DTYP" then
    Some (Str (match raw_fields r !! str "DTYP" with Some d => d | None => str "Soft Channel" end))
  else
    let kind := fst <$> dbcommon_default f in
    match raw_fields r !! f with
    | Some raw =>
      match (if is_link_field f then canonical_link_text raw (named "FLNK") else None) with
      | Some rendered => Some (Str rendered)
      | None => Some (typed_value (match kind with Some k => k | None => KStr end) raw)
      end
    | None =>
      if named "DESC" then Some (Str (desc (common r)))
      else (fun kd => typed_value kd.1 kd.2) <$> dbcommon_default f
    end.

(** [b as i8]. *)
Definition as_i8 (b : Z) : Z := to_signed 8 b.

Definition array_from_value (v : ScalarArrayValue) : NtScalarArray :=
  mkScalarArray v default_alarm default_time_stamp default_display default_control.

Definition payload_for_value (v : ScalarValue) (description : bytes) (long : bool) : option NtPayload :=
  if long then
    match v with Str s => Some (ScalarArray (array_from_value (AI8 (map as_i8 s)))) | _ => None end
  else Some (Scalar (set_display_description description (from_value v))).

Definition payload_for (r : RecordInstance) (fr : FieldRef) : option NtPayload :=
  v ← field_value r (field fr); payload_for_value v (desc (common r)) (long_string fr).

(** ** The interface of the stores *)

Definition field_is_writable (f : bytes) : bool := existsb (fun s => bool_decide (f = str s)) ["SCAN"; "EVNT"; "PHAS"]%string.

Definition field_kind_of (v : ScalarValue) : FieldKind :=
  match v with Str _ => KStr | F32 _ | F64 _ => KDouble | _ => KInt end.

Class RecordFieldProvider (P : Type) : Type := {
  provided_value : P -> bytes -> bytes -> option ScalarValue;
  provided_kind : P -> bytes -> bytes -> option FieldKind;
  provided_writable : P -> bytes -> bool }.

(** The law of a store in a state: the kind of a field is that of its value. *)
Class FieldLaws {P} `{RecordFieldProvider P} (p : P) : Prop :=
  provided_agree : forall b f, provided_kind p b f = field_kind_of <$> provided_value p b f.

Definition descriptor_for_kind (k : FieldKind) (long : bool) : option Ty.StructureDesc :=
  if long then
    if decide (k = KStr) then Some (nt_payload_desc (ScalarArray (array_from_value (AI8 [])))) else None
  else
    let probe := match k with KStr => Str [] | KInt => I32 0 | KDouble => F64 0 end in
    Some (nt_payload_desc (Scalar (from_value probe))).

Record PvInfo := mkInfo { descriptor : Ty.StructureDesc; writable_field : bool }.

Section Provider.
Context {P : Type} `{RecordFieldProvider P}.

Definition resolve_field_payload (p : P) (channel : bytes) : option NtPayload :=
  fr ← parse_field_ref channel;
  v ← provided_value p (base fr) (field fr);
  let description := match provided_value p (base fr) (str "DESC") with Some (Str s) => s | _ => [] end in
  payload_for_value v description (long_string fr).

Definition resolve_field_info (p : P) (channel : bytes) : option PvInfo :=
  fr ← parse_field_ref channel;
  k ← provided_kind p (base fr) (field fr);
  d ← descriptor_for_kind k (long_string fr);
  Some (mkInfo d (provided_writable p (field fr))).

End Provider.

(** The store reads the value to find its kind. *)
Definition store_field (st : SimplePvStore) (b f : bytes) : option ScalarValue :=
  e ← pvs st !! b; field_value (record e) f.

#[export] Instance store_provider : RecordFieldProvider SimplePvStore := {|
  provided_value := store_field;
  provided_kind := fun st b f => field_kind_of <$> store_field st b f;
  provided_writable := fun _ _ => false |}.

#[export] Instance store_laws (st : SimplePvStore) : FieldLaws st.
Proof. done. Qed.

(** ** The source of the field channels *)

Section Source.
Context {P : Type} `{RecordFieldProvider P}.

(** [open_subs] holds the senders of the subscriptions, by number. *)
Record RecordFieldSource := mkSource { provider : P; open_subs : list nat }.

Definition try_claim (name : bytes) : Registry.TryClaim :=
  match parse_field_ref name with None => Registry.No | Some _ => Registry.Unknown end.

Definition claim (s : RecordFieldSource) (name : bytes) : option PvInfo := resolve_field_info (provider s) name.
Definition get (s : RecordFieldSource) (name : bytes) : option NtPayload := resolve_field_payload (provider s) name.

Definition put (s : RecordFieldSource) (name : bytes) (v : Val.DecodedValue) : outcome bytes (list (bytes * NtPayload)) :=
  Err (str "field PV '" ++ name ++ str "' is read-only").

(** [tx] is the new channel, [closed] the senders whose receiver was dropped; the
    result is what the receiver finds in the channel. *)
Definition subscribe (s : RecordFieldSource) (name : bytes) (tx : nat) (closed : nat -> bool) : RecordFieldSource * option (list NtPayload) :=
  match resolve_field_payload (provider s) name with
  | None => (s, None)
  | Some first => (mkSource (provider s) (List.filter (fun t => negb (closed t)) (open_subs s) ++ [tx]), Some [first])
  end.

(** A name declined from memory alone is one the source would not claim, read or
    open either. *)
Lemma declined_not_served s name tx closed : try_claim name = Registry.No ->
  claim s name = None /\ get s name = None /\ subscribe s name tx closed = (s, None).
Proof.
  unfold try_claim, claim, get, subscribe, resolve_field_info, resolve_field_payload. by destruct (parse_field_ref name).
Qed.

(** After a subscription only live senders and the new one are kept. *)
Lemma open_subs_live s name tx closed s' ps : subscribe s name tx closed = (s', Some ps) ->
  get s name = ps !! 0%nat /\ length ps = 1%nat /\ forall t, t ∈ open_subs s' -> t = tx \/ (t ∈ open_subs s /\ closed t = false).
Proof.
  unfold subscribe, get. destruct (resolve_field_payload (provider s) name) as [p|]; [|done]. intros [= <- <-]. do 2 (split; [done|]).
  cbn. intros t. rewrite elem_of_app, list_elem_of_singleton, list_elem_of_In, List.filter_In, negb_true_iff, list_elem_of_In. tauto.
Qed.

End Source.

End Fields.
