(* ===== verification/IocBuild.v ===== *)
(** * Loading and reading records of the IOC

    [spvirit-ioc/src/build.rs]: the typed record built from the fields of a
    database file, with its links and the constants that initialise it.
    [spvirit-ioc/src/fields.rs]: the value and the type of a field of a record.
    The parser of database files is not part of this model: a [DbRecord] is its
    result.  The text of a float is the class [FloatText]. *)

From stdpp Require Import gmap pretty.
From Stdlib Require Import ZArith.
From S2P Require Import Prelude Utf8 Wire PvdTypes PvdEncode PvdDecode Monitor Packet Message NtTypes NtEncode F64 Text Ioc IocSafe UnionFind LockSet Calc CalcParse CalcEval MonitorHub.
From S2P Require Import PutEncode Convert Records Apply SimpleStore Fields.

Local Open Scope Z_scope.
Local Open Scope codec_scope.

Module IocBuild.
Import Ioc IocSafe Fields.

(** ** Fields *)

Definition kind_from_db_name (n : bytes) : option Kind :=
  let named s := bool_decide (n = str s) in
  if named "ai" then Some Ai else if named "ao" then Some Ao else if named "bi" then Some Bi
  else if named "bo" then Some Bo else if named "longin" then Some LongIn else if named "longout" then Some LongOut
  else None.

Definition db_name (k : Kind) : bytes :=
  str match k with Ai => "ai" | Ao => "ao" | Bi => "bi" | Bo => "bo" | LongIn => "longin" | LongOut => "longout" end.

Definition field_parse (n : bytes) : option Field :=
  let named s := bool_decide (to_ascii_uppercase n = str s) in
  if named "VAL" then Some FVal else if named "SEVR" then Some FSevr else if named "STAT" then Some FStat
  else if named "DISA" then Some FDisa else if named "DISV" then Some FDisv else if named "HIHI" then Some FHihi
  else if named "HIGH" then Some FHigh else if named "LOW" then Some FLow else if named "LOLO" then Some FLolo
  else if named "PROC" then Some FProc else None.

Definition epics_name (f : Field) : bytes :=
  str match f with
      | FVal => "VAL" | FSevr => "SEVR" | FStat => "STAT" | FDisa => "DISA" | FDisv => "DISV"
      | FHihi => "HIHI" | FHigh => "HIGH" | FLow => "LOW" | FLolo => "LOLO" | FProc => "PROC"
      end.

Definition severity_string (s : Severity) : bytes :=
  str match s with SevNone => "NO_ALARM" | Minor => "MINOR" | Major => "MAJOR" | Invalid => "INVALID" end.

(** ** Building *)

(** The record and the field an error names, and why. *)
Inductive Reason : Type :=
| NotANumber (raw : bytes) | NotAnInteger (raw : bytes) | NotASeverity (raw : bytes)
| UnsupportedModifier (m : bytes) | UnsupportedLinkField (f : bytes) | UnsupportedType (t : bytes) | NotAnOmsl (raw : bytes).
Record BuildError := mkErr { err_record : bytes; err_field : bytes; reason : Reason }.

Record DbRecord := mkDb { db_type : bytes; db_record : bytes; fields : gmap bytes bytes }.

Section Build.
Context (fs : gmap bytes bytes) (record : bytes).

Definition num (n : bytes) (default : Z) : outcome BuildError Z :=
  match fs !! n with
  | None => Ok default
  | Some raw =>
    match Text.parse_f64 (Text.trim raw) with Some v => Ok (v mod 2 ^ 64) | None => Err (mkErr record n (NotANumber raw)) end
  end.

Definition int (n : bytes) (default : Z) : outcome BuildError Z :=
  match fs !! n with
  | None => Ok default
  | Some raw =>
    match Text.parse_i32 (Text.trim raw) with Some v => Ok v | None => Err (mkErr record n (NotAnInteger raw)) end
  end.

Definition sev (n : bytes) (default : Severity) : outcome BuildError Severity :=
  match fs !! n with
  | None => Ok default
  | Some raw =>
    let u := to_ascii_uppercase (Text.trim raw) in
    let named s := bool_decide (u = str s) in
    if named "NO_ALARM" || named "NOALARM" || named "" then Ok SevNone
    else if named "MINOR" then Ok Minor
    else if named "MAJOR" then Ok Major
    else if named "INVALID" then Ok Invalid
    else Err (mkErr record n (NotASeverity u))
  end.

Fixpoint link_modifiers (n : bytes) (ms : list bytes) (pp mx : bool) : outcome BuildError (bool * bool) :=
  match ms with
  | [] => Ok (pp, mx)
  | m :: ms =>
    let u := to_ascii_uppercase m in
    let named s := bool_decide (u = str s) in
    if named "PP" then link_modifiers n ms true mx
    else if named "NPP" then link_modifiers n ms false mx
    else if named "MS" then link_modifiers n ms pp true
    else if named "NMS" then link_modifiers n ms pp false
    else if named "MSS" || named "MSI" then link_modifiers n ms pp true
    else Err (mkErr record n (UnsupportedModifier u))
  end.

(** [expect] on the first word panics when there is none. *)
Definition link (n : bytes) (k : Kind) : outcome BuildError Link :=
  match fs !! n with
  | None => Ok (Constant (default_for k))
  | Some raw =>
    let raw := Text.trim raw in
    match raw with
    | [] => Ok (Constant (default_for k))
    | _ =>
      match Text.parse_f64 raw with
      | Some v => Ok (Constant (coerce_to (Double (v mod 2 ^ 64)) k))
      | None =>
        match split_whitespace raw with
        | [] => Panic
        | target_spec :: parts =>
          let? mods := link_modifiers n parts false false in
          match split_once dot target_spec with
          | Some (t, f) =>
            match field_parse f with
            | Some parsed => Ok (Db (Name t) parsed mods.1 mods.2)
            | None => Err (mkErr record n (UnsupportedLinkField f))
            end
          | None => Ok (Db (Name target_spec) FVal mods.1 mods.2)
          end
        end
      end
    end
  end.

Definition init_constant (n : bytes) (k : Kind) : option Value :=
  match fs !! n with
  | None => None
  | Some raw =>
    let raw := Text.trim raw in
    match raw with
    | [] => None
    | _ => (fun v => coerce_to (Double (v mod 2 ^ 64)) k) <$> Text.parse_f64 raw
    end
  end.

End Build.

Definition text_or (fs : gmap bytes bytes) (n : bytes) (default : bytes) : bytes :=
  match fs !! n with Some s => s | None => default end.

Definition build_common (fs : gmap bytes bytes) (n : bytes) (k : Kind) (undefined : bool) : outcome BuildError Common :=
  let pini := match fs !! str "PINI" with
              | Some s => let u := to_ascii_uppercase (Text.trim s) in bool_decide (u = str "YES") || bool_decide (u = str "1")
              | None => false
              end in
  let? phas := int fs n (str "PHAS") 0 in
  let? disa := int fs n (str "DISA") 0 in
  let? disv := int fs n (str "DISV") 1 in
  let? diss := sev fs n (str "DISS") SevNone in
  let? sdis := link fs n (str "SDIS") k in
  let? flnk := link fs n (str "FLNK") k in
  let? tse := int fs n (str "TSE") 0 in
  let? tpro := int fs n (str "TPRO") 0 in
  Ok (mkCommon (text_or fs (str "DESC") []) (text_or fs (str "SCAN") (str "Passive")) (text_or fs (str "EVNT") [])
        pini phas false disa disv diss sdis flnk tse (negb (tpro =? 0)) undefined SevNone CondNone SevNone CondNone).

Definition build_limits (fs : gmap bytes bytes) (n : bytes) : outcome BuildError Limits :=
  let configured := existsb (fun k => bool_decide (is_Some (fs !! str k))) ["HIHI"; "HIGH"; "LOW"; "LOLO"]%string in
  let? hihi := num fs n (str "HIHI") 0 in
  let? high := num fs n (str "HIGH") 0 in
  let? low := num fs n (str "LOW") 0 in
  let? lolo := num fs n (str "LOLO") 0 in
  let? hhsv := sev fs n (str "HHSV") SevNone in
  let? hsv := sev fs n (str "HSV") SevNone in
  let? lsv := sev fs n (str "LSV") SevNone in
  let? llsv := sev fs n (str "LLSV") SevNone in
  let? hyst := num fs n (str "HYST") 0 in
  let? mdel := num fs n (str "MDEL") 0 in
  let? adel := num fs n (str "ADEL") 0 in
  Ok (mkLimits hihi high low lolo hhsv hsv lsv llsv hyst mdel adel configured).

Definition build_one (raw : DbRecord) : outcome BuildError Rec :=
  let n := db_record raw in
  let fs := fields raw in
  match kind_from_db_name (db_type raw) with
  | None => Err (mkErr n [] (UnsupportedType (db_type raw)))
  | Some k =>
    let? v :=
      match fs !! str "VAL" with
      | None => Ok (default_for k)
      | Some s =>
        match Text.parse_f64 (Text.trim s) with
        | Some v => Ok (coerce_to (Double (v mod 2 ^ 64)) k)
        | None => Err (mkErr n (str "VAL") (NotANumber s))
        end
      end in
    let init_field := if is_output k then str "DOL" else str "INP" in
    let '(v, undefined) := match init_constant fs init_field k with Some seeded => (seeded, false) | None => (v, true) end in
    let? common := build_common fs n k undefined in
    let? limits := build_limits fs n in
    let? omsl :=
      match fs !! str "OMSL" with
      | None => Ok Supervisory
      | Some s =>
        let l := Text.to_ascii_lowercase (Text.trim s) in
        if bool_decide (l = str "supervisory") then Ok Supervisory
        else if bool_decide (l = str "closed_loop") then Ok ClosedLoop
        else Err (mkErr n (str "OMSL") (NotAnOmsl l))
      end in
    let? inp := link fs n (str "INP") k in
    let? out := link fs n (str "OUT") k in
    let? dol := link fs n (str "DOL") k in
    Ok (mkRec n k common limits (text_or fs (str "EGU") []) v (default_for k) (default_for k) SevNone CondNone inp out dol omsl 0)
  end.

Fixpoint build_records (raw : list DbRecord) : outcome BuildError (list Rec) :=
  match raw with
  | [] => Ok []
  | r :: raw => let? r := build_one r in let? rest := build_records raw in Ok (r :: rest)
  end.

(** ** Reading *)

Section Reading.
Context `{FloatText}.
Context (names : RecordId -> option bytes).

Definition render_link (l : Link) (forward : bool) : bytes :=
  match l with
  | Constant (Double v) => f64_text v
  | Constant (Long v) | Constant (Enum v) => str (pretty v)
  | Unresolved n => n
  | Db target f pp mx =>
    let n := match target with Name n => n | Id id => match names id with Some n => n | None => str "<unresolved>" end end in
    let f := epics_name f in
    render_link_text n (if negb forward && negb (bool_decide (f = str "VAL")) then Some f else None) pp mx
  end.

(** The arms of [record_field_value] in order. *)
Definition field_table (r : Rec) : list (bytes * NtTypes.ScalarValue) :=
  let s (x : bytes) := NtTypes.Str x in
  let i := NtTypes.I32 in
  let d := NtTypes.F64 in
  let b (x : bool) := NtTypes.I32 (if x then 1 else 0) in
  let c := common r in
  let l := limits r in
  [(str "NAME", s (name r)); (str "RTYP", s (db_name (kind r))); (str "DTYP", s (str "Soft Channel"));
   (str "VAL", match val r with Double v => NtTypes.F64 v | Long v => NtTypes.I32 v | Enum v => NtTypes.U16 v end);
   (str "DESC", s (desc c)); (str "EGU", s (egu r)); (str "SCAN", s (scan_raw c)); (str "EVNT", s (evnt c));
   (str "PINI", s (if pini c then str "YES" else str "NO")); (str "PHAS", i (phas c)); (str "PACT", b (pact c));
   (str "DISA", i (disa c)); (str "DISV", i (disv c)); (str "DISS", s (severity_string (diss c)));
   (str "SDIS", s (render_link (sdis c) false)); (str "FLNK", s (render_link (flnk c) true));
   (str "INP", s (render_link (inp r) false)); (str "OUT", s (render_link (out r) false));
   (str "DOL", s (render_link (dol r) false));
   (str "OMSL", s (match omsl r with Supervisory => str "supervisory" | ClosedLoop => str "closed_loop" end));
   (str "TSE", i (tse c)); (str "TPRO", b (tpro c)); (str "UDF", b (udf c)); (str "SEVR", s (severity_string (sevr c)));
   (str "STAT", s (epics_string (stat c))); (str "PROC", i 0);
   (str "HIHI", d (hihi l)); (str "HIGH", d (high l)); (str "LOW", d (low l)); (str "LOLO", d (lolo l));
   (str "HHSV", s (severity_string (hhsv l))); (str "HSV", s (severity_string (hsv l)));
   (str "LSV", s (severity_string (lsv l))); (str "LLSV", s (severity_string (llsv l)));
   (str "HYST", d (hyst l)); (str "MDEL", d (mdel l)); (str "ADEL", d (adel l))].

Definition assoc {A} (f : bytes) (t : list (bytes * A)) : option A := snd <$> find (fun e => bool_decide (e.1 = f)) t.

Definition record_field_value (r : Rec) (f : bytes) : option NtTypes.ScalarValue :=
  match assoc f (field_table r) with Some v => Some v | None => dbcommon_default_value f end.

(** The arms of [record_field_kind]. *)
Definition kind_table (k : Kind) : list (bytes * FieldKind) :=
  (str "VAL", match k with Ai | Ao => KDouble | LongIn | LongOut | Bi | Bo => KInt end)
  :: map (fun n => (str n, KStr))
       ["NAME"; "RTYP"; "DTYP"; "DESC"; "EGU"; "SCAN"; "EVNT"; "PINI"; "DISS"; "SDIS"; "FLNK"; "INP"; "OUT"; "DOL";
        "OMSL"; "SEVR"; "STAT"; "HHSV"; "HSV"; "LSV"; "LLSV"]%string
  ++ map (fun n => (str n, KInt)) ["PHAS"; "PACT"; "DISA"; "DISV"; "TSE"; "TPRO"; "UDF"; "PROC"]%string
  ++ map (fun n => (str n, KDouble)) ["HIHI"; "HIGH"; "LOW"; "LOLO"; "HYST"; "MDEL"; "ADEL"]%string.

Definition record_field_kind (k : Kind) (f : bytes) : option FieldKind :=
  match assoc f (kind_table k) with Some k => Some k | None => fst <$> dbcommon_default f end.

End Reading.

(** ** Tables *)

Lemma assoc_none {A} f (t : list (bytes * A)) : assoc f t = None <-> ~ In f (map fst t).
Proof.
  unfold assoc. induction t as [|[k v] t IH]; [by split; [intros _ []|]|]. cbn [find map fst In]. destruct (bool_decide (k = f)) eqn:E.
  - apply bool_decide_eq_true in E. cbn. split; [done|]. intros Hn. exfalso. auto.
  - apply bool_decide_eq_false in E. rewrite IH. tauto.
Qed.

(** Two tables agree everywhere when they do on the keys of both. *)
Lemma assoc_ext {A} `{EqDecision A} (t u : list (bytes * A)) :
  forallb (fun k => bool_decide (assoc k t = assoc k u)) (map fst t ++ map fst u) = true -> forall f, assoc f t = assoc f u.
Proof.
  intros H0 f. rewrite forallb_forall in H0. destruct (in_dec (fun a b => decide (a = b)) f (map fst t ++ map fst u)) as [Hin|Hin].
  - apply H0, bool_decide_eq_true in Hin. done.
  - assert (assoc f t = None /\ assoc f u = None) as [-> ->]; [|done].
    split; apply assoc_none; intros ?; apply Hin, in_or_app; auto.
Qed.

Lemma assoc_map {A B} (g : A -> B) f (t : list (bytes * A)) : assoc f (map (fun e => (e.1, g e.2)) t) = g <$> assoc f t.
Proof.
  unfold assoc. induction t as [|[k v] t IH]; [done|]. cbn [map find fst snd]. by destruct (bool_decide (k = f)).
Qed.

(** The default of a common field has the type the table gives it. *)
Lemma default_kind f : fst <$> dbcommon_default f = field_kind_of <$> dbcommon_default_value f.
Proof.
  unfold dbcommon_default_value, dbcommon_default. destruct (find _ _) as [e|] eqn:E; [|done]. cbn. f_equal.
  apply find_some in E as [Hin _]. revert e Hin.
  assert (Hall : forallb (fun e : bytes * FieldKind * bytes => bool_decide (e.1.2 = field_kind_of (typed_value e.1.2 e.2))) DBCOMMON_DEFAULTS = true)
    by (vm_compute; reflexivity).
  intros e Hin. rewrite forallb_forall in Hall. by apply Hall, bool_decide_eq_true in Hin.
Qed.

(** The type a claim finds in the table of kinds is that of the value a get
    reads, for every field name. *)
Lemma record_field_kind_agrees `{FloatText} names r f : typed (kind r) (val r) ->
  record_field_kind (kind r) f = field_kind_of <$> record_field_value names r f.
Proof.
  intros Ht. unfold record_field_kind, record_field_value.
  assert (E : assoc f (kind_table (kind r)) = field_kind_of <$> assoc f (field_table names r)).
  { rewrite <- assoc_map. revert f. apply assoc_ext.
    assert (Hv : map (fun e => (e.1, field_kind_of e.2)) (field_table names r) =
      map (fun e => (str e.1, e.2))
        [("NAME", KStr); ("RTYP", KStr); ("DTYP", KStr);
         ("VAL", match kind r with Ai | Ao => KDouble | _ => KInt end);
         ("DESC", KStr); ("EGU", KStr); ("SCAN", KStr); ("EVNT", KStr); ("PINI", KStr); ("PHAS", KInt); ("PACT", KInt);
         ("DISA", KInt); ("DISV", KInt); ("DISS", KStr); ("SDIS", KStr); ("FLNK", KStr); ("INP", KStr); ("OUT", KStr);
         ("DOL", KStr); ("OMSL", KStr); ("TSE", KInt); ("TPRO", KInt); ("UDF", KInt); ("SEVR", KStr); ("STAT", KStr);
         ("PROC", KInt); ("HIHI", KDouble); ("HIGH", KDouble); ("LOW", KDouble); ("LOLO", KDouble);
         ("HHSV", KStr); ("HSV", KStr); ("LSV", KStr); ("LLSV", KStr); ("HYST", KDouble); ("MDEL", KDouble); ("ADEL", KDouble)]%string).
    { unfold field_table. cbn [map fst snd field_kind_of]. destruct (kind r), (val r); done. }
    rewrite Hv. destruct (kind r); vm_compute; reflexivity. }
  rewrite E. destruct (assoc f (field_table names r)); [done|]. apply default_kind.
Qed.

(** ** White space *)

Lemma strip_prefix_app w s u r : Text.strip_prefix w s = Some r -> Text.strip_prefix w (s ++ u) = Some (r ++ u).
Proof.
  revert s. induction w as [|x w IH]; intros [|y s]; try done; cbn [Text.strip_prefix app]; [by intros [= <-]|by intros [= <-]|].
  destruct (x =? y); [apply IH|done].
Qed.

Lemma strip_prefix_length w s r : Text.strip_prefix w s = Some r -> length s = (length w + length r)%nat.
Proof.
  revert s. induction w as [|x w IH]; intros [|y s]; try done; cbn [Text.strip_prefix length]; [by intros [= <-]|by intros [= <-]|].
  destruct (x =? y); [|done]. intros Hs. rewrite (IH _ Hs). lia.
Qed.

Lemma strip_any_app ps s u : Text.strip_any ps (s ++ u) = None -> Text.strip_any ps s = None.
Proof.
  induction ps as [|p ps IH]; [done|]. cbn [Text.strip_any]. destruct (Text.strip_prefix p s) as [r|] eqn:E.
  - by rewrite (strip_prefix_app p s u r E).
  - by destruct (Text.strip_prefix p (s ++ u)).
Qed.

Lemma strip_any_shorter ps s r : Forall (fun p => p <> []) ps -> Text.strip_any ps s = Some r -> (length r < length s)%nat.
Proof.
  induction 1 as [|p ps Hp _ IH]; [done|]. cbn [Text.strip_any]. destruct (Text.strip_prefix p s) as [x|] eqn:E; [|done].
  intros [= <-]. rewrite (strip_prefix_length _ _ _ E). destruct p; [done|]. cbn. lia.
Qed.

Lemma strip_all_done ps fuel : Forall (fun p => p <> []) ps -> forall s, (length s <= fuel)%nat -> Text.strip_any ps (Text.strip_all fuel ps s) = None.
Proof.
  intros Hp. induction fuel as [|fuel IH]; intros s Hs.
  - destruct s; [|cbn in Hs; lia]. cbn [Text.strip_all]. destruct (Text.strip_any ps []) as [r|] eqn:E; [|done].
    apply strip_any_shorter in E; [|done]. cbn in E. lia.
  - cbn [Text.strip_all]. destruct (Text.strip_any ps s) as [r|] eqn:E; [|done]. apply IH.
    apply strip_any_shorter in E; [lia|done].
Qed.

Lemma strip_any_suffix ps s r : Text.strip_any ps s = Some r -> exists u, s = u ++ r.
Proof.
  induction ps as [|p ps IH]; [done|]. cbn [Text.strip_any]. destruct (Text.strip_prefix p s) as [x|] eqn:E; [|done].
  intros [= <-]. clear IH. exists p. revert s E. induction p as [|a p IHp]; intros [|b s]; try done; cbn [Text.strip_prefix]; [by intros [= <-]|by intros [= <-]|].
  destruct (Z.eqb_spec a b) as [->|]; [|done]. intros Hs. cbn [app]. f_equal. by apply IHp.
Qed.

Lemma strip_all_suffix ps fuel : forall s, exists u, s = u ++ Text.strip_all fuel ps s.
Proof.
  induction fuel as [|fuel IH]; intros s; [by exists []|]. cbn [Text.strip_all]. destruct (Text.strip_any ps s) as [r|] eqn:E; [|by exists []].
  apply strip_any_suffix in E as [u ->]. destruct (IH r) as [u' Hu]. exists (u ++ u'). by rewrite <- app_assoc, <- Hu.
Qed.

Lemma trimmed_starts s : Text.strip_any Text.whitespace (Text.trim s) = None.
Proof.
  unfold Text.trim, Text.trim_end. set (t := Text.trim_start s).
  destruct (strip_all_suffix (map (@rev Z) Text.whitespace) (length t) (rev t)) as [u Hu].
  assert (Ht : t = rev (Text.strip_all (length t) (map (@rev Z) Text.whitespace) (rev t)) ++ rev u) by (by rewrite <- rev_app_distr, <- Hu, rev_involutive).
  apply strip_any_app with (rev u). rewrite <- Ht. apply strip_all_done; [|lia].
  apply (bool_decide_unpack _). vm_compute. exact I.
Qed.

(** What is left of a text after trimming has a first word. *)
Lemma trimmed_words s : Text.trim s <> [] -> split_whitespace (Text.trim s) <> [].
Proof.
  intros Hs. pose proof (trimmed_starts s) as Hn. unfold split_whitespace. destruct (Text.trim s) as [|b t]; [done|].
  cbn [length words]. unfold Text.trim_start. cbn [length Text.strip_all]. rewrite Hn. by destruct (token (b :: t)).
Qed.

(** ** Loading *)

Section Loads.
Context {A : Type}.

(** Neither a panic nor a loop, and [P] of a result. *)
Definition loads (P : A -> Prop) (record : bytes) (o : outcome BuildError A) : Prop :=
  match o with Ok a => P a | Err e => err_record e = record | _ => False end.

End Loads.

Lemma loads_bind {A B} (P : A -> Prop) (Q : B -> Prop) n (o : outcome BuildError A) (k : A -> outcome BuildError B) :
  loads P n o -> (forall a, P a -> loads Q n (k a)) -> loads Q n (let? a := o in k a).
Proof. destruct o; cbn; auto. Qed.

Lemma parse_i32_range s v : Text.parse_i32 s = Some v -> in_i32 v.
Proof.
  unfold Text.parse_i32. destruct (Text.sign s) as [neg s']. destruct (Text.digits 0 s') as [[v' n] rest]. cbv zeta.
  destruct (_ && _) eqn:E; [|done]. intros [= <-]. apply andb_prop in E as [[_ E1%Z.leb_le]%andb_prop E2%Z.leb_le]. done.
Qed.

Lemma num_loads fs n f d : loads (fun _ => True) n (num fs n f d).
Proof. unfold num. destruct (fs !! f) as [raw|]; [|done]. by destruct (Text.parse_f64 _). Qed.

Lemma int_loads fs n f d : in_i32 d -> loads in_i32 n (int fs n f d).
Proof. intros Hd. unfold int. destruct (fs !! f) as [raw|]; [|done]. destruct (Text.parse_i32 _) eqn:E; [|done]. by eapply parse_i32_range. Qed.

Lemma sev_loads fs n f d : loads (fun _ => True) n (sev fs n f d).
Proof. unfold sev. destruct (fs !! f) as [raw|]; [|done]. cbv zeta. by repeat destruct (bool_decide _). Qed.

Lemma modifiers_load n f ms : forall pp mx, loads (fun _ => True) n (link_modifiers n f ms pp mx).
Proof. induction ms as [|m ms IH]; intros pp mx; [done|]. cbn [link_modifiers]. repeat (destruct (bool_decide _); [apply IH|]). done. Qed.

Lemma constant_ok v k : value_ok (coerce_to (Double v) k).
Proof. apply typed_value_ok with k. by apply coerce_typed. Qed.

Lemma link_loads fs n f k : loads LockSet.plain n (link fs n f k).
Proof.
  unfold link. destruct (fs !! f) as [raw|]; [|apply typed_value_ok with k, default_typed].
  destruct (Text.trim raw) as [|b t] eqn:Et; [apply typed_value_ok with k, default_typed|].
  destruct (Text.parse_f64 _); [apply constant_ok|].
  destruct (split_whitespace (b :: t)) as [|spec parts] eqn:Ew.
  - exfalso. apply (trimmed_words raw); by rewrite Et.
  - eapply loads_bind; [apply modifiers_load|]. intros mods _. destruct (split_once dot spec) as [[t' f']|]; [|done].
    by destruct (field_parse f').
Qed.

Lemma common_loads fs n k b : loads (fun c => in_i32 (disa c) /\ in_i32 (disv c) /\ LockSet.plain (sdis c) /\ LockSet.plain (flnk c)) n (build_common fs n k b).
Proof.
  assert (Hi : in_i32 0 /\ in_i32 1) by (unfold in_i32; by vm_compute). destruct Hi as [H0 H1]. unfold build_common.
  eapply loads_bind; [apply (int_loads _ _ _ 0 H0)|]. intros phas _.
  eapply loads_bind; [apply (int_loads _ _ _ 0 H0)|]. intros disa Ha.
  eapply loads_bind; [apply (int_loads _ _ _ 1 H1)|]. intros disv Hv.
  eapply loads_bind; [apply sev_loads|]. intros diss _.
  eapply loads_bind; [apply link_loads|]. intros sdis Hs.
  eapply loads_bind; [apply link_loads|]. intros flnk Hf.
  eapply loads_bind; [apply (int_loads _ _ _ 0 H0)|]. intros tse _.
  eapply loads_bind; [apply (int_loads _ _ _ 0 H0)|]. intros tpro _. done.
Qed.

Lemma limits_load fs n : loads (fun _ => True) n (build_limits fs n).
Proof.
  unfold build_limits.
  repeat (eapply loads_bind; [apply num_loads || apply sev_loads|]; intros ? _). done.
Qed.

Lemma build_one_loads raw : loads (fun r => LockSet.source_ok r /\ name r = db_record raw) (db_record raw) (build_one raw).
Proof.
  unfold build_one. destruct (kind_from_db_name _) as [k|]; [|done].
  eapply (loads_bind (typed k)).
  { destruct (_ !! str "VAL"); [|apply default_typed]. destruct (Text.parse_f64 _); [|done]. by apply coerce_typed. }
  intros v Hv. assert (Hs : forall w, init_constant (fields raw) (if is_output k then str "DOL" else str "INP") k = Some w -> typed k w).
  { intros w. unfold init_constant. destruct (fields raw !! _) as [t|]; [|done]. destruct (Text.trim t) as [|c s]; [done|].
    destruct (Text.parse_f64 (c :: s)); [|done]. intros [= <-]. by apply coerce_typed. }
  assert (exists v' u, (match init_constant (fields raw) (if is_output k then str "DOL" else str "INP") k with
                        | Some seeded => (seeded, false) | None => (v, true) end) = (v', u) /\ typed k v') as (v' & u & -> & Hv').
  { destruct (init_constant _ _ _); eexists _, _; split; try reflexivity; auto. }
  eapply loads_bind; [apply common_loads|]. intros c (Ha & Hd & Hs1 & Hf).
  eapply loads_bind; [apply limits_load|]. intros l _.
  eapply (loads_bind (fun _ => True)).
  { destruct (_ !! str "OMSL"); [|done]. cbv zeta. by repeat destruct (bool_decide _). }
  intros o _. eapply loads_bind; [apply link_loads|]. intros inp Hi. eapply loads_bind; [apply link_loads|]. intros out Ho.
  eapply loads_bind; [apply link_loads|]. intros dol Hdl. cbn [loads]. split; [|done]. split; [done|].
  unfold links_of. cbn [Ioc.inp Ioc.out Ioc.dol common flnk sdis]. repeat constructor; done.
Qed.

(** A database loads or is refused, and nothing else: no text of any field
    makes the loader panic.  When it loads, the records are those of the file in
    its order, each in the representation of its kind with links by name, which is
    what the engine needs to start from; when it is refused, the error names the
    first record that cannot be built. *)
Lemma built_records raw :
  match build_records raw with
  | Ok rs => Forall LockSet.source_ok rs /\ map name rs = map db_record raw
  | Err e => exists before r after, raw = before ++ r :: after /\ build_one r = Err e /\ err_record e = db_record r /\
      Forall (fun b => exists x, build_one b = Ok x) before
  | _ => False
  end.
Proof.
  induction raw as [|r raw IH]; [done|]. cbn [build_records]. pose proof (build_one_loads r) as Hl.
  destruct (build_one r) as [x|e| |] eqn:E; cbn [bind_outcome loads] in *; try done.
  - destruct Hl as [Hx Hn]. destruct (build_records raw) as [rs|e| |]; cbn [bind_outcome]; try done.
    + destruct IH as [IH1 IH2]. split; [by constructor|]. cbn. by rewrite Hn, IH2.
    + destruct IH as (b & y & a & -> & H1 & H2 & H3). exists (r :: b), y, a. split; [done|]. split; [done|]. split; [done|].
      constructor; [by exists x|done].
  - exists [], r, raw. done.
Qed.

(** ** The text of a link on both tiers *)

Lemma modifiers_agree n f ms : forall pp mx,
  match link_modifiers n f ms pp mx with
  | Ok m => canonical_modifiers ms pp mx = Some m
  | Err _ => canonical_modifiers ms pp mx = None
  | _ => False
  end.
Proof.
  induction ms as [|m ms IH]; intros pp mx; [done|]. cbn [link_modifiers canonical_modifiers].
  destruct (decide (to_ascii_uppercase m = str "PP")) as [E|E]; [rewrite E; apply IH|rewrite (bool_decide_eq_false_2 _ E)].
  destruct (decide (to_ascii_uppercase m = str "NPP")) as [E1|E1]; [rewrite E1; apply IH|rewrite (bool_decide_eq_false_2 _ E1)].
  destruct (decide (to_ascii_uppercase m = str "MS")) as [E2|E2]; [rewrite E2; apply IH|rewrite (bool_decide_eq_false_2 _ E2)].
  destruct (decide (to_ascii_uppercase m = str "NMS")) as [E3|E3]; [rewrite E3; apply IH|rewrite (bool_decide_eq_false_2 _ E3)].
  cbn [orb]. destruct (bool_decide _ || bool_decide _); [apply IH|done].
Qed.

(** The field of the target as the file spells it. *)
Definition spelled_field (raw : bytes) : option bytes :=
  match split_whitespace (Text.trim raw) with spec :: _ => snd <$> split_once dot spec | [] => None end.

Lemma field_parse_name f p : field_parse f = Some p -> to_ascii_uppercase f = epics_name p.
Proof. unfold field_parse. repeat (case_bool_decide; [by intros [= <-]|]). done. Qed.

Lemma split_once_dot c s t f : split_once c s = Some (t, f) -> s = t ++ c :: f.
Proof.
  revert t. induction s as [|b s IH]; intros t; [done|]. cbn [split_once]. destruct (Z.eqb_spec b c) as [->|].
  - by intros [= <- <-].
  - destruct (split_once c s) as [[t' f']|]; [|done]. cbn. intros [= <- <-]. cbn. f_equal. by apply IH.
Qed.

Lemma render_parsed `{FloatText} names target f fwd pp mx n p :
  (target = Name n \/ exists id, target = Id id /\ names id = Some n) ->
  field_parse f = Some p -> (fwd = true \/ to_ascii_uppercase f = f) ->
  render_link names (Db target p pp mx) fwd =
  render_link_text n (if negb fwd && negb (eq_ignore_ascii_case f (str "VAL")) then Some f else None) pp mx.
Proof.
  intros Ht Hp Hu. unfold render_link.
  replace (match target with Name n => n | Id id => match names id with Some n => n | None => str "<unresolved>" end end) with n
    by (destruct Ht as [->|(id & -> & ->)]; done).
  apply field_parse_name in Hp. destruct fwd; [done|]. cbn [negb andb]. destruct Hu as [?|Hu]; [done|]. rewrite Hu in Hp. subst f.
  by destruct p.
Qed.

(** C21: a link field reads the same from the store that keeps the text of the
    database file and from the engine that parsed it, before and after its target
    was resolved: both show the target, the field unless it is [VAL] or the link is
    forward, and both modifiers, as long as the link names a record and spells its
    field in upper case.  A constant is not rendered as a link by either. *)
Theorem tiers_render_links_alike `{FloatText} names fs record n k raw fwd :
  fs !! n = Some raw ->
  match link fs record n k with
  | Ok (Db target p pp mx) => exists t, target = Name t /\
      (t <> [] -> fwd = true \/ (forall f, spelled_field raw = Some f -> to_ascii_uppercase f = f) ->
       forall target', (target' = Name t \/ exists id, target' = Id id /\ names id = Some t) ->
       canonical_link_text raw fwd = Some (render_link names (Db target' p pp mx) fwd))
  | Ok (Constant _) => canonical_link_text raw fwd = None
  | Ok (Unresolved _) => False
  | Err _ => True
  | _ => False
  end.
Proof.
  intros Hf. unfold link, canonical_link_text, spelled_field. rewrite Hf. pose proof (trimmed_words raw) as Hw.
  destruct (Text.trim raw) as [|b t] eqn:Et; [done|]. destruct (Text.parse_f64 (b :: t)); [done|].
  destruct (split_whitespace (b :: t)) as [|spec parts]; [by apply Hw|].
  pose proof (modifiers_agree record n parts false false) as Hm.
  destruct (link_modifiers record n parts false false) as [[pp mx]|e| |]; cbn [bind_outcome]; try done. rewrite Hm. cbn [fst snd].
  destruct (split_once dot spec) as [[t' f]|] eqn:Es.
  - destruct (field_parse f) as [p|] eqn:Ep; [|done]. exists t'. split; [done|]. intros Hne Hu target' Ht.
    assert (Hfn : f <> []) by (intros ->; vm_compute in Ep; done).
    rewrite (render_parsed names target' f fwd pp mx t' p Ht Ep).
    + by destruct t', f.
    + destruct Hu as [?|Hu]; [by left|right; by apply Hu].
  - exists spec. split; [done|]. intros Hne _ target' Ht. f_equal.
    rewrite (render_parsed names target' (str "VAL") fwd pp mx spec FVal Ht eq_refl) by (by right).
    by destruct fwd.
Qed.

Definition link_sample : gmap bytes bytes := {[str "INP" := str "PV:B.SEVR MS"]}.

Lemma tiers_render_links_alike_witness :
  match link link_sample (str "PV:A") (str "INP") Ai with
  | Ok (Db target p pp mx) => exists t, target = Name t /\
      (t <> [] -> false = true \/ (forall f, spelled_field (str "PV:B.SEVR MS") = Some f -> to_ascii_uppercase f = f) ->
       forall target', (target' = Name t \/ exists id, target' = Id id /\ (None : option bytes) = Some t) ->
       canonical_link_text (str "PV:B.SEVR MS") false = Some (@render_link SimpleStore.plain_text (fun _ => None) (Db target' p pp mx) false))
  | Ok (Constant _) => canonical_link_text (str "PV:B.SEVR MS") false = None
  | Ok (Unresolved _) => False
  | Err _ => True
  | _ => False
  end.
Proof.
  exact (@tiers_render_links_alike SimpleStore.plain_text (fun _ => None) link_sample (str "PV:A") (str "INP") Ai (str "PV:B.SEVR MS") false
    ltac:(vm_compute; reflexivity)).
Defined.

(** A field in lower case is accepted by the engine and shown in upper case by
    it; the store shows what the file says. *)
Example lower_case_field_differs :
  let raw := str "PV:B.sevr" in
  link {[str "INP" := raw]} (str "PV:A") (str "INP") Ai = Ok (Db (Name (str "PV:B")) FSevr false false) /\
  canonical_link_text raw false = Some (str "PV:B.sevr NPP NMS") /\
  @render_link SimpleStore.plain_text (fun _ => None) (Db (Name (str "PV:B")) FSevr false false) false = str "PV:B.SEVR NPP NMS".
Proof. vm_compute. done. Qed.

(** ** Claims and gets of field channels *)

(** The types the probe of a claim stands for. *)
Definition probed (v : NtTypes.ScalarValue) : bool :=
  match v with NtTypes.Str _ | NtTypes.I32 _ | NtTypes.F64 _ => true | _ => false end.

(** For every store that keeps the law of the interface, a channel for a field
    can be claimed exactly when it can be read, and for a value that is a string, an
    int or a double, or is read in the long string form, the descriptor the claim
    advertises is that of the payload the read returns. *)
Theorem field_claim_matches_get {P} `{RecordFieldProvider P} (p : P) `{!FieldLaws p} channel :
  match resolve_field_info p channel with
  | None => resolve_field_payload p channel = None
  | Some info => exists fr v payload, parse_field_ref channel = Some fr /\ provided_value p (base fr) (field fr) = Some v /\
      resolve_field_payload p channel = Some payload /\ writable_field info = provided_writable p (field fr) /\
      (probed v || long_string fr = true -> descriptor info = NtEncode.nt_payload_desc payload)
  end.
Proof.
  unfold resolve_field_info, resolve_field_payload. destruct (parse_field_ref channel) as [fr|]; [|done]. cbn [mbind option_bind].
  rewrite provided_agree. destruct (provided_value p (base fr) (field fr)) as [v|] eqn:Ev; [|done]. cbn [fmap option_fmap option_map mbind option_bind].
  set (d := match provided_value p (base fr) (str "DESC") with Some (NtTypes.Str s) => s | _ => [] end).
  unfold descriptor_for_kind, payload_for_value. destruct (long_string fr) eqn:El.
  - destruct v; try done. cbn [field_kind_of mbind option_bind]. rewrite decide_True by done. cbn [mbind option_bind].
    eexists _, _, _. do 4 (split; [done|]). done.
  - eexists _, _, _. do 4 (split; [done|]). rewrite El, orb_false_r. by destruct v.
Qed.

(** The value of a binary record: the claim advertises an int, the read returns a
    boolean from the store and a ushort from the engine. *)
Definition bi_store : SimpleStore.SimplePvStore :=
  SimpleStore.new SimpleStore.t0
    {[str "B" := Records.mkRecord (str "B") Records.TBi Records.default_common
        (Records.Bi (NtTypes.from_value (NtTypes.Bool true)) None [] [] None None false) ∅]}.

Lemma field_claim_matches_get_witness : exists info payload,
  resolve_field_info bi_store (str "B.DESC$") = Some info /\ resolve_field_payload bi_store (str "B.DESC$") = Some payload /\
  descriptor info = NtEncode.nt_payload_desc payload.
Proof.
  pose proof (field_claim_matches_get bi_store (str "B.DESC$")) as Hw.
  destruct (resolve_field_info bi_store (str "B.DESC$")) as [info|] eqn:Ei; [|vm_compute in Ei; discriminate Ei].
  destruct Hw as (fr & v & payload & Ef & _ & Ep & _ & Hd). exists info, payload. split; [reflexivity|]. split; [exact Ep|].
  apply Hd. vm_compute in Ef. injection Ef as <-. apply orb_true_r.
Defined.

Example binary_value_descriptor_differs :
  match resolve_field_info bi_store (str "B.VAL"), resolve_field_payload bi_store (str "B.VAL") with
  | Some info, Some payload =>
    Ty.field (descriptor info) (str "value") = Some (Ty.mkField (str "value") (Ty.Scalar TypeCode.Int32)) /\
    Ty.field (NtEncode.nt_payload_desc payload) (str "value") = Some (Ty.mkField (str "value") (Ty.Scalar TypeCode.Boolean))
  | _, _ => False
  end.
Proof. vm_compute. done. Qed.

End IocBuild.
