(* ===== verification/IocEngine.v ===== *)
(** * The engine loaded from a database

    [spvirit-ioc/src/source.rs]: [from_raw], which takes the records of a database
    file through the loader ([IocBuild.v]) and the lock sets ([LockSet.v]) to a
    source ([IocSource.v]) with its scanner ([Scanner.v]); the handlers of clients,
    [claim], [get], [put] and [subscribe], for records and for their fields; and the
    start and the end of scanning.  A write to a scan field is a task that takes
    its sections one by one ([resume]), so that a session interleaves writes, scans,
    completions and whatever the receivers of monitors do.  The kinds of the records
    and the names of their ids are copies made at the start, which a claim reads
    without a lock.  The theorems say that a session keeps the engine in order and
    that the copies still describe the records. *)

From stdpp Require Import gmap.
From Stdlib Require Import ZArith.
From S2P Require Import Prelude Utf8 Wire PvdTypes PvdEncode PvdDecode Monitor Packet Message NtTypes NtEncode F64 Text Ioc IocSafe UnionFind LockSet.
From S2P Require Import ScanList Scanner DecodedText IocSource Calc CalcParse CalcEval MonitorHub Registry Cycles Graph PutEncode Convert Records Apply SimpleStore Fields IocBuild.

Local Open Scope Z_scope.
Local Open Scope codec_scope.

Module IocEngine.
Import Fields Ioc IocSafe LockSet IocBuild IocSource.

(** ** The engine *)

Section Engine.
Context {D : Type}.

(** The source with what [from_raw] keeps beside it: the copied tables, the scanner,
    the writes to scan fields under way and the channels of field subscriptions. *)
Record Engine := mkEngine {
  source : @Source D;
  kinds : gmap bytes Kind;
  id_names : gmap RecordId bytes;
  scanner : Scanner.Scanner;
  writes : gmap nat Scanner.Task;
  field_subs : list (Chan NtTypes.NtPayload) }.

Definition with_source (e : Engine) (s : @Source D) : Engine :=
  mkEngine s (kinds e) (id_names e) (scanner e) (writes e) (field_subs e).
Definition with_scanner (e : Engine) (sc : Scanner.Scanner) : Engine :=
  mkEngine (source e) (kinds e) (id_names e) sc (writes e) (field_subs e).
Definition with_writes (e : Engine) (ws : gmap nat Scanner.Task) : Engine :=
  mkEngine (source e) (kinds e) (id_names e) (scanner e) ws (field_subs e).
Definition with_field_subs (e : Engine) (fs : list (Chan NtTypes.NtPayload)) : Engine :=
  mkEngine (source e) (kinds e) (id_names e) (scanner e) (writes e) fs.

Definition kinds_of (records : list Rec) : gmap bytes Kind :=
  fold_left (fun m '(k, r) => <[name r := k]> m) (zip (kind <$> records) records) ∅.

Definition id_names_of (d : RecordDb) : gmap RecordId bytes :=
  fold_left (fun m n => match lookup_name d n with Some id => <[id := n]> m | None => m end) (Graph.db_names d) ∅.

(** [RecordDb::build] has no error of its own. *)
Definition from_raw (into_values : gmap nat (list nat) -> list (list nat)) (raw : list DbRecord) (dev : D) : outcome BuildError Engine :=
  let? records := build_records raw in
  match build into_values records with
  | Ok d => Ok (mkEngine (new_source d dev) (kinds_of records) (id_names_of d) Scanner.new_scanner ∅ [])
  | OutOfFuel => OutOfFuel
  | _ => Panic
  end.

(** ** Claims and reads *)

Definition field_claim_sync (e : Engine) (channel : bytes) : option PvInfo :=
  fr ← parse_field_ref channel;
  k ← kinds e !! base fr;
  fk ← record_field_kind k (field fr);
  d ← descriptor_for_kind fk (long_string fr);
  Some (mkInfo d (field_is_writable (field fr))).

Definition field_value `{FloatText} (e : Engine) (b f : bytes) : option NtTypes.ScalarValue :=
  id ← lookup_name (db (source e)) b;
  r ← at_id (db (source e)) id;
  record_field_value (fun t => id_names e !! t) r f.

Definition field_descriptor (e : Engine) (b f : bytes) : option FieldKind :=
  k ← kinds e !! b; record_field_kind k f.

#[export] Instance engine_provider `{FloatText} : RecordFieldProvider Engine := {|
  provided_value := field_value;
  provided_kind := field_descriptor;
  provided_writable := fun _ => field_is_writable |}.

Definition try_claim (e : Engine) (channel : bytes) : Registry.TryClaim :=
  if bool_decide (is_Some (lookup_name (db (source e)) channel)) || bool_decide (is_Some (field_claim_sync e channel))
  then Registry.Yes else Registry.No.

Definition claim (e : Engine) (channel : bytes) : option PvInfo :=
  match lookup_name (db (source e)) channel with
  | None => field_claim_sync e channel
  | Some id => (fun r => mkInfo (NtEncode.nt_payload_desc (to_payload r)) true) <$> at_id (db (source e)) id
  end.

Definition get `{FloatText} (e : Engine) (channel : bytes) : option NtTypes.NtPayload :=
  match lookup_name (db (source e)) channel with
  | None => resolve_field_payload e channel
  | Some id => to_payload <$> at_id (db (source e)) id
  end.

(** ** Writes *)

Inductive PutError :=
| NoValueMember | CannotWrite | NotARecord | ReadOnly | NotAnInteger
| ScanFailed (e : Scanner.ScanPutError) | Failed (e : ProcError).

(** A PUT is answered at once or when its last section is through. *)
Inductive Reply := Replied (r : outcome PutError (list Event)) | Pending (i : nat).

Context (clock : nat -> Z) (registry : Registry D) (spawn : gmap nat Z -> bool).

(** The answer of a write to a scan field: it causes no monitors. *)
Definition scan_reply (r : outcome Scanner.ScanPutError unit) : outcome PutError (list Event) :=
  match r with
  | Ok _ => Ok []
  | Err x => Err (ScanFailed x)
  | Panic => Panic
  | OutOfFuel => OutOfFuel
  end.

Definition start_write (e : Engine) (p : Scanner.Progress) : Reply * Engine :=
  match p with
  | Scanner.Done r => (Replied (scan_reply r), e)
  | Scanner.Next t => let i := fresh (dom (writes e)) in (Pending i, with_writes e (<[i := t]> (writes e)))
  end.

(** The next section of the write [i], on the lock sets and the scanner. *)
Definition resume (e : Engine) (i : nat) : option Reply * Engine :=
  match writes e !! i with
  | None => (None, e)
  | Some t =>
    let '(p, s) := Scanner.section spawn t (Scanner.mkSrc (lock_sets (db (source e))) (scanner e)) in
    let src := source e in
    let e' := with_scanner (with_source e (mkSource (with_lock_sets (db src) (Scanner.sets s)) (subscribers src) (notify_tx src)
                                             (notify_dropped src) (readings src) (devices src))) (Scanner.scanner s) in
    match p with
    | Scanner.Next t => (Some (Pending i), with_writes e' (<[i := t]> (writes e)))
    | Scanner.Done r => (Some (Replied (scan_reply r)), with_writes e' (delete i (writes e)))
    end
  end.

Definition put_field_pv `{HexText} (e : Engine) (channel : bytes) (v : Val.DecodedValue) : Reply * Engine :=
  match parse_field_ref channel with
  | None => (Replied (Err NotARecord), e)
  | Some fr =>
    match lookup_name (db (source e)) (base fr) with
    | None => (Replied (Err NotARecord), e)
    | Some id =>
      if bool_decide (field fr = str "SCAN") then start_write e (Scanner.begin_scan id (DecodedText.decoded_as_string v))
      else if bool_decide (field fr = str "PHAS") then
        match DecodedText.decoded_as_i32 v with
        | None => (Replied (Err NotAnInteger), e)
        | Some ph => start_write e (Scanner.Next (Scanner.PhasStore id ph))
        end
      else if bool_decide (field fr = str "EVNT") then start_write e (Scanner.Next (Scanner.EvntStore id (DecodedText.decoded_as_string v)))
      else (Replied (Err ReadOnly), e)
    end
  end.

Definition put `{HexText} `{FloatText} (e : Engine) (channel : bytes) (v : Val.DecodedValue) : Reply * Engine :=
  match put_value v with
  | None => (Replied (Err NoValueMember), e)
  | Some v =>
    match lookup_name (db (source e)) channel with
    | Some id =>
      match value_of v with
      | None => (Replied (Err CannotWrite), e)
      | Some parsed =>
        let '(r, s) := put_record clock id parsed (source e) in
        (Replied (match r with Ok evs => Ok evs | Err x => Err (Failed x) | Panic => Panic | OutOfFuel => OutOfFuel end), with_source e s)
      end
    | None =>
      match resolve_field_info e channel with
      | Some _ => put_field_pv e channel v
      | None => (Replied (Err NotARecord), e)
      end
    end
  end.

(** ** Subscriptions and scanning *)

(** The channel of a field carries one value; the senders of receivers that are gone
    are dropped first. *)
Definition subscribe `{FloatText} (e : Engine) (channel : bytes) : option Engine :=
  match lookup_name (db (source e)) channel with
  | Some _ => Some (with_source e (subscribe_record channel (source e)))
  | None =>
    initial ← resolve_field_payload e channel;
    let tx := mkChan [] false in
    Some (with_field_subs e (List.filter (fun tx => negb (closed tx)) (field_subs e) ++ [default tx (try_send SUBSCRIBER_QUEUE tx initial)]))
  end.

(** The queue to the monitor registry is opened once. *)
Definition open_notify (s : @Source D) : @Source D :=
  match notify_tx s with
  | Some _ => s
  | None => mkSource (db s) (subscribers s) (Some (mkChan [] false)) (notify_dropped s) (readings s) (devices s)
  end.

(** The lists are filled and the sweep is over before the first thread starts. *)
Definition start_scanning (fuel : nat) (e : Engine) : outcome unit Engine :=
  let s := open_notify (source e) in
  let? sc := Scanner.load_from_db spawn (lock_sets (db s)) (order (db s)) (scanner e) in
  let? ids := pini_order (db s) in
  let? s := process_ids clock registry fuel ids s in
  Ok (with_scanner (with_source e s) (Scanner.start spawn sc)).

(** The task that drains the queue is aborted with its receiver. *)
Definition stop_scanning (e : Engine) : Engine :=
  let s := source e in
  with_scanner
    (with_source e (mkSource (db s) (subscribers s) ((fun tx => mkChan (queue tx) true) <$> notify_tx s) (notify_dropped s) (readings s) (devices s)))
    (Scanner.shutdown (scanner e)).

(** ** Sessions *)

(** What the receiver of a channel does. *)
Inductive Consume := Receive | Hangup.

Definition consume {A} (x : Consume) (c : Chan A) : Chan A :=
  match x with Receive => mkChan (tail (queue c)) (closed c) | Hangup => mkChan (queue c) true end.

Definition on_subscriber (s : @Source D) (channel : bytes) (j : nat) (x : Consume) : @Source D :=
  mkSource (db s) (alter (alter (consume x) j) channel (subscribers s)) (notify_tx s) (notify_dropped s) (readings s) (devices s).

Definition drain (s : @Source D) : @Source D :=
  mkSource (db s) (subscribers s) (consume Receive <$> notify_tx s) (notify_dropped s) (readings s) (devices s).

(** What happens to an engine: a client's PUT, the next section of a write, the
    sweep, a batch of ids from a scan list, from a request to scan once or from
    anywhere else, the completion of device support, subscriptions and their
    receivers, drivers of interrupts, the start and the end of scanning. *)
Inductive EngineOp :=
| OPut (channel : bytes) (v : Val.DecodedValue) | OResume (i : nat) | OPini | OScan (ids : list RecordId) | OComplete (id : RecordId)
| OSubscribe (channel : bytes) | OConsume (channel : bytes) (j : nat) (x : Consume) | OConsumeField (j : nat) (x : Consume) | ODrain
| ORegister (id : RecordId) (ph : Z) (src : bytes) | OUnregister (id : RecordId) | OStart | OStop.

(** The answer of a handler that nothing contains. *)
Definition answered {X A} (r : outcome X A) (e : Engine) : outcome unit Engine :=
  match r with Panic => Panic | OutOfFuel => OutOfFuel | _ => Ok e end.

Definition replied (r : Reply) (e : Engine) : outcome unit Engine :=
  match r with Replied r => answered r e | Pending _ => Ok e end.

Definition engine_step `{HexText} `{FloatText} (fuel : nat) (e : Engine) (op : EngineOp) : outcome unit Engine :=
  match op with
  | OPut n v => let '(r, e) := put e n v in replied r e
  | OResume i => let '(r, e) := resume e i in match r with Some r => replied r e | None => Ok e end
  | OPini => let '(r, s) := process_pini clock (source e) in answered r (with_source e s)
  | OScan ids => let? s := process_ids clock registry fuel ids (source e) in Ok (with_source e s)
  | OComplete id => let '(r, s) := complete clock registry fuel id (source e) in answered r (with_source e s)
  | OSubscribe n => Ok (default e (subscribe e n))
  | OConsume n j x => Ok (with_source e (on_subscriber (source e) n j x))
  | OConsumeField j x => Ok (with_field_subs e (alter (consume x) j (field_subs e)))
  | ODrain => Ok (with_source e (drain (source e)))
  | ORegister id ph src => Ok (with_scanner e (Scanner.register_io_intr (scanner e) id ph src))
  | OUnregister id => Ok (with_scanner e (Scanner.unregister_io_intr (scanner e) id))
  | OStart => start_scanning fuel e
  | OStop => Ok (stop_scanning e)
  end.

Definition session `{HexText} `{FloatText} (fuel : nat) (ops : list EngineOp) (e : Engine) : outcome unit Engine :=
  fold_left (fun r op => let? e := r in engine_step fuel e op) ops (Ok e).

(** A PUT carries a value of the decoder. *)
Definition op_ok (op : EngineOp) : Prop :=
  match op with OPut _ v => forall w, put_value v = Some w -> decoded_ok w | _ => True end.

(** ** What a session keeps *)

Abbreviation names s := (by_name (db s)).

(** The source in order, and every write on a record there is. *)
Record engine_ok (K : Skel) (E : Event -> Prop) (e : Engine) : Prop := {
  e_source : src_ok K E (source e);
  e_writes : forall i t, writes e !! i = Some t -> valid K (Scanner.task_record t) }.

(** An engine with another source, whose names are the same, or other channels. *)
Record moved (e e' : Engine) : Prop := {
  m_names : names (source e') = names (source e);
  m_kinds : kinds e' = kinds e;
  m_ids : id_names e' = id_names e }.

Lemma moved_refl e : moved e e.
Proof. done. Qed.

Lemma in_set_names {A} id (m : @M D A) s : names (in_set id m s).1.1.2 = names s.
Proof. unfold in_set. destruct (lock_sets (db s) !! rset id); [|done]. by destruct (m _). Qed.

Lemma egress_names evs (s : @Source D) : names (egress_flush s evs) = names s.
Proof.
  unfold egress_flush. change (names s) with (names (flush s evs)). generalize (flush s evs). induction evs as [|e evs IH]; [done|].
  intros t. cbn [fold_left]. rewrite IH. unfold send_notify. destruct (notify_tx t); [|done]. by destruct (try_send _ _ _).
Qed.

Ltac through_set :=
  match goal with
  | |- context [in_set ?id ?m ?s] =>
    let H := fresh "Hn" in pose proof (in_set_names id m s) as H; destruct (in_set id m s) as [[[[]?]?]?]; cbn [fst snd] in H
  end.

Lemma put_record_names id v (s : @Source D) : names (put_record clock id v s).2 = names s.
Proof. unfold put_record. by through_set. Qed.

Lemma pini_names ids : forall s : @Source D, names (pini_pass clock ids s).2 = names s.
Proof.
  induction ids as [|id ids IH]; [done|]. intros s. cbn [pini_pass]. unfold pini_record. through_set; try done.
  - destruct a; [specialize (IH (flush s0 l))|specialize (IH s0)]; destruct (pini_pass _ _ _); cbn in *; congruence.
  - specialize (IH (flush s0 l)). destruct (pini_pass _ _ _). cbn in *. congruence.
Qed.

Lemma process_ids_names fuel : forall ids (s s' : @Source D), process_ids clock registry fuel ids s = Ok s' -> names s' = names s.
Proof.
  induction fuel as [|fuel IHf]; intros ids; induction ids as [|id ids IH]; intros s s'; cbn [process_ids]; try by intros [= <-].
  all: through_set; try done; try (intros H%IH; congruence).
  all: destruct l0; try done; try (intros H%IH; rewrite H, egress_names; congruence).
  all: destruct (process_ids clock registry fuel _ _) as [t| | |] eqn:E; try done; cbn [bind_outcome]; intros H%IH;
    apply IHf in E; rewrite H, E, egress_names; congruence.
Qed.

Lemma complete_names fuel id (s s' : @Source D) r : complete clock registry fuel id s = (r, s') -> names s' = names s.
Proof.
  unfold complete. through_set; try by intros [= <- <-].
  all: destruct l0 as [|d ds]; [intros [= <- <-]; rewrite egress_names; congruence|].
  all: destruct (process_ids clock registry fuel (d :: ds) _) as [t| | |] eqn:E; intros [= <- <-]; try done; apply process_ids_names in E;
    rewrite E, egress_names; congruence.
Qed.

(** *** A section of a write *)

(** What a section does to the records: nothing, or the scan fields of one. *)
Definition rescanned (id : RecordId) (sets sets' : list (list Rec)) : Prop :=
  sets' = sets \/ exists f, (forall c, exists raw ph ev, f c = Scanner.set_scan raw ph ev c) /\ sets' = Scanner.upd_record sets id (upd_common f).

Lemma section_rescans t s : is_Some (Scanner.record_at (Scanner.sets s) (Scanner.task_record t)) ->
  let '(p, s') := Scanner.section spawn t s in
  rescanned (Scanner.task_record t) (Scanner.sets s) (Scanner.sets s') /\
  match p with Scanner.Next t' => Scanner.task_record t' = Scanner.task_record t | Scanner.Done r => r <> Panic /\ r <> OutOfFuel end.
Proof.
  intros [r Hr].
  assert (Hst : forall f k, (forall c, exists raw ph ev, f c = Scanner.set_scan raw ph ev c) ->
    (forall c, match k c with Scanner.Next t' => Scanner.task_record t' = Scanner.task_record t | Scanner.Done r => r <> Panic /\ r <> OutOfFuel end) ->
    let '(p, s') := Scanner.store s (Scanner.task_record t) f k in rescanned (Scanner.task_record t) (Scanner.sets s) (Scanner.sets s') /\
    match p with Scanner.Next t' => Scanner.task_record t' = Scanner.task_record t | Scanner.Done r => r <> Panic /\ r <> OutOfFuel end).
  { intros f k Hf Hk. unfold Scanner.store. rewrite Hr. split; [right; exists f; done|apply Hk]. }
  assert (Hpl : forall sc id spec ph ev, Scanner.place spawn sc id spec ph ev <> Panic /\ Scanner.place spawn sc id spec ph ev <> OutOfFuel).
  { intros sc id spec ph ev. destruct spec; cbn; try done. unfold Scanner.add_periodic, Scanner.period_key.
    destruct (_ <=? _); [done|]. destruct (_ =? _); [done|]. cbn. by destruct (_ && _). }
  destruct t; cbn [Scanner.section Scanner.task_record] in *; try (split; [by left|done]).
  - split; [by left|]. unfold Scanner.check_period, Scanner.period_key. destruct (_ <=? _); [done|]. destruct (_ =? _); [done|].
    cbn. destruct (Scanner.periodic _ !! _); [done|]. by destruct (_ <=? _).
  - apply Hst; [intros c; eauto|done].
  - destruct (Hpl (Scanner.scanner s) id spec ph ev) as [H1 H2]. destruct (Scanner.place _ _ _ _ _ _); split; by try left.
  - apply Hst; [intros c; eauto|]. intros c. by destruct (Scanner.parse_scan _).
  - apply Hst; [intros c; eauto|]. intros c. by destruct (Scanner.parse_scan _) as [[]| | |].
Qed.

Lemma alter_at {A} (f : A -> A) (l : list A) i x : l !! i = Some x -> alter f i l = <[i := f x]> l.
Proof. revert i. induction l as [|y l IH]; intros [|i] H; [done..|by injection H as <-|]. cbn. f_equal. by apply IH. Qed.

(** The scan fields are no part of what a source keeps. *)
Lemma rescanned_ok K E (s s' : @Source D) id : src_ok K E s -> valid K id -> rescanned id (lock_sets (db s)) (lock_sets (db s')) ->
  db s' = with_lock_sets (db s) (lock_sets (db s')) -> subscribers s' = subscribers s -> notify_tx s' = notify_tx s -> src_ok K E s'.
Proof.
  intros H Hid Hre Hdb Hsub Hno. destruct (valid_set E K s id H Hid) as (set & Es & Hl). destruct (set_skeleton E K s set _ H Es) as [_ Hset].
  destruct Hre as [He|(f & Hf & He)].
  - apply (src_ok_sets K E s s' (rset id) set set); try done. rewrite list_insert_id by done. by rewrite Hdb, He.
  - assert (Hsk : skeleton <$> alter (upd_common f) (slot id) set = skeleton <$> set).
    { apply list_eq. intros i. rewrite !list_lookup_fmap, list_lookup_alter. destruct (decide (slot id = i)) as [<-|]; [|done].
      destruct (set !! slot id) as [r|]; [|done]. cbn. destruct (Hf (common r)) as (raw & ph & ev & E'). unfold skeleton. cbn. by rewrite E'. }
    apply (src_ok_sets K E s s' (rset id) set (alter (upd_common f) (slot id) set)); try done.
    + apply (skeleton_set_ok set); [done..|]. apply Forall_alter; [apply Hset|]. intros r Hr Hok.
      destruct (Hf (common r)) as (raw & ph & ev & E'). unfold rec_ok in *. cbn. by rewrite E'.
    + rewrite Hdb, He. f_equal. by apply alter_at.
Qed.

(** *** The operations *)

Context (E : Event -> Prop) (F : RecordId -> Prop) `{!Balanced registry} `{!Posts registry E F} (K : Skel).

Definition reply_ok (r : Reply) : Prop := match r with Replied Panic | Replied OutOfFuel => False | _ => True end.

Lemma with_source_ok e s : engine_ok K E e -> src_ok K E s -> names s = names (source e) -> engine_ok K E (with_source e s) /\ moved e (with_source e s).
Proof. intros [_ W] H Hn. by split. Qed.

Lemma start_write_ok e id p : engine_ok K E e -> valid K id ->
  match p with Scanner.Next t => Scanner.task_record t = id | Scanner.Done r => r <> Panic /\ r <> OutOfFuel end ->
  let '(r, e') := start_write e p in engine_ok K E e' /\ moved e e' /\ reply_ok r.
Proof.
  intros [S W] Hid Hp. destruct p as [t|r]; cbn.
  - split; [|done]. split; [done|]. cbn. intros i u [[<- <-]|[_ Hu]]%lookup_insert_Some; [by rewrite Hp|eauto].
  - split; [done|]. split; [done|]. by destruct r, Hp.
Qed.

Lemma begin_scan_total id raw : match Scanner.begin_scan id raw with Scanner.Next t => Scanner.task_record t = id | Scanner.Done r => r <> Panic /\ r <> OutOfFuel end.
Proof. unfold Scanner.begin_scan. destruct (Scanner.parse_scan_bounds raw) as [[->|(spec & ->)] _]; [done|]. by destruct spec. Qed.

Lemma put_field_ok `{hx : HexText} e n v : engine_ok K E e -> let '(r, e') := put_field_pv e n v in engine_ok K E e' /\ moved e e' /\ reply_ok r.
Proof.
  intros H. unfold put_field_pv. destruct (parse_field_ref n) as [fr|]; [|done]. destruct (lookup_name _ _) as [id|] eqn:El; [|done].
  assert (valid K id) as Hid by apply (s_names _ _ _ (e_source _ _ _ H) _ _ El).
  case_bool_decide; [apply (start_write_ok e id); [done..|apply begin_scan_total]|].
  case_bool_decide; [destruct (DecodedText.decoded_as_i32 v); [by apply (start_write_ok e id)|done]|].
  case_bool_decide; [by apply (start_write_ok e id)|done].
Qed.

Lemma put_ok `{hx : HexText} `{ft : FloatText} e n v : engine_ok K E e -> (forall w, put_value v = Some w -> decoded_ok w) ->
  let '(r, e') := put e n v in engine_ok K E e' /\ moved e e' /\ reply_ok r.
Proof.
  intros H Hv. unfold put. destruct (put_value v) as [w|]; [|done]. destruct (lookup_name _ _) as [id|] eqn:El.
  - destruct (value_of w) as [x|] eqn:Ex; [|done]. assert (value_ok x) as Hx by (eapply value_of_ok; eauto).
    assert (valid K id) as Hid by apply (s_names _ _ _ (e_source _ _ _ H) _ _ El).
    pose proof (put_record_ok clock E K (source e) id x (e_source _ _ _ H) Hid Hx) as Hp. pose proof (put_record_names id x (source e)) as Hn.
    destruct (put_record clock id x (source e)) as [r s]. destruct Hp as [Hs Hr]. destruct (with_source_ok e s H Hs Hn). by destruct r.
  - destruct (resolve_field_info e n); [by apply put_field_ok|done].
Qed.

Lemma resume_write_ok e i : engine_ok K E e ->
  let '(r, e') := resume e i in engine_ok K E e' /\ moved e e' /\ match r with Some r => reply_ok r | None => True end.
Proof.
  intros [S W]. unfold resume. destruct (writes e !! i) as [t|] eqn:Et; [|done]. pose proof (W i t Et) as Hid.
  destruct (at_id_valid E K (source e) _ S Hid) as (r & Hr). set (s0 := Scanner.mkSrc _ _).
  pose proof (section_rescans t s0 ltac:(exists r; exact Hr)) as Hs. destruct (Scanner.section spawn t s0) as [p s]. destruct Hs as [Hre Hp].
  set (src := mkSource _ _ _ _ _ _). assert (src_ok K E src) as S' by (by apply (rescanned_ok K E (source e) src (Scanner.task_record t))).
  destruct p as [t'|x].
  - split; [|done]. split; [done|]. cbn. intros j u [[<- <-]|[_ Hu]]%lookup_insert_Some; [by rewrite Hp|eauto].
  - split; [|split; [done|by destruct x, Hp]]. split; [done|]. cbn. intros j u [_ Hu]%lookup_delete_Some. eauto.
Qed.

Lemma subscribe_ok `{ft : FloatText} e n e' : engine_ok K E e -> subscribe e n = Some e' -> engine_ok K E e' /\ moved e e'.
Proof.
  intros H. unfold subscribe. destruct (lookup_name _ _).
  - intros [= <-]. apply with_source_ok; [done| |done]. apply subscribe_record_ok, H.
  - destruct (resolve_field_payload e n); [|done]. intros [= <-]. split; [|done]. split; apply H.
Qed.

Lemma consume_queue {A} (P : A -> Prop) x (c : Chan A) : Forall P (queue c) -> Forall P (queue (consume x c)).
Proof. intros H. destruct x; cbn; [|done]. destruct (queue c); [done|]. by apply Forall_cons in H as [_ ?]. Qed.

Lemma on_subscriber_ok (s : @Source D) n j x : src_ok K E s -> src_ok K E (on_subscriber s n j x).
Proof.
  intros [A B C G H I]. split; try done. cbn. intros m cs Hcs. apply lookup_alter_Some in Hcs as [(<- & cs' & Hcs' & ->)|[_ Hcs]]; [|eauto].
  apply Forall_alter; [eauto|]. intros c _. apply consume_queue.
Qed.

Lemma notify_ok (s : @Source D) f : src_ok K E s -> (forall tx, notify_tx s = Some tx -> Forall (event_good K E) (queue (f tx))) ->
  src_ok K E (mkSource (db s) (subscribers s) (f <$> notify_tx s) (notify_dropped s) (readings s) (devices s)).
Proof. intros [A B C G H I] Hf. split; try done. cbn. destruct (notify_tx s) as [tx|]; [|done]. intros ? [= <-]. by apply Hf. Qed.

Lemma open_notify_ok (s : @Source D) : src_ok K E s -> src_ok K E (open_notify s).
Proof. intros H. unfold open_notify. destruct (notify_tx s); [done|]. destruct H as [A B C G H I]. split; try done. intros ? [= <-]. constructor. Qed.

Lemma load_total sets order sc : Forall (fun id => is_Some (Scanner.record_at sets id)) order ->
  exists sc', Scanner.load_from_db spawn sets order sc = Ok sc'.
Proof. intros Ho. revert sc. induction Ho as [|id order [r Hr] _ IH]; intros sc; cbn; [by eexists|]. rewrite Hr. apply IH. Qed.

Lemma start_scanning_ok fuel e : engine_ok K E e ->
  match start_scanning fuel e with Ok e' => engine_ok K E e' /\ moved e e' | OutOfFuel => exists x, F x | _ => False end.
Proof.
  intros H. unfold start_scanning. pose proof (open_notify_ok _ (e_source _ _ _ H)) as S. set (s := open_notify (source e)) in *.
  assert (names s = names (source e)) as Hn by (unfold s, open_notify; by destruct (notify_tx _)).
  destruct (load_total (lock_sets (db s)) (order (db s)) (scanner e)) as (sc & ->).
  { eapply Forall_impl; [apply (s_order _ _ _ S)|]. intros id Hid. destruct (at_id_valid E K s id S Hid) as (r & Hr). by exists r. }
  destruct (pini_order_ok E K s S) as (ids & -> & _). cbn [bind_outcome].
  pose proof (process_ids_ok clock registry E F fuel ids K s S) as Hp. pose proof (process_ids_names fuel ids s) as Hpn.
  destruct (process_ids clock registry fuel ids s) as [s'| | |]; try done. cbn [bind_outcome].
  destruct (with_source_ok e s' H Hp) as [A B]; [by rewrite (Hpn s' eq_refl)|]. split; [split; apply A|split; apply B].
Qed.

Lemma engine_step_ok `{hx : HexText} `{ft : FloatText} fuel e op : engine_ok K E e -> op_ok op ->
  match engine_step fuel e op with Ok e' => engine_ok K E e' /\ moved e e' | OutOfFuel => exists x, F x | _ => False end.
Proof.
  intros H Hop. pose proof (e_source _ _ _ H) as S. destruct op as [n v|i| |ids|id|n|n j x|j x| |id ph src|id| |]; cbn [engine_step].
  - pose proof (put_ok e n v H Hop) as Hp. destruct (put e n v) as [r e']. destruct Hp as (A & B & C). destruct r as [[]|]; cbn in C |- *; done.
  - pose proof (resume_write_ok e i H) as Hp. destruct (resume e i) as [r e']. destruct Hp as (A & B & C). destruct r as [[[]|]|]; cbn in C |- *; done.
  - destruct (process_pini_ok clock E K (source e) S) as (evs & s & Ep & Hs). unfold process_pini in Ep |- *.
    destruct (pini_order (db (source e))) as [ids| | |]; try done. pose proof (pini_names ids (source e)) as Hn. rewrite Ep in Hn |- *.
    by apply with_source_ok.
  - pose proof (process_ids_ok clock registry E F fuel ids K _ S) as Hp. pose proof (process_ids_names fuel ids (source e)) as Hn.
    destruct (process_ids clock registry fuel ids (source e)); try done. apply with_source_ok; auto.
  - pose proof (complete_ok clock registry E F fuel K id _ S) as Hp. destruct (complete clock registry fuel id (source e)) as [r s] eqn:Ec.
    apply complete_names in Ec. destruct Hp as [Hs Hr]. destruct (with_source_ok e s H Hs Ec). by destruct r.
  - destruct (subscribe e n) as [e'|] eqn:Es; [by apply (subscribe_ok e n)|done].
  - apply with_source_ok; [done| |done]. by apply on_subscriber_ok.
  - split; [|done]. split; apply H.
  - apply with_source_ok; [done| |done]. apply (notify_ok _ (consume Receive)); [done|]. intros tx Htx. by apply consume_queue, (s_notify _ _ _ S).
  - split; [|done]. split; apply H.
  - split; [|done]. split; apply H.
  - by apply start_scanning_ok.
  - destruct (with_source_ok e (mkSource (db (source e)) (subscribers (source e)) ((fun tx => mkChan (queue tx) true) <$> notify_tx (source e))
      (notify_dropped (source e)) (readings (source e)) (devices (source e))) H) as [A B]; [|done|].
    + apply (notify_ok _ (fun tx => mkChan (queue tx) true)); [done|]. intros tx Htx. exact (s_notify _ _ _ S tx Htx).
    + split; [split; apply A|split; apply B].
Qed.

Lemma session_ok `{hx : HexText} `{ft : FloatText} fuel ops : forall e, engine_ok K E e -> Forall op_ok ops ->
  match session fuel ops e with Ok e' => engine_ok K E e' /\ moved e e' | OutOfFuel => exists x, F x | _ => False end.
Proof.
  unfold session. induction ops as [|op ops IH]; intros e H Hops; cbn [fold_left]; [done|]. apply Forall_cons in Hops as [Hop Hops].
  cbn [bind_outcome]. pose proof (engine_step_ok fuel e op H Hop) as Hs. destruct (engine_step fuel e op) as [e1|x| |]; try done.
  - destruct Hs as [H1 M1]. specialize (IH e1 H1 Hops). destruct (fold_left _ ops (Ok e1)); try done. destruct IH as [H2 M2].
    split; [done|]. destruct M1, M2. split; congruence.
  - assert (forall l, fold_left (fun r op => let? e := r in engine_step fuel e op) l OutOfFuel = OutOfFuel) as -> by (by induction l). done.
Qed.

(** ** The copied tables *)

(** The table of kinds describes the records of a source, and every value is of its
    kind. *)
Definition describes (ks : gmap bytes Kind) (s : @Source D) : Prop :=
  forall n, match names s !! n with
            | None => ks !! n = None
            | Some id => exists r, at_id (db s) id = Some r /\ ks !! n = Some (kind r) /\ typed (kind r) (val r)
            end.

Lemma record_typed (s : @Source D) id r : src_ok K E s -> at_id (db s) id = Some r -> typed (kind r) (val r).
Proof.
  intros H. unfold at_id. destruct (lock_sets (db s) !! rset id) as [set|] eqn:Es; [|done]. cbn. intros Hr.
  destruct (s_db _ _ _ H _ _ Es) as [Hset _]. apply (Forall_lookup_1 _ _ _ _ (so_recs _ Hset)) in Hr. apply Hr.
Qed.

Lemma record_kept (s s' : @Source D) id r : src_ok K E s -> src_ok K E s' -> at_id (db s) id = Some r ->
  exists r', at_id (db s') id = Some r' /\ kind r' = kind r.
Proof.
  intros H H'. pose proof (s_skel _ _ _ H) as Ek. rewrite <- (s_skel _ _ _ H') in Ek. unfold at_id.
  destruct (lock_sets (db s) !! rset id) as [set|] eqn:Es; [|done]. cbn. intros Hr.
  assert (skeletons (lock_sets (db s)) !! rset id = Some (skeleton <$> set)) as Hk by (unfold skeletons; by rewrite list_lookup_fmap, Es).
  rewrite Ek in Hk. unfold skeletons in Hk. rewrite list_lookup_fmap in Hk.
  destruct (lock_sets (db s') !! rset id) as [set'|]; [|done]. cbn in Hk |- *. injection Hk as Hk.
  assert ((skeleton <$> set) !! slot id = Some (skeleton r)) as Hs by (by rewrite list_lookup_fmap, Hr).
  rewrite <- Hk, list_lookup_fmap in Hs. destruct (set' !! slot id) as [r'|]; [|done]. exists r'. split; [done|].
  cbn in Hs. unfold skeleton in Hs. congruence.
Qed.

Lemma describes_kept ks (s s' : @Source D) : src_ok K E s -> src_ok K E s' -> names s' = names s -> describes ks s -> describes ks s'.
Proof.
  intros H H' Hn Hd n. rewrite Hn. specialize (Hd n). destruct (names s !! n) as [id|]; [|done].
  destruct Hd as (r & Hr & Hk & _). destruct (record_kept s s' id r H H' Hr) as (r' & Hr' & Er).
  exists r'. split; [done|]. split; [by rewrite Er|]. by apply (record_typed s' id).
Qed.

Lemma engine_laws `{ft : FloatText} (e : Engine) : describes (kinds e) (source e) -> FieldLaws e.
Proof.
  intros Hd b f. cbn. unfold field_descriptor, field_value, lookup_name. specialize (Hd b).
  destruct (names (source e) !! b) as [id|]; [|by rewrite Hd]. destruct Hd as (r & Hr & -> & Ht). cbn [mbind option_bind]. rewrite Hr.
  cbn [mbind option_bind]. by apply record_field_kind_agrees.
Qed.

Lemma claim_is_info `{ft : FloatText} (e : Engine) channel : field_claim_sync e channel = resolve_field_info e channel.
Proof.
  unfold field_claim_sync, resolve_field_info. destruct (parse_field_ref channel) as [fr|]; [|done]. cbn [mbind option_bind].
  cbn [provided_kind provided_writable engine_provider]. unfold field_descriptor. by destruct (kinds e !! base fr).
Qed.

(** ** Descriptors *)

Lemma payload_desc_kind r r' : typed (kind r) (val r) -> typed (kind r') (val r') -> kind r = kind r' ->
  NtEncode.nt_payload_desc (to_payload r) = NtEncode.nt_payload_desc (to_payload r').
Proof.
  intros H H' Ek. rewrite Ek in H. unfold to_payload. destruct (to_nt_alarm _ _) as [[? ?] ?], (to_nt_alarm _ _) as [[? ?] ?]. cbn.
  by destruct (kind r'), (val r), (val r').
Qed.

(** A claim is the same in every state the table of kinds describes. *)
Lemma claim_stable (e e' : Engine) channel : describes (kinds e) (source e) -> describes (kinds e') (source e') -> moved e e' ->
  claim e' channel = claim e channel.
Proof.
  intros H H' [Hn Hk _]. unfold claim, field_claim_sync, lookup_name. rewrite Hn, Hk. specialize (H channel). specialize (H' channel). rewrite Hn, Hk in H'.
  destruct (names (source e) !! channel) as [id|]; [|done]. destruct H as (r & Hr & Hks & Ht), H' as (r' & Hr' & Hks' & Ht').
  rewrite Hr, Hr'. cbn. f_equal. f_equal. apply payload_desc_kind; [done..|]. congruence.
Qed.

Lemma search_agrees (e : Engine) channel : describes (kinds e) (source e) ->
  try_claim e channel = match claim e channel with Some _ => Registry.Yes | None => Registry.No end.
Proof.
  intros Hd. unfold try_claim, claim, lookup_name. specialize (Hd channel). destruct (names (source e) !! channel) as [id|].
  - destruct Hd as (r & -> & _). done.
  - by destruct (field_claim_sync e channel).
Qed.

(** The only field whose descriptor and value can differ is the value of a binary
    record. *)
Lemma unprobed_is_binary `{ft : FloatText} ids r f v : typed (kind r) (val r) -> record_field_value ids r f = Some v -> probed v = false ->
  f = str "VAL" /\ (kind r = Bi \/ kind r = Bo).
Proof.
  intros Ht. unfold record_field_value. destruct (assoc f (field_table ids r)) as [w|] eqn:Ea.
  - intros [= ->] Hp. unfold assoc in Ea. destruct (find _ _) as [[g u]|] eqn:Ef; [|done]. injection Ea as ->.
    apply find_some in Ef as [Hin Hg]. apply bool_decide_eq_true in Hg. cbn in Hg. subst g. unfold field_table in Hin.
    repeat destruct Hin as [[= <- <-]|Hin]; try done. split; [done|]. destruct (kind r), (val r); try done; auto.
  - unfold dbcommon_default_value. destruct (dbcommon_default f) as [[k raw]|]; [|done]. intros [= <-]. cbn.
    destruct k; cbn; [done| |]; by destruct (Text.parse_i32 _) || destruct (Text.parse_f64 _).
Qed.

(** What a channel is claimed as is what it reads as. *)
Definition claim_matches_get `{FloatText} (e : Engine) (channel : bytes) : Prop :=
  match claim e channel, get e channel with
  | None, None => True
  | Some info, Some payload =>
    descriptor info = NtEncode.nt_payload_desc payload \/
    exists fr k, parse_field_ref channel = Some fr /\ field fr = str "VAL" /\ kinds e !! base fr = Some k /\ (k = Bi \/ k = Bo)
  | _, _ => False
  end.

Lemma claims_match `{ft : FloatText} (e : Engine) channel : describes (kinds e) (source e) -> claim_matches_get e channel.
Proof.
  intros Hd. unfold claim_matches_get, claim, get, lookup_name. pose proof (Hd channel) as Hc.
  destruct (names (source e) !! channel) as [id|]; [destruct Hc as (r & -> & _); cbn; by left|].
  pose proof (@field_claim_matches_get _ _ e (engine_laws e Hd) channel) as Hf. rewrite claim_is_info.
  destruct (resolve_field_info e channel) as [info|]; [|by rewrite Hf].
  destruct Hf as (fr & v & payload & Hp & Hv & -> & _ & Hde). destruct (probed v) eqn:Ev; [left; by apply Hde|]. right.
  cbn in Hv. unfold field_value, lookup_name in Hv. specialize (Hd (base fr)). destruct (names (source e) !! base fr) as [id|]; [|done].
  destruct Hd as (r & Hr & Hk & Ht). cbn in Hv. rewrite Hr in Hv. cbn in Hv.
  destruct (unprobed_is_binary _ r (field fr) v Ht Hv Ev). by exists fr, (kind r).
Qed.

(** A channel can be subscribed to exactly when it can be read. *)
Lemma subscribes `{ft : FloatText} (e : Engine) channel : describes (kinds e) (source e) ->
  is_Some (subscribe e channel) <-> is_Some (claim e channel).
Proof.
  intros Hd. pose proof (claims_match e channel Hd) as Hm. unfold claim_matches_get, get in Hm. unfold subscribe.
  destruct (lookup_name (db (source e)) channel) as [id|] eqn:El.
  - split; [|by eexists]. intros _. unfold claim. rewrite El. specialize (Hd channel). unfold lookup_name in El. rewrite El in Hd.
    destruct Hd as (r & -> & _). by eexists.
  - destruct (claim e channel), (resolve_field_payload e channel); try done; split; intros [? [=]]; by eexists.
Qed.

(** A PUT is refused as unknown or read-only exactly where the claim says so. *)
Definition puts_as_claimed `{HexText} `{FloatText} (e : Engine) (channel : bytes) : Prop :=
  forall v w, put_value v = Some w ->
  ((put e channel v).1 = Replied (Err NotARecord) <-> claim e channel = None) /\
  ((put e channel v).1 = Replied (Err ReadOnly) <-> exists info, claim e channel = Some info /\ writable_field info = false).

Lemma start_write_accepts e p : (start_write e p).1 <> Replied (Err NotARecord) /\ (start_write e p).1 <> Replied (Err ReadOnly).
Proof. destruct p as [t|[]]; cbn; split; congruence. Qed.

Lemma put_field_reply `{hx : HexText} e channel fr id v :
  parse_field_ref channel = Some fr -> lookup_name (db (source e)) (base fr) = Some id ->
  (put_field_pv e channel v).1 <> Replied (Err NotARecord) /\
  ((put_field_pv e channel v).1 = Replied (Err ReadOnly) <-> field_is_writable (field fr) = false).
Proof.
  intros Hp Hl. unfold put_field_pv, field_is_writable. rewrite Hp, Hl. cbn [existsb].
  repeat case_bool_decide; cbn [orb]; try congruence;
    try match goal with |- context [start_write ?e ?p] => destruct (start_write_accepts e p); split; [done|split; congruence] end.
  all: try by split.
  all: destruct (DecodedText.decoded_as_i32 v) as [ph|]; [|split; [done|split; done]];
    destruct (start_write_accepts e (Scanner.Next (Scanner.PhasStore id ph))); split; [done|split; congruence].
Qed.

Lemma put_follows_claim `{hx : HexText} `{ft : FloatText} e channel : describes (kinds e) (source e) -> puts_as_claimed e channel.
Proof.
  intros Hd v w Hv. unfold put, claim. rewrite Hv. pose proof (Hd channel) as Hc.
  destruct (lookup_name (db (source e)) channel) as [id|] eqn:Ec; unfold lookup_name in Ec; rewrite Ec in Hc.
  - destruct Hc as (r & -> & _). cbn. assert (forall x, x <> Replied (Err NotARecord) /\ x <> Replied (Err ReadOnly) ->
      (x = Replied (Err NotARecord) <-> (Some (mkInfo (NtEncode.nt_payload_desc (to_payload r)) true)) = None) /\
      (x = Replied (Err ReadOnly) <-> exists info, Some (mkInfo (NtEncode.nt_payload_desc (to_payload r)) true) = Some info /\ writable_field info = false)) as Hx.
    { intros x [H1 H2]. split; split; try done. intros (info & [= <-] & [=]). }
    apply Hx. destruct (value_of w); [|done]. destruct (put_record _ _ _ _) as [[]?]; cbn; split; congruence.
  - rewrite claim_is_info. destruct (resolve_field_info e channel) as [info|] eqn:Ei; [|split; split; try done; intros (i & [=] & _)].
    unfold resolve_field_info in Ei. destruct (parse_field_ref channel) as [fr|] eqn:Ep; [|done]. cbn in Ei. unfold field_descriptor in Ei.
    destruct (kinds e !! base fr) as [k|] eqn:Ek; [|done]. cbn in Ei. destruct (record_field_kind k (field fr)); [|done]. cbn in Ei.
    destruct (descriptor_for_kind _ _) as [d|]; [|done]. injection Ei as <-. specialize (Hd (base fr)).
    destruct (lookup_name (db (source e)) (base fr)) as [id|] eqn:El; unfold lookup_name in El; rewrite El in Hd; [|congruence].
    destruct (put_field_reply e channel fr id w Ep El) as [H1 H2]. split; [split; done|]. rewrite H2. split; [by eexists|]. by intros (i & [= <-] & ?).
Qed.

End Engine.

Lemma built_describes {D} E into_values records (dev : D) d : (forall m, into_values m ≡ₚ (map_to_list m).*2) -> Forall source_ok records ->
  build into_values records = Ok d -> src_ok (skeletons (lock_sets d)) E (new_source d dev) /\ describes (kinds_of records) (new_source d dev).
Proof.
  intros Hv Hs Ed. destruct (built_source_ok E into_values records dev Hv Hs) as (d' & Ed' & Hok). assert (d' = d) as -> by congruence.
  split; [done|]. destruct (build_spec into_values Hv records Hs) as (gs & d' & Hc & Ed'' & _ & Ho & Hn & Hm). assert (d' = d) as -> by congruence.
  destruct (assign_ids_spec records gs Hc) as [Hl _].
  intros n. cbn [source db new_source].
  assert (forall j k, (kind <$> records) !! j = Some k /\ named records n j -> kinds_of records !! n = Some k) as Hks.
  { intros j k Hj. unfold kinds_of. apply fill_zip; [by rewrite length_fmap|]. by exists j. }
  destruct (by_name d !! n) as [id|] eqn:En.
  - rewrite Hn, Ho in En. apply (name_ids_spec records gs Hc) in En as (j & Hj & Hnj). rewrite <- Ho in Hj.
    pose proof Hnj as (r & Hr & _). destruct (built_at records gs d j r Hc Ho Hm Hr) as (id' & Hid' & Hat).
    assert (id' = id) as -> by congruence. exists (resolve_links (by_name d) r).1. split; [done|].
    split; [|exact (record_typed _ _ (new_source d dev) id _ Hok Hat)].
    apply (Hks j). split; [|done]. rewrite list_lookup_fmap, Hr. cbn. unfold resolve_links.
    by destruct (fix_link _ _), (fix_link _ _), (fix_link _ _), (fix_link _ _), (fix_link _ _).
  - destruct (kinds_of records !! n) as [k|] eqn:Ek; [|done]. exfalso. unfold kinds_of in Ek. apply fill_zip in Ek as (j & Hj & Hnj); [|by rewrite length_fmap].
    assert (is_Some (assign_ids (length records) gs !! j)) as [id Hid].
    { apply lookup_lt_is_Some. rewrite Hl. apply lookup_lt_Some in Hj. by rewrite length_fmap in Hj. }
    rewrite Hn, Ho in En. assert (name_ids (assign_ids (length records) gs) records !! n = Some id) by (apply (name_ids_spec records gs Hc); by exists j).
    congruence.
Qed.

(** An engine as [from_raw] leaves it. *)
Lemma loaded_engine {D} E into_values raw (dev : D) : (forall m, into_values m ≡ₚ (map_to_list m).*2) ->
  match from_raw into_values raw dev with
  | Ok e => engine_ok (skeletons (lock_sets (db (source e)))) E e /\ describes (kinds e) (source e)
  | Err x => exists r, r ∈ raw /\ build_one r = Err x /\ err_record x = db_record r
  | _ => False
  end.
Proof.
  intros Hv. unfold from_raw. pose proof (built_records raw) as Hb. destruct (build_records raw) as [records|x| |]; cbn [bind_outcome]; try done.
  - destruct Hb as [Hs _]. destruct (built_source_ok E into_values records dev Hv Hs) as (d & Ed & _). rewrite Ed.
    destruct (built_describes E into_values records dev d Hv Hs Ed) as [Hok Hd]. by split.
  - destruct Hb as (b & r & a & -> & He & Hn & _). exists r. split; [set_solver|done].
Qed.

(** C4: an IOC survives whatever its clients and its devices do.  An engine loaded
    from any database never panics, in any session of PUTs of any decoded value to
    records and to fields, each write to SCAN, PHAS or EVNT one section at a time
    between the other operations, initial sweeps, scans of any ids, completions of
    device support, subscriptions with receivers that read or hang up, interrupt
    registrations and starts and stops of scanning; the panics of passes that run
    device support are contained.  Every set keeps its names, kinds and links, every
    record the representation of its kind, and whatever is queued for a subscriber
    or the monitor registry is a payload of a record of that name, in the type of its
    kind, or one that device support posted.  Device support may panic, post what it
    likes ([E]), drop what a pass has queued and defer records ([F]); of what it is
    given it must only pair every [push_depth] with a [pop_depth].  Deferred records
    are processed in nested batches without a bound in the code: a session can fail
    to end only if device support defers some record. *)
Theorem engine_session_safe {D} {hx : HexText} {ft : FloatText} clock (registry : Registry D) spawn E F fuel into_values raw dev e ops :
  Balanced registry -> Posts registry E F -> (forall m, into_values m ≡ₚ (map_to_list m).*2) ->
  from_raw into_values raw dev = Ok e -> Forall op_ok ops ->
  match session clock registry spawn fuel ops e with
  | Ok e' => engine_ok (skeletons (lock_sets (db (source e)))) E e'
  | OutOfFuel => exists id, F id
  | _ => False
  end.
Proof.
  intros Hb Hp Hv He Hops. pose proof (loaded_engine E into_values raw dev Hv) as Hl. rewrite He in Hl. destruct Hl as [Hok _].
  pose proof (session_ok clock registry spawn E F _ fuel ops e Hok Hops) as Hs. destruct (session _ _ _ _ _ _); try done. apply Hs.
Qed.


(** ** A session *)

Definition sample_db : list DbRecord :=
  [mkDb (str "ai") (str "A") {[str "INP" := str "B PP"; str "SCAN" := str "1 second"]}; mkDb (str "bi") (str "B") {[str "VAL" := str "1"]};
   mkDb (str "longin") (str "C") {[str "PINI" := str "1"; str "INP" := str "A"]}].

#[local] Instance sample_hex : HexText := fun _ => [].
#[local] Instance sample_floats : FloatText := SimpleStore.plain_text.

(** The second record of a set posts an event of its own, the third panics. *)
Definition engine_ops : list EngineOp :=
  [OSubscribe (str "A"); OSubscribe (str "A.DESC"); OStart; OPut (str "A.SCAN") (Val.String (str "Event")); OResume 0;
   OPut (str "A.EVNT") (Val.Structure [(str "value", Val.Int32 5)]); OScan [mkId 0 0; mkId 7 7; mkId 0 2; mkId 0 1]; OResume 1; OResume 0; OResume 0; OResume 0; OResume 0;
   OConsume (str "A") 0 Receive; OPut (str "A") (Val.Float64 0x4014000000000000); ODrain; OPut (str "A.PHAS") (Val.String (str " 3 ")); OComplete (mkId 0 1); OStop].

(** The writes in [engine_ops], what is left of them, the fields of A and what its
    subscriber has to read. *)
Example sample_session :
  match from_raw values_of sample_db tt with
  | Ok e =>
    match session sample_clock drivers (fun _ => true) 0 engine_ops e with
    | Ok e' =>
      (map_to_list (writes e'), (fun r => (scan_raw (common r), evnt (common r), phas (common r))) <$> at_id (db (source e')) (mkId 0 0),
       length <$> (queue <$> default [] (subscribers (source e') !! str "A")))
    | _ => ([], None, [])
    end
  | _ => ([], None, [])
  end = ([(2%nat, Scanner.PhasStore (mkId 0 0) 3); (1%nat, Scanner.EvntLeave (mkId 0 0) 0 (str "5"))], Some (str "Event", str "5", 0), [2%nat]).
Proof. vm_compute. done. Qed.

#[local] Instance engine_drivers_balanced : Balanced drivers.
Proof. intros [k [|[|[|i]]]] start n b c o c'; try done; cbn; intros [= <-]; by intros [= <- <-]. Qed.

Lemma engine_ops_ok : Forall op_ok engine_ops.
Proof. repeat constructor; cbn; intros w [= <-]; cbn; unfold in_i32, F64.i32_min, F64.i32_max; try lia; exact I. Qed.

Lemma values_of_any m : values_of m ≡ₚ (map_to_list m).*2.
Proof. done. Qed.

(** The session of [engine_ops] ends, on an engine that claims the field SCAN of A
    and no D. *)
Lemma engine_ops_run :
  match from_raw values_of sample_db tt with
  | Ok e => match session sample_clock drivers (fun _ => true) 5 engine_ops e with Ok _ => true | _ => false end &&
            bool_decide (is_Some (claim e (str "A.SCAN"))) && bool_decide (claim e (str "D") = None)
  | _ => false
  end = true.
Proof. vm_compute. reflexivity. Qed.

Lemma engine_session_safe_witness : exists e e',
  from_raw values_of sample_db tt = Ok e /\ session sample_clock drivers (fun _ => true) 5 engine_ops e = Ok e' /\ db_ok (lock_sets (db (source e'))).
Proof.
  pose proof engine_ops_run as Hr. destruct (from_raw values_of sample_db tt) as [e| | |] eqn:E; [|discriminate Hr..].
  pose proof (engine_session_safe sample_clock drivers (fun _ => true) (fun _ => True) (fun _ => True) 5 values_of sample_db tt e engine_ops
    engine_drivers_balanced (posts_any drivers) values_of_any E engine_ops_ok) as H.
  exists e. destruct (session _ _ _ _ _ _) as [e'| | |]; [|discriminate Hr..].
  exists e'. split; [reflexivity|]. split; [reflexivity|]. apply H.
Defined.


End IocEngine.
